(* ===== verification/_CoqProject ===== *)
-Q . S2P
Prelude.v
Utf8.v
AtomicFile.v
MsgQueue.v
MsgQueueSystem.v
MsgQueueInv.v
MsgQueueSafety.v
MsgQueueDrain.v
MsgQueueCommit.v
MsgQueueLedger.v
MsgQueueOrder.v
MsgQueueProps.v
Conversations.v
ConversationsProps.v
Devices.v
DevicesProps.v
Strconv.v
History.v
HistoryProps.v
HistoryAppend.v
HistoryRead.v
HistoryLookup.v
HistoryLookupInv.v
HistoryLookupProps.v
HistorySync.v
HistoryForward.v
HistoryForwardProps.v
Attachments.v
AttachmentsProps.v
Permbridge.v
PermbridgeInv.v
PermbridgeProps.v
Sessions.v
SessionsInv.v
SessionsProps.v
SessionsCap.v
ThreadIndex.v
ThreadTree.v
ThreadIndexInv.v
ThreadAdvance.v
ThreadActivity.v
ThreadPublish.v
ThreadQuery.v
ThreadPages.v
ThreadWindows.v
ThreadChildren.v
ThreadSync.v
ThreadCatchUp.v
ThreadStore.v
ThreadFeed.v
ThreadInit.v
ThreadStoreInv.v
ThreadWitness.v
StreamArgs.v
StreamRunner.v
StreamBackoff.v
StreamSystem.v
StreamInv.v
StreamRotation.v
StreamRestart.v
StreamPosture.v
StreamWatchdog.v
StreamWatchdogProps.v
StreamWitness.v
RelayQueue.v
RelayQueueProps.v
RelayHello.v
RelayVersions.v
RelayHelloProps.v
RelayLive.v
RelayLiveOrder.v
RelayLiveProps.v
TransportConnect.v
TransportConnectProps.v
Transport.v
TransportLife.v
TransportSends.v
TransportWaits.v
TransportProps.v
Update.v
