(* ===== verification/Prelude.v ===== *)
(** * pyrycode: a verification library (root)

    [pyry] is a daemon that supervises sessions of a coding agent and lets
    paired phones talk to them. A phone's message reaches the daemon through
    the relay, waits in its conversation's queue, is written to the session of
    that conversation, whose process the session's lifecycle starts and stops,
    and what is said is kept in the conversation's log, from which phones read
    it back. Tools the agent wants to run are parked until the operator
    approves them; files are uploaded in chunks.

    ** The parts, and where they are

    - The inbound queue, [internal/msgqueue]. [MsgQueue]: the state of
      [queue.go] and [lifecycle.go] and every critical section under [q.mu] as
      a function on it; messages point into a store of lifecycle records, since
      copies share one. [MsgQueueSystem]: the drain goroutines, deliveries,
      notifications and callers as threads whose steps interleave at every
      unlock. [MsgQueueInv], [MsgQueueSafety], [MsgQueueDrain],
      [MsgQueueCommit], [MsgQueueLedger], [MsgQueueOrder]: its invariants.
      [MsgQueueProps]: a message is notified of one end and, but for writes
      that the shutdown leaves queued, written at most once, is in one place, a
      conversation has one drain and no message is left without one, and order
      is kept but for a failed delivery put back.
    - The conversation registry, [internal/conversations]. [Conversations]:
      [registry.go], [archive.go], [sweep.go], [conversation.go], [id.go], and
      the rows that the daemon creates and edits with it.
      [ConversationsProps]: the well-formedness every operation keeps and how
      many promoted rows can share a name, what is persisted when it fails, the
      round trip through the file, the sweep.
    - Paired devices, [internal/devices]. [Devices]: the registry, token
      validation, the binding to a static key, the reload from disk and the
      lock between processes. [DevicesProps]: who is admitted, that a bound key
      stays, what a reload reconciles, that waiting for the lock ends.
    - Replacing a file, [AtomicFile]: the sequence the registries and the
      uploads share, with a failure at any stage, that of removing the
      temporary included.
    - The conversation log, [internal/history]. [History]: cursors, segment
      files, appends and pages ([cursor.go], [segment.go], [log.go]);
      [HistoryRead]: lookups through their two caches, the forward reader and
      [Sync] ([lookup.go], [lookup_cache.go], [forward.go], [sync.go]).
      [HistoryProps]: cursors and names round-trip, and paging backwards yields
      each entry once. [HistoryAppend]: the store refines a list of numbered
      entries, with writes failing or cut short anywhere. [HistoryLookup],
      [HistoryLookupInv], [HistoryLookupProps]: lookups are exact, whatever the
      caches hold. [HistoryForward], [HistoryForwardProps]: the forward reader
      delivers each entry once, beside any other calls. [HistorySync]: what a
      sync makes durable.
    - Uploads, [internal/attachments]. [Attachments]: admission, the
      accumulator of chunks, the registry of transfers, file names and storage.
      [AttachmentsProps]: a stored name is one safe path component, memory is
      bounded, what is stored is what was declared, in any order of chunks.
    - Pending approvals, [internal/permbridge]. [Permbridge]: the offers parsed
      from a batch, and the registry with its timers, cut at every unlock.
      [PermbridgeInv], [PermbridgeProps]: one verdict, denied unless resolved,
      by its deadline; the parser against its specification.
    - Session lifecycles, [internal/sessions]. [Sessions]: the goroutine that
      alternates between active and evicted ([session.go]), and the pool's
      activation under a cap, removal and minting ([pool.go],
      [pool_remove.go], [pool_mint.go]), cut at every lock, channel operation
      and call out. [SessionsInv]: the invariant. [SessionsProps]: channels
      keep their promises and no wakeup is lost. [SessionsCap]: the cap on the
      registered sessions, and by how much removals exceed it, while no caller
      gives up. Its module [SessionsEdges]: five runs outside the promises. The module
      [SessionsRuns] of [SessionsInv]: the runs used as examples.
    - Threads, [internal/thread]: what a conversation shows, kept by a worker
      per conversation, asked for in windows, pages and updates.
      [ThreadIndex]: the persistent balanced trees and the index of nine of
      them that a publication replaces ([query_tree.go], [compact_queries.go],
      [child_headers.go]). [ThreadQuery]: every query up to the items it
      chooses ([queries.go], [catch_up.go], [child_pages.go],
      [compact_queries.go], [compact_intervals.go]). [ThreadStore]: a worker's
      first index, its publications, the changes it retains, and the store's
      critical sections ([store.go], [store_resume.go],
      [observations_store.go]). [ThreadTree]: the trees are balanced search
      trees that hold a sorted list. [ThreadIndexInv], [ThreadAdvance],
      [ThreadActivity], [ThreadPublish]: the index is exact for a map of rows,
      and a publication keeps it so and stamps what is above a change;
      [ThreadInit]: so is the first one. [ThreadPages], [ThreadWindows],
      [ThreadChildren]: pages chained give every row once. [ThreadSync],
      [ThreadCatchUp]: what a client has, patched with an answer, is what the
      later publication has. [ThreadFeed]: the feed of changes has no gaps.
      [ThreadStoreInv]: what is shown is exact in every state the store can
      reach. [ThreadWitness]: a conversation followed, as the example of all.
    - The supervised stream, [internal/streamsup]: the process that runs the
      agent, its restarts, and the gates before a turn. [StreamArgs]: the
      arguments and the environment of a spawn ([runner_spawn.go],
      [envelope.go]). [StreamRunner]: the fields under each of the runner's
      locks with the sections on them, the posture gate, the restart ladder
      ([runner.go], [runner_turns.go], [runner_control.go], [posture_gate.go],
      [backoff.go], [crash_loop.go], [state.go]). [StreamSystem]: [Run]'s loop,
      restarts, the frame that starts a new session
      ([cmd/pyry/new_session_starter.go]), user turns and changes of the
      permission mode as threads, with the child, the parser and the pool.
      [StreamInv]: numbering and the one frame at a time. [StreamRotation]:
      turns go to no child that a rotation replaces, nor to one bound when a
      teardown was armed. [StreamRestart]: no
      restart is lost. [StreamPosture]: no turn before the child has confirmed
      its permission mode. [StreamBackoff]: the delays and crash episodes of a
      sequence of exits. The module [StreamEdges] of
      [StreamWitness]: runs outside these promises.
      [StreamWatchdog], [StreamWatchdogProps]: [watchdog.go], each stall
      signalled once, in time. [StreamWitness]: the runs used as examples.
    - Relay sessions, [internal/relay]: the encrypted sessions phones speak to
      the daemon over. [RelayQueue]: the bounded queue of a session's output
      ([v2session_modal.go]). [RelayQueueProps]: what it gives up under
      pressure, in which order the rest comes, and what latches its overflow. [RelayHello]: a phone's
      first message, its version ([protocol/client_version.go]), the
      capabilities granted and whether it is admitted
      ([v2session_handshake.go]). [RelayVersions]: the one way to write a
      version. [RelayHelloProps]: who is admitted, and that a pairing is one
      phone's.
      [RelayLive]: how a reading of a conversation's live state reaches a
      phone, by the drain of the queues or from a fresh session's snapshot
      ([v2session_livestate.go], [v2session_push.go], the admission of
      [v2session_hosted.go]), as programs of the manager's goroutine in which
      producers run at every lock; what the lane and the conversation's
      registry answer is the environment's. [RelayLiveOrder]: what it is for
      readings to be in order, and what a phone then shows. [RelayLiveProps]:
      every session's are.
    - The connection to the relay, [internal/transport/wssclient.go].
      [TransportConnect]: what is let through of an error, the waits, and the
      loop that dials and serves, with what it meets as its input.
      [TransportConnectProps]: how long a conflict is borne with.
      [Transport]: sends, receives, the goroutines of a socket, [serve],
      closing and dropping as one step function, cut at every lock, channel
      operation and call out. [TransportLife]: one socket is served at a time
      and its goroutines end with it. [TransportSends]: the invariant of the
      sends. [TransportWaits], with its module [TransportWind]: what is waited
      for comes, and how. [TransportProps], with its module
      [TransportReceives]: what senders and receivers are promised.
    - Self-update, [internal/update]. [Update]: versions and which release may
      be installed unasked.
    - [Utf8], [Strconv]: what the code uses of Go's strings, [strconv], [fmt]
      and base64. This file: integers, durations, instants, Go's slices and
      stable sort, automation.

    ** How the code is read

    A method under a mutex is a function from the state to the state and its
    results, error paths included. Where several goroutines meet, a state
    holds their program points and a step is one critical section, channel
    operation or call out; theorems quantify over all lists of steps, so over
    all interleavings, or are by induction on the step relation. The order a Go
    map is walked in, the clock, what the file system answers, and which ready
    case a [select] takes are inputs of the step that meets them. [int] and
    [int64] arithmetic wraps as [i64] says wherever the operands are not
    bounded by the code; instants are nanoseconds, so a duration's saturation
    ([Sub], [Round]) is kept. A buffered channel of one is a boolean; a channel
    that is closed and replaced is a number, with the set of those closed. What
    is only noted for the theorems, the event [EvLeft] of the queue and the
    record [ghost] of the stream, no step reads.

    In the transport client a context derived from another is done after it, at
    once or any time later; a socket's answers are acts of the environment, and
    [own] of [TransportWind] says which acts are the client's own.

    The relay's manager asks its environment by number, so its runs are
    functions of the answers, and theorems quantify over these.

    JSON encoding, hashing and the cost the cache assigns to a segment are
    parameters, with what is used of them as hypotheses of the theorems; each
    such theorem is applied to concrete functions by its witness.

    ** Fuel

    [decode_lines] takes the length of the data and consumes a byte or more a
    turn; [truncateToBytes] takes the length of the name and drops a byte or
    more a turn; the binary searches and the chunking take the length of the
    list. More fuel changes nothing ([decode_lines_fuel]) or the lemma on the
    loop assumes no more than what it is given ([search_loop_spec],
    [chunks_spec], [answer_loop_spec], [walk_spec]). In a thread's index
    [ancestors] marks a row more each turn and takes one turn more than there
    are rows ([mark_spec]); [activity_loop] takes each dirty row from its stack
    once ([activity_loop_spec]); [parents_loop] goes over the items it has and
    adds a row not seen before ([parents_loop_spec]).

    ** Not modelled

    The processes, sockets, files of settings and prompts, and the wiring of
    [cmd/pyry]: I/O and calls in an order the models leave open. The relay's
    handlers, its ordered lane past admission, its rekeying, the parser of the agent's output,
    the bridge to phones, the registries of modals and questions, frame
    dispatch, the rest of the daemon's update of itself and model families: program logic
    that is not modelled here. Keys and the Noise handshake: cryptography of
    other libraries. Of the modelled packages: of [sessions], settings, prompts, the
    registry file, id rotation and dormant sessions; of [streamsup], the lines
    written to the agent and parsed from it, and how a query's answer finds its
    asker; its counters wrap at 2^64, and the theorems on its runs are about
    those of fewer than 2^64 - 1 steps ([reaches_by]); of [thread], the fold of
    the log's entries into items, their rendering and the checkpoints, so what
    a publication has of the fold is an input, with the fold's promises as
    hypotheses ([capture_ok], [change_ok], [stamps]: parents are older than
    their children, ids are met once, a row changed since the last publication
    is touched since). That the index a publication replaces stays as it was
    for those who still read it is taken for granted by functions. *)
From Stdlib Require Import ZArith Lia.
From stdpp Require Import prelude gmap strings list sorting.

(** ** Go integers, durations and instants *)

(** [u64 n] is the value a [uint64] holds after the arithmetic produced [n]. *)
Definition u64 (n : Z) : Z := n `mod` 2 ^ 64.

Definition min_int64 : Z := - 2 ^ 63.
Definition max_int64 : Z := 2 ^ 63 - 1.

(** The value an [int64] (or an [int], 64 bits on every supported platform)
    holds after the arithmetic produced [n]. *)
Definition i64 (n : Z) : Z := (n + 2 ^ 63) `mod` 2 ^ 64 - 2 ^ 63.

(** Durations are nanoseconds in an [int64]. *)
Definition nanosecond : Z := 1.
Definition second : Z := 1000000000.
Definition minute : Z := 60 * second.
Definition hour : Z := 60 * minute.

(** An instant is its number of nanoseconds since the zero [time.Time]
    (January 1, year 1, UTC): the zero value is the instant [0], and
    [t.UTC()] changes the presentation of an instant, not the instant. *)
Definition instant : Type := Z.
Definition zero_time : instant := 0%Z.
Definition IsZero (t : instant) : bool := bool_decide (t = zero_time).
Definition Before (t u : instant) : bool := bool_decide (t < u)%Z.

(** [time.Time.Sub]: the difference saturates at the bounds of [int64]. *)
Definition Sub (t u : instant) : Z := (min_int64 `max` (max_int64 `min` (t - u)))%Z.

(** [time.Duration.Round]: to the nearest multiple of [m], halves away from
    zero, saturating where the result leaves [int64]. *)
Definition Round (d m : Z) : Z :=
  if (m <=? 0)%Z then d
  else
    let r := Z.rem d m in
    if (d <? 0)%Z
    then let r := (- r)%Z in
         if (r + r <? m)%Z then (d + r)%Z
         else if (d - m + r <? min_int64)%Z then min_int64 else (d - m + r)%Z
    else if (r + r <? m)%Z then (d - r)%Z
         else if (max_int64 <? d + m - r)%Z then max_int64 else (d + m - r)%Z.

Lemma u64_small n : (0 <= n < 2 ^ 64)%Z -> u64 n = n.
Proof. intros. by apply Z.mod_small. Qed.

Lemma u64_range n : (0 <= u64 n < 2 ^ 64)%Z.
Proof. apply Z.mod_pos_bound. lia. Qed.

Lemma i64_small n : (min_int64 <= n <= max_int64)%Z -> i64 n = n.
Proof. unfold i64, min_int64, max_int64. intros. rewrite Z.mod_small; lia. Qed.

Lemma i64_range n : (min_int64 <= i64 n <= max_int64)%Z.
Proof.
  unfold i64, min_int64, max_int64.
  pose proof (Z.mod_pos_bound (n + 2 ^ 63) (2 ^ 64) ltac:(lia)). lia.
Qed.

Lemma Sub_range t u : (min_int64 <= Sub t u <= max_int64)%Z.
Proof. unfold Sub, min_int64, max_int64. lia. Qed.

Lemma Sub_small t u :
  (min_int64 <= t - u <= max_int64)%Z -> Sub t u = (t - u)%Z.
Proof. unfold Sub. lia. Qed.

(** [len] of a string, as a Go [int]. *)
Definition slen (s : string) : Z := Z.of_nat (String.length s).

(** ** Results that may be errors *)

Declare Scope pyry_scope.
Delimit Scope pyry_scope with pyry.

(** [v, err := e; if err != nil { return ..., err }]. *)
Notation "'let?' p := e 'in' k" := (match e with inl p => k | inr err => inr err end)
  (at level 10, p pattern, e at level 200, k at level 200) : pyry_scope.

(** ** Tactics *)

(** Case analysis on the innermost discriminee of a goal or hypothesis, with
    the equation kept; [solve_cases] closes what computation then decides. *)
Ltac case_goal :=
  match goal with
  | |- context [match ?x with _ => _ end] =>
      lazymatch x with
      | context [match _ with _ => _ end] => fail
      | _ => destruct x eqn:?
      end
  end.

Ltac case_hyp H :=
  match type of H with
  | context [match ?x with _ => _ end] =>
      lazymatch x with
      | context [match _ with _ => _ end] => fail
      | _ => destruct x eqn:?
      end
  end.

Ltac solve_cases := repeat case_goal; simplify_eq/=; try done; try lia.

(** Turn the boolean tests of the source into the propositions they decide. *)
Ltac reflect_bools :=
  repeat match goal with
  | H : bool_decide _ = true |- _ => apply bool_decide_eq_true in H
  | H : bool_decide _ = false |- _ => apply bool_decide_eq_false in H
  | H : (_ && _)%bool = true |- _ => apply andb_true_iff in H; destruct H
  | H : (_ || _)%bool = false |- _ => apply orb_false_iff in H; destruct H
  | H : negb _ = true |- _ => apply negb_true_iff in H
  | H : negb _ = false |- _ => apply negb_false_iff in H
  | H : (_ =? _)%Z = true |- _ => apply Z.eqb_eq in H
  | H : (_ =? _)%Z = false |- _ => apply Z.eqb_neq in H
  | H : (_ <? _)%Z = true |- _ => apply Z.ltb_lt in H
  | H : (_ <? _)%Z = false |- _ => apply Z.ltb_ge in H
  | H : (_ <=? _)%Z = true |- _ => apply Z.leb_le in H
  | H : (_ <=? _)%Z = false |- _ => apply Z.leb_gt in H
  end.

(** ** Generic list operations of the source *)

(** [slices.IndexFunc], with [None] for its [-1]. *)
Fixpoint IndexFunc {A} (p : A -> bool) (l : list A) : option nat :=
  match l with
  | [] => None
  | x :: l => if p x then Some 0 else S <$> IndexFunc p l
  end.

(** The loop [for i := range l { if p(l[i]) { l[i] = f(l[i]); return true } }]:
    the first matching element is updated in place. *)
Fixpoint update_first {A} (p : A -> bool) (f : A -> A) (l : list A) : list A :=
  match l with
  | [] => []
  | x :: l => if p x then f x :: l else x :: update_first p f l
  end.

(** The first matching element, of the loop [for _, x := range l]. *)
Fixpoint find_first {A} (p : A -> bool) (l : list A) : option A :=
  match l with
  | [] => None
  | x :: l => if p x then Some x else find_first p l
  end.

(** [append(l[:i], l[i+1:]...)]. *)
Definition remove_at {A} (i : nat) (l : list A) : list A := take i l ++ drop (S i) l.

(** [slices.Insert(l, i, x)]. *)
Definition insert_at {A} (i : nat) (x : A) (l : list A) : list A :=
  take i l ++ x :: drop i l.

(** [sort.SliceStable]: the stable order by [less]. *)
Fixpoint insert_stable {A} (less : A -> A -> bool) (x : A) (l : list A) : list A :=
  match l with
  | [] => [x]
  | y :: l' => if less y x then y :: insert_stable less x l' else x :: l
  end.
Definition SliceStable {A} (less : A -> A -> bool) (l : list A) : list A :=
  foldr (insert_stable less) [] l.

Section sorts.
Context {A : Type} (less : A -> A -> bool).
Definition not_after (x y : A) : Prop := less y x = false.

Lemma insert_stable_Permutation x l : insert_stable less x l ≡ₚ x :: l.
Proof.
  induction l as [|y l IH]; simpl; [done|]. destruct (less y x); [|done].
  rewrite IH. apply Permutation_swap.
Qed.

Lemma SliceStable_Permutation l : SliceStable less l ≡ₚ l.
Proof. induction l as [|x l IH]; simpl; [done|]. by rewrite insert_stable_Permutation, IH. Qed.

Lemma SliceStable_Sorted l :
  (forall x y, less x y = true -> less y x = false) -> Sorted not_after (SliceStable less l).
Proof.
  intros Hasym. induction l as [|x l IH]; simpl; [constructor|].
  revert IH. generalize (SliceStable less l) as m. clear l.
  induction m as [|y m IH]; simpl; intros Hs; [repeat constructor|].
  apply Sorted_inv in Hs as [Hs Hh]. destruct (less y x) eqn:E.
  - constructor; [by apply IH|]. destruct m as [|z m]; simpl.
    + constructor. unfold not_after. by apply Hasym.
    + destruct (less z x); constructor; [by inversion Hh|]. unfold not_after. by apply Hasym.
  - constructor; [by constructor|]. by constructor.
Qed.
End sorts.

Section lists.
Context {A : Type}.
Implicit Types (p : A -> bool) (l : list A).

Lemma IndexFunc_Some p l i :
  IndexFunc p l = Some i <->
  (exists x, l !! i = Some x /\ p x = true) /\
  (forall j y, j < i -> l !! j = Some y -> p y = false).
Proof.
  revert i. induction l as [|x l IH]; intros i; simpl.
  { split; [done|]. intros [(y & Hy & _) _]. by rewrite lookup_nil in Hy. }
  destruct (p x) eqn:Hp.
  - split.
    + intros [= <-]. split; [eauto|]. intros j y Hj. lia.
    + intros [_ H]. destruct i as [|i]; [done|].
      specialize (H 0 x ltac:(lia) eq_refl). congruence.
  - rewrite fmap_Some. split.
    + intros (j & [(y & Hy & Hpy) Hlt]%IH & ->). split; [by exists y|].
      intros [|k] z Hk Hz; simplify_eq/=; [done|]. apply (Hlt k); [lia|done].
    + intros [(y & Hy & Hpy) Hlt]. destruct i as [|i]; simpl in *; [congruence|].
      exists i. split; [|done]. apply IH. split; [eauto|].
      intros j z Hj Hz. apply (Hlt (S j)); [lia|done].
Qed.

Lemma IndexFunc_None p l :
  IndexFunc p l = None <-> forall x, x ∈ l -> p x = false.
Proof.
  induction l as [|x l IH]; simpl.
  { split; [|done]. intros _ x Hx. by apply not_elem_of_nil in Hx. }
  destruct (p x) eqn:Hp.
  - split; [done|]. intros H. rewrite (H x) in Hp; [done|]. by left.
  - rewrite fmap_None, IH. split.
    + intros H y [->|Hy]%elem_of_cons; auto.
    + intros H y Hy. apply H. by right.
Qed.

Lemma find_first_Some p l x :
  find_first p l = Some x -> x ∈ l /\ p x = true.
Proof.
  induction l as [|y l IH]; simpl; [done|].
  destruct (p y) eqn:Hp; [intros [= ->]; split; [by left|done]|].
  intros [??]%IH. split; [by right|done].
Qed.

Lemma find_first_None p l :
  find_first p l = None <-> forall x, x ∈ l -> p x = false.
Proof.
  rewrite <- IndexFunc_None. induction l as [|y l IH]; simpl; [done|].
  destruct (p y); [done|]. by rewrite fmap_None.
Qed.

Lemma update_first_id p f l :
  find_first p l = None -> update_first p f l = l.
Proof.
  induction l as [|y l IH]; simpl; [done|].
  destruct (p y); [done|]. intros ?. by rewrite IH.
Qed.

Lemma length_update_first p f l : length (update_first p f l) = length l.
Proof. induction l as [|y l IH]; simpl; [done|]. destruct (p y); simpl; auto. Qed.

(** What a lookup by [q] finds after an update of the first match of [p]. *)
Lemma find_update_first_eq p f l x :
  (forall y, p y = true -> p (f y) = true) ->
  find_first p l = Some x -> find_first p (update_first p f l) = Some (f x).
Proof.
  intros Hf. induction l as [|y l IH]; simpl; [done|].
  destruct (p y) eqn:Hp; simpl.
  - intros [= ->]. by rewrite Hf.
  - rewrite Hp. auto.
Qed.

Lemma find_update_first_ne p q f l :
  (forall y, p y = true -> q y = false /\ q (f y) = false) ->
  find_first q (update_first p f l) = find_first q l.
Proof.
  intros Hf. induction l as [|y l IH]; simpl; [done|].
  destruct (p y) eqn:Hp; simpl.
  - destruct (Hf _ Hp) as [-> ->]. done.
  - destruct (q y); auto.
Qed.

Lemma fmap_update_first {B} (g : A -> B) p f l :
  (forall y, p y = true -> g (f y) = g y) ->
  g <$> update_first p f l = g <$> l.
Proof.
  intros Hg. induction l as [|y l IH]; simpl; [done|].
  destruct (p y) eqn:Hp; csimpl; f_equal; auto.
Qed.

Lemma elem_of_update_first p f l x :
  x ∈ update_first p f l -> x ∈ l \/ exists y, y ∈ l /\ p y = true /\ x = f y.
Proof.
  induction l as [|y l IH]; simpl; [by left|].
  destruct (p y) eqn:Hp; intros [->|Hx]%elem_of_cons.
  - right. exists y. repeat split; [by left|done].
  - left. by right.
  - left. by left.
  - destruct (IH Hx) as [?|(z & ? & ? & ->)]; [left; by right|].
    right. exists z. repeat split; [by right|done].
Qed.

Lemma remove_at_split l i x :
  l !! i = Some x -> l = take i l ++ x :: drop (S i) l.
Proof. intros. symmetry. by apply take_drop_middle. Qed.

Lemma remove_at_cons l x : remove_at 0 (x :: l) = l.
Proof. unfold remove_at. simpl. by rewrite drop_0. Qed.

Lemma elem_of_remove_at l i x : x ∈ remove_at i l -> x ∈ l.
Proof.
  unfold remove_at. rewrite elem_of_app.
  intros [Hx|Hx]; [by eapply elem_of_take in Hx as (?&?&_); apply list_elem_of_lookup; eauto|].
  apply list_elem_of_lookup in Hx as [j Hj]. rewrite lookup_drop in Hj.
  apply list_elem_of_lookup; eauto.
Qed.

Lemma insert_at_Permutation l i x : insert_at i x l ≡ₚ x :: l.
Proof.
  unfold insert_at. rewrite <- Permutation_middle. by rewrite take_drop.
Qed.

Lemma remove_at_Permutation l i x :
  l !! i = Some x -> l ≡ₚ x :: remove_at i l.
Proof.
  intros H. rewrite (remove_at_split _ _ _ H) at 1.
  unfold remove_at. by rewrite Permutation_middle.
Qed.

Lemma sublist_remove_at l i : remove_at i l `sublist_of` l.
Proof.
  unfold remove_at. rewrite <- (take_drop i l) at 3.
  apply sublist_app; [done|].
  rewrite <- (drop_drop l i 1), Nat.add_1_r || rewrite <- Nat.add_1_r, <- drop_drop.
  apply sublist_drop.
Qed.

Lemma sum_list_insert (f : A -> nat) l i x y :
  l !! i = Some x ->
  sum_list_with f (<[i:=y]> l) + f x = sum_list_with f l + f y.
Proof.
  revert i. induction l as [|z l IH]; intros [|i] Hi; simplify_eq/=; [lia|].
  specialize (IH i Hi). lia.
Qed.

Lemma sum_list_remove_at (f : A -> nat) l i x :
  l !! i = Some x ->
  sum_list_with f (remove_at i l) + f x = sum_list_with f l.
Proof.
  intros H. rewrite (remove_at_split _ _ _ H) at 2.
  unfold remove_at. rewrite !sum_list_with_app. simpl. lia.
Qed.

Lemma sum_list_insert_at (f : A -> nat) l i x :
  sum_list_with f (insert_at i x l) = sum_list_with f l + f x.
Proof.
  rewrite <- (take_drop i l) at 2. unfold insert_at.
  rewrite !sum_list_with_app. simpl. lia.
Qed.

Lemma sum_list_pos (f : A -> nat) l i x :
  l !! i = Some x -> f x <= sum_list_with f l.
Proof. intros. apply sum_list_with_in. apply list_elem_of_lookup; eauto. Qed.

Lemma sum_list_zero (f : A -> nat) l :
  (forall x, x ∈ l -> f x = 0) -> sum_list_with f l = 0.
Proof.
  induction l as [|x l IH]; intros H; simpl; [done|].
  rewrite H, IH; [done| |by left]. intros y Hy. apply H. by right.
Qed.

Lemma sum_list_nonzero (f : A -> nat) l :
  sum_list_with f l <> 0 -> exists i x, l !! i = Some x /\ f x <> 0.
Proof.
  induction l as [|x l IH]; simpl; [done|]. intros H.
  destruct (decide (f x = 0)); [|by exists 0, x].
  destruct IH as (i & y & ? & ?); [lia|]. by exists (S i), y.
Qed.

Lemma sum_list_only (f : A -> nat) l i x :
  l !! i = Some x -> (forall j y, l !! j = Some y -> j <> i -> f y = 0) ->
  sum_list_with f l = f x.
Proof.
  intros Hi Ho. pose proof (sum_list_remove_at f l i x Hi) as H.
  rewrite (sum_list_zero f (remove_at i l)) in H; [lia|]. intros y Hy. unfold remove_at in Hy.
  apply elem_of_app in Hy as [(j & Hj & Hlt)%elem_of_take|[j Hj]%list_elem_of_lookup].
  - apply (Ho j); [done|lia].
  - rewrite lookup_drop in Hj. apply (Ho (S i + j)); [done|lia].
Qed.

Lemma sum_list_two (f : A -> nat) l i j x y :
  i <> j -> l !! i = Some x -> l !! j = Some y -> f x + f y <= sum_list_with f l.
Proof.
  intros Hij Hi Hj.
  assert (<[j:=x]> l !! i = Some x) by (rewrite list_lookup_insert_ne; done).
  revert i j Hij Hi Hj H. induction l as [|z l IH]; intros [|i] [|j] Hij Hi Hj H;
    simplify_eq/=.
  - pose proof (sum_list_pos f l j y Hj). lia.
  - pose proof (sum_list_pos f l i x Hi). lia.
  - enough (f x + f y <= sum_list_with f l) by lia.
    eapply (IH i j); eauto.
Qed.
End lists.

Lemma omap_ext_in {A B} (f g : A -> option B) (l : list A) :
  (forall x, x ∈ l -> f x = g x) -> omap f l = omap g l.
Proof.
  induction l as [|x l IH]; intros H; [done|].
  change (match f x with Some y => y :: omap f l | None => omap f l end
          = match g x with Some y => y :: omap g l | None => omap g l end).
  rewrite (H x), IH; [done| |by left]. intros y Hy. apply H. by right.
Qed.

Lemma sum_list_with_le {A} (f g : A -> nat) l :
  (forall x, x ∈ l -> f x <= g x) -> sum_list_with f l <= sum_list_with g l.
Proof.
  induction l as [|x l IH]; intros H; simpl; [lia|].
  pose proof (H x ltac:(by left)).
  assert (sum_list_with f l <= sum_list_with g l); [|lia].
  apply IH. intros y Hy. apply H. by right.
Qed.

(** What a place holds once another, or the same, is updated. *)
Lemma lookup_update {A} (l : list A) i j (x y : A) :
  l !! j = Some y -> exists z, <[i := x]> l !! j = Some z /\ ((z = y /\ i <> j) \/ (i = j /\ z = x)).
Proof.
  intros H. destruct (decide (i = j)) as [->|Hne]; [exists x|exists y].
  - rewrite list_lookup_insert_eq by (by eapply lookup_lt_Some). auto.
  - rewrite list_lookup_insert_ne by done. auto.
Qed.

Create HintDb pyry.
Create Rewrite HintDb pyry.
#[export] Hint Rewrite @sum_list_with_app @sum_list_insert_at @length_update_first : pyry.
#[export] Hint Resolve u64_range i64_range Sub_range : pyry.
