(* ===== verification/Utf8.v ===== *)
(** * Strings as the Go standard library reads them

    A Go string is a sequence of bytes, here a Stdlib [string]; [for _, r :=
    range s], [utf8.ValidString], [unicode.IsSpace] and [strings.TrimSpace]
    read it as UTF-8. *)
From Stdlib Require Import Ascii String.
From stdpp Require Import prelude strings list.
From S2P Require Import Prelude.

Module Utf8.

Local Open Scope Z_scope.

(** ** Bytes *)

Definition byte (c : ascii) : Z := Z.of_N (N_of_ascii c).
Definition byte_at (s : string) (i : nat) : Z :=
  match String.get i s with Some c => byte c | None => -1 end.

Lemma byte_range c : 0 <= byte c < 256.
Proof. unfold byte. pose proof (N_ascii_bounded c). lia. Qed.

Definition in_range (lo hi b : Z) : bool := (lo <=? b) && (b <=? hi).

(** [s[n:]]. *)
Fixpoint sdrop (n : nat) (s : string) : string :=
  match n, s with
  | O, _ => s
  | S n, String _ s => sdrop n s
  | S _, EmptyString => EmptyString
  end.

(** [s[:n]]. *)
Fixpoint stake (n : nat) (s : string) : string :=
  match n, s with
  | S n, String c s => String c (stake n s)
  | _, _ => EmptyString
  end.

(** ** UTF-8 *)

Definition RuneError : Z := 65533.

(** [utf8.DecodeRuneInString]: the rune and its width in bytes; [(RuneError, 1)]
    for a byte that starts no rune, [(RuneError, 0)] for the empty string. *)
Definition DecodeRune (s : string) : Z * nat :=
  let b0 := byte_at s 0 in
  let b1 := byte_at s 1 in
  let b2 := byte_at s 2 in
  let b3 := byte_at s 3 in
  let cont := in_range 128 191 in
  match s with
  | EmptyString => (RuneError, 0%nat)
  | _ =>
      if b0 <? 128 then (b0, 1%nat)
      else if in_range 194 223 b0 then
        if cont b1 then ((b0 - 192) * 64 + (b1 - 128), 2%nat) else (RuneError, 1%nat)
      else if in_range 224 239 b0 then
        let lo := if b0 =? 224 then 160 else 128 in
        let hi := if b0 =? 237 then 159 else 191 in
        if in_range lo hi b1 && cont b2
        then ((b0 - 224) * 4096 + (b1 - 128) * 64 + (b2 - 128), 3%nat) else (RuneError, 1%nat)
      else if in_range 240 244 b0 then
        let lo := if b0 =? 240 then 144 else 128 in
        let hi := if b0 =? 244 then 143 else 191 in
        if in_range lo hi b1 && cont b2 && cont b3
        then ((b0 - 240) * 262144 + (b1 - 128) * 4096 + (b2 - 128) * 64 + (b3 - 128), 4%nat)
        else (RuneError, 1%nat)
      else (RuneError, 1%nat)
  end.

(** [for i, r := range s]: the runes with their widths; the width of a rune is
    at least one byte, so the length of the string is enough fuel. *)
Fixpoint runes_fuel (fuel : nat) (s : string) : list (Z * nat) :=
  match fuel, s with
  | S fuel, String _ _ => let '(r, n) := DecodeRune s in (r, n) :: runes_fuel fuel (sdrop n s)
  | _, _ => []
  end.
Definition runes (s : string) : list (Z * nat) := runes_fuel (String.length s) s.

(** [utf8.ValidString]. *)
Definition ValidString (s : string) : bool :=
  forallb (fun p => negb ((fst p =? RuneError) && bool_decide (snd p = 1%nat))) (runes s).

(** [utf8.DecodeLastRuneInString]: the width of the last rune. *)
Fixpoint back_to_start (fuel : nat) (s : string) (start lim : Z) : Z :=
  match fuel with
  | O => start
  | S fuel =>
      if start <? lim then start
      else if negb (Z.land (byte_at s (Z.to_nat start)) 192 =? 128) then start
      else back_to_start fuel s (start - 1) lim
  end.
Definition DecodeLastRune (s : string) : nat :=
  let len := slen s in
  if len =? 0 then 0%nat
  else if byte_at s (Z.to_nat (len - 1)) <? 128 then 1%nat
  else
    let start := Z.max 0 (back_to_start 4 s (len - 2) (Z.max 0 (len - 4))) in
    let n := snd (DecodeRune (sdrop (Z.to_nat start) s)) in
    if negb (start + Z.of_nat n =? len) then 1%nat else n.

(** ** White space *)

(** [unicode.IsSpace]: the White_Space property. *)
Definition IsSpace (r : Z) : bool :=
  in_range 9 13 r || (r =? 32) || (r =? 133) || (r =? 160) || (r =? 5760)
  || in_range 8192 8202 r || (r =? 8232) || (r =? 8233) || (r =? 8239) || (r =? 8287) || (r =? 12288).

(** [strings.TrimSpace(s) == ""]. *)
Definition blank (s : string) : bool := forallb (fun p => IsSpace (fst p)) (runes s).

(** [strings.TrimSpace] and [bytes.TrimSpace]: white space off both ends; a
    rune is at least one byte, so the length is enough fuel. *)
Fixpoint trim_left (fuel : nat) (s : string) : string :=
  match fuel, s with
  | S fuel, String _ _ => let '(r, n) := DecodeRune s in if IsSpace r then trim_left fuel (sdrop n s) else s
  | _, _ => s
  end.
Fixpoint trim_right (fuel : nat) (s : string) : string :=
  match fuel, s with
  | S fuel, String _ _ =>
      let n := DecodeLastRune s in
      if IsSpace (fst (DecodeRune (sdrop (String.length s - n) s)))
      then trim_right fuel (stake (String.length s - n) s) else s
  | _, _ => s
  end.
Definition TrimSpace (s : string) : string :=
  let s := trim_left (String.length s) s in trim_right (String.length s) s.

(** ** [encoding/hex] *)

Definition hexdigit (n : Z) : ascii :=
  ascii_of_N (Z.to_N (if n <? 10 then 48 + n else 87 + n)).
Fixpoint hex (bs : list Z) : string :=
  match bs with
  | [] => ""
  | b :: bs => String (hexdigit (Z.shiftr b 4)) (String (hexdigit (Z.land b 15)) (hex bs))
  end.

(** ** Lemmas *)

Definition is_byte (b : Z) : bool := in_range 0 255 b.

Lemma slength_sdrop n s : String.length (sdrop n s) = (String.length s - n)%nat.
Proof. revert s. induction n as [|n IH]; intros [|c s]; simpl; auto. Qed.

Lemma slength_stake n s : String.length (stake n s) = Nat.min n (String.length s).
Proof. revert s. induction n as [|n IH]; intros [|c s]; simpl; auto. Qed.

Lemma stake_sdrop n s : (stake n s +:+ sdrop n s)%string = s.
Proof. revert s. induction n as [|n IH]; intros [|c s]; try done. change (String c (stake n s +:+ sdrop n s) = String c s). by rewrite IH. Qed.

Lemma byte_at_lt s i : byte_at s i <> -1 -> (i < String.length s)%nat.
Proof.
  unfold byte_at. revert i. induction s as [|c s IH]; intros [|i]; simpl; try done; [lia|].
  intros H. specialize (IH i H). lia.
Qed.

Lemma DecodeRune_width s :
  s <> EmptyString -> (1 <= snd (DecodeRune s) <= String.length s)%nat.
Proof.
  intros Hs. assert (1 <= String.length s)%nat as H0 by (destruct s; simpl; [done|lia]).
  assert (forall i lo hi, 0 <= lo -> in_range lo hi (byte_at s i) = true -> (i < String.length s)%nat) as Hb.
  { intros i lo hi Hlo H. apply byte_at_lt. unfold in_range in H. reflect_bools. lia. }
  unfold DecodeRune. destruct s as [|c s]; [done|].
  repeat case_goal; simpl; reflect_bools;
    repeat match goal with
    | H : in_range _ _ (byte_at _ _) = true |- _ => apply Hb in H; [|repeat case_match; lia]
    end; simpl in *; lia.
Qed.

Lemma in_range_spec lo hi b : in_range lo hi b = true <-> lo <= b <= hi.
Proof. unfold in_range. rewrite andb_true_iff, !Z.leb_le. done. Qed.

(** Enough fuel is as good as any. *)
Lemma runes_fuel_enough fuel s :
  (String.length s <= fuel)%nat -> runes_fuel fuel s = runes s.
Proof.
  unfold runes. remember (String.length s) as n eqn:Hn. revert fuel s Hn.
  induction (lt_wf n) as [n _ IH]. intros fuel s -> Hf.
  destruct s as [|c s]; [by destruct fuel|].
  destruct fuel as [|fuel]; [simpl in Hf; lia|].
  pose proof (DecodeRune_width (String c s) ltac:(done)) as Hw.
  change (runes_fuel (S fuel) (String c s)) with
    (let '(r, n) := DecodeRune (String c s) in (r, n) :: runes_fuel fuel (sdrop n (String c s))).
  change (runes_fuel (String.length (String c s)) (String c s)) with
    (let '(r, n) := DecodeRune (String c s) in (r, n) :: runes_fuel (String.length s) (sdrop n (String c s))).
  destruct (DecodeRune (String c s)) as [r w]. simpl snd in Hw. f_equal.
  pose proof (slength_sdrop w (String c s)) as Hl. simpl in Hf, Hl, Hw |- *.
  etrans; [apply (IH (String.length (sdrop w (String c s)))); simpl; try done; lia|].
  symmetry. apply (IH (String.length (sdrop w (String c s)))); simpl; try done; lia.
Qed.

Lemma runes_cons s :
  s <> EmptyString ->
  runes s = DecodeRune s :: runes (sdrop (snd (DecodeRune s)) s).
Proof.
  intros Hs. pose proof (DecodeRune_width s Hs) as Hw. destruct s as [|c s]; [done|].
  change (runes (String c s)) with
    (let '(r, n) := DecodeRune (String c s) in (r, n) :: runes_fuel (String.length s) (sdrop n (String c s))).
  destruct (DecodeRune (String c s)) as [r w]. cbn [snd] in *. f_equal. apply runes_fuel_enough.
  rewrite slength_sdrop. cbn [String.length] in *. lia.
Qed.

(** The widths of the runes add up to the string. *)
Lemma runes_total s : sum_list_with snd (runes s) = String.length s.
Proof.
  remember (String.length s) as n eqn:Hn. revert s Hn. induction (lt_wf n) as [n _ IH].
  intros s ->. destruct s as [|c s]; [done|]. rewrite runes_cons by done.
  pose proof (DecodeRune_width (String c s) ltac:(done)) as Hw.
  cbn [sum_list_with]. generalize dependent (snd (DecodeRune (String c s))). intros w Hw.
  assert (String.length (sdrop w (String c s)) < String.length (String c s))%nat as Hlt
    by (rewrite slength_sdrop; lia).
  rewrite (IH _ Hlt _ eq_refl), slength_sdrop. lia.
Qed.

(** A property of one byte is checked on all 256. *)
Lemma all_bytes (P : Z -> bool) :
  forallb P (seqZ 0 256) = true -> forall b, is_byte b = true -> P b = true.
Proof.
  intros H b Hb. rewrite forallb_forall in H. apply H. apply list_elem_of_In, elem_of_seqZ.
  apply in_range_spec in Hb. lia.
Qed.

Definition unhex (c : ascii) : Z := let b := byte c in if b <? 58 then b - 48 else b - 87.

Lemma unhex_byte b :
  is_byte b = true ->
  (unhex (hexdigit (Z.shiftr b 4)) * 16 + unhex (hexdigit (Z.land b 15)) =? b) = true.
Proof.
  apply (all_bytes (fun b => unhex (hexdigit (Z.shiftr b 4)) * 16 + unhex (hexdigit (Z.land b 15)) =? b)).
  by vm_compute.
Qed.

(** Different bytes have different hexadecimal strings. *)
Lemma hex_inj bs cs :
  forallb is_byte bs = true -> forallb is_byte cs = true -> hex bs = hex cs -> bs = cs.
Proof.
  revert cs. induction bs as [|b bs IH]; intros [|c cs] Hb Hc H; try done. simpl in Hb, Hc.
  apply andb_true_iff in Hb as [Hb Hbs]. apply andb_true_iff in Hc as [Hc Hcs].
  simpl in H. injection H as Hh Hl Hr. f_equal; [|by apply IH].
  apply unhex_byte, Z.eqb_eq in Hb. apply unhex_byte, Z.eqb_eq in Hc. congruence.
Qed.

Example trim_example : TrimSpace (String (ascii_of_nat 9) " null ") = "null".
Proof. reflexivity. Qed.
Example valid_ascii : ValidString "plain text" = true.
Proof. reflexivity. Qed.
Example invalid_lone_continuation : ValidString (String (ascii_of_nat 128) "") = false.
Proof. reflexivity. Qed.

End Utf8.
