(* ===== verification/AtomicFile.v ===== *)
(** * Replacing a file atomically

    The sequence [MkdirAll], [CreateTemp], [Chmod], write, [Sync], [Close],
    [Rename] with a deferred [Remove] of the temporary, which the registries
    ([internal/conversations], [internal/devices]) and the uploads
    ([internal/attachments]) write their files with. A file system is a map from paths to contents. *)
From stdpp Require Import prelude gmap strings list.
From S2P Require Import Prelude.

Module AtomicFile.

Abbreviation fs := (gmap string string).

(** The stages of the sequence, and the deferred removal, whose error the code
    ignores. *)
Inductive stage := SMkdir | SCreateTemp | SChmod | SEncode | SSync | SClose | SRename | SRemove.

#[export] Instance stage_eq_dec : EqDecision stage.
Proof. solve_decision. Defined.

(** What one stage does to the files, once it succeeded. [CreateTemp] opens a
    new file; the encoder has written all of [data] when it succeeds. *)
Definition stage_effect (path tmp data : string) (st : stage) (f : fs) : fs :=
  match st with
  | SCreateTemp => <[tmp := ""]> f
  | SEncode => <[tmp := data]> f
  | SRename => match f !! tmp with Some d => <[path := d]> (delete tmp f) | None => f end
  | SMkdir | SChmod | SSync | SClose | SRemove => f
  end.

(** A stage that fails leaves the files alone, except that a failing encoder
    may have written [partial]. *)
Definition stage_failure (tmp partial : string) (st : stage) (f : fs) : fs :=
  match st with SEncode => <[tmp := partial]> f | _ => f end.

(** The deferred [os.Remove(tmp)], registered once the temporary exists; where it
    fails, the temporary stays. *)
Definition deferred_remove (fails : stage -> bool) (tmp : string) (st : stage) (f : fs) : fs :=
  match st with SMkdir | SCreateTemp => f | _ => if fails SRemove then f else delete tmp f end.

Section write.
Context (fails : stage -> bool) (partial path tmp data : string).

(** The stages in order: the states the files go through, the last state and
    the stage that failed, if one did. *)
Fixpoint run_stages (sts : list stage) (f : fs) : list fs * fs * option stage :=
  match sts with
  | [] => ([], deferred_remove fails tmp SRename f, None)
  | st :: sts =>
      if fails st
      then let f := stage_failure tmp partial st f in
           ([f], deferred_remove fails tmp st f, Some st)
      else let f := stage_effect path tmp data st f in
           let '(states, last, err) := run_stages sts f in (f :: states, last, err)
  end.

Definition stages : list stage := [SMkdir; SCreateTemp; SChmod; SEncode; SSync; SClose; SRename].

Definition write_atomic (f : fs) : fs * option stage :=
  let '(_, last, err) := run_stages stages f in (last, err).

(** Every state a crash can leave the files in. *)
Definition crash_states (f : fs) : list fs :=
  let '(states, last, _) := run_stages stages f in f :: states ++ [last].
End write.

(** What a reader of [path] and of every other file may see at a crash. *)
Definition intact (path tmp data : string) (f0 f : fs) : Prop :=
  (f !! path = f0 !! path \/ f !! path = Some data)
  /\ forall p, p <> path -> p <> tmp -> f !! p = f0 !! p.

(** The files as they were, but for the temporary where it could not be removed. *)
Definition up_to_temp (fails : stage -> bool) (tmp : string) (f f' : fs) : Prop :=
  f' = f \/ (fails SRemove = true /\ delete tmp f' = f).

Section facts.
Context (fails : stage -> bool) (partial path tmp data : string).
Context (f : fs) (Hne : path <> tmp) (Hfresh : f !! tmp = None).

Lemma insert_tmp d d' : delete tmp (<[tmp := d']> (<[tmp := d]> f)) = f.
Proof. apply map_eq; intros p; destruct (decide (p = tmp)) as [->|]; by simplify_map_eq. Qed.

Lemma insert_tmp1 d : delete tmp (<[tmp := d]> f) = f.
Proof. apply map_eq; intros p; destruct (decide (p = tmp)) as [->|]; by simplify_map_eq. Qed.

(** What a write that failed at [st] leaves of its temporary. *)
Definition left_over (st : stage) : fs :=
  if fails SRemove then
    match st with
    | SMkdir | SCreateTemp | SRemove => f
    | SChmod => <[tmp := ""]> f
    | SEncode => <[tmp := partial]> f
    | SSync | SClose | SRename => <[tmp := data]> f
    end
  else f.

Lemma left_over_temp st : up_to_temp fails tmp f (left_over st).
Proof.
  unfold up_to_temp, left_over. destruct (fails SRemove); [|by left]. destruct st; try (by left); right; by rewrite insert_tmp1.
Qed.

Lemma write_atomic_spec :
  write_atomic fails partial path tmp data f
  = match find_first fails stages with
    | Some st => (left_over st, Some st)
    | None => (<[path := data]> f, None)
    end.
Proof.
  assert (delete tmp (<[path := data]> f) = <[path := data]> f) as Hd by (apply delete_id; by simplify_map_eq).
  unfold write_atomic, stages, left_over. simpl. rewrite lookup_insert_eq.
  repeat (case_match; simpl); simplify_eq/=; rewrite ?insert_tmp1, ?insert_tmp, ?insert_insert_eq, ?Hd; done.
Qed.

Lemma crash_states_intact g :
  g ∈ crash_states fails partial path tmp data f -> intact path tmp data f g.
Proof.
  unfold crash_states, stages, intact. simpl.
  repeat (case_match; simpl); simplify_eq/=; simplify_map_eq; rewrite ?elem_of_cons;
    intros Hg; repeat destruct Hg as [->|Hg]; try (by apply not_elem_of_nil in Hg);
    (split; [try (left; by simplify_map_eq); try (right; by simplify_map_eq)
            |intros p ??; by simplify_map_eq]).
Qed.
End facts.

End AtomicFile.
