(* ===== verification/MsgQueue.v ===== *)
(** * The inbound message queue ([internal/msgqueue])

    State and critical sections of [queue.go], [lifecycle.go] and
    [delivery_context.go]. Every definition is one stretch of code that runs
    under [q.mu] (or one that touches no shared state); [MsgQueueSystem]
    interleaves them as the goroutines of the daemon do.

    The lifecycle record of a message is shared by every copy of that message,
    so it lives in a store ([q_heap]) and a message carries a location. *)
From stdpp Require Import prelude gmap strings list.
From S2P Require Import Prelude.

Module MsgQueue.

Local Open Scope Z_scope.

Abbreviation loc := nat (only parsing).

(** ** Data *)

Inductive TerminalOutcome := TerminalDelivered | TerminalRemoved | TerminalGiveUp.

#[export] Instance TerminalOutcome_eq_dec : EqDecision TerminalOutcome.
Proof. solve_decision. Defined.

(** [messageLifecycle]; the empty outcome string is [None]. *)
Record messageLifecycle := MessageLifecycle {
  lc_itemID : Z;
  lc_accepted : bool;
  lc_outcome : option TerminalOutcome;
  lc_sentNow : bool;
  lc_attempt : bool;
  lc_removed : bool;
}.

(** [queued]: one buffered inbound message. *)
Record queued := Queued {
  m_id : Z;
  m_messageID : string;
  m_text : string;
  m_delivery : string;
  m_ts : instant;
  m_attachmentIDs : list string;
  m_deviceID : string;
  m_deviceName : string;
  m_clientVersion : string;
  m_clientSentAt : instant;
  m_lifecycle : loc;
}.

(** [QueuedMessage]: the projection consumers see. *)
Record QueuedMessage := MkQueuedMessage {
  qm_ID : Z;
  qm_MessageID : string;
  qm_Text : string;
  qm_TS : instant;
  qm_AttachmentIDs : list string;
  qm_DeviceID : string;
  qm_DeviceName : string;
  qm_ClientVersion : string;
  qm_ClientSentAt : instant;
  qm_SentNow : bool;
}.

#[export] Instance QueuedMessage_eq_dec : EqDecision QueuedMessage.
Proof. solve_decision. Defined.

(** [convQueue]. [deliverCancel] holds the attempt whose context it cancels;
    a slice emptied by [shrinkLocked] is [nil] in the source and [[]] here. *)
Record convQueue := ConvQueue {
  cq_items : list queued;
  cq_accepting : gmap Z loc;
  cq_nextID : Z;
  cq_draining : bool;
  cq_committing : bool;
  cq_deliverCancel : option nat;
  cq_headTaken : bool;
}.

Definition new_convQueue : convQueue := ConvQueue [] ∅ 1 false false None false.

(** [Config] after [New] resolved the defaults. The seams themselves are calls
    out of the package: what the queue's behaviour depends on is which of them
    are configured, and the pure predicate [Pending]. *)
Record Config := MkConfig {
  max : Z;
  retry : Z;
  giveUpAfter : Z;
  has_onChange : bool;
  has_onGiveUp : bool;
  has_onDelivered : bool;
  has_onAccepted : bool;
  has_onTerminal : bool;
  pending : option (string -> bool);
  has_sendNow : bool;
}.

Record Queue := MkQueue {
  q_convs : gmap string convQueue;
  q_started : bool;
  q_closed : bool;
  q_heap : list messageLifecycle;
  q_attempts : nat;
}.

(** ** Construction *)

Definition defaultRetryInterval : Z := 1 * second.
Definition defaultMaxQueuedPerConversation : Z := 100.
Definition defaultGiveUpAfter : Z := 2 * minute.

(** [New]: the seam must be there, and non-positive knobs take defaults. *)
Definition New (has_deliver : bool) (c : Config) : option (Config * Queue) :=
  if negb has_deliver then None
  else
    let retry' := if retry c <=? 0 then defaultRetryInterval else retry c in
    let giveUpAfter' := if giveUpAfter c <=? 0 then defaultGiveUpAfter else giveUpAfter c in
    let max' := if max c <=? 0 then defaultMaxQueuedPerConversation else max c in
    Some (MkConfig max' retry' giveUpAfter' (has_onChange c) (has_onGiveUp c)
            (has_onDelivered c) (has_onAccepted c) (has_onTerminal c)
            (pending c) (has_sendNow c),
          MkQueue ∅ false false [] 0).

(** ** Field updates *)

Definition set_items (l : list queued) (c : convQueue) : convQueue :=
  ConvQueue l (cq_accepting c) (cq_nextID c) (cq_draining c) (cq_committing c)
    (cq_deliverCancel c) (cq_headTaken c).
Definition set_accepting (a : gmap Z loc) (c : convQueue) : convQueue :=
  ConvQueue (cq_items c) a (cq_nextID c) (cq_draining c) (cq_committing c)
    (cq_deliverCancel c) (cq_headTaken c).
Definition set_nextID (n : Z) (c : convQueue) : convQueue :=
  ConvQueue (cq_items c) (cq_accepting c) n (cq_draining c) (cq_committing c)
    (cq_deliverCancel c) (cq_headTaken c).
Definition set_draining (b : bool) (c : convQueue) : convQueue :=
  ConvQueue (cq_items c) (cq_accepting c) (cq_nextID c) b (cq_committing c)
    (cq_deliverCancel c) (cq_headTaken c).
Definition set_committing (b : bool) (c : convQueue) : convQueue :=
  ConvQueue (cq_items c) (cq_accepting c) (cq_nextID c) (cq_draining c) b
    (cq_deliverCancel c) (cq_headTaken c).
Definition set_deliverCancel (o : option nat) (c : convQueue) : convQueue :=
  ConvQueue (cq_items c) (cq_accepting c) (cq_nextID c) (cq_draining c)
    (cq_committing c) o (cq_headTaken c).
Definition set_headTaken (b : bool) (c : convQueue) : convQueue :=
  ConvQueue (cq_items c) (cq_accepting c) (cq_nextID c) (cq_draining c)
    (cq_committing c) (cq_deliverCancel c) b.

Definition set_convs (m : gmap string convQueue) (q : Queue) : Queue :=
  MkQueue m (q_started q) (q_closed q) (q_heap q) (q_attempts q).
Definition set_heap (h : list messageLifecycle) (q : Queue) : Queue :=
  MkQueue (q_convs q) (q_started q) (q_closed q) h (q_attempts q).

(** [q.convs[convID]] where the source knows the entry exists. *)
Definition conv (q : Queue) (convID : string) : convQueue :=
  default new_convQueue (q_convs q !! convID).
Definition put_conv (convID : string) (c : convQueue) (q : Queue) : Queue :=
  set_convs (<[convID := c]> (q_convs q)) q.

(** A write through a message's lifecycle pointer. *)
Definition upd_lifecycle (f : messageLifecycle -> messageLifecycle) (m : queued) (q : Queue) : Queue :=
  set_heap (alter f (m_lifecycle m) (q_heap q)) q.
Definition zero_lifecycle : messageLifecycle := MessageLifecycle 0 false None false false false.
Definition lifecycle (q : Queue) (m : queued) : messageLifecycle :=
  default zero_lifecycle (q_heap q !! m_lifecycle m).

Definition with_itemID (n : Z) (l : messageLifecycle) : messageLifecycle :=
  MessageLifecycle n (lc_accepted l) (lc_outcome l) (lc_sentNow l) (lc_attempt l) (lc_removed l).
Definition with_accepted (l : messageLifecycle) : messageLifecycle :=
  MessageLifecycle (lc_itemID l) true (lc_outcome l) (lc_sentNow l) (lc_attempt l) (lc_removed l).
Definition with_outcome (o : TerminalOutcome) (s : bool) (l : messageLifecycle) : messageLifecycle :=
  MessageLifecycle (lc_itemID l) (lc_accepted l) (Some o) s (lc_attempt l) (lc_removed l).
Definition with_attempt (b : bool) (l : messageLifecycle) : messageLifecycle :=
  MessageLifecycle (lc_itemID l) (lc_accepted l) (lc_outcome l) (lc_sentNow l) b (lc_removed l).
Definition with_removed (l : messageLifecycle) : messageLifecycle :=
  MessageLifecycle (lc_itemID l) (lc_accepted l) (lc_outcome l) (lc_sentNow l) (lc_attempt l) true.

(** ** Projections ([delivery_context.go]) *)

Definition message (m : queued) (sentNow : bool) : QueuedMessage :=
  MkQueuedMessage (m_id m) (m_messageID m) (m_text m) (m_ts m) (m_attachmentIDs m)
    (m_deviceID m) (m_deviceName m) (m_clientVersion m) (m_clientSentAt m) sentNow.

(** The narrower projection [Snapshot] and [SnapshotAll] build. *)
Definition snapshot_item (m : queued) : QueuedMessage :=
  MkQueuedMessage (m_id m) (m_messageID m) (m_text m) (m_ts m) []
    (m_deviceID m) "" "" zero_time false.

Definition Snapshot (q : Queue) (convID : string) : list QueuedMessage :=
  match q_convs q !! convID with
  | None => []
  | Some c => snapshot_item <$> cq_items c
  end.

Definition SnapshotAll (q : Queue) : gmap string (list QueuedMessage) :=
  omap (fun c => if decide (cq_items c = []) then None else Some (snapshot_item <$> cq_items c))
    (q_convs q).

(** ** Helpers that run under the lock *)

(** [maybeSpawnDrainLocked]: the new state, and whether a drain was spawned. *)
Definition maybeSpawnDrainLocked (convID : string) (c : convQueue) (q : Queue) : convQueue * bool :=
  if negb (q_started q) || q_closed q || cq_draining c || bool_decide (cq_items c = [])
  then (c, false)
  else (set_draining true c, true).

(** [advanceLocked]: drop the head if it still is the message [id]. *)
Definition advanceLocked (id : Z) (c : convQueue) : convQueue * bool :=
  match cq_items c with
  | [] => (c, false)
  | m :: rest => if m_id m =? id then (set_items rest c, true) else (c, false)
  end.

(** [resolveLocked]: claim the outcome once; does the caller notify? *)
Definition resolveLocked (m : queued) (outcome : TerminalOutcome) (sentNow : bool) (q : Queue)
  : Queue * bool :=
  match lc_outcome (lifecycle q m) with
  | Some _ => (q, false)
  | None => (upd_lifecycle (with_outcome outcome sentNow) m q, lc_accepted (lifecycle q m))
  end.

Definition has_id (id : Z) (m : queued) : bool := m_id m =? id.

(** ** Operations *)

(** The caller-supplied part of an enqueue. *)
Record enqueue_args := EnqueueArgs {
  a_messageID : string;
  a_text : string;
  a_delivery : string;
  a_attachmentIDs : list string;
  a_deviceID : string;
  a_deviceName : string;
  a_clientVersion : string;
  a_clientSentAt : instant;
}.

Section operations.
Context (cfg : Config).

(** [EnqueueIdentified] up to its unlock: the message enqueued ([None] at
    the cap, where the source returns 0), and whether a drain was spawned. *)
Definition EnqueueIdentified (convID : string) (a : enqueue_args) (now : instant) (q : Queue)
  : Queue * option (queued * bool) :=
  let c := default new_convQueue (q_convs q !! convID) in
  if (0 <? max cfg) && (max cfg <=? Z.of_nat (length (cq_items c)))
  then (put_conv convID c q, None)
  else
    let id := cq_nextID c in
    let l := length (q_heap q) in
    let m := Queued id (a_messageID a) (a_text a) (a_delivery a) now (a_attachmentIDs a)
               (a_deviceID a) (a_deviceName a) (a_clientVersion a) (a_clientSentAt a) l in
    let lc := MessageLifecycle 0 (negb (has_onAccepted cfg)) None false false false in
    let c := set_nextID (u64 (id + 1)) c in
    let c := set_items (cq_items c ++ [m]) c in
    let c := if has_onAccepted cfg then set_accepting (<[id := l]> (cq_accepting c)) c else c in
    let '(c, spawn) := maybeSpawnDrainLocked convID c q in
    (put_conv convID c (set_heap (q_heap q ++ [lc]) q), Some (m, spawn)).

(** The locked half of [accept], after [onAccepted] returned. *)
Definition accept (convID : string) (m : queued) (q : Queue) : Queue * bool :=
  let c := conv q convID in
  let q := put_conv convID (set_accepting (delete (m_id m) (cq_accepting c)) c) q in
  let q := upd_lifecycle with_accepted m q in
  (q, bool_decide (is_Some (lc_outcome (lifecycle q m)))).

(** [BindAcceptedItem]. *)
Definition BindAcceptedItem (convID : string) (id itemID : Z) (q : Queue) : Queue :=
  if itemID =? 0 then q
  else match q_convs q !! convID with
  | None => q
  | Some c =>
      let in_items :=
        match find_first (fun m => has_id id m && (lc_itemID (lifecycle q m) =? 0)) (cq_items c) with
        | Some m => upd_lifecycle (with_itemID itemID) m q
        | None => q
        end in
      match cq_accepting c !! id with
      | Some l =>
          match q_heap q !! l with
          | Some lc => if lc_itemID lc =? 0
                       then set_heap (alter (with_itemID itemID) l (q_heap q)) q
                       else in_items
          | None => in_items
          end
      | None => in_items
      end
  end.

(** The refusal [remove] and [sendNowItem] share: no such item, the head
    while it commits, or a binding that does not match. *)
Definition takeable (id itemID : Z) (c : convQueue) (q : Queue) : option (nat * queued) :=
  match IndexFunc (has_id id) (cq_items c) with
  | None => None
  | Some idx =>
      match cq_items c !! idx with
      | None => None
      | Some m =>
          if (bool_decide (idx = 0%nat) && cq_committing c)
             || (negb (itemID =? 0) && negb (lc_itemID (lifecycle q m) =? itemID))
          then None else Some (idx, m)
      end
  end.

(** [remove] up to its unlock: the message removed, the attempt to cancel
    when it was the head, and whether the caller notifies its outcome. *)
Definition remove (convID : string) (id itemID : Z) (q : Queue)
  : Queue * option (queued * option nat * bool) :=
  match q_convs q !! convID with
  | None => (q, None)
  | Some c =>
      match takeable id itemID c q with
      | None => (q, None)
      | Some (idx, m) =>
          let cancel := if decide (idx = 0%nat) then cq_deliverCancel c else None in
          let q := upd_lifecycle with_removed m q in
          let '(q, observe) := if negb (lc_attempt (lifecycle q m))
                               then resolveLocked m TerminalRemoved false q
                               else (q, false) in
          (put_conv convID (set_items (remove_at idx (cq_items c)) c) q,
           Some (m, cancel, observe))
      end
  end.

(** [RemoveItem]'s guard in front of [remove]. *)
Definition RemoveItem (convID : string) (id itemID : Z) (q : Queue)
  : Queue * option (queued * option nat * bool) :=
  if itemID =? 0 then (q, None) else remove convID id itemID q.

(** [sendNowItem] up to its unlock: the message is taken out of the FIFO. *)
Definition sendNowItem (convID : string) (id itemID : Z) (q : Queue)
  : Queue * option (queued * option nat) :=
  if negb (has_sendNow cfg) then (q, None)
  else match q_convs q !! convID with
  | None => (q, None)
  | Some c =>
      match takeable id itemID c q with
      | None => (q, None)
      | Some (idx, m) =>
          let cancel := if decide (idx = 0%nat) then cq_deliverCancel c else None in
          let c := if decide (idx = 0%nat)
                   then set_headTaken (bool_decide (is_Some (cq_deliverCancel c))) c else c in
          (put_conv convID (set_items (remove_at idx (cq_items c)) c) q, Some (m, cancel))
      end
  end.

(** Where [reinsert] puts a message back. *)
Definition reinsert_pos (m : queued) (c : convQueue) : nat :=
  let pos := default (length (cq_items c)) (IndexFunc (fun o => m_id m <? m_id o) (cq_items c)) in
  if bool_decide (pos = 0%nat) && cq_committing c && negb (bool_decide (cq_items c = []))
  then 1%nat else pos.

Definition reinsert (convID : string) (m : queued) (q : Queue) : Queue * bool :=
  match q_convs q !! convID with
  | None => (q, false)
  | Some c =>
      let c := set_items (insert_at (reinsert_pos m c) m (cq_items c)) c in
      let '(c, spawn) := maybeSpawnDrainLocked convID c q in
      (put_conv convID c q, spawn)
  end.

(** The gate [commitGate] returns, when the seam calls it. *)
Definition commitGate (convID : string) (headID : Z) (q : Queue) : Queue * bool :=
  match q_convs q !! convID with
  | None => (q, false)
  | Some c =>
      match cq_items c with
      | m :: _ => if m_id m =? headID
                  then (put_conv convID (set_committing true c) q, true) else (q, false)
      | [] => (q, false)
      end
  end.

(** The first critical section of the drain loop: the head to attempt and
    the attempt's context, or [None] when the FIFO is empty and the drain
    exits. *)
Definition drain_peek (convID : string) (q : Queue) : Queue * option (queued * nat) :=
  let c := conv q convID in
  match cq_items c with
  | [] => (put_conv convID (set_draining false c) q, None)
  | head :: _ =>
      let att := q_attempts q in
      let q := upd_lifecycle (with_attempt true) head q in
      let c := set_headTaken false (set_deliverCancel (Some att) (set_committing false c)) in
      (MkQueue (<[convID := c]> (q_convs q)) (q_started q) (q_closed q) (q_heap q) (S att),
       Some (head, att))
  end.

Record settled := Settled { s_observe : bool; s_advanced : bool; s_dropped : bool }.

(** The second critical section: the attempt for [head] returned [err], and
    [shutdown] says whether the lifecycle context is done. *)
Definition drain_settle (convID : string) (head : queued) (err : option string) (shutdown : bool)
    (q : Queue) : Queue * settled :=
  let c := set_committing false (set_deliverCancel None (conv q convID)) in
  let q := upd_lifecycle (with_attempt false) head q in
  let '(c, advanced, (q, observe)) :=
    match err with
    | None => if negb shutdown
              then let '(c, advanced) := advanceLocked (m_id head) c in
                   (c, advanced, resolveLocked head TerminalDelivered false q)
              else (c, false, (q, false))
    | Some _ => if lc_removed (lifecycle q head)
                then (c, false, resolveLocked head TerminalRemoved false q)
                else (c, false, (q, false))
    end in
  let dropped := match cq_items c with
                 | [] => true
                 | m :: _ => negb (m_id m =? m_id head) || cq_headTaken c
                 end in
  (put_conv convID (set_headTaken false c) q, Settled observe advanced dropped).

(** Every exit that only clears [draining]. *)
Definition drain_exit (convID : string) (q : Queue) : Queue :=
  put_conv convID (set_draining false (conv q convID)) q.

(** The give-up clock of the drain loop after a failure that is neither a
    drop nor a hold: the new streak, and the elapsed time against it. *)
Definition failure_clock (firstFailedAt : instant) (streakID : Z) (head : queued) (now now' : instant)
  : instant * Z * Z :=
  let '(first, streak) :=
    if IsZero firstFailedAt || negb (streakID =? m_id head)
    then (now, m_id head) else (firstFailedAt, streakID) in
  (first, streak, Sub now' first).

(** [giveUp] up to its unlock: whether the head was abandoned, and whether
    its outcome is notified. *)
Definition giveUp (convID : string) (head : queued) (q : Queue) : Queue * option bool :=
  let '(c, abandoned) := advanceLocked (m_id head) (conv q convID) in
  if abandoned
  then let '(q, observe) := resolveLocked head TerminalGiveUp false q in
       (put_conv convID (set_draining false c) q, Some observe)
  else (q, None).

(** [Run] up to its first unlock: the conversations a drain starts for. *)
Definition run_start (q : Queue) : Queue * list string :=
  let q := MkQueue (q_convs q) true (q_closed q) (q_heap q) (q_attempts q) in
  let spawned := filter (fun p => snd (maybeSpawnDrainLocked (fst p) (snd p) q) = true)
                   (map_to_list (q_convs q)) in
  (set_convs ((fun c => fst (maybeSpawnDrainLocked "" c q)) <$> q_convs q) q, fst <$> spawned).

(** [Run] after its context is done. *)
Definition run_close (q : Queue) : Queue :=
  MkQueue (q_convs q) (q_started q) true (q_heap q) (q_attempts q).
End operations.

End MsgQueue.
