(* ===== verification/MsgQueueSystem.v ===== *)
(** * The message queue under interleaving

    The goroutines that touch a [Queue] - callers of [Enqueue], [Remove] and
    [SendNow], the drain of each conversation, [Run] - as threads of a
    transition system. A step is one critical section of [MsgQueue], one
    callback fired off-lock, or one return of an injected seam; any thread may
    take the next step. *)
From stdpp Require Import prelude gmap strings list.
From S2P Require Import Prelude MsgQueue.

Module MsgQueueSystem.
Import MsgQueue.

Local Open Scope Z_scope.

(** ** Events: what the environment observes *)

(** What a call of the queue's interface returned. *)
Inductive retval :=
| REnqueue (id : Z)
| RRemove (id : Z) (ok : bool)
| RSendNow (id : Z) (ok : bool).

Inductive event :=
| EvReturn (conv : string) (r : retval)
| EvAccepted (conv : string) (l : nat) (qm : QueuedMessage)
| EvDelivered (conv : string) (l : nat) (qm : QueuedMessage)
| EvTerminal (conv : string) (l : nat) (qm : QueuedMessage) (o : TerminalOutcome)
| EvChange (conv : string)
| EvGiveUp (conv : string) (elapsed : Z) (err : string)
| EvAbandon (conv : string) (l : nat)                     (* the give-up log line *)
| EvCancel (att : nat)
| EvDeliver (conv : string) (l : nat) (err : option string)
| EvSendNow (conv : string) (l : nat) (err : option string)
| EvLeft (conv : string) (l : nat).       (* ghost: a confirmed write left queued by the shutdown *)

(** ** Threads *)

(** Off-lock work queued between two critical sections. *)
Inductive action :=
| ACancel (att : nat)
| ATerminal (m : queued)
| AChange
| AGiveUp (elapsed : Z) (err : string).

Inductive drain_pc :=
| DTop
| DDeliver (head : queued) (att : nat) (claim : option bool)
| DSettle (head : queued) (att : nat) (err : option string)
| DFailed (head : queued) (err : string)
| DGiveUp (head : queued) (elapsed : Z) (err : string)
| DSleep
| DExitLocked
| DDone.

Inductive call_pc :=
| EAccept (m : queued)
| EAcceptLocked (m : queued)
| SCall (m : queued)
| SResolve (m : queued)
| SReinsert (m : queued)
| CRet (r : retval)
| CDone.

Inductive thread :=
| TDrain (conv : string) (firstFailedAt : instant) (streakID : Z) (acts : list action) (pc : drain_pc)
| TCall (conv : string) (acts : list action) (pc : call_pc).

(** What the scheduler and the environment decide in a step. *)
Inductive choice :=
| CGo
| CGate
| CReturn (err : option string)
| CClock (now now' : instant)
| CCtxDone.

#[export] Instance choice_eq_dec : EqDecision choice.
Proof. solve_decision. Defined.

Record sys := Sys {
  s_queue : Queue;
  s_done : bool;                         (* ctx.Done() *)
  s_threads : list thread;
  s_log : list (string * queued);        (* every accepted message, by location *)
  s_trace : list event;                  (* newest first *)
}.

Section system.
Context (cfg : Config).

Definition opt_terminal (observe : bool) (m : queued) : list action :=
  if observe then [ATerminal m] else [].

(** [notifyTerminal] (with [notifyDelivered]), [notify], [notifyGiveUp] and
    a context's cancel function: the observable calls of one action. *)
Definition fire (convID : string) (q : Queue) (a : action) : list event :=
  match a with
  | ACancel att => [EvCancel att]
  | ATerminal m =>
      let lc := lifecycle q m in
      let qm := message m (lc_sentNow lc) in
      match lc_outcome lc with
      | Some o =>
          (if has_onTerminal cfg then [EvTerminal convID (m_lifecycle m) qm o] else [])
          ++ (if decide (o = TerminalDelivered)
              then if has_onDelivered cfg then [EvDelivered convID (m_lifecycle m) qm] else []
              else [])
      | None => []
      end
  | AChange => if has_onChange cfg then [EvChange convID] else []
  | AGiveUp elapsed err =>
      if has_onGiveUp cfg then [EvGiveUp convID (Round elapsed second) err] else []
  end.

Definition new_drain (convID : string) : thread := TDrain convID zero_time 0 [] DTop.
Definition opt_drain (convID : string) (spawn : bool) : list thread :=
  if spawn then [new_drain convID] else [].

(** One step of the drain loop once its pending actions have fired. The
    result: queue, the thread, goroutines started, events (newest first). *)
Definition drain_step (convID : string) (first : instant) (streak : Z) (pc : drain_pc)
    (q : Queue) (shutdown : bool) (ch : choice)
  : option (Queue * thread * list event) :=
  match pc, ch with
  | DTop, CGo =>
      match drain_peek convID q with
      | (q, None) => Some (q, TDrain convID first streak [] DDone, [])
      | (q, Some (head, att)) => Some (q, TDrain convID first streak [] (DDeliver head att None), [])
      end
  | DDeliver head att None, CGate =>
      let '(q, ok) := commitGate convID (m_id head) q in
      Some (q, TDrain convID first streak [] (DDeliver head att (Some ok)), [])
  | DDeliver head att _, CReturn err =>
      Some (q, TDrain convID first streak [ACancel att] (DSettle head att err),
            [EvDeliver convID (m_lifecycle head) err])
  | DSettle head att err, CGo =>
      let '(q, r) := drain_settle convID head err shutdown q in
      let terminal := opt_terminal (s_observe r) head in
      if shutdown then Some (q, TDrain convID first streak terminal DExitLocked,
                             match err with None => [EvLeft convID (m_lifecycle head)] | Some _ => [] end)
      else match err with
      | None =>
          Some (q, TDrain convID zero_time streak
                     (terminal ++ if s_advanced r then [AChange] else []) DTop, [])
      | Some e =>
          if s_dropped r then Some (q, TDrain convID zero_time streak terminal DTop, [])
          else Some (q, TDrain convID first streak terminal (DFailed head e), [])
      end
  | DFailed head e, CClock now now' =>
      if match pending cfg with Some p => p e | None => false end
      then Some (q, TDrain convID zero_time streak [] DSleep, [])
      else
        let '(first, streak, elapsed) := failure_clock first streak head now now' in
        if giveUpAfter cfg <=? elapsed
        then Some (q, TDrain convID first streak [] (DGiveUp head elapsed e), [])
        else Some (q, TDrain convID first streak [] DSleep, [])
  | DGiveUp head elapsed e, CGo =>
      match giveUp convID head q with
      | (q, Some observe) =>
          Some (q, TDrain convID first streak
                     (opt_terminal observe head ++ [AChange; AGiveUp elapsed e]) DDone,
                [EvAbandon convID (m_lifecycle head)])
      | (q, None) => Some (q, TDrain convID zero_time streak [] DTop, [])
      end
  | DSleep, CGo => Some (q, TDrain convID first streak [] DTop, [])
  | DSleep, CCtxDone =>
      if shutdown then Some (q, TDrain convID first streak [] DExitLocked, []) else None
  | DExitLocked, CGo => Some (drain_exit convID q, TDrain convID first streak [] DDone, [])
  | _, _ => None
  end.

(** One step of a caller of the queue's methods; a reinsertion may start a
    drain. *)
Definition call_step (convID : string) (pc : call_pc) (q : Queue) (ch : choice)
  : option (Queue * thread * list thread * list event) :=
  match pc, ch with
  | EAccept m, CGo =>
      if has_onAccepted cfg
      then Some (q, TCall convID [] (EAcceptLocked m), [],
                 [EvAccepted convID (m_lifecycle m) (message m false)])
      else Some (q, TCall convID [AChange] (CRet (REnqueue (m_id m))), [], [])
  | EAcceptLocked m, CGo =>
      let '(q, observe) := accept convID m q in
      Some (q, TCall convID (opt_terminal observe m ++ [AChange])
                 (CRet (REnqueue (m_id m))), [], [])
  | SCall m, CReturn None =>
      Some (q, TCall convID [] (SResolve m), [], [EvSendNow convID (m_lifecycle m) None])
  | SCall m, CReturn (Some e) =>
      Some (q, TCall convID [] (SReinsert m), [], [EvSendNow convID (m_lifecycle m) (Some e)])
  | SResolve m, CGo =>
      let '(q, observe) := resolveLocked m TerminalDelivered true q in
      Some (q, TCall convID (AChange :: opt_terminal observe m)
                 (CRet (RSendNow (m_id m) true)), [], [])
  | SReinsert m, CGo =>
      let '(q, spawn) := reinsert convID m q in
      Some (q, TCall convID [] (CRet (RSendNow (m_id m) false)), opt_drain convID spawn, [])
  | CRet r, CGo => Some (q, TCall convID [] CDone, [], [EvReturn convID r])
  | _, _ => None
  end.

Definition thread_step (q : Queue) (shutdown : bool) (t : thread) (ch : choice)
  : option (Queue * thread * list thread * list event) :=
  match t with
  | TDrain convID first streak (a :: acts) pc =>
      if decide (ch = CGo) then Some (q, TDrain convID first streak acts pc, [], fire convID q a) else None
  | TCall convID (a :: acts) pc =>
      if decide (ch = CGo) then Some (q, TCall convID acts pc, [], fire convID q a) else None
  | TDrain convID first streak [] pc =>
      match drain_step convID first streak pc q shutdown ch with
      | Some (q, t, evs) => Some (q, t, [], evs)
      | None => None
      end
  | TCall convID [] pc => call_step convID pc q ch
  end.

(** ** Steps of the whole system *)

Inductive label :=
| LEnqueue (conv : string) (a : enqueue_args) (now : instant)
| LRemove (conv : string) (id itemID : Z)
| LSendNow (conv : string) (id itemID : Z)
| LBind (conv : string) (id itemID : Z)
| LRunStart
| LCtxDone
| LRunClose
| LThread (i : nat) (ch : choice).

Definition step (lb : label) (s : sys) : option sys :=
  let '(Sys q done ts log tr) := s in
  match lb with
  | LEnqueue convID a now =>
      match EnqueueIdentified cfg convID a now q with
      | (q, None) => Some (Sys q done ts log (EvReturn convID (REnqueue 0) :: tr))
      | (q, Some (m, spawn)) =>
          Some (Sys q done (ts ++ TCall convID [] (EAccept m) :: opt_drain convID spawn)
                  (log ++ [(convID, m)]) tr)
      end
  | LRemove convID id itemID =>
      match remove convID id itemID q with
      | (q, None) => Some (Sys q done ts log (EvReturn convID (RRemove id false) :: tr))
      | (q, Some (m, cancel, observe)) =>
          let acts := match cancel with Some att => [ACancel att] | None => [] end
                      ++ opt_terminal observe m ++ [AChange] in
          Some (Sys q done (ts ++ [TCall convID acts (CRet (RRemove id true))]) log tr)
      end
  | LSendNow convID id itemID =>
      match sendNowItem cfg convID id itemID q with
      | (q, None) => Some (Sys q done ts log (EvReturn convID (RSendNow id false) :: tr))
      | (q, Some (m, cancel)) =>
          let acts := match cancel with Some att => [ACancel att] | None => [] end in
          Some (Sys q done (ts ++ [TCall convID acts (SCall m)]) log tr)
      end
  | LBind convID id itemID => Some (Sys (BindAcceptedItem convID id itemID q) done ts log tr)
  | LRunStart =>
      if q_started q then None   (* Run is called once *)
      else let '(q, spawned) := run_start q in
           Some (Sys q done (ts ++ (new_drain <$> spawned)) log tr)
  | LCtxDone => if q_started q then Some (Sys q true ts log tr) else None
  | LRunClose => if q_started q && done then Some (Sys (run_close q) done ts log tr) else None
  | LThread i ch =>
      match ts !! i with
      | None => None
      | Some t =>
          match thread_step q done t ch with
          | None => None
          | Some (q, t, new, evs) => Some (Sys q done (<[i:=t]> ts ++ new) log (evs ++ tr))
          end
      end
  end.

Definition init (q : Queue) : sys := Sys q false [] [] [].
Definition empty_queue : Queue := MkQueue ∅ false false [] 0.

(** A run along a schedule, and the states runs of a given discipline reach. *)
Fixpoint run (lbs : list label) (s : sys) : option sys :=
  match lbs with
  | [] => Some s
  | lb :: lbs => match step lb s with Some s => run lbs s | None => None end
  end.

Inductive reachable (ok : label -> sys -> Prop) : sys -> Prop :=
| reach_init : reachable ok (init empty_queue)
| reach_step s lb s' : reachable ok s -> ok lb s -> step lb s = Some s' -> reachable ok s'.

Definition any_schedule : label -> sys -> Prop := fun _ _ => True.

(** The contract of the delivery seam ([turncommit.Gate], [DeliverFunc]): it
    returns [nil] only when the gate it called let it write. *)
Definition gate_contract (lb : label) (s : sys) : Prop :=
  match lb with
  | LThread i (CReturn None) =>
      match s_threads s !! i with
      | Some (TDrain _ _ _ [] (DDeliver _ _ claim)) => claim = Some true
      | _ => True
      end
  | _ => True
  end.
End system.

End MsgQueueSystem.
