(* ===== verification/MsgQueueInv.v ===== *)
(** * Invariants of the interleaved message queue

    Reachable states of [MsgQueueSystem]: where messages may occur, who owns a
    terminal notification, who drains a conversation, and what a claimed head
    excludes. *)
From stdpp Require Import prelude gmap strings list.
From S2P Require Import Prelude MsgQueue MsgQueueSystem.

Module MsgQueueInv.
Import MsgQueue MsgQueueSystem.

Local Open Scope Z_scope.

(** ** Reading a state *)

Definition items (q : Queue) (c : string) : list queued := cq_items (conv q c).
Definition draining (q : Queue) (c : string) : bool := cq_draining (conv q c).
Definition committing (q : Queue) (c : string) : bool := cq_committing (conv q c).

Definition tconv (t : thread) : string :=
  match t with TDrain c _ _ _ _ | TCall c _ _ => c end.

Definition action_msgs (a : action) : list queued :=
  match a with ATerminal m => [m] | _ => [] end.

Definition pc_msgs (t : thread) : list queued :=
  match t with
  | TDrain _ _ _ _ (DDeliver m _ _ | DSettle m _ _ | DFailed m _ | DGiveUp m _ _) => [m]
  | TCall _ _ (EAccept m | EAcceptLocked m | SCall m | SResolve m | SReinsert m) => [m]
  | _ => []
  end.

Definition acts_of (t : thread) : list action :=
  match t with TDrain _ _ _ acts _ | TCall _ acts _ => acts end.

(** Every message a thread holds. *)
Definition tmsgs (t : thread) : list queued :=
  (acts_of t ≫= action_msgs) ++ pc_msgs t.

Lemma conv_put c c' x q :
  conv (put_conv c x q) c' = if decide (c = c') then x else conv q c'.
Proof.
  unfold conv, put_conv; simpl. case_decide; subst; simplify_map_eq; done.
Qed.

Lemma conv_put_eq c x q : conv (put_conv c x q) c = x.
Proof. rewrite conv_put. by case_decide. Qed.

Lemma conv_put_ne c c' x q : c <> c' -> conv (put_conv c x q) c' = conv q c'.
Proof. intros. rewrite conv_put. by case_decide. Qed.

Lemma conv_upd_lifecycle f m q c : conv (upd_lifecycle f m q) c = conv q c.
Proof. done. Qed.

Lemma conv_lookup q c x : q_convs q !! c = Some x -> conv q c = x.
Proof. unfold conv. by intros ->. Qed.

Lemma conv_resolve m o b q c : conv (fst (resolveLocked m o b q)) c = conv q c.
Proof. unfold resolveLocked. by case_match. Qed.

Lemma heap_resolve m o b q : length (q_heap (fst (resolveLocked m o b q))) = length (q_heap q).
Proof. unfold resolveLocked. case_match; simpl; [done|]. by rewrite length_alter. Qed.

(** The items a [takeable] message leaves behind. *)
Lemma takeable_spec id n c q idx m :
  takeable id n c q = Some (idx, m) ->
  cq_items c !! idx = Some m /\ m_id m = id /\ (idx = 0%nat -> cq_committing c = false).
Proof.
  unfold takeable. intros H. repeat (case_match; simplify_eq/=).
  match goal with H : IndexFunc _ _ = Some _ |- _ => apply IndexFunc_Some in H as [(y & Hy & Hp) _] end.
  match goal with H : (_ || _)%bool = false |- _ => apply orb_false_iff in H as [H' _] end.
  unfold has_id in Hp. reflect_bools. simplify_eq.
  split; [done|]. split; [done|]. intros ->. exact H'.
Qed.

Lemma spawn_items c x q y b :
  maybeSpawnDrainLocked c x q = (y, b) ->
  cq_items y = cq_items x /\ cq_committing y = cq_committing x
  /\ cq_nextID y = cq_nextID x /\ cq_accepting y = cq_accepting x
  /\ Nat.b2n (cq_draining y) = (Nat.b2n (cq_draining x) + Nat.b2n b)%nat.
Proof.
  unfold maybeSpawnDrainLocked. case_match; intros [= <- <-]; simpl.
  - repeat split; lia.
  - apply orb_false_iff in H as [H _]. apply orb_false_iff in H as [_ ->]. done.
Qed.

Lemma advance_spec id x y b :
  advanceLocked id x = (y, b) ->
  cq_committing y = cq_committing x /\ cq_draining y = cq_draining x
  /\ cq_nextID y = cq_nextID x /\ cq_headTaken y = cq_headTaken x
  /\ ((b = false /\ y = x /\ forall m r, cq_items x = m :: r -> m_id m <> id)
      \/ (b = true /\ exists m, m_id m = id /\ cq_items x = m :: cq_items y)).
Proof.
  unfold advanceLocked. repeat case_match; intros [= <- <-]; simpl; repeat split; auto.
  - right. split; [done|]. reflect_bools. eauto.
  - left. repeat split; auto. intros ? ? [= <- <-]. by reflect_bools.
Qed.

(** ** Lifecycle flags, by location *)

Definition accepted (q : Queue) (l : nat) : bool :=
  match q_heap q !! l with Some lc => lc_accepted lc | None => false end.
Definition outcome (q : Queue) (l : nat) : option TerminalOutcome :=
  q_heap q !! l ≫= lc_outcome.
Definition removed (q : Queue) (l : nat) : bool :=
  match q_heap q !! l with Some lc => lc_removed lc | None => false end.
Definition resolved (q : Queue) (l : nat) : bool := bool_decide (outcome q l <> None).

(** One notification is owed once a message is both accepted and resolved. *)
Definition target (q : Queue) (l : nat) : nat := Nat.b2n (accepted q l && resolved q l).

(** An update that touches neither flag nor outcome. *)
Definition quiet (f : messageLifecycle -> messageLifecycle) : Prop :=
  forall x, lc_accepted (f x) = lc_accepted x /\ lc_outcome (f x) = lc_outcome x.

Lemma quiet_attempt b : quiet (with_attempt b).
Proof. done. Qed.
Lemma quiet_removed : quiet with_removed.
Proof. done. Qed.
Lemma quiet_itemID n : quiet (with_itemID n).
Proof. done. Qed.
#[local] Hint Resolve quiet_attempt quiet_removed quiet_itemID : core.

Lemma upd_quiet f m q l :
  quiet f ->
  accepted (upd_lifecycle f m q) l = accepted q l
  /\ outcome (upd_lifecycle f m q) l = outcome q l.
Proof.
  intros Hf. unfold accepted, outcome, upd_lifecycle; simpl.
  rewrite list_lookup_alter. case_decide; [|done]. subst.
  destruct (q_heap q !! m_lifecycle m) as [x|]; [|done]. simpl. by destruct (Hf x).
Qed.

Lemma removed_upd f m q l :
  (forall x, lc_removed (f x) = lc_removed x) ->
  removed (upd_lifecycle f m q) l = removed q l.
Proof.
  intros Hf. unfold removed, upd_lifecycle; simpl. rewrite list_lookup_alter.
  case_decide; [|done]. subst. destruct (q_heap q !! m_lifecycle m); [|done]. simpl. by rewrite Hf.
Qed.

Lemma flags_put c x q l :
  accepted (put_conv c x q) l = accepted q l /\ outcome (put_conv c x q) l = outcome q l
  /\ removed (put_conv c x q) l = removed q l.
Proof. done. Qed.

Lemma lifecycle_outcome q m :
  (m_lifecycle m < length (q_heap q))%nat -> lc_outcome (lifecycle q m) = outcome q (m_lifecycle m).
Proof.
  intros Hl. unfold lifecycle, outcome.
  by destruct (lookup_lt_is_Some_2 (q_heap q) (m_lifecycle m) Hl) as [x ->].
Qed.

Lemma lifecycle_accepted q m : lc_accepted (lifecycle q m) = accepted q (m_lifecycle m).
Proof. unfold lifecycle, accepted. by destruct (q_heap q !! m_lifecycle m). Qed.

Lemma lifecycle_removed q m : lc_removed (lifecycle q m) = removed q (m_lifecycle m).
Proof. unfold lifecycle, removed. by destruct (q_heap q !! m_lifecycle m). Qed.

(** [resolveLocked] claims an outcome at most once, and its caller owns the
    notification exactly when the message was already accepted. *)
Lemma resolve_spec m o b q q' obs :
  (m_lifecycle m < length (q_heap q))%nat ->
  resolveLocked m o b q = (q', obs) ->
  (forall l, accepted q' l = accepted q l)
  /\ (forall l, removed q' l = removed q l)
  /\ (forall l, l <> m_lifecycle m -> outcome q' l = outcome q l)
  /\ outcome q' (m_lifecycle m) =
       (if decide (outcome q (m_lifecycle m) = None) then Some o else outcome q (m_lifecycle m))
  /\ (forall l, target q' l = target q l + if decide (l = m_lifecycle m) then Nat.b2n obs else 0)%nat.
Proof.
  intros Hl. unfold resolveLocked.
  destruct (lookup_lt_is_Some_2 (q_heap q) (m_lifecycle m) Hl) as [x Hx].
  assert (lifecycle q m = x) as -> by (unfold lifecycle; by rewrite Hx).
  assert (outcome q (m_lifecycle m) = lc_outcome x) as Ho by (unfold outcome; by rewrite Hx).
  destruct (lc_outcome x) as [o'|] eqn:Hox; intros [= <- <-].
  - repeat split; try done; intros.
    + rewrite Ho. by case_decide.
    + case_decide; simpl; lia.
  - assert (forall l, accepted (upd_lifecycle (with_outcome o b) m q) l = accepted q l) as Hacc.
    { intros l. unfold accepted, upd_lifecycle; simpl. rewrite list_lookup_alter.
      case_decide; [|done]. subst. by rewrite Hx. }
    assert (forall l, l <> m_lifecycle m ->
              outcome (upd_lifecycle (with_outcome o b) m q) l = outcome q l) as Hne.
    { intros l Hne. unfold outcome, upd_lifecycle; simpl. by rewrite list_lookup_alter_ne. }
    assert (outcome (upd_lifecycle (with_outcome o b) m q) (m_lifecycle m) = Some o) as Heq.
    { unfold outcome, upd_lifecycle; simpl. by rewrite list_lookup_alter_eq, Hx. }
    split; [done|]. split; [by intros; apply removed_upd|]. split; [done|].
    split; [rewrite Ho; by case_decide|].
    intros l. unfold target, resolved. rewrite Hacc. case_decide; subst.
    + rewrite Heq, Ho. unfold accepted. rewrite Hx.
      by destruct (lc_accepted x).
    + rewrite Hne by done. lia.
Qed.

(** ** What each critical section does to the conversation it locks *)

Definition frame (c : string) (q q' : Queue) : Prop :=
  (forall c', c' <> c -> conv q' c' = conv q c')
  /\ length (q_heap q') = length (q_heap q)
  /\ q_started q' = q_started q /\ q_closed q' = q_closed q.

(** Flags of every message unchanged. *)
Definition quiet_step (q q' : Queue) : Prop :=
  forall l, accepted q' l = accepted q l /\ outcome q' l = outcome q l
            /\ removed q' l = removed q l.

Lemma quiet_target q q' l : quiet_step q q' -> target q' l = target q l.
Proof. intros H. unfold target, resolved. by destruct (H l) as (-> & -> & _). Qed.

Lemma quiet_upd f m q :
  quiet f -> (forall x, lc_removed (f x) = lc_removed x) -> quiet_step q (upd_lifecycle f m q).
Proof.
  intros Hf Hr l. destruct (upd_quiet f m q l Hf) as [-> ->]. by rewrite removed_upd.
Qed.

Lemma frame_resolve m o b c q : frame c q (fst (resolveLocked m o b q)).
Proof.
  repeat split; [intros; by rewrite conv_resolve|by rewrite heap_resolve|..];
    unfold resolveLocked; by case_match.
Qed.

Lemma commitGate_spec c id q q' ok :
  commitGate c id q = (q', ok) ->
  frame c q q' /\ q_heap q' = q_heap q /\ items q' c = items q c
  /\ draining q' c = draining q c /\ cq_nextID (conv q' c) = cq_nextID (conv q c)
  /\ (ok = true -> committing q' c = true /\ exists m r, items q c = m :: r /\ m_id m = id)
  /\ (ok = false -> q' = q).
Proof.
  unfold commitGate, items, draining, committing.
  destruct (q_convs q !! c) as [x|] eqn:Hx; [|intros [= <- <-]; done].
  rewrite (conv_lookup _ _ _ Hx).
  destruct (cq_items x) as [|m r] eqn:Hi; [intros [= <- <-]; rewrite (conv_lookup _ _ _ Hx); done|].
  case_match; intros [= <- <-]; rewrite ?conv_put_eq, ?(conv_lookup _ _ _ Hx); simpl.
  - repeat split; try done; [intros; by apply conv_put_ne|].
    reflect_bools. eauto.
  - done.
Qed.

Lemma drain_peek_None c q q' :
  drain_peek c q = (q', None) ->
  frame c q q' /\ q_heap q' = q_heap q /\ items q c = [] /\ items q' c = []
  /\ draining q' c = false /\ cq_nextID (conv q' c) = cq_nextID (conv q c)
  /\ committing q' c = committing q c.
Proof.
  unfold drain_peek, items, draining, committing. destruct (cq_items (conv q c)) eqn:Hi; intros [= <-].
  rewrite conv_put_eq; simpl. repeat split; try done; intros; by apply conv_put_ne.
Qed.

Lemma drain_peek_Some c q q' h att :
  drain_peek c q = (q', Some (h, att)) ->
  frame c q q' /\ quiet_step q q' /\ (exists r, items q c = h :: r) /\ items q' c = items q c
  /\ draining q' c = draining q c /\ cq_nextID (conv q' c) = cq_nextID (conv q c)
  /\ committing q' c = false.
Proof.
  unfold drain_peek, items, draining, committing.
  destruct (cq_items (conv q c)) as [|m r] eqn:Hi; intros [= <- -> <-].
  match goal with |- frame _ _ ?q1 /\ _ =>
    set (qq := q1);
    assert (qq = MkQueue (q_convs qq) (q_started q) (q_closed q)
                   (q_heap (upd_lifecycle (with_attempt true) h q)) (S (q_attempts q))) as E by done
  end.
  assert (conv qq c = set_headTaken false (set_deliverCancel (Some (q_attempts q))
             (set_committing false (conv q c)))) as Hc by apply conv_put_eq.
  rewrite Hc; simpl. repeat split; try done.
  - intros c' Hne. by apply (conv_put_ne c c' _ (upd_lifecycle (with_attempt true) h q)).
  - simpl. by rewrite length_alter.
  - by apply upd_quiet.
  - by apply upd_quiet.
  - by apply removed_upd.
  - eauto.
Qed.

(** The body of the second critical section of the drain. *)
Lemma drain_settle_spec c h err sh q q' r :
  (m_lifecycle h < length (q_heap q))%nat ->
  drain_settle c h err sh q = (q', r) ->
  frame c q q' /\ draining q' c = draining q c /\ committing q' c = false
  /\ cq_nextID (conv q' c) = cq_nextID (conv q c)
  /\ (forall l, accepted q' l = accepted q l /\ removed q' l = removed q l)
  /\ (forall l, target q' l = target q l + if decide (l = m_lifecycle h) then Nat.b2n (s_observe r) else 0)%nat
  /\ (forall l, l <> m_lifecycle h -> outcome q' l = outcome q l)
  /\ match err with
     | None =>
         if sh then items q' c = items q c /\ s_advanced r = false /\ s_observe r = false
                    /\ outcome q' (m_lifecycle h) = outcome q (m_lifecycle h)
         else outcome q' (m_lifecycle h)
                = (if decide (outcome q (m_lifecycle h) = None) then Some TerminalDelivered
                   else outcome q (m_lifecycle h))
              /\ ((s_advanced r = true /\ exists m, m_id m = m_id h /\ items q c = m :: items q' c)
                  \/ (s_advanced r = false /\ items q' c = items q c
                      /\ forall m l, items q c = m :: l -> m_id m <> m_id h))
     | Some _ =>
         items q' c = items q c /\ s_advanced r = false
         /\ outcome q' (m_lifecycle h)
              = (if removed q (m_lifecycle h)
                 then if decide (outcome q (m_lifecycle h) = None) then Some TerminalRemoved
                      else outcome q (m_lifecycle h)
                 else outcome q (m_lifecycle h))
     end
  /\ (s_dropped r = false -> exists m l, items q' c = m :: l /\ m_id m = m_id h).
Proof.
  intros Hl. unfold drain_settle.
  set (x := set_committing false (set_deliverCancel None (conv q c))).
  set (q1 := upd_lifecycle (with_attempt false) h q).
  assert (quiet_step q q1) as Hq1 by (by apply quiet_upd).
  assert (frame c q q1) as Hf1 by (repeat split; try done; simpl; by rewrite length_alter).
  assert (m_lifecycle h < length (q_heap q1))%nat as Hl1 by (simpl; by rewrite length_alter).
  assert (forall y o b q2 obs, resolveLocked h o b q1 = (q2, obs) ->
            frame c q (put_conv c y q2)) as Hfr.
  { intros y o b q2 obs E. destruct (frame_resolve h o b c q1) as (A & B & C & D).
    rewrite E in A, B, C, D. destruct Hf1 as (A1 & B1 & C1 & D1). simpl fst in *.
    split; [|split; [by etrans|split; by etrans]].
    intros c' Hne. rewrite conv_put_ne by done. rewrite A by done. by apply A1. }
  assert (forall y, cq_items (set_headTaken false y) = cq_items y) as Hit by done.
  destruct err as [e|].
  - rewrite lifecycle_removed. destruct (Hq1 (m_lifecycle h)) as (_ & Ho1 & ->).
    destruct (removed q (m_lifecycle h)) eqn:Hr.
    + destruct (resolveLocked h TerminalRemoved false q1) as [q2 obs] eqn:E.
      pose proof (resolve_spec _ _ _ _ _ _ Hl1 E) as (Ha & Hre & Ho & Hoh & Ht).
      intros [= <- <-]. unfold items, draining, committing. rewrite conv_put_eq. simpl.
      split; [by eapply Hfr|]. split; [done|]. split; [done|]. split; [done|].
      split; [intros l; split; [rewrite (proj1 (flags_put _ _ _ l)), Ha; apply Hq1|
                                etrans; [apply Hre|apply Hq1]]|].
      split; [intros l; etrans; [apply Ht|]; by rewrite (quiet_target _ _ l Hq1)|].
      split; [intros l Hne; etrans; [by apply Ho|apply Hq1]|].
      split; [repeat split; try done; etrans; [apply Hoh|]; by rewrite Ho1|].
      intros Hd. destruct (cq_items (conv q c)) as [|m l]; [done|].
      exists m, l. split; [done|]. apply orb_false_iff in Hd as [Hd _]. by reflect_bools.
    + intros [= <- <-]. unfold items, draining, committing. rewrite conv_put_eq. simpl.
      split; [repeat split; simpl; rewrite ?length_alter; try done;
              intros c' Hne; by rewrite conv_put_ne|].
      split; [done|]. split; [done|]. split; [done|].
      split; [intros l; split; apply Hq1|].
      split; [intros l; etrans; [apply (quiet_target _ _ l Hq1)|]; case_decide; simpl; lia|].
      split; [intros l _; apply Hq1|].
      split; [repeat split; try done; apply Hq1|].
      intros Hd. destruct (cq_items (conv q c)) as [|m l]; [done|].
      exists m, l. split; [done|]. apply orb_false_iff in Hd as [Hd _]. by reflect_bools.
  - destruct sh; simpl.
    + intros [= <- <-]. unfold items, draining, committing. rewrite conv_put_eq. simpl.
      split; [repeat split; simpl; rewrite ?length_alter; try done;
              intros c' Hne; by rewrite conv_put_ne|].
      split; [done|]. split; [done|]. split; [done|].
      split; [intros l; split; apply Hq1|].
      split; [intros l; etrans; [apply (quiet_target _ _ l Hq1)|]; case_decide; simpl; lia|].
      split; [intros l _; apply Hq1|].
      split; [repeat split; try done; apply Hq1|].
      intros Hd. destruct (cq_items (conv q c)) as [|m l]; [done|].
      exists m, l. split; [done|]. apply orb_false_iff in Hd as [Hd _]. by reflect_bools.
    + destruct (advanceLocked (m_id h) x) as [y adv] eqn:Eadv.
      destruct (resolveLocked h TerminalDelivered false q1) as [q2 obs] eqn:E.
      pose proof (resolve_spec _ _ _ _ _ _ Hl1 E) as (Ha & Hre & Ho & Hoh & Ht).
      pose proof (advance_spec _ _ _ _ Eadv) as (Hc & Hdr & Hn & Hht & Hadv).
      destruct (Hq1 (m_lifecycle h)) as (_ & Ho1 & _).
      intros [= <- <-]. unfold items, draining, committing. rewrite conv_put_eq. simpl.
      split; [by eapply Hfr|]. split; [done|]. split; [done|]. split; [done|].
      split; [intros l; split; [etrans; [apply Ha|apply Hq1]|etrans; [apply Hre|apply Hq1]]|].
      split; [intros l; etrans; [apply Ht|]; by rewrite (quiet_target _ _ l Hq1)|].
      split; [intros l Hne; etrans; [by apply Ho|apply Hq1]|].
      split; [split; [etrans; [apply Hoh|]; by rewrite Ho1|]|].
      { destruct Hadv as [(-> & -> & Hno)|(-> & m & Hm & Hi)]; [right|left]; simpl in *; eauto. }
      intros Hd. destruct (cq_items y) as [|m l]; [done|].
      exists m, l. split; [done|]. apply orb_false_iff in Hd as [Hd _]. by reflect_bools.
Qed.

Lemma drain_exit_spec c q :
  frame c q (drain_exit c q) /\ quiet_step q (drain_exit c q)
  /\ items (drain_exit c q) c = items q c /\ draining (drain_exit c q) c = false
  /\ cq_nextID (conv (drain_exit c q) c) = cq_nextID (conv q c)
  /\ committing (drain_exit c q) c = committing q c.
Proof.
  unfold drain_exit, items, draining, committing. rewrite conv_put_eq. simpl.
  repeat split; try done; intros; by apply conv_put_ne.
Qed.

Lemma giveUp_spec c h q q' r :
  (m_lifecycle h < length (q_heap q))%nat ->
  giveUp c h q = (q', r) ->
  frame c q q' /\ (forall l, accepted q' l = accepted q l /\ removed q' l = removed q l)
  /\ cq_nextID (conv q' c) = cq_nextID (conv q c)
  /\ committing q' c = committing q c
  /\ (forall l, target q' l
        = target q l + if decide (l = m_lifecycle h) then Nat.b2n (default false r) else 0)%nat
  /\ (forall l, l <> m_lifecycle h -> outcome q' l = outcome q l)
  /\ match r with
     | None => q' = q
     | Some _ => draining q' c = false
         /\ (exists m, m_id m = m_id h /\ items q c = m :: items q' c)
         /\ outcome q' (m_lifecycle h)
             = (if decide (outcome q (m_lifecycle h) = None) then Some TerminalGiveUp
                else outcome q (m_lifecycle h))
     end.
Proof.
  intros Hl. unfold giveUp.
  destruct (advanceLocked (m_id h) (conv q c)) as [y adv] eqn:Eadv.
  pose proof (advance_spec _ _ _ _ Eadv) as (Hc & Hdr & Hn & Hht & Hadv).
  destruct adv; [|intros [= <- <-]; repeat split; try done; intros l; case_decide; simpl; lia].
  destruct (resolveLocked h TerminalGiveUp false q) as [q2 obs] eqn:E.
  pose proof (resolve_spec _ _ _ _ _ _ Hl E) as (Ha & Hre & Ho & Hoh & Ht).
  destruct (frame_resolve h TerminalGiveUp false c q) as (A & B & C & D).
  rewrite E in A, B, C, D. simpl fst in *.
  intros [= <- <-]. unfold items, draining, committing. rewrite conv_put_eq. simpl.
  destruct Hadv as [(? & _)|(_ & m & Hm & Hi)]; [done|].
  repeat split; try done.
  - intros c' Hne. rewrite conv_put_ne by done. by apply A.
  - apply Ha.
  - apply Hre.
  - eauto.
Qed.

Lemma accept_spec c m q q' obs :
  (m_lifecycle m < length (q_heap q))%nat ->
  accept c m q = (q', obs) ->
  frame c q q' /\ items q' c = items q c /\ draining q' c = draining q c
  /\ cq_nextID (conv q' c) = cq_nextID (conv q c) /\ committing q' c = committing q c
  /\ (forall l, outcome q' l = outcome q l /\ removed q' l = removed q l)
  /\ (forall l, l <> m_lifecycle m -> accepted q' l = accepted q l)
  /\ accepted q' (m_lifecycle m) = true
  /\ obs = resolved q (m_lifecycle m).
Proof.
  intros Hl. unfold accept.
  set (c1 := set_accepting (delete (m_id m) (cq_accepting (conv q c))) (conv q c)).
  set (q1 := put_conv c c1 q).
  assert (forall l, outcome (upd_lifecycle with_accepted m q1) l = outcome q l) as Ho.
  { intros l. unfold outcome, upd_lifecycle; simpl. rewrite list_lookup_alter.
    case_decide; [|done]. subst. by destruct (q_heap q !! m_lifecycle m). }
  intros [= <- <-]. rewrite lifecycle_outcome by (simpl; by rewrite length_alter).
  unfold items, draining, committing. rewrite conv_upd_lifecycle. unfold q1. rewrite conv_put_eq. simpl.
  split.
  { split; [intros c' Hne; rewrite conv_upd_lifecycle; unfold q1; by rewrite conv_put_ne|].
    simpl. rewrite length_alter. done. }
  do 4 (split; [done|]).
  split; [intros l; split; [apply Ho|]; change (removed q l) with (removed q1 l);
          by apply removed_upd|].
  split; [intros l Hne; unfold accepted, upd_lifecycle; simpl; by rewrite list_lookup_alter_ne|].
  split.
  - unfold accepted, upd_lifecycle; simpl. rewrite list_lookup_alter_eq.
    by destruct (lookup_lt_is_Some_2 (q_heap q) (m_lifecycle m) Hl) as [x ->].
  - unfold resolved. fold q1. rewrite Ho. apply bool_decide_ext.
    rewrite <- not_eq_None_Some. done.
Qed.

Lemma reinsert_spec c m q q' spawn :
  is_Some (q_convs q !! c) ->
  reinsert c m q = (q', spawn) ->
  frame c q q' /\ q_heap q' = q_heap q
  /\ items q' c = insert_at (reinsert_pos m (conv q c)) m (items q c)
  /\ Nat.b2n (draining q' c) = (Nat.b2n (draining q c) + Nat.b2n spawn)%nat
  /\ cq_nextID (conv q' c) = cq_nextID (conv q c) /\ committing q' c = committing q c.
Proof.
  intros [x Hx]. unfold reinsert. rewrite Hx.
  destruct (maybeSpawnDrainLocked _ _ _) as [y b] eqn:E.
  pose proof (spawn_items _ _ _ _ _ E) as (Hi & Hc & Hn & _ & Hd).
  intros [= <- <-]. unfold items, draining, committing. rewrite conv_put_eq.
  rewrite (conv_lookup _ _ _ Hx). rewrite Hi, Hc, Hn, Hd. simpl.
  repeat split; try done. intros; by apply conv_put_ne.
Qed.

Lemma reinsert_absent c m q : q_convs q !! c = None -> reinsert c m q = (q, false).
Proof. unfold reinsert. by intros ->. Qed.

Lemma remove_spec c id n q q' m cancel obs :
  (forall m, m ∈ items q c -> m_lifecycle m < length (q_heap q))%nat ->
  remove c id n q = (q', Some (m, cancel, obs)) ->
  exists idx, items q c !! idx = Some m /\ m_id m = id
  /\ (idx = 0%nat -> committing q c = false)
  /\ frame c q q' /\ items q' c = remove_at idx (items q c)
  /\ draining q' c = draining q c /\ cq_nextID (conv q' c) = cq_nextID (conv q c)
  /\ committing q' c = committing q c
  /\ (forall l, accepted q' l = accepted q l)
  /\ (forall l, l <> m_lifecycle m -> removed q' l = removed q l /\ outcome q' l = outcome q l)
  /\ removed q' (m_lifecycle m) = true
  /\ (outcome q' (m_lifecycle m) = outcome q (m_lifecycle m)
      \/ (outcome q (m_lifecycle m) = None /\ outcome q' (m_lifecycle m) = Some TerminalRemoved))
  /\ (forall l, target q' l = target q l + if decide (l = m_lifecycle m) then Nat.b2n obs else 0)%nat.
Proof.
  intros Hloc. unfold remove. destruct (q_convs q !! c) as [x|] eqn:Hx; [|done].
  assert (items q c = cq_items x) as Hix by (unfold items; by rewrite (conv_lookup _ _ _ Hx)).
  destruct (takeable id n x q) as [[idx m']|] eqn:Ht; [|done].
  pose proof (takeable_spec _ _ _ _ _ _ Ht) as (Hidx & Hid & Hcom).
  set (q1 := upd_lifecycle with_removed m' q).
  assert (forall l, accepted q1 l = accepted q l /\ outcome q1 l = outcome q l) as Hq1
    by (intros; by apply upd_quiet).
  assert (m_lifecycle m' < length (q_heap q))%nat as Hl
    by (apply Hloc; rewrite Hix; apply list_elem_of_lookup; eauto).
  assert (m_lifecycle m' < length (q_heap q1))%nat as Hl1 by (simpl; by rewrite length_alter).
  assert (forall l, l <> m_lifecycle m' -> removed q1 l = removed q l) as Hr1.
  { intros l Hne. unfold removed, q1, upd_lifecycle; simpl. by rewrite list_lookup_alter_ne. }
  assert (removed q1 (m_lifecycle m') = true) as Hr2.
  { unfold removed, q1, upd_lifecycle; simpl. rewrite list_lookup_alter_eq.
    by destruct (lookup_lt_is_Some_2 _ _ Hl) as [y ->]. }
  assert (forall l, target q1 l = target q l) as Ht1.
  { intros l. unfold target, resolved. by destruct (Hq1 l) as [-> ->]. }
  assert (frame c q q1) as (A1 & B1 & C1 & D1) by (repeat split; try done; simpl; by rewrite length_alter).
  intros H.
  destruct (negb (lc_attempt (lifecycle q1 m'))).
  - destruct (resolveLocked m' TerminalRemoved false q1) as [q2 b] eqn:E. injection H as <- <- <- <-.
    pose proof (resolve_spec _ _ _ _ _ _ Hl1 E) as (Ha & Hre & Ho & Hoh & Htt).
    destruct (frame_resolve m' TerminalRemoved false c q1) as (A & B & C & D).
    rewrite E in A, B, C, D. simpl fst in *.
    exists idx. rewrite Hix. unfold items, draining, committing. rewrite conv_put_eq, (conv_lookup _ _ _ Hx). simpl.
    split; [done|]. split; [done|]. split; [done|].
    split; [split; [|split; [by etrans|split; by etrans]];
            intros c' Hne; rewrite conv_put_ne by done; rewrite A by done; by apply A1|].
    do 4 (split; [done|]).
    split; [intros l; etrans; [apply Ha|apply Hq1]|].
    split; [intros l Hne; split; [etrans; [apply Hre|by apply Hr1]|etrans; [by apply Ho|apply Hq1]]|].
    split; [by etrans; [apply Hre|]|].
    split.
    { change (outcome (put_conv _ _ q2)) with (outcome q2). rewrite Hoh, (proj2 (Hq1 _)).
      destruct (decide (outcome q (m_lifecycle m') = None)); [by right|by left]. }
    intros l. etrans; [apply Htt|]. by rewrite Ht1.
  - injection H as <- <- <- <-. exists idx. rewrite Hix.
    unfold items, draining, committing. rewrite conv_put_eq, (conv_lookup _ _ _ Hx). simpl.
    split; [done|]. split; [done|]. split; [done|].
    split; [split; [intros c' Hne; rewrite conv_put_ne by done; by apply A1|done]|].
    do 4 (split; [done|]).
    split; [apply Hq1|].
    split; [intros l Hne; split; [by apply Hr1|apply Hq1]|].
    split; [done|]. split; [left; apply Hq1|].
    intros l. etrans; [apply Ht1|]. case_decide; simpl; lia.
Qed.

Lemma sendNowItem_spec cfg c id n q q' m cancel :
  sendNowItem cfg c id n q = (q', Some (m, cancel)) ->
  has_sendNow cfg = true /\ is_Some (q_convs q !! c) /\
  exists idx, items q c !! idx = Some m /\ m_id m = id
  /\ (idx = 0%nat -> committing q c = false)
  /\ frame c q q' /\ items q' c = remove_at idx (items q c) /\ q_heap q' = q_heap q
  /\ draining q' c = draining q c /\ cq_nextID (conv q' c) = cq_nextID (conv q c)
  /\ committing q' c = committing q c.
Proof.
  unfold sendNowItem. destruct (has_sendNow cfg); simpl; [|done].
  destruct (q_convs q !! c) as [x|] eqn:Hx; [|done].
  destruct (takeable id n x q) as [[idx m']|] eqn:Ht; [|done].
  pose proof (takeable_spec _ _ _ _ _ _ Ht) as (Hidx & Hid & Hcom).
  intros [= <- <- <-]. split; [done|]. split; [done|]. exists idx.
  unfold items, draining, committing. rewrite conv_put_eq, (conv_lookup _ _ _ Hx).
  case_decide; simpl; repeat split; try done; intros; by apply conv_put_ne.
Qed.

Lemma remove_None c id n q q' : remove c id n q = (q', None) -> q' = q.
Proof. unfold remove. repeat case_match; congruence. Qed.

Lemma sendNowItem_None cfg c id n q q' : sendNowItem cfg c id n q = (q', None) -> q' = q.
Proof. unfold sendNowItem. repeat case_match; congruence. Qed.

Lemma Enqueue_None cfg c a now q q' :
  EnqueueIdentified cfg c a now q = (q', None) ->
  (forall c', conv q' c' = conv q c') /\ q_heap q' = q_heap q
  /\ max cfg <= Z.of_nat (length (items q c))
  /\ q_started q' = q_started q /\ q_closed q' = q_closed q.
Proof.
  unfold EnqueueIdentified. destruct (_ && _)%bool eqn:E; [|by case_match].
  intros [= <-]. reflect_bools. repeat split; try done.
  intros c'. rewrite conv_put. by case_decide; subst.
Qed.

Lemma Enqueue_spec cfg c a now q q' m spawn :
  EnqueueIdentified cfg c a now q = (q', Some (m, spawn)) ->
  (forall c', c' <> c -> conv q' c' = conv q c') /\ q_started q' = q_started q
  /\ q_closed q' = q_closed q
  /\ (0 < max cfg -> Z.of_nat (length (items q c)) < max cfg)
  /\ items q' c = items q c ++ [m]
  /\ m_id m = cq_nextID (conv q c) /\ cq_nextID (conv q' c) = u64 (cq_nextID (conv q c) + 1)
  /\ m_lifecycle m = length (q_heap q)
  /\ q_heap q' = q_heap q ++ [MessageLifecycle 0 (negb (has_onAccepted cfg)) None false false false]
  /\ committing q' c = committing q c
  /\ Nat.b2n (draining q' c) = (Nat.b2n (draining q c) + Nat.b2n spawn)%nat
  /\ is_Some (q_convs q' !! c).
Proof.
  unfold EnqueueIdentified. fold (conv q c). destruct (_ && _)%bool eqn:E; [done|].
  set (x := if has_onAccepted cfg then _ else _).
  destruct (maybeSpawnDrainLocked c x q) as [y b] eqn:Es.
  pose proof (spawn_items _ _ _ _ _ Es) as (Hi & Hc & Hn & _ & Hd).
  intros [= <- <- <-]. unfold items, draining, committing. rewrite conv_put_eq. simpl.
  rewrite Hi, Hc, Hn, Hd.
  split; [intros; etrans; [by apply conv_put_ne|done]|]. do 2 (split; [done|]).
  split. { intros. apply andb_false_iff in E as [E|E]; reflect_bools; lia. }
  unfold x. case_match; simpl; rewrite lookup_insert_eq; done.
Qed.

Lemma lookup_snoc {A} (l : list A) x i :
  (l ++ [x]) !! i = if decide (i = length l) then Some x else l !! i.
Proof.
  case_decide; subst; [by rewrite list_lookup_middle|].
  destruct (decide (i < length l)%nat); [by rewrite lookup_app_l|].
  rewrite lookup_ge_None_2 by (rewrite length_app; simpl; lia). by rewrite lookup_ge_None_2 by lia.
Qed.

Lemma Bind_spec c id n q :
  let q' := BindAcceptedItem c id n q in
  (forall c', conv q' c' = conv q c') /\ length (q_heap q') = length (q_heap q) /\ quiet_step q q'
  /\ q_started q' = q_started q /\ q_closed q' = q_closed q /\ q_convs q' = q_convs q.
Proof.
  simpl. unfold BindAcceptedItem.
  assert (forall m, quiet_step q (upd_lifecycle (with_itemID n) m q)) as Hu
    by (intros; by apply quiet_upd).
  assert (forall l, quiet_step q (set_heap (alter (with_itemID n) l (q_heap q)) q)) as Hl.
  { intros l. apply (Hu (Queued 0 "" "" "" 0 [] "" "" "" 0 l)). }
  repeat case_match; simpl; rewrite ?length_alter; repeat split; try done; apply Hl || apply Hu.
Qed.

Lemma run_start_spawned q q' spawned c :
  run_start q = (q', spawned) ->
  c ∈ spawned <-> exists x, q_convs q !! c = Some x /\
    q_closed q = false /\ cq_draining x = false /\ cq_items x <> [].
Proof.
  unfold run_start. intros [= <- <-]. rewrite list_elem_of_fmap. split.
  - intros ([c' x] & -> & [Hsp Hin]%list_elem_of_filter). apply elem_of_map_to_list in Hin.
    exists x. split; [done|]. revert Hsp. simpl. unfold maybeSpawnDrainLocked; simpl.
    destruct (q_closed q), (cq_draining x), (cq_items x); done.
  - intros (x & Hx & Hc & Hd & Hi). exists (c, x). split; [done|]. apply list_elem_of_filter. simpl.
    split; [|by apply elem_of_map_to_list].
    unfold maybeSpawnDrainLocked; simpl. rewrite Hc, Hd. by rewrite bool_decide_eq_false_2.
Qed.

Lemma run_start_conv q q' spawned c :
  run_start q = (q', spawned) ->
  conv q' c = (if decide (c ∈ spawned) then set_draining true (conv q c) else conv q c).
Proof.
  intros H. pose proof (run_start_spawned _ _ _ c H) as Hsp.
  unfold run_start in H. injection H as <- _. unfold conv; simpl. rewrite lookup_fmap.
  destruct (q_convs q !! c) as [x|] eqn:Hx; simpl.
  - unfold maybeSpawnDrainLocked; simpl. case_decide as Hin.
    + apply Hsp in Hin as (x' & [= <-] & -> & -> & Hi). by rewrite bool_decide_eq_false_2.
    + case_match eqn:E; [done|]. exfalso. apply Hin, Hsp. exists x. reflect_bools.
      repeat split; try done.
  - case_decide as Hin; [|done]. apply Hsp in Hin as (? & ? & _). done.
Qed.

Lemma run_start_NoDup q q' spawned : run_start q = (q', spawned) -> NoDup spawned.
Proof.
  unfold run_start. intros [= _ <-].
  apply NoDup_fmap_fst; [|apply NoDup_filter, NoDup_map_to_list].
  intros c x y [_ Hx%elem_of_map_to_list]%list_elem_of_filter
    [_ Hy%elem_of_map_to_list]%list_elem_of_filter. congruence.
Qed.

Lemma run_start_spec q q' spawned :
  run_start q = (q', spawned) ->
  q_heap q' = q_heap q /\ q_started q' = true /\ q_closed q' = q_closed q
  /\ dom (q_convs q') = dom (q_convs q)
  /\ forall c, items q' c = items q c /\ committing q' c = committing q c
        /\ cq_nextID (conv q' c) = cq_nextID (conv q c).
Proof.
  intros H. split; [|split; [|split; [|split]]].
  1-4: unfold run_start in H; injection H as <- _; simpl; try done; by rewrite dom_fmap_L.
  intros c. unfold items, committing. rewrite (run_start_conv _ _ _ c H). by case_decide.
Qed.

End MsgQueueInv.
