(* ===== verification/MsgQueueSafety.v ===== *)
(** * Safety of the interleaved message queue

    Invariants of the reachable states of [MsgQueueSystem], by induction on the
    run, and the properties they give. *)
From stdpp Require Import prelude gmap strings list.
From S2P Require Import Prelude MsgQueue MsgQueueSystem MsgQueueInv.

Module MsgQueueSafety.
Import MsgQueue MsgQueueSystem MsgQueueInv.

Local Open Scope Z_scope.

(** Proofs reason about a critical section through its specification. *)
#[local] Opaque EnqueueIdentified BindAcceptedItem accept remove sendNowItem reinsert commitGate
  drain_peek drain_settle drain_exit giveUp run_start resolveLocked.

Section safety.
Context (cfg : Config).

(** Case analysis of a thread step down to its critical section. *)
Ltac thread_cases H :=
  unfold thread_step, drain_step, call_step in H;
  repeat (case_match; try discriminate H); simplify_eq/=.

Lemma tmsgs_drain c f st acts pc m :
  m ∈ tmsgs (TDrain c f st acts pc) <->
  m ∈ (acts ≫= action_msgs) \/ m ∈ pc_msgs (TDrain c f st [] pc).
Proof. unfold tmsgs. simpl. by rewrite elem_of_app. Qed.

Lemma tmsgs_call c acts pc m :
  m ∈ tmsgs (TCall c acts pc) <->
  m ∈ (acts ≫= action_msgs) \/ m ∈ pc_msgs (TCall c [] pc).
Proof. unfold tmsgs. simpl. by rewrite elem_of_app. Qed.

Lemma opt_terminal_msgs b m x : x ∈ (opt_terminal b m ≫= action_msgs) -> x = m.
Proof. destruct b; simpl; [|by intros ?%elem_of_nil]. by intros ?%list_elem_of_singleton. Qed.

(** What a thread's step can do to its conversation's items and to the
    messages it holds. *)
Record moves (c : string) (t : thread) (q : Queue) (t' : thread) (q' : Queue) (new : list thread) : Prop := {
  mv_frame : frame c q q';
  mv_conv : tconv t' = c;
  mv_new : forall u, u ∈ new -> u = new_drain c;
  mv_items : forall m, m ∈ items q' c -> m ∈ items q c \/ m ∈ tmsgs t;
  mv_msgs : forall m, m ∈ tmsgs t' -> m ∈ items q c \/ m ∈ tmsgs t;
}.

Lemma frame_refl c q : frame c q q.
Proof. by repeat split. Qed.

Ltac msgs :=
  rewrite ?tmsgs_drain, ?tmsgs_call in *; csimpl in *;
  rewrite ?bind_app, ?elem_of_app, ?elem_of_cons in *; csimpl in *;
  repeat match goal with
  | H : _ \/ _ |- _ => destruct H
  | H : _ ∈ (opt_terminal _ _ ≫= _) |- _ => apply opt_terminal_msgs in H; subst
  | H : _ ∈ [] |- _ => by apply not_elem_of_nil in H
  end; tauto.

Ltac no_threads := intros ? H_new; first [by apply not_elem_of_nil in H_new
  | by apply list_elem_of_singleton in H_new].

(** The locations the locked sections of a thread dereference are allocated. *)
Definition locs_ok (q : Queue) (t : thread) : Prop :=
  forall m, m ∈ tmsgs t -> (m_lifecycle m < length (q_heap q))%nat.

Lemma locs_ok_pc q t m : locs_ok q t -> m ∈ pc_msgs t -> (m_lifecycle m < length (q_heap q))%nat.
Proof. intros H Hm. apply H. unfold tmsgs. apply elem_of_app. by right. Qed.

Lemma settle_items c h err sh q q' r m :
  (m_lifecycle h < length (q_heap q))%nat ->
  drain_settle c h err sh q = (q', r) -> m ∈ items q' c -> m ∈ items q c.
Proof.
  intros Hl H. apply drain_settle_spec in H as (_&_&_&_&_&_&_&H&_); [|done].
  destruct err; [destruct H as [-> _]; done|]. destruct sh; [destruct H as [-> _]; done|].
  destruct H as [_ [(_ & y & _ & ->)|(_ & -> & _)]]; [by right|done].
Qed.

Lemma giveUp_items c h q q' r m :
  (m_lifecycle h < length (q_heap q))%nat ->
  giveUp c h q = (q', r) -> m ∈ items q' c -> m ∈ items q c.
Proof.
  intros Hl H. apply giveUp_spec in H as (_&_&_&_&_&_&H); [|done].
  destruct r; [|by subst]. destruct H as (_ & (y & _ & ->) & _). by right.
Qed.

Lemma reinsert_items c m q q' b x :
  reinsert c m q = (q', b) -> x ∈ items q' c -> x ∈ items q c \/ x = m.
Proof.
  intros H. destruct (q_convs q !! c) as [y|] eqn:Hy.
  - apply reinsert_spec in H as (_ & _ & -> & _); [|eauto].
    rewrite insert_at_Permutation, elem_of_cons. tauto.
  - rewrite reinsert_absent in H by done. injection H as <- <-. by left.
Qed.

Lemma reinsert_frame c m q q' b : reinsert c m q = (q', b) -> frame c q q'.
Proof.
  intros H. destruct (q_convs q !! c) as [y|] eqn:Hy.
  - by apply reinsert_spec in H as (? & _); [|eauto].
  - rewrite reinsert_absent in H by done. injection H as <- <-. apply frame_refl.
Qed.

Lemma drain_step_moves c f st pc q done ch q' t' evs :
  locs_ok q (TDrain c f st [] pc) ->
  drain_step cfg c f st pc q done ch = Some (q', t', evs) ->
  moves c (TDrain c f st [] pc) q t' q' [].
Proof.
  intros Hloc H.
  assert (forall m, m ∈ pc_msgs (TDrain c f st [] pc) -> (m_lifecycle m < length (q_heap q))%nat) as Hl
    by (intros; by eapply locs_ok_pc).
  unfold drain_step in H.
  destruct pc; simplify_eq/=; repeat (case_match; try discriminate H); simplify_eq/=.
  all: try (split; [apply frame_refl|done|no_threads|by left|intros; msgs]; fail).
  all: try (match goal with
  | E : drain_peek _ _ = (_, Some _) |- _ =>
      apply drain_peek_Some in E as (? & _ & [r Hr] & Hi & _); split; [done|done|no_threads| |];
        intros m Hm; [rewrite Hi in Hm; by left|left; rewrite Hr; msgs]
  | E : drain_peek _ _ = (_, None) |- _ =>
      apply drain_peek_None in E as (? & _ & _ & Hi & _); split; [done|done|no_threads| |];
        intros m Hm; [rewrite Hi in Hm; by apply not_elem_of_nil in Hm|msgs]
  | E : commitGate _ _ _ = _ |- _ =>
      apply commitGate_spec in E as (? & _ & Hi & _); split; [done|done|no_threads| |];
        intros m Hm; [rewrite Hi in Hm; by left|msgs]
  | E : drain_settle _ _ _ _ _ = _ |- _ =>
      pose proof E as E'; apply drain_settle_spec in E' as (? & _); [|apply Hl; simpl; apply list_elem_of_singleton; done];
      split; [done|done|no_threads| |]; intros m Hm;
        [left; eapply settle_items; [|done|done]; apply Hl; simpl; apply list_elem_of_singleton; done|msgs]
  | E : giveUp _ _ _ = _ |- _ =>
      pose proof E as E'; apply giveUp_spec in E' as (? & _); [|apply Hl; simpl; apply list_elem_of_singleton; done];
      split; [done|done|no_threads| |]; intros m Hm;
        [left; eapply giveUp_items; [|done|done]; apply Hl; simpl; apply list_elem_of_singleton; done|msgs]
  end; fail).
  destruct (drain_exit_spec c q) as (? & _ & Hi & _). split; [done|done|no_threads| |];
    intros m Hm; [rewrite Hi in Hm; by left|msgs].
Qed.

Lemma call_step_moves c pc q ch q' t' new evs :
  locs_ok q (TCall c [] pc) ->
  call_step cfg c pc q ch = Some (q', t', new, evs) ->
  moves c (TCall c [] pc) q t' q' new.
Proof.
  intros Hloc H.
  assert (forall m, m ∈ pc_msgs (TCall c [] pc) -> (m_lifecycle m < length (q_heap q))%nat) as Hl
    by (intros; by eapply locs_ok_pc).
  unfold call_step in H.
  destruct pc; simplify_eq/=; repeat (case_match; try discriminate H); simplify_eq/=.
  all: try (split; [apply frame_refl|done|no_threads|by left|intros; msgs]; fail).
  all: try (match goal with
  | E : accept _ _ _ = _ |- _ =>
      apply accept_spec in E as (? & Hi & _); [|apply Hl; simpl; apply list_elem_of_singleton; done]; split; [done|done|no_threads| |];
        intros x Hx; [rewrite Hi in Hx; by left|msgs]
  | E : resolveLocked ?m ?o ?b ?q = _ |- _ =>
      pose proof (frame_resolve m o b c q) as Hf; pose proof (conv_resolve m o b q c) as Hc;
      rewrite E in Hf, Hc; simpl in Hf, Hc; split; [done|done|no_threads| |];
        intros x Hx; [left; unfold items in *; by rewrite Hc in Hx|msgs]
  | E : reinsert _ _ _ = (_, ?b) |- _ =>
      split; [by eapply reinsert_frame|done|destruct b; no_threads| |intros x Hx; msgs];
        intros x Hx; eapply reinsert_items in Hx; [|done]; destruct Hx; subst; [by left|msgs]
  end; fail).
Qed.

Lemma thread_step_moves q done t ch q' t' new evs :
  locs_ok q t -> thread_step cfg q done t ch = Some (q', t', new, evs) ->
  moves (tconv t) t q t' q' new.
Proof.
  intros Hloc H. unfold thread_step in H.
  destruct t as [c f st [|a acts] pc|c [|a acts] pc]; simpl.
  - destruct (drain_step _ _ _ _ _ _ _ _) as [[[q1 t1] ev1]|] eqn:E; [|done].
    simplify_eq. by eapply drain_step_moves.
  - case_match; [|done]. simplify_eq.
    split; [apply frame_refl|done|no_threads|by left|]. intros m Hm. msgs.
  - by eapply call_step_moves.
  - case_match; [|done]. simplify_eq.
    split; [apply frame_refl|done|no_threads|by left|]. intros m Hm. msgs.
Qed.

(** ** Where messages occur *)

(** The history [s_log] records every accepted message under its location; a
    message found in a FIFO or held by a thread is the one accepted there. *)
Record wf (s : sys) : Prop := {
  wf_len : length (s_log s) = length (q_heap (s_queue s));
  wf_log : forall l c m, s_log s !! l = Some (c, m) -> m_lifecycle m = l;
  wf_items : forall c m, m ∈ items (s_queue s) c -> s_log s !! m_lifecycle m = Some (c, m);
  wf_threads : forall t m, t ∈ s_threads s -> m ∈ tmsgs t ->
    s_log s !! m_lifecycle m = Some (tconv t, m);
}.

Lemma wf_locs_ok s t : wf s -> t ∈ s_threads s -> locs_ok (s_queue s) t.
Proof.
  intros H Ht m Hm. rewrite <- (wf_len _ H). eapply lookup_lt_Some. by eapply wf_threads.
Qed.

Lemma wf_items_loc s c m :
  wf s -> m ∈ items (s_queue s) c -> (m_lifecycle m < length (q_heap (s_queue s)))%nat.
Proof. intros H Hm. rewrite <- (wf_len _ H). eapply lookup_lt_Some. by eapply wf_items. Qed.

Lemma wf_init : wf (init empty_queue).
Proof.
  split; simpl; try done.
  - intros c m. unfold items, conv; simpl. rewrite lookup_empty. by intros ?%not_elem_of_nil.
  - by intros t m ?%not_elem_of_nil.
Qed.

(** A step that logs nothing keeps [wf] when new occurrences are old ones. *)
Lemma wf_same_log q' done' ts' tr' s :
  wf s -> length (q_heap q') = length (q_heap (s_queue s)) ->
  (forall c m, m ∈ items q' c -> s_log s !! m_lifecycle m = Some (c, m)) ->
  (forall t m, t ∈ ts' -> m ∈ tmsgs t -> s_log s !! m_lifecycle m = Some (tconv t, m)) ->
  wf (Sys q' done' ts' (s_log s) tr').
Proof. intros H Hlen Hi Ht. split; simpl; [by rewrite Hlen; apply wf_len|by apply wf_log|done|done]. Qed.

Lemma frame_items c q q' c' : frame c q q' -> c' <> c -> items q' c' = items q c'.
Proof. intros (H & _) ?. unfold items. by rewrite H. Qed.

Lemma new_drain_msgs c m : m ∈ tmsgs (new_drain c) -> False.
Proof. unfold tmsgs. simpl. by intros ?%not_elem_of_nil. Qed.

Lemma opt_drain_msgs c b t m : t ∈ opt_drain c b -> m ∈ tmsgs t -> False.
Proof.
  destruct b; simpl; [|by intros ?%not_elem_of_nil].
  intros ->%list_elem_of_singleton. apply new_drain_msgs.
Qed.

Lemma wf_thread_step s i ch t q' t' new evs :
  wf s -> s_threads s !! i = Some t ->
  thread_step cfg (s_queue s) (s_done s) t ch = Some (q', t', new, evs) ->
  wf (Sys q' (s_done s) (<[i:=t']> (s_threads s) ++ new) (s_log s) (evs ++ s_trace s)).
Proof.
  intros Hwf Hi Hstep.
  assert (t ∈ s_threads s) as Ht by (apply list_elem_of_lookup; eauto).
  pose proof (thread_step_moves _ _ _ _ _ _ _ _ (wf_locs_ok _ _ Hwf Ht) Hstep) as [Hf Hc Hn Hit Hm].
  apply wf_same_log; [done|apply Hf|..].
  - intros c m Hin. destruct (decide (c = tconv t)) as [->|Hne].
    + destruct (Hit _ Hin); [by apply wf_items|by eapply wf_threads].
    + rewrite (frame_items _ _ _ _ Hf Hne) in Hin. by apply wf_items.
  - intros u m Hu Hin. apply elem_of_app in Hu as [Hu|Hu].
    + apply list_elem_of_lookup in Hu as [j Hj].
      destruct (decide (i = j)) as [->|Hne].
      * rewrite list_lookup_insert_eq in Hj by (by eapply lookup_lt_Some). simplify_eq.
        rewrite Hc. destruct (Hm _ Hin); [by apply wf_items|by eapply wf_threads].
      * rewrite list_lookup_insert_ne in Hj by done.
        eapply wf_threads; [done| |done]. apply list_elem_of_lookup. eauto.
    + rewrite (Hn _ Hu) in Hin. by apply new_drain_msgs in Hin.
Qed.

Lemma wf_threads_app s ts m' c t m :
  wf s -> (forall u x, u ∈ ts -> x ∈ tmsgs u -> tconv u = c /\ x = m') ->
  s_log s !! m_lifecycle m' = Some (c, m') ->
  t ∈ s_threads s ++ ts -> m ∈ tmsgs t -> s_log s !! m_lifecycle m = Some (tconv t, m).
Proof.
  intros Hwf Hts Hm' [Ht|Ht]%elem_of_app Hm; [by eapply wf_threads|].
  by destruct (Hts _ _ Ht Hm) as [-> ->].
Qed.

Lemma wf_call s q' c acts pc m :
  wf s -> frame c (s_queue s) q' ->
  (forall x, x ∈ items q' c -> x ∈ items (s_queue s) c) ->
  m ∈ items (s_queue s) c ->
  (forall x, x ∈ tmsgs (TCall c acts pc) -> x = m) ->
  wf (Sys q' (s_done s) (s_threads s ++ [TCall c acts pc]) (s_log s) (s_trace s)).
Proof.
  intros Hwf Hf Hi Hm Hx. apply wf_same_log; [done|apply Hf| |].
  - intros c' y Hy. apply wf_items; [done|]. destruct (decide (c' = c)) as [->|Hne]; [auto|].
    by rewrite <- (frame_items _ _ _ _ Hf Hne).
  - intros t y. eapply wf_threads_app; [done| |by apply wf_items].
    intros u z ->%list_elem_of_singleton Hz. split; [done|auto].
Qed.

Lemma wf_enqueue q done ts log tr c a now q' m spawn :
  wf (Sys q done ts log tr) -> EnqueueIdentified cfg c a now q = (q', Some (m, spawn)) ->
  wf (Sys q' done (ts ++ TCall c [] (EAccept m) :: opt_drain c spawn) (log ++ [(c, m)]) tr).
Proof.
  intros Hwf H. apply Enqueue_spec in H as (Hne & _ & _ & _ & Hi & _ & _ & Hl & Hh & _).
  pose proof (wf_len _ Hwf) as Hlen. simpl in Hlen.
  assert (forall l x, log !! l = Some x -> (log ++ [(c, m)]) !! l = Some x) as Hkeep
    by (intros; by apply lookup_app_l_Some).
  assert ((log ++ [(c, m)]) !! m_lifecycle m = Some (c, m)) as Hm
    by (rewrite Hl, <- Hlen; by apply list_lookup_middle).
  split; simpl.
  - rewrite Hh, !length_app, Hlen. done.
  - intros l c' x. rewrite lookup_snoc. case_decide; [intros [= <- <-]; congruence|].
    apply (wf_log _ Hwf).
  - intros c' x Hx. destruct (decide (c' = c)) as [->|Hn].
    + rewrite Hi, elem_of_app in Hx. destruct Hx as [Hx| ->%list_elem_of_singleton]; [|done].
      by apply Hkeep, (wf_items _ Hwf).
    + apply Hkeep, (wf_items _ Hwf). unfold items in *. by rewrite <- Hne.
  - intros t x [Ht|[->|Ht]%elem_of_cons]%elem_of_app Hx.
    + apply Hkeep. by eapply (wf_threads _ Hwf).
    + by apply list_elem_of_singleton in Hx as ->.
    + by destruct (opt_drain_msgs _ _ _ _ Ht Hx).
Qed.

Lemma wf_step s lb s' : wf s -> step cfg lb s = Some s' -> wf s'.
Proof.
  intros Hwf Hstep. destruct s as [q done ts log tr]. destruct lb as [c a now|c id n|c id n|c id n| | | |i ch]; simpl in Hstep.
  - destruct (EnqueueIdentified cfg c a now q) as [q' [[m spawn]|]] eqn:E; simplify_eq.
    + by eapply wf_enqueue.
    + apply Enqueue_None in E as (Hc & Hh & _).
      apply (wf_same_log q' done ts _ _ Hwf); [by rewrite Hh| |apply (wf_threads _ Hwf)].
      intros c' m. unfold items. rewrite Hc. apply (wf_items _ Hwf).
  - destruct (remove c id n q) as [q' [[[m cancel] obs]|]] eqn:E; simplify_eq.
    + apply remove_spec in E as (idx & Hidx & _ & _ & Hf & Hi & _); [|intros; by eapply (wf_items_loc _ _ _ Hwf)].
      apply (wf_call _ q' c _ _ m Hwf); [done|..].
      * rewrite Hi. intros x. apply elem_of_remove_at.
      * apply list_elem_of_lookup; eauto.
      * intros x Hx. destruct cancel; msgs.
    + apply remove_None in E as ->. apply (wf_same_log q done ts _ _ Hwf); [done|apply (wf_items _ Hwf)|apply (wf_threads _ Hwf)].
  - destruct (sendNowItem cfg c id n q) as [q' [[m cancel]|]] eqn:E; simplify_eq.
    + apply sendNowItem_spec in E as (_ & _ & idx & Hidx & _ & _ & Hf & Hi & _).
      apply (wf_call _ q' c _ _ m Hwf); [done|..].
      * rewrite Hi. intros x. apply elem_of_remove_at.
      * apply list_elem_of_lookup; eauto.
      * intros x Hx. destruct cancel; msgs.
    + apply sendNowItem_None in E as ->. apply (wf_same_log q done ts _ _ Hwf); [done|apply (wf_items _ Hwf)|apply (wf_threads _ Hwf)].
  - simplify_eq. destruct (Bind_spec c id n q) as (Hc & Hh & _).
    apply (wf_same_log _ done ts _ _ Hwf); [done| |apply (wf_threads _ Hwf)].
    intros c' m. unfold items. rewrite Hc. apply (wf_items _ Hwf).
  - case_match; [done|]. destruct (run_start q) as [q' sp] eqn:E. simplify_eq.
    apply run_start_spec in E as (Hh & _ & _ & _ & Hc).
    apply (wf_same_log _ done _ _ _ Hwf); [by rewrite Hh| |].
    + intros c m. rewrite (proj1 (Hc c)). apply (wf_items _ Hwf).
    + intros t m [Ht|(c & -> & _)%list_elem_of_fmap]%elem_of_app Hm; [by eapply (wf_threads _ Hwf)|].
      by apply new_drain_msgs in Hm.
  - case_match; [|done]. simplify_eq.
    apply (wf_same_log _ _ ts _ _ Hwf); [done|apply (wf_items _ Hwf)|apply (wf_threads _ Hwf)].
  - case_match; [|done]. simplify_eq.
    apply (wf_same_log _ _ ts _ _ Hwf); [done|apply (wf_items _ Hwf)|apply (wf_threads _ Hwf)].
  - destruct (ts !! i) as [t|] eqn:Hi; [|done].
    destruct (thread_step cfg q done t ch) as [[[[q' t'] new] evs]|] eqn:E; simplify_eq.
    by apply (wf_thread_step (Sys q done ts log tr) i ch t q' t' new evs).
Qed.

Lemma reachable_wf ok s : reachable cfg ok s -> wf s.
Proof. induction 1; [apply wf_init|by eapply wf_step]. Qed.

(** ** Ownership of terminal notifications *)

Definition owes (l : nat) (a : action) : nat :=
  match a with ATerminal m => if decide (l = m_lifecycle m) then 1 else 0 | _ => 0 end.
Definition wP (l : nat) (t : thread) : nat := sum_list_with (owes l) (acts_of t).
Definition wA (l : nat) (t : thread) : nat :=
  match t with
  | TCall _ _ (EAccept m) =>
      if has_onAccepted cfg then if decide (l = m_lifecycle m) then 1 else 0 else 0
  | TCall _ _ (EAcceptLocked m) => if decide (l = m_lifecycle m) then 1 else 0
  | _ => 0
  end.
Definition terminal_ev (l : nat) (e : event) : nat :=
  match e with EvTerminal _ l' _ _ => if decide (l = l') then 1 else 0 | _ => 0 end.
Definition fired (l : nat) (evs : list event) : nat := sum_list_with (terminal_ev l) evs.

Lemma wP_opt l b m : sum_list_with (owes l) (opt_terminal b m) = if decide (l = m_lifecycle m) then Nat.b2n b else 0%nat.
Proof. destruct b; simpl; case_decide; done. Qed.

Lemma wP_new l c b : sum_list_with (wP l) (opt_drain c b) = 0%nat.
Proof. by destruct b. Qed.

Lemma wA_pos_msg l t : (0 < wA l t)%nat -> exists m, m ∈ pc_msgs t /\ m_lifecycle m = l.
Proof.
  destruct t as [|c acts []]; simpl; try lia; repeat case_match; try lia; intros _;
    subst; exists m; split; try done; by apply list_elem_of_singleton.
Qed.

Hypothesis Hterm : has_onTerminal cfg = true.

Record notif (l : nat) (t : thread) (q : Queue) (t' : thread) (q' : Queue) (new : list thread) (evs : list event) : Prop := {
  no_owed : (wP l t' + sum_list_with (wP l) new + fired l evs + target q l = wP l t + target q' l)%nat;
  no_acc : (wA l t' + sum_list_with (wA l) new + Nat.b2n (accepted q' l) = wA l t + Nat.b2n (accepted q l))%nat;
}.

Ltac opt_cases := repeat first [rewrite wP_opt | rewrite wP_new | rewrite sum_list_with_app]; simpl.

(** Firing an owed notification pays it, and nothing else. *)
Lemma fire_owes l c q a :
  (forall m, m ∈ action_msgs a -> m_lifecycle m < length (q_heap q))%nat ->
  (forall m, m ∈ action_msgs a -> outcome q (m_lifecycle m) <> None) ->
  fired l (fire cfg c q a) = owes l a.
Proof.
  intros Hl Ho. destruct a as [att|m| |el er]; simpl; try done; try (by case_match).
  rewrite lifecycle_outcome by (apply Hl; by left).
  specialize (Ho m ltac:(by left)).
  destruct (outcome q (m_lifecycle m)) as [o|]; [|done]. rewrite Hterm.
  unfold fired. destruct (decide (o = _)), (has_onDelivered cfg); simpl; by case_decide.
Qed.

Lemma notif_fire l q a t t' :
  locs_ok q t -> acts_of t = a :: acts_of t' -> wA l t' = wA l t ->
  (forall m, m ∈ action_msgs a -> outcome q (m_lifecycle m) <> None) ->
  notif l t q t' q [] (fire cfg (tconv t) q a).
Proof.
  intros Hloc Ha HwA Hout. split; [|simpl; rewrite HwA; lia].
  rewrite fire_owes; [unfold wP; rewrite Ha; simpl; lia| |done].
  intros m Hm. apply Hloc. unfold tmsgs. rewrite Ha. csimpl. rewrite !elem_of_app. auto.
Qed.

Lemma drain_step_notif l c f st pc q done ch q' t' evs :
  locs_ok q (TDrain c f st [] pc) ->
  drain_step cfg c f st pc q done ch = Some (q', t', evs) ->
  notif l (TDrain c f st [] pc) q t' q' [] evs.
Proof.
  intros Hloc H.
  assert (forall m, m ∈ pc_msgs (TDrain c f st [] pc) -> (m_lifecycle m < length (q_heap q))%nat) as Hl
    by (intros; by eapply locs_ok_pc).
  unfold drain_step in H.
  destruct pc; simplify_eq/=; repeat (case_match; try discriminate H); simplify_eq/=.
  all: try (split; unfold wP; simpl; lia).
  all: match goal with
  | E : drain_peek _ _ = (_, Some _) |- _ =>
      apply drain_peek_Some in E as (_ & Hq & _)
  | E : drain_peek _ _ = (_, None) |- _ =>
      apply drain_peek_None in E as (_ & Hh & _)
  | E : commitGate _ _ _ = _ |- _ =>
      apply commitGate_spec in E as (_ & Hh & _)
  | E : drain_settle _ _ _ _ _ = _ |- _ =>
      apply drain_settle_spec in E as (_&_&_&_&Hfl&Ht&_); [|apply Hl, list_elem_of_singleton; done];
      specialize (Ht l); specialize (Hfl l) as [Hfl _]
  | E : giveUp _ _ _ = _ |- _ =>
      apply giveUp_spec in E as (_&Hfl&_&_&Ht&_); [|apply Hl, list_elem_of_singleton; done];
      specialize (Ht l); specialize (Hfl l) as [Hfl _]
  | |- _ => pose proof (drain_exit_spec c q) as (_ & Hq & _)
  end.
  all: try (assert (accepted q' l = accepted q l /\ target q' l = target q l) as [Hfl Ht]
    by (unfold target, accepted, resolved, outcome; by rewrite Hh)).
  all: try (pose proof (quiet_target _ _ l Hq) as Ht; destruct (Hq l) as (Hfl & _ & _)).
  all: split; [unfold wP; simpl; opt_cases; rewrite ?Ht; simpl; repeat case_match; simpl in *; lia
              |simpl; rewrite ?Hfl; lia].
Qed.

Lemma call_step_notif l c pc q ch q' t' new evs :
  locs_ok q (TCall c [] pc) ->
  (wA l (TCall c [] pc) + Nat.b2n (accepted q l) <= 1)%nat ->
  call_step cfg c pc q ch = Some (q', t', new, evs) ->
  notif l (TCall c [] pc) q t' q' new evs.
Proof.
  intros Hloc Hacc H.
  assert (forall m, m ∈ pc_msgs (TCall c [] pc) -> (m_lifecycle m < length (q_heap q))%nat) as Hl
    by (intros; by eapply locs_ok_pc).
  unfold call_step in H.
  destruct pc; simplify_eq/=; repeat (case_match; try discriminate H); simplify_eq/=.
  all: try (split; unfold wP; simpl; repeat case_match; simpl in *; first [lia|congruence]).
  all: match goal with
  | E : accept _ ?m _ = _ |- _ =>
      apply accept_spec in E as (_&_&_&_&_&Hoc&Hne&Hac&->); [|by apply Hl, list_elem_of_singleton];
      assert (forall x, resolved q' x = resolved q x) as Hr by (intros x; unfold resolved; by rewrite (proj1 (Hoc x)))
  | E : resolveLocked _ _ _ _ = _ |- _ =>
      apply resolve_spec in E as (Hac & _ & _ & _ & Ht); [|by apply Hl, list_elem_of_singleton]
  | E : reinsert ?c0 ?m ?q = _ |- _ =>
      assert (q_heap q' = q_heap q) as Hh
        by (destruct (q_convs q !! c0) eqn:Hx;
            [by apply reinsert_spec in E as (_ & ? & _); [|eauto]
            |rewrite reinsert_absent in E by done; congruence]);
      assert (accepted q' l = accepted q l /\ target q' l = target q l) as [Hac Ht]
        by (unfold target, accepted, resolved, outcome; by rewrite Hh)
  end.
  - split; unfold wP; simpl; opt_cases; unfold target; rewrite ?Hr;
      destruct (decide (_ = _)); try done; rewrite ?Hac; simpl;
      destruct (accepted q (m_lifecycle m)), (resolved q (m_lifecycle m)); simpl in *; lia.
  - split; unfold wP; simpl; opt_cases; unfold target; rewrite ?Hr;
      destruct (decide (l = m_lifecycle m)); try done; rewrite ?Hne by done; lia.
  - split; unfold wP; simpl; opt_cases; rewrite ?Ht, ?Hac; repeat case_match; lia.
  - split; unfold wP; simpl; opt_cases; rewrite ?Ht, ?Hac; destruct b; simpl; lia.
Qed.

Lemma thread_step_notif l q done t ch q' t' new evs :
  locs_ok q t ->
  (forall m, ATerminal m ∈ acts_of t -> outcome q (m_lifecycle m) <> None) ->
  (wA l t + Nat.b2n (accepted q l) <= 1)%nat ->
  thread_step cfg q done t ch = Some (q', t', new, evs) ->
  notif l t q t' q' new evs.
Proof.
  intros Hloc Hout Hacc H. unfold thread_step in H.
  destruct t as [c f st [|a acts] pc|c [|a acts] pc]; simpl.
  - destruct (drain_step _ _ _ _ _ _ _ _) as [[[q1 t1] ev1]|] eqn:E; [|done].
    simplify_eq. by eapply drain_step_notif.
  - case_match; [|done]. simplify_eq.
    apply (notif_fire l q' a (TDrain c f st (a :: acts) pc)); try done.
    intros m Hm. apply Hout. destruct a; try by apply not_elem_of_nil in Hm.
    apply list_elem_of_singleton in Hm as ->. by left.
  - by eapply call_step_notif.
  - case_match; [|done]. simplify_eq.
    apply (notif_fire l q' a (TCall c (a :: acts) pc)); try done.
    intros m Hm. apply Hout. destruct a; try by apply not_elem_of_nil in Hm.
    apply list_elem_of_singleton in Hm as ->. by left.
Qed.

(** Each message's notifications owed and fired sum to what its lifecycle says
    is due; exactly one of "being accepted" and "accepted" holds. *)
Record owners (s : sys) : Prop := {
  ow_due : forall l, (sum_list_with (wP l) (s_threads s) + fired l (s_trace s)
                      = target (s_queue s) l)%nat;
  ow_acc : forall l, (l < length (s_log s))%nat ->
    (sum_list_with (wA l) (s_threads s) + Nat.b2n (accepted (s_queue s) l) = 1)%nat;
}.

Lemma wP_ATerminal t m : ATerminal m ∈ acts_of t -> (1 <= wP (m_lifecycle m) t)%nat.
Proof.
  intros H. unfold wP. pose proof (sum_list_with_in _ (owes (m_lifecycle m)) _ H) as Hs.
  simpl in Hs. by case_decide.
Qed.

Lemma owners_outcome s t m :
  owners s -> t ∈ s_threads s -> ATerminal m ∈ acts_of t ->
  outcome (s_queue s) (m_lifecycle m) <> None.
Proof.
  intros H Ht Hm Hn. pose proof (wP_ATerminal _ _ Hm) as H1.
  pose proof (sum_list_with_in _ (wP (m_lifecycle m)) _ Ht) as H2.
  pose proof (ow_due _ H (m_lifecycle m)) as H3. unfold target, resolved in H3.
  rewrite Hn in H3. rewrite andb_comm in H3. simpl in H3. lia.
Qed.

Lemma owners_acc_le s t l :
  wf s -> owners s -> t ∈ s_threads s -> (wA l t + Nat.b2n (accepted (s_queue s) l) <= 1)%nat.
Proof.
  intros Hwf H Ht. pose proof (sum_list_with_in _ (wA l) _ Ht) as H1.
  destruct (decide (l < length (s_log s))%nat) as [Hl|Hl]; [pose proof (ow_acc _ H l Hl); lia|].
  assert (wA l t = 0)%nat as ->; [|destruct (accepted _ _); simpl; lia].
  destruct (wA l t) eqn:E; [done|]. destruct (wA_pos_msg l t ltac:(lia)) as (m & Hm & <-).
  exfalso. apply Hl. rewrite (wf_len _ Hwf). by eapply locs_ok_pc; [eapply wf_locs_ok|].
Qed.

Lemma wA_fresh s l : wf s -> (length (s_log s) <= l)%nat -> sum_list_with (wA l) (s_threads s) = 0%nat.
Proof.
  intros Hwf Hl. apply sum_list_zero. intros t Ht.
  destruct (wA l t) eqn:E; [done|]. destruct (wA_pos_msg l t ltac:(lia)) as (m & Hm & <-).
  pose proof (locs_ok_pc _ _ _ (wf_locs_ok _ _ Hwf Ht) Hm) as Hlt.
  rewrite <- (wf_len _ Hwf) in Hlt. lia.
Qed.

(** Steps outside the threads: the new threads start no acceptance and owe
    exactly what the locked section made due. *)
Lemma owners_extend s q' done' ts' tr' new :
  wf s -> owners s ->
  (forall l, accepted q' l = accepted (s_queue s) l) ->
  (forall l, target q' l = target (s_queue s) l + sum_list_with (wP l) new)%nat ->
  (forall l, fired l tr' = fired l (s_trace s)) ->
  (forall l, sum_list_with (wA l) new = 0%nat) ->
  ts' = s_threads s ++ new ->
  owners (Sys q' done' ts' (s_log s) tr').
Proof.
  intros Hwf [Hd Ha] Hacc Ht Hf HA ->. split; simpl.
  - intros l. rewrite sum_list_with_app, Hf, Ht, <- Hd. lia.
  - intros l Hl. rewrite sum_list_with_app, HA, Hacc, Nat.add_0_r. by apply Ha.
Qed.

Lemma owners_thread_step s i ch t q' t' new evs :
  wf s -> owners s -> s_threads s !! i = Some t ->
  thread_step cfg (s_queue s) (s_done s) t ch = Some (q', t', new, evs) ->
  owners (Sys q' (s_done s) (<[i:=t']> (s_threads s) ++ new) (s_log s) (evs ++ s_trace s)).
Proof.
  intros Hwf Hown Hi Hstep.
  assert (t ∈ s_threads s) as Ht by (apply list_elem_of_lookup; eauto).
  assert (forall l, notif l t (s_queue s) t' q' new evs) as Hn.
  { intros l. eapply thread_step_notif; [by eapply wf_locs_ok| | |done].
    - intros m Hm. by eapply owners_outcome.
    - by apply owners_acc_le. }
  split; simpl; intros l.
  - pose proof (ow_due _ Hown l). pose proof (no_owed _ _ _ _ _ _ _ (Hn l)).
    pose proof (sum_list_insert (wP l) _ _ _ t' Hi).
    unfold fired in *. rewrite !sum_list_with_app. lia.
  - intros Hl. pose proof (ow_acc _ Hown l Hl). pose proof (no_acc _ _ _ _ _ _ _ (Hn l)).
    pose proof (sum_list_insert (wA l) _ _ _ t' Hi). rewrite sum_list_with_app. lia.
Qed.

Lemma accepted_snoc q q' x l :
  q_heap q' = q_heap q ++ [x] ->
  accepted q' l = (if decide (l = length (q_heap q)) then lc_accepted x else accepted q l)
  /\ outcome q' l = (if decide (l = length (q_heap q)) then lc_outcome x else outcome q l)
  /\ removed q' l = (if decide (l = length (q_heap q)) then lc_removed x else removed q l).
Proof.
  intros H. unfold accepted, outcome, removed. rewrite H, lookup_snoc. by case_decide.
Qed.

Lemma flags_fresh q l :
  (length (q_heap q) <= l)%nat ->
  accepted q l = false /\ outcome q l = None /\ removed q l = false.
Proof. intros Hl. unfold accepted, outcome, removed. by rewrite lookup_ge_None_2. Qed.

Lemma owners_enqueue q done ts log tr c a now q' m spawn :
  wf (Sys q done ts log tr) -> owners (Sys q done ts log tr) ->
  EnqueueIdentified cfg c a now q = (q', Some (m, spawn)) ->
  owners (Sys q' done (ts ++ TCall c [] (EAccept m) :: opt_drain c spawn) (log ++ [(c, m)]) tr).
Proof.
  intros Hwf Hown H. apply Enqueue_spec in H as (_ & _ & _ & _ & _ & _ & _ & Hl & Hh & _).
  pose proof (wf_len _ Hwf) as Hlen. simpl in Hlen.
  assert (forall l, sum_list_with (wA l) (opt_drain c spawn) = 0%nat) as Hdr by (by destruct spawn).
  split; simpl; intros l.
  - rewrite sum_list_with_app. simpl. rewrite wP_new. pose proof (ow_due _ Hown l) as Hd. simpl in Hd.
    assert (target q' l = target q l) as ->; [|change (wP l (TCall c [] (EAccept m))) with 0%nat; lia].
    unfold target, resolved. destruct (accepted_snoc q q' _ l Hh) as (-> & -> & _).
    case_decide; [|done]. subst l. simpl.
    destruct (flags_fresh q (length (q_heap q)) ltac:(lia)) as (-> & -> & _).
    by rewrite andb_comm.
  - rewrite sum_list_with_app. simpl. rewrite Hdr. intros Hll. rewrite length_app in Hll. simpl in Hll.
    destruct (accepted_snoc q q' _ l Hh) as (-> & _). rewrite Hl, <- Hlen. case_decide.
    + subst l. rewrite (wA_fresh _ _ Hwf) by done. simpl. by destruct (has_onAccepted cfg).
    + pose proof (ow_acc _ Hown l). simpl in *. destruct (has_onAccepted cfg); lia.
Qed.

Lemma owners_init : owners (init empty_queue).
Proof. split; simpl; [by intros l|]. intros l. lia. Qed.

Lemma wP_call l c cancel obs m pc :
  wP l (TCall c (match cancel with Some att => [ACancel att] | None => [] end
                 ++ opt_terminal obs m ++ [AChange]) pc)
  = if decide (l = m_lifecycle m) then Nat.b2n obs else 0%nat.
Proof.
  unfold wP. simpl. rewrite !sum_list_with_app, wP_opt. destruct cancel; simpl; lia.
Qed.

Ltac same_state := try done; try (by rewrite app_nil_r);
  try (intros l; simpl; unfold target, resolved, accepted, outcome, run_close; simpl; lia).

Lemma owners_step s lb s' : wf s -> owners s -> step cfg lb s = Some s' -> owners s'.
Proof.
  intros Hwf Hown Hstep. destruct s as [q done ts log tr].
  destruct lb as [c a now|c id n|c id n|c id n| | | |i ch]; simpl in Hstep.
  - destruct (EnqueueIdentified cfg c a now q) as [q' [[m spawn]|]] eqn:E; simplify_eq.
    + by eapply owners_enqueue.
    + apply Enqueue_None in E as (_ & Hh & _).
      apply (owners_extend _ q' done ts _ [] Hwf Hown); try (by rewrite app_nil_r); try done;
        intros l; unfold target, resolved, accepted, outcome; rewrite Hh; simpl; try done; lia.
  - destruct (remove c id n q) as [q' [[[m cancel] obs]|]] eqn:E; simplify_eq.
    + apply remove_spec in E as (idx & _&_&_&_&_&_&_&_&Hac&_&_&_&Ht);
        [|intros; by eapply (wf_items_loc _ _ _ Hwf)].
      eapply (owners_extend _ q' done _ tr _ Hwf Hown); [done| |done| |done]; intros l; simpl;
        [by rewrite wP_call, Ht, Nat.add_0_r|done].
    + apply remove_None in E as ->.
      apply (owners_extend _ q done ts _ [] Hwf Hown); same_state.
  - destruct (sendNowItem cfg c id n q) as [q' [[m cancel]|]] eqn:E; simplify_eq.
    + apply sendNowItem_spec in E as (_&_&idx&_&_&_&_&_&Hh&_).
      eapply (owners_extend _ q' done _ tr _ Hwf Hown); [| |done| |done]; intros l; simpl;
        unfold target, resolved, accepted, outcome; rewrite ?Hh; try done.
      unfold wP. simpl. destruct cancel; simpl; lia.
    + apply sendNowItem_None in E as ->.
      apply (owners_extend _ q done ts _ [] Hwf Hown); same_state.
  - simplify_eq. destruct (Bind_spec c id n q) as (_ & _ & Hq & _).
    apply (owners_extend _ _ done ts _ [] Hwf Hown); try (by rewrite app_nil_r); try done; intros l; simpl.
    + apply Hq.
    + by rewrite (quiet_target _ _ l Hq), Nat.add_0_r.
  - case_match; [done|]. destruct (run_start q) as [q' sp] eqn:E. simplify_eq.
    apply run_start_spec in E as (Hh & _).
    assert (forall (w : thread -> nat), (forall c, w (new_drain c) = 0%nat) ->
              sum_list_with w (new_drain <$> sp) = 0%nat) as Hz.
    { intros w Hw. apply sum_list_zero. intros u (c & -> & _)%list_elem_of_fmap. apply Hw. }
    eapply (owners_extend _ q' done _ tr _ Hwf Hown); [| |done| |done]; intros l; simpl;
      unfold target, resolved, accepted, outcome; rewrite ?Hh; try done.
    + rewrite Hz by done. lia.
    + by apply Hz.
  - case_match; [|done]. simplify_eq.
    apply (owners_extend _ _ true ts _ [] Hwf Hown); same_state.
  - case_match; [|done]. simplify_eq.
    apply (owners_extend _ _ done ts _ [] Hwf Hown); same_state.
  - destruct (ts !! i) as [t|] eqn:Hi; [|done].
    destruct (thread_step cfg q done t ch) as [[[[q' t'] new] evs]|] eqn:E; simplify_eq.
    by apply (owners_thread_step (Sys q done ts log tr) i ch t q' t' new evs).
Qed.

Lemma reachable_owners ok s : reachable cfg ok s -> owners s.
Proof.
  induction 1 as [|s lb s' Hr IH _ Hs]; [apply owners_init|].
  eapply owners_step; [by eapply reachable_wf|done|done].
Qed.

End safety.
End MsgQueueSafety.
