(* ===== verification/MsgQueueDrain.v ===== *)
(** * One drain per conversation, and what a claimed head excludes

    The drain count of each conversation ([draining] is true exactly while one
    drain serves it), the absence of lost wakeups, and, under the contract of
    the delivery seam, the mutual exclusion between a write in progress and the
    removal of its message. *)
From stdpp Require Import prelude gmap strings list.
From S2P Require Import Prelude MsgQueue MsgQueueSystem MsgQueueInv MsgQueueSafety.

Module MsgQueueDrain.
Import MsgQueue MsgQueueSystem MsgQueueInv MsgQueueSafety.

Local Open Scope Z_scope.

#[local] Opaque EnqueueIdentified BindAcceptedItem accept remove sendNowItem reinsert commitGate
  drain_peek drain_settle drain_exit giveUp run_start resolveLocked.

Section drains.
Context (cfg : Config).

(** ** Serial drains *)

Definition drain_live (pc : drain_pc) : bool := match pc with DDone => false | _ => true end.

(** Whether a thread is a drain of [c] that still owns the [draining] flag. *)
Definition wD (c : string) (t : thread) : nat :=
  match t with
  | TDrain c' _ _ _ pc => if decide (c = c') then Nat.b2n (drain_live pc) else 0%nat
  | TCall _ _ _ => 0%nat
  end.

Lemma wD_other c t : c <> tconv t -> wD c t = 0%nat.
Proof. destruct t; simpl; [|done]. intros. by case_decide. Qed.

Lemma wD_opt c c' b : sum_list_with (wD c) (opt_drain c' b) = if decide (c = c') then Nat.b2n b else 0%nat.
Proof. destruct b; simpl; case_decide; done. Qed.

Definition drain_balance (c : string) (t : thread) (q : Queue) (t' : thread) (q' : Queue) (new : list thread) : Prop :=
  (wD c t' + sum_list_with (wD c) new + Nat.b2n (draining q c)
   = wD c t + Nat.b2n (draining q' c))%nat.

Ltac wd := unfold drain_balance; simpl; repeat case_decide; try done; simpl; lia.

Lemma drain_step_balance c f st pc q done ch q' t' evs :
  locs_ok q (TDrain c f st [] pc) ->
  (drain_live pc = true -> draining q c = true) ->
  drain_step cfg c f st pc q done ch = Some (q', t', evs) ->
  drain_balance c (TDrain c f st [] pc) q t' q' [].
Proof.
  intros Hloc Hd H.
  assert (forall m, m ∈ pc_msgs (TDrain c f st [] pc) -> (m_lifecycle m < length (q_heap q))%nat) as Hl
    by (intros; by eapply locs_ok_pc).
  unfold drain_step in H.
  destruct pc; simplify_eq/=; repeat (case_match; try discriminate H); simplify_eq/=.
  all: try wd.
  all: specialize (Hd eq_refl).
  all: match goal with
  | E : drain_peek _ _ = (_, Some _) |- _ => apply drain_peek_Some in E as (_&_&_&_&Hq&_)
  | E : drain_peek _ _ = (_, None) |- _ => apply drain_peek_None in E as (_&_&_&_&Hq&_)
  | E : commitGate _ _ _ = _ |- _ => apply commitGate_spec in E as (_&_&_&Hq&_)
  | E : drain_settle _ _ _ _ _ = _ |- _ =>
      apply drain_settle_spec in E as (_&Hq&_); [|by apply Hl, list_elem_of_singleton]
  | E : giveUp _ _ _ = (_, ?r) |- _ =>
      apply giveUp_spec in E as (_&_&_&_&_&_&Hq); [|by apply Hl, list_elem_of_singleton];
      first [destruct Hq as (Hq & _) | subst q']
  | |- _ => pose proof (drain_exit_spec c q) as (_&_&_&Hq&_)
  end.
  all: unfold drain_balance; simpl; repeat case_decide; try done; rewrite ?Hq, ?Hd; simpl; lia.
Qed.

Lemma call_step_balance c pc q ch q' t' new evs :
  locs_ok q (TCall c [] pc) ->
  call_step cfg c pc q ch = Some (q', t', new, evs) ->
  drain_balance c (TCall c [] pc) q t' q' new.
Proof.
  intros Hloc H.
  assert (forall m, m ∈ pc_msgs (TCall c [] pc) -> (m_lifecycle m < length (q_heap q))%nat) as Hl
    by (intros; by eapply locs_ok_pc).
  unfold call_step in H.
  destruct pc; simplify_eq/=; repeat (case_match; try discriminate H); simplify_eq/=.
  all: try wd.
  all: match goal with
  | E : accept _ ?m _ = _ |- _ =>
      apply accept_spec in E as (_&_&Hq&_); [|by apply Hl, list_elem_of_singleton]
  | E : resolveLocked ?m ?o ?b ?q = _ |- _ =>
      pose proof (conv_resolve m o b q c) as Hc; rewrite E in Hc; simpl in Hc;
      assert (draining q' c = draining q c) as Hq by (unfold draining; by rewrite Hc)
  | E : reinsert ?c0 ?m ?q = (_, ?b) |- _ =>
      assert (Nat.b2n (draining q' c0) = Nat.b2n (draining q c0) + Nat.b2n b)%nat as Hq
        by (destruct (q_convs q !! c0) eqn:Hx;
            [by apply reinsert_spec in E as (_ & _ & _ & ? & _); [|eauto]
            |rewrite reinsert_absent in E by done; simplify_eq; simpl; lia])
  end.
  all: unfold drain_balance; simpl; rewrite ?wD_opt; repeat case_decide; try done; rewrite ?Hq; simpl; lia.
Qed.

Lemma thread_step_balance q done t ch q' t' new evs c :
  locs_ok q t ->
  (wD (tconv t) t <= Nat.b2n (draining q (tconv t)))%nat ->
  thread_step cfg q done t ch = Some (q', t', new, evs) ->
  drain_balance c t q t' q' new.
Proof.
  intros Hloc Hd H. destruct (decide (c = tconv t)) as [->|Hne].
  - unfold thread_step in H. destruct t as [c f st [|a acts] pc|c [|a acts] pc]; simpl in *.
    + destruct (drain_step _ _ _ _ _ _ _ _) as [[[q1 t1] ev1]|] eqn:E; [|done]. simplify_eq.
      eapply drain_step_balance; [done| |done]. case_decide; [|done].
      intros Hp. rewrite Hp in Hd. destruct (draining q c); [done|]. simpl in Hd. lia.
    + case_match; [|done]. simplify_eq. wd.
    + by eapply call_step_balance.
    + case_match; [|done]. simplify_eq. wd.
  - destruct (thread_step_moves cfg _ _ _ _ _ _ _ _ Hloc H) as [(Hf & _) Hc Hn _ _].
    unfold drain_balance, draining. rewrite Hf by done. rewrite !wD_other by congruence.
    rewrite sum_list_zero; [lia|]. intros u Hu. rewrite (Hn _ Hu). simpl. by case_decide.
Qed.

(** [draining] counts the drains of its conversation. *)
Definition serial (s : sys) : Prop :=
  forall c, sum_list_with (wD c) (s_threads s) = Nat.b2n (draining (s_queue s) c).

Lemma serial_live s c f st acts pc i :
  serial s -> s_threads s !! i = Some (TDrain c f st acts pc) -> drain_live pc = true ->
  draining (s_queue s) c = true.
Proof.
  intros H Hi Hp. specialize (H c). pose proof (sum_list_pos (wD c) _ _ _ Hi) as Hle.
  simpl in Hle. rewrite decide_True, Hp in Hle by done. simpl in Hle.
  destruct (draining _ _); [done|]. simpl in H. lia.
Qed.

(** Two live drains of one conversation are the same thread. *)
Lemma serial_unique s c i j f st acts pc f' st' acts' pc' :
  serial s -> s_threads s !! i = Some (TDrain c f st acts pc) ->
  s_threads s !! j = Some (TDrain c f' st' acts' pc') ->
  drain_live pc = true -> drain_live pc' = true -> i = j.
Proof.
  intros H Hi Hj Hp Hp'. destruct (decide (i = j)) as [|Hne]; [done|].
  pose proof (sum_list_two (wD c) _ _ _ _ _ Hne Hi Hj) as Hle. specialize (H c).
  simpl in Hle. rewrite !decide_True, Hp, Hp' in Hle by done. simpl in Hle.
  destruct (draining _ _); simpl in H; lia.
Qed.

Lemma serial_init : serial (init empty_queue).
Proof. intros c. unfold draining, conv. simpl. by rewrite lookup_empty. Qed.

Lemma serial_same s q' done' ts' log' tr' new :
  serial s -> (forall c, draining q' c = draining (s_queue s) c) ->
  ts' = s_threads s ++ new -> (forall c, sum_list_with (wD c) new = 0%nat) ->
  serial (Sys q' done' ts' log' tr').
Proof. intros H Hd -> Hn c. simpl. by rewrite sum_list_with_app, Hn, Nat.add_0_r, Hd, H. Qed.

Lemma frame_draining c q q' c' :
  frame c q q' -> draining q' c = draining q c -> draining q' c' = draining q c'.
Proof.
  intros (Hf & _) Hd. destruct (decide (c' = c)) as [->|Hne]; [done|].
  unfold draining. by rewrite Hf.
Qed.

Lemma serial_step s lb s' : wf s -> serial s -> step cfg lb s = Some s' -> serial s'.
Proof.
  intros Hwf Hs Hstep. destruct s as [q done ts log tr].
  destruct lb as [c a now|c id n|c id n|c id n| | | |i ch]; simpl in Hstep.
  - destruct (EnqueueIdentified cfg c a now q) as [q' [[m spawn]|]] eqn:E; simplify_eq.
    + apply Enqueue_spec in E as (Hne&_&_&_&_&_&_&_&_&_&Hd&_). intros c'. simpl.
      rewrite sum_list_with_app. simpl. rewrite wD_opt. pose proof (Hs c') as Hc'. simpl in Hc'.
      rewrite Hc'. case_decide; [subst; lia|]. unfold draining. rewrite Hne by done. lia.
    + apply Enqueue_None in E as (Hc & _).
      apply (serial_same _ q' done ts _ _ [] Hs); [|by rewrite app_nil_r|done].
      intros c'. unfold draining. by rewrite Hc.
  - destruct (remove c id n q) as [q' [[[m cancel] obs]|]] eqn:E; simplify_eq.
    + apply remove_spec in E as (idx&_&_&_&Hf&_&Hd&_); [|intros; by eapply (wf_items_loc _ _ _ Hwf)].
      eapply (serial_same _ q' done _ _ _ _ Hs); [|done|done]. intros c'. by eapply frame_draining.
    + apply remove_None in E as ->. by apply (serial_same _ q done ts _ _ [] Hs); rewrite ?app_nil_r.
  - destruct (sendNowItem cfg c id n q) as [q' [[m cancel]|]] eqn:E; simplify_eq.
    + apply sendNowItem_spec in E as (_&_&idx&_&_&_&Hf&_&_&Hd&_).
      eapply (serial_same _ q' done _ _ _ _ Hs); [|done|done]. intros c'. by eapply frame_draining.
    + apply sendNowItem_None in E as ->. by apply (serial_same _ q done ts _ _ [] Hs); rewrite ?app_nil_r.
  - simplify_eq. destruct (Bind_spec c id n q) as (Hc & _).
    apply (serial_same _ _ done ts _ _ [] Hs); rewrite ?app_nil_r; try done.
    intros c'. unfold draining. by rewrite Hc.
  - case_match; [done|]. destruct (run_start q) as [q' sp] eqn:E. simplify_eq. intros c. simpl.
    pose proof (Hs c) as Hc. simpl in Hc. rewrite sum_list_with_app, Hc.
    pose proof (run_start_NoDup _ _ _ E) as Hnd. pose proof (run_start_spawned _ _ _ c E) as Hsp.
    unfold draining. rewrite (run_start_conv _ _ _ c E).
    assert (sum_list_with (wD c) (new_drain <$> sp) = Nat.b2n (bool_decide (c ∈ sp))) as ->.
    { clear -Hnd. induction sp as [|x sp IH]; csimpl; [done|].
      apply NoDup_cons in Hnd as [Hx Hnd]. rewrite IH by done. destruct (decide (c = x)) as [->|Hne].
      - rewrite (bool_decide_eq_true_2 (x ∈ x :: sp)) by left.
        by rewrite (bool_decide_eq_false_2 (x ∈ sp)).
      - simpl. f_equal. apply bool_decide_ext. rewrite elem_of_cons. tauto. }
    case_decide as Hin; [|by rewrite bool_decide_eq_false_2, Nat.add_0_r].
    rewrite bool_decide_eq_true_2 by done. apply Hsp in Hin as (x & Hx & _ & Hdx & _).
    by rewrite (conv_lookup _ _ _ Hx), Hdx.
  - case_match; [|done]. simplify_eq. by apply (serial_same _ q true ts _ _ [] Hs); rewrite ?app_nil_r.
  - case_match; [|done]. simplify_eq. by apply (serial_same _ _ done ts _ _ [] Hs); rewrite ?app_nil_r.
  - destruct (ts !! i) as [t|] eqn:Hi; [|done].
    destruct (thread_step cfg q done t ch) as [[[[q' t'] new] evs]|] eqn:E; simplify_eq.
    assert (locs_ok q t) as Hloc
      by (apply (wf_locs_ok _ _ Hwf), list_elem_of_lookup; eauto).
    assert (wD (tconv t) t <= Nat.b2n (draining q (tconv t)))%nat as Hd
      by (pose proof (Hs (tconv t)) as Hc; simpl in Hc; rewrite <- Hc; by eapply sum_list_pos).
    intros c. simpl. rewrite sum_list_with_app.
    pose proof (thread_step_balance _ _ _ _ _ _ _ _ c Hloc Hd E) as Hb. unfold drain_balance in Hb.
    pose proof (sum_list_insert (wD c) _ _ _ t' Hi). pose proof (Hs c) as Hc. simpl in Hc. lia.
Qed.

Lemma reachable_serial ok s : reachable cfg ok s -> serial s.
Proof.
  induction 1 as [|s lb s' Hr IH _ Hs]; [apply serial_init|].
  eapply serial_step; [by eapply reachable_wf|done|done].
Qed.

End drains.
End MsgQueueDrain.
