(* ===== verification/MsgQueueCommit.v ===== *)
(** * Commit, conservation and at-most-once delivery

    Under the contract of the delivery seam: a claimed head stays at the front
    until its attempt settles, every accepted message is in exactly one place,
    and no message is written twice or written after its removal. *)
From stdpp Require Import prelude gmap strings list.
From S2P Require Import Prelude MsgQueue MsgQueueSystem MsgQueueInv MsgQueueSafety MsgQueueDrain.

Module MsgQueueCommit.
Import MsgQueue MsgQueueSystem MsgQueueInv MsgQueueSafety MsgQueueDrain.

Local Open Scope Z_scope.

#[local] Opaque EnqueueIdentified BindAcceptedItem accept remove sendNowItem reinsert commitGate
  drain_peek drain_settle drain_exit giveUp run_start resolveLocked.

Section commit.
Context (cfg : Config).

(** ** Ids *)

Definition nextID (q : Queue) (c : string) : Z := cq_nextID (conv q c).

Lemma drain_step_nextID c f st pc q done ch q' t' evs c' :
  locs_ok q (TDrain c f st [] pc) ->
  drain_step cfg c f st pc q done ch = Some (q', t', evs) -> nextID q' c' = nextID q c'.
Proof.
  intros Hloc H.
  assert (forall m, m ∈ pc_msgs (TDrain c f st [] pc) -> (m_lifecycle m < length (q_heap q))%nat) as Hl
    by (intros; by eapply locs_ok_pc).
  pose proof (drain_step_moves cfg _ _ _ _ _ _ _ _ _ _ Hloc H) as [(Hf & _) _ _ _ _].
  destruct (decide (c' = c)) as [->|Hne]; [|unfold nextID; by rewrite Hf].
  unfold drain_step in H. unfold nextID.
  destruct pc; simplify_eq/=; repeat (case_match; try discriminate H); simplify_eq/=; try done.
  all: match goal with
  | E : drain_peek _ _ = (_, Some _) |- _ => by apply drain_peek_Some in E as (_&_&_&_&_&?&_)
  | E : drain_peek _ _ = (_, None) |- _ => by apply drain_peek_None in E as (_&_&_&_&_&?&_)
  | E : commitGate _ _ _ = _ |- _ => by apply commitGate_spec in E as (_&_&_&_&?&_)
  | E : drain_settle _ _ _ _ _ = _ |- _ =>
      apply drain_settle_spec in E as (_&_&_&?&_); [done|by apply Hl, list_elem_of_singleton]
  | E : giveUp _ _ _ = _ |- _ =>
      apply giveUp_spec in E as (_&_&?&_); [done|by apply Hl, list_elem_of_singleton]
  | |- _ => by destruct (drain_exit_spec c q) as (_&_&_&_&?&_)
  end.
Qed.

(** A caller's step keeps ids and committing, and only appends or inserts:
    the head of a committing FIFO stays in front. *)
Lemma call_step_keeps c pc q ch q' t' new evs :
  locs_ok q (TCall c [] pc) ->
  call_step cfg c pc q ch = Some (q', t', new, evs) ->
  (forall c', nextID q' c' = nextID q c') /\ committing q' c = committing q c
  /\ (committing q c = true -> forall h r, items q c = h :: r -> exists r', items q' c = h :: r').
Proof.
  intros Hloc H.
  assert (forall m, m ∈ pc_msgs (TCall c [] pc) -> (m_lifecycle m < length (q_heap q))%nat) as Hl
    by (intros; by eapply locs_ok_pc).
  pose proof (call_step_moves cfg _ _ _ _ _ _ _ _ Hloc H) as [(Hf & _) _ _ _ _].
  assert (nextID q' c = nextID q c -> forall c', nextID q' c' = nextID q c') as Hn
    by (intros Hn c'; destruct (decide (c' = c)) as [->|Hne]; [done|unfold nextID; by rewrite Hf]).
  unfold call_step in H.
  destruct pc; simplify_eq/=; repeat (case_match; try discriminate H); simplify_eq/=.
  all: try (split; [done|split; [done|intros _ h0 r0 ->; by exists r0]]).
  all: lazymatch goal with
  | E : accept _ ?m _ = _ |- _ =>
      apply accept_spec in E as (_&Hi&_&Hid&Hc&_); [|by apply Hl, list_elem_of_singleton];
      split; [by apply Hn|split; [done|rewrite Hi; intros _ h0 r0 ->; by exists r0]]
  | E : resolveLocked ?m ?o ?b ?q = _ |- _ =>
      pose proof (conv_resolve m o b q c) as Hc; rewrite E in Hc; simpl in Hc;
      split; [apply Hn; unfold nextID; by rewrite Hc|];
      unfold committing, items; rewrite Hc; split; [done|intros _ h0 r0 ->; by exists r0]
  | E : reinsert ?c0 ?m ?q = (_, ?b) |- _ =>
      destruct (q_convs q !! c0) eqn:Hx;
        [|rewrite reinsert_absent in E by done; simplify_eq;
          split; [done|split; [done|intros _ h0 r0 ->; by exists r0]]];
      apply reinsert_spec in E as (_&_&Hi&_&Hid&Hc); [|eauto];
      split; [by apply Hn|split; [done|]]; rewrite Hi; intros Hcom h0 r0 Hir;
      unfold reinsert_pos; unfold items in Hir; rewrite Hir; unfold committing in Hcom; rewrite Hcom
  end.
  rewrite (bool_decide_eq_false_2 (h0 :: r0 = [])) by done.
  set (pos := default _ _). destruct pos as [|pos]; simpl; unfold insert_at, items; rewrite Hir; simpl; eauto.
Qed.

(** ** Claimed heads *)

Definition claim_ok (q : Queue) (c : string) (pc : drain_pc) : Prop :=
  match pc with
  | DDeliver h _ (Some true) | DSettle h _ None =>
      committing q c = true /\ exists r, items q c = h :: r
  | _ => True
  end.

(** Messages of one conversation are told apart by their ids. *)
Definition ids_inj (s : sys) : Prop :=
  forall l l' c m m', s_log s !! l = Some (c, m) -> s_log s !! l' = Some (c, m') ->
    m_id m = m_id m' -> m = m'.

Lemma same_message s t m m' :
  wf s -> ids_inj s -> t ∈ s_threads s -> m ∈ tmsgs t -> m' ∈ items (s_queue s) (tconv t) ->
  m_id m' = m_id m -> m' = m.
Proof.
  intros Hwf Hinj Ht Hm Hm' Hid.
  eapply Hinj; [by apply (wf_items _ Hwf)|by eapply (wf_threads _ Hwf)|done].
Qed.

Lemma drain_step_claim c f st pc q done ch q' t' evs :
  locs_ok q (TDrain c f st [] pc) ->
  (forall h m, h ∈ pc_msgs (TDrain c f st [] pc) -> m ∈ items q c -> m_id m = m_id h -> m = h) ->
  (forall h att claim, pc = DDeliver h att claim -> ch = CReturn None -> claim = Some true) ->
  claim_ok q c pc ->
  drain_step cfg c f st pc q done ch = Some (q', t', evs) ->
  exists f' st' acts pc', t' = TDrain c f' st' acts pc' /\ claim_ok q' c pc'.
Proof.
  intros Hloc Huniq Hgate Hok H. unfold drain_step in H.
  destruct pc; simplify_eq/=; repeat (case_match; try discriminate H); simplify_eq/=.
  all: eexists _, _, _, _; split; [done|simpl; try done].
  all: try (destruct err as [e|]; [exact I|]; first [exact Hok | by specialize (Hgate _ _ _ eq_refl eq_refl)]).
  case_match; [|done]. subst.
  match goal with E : commitGate _ _ _ = _ |- _ => apply commitGate_spec in E as (_&_&Hi&_&_&Ht&_) end.
  destruct (Ht eq_refl) as (Hc & m & r & Hm & Hid). split; [done|]. exists r. rewrite Hi, Hm.
  f_equal. apply Huniq; [by apply list_elem_of_singleton|rewrite Hm; by left|done].
Qed.

(** ** The ids invariant *)

(** Fewer acceptances than a [uint64] counts: ids have not wrapped around. *)
Definition small (s : sys) : Prop := Z.of_nat (length (s_log s)) < 2 ^ 64 - 1.

Record ids_wf (s : sys) : Prop := {
  id_range : forall l c m, s_log s !! l = Some (c, m) -> 1 <= m_id m < nextID (s_queue s) c;
  id_mono : forall l l' c m m', (l < l')%nat -> s_log s !! l = Some (c, m) ->
    s_log s !! l' = Some (c, m') -> m_id m < m_id m';
  id_next : forall c, 1 <= nextID (s_queue s) c <= 1 + Z.of_nat (length (s_log s));
}.

Lemma ids_wf_inj s : ids_wf s -> ids_inj s.
Proof.
  intros H l l' c m m' Hl Hl' Hid.
  destruct (Nat.lt_trichotomy l l') as [Hlt|[->|Hlt]].
  - pose proof (id_mono _ H _ _ _ _ _ Hlt Hl Hl'). lia.
  - congruence.
  - pose proof (id_mono _ H _ _ _ _ _ Hlt Hl' Hl). lia.
Qed.

Lemma ids_wf_same s q' done' ts' tr' :
  ids_wf s -> (forall c, nextID q' c = nextID (s_queue s) c) ->
  ids_wf (Sys q' done' ts' (s_log s) tr').
Proof.
  intros H Hn. split; simpl; intros.
  - rewrite Hn. by eapply id_range.
  - by eapply (id_mono _ H l l').
  - rewrite Hn. by apply id_next.
Qed.

Lemma frame_nextID c q q' :
  frame c q q' -> nextID q' c = nextID q c -> forall c', nextID q' c' = nextID q c'.
Proof.
  intros (Hf & _) Hn c'. destruct (decide (c' = c)) as [->|Hne]; [done|].
  unfold nextID. by rewrite Hf.
Qed.

Lemma ids_wf_enqueue q done ts log tr c a now q' m spawn ts' :
  ids_wf (Sys q done ts log tr) -> small (Sys q' done ts' (log ++ [(c, m)]) tr) ->
  EnqueueIdentified cfg c a now q = (q', Some (m, spawn)) ->
  ids_wf (Sys q' done ts' (log ++ [(c, m)]) tr).
Proof.
  intros [Hr Hm Hn] Hs H. simpl in *. unfold small in Hs. simpl in Hs. rewrite length_app in Hs. simpl in Hs.
  apply Enqueue_spec in H as (Hne & _ & _ & _ & _ & Hid & Hnx & _).
  assert (nextID q' c = nextID q c + 1) as Hnc.
  { unfold nextID. rewrite Hnx. apply u64_small. specialize (Hn c). unfold nextID in Hn. lia. }
  assert (forall c', nextID q c' <= nextID q' c') as Hle.
  { intros c'. destruct (decide (c' = c)) as [->|?]; [lia|]. unfold nextID. by rewrite Hne. }
  assert (m_id m = nextID q c) as Hid' by done.
  split; simpl.
  - intros l c' x. rewrite lookup_snoc. case_decide as Hl; [intros [= <- <-]; specialize (Hn c); lia|].
    intros Hx. pose proof (Hr _ _ _ Hx). specialize (Hle c'). lia.
  - intros l l' c' x y Hlt. rewrite !lookup_snoc.
    destruct (decide (l = _)) as [->|Hl]; destruct (decide (l' = _)) as [->|Hl']; [lia| | |].
    + intros _ Hy%lookup_lt_Some. lia.
    + intros Hx [= <- <-]. specialize (Hr _ _ _ Hx). lia.
    + by apply Hm.
  - intros c'. rewrite length_app. simpl. specialize (Hn c').
    destruct (decide (c' = c)) as [->|?]; [lia|]. unfold nextID in *. rewrite Hne by done. lia.
Qed.

Lemma thread_step_nextID q done t ch q' t' new evs c :
  locs_ok q t -> thread_step cfg q done t ch = Some (q', t', new, evs) -> nextID q' c = nextID q c.
Proof.
  intros Hloc H. unfold thread_step in H.
  destruct t as [c0 f st [|a acts] pc|c0 [|a acts] pc]; simpl.
  - destruct (drain_step _ _ _ _ _ _ _ _) as [[[q1 t1] ev1]|] eqn:E; [|done].
    simplify_eq. by eapply drain_step_nextID.
  - case_match; [|done]. by simplify_eq.
  - by eapply call_step_keeps.
  - case_match; [|done]. by simplify_eq.
Qed.

Lemma ids_wf_step s lb s' : wf s -> ids_wf s -> small s' -> step cfg lb s = Some s' -> ids_wf s'.
Proof.
  intros Hwf Hid Hsm Hstep. destruct s as [q done ts log tr].
  destruct lb as [c a now|c id n|c id n|c id n| | | |i ch]; simpl in Hstep.
  - destruct (EnqueueIdentified cfg c a now q) as [q' [[m spawn]|]] eqn:E; simplify_eq.
    + by eapply ids_wf_enqueue.
    + apply Enqueue_None in E as (Hc & _). apply (ids_wf_same _ _ _ _ _ Hid).
      intros c'. unfold nextID. by rewrite Hc.
  - destruct (remove c id n q) as [q' [[[m cancel] obs]|]] eqn:E; simplify_eq.
    + apply remove_spec in E as (idx&_&_&_&Hf&_&_&Hn&_); [|intros; by eapply (wf_items_loc _ _ _ Hwf)].
      by apply (ids_wf_same _ _ _ _ _ Hid), (frame_nextID c).
    + apply remove_None in E as ->. by apply (ids_wf_same _ _ _ _ _ Hid).
  - destruct (sendNowItem cfg c id n q) as [q' [[m cancel]|]] eqn:E; simplify_eq.
    + apply sendNowItem_spec in E as (_&_&idx&_&_&_&Hf&_&_&_&Hn&_).
      by apply (ids_wf_same _ _ _ _ _ Hid), (frame_nextID c).
    + apply sendNowItem_None in E as ->. by apply (ids_wf_same _ _ _ _ _ Hid).
  - simplify_eq. destruct (Bind_spec c id n q) as (Hc & _). apply (ids_wf_same _ _ _ _ _ Hid).
    intros c'. unfold nextID. by rewrite Hc.
  - case_match; [done|]. destruct (run_start q) as [q' sp] eqn:E. simplify_eq.
    apply run_start_spec in E as (_&_&_&_&Hc). apply (ids_wf_same _ _ _ _ _ Hid).
    intros c'. apply Hc.
  - case_match; [|done]. simplify_eq. by apply (ids_wf_same _ _ _ _ _ Hid).
  - case_match; [|done]. simplify_eq. by apply (ids_wf_same _ _ _ _ _ Hid).
  - destruct (ts !! i) as [t|] eqn:Hi; [|done].
    destruct (thread_step cfg q done t ch) as [[[[q' t'] new] evs]|] eqn:E; simplify_eq.
    apply (ids_wf_same _ _ _ _ _ Hid). intros c. eapply thread_step_nextID; [|done].
    apply (wf_locs_ok _ _ Hwf), list_elem_of_lookup; eauto.
Qed.

(** The log only grows. *)
Lemma step_log s lb s' : step cfg lb s = Some s' -> (length (s_log s) <= length (s_log s'))%nat.
Proof.
  destruct s as [q done ts log tr]. destruct lb as [c a now|c id n|c id n|c id n| | | |i ch]; simpl;
    intros H; repeat case_match; simplify_eq/=; rewrite ?length_app; lia.
Qed.

Lemma small_step s lb s' : step cfg lb s = Some s' -> small s' -> small s.
Proof. intros H%step_log. unfold small. lia. Qed.

Lemma reachable_ids ok s : reachable cfg ok s -> small s -> ids_wf s.
Proof.
  induction 1 as [|s lb s' Hr IH _ Hs]; intros Hsm.
  - split; simpl; [done|done|]. intros c. unfold nextID, conv; simpl. rewrite lookup_empty. simpl. lia.
  - eapply ids_wf_step; [by eapply reachable_wf|apply IH; by eapply small_step|done|done].
Qed.

(** A conversation something was accepted for has its entry. *)
Lemma ids_conv s l c m : ids_wf s -> s_log s !! l = Some (c, m) -> is_Some (q_convs (s_queue s) !! c).
Proof.
  intros H Hl. pose proof (id_range _ H _ _ _ Hl) as Hr. unfold nextID, conv in Hr.
  destruct (q_convs (s_queue s) !! c); [eauto|]. simpl in Hr. lia.
Qed.

(** ** The claimed-head invariant *)

Definition claimed (s : sys) : Prop := forall i c f st acts pc,
  s_threads s !! i = Some (TDrain c f st acts pc) -> claim_ok (s_queue s) c pc.

(** What other threads may do to a conversation whose head is claimed. *)
Definition keeps (q q' : Queue) (c : string) : Prop :=
  committing q c = true -> forall h r, items q c = h :: r ->
  committing q' c = true /\ exists r', items q' c = h :: r'.

Lemma keeps_same q q' c :
  committing q' c = committing q c -> items q' c = items q c -> keeps q q' c.
Proof. intros Hc Hi Hcom h r Hr. rewrite Hc, Hi. eauto. Qed.

Lemma keeps_refl q c : keeps q q c.
Proof. by apply keeps_same. Qed.

Lemma keeps_claim q q' c pc : keeps q q' c -> claim_ok q c pc -> claim_ok q' c pc.
Proof.
  unfold claim_ok. intros Hk. destruct pc; try done; repeat case_match; try done;
    intros (Hc & r & Hr); by eapply Hk.
Qed.

Lemma keeps_frame c c' q q' : frame c q q' -> c' <> c -> keeps q q' c'.
Proof. intros (Hf & _) Hne. apply keeps_same; unfold committing, items; by rewrite Hf. Qed.

Lemma keeps_take c q q' idx :
  frame c q q' -> items q' c = remove_at idx (items q c) -> committing q' c = committing q c ->
  (idx = 0%nat -> committing q c = false) -> forall c', keeps q q' c'.
Proof.
  intros Hf Hi Hc Hz c'. destruct (decide (c' = c)) as [->|Hne]; [|by eapply keeps_frame].
  intros Hcom h r Hr. rewrite Hc, Hi, Hr. split; [done|].
  destruct idx as [|idx]; [by rewrite Hz in Hcom|]. unfold remove_at. simpl. eauto.
Qed.

Lemma claimed_extend s q' done' ts' log' tr' new :
  claimed s -> (forall c, keeps (s_queue s) q' c) -> ts' = s_threads s ++ new ->
  (forall u, u ∈ new -> tmsgs u = [] \/ exists c acts pc, u = TCall c acts pc) ->
  claimed (Sys q' done' ts' log' tr').
Proof.
  intros H Hk -> Hn j c f st acts pc Hj. simpl in *. apply lookup_app_Some in Hj as [Hj|[_ Hj]].
  - by eapply keeps_claim, H.
  - destruct (Hn _ (list_elem_of_lookup_2 _ _ _ Hj)) as [E|(?&?&?&?)]; [|done].
    unfold tmsgs in E. apply app_eq_nil in E as [_ E]. by destruct pc.
Qed.

Lemma new_drain_quiet c b u : u ∈ opt_drain c b -> tmsgs u = [].
Proof. destruct b; [by intros ->%list_elem_of_singleton|by intros ?%not_elem_of_nil]. Qed.

Lemma claim_live q c pc : ~ claim_ok q c pc -> drain_live pc = true.
Proof. by destruct pc. Qed.

(** A step of thread [i] leaves the claims of the other threads valid. *)
Lemma claimed_other s i j t ch q' t' new evs c f st acts pc :
  wf s -> serial s -> s_threads s !! i = Some t -> i <> j ->
  s_threads s !! j = Some (TDrain c f st acts pc) ->
  thread_step cfg (s_queue s) (s_done s) t ch = Some (q', t', new, evs) ->
  claim_ok (s_queue s) c pc -> claim_ok q' c pc.
Proof.
  intros Hwf Hser Hi Hij Hj H Hok.
  assert (locs_ok (s_queue s) t) as Hloc by (apply wf_locs_ok, list_elem_of_lookup; eauto).
  destruct (decide (c = tconv t)) as [->|Hne].
  2: { eapply keeps_claim; [|done]. eapply keeps_frame; [|done].
       by eapply thread_step_moves. }
  destruct (drain_live pc) eqn:Hl; [|by destruct pc].
  destruct t as [c f0 st0 [|a acts0] pc0|c [|a acts0] pc0]; simpl in *.
  - destruct (drain_live pc0) eqn:Hl0; [by destruct Hij; eapply (serial_unique s c i j)|].
    by destruct pc0.
  - case_match; [|done]. by simplify_eq.
  - apply call_step_keeps in H as (_ & Hc & Hk); [|done]. eapply keeps_claim; [|done].
    intros Hcom h r Hr. rewrite Hc. eauto.
  - case_match; [|done]. by simplify_eq.
Qed.

Lemma claimed_own s i t ch q' t' new evs c f st acts pc :
  wf s -> ids_wf s -> claimed s -> gate_contract (LThread i ch) s ->
  s_threads s !! i = Some t ->
  thread_step cfg (s_queue s) (s_done s) t ch = Some (q', t', new, evs) ->
  t' = TDrain c f st acts pc -> claim_ok q' c pc.
Proof.
  intros Hwf Hid Hcl Hg Hi H ->.
  assert (t ∈ s_threads s) as Ht by (apply list_elem_of_lookup; eauto).
  assert (locs_ok (s_queue s) t) as Hloc by (by apply wf_locs_ok).
  unfold thread_step in H. destruct t as [c0 f0 st0 [|a acts0] pc0|c0 [|a acts0] pc0]; simpl in *.
  - destruct (drain_step _ _ _ _ _ _ _ _) as [[[q1 t1] ev1]|] eqn:E; [|done]. simplify_eq.
    apply drain_step_claim in E as (?&?&?&?&[= <- <- <- <- <-]&?); try done.
    + intros h m Hh Hm Hmid. eapply (same_message s); [done|by apply ids_wf_inj|done| |done|done].
      unfold tmsgs. apply elem_of_app. by right.
    + intros h att claim -> ->. simpl in Hg. by rewrite Hi in Hg.
    + by eapply Hcl.
  - case_match; [|done]. simplify_eq. by eapply Hcl.
  - unfold call_step in H. repeat (case_match; try discriminate H); simplify_eq.
  - case_match; [|done]. simplify_eq.
Qed.

Lemma thread_step_new q done t ch q' t' new evs u :
  locs_ok q t -> thread_step cfg q done t ch = Some (q', t', new, evs) -> u ∈ new -> tmsgs u = [].
Proof.
  intros Hloc H Hu. pose proof (thread_step_moves _ _ _ _ _ _ _ _ _ Hloc H) as [_ _ Hn _ _].
  by rewrite (Hn _ Hu).
Qed.

Lemma claimed_thread_step s i ch t q' t' new evs :
  wf s -> ids_wf s -> serial s -> claimed s -> gate_contract (LThread i ch) s ->
  s_threads s !! i = Some t ->
  thread_step cfg (s_queue s) (s_done s) t ch = Some (q', t', new, evs) ->
  claimed (Sys q' (s_done s) (<[i:=t']> (s_threads s) ++ new) (s_log s) (evs ++ s_trace s)).
Proof.
  intros Hwf Hid Hser Hcl Hg Hi H j c f st acts pc Hj. simpl in *.
  assert (locs_ok (s_queue s) t) as Hloc by (apply wf_locs_ok, list_elem_of_lookup; eauto).
  apply lookup_app_Some in Hj as [Hj|[_ Hj]].
  - destruct (decide (i = j)) as [->|Hne].
    + rewrite list_lookup_insert_eq in Hj by (by eapply lookup_lt_Some). simplify_eq.
      by eapply claimed_own.
    + rewrite list_lookup_insert_ne in Hj by done. eapply (claimed_other s i j); eauto.
  - pose proof (thread_step_new _ _ _ _ _ _ _ _ _ Hloc H (list_elem_of_lookup_2 _ _ _ Hj)) as E.
    unfold tmsgs in E. apply app_eq_nil in E as [_ E]. by destruct pc.
Qed.

Lemma claimed_step s lb s' :
  wf s -> ids_wf s -> serial s -> claimed s -> gate_contract lb s ->
  step cfg lb s = Some s' -> claimed s'.
Proof.
  intros Hwf Hid Hser Hcl Hg Hstep. destruct s as [q done ts log tr].
  destruct lb as [c a now|c id n|c id n|c id n| | | |i ch]; simpl in Hstep.
  - destruct (EnqueueIdentified cfg c a now q) as [q' [[m spawn]|]] eqn:E; simplify_eq.
    + apply Enqueue_spec in E as (Hne&_&_&_&Hi&_&_&_&_&Hc&_).
      eapply (claimed_extend _ _ _ _ _ _ _ Hcl); [|done|].
      * intros c'. destruct (decide (c' = c)) as [->|Hn].
        -- intros Hcom h r Hr. simpl in *. rewrite Hc, Hi, Hr. simpl. eauto.
        -- apply keeps_same; unfold committing, items; by rewrite Hne.
      * intros u [->|Hu]%elem_of_cons; [by right; eauto|left; by eapply new_drain_quiet].
    + apply Enqueue_None in E as (Hc & _).
      apply (claimed_extend _ _ _ _ _ _ [] Hcl); [|by rewrite app_nil_r|by intros ? ?%not_elem_of_nil].
      intros c'. apply keeps_same; unfold committing, items; by rewrite Hc.
  - destruct (remove c id n q) as [q' [[[m cancel] obs]|]] eqn:E; simplify_eq.
    + apply remove_spec in E as (idx&_&_&Hz&Hf&Hi&_&_&Hc&_); [|intros; by eapply (wf_items_loc _ _ _ Hwf)].
      eapply (claimed_extend _ _ _ _ _ _ _ Hcl); [by eapply keeps_take|done|].
      intros u ->%list_elem_of_singleton. right. eauto.
    + apply remove_None in E as ->.
      apply (claimed_extend _ _ _ _ _ _ [] Hcl); [intros; by apply keeps_same|by rewrite app_nil_r|by intros ? ?%not_elem_of_nil].
  - destruct (sendNowItem cfg c id n q) as [q' [[m cancel]|]] eqn:E; simplify_eq.
    + apply sendNowItem_spec in E as (_&_&idx&_&_&Hz&Hf&Hi&_&_&_&Hc).
      eapply (claimed_extend _ _ _ _ _ _ _ Hcl); [by eapply keeps_take|done|].
      intros u ->%list_elem_of_singleton. right. eauto.
    + apply sendNowItem_None in E as ->.
      apply (claimed_extend _ _ _ _ _ _ [] Hcl); [intros; by apply keeps_same|by rewrite app_nil_r|by intros ? ?%not_elem_of_nil].
  - simplify_eq. destruct (Bind_spec c id n q) as (Hc & _).
    apply (claimed_extend _ _ _ _ _ _ [] Hcl); [|by rewrite app_nil_r|by intros ? ?%not_elem_of_nil].
    intros c'. apply keeps_same; unfold committing, items; by rewrite Hc.
  - case_match; [done|]. destruct (run_start q) as [q' sp] eqn:E. simplify_eq.
    apply run_start_spec in E as (_&_&_&_&Hc).
    eapply (claimed_extend _ _ _ _ _ _ _ Hcl); [|done|].
    + intros c'. destruct (Hc c') as (?&?&_). by apply keeps_same.
    + intros u (c & -> & _)%list_elem_of_fmap. by left.
  - case_match; [|done]. simplify_eq.
    apply (claimed_extend _ _ _ _ _ _ [] Hcl); [intros; by apply keeps_same|by rewrite app_nil_r|by intros ? ?%not_elem_of_nil].
  - case_match; [|done]. simplify_eq.
    apply (claimed_extend _ _ _ _ _ _ [] Hcl); [intros; by apply keeps_same|by rewrite app_nil_r|by intros ? ?%not_elem_of_nil].
  - destruct (ts !! i) as [t|] eqn:Hi; [|done].
    destruct (thread_step cfg q done t ch) as [[[[q' t'] new] evs]|] eqn:E; simplify_eq.
    by apply (claimed_thread_step (Sys q done ts log tr) i ch t q' t' new evs).
Qed.

Lemma reachable_claimed s : reachable cfg gate_contract s -> small s -> claimed s.
Proof.
  induction 1 as [|s lb s' Hr IH Hg Hs]; intros Hsm; [by intros ??????|].
  pose proof (small_step _ _ _ Hs Hsm).
  eapply claimed_step; [by eapply reachable_wf|by eapply reachable_ids|by eapply reachable_serial|auto|done|done].
Qed.

End commit.
End MsgQueueCommit.
