(* ===== verification/MsgQueueLedger.v ===== *)
(** * The ledger of accepted messages

    Under the contract of the delivery seam every accepted message is in
    exactly one place - its FIFO, a send-now caller, or resolved or removed -
    and the successful writes made for it are accounted for. *)
From stdpp Require Import prelude gmap strings list.
From S2P Require Import Prelude MsgQueue MsgQueueSystem MsgQueueInv MsgQueueSafety MsgQueueDrain.
From S2P Require Import MsgQueueCommit.

Module MsgQueueLedger.
Import MsgQueue MsgQueueSystem MsgQueueInv MsgQueueSafety MsgQueueDrain MsgQueueCommit.

Local Open Scope Z_scope.

#[local] Opaque EnqueueIdentified BindAcceptedItem accept remove sendNowItem reinsert commitGate
  drain_peek drain_settle drain_exit giveUp run_start resolveLocked.

Section ledger.
Context (cfg : Config).

(** ** Counters *)

Definition at_loc (l : nat) (m : queued) : nat := if decide (l = m_lifecycle m) then 1 else 0.

(** Occurrences of the message at [l] in a FIFO, and in send-now callers. *)
Definition occ (l : nat) (its : list queued) : nat := sum_list_with (at_loc l) its.
Definition cS (l : nat) (t : thread) : nat :=
  match t with
  | TCall _ _ (SCall m | SResolve m | SReinsert m) => at_loc l m
  | _ => 0
  end.

(** A message that will not be attempted again. *)
Definition gone (q : Queue) (l : nat) : bool := resolved q l || removed q l.

(** A successful write, by its event and by the thread that still has to
    settle it. *)
Definition write_ev (l : nat) (e : event) : nat :=
  match e with
  | EvDeliver _ l' None | EvSendNow _ l' None => if decide (l = l') then 1 else 0
  | _ => 0
  end.
Definition wrote (l : nat) (evs : list event) : nat := sum_list_with (write_ev l) evs.

(** A successful write that a drain settling after the shutdown leaves queued. *)
Definition left_ev (l : nat) (e : event) : nat :=
  match e with EvLeft _ l' => if decide (l = l') then 1 else 0 | _ => 0 end.
Definition left_queued (l : nat) (evs : list event) : nat := sum_list_with (left_ev l) evs.
Definition wW (l : nat) (t : thread) : nat :=
  match t with
  | TDrain _ _ _ _ (DSettle m _ None) => at_loc l m
  | TCall _ _ (SResolve m) => at_loc l m
  | _ => 0
  end.

Definition delivered (q : Queue) (l : nat) : bool := bool_decide (outcome q l = Some TerminalDelivered).
Definition rem_ok (q : Queue) (l : nat) : Prop :=
  removed q l = true -> outcome q l = None \/ outcome q l = Some TerminalRemoved.

Lemma gone_resolved q l : gone q l = false -> outcome q l = None /\ removed q l = false.
Proof.
  unfold gone, resolved. intros H. reflect_bools. split; [|done].
  destruct (outcome q l); [|done]. by destruct H.
Qed.

Lemma same_flags q q' l :
  outcome q' l = outcome q l -> removed q' l = removed q l ->
  gone q' l = gone q l /\ delivered q' l = delivered q l /\ (rem_ok q l -> rem_ok q' l).
Proof. intros Ho Hr. unfold gone, resolved, delivered, rem_ok. by rewrite Ho, Hr. Qed.

Lemma occ_in l its m : m ∈ its -> m_lifecycle m = l -> (1 <= occ l its)%nat.
Proof.
  intros Hm <-. unfold occ. pose proof (sum_list_with_in _ (at_loc (m_lifecycle m)) _ Hm) as H.
  unfold at_loc at 1 in H. by rewrite decide_True in H.
Qed.

(** ** One thread step *)

Record delta (l : nat) (c : string) (t : thread) (q : Queue) (t' : thread) (q' : Queue)
    (evs : list event) (done : bool) : Prop := {
  dl_place : (occ l (items q' c) + cS l t' + Nat.b2n (gone q' l)
              = occ l (items q c) + cS l t + Nat.b2n (gone q l))%nat;
  dl_rem : rem_ok q l -> rem_ok q' l;
  dl_wrote : (wW l t' + Nat.b2n (delivered q' l) + left_queued l evs
              = wW l t + Nat.b2n (delivered q l) + wrote l evs)%nat;
  dl_left : done = false -> left_queued l evs = 0%nat;
}.

(** Nothing about the message moved but what the pcs say. *)
Lemma delta_quiet l c t q t' q' evs done :
  occ l (items q' c) = occ l (items q c) -> outcome q' l = outcome q l -> removed q' l = removed q l ->
  cS l t' = cS l t -> (wW l t' = wW l t + wrote l evs)%nat -> left_queued l evs = 0%nat ->
  delta l c t q t' q' evs done.
Proof.
  intros Hi Ho Hr Hs Hw Hlf. destruct (same_flags _ _ _ Ho Hr) as (Hg & Hd & Hrm).
  split; [by rewrite Hi, Hg, Hs|done| |done]. rewrite Hd. lia.
Qed.

Lemma heap_flags q q' l :
  q_heap q' = q_heap q -> outcome q' l = outcome q l /\ removed q' l = removed q l.
Proof. unfold outcome, removed. by intros ->. Qed.

(** The head leaves the FIFO with an outcome. *)
Lemma delta_resolved l c t q t' q' evs done h o :
  wrote l evs = 0%nat -> left_queued l evs = 0%nat ->
  (occ l (items q c) + cS l t + Nat.b2n (gone q l) <= 1)%nat ->
  items q c = h :: items q' c ->
  (forall x, x <> m_lifecycle h -> outcome q' x = outcome q x) ->
  (forall x, removed q' x = removed q x) ->
  outcome q' (m_lifecycle h)
    = (if decide (outcome q (m_lifecycle h) = None) then Some o else outcome q (m_lifecycle h)) ->
  cS l t' = 0%nat -> cS l t = 0%nat -> wW l t' = 0%nat ->
  wW l t = (if decide (o = TerminalDelivered) then at_loc l h else 0%nat) ->
  delta l c t q t' q' evs done.
Proof.
  intros Hev Hlf Hone Hi Hne Hr Ho Hs' Hs Hw' Hw. rewrite Hi, Hs in Hone. simpl in Hone. unfold at_loc in *.
  destruct (decide (l = m_lifecycle h)) as [->|Hl].
  - assert (gone q (m_lifecycle h) = false) as Hg by (destruct (gone _ _); [simpl in Hone; lia|done]).
    destruct (gone_resolved _ _ Hg) as [Hon Hrn]. rewrite Hon in Ho. simpl in Ho.
    split.
    + rewrite Hi, Hs, Hs', Hg. simpl. unfold at_loc. rewrite decide_True by done.
      unfold gone, resolved. rewrite Ho. simpl. lia.
    + intros _ Hrem. rewrite Hr in Hrem. congruence.
    + rewrite Hw', Hw, Hev, Hlf. unfold delivered. rewrite Ho, Hon. simpl.
      destruct o; simpl; rewrite ?decide_True by done; reflexivity.
    + done.
  - destruct (same_flags q q' l (Hne _ Hl) (Hr l)) as (Hg & Hd & Hrm). split.
    + rewrite Hi, Hs, Hs', Hg. simpl. unfold at_loc. by rewrite decide_False.
    + done.
    + rewrite Hw', Hd, Hw, Hev, Hlf. simpl. repeat case_decide; simpl; (done || lia).
    + done.
Qed.

Lemma settle_delta l c f st h att err q done q' r t' :
  (m_lifecycle h < length (q_heap q))%nat ->
  (occ l (items q c) + Nat.b2n (gone q l) <= 1)%nat ->
  (forall m, m ∈ items q c -> m_id m = m_id h -> m = h) ->
  claim_ok q c (DSettle h att err) ->
  drain_settle c h err done q = (q', r) ->
  cS l t' = 0%nat -> wW l t' = 0%nat ->
  delta l c (TDrain c f st [] (DSettle h att err)) q t' q'
    (if done then match err with None => [EvLeft c (m_lifecycle h)] | Some _ => [] end else []) done.
Proof.
  intros Hl Hone Huniq Hcl E Hs Hw.
  apply drain_settle_spec in E as (_&_&_&_&Hfl&_&Hne&Hcase&_); [|done].
  destruct err as [e|]; [destruct Hcase as (Hi & _ & Ho)|destruct done].
  - assert (gone q' l = gone q l /\ delivered q' l = delivered q l /\ (rem_ok q l -> rem_ok q' l)) as (Hg & Hd & Hrm).
    { destruct (decide (l = m_lifecycle h)) as [->|Hn]; [|by apply same_flags; [auto|apply Hfl]].
      unfold gone, resolved, delivered, rem_ok. rewrite Ho, (proj2 (Hfl _)).
      destruct (removed q (m_lifecycle h)); [|done].
      destruct (outcome q (m_lifecycle h)); simpl; [done|]. rewrite andb_comm || idtac. auto. }
    split; [by rewrite Hi, Hg, Hs|done| |by intros ->]. destruct done; simpl; rewrite Hd, Hw; lia.
  - destruct Hcase as (Hi & _ & _ & Ho).
    assert (outcome q' l = outcome q l) as Hol
      by (destruct (decide (l = m_lifecycle h)) as [->|]; auto).
    destruct (same_flags q q' l Hol (proj2 (Hfl l))) as (Hg & Hd & Hrm).
    split; [by rewrite Hi, Hg, Hs|done| |done]. simpl. rewrite Hd, Hw. unfold at_loc. case_decide; simpl; lia.
  - destruct Hcl as (_ & rest & Hit). destruct Hcase as (Ho & [(_ & m & Hm & Hi)|(_ & _ & Hno)]);
      [|by destruct (Hno _ _ Hit)].
    assert (m = h) as -> by congruence.
    eapply (delta_resolved _ _ _ _ _ _ _ _ h TerminalDelivered); try done; simpl; try lia.
    intros x. apply Hfl.
Qed.

Lemma drain_step_delta l c f st pc q done ch q' t' evs :
  locs_ok q (TDrain c f st [] pc) ->
  (occ l (items q c) + Nat.b2n (gone q l) <= 1)%nat ->
  (forall h m, h ∈ pc_msgs (TDrain c f st [] pc) -> m ∈ items q c -> m_id m = m_id h -> m = h) ->
  claim_ok q c pc ->
  drain_step cfg c f st pc q done ch = Some (q', t', evs) ->
  delta l c (TDrain c f st [] pc) q t' q' evs done.
Proof.
  intros Hloc Hone Huniq Hok H.
  assert (forall m, m ∈ pc_msgs (TDrain c f st [] pc) -> (m_lifecycle m < length (q_heap q))%nat) as Hl
    by (intros; by eapply locs_ok_pc).
  unfold drain_step in H.
  destruct pc; simplify_eq/=; repeat (case_match; try discriminate H); simplify_eq/=.
  all: try (apply delta_quiet; simpl; unfold at_loc; repeat case_match; (done || lia)).
  all: lazymatch goal with
  | E : drain_peek _ _ = (_, Some _) |- _ =>
      apply drain_peek_Some in E as (_&Hq&_&Hi&_); destruct (Hq l) as (_&?&?);
      apply delta_quiet; by rewrite ?Hi
  | E : drain_peek _ _ = (_, None) |- _ =>
      apply drain_peek_None in E as (_&Hh&Hi&Hi'&_); destruct (heap_flags q q' l Hh);
      apply delta_quiet; by rewrite ?Hi, ?Hi'
  | E : commitGate _ _ _ = _ |- _ =>
      apply commitGate_spec in E as (_&Hh&Hi&_); destruct (heap_flags q q' l Hh);
      apply delta_quiet; by rewrite ?Hi
  | E : drain_settle _ ?h ?e ?d _ = _ |- _ =>
      eapply (settle_delta _ _ _ _ h _ e _ d); [by apply Hl, list_elem_of_singleton|done| |done|done|done|done];
      intros; eapply Huniq; [by apply list_elem_of_singleton|done|done]
  | E : giveUp _ _ _ = (_, None) |- _ =>
      apply giveUp_spec in E as (_&_&_&_&_&_&->); [by apply delta_quiet|by apply Hl, list_elem_of_singleton]
  | E : giveUp _ _ _ = (_, Some _) |- _ =>
      apply giveUp_spec in E as (_&Hfl&_&_&_&Hne&_&(m & Hm & Hi)&Ho); [|by apply Hl, list_elem_of_singleton];
      assert (m = head) as -> by (apply Huniq; [by apply list_elem_of_singleton|rewrite Hi; by left|done]);
      eapply (delta_resolved _ _ _ _ _ _ _ _ head TerminalGiveUp); try done; simpl; [lia|intros; apply Hfl]
  | |- _ => pose proof (drain_exit_spec c q) as (_&Hq&Hi&_); destruct (Hq l) as (_&?&?);
      apply delta_quiet; by rewrite ?Hi
  end.
Qed.

Lemma call_step_delta l c pc q ch q' t' new evs done :
  locs_ok q (TCall c [] pc) ->
  (occ l (items q c) + cS l (TCall c [] pc) + Nat.b2n (gone q l) <= 1)%nat ->
  (pc_msgs (TCall c [] pc) <> [] -> is_Some (q_convs q !! c)) ->
  call_step cfg c pc q ch = Some (q', t', new, evs) ->
  delta l c (TCall c [] pc) q t' q' evs done.
Proof.
  intros Hloc Hone Hconv H.
  assert (forall m, m ∈ pc_msgs (TCall c [] pc) -> (m_lifecycle m < length (q_heap q))%nat) as Hl
    by (intros; by eapply locs_ok_pc).
  unfold call_step in H.
  destruct pc; simplify_eq/=; repeat (case_match; try discriminate H); simplify_eq/=.
  all: try (apply delta_quiet; simpl; unfold at_loc; repeat case_match; (done || lia)).
  - match goal with E : accept _ _ _ = _ |- _ =>
      apply accept_spec in E as (_&Hi&_&_&_&Hfl&_); [|by apply Hl, list_elem_of_singleton] end.
    apply delta_quiet; try done; [by rewrite Hi|apply Hfl|apply Hfl].
  - match goal with E : resolveLocked ?m ?o ?b ?q = _ |- _ =>
      pose proof (conv_resolve m o b q c) as Hc; rewrite E in Hc; simpl in Hc;
      apply resolve_spec in E as (_&Hr&Hne&Ho&_); [|by apply Hl, list_elem_of_singleton] end.
    assert (items q' c = items q c) as Hi by (unfold items; by rewrite Hc).
    unfold at_loc in *. destruct (decide (l = m_lifecycle m)) as [->|Hn].
    + assert (gone q (m_lifecycle m) = false) as Hg by (destruct (gone _ _); [simpl in Hone; lia|done]).
      destruct (gone_resolved _ _ Hg) as [Hon Hrn]. rewrite Hon in Ho. simpl in Ho. split; simpl.
      * rewrite Hi, Hg. unfold at_loc, gone, resolved. rewrite decide_True, Ho by done. simpl. lia.
      * intros _ Hrem. rewrite Hr in Hrem. congruence.
      * unfold at_loc, delivered. rewrite decide_True, Ho, Hon by done. done.
      * done.
    + destruct (same_flags q q' l (Hne _ Hn) (Hr l)) as (Hg & Hd & Hrm). split; simpl.
      * unfold at_loc. by rewrite Hi, Hg, decide_False.
      * done.
      * unfold at_loc. rewrite Hd, decide_False by done. lia.
      * done.
  - match goal with E : reinsert _ _ _ = _ |- _ =>
      apply reinsert_spec in E as (_&Hh&Hi&_); [|by apply Hconv] end.
    destruct (heap_flags q q' l Hh) as [Ho Hr]. destruct (same_flags q q' l Ho Hr) as (Hg & Hd & Hrm).
    split; simpl; [|done|rewrite Hd; lia|done].
    rewrite Hi, Hg. unfold occ. rewrite sum_list_insert_at. lia.
Qed.

(** ** The ledger *)

Record ledger (s : sys) : Prop := {
  lg_one : forall l c m, s_log s !! l = Some (c, m) ->
    (occ l (items (s_queue s) c) + sum_list_with (cS l) (s_threads s)
     + Nat.b2n (gone (s_queue s) l) = 1)%nat;
  lg_rem : forall l, rem_ok (s_queue s) l;
  lg_wrote : forall l,
    wrote l (s_trace s) = (Nat.b2n (delivered (s_queue s) l) + sum_list_with (wW l) (s_threads s)
                           + left_queued l (s_trace s))%nat;
  lg_left : s_done s = false -> forall l, left_queued l (s_trace s) = 0%nat;
}.

Lemma at_loc_pos l m : at_loc l m <> 0%nat -> m_lifecycle m = l.
Proof. unfold at_loc. by case_decide. Qed.

Lemma occ_pos l its : occ l its <> 0%nat -> exists m, m ∈ its /\ m_lifecycle m = l.
Proof.
  unfold occ. induction its as [|x its IH]; simpl; [done|]. intros H.
  destruct (decide (at_loc l x = 0%nat)) as [Hx|Hx].
  - destruct IH as (m & Hm & ?); [lia|]. exists m. split; [by right|done].
  - exists x. split; [by left|by apply at_loc_pos].
Qed.

Lemma cS_pos l t : cS l t <> 0%nat -> exists m, m ∈ pc_msgs t /\ m_lifecycle m = l.
Proof.
  destruct t as [c f st acts pc|c acts pc]; destruct pc; simpl; try done;
    intros Hat%at_loc_pos; eexists; (split; [by apply list_elem_of_singleton|done]).
Qed.

Lemma wW_pos l t : wW l t <> 0%nat -> exists m, m ∈ pc_msgs t /\ m_lifecycle m = l.
Proof.
  destruct t as [c f st acts pc|c acts pc]; destruct pc; simpl; try done; try (case_match; [done|]);
    intros Hat%at_loc_pos; eexists; (split; [by apply list_elem_of_singleton|done]).
Qed.

Lemma occ_other s l c c' m :
  wf s -> s_log s !! l = Some (c, m) -> c' <> c -> occ l (items (s_queue s) c') = 0%nat.
Proof.
  intros Hwf Hl Hne. destruct (decide (occ l (items (s_queue s) c') = 0%nat)) as [|H]; [done|].
  apply occ_pos in H as (x & Hx & <-). apply (wf_items _ Hwf) in Hx. congruence.
Qed.

Lemma pc_msgs_log s t m :
  wf s -> t ∈ s_threads s -> m ∈ pc_msgs t -> s_log s !! m_lifecycle m = Some (tconv t, m).
Proof. intros Hwf Ht Hm. eapply wf_threads; [done|done|]. unfold tmsgs. apply elem_of_app. by right. Qed.

(** Locations nothing was accepted at are untouched. *)
Lemma fresh_loc s l t :
  wf s -> s_log s !! l = None -> t ∈ s_threads s ->
  (forall c, occ l (items (s_queue s) c) = 0%nat) /\ cS l t = 0%nat /\ wW l t = 0%nat
  /\ gone (s_queue s) l = false /\ delivered (s_queue s) l = false.
Proof.
  intros Hwf Hl Ht. split; [|split; [|split]].
  - intros c. destruct (decide (occ l (items (s_queue s) c) = 0%nat)) as [|H]; [done|].
    apply occ_pos in H as (x & Hx & <-). apply (wf_items _ Hwf) in Hx. congruence.
  - destruct (decide (cS l t = 0%nat)) as [|H]; [done|].
    apply cS_pos in H as (x & Hx & <-). apply (pc_msgs_log _ _ _ Hwf Ht) in Hx. congruence.
  - destruct (decide (wW l t = 0%nat)) as [|H]; [done|].
    apply wW_pos in H as (x & Hx & <-). apply (pc_msgs_log _ _ _ Hwf Ht) in Hx. congruence.
  - apply lookup_ge_None in Hl. rewrite (wf_len _ Hwf) in Hl.
    destruct (flags_fresh _ _ Hl) as (_ & Ho & Hr). unfold gone, resolved, delivered. by rewrite Ho, Hr.
Qed.

Lemma place_le s t l :
  wf s -> ledger s -> t ∈ s_threads s ->
  (occ l (items (s_queue s) (tconv t)) + cS l t + Nat.b2n (gone (s_queue s) l) <= 1)%nat.
Proof.
  intros Hwf Hlg Ht. destruct (s_log s !! l) as [[c m]|] eqn:Hl.
  - pose proof (lg_one _ Hlg _ _ _ Hl). pose proof (sum_list_with_in _ (cS l) _ Ht).
    destruct (decide (tconv t = c)) as [->|Hne]; [lia|]. rewrite (occ_other _ _ _ _ _ Hwf Hl Hne). lia.
  - destruct (fresh_loc _ _ _ Hwf Hl Ht) as (Ho & -> & _ & -> & _). rewrite Ho. simpl. lia.
Qed.

Lemma thread_step_delta s i ch t q' t' new evs l :
  wf s -> ids_wf s -> claimed s -> ledger s -> s_threads s !! i = Some t ->
  thread_step cfg (s_queue s) (s_done s) t ch = Some (q', t', new, evs) ->
  delta l (tconv t) t (s_queue s) t' q' evs (s_done s).
Proof.
  intros Hwf Hid Hcl Hlg Hi H.
  assert (t ∈ s_threads s) as Ht by (apply list_elem_of_lookup; eauto).
  assert (locs_ok (s_queue s) t) as Hloc by (by apply wf_locs_ok).
  pose proof (place_le s t l Hwf Hlg Ht) as Hle.
  unfold thread_step in H. destruct t as [c f st [|a acts] pc|c [|a acts] pc]; simpl in *.
  - destruct (drain_step _ _ _ _ _ _ _ _) as [[[q1 t1] ev1]|] eqn:E; [|done]. simplify_eq.
    eapply drain_step_delta; [done|lia| |by eapply Hcl|done].
    intros h m Hh Hm Hmid. eapply (same_message s); [done|by apply ids_wf_inj|done| |done|done].
    unfold tmsgs. apply elem_of_app. by right.
  - destruct (decide (ch = CGo)); [|done]. simplify_eq. apply delta_quiet; try done; simpl;
      destruct a; simpl; repeat case_match; simpl; lia.
  - eapply call_step_delta; [done|done| |done]. intros Hm.
    destruct (pc_msgs (TCall c [] pc)) as [|m ms] eqn:Em; [done|].
    eapply (ids_conv s); [done|]. eapply (pc_msgs_log s (TCall c [] pc)); [done|done|]. rewrite Em. by left.
  - destruct (decide (ch = CGo)); [|done]. simplify_eq. apply delta_quiet; try done; simpl;
      destruct a; simpl; repeat case_match; simpl; lia.
Qed.

Lemma new_quiet l q done t ch q' t' new evs :
  locs_ok q t -> thread_step cfg q done t ch = Some (q', t', new, evs) ->
  sum_list_with (cS l) new = 0%nat /\ sum_list_with (wW l) new = 0%nat.
Proof.
  intros Hloc H. pose proof (thread_step_moves _ _ _ _ _ _ _ _ _ Hloc H) as [_ _ Hn _ _].
  split; apply sum_list_zero; intros u Hu; by rewrite (Hn _ Hu).
Qed.

Lemma ledger_thread_step s i ch t q' t' new evs :
  wf s -> ids_wf s -> claimed s -> ledger s -> s_threads s !! i = Some t ->
  thread_step cfg (s_queue s) (s_done s) t ch = Some (q', t', new, evs) ->
  ledger (Sys q' (s_done s) (<[i:=t']> (s_threads s) ++ new) (s_log s) (evs ++ s_trace s)).
Proof.
  intros Hwf Hid Hcl Hlg Hi H.
  assert (locs_ok (s_queue s) t) as Hloc by (apply wf_locs_ok, list_elem_of_lookup; eauto).
  pose proof (fun l => thread_step_delta s i ch t q' t' new evs l Hwf Hid Hcl Hlg Hi H) as Hd.
  pose proof (wf_thread_step cfg s i ch t q' t' new evs Hwf Hi H) as Hwf'.
  pose proof (thread_step_moves _ _ _ _ _ _ _ _ _ Hloc H) as [Hf _ _ _ _].
  split; simpl.
  - intros l c m Hl. destruct (new_quiet l _ _ _ _ _ _ _ _ Hloc H) as [Hz _].
    pose proof (lg_one _ Hlg _ _ _ Hl) as Ho. pose proof (sum_list_insert (cS l) _ _ _ t' Hi) as Hs.
    pose proof (dl_place _ _ _ _ _ _ _ _ (Hd l)) as Hp. rewrite sum_list_with_app, Hz.
    destruct (decide (c = tconv t)) as [->|Hne]; [lia|].
    rewrite (frame_items _ _ _ _ Hf Hne).
    rewrite (occ_other s l c (tconv t) m Hwf Hl) in Hp by done.
    pose proof (occ_other _ l c (tconv t) m Hwf' Hl ltac:(done)) as Hz'. simpl in Hz'.
    rewrite Hz' in Hp. lia.
  - intros l. apply (dl_rem _ _ _ _ _ _ _ _ (Hd l)), (lg_rem _ Hlg).
  - intros l. destruct (new_quiet l _ _ _ _ _ _ _ _ Hloc H) as [_ Hz].
    pose proof (lg_wrote _ Hlg l) as Ho. pose proof (sum_list_insert (wW l) _ _ _ t' Hi) as Hs.
    pose proof (dl_wrote _ _ _ _ _ _ _ _ (Hd l)) as Hp.
    unfold wrote, left_queued in *. rewrite !sum_list_with_app, Hz. lia.
  - intros Hdn l. pose proof (lg_left _ Hlg Hdn l) as Ho. pose proof (dl_left _ _ _ _ _ _ _ _ (Hd l) Hdn) as Hp.
    unfold left_queued in *. rewrite sum_list_with_app. lia.
Qed.

(** Steps that move no message. *)
Lemma ledger_extend s q' done' ts' tr' new :
  ledger s ->
  (forall c, items q' c = items (s_queue s) c) ->
  (forall l, outcome q' l = outcome (s_queue s) l /\ removed q' l = removed (s_queue s) l) ->
  ts' = s_threads s ++ new -> (forall u, u ∈ new -> pc_msgs u = []) ->
  (forall l, wrote l tr' = wrote l (s_trace s) /\ left_queued l tr' = left_queued l (s_trace s)) -> (done' = false -> s_done s = false) ->
  ledger (Sys q' done' ts' (s_log s) tr').
Proof.
  intros [Ho Hr Hw Hq] Hi Hf -> Hn Ht Hd.
  assert (forall l, sum_list_with (cS l) new = 0%nat /\ sum_list_with (wW l) new = 0%nat) as Hz.
  { intros l. split; apply sum_list_zero; intros u Hu; specialize (Hn _ Hu).
    - destruct (decide (cS l u = 0%nat)) as [|Hc]; [done|]. apply cS_pos in Hc as (m & Hm & _).
      rewrite Hn in Hm. by apply not_elem_of_nil in Hm.
    - destruct (decide (wW l u = 0%nat)) as [|Hc]; [done|]. apply wW_pos in Hc as (m & Hm & _).
      rewrite Hn in Hm. by apply not_elem_of_nil in Hm. }
  split; simpl.
  - intros l c m Hl. destruct (Hf l) as [Hfo Hfr]. destruct (same_flags _ _ _ Hfo Hfr) as (-> & _).
    rewrite Hi, sum_list_with_app, (proj1 (Hz l)), Nat.add_0_r. by eapply Ho.
  - intros l. destruct (Hf l) as [Hfo Hfr]. apply (same_flags _ _ _ Hfo Hfr), Hr.
  - intros l. destruct (Hf l) as [Hfo Hfr]. destruct (same_flags _ _ _ Hfo Hfr) as (_ & -> & _).
    destruct (Ht l) as [-> ->]. rewrite sum_list_with_app, (proj2 (Hz l)), Nat.add_0_r. apply Hw.
  - intros Hdn l. rewrite (proj2 (Ht l)). by apply Hq, Hd.
Qed.

Lemma ledger_enqueue q done ts log tr c a now q' m spawn :
  wf (Sys q done ts log tr) -> ledger (Sys q done ts log tr) ->
  EnqueueIdentified cfg c a now q = (q', Some (m, spawn)) ->
  ledger (Sys q' done (ts ++ TCall c [] (EAccept m) :: opt_drain c spawn) (log ++ [(c, m)]) tr).
Proof.
  intros Hwf [Ho Hr Hw Hq] H. apply Enqueue_spec in H as (Hne & _ & _ & _ & Hi & _ & _ & Hl & Hh & _).
  pose proof (wf_len _ Hwf) as Hlen. simpl in *.
  assert (forall l, sum_list_with (cS l) (opt_drain c spawn) = 0%nat) as Hz1 by (by destruct spawn).
  assert (forall l, sum_list_with (wW l) (opt_drain c spawn) = 0%nat) as Hz2 by (by destruct spawn).
  assert (forall l, l <> length log -> outcome q' l = outcome q l /\ removed q' l = removed q l) as Hsame.
  { intros l Hn. destruct (accepted_snoc q q' _ l Hh) as (_ & -> & ->).
    by rewrite !decide_False by congruence. }
  assert (outcome q' (length log) = None /\ removed q' (length log) = false) as [Hno Hnr].
  { destruct (accepted_snoc q q' _ (length log) Hh) as (_ & -> & ->). by rewrite !decide_True. }
  assert (forall c0 l, items q' c0 = items q c0 \/ (c0 = c /\ items q' c0 = items q c0 ++ [m])
            /\ (l <> length log -> at_loc l m = 0%nat)) as Hits.
  { intros c0 l. destruct (decide (c0 = c)) as [->|Hn]; [right; split; [done|]|left; unfold items; by rewrite Hne].
    intros Hll. unfold at_loc. rewrite decide_False by congruence. done. }
  split; simpl.
  - intros l c0 x. rewrite lookup_snoc, sum_list_with_app. simpl. rewrite Hz1. case_decide as Hll.
    + intros [= <- <-]. subst l. rewrite Hi. unfold occ. rewrite sum_list_with_app. simpl.
      unfold gone, resolved. rewrite Hno, Hnr. simpl. unfold at_loc at 2. rewrite decide_True by congruence.
      assert (log !! length log = None) as Hnone by (by apply lookup_ge_None_2).
      assert (occ (length log) (items q c) = 0%nat) as Hz.
      { destruct (decide (occ (length log) (items q c) = 0%nat)) as [|Hp]; [done|].
        apply occ_pos in Hp as (y & Hy & Hly). apply (wf_items _ Hwf) in Hy. simpl in Hy. congruence. }
      unfold occ in Hz. rewrite Hz, sum_list_zero; [lia|]. intros u Hu.
      by destruct (fresh_loc (Sys q done ts log tr) _ _ Hwf Hnone Hu) as (_ & ? & _).
    + intros Hx. specialize (Ho _ _ _ Hx). destruct (Hsame _ Hll) as [Hso Hsr].
      destruct (same_flags _ _ _ Hso Hsr) as (-> & _).
      destruct (Hits c0 l) as [->|([_ ->] & Hat)]; [lia|].
      unfold occ in *. rewrite sum_list_with_app. simpl. rewrite (Hat Hll). lia.
  - intros l. destruct (decide (l = length log)) as [->|Hll]; [unfold rem_ok; by rewrite Hnr|].
    destruct (Hsame _ Hll) as [Hso Hsr]. apply (same_flags _ _ _ Hso Hsr), Hr.
  - intros l. rewrite Hw, sum_list_with_app. simpl. rewrite Hz2.
    enough (delivered q' l = delivered q l) as -> by lia.
    destruct (decide (l = length log)) as [->|Hll]; [|by apply same_flags; apply Hsame].
    unfold delivered. rewrite Hno. destruct (flags_fresh q (length log)) as (_ & -> & _); [lia|done].
  - exact Hq.
Qed.

(** A message taken out of its FIFO by [Remove] or [SendNow]. *)
Lemma occ_take q q' c idx m l :
  items q c !! idx = Some m -> items q' c = remove_at idx (items q c) ->
  occ l (items q c) = (occ l (items q' c) + at_loc l m)%nat.
Proof. intros Hl ->. unfold occ. by rewrite (sum_list_remove_at _ _ _ _ Hl). Qed.

Lemma ledger_remove q done ts log tr c id n q' m cancel obs acts :
  wf (Sys q done ts log tr) -> ledger (Sys q done ts log tr) ->
  remove c id n q = (q', Some (m, cancel, obs)) ->
  ledger (Sys q' done (ts ++ [TCall c acts (CRet (RRemove id true))]) log tr).
Proof.
  intros Hwf [Ho Hr Hw Hq] H.
  apply remove_spec in H as (idx&Hidx&_&_&Hf&Hi&_&_&_&_&Hoth&Hrm&Hout&_);
    [|intros; by eapply (wf_items_loc _ _ _ Hwf)].
  assert (m ∈ items q c) as Hm by (apply list_elem_of_lookup; eauto).
  assert (log !! m_lifecycle m = Some (c, m)) as Hlog by (by apply (wf_items _ Hwf)).
  pose proof (Ho _ _ _ Hlog) as Hone. pose proof (occ_take _ _ _ _ _ (m_lifecycle m) Hidx Hi) as Ht.
  unfold at_loc in Ht. rewrite decide_True in Ht by done. simpl in *.
  assert (gone q (m_lifecycle m) = false) as Hg by (destruct (gone _ _); [simpl in *; lia|done]).
  destruct (gone_resolved _ _ Hg) as [Hon Hrn].
  assert (outcome q' (m_lifecycle m) = None \/ outcome q' (m_lifecycle m) = Some TerminalRemoved) as Hout'
    by (destruct Hout as [->|[_ ->]]; auto).
  split; simpl.
  - intros l c0 x Hx. rewrite sum_list_with_app. simpl. specialize (Ho _ _ _ Hx) as Hox. simpl in Hox.
    destruct (decide (l = m_lifecycle m)) as [->|Hl].
    + assert (c0 = c) as -> by congruence. unfold gone. rewrite Hrm, orb_true_r. simpl.
      rewrite Hg in Hone. simpl in Hone. lia.
    + destruct (Hoth _ Hl) as [Hsr Hso]. destruct (same_flags _ _ _ Hso Hsr) as (-> & _).
      destruct (decide (c0 = c)) as [->|Hne]; [|rewrite (frame_items _ _ _ _ Hf Hne); lia].
      pose proof (occ_take _ _ _ _ _ l Hidx Hi) as Htl. unfold at_loc in Htl.
      rewrite decide_False in Htl by done. lia.
  - intros l. destruct (decide (l = m_lifecycle m)) as [->|Hl]; [by intros _|].
    destruct (Hoth _ Hl) as [Hsr Hso]. apply (same_flags _ _ _ Hso Hsr), Hr.
  - intros l. rewrite Hw, sum_list_with_app. simpl. f_equal. f_equal; [|lia]. f_equal.
    destruct (decide (l = m_lifecycle m)) as [->|Hl].
    + unfold delivered. rewrite Hon. by destruct Hout' as [-> | ->].
    + destruct (Hoth _ Hl) as [Hsr Hso]. symmetry. by apply same_flags.
  - exact Hq.
Qed.

Lemma ledger_sendNow q done ts log tr c id n q' m cancel acts :
  wf (Sys q done ts log tr) -> ledger (Sys q done ts log tr) ->
  sendNowItem cfg c id n q = (q', Some (m, cancel)) ->
  ledger (Sys q' done (ts ++ [TCall c acts (SCall m)]) log tr).
Proof.
  intros Hwf [Ho Hr Hw Hq] H. apply sendNowItem_spec in H as (_&_&idx&Hidx&_&_&Hf&Hi&Hh&_).
  assert (m ∈ items q c) as Hm by (apply list_elem_of_lookup; eauto).
  assert (log !! m_lifecycle m = Some (c, m)) as Hlog by (by apply (wf_items _ Hwf)).
  assert (forall l, gone q' l = gone q l /\ delivered q' l = delivered q l /\ (rem_ok q l -> rem_ok q' l)) as Hfl
    by (intros l; apply same_flags; by apply heap_flags).
  split; simpl in *.
  - intros l c0 x Hx. rewrite sum_list_with_app, (proj1 (Hfl l)). simpl. specialize (Ho _ _ _ Hx).
    pose proof (occ_take _ _ _ _ _ l Hidx Hi) as Htl.
    destruct (decide (c0 = c)) as [->|Hne]; [lia|]. rewrite (frame_items _ _ _ _ Hf Hne).
    assert (at_loc l m = 0%nat) as ->; [|lia]. unfold at_loc. case_decide; [congruence|done].
  - intros l. apply Hfl, Hr.
  - intros l. rewrite Hw, sum_list_with_app. simpl. rewrite (proj1 (proj2 (Hfl l))). lia.
  - exact Hq.
Qed.

Lemma ledger_step s lb s' :
  wf s -> ids_wf s -> claimed s -> ledger s -> step cfg lb s = Some s' -> ledger s'.
Proof.
  intros Hwf Hid Hcl Hlg Hstep. destruct s as [q done ts log tr].
  assert (forall evs, (forall l, wrote l evs = 0%nat /\ left_queued l evs = 0%nat) ->
            ledger (Sys q done ts log (evs ++ tr))) as Hev.
  { intros evs He. apply (ledger_extend _ _ _ _ _ [] Hlg); try done; [by rewrite app_nil_r|by intros ? ?%not_elem_of_nil|].
    intros l. destruct (He l) as [H1 H2]. unfold wrote, left_queued in *. by rewrite !sum_list_with_app, H1, H2. }
  destruct lb as [c a now|c id n|c id n|c id n| | | |i ch]; simpl in Hstep.
  - destruct (EnqueueIdentified cfg c a now q) as [q' [[m spawn]|]] eqn:E; simplify_eq.
    + by eapply ledger_enqueue.
    + apply Enqueue_None in E as (Hc & Hh & _).
      apply (ledger_extend _ _ _ _ _ [] Hlg); try done; [|by intros; apply heap_flags|by rewrite app_nil_r|by intros ? ?%not_elem_of_nil].
      intros c'. unfold items. by rewrite Hc.
  - destruct (remove c id n q) as [q' [[[m cancel] obs]|]] eqn:E; simplify_eq.
    + by eapply ledger_remove.
    + apply remove_None in E as ->. by apply (Hev [_]).
  - destruct (sendNowItem cfg c id n q) as [q' [[m cancel]|]] eqn:E; simplify_eq.
    + by eapply ledger_sendNow.
    + apply sendNowItem_None in E as ->. by apply (Hev [_]).
  - simplify_eq. destruct (Bind_spec c id n q) as (Hc & _ & Hq & _).
    apply (ledger_extend _ _ _ _ _ [] Hlg); try done; [| |by rewrite app_nil_r|by intros ? ?%not_elem_of_nil].
    + intros c'. unfold items. by rewrite Hc.
    + intros l. by destruct (Hq l) as (_ & ? & ?).
  - case_match; [done|]. destruct (run_start q) as [q' sp] eqn:E. simplify_eq.
    apply run_start_spec in E as (Hh&_&_&_&Hc).
    eapply (ledger_extend _ _ _ _ _ _ Hlg); try done; [intros c'; apply Hc|by intros; apply heap_flags|].
    by intros u (c & -> & _)%list_elem_of_fmap.
  - case_match; [|done]. simplify_eq.
    apply (ledger_extend _ _ _ _ _ [] Hlg); try done; [by rewrite app_nil_r|by intros ? ?%not_elem_of_nil].
  - case_match; [|done]. simplify_eq.
    apply (ledger_extend _ _ _ _ _ [] Hlg); try done; [by rewrite app_nil_r|by intros ? ?%not_elem_of_nil].
  - destruct (ts !! i) as [t|] eqn:Hi; [|done].
    destruct (thread_step cfg q done t ch) as [[[[q' t'] new] evs]|] eqn:E; simplify_eq.
    by apply (ledger_thread_step (Sys q done ts log tr) i ch t q' t' new evs).
Qed.

Lemma ledger_init : ledger (init empty_queue).
Proof. by split. Qed.

Lemma reachable_ledger s : reachable cfg gate_contract s -> small s -> ledger s.
Proof.
  induction 1 as [|s lb s' Hr IH Hg Hs]; intros Hsm; [apply ledger_init|].
  pose proof (small_step _ _ _ _ Hs Hsm).
  eapply ledger_step; [by eapply reachable_wf|by eapply reachable_ids|by eapply reachable_claimed|auto|done].
Qed.

End ledger.
End MsgQueueLedger.
