(* ===== verification/MsgQueueOrder.v ===== *)
(** * Order, backlog bound and wakeups

    Without the send-now seam each FIFO is kept in order of acceptance, within
    the backlog bound, and is delivered in that order; and a running queue with
    a backlog has a drain unless that drain gave up. *)
From stdpp Require Import prelude gmap strings list sorting.
From S2P Require Import Prelude MsgQueue MsgQueueSystem MsgQueueInv MsgQueueSafety MsgQueueDrain.

Module MsgQueueOrder.
Import MsgQueue MsgQueueSystem MsgQueueInv MsgQueueSafety MsgQueueDrain.

Local Open Scope Z_scope.

#[local] Opaque EnqueueIdentified BindAcceptedItem accept remove sendNowItem reinsert commitGate
  drain_peek drain_settle drain_exit giveUp run_start resolveLocked.

Section order.
Context (cfg : Config).

(** ** How a step changes a FIFO when nothing is sent now *)

(** The callers of [SendNow] past their take. *)
Definition sends_now (t : thread) : Prop :=
  match t with TCall _ _ (SCall _ | SResolve _ | SReinsert _) => True | _ => False end.

Lemma drain_step_sublist c f st pc q done ch q' t' evs :
  locs_ok q (TDrain c f st [] pc) ->
  drain_step cfg c f st pc q done ch = Some (q', t', evs) ->
  items q' c `sublist_of` items q c.
Proof.
  intros Hloc H.
  assert (forall m, m ∈ pc_msgs (TDrain c f st [] pc) -> (m_lifecycle m < length (q_heap q))%nat) as Hl
    by (intros; by eapply locs_ok_pc).
  unfold drain_step in H.
  destruct pc; simplify_eq/=; repeat (case_match; try discriminate H); simplify_eq/=; try done.
  all: lazymatch goal with
  | E : drain_peek _ _ = (_, Some _) |- _ => by apply drain_peek_Some in E as (_&_&_&->&_)
  | E : drain_peek _ _ = (_, None) |- _ => apply drain_peek_None in E as (_&_&_&->&_); apply sublist_nil_l
  | E : commitGate _ _ _ = _ |- _ => by apply commitGate_spec in E as (_&_&->&_)
  | E : drain_settle _ _ ?err ?sh _ = _ |- _ =>
      apply drain_settle_spec in E as (_&_&_&_&_&_&_&Hc&_); [|by apply Hl, list_elem_of_singleton]
  | E : giveUp _ _ _ = (_, ?r) |- _ =>
      apply giveUp_spec in E as (_&_&_&_&_&_&Hc); [|by apply Hl, list_elem_of_singleton]
  | |- _ => by rewrite (proj1 (proj2 (proj2 (drain_exit_spec c q))))
  end.
  all: repeat case_match; simplify_eq/=; try done.
  all: first
    [ destruct Hc as [-> _]; done
    | destruct Hc as (_ & [(_ & m & _ & ->)|(_ & -> & _)]); [by apply sublist_cons|done]
    | destruct Hc as (_ & (m & _ & ->) & _); by apply sublist_cons ].
Qed.

Lemma call_step_items c pc q ch q' t' new evs :
  locs_ok q (TCall c [] pc) -> ~ sends_now (TCall c [] pc) ->
  call_step cfg c pc q ch = Some (q', t', new, evs) ->
  items q' c = items q c /\ ~ sends_now t'.
Proof.
  intros Hloc Hsn H.
  assert (forall m, m ∈ pc_msgs (TCall c [] pc) -> (m_lifecycle m < length (q_heap q))%nat) as Hl
    by (intros; by eapply locs_ok_pc).
  unfold call_step in H.
  destruct pc; simplify_eq/=; try tauto; repeat (case_match; try discriminate H); simplify_eq/=; try tauto.
  match goal with E : accept _ _ _ = _ |- _ =>
    apply accept_spec in E as (_&->&_); [tauto|by apply Hl, list_elem_of_singleton] end.
Qed.

Lemma thread_step_sublist q done t ch q' t' new evs :
  locs_ok q t -> ~ sends_now t -> thread_step cfg q done t ch = Some (q', t', new, evs) ->
  items q' (tconv t) `sublist_of` items q (tconv t) /\ ~ sends_now t' /\ forall u, u ∈ new -> ~ sends_now u.
Proof.
  intros Hloc Hsn H. pose proof (thread_step_moves _ _ _ _ _ _ _ _ _ Hloc H) as [_ _ Hn _ _].
  split; [|split; [|intros u Hu; rewrite (Hn _ Hu); simpl; tauto]].
  all: unfold thread_step in H; destruct t as [c f st [|a acts] pc|c [|a acts] pc]; simpl in *.
  1,5: destruct (drain_step _ _ _ _ _ _ _ _) as [[[q1 t1] ev1]|] eqn:E; [|done]; simplify_eq.
  - by eapply drain_step_sublist.
  - unfold drain_step in E. repeat (case_match; try discriminate E); simplify_eq/=; tauto.
  - case_match; [|done]. by simplify_eq.
  - apply call_step_items in H as [-> _]; done.
  - case_match; [|done]. by simplify_eq.
  - case_match; [|done]. simplify_eq/=. tauto.
  - by eapply call_step_items.
  - case_match; [|done]. by simplify_eq.
Qed.

(** ** The FIFO invariant *)

Hypothesis Hsend : has_sendNow cfg = false.

Definition locs (its : list queued) : list nat := m_lifecycle <$> its.

Record fifo (s : sys) : Prop := {
  ff_callers : forall t, t ∈ s_threads s -> ~ sends_now t;
  ff_sorted : forall c, StronglySorted lt (locs (items (s_queue s) c));
  ff_bound : 0 < max cfg -> forall c, Z.of_nat (length (items (s_queue s) c)) <= max cfg;
}.

Lemma sublist_sorted l l' : l `sublist_of` l' -> StronglySorted lt l' -> StronglySorted lt l.
Proof.
  induction 1 as [|x l l' H IH|x l l' H IH]; intros Hs; [done|..].
  - apply StronglySorted_inv in Hs as [Hs Hx]. constructor; [auto|].
    rewrite Forall_forall in *. intros y Hy. apply Hx. by eapply elem_of_sublist.
  - apply StronglySorted_inv in Hs as [Hs _]. auto.
Qed.

Lemma fifo_sublist s q' done' ts' log' tr' :
  fifo s -> (forall c, items q' c `sublist_of` items (s_queue s) c) ->
  (forall t, t ∈ ts' -> ~ sends_now t) -> fifo (Sys q' done' ts' log' tr').
Proof.
  intros [Hc Hs Hb] Hi Ht. split; simpl; [done|..].
  - intros c. eapply sublist_sorted, (Hs c). by apply fmap_sublist.
  - intros Hm c. specialize (Hb Hm c). pose proof (sublist_length _ _ (Hi c)). lia.
Qed.

Lemma fifo_step s lb s' : wf s -> fifo s -> step cfg lb s = Some s' -> fifo s'.
Proof.
  intros Hwf Hff Hstep. destruct s as [q done ts log tr].
  pose proof (ff_callers _ Hff) as Hca. simpl in Hca.
  destruct lb as [c a now|c id n|c id n|c id n| | | |i ch]; simpl in Hstep.
  - destruct (EnqueueIdentified cfg c a now q) as [q' [[m spawn]|]] eqn:E; simplify_eq.
    + apply Enqueue_spec in E as (Hne&_&_&Hmax&Hi&_&_&Hl&_).
      assert (forall c0, c0 <> c -> items q' c0 = items q c0) as Hoth
        by (intros c0 ?; unfold items; by rewrite Hne).
      split; simpl.
      * intros t [Ht|[->|Ht]%elem_of_cons]%elem_of_app; [auto|simpl; tauto|].
        destruct spawn; simpl in Ht; [|by apply not_elem_of_nil in Ht].
        apply list_elem_of_singleton in Ht as ->. simpl. tauto.
      * intros c0. destruct (decide (c0 = c)) as [->|Hc0]; [|rewrite (Hoth _ Hc0); apply (ff_sorted _ Hff)].
        rewrite Hi. unfold locs. rewrite fmap_app. csimpl. apply StronglySorted_app; split_and!.
        -- intros x y (z & -> & Hz)%list_elem_of_fmap ->%list_elem_of_singleton.
           pose proof (wf_items_loc _ _ _ Hwf Hz) as Hzl. simpl in Hzl. lia.
        -- apply (ff_sorted _ Hff).
        -- repeat constructor.
      * intros Hm c0. pose proof (ff_bound _ Hff Hm c0) as Hb. simpl in Hb.
        destruct (decide (c0 = c)) as [->|Hc0]; [|by rewrite (Hoth _ Hc0)].
        rewrite Hi, length_app. simpl. specialize (Hmax Hm). lia.
    + apply Enqueue_None in E as (Hc & _). apply (fifo_sublist _ _ _ _ _ _ Hff); [|done].
      intros c'. unfold items. by rewrite Hc.
  - destruct (remove c id n q) as [q' [[[m cancel] obs]|]] eqn:E; simplify_eq.
    + apply remove_spec in E as (idx&_&_&_&Hf&Hi&_); [|intros; by eapply (wf_items_loc _ _ _ Hwf)].
      apply (fifo_sublist _ _ _ _ _ _ Hff).
      * intros c'. destruct (decide (c' = c)) as [->|Hne]; [rewrite Hi; apply sublist_remove_at|].
        by rewrite (frame_items _ _ _ _ Hf Hne).
      * intros t [Ht| ->%list_elem_of_singleton]%elem_of_app; [auto|simpl; tauto].
    + apply remove_None in E as ->. by apply (fifo_sublist _ _ _ _ _ _ Hff).
  - destruct (sendNowItem cfg c id n q) as [q' [[m cancel]|]] eqn:E; simplify_eq.
    + apply sendNowItem_spec in E as (Hc&_). congruence.
    + apply sendNowItem_None in E as ->. by apply (fifo_sublist _ _ _ _ _ _ Hff).
  - simplify_eq. destruct (Bind_spec c id n q) as (Hc & _).
    apply (fifo_sublist _ _ _ _ _ _ Hff); [|done]. intros c'. unfold items. by rewrite Hc.
  - case_match; [done|]. destruct (run_start q) as [q' sp] eqn:E. simplify_eq.
    apply run_start_spec in E as (_&_&_&_&Hc). apply (fifo_sublist _ _ _ _ _ _ Hff).
    + intros c'. by rewrite (proj1 (Hc c')).
    + intros t [Ht|(c & -> & _)%list_elem_of_fmap]%elem_of_app; [auto|simpl; tauto].
  - case_match; [|done]. simplify_eq. by apply (fifo_sublist _ _ _ _ _ _ Hff).
  - case_match; [|done]. simplify_eq. by apply (fifo_sublist _ _ _ _ _ _ Hff).
  - destruct (ts !! i) as [t|] eqn:Hi; [|done].
    destruct (thread_step cfg q done t ch) as [[[[q' t'] new] evs]|] eqn:E; simplify_eq.
    assert (t ∈ ts) as Ht by (apply list_elem_of_lookup; eauto).
    assert (locs_ok q t) as Hloc by (by apply (wf_locs_ok _ _ Hwf)).
    destruct (thread_step_sublist _ _ _ _ _ _ _ _ Hloc (Hca _ Ht) E) as (Hsub & Ht' & Hnew).
    pose proof (thread_step_moves _ _ _ _ _ _ _ _ _ Hloc E) as [Hf _ _ _ _].
    apply (fifo_sublist _ _ _ _ _ _ Hff).
    + intros c. destruct (decide (c = tconv t)) as [->|Hne]; [done|].
      by rewrite (frame_items _ _ _ _ Hf Hne).
    + intros u [(j & Hj)%list_elem_of_lookup|Hu]%elem_of_app; [|auto].
      apply list_lookup_insert_Some in Hj as [(_ & <- & _)|(_ & Hj)]; [done|].
      apply Hca, list_elem_of_lookup. eauto.
Qed.

Lemma reachable_fifo ok s : reachable cfg ok s -> fifo s.
Proof.
  induction 1 as [|s lb s' Hr IH _ Hs].
  - split; simpl; [by intros t ?%not_elem_of_nil| |]; intros; unfold items, conv; simpl;
      rewrite lookup_empty; simpl; [constructor|lia].
  - eapply fifo_step; [by eapply reachable_wf|done|done].
Qed.

(** ** Delivery order *)

(** The attempts made for a conversation, by location, newest first. *)
Definition dlv_ev (c : string) (e : event) : option nat :=
  match e with EvDeliver c' l _ => if decide (c = c') then Some l else None | _ => None end.
Definition dlv (c : string) (tr : list event) : list nat := omap (dlv_ev c) tr.

Record ordered (s : sys) : Prop := {
  od_sorted : forall c, StronglySorted ge (dlv c (s_trace s));
  od_items : forall c l m, l ∈ dlv c (s_trace s) -> m ∈ items (s_queue s) c -> (l <= m_lifecycle m)%nat;
  od_len : forall c l, l ∈ dlv c (s_trace s) -> (l < length (q_heap (s_queue s)))%nat;
  od_head : forall i c f st acts h att cl,
    s_threads s !! i = Some (TDrain c f st acts (DDeliver h att cl)) ->
    (forall m, m ∈ items (s_queue s) c -> (m_lifecycle h <= m_lifecycle m)%nat)
    /\ (forall l, l ∈ dlv c (s_trace s) -> (l <= m_lifecycle h)%nat);
}.

Lemma dlv_app c e tr : dlv c (e ++ tr) = dlv c e ++ dlv c tr.
Proof. apply omap_app. Qed.

(** What one thread step attempts, and which head it may come to hold. *)
Definition attempt_step (t t' : thread) (q' : Queue) (evs : list event) : Prop :=
  ((forall c, dlv c evs = []) \/
   exists c f st h att cl acts err, t = TDrain c f st acts (DDeliver h att cl)
     /\ evs = [EvDeliver c (m_lifecycle h) err] /\ pc_msgs t' = [h]
     /\ forall f st acts h att cl, t' <> TDrain c f st acts (DDeliver h att cl))
  /\ forall c f st acts h att cl, t' = TDrain c f st acts (DDeliver h att cl) ->
       (exists f' st' acts' cl', t = TDrain c f' st' acts' (DDeliver h att cl'))
       \/ exists r, items q' c = h :: r.

Lemma fire_no_attempt c c' q a : dlv c (fire cfg c' q a) = [].
Proof. destruct a; simpl; repeat case_match; done. Qed.

Lemma thread_step_attempt q done t ch q' t' new evs :
  thread_step cfg q done t ch = Some (q', t', new, evs) -> attempt_step t t' q' evs.
Proof.
  intros H. unfold thread_step in H.
  destruct t as [c f st [|a acts] pc|c [|a acts] pc]; simpl in *.
  - destruct (drain_step _ _ _ _ _ _ _ _) as [[[q1 t1] ev1]|] eqn:E; [|done]. simplify_eq.
    unfold drain_step in E. destruct pc; simplify_eq/=; repeat (case_match; try discriminate E);
      simplify_eq/=; (split; [first [by left | right; by repeat eexists]|]); intros; simplify_eq; eauto 10.
    right. match goal with E : drain_peek _ _ = _ |- _ => apply drain_peek_Some in E as (_&_&[r Hr]&->&_) end.
    eauto.
  - case_match; [|done]. simplify_eq. split; [left; intros; apply fire_no_attempt|].
    intros; simplify_eq; eauto 10.
  - unfold call_step in H. destruct pc; simplify_eq/=; repeat (case_match; try discriminate H);
      simplify_eq/=; (split; [by left|by intros]).
  - case_match; [|done]. simplify_eq. split; [left; intros; apply fire_no_attempt|by intros].
Qed.

(** Steps that attempt nothing and only shrink the FIFOs. *)
Lemma ordered_shrink s q' done' ts' log' tr' new :
  ordered s -> (forall c, items q' c `sublist_of` items (s_queue s) c) ->
  length (q_heap q') = length (q_heap (s_queue s)) ->
  ts' = s_threads s ++ new -> (forall u, u ∈ new -> pc_msgs u = [] \/ exists c acts pc, u = TCall c acts pc) ->
  (forall c, dlv c tr' = dlv c (s_trace s)) ->
  ordered (Sys q' done' ts' log' tr').
Proof.
  intros [Ho Hi Hl Hh] Hs Hlen -> Hn Ht. split; simpl.
  - intros c. rewrite Ht. apply Ho.
  - intros c l m. rewrite Ht. intros ? Hm. apply (Hi c); [done|]. by eapply elem_of_sublist.
  - intros c l. rewrite Ht, Hlen. apply Hl.
  - intros i c f st acts h att cl Hj. apply lookup_app_Some in Hj as [Hj|[_ Hj]].
    + destruct (Hh _ _ _ _ _ _ _ _ Hj) as [Hm Hd]. split; [|by rewrite Ht].
      intros m Hin. apply Hm. by eapply elem_of_sublist.
    + destruct (Hn _ (list_elem_of_lookup_2 _ _ _ Hj)) as [?|(?&?&?&?)]; done.
Qed.

Lemma sorted_head c q h r m :
  StronglySorted lt (locs (items q c)) -> items q c = h :: r -> m ∈ items q c ->
  (m_lifecycle h <= m_lifecycle m)%nat.
Proof.
  intros Hs Hr. rewrite Hr in *. unfold locs in Hs. csimpl in Hs.
  apply StronglySorted_inv in Hs as [_ Hf]. rewrite Forall_forall in Hf.
  intros [->|Hm]%elem_of_cons; [lia|]. assert (m_lifecycle h < m_lifecycle m)%nat; [|lia].
  apply Hf. by apply list_elem_of_fmap_2.
Qed.

Lemma ordered_thread_step s i ch t q' t' new evs :
  wf s -> fifo s -> serial s -> ordered s -> s_threads s !! i = Some t ->
  thread_step cfg (s_queue s) (s_done s) t ch = Some (q', t', new, evs) ->
  ordered (Sys q' (s_done s) (<[i:=t']> (s_threads s) ++ new) (s_log s) (evs ++ s_trace s)).
Proof.
  intros Hwf Hff Hser Hod Hi H.
  assert (t ∈ s_threads s) as Ht by (apply list_elem_of_lookup; eauto).
  assert (locs_ok (s_queue s) t) as Hloc by (by apply wf_locs_ok).
  pose proof (thread_step_attempt _ _ _ _ _ _ _ _ H) as [Hev Hnh].
  destruct (thread_step_sublist _ _ _ _ _ _ _ _ Hloc (ff_callers _ Hff _ Ht) H) as (Hsub & _).
  pose proof (thread_step_moves _ _ _ _ _ _ _ _ _ Hloc H) as [Hf Htc Hnd _ _].
  assert (forall c, items q' c `sublist_of` items (s_queue s) c) as Hsubs.
  { intros c. destruct (decide (c = tconv t)) as [->|Hne]; [done|]. by rewrite (frame_items _ _ _ _ Hf Hne). }
  assert (forall c m, m ∈ items q' c -> m ∈ items (s_queue s) c) as Hin
    by (intros; by eapply elem_of_sublist).
  (* what an attempt adds is at least every earlier one and at most every item *)
  assert (forall c l, l ∈ dlv c evs -> exists f st h att cl acts, t = TDrain c f st acts (DDeliver h att cl)
            /\ l = m_lifecycle h /\ dlv c evs = [l] /\ (forall f st acts h att cl, t' <> TDrain c f st acts (DDeliver h att cl))) as Hat.
  { intros c l Hl. destruct Hev as [Hev|(c0&f&st&h&att&cl&acts&err&->&->&_&Hno)];
      [rewrite Hev in Hl; by apply not_elem_of_nil in Hl|].
    unfold dlv in *. simpl in *. destruct (decide (c = c0)) as [->|]; [|by apply not_elem_of_nil in Hl].
    apply list_elem_of_singleton in Hl as ->. eauto 12. }
  split; simpl.
  - intros c. rewrite dlv_app. destruct (dlv c evs) as [|l ls] eqn:E; [apply Hod|].
    destruct (Hat c l) as (f&st&h&att&cl&acts&->&->&Hone&_); [rewrite E; by left|].
    rewrite E in Hone. injection Hone as ->. simpl. constructor; [apply Hod|].
    rewrite Forall_forall. intros l Hl. by apply (od_head _ Hod _ _ _ _ _ _ _ _ Hi).
  - intros c l m. rewrite dlv_app, elem_of_app. intros [Hl|Hl] Hm%Hin; [|by eapply od_items].
    destruct (Hat c l Hl) as (f&st&h&att&cl&acts&->&->&_). by apply (od_head _ Hod _ _ _ _ _ _ _ _ Hi).
  - intros c l. rewrite dlv_app, elem_of_app, (proj1 (proj2 Hf)). intros [Hl|Hl]; [|by eapply od_len].
    destruct (Hat c l Hl) as (f&st&h&att&cl&acts&->&->&_). eapply locs_ok_pc; [done|].
    by apply list_elem_of_singleton.
  - intros j c f st acts h att cl Hj. apply lookup_app_Some in Hj as [Hj|[_ Hj]].
    2: { pose proof (Hnd _ (list_elem_of_lookup_2 _ _ _ Hj)) as E. discriminate E. }
    apply list_lookup_insert_Some in Hj as [(<- & -> & _)|(Hne & Hj)].
    + assert (dlv c evs = []) as Hz.
      { destruct (dlv c evs) as [|l ls] eqn:E; [done|]. destruct (Hat c l) as (?&?&?&?&?&?&_&_&_&Hno);
          [rewrite E; by left|]. by destruct (Hno f st acts h att cl). }
      rewrite dlv_app, Hz. simpl.
      destruct (Hnh _ _ _ _ _ _ _ eq_refl) as [(f'&st'&acts'&cl'&->)|[r Hr]].
      * destruct (od_head _ Hod _ _ _ _ _ _ _ _ Hi) as [Hm Hd]. split; [auto|done].
      * assert (m_lifecycle h ∈ locs (items q' c) /\ h ∈ items (s_queue s) c) as [_ Hh].
        { split; [rewrite Hr; csimpl; by left|]. apply Hin. rewrite Hr. by left. }
        split; [|intros l Hl; by eapply od_items].
        intros m Hm. eapply sorted_head; [|done|done]. eapply sublist_sorted, (ff_sorted _ Hff c).
        by apply fmap_sublist.
    + destruct (od_head _ Hod _ _ _ _ _ _ _ _ Hj) as [Hm Hd]. split; [auto|].
      intros l. rewrite dlv_app, elem_of_app. intros [Hl|Hl]; [|auto]. destruct Hne.
      destruct (Hat c l Hl) as (f0&st0&h0&att0&cl0&acts0&->&_).
      by eapply (serial_unique s c i j).
Qed.

Lemma dlv_ret c c' r tr : dlv c (EvReturn c' r :: tr) = dlv c tr.
Proof. done. Qed.

Lemma ordered_enqueue q done ts log tr c a now q' m spawn :
  wf (Sys q done ts log tr) -> ordered (Sys q done ts log tr) ->
  EnqueueIdentified cfg c a now q = (q', Some (m, spawn)) ->
  ordered (Sys q' done (ts ++ TCall c [] (EAccept m) :: opt_drain c spawn) (log ++ [(c, m)]) tr).
Proof.
  intros Hwf [Ho Hit Hl Hh] E. apply Enqueue_spec in E as (Hne&_&_&_&Hi&_&_&Hlm&Hheap&_). simpl in *.
  assert (forall c0 x, x ∈ items q' c0 -> x ∈ items q c0 \/ x = m) as Hin.
  { intros c0 x. destruct (decide (c0 = c)) as [->|?]; [rewrite Hi, elem_of_app|unfold items; rewrite Hne by done; auto].
    intros [?| ->%list_elem_of_singleton]; auto. }
  split; simpl; [done|..].
  - intros c0 l x Hll [Hx| ->]%Hin; [by eapply Hit|]. pose proof (Hl _ _ Hll). lia.
  - intros c0 l Hll. rewrite Hheap, length_app. pose proof (Hl _ _ Hll). lia.
  - intros i c0 f st acts h att cl Hj. apply lookup_app_Some in Hj as [Hj|[_ Hj]].
    + destruct (Hh _ _ _ _ _ _ _ _ Hj) as [Hm Hd]. split; [|done].
      intros x [Hx| ->]%Hin; [auto|]. assert (m_lifecycle h < length (q_heap q))%nat; [|lia].
      eapply (wf_locs_ok _ _ Hwf (list_elem_of_lookup_2 _ _ _ Hj)). unfold tmsgs. apply elem_of_app.
      right. by apply list_elem_of_singleton.
    + apply list_elem_of_lookup_2 in Hj. apply elem_of_cons in Hj as [?|Hj]; [done|].
      destruct spawn; simpl in Hj; [by apply list_elem_of_singleton in Hj|by apply not_elem_of_nil in Hj].
Qed.

Lemma ordered_step s lb s' :
  wf s -> fifo s -> serial s -> ordered s -> step cfg lb s = Some s' -> ordered s'.
Proof.
  intros Hwf Hff Hser Hod Hstep. destruct s as [q done ts log tr].
  destruct lb as [c a now|c id n|c id n|c id n| | | |i ch]; simpl in Hstep.
  - destruct (EnqueueIdentified cfg c a now q) as [q' [[m spawn]|]] eqn:E; simplify_eq.
    + by eapply ordered_enqueue.
    + apply Enqueue_None in E as (Hc & Hh & _).
      apply (ordered_shrink _ _ _ _ _ _ [] Hod); [|by rewrite Hh|by rewrite app_nil_r|by intros ? ?%not_elem_of_nil|done].
      intros c'. unfold items. by rewrite Hc.
  - destruct (remove c id n q) as [q' [[[m cancel] obs]|]] eqn:E; simplify_eq.
    + apply remove_spec in E as (idx&_&_&_&Hf&Hi&_); [|intros; by eapply (wf_items_loc _ _ _ Hwf)].
      eapply (ordered_shrink _ _ _ _ _ _ _ Hod); [|apply Hf|done| |done].
      * intros c'. destruct (decide (c' = c)) as [->|Hne]; [rewrite Hi; apply sublist_remove_at|].
        by rewrite (frame_items _ _ _ _ Hf Hne).
      * intros u ->%list_elem_of_singleton. right. eauto.
    + apply remove_None in E as ->.
      by apply (ordered_shrink _ _ _ _ _ _ [] Hod); rewrite ?app_nil_r; try done; intros ? ?%not_elem_of_nil.
  - destruct (sendNowItem cfg c id n q) as [q' [[m cancel]|]] eqn:E; simplify_eq.
    + apply sendNowItem_spec in E as (Hc&_). congruence.
    + apply sendNowItem_None in E as ->.
      by apply (ordered_shrink _ _ _ _ _ _ [] Hod); rewrite ?app_nil_r; try done; intros ? ?%not_elem_of_nil.
  - simplify_eq. destruct (Bind_spec c id n q) as (Hc & Hh & _).
    apply (ordered_shrink _ _ _ _ _ _ [] Hod); [|done|by rewrite app_nil_r|by intros ? ?%not_elem_of_nil|done].
    intros c'. unfold items. by rewrite Hc.
  - case_match; [done|]. destruct (run_start q) as [q' sp] eqn:E. simplify_eq.
    apply run_start_spec in E as (Hh&_&_&_&Hc).
    eapply (ordered_shrink _ _ _ _ _ _ _ Hod); [|by rewrite Hh|done| |done].
    + intros c'. by rewrite (proj1 (Hc c')).
    + intros u (c & -> & _)%list_elem_of_fmap. by left.
  - case_match; [|done]. simplify_eq.
    by apply (ordered_shrink _ _ _ _ _ _ [] Hod); rewrite ?app_nil_r; try done; intros ? ?%not_elem_of_nil.
  - case_match; [|done]. simplify_eq.
    by apply (ordered_shrink _ _ _ _ _ _ [] Hod); rewrite ?app_nil_r; try done; intros ? ?%not_elem_of_nil.
  - destruct (ts !! i) as [t|] eqn:Hi; [|done].
    destruct (thread_step cfg q done t ch) as [[[[q' t'] new] evs]|] eqn:E; simplify_eq.
    by apply (ordered_thread_step (Sys q done ts log tr) i ch t q' t' new evs).
Qed.

Lemma reachable_ordered ok s : reachable cfg ok s -> ordered s.
Proof.
  induction 1 as [|s lb s' Hr IH _ Hs].
  - split; simpl; try (by intros ? ? ?%not_elem_of_nil); try done; [intros; constructor|].
    intros ? ? ? ?%not_elem_of_nil. done.
  - eapply ordered_step; [by eapply reachable_wf|by eapply reachable_fifo|by eapply reachable_serial|done|done].
Qed.

End order.
#[local] Transparent EnqueueIdentified reinsert.

Lemma spawn_draining c x q y b :
  maybeSpawnDrainLocked c x q = (y, b) ->
  q_started q = true -> q_closed q = false -> cq_items x <> [] -> cq_draining y = true.
Proof.
  unfold maybeSpawnDrainLocked. intros H Hs Hc Hi. rewrite Hs, Hc, bool_decide_eq_false_2 in H by done.
  destruct (cq_draining x) eqn:Hd; simpl in H; by simplify_eq.
Qed.

Lemma Enqueue_draining cfg c a now q q' m spawn :
  EnqueueIdentified cfg c a now q = (q', Some (m, spawn)) ->
  q_started q = true -> q_closed q = false -> draining q' c = true.
Proof.
  unfold EnqueueIdentified. case_match; [done|]. intros H' Hs Hc.
  destruct (maybeSpawnDrainLocked _ _ _) as [y b] eqn:E. injection H' as <- <- <-.
  unfold draining. rewrite conv_put_eq. eapply spawn_draining; [done|done|done|].
  destruct (has_onAccepted cfg); simpl; by intros []%app_nil.
Qed.

Lemma reinsert_draining c m q q' b :
  reinsert c m q = (q', b) -> q_started q = true -> q_closed q = false ->
  items q' c <> [] -> draining q' c = true.
Proof.
  unfold reinsert. destruct (q_convs q !! c) as [x|] eqn:Hx.
  - destruct (maybeSpawnDrainLocked _ _ _) as [y b'] eqn:E. intros [= <- <-] Hs Hc Hi.
    unfold draining, items in *. rewrite conv_put_eq in *. eapply spawn_draining; [done|done|done|].
    by apply spawn_items in E as (<- & _).
  - intros [= <- <-] _ _. unfold items, draining, conv. by rewrite Hx.
Qed.

#[local] Opaque EnqueueIdentified reinsert.

Section wake.
Context (cfg : Config).

(** ** Wakeups *)

Definition exiting (t : thread) : Prop :=
  match t with TDrain _ _ _ _ DExitLocked => True | _ => False end.

Definition gave_up (c : string) (tr : list event) : Prop := exists l, EvAbandon c l ∈ tr.

Record awake (s : sys) : Prop := {
  aw_closed : q_closed (s_queue s) = true -> s_done s = true;
  aw_exit : forall t, t ∈ s_threads s -> exiting t -> s_done s = true;
  aw_drain : q_started (s_queue s) = true -> s_done s = false -> forall c,
    items (s_queue s) c <> [] -> draining (s_queue s) c = true \/ gave_up c (s_trace s);
}.

Lemma awake_same s q' done' ts' log' tr' new evs :
  awake s -> (forall c, items (s_queue s) c = [] -> items q' c = []) ->
  (forall c, draining q' c = draining (s_queue s) c) ->
  q_started q' = q_started (s_queue s) -> (q_closed q' = true -> done' = true) ->
  (s_done s = true -> done' = true) ->
  ts' = s_threads s ++ new -> (forall u, u ∈ new -> ~ exiting u) -> tr' = evs ++ s_trace s ->
  awake (Sys q' done' ts' log' tr').
Proof.
  intros [Hc He Hw] Hi Hd Hs Hcl Hdn -> Hn ->. split; simpl.
  - done.
  - intros t [Ht|Ht]%elem_of_app Hx; [by eapply Hdn, He|]. by destruct (Hn _ Ht).
  - rewrite Hs. intros Hst Hdone c Hne. rewrite Hd.
    assert (s_done s = false) as Hsd by (destruct (s_done s); [by rewrite Hdn in Hdone|done]).
    destruct (Hw Hst Hsd c ltac:(auto)) as [?|[l Hl]]; [by left|]. right. exists l. apply elem_of_app. auto.
Qed.

(** A drain leaves [draining] only with nothing to do, or after giving up, or
    at shutdown. *)
Lemma drain_step_awake c f st pc q done ch q' t' evs :
  locs_ok q (TDrain c f st [] pc) -> (pc = DExitLocked -> done = true) ->
  drain_step cfg c f st pc q done ch = Some (q', t', evs) ->
  (exiting t' -> done = true)
  /\ (draining q c = true -> done = false -> items q' c <> [] ->
      draining q' c = true \/ gave_up c evs).
Proof.
  intros Hloc Hex H.
  assert (forall m, m ∈ pc_msgs (TDrain c f st [] pc) -> (m_lifecycle m < length (q_heap q))%nat) as Hl
    by (intros; by eapply locs_ok_pc).
  unfold drain_step in H.
  destruct pc; simplify_eq/=; repeat (case_match; try discriminate H); simplify_eq/=.
  all: split; [first [done|tauto]|]; intros Hd Hdn Hi; try (by left); try (specialize (Hex eq_refl); congruence).
  all: lazymatch goal with
  | E : drain_peek _ _ = (_, Some _) |- _ => apply drain_peek_Some in E as (_&_&_&_&->&_); by left
  | E : drain_peek _ _ = (_, None) |- _ => apply drain_peek_None in E as (_&_&_&Hi'&_); done
  | E : commitGate _ _ _ = _ |- _ => apply commitGate_spec in E as (_&_&_&->&_); by left
  | E : drain_settle _ _ _ _ _ = _ |- _ =>
      apply drain_settle_spec in E as (_&->&_); [by left|by apply Hl, list_elem_of_singleton]
  | E : giveUp _ _ _ = (_, None) |- _ =>
      apply giveUp_spec in E as (_&_&_&_&_&_&->); [by left|by apply Hl, list_elem_of_singleton]
  | E : giveUp _ _ _ = (_, Some _) |- _ => right; eexists; by left
  end.
Qed.

Lemma thread_step_awake q done t ch q' t' new evs :
  locs_ok q t -> q_started q = true -> q_closed q = false -> done = false -> (exiting t -> done = true) ->
  (items q (tconv t) <> [] -> draining q (tconv t) = true) ->
  (wD (tconv t) t <= Nat.b2n (draining q (tconv t)))%nat ->
  thread_step cfg q done t ch = Some (q', t', new, evs) ->
  items q' (tconv t) <> [] -> draining q' (tconv t) = true \/ gave_up (tconv t) evs.
Proof.
  intros Hloc Hs Hc Hdn Hex Hw Hd H Hi. unfold thread_step in H.
  destruct t as [c f st [|a acts] pc|c [|a acts] pc]; simpl in *.
  - destruct (drain_step _ _ _ _ _ _ _ _) as [[[q1 t1] ev1]|] eqn:E; [|done]. simplify_eq.
    pose proof E as E'. eapply drain_step_awake in E as [_ Ha]; [|done|by intros ->; apply Hex].
    destruct (draining q c) eqn:Hdr; [auto|].
    destruct pc; simpl in Hd; rewrite decide_True in Hd by done; simpl in Hd; try lia.
    by destruct ch.
  - case_match; [|done]. simplify_eq. left. auto.
  - assert (forall m, m ∈ pc_msgs (TCall c [] pc) -> (m_lifecycle m < length (q_heap q))%nat) as Hl
      by (intros; by eapply locs_ok_pc).
    unfold call_step in H. destruct pc; simplify_eq/=; repeat (case_match; try discriminate H); simplify_eq/=;
      try (left; by auto).
    + match goal with E : accept _ _ _ = _ |- _ =>
        apply accept_spec in E as (_&Hi'&->&_); [|by apply Hl, list_elem_of_singleton] end.
      rewrite Hi' in Hi. auto.
    + match goal with E : resolveLocked ?m ?o ?b ?q = _ |- _ =>
        pose proof (conv_resolve m o b q c) as Hcv; rewrite E in Hcv; simpl in Hcv end.
      unfold items, draining in *. rewrite Hcv in *. auto.
    + left. by eapply reinsert_draining.
  - case_match; [|done]. simplify_eq. left. auto.
Qed.

Lemma awake_step s lb s' :
  wf s -> serial s -> awake s -> step cfg lb s = Some s' -> awake s'.
Proof.
  intros Hwf Hser Haw Hstep. destruct s as [q done ts log tr].
  pose proof Haw as [Hcl Hex Hdr]. simpl in Hcl, Hex, Hdr.
  destruct lb as [c a now|c id n|c id n|c id n| | | |i ch]; simpl in Hstep.
  - destruct (EnqueueIdentified cfg c a now q) as [q' [[m spawn]|]] eqn:E; simplify_eq.
    + pose proof E as E'. apply Enqueue_spec in E' as (Hne&Hs&Hc&_).
      split; simpl; [by rewrite Hc| |].
      * intros t [Ht|[->|Ht]%elem_of_cons]%elem_of_app Hx; [by eapply Hex|done|].
        destruct spawn; simpl in Ht; [by apply list_elem_of_singleton in Ht as ->|by apply not_elem_of_nil in Ht].
      * rewrite Hs. intros Hst Hdn c' Hi. destruct (decide (c' = c)) as [->|Hn].
        -- left. eapply Enqueue_draining; [done|done|]. destruct (q_closed q); [|done].
           by rewrite Hcl in Hdn.
        -- unfold items, draining in *. rewrite Hne in * by done. by apply Hdr.
    + apply Enqueue_None in E as (Hc & _ & _ & Hs & Hq).
      apply (awake_same _ _ _ _ _ _ [] [EvReturn c (REnqueue 0)] Haw); simpl; rewrite ?Hs, ?Hq, ?app_nil_r; try done;
        [by intros c'; unfold items; rewrite Hc|by intros c'; unfold draining; rewrite Hc
        |by intros ? ?%not_elem_of_nil].
  - destruct (remove c id n q) as [q' [[[m cancel] obs]|]] eqn:E; simplify_eq.
    + apply remove_spec in E as (idx&_&_&_&Hf&Hi&Hd&_); [|intros; by eapply (wf_items_loc _ _ _ Hwf)].
      pose proof Hf as (_ & _ & Hs & Hq).
      eapply (awake_same _ _ _ _ _ _ _ [] Haw); simpl; rewrite ?Hs, ?Hq; try done.
      * intros c' Hc'. destruct (decide (c' = c)) as [->|Hne].
        -- rewrite Hi, Hc'. by destruct idx.
        -- by rewrite (frame_items _ _ _ _ Hf Hne).
      * intros c'. by eapply frame_draining.
      * intros u ->%list_elem_of_singleton. simpl. tauto.
    + apply remove_None in E as ->.
      apply (awake_same _ _ _ _ _ _ [] [EvReturn c (RRemove id false)] Haw); rewrite ?app_nil_r; try done. by intros ? ?%not_elem_of_nil.
  - destruct (sendNowItem cfg c id n q) as [q' [[m cancel]|]] eqn:E; simplify_eq.
    + apply sendNowItem_spec in E as (_&_&idx&_&_&_&Hf&Hi&_&Hd&_).
      pose proof Hf as (_ & _ & Hs & Hq).
      eapply (awake_same _ _ _ _ _ _ _ [] Haw); simpl; rewrite ?Hs, ?Hq; try done.
      * intros c' Hc'. destruct (decide (c' = c)) as [->|Hne].
        -- rewrite Hi, Hc'. by destruct idx.
        -- by rewrite (frame_items _ _ _ _ Hf Hne).
      * intros c'. by eapply frame_draining.
      * intros u ->%list_elem_of_singleton. simpl. tauto.
    + apply sendNowItem_None in E as ->.
      apply (awake_same _ _ _ _ _ _ [] [EvReturn c (RSendNow id false)] Haw); rewrite ?app_nil_r; try done. by intros ? ?%not_elem_of_nil.
  - simplify_eq. destruct (Bind_spec c id n q) as (Hc & _ & _ & Hs & Hq & _).
    apply (awake_same _ _ _ _ _ _ [] [] Haw); simpl; rewrite ?Hs, ?Hq, ?app_nil_r; try done;
      [by intros c'; unfold items; rewrite Hc|by intros c'; unfold draining; rewrite Hc
      |by intros ? ?%not_elem_of_nil].
  - case_match; [done|]. destruct (run_start q) as [q' sp] eqn:E. simplify_eq.
    pose proof E as E'. apply run_start_spec in E' as (_&_&Hq&_&Hc).
    split; simpl; [by rewrite Hq| |].
    + intros t [Ht|(c & -> & _)%list_elem_of_fmap]%elem_of_app Hx; [by eapply Hex|done].
    + intros _ Hdn c Hi. left. rewrite (proj1 (Hc c)) in Hi. unfold draining.
      rewrite (run_start_conv _ _ _ c E). case_decide as Hin; [done|].
      destruct (cq_draining (conv q c)) eqn:Hd; [done|]. destruct Hin.
      apply (run_start_spawned _ _ _ c E). unfold items, conv in *.
      destruct (q_convs q !! c) as [x|]; [|done]. exists x. repeat split; try done.
      destruct (q_closed q); [by rewrite Hcl in Hdn|done].
  - case_match; [|done]. simplify_eq. split; simpl; [done|done|]. by intros _ ?.
  - case_match eqn:E; [|done]. simplify_eq. apply andb_true_iff in E as [_ Hdn]. simpl in Hdn. subst.
    by split.
  - destruct (ts !! i) as [t|] eqn:Hi; [|done].
    destruct (thread_step cfg q done t ch) as [[[[q' t'] new] evs]|] eqn:E; simplify_eq.
    assert (t ∈ ts) as Ht by (apply list_elem_of_lookup; eauto).
    assert (locs_ok q t) as Hloc by (by apply (wf_locs_ok _ _ Hwf)).
    pose proof (thread_step_moves _ _ _ _ _ _ _ _ _ Hloc E) as [Hf Htc Hnd _ _].
    pose proof Hf as (Hfc & _ & Hs & Hq).
    split; simpl.
    + by rewrite Hq.
    + intros u [(j & Hj)%list_elem_of_lookup|Hu]%elem_of_app Hx; [|by rewrite (Hnd _ Hu) in Hx].
      apply list_lookup_insert_Some in Hj as [(_ & <- & _)|(_ & Hj)];
        [|by eapply Hex; [apply list_elem_of_lookup; eauto|]].
      unfold thread_step in E. destruct t as [c f st [|a acts] pc|c [|a acts] pc]; simpl in E.
      * destruct (drain_step _ _ _ _ _ _ _ _) as [[[q1 t1] ev1]|] eqn:Ed; [|done]. simplify_eq.
        eapply drain_step_awake; [exact Hloc| |exact Ed|done]. intros ->. by eapply Hex.
      * case_match; [|done]. simplify_eq. destruct pc; try done. by eapply Hex.
      * destruct t' as [? ? ? ? pc'|]; [|done]. unfold call_step in E.
        destruct pc; simplify_eq/=; repeat (case_match; try discriminate E).
      * case_match; [|done]. by simplify_eq.
    + rewrite Hs. intros Hst Hdn c Hit.
      destruct (decide (c = tconv t)) as [->|Hne].
      2: { unfold items, draining in *. rewrite Hfc in * by done.
           destruct (Hdr Hst Hdn c Hit) as [?|[l ?]]; [by left|right; exists l; apply elem_of_app; auto]. }
      destruct (decide (items q (tconv t) <> [] /\ draining q (tconv t) = false)) as [[Hi0 Hd0]|Hok].
      * destruct (Hdr Hst Hdn _ Hi0) as [?|[l ?]]; [congruence|right; exists l; apply elem_of_app; auto].
      * enough (draining q' (tconv t) = true \/ gave_up (tconv t) evs) as [?|[l ?]];
          [by left|right; exists l; apply elem_of_app; auto|].
        eapply thread_step_awake; [done|done| |done|by eapply Hex| | |done|done].
        -- destruct (q_closed q); [by rewrite Hcl in Hdn|done].
        -- intros Hi0. destruct (draining q (tconv t)) eqn:Hd0; [done|]. by destruct Hok.
        -- pose proof (Hser (tconv t)) as Hc. simpl in Hc. rewrite <- Hc. by eapply sum_list_pos.
Qed.

Lemma reachable_awake ok s : reachable cfg ok s -> awake s.
Proof.
  induction 1 as [|s lb s' Hr IH _ Hs].
  - split; simpl; try done. by intros t ?%not_elem_of_nil.
  - eapply awake_step; [by eapply reachable_wf|by eapply reachable_serial|done|done].
Qed.

End wake.
End MsgQueueOrder.
