(* ===== verification/MsgQueueProps.v ===== *)
(** * What the message queue promises

    The properties of [internal/msgqueue] over every interleaving of its
    goroutines, each with a run that exercises it, and three runs in which
    the code leaves the behaviour its comments describe. *)
From stdpp Require Import prelude gmap strings list sorting.
From S2P Require Import Prelude MsgQueue MsgQueueSystem MsgQueueInv MsgQueueSafety MsgQueueDrain.
From S2P Require Import MsgQueueCommit MsgQueueLedger MsgQueueOrder.

Module MsgQueueProps.
Import MsgQueue MsgQueueSystem MsgQueueInv MsgQueueSafety MsgQueueDrain MsgQueueCommit
  MsgQueueLedger MsgQueueOrder.

Local Open Scope Z_scope.

(** ** Concrete runs *)

(** [gate_contract] as a test, and runs every step of which passes it. *)
Definition gate_ok (lb : label) (s : sys) : bool :=
  match lb with
  | LThread i (CReturn None) =>
      match s_threads s !! i with
      | Some (TDrain _ _ _ [] (DDeliver _ _ claim)) => bool_decide (claim = Some true)
      | _ => true
      end
  | _ => true
  end.

Fixpoint run_ok (cfg : Config) (lbs : list label) (s : sys) : bool :=
  match lbs with
  | [] => true
  | lb :: lbs =>
      gate_ok lb s && match step cfg lb s with Some s => run_ok cfg lbs s | None => false end
  end.

Definition final (cfg : Config) (lbs : list label) : sys :=
  default (init empty_queue) (run cfg lbs (init empty_queue)).

Lemma gate_ok_contract lb s : gate_ok lb s = true -> gate_contract lb s.
Proof.
  unfold gate_ok, gate_contract. intros H. repeat case_match; try done. by reflect_bools.
Qed.

Lemma run_ok_reachable cfg lbs s s0 :
  reachable cfg gate_contract s0 -> run_ok cfg lbs s0 = true -> run cfg lbs s0 = Some s ->
  reachable cfg gate_contract s.
Proof.
  revert s0. induction lbs as [|lb lbs IH]; intros s0 Hr Hok Hrun; simpl in *; [congruence|].
  apply andb_true_iff in Hok as [Hg Hok]. destruct (step cfg lb s0) as [s1|] eqn:E; [|done].
  eapply IH; [|done|done]. eapply reach_step; [done|by apply gate_ok_contract|done].
Qed.

Lemma final_reachable cfg lbs :
  run_ok cfg lbs (init empty_queue) = true -> reachable cfg gate_contract (final cfg lbs).
Proof.
  intros Hok. unfold final. destruct (run cfg lbs (init empty_queue)) as [s|] eqn:E; [|apply reach_init].
  eapply run_ok_reachable; [apply reach_init|done|done].
Qed.

Definition demo_cfg (send : bool) (bound : Z) : Config :=
  MkConfig bound second (2 * minute) true true true true true None send.
Definition msg (t : string) : enqueue_args := EnqueueArgs "m" t t [] "d" "phone" "1.0" 0.
Definition go (i : nat) : label := LThread i CGo.

(** Two messages: the first delivered, the second removed while it waits. *)
Definition demo : list label :=
  [LRunStart; LEnqueue "c" (msg "a") 1; LEnqueue "c" (msg "b") 2;   (* callers 0, 2; drain 1 *)
   go 0; go 0; go 0; go 0; go 2; go 2; go 2; go 2;
   go 1; LThread 1 CGate; LThread 1 (CReturn None); go 1; go 1; go 1; go 1;
   go 1; LRemove "c" 2 0; go 3; go 3; go 3; LThread 1 (CReturn (Some "cancelled")); go 1; go 1; go 1; go 1].

Example demo_runs :
  run_ok (demo_cfg false 100) demo (init empty_queue) = true
  /\ s_trace (final (demo_cfg false 100) demo) <> []
  /\ outcome (s_queue (final (demo_cfg false 100) demo)) 0 = Some TerminalDelivered
  /\ outcome (s_queue (final (demo_cfg false 100) demo)) 1 = Some TerminalRemoved.
Proof. vm_compute. repeat split; discriminate. Qed.

Definition demo_state : sys := final (demo_cfg false 100) demo.

Lemma demo_reachable : reachable (demo_cfg false 100) gate_contract demo_state.
Proof. apply final_reachable. by vm_compute. Qed.

(** ** Properties *)

Section claims.
Context (cfg : Config).

(** A set [draining] flag has its drain. *)
Lemma serial_has_drain s c :
  serial s -> draining (s_queue s) c = true ->
  exists i f st acts pc, s_threads s !! i = Some (TDrain c f st acts pc) /\ drain_live pc = true.
Proof.
  intros Hser Hd. specialize (Hser c). rewrite Hd in Hser.
  destruct (sum_list_nonzero (wD c) (s_threads s)) as (i & t & Hi & Ht); [rewrite Hser; done|].
  destruct t as [c' f st acts pc|]; simpl in Ht; [|done]. case_decide; [subst|done].
  exists i, f, st, acts, pc. split; [done|]. by destruct (drain_live pc).
Qed.

(** At most one successful write is unsettled, of a message not gone. *)
Lemma writes_settling s l :
  reachable cfg gate_contract s -> small s ->
  sum_list_with (wW l) (s_threads s) = 0%nat
  \/ (sum_list_with (wW l) (s_threads s) = 1%nat /\ gone (s_queue s) l = false).
Proof.
  intros Hs Hsmall. pose proof (reachable_wf cfg _ s Hs) as Hwf.
  pose proof (reachable_ledger cfg s Hs Hsmall) as Hlg.
  pose proof (reachable_claimed cfg s Hs Hsmall) as Hcl.
  pose proof (reachable_serial cfg _ s Hs) as Hser.
  destruct (decide (sum_list_with (wW l) (s_threads s) = 0%nat)) as [|Hnz]; [by left|right].
  destruct (sum_list_nonzero _ _ Hnz) as (i & t & Hi & Ht).
  assert (t ∈ s_threads s) as Hin by (apply list_elem_of_lookup; eauto).
  pose proof (wW_pos _ _ Ht) as (m & Hm & Hml). pose proof (pc_msgs_log _ _ _ Hwf Hin Hm) as Hlog.
  rewrite Hml in Hlog. pose proof (lg_one _ Hlg _ _ _ Hlog) as Hone.
  assert (forall u, u ∈ s_threads s -> wW l u <> 0%nat ->
            (1 <= cS l u)%nat \/ (exists f st acts att h, u = TDrain (tconv t) f st acts (DSettle h att None)
               /\ (1 <= occ l (items (s_queue s) (tconv t)))%nat)) as Hkind.
  { intros u Hu Hw. pose proof (wW_pos _ _ Hw) as (x & Hx & Hxl).
    pose proof (pc_msgs_log _ _ _ Hwf Hu Hx) as Hlx. rewrite Hxl, Hlog in Hlx. injection Hlx as Hc ->.
    destruct u as [c f st acts pc|c acts pc]; destruct pc; simpl in Hw, Hc; try done; [|left; simpl; lia].
    destruct err; [done|]. right. subst c. repeat eexists. apply list_elem_of_lookup in Hu as [j Hj].
    destruct (Hcl _ _ _ _ _ _ Hj) as (_ & r & Hr). rewrite Hr. simpl. lia. }
  assert (wW l t <= 1)%nat as Hle by
    (destruct t as [? ? ? ? []|? ? []]; simpl; repeat case_match; unfold at_loc; try case_decide; lia).
  rewrite (sum_list_only (wW l) _ i t Hi).
  - split; [lia|]. destruct (gone (s_queue s) l); [|done]. simpl in Hone.
    pose proof (sum_list_with_in _ (cS l) _ Hin).
    destruct (Hkind t Hin Ht) as [?|(?&?&?&?&?&?&?)]; lia.
  - intros j u Hj Hji. destruct (decide (wW l u = 0%nat)) as [|Hu]; [done|].
    assert (u ∈ s_threads s) as Huin by (apply list_elem_of_lookup; eauto).
    pose proof (sum_list_two (cS l) _ _ _ _ _ Hji Hj Hi).
    destruct (Hkind t Hin Ht) as [?|(f&st&acts&att&h&Et&?)], (Hkind u Huin Hu) as [?|(f'&st'&acts'&att'&h'&Eu&?)]; try lia.
    rewrite Eu in Hj. rewrite Et in Hi at 1. destruct Hji. by eapply (serial_unique s (tconv t) j i).
Qed.

(** [Remove] and [SendNow] refuse a committing head. *)
Lemma committing_head_refused q c h r n :
  committing q c = true -> items q c = h :: r ->
  remove c (m_id h) n q = (q, None) /\ sendNowItem cfg c (m_id h) n q = (q, None).
Proof.
  unfold committing, items, conv. intros Hc Hi.
  assert (forall x, q_convs q !! c = Some x -> takeable (m_id h) n x q = None) as Ht.
  { intros x Hx. rewrite Hx in Hc, Hi. simpl in Hc, Hi. unfold takeable. rewrite Hi. simpl.
    unfold has_id at 1. rewrite Z.eqb_refl. simpl. by rewrite Hc. }
  unfold remove, sendNowItem. destruct (q_convs q !! c) as [x|]; [rewrite (Ht x) by done|];
    destruct (has_sendNow cfg); done.
Qed.

(** C1. Every accepted message gets its terminal outcome notified at most
    once, only after it is both accepted and resolved, and exactly once when
    the goroutines' pending notifications have run - whatever the schedule. *)
Theorem terminal_notified_once ok s l
    (Hterm : has_onTerminal cfg = true) (Hs : reachable cfg ok s) :
  (fired l (s_trace s) <= 1)%nat
  /\ (fired l (s_trace s) = 1%nat ->
        accepted (s_queue s) l = true /\ outcome (s_queue s) l <> None)
  /\ (accepted (s_queue s) l = true -> outcome (s_queue s) l <> None ->
        (forall t m, t ∈ s_threads s -> ATerminal m ∈ acts_of t -> m_lifecycle m <> l) ->
        fired l (s_trace s) = 1%nat).
Proof.
  pose proof (ow_due _ _ (reachable_owners cfg Hterm ok s Hs) l) as Hdue.
  assert (target (s_queue s) l <= 1)%nat as Ht by (unfold target; destruct (_ && _)%bool; simpl; lia).
  split; [lia|]. split.
  - intros Hf. unfold target, resolved in *. destruct (accepted (s_queue s) l); simpl in *; [|lia].
    destruct (bool_decide_reflect (outcome (s_queue s) l <> None)); simpl in *; [done|lia].
  - intros Ha Ho Hq. assert (target (s_queue s) l = 1%nat) as Ht1.
    { unfold target, resolved. rewrite Ha. by rewrite bool_decide_eq_true_2. }
    rewrite sum_list_zero in Hdue; [lia|]. intros t Hin. apply sum_list_zero. intros a Hact.
    destruct a as [|m| |]; simpl; try done. case_decide; [|done]. by destruct (Hq t m Hin Hact).
Qed.

(** C2. Under the delivery seam's contract a message is written to the agent at
    most once, whether by its drain or by a send-now, not counting the
    confirmed writes that a drain settling after the daemon's shutdown leaves
    queued; not counting those, a removed message is never written and a
    delivered one exactly once; and while the daemon runs there are none. *)
Theorem written_at_most_once s l
    (Hs : reachable cfg gate_contract s) (Hsmall : small s) :
  (wrote l (s_trace s) <= 1 + left_queued l (s_trace s))%nat
  /\ (removed (s_queue s) l = true -> wrote l (s_trace s) = left_queued l (s_trace s))
  /\ (outcome (s_queue s) l = Some TerminalDelivered ->
        wrote l (s_trace s) = (1 + left_queued l (s_trace s))%nat)
  /\ (s_done s = false -> left_queued l (s_trace s) = 0%nat).
Proof.
  pose proof (lg_wrote _ (reachable_ledger cfg s Hs Hsmall) l) as Hw.
  pose proof (lg_rem _ (reachable_ledger cfg s Hs Hsmall) l) as Hrem.
  pose proof (lg_left _ (reachable_ledger cfg s Hs Hsmall)) as Hleft.
  enough ((wrote l (s_trace s) <= 1 + left_queued l (s_trace s))%nat
    /\ (removed (s_queue s) l = true -> wrote l (s_trace s) = left_queued l (s_trace s))
    /\ (outcome (s_queue s) l = Some TerminalDelivered ->
          wrote l (s_trace s) = (1 + left_queued l (s_trace s))%nat)) by naive_solver.
  destruct (writes_settling s l Hs Hsmall) as [Hz|(Hone & Hg)].
  - rewrite Hw, Hz. unfold delivered. split; [case_bool_decide; simpl; lia|].
    split; [|intros ->; rewrite bool_decide_eq_true_2 by done; simpl; lia].
    intros Hr. rewrite bool_decide_eq_false_2; [done|]. by destruct (Hrem Hr) as [-> | ->].
  - destruct (gone_resolved _ _ Hg) as [Ho Hr]. rewrite Hw, Hone. unfold delivered. rewrite Ho, Hr.
    simpl. split; [lia|done].
Qed.

(** C3. Under the same contract no accepted message is lost or duplicated: it
    is in its FIFO once, or with one send-now caller, or it was delivered,
    removed or abandoned - exactly one of the three. *)
Theorem message_in_one_place s l c m
    (Hs : reachable cfg gate_contract s) (Hsmall : small s) (Hl : s_log s !! l = Some (c, m)) :
  (occ l (items (s_queue s) c) + sum_list_with (cS l) (s_threads s)
   + Nat.b2n (gone (s_queue s) l) = 1)%nat
  /\ (outcome (s_queue s) l = None -> removed (s_queue s) l = false ->
        (forall t, t ∈ s_threads s -> sends_now t -> m ∉ pc_msgs t) ->
        m ∈ items (s_queue s) c).
Proof.
  pose proof (reachable_wf cfg _ s Hs) as Hwf.
  pose proof (lg_one _ (reachable_ledger cfg s Hs Hsmall) _ _ _ Hl) as H1. split; [done|].
  intros Ho Hr Hno. assert (gone (s_queue s) l = false) as Hg
    by (unfold gone, resolved; by rewrite Ho, Hr).
  rewrite Hg, sum_list_zero in H1.
  - destruct (occ_pos l (items (s_queue s) c)) as (x & Hx & <-); [simpl in H1; lia|].
    pose proof (wf_items _ Hwf _ _ Hx). by simplify_eq.
  - intros t Ht. destruct (decide (cS l t = 0%nat)) as [|Hc]; [done|].
    pose proof (cS_pos _ _ Hc) as (x & Hx & <-). pose proof (pc_msgs_log _ _ _ Hwf Ht Hx). simplify_eq.
    destruct (Hno t Ht); [|done]. by destruct t as [|? ? []].
Qed.

(** Deliveries of one conversation never overlap: at most one drain serves
    it, and [draining] is set exactly while one does. *)
Theorem one_drain_per_conversation ok s c (Hs : reachable cfg ok s) :
  (forall i j f st acts pc f' st' acts' pc',
     s_threads s !! i = Some (TDrain c f st acts pc) ->
     s_threads s !! j = Some (TDrain c f' st' acts' pc') ->
     drain_live pc = true -> drain_live pc' = true -> i = j)
  /\ (draining (s_queue s) c = true <->
      exists i f st acts pc, s_threads s !! i = Some (TDrain c f st acts pc) /\ drain_live pc = true).
Proof.
  pose proof (reachable_serial cfg _ s Hs) as Hser. split.
  - intros. by eapply (serial_unique s c i j).
  - split; [by apply serial_has_drain|]. intros (i & f & st & acts & pc & Hi & Hp).
    by eapply (serial_live s).
Qed.

(** C5. No wakeup is lost: while the queue runs, a conversation with a backlog
    has a drain at work, unless a drain of it gave up on a message. *)
Theorem no_lost_wakeup ok s c (Hs : reachable cfg ok s)
    (Hstart : q_started (s_queue s) = true) (Hrun : s_done s = false)
    (Hbacklog : items (s_queue s) c <> []) :
  (exists i f st acts pc, s_threads s !! i = Some (TDrain c f st acts pc) /\ drain_live pc = true)
  \/ gave_up c (s_trace s).
Proof.
  destruct (aw_drain _ (reachable_awake cfg _ s Hs) Hstart Hrun c Hbacklog) as [Hd|Hg]; [left|by right].
  apply serial_has_drain; [by eapply reachable_serial|done].
Qed.

(** C6. Without a send-now seam each FIFO is in order of acceptance and within
    the backlog bound, and every attempt is for a message accepted no earlier
    than those attempted before it. *)
Theorem fifo_delivery ok s c (Hsend : has_sendNow cfg = false) (Hs : reachable cfg ok s) :
  StronglySorted lt (locs (items (s_queue s) c))
  /\ (0 < max cfg -> Z.of_nat (length (items (s_queue s) c)) <= max cfg)
  /\ StronglySorted ge (dlv c (s_trace s)).
Proof.
  destruct (reachable_fifo cfg Hsend _ s Hs) as [_ Hsort Hb].
  split; [done|split; [auto|]]. by apply (od_sorted _ (reachable_ordered cfg Hsend _ s Hs)).
Qed.

(** Once the seam has claimed the head to write it, neither [Remove] nor
    [SendNow] can take it: while the write is in flight, or succeeded and is not
    settled, both refuse it and change nothing. *)
Theorem claimed_head_stays s i c f st acts pc h n
    (Hs : reachable cfg gate_contract s) (Hsmall : small s)
    (Hi : s_threads s !! i = Some (TDrain c f st acts pc))
    (Hpc : (exists att, pc = DDeliver h att (Some true)) \/ (exists att, pc = DSettle h att None)) :
  remove c (m_id h) n (s_queue s) = (s_queue s, None)
  /\ sendNowItem cfg c (m_id h) n (s_queue s) = (s_queue s, None)
  /\ exists r, items (s_queue s) c = h :: r.
Proof.
  assert (claim_ok (s_queue s) c pc) as Hc by (by eapply (reachable_claimed cfg s Hs Hsmall)).
  assert (committing (s_queue s) c = true /\ exists r, items (s_queue s) c = h :: r) as [Hcom [r Hr]]
    by (destruct Hpc as [[att ->]|[att ->]]; exact Hc).
  destruct (committing_head_refused (s_queue s) c h r n) as [-> ->]; eauto.
Qed.

End claims.

(** ** Where the code leaves its description *)

(** Messages 1 and 2 are sent now before the drain of 3 starts; both sends fail
    while 3 is being written, and 1 comes back first. *)
Definition two_failed_sends : list label :=
  [LEnqueue "c" (msg "a") 1; LEnqueue "c" (msg "b") 2; LEnqueue "c" (msg "x") 3;
   LSendNow "c" 1 0; LSendNow "c" 2 0; LRunStart; go 5; LThread 5 CGate;
   LThread 3 (CReturn (Some "busy")); go 3; LThread 4 (CReturn (Some "busy")); go 4].

(** Two send-nows that fail while a later message is being written come
    back in the wrong order: message 2 then stands in front of message 1. The
    reinsertion puts each "right behind the committing head". *)
Theorem reinsert_inverts_order :
  run_ok (demo_cfg true 100) two_failed_sends (init empty_queue) = true
  /\ (m_id <$> items (s_queue (final (demo_cfg true 100) two_failed_sends)) "c") = [3; 2; 1].
Proof. vm_compute. done. Qed.

(** A message sent now leaves room for another; its failure brings it back. *)
Definition send_over_cap : list label :=
  [LEnqueue "c" (msg "a") 1; LSendNow "c" 1 0; LEnqueue "c" (msg "b") 2;
   LThread 1 (CReturn (Some "busy")); go 1].

(** The backlog bound is not kept by a failed send-now: with a bound of
    one, two messages stand in the FIFO. *)
Theorem send_now_exceeds_bound :
  run_ok (demo_cfg true 1) send_over_cap (init empty_queue) = true
  /\ max (demo_cfg true 1) = 1
  /\ length (items (s_queue (final (demo_cfg true 1) send_over_cap)) "c") = 2%nat.
Proof. vm_compute. done. Qed.

(** A delivery is confirmed as the context is cancelled; the drain leaves the
    message queued, and a send-now takes it and writes it again. *)
Definition shutdown_rewrite : list label :=
  [LRunStart; LEnqueue "c" (msg "a") 1; go 1; LThread 1 CGate; LThread 1 (CReturn None); LCtxDone;
   go 1; go 1; go 1; LSendNow "c" 1 0; LThread 2 (CReturn None); go 2].
Definition shutdown_state : sys := final (demo_cfg true 100) shutdown_rewrite.

(** After the shutdown a message can be written twice: its first write was
    confirmed, but the drain that settles it then keeps it in the backlog. *)
Theorem shutdown_leaves_written_message :
  run_ok (demo_cfg true 100) shutdown_rewrite (init empty_queue) = true
  /\ wrote 0 (s_trace shutdown_state) = 2%nat /\ left_queued 0 (s_trace shutdown_state) = 1%nat
  /\ (m_id <$> items (s_queue (final (demo_cfg true 100) (take 9 shutdown_rewrite))) "c") = [1].
Proof. vm_compute. done. Qed.

Lemma shutdown_reachable : reachable (demo_cfg true 100) gate_contract shutdown_state.
Proof. apply final_reachable. by vm_compute. Qed.

Lemma shutdown_small : small shutdown_state.
Proof. by vm_compute. Qed.

(** ** Witnesses *)

Lemma demo_small : small demo_state.
Proof. by vm_compute. Qed.

Lemma terminal_notified_once_witness :
  fired 0 (s_trace demo_state) = 1%nat /\ fired 1 (s_trace demo_state) = 1%nat.
Proof.
  assert (forall t m l, t ∈ s_threads demo_state -> ATerminal m ∈ acts_of t -> m_lifecycle m <> l) as Hq.
  { intros t m l Ht Hm. exfalso. vm_compute in Ht. repeat (apply elem_of_cons in Ht as [->|Ht];
      [by apply not_elem_of_nil in Hm|]). by apply not_elem_of_nil in Ht. }
  split.
  - refine (proj2 (proj2 (terminal_notified_once (demo_cfg false 100) gate_contract demo_state 0
      eq_refl demo_reachable)) _ _ (fun t m => Hq t m 0%nat)); vm_compute; congruence.
  - refine (proj2 (proj2 (terminal_notified_once (demo_cfg false 100) gate_contract demo_state 1
      eq_refl demo_reachable)) _ _ (fun t m => Hq t m 1%nat)); vm_compute; congruence.
Defined.

Lemma written_at_most_once_witness :
  (wrote 0 (s_trace demo_state) = 1%nat /\ wrote 1 (s_trace demo_state) = 0%nat)
  /\ wrote 0 (s_trace shutdown_state) = 2%nat.
Proof.
  assert (forall l, left_queued l (s_trace demo_state) = 0%nat) as Hz
    by (intros l; apply (written_at_most_once (demo_cfg false 100) demo_state l demo_reachable demo_small); by vm_compute).
  split; [split|].
  - pose proof (written_at_most_once (demo_cfg false 100) demo_state 0 demo_reachable demo_small) as (_ & _ & H & _).
    rewrite H by (by vm_compute). by rewrite (Hz 0%nat).
  - pose proof (written_at_most_once (demo_cfg false 100) demo_state 1 demo_reachable demo_small) as (_ & H & _).
    rewrite H by (by vm_compute). apply Hz.
  - pose proof (written_at_most_once (demo_cfg true 100) shutdown_state 0 shutdown_reachable shutdown_small) as (_ & _ & H & _).
    rewrite H; by vm_compute.
Defined.

(** The run up to the first delivery's commit: message 0 is claimed, 1 waits. *)
Definition demo_claimed : sys := final (demo_cfg false 100) (take 13 demo).

Lemma demo_claimed_reachable : reachable (demo_cfg false 100) gate_contract demo_claimed.
Proof. apply final_reachable. by vm_compute. Qed.

Lemma demo_claimed_small : small demo_claimed.
Proof. by vm_compute. Qed.

Lemma message_in_one_place_witness :
  exists m, s_log demo_claimed !! 1%nat = Some ("c"%string, m) /\ m ∈ items (s_queue demo_claimed) "c".
Proof.
  eexists. split; [vm_compute; reflexivity|].
  eapply (message_in_one_place (demo_cfg false 100) demo_claimed 1 "c" _
    demo_claimed_reachable demo_claimed_small); [vm_compute; reflexivity..|].
  intros t Ht Hs. exfalso. vm_compute in Ht. repeat (apply elem_of_cons in Ht as [->|Ht]; [done|]).
  by apply not_elem_of_nil in Ht.
Defined.

Lemma one_drain_per_conversation_witness : draining (s_queue demo_claimed) "c" = true.
Proof.
  apply (one_drain_per_conversation (demo_cfg false 100) gate_contract demo_claimed "c" demo_claimed_reachable).
  eexists 1%nat, _, _, _, _. split; [vm_compute; reflexivity|done].
Defined.

Lemma no_lost_wakeup_witness :
  exists i f st acts pc, s_threads demo_claimed !! i = Some (TDrain "c" f st acts pc) /\ drain_live pc = true.
Proof.
  destruct (no_lost_wakeup (demo_cfg false 100) gate_contract demo_claimed "c" demo_claimed_reachable)
    as [H|[l Hl]]; [by vm_compute..|exact H|].
  exfalso. vm_compute in Hl. repeat (apply elem_of_cons in Hl as [?|Hl]; [done|]).
  by apply not_elem_of_nil in Hl.
Defined.

Lemma fifo_delivery_witness :
  dlv "c" (s_trace demo_state) = [1; 0]%nat /\ StronglySorted ge (dlv "c" (s_trace demo_state)).
Proof.
  split; [by vm_compute|].
  apply (fifo_delivery (demo_cfg false 100) gate_contract demo_state "c" eq_refl demo_reachable).
Defined.

Lemma claimed_head_stays_witness :
  remove "c" 1 0 (s_queue demo_claimed) = (s_queue demo_claimed, None)
  /\ length (items (s_queue demo_claimed) "c") = 2%nat.
Proof.
  split; [|by vm_compute].
  assert (exists f st h att, s_threads demo_claimed !! 1%nat
            = Some (TDrain "c" f st [] (DDeliver h att (Some true))) /\ m_id h = 1)
    as (f & st & h & att & Hi & <-) by (do 4 eexists; split; vm_compute; reflexivity).
  apply (claimed_head_stays (demo_cfg false 100) demo_claimed 1 "c" f st [] _ h 0
    demo_claimed_reachable demo_claimed_small Hi). eauto.
Defined.

End MsgQueueProps.
