(* ===== verification/Conversations.v ===== *)
(** * The conversation registry ([internal/conversations])

    [conversation.go], [registry.go], [archive.go], [sweep.go] and [id.go]: the
    in-memory list of conversations with its workspace labels, every operation
    on it (each is one critical section under the registry's mutex), what is
    persisted and the sweep of idle discussions. *)
From Stdlib Require Import Ascii String.
From stdpp Require Import prelude gmap strings list sorting.
From S2P Require Import Prelude Utf8 AtomicFile.

Module Conversations.
Import Utf8 AtomicFile.

Local Open Scope Z_scope.

(** ** Data *)

Record ContextUsageReading := MkContextUsageReading {
  Model : string;
  TotalTokens : Z;
  MaxTokens : Z;
  Percentage : Z;
  AsOf : instant;
}.

(** [Conversation]; a nil pointer is [None]. *)
Record Conversation := MkConversation {
  ID : string;
  Name : option string;
  Cwd : string;
  CurrentSessionID : string;
  SessionHistory : list string;
  IsPromoted : bool;
  IsArchived : bool;
  ArchivedAt : option instant;
  IsMuted : bool;
  PinnedAt : option instant;
  ReadUpTo : Z;
  SystemPrompt : option string;
  LastContextUsage : option ContextUsageReading;
  PendingPosts : list string;
  LastUsedAt : instant;
}.

Record registryFile := RegistryFile {
  rf_Conversations : list Conversation;
  rf_WorkspaceLabels : gmap string string;
  rf_Seeded : bool;
}.

(** [Registry]; [onDelete] says whether the callback is set. *)
Record Registry := MkRegistry {
  conversations : list Conversation;
  workspaceLabels : gmap string string;
  seeded : bool;
  onDelete : bool;
}.

Inductive registryError :=
| ErrConversationNotFound
| ErrConversationNotPromoted
| ErrConversationAlreadyPromoted
| ErrPromotionNameInUse
| ErrPromotionNameEmpty
| ErrSystemPromptTooLong
| ErrSystemPromptInvalidUTF8
| ErrPersist (st : stage).

Definition MaxSystemPromptBytes : Z := 8192.
Definition MaxPendingChannelPosts : Z := 64.
Definition MaxPendingChannelPostsBytes : Z := 65536.

(** Field writes. *)
Definition set_session (sid : string) (h : list string) (c : Conversation) : Conversation :=
  MkConversation (ID c) (Name c) (Cwd c) sid h (IsPromoted c) (IsArchived c) (ArchivedAt c)
    (IsMuted c) (PinnedAt c) (ReadUpTo c) (SystemPrompt c) (LastContextUsage c) (PendingPosts c) (LastUsedAt c).
Definition set_promoted (n : string) (c : Conversation) : Conversation :=
  MkConversation (ID c) (Some n) (Cwd c) (CurrentSessionID c) (SessionHistory c) true (IsArchived c) (ArchivedAt c)
    (IsMuted c) (PinnedAt c) (ReadUpTo c) (SystemPrompt c) (LastContextUsage c) (PendingPosts c) (LastUsedAt c).
Definition set_archived (b : bool) (a : option instant) (c : Conversation) : Conversation :=
  MkConversation (ID c) (Name c) (Cwd c) (CurrentSessionID c) (SessionHistory c) (IsPromoted c) b a
    (IsMuted c) (PinnedAt c) (ReadUpTo c) (SystemPrompt c) (LastContextUsage c) (PendingPosts c) (LastUsedAt c).
Definition set_muted (b : bool) (c : Conversation) : Conversation :=
  MkConversation (ID c) (Name c) (Cwd c) (CurrentSessionID c) (SessionHistory c) (IsPromoted c) (IsArchived c) (ArchivedAt c)
    b (PinnedAt c) (ReadUpTo c) (SystemPrompt c) (LastContextUsage c) (PendingPosts c) (LastUsedAt c).
Definition set_pinnedAt (p : option instant) (c : Conversation) : Conversation :=
  MkConversation (ID c) (Name c) (Cwd c) (CurrentSessionID c) (SessionHistory c) (IsPromoted c) (IsArchived c) (ArchivedAt c)
    (IsMuted c) p (ReadUpTo c) (SystemPrompt c) (LastContextUsage c) (PendingPosts c) (LastUsedAt c).
Definition set_readUpTo (n : Z) (c : Conversation) : Conversation :=
  MkConversation (ID c) (Name c) (Cwd c) (CurrentSessionID c) (SessionHistory c) (IsPromoted c) (IsArchived c) (ArchivedAt c)
    (IsMuted c) (PinnedAt c) n (SystemPrompt c) (LastContextUsage c) (PendingPosts c) (LastUsedAt c).
Definition set_systemPrompt (p : option string) (c : Conversation) : Conversation :=
  MkConversation (ID c) (Name c) (Cwd c) (CurrentSessionID c) (SessionHistory c) (IsPromoted c) (IsArchived c) (ArchivedAt c)
    (IsMuted c) (PinnedAt c) (ReadUpTo c) p (LastContextUsage c) (PendingPosts c) (LastUsedAt c).
Definition set_usage (u : option ContextUsageReading) (c : Conversation) : Conversation :=
  MkConversation (ID c) (Name c) (Cwd c) (CurrentSessionID c) (SessionHistory c) (IsPromoted c) (IsArchived c) (ArchivedAt c)
    (IsMuted c) (PinnedAt c) (ReadUpTo c) (SystemPrompt c) u (PendingPosts c) (LastUsedAt c).
Definition set_pending (l : list string) (c : Conversation) : Conversation :=
  MkConversation (ID c) (Name c) (Cwd c) (CurrentSessionID c) (SessionHistory c) (IsPromoted c) (IsArchived c) (ArchivedAt c)
    (IsMuted c) (PinnedAt c) (ReadUpTo c) (SystemPrompt c) (LastContextUsage c) l (LastUsedAt c).
Definition set_cwd (s : string) (c : Conversation) : Conversation :=
  MkConversation (ID c) (Name c) s (CurrentSessionID c) (SessionHistory c) (IsPromoted c) (IsArchived c) (ArchivedAt c)
    (IsMuted c) (PinnedAt c) (ReadUpTo c) (SystemPrompt c) (LastContextUsage c) (PendingPosts c) (LastUsedAt c).
Definition set_name (n : option string) (c : Conversation) : Conversation :=
  MkConversation (ID c) n (Cwd c) (CurrentSessionID c) (SessionHistory c) (IsPromoted c) (IsArchived c) (ArchivedAt c)
    (IsMuted c) (PinnedAt c) (ReadUpTo c) (SystemPrompt c) (LastContextUsage c) (PendingPosts c) (LastUsedAt c).
Definition set_lastUsed (now : instant) (c : Conversation) : Conversation :=
  MkConversation (ID c) (Name c) (Cwd c) (CurrentSessionID c) (SessionHistory c) (IsPromoted c) (IsArchived c) (ArchivedAt c)
    (IsMuted c) (PinnedAt c) (ReadUpTo c) (SystemPrompt c) (LastContextUsage c) (PendingPosts c) now.

Definition set_conversations (l : list Conversation) (r : Registry) : Registry :=
  MkRegistry l (workspaceLabels r) (seeded r) (onDelete r).
Definition set_labels (m : gmap string string) (r : Registry) : Registry :=
  MkRegistry (conversations r) m (seeded r) (onDelete r).

(** ** Identifiers *)

(** [NewID], given what [rand.Read] put in the buffer ([None] on its error). *)
Definition NewID (rand : option (list Z)) : option string :=
  match rand with
  | None => None
  | Some b =>
      let b := <[6%nat := Z.lor (Z.land (b !!! 6%nat) 15) 64]> b in
      let b := <[8%nat := Z.lor (Z.land (b !!! 8%nat) 63) 128]> b in
      let part i n := hex (take n (drop i b)) in
      Some (part 0%nat 4%nat +:+ "-" +:+ part 4%nat 2%nat +:+ "-" +:+ part 6%nat 2%nat
            +:+ "-" +:+ part 8%nat 2%nat +:+ "-" +:+ part 10%nat 6%nat)%string
  end.

Definition validIDByte (i : nat) (c : Z) : bool :=
  if bool_decide (i ∈ [8; 13; 18; 23]%nat) then c =? 45
  else if bool_decide (i = 14%nat) then c =? 52
  else if bool_decide (i = 19%nat) then (c =? 56) || (c =? 57) || (c =? 97) || (c =? 98)
  else in_range 48 57 c || in_range 97 102 c.

Definition ValidID (s : string) : bool :=
  if negb (slen s =? 36) then false
  else forallb (fun i => validIDByte i (byte_at s i)) (seq 0 36).

(** ** Reading *)

Definition has_ID (id : string) (c : Conversation) : bool := bool_decide (ID c = id).

Definition Get (id : string) (r : Registry) : option Conversation :=
  find_first (has_ID id) (conversations r).

Record ListFilter := MkListFilter { f_IsPromoted : option bool; f_IsArchived : option bool }.

Definition keep (f : ListFilter) (c : Conversation) : bool :=
  match f_IsPromoted f with Some b => Bool.eqb (IsPromoted c) b | None => true end
  && match f_IsArchived f with Some b => Bool.eqb (IsArchived c) b | None => true end.

(** [List]; only the first filter counts. *)
Definition List (filters : list ListFilter) (r : Registry) : list Conversation :=
  let f := default (MkListFilter None None) (head filters) in
  filter (fun c => keep f c = true) (conversations r).

Definition SessionOwner (sid : string) (r : Registry) : option string :=
  if bool_decide (sid = "") then None
  else ID <$> find_first (fun c => bool_decide (CurrentSessionID c = sid)) (conversations r).

Definition PendingChannelPosts (id : string) (r : Registry) : list string :=
  match Get id r with Some c => PendingPosts c | None => [] end.

Definition WorkspaceLabel (cwd : string) (r : Registry) : option string := workspaceLabels r !! cwd.
Definition Seeded (r : Registry) : bool := seeded r.

(** ** Operations in memory *)

Definition Create (c : Conversation) (r : Registry) : Registry :=
  set_conversations (conversations r ++ [c]) r.

Definition MarkSeeded (r : Registry) : Registry :=
  MkRegistry (conversations r) (workspaceLabels r) true (onDelete r).

Definition SetOnDelete (present : bool) (r : Registry) : Registry :=
  MkRegistry (conversations r) (workspaceLabels r) (seeded r) present.

(** [Update]: [fn] on the first conversation with the id, in place. *)
Definition Update (id : string) (fn : Conversation -> Conversation) (r : Registry) : Registry * bool :=
  match Get id r with
  | Some _ => (set_conversations (update_first (has_ID id) fn (conversations r)) r, true)
  | None => (r, false)
  end.

Definition RebindSessionOwner (oldID newID : string) (r : Registry) : Registry * option string :=
  if bool_decide (oldID = "") then (r, None)
  else
    let owns c := bool_decide (CurrentSessionID c = oldID) in
    match find_first owns (conversations r) with
    | Some c =>
        (set_conversations
           (update_first owns (fun c => set_session newID (SessionHistory c ++ [oldID]) c) (conversations r)) r,
         Some (ID c))
    | None => (r, None)
    end.

Definition RebindSession (oldID newID : string) (r : Registry) : Registry * bool :=
  let '(r, o) := RebindSessionOwner oldID newID r in (r, bool_decide (is_Some o)).

(** [Delete]: the registry, its result, and the ids its callback was called
    with, after the lock was released. *)
Definition Delete (id : string) (r : Registry) : Registry * bool * list string :=
  match IndexFunc (has_ID id) (conversations r) with
  | Some i => (set_conversations (remove_at i (conversations r)) r, true,
               if onDelete r then [id] else [])
  | None => (r, false, [])
  end.

Definition SetArchived (id : string) (archived : bool) (now : instant) (r : Registry) : Registry * bool :=
  Update id (fun c =>
    if negb archived then set_archived false None c
    else if negb (IsArchived c) then set_archived true (Some now) c
    else c) r.

Definition SetMuted (id : string) (muted : bool) (r : Registry) : Registry * bool :=
  Update id (set_muted muted) r.

Definition SetPinned (id : string) (pinned : bool) (now : instant) (r : Registry)
  : Registry * option registryError :=
  match Get id r with
  | None => (r, Some ErrConversationNotFound)
  | Some c =>
      if pinned && negb (IsPromoted c) then (r, Some ErrConversationNotPromoted)
      else (fst (Update id (fun c =>
              if negb pinned then set_pinnedAt None c
              else match PinnedAt c with None => set_pinnedAt (Some now) c | Some _ => c end) r), None)
  end.

Definition SetSystemPrompt (id : string) (prompt : option string) (r : Registry)
  : Registry * option registryError :=
  let store :=
    match Update id (set_systemPrompt prompt) r with
    | (r, true) => (r, None)
    | (r, false) => (r, Some ErrConversationNotFound)
    end in
  match prompt with
  | None => store
  | Some p => if MaxSystemPromptBytes <? slen p then (r, Some ErrSystemPromptTooLong)
              else if negb (ValidString p) then (r, Some ErrSystemPromptInvalidUTF8)
              else store
  end.

Definition SetLastContextUsage (id : string) (reading : ContextUsageReading) (r : Registry)
  : Registry * bool :=
  Update id (set_usage (Some reading)) r.

Definition pending_bytes (l : list string) : Z := foldr (fun p n => slen p + n) 0 l.

Definition AppendPendingChannelPost (id text : string) (r : Registry) : Registry * bool :=
  match Get id r with
  | None => (r, false)
  | Some c =>
      let pending := PendingPosts c in
      if MaxPendingChannelPosts <=? Z.of_nat (length pending) then (r, false)
      else if MaxPendingChannelPostsBytes <? slen text + pending_bytes pending then (r, false)
      else Update id (fun c => set_pending (PendingPosts c ++ [text]) c) r
  end.

Definition ClearPendingChannelPosts (id : string) (n : Z) (r : Registry) : Registry * bool :=
  Update id (fun c =>
    if n <=? 0 then c
    else if Z.of_nat (length (PendingPosts c)) <=? n then set_pending [] c
    else set_pending (drop (Z.to_nat n) (PendingPosts c)) c) r.

(** Is [name] taken by a promoted conversation other than the one at [idx]? *)
Definition name_taken (idx : nat) (name : string) (l : list Conversation) : bool :=
  existsb (fun p => negb (bool_decide (fst p = idx)) && IsPromoted (snd p)
                    && bool_decide (Name (snd p) = Some name)) (imap pair l).

Definition Promote (id name : string) (r : Registry) : Registry * option registryError :=
  if blank name then (r, Some ErrPromotionNameEmpty)
  else match IndexFunc (has_ID id) (conversations r) with
  | None => (r, Some ErrConversationNotFound)
  | Some idx =>
      if match conversations r !! idx with Some c => IsPromoted c | None => false end
      then (r, Some ErrConversationAlreadyPromoted)
      else if name_taken idx name (conversations r) then (r, Some ErrPromotionNameInUse)
      else (set_conversations (alter (set_promoted name) idx (conversations r)) r, None)
  end.

Definition SetWorkspaceLabel (cwd : string) (label : option string) (r : Registry) : Registry :=
  set_labels match label with
             | None => delete cwd (workspaceLabels r)
             | Some l => <[cwd := l]> (workspaceLabels r)
             end r.

(** [RekeyCwds]: the rows first, then the labels of the old keys in order. *)
Definition rekey_cwd (rekey : gmap string string) (c : Conversation) : option string :=
  match rekey !! Cwd c with
  | Some to => if bool_decide (to = Cwd c) then None else Some to
  | None => None
  end.

Definition rekey_label (rekey : gmap string string) (labels : gmap string string) (old : string)
  : gmap string string :=
  match labels !! old with
  | None => labels
  | Some label =>
      let labels := delete old labels in
      let to := default "" (rekey !! old) in
      match labels !! to with None => <[to := label]> labels | Some _ => labels end
  end.

Definition RekeyCwds (rekey : gmap string string) (r : Registry) : Registry * Z :=
  let moved := filter (fun c => is_Some (rekey_cwd rekey c)) (conversations r) in
  let rows := (fun c => match rekey_cwd rekey c with Some to => set_cwd to c | None => c end)
                <$> conversations r in
  let olds := SliceStable String.ltb
                (fst <$> filter (fun p => fst p <> snd p) (map_to_list rekey)) in
  (MkRegistry rows (foldl (rekey_label rekey) (workspaceLabels r) olds) (seeded r) (onDelete r),
   Z.of_nat (length moved)).

(** ** The callers of [Create] and [Update]

    The daemon creates rows in three places ([handlers.CreateConversation], and
    [channelCreator] and [conversationCreator] of [cmd/pyry]), all of this form;
    none of them asks whether another row has the name. *)

Definition new_conversation (id : string) (name : option string) (cwd sid : string) (promoted : bool) (now : instant)
  : Conversation :=
  MkConversation id name cwd sid [] promoted false None false None 0 None None [] now.

(** What they [Update]: a rename, a change of workspace, the use of a
    conversation by a message, and the name an unnamed one gets from it. *)
Inductive edit :=
| ERename (title : string)
| EWorkspace (resolved : string)
| ETouch (now : instant)
| EAutoName (title : string).

(** The function handed to [Update]. *)
Definition edit_row (e : edit) (c : Conversation) : Conversation :=
  match e with
  | ERename title => set_name (Some title) c
  | EWorkspace resolved => set_cwd resolved c
  | ETouch now => set_lastUsed now c
  | EAutoName title => match Name c with Some _ => c | None => set_name (Some title) c end
  end.

(** A rename to a blank title is refused before the registry is asked. *)
Definition edit_conversation (e : edit) (id : string) (r : Registry) : Registry * bool :=
  match e with
  | ERename title => if blank title then (r, false) else Update id (edit_row e) r
  | _ => Update id (edit_row e) r
  end.

(** ** Persistence *)

Definition snapshotLocked (r : Registry) : registryFile :=
  RegistryFile (conversations r) (workspaceLabels r) (seeded r).

Definition conv_less (a b : Conversation) : bool :=
  if negb (LastUsedAt a =? LastUsedAt b) then LastUsedAt a <? LastUsedAt b
  else String.ltb (ID a) (ID b).

Section persistence.
(** [encoding/json] and the files: the encoder's bytes and, per write, which
    stage of the write fails, with the temporary's name. *)
Context (encode : registryFile -> string) (decode : string -> option registryFile).

Record io := MkIO { io_fails : stage -> bool; io_partial : string; io_tmp : string }.

Definition sorted_snapshot (s : registryFile) : registryFile :=
  RegistryFile (SliceStable conv_less (rf_Conversations s)) (rf_WorkspaceLabels s) (rf_Seeded s).

Definition writeRegistrySnapshot (w : io) (path : string) (s : registryFile) (f : fs)
  : fs * option registryError :=
  let '(f, err) := write_atomic (io_fails w) (io_partial w) path (io_tmp w) (encode (sorted_snapshot s)) f in
  (f, ErrPersist <$> err).

Definition Save (w : io) (path : string) (r : Registry) (f : fs) : fs * option registryError :=
  writeRegistrySnapshot w path (snapshotLocked r) f.

(** [Load]: [inl] the registry, [inr tt] a file that does not parse. *)
Definition Load (path : string) (f : fs) : Registry + unit :=
  match f !! path with
  | None => inl (MkRegistry [] ∅ false false)
  | Some data =>
      if bool_decide (data = "") then inl (MkRegistry [] ∅ false false)
      else match decode data with
      | None => inr tt
      | Some rf => inl (MkRegistry (rf_Conversations rf) (rf_WorkspaceLabels rf) (rf_Seeded rf) false)
      end
  end.

(** [switchSession] against any persister: the change is in the snapshot that
    is persisted, and is taken back when persisting it fails. *)
Definition switchSession {W} (persist : registryFile -> W -> W * option registryError)
    (id oldID newID : string) (r : Registry) (w : W) : Registry * W * bool * option registryError :=
  let p c := bool_decide (ID c = id) && bool_decide (CurrentSessionID c = oldID)
             && negb (bool_decide (oldID = "")) && negb (bool_decide (newID = "")) in
  match find_first p (conversations r) with
  | None => (r, w, false, Some ErrConversationNotFound)
  | Some _ =>
      let r' := set_conversations
        (update_first p (fun c => set_session newID (SessionHistory c ++ [oldID]) c) (conversations r)) r in
      match persist (snapshotLocked r') w with
      | (w, None) => (r', w, true, None)
      | (w, Some e) => (r, w, false, Some e)
      end
  end.

Definition SwitchSession (w : io) (path id oldID newID : string) (r : Registry) (f : fs)
  : Registry * fs * bool * option registryError :=
  switchSession (writeRegistrySnapshot w path) id oldID newID r f.

Definition advanceReadUpTo {W} (persist : registryFile -> W -> W * option registryError)
    (id : string) (upTo latest : Z) (r : Registry) (w : W)
  : Registry * W * option Conversation * bool * option registryError :=
  match Get id r with
  | None => (r, w, None, false, Some ErrConversationNotFound)
  | Some c =>
      let next := Z.max (ReadUpTo c) (Z.min upTo latest) in
      if next =? ReadUpTo c then (r, w, Some c, false, None)
      else
        let r' := fst (Update id (set_readUpTo next) r) in
        match persist (snapshotLocked r') w with
        | (w, None) => (r', w, Some (set_readUpTo next c), true, None)
        | (w, Some e) => (r, w, None, false, Some e)
        end
  end.

Definition AdvanceReadUpTo (w : io) (path id : string) (upTo latest : Z) (r : Registry) (f : fs)
  : Registry * fs * option Conversation * bool * option registryError :=
  advanceReadUpTo (writeRegistrySnapshot w path) id upTo latest r f.
End persistence.

(** ** Archival *)

Definition archiveIdleThreshold : Z := 30 * 24 * hour.

Definition ShouldArchive (c : Conversation) (now : instant) : bool :=
  if IsPromoted c then false
  else if IsArchived c then false
  else archiveIdleThreshold <=? Sub now (LastUsedAt c).

(** [Sweep]: over a copy of the list, deleting by id. *)
Fixpoint sweep_loop (l : list Conversation) (now : instant) (r : Registry) (n : Z) : Registry * Z :=
  match l with
  | [] => (r, n)
  | c :: l =>
      if ShouldArchive c now
      then match Delete (ID c) r with
           | (r, true, _) => sweep_loop l now r (n + 1)
           | (r, false, _) => sweep_loop l now r n
           end
      else sweep_loop l now r n
  end.

Definition Sweep (now : instant) (r : Registry) : Registry * Z := sweep_loop (List [] r) now r 0.

(** [sweepOnce]: a tick of the loop; it saves only when something was swept. *)
Definition sweepOnce (encode : registryFile -> string) (w : io) (path : string) (now : instant)
    (r : Registry) (f : fs) : Registry * fs :=
  let '(r, n) := Sweep now r in
  if n =? 0 then (r, f) else (r, fst (Save encode w path r f)).

End Conversations.
