(* ===== verification/ConversationsProps.v ===== *)
(** * What the conversation registry keeps true

    The well-formedness invariant over every sequence of operations, persisted
    changes and their rollback, the pending-post buffer, the sweep, cwd rekeying
    and identifiers. *)
From Stdlib Require Import Ascii String.
From stdpp Require Import prelude gmap strings list sorting.
From S2P Require Import Prelude Utf8 AtomicFile Conversations.

Module ConversationsProps.
Import Utf8 AtomicFile Conversations.

Local Open Scope Z_scope.

(** ** The invariant *)

Record conv_ok (c : Conversation) : Prop := {
  ok_pinned : is_Some (PinnedAt c) -> IsPromoted c = true;
  ok_archived : IsArchived c = true <-> is_Some (ArchivedAt c);
  ok_prompt : forall p, SystemPrompt c = Some p -> slen p <= MaxSystemPromptBytes /\ ValidString p = true;
  ok_pending : Z.of_nat (length (PendingPosts c)) <= MaxPendingChannelPosts
               /\ pending_bytes (PendingPosts c) <= MaxPendingChannelPostsBytes;
}.

Definition registry_ok (r : Registry) : Prop := forall c, c ∈ conversations r -> conv_ok c.

Definition ids (r : Registry) : list string := ID <$> conversations r.

(** How many promoted conversations hold the name [n]. *)
Definition held (c : Conversation) : option string := if IsPromoted c then Name c else None.
Definition holds (n : string) (c : Conversation) : nat := if decide (held c = Some n) then 1 else 0.
Definition holders (n : string) (r : Registry) : nat := sum_list_with (holds n) (conversations r).

(** Every operation on the registry, as the daemon calls it; a persisting one
    with its persister's outcome. *)
Inductive op :=
| OCreate (id : string) (name : option string) (cwd sid : string) (promoted : bool) (now : instant)
| OEdit (id : string) (e : edit)
| ORebind (oldID newID : string)
| OSwitch (id oldID newID : string) (fail : option stage)
| OAdvance (id : string) (upTo latest : Z) (fail : option stage)
| ODelete (id : string)
| OSetArchived (id : string) (b : bool) (now : instant)
| OSetMuted (id : string) (b : bool)
| OSetPinned (id : string) (b : bool) (now : instant)
| OSetSystemPrompt (id : string) (p : option string)
| OSetUsage (id : string) (u : ContextUsageReading)
| OAppend (id text : string)
| OClear (id : string) (n : Z)
| OPromote (id name : string)
| OSetLabel (cwd : string) (l : option string)
| ORekey (rekey : gmap string string)
| OMarkSeeded
| OSweep (now : instant).

Definition persister (fail : option stage) (_ : registryFile) (w : unit) : unit * option registryError :=
  (w, ErrPersist <$> fail).

Definition exec (o : op) (r : Registry) : Registry :=
  match o with
  | OCreate id name cwd sid promoted now => Create (new_conversation id name cwd sid promoted now) r
  | OEdit id e => fst (edit_conversation e id r)
  | ORebind a b => fst (RebindSession a b r)
  | OSwitch id a b fail => fst (fst (fst (switchSession (persister fail) id a b r ())))
  | OAdvance id u l fail => fst (fst (fst (fst (advanceReadUpTo (persister fail) id u l r ()))))
  | ODelete id => fst (fst (Delete id r))
  | OSetArchived id b now => fst (SetArchived id b now r)
  | OSetMuted id b => fst (SetMuted id b r)
  | OSetPinned id b now => fst (SetPinned id b now r)
  | OSetSystemPrompt id p => fst (SetSystemPrompt id p r)
  | OSetUsage id u => fst (SetLastContextUsage id u r)
  | OAppend id t => fst (AppendPendingChannelPost id t r)
  | OClear id n => fst (ClearPendingChannelPosts id n r)
  | OPromote id n => fst (Promote id n r)
  | OSetLabel cwd l => SetWorkspaceLabel cwd l r
  | ORekey m => fst (RekeyCwds m r)
  | OMarkSeeded => MarkSeeded r
  | OSweep now => fst (Sweep now r)
  end.

Definition run (os : list op) (r : Registry) : Registry := foldl (fun r o => exec o r) r os.

(** The ids an operation brings in, and whether it gives a promoted
    conversation the name [n] without asking who else has it. *)
Definition created (o : op) : list string := match o with OCreate id _ _ _ _ _ => [id] | _ => [] end.
Definition given (n : string) (o : op) : nat :=
  match o with
  | OCreate _ name _ _ promoted _ => if promoted then if decide (name = Some n) then 1 else 0 else 0
  | OEdit _ (ERename t) | OEdit _ (EAutoName t) => if decide (t = n) then 1 else 0
  | _ => 0
  end.

(** The bound on the holders of [n] that [Promote] keeps: one, if [n] is not
    blank, and otherwise those there are. *)
Definition at_most (n : string) (k : nat) : nat := if blank n then k else Nat.max 1 k.

(** ** One operation *)

Record kept (o : op) (r r' : Registry) : Prop := {
  ke_each : registry_ok r -> registry_ok r';
  ke_ids : ids r' `sublist_of` ids r ++ created o;
  ke_names : forall n, (holders n r' <= at_most n (holders n r) + given n o)%nat;
}.

Lemma at_most_ge n k : (k <= at_most n k)%nat.
Proof. unfold at_most. destruct (blank n); lia. Qed.

(** Nothing about the rows changes but to their good. *)
Lemma kept_rows o r r' :
  (registry_ok r -> registry_ok r') -> ids r' `sublist_of` ids r -> (forall n, (holders n r' <= holders n r)%nat) -> kept o r r'.
Proof.
  intros H1 H2 H3. split; [done|by apply sublist_inserts_r|]. intros n. pose proof (H3 n). pose proof (at_most_ge n (holders n r)). lia.
Qed.

Lemma kept_unchanged o r : kept o r r.
Proof. by apply kept_rows. Qed.

Lemma elem_of_update_found {A} (p : A -> bool) f l x y :
  find_first p l = Some x -> y ∈ update_first p f l -> y ∈ l \/ y = f x.
Proof.
  induction l as [|z l IH]; simpl; [done|]. destruct (p z) eqn:Hp.
  - intros [= ->] [->|Hy]%elem_of_cons; [by right|left; by right].
  - intros Hx [->|Hy]%elem_of_cons; [left; by left|]. destruct (IH Hx Hy); [left; by right|by right].
Qed.

Lemma sum_update_found {A} (w : A -> nat) p f l x :
  find_first p l = Some x -> (sum_list_with w (update_first p f l) + w x = sum_list_with w l + w (f x))%nat.
Proof. induction l as [|y l IH]; simpl; [done|]. destruct (p y); simpl; [intros [= ->]; lia|intros H; specialize (IH H); lia]. Qed.

Lemma fmap_update_found {A B} (g : A -> B) p f l x :
  find_first p l = Some x -> g (f x) = g x -> g <$> update_first p f l = g <$> l.
Proof.
  intros Hx Hg. induction l as [|y l IH]; simpl in *; [done|]. destruct (p y); rewrite !fmap_cons; [simplify_eq; by rewrite Hg|by rewrite IH].
Qed.

(** The common case: the first match is replaced. *)
Lemma kept_update o p f r x :
  find_first p (conversations r) = Some x ->
  (conv_ok x -> conv_ok (f x)) -> ID (f x) = ID x -> (forall n, (holds n (f x) <= holds n x + given n o)%nat) ->
  kept o r (set_conversations (update_first p f (conversations r)) r).
Proof.
  intros Hx Hf Hid Hh. split.
  - intros Hr c Hc. destruct (elem_of_update_found _ _ _ _ _ Hx Hc) as [?| ->]; [auto|].
    apply Hf, Hr. by apply find_first_Some in Hx as [? _].
  - apply sublist_inserts_r. unfold ids. simpl. by rewrite (fmap_update_found ID _ _ _ _ Hx Hid).
  - intros n. pose proof (sum_update_found (holds n) p f _ _ Hx). pose proof (Hh n). pose proof (at_most_ge n (holders n r)).
    unfold holders in *. simpl in *. lia.
Qed.

Lemma kept_Update o id f r :
  (forall x, Get id r = Some x -> (conv_ok x -> conv_ok (f x)) /\ ID (f x) = ID x /\
     forall n, (holds n (f x) <= holds n x + given n o)%nat) ->
  kept o r (fst (Update id f r)).
Proof.
  intros Hf. unfold Update. destruct (Get id r) as [x|] eqn:Hx; [|apply kept_unchanged]. simpl.
  destruct (Hf x eq_refl) as (H1 & H2 & H3). by apply (kept_update _ _ _ _ x).
Qed.

(** The field writes that leave the id, the name and the promotion. *)
Lemma kept_quiet o id f r :
  (forall x, Get id r = Some x -> (conv_ok x -> conv_ok (f x)) /\ ID (f x) = ID x /\ held (f x) = held x) ->
  kept o r (fst (Update id f r)).
Proof.
  intros Hf. apply kept_Update. intros x Hx. destruct (Hf x Hx) as (? & ? & Hh). split_and!; [done..|].
  intros n. unfold holds. rewrite Hh. lia.
Qed.

Lemma kept_sublist o r l :
  l `sublist_of` conversations r -> kept o r (set_conversations l r).
Proof.
  intros Hl. apply kept_rows.
  - intros Hr c Hc. apply Hr. by eapply elem_of_sublist.
  - by apply fmap_sublist.
  - intros n. unfold holders. simpl. induction Hl; simpl; lia.
Qed.

Lemma name_taken_spec idx n l :
  name_taken idx n l = false -> forall j c, l !! j = Some c -> j <> idx -> held c <> Some n.
Proof.
  intros H j c Hj Hne Hh. unfold held in Hh. destruct (IsPromoted c) eqn:Hp; [|done].
  assert (name_taken idx n l = true) as Ht; [|congruence]. unfold name_taken.
  apply existsb_exists. exists (j, c). split.
  - apply list_elem_of_In, list_elem_of_lookup. exists j. by rewrite list_lookup_imap, Hj.
  - simpl. rewrite Hp, Hh. rewrite bool_decide_eq_false_2 by done. by rewrite bool_decide_eq_true_2.
Qed.

Lemma alter_insert {A} (f : A -> A) (l : list A) (i : nat) x : l !! i = Some x -> alter f i l = <[i := f x]> l.
Proof.
  intros Hx. apply list_eq. intros j. destruct (decide (j = i)) as [->|Hj].
  - rewrite list_lookup_alter_eq, list_lookup_insert_eq by (by eapply lookup_lt_Some). by rewrite Hx.
  - by rewrite list_lookup_alter_ne, list_lookup_insert_ne by done.
Qed.

Lemma kept_Promote o id n r : kept o r (fst (Promote id n r)).
Proof.
  unfold Promote. destruct (blank n) eqn:Hb; [apply kept_unchanged|].
  destruct (IndexFunc _ _) as [idx|] eqn:Hidx; [|apply kept_unchanged].
  apply IndexFunc_Some in Hidx as [(c & Hc & _) _]. rewrite Hc.
  destruct (IsPromoted c) eqn:Hp; [apply kept_unchanged|]. destruct (name_taken _ _ _) eqn:Ht; [apply kept_unchanged|].
  pose proof (name_taken_spec _ _ _ Ht) as Hfree. simpl. rewrite (alter_insert _ _ _ _ Hc).
  assert (c ∈ conversations r) as Hin by (apply list_elem_of_lookup; eauto). split.
  - intros Hr x (j & Hj)%list_elem_of_lookup. simpl in Hj. apply list_lookup_insert_Some in Hj as [(_ & <- & _)|(_ & Hj)].
    + destruct (Hr c Hin). by split.
    + apply Hr, list_elem_of_lookup. eauto.
  - apply sublist_inserts_r. unfold ids. simpl. rewrite list_fmap_insert, list_insert_id; [done|]. by rewrite list_lookup_fmap, Hc.
  - intros m. pose proof (sum_list_insert (holds m) _ _ _ (set_promoted n c) Hc) as Hs. unfold holders. simpl.
    assert (holds m c = 0%nat) as Hz by (unfold holds, held; by rewrite Hp). rewrite Hz in Hs.
    unfold holds in Hs at 3. change (held (set_promoted n c)) with (Some n) in Hs. case_decide as Hm; [|pose proof (at_most_ge m (sum_list_with (holds m) (conversations r))); lia].
    injection Hm as ->. assert (sum_list_with (holds m) (conversations r) = 0%nat) as H0.
    { apply sum_list_zero. intros x (j & Hj)%list_elem_of_lookup. destruct (decide (j = idx)) as [->|Hne]; [congruence|].
      unfold holds. rewrite decide_False; [done|]. by eapply Hfree. }
    unfold at_most. rewrite Hb. lia.
Qed.

Lemma conv_ok_session sid h c : conv_ok c -> conv_ok (set_session sid h c).
Proof. by intros []. Qed.

Lemma pending_bytes_app l l' : pending_bytes (l ++ l') = pending_bytes l + pending_bytes l'.
Proof. induction l as [|p l IH]; simpl; [done|]. lia. Qed.

Lemma pending_bytes_nonneg l : 0 <= pending_bytes l.
Proof. induction l as [|p l IH]; simpl; [done|]. unfold slen. lia. Qed.

Lemma conv_ok_pending l c :
  Z.of_nat (length l) <= MaxPendingChannelPosts -> pending_bytes l <= MaxPendingChannelPostsBytes ->
  conv_ok c -> conv_ok (set_pending l c).
Proof. intros ?? []. by split. Qed.

Lemma kept_Append o id t r : kept o r (fst (AppendPendingChannelPost id t r)).
Proof.
  unfold AppendPendingChannelPost. destruct (Get id r) as [c|] eqn:Hc; [|apply kept_unchanged].
  destruct (_ <=? _) eqn:Hl; [apply kept_unchanged|]. destruct (_ <? _) eqn:Hb; [apply kept_unchanged|]. reflect_bools.
  apply kept_quiet. intros x Hx. rewrite Hc in Hx. injection Hx as <-. split; [|done]. intros Hok.
  apply conv_ok_pending; [|rewrite pending_bytes_app; simpl; lia|done]. rewrite length_app. simpl. lia.
Qed.

Lemma kept_Clear o id n r : kept o r (fst (ClearPendingChannelPosts id n r)).
Proof.
  apply kept_quiet. intros x _. split; [intros Hok; pose proof (ok_pending _ Hok) as [Hl Hb]|by repeat case_match].
  repeat case_match; try done; apply conv_ok_pending; try done.
  - rewrite length_drop. lia.
  - rewrite <- (take_drop (Z.to_nat n) (PendingPosts x)), pending_bytes_app in Hb.
    pose proof (pending_bytes_nonneg (take (Z.to_nat n) (PendingPosts x))). lia.
Qed.

Lemma Delete_spec id r :
  Delete id r = match IndexFunc (has_ID id) (conversations r) with
                | Some i => (set_conversations (remove_at i (conversations r)) r, true, if onDelete r then [id] else [])
                | None => (r, false, []) end.
Proof. done. Qed.

Lemma Delete_rows id r : exists l, fst (fst (Delete id r)) = set_conversations l r /\ l `sublist_of` conversations r.
Proof.
  rewrite Delete_spec. destruct (IndexFunc _ _) as [i|]; [exists (remove_at i (conversations r)); split; [done|apply sublist_remove_at]|].
  exists (conversations r). by destruct r.
Qed.

Lemma sweep_rows l now r n :
  exists l', fst (sweep_loop l now r n) = set_conversations l' r /\ l' `sublist_of` conversations r.
Proof.
  revert r n. induction l as [|c l IH]; intros r n; simpl; [exists (conversations r); by destruct r|].
  destruct (ShouldArchive c now); [|apply IH]. destruct (Delete_rows (ID c) r) as (l1 & E & Hl).
  destruct (Delete (ID c) r) as [[r' b] ev]. simpl in E. subst r'. destruct b;
    match goal with |- context [sweep_loop l now ?r1 ?n1] => destruct (IH r1 n1) as (l2 & -> & Hl2) end;
    exists l2; (split; [done|by etrans]).
Qed.

Lemma kept_rekey o m r : kept o r (fst (RekeyCwds m r)).
Proof.
  apply kept_rows.
  - intros Hr c (x & -> & Hx)%list_elem_of_fmap. apply Hr in Hx. destruct (rekey_cwd m x); [|done]. by destruct Hx.
  - unfold ids. simpl. rewrite <- list_fmap_compose. erewrite list_fmap_ext; [reflexivity|].
    intros i c _. simpl. by destruct (rekey_cwd m c).
  - intros n. unfold holders. simpl. generalize (conversations r) as l. induction l as [|c l IH]; simpl; [done|].
    apply Nat.add_le_mono; [|exact IH]. by destruct (rekey_cwd m c).
Qed.

Lemma kept_edit id e r : kept (OEdit id e) r (fst (edit_conversation e id r)).
Proof.
  assert (kept (OEdit id e) r (fst (Update id (edit_row e) r))) as H.
  { apply kept_Update. intros x _. split; [by destruct e as [t|d|now|t]; intros [] ; cbn [edit_row]; repeat case_match|].
    split; [by destruct e; cbn [edit_row]; repeat case_match|]. intros n. unfold holds, held.
    destruct e as [t|d|now|t]; cbn [edit_row given]; [| | |destruct (Name x) as [m|] eqn:Hn]; simpl; rewrite ?Hn; try lia;
      destruct (IsPromoted x); repeat case_decide; try lia; congruence. }
  destruct e as [t|d|now|t]; cbn [edit_conversation]; try exact H. destruct (blank t); [apply kept_unchanged|exact H].
Qed.

Lemma exec_kept o r : kept o r (exec o r).
Proof.
  destruct o; cbn [exec].
  - split; simpl.
    + intros Hr x [Hx| ->%list_elem_of_singleton]%elem_of_app; [auto|]. by split; simpl; try done; intros [? ?].
    + unfold ids. simpl. by rewrite fmap_app.
    + intros n. unfold holders. simpl. rewrite sum_list_with_app. simpl. pose proof (at_most_ge n (sum_list_with (holds n) (conversations r))).
      unfold holds at 2, held. simpl. destruct promoted; [|case_decide; [done|lia]]. repeat case_decide; lia.
  - apply kept_edit.
  - unfold RebindSession, RebindSessionOwner. case_bool_decide; [apply kept_unchanged|].
    destruct (find_first _ _) as [c|] eqn:Hc; [|apply kept_unchanged]. simpl.
    apply (kept_update _ _ _ _ c); [done|apply conv_ok_session|done|intros n; unfold holds, held; simpl; lia].
  - unfold switchSession. destruct (find_first _ _) as [c|] eqn:Hc; [|apply kept_unchanged].
    destruct fail; [apply kept_unchanged|]. simpl.
    apply (kept_update _ _ _ _ c); [done|apply conv_ok_session|done|intros n; unfold holds, held; simpl; lia].
  - unfold advanceReadUpTo. destruct (Get id r) as [c|]; [|apply kept_unchanged]. destruct (_ =? _); [apply kept_unchanged|].
    destruct fail; [apply kept_unchanged|]. apply kept_quiet. intros x _. split_and!; [by intros []|done|done].
  - destruct (Delete_rows id r) as (l & -> & Hl). by apply kept_sublist.
  - apply kept_quiet. intros x _. split; [|destruct b; simpl; [destruct (IsArchived x)|]; done].
    intros Hx. destruct b; simpl; [destruct (IsArchived x) eqn:Ha|]; [done|destruct Hx; by split|].
    destruct Hx. split; try done; simpl. by split; [|intros [? ?]].
  - apply kept_quiet. intros x _. split_and!; [by intros []|done|done].
  - unfold SetPinned. destruct (Get id r) as [c|] eqn:Hc; [|apply kept_unchanged].
    destruct (b && negb (IsPromoted c)) eqn:Hp; [apply kept_unchanged|]. simpl. apply kept_quiet.
    intros x Hx. assert (x = c) as -> by congruence. apply andb_false_iff in Hp.
    split; [|by repeat case_match]. intros Hok. repeat case_match; try done; destruct Hok; split; try done; simpl.
    + by intros [? ?].
    + intros _. destruct Hp as [Hp|Hp]; reflect_bools; [by destruct b|done].
  - assert (ValidString (default ""%string p) = true -> slen (default ""%string p) <= MaxSystemPromptBytes ->
            kept (OSetSystemPrompt id p) r (fst (Update id (set_systemPrompt p) r))) as Hu.
    { intros Hv Hl. apply kept_quiet. intros x _. split; [|done].
      intros []. split; try done. simpl. by intros q ->. }
    unfold SetSystemPrompt. destruct p as [q|]; simpl in Hu.
    + destruct (_ <? _) eqn:Hl; [apply kept_unchanged|]. destruct (ValidString q) eqn:Hv; simpl; [|apply kept_unchanged].
      reflect_bools. specialize (Hu eq_refl Hl).
      by destruct (Update id (set_systemPrompt (Some q)) r) as [r' [|]].
    + specialize (Hu eq_refl ltac:(done)).
      by destruct (Update id (set_systemPrompt None) r) as [r' [|]].
  - apply kept_quiet. intros x _. split_and!; [by intros []|done|done].
  - apply kept_Append.
  - apply kept_Clear.
  - apply kept_Promote.
  - by apply kept_rows.
  - apply kept_rekey.
  - by apply kept_rows.
  - unfold Sweep. destruct (sweep_rows (List [] r) now r 0) as (l & -> & Hl). by apply kept_sublist.
Qed.

Lemma at_most_add n k j : (at_most n (at_most n k + j) <= at_most n k + j)%nat.
Proof. unfold at_most. destruct (blank n); lia. Qed.

Lemma run_kept os r :
  (registry_ok r -> registry_ok (run os r)) /\ ids (run os r) `sublist_of` ids r ++ concat (created <$> os)
  /\ forall n, (holders n (run os r) <= at_most n (holders n r) + sum_list_with (given n) os)%nat.
Proof.
  induction os as [|o os (IH1 & IH2 & IH3)] using rev_ind.
  - split_and!; [done|by rewrite app_nil_r|]. intros n. simpl. pose proof (at_most_ge n (holders n r)). lia.
  - unfold run in *. rewrite foldl_app. simpl. destruct (exec_kept o (foldl (fun r o => exec o r) r os)) as [H1 H2 H3]. split_and!.
    + auto.
    + etrans; [exact H2|]. rewrite fmap_app, concat_app, app_assoc. simpl. rewrite app_nil_r. by apply sublist_app.
    + intros n. etrans; [apply H3|]. rewrite sum_list_with_app. simpl.
      pose proof (at_most_add n (holders n r) (sum_list_with (given n) os)). pose proof (IH3 n).
      assert (forall a b, (a <= b)%nat -> (at_most n a <= at_most n b)%nat) as Hm by (intros a b ?; unfold at_most; destruct (blank n); lia).
      pose proof (Hm _ _ (IH3 n)). lia.
Qed.

(** ** Sweeping *)

Definition due (now : instant) (c : Conversation) : Prop := ShouldArchive c now = true.

#[export] Instance due_dec now c : Decision (due now c).
Proof. unfold due. apply _. Defined.

Lemma IndexFunc_app_first (p : Conversation -> bool) l c l' :
  (forall x, x ∈ l -> p x = false) -> p c = true -> IndexFunc p (l ++ c :: l') = Some (length l).
Proof.
  intros Hl Hc. induction l as [|x l IH]; simpl; [by rewrite Hc|].
  rewrite (Hl x) by left. rewrite IH; [done|]. intros y Hy. apply Hl. by right.
Qed.

Lemma Delete_middle kept c l r :
  conversations r = kept ++ c :: l -> NoDup (ID <$> conversations r) ->
  fst (Delete (ID c) r) = (set_conversations (kept ++ l) r, true).
Proof.
  intros Hr Hd. rewrite Delete_spec, Hr, (IndexFunc_app_first _ kept c l).
  - simpl. unfold remove_at. rewrite take_app_length, drop_app_ge by lia.
    by replace (S (length kept) - length kept)%nat with 1%nat by lia.
  - intros x Hx. unfold has_ID. apply bool_decide_eq_false_2. intros He. rewrite Hr, fmap_app in Hd.
    apply NoDup_app in Hd as (_ & Hdis & _). apply (Hdis (ID x)); [by apply list_elem_of_fmap_2|].
    rewrite He. csimpl. by left.
  - unfold has_ID. by apply bool_decide_eq_true_2.
Qed.

Lemma sweep_loop_spec kept l now r n :
  conversations r = kept ++ l -> NoDup (ID <$> conversations r) ->
  sweep_loop l now r n
  = (set_conversations (kept ++ filter (fun c => ~ due now c) l) r,
     n + Z.of_nat (length (filter (due now) l))).
Proof.
  revert kept r n. induction l as [|c l IH]; intros kept r n Hr Hd; simpl.
  - rewrite app_nil_r, Z.add_0_r in *. rewrite <- Hr. by destruct r.
  - destruct (decide (due now c)) as [Hs|Hs]; unfold due in Hs.
    + rewrite Hs, (filter_cons_False (fun c => ~ due now c)), filter_cons_True by (unfold due; tauto).
      pose proof (Delete_middle kept c l r Hr Hd) as Hdel.
      destruct (Delete (ID c) r) as [[r' b] ev]. simpl in Hdel. injection Hdel as -> ->.
      rewrite (IH kept); simpl; [f_equal; lia|done|].
      rewrite Hr, fmap_app in Hd. csimpl in Hd. rewrite fmap_app.
      apply NoDup_app in Hd as (H1 & H2 & [_ H3]%NoDup_cons). apply NoDup_app. split_and!; [done| |done].
      intros x Hx Hx'. apply (H2 x Hx). by right.
    + apply not_true_is_false in Hs. rewrite Hs.
      rewrite filter_cons_True, filter_cons_False by (unfold due; congruence).
      rewrite (IH (kept ++ [c])); [by rewrite <- app_assoc|by rewrite <- app_assoc|done].
Qed.

Lemma Sweep_spec now r :
  NoDup (ID <$> conversations r) ->
  Sweep now r = (set_conversations (filter (fun c => ~ due now c) (conversations r)) r,
                 Z.of_nat (length (filter (due now) (conversations r)))).
Proof.
  intros Hd. unfold Sweep. assert (List [] r = conversations r) as ->.
  { unfold List. simpl. generalize (conversations r) as l. induction l as [|c l IH]; [done|].
    rewrite filter_cons_True, IH; done. }
  by rewrite (sweep_loop_spec [] (conversations r)).
Qed.

(** ** Labels under rekeying *)

(** No target of the map is itself moved. *)
Definition no_chain (m : gmap string string) : Prop :=
  forall old to, m !! old = Some to -> old <> to -> m !! to = None \/ m !! to = Some to.

Definition moved (m : gmap string string) (k : string) : bool :=
  match m !! k with Some to => negb (bool_decide (k = to)) | None => false end.

(** The label that reaches [k] from the old key [old]. *)
Definition arrives (m L : gmap string string) (k old : string) : option string :=
  if decide (m !! old = Some k) then L !! old else None.

Lemma moved_spec m k : moved m k = true <-> exists to, m !! k = Some to /\ k <> to.
Proof.
  unfold moved. destruct (m !! k) as [to|]; [|split; [done|by intros (? & ? & _)]].
  rewrite negb_true_iff, bool_decide_eq_false. split; [eauto|by intros (? & [= <-] & ?)].
Qed.

Lemma no_chain_target m old to : no_chain m -> m !! old = Some to -> old <> to -> moved m to = false.
Proof. intros Hn Hm Hne. unfold moved. destruct (Hn _ _ Hm Hne) as [-> | ->]; [done|]. by rewrite bool_decide_eq_true_2. Qed.

Lemma rekey_label_lookup m L old to k :
  m !! old = Some to -> old <> to ->
  rekey_label m L old !! k
  = if decide (k = old) then None
    else if decide (k = to) then match L !! to with Some v => Some v | None => L !! old end
    else L !! k.
Proof.
  intros Hm Hne. unfold rekey_label. rewrite Hm. simpl.
  destruct (L !! old) as [v|] eqn:Hv.
  - rewrite lookup_delete_ne by done. destruct (L !! to) as [w|] eqn:Hw; repeat case_decide; subst; by simplify_map_eq.
  - repeat case_decide; subst; try done. by destruct (L !! to).
Qed.

Lemma rekey_labels_spec m os L :
  no_chain m -> NoDup os -> (forall o, o ∈ os -> moved m o = true) ->
  forall k, foldl (rekey_label m) L os !! k
  = if decide (k ∈ os) then None
    else if moved m k then L !! k
    else match L !! k with Some v => Some v | None => head (omap (arrives m L k) os) end.
Proof.
  intros Hn. revert L. induction os as [|o os IH]; intros L Hnd Hmv k.
  { simpl. destruct (decide (k ∈ [])) as [Hk|_]; [by apply not_elem_of_nil in Hk|].
    destruct (moved m k); [done|]. by destruct (L !! k). }
  apply NoDup_cons in Hnd as [Ho Hnd].
  destruct (proj1 (moved_spec _ _) (Hmv o ltac:(by left))) as (to & Hto & Hne).
  pose proof (no_chain_target _ _ _ Hn Hto Hne) as Hmto.
  simpl foldl. rewrite IH; [|done|by intros; apply Hmv; right].
  rewrite (rekey_label_lookup _ _ _ _ _ Hto Hne).
  assert (forall j, j ∈ os -> rekey_label m L o !! j = L !! j) as Hsame.
  { intros j Hj. rewrite (rekey_label_lookup _ _ _ _ _ Hto Hne). rewrite decide_False by congruence.
    rewrite decide_False; [done|]. intros ->. rewrite Hmv in Hmto by (by right). done. }
  assert (omap (arrives m (rekey_label m L o) k) os = omap (arrives m L k) os) as ->.
  { apply omap_ext_in. intros j Hj. unfold arrives. by rewrite Hsame. }
  destruct (decide (k = o)) as [->|Hko].
  { rewrite (decide_True (P := o ∈ o :: os)) by left. rewrite decide_False by done.
    by rewrite (Hmv o ltac:(by left)). }
  assert (k ∈ o :: os <-> k ∈ os) as Hin by (rewrite elem_of_cons; naive_solver).
  rewrite (decide_ext _ _ _ _ Hin). destruct (decide (k ∈ os)); [done|].
  destruct (decide (k = to)) as [->|Hkt].
  - rewrite Hmto. destruct (L !! to) as [v|] eqn:Hlt; [done|]. cbn. unfold arrives at 2.
    rewrite decide_True by done. by destruct (L !! o).
  - destruct (moved m k); [done|]. destruct (L !! k); [done|]. cbn. unfold arrives at 2.
    by rewrite decide_False by congruence.
Qed.

(** ** Identifiers *)

Definition hex_ok (c : Z) : bool := in_range 48 57 c || in_range 97 102 c.

Lemma hex_high b : is_byte b = true -> hex_ok (byte (hexdigit (Z.shiftr b 4))) = true.
Proof. apply (all_bytes (fun b => hex_ok (byte (hexdigit (Z.shiftr b 4))))). by vm_compute. Qed.

Lemma hex_low b : is_byte b = true -> hex_ok (byte (hexdigit (Z.land b 15))) = true.
Proof. apply (all_bytes (fun b => hex_ok (byte (hexdigit (Z.land b 15))))). by vm_compute. Qed.

Lemma version_nibble b :
  is_byte b = true -> (byte (hexdigit (Z.shiftr (Z.lor (Z.land b 15) 64) 4)) =? 52) = true
  /\ is_byte (Z.lor (Z.land b 15) 64) = true.
Proof.
  intros Hb. apply andb_true_iff.
  apply (all_bytes (fun b => (byte (hexdigit (Z.shiftr (Z.lor (Z.land b 15) 64) 4)) =? 52)
                             && is_byte (Z.lor (Z.land b 15) 64))); [by vm_compute|done].
Qed.

Definition variant_ok (c : Z) : bool := (c =? 56) || (c =? 57) || (c =? 97) || (c =? 98).

Lemma variant_nibble b :
  is_byte b = true -> variant_ok (byte (hexdigit (Z.shiftr (Z.lor (Z.land b 63) 128) 4))) = true
  /\ is_byte (Z.lor (Z.land b 63) 128) = true.
Proof.
  intros Hb. apply andb_true_iff.
  apply (all_bytes (fun b => variant_ok (byte (hexdigit (Z.shiftr (Z.lor (Z.land b 63) 128) 4)))
                             && is_byte (Z.lor (Z.land b 63) 128))); [by vm_compute|done].
Qed.

(** ** Properties *)

(** C10. Whatever operations the daemon runs, rows it creates and edits
    included: a registry whose rows are well formed keeps them so - only promoted
    conversations are pinned, archived ones (and only they) have a date, system
    prompts are valid and bounded, pending posts stay in their bounds; a row
    keeps its id and its place, and only creation brings one in; and of the
    promoted conversations with one name there come to be no more than were
    there, or one, besides those created with it or renamed to it: no promotion
    takes a name that is held or blank. *)
Theorem registry_stays_ok os r :
  (registry_ok r -> registry_ok (run os r))
  /\ ids (run os r) `sublist_of` ids r ++ concat (created <$> os)
  /\ forall n, (holders n (run os r)
        <= (if blank n then holders n r else Nat.max 1 (holders n r)) + sum_list_with (given n) os)%nat.
Proof. exact (run_kept os r). Qed.

(** Two channels created in one directory have the same name: neither creation
    nor renaming asks for another. *)
Example duplicates_permitted :
  holders "p" (run [OCreate "a" (Some "p") "/p" "s" true 0; OCreate "b" (Some "p") "/p" "t" true 1]
    (MkRegistry [] ∅ false false)) = 2%nat
  /\ holders "p" (run [OCreate "a" (Some "p") "/p" "s" true 0; OCreate "b" None "/q" "t" false 1; OPromote "b" "p"]
    (MkRegistry [] ∅ false false)) = 1%nat.
Proof. by vm_compute. Qed.

(** C11. A read marker or a session switch that is persisted on its way is
    atomic: on success the file holds exactly the registry's new state, on any
    failure - of whichever stage of the write - both the registry and every file
    are as they were, but that the temporary stays where its removal fails too; a marker never moves back nor past [latest]. *)
Theorem persisted_or_rolled_back encode w path id r f
    (Hne : path <> io_tmp w) (Hfresh : f !! io_tmp w = None) :
  (forall oldID newID r' f' ok err,
     SwitchSession encode w path id oldID newID r f = (r', f', ok, err) ->
     (ok = true /\ err = None /\ f' = <[path := encode (sorted_snapshot (snapshotLocked r'))]> f)
     \/ (ok = false /\ is_Some err /\ r' = r /\ up_to_temp (io_fails w) (io_tmp w) f f'))
  /\ (forall upTo latest r' f' c advanced err,
     AdvanceReadUpTo encode w path id upTo latest r f = (r', f', c, advanced, err) ->
     (advanced = true /\ err = None /\ f' = <[path := encode (sorted_snapshot (snapshotLocked r'))]> f
       /\ exists c0 c1, Get id r = Some c0 /\ c = Some c1 /\ ReadUpTo c0 < ReadUpTo c1 <= latest)
     \/ (advanced = false /\ r' = r /\ up_to_temp (io_fails w) (io_tmp w) f f')).
Proof.
  assert (forall s, writeRegistrySnapshot encode w path s f
            = match find_first (io_fails w) stages with
              | Some st => (left_over (io_fails w) (io_partial w) (io_tmp w) (encode (sorted_snapshot s)) f st, Some (ErrPersist st))
              | None => (<[path := encode (sorted_snapshot s)]> f, None) end) as Hw.
  { intros s. unfold writeRegistrySnapshot. rewrite write_atomic_spec by done. by destruct (find_first _ _). }
  assert (forall data st, up_to_temp (io_fails w) (io_tmp w) f (left_over (io_fails w) (io_partial w) (io_tmp w) data f st)) as Hl
    by (intros; by apply left_over_temp).
  assert (up_to_temp (io_fails w) (io_tmp w) f f) as Hf by (by left). split.
  - intros oldID newID r' f' ok err. unfold SwitchSession, switchSession.
    destruct (find_first _ (conversations r)); [|intros [= <- <- <- <-]; right; split_and!; eauto].
    rewrite Hw. destruct (find_first _ _); intros [= <- <- <- <-]; [right; split_and!; eauto|by left].
  - intros upTo latest r' f' c adv err. unfold AdvanceReadUpTo, advanceReadUpTo.
    destruct (Get id r) as [c0|] eqn:Hc; [|intros [= <- <- <- <- <-]; by right].
    destruct (_ =? _) eqn:Hn; [intros [= <- <- <- <- <-]; by right|].
    rewrite Hw. destruct (find_first _ _); intros [= <- <- <- <- <-]; [by right|left].
    reflect_bools. split_and!; try done. eexists _, _. split_and!; try done; simpl; lia.
Qed.

(** C12. What [Save] writes [Load] reads back: the same conversations, ordered
    by last use (ties by id), the same labels and the seeding mark - given that
    the JSON decoder inverts the encoder on the snapshot. *)
Theorem save_load encode decode w path r f f'
    (Hne : path <> io_tmp w) (Hfresh : f !! io_tmp w = None)
    (Hjson : decode (encode (sorted_snapshot (snapshotLocked r))) = Some (sorted_snapshot (snapshotLocked r)))
    (Hbytes : encode (sorted_snapshot (snapshotLocked r)) <> "")
    (Hsave : Save encode w path r f = (f', None)) :
  exists r', Load decode path f' = inl r'
    /\ conversations r' ≡ₚ conversations r
    /\ Sorted (not_after conv_less) (conversations r')
    /\ workspaceLabels r' = workspaceLabels r /\ seeded r' = seeded r.
Proof.
  unfold Save, writeRegistrySnapshot in Hsave. rewrite write_atomic_spec in Hsave by done.
  destruct (find_first _ _); [done|]. injection Hsave as <-. unfold Load.
  rewrite lookup_insert_eq, bool_decide_eq_false_2, Hjson by done. eexists. split; [done|]. simpl.
  split; [apply SliceStable_Permutation|]. split; [|done]. apply SliceStable_Sorted.
  intros x y. unfold conv_less. destruct (Z.eqb_spec (LastUsedAt x) (LastUsedAt y)) as [->|Hxy]; simpl.
  - rewrite Z.eqb_refl. simpl. unfold String.ltb. rewrite (String.compare_antisym (ID y)).
    by destruct (String.compare (ID x) (ID y)).
  - rewrite (proj2 (Z.eqb_neq _ _)) by lia. simpl. rewrite Z.ltb_lt, Z.ltb_ge. lia.
Qed.

(** Channel posts handed over in one batch are dropped once and no other:
    posts appended while the batch was in flight all remain, in order, when the
    batch is cleared by its count. *)
Theorem clear_keeps_later_posts id r batch later
    (Hpre : PendingChannelPosts id r = batch ++ later) :
  PendingChannelPosts id (fst (ClearPendingChannelPosts id (Z.of_nat (length batch)) r)) = later.
Proof.
  unfold PendingChannelPosts, ClearPendingChannelPosts, Update in *.
  destruct (Get id r) as [c|] eqn:Hc; simpl.
  - unfold Get in *. simpl. rewrite (find_update_first_eq _ _ _ c); [|by intros y; repeat case_match|done].
    destruct (Z.of_nat (length batch) <=? 0) eqn:H0; reflect_bools.
    { destruct batch; [done|]. simpl in H0. lia. }
    destruct (_ <=? _) eqn:H1; reflect_bools; simpl.
    + rewrite Hpre, length_app in H1. destruct later; [done|]. simpl in H1. lia.
    + by rewrite Hpre, Nat2Z.id, drop_app_length.
  - rewrite Hc. by destruct batch, later.
Qed.

(** A sweep removes exactly the unpromoted, unarchived conversations idle
    for the threshold, keeps the others in order, reports how many it removed,
    and a second sweep at the same time removes nothing. *)
Theorem sweep_exact now r (Hids : NoDup (ID <$> conversations r)) :
  let '(r', n) := Sweep now r in
  conversations r' = filter (fun c => ~ due now c) (conversations r)
  /\ n = Z.of_nat (length (conversations r)) - Z.of_nat (length (conversations r'))
  /\ Sweep now r' = (r', 0).
Proof.
  rewrite (Sweep_spec _ _ Hids). simpl. set (l := filter (fun c => ~ due now c) (conversations r)).
  assert (length (conversations r) = length l + length (filter (due now) (conversations r)))%nat as Hlen.
  { unfold l. generalize (conversations r) as cs. induction cs as [|c cs IH]; [done|].
    destruct (decide (due now c)).
    - rewrite filter_cons_False, filter_cons_True by tauto. simpl. lia.
    - rewrite filter_cons_True, filter_cons_False by tauto. simpl. lia. }
  split; [done|]. split; [lia|].
  assert (NoDup (ID <$> l)) as Hl.
  { eapply sublist_NoDup; [exact Hids|]. apply fmap_sublist, sublist_filter. }
  rewrite Sweep_spec by done. simpl.
  assert (forall x, x ∈ l -> ~ due now x) as Hnd by (intros x [? _]%list_elem_of_filter; done).
  clearbody l. clear -Hnd. assert (filter (fun c => ~ due now c) l = l /\ filter (due now) l = []) as [-> ->].
  { induction l as [|c l IH]; [done|]. pose proof (Hnd c ltac:(by left)).
    rewrite filter_cons_True, filter_cons_False by done.
    destruct IH as [-> ->]; [intros; apply Hnd; by right|done]. }
  done.
Qed.

(** A sweep whose save fails is not saved by the next tick: the swept
    conversations are gone from memory, so that tick finds nothing to sweep and
    writes no file, whatever it could write. *)
Theorem failed_sweep_not_retried encode w w' path now r f
    (Hids : NoDup (ID <$> conversations r))
    (Hne : path <> io_tmp w) (Hfresh : f !! io_tmp w = None)
    (Hfail : is_Some (find_first (io_fails w) stages)) :
  let '(r', f') := sweepOnce encode w path now r f in
  up_to_temp (io_fails w) (io_tmp w) f f' /\ conversations r' = filter (fun c => ~ due now c) (conversations r)
  /\ sweepOnce encode w' path now r' f' = (r', f').
Proof.
  pose proof (sweep_exact now r Hids) as Hs. unfold sweepOnce.
  destruct (Sweep now r) as [r1 n]. destruct Hs as (Hc & _ & Hagain).
  assert (up_to_temp (io_fails w) (io_tmp w) f (fst (Save encode w path r1 f))) as Hsave.
  { unfold Save, writeRegistrySnapshot. rewrite write_atomic_spec by done. destruct Hfail as [st ->]. by apply left_over_temp. }
  destruct (n =? 0); rewrite Hagain; split_and!; try done; by left.
Qed.

(** Rekeying along a map without chains moves every row's cwd to its
    target and counts the rows that moved; no moved key keeps a label, a label
    already at a target wins, and otherwise the first moved label in key order
    lands there. *)
Theorem rekey_cwds_spec m r (Hn : no_chain m) :
  let '(r', n) := RekeyCwds m r in
  Cwd <$> conversations r' = (fun c => default (Cwd c) (m !! Cwd c)) <$> conversations r
  /\ n = Z.of_nat (length (filter (fun c => moved m (Cwd c) = true) (conversations r)))
  /\ exists olds, NoDup olds /\ Sorted (not_after String.ltb) olds
       /\ (forall k, k ∈ olds <-> moved m k = true)
       /\ forall k, WorkspaceLabel k r'
            = if moved m k then None
              else match WorkspaceLabel k r with
                   | Some v => Some v
                   | None => head (omap (arrives m (workspaceLabels r) k) olds)
                   end.
Proof.
  unfold RekeyCwds. simpl. split; [|split].
  - rewrite <- list_fmap_compose. apply list_fmap_ext. intros i c _. simpl. unfold rekey_cwd.
    destruct (m !! Cwd c) as [to|]; [|done]. by case_bool_decide; subst.
  - do 2 f_equal. apply list_filter_iff. intros c. unfold rekey_cwd, moved.
    destruct (m !! Cwd c) as [to|]; simpl; [|split; [by intros []|done]].
    rewrite (bool_decide_ext (Cwd c = to) (to = Cwd c)) by done.
    case_bool_decide; simpl; split; [by intros []|done|done|by eexists].
  - set (ks := (filter (fun p => p.1 <> p.2) (map_to_list m)).*1).
    exists (SliceStable String.ltb ks).
    assert (NoDup ks) as Hnd.
    { apply NoDup_fmap_fst; [|apply NoDup_filter, NoDup_map_to_list].
      intros k x y [_ Hx%elem_of_map_to_list]%list_elem_of_filter
        [_ Hy%elem_of_map_to_list]%list_elem_of_filter. congruence. }
    assert (forall k, k ∈ SliceStable String.ltb ks <-> moved m k = true) as Hin.
    { intros k. rewrite SliceStable_Permutation, moved_spec. unfold ks. rewrite list_elem_of_fmap. split.
      - intros ([k' to] & -> & [Hne Hkt%elem_of_map_to_list]%list_elem_of_filter). eauto.
      - intros (to & Hk & Hne). exists (k, to). split; [done|]. apply list_elem_of_filter.
        split; [done|]. by apply elem_of_map_to_list. }
    split; [by rewrite SliceStable_Permutation|]. split; [|split; [done|]].
    + apply SliceStable_Sorted. intros x y. unfold String.ltb. rewrite (String.compare_antisym y).
      by destruct (String.compare x y).
    + intros k. unfold WorkspaceLabel. simpl.
      rewrite rekey_labels_spec; [|done|by rewrite SliceStable_Permutation|by intros; apply Hin].
      destruct (moved m k) eqn:Hk.
      * by rewrite decide_True by (by apply Hin).
      * rewrite decide_False; [done|]. rewrite Hin, Hk. done.
Qed.

(** Every identifier [NewID] mints passes [ValidID], whatever the random
    source returned. *)
Theorem NewID_valid b (Hlen : length b = 16%nat) (Hb : forallb is_byte b = true) :
  exists id, NewID (Some b) = Some id /\ ValidID id = true.
Proof.
  do 16 (destruct b as [|? b]; [done|]). destruct b; [|done]. clear Hlen.
  cbn [forallb] in Hb. rewrite !andb_true_iff in Hb. destruct_and!.
  set (hi := fun z => hexdigit (Z.shiftr z 4)). set (lo := fun z => hexdigit (Z.land z 15)).
  set (v := Z.lor (Z.land z5 15) 64). set (w := Z.lor (Z.land z7 63) 128).
  assert (version : is_byte z5 = true) by done. assert (variant : is_byte z7 = true) by done.
  apply version_nibble in version as [Hv Hv']. apply variant_nibble in variant as [Hw Hw'].
  exists (string_of_list_ascii
        [hi z; lo z; hi z0; lo z0; hi z1; lo z1; hi z2; lo z2; "-"%char; hi z3; lo z3; hi z4; lo z4;
         "-"%char; hi v; lo v; hi z6; lo z6; "-"%char; hi w; lo w; hi z8; lo z8; "-"%char; hi z9; lo z9;
         hi z10; lo z10; hi z11; lo z11; hi z12; lo z12; hi z13; lo z13; hi z14; lo z14]).
  split; [reflexivity|]. unfold ValidID. apply forallb_forall. intros i Hi%in_seq.
  do 36 (destruct i as [|i];
    [first [by apply hex_high | by apply hex_low | exact Hv | exact Hw | reflexivity]|]).
  lia.
Qed.

(** ** Witnesses *)

Definition demo_conv (id : string) (used : instant) : Conversation :=
  MkConversation id None "/w" "s0" [] false false None false None 3 None None [] used.
Definition demo_registry : Registry :=
  MkRegistry [demo_conv "a" 0; demo_conv "b" (60 * 24 * hour)] {[ "/w" := "work" ]} false false.
Definition demo_now : instant := 61 * 24 * hour.
Definition good_disk : io := MkIO (fun _ => false) "" "tmp".
Definition bad_disk : io := MkIO (fun st => bool_decide (st = SSync)) "half" "tmp".
Definition demo_encode (_ : registryFile) : string := "json".

Lemma demo_conv_ok id used : conv_ok (demo_conv id used).
Proof. split; simpl; try done; by intros [? ?]. Qed.

Lemma demo_registry_ok : registry_ok demo_registry.
Proof. intros c [->|[->|?%not_elem_of_nil]%elem_of_cons]%elem_of_cons; [apply demo_conv_ok..|done]. Qed.

Lemma demo_ids : NoDup (ID <$> conversations demo_registry).
Proof. apply (bool_decide_unpack _). by vm_compute. Qed.

(** A promotion, a creation and a rename, with a pin and a sweep between. *)
Definition demo_ops : list op :=
  [OPromote "b" "notes"; OSetPinned "b" true 5; OCreate "c" (Some "notes") "/c" "s1" true 6; OPromote "a" "notes";
   OEdit "c" (ERename "work"); OSweep demo_now].

Lemma registry_stays_ok_witness :
  registry_ok (run demo_ops demo_registry) /\ ids (run demo_ops demo_registry) = ["b"; "c"]
  /\ (holders "notes" (run demo_ops demo_registry) <= 2)%nat.
Proof.
  destruct (registry_stays_ok demo_ops demo_registry) as (H1 & _ & H3).
  split; [exact (H1 demo_registry_ok)|]. split; [by vm_compute|]. exact (H3 "notes").
Defined.

Lemma persisted_or_rolled_back_witness :
  (exists r' c, AdvanceReadUpTo demo_encode good_disk "reg" "a" 9 7 demo_registry ∅
                = (r', {[ "reg" := "json" ]}, Some c, true, None) /\ ReadUpTo c = 7)
  /\ AdvanceReadUpTo demo_encode bad_disk "reg" "a" 9 7 demo_registry ∅
     = (demo_registry, ∅, None, false, Some (ErrPersist SSync)).
Proof.
  split; [|by vm_compute].
  destruct (AdvanceReadUpTo demo_encode good_disk "reg" "a" 9 7 demo_registry ∅)
    as [[[[r' f'] c] adv] err] eqn:E.
  assert (adv = true /\ (ReadUpTo <$> c) = Some 7) as [Ha Hr] by (vm_compute in E; by simplify_eq).
  destruct (proj2 (persisted_or_rolled_back demo_encode good_disk "reg" "a" demo_registry ∅
    ltac:(done) ltac:(done)) _ _ _ _ _ _ _ E) as [(? & -> & -> & c0 & c1 & ? & -> & ?)|[? ?]]; [|congruence].
  subst adv. exists r', c1. split; [done|]. by injection Hr.
Defined.

Lemma save_load_witness :
  exists r', Load (fun _ => Some (sorted_snapshot (snapshotLocked demo_registry))) "reg" {[ "reg" := "json" ]} = inl r'
    /\ conversations r' ≡ₚ conversations demo_registry.
Proof.
  destruct (save_load demo_encode (fun _ => Some (sorted_snapshot (snapshotLocked demo_registry)))
    good_disk "reg" demo_registry ∅ {[ "reg" := "json" ]}) as (r' & ? & ? & _); [done..|by vm_compute|].
  by exists r'.
Defined.

Lemma clear_keeps_later_posts_witness :
  let r := fst (AppendPendingChannelPost "a" "q" (fst (AppendPendingChannelPost "a" "p" demo_registry))) in
  PendingChannelPosts "a" (fst (ClearPendingChannelPosts "a" 1 r)) = ["q"].
Proof.
  apply (clear_keeps_later_posts "a" (fst (AppendPendingChannelPost "a" "q"
    (fst (AppendPendingChannelPost "a" "p" demo_registry)))) ["p"] ["q"]). by vm_compute.
Defined.

Lemma sweep_exact_witness :
  let '(r', n) := Sweep demo_now demo_registry in
  (ID <$> conversations r') = ["b"] /\ n = 1 /\ Sweep demo_now r' = (r', 0).
Proof.
  pose proof (sweep_exact demo_now demo_registry demo_ids) as H.
  destruct (Sweep demo_now demo_registry) as [r' n]. destruct H as (Hc & Hn & Hs).
  split; [rewrite Hc; by vm_compute|]. split; [rewrite Hn, Hc; by vm_compute|done].
Defined.

Lemma failed_sweep_not_retried_witness :
  let '(r', f') := sweepOnce demo_encode bad_disk "reg" demo_now demo_registry ∅ in
  f' = ∅ /\ sweepOnce demo_encode good_disk "reg" demo_now r' f' = (r', ∅) /\ length (conversations r') = 1%nat.
Proof.
  pose proof (failed_sweep_not_retried demo_encode bad_disk good_disk "reg" demo_now demo_registry ∅
    demo_ids ltac:(done) ltac:(done) ltac:(by vm_compute; eexists)) as H.
  destruct (sweepOnce demo_encode bad_disk "reg" demo_now demo_registry ∅) as [r' f'].
  destruct H as ([->|[? _]] & Hc & ?); [|done]. split; [done|]. split; [done|]. rewrite Hc. by vm_compute.
Defined.

Lemma rekey_cwds_spec_witness :
  let '(r', n) := RekeyCwds {[ "/w" := "/real/w" ]} demo_registry in
  Cwd <$> conversations r' = ["/real/w"; "/real/w"] /\ n = 2 /\ WorkspaceLabel "/w" r' = None.
Proof.
  assert (no_chain {[ "/w" := "/real/w" ]}) as Hn.
  { intros old to Ho Hne. left. apply lookup_singleton_Some in Ho as [<- <-]. by vm_compute. }
  pose proof (rekey_cwds_spec {[ "/w" := "/real/w" ]} demo_registry Hn) as H.
  destruct (RekeyCwds {[ "/w" := "/real/w" ]} demo_registry) as [r' n].
  destruct H as (Hc & -> & olds & _ & _ & _ & Hl). rewrite Hc, Hl. by vm_compute.
Defined.

Lemma NewID_valid_witness :
  exists id, NewID (Some (replicate 16 255)) = Some id /\ ValidID id = true.
Proof. apply (NewID_valid (replicate 16 255)); by vm_compute. Defined.

End ConversationsProps.
