(* ===== verification/Devices.v ===== *)
(** * Paired devices ([internal/devices])

    [device.go], [registry.go], [auth.go] and [lock.go]: the registry of paired
    devices, the validation of a token against it, the binding of a device to
    its static key, and the inter-process lock. *)
From Stdlib Require Import Ascii String.
From stdpp Require Import prelude gmap strings list sorting.
From S2P Require Import Prelude Utf8 AtomicFile.

Module Devices.
Import Utf8 AtomicFile.

Local Open Scope Z_scope.

(** ** Data *)

Record Device := MkDevice {
  TokenHash : string;
  Name : string;
  PairedAt : instant;
  LastSeenAt : instant;
  Platform : string;
  PushToken : string;
  AllowRemotePermissions : bool;
  RedeemBy : instant;
  ClientVersion : string;
  StaticKey : string;
}.

#[export] Instance Device_eq_dec : EqDecision Device.
Proof. solve_decision. Defined.

Definition RedemptionWindow : Z := 15 * minute.

(** [Registry]: the devices, in order. *)
Definition Registry : Type := list Device.

Inductive BindResult := BindUnknownDevice | BindMatched | BindNewlyBound | BindKeyMismatch.
Inductive ValidateResult :=
| ValidateUnknownToken | ValidateAccepted | ValidateWindowElapsed | ValidateKeyMismatch.
Inductive RemotePermissionOutcome :=
| OutcomeNoAnswer | OutcomeAllow | OutcomeDeny | OutcomeTimeout | OutcomeCancel.

#[export] Instance BindResult_eq_dec : EqDecision BindResult.
Proof. solve_decision. Defined.
#[export] Instance ValidateResult_eq_dec : EqDecision ValidateResult.
Proof. solve_decision. Defined.
#[export] Instance RemotePermissionOutcome_eq_dec : EqDecision RemotePermissionOutcome.
Proof. solve_decision. Defined.

(** Field writes. *)
Definition set_lastSeen (t : instant) (d : Device) : Device :=
  MkDevice (TokenHash d) (Name d) (PairedAt d) t (Platform d) (PushToken d)
    (AllowRemotePermissions d) (RedeemBy d) (ClientVersion d) (StaticKey d).
Definition set_push (platform token name : string) (d : Device) : Device :=
  MkDevice (TokenHash d) name (PairedAt d) (LastSeenAt d) platform token
    (AllowRemotePermissions d) (RedeemBy d) (ClientVersion d) (StaticKey d).
Definition clear_push (d : Device) : Device := set_push "" "" (Name d) d.
Definition set_redeemBy (t : instant) (d : Device) : Device :=
  MkDevice (TokenHash d) (Name d) (PairedAt d) (LastSeenAt d) (Platform d) (PushToken d)
    (AllowRemotePermissions d) t (ClientVersion d) (StaticKey d).
Definition set_version (v : string) (d : Device) : Device :=
  MkDevice (TokenHash d) (Name d) (PairedAt d) (LastSeenAt d) (Platform d) (PushToken d)
    (AllowRemotePermissions d) (RedeemBy d) v (StaticKey d).
Definition set_staticKey (k : string) (d : Device) : Device :=
  MkDevice (TokenHash d) (Name d) (PairedAt d) (LastSeenAt d) (Platform d) (PushToken d)
    (AllowRemotePermissions d) (RedeemBy d) (ClientVersion d) k.

(** ** Registry *)

Definition has_hash (h : string) (d : Device) : bool := bool_decide (TokenHash d = h).

Definition FindByTokenHash (h : string) (r : Registry) : option Device := find_first (has_hash h) r.
Definition List (r : Registry) : list Device := r.
Definition Add (d : Device) (r : Registry) : Registry := r ++ [d].

Definition Remove (name : string) (r : Registry) : Registry * bool :=
  match IndexFunc (fun d => bool_decide (Name d = name)) r with
  | Some i => (remove_at i r, true)
  | None => (r, false)
  end.

(** A change of the first device with the hash, where [cond] lets it. *)
Definition change (h : string) (cond : Device -> bool) (f : Device -> Device) (r : Registry)
  : Registry * bool :=
  match FindByTokenHash h r with
  | Some d => if cond d then (update_first (has_hash h) f r, true) else (r, false)
  | None => (r, false)
  end.

Definition UpdatePushRegistration (h platform token name : string) (r : Registry) : Registry * bool :=
  change h (fun _ => true) (set_push platform token name) r.

Definition ClearPushRegistrationIfMatch (h platform token : string) (r : Registry) : Registry * bool :=
  let p d := has_hash h d && bool_decide (Platform d = platform) && bool_decide (PushToken d = token) in
  if bool_decide (token = "") then (r, false)
  else match find_first p r with
  | Some _ => (update_first p clear_push r, true)
  | None => (r, false)
  end.

Definition ClearRedeemBy (h : string) (r : Registry) : Registry * bool :=
  change h (fun d => negb (IsZero (RedeemBy d))) (set_redeemBy zero_time) r.

Definition SetClientVersion (h version : string) (r : Registry) : Registry * bool :=
  change h (fun d => negb (bool_decide (ClientVersion d = version))) (set_version version) r.

Definition BindStaticKey (h : string) (peerStatic : list Z) (r : Registry) : Registry * BindResult :=
  if bool_decide (peerStatic = []) then (r, BindUnknownDevice)
  else match FindByTokenHash h r with
  | None => (r, BindUnknownDevice)
  | Some d =>
      if bool_decide (StaticKey d = "")
      then (update_first (has_hash h) (set_staticKey (hex peerStatic)) r, BindNewlyBound)
      else if bool_decide (StaticKey d = hex peerStatic) then (r, BindMatched)
      else (r, BindKeyMismatch)
  end.

(** [reconcileDevices]: the map by hash keeps the last row of a hash. *)
Definition reconcileDevices (memory disk : list Device) : list Device :=
  let byHash := foldl (fun m d => <[TokenHash d := d]> m) (∅ : gmap string Device) memory in
  (fun d => default d (byHash !! TokenHash d)) <$> disk.

Section persistence.
Context (encode : list Device -> string) (decode : string -> option (list Device)).

(** [readDevicesFile]; [None] is a file that does not parse. *)
Definition readDevicesFile (path : string) (f : fs) : option (list Device) :=
  match f !! path with
  | None => Some []
  | Some data => if bool_decide (data = "") then Some [] else decode data
  end.

Definition Load (path : string) (f : fs) : option Registry := readDevicesFile path f.

Definition Reload (path : string) (f : fs) (r : Registry) : Registry * bool :=
  match readDevicesFile path f with
  | Some disk => (reconcileDevices r disk, true)
  | None => (r, false)
  end.

Definition device_less (a b : Device) : bool :=
  if negb (PairedAt a =? PairedAt b) then PairedAt a <? PairedAt b else String.ltb (Name a) (Name b).

Definition Save (fails : stage -> bool) (partial path tmp : string) (r : Registry) (f : fs)
  : fs * option stage :=
  write_atomic fails partial path tmp (encode (SliceStable device_less r)) f.
End persistence.

(** ** Authentication *)

Section auth.
(** [crypto/sha256] in hexadecimal. *)
Context (HashToken : string -> string).

Definition VerifyToken (plain hash : string) : bool := bool_decide (HashToken plain = hash).

Definition redemptionWindowElapsed (d : Device) (now : instant) : bool :=
  negb (IsZero (RedeemBy d)) && negb (Before now (RedeemBy d)).

(** [Validate], with the clock read for the window and for the stamp. *)
Definition Validate (plain : string) (peerStatic : list Z) (now seen : instant) (r : Registry)
  : Registry * option Device * ValidateResult :=
  if bool_decide (plain = "") then (r, None, ValidateUnknownToken)
  else
    let h := HashToken plain in
    match FindByTokenHash h r with
    | None => (r, None, ValidateUnknownToken)
    | Some d =>
        if redemptionWindowElapsed d now then (r, None, ValidateWindowElapsed)
        else if negb (bool_decide (StaticKey d = "")) && negb (bool_decide (StaticKey d = hex peerStatic))
        then (r, Some d, ValidateKeyMismatch)
        else (update_first (has_hash h) (set_lastSeen seen) r, Some (set_lastSeen seen d), ValidateAccepted)
    end.
End auth.

Definition MayAnswerPrompt (d : option Device) : bool := bool_decide (is_Some d).
Definition AuthorizePromptAnswer (d : option Device) (o : RemotePermissionOutcome) : bool :=
  MayAnswerPrompt d && bool_decide (o = OutcomeAllow).
Definition MayAnswerRemotePermission (d : option Device) : bool :=
  match d with Some d => AllowRemotePermissions d | None => false end.
Definition AuthorizeRemotePermission (d : option Device) (o : RemotePermissionOutcome) : bool :=
  MayAnswerRemotePermission d && bool_decide (o = OutcomeAllow).

(** ** The inter-process lock *)

Definition DefaultLockWait : Z := 5 * second.
Definition lockPollInterval : Z := 10 * 1000000.

(** What one [flock] attempt returned. *)
Inductive flock := Locked | WouldBlock | FlockError.

Inductive lock_result {A} := LockIO | LockBusy | LockRan (a : A).
Arguments lock_result : clear implicits.

(** The poll loop of [WithLock]: the answers of [flock] and the clock after
    each refusal; [None] while it would still be polling. *)
Fixpoint poll (deadline : instant) (env : list (flock * instant)) : option (lock_result unit) :=
  match env with
  | [] => None
  | (Locked, _) :: _ => Some (LockRan tt)
  | (FlockError, _) :: _ => Some LockIO
  | (WouldBlock, now) :: env =>
      if negb (Before now deadline) then Some LockBusy else poll deadline env
  end.

(** [WithLock] once its lock file is open: [fn] runs, between lock and unlock,
    exactly when the poll took the lock. *)
Definition WithLock {A} (opened : bool) (start : instant) (wait : Z) (env : list (flock * instant)) (fn : A)
  : option (lock_result A) :=
  if negb opened then Some LockIO
  else match poll (start + wait) env with
  | None => None
  | Some LockIO => Some LockIO
  | Some LockBusy => Some LockBusy
  | Some (LockRan _) => Some (LockRan fn)
  end.

End Devices.
