(* ===== verification/DevicesProps.v ===== *)
(** * What the device registry guarantees

    Who a token admits, that a device's first bound key is the only one it is
    ever admitted with, what a reload keeps, and that waiting for the
    inter-process lock ends. *)
From Stdlib Require Import Ascii String.
From stdpp Require Import prelude gmap strings list sorting.
From S2P Require Import Prelude Utf8 AtomicFile Devices.

Module DevicesProps.
Import Utf8 AtomicFile Devices.

Local Open Scope Z_scope.

(** ** Rows by hash *)

Lemma find_hash h r d : FindByTokenHash h r = Some d -> d ∈ r /\ TokenHash d = h.
Proof. intros [? H]%find_first_Some. unfold has_hash in H. by reflect_bools. Qed.

Lemma find_update h f r :
  (forall d, TokenHash (f d) = TokenHash d) ->
  forall h', FindByTokenHash h' (update_first (has_hash h) f r)
    = if decide (h' = h) then f <$> FindByTokenHash h' r else FindByTokenHash h' r.
Proof.
  intros Hf h'. unfold FindByTokenHash. case_decide as Hh.
  - subst. destruct (find_first (has_hash h) r) as [d|] eqn:Hd.
    + apply find_update_first_eq; [|done]. intros y. unfold has_hash. by rewrite Hf.
    + by rewrite update_first_id.
  - apply find_update_first_ne. intros y. unfold has_hash. rewrite Hf. intros Hy. reflect_bools.
    split; by apply bool_decide_eq_false_2; congruence.
Qed.

Definition hashes (r : Registry) : list string := TokenHash <$> r.

Lemma hashes_update p f r :
  (forall d, TokenHash (f d) = TokenHash d) -> hashes (update_first p f r) = hashes r.
Proof. intros Hf. unfold hashes. by rewrite fmap_update_first. Qed.

Lemma find_NoDup h r d : NoDup (hashes r) -> d ∈ r -> TokenHash d = h -> FindByTokenHash h r = Some d.
Proof.
  intros Hn Hd <-. unfold FindByTokenHash. induction r as [|x r IH]; [by apply not_elem_of_nil in Hd|].
  unfold hashes in Hn. csimpl in Hn. apply NoDup_cons in Hn as [Hx Hn]. simpl.
  apply elem_of_cons in Hd as [->|Hd]; [unfold has_hash; by rewrite bool_decide_eq_true_2|].
  unfold has_hash at 1. rewrite bool_decide_eq_false_2; [by apply IH|].
  intros He. apply Hx. rewrite He. by apply list_elem_of_fmap_2.
Qed.

Lemma find_app h r r' :
  FindByTokenHash h (r ++ r') = match FindByTokenHash h r with Some d => Some d | None => FindByTokenHash h r' end.
Proof. unfold FindByTokenHash. induction r as [|x r IH]; simpl; [done|]. by destruct (has_hash h x). Qed.

Lemma find_None h r : FindByTokenHash h r = None <-> h ∉ hashes r.
Proof.
  unfold FindByTokenHash. rewrite find_first_None. unfold hashes. rewrite list_elem_of_fmap. split.
  - intros H (d & -> & Hd). specialize (H d Hd). unfold has_hash in H. by reflect_bools.
  - intros H d Hd. apply bool_decide_eq_false_2. intros <-. eauto.
Qed.

(** ** Operations *)

Inductive op :=
| OAdd (d : Device)
| ORemove (name : string)
| OPush (h platform token name : string)
| OClearPush (h platform token : string)
| OClearRedeem (h : string)
| OSetVersion (h version : string)
| OBind (h : string) (k : list Z)
| OValidate (plain : string) (k : list Z) (now seen : instant)
| OReload (disk : list Device).

Section ops.
Context (HashToken : string -> string).

Definition exec (o : op) (r : Registry) : Registry :=
  match o with
  | OAdd d => Add d r
  | ORemove n => fst (Remove n r)
  | OPush h p t n => fst (UpdatePushRegistration h p t n r)
  | OClearPush h p t => fst (ClearPushRegistrationIfMatch h p t r)
  | OClearRedeem h => fst (ClearRedeemBy h r)
  | OSetVersion h v => fst (SetClientVersion h v r)
  | OBind h k => fst (BindStaticKey h k r)
  | OValidate p k now seen => fst (fst (Validate HashToken p k now seen r))
  | OReload disk => reconcileDevices r disk
  end.

(** Hashes of fresh random tokens are fresh, in memory and on disk. *)
Definition op_ok (o : op) (r : Registry) : Prop :=
  match o with
  | OAdd d => TokenHash d ∉ hashes r
  | OReload disk => NoDup (hashes disk)
  | _ => True
  end.

Definition key_of (h : string) (r : Registry) : option string := StaticKey <$> FindByTokenHash h r.

(** Operations after each of which the device is still paired. *)
Inductive stays_paired (h : string) : Registry -> Registry -> Prop :=
| paired_refl r : stays_paired h r r
| paired_step r o r' :
    op_ok o r -> h ∈ hashes (exec o r) -> stays_paired h (exec o r) r' -> stays_paired h r r'.

Lemma byHash_lookup memory h (m : gmap string Device) :
  NoDup (hashes memory) ->
  foldl (fun m d => <[TokenHash d := d]> m) m memory !! h
  = match FindByTokenHash h memory with Some d => Some d | None => m !! h end.
Proof.
  revert m. induction memory as [|x l IH]; intros m Hn; [done|].
  unfold hashes in Hn. csimpl in Hn. apply NoDup_cons in Hn as [Hx Hn]. simpl foldl. rewrite IH by done.
  change (x :: l) with ([x] ++ l). rewrite find_app. unfold FindByTokenHash at 2. simpl.
  unfold has_hash. case_bool_decide as Hh; subst.
  - rewrite (proj2 (find_None _ _) Hx). by simplify_map_eq.
  - destruct (FindByTokenHash h l); [done|]. by simplify_map_eq.
Qed.

Lemma reconcile_row r d :
  NoDup (hashes r) ->
  default d (foldl (fun m d => <[TokenHash d := d]> m) (∅ : gmap string Device) r !! TokenHash d)
  = default d (FindByTokenHash (TokenHash d) r).
Proof.
  intros Hn. rewrite byHash_lookup by done. rewrite lookup_empty.
  by destruct (FindByTokenHash (TokenHash d) r).
Qed.

Lemma reconcile_hashes r disk : NoDup (hashes r) -> hashes (reconcileDevices r disk) = hashes disk.
Proof.
  intros Hn. unfold hashes, reconcileDevices. rewrite <- list_fmap_compose. apply list_fmap_ext.
  intros i d _. unfold compose. rewrite reconcile_row by done.
  destruct (FindByTokenHash (TokenHash d) r) as [x|] eqn:E; [|done]. by apply find_hash in E as [_ ?].
Qed.

Lemma exec_NoDup o r : NoDup (hashes r) -> op_ok o r -> NoDup (hashes (exec o r)).
Proof.
  intros Hn Ho. destruct o; simpl in *.
  - unfold hashes, Add. rewrite fmap_app. apply NoDup_app. split; [done|]. split; [|csimpl; repeat constructor; apply not_elem_of_nil].
    intros x Hx Hx'. csimpl in Hx'. by apply list_elem_of_singleton in Hx' as ->.
  - unfold Remove. case_match; [|done]. simpl. eapply sublist_NoDup; [exact Hn|].
    apply fmap_sublist, sublist_remove_at.
  - unfold UpdatePushRegistration, change. repeat case_match; simpl; by rewrite ?hashes_update.
  - unfold ClearPushRegistrationIfMatch. repeat case_match; simpl; by rewrite ?hashes_update.
  - unfold ClearRedeemBy, change. repeat case_match; simpl; by rewrite ?hashes_update.
  - unfold SetClientVersion, change. repeat case_match; simpl; by rewrite ?hashes_update.
  - unfold BindStaticKey. repeat case_match; simpl; by rewrite ?hashes_update.
  - unfold Validate. repeat case_match; simpl; by rewrite ?hashes_update.
  - by rewrite reconcile_hashes.
Qed.

Lemma key_update h h' f r :
  (forall d, TokenHash (f d) = TokenHash d /\ StaticKey (f d) = StaticKey d) ->
  key_of h (update_first (has_hash h') f r) = key_of h r.
Proof.
  intros Hf. unfold key_of. rewrite find_update by (intros; apply Hf). case_decide; [|done].
  destruct (FindByTokenHash h r); [|done]. simpl. by rewrite (proj2 (Hf _)).
Qed.

(** A row keeps its key under every operation that keeps the row. *)
Lemma exec_key o r h k :
  NoDup (hashes r) -> op_ok o r -> key_of h r = Some k -> k <> "" -> h ∈ hashes (exec o r) ->
  key_of h (exec o r) = Some k.
Proof.
  intros Hn Ho Hk Hne Hin. destruct o; simpl in *.
  - unfold key_of, Add in *. rewrite find_app. by destruct (FindByTokenHash h r).
  - unfold key_of in *. unfold Remove in *. case_match eqn:Hi; [|done]. simpl in *.
    destruct (FindByTokenHash h r) as [d0|] eqn:Hd; [|done].
    unfold hashes in Hin. apply list_elem_of_fmap in Hin as (e & -> & He).
    pose proof (elem_of_remove_at _ _ _ He) as Her.
    rewrite (find_NoDup _ _ _ Hn Her eq_refl) in Hd. injection Hd as ->.
    rewrite (find_NoDup (TokenHash d0) _ d0); [done| |done|done].
    eapply sublist_NoDup; [exact Hn|]. apply fmap_sublist, sublist_remove_at.
  - unfold UpdatePushRegistration, change. repeat case_match; simpl; by rewrite ?key_update.
  - unfold ClearPushRegistrationIfMatch. repeat case_match; simpl; try done.
    unfold key_of in *. destruct (FindByTokenHash h r) as [d0|] eqn:Hd; [|done].
    match goal with |- context [update_first ?p ?f ?r] =>
      assert (FindByTokenHash h (update_first p f r) = Some d0 \/ FindByTokenHash h (update_first p f r) = Some (f d0)) as Hor end.
    { clear -Hd. unfold FindByTokenHash in *. induction r as [|x r IH]; [done|]. simpl in Hd |- *.
      destruct (has_hash h x) eqn:Hx.
      - injection Hd as ->. destruct (_ && _)%bool; simpl.
        + right. unfold has_hash in Hx |- *. simpl. by rewrite Hx.
        + left. by rewrite Hx.
      - destruct (_ && _)%bool; simpl.
        + left. unfold has_hash in Hx |- *. simpl. rewrite Hx. exact Hd.
        + rewrite Hx. by apply IH. }
    by destruct Hor as [-> | ->].
  - unfold ClearRedeemBy, change. repeat case_match; simpl; by rewrite ?key_update.
  - unfold SetClientVersion, change. repeat case_match; simpl; by rewrite ?key_update.
  - unfold BindStaticKey. case_bool_decide; [done|]. destruct (FindByTokenHash h0 r) as [d0|] eqn:Hd; [|done].
    case_bool_decide as Hemp; [|by case_bool_decide]. simpl. unfold key_of in *.
    rewrite find_update by done. case_decide as Hh; [|done]. subst.
    rewrite Hd in Hk. simpl in Hk. congruence.
  - unfold Validate. repeat case_match; simpl; by rewrite ?key_update.
  - unfold key_of in *. rewrite reconcile_hashes in Hin by done.
    apply list_elem_of_fmap in Hin as (e & -> & He).
    rewrite (find_NoDup _ _ (default e (FindByTokenHash (TokenHash e) r))).
    + by destruct (FindByTokenHash (TokenHash e) r).
    + by rewrite reconcile_hashes.
    + unfold reconcileDevices. apply list_elem_of_fmap. exists e. by rewrite reconcile_row.
    + destruct (FindByTokenHash (TokenHash e) r) as [x|] eqn:E; [|done]. by apply find_hash in E as [_ ?].
Qed.

Lemma key_while_paired r r' h k :
  NoDup (hashes r) -> key_of h r = Some k -> k <> "" -> stays_paired h r r' ->
  NoDup (hashes r') /\ key_of h r' = Some k.
Proof.
  intros Hn Hk Hne. induction 1 as [r|r o r' Ho Hin _ IH]; [done|].
  apply IH; [by apply exec_NoDup|by apply exec_key].
Qed.

(** ** Properties *)

(** [Validate] admits a connection exactly when its token is the token of
    a paired device whose redemption window is open and whose bound key, if it
    has one, is the peer's; it then stamps that row's last sight and changes
    nothing else, and a refusal changes nothing at all. *)
Theorem validate_admits plain k now seen r :
  let '(r', d, res) := Validate HashToken plain k now seen r in
  (res = ValidateAccepted <->
     plain <> "" /\ exists d0, FindByTokenHash (HashToken plain) r = Some d0
       /\ (RedeemBy d0 = zero_time \/ now < RedeemBy d0)
       /\ (StaticKey d0 = "" \/ StaticKey d0 = hex k))
  /\ (res <> ValidateAccepted -> r' = r)
  /\ (res = ValidateAccepted ->
       length r' = length r /\ hashes r' = hashes r
       /\ d = set_lastSeen seen <$> FindByTokenHash (HashToken plain) r
       /\ forall h, FindByTokenHash h r'
            = if decide (h = HashToken plain) then d else FindByTokenHash h r).
Proof.
  unfold Validate. case_bool_decide as Hp; [split; [by split; [|intros [? _]]|done]|].
  destruct (FindByTokenHash (HashToken plain) r) as [d0|] eqn:Hd.
  2: { split; [|done]. split; [done|]. by intros (_ & ? & ? & _). }
  destruct (redemptionWindowElapsed d0 now) eqn:He.
  { split; [|done]. split; [done|]. intros (_ & d1 & [= <-] & Hw & _).
    unfold redemptionWindowElapsed, IsZero, Before in He. reflect_bools. naive_solver. }
  assert (RedeemBy d0 = zero_time \/ now < RedeemBy d0) as Hw.
  { unfold redemptionWindowElapsed, IsZero, Before in He. apply andb_false_iff in He as [He|He]; reflect_bools; tauto. }
  destruct (negb _ && negb _)%bool eqn:Hk.
  { split; [|done]. split; [done|]. intros (_ & d1 & [= <-] & _ & Hkey). reflect_bools. naive_solver. }
  split; [|split; [done|]].
  - split; [intros _|done]. split; [done|]. exists d0. split; [done|]. split; [done|].
    apply andb_false_iff in Hk as [Hk|Hk]; reflect_bools; auto.
  - intros _. rewrite length_update_first, hashes_update by done. split; [done|]. split; [done|]. split; [done|].
    intros h. rewrite find_update by done. destruct (decide (h = HashToken plain)) as [->|]; by rewrite ?Hd.
Qed.

(** Trust on first use: once a device is bound to a key, then as long as
    it stays paired - through any pushes, renames, validations, further binds
    and reloads from disk - that key alone matches: binding another is refused
    and a connection with another is never admitted. *)
Theorem bound_key_is_pinned r r' h k k'
    (Hn : NoDup (hashes r)) (Hk : forallb is_byte k = true) (Hk' : forallb is_byte k' = true)
    (Hne : k <> []) (Hne' : k' <> []) (Hbound : snd (BindStaticKey h k r) = BindNewlyBound)
    (Hrun : stays_paired h (fst (BindStaticKey h k r)) r') :
  snd (BindStaticKey h k' r') = (if decide (k' = k) then BindMatched else BindKeyMismatch)
  /\ fst (BindStaticKey h k' r') = r'
  /\ forall plain now seen, HashToken plain = h -> k' <> k ->
       snd (Validate HashToken plain k' now seen r') <> ValidateAccepted.
Proof.
  assert (NoDup (hashes (fst (BindStaticKey h k r)))) as Hn1 by (by apply (exec_NoDup (OBind h k))).
  assert (key_of h (fst (BindStaticKey h k r)) = Some (hex k)) as Hk1.
  { unfold BindStaticKey in *. case_bool_decide; [done|]. destruct (FindByTokenHash h r) as [d|] eqn:Hd; [|done].
    case_bool_decide; [|by case_bool_decide]. unfold key_of. simpl. rewrite find_update by done.
    by rewrite decide_True, Hd. }
  assert (hex k <> "") as Hh by (by destruct k).
  destruct (key_while_paired _ _ _ _ Hn1 Hk1 Hh Hrun) as [_ Hkr].
  unfold key_of in Hkr. destruct (FindByTokenHash h r') as [d|] eqn:Hd; [|done].
  simpl in Hkr. injection Hkr as Hkr.
  assert (bool_decide (StaticKey d = hex k') = bool_decide (k' = k)) as Heq.
  { apply bool_decide_ext. rewrite Hkr. split; [|by intros ->]. intros He. symmetry. by apply hex_inj. }
  split; [|split].
  - unfold BindStaticKey. rewrite bool_decide_eq_false_2, Hd by done.
    rewrite bool_decide_eq_false_2 by congruence. rewrite Heq. destruct (decide (k' = k));
      [rewrite bool_decide_eq_true_2 by done|rewrite bool_decide_eq_false_2 by done]; done.
  - unfold BindStaticKey. rewrite bool_decide_eq_false_2, Hd by done.
    rewrite bool_decide_eq_false_2 by congruence. by case_bool_decide.
  - intros plain now seen Hp Hkk. unfold Validate. rewrite Hp, Hd.
    destruct (bool_decide (plain = "")); [simpl; discriminate|].
    destruct (redemptionWindowElapsed d now); [simpl; discriminate|].
    rewrite (bool_decide_eq_false_2 (StaticKey d = "")) by congruence.
    rewrite Heq, bool_decide_eq_false_2 by done. simpl. discriminate.
Qed.

End ops.

(** A reload gives exactly the devices on disk, in their order: a device
    revoked on disk is gone, a new one appears as written, and one known to both
    keeps its row in memory (its key binding and last sight included). *)
Theorem reload_reconciles memory disk (Hn : NoDup (hashes memory)) :
  hashes (reconcileDevices memory disk) = hashes disk
  /\ forall i d, disk !! i = Some d ->
       reconcileDevices memory disk !! i
       = Some match FindByTokenHash (TokenHash d) memory with Some m => m | None => d end.
Proof.
  split; [by apply reconcile_hashes|]. intros i d Hi. unfold reconcileDevices.
  rewrite list_lookup_fmap, Hi. simpl. rewrite reconcile_row by done.
  by destruct (FindByTokenHash (TokenHash d) memory).
Qed.

(** C21. Waiting for the lock ends: when each sleep lasts at least the poll
    interval, the loop has its answer after at most [wait / interval + 2]
    attempts, and the callback runs only when an attempt took the lock. *)
Theorem lock_wait_bounded {A} start wait env (fn : A)
    (Hwait : 0 <= wait)
    (Hclock : forall i a now, env !! i = Some (a, now) -> start + Z.of_nat i * lockPollInterval <= now)
    (Hlen : wait / lockPollInterval + 2 <= Z.of_nat (length env)) :
  exists res, WithLock true start wait env fn = Some res
    /\ (forall a, res = LockRan a -> a = fn /\ exists i now, env !! i = Some (Locked, now)
          /\ forall j a' now', (j < i)%nat -> env !! j = Some (a', now') -> a' = WouldBlock /\ now' < start + wait).
Proof.
  assert (exists res, poll (start + wait) env = Some res /\ (forall a, res = LockRan a ->
      exists i now, env !! i = Some (Locked, now)
      /\ forall j a' now', (j < i)%nat -> env !! j = Some (a', now') -> a' = WouldBlock /\ now' < start + wait)) as (res & Hr & Hran).
  { assert (exists j : nat, (j < length env)%nat /\ wait <= Z.of_nat j * lockPollInterval) as (j & Hj & Hjw).
    { exists (Z.to_nat (wait / lockPollInterval + 1)). pose proof (Z.div_mod wait lockPollInterval ltac:(done)).
      pose proof (Z.mod_pos_bound wait lockPollInterval ltac:(done)).
      pose proof (Z.div_pos wait lockPollInterval Hwait ltac:(done)).
      rewrite Z2Nat.id by lia. split; [apply Nat2Z.inj_lt; rewrite Z2Nat.id; lia|]. lia. }
    clear Hlen. assert (exists now, start + wait <= now /\ exists a, env !! j = Some (a, now)) as (now & Hnow & a & Ha).
    { destruct (lookup_lt_is_Some_2 env j Hj) as [[a now] Ha]. exists now. specialize (Hclock _ _ _ Ha). split; [lia|eauto]. }
    clear Hj Hjw Hclock. revert j Ha. induction env as [|[b t] env IH]; intros j Ha; [done|]. simpl.
    destruct b.
    - eexists. split; [done|]. intros _ _. exists 0%nat, t. split; [done|]. intros; lia.
    - destruct (negb (Before t (start + wait))) eqn:Hb; [by eexists|].
      unfold Before in Hb. reflect_bools. destruct j as [|j]; [injection Ha as -> ->; lia|].
      destruct (IH j Ha) as (res & Hr & Hran). exists res. split; [done|]. intros a0 Hres.
      destruct (Hran a0 Hres) as (i & t' & Hi & Hbefore). exists (S i), t'. split; [done|].
      intros [|j'] a' now' Hlt Hl; [by injection Hl as <- <-|]. apply (Hbefore j'); [lia|done].
    - by eexists. }
  unfold WithLock. simpl. rewrite Hr. destruct res as [| |u]; eexists; (split; [done|]); try done.
  intros a [= <-]. split; [done|]. by eapply Hran.
Qed.

(** ** Witnesses *)

Definition demo_hash (s : string) : string := "#" +:+ s.
Definition demo_device (h : string) : Device := MkDevice h "phone" 1 1 "" "" false 0 "" "".
Definition demo_devices : Registry := [demo_device "#t"; demo_device "#u"].

Lemma bound_key_is_pinned_witness :
  let r := fst (BindStaticKey "#t" [1; 2] demo_devices) in
  let r' := exec demo_hash (OReload demo_devices) (exec demo_hash (OPush "#t" "ios" "p" "new name") r) in
  snd (BindStaticKey "#t" [1; 2] r') = BindMatched
  /\ snd (Validate demo_hash "t" [3] 5 6 r') = ValidateKeyMismatch
  /\ snd (Validate demo_hash "t" [3] 5 6 r') <> ValidateAccepted.
Proof.
  intros r r'. split; [|split].
  - assert (stays_paired demo_hash "#t" r r') as Hrun.
    { apply (paired_step _ _ _ (OPush "#t" "ios" "p" "new name")); [done|by left|].
      apply (paired_step _ _ _ (OReload demo_devices)); [|by left|apply paired_refl].
      apply (bool_decide_unpack _). by vm_compute. }
    apply (bound_key_is_pinned demo_hash demo_devices r' "#t" [1; 2] [1; 2]); try done.
    apply (bool_decide_unpack _). by vm_compute.
  - by vm_compute.
  - by vm_compute.
Defined.

Lemma reload_reconciles_witness :
  hashes (reconcileDevices demo_devices [demo_device "#u"; demo_device "#v"]) = ["#u"; "#v"].
Proof. apply (reload_reconciles demo_devices). apply (bool_decide_unpack _). by vm_compute. Defined.

Definition demo_polls : list (flock * instant) := [(WouldBlock, 0); (WouldBlock, lockPollInterval); (Locked, 2 * lockPollInterval)].

Lemma lock_wait_bounded_witness :
  exists res, WithLock true 0 lockPollInterval demo_polls "ran"%string = Some res /\ res = LockBusy.
Proof.
  destruct (lock_wait_bounded 0 lockPollInterval demo_polls "ran"%string) as (res & Hr & _).
  - done.
  - intros [|[|[|i]]] a now [= <- <-]; by vm_compute.
  - by vm_compute.
  - exists res. split; [done|]. vm_compute in Hr. by injection Hr as <-.
Defined.

End DevicesProps.
