(* ===== verification/Strconv.v ===== *)
(** * Decimal numbers, byte strings and base64

    What the source uses of [fmt] ([%d], [%0*d]), [strconv.ParseUint],
    [strings] and [encoding/base64], over byte strings as lists of characters. *)
From Stdlib Require Import Ascii String ZArith Lia.
From stdpp Require Import prelude strings list.
From S2P Require Import Prelude Utf8.

Module Strconv.
Import Utf8.

Local Open Scope Z_scope.

Abbreviation bytes := (list ascii).
Abbreviation bs := list_ascii_of_string.

#[export] Instance ascii_eq_dec : EqDecision ascii := Ascii.ascii_dec.

(** ** Decimal *)

Definition digit (d : Z) : ascii := ascii_of_N (Z.to_N (48 + d)).
Definition digit_val (c : ascii) : Z := byte c - 48.
Definition is_digit (c : ascii) : bool := in_range 48 57 (byte c).

(** [w] digits of [n], with leading zeros. *)
Fixpoint fixed (w : nat) (n : Z) : bytes :=
  match w with
  | O => []
  | S w => fixed w (n / 10) ++ [digit (n mod 10)]
  end.

(** The number of digits of [n] in decimal; 20 are enough for a [uint64]. *)
Fixpoint ndigits_from (fuel w : nat) (n : Z) : nat :=
  match fuel with
  | O => w
  | S fuel => if n <? 10 ^ Z.of_nat w then w else ndigits_from fuel (S w) n
  end.
Definition ndigits (n : Z) : nat := ndigits_from 19 1 n.

(** [fmt.Sprintf("%d", n)] and [fmt.Sprintf("%0*d", w, n)]. *)
Definition format (n : Z) : bytes := fixed (ndigits n) n.
Definition format_padded (w : nat) (n : Z) : bytes := fixed (Nat.max w (ndigits n)) n.

Definition value (l : bytes) : Z := foldl (fun n c => 10 * n + digit_val c) 0 l.

(** [strconv.ParseUint(s, 10, bits)]. *)
Definition ParseUint (bits : Z) (l : bytes) : option Z :=
  if bool_decide (l = []) then None
  else if negb (forallb is_digit l) then None
  else if 2 ^ bits <=? value l then None
  else Some (value l).

(** ** Byte strings *)

(** [strings.CutPrefix] and [strings.CutSuffix]. *)
Fixpoint CutPrefix (p l : bytes) : option bytes :=
  match p, l with
  | [], _ => Some l
  | x :: p, y :: l => if decide (x = y) then CutPrefix p l else None
  | _ :: _, [] => None
  end.
Definition CutSuffix (p l : bytes) : option bytes :=
  reverse <$> CutPrefix (reverse p) (reverse l).

(** [strings.Split(s, sep)] for a one-byte separator. *)
Fixpoint Split (sep : ascii) (l : bytes) : list bytes :=
  match l with
  | [] => [[]]
  | x :: l =>
      if decide (x = sep) then [] :: Split sep l
      else match Split sep l with
           | f :: fs => (x :: f) :: fs
           | [] => [[x]]
           end
  end.

(** Byte-wise lexicographic order, the order of directory listings. *)
Fixpoint bytes_ltb (a b : bytes) : bool :=
  match a, b with
  | [], [] => false
  | [], _ :: _ => true
  | _ :: _, [] => false
  | x :: a, y :: b => if byte x <? byte y then true else if byte y <? byte x then false else bytes_ltb a b
  end.

(** ** [base64.RawURLEncoding] *)

Definition b64char (n : Z) : ascii :=
  ascii_of_N (Z.to_N
    (if n <? 26 then 65 + n else if n <? 52 then 71 + n else if n <? 62 then n - 4
     else if n =? 62 then 45 else 95)).

Definition b64val (c : ascii) : option Z :=
  let b := byte c in
  if in_range 65 90 b then Some (b - 65)
  else if in_range 97 122 b then Some (b - 71)
  else if in_range 48 57 b then Some (b + 4)
  else if b =? 45 then Some 62
  else if b =? 95 then Some 63
  else None.

Definition chr (n : Z) : ascii := ascii_of_N (Z.to_N n).

(** [EncodeToString]. *)
Fixpoint b64encode (l : bytes) : bytes :=
  match l with
  | x :: y :: z :: l =>
      let '(x, y, z) := (byte x, byte y, byte z) in
      b64char (x / 4) :: b64char (x mod 4 * 16 + y / 16)
      :: b64char (y mod 16 * 4 + z / 64) :: b64char (z mod 64) :: b64encode l
  | [x; y] =>
      let '(x, y) := (byte x, byte y) in
      [b64char (x / 4); b64char (x mod 4 * 16 + y / 16); b64char (y mod 16 * 4)]
  | [x] => let x := byte x in [b64char (x / 4); b64char (x mod 4 * 16)]
  | [] => []
  end.

(** [DecodeString]: carriage returns and line feeds are skipped; the encoding
    is not strict, so the spare bits of a last partial group are ignored. *)
Fixpoint b64groups (l : bytes) : option bytes :=
  match l with
  | a :: b :: c :: d :: l =>
      a ← b64val a; b ← b64val b; c ← b64val c; d ← b64val d; rest ← b64groups l;
      Some (chr (a * 4 + b / 16) :: chr (b mod 16 * 16 + c / 4) :: chr (c mod 4 * 64 + d) :: rest)
  | [a; b; c] =>
      a ← b64val a; b ← b64val b; c ← b64val c;
      Some [chr (a * 4 + b / 16); chr (b mod 16 * 16 + c / 4)]
  | [a; b] => a ← b64val a; b ← b64val b; Some [chr (a * 4 + b / 16)]
  | [_] => None
  | [] => Some []
  end.
Definition b64decode (l : bytes) : option bytes :=
  b64groups (filter (fun c => byte c <> 10 /\ byte c <> 13) l).

(** ** Decimal lemmas *)

Lemma byte_chr n : 0 <= n < 256 -> byte (chr n) = n.
Proof. intros H. unfold byte, chr. rewrite N_ascii_embedding by lia. lia. Qed.

Lemma chr_byte c : chr (byte c) = c.
Proof. unfold byte, chr. rewrite N2Z.id. apply ascii_N_embedding. Qed.

Lemma byte_inj c d : byte c = byte d -> c = d.
Proof. intros H. by rewrite <- (chr_byte c), <- (chr_byte d), H. Qed.

Lemma digit_val_digit d : 0 <= d < 10 -> digit_val (digit d) = d /\ is_digit (digit d) = true.
Proof.
  intros H. unfold digit_val, digit, is_digit. fold (chr (48 + d)). rewrite byte_chr by lia.
  split; [lia|]. apply in_range_spec. lia.
Qed.

Lemma digit_digit_val c : is_digit c = true -> digit (digit_val c) = c /\ 0 <= digit_val c < 10.
Proof.
  unfold is_digit. intros H%in_range_spec. unfold digit_val, digit. split; [|lia].
  replace (48 + (byte c - 48)) with (byte c) by lia. apply chr_byte.
Qed.

Lemma length_fixed w n : length (fixed w n) = w.
Proof. revert n. induction w as [|w IH]; intros n; simpl; [done|]. rewrite length_app, IH. simpl. lia. Qed.

Lemma fixed_digits w n : forallb is_digit (fixed w n) = true.
Proof.
  revert n. induction w as [|w IH]; intros n; [done|]. cbn [fixed]. rewrite forallb_app, IH. cbn [forallb].
  destruct (digit_val_digit (n mod 10)) as [_ ->]; [by apply Z.mod_pos_bound|done].
Qed.

Lemma value_snoc l c : value (l ++ [c]) = 10 * value l + digit_val c.
Proof. unfold value. by rewrite foldl_app. Qed.

Lemma value_fixed w n : 0 <= n < 10 ^ Z.of_nat w -> value (fixed w n) = n.
Proof.
  revert n. induction w as [|w IH]; intros n Hn; [simpl in *; unfold value; simpl; lia|].
  cbn [fixed]. rewrite value_snoc. rewrite Nat2Z.inj_succ, Z.pow_succ_r in Hn by lia.
  rewrite IH; [|split; [apply Z.div_pos; lia|apply Z.div_lt_upper_bound; lia]].
  destruct (digit_val_digit (n mod 10)) as [-> _]; [by apply Z.mod_pos_bound|].
  pose proof (Z.div_mod n 10 ltac:(done)). lia.
Qed.

Lemma fixed_value l : forallb is_digit l = true -> fixed (length l) (value l) = l /\ 0 <= value l < 10 ^ Z.of_nat (length l).
Proof.
  induction l as [|c l IH] using rev_ind; intros H; [by split; [|unfold value; simpl; lia]|].
  rewrite forallb_app in H. simpl in H. rewrite andb_true_r in H. apply andb_true_iff in H as [Hl Hc].
  destruct (IH Hl) as [Hf Hv]. destruct (digit_digit_val c Hc) as [Hd Hr].
  rewrite value_snoc, length_app, Nat.add_1_r. cbn [fixed].
  replace ((10 * value l + digit_val c) / 10) with (value l)
    by (Z.to_euclidean_division_equations; lia).
  replace ((10 * value l + digit_val c) mod 10) with (digit_val c)
    by (Z.to_euclidean_division_equations; lia).
  rewrite Hf, Hd. split; [done|]. rewrite Nat2Z.inj_succ, Z.pow_succ_r by lia. lia.
Qed.

Lemma ndigits_from_spec fuel w n :
  0 <= n < 10 ^ (Z.of_nat w + Z.of_nat fuel) ->
  (w <= ndigits_from fuel w n <= w + fuel)%nat /\ n < 10 ^ Z.of_nat (ndigits_from fuel w n).
Proof.
  revert w. induction fuel as [|fuel IH]; intros w Hn; simpl.
  - rewrite Nat2Z.inj_0, Z.add_0_r in Hn. split; lia.
  - destruct (_ <? _) eqn:E; reflect_bools; [split; lia|].
    destruct (IH (S w)); [|split; lia]. replace (Z.of_nat (S w) + Z.of_nat fuel) with (Z.of_nat w + Z.of_nat (S fuel)) by lia. done.
Qed.

Lemma ndigits_spec n : 0 <= n < 2 ^ 64 -> (1 <= ndigits n <= 20)%nat /\ n < 10 ^ Z.of_nat (ndigits n).
Proof. intros H. apply (ndigits_from_spec 19 1 n). simpl. lia. Qed.

Lemma ParseUint_digits bits l :
  l <> [] -> forallb is_digit l = true -> value l < 2 ^ bits -> ParseUint bits l = Some (value l).
Proof.
  intros Hl Hd Hv. unfold ParseUint. rewrite bool_decide_eq_false_2 by done. rewrite Hd. simpl.
  by rewrite (proj2 (Z.leb_gt _ _)).
Qed.

Lemma parse_fixed bits w n :
  (0 < w)%nat -> 0 <= n < 2 ^ bits -> n < 10 ^ Z.of_nat w -> ParseUint bits (fixed w n) = Some n.
Proof.
  intros Hw Hn Hlt. rewrite ParseUint_digits; rewrite ?value_fixed by lia; try done; [|apply fixed_digits|lia].
  intros He. apply (f_equal length) in He. rewrite length_fixed in He. simpl in He. lia.
Qed.

(** [ParseUint] inverts both formats. *)
Lemma parse_format bits n : 0 <= n < 2 ^ bits -> bits <= 64 -> ParseUint bits (format n) = Some n.
Proof.
  intros Hn Hb. assert (2 ^ bits <= 2 ^ 64) by (apply Z.pow_le_mono_r; lia).
  destruct (ndigits_spec n ltac:(lia)) as [Hd Hlt]. apply parse_fixed; lia.
Qed.

Lemma parse_padded w n : 0 <= n < 2 ^ 64 -> (0 < w)%nat -> ParseUint 64 (format_padded w n) = Some n.
Proof.
  intros Hn Hw. destruct (ndigits_spec n Hn) as [Hd Hlt]. apply parse_fixed; [lia|done|].
  eapply Z.lt_le_trans; [exact Hlt|]. apply Z.pow_le_mono_r; lia.
Qed.

Lemma ParseUint_Some bits l n :
  ParseUint bits l = Some n -> l <> [] /\ forallb is_digit l = true /\ n = value l /\ n < 2 ^ bits.
Proof.
  unfold ParseUint. case_bool_decide; [done|]. destruct (forallb is_digit l); [|done]. simpl.
  destruct (_ <=? _) eqn:E; [done|]. intros [= <-]. reflect_bools. done.
Qed.

(** Numbers of one width are ordered as their digits. *)
Lemma bytes_ltb_app a b c d :
  length a = length b ->
  bytes_ltb (a ++ c) (b ++ d) = if decide (a = b) then bytes_ltb c d else bytes_ltb a b.
Proof.
  revert b. induction a as [|x a IH]; intros [|y b] [=]; cbn [app bytes_ltb]; [done|].
  rewrite IH by done. destruct (byte x <? byte y) eqn:E1; [|destruct (byte y <? byte x) eqn:E2]; reflect_bools.
  - rewrite decide_False; [done|]. intros [= -> _]. lia.
  - rewrite decide_False; [done|]. intros [= -> _]. lia.
  - assert (x = y) as -> by (apply byte_inj; lia).
    destruct (decide (a = b)) as [->|]; [by rewrite decide_True|]. rewrite decide_False by congruence. done.
Qed.

Lemma bytes_ltb_asym a b : bytes_ltb a b = true -> bytes_ltb b a = false.
Proof.
  revert b. induction a as [|x a IH]; intros [|y b]; cbn [bytes_ltb]; try done.
  destruct (byte x <? byte y) eqn:E1; destruct (byte y <? byte x) eqn:E2; reflect_bools; try done; [lia|].
  intros H. by apply IH.
Qed.

Lemma bytes_ltb_irrefl a : bytes_ltb a a = false.
Proof. destruct (bytes_ltb a a) eqn:E; [|done]. by apply bytes_ltb_asym in E as E'; rewrite E in E'. Qed.

Lemma fixed_ltb w n m : 0 <= n < m -> m < 10 ^ Z.of_nat w -> bytes_ltb (fixed w n) (fixed w m) = true.
Proof.
  revert n m. induction w as [|w IH]; intros n m Hn Hm; [simpl in Hm; lia|].
  rewrite Nat2Z.inj_succ, Z.pow_succ_r in Hm by lia. cbn [fixed].
  rewrite bytes_ltb_app by (by rewrite !length_fixed).
  pose proof (Z.div_mod n 10 ltac:(done)). pose proof (Z.div_mod m 10 ltac:(done)).
  pose proof (Z.mod_pos_bound n 10 ltac:(done)). pose proof (Z.mod_pos_bound m 10 ltac:(done)).
  pose proof (Z.div_pos n 10). assert (m / 10 < 10 ^ Z.of_nat w) by (apply Z.div_lt_upper_bound; lia).
  destruct (Z.lt_trichotomy (n / 10) (m / 10)) as [Hlt|[Heq|Hgt]]; [| |lia].
  - rewrite decide_False; [apply IH; lia|]. intros He. apply (f_equal value) in He.
    rewrite !value_fixed in He by lia. lia.
  - rewrite Heq, decide_True by done. simpl. unfold digit. fold (chr (48 + n mod 10)) (chr (48 + m mod 10)).
    rewrite !byte_chr by lia. rewrite (proj2 (Z.ltb_lt _ _)); [done|]. lia.
Qed.

(** ** Cutting and splitting *)

Lemma CutPrefix_app p l : CutPrefix p (p ++ l) = Some l.
Proof. induction p as [|x p IH]; simpl; [done|]. by rewrite decide_True. Qed.

Lemma CutPrefix_Some p l r : CutPrefix p l = Some r -> l = p ++ r.
Proof.
  revert l. induction p as [|x p IH]; intros [|y l]; simpl; try done; try congruence.
  case_decide; [|done]. intros ?%IH. congruence.
Qed.

Lemma CutSuffix_app p l : CutSuffix p (l ++ p) = Some l.
Proof. unfold CutSuffix. rewrite reverse_app, CutPrefix_app. simpl. by rewrite reverse_involutive. Qed.

Lemma CutSuffix_Some p l r : CutSuffix p l = Some r -> l = r ++ p.
Proof.
  unfold CutSuffix. intros (x & Hx%CutPrefix_Some & ->)%fmap_Some.
  rewrite <- (reverse_involutive l), Hx, reverse_app, reverse_involutive. done.
Qed.

Lemma Split_nosep sep l : sep ∉ l -> Split sep l = [l].
Proof.
  induction l as [|x l IH]; intros H; simpl; [done|]. apply not_elem_of_cons in H as [Hx Hl].
  rewrite decide_False by congruence. by rewrite (IH Hl).
Qed.

Lemma Split_app sep f l : sep ∉ f -> Split sep (f ++ sep :: l) = f :: Split sep l.
Proof.
  induction f as [|x f IH]; intros H; simpl; [by rewrite decide_True|].
  apply not_elem_of_cons in H as [Hx Hf]. rewrite decide_False by congruence. by rewrite (IH Hf).
Qed.

(** ** base64 *)

Lemma b64val_char n : 0 <= n < 64 -> b64val (b64char n) = Some n /\ byte (b64char n) <> 10 /\ byte (b64char n) <> 13.
Proof.
  intros H. assert (forallb (fun n => bool_decide (b64val (b64char n) = Some n
      /\ byte (b64char n) <> 10 /\ byte (b64char n) <> 13)) (seqZ 0 64) = true) as Hall by (by vm_compute).
  rewrite forallb_forall in Hall. specialize (Hall n). rewrite bool_decide_eq_true in Hall.
  apply Hall, list_elem_of_In, elem_of_seqZ. lia.
Qed.

Lemma filter_b64 l :
  filter (fun c => byte c <> 10 /\ byte c <> 13) (b64encode l) = b64encode l.
Proof.
  assert (forall n, 0 <= n < 64 -> forall l, filter (fun c => byte c <> 10 /\ byte c <> 13) (b64char n :: l)
            = b64char n :: filter (fun c => byte c <> 10 /\ byte c <> 13) l) as Hc.
  { intros n Hn r. apply filter_cons_True. by apply b64val_char. }
  remember (length l) as n eqn:Hn. revert l Hn. induction (lt_wf n) as [n _ IH]. intros l ->.
  destruct l as [|x [|y [|z l]]]; cbn [b64encode]; try done;
    pose proof (byte_range x); try pose proof (byte_range y); try pose proof (byte_range z);
    rewrite ?Hc by (Z.to_euclidean_division_equations; lia); try done.
  do 4 f_equal. apply (IH (length l)); [simpl; lia|done].
Qed.

Lemma b64_roundtrip l : b64decode (b64encode l) = Some l.
Proof.
  unfold b64decode. rewrite filter_b64.
  remember (length l) as n eqn:Hn. revert l Hn. induction (lt_wf n) as [n _ IH]. intros l ->.
  destruct l as [|x [|y [|z l]]]; cbn [b64encode b64groups]; try done;
    pose proof (byte_range x); try pose proof (byte_range y); try pose proof (byte_range z);
    rewrite !(fun n H => proj1 (b64val_char n H)) by (Z.to_euclidean_division_equations; lia); csimpl.
  - do 2 f_equal. rewrite <- (chr_byte x) at 3. f_equal. Z.to_euclidean_division_equations; lia.
  - do 2 f_equal; [|f_equal].
    + rewrite <- (chr_byte x) at 3. f_equal. Z.to_euclidean_division_equations; lia.
    + rewrite <- (chr_byte y) at 3. f_equal. Z.to_euclidean_division_equations; lia.
  - rewrite (IH (length l)); [|simpl; lia|done]. simpl. do 2 f_equal; [|f_equal; [|f_equal]].
    + rewrite <- (chr_byte x) at 3. f_equal. Z.to_euclidean_division_equations; lia.
    + rewrite <- (chr_byte y) at 3. f_equal. Z.to_euclidean_division_equations; lia.
    + rewrite <- (chr_byte z) at 3. f_equal. Z.to_euclidean_division_equations; lia.
Qed.

Lemma nodigit_notin x l : is_digit x = false -> forallb is_digit l = true -> x ∉ l.
Proof. intros Hx Hl Hin. rewrite forallb_forall in Hl. specialize (Hl x). rewrite <- list_elem_of_In in Hl. naive_solver congruence. Qed.

Lemma Split_pieces sep l :
  exists f fs, Split sep l = f :: fs /\ l = f ++ concat (cons sep <$> fs) /\ sep ∉ f.
Proof.
  induction l as [|x l (f & fs & E & Hl & Hf)]; simpl.
  - exists [], []. split_and!; [done..|]. by intros ?%not_elem_of_nil.
  - case_decide as Hx; [subst x|].
    + rewrite E. exists [], (f :: fs). split_and!; [done| |by intros ?%not_elem_of_nil]. cbn. by rewrite Hl.
    + rewrite E. exists (x :: f), fs. split_and!; [done|cbn; by rewrite <- Hl|]. by rewrite not_elem_of_cons.
Qed.

End Strconv.
