(* ===== verification/History.v ===== *)
(** * The conversation log ([internal/history])

    [cursor.go], [segment.go] and [log.go]: an append-only log per
    conversation, kept as numbered segment files of one JSON entry per line,
    read back a page at a time. *)
From Stdlib Require Import Ascii String.
From stdpp Require Import prelude gmap strings list sorting.
From S2P Require Import Prelude Utf8 Strconv Conversations.

Module History.
Import Utf8 Strconv.

Local Open Scope Z_scope.
Local Open Scope pyry_scope.

(** ** Data *)

Record SessionProvenance := MkProvenance { Kind : string; SessionID : string }.

Record Entry := MkEntry {
  ID : Z;
  Type_ : string;
  Payload : bytes;
  TS : instant;
  Session : option SessionProvenance;
  Shown : option bool;
}.

Inductive historyError :=
| ErrIDExhausted | ErrInvalidMetadata | ErrInvalidID | ErrNotContained | ErrInvalidPayload
| ErrInvalidPageSize | ErrInvalidCursor | ErrUnknownVersion | ErrCorruptSegment | ErrIO.

#[export] Instance historyError_eq_dec : EqDecision historyError.
Proof. solve_decision. Defined.

Abbreviation result A := (A + historyError)%type.

Definition MaxSegmentBytes : Z := 1048576.
Definition MaxPageEntries : Z := 4096.
Definition MaxEntryID : Z := 2 ^ 53 - 1.

Record cursorPos := CursorPos { cp_segment : Z; cp_offset : Z }.
Record segEntry := SegEntry { se_entry : Entry; se_offset : Z }.
Record segmentRef := SegmentRef { sr_num : Z; sr_name : bytes }.
Record lookupBound := LookupBound { lb_firstID : Z; lb_size : Z; lb_discovered : bool }.

(** [convLog]: what the store remembers of one conversation's log. *)
Record convLog := ConvLog {
  cl_loaded : bool;
  cl_seg : Z;
  cl_segBytes : Z;
  cl_lastID : Z;
  cl_displayableID : Z;
  cl_displayableLoaded : bool;
  cl_lookupBounds : gmap Z lookupBound;
  cl_syncDone : bool;
  cl_syncPending : gset Z;
  cl_syncDirPending : bool;
}.
Definition new_convLog : convLog := ConvLog false 0 0 0 0 false ∅ false ∅ false.

(** A directory entry as [os.ReadDir] gives it, with the file's contents; a
    directory is its entries in the order of their names. *)
Record dirent := Dirent { de_name : bytes; de_regular : bool; de_data : bytes }.

Record Page := MkPage { pg_Entries : list Entry; pg_Cursor : bytes; pg_AtStart : bool }.

(** ** Cursors ([cursor.go]) *)

Definition cursorVersion : bytes := bs "1".
Definition dot : ascii := chr 46.
Definition newline : ascii := chr 10.

Definition mintCursor (convID : string) (segment offset : Z) : bytes :=
  b64encode (cursorVersion ++ [dot] ++ bs convID ++ [dot] ++ format segment ++ [dot] ++ format offset).

Definition parseCursor (cursor : bytes) (convID : string) : result cursorPos :=
  match b64decode cursor with
  | None => inr ErrInvalidCursor
  | Some raw =>
      match Split dot raw with
      | [version; conv; segment; offset] =>
          if negb (bool_decide (version = cursorVersion)) then inr ErrInvalidCursor
          else if negb (Conversations.ValidID (string_of_list_ascii conv))
                  || negb (bool_decide (conv = bs convID)) then inr ErrInvalidCursor
          else match ParseUint 64 segment with
          | None => inr ErrInvalidCursor
          | Some segment =>
              match ParseUint 63 offset with
              | None => inr ErrInvalidCursor
              | Some offset => inl (CursorPos segment offset)
              end
          end
      | _ => inr ErrInvalidCursor
      end
  end.

(** ** Segments ([segment.go]) *)

Definition quote : bytes := [chr 34].
Definition segmentFormat : bytes := bs "pyrycode.history".
Definition segmentHeaderLine : bytes :=
  bs "{" ++ quote ++ bs "format" ++ quote ++ bs ":" ++ quote ++ segmentFormat ++ quote ++ bs ","
  ++ quote ++ bs "version" ++ quote ++ bs ":1}" ++ [newline].

Definition segmentPrefix : bytes := bs "segment-".
Definition segmentSuffix : bytes := bs ".jsonl".
Definition segmentDigits : nat := 20.

Definition segmentName (n : Z) : bytes := segmentPrefix ++ format_padded segmentDigits n ++ segmentSuffix.

Definition parseSegmentName (name : bytes) : option Z :=
  match CutPrefix segmentPrefix name with
  | None => None
  | Some digits =>
      match CutSuffix segmentSuffix digits with
      | None => None
      | Some digits =>
          if negb (bool_decide (length digits = segmentDigits)) then None else ParseUint 64 digits
      end
  end.

Definition segmentCeiling (maxSegmentBytes : Z) : Z :=
  Z.of_nat (length segmentHeaderLine) + 2 * maxSegmentBytes.

(** [bytes.IndexByte(data, '\n')], cutting there. *)
Fixpoint cut_newline (data : bytes) : option (bytes * bytes) :=
  match data with
  | [] => None
  | c :: data =>
      if decide (c = newline) then Some ([], data)
      else match cut_newline data with
           | Some (line, rest) => Some (c :: line, rest)
           | None => None
           end
  end.

Section json.
(** [encoding/json]: encoding an entry, decoding a line, the validity of a
    payload, and reading a segment's header. *)
Context (enc : Entry -> option bytes) (dec : bytes -> option Entry).
Context (json_valid : bytes -> bool) (header_ok : bytes -> bool).

(** [encodeEntry]: [enc] is the encoder's line without its line feed. *)
Definition encodeEntry (e : Entry) : result bytes :=
  match enc e with Some l => inl (l ++ [newline]) | None => inr ErrInvalidPayload end.

(** The loop of [decodeSegment]; a line takes at least its line feed, so the
    length of the data is enough fuel. *)
Fixpoint decode_lines (fuel : nat) (rest : bytes) (offset : Z) (out : list segEntry)
  : result (list segEntry * bool) :=
  match fuel with
  | O => inl (out, true)
  | S fuel =>
      match rest with
      | [] => inl (out, true)
      | _ =>
          match cut_newline rest with
          | None => inl (out, false)
          | Some (line, rest) =>
              match dec line with
              | None => inr ErrCorruptSegment
              | Some e => decode_lines fuel rest (offset + Z.of_nat (length line) + 1) (out ++ [SegEntry e offset])
              end
          end
      end
  end.

Definition decodeSegment (data : bytes) : result (list segEntry * bool) :=
  match cut_newline data with
  | None => inl ([], false)
  | Some (h, rest) =>
      if header_ok h then decode_lines (length rest) rest (Z.of_nat (length h) + 1) []
      else inr ErrUnknownVersion
  end.

(** ** The store ([log.go]) *)

(** [listSegments]: the regular files with a segment's name, in order. *)
Definition listSegments (dir : list dirent) : list segmentRef :=
  omap (fun d => if de_regular d
                 then (fun n => SegmentRef n (de_name d)) <$> parseSegmentName (de_name d)
                 else None) dir.

Definition dir_find (name : bytes) (dir : list dirent) : option dirent :=
  find_first (fun d => bool_decide (de_name d = name)) dir.

(** What the environment answers during one operation. *)
Record env := Env {
  e_resolve : option historyError;         (* resolveDir refuses *)
  e_list : bool;                           (* listing the directory works *)
  e_readable : bytes -> bool;              (* opening and reading a file works *)
  e_open : bool;                           (* writeSegment: OpenFile *)
  e_stat : bool;                           (*   Stat *)
  e_write : option nat;                    (*   Write fails after so many bytes *)
  e_close : bool;                          (*   Close *)
  e_truncate : bool;                       (*   Truncate *)
  e_remove : bool;                         (*   Remove *)
}.

Definition readSegment (v : env) (maxb : Z) (dir : list dirent) (name : bytes)
  : result (list segEntry * Z * bool) :=
  match dir_find name dir with
  | None => inr ErrIO
  | Some d =>
      if negb (e_readable v name) then inr ErrIO
      else if segmentCeiling maxb <? Z.of_nat (length (de_data d)) then inr ErrCorruptSegment
      else match decodeSegment (de_data d) with
      | inr err => inr err
      | inl (entries, complete) => inl (entries, Z.of_nat (length (de_data d)), complete)
      end
  end.

(** Writes to the directory: a new file goes where its name sorts. *)
Definition dir_write (name : bytes) (f : bytes -> bytes) (dir : list dirent) : list dirent :=
  update_first (fun d => bool_decide (de_name d = name))
    (fun d => Dirent (de_name d) (de_regular d) (f (de_data d))) dir.
Definition dir_create (name data : bytes) (dir : list dirent) : list dirent :=
  insert_stable (fun a b => bytes_ltb (de_name a) (de_name b)) (Dirent name true data) dir.

(** [writeSegment]: on a failed write or close an appended segment is cut back
    to its old size, a fresh one removed, as far as that works. *)
Definition writeSegment (v : env) (name buf : bytes) (fresh : bool) (dir : list dirent)
  : list dirent * result Z :=
  let missing := bool_decide (dir_find name dir = None) in
  if negb (e_open v) || (negb fresh && missing) || (fresh && negb missing) then (dir, inr ErrIO)
  else
    let undo (written : bytes) :=
      if fresh
      then if e_remove v then dir else dir_create name written dir
      else if e_stat v && e_truncate v then dir else dir_write name (fun d => d ++ written) dir in
    match e_write v with
    | Some n => (undo (take n buf), inr ErrIO)
    | None =>
        if negb (e_close v) then (undo buf, inr ErrIO)
        else (if fresh then dir_create name buf dir else dir_write name (fun d => d ++ buf) dir,
              inl (Z.of_nat (length buf)))
    end.

Definition displayableType (typ : string) : bool :=
  negb (bool_decide (typ ∈ ["turn_state"; "stall"; "api_retry"; "compacting"; "session_transition"])).
Definition displayableEntry (e : Entry) : bool :=
  match Shown e with Some b => b | None => displayableType (Type_ e) end.

Definition valid_provenance (p : option SessionProvenance) : bool :=
  match p with
  | None => true
  | Some p =>
      if bool_decide (Kind p = "claude") || bool_decide (Kind p = "codex") then negb (bool_decide (SessionID p = ""))
      else if bool_decide (Kind p = "none") then bool_decide (SessionID p = "")
      else false
  end.

Definition rememberLookupBound (segment size first : Z) (c : convLog) : convLog :=
  ConvLog (cl_loaded c) (cl_seg c) (cl_segBytes c) (cl_lastID c) (cl_displayableID c)
    (cl_displayableLoaded c) (<[segment := LookupBound first size false]> (cl_lookupBounds c))
    (cl_syncDone c) (cl_syncPending c) (cl_syncDirPending c).

Definition set_loaded (b : bool) (c : convLog) : convLog :=
  ConvLog b (cl_seg c) (cl_segBytes c) (cl_lastID c) (cl_displayableID c)
    (cl_displayableLoaded c) (cl_lookupBounds c) (cl_syncDone c) (cl_syncPending c) (cl_syncDirPending c).
Definition set_active (seg segBytes : Z) (c : convLog) : convLog :=
  ConvLog (cl_loaded c) seg segBytes (cl_lastID c) (cl_displayableID c)
    (cl_displayableLoaded c) (cl_lookupBounds c) (cl_syncDone c) (cl_syncPending c) (cl_syncDirPending c).
Definition set_lastID (n : Z) (c : convLog) : convLog :=
  ConvLog (cl_loaded c) (cl_seg c) (cl_segBytes c) n (cl_displayableID c)
    (cl_displayableLoaded c) (cl_lookupBounds c) (cl_syncDone c) (cl_syncPending c) (cl_syncDirPending c).
Definition set_displayable (n : Z) (b : bool) (c : convLog) : convLog :=
  ConvLog (cl_loaded c) (cl_seg c) (cl_segBytes c) (cl_lastID c) n b
    (cl_lookupBounds c) (cl_syncDone c) (cl_syncPending c) (cl_syncDirPending c).
Definition set_pending (s : gset Z) (d : bool) (c : convLog) : convLog :=
  ConvLog (cl_loaded c) (cl_seg c) (cl_segBytes c) (cl_lastID c) (cl_displayableID c)
    (cl_displayableLoaded c) (cl_lookupBounds c) (cl_syncDone c) s d.

(** The loop of [load], over the segments from the last; [top] marks it. *)
Fixpoint load_loop (v : env) (maxb : Z) (dir : list dirent) (segs : list segmentRef) (top : bool) (c : convLog)
  : convLog * result unit :=
  match segs with
  | [] => (c, inl tt)
  | seg :: segs =>
      match readSegment v maxb dir (sr_name seg) with
      | inr err => (c, inr err)
      | inl (entries, size, complete) =>
          let first := match head entries with Some e => ID (se_entry e) | None => 0 end in
          let c := rememberLookupBound (sr_num seg) size first c in
          let c := if top then set_active (sr_num seg) (if complete then size else maxb) c else c in
          match last entries with
          | Some e => (set_lastID (ID (se_entry e)) c, inl tt)
          | None => load_loop v maxb dir segs false c
          end
      end
  end.

Definition load (v : env) (maxb : Z) (dir : list dirent) (c : convLog) : convLog * result unit :=
  if cl_loaded c then (c, inl tt)
  else
    let c := set_displayable (cl_displayableID c) false c in
    if negb (e_list v) then (c, inr ErrIO) else
    let segs := listSegments dir in
    let c := if cl_syncDone c then c
             else set_pending (list_to_set (sr_num <$> segs) ∪ cl_syncPending c) (cl_syncDirPending c) c in
    match load_loop v maxb dir (reverse segs) true (set_lastID 0 c) with
    | (c, inl _) => (set_loaded true c, inl tt)
    | (c, inr err) => (c, inr err)
    end.

(** The cache after a durable append of [entry] in segment [seg]. *)
Definition appended (c : convLog) (entry : Entry) (seg written : Z) : convLog :=
  let c' := set_pending ({[seg]} ∪ cl_syncPending c) (negb (seg =? cl_seg c) || cl_syncDirPending c) c in
  let c' := set_lastID (ID entry) c' in
  let c' := if displayableEntry entry then set_displayable (ID entry) true c' else c' in
  if negb (seg =? cl_seg c)
  then set_active seg written (rememberLookupBound seg written (ID entry) c')
  else
    let c' := set_active (cl_seg c) (cl_segBytes c + written) c' in
    match cl_lookupBounds c !! seg with
    | Some b => rememberLookupBound seg (cl_segBytes c + written)
                  (if lb_firstID b =? 0 then ID entry else lb_firstID b) c'
    | None => c'
    end.

(** [AppendWithMetadata] on one conversation: its directory ([None] while it
    does not exist), its cache, and the id assigned. *)
Definition AppendWithMetadata (v : env) (maxb : Z) (convID typ : string) (payload : bytes) (ts : instant)
    (session : option SessionProvenance) (shown : option bool)
    (dir : option (list dirent)) (c : convLog)
  : option (list dirent) * convLog * result Z :=
  if negb (Conversations.ValidID convID) then (dir, c, inr ErrInvalidID)
  else if negb (valid_provenance session) then (dir, c, inr ErrInvalidMetadata)
  else if negb (json_valid payload) then (dir, c, inr ErrInvalidPayload)
  else if maxb <? Z.of_nat (length payload) then (dir, c, inr ErrInvalidPayload)
  else match e_resolve v with
  | Some err => (dir, c, inr err)
  | None =>
      let d := default [] dir in
      match load v maxb d c with
      | (c, inr err) => (Some d, c, inr err)
      | (c, inl _) =>
          if MaxEntryID <=? cl_lastID c then (Some d, c, inr ErrIDExhausted)
          else
            let entry := MkEntry (cl_lastID c + 1) typ payload ts session shown in
            match encodeEntry entry with
            | inr err => (Some d, c, inr err)
            | inl line =>
                if maxb <? Z.of_nat (length line) then (Some d, c, inr ErrInvalidPayload)
                else
                  let roll := (cl_seg c =? 0) || (maxb <=? cl_segBytes c) in
                  let seg := if roll then u64 (cl_seg c + 1) else cl_seg c in
                  let buf := if roll then segmentHeaderLine ++ line else line in
                  match writeSegment v (segmentName seg) buf (negb (seg =? cl_seg c)) d with
                  | (d, inr err) => (Some d, set_loaded false c, inr err)
                  | (d, inl written) => (Some d, appended c entry seg written, inl (ID entry))
                  end
            end
      end
  end.

(** [LatestEntryID] and its cache-only variant. *)
Definition LatestEntryID (v : env) (maxb : Z) (convID : string) (dir : option (list dirent)) (c : convLog)
  : convLog * result Z :=
  if negb (Conversations.ValidID convID) then (c, inr ErrInvalidID)
  else match e_resolve v, dir with
  | Some err, _ => (c, inr err)
  | None, None => (c, inl 0)
  | None, Some d =>
      match load v maxb d c with
      | (c, inr err) => (c, inr err)
      | (c, inl _) => (c, inl (cl_lastID c))
      end
  end.

Definition CachedLatestEntryID (v : env) (convID : string) (dir : option (list dirent)) (c : convLog)
  : result (Z * bool) :=
  if negb (Conversations.ValidID convID) then inr ErrInvalidID
  else match e_resolve v, dir with
  | Some err, _ => inr err
  | None, None => inl (0, false)
  | None, Some _ => inl (if cl_loaded c then (cl_lastID c, true) else (0, false))
  end.

(** [LatestDisplayableEntryID]: the newest displayable entry, backwards over
    the segments, then remembered. *)
Fixpoint displayable_loop (v : env) (maxb : Z) (dir : list dirent) (segs : list segmentRef) : result Z :=
  match segs with
  | [] => inl 0
  | seg :: segs =>
      let? (entries, _, _) := readSegment v maxb dir (sr_name seg) in
      match find_first (fun e => displayableEntry (se_entry e)) (reverse entries) with
      | Some e => inl (ID (se_entry e))
      | None => displayable_loop v maxb dir segs
      end
  end.

Definition LatestDisplayableEntryID (v : env) (maxb : Z) (convID : string) (dir : option (list dirent)) (c : convLog)
  : convLog * result Z :=
  if negb (Conversations.ValidID convID) then (c, inr ErrInvalidID)
  else match e_resolve v, dir with
  | Some err, _ => (c, inr err)
  | None, None => (c, inl 0)
  | None, Some d =>
      match load v maxb d c with
      | (c, inr err) => (c, inr err)
      | (c, inl _) =>
          if cl_displayableLoaded c then (c, inl (cl_displayableID c))
          else if negb (e_list v) then (c, inr ErrIO)
          else match displayable_loop v maxb d (reverse (listSegments d)) with
          | inr err => (c, inr err)
          | inl id => (set_displayable id true c, inl id)
          end
      end
  end.

(** ** Paging *)

(** One segment's entries older than the cursor, newest first. *)
Definition page_entries (cursor : option Z) (entries : list segEntry) : option (list segEntry) :=
  match cursor with
  | None => Some (reverse entries)
  | Some off =>
      (fun k => reverse (take k entries)) <$> IndexFunc (fun e => se_offset e =? off) entries
  end.

(** The loop of [Page] over the segments from the start backwards; [out] is
    gathered newest first, [oldest] is the position of its last entry. *)
Fixpoint page_loop (v : env) (maxb : Z) (dir : list dirent) (segs : list segmentRef) (cursor : option Z)
    (limit : nat) (out : list Entry) (oldest : cursorPos) : result (list Entry * cursorPos * bool) :=
  match segs with
  | [] => inl (out, oldest, false)
  | seg :: segs =>
      let? (entries, _, _) := readSegment v maxb dir (sr_name seg) in
      match page_entries cursor entries with
      | None => inr ErrInvalidCursor
      | Some older =>
          let here := take (limit - length out) older in
          let out := out ++ (se_entry <$> here) in
          let oldest := match last here with Some e => CursorPos (sr_num seg) (se_offset e) | None => oldest end in
          if bool_decide (length out = limit) then inl (out, oldest, true)
          else page_loop v maxb dir segs None limit out oldest
      end
  end.

Definition Page_ (v : env) (maxb : Z) (convID : string) (cursor : bytes) (limit : Z)
    (dir : option (list dirent)) : result Page :=
  if negb (Conversations.ValidID convID) then inr ErrInvalidID
  else if limit <? 1 then inr ErrInvalidPageSize
  else
    let limit := Z.min limit MaxPageEntries in
    let? pos := (if bool_decide (cursor = []) then inl None
                 else match parseCursor cursor convID with inl p => inl (Some p) | inr err => inr err end) in
    match e_resolve v, dir with
    | Some err, _ => inr err
    | None, None => match pos with Some _ => inr ErrInvalidCursor | None => inl (MkPage [] [] true) end
    | None, Some d =>
        if negb (e_list v) then inr ErrIO else
        let segs := listSegments d in
        let start := match pos with
                     | None => Some (length segs)
                     | Some p => S <$> IndexFunc (fun s => sr_num s =? cp_segment p) segs
                     end in
        match start with
        | None => inr ErrInvalidCursor
        | Some n =>
            let? (out, oldest, full) :=
              page_loop v maxb d (reverse (take n segs)) (cp_offset <$> pos) (Z.to_nat limit) [] (CursorPos 0 0) in
            if (full : bool)
            then inl (MkPage out (mintCursor convID (cp_segment oldest) (cp_offset oldest)) false)
            else inl (MkPage out [] true)
        end
    end.
End json.

End History.
