(* ===== verification/HistoryProps.v ===== *)
(** * The conversation log: cursors, segment names, pages and appends *)
From Stdlib Require Import Ascii String ZArith Lia.
From stdpp Require Import prelude gmap strings list sorting.
From S2P Require Import Prelude Utf8 Strconv Conversations History.

Module HistoryProps.
Import Utf8 Strconv History.

Local Open Scope Z_scope.
Local Open Scope pyry_scope.

(** ** Cursors *)

Lemma digits_nodot l : forallb is_digit l = true -> dot ∉ l.
Proof. rewrite forallb_forall. intros H Hd%list_elem_of_In%H. by vm_compute in Hd. Qed.

Lemma format_nodot n : dot ∉ format n.
Proof. apply digits_nodot, fixed_digits. Qed.

Lemma byte_at_lookup s i c : bs s !! i = Some c -> byte_at s i = byte c.
Proof.
  revert i. induction s as [|a s IH]; intros [|i]; simpl; try done; [by intros [= ->]|]. apply IH.
Qed.

Lemma length_bs s : Z.of_nat (length (bs s)) = slen s.
Proof. unfold slen. f_equal. induction s; simpl; auto. Qed.

Lemma ValidID_nodot c : Conversations.ValidID c = true -> dot ∉ bs c.
Proof.
  unfold Conversations.ValidID. destruct (negb _) eqn:Hl; [done|]. reflect_bools.
  rewrite forallb_forall. intros Hall [i Hi]%list_elem_of_lookup.
  pose proof (lookup_lt_Some _ _ _ Hi) as Hlt. pose proof (length_bs c).
  specialize (Hall i). rewrite (byte_at_lookup _ _ _ Hi) in Hall.
  assert (Conversations.validIDByte i (byte dot) = true) as Hv by (apply Hall, in_seq; lia). revert Hv.
  unfold Conversations.validIDByte. repeat (case_bool_decide; [by vm_compute|]). by vm_compute.
Qed.

Lemma Split_cursor v c s o :
  dot ∉ v -> dot ∉ c -> dot ∉ s -> dot ∉ o ->
  Split dot (v ++ [dot] ++ c ++ [dot] ++ s ++ [dot] ++ o) = [v; c; s; o].
Proof. intros. cbn [app]. rewrite !Split_app by done. by rewrite Split_nosep. Qed.

Lemma parseCursor_minted c c' seg off :
  Conversations.ValidID c = true ->
  parseCursor (mintCursor c seg off) c'
  = if negb (bool_decide (bs c = bs c')) then inr ErrInvalidCursor
    else match ParseUint 64 (format seg), ParseUint 63 (format off) with
         | Some seg, Some off => inl (CursorPos seg off)
         | _, _ => inr ErrInvalidCursor
         end.
Proof.
  intros Hc. unfold parseCursor, mintCursor. rewrite b64_roundtrip.
  rewrite Split_cursor; [|by apply digits_nodot|by apply ValidID_nodot|apply format_nodot|apply format_nodot].
  rewrite bool_decide_eq_true_2 by done. rewrite string_of_list_ascii_of_string, Hc. cbn [negb orb].
  destruct (negb _); [done|]. destruct (ParseUint 64 _); [|done]. by destruct (ParseUint 63 _).
Qed.

Lemma parseCursor_mint c seg off :
  Conversations.ValidID c = true -> 0 <= seg < 2 ^ 64 -> 0 <= off < 2 ^ 63 ->
  parseCursor (mintCursor c seg off) c = inl (CursorPos seg off).
Proof.
  intros Hc Hs Ho. rewrite parseCursor_minted by done. rewrite bool_decide_eq_true_2 by done. cbn [negb].
  by rewrite (parse_format 64 seg), (parse_format 63 off) by lia.
Qed.

(** A cursor this store minted names, to the conversation it was minted
    for, exactly the segment and the offset it was minted with; to any other
    conversation it is refused. *)
Theorem cursor_roundtrip c seg off :
  Conversations.ValidID c = true -> 0 <= seg < 2 ^ 64 -> 0 <= off < 2 ^ 63 ->
  parseCursor (mintCursor c seg off) c = inl (CursorPos seg off)
  /\ forall c', c' <> c -> parseCursor (mintCursor c seg off) c' = inr ErrInvalidCursor.
Proof.
  intros Hc Hs Ho. split; [by apply parseCursor_mint|]. intros c' Hne.
  rewrite parseCursor_minted by done. rewrite bool_decide_eq_false_2; [done|]. intros He.
  apply (f_equal string_of_list_ascii) in He. rewrite !string_of_list_ascii_of_string in He. congruence.
Qed.

(** ** Segment names *)

Lemma segmentName_parse n : 0 <= n < 2 ^ 64 -> parseSegmentName (segmentName n) = Some n.
Proof.
  intros Hn. unfold parseSegmentName, segmentName. rewrite CutPrefix_app, CutSuffix_app.
  destruct (ndigits_spec n Hn) as [Hd _]. unfold segmentDigits.
  rewrite bool_decide_eq_true_2 by (unfold format_padded; rewrite length_fixed; lia).
  cbn [negb]. by apply parse_padded; [|lia].
Qed.

Lemma format_padded_20 n : 0 <= n < 2 ^ 64 -> format_padded segmentDigits n = fixed 20 n.
Proof.
  intros Hn. destruct (ndigits_spec n Hn) as [Hd _]. unfold format_padded, segmentDigits.
  by rewrite Nat.max_l by lia.
Qed.

Lemma parse_segmentName name n :
  parseSegmentName name = Some n -> 0 <= n < 2 ^ 64 /\ name = segmentName n.
Proof.
  unfold parseSegmentName. destruct (CutPrefix _ _) as [d|] eqn:Hp; [|done].
  destruct (CutSuffix _ _) as [d'|] eqn:Hs; [|done]. case_bool_decide as Hl; [|done]. cbn [negb].
  intros (Hne & Hd & -> & Hv)%ParseUint_Some. apply CutPrefix_Some in Hp as ->.
  apply CutSuffix_Some in Hs as ->. destruct (fixed_value d' Hd) as [Hf Hr].
  split; [lia|]. unfold segmentName. rewrite format_padded_20 by lia. rewrite Hl in Hf.
  unfold segmentDigits in Hf. by rewrite Hf.
Qed.

Lemma segmentName_ltb n m :
  0 <= n < m -> m < 2 ^ 64 -> bytes_ltb (segmentName n) (segmentName m) = true.
Proof.
  intros Hn Hm. unfold segmentName. rewrite bytes_ltb_app by done. rewrite decide_True by done.
  rewrite !format_padded_20 by lia. rewrite bytes_ltb_app by (by rewrite !length_fixed).
  rewrite decide_False; [by apply fixed_ltb; lia|].
  intros He. apply (f_equal value) in He. rewrite !value_fixed in He by lia. lia.
Qed.

(** The names of the segment files are exactly the names that parse:
    a name parses as [n] when and only when it is the name of [n], and the
    names sort as their numbers do, so the order of a directory listing is
    the order of the log. *)
Theorem segment_names name n :
  (parseSegmentName name = Some n <-> 0 <= n < 2 ^ 64 /\ name = segmentName n)
  /\ forall m k, 0 <= m < 2 ^ 64 -> 0 <= k < 2 ^ 64 ->
       (bytes_ltb (segmentName m) (segmentName k) = true <-> m < k).
Proof.
  split.
  - split; [apply parse_segmentName|]. intros [Hn ->]. by apply segmentName_parse.
  - intros m k Hm Hk. split; [|intros; apply segmentName_ltb; lia]. intros Hlt.
    destruct (Z.lt_trichotomy m k) as [?|[<-|?]]; [done| |].
    + by rewrite bytes_ltb_irrefl in Hlt.
    + rewrite bytes_ltb_asym in Hlt; [done|]. apply segmentName_ltb; lia.
Qed.

(** ** Lines and segments *)

Lemma cut_newline_app line rest :
  newline ∉ line -> cut_newline (line ++ newline :: rest) = Some (line, rest).
Proof.
  induction line as [|x l IH]; intros H; cbn [cut_newline app]; [by rewrite decide_True|].
  apply not_elem_of_cons in H as [Hx Hl]. rewrite decide_False by congruence. by rewrite IH.
Qed.

Lemma cut_newline_None l : cut_newline l = None <-> newline ∉ l.
Proof.
  induction l as [|x l IH]; cbn [cut_newline]; [split; [intros _ H; by apply elem_of_nil in H|done]|].
  rewrite not_elem_of_cons. destruct (decide (x = newline)) as [->|Hx]; [split; [done|intros [? _]; done]|].
  destruct (cut_newline l) as [[]|]; [split; [done|intros [_ H]; by apply IH in H]|].
  split; [split; [congruence|by apply IH]|done].
Qed.

Lemma cut_newline_Some l line rest :
  cut_newline l = Some (line, rest) -> l = line ++ newline :: rest /\ newline ∉ line.
Proof.
  revert line. induction l as [|x l IH]; intros line; cbn [cut_newline]; [done|].
  destruct (decide (x = newline)) as [->|Hx].
  - intros [= <- <-]. split; [done|]. intros H. by apply elem_of_nil in H.
  - destruct (cut_newline l) as [[l1 r1]|]; [|done]. intros [= <- <-].
    destruct (IH l1 eq_refl) as [-> Hn]. split; [done|]. rewrite not_elem_of_cons. split; [congruence|done].
Qed.

Definition before_in_segment (a b : segEntry) : Prop := se_offset a < se_offset b.

Section decoding.
Context (dec : bytes -> option Entry) (header_ok : bytes -> bool).

Lemma decode_lines_offsets fuel rest off out ents complete :
  decode_lines dec fuel rest off out = inl (ents, complete) ->
  exists new, ents = out ++ new /\ StronglySorted before_in_segment new
    /\ forall e, e ∈ new -> off <= se_offset e < off + Z.of_nat (length rest).
Proof.
  revert rest off out. induction fuel as [|fuel IH]; intros rest off out; cbn [decode_lines].
  { intros [= <- <-]. exists []. rewrite app_nil_r. repeat split; [constructor| |]; by apply elem_of_nil in H. }
  destruct rest as [|x rest]; [|destruct (cut_newline (x :: rest)) as [[line rest']|] eqn:Hcut].
  1,3: intros [= <- <-]; exists []; rewrite app_nil_r; repeat split; [constructor| |]; by apply elem_of_nil in H.
  apply cut_newline_Some in Hcut as [Heq _]. rewrite Heq, length_app. cbn [length].
  destruct (dec line) as [e|]; [|done].
  intros (new & -> & Hs & Hin)%IH. exists (SegEntry e off :: new). rewrite <- app_assoc. split; [done|]. split.
  - constructor; [done|]. apply Forall_forall. intros e' He'%Hin. unfold before_in_segment. cbn [se_offset]. lia.
  - intros e' [->|He'%Hin]%elem_of_cons; cbn [se_offset]; lia.
Qed.

Lemma decodeSegment_offsets data ents complete :
  decodeSegment dec header_ok data = inl (ents, complete) ->
  StronglySorted before_in_segment ents /\ forall e, e ∈ ents -> 0 <= se_offset e < Z.of_nat (length data).
Proof.
  unfold decodeSegment. destruct (cut_newline data) as [[h rest]|] eqn:Hcut.
  - apply cut_newline_Some in Hcut as [-> _]. destruct (header_ok h); [|done].
    intros (new & -> & Hs & Hin)%decode_lines_offsets. rewrite length_app. cbn [length app]. split; [done|].
    intros e He%Hin. lia.
  - intros [= <- <-]. split; [constructor|]. intros e He. by apply elem_of_nil in He.
Qed.

Lemma readSegment_offsets v maxb dir name ents size complete :
  readSegment dec header_ok v maxb dir name = inl (ents, size, complete) ->
  StronglySorted before_in_segment ents
  /\ forall e, e ∈ ents -> 0 <= se_offset e < segmentCeiling maxb.
Proof.
  unfold readSegment. destruct (dir_find _ _) as [d|]; [|done]. destruct (negb _); [done|].
  destruct (_ <? _) eqn:Hc; [done|]. destruct (decodeSegment _ _ _) as [[es c]|] eqn:Hd; [|done].
  intros [= <- <- <-]. apply decodeSegment_offsets in Hd as [Hs Hin]. reflect_bools. split; [done|].
  intros e He%Hin. lia.
Qed.
End decoding.

(** ** The log a directory holds *)

Section reading.
Context (dec : bytes -> option Entry) (header_ok : bytes -> bool) (v : env) (maxb : Z).

(** A segment's entries with the number of the segment, and the whole log. *)
Definition entries_of (dir : list dirent) (s : segmentRef) : list (Z * segEntry) :=
  match readSegment dec header_ok v maxb dir (sr_name s) with
  | inl (es, _, _) => pair (sr_num s) <$> es
  | inr _ => []
  end.
Definition positions (dir : list dirent) : list (Z * segEntry) :=
  concat (entries_of dir <$> listSegments dir).
Definition entry_at (x : Z * segEntry) : Entry := se_entry x.2.
Definition log_of (dir : list dirent) : list Entry := entry_at <$> positions dir.

(** A directory: names occur once, and every segment reads. *)
Definition seg_reads (dir : list dirent) (s : segmentRef) : Prop :=
  exists es size complete, readSegment dec header_ok v maxb dir (sr_name s) = inl (es, size, complete).
Definition readable (dir : list dirent) : Prop :=
  NoDup (de_name <$> dir) /\ Forall (seg_reads dir) (listSegments dir).
End reading.

Lemma listSegments_spec dir s :
  s ∈ listSegments dir -> 0 <= sr_num s < 2 ^ 64 /\ sr_name s = segmentName (sr_num s) /\ sr_name s ∈ de_name <$> dir.
Proof.
  unfold listSegments. intros (d & Hd & Hs)%list_elem_of_omap. destruct (de_regular d); [|done].
  apply fmap_Some in Hs as (n & [Hn Hname]%parse_segmentName & ->). cbn [sr_num sr_name].
  split; [done|]. split; [done|]. by apply list_elem_of_fmap_2.
Qed.

Lemma listSegments_names_sublist dir : (sr_name <$> listSegments dir) `sublist_of` (de_name <$> dir).
Proof.
  unfold listSegments. induction dir as [|d dir IH]; csimpl; [constructor|].
  destruct (de_regular d); [|by apply sublist_cons].
  destruct (parseSegmentName _); csimpl; [by apply sublist_skip|by apply sublist_cons].
Qed.

Lemma listSegments_nums_NoDup dir : NoDup (de_name <$> dir) -> NoDup (sr_num <$> listSegments dir).
Proof.
  intros H. assert (NoDup (sr_name <$> listSegments dir)) as Hn
    by (eapply sublist_NoDup; [exact H|apply listSegments_names_sublist]).
  rewrite (list_fmap_ext sr_name (segmentName ∘ sr_num)) in Hn.
  - rewrite list_fmap_compose in Hn. by apply NoDup_fmap_1 in Hn.
  - intros i s Hi. apply (listSegments_spec dir). by eapply list_elem_of_lookup_2.
Qed.

(** ** Pages *)

Lemma concat_split {A B} (f : A -> list B) l P x Q :
  concat (f <$> l) = P ++ x :: Q ->
  exists l1 a l2 p q, l = l1 ++ a :: l2 /\ f a = p ++ x :: q /\ P = concat (f <$> l1) ++ p.
Proof.
  revert P. induction l as [|a l IH]; intros P H; csimpl in H; [by destruct P|]. cbn [concat] in H.
  destruct (decide (length P < length (f a))%nat) as [Hlt|Hge].
  - exists [], a, l, P, (drop (S (length P)) (f a)). split; [done|]. split; [|done].
    assert (f a = take (length (f a)) (P ++ x :: Q)) as Hfa by (by rewrite <- H, take_app_length).
    rewrite Hfa at 1. rewrite take_app_ge by lia. f_equal.
    destruct (length (f a) - length P)%nat as [|k] eqn:Hk; [lia|]. cbn [take]. f_equal.
    assert (drop (S (length P)) (f a) = take k Q) as ->; [|done].
    rewrite Hfa, skipn_firstn_comm, drop_app_ge by lia.
    replace (S (length P) - length P)%nat with 1%nat by lia. cbn [drop]. f_equal. lia.
  - assert (P = f a ++ drop (length (f a)) P) as HP.
    { assert (take (length (f a)) P = f a) as Ht; [|rewrite <- Ht at 1; by rewrite take_drop].
      rewrite <- (take_app_le P (x :: Q)) by lia. by rewrite <- H, take_app_length. }
    rewrite HP, <- app_assoc in H. apply app_inv_head in H.
    destruct (IH _ H) as (l1 & b & l2 & p & q & -> & Hb & Hd). exists (a :: l1), b, l2, p, q.
    split; [done|]. split; [done|]. rewrite HP, Hd. csimpl. cbn [concat]. by rewrite app_assoc.
Qed.

Section paging.
Context (dec : bytes -> option Entry) (header_ok : bytes -> bool).
Context (v : env) (maxb : Z) (convID : string).
Context (Hid : Conversations.ValidID convID = true) (Hres : e_resolve v = None) (Hlist : e_list v = true).
Context (Hceil : segmentCeiling maxb <= 2 ^ 63).

#[local] Abbreviation page_loop := (page_loop dec header_ok v maxb).
#[local] Abbreviation Page_ := (Page_ dec header_ok v maxb convID).
#[local] Abbreviation entries_of := (entries_of dec header_ok v maxb).
#[local] Abbreviation positions := (positions dec header_ok v maxb).
#[local] Abbreviation readable := (readable dec header_ok v maxb).
#[local] Abbreviation seg_reads := (seg_reads dec header_ok v maxb).

Definition position_of (x : Z * segEntry) : cursorPos := CursorPos x.1 (se_offset x.2).

(** What the loop answers when [L] are the entries left, newest first. *)
Definition page_result (limit : nat) (out : list Entry) (oldest : cursorPos) (L : list (Z * segEntry))
  : list Entry * cursorPos * bool :=
  let here := take (limit - length out) L in
  (out ++ (entry_at <$> here), from_option position_of oldest (last here),
   bool_decide (length (out ++ (entry_at <$> here)) = limit)).

Lemma page_result_app limit out oldest L1 L2 :
  (length out + length L1 < limit)%nat ->
  page_result limit out oldest (L1 ++ L2)
  = page_result limit (out ++ (entry_at <$> L1)) (from_option position_of oldest (last L1)) L2.
Proof.
  intros H. unfold page_result. rewrite take_app_ge by lia.
  replace (limit - length (out ++ (entry_at <$> L1)))%nat with (limit - length out - length L1)%nat
    by (rewrite length_app, length_fmap; lia).
  rewrite fmap_app, app_assoc. f_equal. f_equal. rewrite last_app. by destruct (last (take _ L2)).
Qed.

Lemma page_result_full limit out oldest L1 L2 :
  (length out < limit <= length out + length L1)%nat ->
  page_result limit out oldest (L1 ++ L2)
  = (out ++ (entry_at <$> take (limit - length out) L1),
     from_option position_of oldest (last (take (limit - length out) L1)), true).
Proof.
  intros H. unfold page_result. rewrite take_app_le by lia. f_equal.
  apply bool_decide_eq_true. rewrite length_app, length_fmap, length_take. lia.
Qed.

Lemma page_loop_cons dir s segs cursor limit out oldest es size complete older :
  readSegment dec header_ok v maxb dir (sr_name s) = inl (es, size, complete) ->
  page_entries cursor es = Some older ->
  page_loop dir (s :: segs) cursor limit out oldest
  = let here := pair (sr_num s) <$> take (limit - length out) older in
    if bool_decide (length (out ++ (entry_at <$> here)) = limit)
    then inl (out ++ (entry_at <$> here), from_option position_of oldest (last here), true)
    else page_loop dir segs None limit (out ++ (entry_at <$> here)) (from_option position_of oldest (last here)).
Proof.
  intros Hr Hp. cbn [History.page_loop]. rewrite Hr, Hp. cbv zeta.
  rewrite fmap_last, <- list_fmap_compose. change (entry_at ∘ pair (sr_num s)) with se_entry.
  by destruct (last _).
Qed.

Lemma page_loop_spec dir s segs cursor es size complete older limit out oldest :
  readSegment dec header_ok v maxb dir (sr_name s) = inl (es, size, complete) ->
  page_entries cursor es = Some older -> Forall (seg_reads dir) segs -> (length out < limit)%nat ->
  page_loop dir (s :: segs) cursor limit out oldest
  = inl (page_result limit out oldest
           ((pair (sr_num s) <$> older) ++ concat ((fun s => reverse (entries_of dir s)) <$> segs))).
Proof.
  revert s cursor es size complete older out oldest.
  induction segs as [|s' segs IH]; intros s cursor es size complete older out oldest Hr Hp Hf Hlt;
    rewrite (page_loop_cons _ _ _ _ _ _ _ _ _ _ _ Hr Hp); cbv zeta; rewrite fmap_take.
  - csimpl. cbn [concat]. rewrite app_nil_r. unfold page_result. by case_bool_decide.
  - apply Forall_cons in Hf as [(es' & size' & complete' & Hr') Hf].
    destruct (decide (limit - length out <= length older)%nat) as [Hge|Hge].
    + rewrite page_result_full by (rewrite length_fmap; lia).
      rewrite bool_decide_eq_true_2; [done|].
      rewrite length_app, length_fmap, length_take, length_fmap. lia.
    + rewrite (take_ge (pair _ <$> older)) by (rewrite length_fmap; lia).
      rewrite bool_decide_eq_false_2 by (rewrite length_app, !length_fmap; lia).
      rewrite (IH s' None es' size' complete' (reverse es')); [|done|done|done|rewrite length_app, !length_fmap; lia].
      rewrite (page_result_app _ out) by (rewrite length_fmap; lia). do 2 f_equal. csimpl. cbn [concat].
      unfold HistoryProps.entries_of at 2. rewrite Hr'. by rewrite fmap_reverse.
Qed.
(** The page that answers when [A] are the entries older than the cursor. *)
Definition page_of (limit : nat) (A : list (Z * segEntry)) : Page :=
  let here := take limit (reverse A) in
  match last here with
  | Some x =>
      if bool_decide (length here = limit)
      then MkPage (entry_at <$> here) (mintCursor convID x.1 (se_offset x.2)) false
      else MkPage (entry_at <$> here) [] true
  | None => MkPage [] [] true
  end.

Lemma page_result_page_of limit A :
  (0 < limit)%nat ->
  (let '(out, oldest, full) := page_result limit [] (CursorPos 0 0) (reverse A) in
   if (full : bool) then MkPage out (mintCursor convID (cp_segment oldest) (cp_offset oldest)) false
   else MkPage out [] true) = page_of limit A.
Proof.
  intros Hl. unfold page_result, page_of. cbn [length app]. rewrite Nat.sub_0_r.
  rewrite length_fmap. destruct (last (take limit (reverse A))) as [x|] eqn:Hx; cbn [from_option].
  - by case_bool_decide.
  - apply last_None in Hx. rewrite Hx. rewrite bool_decide_eq_false_2; [done|]. cbn. lia.
Qed.

Lemma concat_reverse_entries dir segs :
  concat ((fun s => reverse (entries_of dir s)) <$> reverse segs) = reverse (concat (entries_of dir <$> segs)).
Proof.
  induction segs as [|s segs IH]; [done|]. rewrite reverse_cons, fmap_app, concat_app, IH. csimpl. cbn [concat].
  by rewrite app_nil_r, reverse_app.
Qed.

(** Both forms of [Page]'s start: the end of the log and a position in it. *)
Lemma page_loop_start dir segs s cursor es size complete older limit A :
  readSegment dec header_ok v maxb dir (sr_name s) = inl (es, size, complete) ->
  page_entries cursor es = Some older -> Forall (seg_reads dir) segs -> (0 < limit)%nat ->
  A = concat (entries_of dir <$> segs) ++ (pair (sr_num s) <$> reverse older) ->
  page_loop dir (reverse (segs ++ [s])) cursor limit [] (CursorPos 0 0)
  = inl (page_result limit [] (CursorPos 0 0) (reverse A)).
Proof.
  intros Hr Hp Hf Hl ->. rewrite reverse_snoc.
  rewrite (page_loop_spec _ _ _ _ _ _ _ _ _ _ _ Hr Hp);
    [|by rewrite reverse_Permutation|by cbn].
  by rewrite concat_reverse_entries, reverse_app, <- fmap_reverse, reverse_involutive.
Qed.

Lemma page_newest dir limit :
  readable dir -> 1 <= limit ->
  Page_ [] limit (Some dir) = inl (page_of (Z.to_nat (Z.min limit MaxPageEntries)) (positions dir)).
Proof.
  intros [_ Hf] Hl. unfold History.Page_. rewrite Hid. cbn [negb]. rewrite (proj2 (Z.ltb_ge _ _)) by done.
  rewrite bool_decide_eq_true_2 by done. rewrite Hres, Hlist. cbn [negb]. cbv zeta.
  assert (0 < Z.to_nat (Z.min limit MaxPageEntries))%nat as Hl' by (unfold MaxPageEntries; lia).
  rewrite (take_ge (listSegments dir)) by done. revert Hl'. generalize (Z.to_nat (Z.min limit MaxPageEntries)). intros k Hl'.
  rewrite <- page_result_page_of by done. unfold HistoryProps.positions.
  destruct (decide (listSegments dir = [])) as [->|Hne].
  - unfold page_result. cbn [fmap list_fmap concat]. rewrite !reverse_nil, take_nil. cbn [fmap list_fmap app length option_fmap option_map].
    rewrite bool_decide_eq_false_2 by lia. done.
  - destruct (exists_last Hne) as (segs & s & Hs). rewrite Hs in *.
    apply Forall_app in Hf as [Hf [(es & size & complete & Hr) _]%Forall_cons].
    rewrite (page_loop_start dir segs s None es size complete (reverse es) _ (positions dir)); [|done|done|done|done|].
    + unfold HistoryProps.positions. rewrite Hs. by destruct (page_result _ _ _ _) as [[??][]].
    + unfold HistoryProps.positions. rewrite Hs, fmap_app, concat_app. f_equal. csimpl. cbn [concat].
      unfold HistoryProps.entries_of. rewrite Hr, app_nil_r. by rewrite reverse_involutive.
Qed.

Lemma mintCursor_nonempty seg off : mintCursor convID seg off <> [].
Proof. intros H. assert (b64decode (mintCursor convID seg off) = Some []) by (by rewrite H). revert H0. unfold mintCursor. by rewrite b64_roundtrip. Qed.

Lemma sorted_offsets_index es e1 e e2 :
  StronglySorted before_in_segment es -> es = e1 ++ e :: e2 ->
  IndexFunc (fun x => se_offset x =? se_offset e) es = Some (length e1).
Proof.
  intros Hs ->. apply IndexFunc_Some. split.
  - exists e. split; [by rewrite lookup_app_r, Nat.sub_diag by lia|apply Z.eqb_refl].
  - intros j y Hj Hy. rewrite lookup_app_l in Hy by done. apply Z.eqb_neq.
    assert (before_in_segment y e) as Hb; [|unfold before_in_segment in Hb; lia].
    eapply StronglySorted_app_1_elem_of; [exact Hs|by eapply list_elem_of_lookup_2|by left].
Qed.

Lemma page_at dir A x B limit :
  readable dir -> positions dir = A ++ x :: B -> 1 <= limit ->
  Page_ (mintCursor convID x.1 (se_offset x.2)) limit (Some dir)
  = inl (page_of (Z.to_nat (Z.min limit MaxPageEntries)) A).
Proof.
  intros [Hnd Hf] Hpos Hl. destruct (concat_split _ _ _ _ _ Hpos) as (s1 & s & s2 & p & q & Hsegs & Hs & HA).
  pose proof (listSegments_nums_NoDup dir Hnd) as Hnums.
  destruct (listSegments_spec dir s) as [Hn _]; [rewrite Hsegs; set_solver|].
  rewrite Hsegs in Hf. apply Forall_app in Hf as [Hf1 [(es & size & complete & Hr) Hf2]%Forall_cons].
  destruct (readSegment_offsets _ _ _ _ _ _ _ _ _ Hr) as [Hsorted Hoff].
  unfold HistoryProps.entries_of in Hs. rewrite Hr in Hs.
  apply fmap_app_inv in Hs as (e1 & e2' & -> & Hs & Hes). symmetry in Hs.
  apply fmap_cons_inv in Hs as (e & e2 & -> & -> & ->). cbn [fst snd] in *.
  unfold History.Page_. rewrite Hid. cbn [negb]. rewrite (proj2 (Z.ltb_ge _ _)) by done.
  rewrite bool_decide_eq_false_2 by apply mintCursor_nonempty.
  rewrite parseCursor_mint; [|done|done|].
  2: { destruct (Hoff e); [rewrite Hes; set_solver|]. lia. }
  rewrite Hres, Hlist. cbn [negb]. cbv zeta. cbn [option_map cp_segment cp_offset].
  rewrite Hsegs, (proj2 (IndexFunc_Some _ _ (length s1))).
  2: { split.
       - exists s. split; [by rewrite lookup_app_r, Nat.sub_diag by lia|apply Z.eqb_refl].
       - intros j y Hj Hy. apply Z.eqb_neq. intros He.
         rewrite <- Hsegs in Hy. assert (listSegments dir !! length s1 = Some s) as Hy'
           by (rewrite Hsegs; by apply list_lookup_middle).
         assert (j = length s1); [|lia]. apply (NoDup_lookup _ j (length s1) (sr_num s) Hnums);
           rewrite list_lookup_fmap; [by rewrite Hy, <- He|by rewrite Hy']. }
  csimpl. rewrite (cons_middle s), app_assoc.
  rewrite take_app_length' by (rewrite length_app; cbn [length]; lia).
  assert (0 < Z.to_nat (Z.min limit MaxPageEntries))%nat as Hl' by (unfold MaxPageEntries; lia).
  rewrite (page_loop_start dir s1 s (Some (se_offset e)) es size complete (reverse e1) _
             (concat (entries_of dir <$> s1) ++ (pair (sr_num s) <$> e1))); [|done| |done|done|by rewrite reverse_involutive].
  2: { unfold page_entries. rewrite (sorted_offsets_index _ e1 e e2) by done. csimpl. by rewrite Hes, take_app_length. }
  rewrite <- HA, <- page_result_page_of by done. by destruct (page_result _ _ _ _) as [[??][]].
Qed.
(** A reader following the cursors back from the newest page, on the log as it
    is at each of its calls. *)
Fixpoint walk (ds : nat -> list dirent) (limit : Z) (fuel i : nat) (cursor : bytes) : result (list Entry) :=
  match fuel with
  | O => inr ErrIO
  | S fuel =>
      let? p := Page_ cursor limit (Some (ds i)) in
      if pg_AtStart p then inl (pg_Entries p)
      else let? rest := walk ds limit fuel (S i) (pg_Cursor p) in inl (pg_Entries p ++ rest)
  end.

Lemma page_of_full k A :
  (0 < k)%nat ->
  (exists L x R, A = L ++ x :: R /\ page_of k A = MkPage (entry_at <$> reverse (x :: R)) (mintCursor convID x.1 (se_offset x.2)) false)
  \/ page_of k A = MkPage (entry_at <$> reverse A) [] true.
Proof.
  intros Hk. unfold page_of. destruct (last (take k (reverse A))) as [x|] eqn:Hx.
  - case_bool_decide as Hl.
    + left. apply last_Some in Hx as [h Hh].
      assert (A = reverse (drop k (reverse A)) ++ reverse (take k (reverse A))) as HA
        by (by rewrite <- reverse_app, take_drop, reverse_involutive).
      rewrite Hh, reverse_snoc in HA. exists (reverse (drop k (reverse A))), x, (reverse h). split; [done|].
      by rewrite Hh, reverse_cons, reverse_involutive.
    + right. rewrite length_take in Hl. by rewrite take_ge by lia.
  - right. apply last_None in Hx. destruct (reverse A); [done|]. by destruct k; [lia|].
Qed.

Lemma walk_spec ds limit fuel i cursor A :
  (forall j, readable (ds j)) -> (forall j, positions (ds j) `prefix_of` positions (ds (S j))) -> 1 <= limit ->
  Page_ cursor limit (Some (ds i)) = inl (page_of (Z.to_nat (Z.min limit MaxPageEntries)) A) ->
  A `prefix_of` positions (ds i) -> (length A < fuel)%nat ->
  walk ds limit fuel i cursor = inl (entry_at <$> reverse A).
Proof.
  intros Hr Hg Hl. revert i cursor A. induction fuel as [|fuel IH]; intros i cursor A Hp HA Hf; [lia|].
  cbn [walk]. rewrite Hp.
  destruct (page_of_full (Z.to_nat (Z.min limit MaxPageEntries)) A) as [(L & x & R & -> & ->)| ->];
    [unfold MaxPageEntries; lia| |done].
  cbn [pg_AtStart pg_Cursor pg_Entries]. rewrite length_app in Hf. cbn [length] in Hf.
  assert (L ++ x :: R `prefix_of` positions (ds (S i))) as [B HB] by (by etrans).
  rewrite <- app_assoc in HB. cbn [app] in HB. rewrite (IH (S i) _ L); [|by eapply page_at| |lia].
  - by rewrite reverse_app, fmap_app.
  - rewrite HB. by apply prefix_app_r.
Qed.

Lemma page_loop_bound dir segs cursor limit out oldest es o full :
  (length out <= limit)%nat ->
  page_loop dir segs cursor limit out oldest = inl (es, o, full) -> (length es <= limit)%nat.
Proof.
  revert cursor out oldest. induction segs as [|s segs IH]; intros cursor out oldest Hl.
  { cbn. congruence. }
  destruct (readSegment dec header_ok v maxb dir (sr_name s)) as [[[es' ?] ?]|] eqn:Hr; [|by cbn; rewrite Hr].
  destruct (page_entries cursor es') as [older|] eqn:Hp; [|by cbn; rewrite Hr, Hp].
  rewrite (page_loop_cons _ _ _ _ _ _ _ _ _ _ _ Hr Hp). cbv zeta. case_bool_decide as Hb.
  - intros [= <- _ _]. lia.
  - intros H%IH; [done|]. rewrite length_app, !length_fmap, length_take. lia.
Qed.

Lemma Page_bound cursor limit dir p :
  Page_ cursor limit dir = inl p -> Z.of_nat (length (pg_Entries p)) <= Z.min limit MaxPageEntries.
Proof.
  unfold History.Page_. rewrite Hid. cbn [negb]. destruct (limit <? 1) eqn:Hl; [done|]. reflect_bools.
  destruct (if bool_decide _ then _ else _) as [pos|]; [|done]. rewrite Hres.
  assert (0 < Z.min limit MaxPageEntries) by (unfold MaxPageEntries; lia).
  destruct dir as [d|]; [|destruct pos; [done|]; intros [= <-]; cbn; lia].
  rewrite Hlist. cbn [negb]. cbv zeta. destruct (match pos with Some _ => _ | None => _ end) as [n|]; [|done].
  destruct (page_loop _ _ _ _ _ _) as [[[es o] full]|] eqn:He; [|done].
  apply page_loop_bound in He; [|cbn; lia]. destruct full; intros [= <-]; cbn [pg_Entries]; lia.
Qed.
End paging.

(** C24. Reading back a page at a time: whatever is appended between two
    calls, following the cursors from the newest page returns every entry the
    log held at the first call exactly once, newest first, and stops; no page
    holds more than the size asked for or the store's own bound. *)
Theorem page_walk dec header_ok v maxb convID ds limit fuel :
  Conversations.ValidID convID = true -> e_resolve v = None -> e_list v = true ->
  segmentCeiling maxb <= 2 ^ 63 -> 1 <= limit ->
  (forall i, readable dec header_ok v maxb (ds i)) ->
  (forall i, positions dec header_ok v maxb (ds i) `prefix_of` positions dec header_ok v maxb (ds (S i))) ->
  (length (log_of dec header_ok v maxb (ds 0%nat)) < fuel)%nat ->
  walk dec header_ok v maxb convID ds limit fuel 0 [] = inl (reverse (log_of dec header_ok v maxb (ds 0%nat)))
  /\ forall i cursor p, Page_ dec header_ok v maxb convID cursor limit (Some (ds i)) = inl p ->
       Z.of_nat (length (pg_Entries p)) <= Z.min limit MaxPageEntries.
Proof.
  intros Hid Hres Hlist Hceil Hl Hr Hg Hf. unfold log_of in *. rewrite length_fmap in Hf. split.
  - rewrite <- fmap_reverse. apply walk_spec; try done. by apply page_newest.
  - intros i cursor p. by apply Page_bound.
Qed.

End HistoryProps.
