(* ===== verification/HistoryAppend.v ===== *)
(** * The conversation log: appends

    The store's appends, with every way a write can fail or be cut short,
    refine an append-only list of entries numbered from 1. *)
From Stdlib Require Import Ascii String ZArith Lia.
From stdpp Require Import prelude gmap strings list sorting.
From S2P Require Import Prelude Utf8 Strconv Conversations History HistoryProps.

Module HistoryAppend.
Import Utf8 Strconv History HistoryProps.

Local Open Scope Z_scope.
Local Open Scope pyry_scope.

(** ** Directories of segments *)

Abbreviation files := (list (Z * bytes)).

Definition dirent_of (f : Z * bytes) : dirent := Dirent (segmentName f.1) true f.2.
Definition dir_of (fs : files) : list dirent := dirent_of <$> fs.
Definition ref_of (f : Z * bytes) : segmentRef := SegmentRef f.1 (segmentName f.1).

Definition numbered (fs : files) : Prop :=
  StronglySorted Z.lt (fst <$> fs) /\ Forall (fun f => 0 < f.1 < 2 ^ 64) fs.

Lemma segmentName_inj n m :
  0 <= n < 2 ^ 64 -> 0 <= m < 2 ^ 64 -> segmentName n = segmentName m -> n = m.
Proof.
  intros Hn Hm He. apply segmentName_parse in Hn, Hm. rewrite He in Hn. congruence.
Qed.

Lemma listSegments_dir_of fs :
  Forall (fun f => 0 < f.1 < 2 ^ 64) fs -> listSegments (dir_of fs) = ref_of <$> fs.
Proof.
  unfold listSegments, dir_of. induction fs as [|[n d] fs IH]; intros H; [done|].
  apply Forall_cons in H as [Hn H]. cbn [fst] in Hn. csimpl. rewrite segmentName_parse by lia. csimpl.
  by rewrite IH.
Qed.

Lemma dir_find_spec fs n :
  Forall (fun f => 0 < f.1 < 2 ^ 64) fs -> 0 < n < 2 ^ 64 ->
  dir_find (segmentName n) (dir_of fs) = dirent_of <$> find_first (fun f => f.1 =? n) fs.
Proof.
  intros Hf Hn. unfold dir_find, dir_of. induction fs as [|[m d] fs IH]; [done|].
  apply Forall_cons in Hf as [Hm Hf]. cbn [fst] in Hm. csimpl.
  destruct (m =? n) eqn:E; reflect_bools.
  - subst m. by rewrite bool_decide_eq_true_2.
  - rewrite bool_decide_eq_false_2; [by apply IH|]. intros He. apply E. by apply segmentName_inj; [lia|lia|].
Qed.

Lemma dir_write_last fs n d f :
  numbered (fs ++ [(n, d)]) ->
  dir_write (segmentName n) f (dir_of (fs ++ [(n, d)])) = dir_of (fs ++ [(n, f d)]).
Proof.
  intros [Hs Hr]. unfold dir_write, dir_of. induction fs as [|[m d'] fs IH].
  - csimpl. by rewrite bool_decide_eq_true_2.
  - csimpl. cbn [fst] in *. csimpl in Hs. apply StronglySorted_inv in Hs as [Hs Hm].
    apply Forall_cons in Hr as [Hr' Hr]. cbn [fst] in Hr'.
    rewrite fmap_app in Hm. apply Forall_app in Hm as [_ [Hmn _]%Forall_cons]. cbn [fst] in Hmn.
    pose proof (proj1 (Forall_app _ _ _) Hr) as [_ [Hn _]%Forall_cons]. cbn [fst] in Hn.
    rewrite bool_decide_eq_false_2; [by rewrite IH|].
    intros He. apply segmentName_inj in He; lia.
Qed.

Lemma dir_create_last fs n data :
  numbered fs -> Forall (fun f => f.1 < n) fs -> n < 2 ^ 64 ->
  dir_create (segmentName n) data (dir_of fs) = dir_of (fs ++ [(n, data)]).
Proof.
  intros [_ Hr] Hlt Hn. unfold dir_create, dir_of. induction fs as [|[m d] fs IH]; [done|].
  apply Forall_cons in Hr as [Hm Hr]. apply Forall_cons in Hlt as [Hmn Hlt]. cbn [fst] in *.
  rewrite !fmap_cons. unfold dirent_of at 1. cbn [insert_stable de_name fst snd]. rewrite segmentName_ltb by lia. by rewrite IH.
Qed.

Lemma numbered_snoc fs n d :
  numbered fs -> Forall (fun f => f.1 < n) fs -> 0 < n < 2 ^ 64 -> numbered (fs ++ [(n, d)]).
Proof.
  intros [Hs Hr] Hlt Hn. split; [|apply Forall_app; split; [done|by apply Forall_singleton]].
  rewrite fmap_app. apply StronglySorted_app_2; [|done|repeat constructor].
  intros x y Hx Hy. csimpl in Hy. apply list_elem_of_singleton in Hy as ->.
  apply list_elem_of_fmap in Hx as (f & -> & Hf). by rewrite Forall_forall in Hlt; apply Hlt.
Qed.

Lemma numbered_last fs n d : numbered (fs ++ [(n, d)]) -> numbered fs /\ Forall (fun f => f.1 < n) fs /\ 0 < n < 2 ^ 64.
Proof.
  intros [Hs Hr]. apply Forall_app in Hr as [Hr [Hn _]%Forall_cons]. rewrite fmap_app in Hs.
  split; [split; [by eapply StronglySorted_app_1_l|done]|]. split; [|done].
  apply Forall_forall. intros f Hf. apply (StronglySorted_app_1_elem_of _ _ _ _ _ Hs);
    [by apply list_elem_of_fmap_2|by left].
Qed.

(** ** What appending bytes does to a segment's entries *)

Section decoding.
Context (dec : bytes -> option Entry) (header_ok : bytes -> bool).
#[local] Abbreviation decode_lines := (decode_lines dec).
#[local] Abbreviation decodeSegment := (decodeSegment dec header_ok).

(** More fuel than bytes changes nothing. *)
Lemma decode_lines_fuel f1 f2 rest off out :
  (length rest <= f1)%nat -> (length rest <= f2)%nat ->
  decode_lines f1 rest off out = decode_lines f2 rest off out.
Proof.
  revert f2 rest off out. induction f1 as [|f1 IH]; intros f2 rest off out H1 H2.
  { destruct rest; [|cbn in H1; lia]. by destruct f2. }
  destruct f2 as [|f2]; [destruct rest; [done|cbn in H2; lia]|]. cbn [History.decode_lines].
  destruct rest as [|x rest]; [done|]. destruct (cut_newline (x :: rest)) as [[line rest']|] eqn:Hc; [|done].
  apply cut_newline_Some in Hc as [Heq _]. apply (f_equal length) in Heq. rewrite length_app in Heq. cbn in H1, H2, Heq.
  destruct (dec line); [|done]. apply IH; lia.
Qed.

(** Decoding goes on where a complete stretch of lines ends. *)
Lemma decode_lines_app f rest more off out es :
  (length rest <= f)%nat -> decode_lines f rest off out = inl (es, true) ->
  decode_lines (f + length more) (rest ++ more) off out
  = decode_lines (length more) more (off + Z.of_nat (length rest)) es.
Proof.
  revert rest off out. induction f as [|f IH]; intros rest off out Hf.
  { destruct rest; [|cbn in Hf; lia]. intros [= <-]. cbn [length app Nat.add]. by rewrite Z.add_0_r. }
  cbn [History.decode_lines Nat.add].
  destruct rest as [|x rest].
  { intros [= <-]. cbn [app length]. rewrite Z.add_0_r. by apply (decode_lines_fuel (S (f + length more))); lia. }
  destruct (cut_newline (x :: rest)) as [[line rest']|] eqn:Hc; [|done].
  apply cut_newline_Some in Hc as [Heq Hnl]. rewrite Heq in Hf |- *. rewrite length_app in Hf. cbn [length] in Hf.
  destruct (dec line) as [e|] eqn:Hdec; [|done]. intros H.
  assert (exists y r, (line ++ newline :: rest') ++ more = y :: r) as (y & r & Hyr) by (destruct line; cbn; eauto).
  rewrite Hyr. rewrite <- Hyr. rewrite <- app_assoc. cbn [app]. rewrite cut_newline_app, Hdec by done.
  rewrite IH; [|lia|done]. f_equal. rewrite length_app. cbn [length]. lia.
Qed.

Lemma decodeSegment_app data more es :
  decodeSegment data = inl (es, true) ->
  decodeSegment (data ++ more) = decode_lines (length more) more (Z.of_nat (length data)) es.
Proof.
  unfold History.decodeSegment. destruct (cut_newline data) as [[h rest]|] eqn:Hc; [|done].
  apply cut_newline_Some in Hc as [-> Hnl]. rewrite <- app_assoc. cbn [app]. rewrite cut_newline_app by done.
  destruct (header_ok h); [|done]. intros H.
  rewrite length_app, (decode_lines_app _ _ _ _ _ _ (le_n _) H). f_equal.
  rewrite length_app. cbn [length]. lia.
Qed.

Lemma decode_torn l off es : newline ∉ l -> decode_lines (length l) l off es = inl (es, bool_decide (l = [])).
Proof.
  intros Hl. destruct l as [|x l]; [done|]. cbn [length History.decode_lines].
  by rewrite (proj2 (cut_newline_None _) Hl).
Qed.

Lemma decode_line l e off es :
  newline ∉ l -> dec l = Some e ->
  decode_lines (length (l ++ [newline])) (l ++ [newline]) off es = inl (es ++ [SegEntry e off], true).
Proof.
  intros Hl Hd. rewrite length_app. cbn [length]. rewrite Nat.add_1_r. cbn [History.decode_lines].
  assert (exists y r, l ++ [newline] = y :: r) as (y & r & Hyr) by (destruct l; cbn; eauto).
  rewrite Hyr, <- Hyr. rewrite (cut_newline_app l []), Hd by done. by destruct (length l).
Qed.

(** Any part of a line: nothing more, or the whole entry. *)
Lemma decode_partial_line n l e off es :
  newline ∉ l -> dec l = Some e ->
  decode_lines (length (take n (l ++ [newline]))) (take n (l ++ [newline])) off es
  = if decide (n <= length l)%nat then inl (es, bool_decide (take n l = []))
    else inl (es ++ [SegEntry e off], true).
Proof.
  intros Hl Hd. case_decide as Hn.
  - rewrite take_app_le by done. apply decode_torn. intros (i & Hi & _)%elem_of_take.
    apply Hl. by eapply list_elem_of_lookup_2.
  - rewrite take_ge by (rewrite length_app; cbn; lia). by apply decode_line.
Qed.

Definition header : bytes := removelast segmentHeaderLine.
Context (Hheader : header_ok header = true).

Lemma header_line : segmentHeaderLine = header ++ [newline] /\ newline ∉ header.
Proof. split; [done|]. apply cut_newline_None. by vm_compute. Qed.

Lemma decode_header : decodeSegment segmentHeaderLine = inl ([], true).
Proof.
  destruct header_line as [-> Hn]. unfold History.decodeSegment. by rewrite (cut_newline_app header []), Hheader.
Qed.

Lemma decode_fresh n l e :
  newline ∉ l -> dec l = Some e ->
  decodeSegment (take n (segmentHeaderLine ++ l ++ [newline]))
  = if decide (n <= length (segmentHeaderLine ++ l))%nat
    then inl ([], bool_decide (n = length segmentHeaderLine))
    else inl ([SegEntry e (Z.of_nat (length segmentHeaderLine))], true).
Proof.
  intros Hl Hd. destruct (decide (n < length segmentHeaderLine)%nat) as [Hlt|Hge].
  - rewrite decide_True by (rewrite length_app; lia). rewrite bool_decide_eq_false_2 by lia.
    rewrite take_app_le by lia. destruct header_line as [Heq Hn]. rewrite Heq in Hlt |- *.
    rewrite length_app in Hlt. cbn [length] in Hlt. rewrite take_app_le by lia.
    unfold History.decodeSegment. rewrite (proj2 (cut_newline_None _)); [done|].
    intros (i & Hi & _)%elem_of_take. apply Hn. by eapply list_elem_of_lookup_2.
  - rewrite take_app_ge, (decodeSegment_app _ _ _ decode_header), (decode_partial_line _ _ _ _ _ Hl Hd) by lia.
    rewrite length_app. destruct (decide (n - _ <= length l)%nat).
    + rewrite decide_True by lia. do 2 f_equal. apply bool_decide_ext. rewrite <- length_zero_iff_nil, length_take. lia.
    + by rewrite decide_False by lia.
Qed.
End decoding.

(** ** The invariant *)

Section store.
Context (enc : Entry -> option bytes) (dec : bytes -> option Entry).
Context (json_valid : bytes -> bool) (header_ok : bytes -> bool) (canon : Entry -> Entry).
Context (maxb : Z) (convID : string).
(** The encoder writes one line, which decodes to the entry up to the
    spelling of its payload and its time. *)
Context (Henc : forall e l, enc e = Some l -> (newline ∉ l) /\ dec l = Some (canon e)).
Context (Hcanon : forall e, ID (canon e) = ID e /\ displayableEntry (canon e) = displayableEntry e).
Context (Hheader : header_ok header = true).
#[local] Abbreviation decodeSegment := (decodeSegment dec header_ok).
#[local] Abbreviation readSegment := (readSegment dec header_ok).

Definition decoded (d : bytes) : list segEntry :=
  match decodeSegment d with inl (es, _) => es | inr _ => [] end.
Definition file_positions (f : Z * bytes) : list (Z * segEntry) := pair f.1 <$> decoded f.2.
Definition fpos (fs : files) : list (Z * segEntry) := concat (file_positions <$> fs).
Definition flog (fs : files) : list Entry := entry_at <$> fpos fs.

Definition file_ok (f : Z * bytes) : Prop :=
  (exists es complete, decodeSegment f.2 = inl (es, complete))
  /\ Z.of_nat (length f.2) <= segmentCeiling maxb.

Definition newest_displayable (l : list Entry) : Z :=
  from_option ID 0 (find_first displayableEntry (reverse l)).

(** The active segment as the cache has it: appendable, or to be rolled past. *)
Definition active_ok (fs : files) (c : convLog) : Prop :=
  match last fs with
  | None => cl_seg c = 0
  | Some f =>
      cl_seg c = f.1
      /\ (cl_segBytes c < maxb ->
           cl_segBytes c = Z.of_nat (length f.2) /\ exists es, decodeSegment f.2 = inl (es, true))
  end.

Definition cache_ok (fs : files) (c : convLog) : Prop :=
  cl_lastID c = Z.of_nat (length (flog fs))
  /\ (cl_displayableLoaded c = true -> cl_displayableID c = newest_displayable (flog fs))
  /\ active_ok fs c.

Record store_ok (k : Z) (fs : files) (c : convLog) : Prop := StoreOK {
  so_numbered : numbered fs;
  so_bound : Forall (fun f => f.1 <= k) fs;
  so_files : Forall file_ok fs;
  so_ids : ID <$> flog fs = seqZ 1 (Z.of_nat (length (flog fs)));
  so_empty : fs = [] -> cl_seg c = 0;
  so_cache : cl_loaded c = true -> cache_ok fs c;
}.

Lemma fpos_snoc fs f : fpos (fs ++ [f]) = fpos fs ++ file_positions f.
Proof. unfold fpos. rewrite fmap_app, concat_app. csimpl. cbn [concat]. by rewrite app_nil_r. Qed.

Lemma flog_snoc fs f : flog (fs ++ [f]) = flog fs ++ (se_entry <$> decoded f.2).
Proof. unfold flog. rewrite fpos_snoc, fmap_app. f_equal. unfold file_positions. by rewrite <- list_fmap_compose. Qed.

Lemma find_num fs f :
  numbered fs -> f ∈ fs -> find_first (fun g => g.1 =? f.1) fs = Some f.
Proof.
  intros [Hs _]. induction fs as [|g fs IH]; intros Hf; [by apply elem_of_nil in Hf|].
  csimpl in Hs. apply StronglySorted_inv in Hs as [Hs Hg]. cbn [find_first].
  apply elem_of_cons in Hf as [->|Hf]; [by rewrite Z.eqb_refl|].
  assert (g.1 < f.1) as Hlt by (rewrite Forall_forall in Hg; apply Hg; by apply list_elem_of_fmap_2).
  rewrite (proj2 (Z.eqb_neq _ _)) by lia. by apply IH.
Qed.

Lemma find_num_new fs n : Forall (fun f => f.1 < n) fs -> find_first (fun g : Z * bytes => g.1 =? n) fs = None.
Proof. intros H. apply find_first_None. intros f Hf. rewrite Forall_forall in H. apply H in Hf. lia. Qed.

Lemma read_file v fs f :
  numbered fs -> f ∈ fs -> file_ok f ->
  readSegment v maxb (dir_of fs) (segmentName f.1)
  = if e_readable v (segmentName f.1)
    then match decodeSegment f.2 with
         | inl (es, complete) => inl (es, Z.of_nat (length f.2), complete)
         | inr err => inr err
         end
    else inr ErrIO.
Proof.
  intros Hn Hf [_ Hl]. unfold History.readSegment. pose proof Hn as [_ Hr].
  rewrite dir_find_spec; [|done|rewrite Forall_forall in Hr; by apply Hr].
  rewrite find_num by done. csimpl. destruct (e_readable _ _); [|done]. cbn [negb].
  by rewrite (proj2 (Z.ltb_ge _ _)).
Qed.

(** ** Loading the cache *)

#[local] Abbreviation load_loop := (load_loop dec header_ok).
#[local] Abbreviation load := (load dec header_ok).

Lemma load_loop_spec v fs0 fs top c c' :
  numbered fs0 -> Forall file_ok fs0 -> fs `prefix_of` fs0 ->
  load_loop v maxb (dir_of fs0) (ref_of <$> reverse fs) top c = (c', inl ()) ->
  cl_lastID c' = from_option ID (cl_lastID c) (last (flog fs))
  /\ cl_displayableLoaded c' = cl_displayableLoaded c /\ cl_displayableID c' = cl_displayableID c
  /\ (if top then (fs = [] /\ cl_seg c' = cl_seg c) \/ (fs <> [] /\ active_ok fs c')
      else cl_seg c' = cl_seg c /\ cl_segBytes c' = cl_segBytes c).
Proof.
  intros Hn Hok. revert top c. induction fs as [|f fs IH] using rev_ind; intros top c Hpre; cbn [History.load_loop].
  { intros [= <-]. destruct top; [|done]. repeat split. by left. }
  assert (f ∈ fs0) as Hf by (destruct Hpre as [r ->]; set_solver).
  assert (file_ok f) as Hfok by (by rewrite Forall_forall in Hok; apply Hok).
  rewrite reverse_snoc, fmap_cons. cbn [History.load_loop ref_of sr_name sr_num].
  rewrite read_file by done. destruct (e_readable _ _); [|done].
  destruct Hfok as [(es & complete & Hd) Hlen]. rewrite Hd. rewrite flog_snoc. unfold decoded. rewrite Hd.
  assert (active_ok (fs ++ [f]) (set_active f.1 (if complete then Z.of_nat (length f.2) else maxb) c)) as Ha.
  { unfold active_ok. rewrite last_snoc. split; [done|]. cbn [cl_segBytes set_active].
    destruct complete; [eauto|lia]. }
  cbv zeta. destruct (last es) as [e|] eqn:He.
  - intros [= <-]. rewrite last_app, fmap_last, He. split; [by destruct top|]. split; [by destruct top|].
    split; [by destruct top|]. destruct top; [|done]. right. split; [by destruct fs|exact Ha].
  - apply last_None in He as ->. csimpl. rewrite app_nil_r. intros H.
    apply IH in H; [|by etrans; [by apply prefix_app_r|]].
    destruct H as (-> & -> & -> & H3 & H4). split; [by destruct top|]. split; [by destruct top|].
    split; [by destruct top|]. rewrite H3, H4. destruct top; [|done].
    right. split; [by destruct fs|]. unfold active_ok in *. rewrite last_snoc in *. by rewrite H3, H4.
Qed.
Lemma last_id fs k c : store_ok k fs c -> from_option ID 0 (last (flog fs)) = Z.of_nat (length (flog fs)).
Proof.
  intros [_ _ _ Hids _ _]. destruct (flog fs) as [|e l] using rev_ind; [done|]. rewrite last_snoc. cbn [from_option].
  rewrite fmap_app in Hids. rewrite length_app in *. cbn [length] in *.
  rewrite Nat.add_1_r in *. rewrite seqZ_S in Hids by lia. apply app_inj_tail in Hids as [_ Hids]. cbn in Hids. rewrite Hids. lia.
Qed.

Lemma load_loop_loaded v dir segs top c : cl_loaded (load_loop v maxb dir segs top c).1 = cl_loaded c.
Proof.
  revert top c. induction segs as [|s segs IH]; intros top c; [done|]. cbn [History.load_loop].
  destruct (readSegment _ _ _ _) as [[[es size] complete]|]; [|done]. cbv zeta.
  destruct (last es); [by destruct top|]. rewrite IH. by destruct top.
Qed.

Lemma load_loop_total v fs0 fs top c :
  numbered fs0 -> Forall file_ok fs0 -> fs `prefix_of` fs0 -> (forall n, e_readable v n = true) ->
  (load_loop v maxb (dir_of fs0) (ref_of <$> reverse fs) top c).2 = inl ().
Proof.
  intros Hn Hok. revert top c. induction fs as [|f fs IH] using rev_ind; intros top c Hpre Hv; [done|].
  assert (f ∈ fs0) as Hf by (destruct Hpre as [r ->]; set_solver).
  assert (file_ok f) as Hfok by (by rewrite Forall_forall in Hok; apply Hok).
  rewrite reverse_snoc, fmap_cons. cbn [History.load_loop ref_of sr_name].
  rewrite read_file, Hv by done. destruct Hfok as [(es & complete & ->) _]. cbv zeta.
  destruct (last es); [done|]. apply IH; [by etrans; [by apply prefix_app_r|]|done].
Qed.

(** What [load] leaves: the same files, and a cache that agrees with them. *)
Lemma load_ok v k fs c c' r :
  store_ok k fs c -> load v maxb (dir_of fs) c = (c', r) ->
  store_ok k fs c' /\ (r = inl () -> cl_loaded c' = true)
  /\ (e_list v = true -> (forall n, e_readable v n = true) -> r = inl ()).
Proof.
  intros Hs. pose proof (last_id _ _ _ Hs) as Hlast. destruct Hs as [Hn Hb Hok Hids He Hc].
  unfold History.load. destruct (cl_loaded c) eqn:Hl; [intros [= <- <-]; split; [constructor; tauto|done]|].
  destruct (e_list v); [|intros [= <- <-]; (split; [constructor; try done; cbn; congruence|done])]. cbn [negb].
  rewrite listSegments_dir_of, <- fmap_reverse by apply Hn. cbv zeta.
  set (c1 := set_lastID 0 _).
  assert (cl_loaded c1 = false /\ cl_lastID c1 = 0 /\ cl_displayableLoaded c1 = false /\ cl_seg c1 = cl_seg c)
    as (Hl1 & Hid1 & Hd1 & Hs1) by (subst c1; by destruct (cl_syncDone _)).
  pose proof (load_loop_loaded v (dir_of fs) (ref_of <$> reverse fs) true c1) as Hll.
  pose proof (load_loop_total v fs fs true c1 Hn Hok ltac:(done)) as Ht.
  destruct (load_loop _ _ _ _ _ _) as [c2 [[]|err]] eqn:Hloop; cbn [fst snd] in *; intros [= <- <-].
  - apply load_loop_spec in Hloop as (Hid & Hdl & Hdi & Ha); [|done..].
    rewrite Hid1, Hlast in Hid. split; [|done]. constructor; try done.
    + intros ->. destruct Ha as [[_ Ha]|[[] _]]; [|done]. cbn [cl_seg set_loaded]. rewrite Ha, Hs1. by apply He.
    + intros _. split; [done|]. split; [cbn; congruence|].
      destruct Ha as [[-> Ha]|[_ Ha]]; [|exact Ha]. unfold active_ok. cbn. rewrite Ha, Hs1. by apply He.
  - rewrite Hl1 in Hll. split; [|split; [done|intros _ Hv; by apply Ht in Hv]].
    constructor; try done; [|congruence]. intros ->. cbn in Hloop. congruence.
Qed.
(** ** Writing a line *)

(** Where an append writes: after the files [fs0], to segment [n], whose data
    is [d] so far; [fresh] marks a new segment, [l] is the entry's line. *)
Definition target (fresh : bool) (fs fs0 : files) (n : Z) (d buf l : bytes) : Prop :=
  if fresh
  then fs = fs0 /\ d = [] /\ buf = segmentHeaderLine ++ l ++ [newline]
  else fs = fs0 ++ [(n, d)] /\ (exists es, decodeSegment d = inl (es, true)) /\ buf = l ++ [newline].

Lemma target_fpos fresh fs fs0 n d buf l :
  target fresh fs fs0 n d buf l -> fpos fs = fpos fs0 ++ (pair n <$> decoded d).
Proof.
  destruct fresh; intros (-> & Hd & _).
  - subst d. unfold decoded. cbn. by rewrite app_nil_r.
  - by rewrite fpos_snoc.
Qed.

Lemma write_spec v fresh fs fs0 n d buf l dir' r :
  target fresh fs fs0 n d buf l -> numbered (fs0 ++ [(n, d)]) ->
  writeSegment v (segmentName n) buf fresh (dir_of fs) = (dir', r) ->
  match r with
  | inl written => written = Z.of_nat (length buf) /\ dir' = dir_of (fs0 ++ [(n, d ++ buf)])
  | inr _ => dir' = dir_of fs
      \/ exists j, dir' = dir_of (fs0 ++ [(n, d ++ take j buf)]) /\ (fresh = true -> e_remove v = false)
  end.
Proof.
  intros Ht Hn. pose proof (numbered_last _ _ _ Hn) as (Hn0 & Hlt & Hr).
  assert (forall b, (if fresh then dir_create (segmentName n) b (dir_of fs)
                     else dir_write (segmentName n) (fun d => d ++ b) (dir_of fs))
                    = dir_of (fs0 ++ [(n, d ++ b)])) as Hw.
  { intros b. destruct fresh; destruct Ht as (-> & Hd & _).
    - subst d. cbn [app]. apply dir_create_last; [done|done|lia].
    - by rewrite dir_write_last. }
  unfold writeSegment. cbv zeta. destruct (_ || _); [intros [= <- <-]; by left|].
  assert (forall b, let u := if fresh then if e_remove v then dir_of fs else dir_create (segmentName n) b (dir_of fs)
             else if e_stat v && e_truncate v then dir_of fs
                  else dir_write (segmentName n) (fun d => d ++ b) (dir_of fs) in
             u = dir_of fs \/ (u = dir_of (fs0 ++ [(n, d ++ b)]) /\ (fresh = true -> e_remove v = false))) as Hu.
  { intros b u. subst u. specialize (Hw b). destruct fresh.
    - destruct (e_remove v); [by left|by right].
    - destruct (_ && _); [by left|by right]. }
  destruct (e_write v) as [j|]; [|destruct (e_close v); cbn [negb]].
  - intros [= <- <-]. destruct (Hu (take j buf)) as [-> |[-> Hrm]]; [by left|right; by exists j].
  - intros [= <- <-]. by rewrite Hw.
  - intros [= <- <-]. destruct (Hu buf) as [-> |[-> Hrm]]; [by left|right]. exists (length buf). by rewrite firstn_all.
Qed.

Lemma decode_grow fresh fs fs0 n d buf l e j :
  target fresh fs fs0 n d buf l -> enc e = Some l ->
  exists extra complete, decodeSegment (d ++ take j buf) = inl (decoded d ++ extra, complete)
    /\ (extra = [] \/ exists off, extra = [SegEntry (canon e) off])
    /\ (length buf <= j -> complete = true /\ extra <> [])%nat.
Proof.
  intros Ht [Hl Hdec]%Henc. destruct fresh.
  - destruct Ht as (_ & -> & ->). cbn [app].
    rewrite (decode_fresh _ _ Hheader _ _ _ Hl Hdec). unfold decoded at 1. cbn [History.decodeSegment cut_newline app].
    rewrite !length_app. cbn [length]. case_decide.
    + eexists [], _. split; [done|]. split; [by left|]. lia.
    + eexists _, _. split; [done|]. split; [right; eauto|done].
  - destruct Ht as (_ & [es Hd] & ->). unfold decoded. rewrite Hd, (decodeSegment_app _ _ _ _ _ Hd).
    rewrite (decode_partial_line _ _ _ _ _ _ Hl Hdec), length_app. cbn [length]. case_decide.
    + eexists [], _. rewrite app_nil_r. split; [done|]. split; [by left|]. lia.
    + eexists _, _. split; [done|]. split; [right; eauto|done].
Qed.
(** ** One append *)

Definition added (e : Entry) (P P' : list (Z * segEntry)) : Prop :=
  exists seg off, P' = P ++ [(seg, SegEntry (canon e) off)].

(** What an append that answers [r] may do to the log. *)
Definition append_effect (typ : string) (payload : bytes) (ts : instant)
    (session : option SessionProvenance) (shown : option bool)
    (P P' : list (Z * segEntry)) (r : result Z) : Prop :=
  let entry := MkEntry (Z.of_nat (length P) + 1) typ payload ts session shown in
  match r with
  | inl id => id = Z.of_nat (length P) + 1 /\ added entry P P'
  | inr _ => P' = P \/ added entry P P'
  end.

Lemma length_flog fs : length (flog fs) = length (fpos fs).
Proof. unfold flog. by rewrite length_fmap. Qed.

Lemma added_log e fs fs' : added e (fpos fs) (fpos fs') -> flog fs' = flog fs ++ [canon e].
Proof. intros (seg & off & H). unfold flog. rewrite H, fmap_app. done. Qed.

Lemma numbered_data fs n d d' : numbered (fs ++ [(n, d)]) -> numbered (fs ++ [(n, d')]).
Proof. intros (Hn & Hlt & Hr)%numbered_last. by apply numbered_snoc. Qed.

Lemma store_ok_le k k' fs c : k <= k' -> store_ok k fs c -> store_ok k' fs c.
Proof. intros Hk [H1 H2 H3 H4 H5 H6]. constructor; try done. eapply Forall_impl; [exact H2|]. cbn. lia. Qed.

Lemma grow_ok k fs c fresh fs0 n d buf l e j c' :
  store_ok k fs c -> target fresh fs fs0 n d buf l -> numbered (fs0 ++ [(n, d)]) -> n <= k + 1 ->
  enc e = Some l -> ID e = Z.of_nat (length (fpos fs)) + 1 ->
  Z.of_nat (length d + length buf) <= segmentCeiling maxb ->
  (cl_loaded c' = true -> cache_ok (fs0 ++ [(n, d ++ take j buf)]) c') ->
  store_ok (k + 1) (fs0 ++ [(n, d ++ take j buf)]) c'
  /\ (fpos (fs0 ++ [(n, d ++ take j buf)]) = fpos fs \/ added e (fpos fs) (fpos (fs0 ++ [(n, d ++ take j buf)])))
  /\ (length buf <= j -> added e (fpos fs) (fpos (fs0 ++ [(n, d ++ take j buf)])))%nat.
Proof.
  intros Hs Ht Hn Hk He Hid Hlen Hc.
  destruct (decode_grow _ _ _ _ _ _ _ _ j Ht He) as (extra & complete & Hdec & Hex & Hfull).
  assert (fpos (fs0 ++ [(n, d ++ take j buf)]) = fpos fs ++ (pair n <$> extra)) as Hpos.
  { rewrite fpos_snoc, (target_fpos _ _ _ _ _ _ _ Ht). unfold file_positions. cbn [fst snd]. unfold decoded at 1.
    by rewrite Hdec, fmap_app, app_assoc. }
  assert (extra <> [] -> added e (fpos fs) (fpos (fs0 ++ [(n, d ++ take j buf)]))) as Hadd.
  { intros Hne. destruct Hex as [?|[off ->]]; [done|]. by exists n, off. }
  split; [|split; [|intros Hj; apply Hadd; by apply Hfull]].
  - destruct Hs as [_ Hb Hok Hids _ _]. constructor.
    + by eapply numbered_data.
    + assert (Forall (fun f => f.1 <= k + 1) fs) as Hb'
        by (eapply Forall_impl; [exact Hb|]; cbn; intros; lia).
      destruct fresh; destruct Ht as [-> _]; apply Forall_app;
        [|apply Forall_app in Hb' as [Hb' _]]; (split; [done|by apply Forall_singleton]).
    + assert (file_ok (n, d ++ take j buf)).
      { split; [by eauto|]. cbn [snd]. rewrite length_app, length_take. lia. }
      destruct fresh; destruct Ht as [-> _]; apply Forall_app;
        [|apply Forall_app in Hok as [Hok _]]; (split; [done|by apply Forall_singleton]).
    + destruct Hex as [-> |[off ->]].
      * unfold flog in *. rewrite Hpos. cbn [fmap list_fmap]. by rewrite app_nil_r.
      * rewrite (added_log e fs) by (by apply Hadd). rewrite fmap_app, Hids, length_app. cbn [length].
        rewrite Nat2Z.inj_add, seqZ_app by lia. f_equal. csimpl. rewrite (proj1 (Hcanon e)), Hid, length_flog.
        change (Z.of_nat 1) with 1. rewrite seqZ_cons by lia. cbn. f_equal. lia.
    + intros H. by destruct fs0.
    + exact Hc.
  - destruct Hex as [-> |Hex]; [left|right; apply Hadd; by destruct Hex as [? ->]].
    rewrite Hpos. cbn. by rewrite app_nil_r.
Qed.
Lemma newest_displayable_snoc l e :
  newest_displayable (l ++ [canon e]) = if displayableEntry e then ID e else newest_displayable l.
Proof.
  unfold newest_displayable. rewrite reverse_snoc. cbn [find_first]. rewrite (proj2 (Hcanon e)).
  destruct (displayableEntry e); [|done]. cbn [from_option]. apply Hcanon.
Qed.

Lemma appended_ok fresh fs c fs0 n d buf l e :
  cache_ok fs c -> target fresh fs fs0 n d buf l -> enc e = Some l ->
  added e (fpos fs) (fpos (fs0 ++ [(n, d ++ buf)])) -> ID e = Z.of_nat (length (fpos fs)) + 1 ->
  (if fresh then n <> cl_seg c else n = cl_seg c /\ cl_segBytes c = Z.of_nat (length d)) ->
  cache_ok (fs0 ++ [(n, d ++ buf)]) (appended c e n (Z.of_nat (length buf))).
Proof.
  intros (Hid & Hdisp & _) Ht He Hadd Hide Hseg.
  destruct (decode_grow _ _ _ _ _ _ _ _ (length buf) Ht He) as (extra & complete & Hdec & _ & Hfull).
  destruct (Hfull (le_n _)) as [-> _]. rewrite firstn_all in Hdec.
  assert (flog (fs0 ++ [(n, d ++ buf)]) = flog fs ++ [canon e]) as Hlog by (by apply added_log).
  set (c' := appended _ _ _ _).
  assert (cl_lastID c' = ID e /\ cl_displayableID c' = (if displayableEntry e then ID e else cl_displayableID c)
    /\ cl_displayableLoaded c' = (displayableEntry e || cl_displayableLoaded c) /\ cl_seg c' = n
    /\ cl_segBytes c' = Z.of_nat (length (d ++ buf))) as (H1 & H2 & H3 & H4 & H5).
  { subst c'. unfold appended. cbv zeta. destruct fresh.
    - destruct Ht as (_ & -> & _). rewrite (proj2 (Z.eqb_neq _ _) Hseg). cbn [negb].
      by destruct (displayableEntry e).
    - destruct Hseg as [-> Hb]. rewrite Z.eqb_refl. cbn [negb]. rewrite length_app, Nat2Z.inj_add, <- Hb.
      destruct (cl_lookupBounds c !! cl_seg c); by destruct (displayableEntry e). }
  unfold cache_ok. rewrite H1, H2, H3, Hlog, newest_displayable_snoc, length_app, length_flog. cbn [length].
  split; [lia|]. split.
  - destruct (displayableEntry e); [done|]. exact Hdisp.
  - unfold active_ok. rewrite last_snoc, H4, H5. split; [done|]. intros _. split; [done|]. cbn [snd]. eauto.
Qed.

(** Where the store writes next, given a cache that agrees with the files. *)
Lemma next_target k fs c l :
  store_ok k fs c -> cache_ok fs c -> 0 <= k -> k + 1 < 2 ^ 64 ->
  Z.of_nat (length (l ++ [newline])) <= maxb ->
  let roll := (cl_seg c =? 0) || (maxb <=? cl_segBytes c) in
  let n := if roll then u64 (cl_seg c + 1) else cl_seg c in
  exists fs0 d, let buf := if roll then segmentHeaderLine ++ l ++ [newline] else l ++ [newline] in
    target (negb (n =? cl_seg c)) fs fs0 n d buf l /\ numbered (fs0 ++ [(n, d)]) /\ n <= k + 1
    /\ Z.of_nat (length d + length buf) <= segmentCeiling maxb
    /\ (n = cl_seg c -> cl_segBytes c < maxb)
    /\ (if negb (n =? cl_seg c) then n <> cl_seg c else n = cl_seg c /\ cl_segBytes c = Z.of_nat (length d)).
Proof.
  intros [Hn Hb _ _ _ _] (_ & _ & Ha) Hk0 Hk Hl. cbv zeta. pose proof Hn as [_ Hr].
  assert (0 <= cl_seg c <= k /\ Forall (fun f => f.1 < cl_seg c + 1) fs) as [Hseg Hlt].
  { unfold active_ok in Ha. destruct fs as [|[m d] fs0 _] using rev_ind; [rewrite Ha; by split; [lia|]|].
    rewrite last_snoc in Ha. destruct Ha as [-> _]. cbn [fst].
    pose proof (numbered_last _ _ _ Hn) as (_ & Hlt & Hm). apply Forall_app in Hb as [_ [Hm' _]%Forall_cons].
    cbn [fst] in Hm'. split; [lia|]. apply Forall_app; split; [|apply Forall_singleton; cbn; lia].
    eapply Forall_impl; [exact Hlt|]. cbn. lia. }
  destruct (_ || _) eqn:Hroll.
  - rewrite u64_small by lia. rewrite (proj2 (Z.eqb_neq _ _)) by lia. cbn [negb target].
    exists fs, []. split; [done|]. split; [apply numbered_snoc; [done|done|lia]|]. split; [lia|]. split; [|split; [lia|lia]].
    cbn [length]. rewrite length_app. unfold segmentCeiling. lia.
  - apply orb_false_iff in Hroll as [Hz Hm]. reflect_bools. rewrite Z.eqb_refl. cbn [negb target].
    unfold active_ok in Ha. destruct fs as [|[m d] fs0 _] using rev_ind; [done|].
    rewrite last_snoc in Ha. destruct Ha as [Hcs Ha]. rewrite Hcs in *. cbn [fst snd] in *. destruct (Ha Hm) as [Hsz Hd].
    exists fs0, d. split; [done|]. split; [done|]. split; [lia|]. split; [|done].
    unfold segmentCeiling. lia.
Qed.
#[local] Abbreviation AppendWithMetadata := (AppendWithMetadata enc dec json_valid header_ok).
#[local] Abbreviation LatestEntryID := (LatestEntryID dec header_ok).
#[local] Abbreviation LatestDisplayableEntryID := (LatestDisplayableEntryID dec header_ok).

(** Where a successful append goes, and what a failed one may leave. *)
Record writes (k : Z) (fs : files) (c1 : convLog) (fresh : bool) (fs0 : files) (n : Z) (d buf l : bytes) (e : Entry)
  : Prop := Writes {
  wr_target : target fresh fs fs0 n d buf l;
  wr_numbered : numbered (fs0 ++ [(n, d)]);
  wr_bound : n <= k + 1;
  wr_enc : enc e = Some l;
  wr_id : ID e = Z.of_nat (length (fpos fs)) + 1;
  wr_len : Z.of_nat (length d + length buf) <= segmentCeiling maxb;
  wr_active : n = cl_seg c1 -> cl_segBytes c1 < maxb;
  wr_seg : if fresh then n <> cl_seg c1 else n = cl_seg c1 /\ cl_segBytes c1 = Z.of_nat (length d);
}.

Inductive append_case (v : env) (k : Z) (fs : files) (typ : string) (payload : bytes) (ts : instant)
    (session : option SessionProvenance) (shown : option bool) (c1 : convLog)
  : files -> convLog -> result Z -> Prop :=
| case_refused err : append_case v k fs typ payload ts session shown c1 fs c1 (inr err)
| case_failed err : append_case v k fs typ payload ts session shown c1 fs (set_loaded false c1) (inr err)
| case_torn fresh fs0 n d buf l e j err :
    writes k fs c1 fresh fs0 n d buf l e -> (fresh = true -> e_remove v = false) ->
    e = MkEntry (Z.of_nat (length (fpos fs)) + 1) typ payload ts session shown ->
    append_case v k fs typ payload ts session shown c1 (fs0 ++ [(n, d ++ take j buf)]) (set_loaded false c1) (inr err)
| case_done fresh fs0 n d buf l e :
    writes k fs c1 fresh fs0 n d buf l e -> cl_loaded c1 = true ->
    e = MkEntry (Z.of_nat (length (fpos fs)) + 1) typ payload ts session shown ->
    append_case v k fs typ payload ts session shown c1 (fs0 ++ [(n, d ++ buf)])
      (appended c1 e n (Z.of_nat (length buf))) (inl (ID e)).

(** A refusal before anything is written. *)
Ltac refused fs c := intros [= <- <- <-]; exists fs, c; split; [by left|]; split; [done|constructor].

Lemma append_cases v k fs c dir typ payload ts session shown dir' c' r :
  store_ok k fs c -> 0 <= k -> k + 1 < 2 ^ 64 -> default [] dir = dir_of fs ->
  AppendWithMetadata v maxb convID typ payload ts session shown dir c = (dir', c', r) ->
  exists fs' c1, (c1 = c \/ exists rl, load v maxb (dir_of fs) c = (c1, rl)) /\ default [] dir' = dir_of fs'
    /\ append_case v k fs typ payload ts session shown c1 fs' c' r.
Proof.
  intros Hs Hk0 Hk Hdir. unfold History.AppendWithMetadata.
  destruct (negb _); [refused fs c|].
  destruct (negb _); [refused fs c|].
  destruct (negb _); [refused fs c|].
  destruct (_ <? _); [refused fs c|].
  destruct (e_resolve v); [refused fs c|].
  cbv zeta. rewrite Hdir. destruct (load v maxb (dir_of fs) c) as [c1 r1] eqn:Hload.
  destruct (load_ok _ _ _ _ _ _ Hs Hload) as (Hs2 & Hl & _).
  assert (forall fs' dir', dir' = dir_of fs' -> append_case v k fs typ payload ts session shown c1 fs' c' r ->
    exists fs' c2, (c2 = c \/ exists rl, (c1, r1) = (c2, rl)) /\ default [] (Some dir') = dir_of fs'
      /\ append_case v k fs typ payload ts session shown c2 fs' c' r) as Hgo by (intros fs1 d1 -> H; eauto 10).
  destruct r1 as [[]|err]; [|intros [= <- <- <-]; apply (Hgo fs); [done|constructor]].
  pose proof (so_cache _ _ _ Hs2 (Hl eq_refl)) as Hc. pose proof Hc as (Hid & _ & _). rewrite length_flog in Hid.
  destruct (_ <=? _); [intros [= <- <- <-]; apply (Hgo fs); [done|constructor]|].
  rewrite Hid. set (e := MkEntry _ _ _ _ _ _). unfold encodeEntry. destruct (enc e) as [l|] eqn:He;
    [|intros [= <- <- <-]; apply (Hgo fs); [done|constructor]].
  destruct (maxb <? _) eqn:Hm; [intros [= <- <- <-]; apply (Hgo fs); [done|constructor]|]. reflect_bools.
  destruct (next_target k fs c1 l Hs2 Hc Hk0 Hk Hm) as (fs0 & d & Ht & Hn & Hnk & Hlen & Hact & Hseg).
  set (roll := (cl_seg c1 =? 0) || _) in *. set (n := if roll then u64 _ else _) in *.
  set (buf := if roll then segmentHeaderLine ++ _ else _) in *.
  assert (writes k fs c1 (negb (n =? cl_seg c1)) fs0 n d buf l e) as Hwr by (by constructor).
  destruct (writeSegment _ _ _ _ _) as [d1 r1] eqn:Hw. pose proof (write_spec _ _ _ _ _ _ _ _ _ _ Ht Hn Hw) as Hspec.
  destruct r1 as [written|err].
  - destruct Hspec as [-> ->]. intros [= <- <- <-]. apply (Hgo _ _ eq_refl). eapply case_done; eauto.
  - intros [= <- <- <-]. destruct Hspec as [-> |(j & -> & Hrm)]; apply (Hgo _ _ eq_refl); [constructor|].
    by eapply case_torn.
Qed.

Lemma append_case_ok v k fs typ payload ts session shown c1 fs' c' r :
  store_ok k fs c1 -> append_case v k fs typ payload ts session shown c1 fs' c' r ->
  store_ok (k + 1) fs' c' /\ append_effect typ payload ts session shown (fpos fs) (fpos fs') r.
Proof.
  intros Hs1 Hcase. pose proof (store_ok_le k (k + 1) fs c1 ltac:(lia) Hs1) as Hs2.
  destruct Hcase as [err|err|fresh fs0 n d buf l e j err Hw _ He|fresh fs0 n d buf l e Hw Hld He].
  - split; [done|by left].
  - split; [destruct Hs2; by constructor|by left].
  - destruct Hw as [H1 H2 H3 H4 H5 H6 _ _].
    destruct (grow_ok k fs c1 _ fs0 n d buf l e j (set_loaded false c1) Hs1 H1 H2 H3 H4 H5 H6) as (Hok & Heff & _); [done|].
    split; [done|]. subst e. exact Heff.
  - destruct Hw as [H1 H2 H3 H4 H5 H6 _ H8]. pose proof (so_cache _ _ _ Hs1 Hld) as Hc.
    destruct (grow_ok k fs c1 _ fs0 n d buf l e (length buf) (set_loaded false c1) Hs1 H1 H2 H3 H4 H5 H6)
      as (_ & _ & Hadd); [done|]. specialize (Hadd (le_n _)). rewrite firstn_all in Hadd.
    split; [|subst e; by split; [|exact Hadd]].
    edestruct (grow_ok k fs c1 _ fs0 n d buf l e (length buf) (appended c1 e n (Z.of_nat (length buf))) Hs1 H1 H2 H3 H4 H5 H6)
      as (Hok & _ & _); rewrite firstn_all in *; [|exact Hok]. intros _. by eapply appended_ok.
Qed.

(** One call changes the files little: a new last file, or bytes at the end of
    the last one, where that is complete and below the bound. *)
Inductive grown (fs : files) : files -> Prop :=
| grown_same : grown fs fs
| grown_new n d : Forall (fun f => f.1 < n) fs -> grown fs (fs ++ [(n, d)])
| grown_last fs0 n d x : fs = fs0 ++ [(n, d)] -> (exists es, decodeSegment d = inl (es, true)) ->
    Z.of_nat (length d) < maxb -> grown fs (fs0 ++ [(n, d ++ x)]).

Lemma append_case_grown v k fs typ payload ts session shown c1 fs' c' r :
  append_case v k fs typ payload ts session shown c1 fs' c' r -> grown fs fs'.
Proof.
  assert (forall fresh fs0 n d buf l e x, writes k fs c1 fresh fs0 n d buf l e -> grown fs (fs0 ++ [(n, d ++ x)])) as Hw.
  { intros fresh fs0 n d buf l e x [Ht Hn _ _ _ _ Hact Hseg]. pose proof (numbered_last _ _ _ Hn) as (_ & Hlt & _).
    destruct fresh.
    - destruct Ht as (-> & -> & _). by constructor.
    - destruct Ht as (-> & Hd & _). destruct Hseg as [Hseg Hsz]. econstructor; [done|done|]. rewrite <- Hsz. by apply Hact. }
  destruct 1; [constructor|constructor|by eapply Hw|by eapply Hw].
Qed.

(** The cache the append works with agrees with the files too. *)
Lemma loaded_ok v k fs c c1 :
  store_ok k fs c -> (c1 = c \/ exists rl, load v maxb (dir_of fs) c = (c1, rl)) -> store_ok k fs c1.
Proof. intros Hs [->|[rl Hl]]; [done|]. by eapply load_ok. Qed.

Lemma append_step v k fs c dir typ payload ts session shown dir' c' r :
  store_ok k fs c -> 0 <= k -> k + 1 < 2 ^ 64 -> default [] dir = dir_of fs ->
  AppendWithMetadata v maxb convID typ payload ts session shown dir c = (dir', c', r) ->
  exists fs', default [] dir' = dir_of fs' /\ store_ok (k + 1) fs' c'
    /\ append_effect typ payload ts session shown (fpos fs) (fpos fs') r.
Proof.
  intros Hs Hk0 Hk Hdir Ha.
  destruct (append_cases _ _ _ _ _ _ _ _ _ _ _ _ _ Hs Hk0 Hk Hdir Ha) as (fs' & c1 & Hc1 & Hdir' & Hcase).
  destruct (append_case_ok _ _ _ _ _ _ _ _ _ _ _ _ (loaded_ok _ _ _ _ _ Hs Hc1) Hcase) as [Hs' Heff]. eauto.
Qed.
(** An environment in which nothing fails. *)
Definition all_works (v : env) : Prop :=
  e_resolve v = None /\ e_list v = true /\ (forall n, e_readable v n = true) /\ e_open v = true
  /\ e_write v = None /\ e_close v = true.

Lemma append_succeeds v k fs c dir typ payload ts session shown l :
  store_ok k fs c -> 0 <= k -> k + 1 < 2 ^ 64 -> default [] dir = dir_of fs -> all_works v ->
  Conversations.ValidID convID = true -> valid_provenance session = true -> json_valid payload = true ->
  Z.of_nat (length payload) <= maxb -> Z.of_nat (length (fpos fs)) < MaxEntryID ->
  enc (MkEntry (Z.of_nat (length (fpos fs)) + 1) typ payload ts session shown) = Some l ->
  Z.of_nat (length (l ++ [newline])) <= maxb ->
  (AppendWithMetadata v maxb convID typ payload ts session shown dir c).2 = inl (Z.of_nat (length (fpos fs)) + 1).
Proof.
  intros Hs Hk0 Hk Hdir (Hv1 & Hv2 & Hv3 & Hv4 & Hv5 & Hv6) Hid Hp Hj Hlp Hmax He Hl.
  unfold History.AppendWithMetadata. rewrite Hid, Hp, Hj, Hv1, Hdir. cbn [negb].
  rewrite (proj2 (Z.ltb_ge _ _)) by done. cbv zeta. destruct (load _ _ _ _) as [c1 r1] eqn:Hload.
  destruct (load_ok _ _ _ _ _ _ Hs Hload) as (Hs2 & Hld & Ht). rewrite (Ht Hv2 Hv3) in *.
  pose proof (so_cache _ _ _ Hs2 (Hld eq_refl)) as Hc. pose proof Hc as (Hlast & _ & _). rewrite length_flog in Hlast.
  rewrite Hlast. rewrite (proj2 (Z.leb_gt _ _)) by done. unfold encodeEntry. rewrite He.
  rewrite (proj2 (Z.ltb_ge _ _)) by done.
  destruct (next_target k fs c1 l Hs2 Hc Hk0 Hk Hl) as (fs0 & d & Htg & Hn & _ & _ & _ & Hseg).
  set (roll := (cl_seg c1 =? 0) || _) in *. set (n := if roll then u64 _ else _) in *.
  set (buf := if roll then segmentHeaderLine ++ _ else _) in *.
  assert (dir_find (segmentName n) (dir_of fs) = None <-> negb (n =? cl_seg c1) = true) as Hmiss.
  { pose proof Hs2 as [[_ Hr] _ _ _ _ _]. pose proof (numbered_last _ _ _ Hn) as (Hn0 & Hlt & Hnr).
    rewrite dir_find_spec by done. destruct (negb _); destruct Htg as [-> _].
    - by rewrite find_num_new.
    - pose proof (find_num (fs0 ++ [(n, d)]) (n, d) Hn ltac:(set_solver)) as Hf. cbn [fst] in Hf. by rewrite Hf. }
  unfold writeSegment. rewrite Hv4, Hv5, Hv6. cbv zeta. cbn [negb orb].
  destruct (negb (n =? cl_seg c1)) eqn:Hfr; cbn [negb andb orb].
  - by rewrite bool_decide_eq_true_2 by (by apply Hmiss).
  - by rewrite bool_decide_eq_false_2 by (intros H; by apply Hmiss in H).
Qed.

(** The reading calls answer from the log. *)
Lemma latest_step v k fs c dir c' r :
  store_ok k fs c -> default [] dir = dir_of fs ->
  LatestEntryID v maxb convID dir c = (c', r) ->
  store_ok k fs c' /\ (forall n, r = inl n -> n = Z.of_nat (length (fpos fs))).
Proof.
  intros Hs Hdir. unfold History.LatestEntryID. destruct (negb _); [by intros [= <- <-]|].
  destruct (e_resolve v); [by intros [= <- <-]|].
  destruct dir as [d|]; cbv [default from_option id] in Hdir.
  - subst d. destruct (load _ _ _ _) as [c1 r1] eqn:Hl. destruct (load_ok _ _ _ _ _ _ Hs Hl) as (Hs2 & Hld & _).
    destruct r1 as [[]|]; intros [= <- <-]; split; try done. intros n [= <-].
    destruct (so_cache _ _ _ Hs2 (Hld eq_refl)) as (-> & _). by rewrite length_flog.
  - intros [= <- <-]. split; [done|]. intros n [= <-]. by destruct fs.
Qed.

Lemma displayable_loop_spec v fs0 fs n :
  numbered fs0 -> Forall file_ok fs0 -> fs `prefix_of` fs0 ->
  displayable_loop dec header_ok v maxb (dir_of fs0) (ref_of <$> reverse fs) = inl n -> n = newest_displayable (flog fs).
Proof.
  intros Hn Hok. induction fs as [|f fs IH] using rev_ind; intros Hpre; [by intros [= <-]|].
  assert (f ∈ fs0) as Hf by (destruct Hpre as [r ->]; set_solver).
  assert (file_ok f) as Hfok by (by rewrite Forall_forall in Hok; apply Hok).
  rewrite reverse_snoc, fmap_cons. cbn [displayable_loop ref_of sr_name].
  rewrite read_file by done. destruct (e_readable _ _); [|done]. destruct Hfok as [(es & complete & Hd) _]. rewrite Hd.
  rewrite flog_snoc. unfold decoded. rewrite Hd. unfold newest_displayable. rewrite reverse_app, <- fmap_reverse.
  assert (forall l m : list segEntry, forall l', find_first displayableEntry ((se_entry <$> l) ++ l')
          = match find_first (fun e => displayableEntry (se_entry e)) l with
            | Some e => Some (se_entry e) | None => find_first displayableEntry l' end) as Hfind.
  { intros l _ l'. induction l as [|x l IHl]; [done|]. csimpl. by destruct (displayableEntry _). }
  rewrite Hfind by done. destruct (find_first _ _) as [e|]; [by intros [= <-]|].
  intros H. apply IH; [by etrans; [by apply prefix_app_r|]|done].
Qed.

Lemma displayable_step v k fs c dir c' r :
  store_ok k fs c -> default [] dir = dir_of fs ->
  LatestDisplayableEntryID v maxb convID dir c = (c', r) ->
  store_ok k fs c' /\ (forall n, r = inl n -> n = newest_displayable (flog fs)).
Proof.
  intros Hs Hdir. unfold History.LatestDisplayableEntryID. destruct (negb _); [by intros [= <- <-]|].
  destruct (e_resolve v); [by intros [= <- <-]|].
  destruct dir as [d|]; cbv [default from_option id] in Hdir.
  2: { intros [= <- <-]. split; [done|]. intros n [= <-]. by destruct fs. }
  subst d. destruct (load _ _ _ _) as [c1 r1] eqn:Hl. destruct (load_ok _ _ _ _ _ _ Hs Hl) as (Hs2 & Hld & _).
  destruct r1 as [[]|]; [|by intros [= <- <-]].
  destruct (so_cache _ _ _ Hs2 (Hld eq_refl)) as (H1 & H2 & H3).
  destruct (cl_displayableLoaded c1); [intros [= <- <-]; split; [done|]; intros n [= <-]; by apply H2|].
  destruct (e_list v); cbn [negb]; [|by intros [= <- <-]]. pose proof Hs2 as [Hn Hb Hok Hids He Hc].
  rewrite listSegments_dir_of, <- fmap_reverse by apply Hn.
  destruct (displayable_loop _ _ _ _ _ _) as [n|] eqn:Hd; [|by intros [= <- <-]].
  apply displayable_loop_spec in Hd; [|done..]. subst n. intros [= <- <-].
  split; [|by intros n [= <-]]. constructor; try done.
Qed.
(** ** Runs *)

(** What happens to one conversation's log: calls, each with what the system
    answers it, and restarts of the process, which forget the cache. A crash
    in the middle of an append is an append whose write stops, with nothing
    undone, and a restart. *)
Inductive op :=
| OpAppend (v : env) (typ : string) (payload : bytes) (ts : instant)
    (session : option SessionProvenance) (shown : option bool)
| OpLatest (v : env)
| OpDisplayable (v : env)
| OpRestart.

Abbreviation state := (option (list dirent) * convLog)%type.

Definition step (o : op) (st : state) : state * result Z :=
  let '(dir, c) := st in
  match o with
  | OpAppend v typ payload ts session shown =>
      let '(dir, c, r) := AppendWithMetadata v maxb convID typ payload ts session shown dir c in (dir, c, r)
  | OpLatest v => let '(c, r) := LatestEntryID v maxb convID dir c in (dir, c, r)
  | OpDisplayable v => let '(c, r) := LatestDisplayableEntryID v maxb convID dir c in (dir, c, r)
  | OpRestart => (dir, new_convLog, inl 0)
  end.

(** The abstract log: the entries with their places, only ever appended to. *)
Definition spec_step (o : op) (P P' : list (Z * segEntry)) (r : result Z) : Prop :=
  match o with
  | OpAppend _ typ payload ts session shown => append_effect typ payload ts session shown P P' r
  | OpLatest _ => P' = P /\ forall n, r = inl n -> n = Z.of_nat (length P)
  | OpDisplayable _ => P' = P /\ forall n, r = inl n -> n = newest_displayable (entry_at <$> P)
  | OpRestart => P' = P
  end.

(** The log a directory holds, when every segment can be opened. *)
Definition reader : env := Env None true (fun _ => true) true true None true true true.
Definition stored (st : state) : list (Z * segEntry) := positions dec header_ok reader maxb (default [] st.1).

Inductive run : state -> list op -> list (result Z) -> state -> Prop :=
| run_nil st : run st [] [] st
| run_cons st o os st1 r rs st2 : step o st = (st1, r) -> run st1 os rs st2 -> run st (o :: os) (r :: rs) st2.

Inductive spec_run : list (Z * segEntry) -> list op -> list (result Z) -> list (Z * segEntry) -> Prop :=
| spec_nil P : spec_run P [] [] P
| spec_cons P o os P1 r rs P2 : spec_step o P P1 r -> spec_run P1 os rs P2 -> spec_run P (o :: os) (r :: rs) P2.

Lemma stored_fpos st fs :
  numbered fs -> Forall file_ok fs -> default [] st.1 = dir_of fs ->
  stored st = fpos fs /\ readable dec header_ok reader maxb (default [] st.1).
Proof.
  intros Hn Hok Hd. unfold stored, positions, readable. rewrite Hd.
  rewrite listSegments_dir_of by apply Hn. split; [|split].
  - unfold fpos. rewrite <- list_fmap_compose. f_equal. apply list_fmap_ext. intros i f Hf.
    apply list_elem_of_lookup_2 in Hf. rewrite Forall_forall in Hok. unfold entries_of, compose. cbn [ref_of sr_name sr_num].
    rewrite read_file; [|done|done|by apply Hok]. cbn [e_readable reader]. unfold file_positions, decoded.
    by destruct (decodeSegment f.2) as [[]|].
  - unfold dir_of. rewrite <- list_fmap_compose.
    rewrite (list_fmap_ext _ (segmentName ∘ fst)) by done. rewrite list_fmap_compose.
    destruct Hn as [Hs Hr]. clear Hd Hok. induction fs as [|[n d] fs IH]; csimpl in *; [constructor|].
    apply StronglySorted_inv in Hs as [Hs Hlt]. apply Forall_cons in Hr as [Hn Hr]. constructor; [|by apply IH].
    intros (m & He & (f & -> & Hf)%list_elem_of_fmap)%list_elem_of_fmap. cbn [fst] in Hn.
    rewrite Forall_forall in Hlt. rewrite Forall_forall in Hr. pose proof (Hr f Hf). pose proof (Hlt f.1 ltac:(by apply list_elem_of_fmap_2)).
    apply segmentName_inj in He; lia.
  - apply Forall_fmap, Forall_forall. intros f Hf. rewrite Forall_forall in Hok. pose proof (Hok f Hf) as Hfk.
    unfold seg_reads, compose. cbn [ref_of sr_name]. rewrite read_file by done. cbn [e_readable reader].
    destruct Hfk as [(es & complete & ->) _]. eauto.
Qed.

Lemma step_ok o k fs st st' r :
  store_ok k fs st.2 -> 0 <= k -> k + 1 < 2 ^ 64 -> default [] st.1 = dir_of fs -> step o st = (st', r) ->
  exists fs', default [] st'.1 = dir_of fs' /\ store_ok (k + 1) fs' st'.2 /\ spec_step o (fpos fs) (fpos fs') r.
Proof.
  destruct st as [dir c]. cbn [fst snd]. intros Hs Hk0 Hk Hdir.
  destruct o as [v typ payload ts session shown|v|v|]; cbn [step spec_step].
  - destruct (AppendWithMetadata _ _ _ _ _ _ _ _ _ _) as [[dir' c'] r'] eqn:Ha. intros [= <- <-].
    by eapply append_step.
  - destruct (LatestEntryID _ _ _ _ _) as [c' r'] eqn:Ha. intros [= <- <-].
    destruct (latest_step _ _ _ _ _ _ _ Hs Hdir Ha) as [Hs' Hr].
    exists fs. split; [done|]. split; [|done]. eapply store_ok_le; [|done]. lia.
  - destruct (LatestDisplayableEntryID _ _ _ _ _) as [c' r'] eqn:Ha. intros [= <- <-].
    destruct (displayable_step _ _ _ _ _ _ _ Hs Hdir Ha) as [Hs' Hr].
    exists fs. split; [done|]. split; [|done]. eapply store_ok_le; [|done]. lia.
  - intros [= <- <-]. exists fs. split; [done|]. split; [|done].
    apply (store_ok_le k); [lia|]. destruct Hs. by constructor.
Qed.

Lemma run_ok os k fs st rs st' :
  store_ok k fs st.2 -> 0 <= k -> k + Z.of_nat (length os) < 2 ^ 64 - 1 -> default [] st.1 = dir_of fs ->
  run st os rs st' ->
  exists fs', default [] st'.1 = dir_of fs' /\ store_ok (k + Z.of_nat (length os)) fs' st'.2
    /\ spec_run (fpos fs) os rs (fpos fs').
Proof.
  intros Hs Hk0 Hk Hdir Hr. revert k fs Hs Hk0 Hk Hdir.
  induction Hr as [st|st o os st1 r rs st2 Hstep Hr IH]; intros k fs Hs Hk0 Hk Hdir; cbn [length] in *.
  - exists fs. rewrite Z.add_0_r. split; [done|]. split; [done|]. constructor.
  - destruct (step_ok _ _ _ _ _ _ Hs Hk0 ltac:(lia) Hdir Hstep) as (fs1 & Hdir1 & Hs1 & Hsp).
    destruct (IH (k + 1) fs1 Hs1 ltac:(lia) ltac:(lia) Hdir1) as (fs' & Hdir' & Hs' & Hspr).
    exists fs'. split; [done|]. split; [|by econstructor]. eapply store_ok_le; [|done]. lia.
Qed.

Lemma store_ok_init : store_ok 0 [] new_convLog.
Proof. by repeat constructor. Qed.
End store.

(** C25. Appending refines an append-only log numbered from 1. From a
    conversation with no log, whatever calls are made, however their writes
    fail or stop half way, and whenever the process restarts: every segment
    stays readable, the entries on disk are numbered 1, 2, 3, ..., what was
    there stays in place, an append that succeeds has added exactly its entry
    under the id it returns, one that fails has added that entry or nothing,
    and the latest and latest displayable ids are answered from this log.
    After all that, an append that meets no failure succeeds. *)
Theorem appends_refine_log enc dec json_valid header_ok canon maxb convID os rs dir c :
  (forall e l, enc e = Some l -> (newline ∉ l) /\ dec l = Some (canon e)) ->
  (forall e, ID (canon e) = ID e /\ displayableEntry (canon e) = displayableEntry e) ->
  header_ok header = true -> Z.of_nat (length os) < 2 ^ 64 - 1 ->
  run enc dec json_valid header_ok maxb convID (None, new_convLog) os rs (dir, c) ->
  let log := stored dec header_ok maxb (dir, c) in
  spec_run canon [] os rs log
  /\ readable dec header_ok reader maxb (default [] dir)
  /\ ID <$> (entry_at <$> log) = seqZ 1 (Z.of_nat (length log))
  /\ forall v typ payload ts session shown l,
       all_works v -> Conversations.ValidID convID = true -> valid_provenance session = true ->
       json_valid payload = true -> Z.of_nat (length payload) <= maxb -> Z.of_nat (length log) < MaxEntryID ->
       enc (MkEntry (Z.of_nat (length log) + 1) typ payload ts session shown) = Some l ->
       Z.of_nat (length (l ++ [newline])) <= maxb ->
       (AppendWithMetadata enc dec json_valid header_ok v maxb convID typ payload ts session shown dir c).2
       = inl (Z.of_nat (length log) + 1).
Proof.
  intros Henc Hcanon Hh Hlen Hrun log.
  destruct (run_ok enc dec json_valid header_ok canon maxb convID Henc Hcanon Hh os 0 [] (None, new_convLog) rs (dir, c))
    as (fs & Hdir & Hs & Hsp); [apply store_ok_init|done|lia|done|done|]. cbn [fst snd] in *.
  destruct (stored_fpos dec header_ok maxb (dir, c) fs) as [Hlog Hread]; [apply Hs|apply Hs|done|].
  subst log. rewrite Hlog. split; [done|]. split; [done|]. split.
  - rewrite <- length_flog. apply Hs.
  - intros. eapply append_succeeds; try done; lia.
Qed.

(** ** Examples *)

(** A line format to run the store with: whether the entry is displayable,
    and its id. *)
Definition mini_canon (e : Entry) : Entry := MkEntry (ID e) "" [] 0 None (Some (displayableEntry e)).
Definition mini_enc (e : Entry) : option bytes :=
  if (0 <=? ID e) && (ID e <? 2 ^ 64)
  then Some ((if displayableEntry e then chr 116 else chr 102) :: format (ID e)) else None.
Definition mini_dec (l : bytes) : option Entry :=
  match l with
  | c :: l => (fun n => MkEntry n "" [] 0 None (Some (bool_decide (c = chr 116)))) <$> ParseUint 64 l
  | [] => None
  end.
Definition mini_header (h : bytes) : bool := bool_decide (h = header).

Lemma mini_enc_dec e l : mini_enc e = Some l -> (newline ∉ l) /\ mini_dec l = Some (mini_canon e).
Proof.
  unfold mini_enc. destruct (_ && _) eqn:H; [|done]. reflect_bools. intros [= <-]. split.
  - rewrite not_elem_of_cons. split; [by destruct (displayableEntry e)|].
    pose proof (fixed_digits (ndigits (ID e)) (ID e)) as Hd. rewrite forallb_forall in Hd.
    intros Hn%list_elem_of_In%Hd. by vm_compute in Hn.
  - cbn [mini_dec]. rewrite parse_format by lia. unfold mini_canon. csimpl. by destruct (displayableEntry e).
Qed.

Definition example_id : string := "01234567-89ab-4def-8123-456789abcdef".
Definition torn : env := Env None true (fun _ => true) true true (Some 1%nat) true false true.
Definition example_ops : list op :=
  [OpAppend reader "message" (bs "1") 0 None None; OpAppend torn "message" (bs "2") 0 None None; OpRestart;
   OpLatest reader; OpAppend reader "stall" (bs "3") 0 None None; OpDisplayable reader].
Definition mini_run : list (result Z) * (option (list dirent) * convLog) :=
  foldl (fun '(rs, st) o => let '(st, r) := step mini_enc mini_dec (fun _ => true) mini_header 100 example_id o st in
                            (rs ++ [r], st)) ([], (None, new_convLog)) example_ops.

Example mini_run_results :
  mini_run.1 = [inl 1; inr ErrIO; inl 0; inl 1; inl 2; inl 1].
Proof. by vm_compute. Qed.

Lemma appends_refine_log_witness :
  run mini_enc mini_dec (fun _ => true) mini_header 100 example_id (None, new_convLog) example_ops mini_run.1 mini_run.2
  /\ spec_run mini_canon [] example_ops mini_run.1 (stored mini_dec mini_header 100 mini_run.2).
Proof.
  assert (run mini_enc mini_dec (fun _ => true) mini_header 100 example_id (None, new_convLog) example_ops
            mini_run.1 mini_run.2) as Hrun.
  { unfold example_ops. do 6 (eapply run_cons; [vm_compute; reflexivity|]). apply run_nil. }
  split; [exact Hrun|]. destruct mini_run.2 as [dir c] eqn:E.
  exact (proj1 (appends_refine_log mini_enc mini_dec (fun _ => true) mini_header mini_canon 100 example_id
           example_ops mini_run.1 dir c mini_enc_dec (fun e => conj eq_refl eq_refl) eq_refl eq_refl Hrun)).
Defined.

Definition example_dir (n : nat) : list dirent := default [] mini_run.2.1.

Lemma example_readable : readable mini_dec mini_header reader 100 (default [] mini_run.2.1).
Proof.
  vm_compute (default [] mini_run.2.1). split.
  - apply (bool_decide_unpack _). by vm_compute.
  - repeat constructor; unfold seg_reads; vm_compute; eauto.
Qed.

Lemma page_walk_witness :
  walk mini_dec mini_header reader 100 example_id example_dir 1 4 0 []
  = inl (reverse (log_of mini_dec mini_header reader 100 (example_dir 0%nat)))
  /\ length (log_of mini_dec mini_header reader 100 (example_dir 0%nat)) = 2%nat.
Proof.
  split; [|by vm_compute].
  apply (page_walk mini_dec mini_header reader 100 example_id example_dir 1 4);
    [by vm_compute|done|done|by vm_compute|lia|intros i; apply example_readable|done|by apply Nat.ltb_lt; vm_compute].
Defined.

Lemma cursor_roundtrip_witness :
  parseCursor (mintCursor example_id 3 4711) example_id = inl (CursorPos 3 4711)
  /\ parseCursor (mintCursor example_id 3 4711) "other" = inr ErrInvalidCursor.
Proof.
  destruct (cursor_roundtrip example_id 3 4711) as [H1 H2]; [by vm_compute|lia|lia|].
  split; [exact H1|]. by apply H2.
Defined.

Lemma segment_names_witness : bytes_ltb (segmentName 9) (segmentName 10) = true.
Proof. by apply (segment_names [] 0); vm_compute. Defined.

End HistoryAppend.
