(* ===== verification/HistoryRead.v ===== *)
(** * The conversation log: lookups, forward reading and syncing

    [lookup.go] and [lookup_cache.go] answer entries by id through two caches,
    [forward.go] delivers entries in order from a resumable position, and
    [sync.go] makes what was appended durable. *)
From Stdlib Require Import Ascii String.
From stdpp Require Import prelude gmap strings list sorting.
From S2P Require Import Prelude Utf8 Strconv Conversations History.

Module HistoryRead.
Import Utf8 Strconv History.

Local Open Scope Z_scope.
Local Open Scope pyry_scope.

(** ** The decoded segments kept ([lookup_cache.go])

    An element of the recency list is identified by its key: [put] only
    follows a [get] that missed. *)

Record segmentCacheKey := MkKey { ck_convID : string; ck_segment : Z; ck_size : Z }.
#[export] Instance segmentCacheKey_eq_dec : EqDecision segmentCacheKey.
Proof. solve_decision. Defined.
#[export] Instance segmentCacheKey_countable : Countable segmentCacheKey.
Proof.
  refine (inj_countable' (fun k => (ck_convID k, ck_segment k, ck_size k)) (fun '(c, s, z) => MkKey c s z) _).
  by intros [].
Defined.

Record cachedSegment := MkCached { cs_entries : list segEntry; cs_bytes : Z }.

Record segmentCache := MkCache {
  sc_limit : Z;
  sc_bytes : Z;
  sc_lru : list segmentCacheKey;      (* most recently used first *)
  sc_items : gmap segmentCacheKey cachedSegment;
}.

Definition to_front (key : segmentCacheKey) (l : list segmentCacheKey) : list segmentCacheKey :=
  key :: filter (fun k => k <> key) l.

Definition get (key : segmentCacheKey) (c : segmentCache) : segmentCache * option (list segEntry) :=
  match sc_items c !! key with
  | None => (c, None)
  | Some e => (MkCache (sc_limit c) (sc_bytes c) (to_front key (sc_lru c)) (sc_items c), Some (cs_entries e))
  end.

(** The eviction loop, from the back of the list; [None] where the list is
    empty, which the source would dereference. *)
Fixpoint evict (rlru : list segmentCacheKey) (cost : Z) (c : segmentCache) : option segmentCache :=
  if sc_limit c <? sc_bytes c + cost
  then match rlru with
       | [] => None
       | old :: rlru =>
           evict rlru cost
             (MkCache (sc_limit c) (sc_bytes c - from_option cs_bytes 0 (sc_items c !! old)) (reverse rlru)
                (delete old (sc_items c)))
       end
  else Some c.

Section cost.
(** [lookupDecodedBytes]: the memory a decoded segment retains, which the
    runtime's layout and slice capacities decide. *)
Context (lookupDecodedBytes : list segEntry -> Z).

Definition put (key : segmentCacheKey) (entries : list segEntry) (c : segmentCache) : option segmentCache :=
  let cost := lookupDecodedBytes entries in
  if (sc_limit c <? cost) || (cost =? 0) then Some c
  else
    c ← evict (reverse (sc_lru c)) cost c;
    Some (MkCache (sc_limit c) (sc_bytes c + cost) (key :: sc_lru c)
            (<[key := MkCached entries cost]> (sc_items c))).
End cost.

(** ** Lookup ([lookup.go]) *)

Inductive lookupError :=
| ErrInvalidEntryIDs
| MissingEntriesError (ids : list Z)
| Store_ (err : historyError)
| CachePanic.

Abbreviation lresult A := (A + lookupError)%type.

(** What the environment answers besides [env]: [Lstat] of a segment works,
    and reading its first lines. *)
Record lenv := LEnv { le_env : env; le_lstat : bytes -> bool; le_prefix : bytes -> bool }.

(** [sort.Search]: the smallest index of a monotone predicate, by bisection. *)
Fixpoint search_loop (fuel : nat) (f : nat -> bool) (i j : nat) : nat :=
  match fuel with
  | O => i
  | S fuel =>
      if (i <? j)%nat
      then let h := ((i + j) / 2)%nat in if f h then search_loop fuel f i h else search_loop fuel f (S h) j
      else i
  end.
Definition Search (n : nat) (f : nat -> bool) : nat := search_loop (S n) f 0 n.

(** [bufio.Reader.ReadBytes('\n')]: the line with its line feed and the rest,
    or at the end of the data what is left. *)
Definition ReadBytes (data : bytes) : bytes * option bytes :=
  match cut_newline data with
  | Some (line, rest) => (line ++ [newline], Some rest)
  | None => (data, None)
  end.

Section json.
Context (dec : bytes -> option Entry) (header_ok : bytes -> bool).

(** [segmentFirstID] on the file's data: at most two lines, of at most the
    ceiling together. *)
Definition segmentFirstID (maxb : Z) (data : bytes) : result Z :=
  let data := take (Z.to_nat (segmentCeiling maxb + 1)) data in
  let '(line1, rest) := ReadBytes data in
  if segmentCeiling maxb <? Z.of_nat (length line1) then inr ErrCorruptSegment
  else
    let prefix := match rest with Some rest => line1 ++ fst (ReadBytes rest) | None => line1 end in
    if segmentCeiling maxb <? Z.of_nat (length prefix) then inr ErrCorruptSegment
    else
      let? (entries, _) := decodeSegment dec header_ok prefix in
      match entries with
      | [] => inl 0
      | e :: _ => if ID (se_entry e) =? 0 then inr ErrCorruptSegment else inl (ID (se_entry e))
      end.

Definition set_bounds (m : gmap Z lookupBound) (c : convLog) : convLog :=
  ConvLog (cl_loaded c) (cl_seg c) (cl_segBytes c) (cl_lastID c) (cl_displayableID c)
    (cl_displayableLoaded c) m (cl_syncDone c) (cl_syncPending c) (cl_syncDirPending c).

Definition lookupSegmentBound (v : lenv) (maxb : Z) (dir : list dirent) (seg : segmentRef) (c : convLog)
  : convLog * result lookupBound :=
  match dir_find (sr_name seg) dir with
  | None => (c, inr ErrIO)
  | Some d =>
      if negb (le_lstat v (sr_name seg)) then (c, inr ErrIO)
      else if negb (de_regular d) then (c, inr ErrCorruptSegment)
      else
        let size := Z.of_nat (length (de_data d)) in
        let discover :=
          if negb (le_prefix v (sr_name seg)) then (c, inr ErrIO)
          else match segmentFirstID maxb (de_data d) with
          | inr err => (c, inr err)
          | inl first =>
              let bound := LookupBound first size true in
              (set_bounds (<[sr_num seg := bound]> (cl_lookupBounds c)) c, inl bound)
          end in
        match cl_lookupBounds c !! sr_num seg with
        | None => discover
        | Some bound =>
            if negb (lb_size bound =? size)
               || ((lb_firstID bound =? 0) && negb (lb_discovered bound)
                   && (Z.of_nat (length segmentHeaderLine) <? size))
            then discover
            else (c, inl bound)
        end
  end.

(** The loop of [Lookup] over the segments: those with an entry, with their
    first ids, which must increase. *)
Fixpoint bounds_loop (v : lenv) (maxb : Z) (dir : list dirent) (segs : list segmentRef) (previous : Z)
    (ranges : list (segmentRef * Z)) (c : convLog) : convLog * result (list (segmentRef * Z)) :=
  match segs with
  | [] => (c, inl ranges)
  | seg :: segs =>
      match lookupSegmentBound v maxb dir seg c with
      | (c, inr err) => (c, inr err)
      | (c, inl bound) =>
          if lb_firstID bound =? 0 then bounds_loop v maxb dir segs previous ranges c
          else if lb_firstID bound <=? previous then (c, inr ErrCorruptSegment)
          else bounds_loop v maxb dir segs (lb_firstID bound) (ranges ++ [(seg, lb_firstID bound)]) c
      end
  end.

Definition prune (segs : list segmentRef) (c : convLog) : convLog :=
  set_bounds (filter (fun x => x.1 ∈ (sr_num <$> segs)) (cl_lookupBounds c)) c.

(** The ids of one segment: the first, and those below the next segment's. *)
Fixpoint group (next : option Z) (ids : list Z) : list Z * list Z :=
  match ids with
  | [] => ([], [])
  | id :: ids =>
      if match next with Some n => id <? n | None => true end
      then let '(g, rest) := group next ids in (id :: g, rest)
      else ([], id :: ids)
  end.

(** The check of the stored order, within the segment's bounds. *)
Fixpoint ordered (next : option Z) (previous : Z) (entries : list segEntry) : bool :=
  match entries with
  | [] => true
  | e :: entries =>
      let id := ID (se_entry e) in
      if (id <=? previous) || match next with Some n => n <=? id | None => false end then false
      else ordered next id entries
  end.

(** The answers from one segment's entries. *)
Definition pick (entries : list segEntry) (id : Z) : option Entry :=
  let j := Search (length entries) (fun j => match entries !! j with
                                             | Some e => id <=? ID (se_entry e) | None => true end) in
  match entries !! j with
  | Some e => if ID (se_entry e) =? id then Some (se_entry e) else None
  | None => None
  end.

Section answers.
Context (cost : list segEntry -> Z).

(** The entries of the segment: cached, unless it is the last one, or read,
    checked, and cached. *)
Definition segment_entries (v : lenv) (maxb : Z) (convID : string) (dir : list dirent) (rolled : bool)
    (seg : segmentRef) (size : Z) (next : option Z) (cache : segmentCache) : segmentCache * lresult (list segEntry) :=
  let key := MkKey convID (sr_num seg) size in
  let '(cache, hit) := if rolled then get key cache else (cache, None) in
  match hit with
  | Some entries => (cache, inl entries)
  | None =>
      match readSegment dec header_ok (le_env v) maxb dir (sr_name seg) with
      | inr err => (cache, inr (Store_ err))
      | inl (entries, size', _) =>
          if negb (ordered next 0 entries) then (cache, inr (Store_ ErrCorruptSegment))
          else if rolled && (size' =? size)
          then match put cost key entries cache with
               | Some cache => (cache, inl entries)
               | None => (cache, inr CachePanic)
               end
          else (cache, inl entries)
      end
  end.

(** The loop of [Lookup] over the ids; every turn takes at least one. *)
Fixpoint answer_loop (fuel : nat) (v : lenv) (maxb : Z) (convID : string) (dir : list dirent) (lastSeg : Z)
    (sizes : gmap Z lookupBound) (ranges : list (segmentRef * Z)) (ids : list Z)
    (out : list Entry) (missing : list Z) (cache : segmentCache)
  : segmentCache * lresult (list Entry * list Z) :=
  match fuel, ids with
  | S fuel, id :: rest =>
      let i := Search (length ranges) (fun i => match ranges !! i with Some r => id <? r.2 | None => true end) in
      match i with
      | O => answer_loop fuel v maxb convID dir lastSeg sizes ranges rest out (missing ++ [id]) cache
      | S i' =>
          if id =? 0
          then answer_loop fuel v maxb convID dir lastSeg sizes ranges rest out (missing ++ [id]) cache
          else
          match ranges !! i' with
          | None => (cache, inr CachePanic)
          | Some (seg, _) =>
              let next := snd <$> ranges !! i in
              let '(g, rest) := group next rest in
              let size := from_option lb_size 0 (sizes !! sr_num seg) in
              match segment_entries v maxb convID dir (negb (sr_num seg =? lastSeg)) seg size next cache with
              | (cache, inr err) => (cache, inr err)
              | (cache, inl entries) =>
                  let ids := id :: g in
                  answer_loop fuel v maxb convID dir lastSeg sizes ranges rest
                    (out ++ omap (pick entries) ids) (missing ++ filter (fun id => pick entries id = None) ids) cache
              end
          end
      end
  | _, _ => (cache, inl (out, missing))
  end.

Fixpoint ascending (ids : list Z) : bool :=
  match ids with
  | a :: (b :: _) as rest => (a <? b) && ascending rest
  | _ => true
  end.

Definition Lookup (v : lenv) (maxb : Z) (convID : string) (ids : list Z) (dir : option (list dirent))
    (c : convLog) (cache : segmentCache) : convLog * segmentCache * lresult (list Entry) :=
  if negb (Conversations.ValidID convID) then (c, cache, inr (Store_ ErrInvalidID))
  else if negb (ascending ids) then (c, cache, inr ErrInvalidEntryIDs)
  else match e_resolve (le_env v), dir with
  | Some err, _ => (c, cache, inr (Store_ err))
  | None, None => (c, cache, match ids with [] => inl [] | _ => inr (MissingEntriesError ids) end)
  | None, Some d =>
      if negb (e_list (le_env v)) then (c, cache, inr (Store_ ErrIO)) else
      let segs := listSegments d in
      match ids with
      | [] => (c, cache, inl [])
      | _ =>
          match bounds_loop v maxb d segs 0 [] c with
          | (c, inr err) => (c, cache, inr (Store_ err))
          | (c, inl ranges) =>
              let c := prune segs c in
              match answer_loop (length ids) v maxb convID d (from_option sr_num 0 (last segs)) (cl_lookupBounds c)
                      ranges ids [] [] cache with
              | (cache, inr err) => (c, cache, inr err)
              | (cache, inl (out, [])) => (c, cache, inl out)
              | (cache, inl (_, missing)) => (c, cache, inr (MissingEntriesError missing))
              end
          end
      end
  end.
End answers.
End json.

(** ** Forward reading ([forward.go])

    [Walk] takes the store's lock once to list the segments and once per
    segment to read it; deliveries run without it. So a walk is a first step
    and a step per segment, between which other calls run. *)

Record ForwardReader := MkReader {
  fr_afterID : Z;
  fr_segment : Z;
  fr_sealed : bool;
  fr_selective : bool;
  fr_positioned : bool;
  fr_boundaryID : Z;
}.

(** [Forward], for a valid conversation. *)
Definition Forward (afterID : Z) : ForwardReader := MkReader afterID 0 false (negb (afterID =? 0)) false 0.

Record forwardRange := MkRange { rg_seg : segmentRef; rg_firstID : Z; rg_nextID : Z }.

Inductive walkError := WCancelled | WConsume | WStore (err : historyError) | WNotExist.

Definition set_position (segment : Z) (sealed : bool) (boundary : Z) (r : ForwardReader) : ForwardReader :=
  MkReader (fr_afterID r) segment sealed (fr_selective r) (fr_positioned r) boundary.
Definition set_after (id : Z) (r : ForwardReader) : ForwardReader :=
  MkReader id (fr_segment r) (fr_sealed r) (fr_selective r) (fr_positioned r) (fr_boundaryID r).
Definition set_positioned (r : ForwardReader) : ForwardReader :=
  MkReader (fr_afterID r) (fr_segment r) (fr_sealed r) (fr_selective r) true (fr_boundaryID r).

(** Segments the reader is past. *)
Definition skipped (r : ForwardReader) (num : Z) : bool :=
  (num <? fr_segment r) || ((num =? fr_segment r) && fr_sealed r).

Section forward.
Context (dec : bytes -> option Entry) (header_ok : bytes -> bool).

(** The loop of [forwardSegments]; [cancelled] says at which of its checks
    the context is done. *)
Fixpoint ranges_loop (v : lenv) (maxb : Z) (dir : list dirent) (r : ForwardReader) (cancelled : nat -> bool) (i : nat)
    (segs : list segmentRef) (previous : Z) (ranges : list forwardRange) (c : convLog)
  : convLog * (list forwardRange + walkError) :=
  match segs with
  | [] => (c, inl ranges)
  | seg :: segs =>
      if skipped r (sr_num seg) then ranges_loop v maxb dir r cancelled i segs previous ranges c
      else if cancelled i then (c, inr WCancelled)
      else if fr_selective r
      then match lookupSegmentBound dec header_ok v maxb dir seg c with
           | (c, inr err) => (c, inr (WStore err))
           | (c, inl bound) =>
               let first := lb_firstID bound in
               if first =? 0
               then ranges_loop v maxb dir r cancelled (S i) segs previous (ranges ++ [MkRange seg 0 0]) c
               else if first <=? previous then (c, inr (WStore ErrCorruptSegment))
               else ranges_loop v maxb dir r cancelled (S i) segs first (ranges ++ [MkRange seg first 0]) c
           end
      else ranges_loop v maxb dir r cancelled (S i) segs previous (ranges ++ [MkRange seg 0 0]) c
  end.

(** The next first id of each range, from the last backwards. *)
Definition set_next (ranges : list forwardRange) : list forwardRange :=
  snd (foldr (fun x '(next, out) =>
         (if rg_firstID x =? 0 then next else rg_firstID x, MkRange (rg_seg x) (rg_firstID x) next :: out))
       (0, []) ranges).

(** The range to begin with: the last whose first id is not past the
    position, or the first that has one; with the first id of the one before. *)
Fixpoint select (afterID : Z) (i : nat) (ranges : list forwardRange) (selected : option (nat * Z)) (boundary : Z)
  : option (nat * Z) :=
  match ranges with
  | [] => (fun s => (fst s, boundary)) <$> selected
  | x :: ranges =>
      if rg_firstID x =? 0 then select afterID (S i) ranges selected boundary
      else match selected with
      | Some (s, first) =>
          if afterID <? rg_firstID x then Some (s, boundary)
          else select afterID (S i) ranges (Some (i, rg_firstID x)) first
      | None => select afterID (S i) ranges (Some (i, rg_firstID x)) boundary
      end
  end.

Definition forwardSegments (v : lenv) (maxb : Z) (cancelled : nat -> bool) (dir : option (list dirent)) (c : convLog)
    (r : ForwardReader) : convLog * ForwardReader * (list forwardRange + walkError) :=
  match e_resolve (le_env v), dir with
  | Some err, _ => (c, r, inr (WStore err))
  | None, None => (c, r, inr WNotExist)
  | None, Some d =>
      if negb (e_list (le_env v)) then (c, r, inr (WStore ErrIO)) else
      let segs := listSegments d in
      match ranges_loop v maxb d r cancelled 0 segs (fr_boundaryID r) [] c with
      | (c, inr err) => (c, r, inr err)
      | (c, inl ranges) =>
          if negb (fr_selective r) then (c, r, inl ranges)
          else
            let c := prune segs c in
            let ranges := set_next ranges in
            if negb (fr_positioned r) && negb (bool_decide (ranges = []))
            then match select (fr_afterID r) 0 ranges None 0 with
                 | Some (s, boundary) =>
                     let ranges := drop s ranges in
                     let num := from_option (fun x => sr_num (rg_seg x)) 0 (head ranges) in
                     (c, set_positioned (set_position num (fr_sealed r) boundary r), inl ranges)
                 | None => (c, set_positioned r, inl ranges)
                 end
            else (c, r, inl ranges)
      end
  end.

Definition forwardSegment (v : lenv) (maxb : Z) (dir : option (list dirent)) (name : bytes)
  : list segEntry * bool + walkError :=
  match e_resolve (le_env v), dir with
  | Some err, _ => inr (WStore err)
  | None, None => inr WNotExist
  | None, Some d =>
      match dir_find name d with
      | None => inr WNotExist
      | Some f =>
          if negb (le_lstat v name) then inr (WStore ErrIO)
          else if negb (de_regular f) then inr (WStore ErrCorruptSegment)
          else match readSegment dec header_ok (le_env v) maxb d name with
          | inr err => inr (WStore err)
          | inl (entries, size, complete) => inl (entries, negb complete || (maxb <=? size))
          end
      end
  end.

(** The entries to deliver of a segment, cut into chunks. *)
Fixpoint wanted (afterID throughID : Z) (entries : list segEntry) : list Entry :=
  match entries with
  | [] => []
  | e :: entries =>
      if ID (se_entry e) <=? afterID then wanted afterID throughID entries
      else if throughID <? ID (se_entry e) then []
      else se_entry e :: wanted afterID throughID entries
  end.

Fixpoint chunks (fuel : nat) (n : nat) (l : list Entry) : list (list Entry) :=
  match fuel, l with
  | S fuel, _ :: _ => take n l :: chunks fuel n (drop n l)
  | _, _ => []
  end.

(** [deliver], for each chunk in turn: [answers] says whether the context is
    done before the [k]th chunk and whether its callback succeeds. *)
Fixpoint deliver (answers : nat -> bool * bool) (k : nat) (cs : list (list Entry)) (r : ForwardReader)
  : ForwardReader * list (list Entry) * option walkError :=
  match cs with
  | [] => (r, [], None)
  | entries :: cs =>
      if (answers k).1 then (r, [], Some WCancelled)
      else if negb (answers k).2 then (r, [], Some WConsume)
      else
        let r := set_after (from_option ID 0 (last entries)) r in
        let '(r, out, err) := deliver answers (S k) cs r in (r, entries :: out, err)
  end.

(** A walk under way: the segments to come and the last stored id seen; or
    over, with its result. *)
Inductive walk :=
| Scan (throughID previous : Z) (segs : list forwardRange)
| Over (result : option walkError).

Definition walk_begin (v : lenv) (maxb throughID : Z) (cancelled : bool) (cancels : nat -> bool)
    (dir : option (list dirent)) (c : convLog) (r : ForwardReader) : convLog * ForwardReader * walk :=
  if cancelled then (c, r, Over (Some WCancelled))
  else if throughID <=? fr_afterID r then (c, r, Over None)
  else match forwardSegments v maxb cancels dir c r with
  | (c, r, inr WNotExist) => (c, r, Over (if fr_segment r =? 0 then None else Some WNotExist))
  | (c, r, inr err) => (c, r, Over (Some err))
  | (c, r, inl ranges) => (c, r, Scan throughID (fr_boundaryID r) ranges)
  end.

(** One turn of [Walk]'s loop, or its end. *)
Definition walk_segment (v : lenv) (maxb : Z) (cancelled : bool) (answers : nat -> bool * bool)
    (dir : option (list dirent)) (r : ForwardReader) (throughID previous : Z) (segs : list forwardRange)
  : ForwardReader * list (list Entry) * walk :=
  match segs with
  | [] => (r, [], Over (if cancelled then Some WCancelled else None))
  | seg :: segs =>
      let num := sr_num (rg_seg seg) in
      if skipped r num then (r, [], Scan throughID previous segs)
      else if cancelled then (r, [], Over (Some WCancelled))
      else match forwardSegment v maxb dir (sr_name (rg_seg seg)) with
      | inr err => (r, [], Over (Some err))
      | inl (entries, sealed) =>
          if negb (ordered (if rg_nextID seg =? 0 then None else Some (rg_nextID seg)) previous entries)
          then (r, [], Over (Some (WStore ErrCorruptSegment)))
          else
            let lastID := from_option (fun e => ID (se_entry e)) previous (last entries) in
            let r := set_position num false previous r in
            let cs := let l := wanted (fr_afterID r) throughID entries in chunks (length l) (Z.to_nat MaxPageEntries) l in
            match deliver answers 0 cs r with
            | (r, out, Some err) => (r, out, Over (Some err))
            | (r, out, None) =>
                let sealed := sealed && match last entries with
                                        | Some e => ID (se_entry e) <=? fr_afterID r | None => true end in
                let r := if (sealed : bool) then set_position num true lastID r else r in
                (r, out, if throughID <=? lastID then Over None else Scan throughID lastID segs)
            end
      end
  end.
End forward.

(** [Tail]: a wakeup of capacity one, registered before the first walk. *)
Inductive tail :=
| Walking (w : walk)
| Waiting
| Returned (err : walkError).

(** Where a walk that is over leaves the loop. *)
Definition tail_walk (w : walk) : tail :=
  match w with Over None => Waiting | Over (Some err) => Returned err | Scan _ _ _ => Walking w end.

(** [select]: the context, or the wakeup, which is consumed. *)
Definition tail_wait (cancelled wake : bool) : option (tail + bool) :=
  if cancelled then Some (inl (Returned WCancelled))
  else if wake then Some (inr false) else None.

(** [follow] and [notifyCommitted]: the followers of a conversation, each with
    whether its wakeup is pending. *)
Definition follow (wake : nat) (followers : gmap nat bool) : gmap nat bool := <[wake := false]> followers.
Definition unregister (wake : nat) (followers : gmap nat bool) : gmap nat bool := delete wake followers.
Definition notifyCommitted (followers : gmap nat bool) : gmap nat bool := (fun _ => true) <$> followers.

(** ** Syncing ([sync.go]) *)

(** What the environment answers: resolving and listing the directory, and
    opening, checking, syncing and closing a segment or the directory. *)
Record senv := SEnv {
  sy_resolve : option historyError; sy_list : bool; sy_file : bytes -> bool; sy_dir : bool;
}.

(** The loop over the listing: what is pending, and what is present. *)
Fixpoint sync_scan (done : bool) (entries : list dirent) (pending present : gset Z) : gset Z * result (gset Z) :=
  match entries with
  | [] => (pending, inl present)
  | e :: entries =>
      match parseSegmentName (de_name e) with
      | None => sync_scan done entries pending present
      | Some n =>
          let pending := if done then pending else {[n]} ∪ pending in
          if negb (de_regular e) then (pending, inr ErrCorruptSegment)
          else sync_scan done entries pending ({[n]} ∪ present)
      end
  end.

(** The loop over the pending segments; the segments synced come with it. *)
Fixpoint sync_files (v : senv) (entries : list dirent) (pending : gset Z) : list Z * result unit :=
  match entries with
  | [] => ([], inl tt)
  | e :: entries =>
      match parseSegmentName (de_name e) with
      | Some n =>
          if bool_decide (n ∈ pending)
          then if sy_file v (de_name e)
               then let '(out, r) := sync_files v entries pending in (n :: out, r)
               else ([], inr ErrIO)
          else sync_files v entries pending
      | None => sync_files v entries pending
      end
  end.

Definition set_sync (done : bool) (pending : gset Z) (dirPending : bool) (c : convLog) : convLog :=
  ConvLog (cl_loaded c) (cl_seg c) (cl_segBytes c) (cl_lastID c) (cl_displayableID c)
    (cl_displayableLoaded c) (cl_lookupBounds c) done pending dirPending.

(** [Sync], with what it made durable: segments, and the directory. *)
Definition Sync (v : senv) (convID : string) (dir : option (list dirent)) (c : convLog)
  : convLog * (list Z * bool) * result unit :=
  if negb (Conversations.ValidID convID) then (c, ([], false), inr ErrInvalidID)
  else match sy_resolve v, dir with
  | Some err, _ => (c, ([], false), inr err)
  | None, None =>
      if bool_decide (cl_syncPending c = ∅) && negb (cl_syncDirPending c)
      then (c, ([], false), inl tt) else (c, ([], false), inr ErrIO)
  | None, Some entries =>
      if negb (sy_list v) then (c, ([], false), inr ErrIO)
      else
        let '(pending, r) := sync_scan (cl_syncDone c) entries (cl_syncPending c) ∅ in
        let c := set_sync (cl_syncDone c) pending (cl_syncDirPending c) c in
        match r with
        | inr err => (c, ([], false), inr err)
        | inl present =>
            if negb (bool_decide (pending ⊆ present)) then (c, ([], false), inr ErrIO)
            else if bool_decide (pending = ∅) then (c, ([], false), inl tt)
            else match sync_files v entries pending with
            | (out, inr err) => (c, (out, false), inr err)
            | (out, inl _) =>
                let d := negb (cl_syncDone c) || cl_syncDirPending c in
                if d && negb (sy_dir v) then (c, (out, false), inr ErrIO)
                else (set_sync true ∅ false c, (out, d), inl tt)
            end
        end
  end.

End HistoryRead.
