(* ===== verification/HistoryLookup.v ===== *)
(** * The conversation log: lookups are exact

    Whatever the two caches have seen, a lookup by id answers from the log. *)
From Stdlib Require Import Ascii String ZArith Lia.
From stdpp Require Import prelude gmap strings list sorting.
From S2P Require Import Prelude Utf8 Strconv Conversations History HistoryProps HistoryAppend HistoryRead.

Module HistoryLookup.
Import Utf8 Strconv History HistoryProps HistoryAppend HistoryRead.

Local Open Scope Z_scope.
Local Open Scope pyry_scope.

(** ** Bisection *)

Definition monotone_upto (n : nat) (f : nat -> bool) : Prop :=
  forall a b, (a <= b < n)%nat -> f a = true -> f b = true.

Lemma search_loop_spec fuel n f i j :
  monotone_upto n f -> (i <= j <= n)%nat -> (j - i < fuel)%nat ->
  (forall k, (k < i)%nat -> f k = false) -> (forall k, (j <= k < n)%nat -> f k = true) ->
  let r := search_loop fuel f i j in
  (i <= r <= j)%nat /\ (forall k, (k < r)%nat -> f k = false) /\ (forall k, (r <= k < n)%nat -> f k = true).
Proof.
  cbn zeta. intros Hm. revert i j. induction fuel as [|fuel IH]; intros i j Hij Hf Hlo Hhi; [lia|]. cbn [search_loop].
  destruct (i <? j)%nat eqn:Hlt; [|apply Nat.ltb_ge in Hlt; assert (i = j) as <- by lia; done].
  apply Nat.ltb_lt in Hlt. set (h := ((i + j) / 2)%nat).
  assert (i <= h < j)%nat as Hh by (subst h; split; [apply Nat.div_le_lower_bound|apply Nat.Div0.div_lt_upper_bound]; lia).
  cbn zeta. destruct (f h) eqn:Hfh.
  - destruct (IH i h) as (? & ? & ?); [lia|lia|done|intros k Hk; apply (Hm h); [lia|done]|]. split; [lia|done].
  - destruct (IH (S h) j) as (? & ? & ?); [lia|lia| |done|split; [lia|done]].
    intros k Hk. destruct (f k) eqn:Hfk; [|done]. rewrite <- Hfh. symmetry. apply (Hm k); [lia|done].
Qed.

Lemma Search_spec n f :
  monotone_upto n f ->
  let r := Search n f in
  (r <= n)%nat /\ (forall k, (k < r)%nat -> f k = false) /\ (forall k, (r <= k < n)%nat -> f k = true).
Proof.
  intros Hm. unfold Search. cbn zeta. destruct (search_loop_spec (S n) n f 0 n) as (H1 & H2 & H3); [done|lia|lia|intros; lia|intros; lia|].
  split; [lia|done].
Qed.

(** ** The recency cache *)

Section lru.
Context (cost : list segEntry -> Z) (Hcost : forall es, 0 <= cost es).

Definition total (items : gmap segmentCacheKey cachedSegment) (l : list segmentCacheKey) : Z :=
  foldr (fun k n => from_option cs_bytes 0 (items !! k) + n) 0 l.

Record cache_wf (c : segmentCache) : Prop := CacheWF {
  w_nodup : NoDup (sc_lru c);
  w_dom : forall k, k ∈ sc_lru c <-> is_Some (sc_items c !! k);
  w_bytes : sc_bytes c = total (sc_items c) (sc_lru c);
  w_limit : sc_bytes c <= sc_limit c;
  w_pos : forall k e, sc_items c !! k = Some e -> 0 <= cs_bytes e;
}.

Lemma total_app items l1 l2 : total items (l1 ++ l2) = total items l1 + total items l2.
Proof. induction l1 as [|k l1 IH]; cbn; [done|]. unfold total in *. lia. Qed.

Lemma total_delete items k l : k ∉ l -> total (delete k items) l = total items l.
Proof.
  induction l as [|k' l IH]; intros Hk; [done|]. apply not_elem_of_cons in Hk as [Hne Hk]. cbn.
  rewrite lookup_delete_ne by done. unfold total in IH. by rewrite IH.
Qed.

Lemma total_insert items k e l : k ∉ l -> total (<[k := e]> items) l = total items l.
Proof.
  induction l as [|k' l IH]; intros Hk; [done|]. apply not_elem_of_cons in Hk as [Hne Hk]. cbn.
  rewrite lookup_insert_ne by done. unfold total in IH. by rewrite IH.
Qed.

Lemma total_Permutation items l1 l2 : l1 ≡ₚ l2 -> total items l1 = total items l2.
Proof. unfold total. induction 1; cbn in *; lia. Qed.

Lemma to_front_perm key l : NoDup l -> key ∈ l -> to_front key l ≡ₚ l.
Proof.
  intros Hn Hk. unfold to_front. apply NoDup_Permutation; [|done|].
  - constructor; [rewrite list_elem_of_filter; tauto|by apply NoDup_filter].
  - intros x. rewrite elem_of_cons, list_elem_of_filter. destruct (decide (x = key)); naive_solver.
Qed.

Lemma get_wf key c : cache_wf c -> cache_wf (get key c).1.
Proof.
  intros [H1 H2 H3 H4 H5]. unfold get. destruct (sc_items c !! key) as [e|] eqn:He; [|done]. cbn [fst].
  assert (to_front key (sc_lru c) ≡ₚ sc_lru c) as Hp by (apply to_front_perm; [done|apply H2; eauto]).
  constructor; cbn [sc_lru sc_items sc_bytes sc_limit]; [by rewrite Hp| |by rewrite (total_Permutation _ _ _ Hp)|done|done]. intros k. rewrite Hp. apply H2.
Qed.

Lemma get_items key c : sc_items (get key c).1 = sc_items c.
Proof. unfold get. by destruct (sc_items c !! key). Qed.

(** Eviction frees enough room, without running out of elements. *)
Lemma evict_spec rlru n c :
  cache_wf c -> rlru = reverse (sc_lru c) -> n <= sc_limit c ->
  exists c', evict rlru n c = Some c' /\ cache_wf c' /\ sc_bytes c' + n <= sc_limit c' /\ sc_limit c' = sc_limit c
    /\ sc_items c' ⊆ sc_items c.
Proof.
  revert c. induction rlru as [|old rlru IH]; intros c Hw Hr Hn; cbn [evict]; destruct (Z.ltb_spec (sc_limit c) (sc_bytes c + n)) as [Hlt|Hge].
  - apply (f_equal reverse) in Hr. rewrite reverse_involutive in Hr. rewrite (w_bytes _ Hw), <- Hr in Hlt. cbn in Hlt. lia.
  - exists c. split; [done|]. split; [done|]. split; [lia|]. by split.
  - apply (f_equal reverse) in Hr. rewrite reverse_involutive, reverse_cons in Hr. destruct Hw as [H1 H2 H3 H4 H5].
    rewrite <- Hr in H1. apply NoDup_app in H1 as (Hn1 & Hd & _).
    assert (old ∉ reverse rlru) as Ho by (intros Hx; apply (Hd _ Hx); by apply list_elem_of_singleton).
    edestruct IH as (c' & -> & Hw' & ? & Hlim & Hsub); [| | |exists c'; split; [done|]].
    + constructor; cbn [sc_lru sc_items sc_bytes sc_limit]; [done| | | |].
      * intros k. rewrite lookup_delete_is_Some. rewrite <- (H2 k), <- Hr, elem_of_app, list_elem_of_singleton.
        destruct (decide (old = k)) as [<-|]; naive_solver.
      * rewrite total_delete by done. rewrite H3, <- Hr, total_app. cbn. lia.
      * rewrite <- Hr, total_app in H3. cbn in H3. destruct (sc_items c !! old) as [e|] eqn:He; cbn; [|lia].
        apply H5 in He. lia.
      * intros k e [_ He]%lookup_delete_Some. by eapply H5.
    + cbn [sc_lru]. by rewrite reverse_involutive.
    + done.
    + split; [done|]. split; [done|]. split; [done|]. etrans; [exact Hsub|]. apply delete_subseteq.
  - exists c. split; [done|]. split; [done|]. split; [lia|]. by split.
Qed.

Lemma put_spec key es c :
  cache_wf c -> sc_items c !! key = None ->
  exists c', put cost key es c = Some c' /\ cache_wf c'
    /\ forall k e, sc_items c' !! k = Some e -> sc_items c !! k = Some e \/ (k = key /\ cs_entries e = es).
Proof.
  intros Hw Hk. unfold put. destruct (_ || _) eqn:Hb; [exists c; eauto|]. apply orb_false_iff in Hb as [Hb _]. reflect_bools.
  destruct (evict_spec (reverse (sc_lru c)) (cost es) c Hw eq_refl Hb) as (c' & -> & [H1 H2 H3 H4 H5] & Hroom & _ & Hsub).
  assert (sc_items c' !! key = None) as Hk'.
  { destruct (sc_items c' !! key) as [e|] eqn:He; [|done]. rewrite map_subseteq_spec in Hsub. apply Hsub in He. congruence. }
  assert (key ∉ sc_lru c') as Hnot by (rewrite H2, Hk'; intros [? ?]; done).
  eexists. split; [reflexivity|]. split; [|cbn [sc_items]; intros k e [(<- & <-)|(Hne & He)]%lookup_insert_Some; [by right|left]].
  - constructor; cbn [sc_lru sc_items sc_bytes sc_limit].
    + by constructor.
    + intros k. rewrite elem_of_cons, lookup_insert_is_Some, H2. destruct (decide (key = k)) as [<-|]; naive_solver.
    + unfold total. cbn [foldr]. rewrite lookup_insert_eq. cbn [from_option cs_bytes]. change (foldr _ _ _) with (total (<[key:=MkCached es (cost es)]> (sc_items c')) (sc_lru c')).
      rewrite total_insert by done. lia.
    + lia.
    + intros k e [(<- & <-)|(_ & He)]%lookup_insert_Some; [apply Hcost|by eapply H5].
  - rewrite map_subseteq_spec in Hsub. by apply Hsub.
Qed.
End lru.

(** ** Finding an id in a sorted log *)

Definition by_id (id : Z) (l : list Entry) : option Entry := find_first (fun e => ID e =? id) l.

Definition sorted_ids (l : list Z) : Prop := StronglySorted Z.lt l.

Lemma sorted_app l1 l2 :
  sorted_ids (l1 ++ l2) -> sorted_ids l1 /\ sorted_ids l2 /\ forall a b, a ∈ l1 -> b ∈ l2 -> a < b.
Proof.
  induction l1 as [|x l1 IH]; cbn.
  - intros H. split; [constructor|]. split; [done|]. intros a b Ha. by apply elem_of_nil in Ha.
  - intros [H Hx]%StronglySorted_inv. destruct (IH H) as (H1 & H2 & H3). apply Forall_app in Hx as [Hx1 Hx2]. split; [by constructor|].
    split; [done|]. intros a b [->|Ha]%elem_of_cons Hb; [rewrite Forall_forall in Hx2; auto|auto].
Qed.

Lemma sorted_lookup l a b x y : sorted_ids l -> l !! a = Some x -> l !! b = Some y -> (a < b)%nat -> x < y.
Proof.
  intros Hs Ha Hb Hlt. rewrite <- (take_drop b l) in Hs. apply sorted_app in Hs as (_ & _ & Hs).
  apply Hs; [apply elem_of_take; eauto|]. rewrite (drop_S _ _ _ Hb). by left.
Qed.

Lemma find_first_app {A} (p : A -> bool) l1 l2 :
  find_first p (l1 ++ l2) = match find_first p l1 with Some x => Some x | None => find_first p l2 end.
Proof. induction l1 as [|x l1 IH]; [done|]. cbn. by destruct (p x). Qed.

Lemma by_id_app id l1 l2 :
  (forall e, e ∈ l1 -> ID e <> id) -> by_id id (l1 ++ l2) = by_id id l2.
Proof.
  intros H. unfold by_id. rewrite find_first_app. assert (find_first (fun e => ID e =? id) l1 = None) as ->; [|done].
  apply find_first_None. intros e He. specialize (H e He). lia.
Qed.

Lemma by_id_None id l : (forall e, e ∈ l -> ID e <> id) -> by_id id l = None.
Proof. intros H. apply find_first_None. intros e He. specialize (H e He). lia. Qed.

Lemma by_id_app_r id l1 l2 : (forall e, e ∈ l2 -> ID e <> id) -> by_id id (l1 ++ l2) = by_id id l1.
Proof.
  intros H. unfold by_id. rewrite find_first_app. destruct (find_first _ l1); [done|]. by apply by_id_None.
Qed.

(** Bisection on the stored order finds the entry. *)
Lemma pick_spec es id : sorted_ids ((ID ∘ se_entry) <$> es) -> pick es id = by_id id (se_entry <$> es).
Proof.
  intros Hs. unfold pick. set (f := fun j => _). cbn zeta.
  assert (monotone_upto (length es) f) as Hm.
  { intros a b Hab. subst f. cbn beta. destruct (lookup_lt_is_Some_2 es a ltac:(lia)) as [ea Ha].
    destruct (lookup_lt_is_Some_2 es b ltac:(lia)) as [eb Hb]. rewrite Ha, Hb. intros H%Z.leb_le. apply Z.leb_le.
    destruct (decide (a = b)) as [<-|Hne]; [congruence|].
    pose proof (sorted_lookup _ a b (ID (se_entry ea)) (ID (se_entry eb)) Hs) as Hlt.
    rewrite !list_lookup_fmap, Ha, Hb in Hlt. specialize (Hlt eq_refl eq_refl ltac:(lia)). lia. }
  destruct (Search_spec _ f Hm) as (Hle & Hlo & Hhi). set (j := Search (length es) f) in *.
  assert (forall e, e ∈ take j es -> ID (se_entry e) < id) as Hbefore.
  { intros e (k & Hk & Hkj)%elem_of_take. specialize (Hlo k Hkj). subst f. cbn beta in Hlo. rewrite Hk in Hlo. lia. }
  rewrite <- (take_drop j es) at 2. rewrite fmap_app, by_id_app.
  2: { intros e (x & -> & Hx%Hbefore)%list_elem_of_fmap. lia. }
  destruct (es !! j) as [e|] eqn:Hj.
  - rewrite (drop_S _ _ _ Hj). cbn. destruct (Z.eqb_spec (ID (se_entry e)) id) as [He|He]; [done|].
    symmetry. apply by_id_None. intros e' (x & -> & Hx)%list_elem_of_fmap.
    assert (f j = true) as Hfj by (apply Hhi; split; [done|by eapply lookup_lt_Some]). subst f. cbn beta in Hfj. rewrite Hj in Hfj.
    rewrite <- (take_drop j es), (drop_S _ _ _ Hj), fmap_app in Hs. apply sorted_app in Hs as (_ & Hs & _).
    cbn in Hs. apply StronglySorted_inv in Hs as [_ Hs]. rewrite Forall_forall in Hs.
    specialize (Hs (ID (se_entry x)) ltac:(apply list_elem_of_fmap; by exists x)). lia.
  - apply lookup_ge_None in Hj. rewrite drop_ge by lia. done.
Qed.

Lemma group_spec next ids g rest :
  group next ids = (g, rest) ->
  ids = g ++ rest /\ forall id n, next = Some n -> id ∈ g -> id < n.
Proof.
  revert g rest. induction ids as [|id ids IH]; intros g rest; cbn [group].
  - intros [= <- <-]. split; [done|]. intros ? ? ? H. by apply elem_of_nil in H.
  - destruct (match next with Some n => id <? n | None => true end) eqn:Hc.
    + destruct (group next ids) as [g' rest'] eqn:Hg. intros [= <- <-]. destruct (IH _ _ eq_refl) as [-> Hlt].
      split; [done|]. intros id' n -> [->|Hi]%elem_of_cons; [lia|]. by eapply Hlt.
    + intros [= <- <-]. split; [done|]. intros ? ? ? H. by apply elem_of_nil in H.
Qed.

(** The stored order is what the check asks. *)
Lemma ordered_spec next previous es :
  sorted_ids (previous :: ((ID ∘ se_entry) <$> es)) ->
  (forall e n, e ∈ es -> next = Some n -> ID (se_entry e) < n) -> ordered next previous es = true.
Proof.
  revert previous. induction es as [|e es IH]; intros previous Hs Hn; [done|]. cbn [ordered]. cbn in Hs.
  apply StronglySorted_inv in Hs as [Hs Hp]. apply Forall_cons in Hp as [Hp _].
  rewrite (proj2 (Z.leb_gt _ _)) by exact Hp. cbn [orb].
  assert (match next with Some n => n <=? ID (se_entry e) | None => false end = false) as ->.
  { destruct next as [n|]; [|done]. specialize (Hn e n ltac:(by left) eq_refl). lia. }
  apply IH; [done|]. intros e' n He'. apply Hn. by right.
Qed.

Lemma ascending_sorted ids : ascending ids = true -> sorted_ids ids.
Proof.
  intros H. apply Sorted_StronglySorted; [intros a b c; lia|].
  induction ids as [|a ids IH]; [constructor|]. destruct ids as [|b ids]; [by repeat constructor|].
  cbn [ascending] in H. apply andb_true_iff in H as [Hab H]. constructor; [by apply IH|]. constructor. lia.
Qed.

(** ** A sorted log in chunks *)

Lemma elem_of_concat {A} (x : A) ls : x ∈ concat ls <-> exists l, x ∈ l /\ l ∈ ls.
Proof.
  induction ls as [|l ls IH]; cbn; [split; [intros H; by apply elem_of_nil in H|intros (l & _ & H); by apply elem_of_nil in H]|].
  rewrite elem_of_app, IH. setoid_rewrite elem_of_cons. naive_solver.
Qed.

Definition head_id (l : list Entry) : Z := from_option ID 0 (head l).

Section chunks.
Context (Ls : list (list Entry)).
Context (Hne : Forall (fun l => l <> []) Ls) (Hs : sorted_ids (ID <$> concat Ls)).

Lemma chunk_split i l :
  Ls !! i = Some l -> Ls = take i Ls ++ l :: drop (S i) Ls
  /\ concat Ls = concat (take i Ls) ++ l ++ concat (drop (S i) Ls).
Proof.
  intros Hi. assert (Ls = take i Ls ++ l :: drop (S i) Ls) as Heq by (rewrite <- (drop_S _ _ _ Hi); by rewrite take_drop).
  split; [done|]. rewrite Heq at 1. by rewrite concat_app.
Qed.

Lemma head_elem l : l <> [] -> exists e, e ∈ l /\ ID e = head_id l.
Proof. destruct l as [|e l]; [done|]. intros _. exists e. split; [by left|done]. Qed.

(** Entries of a chunk are at or after its head, and before the next one's. *)
Lemma head_le l e : l ∈ Ls -> e ∈ l -> head_id l <= ID e.
Proof.
  intros [i Hi]%list_elem_of_lookup He. destruct (chunk_split i l Hi) as [_ Hc]. rewrite Hc in Hs. rewrite !fmap_app in Hs.
  apply sorted_app in Hs as (_ & Hs' & _). apply sorted_app in Hs' as (Hs' & _ & _).
  destruct l as [|e0 l]; [by apply elem_of_nil in He|]. cbn in Hs' |- *. apply elem_of_cons in He as [->|He]; [lia|].
  apply StronglySorted_inv in Hs' as [_ Hf]. rewrite Forall_forall in Hf.
  specialize (Hf (ID e) ltac:(by apply list_elem_of_fmap_2)). lia.
Qed.

Lemma chunk_lt i j l l' e : (i < j)%nat -> Ls !! i = Some l -> Ls !! j = Some l' -> e ∈ l -> ID e < head_id l'.
Proof.
  intros Hij Hi Hj He. destruct (chunk_split j l' Hj) as [_ Hc]. rewrite Hc in Hs. rewrite !fmap_app in Hs.
  apply sorted_app in Hs as (_ & _ & Hs'). destruct (head_elem l') as (e' & He' & <-).
  { rewrite Forall_forall in Hne. apply Hne. by eapply list_elem_of_lookup_2. }
  apply Hs'; [|rewrite elem_of_app; left; by apply list_elem_of_fmap_2].
  apply list_elem_of_fmap_2. rewrite elem_of_concat. exists l. split; [done|]. apply elem_of_take. eauto.
Qed.

Lemma heads_mono i j l l' : (i <= j)%nat -> Ls !! i = Some l -> Ls !! j = Some l' -> head_id l <= head_id l'.
Proof.
  intros Hij Hi Hj. destruct (decide (i = j)) as [->|Hn]; [replace l' with l by congruence; done|].
  destruct (head_elem l) as (e & He & <-).
  { rewrite Forall_forall in Hne. apply Hne. by eapply list_elem_of_lookup_2. }
  pose proof (chunk_lt i j l l' e ltac:(lia) Hi Hj He). lia.
Qed.

(** An id is in the last chunk that begins at or before it, or nowhere. *)
Lemma by_id_chunk i l id :
  Ls !! i = Some l -> head_id l <= id -> (forall l', Ls !! S i = Some l' -> id < head_id l') ->
  by_id id (concat Ls) = by_id id l.
Proof.
  intros Hi Hle Hlt. destruct (chunk_split i l Hi) as [_ Hc]. rewrite Hc, by_id_app.
  - apply by_id_app_r. intros e (l' & He & Hl')%elem_of_concat.
    apply list_elem_of_lookup in Hl' as [k Hk]. rewrite lookup_drop in Hk.
    destruct (lookup_lt_is_Some_2 Ls (S i)) as [l1 Hl1]; [apply lookup_lt_Some in Hk; lia|].
    specialize (Hlt l1 Hl1). pose proof (heads_mono (S i) (S i + k) _ _ ltac:(lia) Hl1 Hk).
    pose proof (head_le l' e ltac:(by eapply list_elem_of_lookup_2) He). lia.
  - intros e (l' & He & (k & Hk & Hki)%elem_of_take)%elem_of_concat.
    pose proof (chunk_lt k i l' l e Hki Hk Hi He). lia.
Qed.

Lemma by_id_before id : (forall l, Ls !! 0%nat = Some l -> id < head_id l) -> by_id id (concat Ls) = None.
Proof.
  intros Hlt. apply by_id_None. intros e (l & He & [k Hk]%list_elem_of_lookup)%elem_of_concat.
  destruct (lookup_lt_is_Some_2 Ls 0) as [l0 Hl0]; [apply lookup_lt_Some in Hk; lia|]. specialize (Hlt l0 Hl0).
  pose proof (heads_mono 0 k _ _ ltac:(lia) Hl0 Hk). pose proof (head_le l e ltac:(by eapply list_elem_of_lookup_2) He). lia.
Qed.
End chunks.

(** ** First ids *)

Definition first_id (es : list segEntry) : Z := match es with [] => 0 | e :: _ => ID (se_entry e) end.

Section store.
Context (dec : bytes -> option Entry) (header_ok : bytes -> bool) (maxb : Z).
#[local] Abbreviation decodeSegment := (decodeSegment dec header_ok).
#[local] Abbreviation decoded := (decoded dec header_ok).
#[local] Abbreviation file_ok := (file_ok dec header_ok maxb).
#[local] Abbreviation flog := (flog dec header_ok).

Lemma ReadBytes_length data : (length (ReadBytes data).1 <= length data)%nat.
Proof.
  unfold ReadBytes. destruct (cut_newline data) as [[line rest]|] eqn:Hc; [|done].
  apply cut_newline_Some in Hc as [-> _]. cbn. rewrite !length_app. cbn. lia.
Qed.

(** The first two lines decode to the segment's first entry. *)
Lemma decode_two_lines d es complete :
  decodeSegment d = inl (es, complete) ->
  let p := match (ReadBytes d).2 with Some rest => (ReadBytes d).1 ++ (ReadBytes rest).1 | None => (ReadBytes d).1 end in
  (length p <= length d)%nat /\ exists complete', decodeSegment p = inl (take 1 es, complete').
Proof.
  intros Hd. unfold ReadBytes at 1 2 4. destruct (cut_newline d) as [[h rest]|] eqn:Hc; cbn [fst snd].
  2: { split; [done|]. unfold History.decodeSegment in Hd |- *. rewrite Hc in Hd |- *. injection Hd as <- <-. eauto. }
  pose proof Hc as [-> Hh]%cut_newline_Some. unfold ReadBytes. cbn zeta.
  destruct (cut_newline rest) as [[line rest']|] eqn:Hc'; cbn [fst].
  - pose proof Hc' as [-> Hl]%cut_newline_Some. split; [rewrite !length_app; cbn; rewrite !length_app; cbn; lia|].
    unfold History.decodeSegment in Hd |- *. rewrite Hc in Hd. rewrite <- app_assoc. cbn [app].
    rewrite cut_newline_app by done. destruct (header_ok h); [|done].
    assert (length (line ++ newline :: rest') = S (length line + length rest')) as Hlen
      by (rewrite length_app; cbn; lia).
    rewrite Hlen in Hd. cbn [decode_lines] in Hd.
    assert (exists y r, line ++ newline :: rest' = y :: r) as (y & r & Hyr) by (destruct line; cbn; eauto).
    rewrite Hyr, <- Hyr, Hc' in Hd. destruct (dec line) as [e|] eqn:Hdec; [|done].
    apply decode_lines_offsets in Hd as (new & -> & _). cbn [app take].
    rewrite (decode_line _ line e _ [] Hl Hdec). eauto.
  - split; [rewrite <- app_assoc; done|]. rewrite <- app_assoc. cbn [app].
    rewrite Hd. exists complete. unfold History.decodeSegment in Hd. rewrite Hc in Hd. destruct (header_ok h); [|done].
    apply cut_newline_None in Hc'. rewrite decode_torn in Hd by done. by injection Hd as <- _.
Qed.

Lemma segmentFirstID_spec n d :
  file_ok (n, d) -> (forall e, e ∈ decoded d -> ID (se_entry e) <> 0) ->
  segmentFirstID dec header_ok maxb d = inl (first_id (decoded d)).
Proof.
  intros [(es & complete & Hd) Hlen] Hpos. cbn [snd] in *. unfold HistoryAppend.decoded in *. rewrite Hd in *.
  unfold segmentFirstID. rewrite take_ge by lia. destruct (decode_two_lines _ _ _ Hd) as [Hle [complete' Hp]].
  pose proof (ReadBytes_length d) as Hl1. destruct (ReadBytes d) as [line1 rest]. cbn [fst snd] in *. cbn zeta.
  rewrite (proj2 (Z.ltb_ge _ _)) by lia. destruct rest as [rest|]; cbn zeta in *.
  all: rewrite (proj2 (Z.ltb_ge _ _)) by lia; rewrite Hp; destruct es as [|e es]; [done|]; cbn [take first_id].
  all: rewrite (proj2 (Z.eqb_neq _ _)); [done|apply Hpos; by left].
Qed.
End store.
End HistoryLookup.
