(* ===== verification/HistoryLookupInv.v ===== *)
(** * The conversation log: what the caches of a lookup hold

    The recorded bounds and the cached segments describe prefixes of files
    that only grow, so they never give a stale answer; every call keeps that. *)
From Stdlib Require Import Ascii String ZArith Lia.
From stdpp Require Import prelude gmap strings list sorting.
From S2P Require Import Prelude Utf8 Strconv Conversations History HistoryProps HistoryAppend HistoryRead HistoryLookup.

Module HistoryLookupInv.
Import Utf8 Strconv History HistoryProps HistoryAppend HistoryRead HistoryLookup.

Local Open Scope Z_scope.
Local Open Scope pyry_scope.

Section store.
Context (dec : bytes -> option Entry) (header_ok : bytes -> bool) (maxb : Z) (convID : string).
#[local] Abbreviation decodeSegment := (decodeSegment dec header_ok).
#[local] Abbreviation decoded := (decoded dec header_ok).
#[local] Abbreviation file_ok := (file_ok dec header_ok maxb).
#[local] Abbreviation flog := (flog dec header_ok).

Definition elog (f : Z * bytes) : list Entry := se_entry <$> decoded f.2.
Definition nonempty (fs : files) : files := filter (fun f => decoded f.2 <> []) fs.
Definition file_first (f : Z * bytes) : Z := first_id (decoded f.2).

Lemma flog_elog fs : flog fs = concat (elog <$> fs).
Proof.
  induction fs as [|f fs IH] using rev_ind; [done|]. rewrite flog_snoc, IH, fmap_app, concat_app. cbn. by rewrite app_nil_r.
Qed.

Lemma concat_nonempty fs : concat (elog <$> nonempty fs) = concat (elog <$> fs).
Proof.
  induction fs as [|f fs IH]; [done|]. unfold nonempty. destruct (decide (decoded f.2 <> [])) as [Hd|Hd].
  - rewrite filter_cons_True, !fmap_cons by done. cbn [concat]. f_equal. exact IH.
  - rewrite filter_cons_False, fmap_cons by done. cbn [concat]. fold (nonempty fs). rewrite IH.
    unfold elog at 2. destruct (decoded f.2); [done|]. by destruct Hd.
Qed.

Lemma flog_nonempty fs : flog fs = concat (elog <$> nonempty fs).
Proof. by rewrite flog_elog, concat_nonempty. Qed.

Lemma nonempty_ne fs : Forall (fun l => l <> []) (elog <$> nonempty fs).
Proof.
  apply Forall_fmap, Forall_forall. intros f [Hf _]%list_elem_of_filter. unfold compose, elog.
  by destruct (decoded f.2).
Qed.

Lemma head_elog f : head_id (elog f) = file_first f.
Proof. unfold elog, file_first, head_id, first_id. by destruct (decoded f.2). Qed.

(** Ids that count from 1. *)
Definition ids_ok (fs : files) : Prop := ID <$> flog fs = seqZ 1 (Z.of_nat (length (flog fs))).

Lemma seqZ_sorted m n : sorted_ids (seqZ m n).
Proof.
  destruct (Z.le_gt_cases 0 n) as [Hn|Hn]; [|by rewrite seqZ_nil by lia; constructor].
  revert m. pattern n. apply natlike_ind; [| |done]; [intros m; rewrite seqZ_nil by lia; constructor|].
  intros k Hk IH m. rewrite seqZ_cons, Z.pred_succ by lia. constructor; [apply IH|].
  apply Forall_forall. intros x Hx%elem_of_seqZ. lia.
Qed.

Lemma ids_sorted fs : ids_ok fs -> sorted_ids (ID <$> flog fs).
Proof. intros ->. apply seqZ_sorted. Qed.

Lemma ids_pos fs f e : ids_ok fs -> f ∈ fs -> e ∈ decoded f.2 -> 1 <= ID (se_entry e).
Proof.
  intros Hi Hf He. assert (ID (se_entry e) ∈ seqZ 1 (Z.of_nat (length (flog fs)))) as Hin.
  { rewrite <- Hi. apply list_elem_of_fmap_2. rewrite flog_elog, elem_of_concat. exists (elog f).
    split; [by apply list_elem_of_fmap_2|by apply list_elem_of_fmap_2]. }
  apply elem_of_seqZ in Hin. lia.
Qed.

(** A file's first id is 0 exactly where it has no entry. *)
Lemma file_first_pos fs f : ids_ok fs -> f ∈ fs -> file_first f = 0 <-> decoded f.2 = [].
Proof.
  intros Hi Hf. unfold file_first, first_id. destruct (decoded f.2) as [|e es] eqn:Hd; [done|].
  pose proof (ids_pos fs f e Hi Hf) as Hp. rewrite Hd in Hp. specialize (Hp ltac:(by left)). split; [lia|done].
Qed.

Lemma file_sorted fs f : ids_ok fs -> f ∈ fs -> sorted_ids (0 :: ((ID ∘ se_entry) <$> decoded f.2)).
Proof.
  intros Hi Hf. constructor.
  - pose proof (ids_sorted fs Hi) as Hs. apply list_elem_of_lookup in Hf as [i Hf].
    destruct (chunk_split (elog <$> fs) i (elog f)) as [_ Hc]; [by rewrite list_lookup_fmap, Hf|].
    rewrite flog_elog, Hc, !fmap_app in Hs. apply sorted_app in Hs as (_ & Hs & _). apply sorted_app in Hs as (Hs & _ & _).
    unfold elog in Hs. by rewrite <- list_fmap_compose in Hs.
  - apply Forall_forall. intros x (e & -> & He)%list_elem_of_fmap. pose proof (ids_pos fs f e Hi Hf He). cbn. lia.
Qed.

(** The first ids of the files that have any increase. *)
Lemma nonempty_firsts_sorted fs : ids_ok fs -> sorted_ids (0 :: (file_first <$> nonempty fs)).
Proof.
  intros Hi. constructor.
  - pose proof (ids_sorted fs Hi) as Hs. rewrite flog_nonempty in Hs. pose proof (nonempty_ne fs) as Hne.
    induction (nonempty fs) as [|f l IH]; [constructor|]. rewrite fmap_cons in Hs, Hne. rewrite fmap_cons.
    constructor.
    + apply IH; [|by apply Forall_cons in Hne as [_ ?]]. cbn [concat] in Hs. rewrite fmap_app in Hs. by apply sorted_app in Hs as (_ & Hs & _).
    + apply Forall_fmap, Forall_forall. intros g [j Hg]%list_elem_of_lookup. unfold compose. rewrite <- (head_elog f), <- (head_elog g).
      destruct (head_elem (elog f)) as (e & He & Hid); [by apply Forall_cons in Hne as [? _]|]. rewrite <- Hid.
      apply (chunk_lt (elog f :: (elog <$> l)) Hne Hs 0 (S j) (elog f)); [lia|done| |done].
      change ((elog <$> l) !! j = Some (elog g)). by rewrite list_lookup_fmap, Hg.
  - apply Forall_fmap, Forall_forall. intros f Hf. apply list_elem_of_filter in Hf as [Hd Hf]. unfold compose.
    pose proof (file_first_pos fs f Hi Hf) as Hz. unfold file_first, first_id in *.
    destruct (decoded f.2) as [|e es] eqn:E; [done|]. pose proof (ids_pos fs f e Hi Hf) as Hp. rewrite E in Hp.
    specialize (Hp ltac:(by left)). lia.
Qed.

(** ** The invariant *)

Record lookup_ok (fs : files) (c : convLog) (cache : segmentCache) : Prop := LookupOK {
  lo_bounds : forall n b, cl_lookupBounds c !! n = Some b ->
    exists d, (n, d) ∈ fs /\ 0 <= lb_size b <= Z.of_nat (length d)
      /\ lb_firstID b = first_id (decoded (take (Z.to_nat (lb_size b)) d));
  lo_active : cl_loaded c = true -> cl_segBytes c < maxb ->
    forall b, cl_lookupBounds c !! cl_seg c = Some b -> lb_size b = cl_segBytes c;
  lo_wf : cache_wf cache;
  lo_cached : forall k e, sc_items cache !! k = Some e -> ck_convID k = convID ->
    exists d, (ck_segment k, d) ∈ fs /\ 0 <= ck_size k <= Z.of_nat (length d)
      /\ cs_entries e = decoded (take (Z.to_nat (ck_size k)) d);
}.

(** The exact bound of a file. *)
Definition exact (f : Z * bytes) (b : lookupBound) : Prop :=
  lb_size b = Z.of_nat (length f.2) /\ lb_firstID b = file_first f.

Definition refuses (v : lenv) : Prop :=
  exists n, le_lstat v n = false \/ le_prefix v n = false \/ e_readable (le_env v) n = false.

Lemma numbered_fst fs f g : numbered fs -> f ∈ fs -> g ∈ fs -> f.1 = g.1 -> f = g.
Proof.
  intros Hn Hf Hg He. pose proof (find_num _ _ Hn Hf) as H1. pose proof (find_num _ _ Hn Hg) as H2.
  rewrite He in H1. congruence.
Qed.

Lemma lookupSegmentBound_spec v fs f c c' r :
  numbered fs -> Forall file_ok fs -> ids_ok fs -> f ∈ fs ->
  (forall n b, cl_lookupBounds c !! n = Some b ->
    exists d, (n, d) ∈ fs /\ 0 <= lb_size b <= Z.of_nat (length d)
      /\ lb_firstID b = first_id (decoded (take (Z.to_nat (lb_size b)) d))) ->
  lookupSegmentBound dec header_ok v maxb (dir_of fs) (ref_of f) c = (c', r) ->
  (exists b, r = inl b /\ exact f b
     /\ (c' = c /\ cl_lookupBounds c !! f.1 = Some b \/ c' = set_bounds (<[f.1 := b]> (cl_lookupBounds c)) c))
  \/ (r = inr ErrIO /\ c' = c /\ refuses v).
Proof.
  intros Hn Hok Hi Hf Hb. unfold lookupSegmentBound. pose proof Hn as [_ Hr]. rewrite Forall_forall in Hok.
  cbn [ref_of sr_name sr_num]. rewrite dir_find_spec; [|done|rewrite Forall_forall in Hr; by apply Hr]. rewrite find_num by done.
  cbn [fmap option_fmap option_map dirent_of de_regular de_data negb].
  destruct (le_lstat v (segmentName f.1)) eqn:Hst; cbn [negb];
    [|intros [= <- <-]; right; repeat split; exists (segmentName f.1); by left].
  set (discover := if negb _ then _ else _).
  assert (discover = (c', r) -> (exists b, r = inl b /\ exact f b
     /\ (c' = c /\ cl_lookupBounds c !! f.1 = Some b \/ c' = set_bounds (<[f.1 := b]> (cl_lookupBounds c)) c))
    \/ (r = inr ErrIO /\ c' = c /\ refuses v)) as Hdisc.
  { subst discover. destruct (le_prefix v _) eqn:Hp; cbn [negb];
      [|intros [= <- <-]; right; repeat split; exists (segmentName f.1); by right; left].
    rewrite (segmentFirstID_spec dec header_ok maxb f.1); [|destruct f; by apply Hok|].
    - intros [= <- <-]. left. eexists. split; [reflexivity|]. split; [done|]. by right.
    - intros e He. pose proof (ids_pos fs f e Hi Hf He). lia. }
  destruct (cl_lookupBounds c !! f.1) as [b|] eqn:Hbf; [|exact Hdisc].
  destruct (negb (lb_size b =? Z.of_nat (length f.2)) || _) eqn:Hre; [exact Hdisc|].
  intros [= <- <-]. left. exists b. split; [done|]. split; [|by left].
  apply orb_false_iff in Hre as [Hsz _]. apply negb_false_iff, Z.eqb_eq in Hsz. split; [done|].
  destruct (Hb _ _ Hbf) as (d & Hd & _ & ->). pose proof (numbered_fst _ (f.1, d) f Hn Hd Hf eq_refl) as Heq.
  unfold file_first. rewrite <- Heq. cbn [snd]. rewrite take_ge; [done|]. rewrite Hsz, <- Heq. cbn [snd]. lia.
Qed.

Lemma lookup_ok_bound k fs c cache f b :
  store_ok dec header_ok maxb k fs c -> lookup_ok fs c cache -> f ∈ fs -> exact f b ->
  lookup_ok fs (set_bounds (<[f.1 := b]> (cl_lookupBounds c)) c) cache.
Proof.
  intros Hso [H1 H2 H3 H4] Hf [Hsz Hfi]. constructor; [| |done|done]; cbn [cl_lookupBounds set_bounds cl_loaded cl_segBytes cl_seg].
  - intros n b' [(<- & <-)|(_ & Hb')]%lookup_insert_Some; [|by apply H1]. exists f.2.
    split; [by destruct f|]. split; [lia|]. rewrite Hfi, take_ge by lia. done.
  - intros Hl Hlt b' [(Hs & <-)|(_ & Hb')]%lookup_insert_Some; [|by apply H2].
    destruct (so_cache _ _ _ _ _ _ Hso Hl) as (_ & _ & Ha). unfold active_ok in Ha.
    destruct (last fs) as [g|] eqn:Hg; [|apply last_None in Hg; subst fs; by apply elem_of_nil in Hf].
    destruct Ha as [Hseg Ha]. destruct (Ha Hlt) as [-> _].
    assert (g ∈ fs) as Hgf by (apply last_Some in Hg as [l ->]; set_solver).
    assert (f = g) as <- by (apply (numbered_fst fs); [apply Hso|done|done|congruence]). done.
Qed.

Lemma store_ok_bounds k fs c m : store_ok dec header_ok maxb k fs c -> store_ok dec header_ok maxb k fs (set_bounds m c).
Proof. intros [H1 H2 H3 H4 H5 H6]. by constructor. Qed.

Lemma set_bounds_id c : set_bounds (cl_lookupBounds c) c = c.
Proof. by destruct c. Qed.

Definition range_of (f : Z * bytes) : segmentRef * Z := (ref_of f, file_first f).

Lemma nonempty_cons f fs : nonempty (f :: fs) = if decide (decoded f.2 <> []) then f :: nonempty fs else nonempty fs.
Proof. unfold nonempty. by rewrite filter_cons. Qed.

(** Going over the segments brings every bound up to date. *)
Lemma bounds_loop_spec v k fs cache fs2 previous ranges c c' r :
  store_ok dec header_ok maxb k fs c -> lookup_ok fs c cache ->
  (forall f, f ∈ fs2 -> f ∈ fs) -> NoDup (fst <$> fs2) ->
  sorted_ids (previous :: (file_first <$> nonempty fs2)) ->
  bounds_loop dec header_ok v maxb (dir_of fs) (ref_of <$> fs2) previous ranges c = (c', r) ->
  exists m, c' = set_bounds m c /\ lookup_ok fs c' cache /\
    ((r = inl (ranges ++ (range_of <$> nonempty fs2)) /\ (forall f, f ∈ fs2 -> exists b, m !! f.1 = Some b /\ exact f b)
      /\ forall n, n ∉ fst <$> fs2 -> m !! n = cl_lookupBounds c !! n)
     \/ (r = inr ErrIO /\ refuses v)).
Proof.
  revert previous ranges c. induction fs2 as [|f fs2 IH]; intros previous ranges c Hso Hlo Hin Hnd Hs.
  { cbn. intros [= <- <-]. exists (cl_lookupBounds c). rewrite set_bounds_id. split; [done|]. split; [done|]. left.
    rewrite app_nil_r. split; [done|]. split; [|done]. intros f Hf. by apply elem_of_nil in Hf. }
  rewrite fmap_cons in Hnd. rewrite !fmap_cons. apply NoDup_cons in Hnd as [Hnf Hnd]. cbn [bounds_loop].
  assert (f ∈ fs) as Hf by (apply Hin; by left).
  destruct (lookupSegmentBound _ _ _ _ _ _ _) as [c1 r1] eqn:H1.
  destruct (lookupSegmentBound_spec v fs f c c1 r1) as [(b & -> & Hex & Hc1)|(-> & -> & Hv)];
    [apply Hso|apply Hso|apply Hso|done|apply Hlo|done| |].
  2: { intros [= <- <-]. exists (cl_lookupBounds c). rewrite set_bounds_id. split; [done|]. split; [done|]. by right. }
  assert (exists m1, c1 = set_bounds m1 c /\ m1 !! f.1 = Some b /\ (forall n, n <> f.1 -> m1 !! n = cl_lookupBounds c !! n)
    /\ lookup_ok fs c1 cache) as (m1 & -> & Hm1 & Hrest & Hlo1).
  { destruct Hc1 as [[-> Hb]| ->].
    - exists (cl_lookupBounds c). rewrite set_bounds_id. done.
    - eexists. split; [reflexivity|]. rewrite lookup_insert_eq. split; [done|].
      split; [intros n Hn; by rewrite lookup_insert_ne by done|]. by eapply lookup_ok_bound. }
  destruct Hex as [Hsz Hfi]. rewrite Hfi. rewrite nonempty_cons in Hs.
  assert (forall previous' ranges',
    sorted_ids (previous' :: (file_first <$> nonempty fs2)) ->
    ranges' ++ (range_of <$> nonempty fs2) = ranges ++ (range_of <$> nonempty (f :: fs2)) ->
    bounds_loop dec header_ok v maxb (dir_of fs) (ref_of <$> fs2) previous' ranges' (set_bounds m1 c) = (c', r) ->
    exists m, c' = set_bounds m c /\ lookup_ok fs c' cache /\
      ((r = inl (ranges ++ (range_of <$> nonempty (f :: fs2)))
        /\ (forall g, g ∈ f :: fs2 -> exists b, m !! g.1 = Some b /\ exact g b)
        /\ forall n, n ∉ f.1 :: (fst <$> fs2) -> m !! n = cl_lookupBounds c !! n)
       \/ (r = inr ErrIO /\ refuses v))) as Hgo.
  { intros previous' ranges' Hs' Heq Hloop.
    destruct (IH previous' ranges' (set_bounds m1 c)) as (m & -> & Hlo' & Hr);
      [by apply store_ok_bounds|done|intros g Hg; apply Hin; by right|done|done|done|].
    exists m. split; [done|]. split; [done|]. destruct Hr as [(-> & Hall & Hout)|Hr]; [left|by right].
    rewrite Heq. split; [done|]. split.
    - intros g [->|Hg]%elem_of_cons; [|by apply Hall]. exists b. rewrite Hout by done. done.
    - intros n [Hn Hn']%not_elem_of_cons. rewrite Hout by done. by apply Hrest. }
  pose proof (file_first_pos fs f) as Hz. destruct (Z.eqb_spec (file_first f) 0) as [He|He].
  - apply Hgo; rewrite nonempty_cons in *; destruct (decide (decoded f.2 <> [])) as [Hd|Hd]; try done;
      exfalso; apply Hd, Hz; try done; apply Hso.
  - destruct (decide (decoded f.2 <> [])) as [Hd|Hd]; [|destruct (decoded f.2) eqn:E; [by destruct He; apply Hz; [apply Hso|..]|by destruct Hd]].
    rewrite fmap_cons in Hs. apply StronglySorted_inv in Hs as [Hs Hp]. apply Forall_cons in Hp as [Hp _].
    rewrite (proj2 (Z.leb_gt _ _)) by done. apply Hgo; [done|].
    rewrite nonempty_cons, decide_True, fmap_cons, <- app_assoc by done. done.
Qed.

Lemma lookup_ok_prune fs c cache segs : lookup_ok fs c cache -> lookup_ok fs (prune segs c) cache.
Proof.
  intros [H1 H2 H3 H4]. constructor; [| |done|done]; cbn.
  - intros n b [Hb _]%map_lookup_filter_Some. by apply H1.
  - intros Hl Hlt b [Hb _]%map_lookup_filter_Some. by apply H2.
Qed.

(** ** Answering *)

Context (cost : list segEntry -> Z) (Hcost : forall es, 0 <= cost es).

Lemma nonempty_in fs i f : nonempty fs !! i = Some f -> f ∈ fs /\ decoded f.2 <> [].
Proof. intros Hf%list_elem_of_lookup_2. apply list_elem_of_filter in Hf as [? ?]. done. Qed.

(** The entries of a segment that has any: those on disk. *)
Lemma segment_entries_spec v k fs c cache i f rolled cache' r :
  store_ok dec header_ok maxb k fs c -> lookup_ok fs c cache -> nonempty fs !! i = Some f ->
  segment_entries dec header_ok cost v maxb convID (dir_of fs) rolled (ref_of f) (Z.of_nat (length f.2))
    (file_first <$> nonempty fs !! S i) cache = (cache', r) ->
  lookup_ok fs c cache' /\ (r = inl (decoded f.2) \/ (r = inr (Store_ ErrIO) /\ refuses v)).
Proof.
  intros Hso Hlo Hi. destruct (nonempty_in _ _ _ Hi) as [Hf Hd]. unfold segment_entries. cbn [ref_of sr_num sr_name].
  set (key := MkKey convID f.1 (Z.of_nat (length f.2))).
  destruct (if rolled then get key cache else (cache, None)) as [cache1 hit] eqn:Hget.
  assert (lookup_ok fs c cache1 /\ (forall es, hit = Some es -> es = decoded f.2)
    /\ (rolled = true -> hit = None -> sc_items cache1 !! key = None)) as (Hlo1 & Hhit & Hmiss).
  { destruct Hlo as [H1 H2 H3 H4]. destruct rolled; [|injection Hget as <- <-; split; [by constructor|done]].
    pose proof (get_wf key cache H3) as Hw. pose proof (get_items key cache) as Hit. rewrite Hget in Hw, Hit. cbn [fst] in *.
    split; [constructor; try done; rewrite Hit; exact H4|]. unfold get in Hget.
    destruct (sc_items cache !! key) as [e|] eqn:He; injection Hget as <- <-; [|done]. split; [|done]. intros es [= <-].
    destruct (H4 _ _ He eq_refl) as (d & Hdf & _ & ->). cbn [ck_size ck_segment key] in *.
    pose proof (numbered_fst _ (f.1, d) f (so_numbered _ _ _ _ _ _ Hso) Hdf Hf eq_refl) as Heq.
    rewrite <- Heq at 2. cbn [snd]. f_equal. apply take_ge. rewrite <- Heq. cbn [snd]. lia. }
  destruct hit as [es|]; [intros [= <- <-]; split; [done|left; by rewrite (Hhit es)]|].
  assert (file_ok f) as Hfok by (pose proof (so_files _ _ _ _ _ _ Hso) as H; rewrite Forall_forall in H; by apply H).
  rewrite read_file; [|apply Hso|done|done].
  destruct (e_readable _ _) eqn:Hrd; [|intros [= <- <-]; split; [done|right; split; [done|exists (segmentName f.1); by right; right]]].
  pose proof (file_sorted fs f (so_ids _ _ _ _ _ _ Hso) Hf) as Hsorted.
  assert (forall e n, e ∈ decoded f.2 -> file_first <$> nonempty fs !! S i = Some n -> ID (se_entry e) < n) as Hnext.
  { intros e n He (g & Hg & ->)%fmap_Some. rewrite <- head_elog.
    apply (chunk_lt (elog <$> nonempty fs)) with (i := i) (j := S i) (l := elog f); [apply nonempty_ne| |lia| | |].
    - rewrite <- flog_nonempty. apply ids_sorted, Hso.
    - by rewrite list_lookup_fmap, Hi.
    - by rewrite list_lookup_fmap, Hg.
    - by apply list_elem_of_fmap_2. }
  unfold HistoryAppend.decoded in Hsorted, Hnext |- *. destruct Hfok as [(es & complete & Hdec) _]. rewrite Hdec in *.
  rewrite (ordered_spec _ _ _ Hsorted Hnext), Z.eqb_refl, andb_true_r. cbn [negb].
  destruct rolled; [|intros [= <- <-]; split; [done|by left]].
  destruct (put_spec cost Hcost key es cache1 (lo_wf _ _ _ Hlo1) (Hmiss eq_refl eq_refl)) as (cache2 & Hput & Hw & Hit).
  rewrite Hput. intros [= <- <-]. split; [|by left]. destruct Hlo1 as [H1 H2 H3 H4]. constructor; try done.
  intros key' e' He' Hc. apply Hit in He' as [He'|[-> He']]; [by apply H4|]. exists f.2. cbn [ck_segment ck_size key].
  split; [by destruct f|]. split; [lia|]. rewrite He', take_ge by lia. unfold HistoryAppend.decoded. by rewrite Hdec.
Qed.

(** The bisection over the first ids finds where an id can be. *)
Lemma locate fs id :
  ids_ok fs ->
  let ranges := range_of <$> nonempty fs in
  let i := Search (length ranges) (fun i => match ranges !! i with Some r => id <? r.2 | None => true end) in
  match i with
  | O => by_id id (flog fs) = None
  | S i' => exists f, nonempty fs !! i' = Some f /\ file_first f <= id
      /\ (forall n, file_first <$> nonempty fs !! i = Some n -> id < n)
      /\ forall x, id <= x -> (forall n, file_first <$> nonempty fs !! i = Some n -> x < n) ->
           by_id x (flog fs) = by_id x (elog f)
  end.
Proof.
  intros Hi. cbn zeta. set (ranges := range_of <$> nonempty fs). set (p := fun i => _).
  pose proof (nonempty_ne fs) as Hne. pose proof (ids_sorted fs Hi) as Hs. rewrite flog_nonempty in Hs |- *.
  assert (forall i f, nonempty fs !! i = Some f -> (elog <$> nonempty fs) !! i = Some (elog f)) as Hel
    by (intros i f Hf; by rewrite list_lookup_fmap, Hf).
  assert (forall i f, nonempty fs !! i = Some f -> p i = (id <? file_first f)) as Hp
    by (intros i f Hf; subst p ranges; cbn beta; by rewrite list_lookup_fmap, Hf).
  assert (length ranges = length (nonempty fs)) as Hlen by apply length_fmap.
  assert (monotone_upto (length ranges) p) as Hm.
  { intros a b Hab. destruct (lookup_lt_is_Some_2 (nonempty fs) a) as [fa Ha]; [lia|].
    destruct (lookup_lt_is_Some_2 (nonempty fs) b) as [fb Hb]; [lia|]. rewrite (Hp _ _ Ha), (Hp _ _ Hb).
    pose proof (heads_mono _ Hne Hs a b _ _ ltac:(lia) (Hel _ _ Ha) (Hel _ _ Hb)) as Hle. rewrite !head_elog in Hle. lia. }
  destruct (Search_spec _ p Hm) as (Hle & Hlo & Hhi). destruct (Search (length ranges) p) as [|i'] eqn:HS.
  - apply by_id_before; [done|done|]. intros l Hl. rewrite list_lookup_fmap in Hl.
    destruct (nonempty fs !! 0%nat) as [f|] eqn:Hf; [|done]. injection Hl as <-. rewrite head_elog.
    specialize (Hhi 0%nat). rewrite (Hp _ _ Hf) in Hhi. apply lookup_lt_Some in Hf. specialize (Hhi ltac:(lia)). lia.
  - destruct (lookup_lt_is_Some_2 (nonempty fs) i') as [f Hf]; [lia|]. exists f. split; [done|].
    specialize (Hlo i' ltac:(lia)). rewrite (Hp _ _ Hf) in Hlo. split; [lia|]. split.
    { intros n (g & Hg & ->)%fmap_Some. specialize (Hhi (S i')). rewrite (Hp _ _ Hg) in Hhi.
      apply lookup_lt_Some in Hg. specialize (Hhi ltac:(lia)). lia. }
    intros x Hx Hn.
    apply (by_id_chunk _ Hne Hs i'); [by apply Hel|rewrite head_elog; lia|]. intros l Hl. rewrite list_lookup_fmap in Hl.
    destruct (nonempty fs !! S i') as [g|] eqn:Hg; [|done]. injection Hl as <-. rewrite head_elog. by apply Hn.
Qed.

Definition found (fs : files) (ids : list Z) : list Entry := omap (fun id => by_id id (flog fs)) ids.
Definition absent_ids (fs : files) (ids : list Z) : list Z := filter (fun id => by_id id (flog fs) = None) ids.

Lemma found_app fs l1 l2 : found fs (l1 ++ l2) = found fs l1 ++ found fs l2.
Proof. apply omap_app. Qed.
Lemma absent_app fs l1 l2 : absent_ids fs (l1 ++ l2) = absent_ids fs l1 ++ absent_ids fs l2.
Proof. apply filter_app. Qed.

Lemma found_group fs es ids :
  (forall x, x ∈ ids -> pick es x = by_id x (flog fs)) ->
  omap (pick es) ids = found fs ids /\ filter (fun x => pick es x = None) ids = absent_ids fs ids.
Proof.
  unfold found, absent_ids. induction ids as [|x ids IH]; intros H; [done|].
  destruct IH as [IH1 IH2]; [intros y Hy; apply H; by right|]. specialize (H x ltac:(by left)).
  cbn [omap list_omap]. rewrite !filter_cons, H, IH1, IH2. done.
Qed.

Lemma by_id_zero fs id : ids_ok fs -> id < 1 -> by_id id (flog fs) = None.
Proof.
  intros Hi Hid. apply by_id_None. intros e He. apply (list_elem_of_fmap_2 ID) in He. rewrite Hi in He.
  apply elem_of_seqZ in He. lia.
Qed.

Lemma answer_loop_spec fuel v k fs c cache ids lastSeg sizes out missing cache' r :
  store_ok dec header_ok maxb k fs c -> lookup_ok fs c cache ->
  (forall f, f ∈ fs -> exists b, sizes !! f.1 = Some b /\ exact f b) -> sorted_ids ids -> (length ids <= fuel)%nat ->
  answer_loop dec header_ok cost fuel v maxb convID (dir_of fs) lastSeg sizes (range_of <$> nonempty fs) ids
    out missing cache = (cache', r) ->
  lookup_ok fs c cache' /\
  (r = inl (out ++ found fs ids, missing ++ absent_ids fs ids) \/ (r = inr (Store_ ErrIO) /\ refuses v)).
Proof.
  intros Hso. pose proof (so_ids _ _ _ _ _ _ Hso) as Hids. fold (ids_ok fs) in Hids. intros Hlo Hsz.
  revert ids out missing cache Hlo. induction fuel as [|fuel IH]; intros ids out missing cache Hlo Hs Hf.
  { destruct ids; [|cbn in Hf; lia]. cbn. intros [= <- <-]. unfold found, absent_ids. cbn. rewrite !app_nil_r. auto. }
  destruct ids as [|id rest]; [cbn; intros [= <- <-]; unfold found, absent_ids; cbn; rewrite !app_nil_r; auto|].
  cbn [answer_loop length] in *. apply StronglySorted_inv in Hs as [Hs Hid].
  assert (by_id id (flog fs) = None ->
    answer_loop dec header_ok cost fuel v maxb convID (dir_of fs) lastSeg sizes (range_of <$> nonempty fs) rest
      out (missing ++ [id]) cache = (cache', r) ->
    lookup_ok fs c cache' /\ (r = inl (out ++ found fs (id :: rest), missing ++ absent_ids fs (id :: rest))
      \/ (r = inr (Store_ ErrIO) /\ refuses v))) as Hmiss.
  { intros Hno Hloop. destruct (IH rest out (missing ++ [id]) cache Hlo Hs ltac:(lia) Hloop) as [Hlo' Hr].
    split; [done|]. destruct Hr as [-> |Hr]; [left|by right]. unfold found, absent_ids. cbn [omap list_omap].
    rewrite filter_cons_True, Hno by done. by rewrite <- app_assoc. }
  pose proof (locate fs id Hids) as Hloc. cbn zeta in Hloc. destruct (Search _ _) as [|i']; [by apply Hmiss|].
  destruct Hloc as (f & Hfi & Hle & Hnx & Hin). destruct (Z.eqb_spec id 0) as [Hz|Hz]; [apply Hmiss; by apply by_id_zero; [|lia]|].
  rewrite list_lookup_fmap, Hfi. cbn [fmap option_fmap option_map range_of].
  rewrite list_lookup_fmap. rewrite <- option_fmap_compose. change (snd ∘ range_of) with file_first.
  destruct (group _ rest) as [g rest'] eqn:Hg. destruct (group_spec _ _ _ _ Hg) as [-> Hgn].
  destruct (nonempty_in _ _ _ Hfi) as [Hff _]. destruct (Hsz f Hff) as (b & Hb & Hbs & _).
  cbn [ref_of sr_num]. rewrite Hb. cbn [from_option]. rewrite Hbs.
  destruct (segment_entries _ _ _ _ _ _ _ _ _ _ _ _) as [cache1 r1] eqn:Hse.
  destruct (segment_entries_spec _ _ _ _ _ _ _ _ _ _ Hso Hlo Hfi Hse) as [Hlo1 [-> |[-> Hv]]];
    [|intros [= <- <-]; split; [done|by right]].
  assert (forall x, x ∈ id :: g -> pick (decoded f.2) x = by_id x (flog fs)) as Hpick.
  { intros x Hx. pose proof (file_sorted fs f Hids Hff) as Hfs. apply StronglySorted_inv in Hfs as [Hfs _].
    rewrite (pick_spec _ _ Hfs). fold (elog f). symmetry. rewrite Forall_forall in Hid.
    apply elem_of_cons in Hx as [->|Hx]; apply Hin; [lia|done| |].
    - specialize (Hid x ltac:(apply elem_of_app; by left)). lia.
    - intros n Hn. by eapply Hgn. }
  destruct (found_group fs _ _ Hpick) as [-> ->]. intros Hloop. apply sorted_app in Hs as (_ & Hs & _).
  destruct (IH rest' _ _ cache1 Hlo1 Hs ltac:(rewrite length_app in Hf; lia) Hloop) as [Hlo' Hr].
  split; [done|]. change (id :: g ++ rest') with ((id :: g) ++ rest'). rewrite found_app, absent_app, !app_assoc. exact Hr.
Qed.
End store.
End HistoryLookupInv.
