(* ===== verification/HistoryLookupProps.v ===== *)
(** * The conversation log: lookups, the properties *)
From Stdlib Require Import Ascii String ZArith Lia.
From stdpp Require Import prelude gmap strings list sorting.
From S2P Require Import Prelude Utf8 Strconv Conversations History HistoryProps HistoryAppend HistoryRead HistoryLookup.
From S2P Require Import HistoryLookupInv.

Module HistoryLookupProps.
Import Utf8 Strconv History HistoryProps HistoryAppend HistoryRead HistoryLookup HistoryLookupInv.

Local Open Scope Z_scope.
Local Open Scope pyry_scope.

Section store.
Context (enc : Entry -> option bytes) (dec : bytes -> option Entry).
Context (json_valid : bytes -> bool) (header_ok : bytes -> bool) (canon : Entry -> Entry).
Context (maxb : Z) (convID : string).
Context (cost : list segEntry -> Z) (Hcost : forall es, 0 <= cost es).
Context (Henc : forall e l, enc e = Some l -> (newline ∉ l) /\ dec l = Some (canon e)).
Context (Hcanon : forall e, ID (canon e) = ID e /\ displayableEntry (canon e) = displayableEntry e).
Context (Hheader : header_ok header = true).
#[local] Abbreviation decoded := (decoded dec header_ok).
#[local] Abbreviation file_ok := (file_ok dec header_ok maxb).
#[local] Abbreviation store_ok := (store_ok dec header_ok maxb).
#[local] Abbreviation lookup_ok := (lookup_ok dec header_ok maxb convID).
#[local] Abbreviation file_first := (file_first dec header_ok).

(** The part of the invariant about recorded bounds. *)
Definition bounds_ok (fs : files) (m : gmap Z lookupBound) : Prop :=
  forall n b, m !! n = Some b ->
    exists d, (n, d) ∈ fs /\ 0 <= lb_size b <= Z.of_nat (length d)
      /\ lb_firstID b = first_id (decoded (take (Z.to_nat (lb_size b)) d)).

Definition fresh_active (c : convLog) : Prop :=
  cl_segBytes c < maxb -> forall b, cl_lookupBounds c !! cl_seg c = Some b -> lb_size b = cl_segBytes c.

Definition cached_ok (fs : files) (cache : segmentCache) : Prop :=
  forall k e, sc_items cache !! k = Some e -> ck_convID k = convID ->
    exists d, (ck_segment k, d) ∈ fs /\ 0 <= ck_size k <= Z.of_nat (length d)
      /\ cs_entries e = decoded (take (Z.to_nat (ck_size k)) d).

Lemma lookup_ok_parts fs c cache :
  lookup_ok fs c cache <->
  bounds_ok fs (cl_lookupBounds c) /\ (cl_loaded c = true -> fresh_active c) /\ cache_wf cache /\ cached_ok fs cache.
Proof. split; [intros [H1 H2 H3 H4]; done|intros (H1 & H2 & H3 & H4); by constructor]. Qed.

Lemma bounds_ok_insert fs m f first :
  f ∈ fs -> first = file_first f -> bounds_ok fs m ->
  bounds_ok fs (<[f.1 := LookupBound first (Z.of_nat (length f.2)) false]> m).
Proof.
  intros Hf -> Hm n b [(<- & <-)|(_ & Hb)]%lookup_insert_Some; [|by apply Hm]. exists f.2. cbn.
  split; [by destruct f|]. split; [lia|]. by rewrite take_ge by lia.
Qed.

(** Files that only grow. *)
Definition grows (fs fs' : files) : Prop := forall n d, (n, d) ∈ fs -> exists x, (n, d ++ x) ∈ fs'.

Lemma bounds_grow fs fs' m : grows fs fs' -> bounds_ok fs m -> bounds_ok fs' m.
Proof.
  intros Hg Hm n b Hb. destruct (Hm n b Hb) as (d & Hd & Hsz & ->). destruct (Hg n d Hd) as [x Hx].
  exists (d ++ x). split; [done|]. rewrite length_app, take_app_le by lia. split; [lia|done].
Qed.

Lemma cached_grow fs fs' cache : grows fs fs' -> cached_ok fs cache -> cached_ok fs' cache.
Proof.
  intros Hg Hm k e Hk Hc. destruct (Hm k e Hk Hc) as (d & Hd & Hsz & ->). destruct (Hg _ _ Hd) as [x Hx].
  exists (d ++ x). split; [done|]. rewrite length_app, take_app_le by lia. split; [lia|done].
Qed.

Lemma target_grows fresh fs fs0 n d buf l x :
  target dec header_ok fresh fs fs0 n d buf l -> grows fs (fs0 ++ [(n, d ++ x)]).
Proof.
  intros Ht n' d' Hin. destruct fresh; destruct Ht as (-> & _).
  - exists []. rewrite app_nil_r. apply elem_of_app. by left.
  - apply elem_of_app in Hin as [Hin|Hin]; [exists []; rewrite app_nil_r; apply elem_of_app; by left|].
    apply list_elem_of_singleton in Hin as [= -> ->]. exists x. apply elem_of_app. right. by left.
Qed.

(** ** Loading *)

Lemma load_loop_bounds v fs0 fs (top : bool) c c' r :
  numbered fs0 -> Forall file_ok fs0 -> fs `prefix_of` fs0 -> bounds_ok fs0 (cl_lookupBounds c) ->
  (if top then fs = [] -> fresh_active c
   else fresh_active c /\ Forall (fun f => f.1 < cl_seg c) fs) ->
  load_loop dec header_ok v maxb (dir_of fs0) (ref_of <$> reverse fs) top c = (c', r) ->
  bounds_ok fs0 (cl_lookupBounds c') /\ (r = inl () -> fresh_active c').
Proof.
  intros Hn Hok. revert top c. induction fs as [|f fs IH] using rev_ind; intros top c Hpre Hb Ha.
  { cbn. intros [= <- <-]. split; [done|]. intros _. destruct top; [by apply Ha|apply Ha]. }
  assert (f ∈ fs0) as Hf by (destruct Hpre as [x ->]; set_solver).
  assert (fs `prefix_of` fs0) as Hpre' by (by etrans; [by apply prefix_app_r|]).
  assert (Forall (fun g => g.1 < f.1) fs) as Hlt.
  { destruct Hpre as [x Heq]. destruct f as [n d]. apply (numbered_last fs n d).
    destruct Hn as [Hs Hr]. rewrite Heq, !fmap_app in Hs. rewrite Heq in Hr. apply Forall_app in Hr as [Hr _].
    apply sorted_app in Hs as (Hs & _ & _). rewrite <- fmap_app in Hs. done. }
  rewrite reverse_snoc, fmap_cons. cbn [load_loop]. cbn [ref_of sr_name sr_num].
  assert (file_ok f) as Hfok by (rewrite Forall_forall in Hok; by apply Hok).
  rewrite read_file by done. destruct (e_readable _ _).
  2: { intros [= <- <-]. done. }
  pose proof Hfok as [(es & complete & Hdec) _]. rewrite Hdec. cbv zeta.
  set (first := match head es with Some e => _ | None => _ end).
  assert (first = file_first f) as Hfirst.
  { unfold HistoryLookupInv.file_first, HistoryAppend.decoded. rewrite Hdec. subst first. by destruct es. }
  set (c1 := if top then _ else _).
  assert (bounds_ok fs0 (cl_lookupBounds c1)) as Hb1
    by (subst c1; destruct top; cbn; by apply bounds_ok_insert).
  assert (fresh_active c1 /\ Forall (fun g => g.1 < cl_seg c1) fs) as [Hf1 Hl1].
  { subst c1. destruct top; cbn.
    - split; [|done]. intros Hlt' b Hb'. cbn in *. rewrite lookup_insert_eq in Hb'. injection Hb' as <-.
      destruct complete; [done|lia].
    - destruct Ha as [Ha Hall]. apply Forall_app in Hall as [Hall Hfl]. apply Forall_cons in Hfl as [Hfl _].
      split; [|done]. intros Hlt' b Hb'. cbn in *. rewrite lookup_insert_ne in Hb' by lia. by apply Ha. }
  destruct (last es).
  - intros [= <- <-]. split; [done|]. intros _. done.
  - by apply IH.
Qed.

Lemma load_bounds v k fs c c' r :
  store_ok k fs c -> bounds_ok fs (cl_lookupBounds c) -> (cl_loaded c = true -> fresh_active c) ->
  load dec header_ok v maxb (dir_of fs) c = (c', r) ->
  bounds_ok fs (cl_lookupBounds c') /\ (cl_loaded c' = true -> fresh_active c').
Proof.
  intros Hs Hb Ha. unfold load. destruct (cl_loaded c) eqn:Hl.
  { intros [= <- <-]. by rewrite Hl. }
  destruct (e_list v); [|intros [= <- <-]; cbn; by rewrite Hl]. cbn [negb].
  rewrite listSegments_dir_of, <- fmap_reverse by apply Hs. cbv zeta. set (c1 := set_lastID 0 _).
  assert (cl_loaded c1 = false /\ cl_lookupBounds c1 = cl_lookupBounds c) as [Hl1 Hb1] by (subst c1; by destruct (cl_syncDone _)).
  destruct (load_loop _ _ _ _ _ _ _ _) as [c2 r2] eqn:Hloop.
  pose proof (load_loop_loaded dec header_ok maxb v (dir_of fs) (ref_of <$> reverse fs) true c1) as Hll.
  rewrite Hloop in Hll. cbn [fst] in Hll.
  destruct (load_loop_bounds v fs fs true c1 c2 r2) as [Hb2 Ha2]; [apply Hs|apply Hs|done|by rewrite Hb1| |done|].
  { intros -> _ b Hb'. rewrite Hb1 in Hb'. destruct (Hb _ _ Hb') as (d & Hd & _). by apply elem_of_nil in Hd. }
  destruct r2 as [[]|err]; intros [= <- <-]; cbn.
  - split; [done|]. intros _. by apply Ha2.
  - split; [done|]. rewrite Hll, Hl1. done.
Qed.

(** ** Appending *)

Lemma ids_file_first k fs c f : store_ok k fs c -> f ∈ fs -> file_first f = 0 <-> decoded f.2 = [].
Proof. intros Hs. apply file_first_pos, Hs. Qed.

(** The recorded bound after an append is that of the grown file. *)
Lemma appended_bounds k fresh fs fs0 n d buf l e c :
  store_ok k fs c -> bounds_ok fs (cl_lookupBounds c) -> fresh_active c ->
  target dec header_ok fresh fs fs0 n d buf l -> numbered (fs0 ++ [(n, d)]) -> enc e = Some l ->
  (n = cl_seg c -> cl_segBytes c < maxb) ->
  (if fresh then n <> cl_seg c else n = cl_seg c /\ cl_segBytes c = Z.of_nat (length d)) ->
  let c' := appended c e n (Z.of_nat (length buf)) in
  bounds_ok (fs0 ++ [(n, d ++ buf)]) (cl_lookupBounds c') /\ fresh_active c'.
Proof.
  intros Hs Hb Ha Ht Hn He Hact Hseg. cbn zeta.
  destruct (decode_grow enc dec header_ok canon Henc Hheader _ _ _ _ _ _ _ _ (length buf) Ht He) as (extra & complete & Hdec & Hex & Hfull).
  destruct (Hfull (le_n _)) as [_ Hne]. rewrite firstn_all in Hdec. destruct Hex as [?|[off Hex]]; [done|].
  set (F := (n, d ++ buf)). assert (F ∈ fs0 ++ [F]) as HF by (apply elem_of_app; right; by left).
  assert (file_first F = match decoded d with [] => ID e | x :: _ => ID (se_entry x) end) as Hfirst.
  { unfold HistoryLookupInv.file_first, F. cbn [snd]. unfold HistoryAppend.decoded at 1. rewrite Hdec, Hex.
    destruct (decoded d); [|done]. cbn. apply Hcanon. }
  assert (bounds_ok (fs0 ++ [F]) (cl_lookupBounds c)) as Hb' by (eapply bounds_grow; [by eapply target_grows|done]).
  destruct fresh.
  - destruct Ht as (-> & -> & ->). unfold appended. rewrite (proj2 (Z.eqb_neq _ _) Hseg). cbn [negb].
    assert (length F.2 = length (segmentHeaderLine ++ l ++ [newline])) as HL by done.
    split; [|intros _ b Hbb; cbn in Hbb; rewrite lookup_insert_eq in Hbb; by injection Hbb as <-].
    cbn [cl_lookupBounds set_active rememberLookupBound].
    pose proof (bounds_ok_insert _ (cl_lookupBounds c) F (ID e) HF ltac:(by rewrite Hfirst) Hb') as Hins.
    destruct (displayableEntry e); exact Hins.
  - destruct Hseg as [-> Hsz]. specialize (Hact eq_refl). unfold appended. rewrite Z.eqb_refl. cbn [negb].
    destruct (cl_lookupBounds c !! cl_seg c) as [b|] eqn:Hbs.
    + pose proof (Ha Hact b Hbs) as Hlb. destruct (Hb _ _ Hbs) as (d0 & Hd0 & _ & Hf0).
      assert (file_first (cl_seg c, d) = lb_firstID b /\ (cl_seg c, d) ∈ fs) as [Hfb Hin].
      { destruct Ht as (-> & _). assert ((cl_seg c, d) ∈ fs0 ++ [(cl_seg c, d)]) as Hin by (apply elem_of_app; right; by left).
        pose proof (numbered_fst _ _ _ Hn Hd0 Hin eq_refl) as [= ->].
        split; [|done]. rewrite Hf0, Hlb, Hsz, take_ge by lia. done. }
      assert ((if lb_firstID b =? 0 then ID e else lb_firstID b) = file_first F) as Hnew.
      { rewrite Hfirst, <- Hfb. pose proof (ids_file_first k fs c (cl_seg c, d) Hs Hin) as Hz. cbn [snd] in Hz.
        unfold HistoryLookupInv.file_first, first_id in Hz |- *. cbn [snd] in Hz |- *. destruct (decoded d) as [|x xs]; [done|].
        destruct (Z.eqb_spec (ID (se_entry x)) 0); [|done]. by apply Hz in e0. }
      assert (cl_segBytes c + Z.of_nat (length buf) = Z.of_nat (length F.2)) as Hlen
        by (cbn; rewrite length_app; lia).
      split; [|intros _ b' Hbb; destruct (displayableEntry e); cbn in Hbb; rewrite lookup_insert_eq in Hbb; by injection Hbb as <-].
      pose proof (bounds_ok_insert _ (cl_lookupBounds c) F _ HF Hnew Hb') as Hins. rewrite <- Hlen in Hins.
      destruct (displayableEntry e); exact Hins.
    + split; [by destruct (displayableEntry e)|]. intros _ b' Hbb. destruct (displayableEntry e); cbn in Hbb; congruence.
Qed.

Lemma lookup_ok_load v k fs c cache c' r :
  store_ok k fs c -> lookup_ok fs c cache -> load dec header_ok v maxb (dir_of fs) c = (c', r) -> lookup_ok fs c' cache.
Proof.
  intros Hs (H1 & H2 & H3 & H4)%lookup_ok_parts Hl. apply lookup_ok_parts. destruct (load_bounds _ _ _ _ _ _ Hs H1 H2 Hl). done.
Qed.

Lemma lookup_ok_case v k fs typ payload ts session shown c cache fs' c' r :
  store_ok k fs c -> lookup_ok fs c cache ->
  append_case enc dec header_ok maxb v k fs typ payload ts session shown c fs' c' r -> lookup_ok fs' c' cache.
Proof.
  intros Hs Hok Hcase. pose proof Hok as (H1 & H2 & H3 & H4)%lookup_ok_parts.
  destruct Hcase as [err|err|fresh fs0 n d buf l e j err Hw _ _|fresh fs0 n d buf l e Hw Hld _]; [done| | |];
    apply lookup_ok_parts; [done| |].
  - pose proof (target_grows _ _ _ _ _ _ _ (take j buf) (wr_target _ _ _ _ _ _ _ _ _ _ _ _ _ _ Hw)) as Hg.
    split; [by eapply bounds_grow|]. split; [done|]. split; [done|by eapply cached_grow].
  - pose proof (target_grows _ _ _ _ _ _ _ buf (wr_target _ _ _ _ _ _ _ _ _ _ _ _ _ _ Hw)) as Hg.
    destruct Hw as [Ht Hn _ He _ _ Hact Hseg].
    destruct (appended_bounds k fresh fs fs0 n d buf l e c Hs H1 (H2 Hld) Ht Hn He Hact Hseg) as [Hb Ha].
    split; [done|]. split; [done|]. split; [done|by eapply cached_grow].
Qed.

(** ** One lookup *)

(** The answer from the log. *)
Definition lookup_answer (log : list Entry) (ids : list Z) : lresult (list Entry) :=
  match filter (fun id => by_id id log = None) ids with
  | [] => inl (omap (fun id => by_id id log) ids)
  | missing => inr (MissingEntriesError missing)
  end.

Lemma filter_all {A} (P : A -> Prop) `{!forall x, Decision (P x)} (l : list A) : (forall x, P x) -> filter P l = l.
Proof. intros HP. induction l as [|x l IH]; [done|]. by rewrite filter_cons_True, IH. Qed.

Lemma lookup_empty_log ids :
  lookup_answer [] ids = match ids with [] => inl [] | _ => inr (MissingEntriesError ids) end.
Proof. unfold lookup_answer. rewrite filter_all by done. by destruct ids. Qed.

Definition failed (v : lenv) (err : historyError) : Prop :=
  e_resolve (le_env v) = Some err \/ (err = ErrIO /\ (e_list (le_env v) = false \/ refuses v)).

#[local] Abbreviation flog := (flog dec header_ok).

Lemma lookup_step v k fs dir c cache ids c' cache' r :
  store_ok k fs c -> lookup_ok fs c cache -> default [] dir = dir_of fs ->
  Lookup dec header_ok cost v maxb convID ids dir c cache = (c', cache', r) ->
  store_ok k fs c' /\ lookup_ok fs c' cache' /\
  (Conversations.ValidID convID = true -> ascending ids = false -> r = inr ErrInvalidEntryIDs) /\
  (Conversations.ValidID convID = true -> ascending ids = true ->
      r = lookup_answer (flog fs) ids \/ exists err, r = inr (Store_ err) /\ failed v err).
Proof.
  intros Hs Hl Hdir. unfold Lookup. destruct (Conversations.ValidID convID) eqn:Hid; cbn [negb]; [|intros [= <- <- <-]; done].
  destruct (ascending ids) eqn:Hasc; cbn [negb]; [|intros [= <- <- <-]; done].
  assert (forall l, lookup_answer l [] = inl []) as Hnil by done.
  destruct (e_resolve (le_env v)) as [err|] eqn:Hres.
  { intros [= <- <- <-]. split; [done|]. split; [done|]. split; [done|]. right. exists err. split; [done|]. by left. }
  destruct dir as [d|]; cbn [default] in Hdir.
  2: { intros [= <- <- <-]. split; [done|]. split; [done|]. split; [done|]. left.
       assert (fs = []) as -> by (by destruct fs). destruct ids as [|id ids]; [done|].
       symmetry. apply (lookup_empty_log (id :: ids)). }
  destruct (e_list (le_env v)) eqn:Hlist; cbn [negb].
  2: { intros [= <- <- <-]. split; [done|]. split; [done|]. split; [done|]. right. exists ErrIO. split; [done|]. right. by split; [|left]. }
  destruct ids as [|id ids]; [intros [= <- <- <-]; split; [done|]; split; [done|]; split; [done|by left]|].
  assert (d = dir_of fs) as -> by exact Hdir. rewrite listSegments_dir_of by apply Hs.
  destruct (bounds_loop _ _ _ _ _ _ _ _ _) as [c1 r1] eqn:Hloop.
  destruct (bounds_loop_spec dec header_ok maxb convID v k fs cache fs 0 [] c c1 r1) as (m & -> & Hl1 & Hr1);
    [done|done|done| | |done|].
  { destruct (so_numbered _ _ _ _ _ _ Hs) as [Hsort _]. clear -Hsort.
    induction (fst <$> fs) as [|x l IH]; [constructor|]. apply StronglySorted_inv in Hsort as [Hsort Hx]. constructor; [|by apply IH].
    intros Hin. rewrite Forall_forall in Hx. specialize (Hx _ Hin). lia. }
  { apply nonempty_firsts_sorted, Hs. }
  pose proof (store_ok_bounds dec header_ok maxb k fs c m Hs) as Hs1.
  destruct Hr1 as [(-> & Hall & _)|(-> & Hv)].
  2: { intros [= <- <- <-]. split; [done|]. split; [done|]. split; [done|]. right. exists ErrIO. split; [done|]. right. by split; [|right]. }
  cbn [app]. set (c2 := prune _ _).
  pose proof (lookup_ok_prune dec header_ok maxb convID fs _ cache (ref_of <$> fs) Hl1) as Hl2. fold c2 in Hl2.
  assert (store_ok k fs c2) as Hs2 by (by apply store_ok_bounds).
  assert (forall f, f ∈ fs -> exists b, cl_lookupBounds c2 !! f.1 = Some b /\ exact dec header_ok f b) as Hsz.
  { intros f Hf. destruct (Hall f Hf) as (b & Hb & Hex). exists b. split; [|done]. subst c2. cbn.
    apply map_lookup_filter_Some. split; [done|]. cbn. apply list_elem_of_fmap. exists (ref_of f).
    split; [done|]. by apply list_elem_of_fmap_2. }
  destruct (answer_loop _ _ _ _ _ _ _ _ _ _ _ _ _ _) as [cache2 r2] eqn:Hans.
  destruct (answer_loop_spec dec header_ok maxb convID cost Hcost _ v k fs c2 cache (id :: ids) _ _ [] [] cache2 r2
    Hs2 Hl2 Hsz (ascending_sorted _ Hasc) (le_n _) Hans) as [Hl3 Hr2].
  destruct Hr2 as [-> |[-> Hv]].
  - cbn [app]. unfold lookup_answer. fold (absent_ids dec header_ok fs (id :: ids)). fold (found dec header_ok fs (id :: ids)).
    destruct (absent_ids dec header_ok fs (id :: ids)); intros [= <- <- <-]; (split; [done|]; split; [done|]; split; [done|by left]).
  - intros [= <- <- <-]. split; [done|]. split; [done|]. split; [done|]. right. exists ErrIO. split; [done|]. right. by split; [|right].
Qed.

(** ** Histories of calls *)

(** The store's calls and lookups; a restart also forgets the cached segments. *)
Inductive rop := RStore (o : op) | RLookup (v : lenv) (ids : list Z).

Abbreviation rstate := (option (list dirent) * convLog * segmentCache)%type.

Definition empty_cache (limit : Z) : segmentCache := MkCache limit 0 [] ∅.

Definition rstep (o : rop) (st : rstate) : rstate :=
  let '(dir, c, cache) := st in
  match o with
  | RStore OpRestart => (dir, new_convLog, empty_cache (sc_limit cache))
  | RStore o => let '((dir, c), _) := step enc dec json_valid header_ok maxb convID o (dir, c) in (dir, c, cache)
  | RLookup v ids => let '(c, cache, _) := Lookup dec header_ok cost v maxb convID ids dir c cache in (dir, c, cache)
  end.

Definition rrun (os : list rop) (st : rstate) : rstate := foldl (fun st o => rstep o st) st os.

Lemma lookup_ok_displayable fs c cache n b : lookup_ok fs c cache -> lookup_ok fs (set_displayable n b c) cache.
Proof. intros [H1 H2 H3 H4]. by constructor. Qed.

Lemma latest_lookup_ok v k fs c dir cache c' r :
  store_ok k fs c -> lookup_ok fs c cache -> default [] dir = dir_of fs ->
  LatestEntryID dec header_ok v maxb convID dir c = (c', r) -> lookup_ok fs c' cache.
Proof.
  intros Hs Hl Hdir. unfold LatestEntryID. destruct (negb _); [by intros [= <- <-]|]. destruct (e_resolve v); [by intros [= <- <-]|].
  destruct dir as [d|]; [|by intros [= <- <-]]. assert (d = dir_of fs) as -> by exact Hdir.
  destruct (load _ _ _ _ _ _) as [c1 r1] eqn:Hload. pose proof (lookup_ok_load _ _ _ _ _ _ _ Hs Hl Hload).
  destruct r1; by intros [= <- <-].
Qed.

Lemma displayable_lookup_ok v k fs c dir cache c' r :
  store_ok k fs c -> lookup_ok fs c cache -> default [] dir = dir_of fs ->
  LatestDisplayableEntryID dec header_ok v maxb convID dir c = (c', r) -> lookup_ok fs c' cache.
Proof.
  intros Hs Hl Hdir. unfold LatestDisplayableEntryID. destruct (negb _); [by intros [= <- <-]|].
  destruct (e_resolve v); [by intros [= <- <-]|]. destruct dir as [d|]; [|by intros [= <- <-]].
  assert (d = dir_of fs) as -> by exact Hdir. destruct (load _ _ _ _ _ _) as [c1 r1] eqn:Hload.
  pose proof (lookup_ok_load _ _ _ _ _ _ _ Hs Hl Hload).
  destruct r1 as [[]|]; [|by intros [= <- <-]]. destruct (cl_displayableLoaded c1); [by intros [= <- <-]|].
  destruct (negb _); [by intros [= <- <-]|]. destruct (displayable_loop _ _ _ _ _ _) as [id|]; intros [= <- <-]; [|done].
  by apply lookup_ok_displayable.
Qed.

Lemma lookup_ok_restart fs cache : 0 <= sc_limit cache -> lookup_ok fs new_convLog (empty_cache (sc_limit cache)).
Proof.
  intros Hlim. constructor.
  - intros n b Hb. cbn in Hb. by rewrite lookup_empty in Hb.
  - done.
  - constructor; cbn; [constructor| |done|done|].
    + intros k. rewrite lookup_empty. split; [intros H; by apply elem_of_nil in H|by intros [? ?]].
    + intros k e He. by rewrite lookup_empty in He.
  - intros k e He. cbn in He. by rewrite lookup_empty in He.
Qed.

Lemma wf_limit cache : cache_wf cache -> 0 <= sc_limit cache.
Proof.
  intros [_ _ Hb Hl Hp]. enough (0 <= total (sc_items cache) (sc_lru cache)) by lia. clear Hb Hl.
  induction (sc_lru cache) as [|k l IH]; cbn; [done|]. unfold total in IH.
  destruct (sc_items cache !! k) as [e|] eqn:He; cbn; [apply Hp in He|]; lia.
Qed.

Lemma rstep_ok o k fs st :
  store_ok k fs st.1.2 -> lookup_ok fs st.1.2 st.2 -> 0 <= k -> k + 1 < 2 ^ 64 -> default [] st.1.1 = dir_of fs ->
  exists fs', default [] (rstep o st).1.1 = dir_of fs' /\ store_ok (k + 1) fs' (rstep o st).1.2
    /\ lookup_ok fs' (rstep o st).1.2 (rstep o st).2 /\ grown dec header_ok maxb fs fs'.
Proof.
  pose proof (grown_same dec header_ok maxb fs) as Hsame. destruct st as [[dir c] cache]. cbn [fst snd]. intros Hs Hl Hk0 Hk Hdir.
  assert (forall c, store_ok k fs c -> store_ok (k + 1) fs c) as Hmono by (intros c0 Hc; by apply (store_ok_le _ _ _ k); [lia|]).
  destruct o as [o|v ids].
  2: { cbn [rstep]. destruct (Lookup _ _ _ _ _ _ _ _ _ _) as [[c' cache'] r] eqn:Hlk.
       destruct (lookup_step _ _ _ _ _ _ _ _ _ _ Hs Hl Hdir Hlk) as (Hs' & Hl' & _). exists fs. eauto 10. }
  destruct o as [v typ payload ts session shown|v|v|]; cbn [rstep step].
  - destruct (AppendWithMetadata _ _ _ _ _ _ _ _ _ _ _ _ _ _) as [[dir' c'] r] eqn:Ha.
    destruct (append_cases enc dec json_valid header_ok canon maxb convID Henc Hcanon Hheader v k fs c dir typ payload ts
      session shown dir' c' r Hs Hk0 Hk Hdir Ha) as (fs' & c1 & Hc1 & Hdir' & Hcase).
    pose proof (loaded_ok enc dec header_ok canon maxb Henc Hcanon Hheader _ _ _ _ _ Hs Hc1) as Hs1.
    destruct (append_case_ok enc dec header_ok canon maxb Henc Hcanon Hheader _ _ _ _ _ _ _ _ _ _ _ _ Hs1 Hcase) as [Hs' _].
    exists fs'. split; [done|]. split; [done|]. split; [|by eapply append_case_grown].
    refine (lookup_ok_case _ _ _ _ _ _ _ _ _ _ _ _ _ Hs1 _ Hcase).
    destruct Hc1 as [->|[rl Hld]]; [done|]. by apply (lookup_ok_load _ _ _ _ _ _ _ Hs Hl Hld).
  - destruct (LatestEntryID _ _ _ _ _ _ _) as [c' r] eqn:Ha. exists fs. split; [done|].
    pose proof (latest_lookup_ok _ _ _ _ _ _ _ _ Hs Hl Hdir Ha) as Hl'. eapply latest_step in Ha as [Hs' _]; [|done..].
    split; [by apply Hmono|by split].
  - destruct (LatestDisplayableEntryID _ _ _ _ _ _ _) as [c' r] eqn:Ha. exists fs. split; [done|].
    pose proof (displayable_lookup_ok _ _ _ _ _ _ _ _ Hs Hl Hdir Ha) as Hl'. eapply displayable_step in Ha as [Hs' _]; [|done..].
    split; [by apply Hmono|by split].
  - exists fs. split; [done|]. split.
    + apply Hmono. destruct Hs. by constructor.
    + split; [|done]. apply lookup_ok_restart, wf_limit, Hl.
Qed.

Lemma rrun_ok os k fs st :
  store_ok k fs st.1.2 -> lookup_ok fs st.1.2 st.2 -> 0 <= k -> k + Z.of_nat (length os) < 2 ^ 64 - 1 ->
  default [] st.1.1 = dir_of fs ->
  exists fs', default [] (rrun os st).1.1 = dir_of fs' /\ store_ok (k + Z.of_nat (length os)) fs' (rrun os st).1.2
    /\ lookup_ok fs' (rrun os st).1.2 (rrun os st).2.
Proof.
  revert k fs st. induction os as [|o os IH]; intros k fs st Hs Hl Hk0 Hk Hdir; cbn [length] in *.
  - exists fs. rewrite Z.add_0_r. done.
  - destruct (rstep_ok o k fs st Hs Hl Hk0 ltac:(lia) Hdir) as (fs1 & Hd1 & Hs1 & Hl1 & _).
    destruct (IH (k + 1) fs1 (rstep o st) Hs1 Hl1 ltac:(lia) ltac:(lia) Hd1) as (fs2 & Hd2 & Hs2 & Hl2).
    exists fs2. split; [done|]. split; [|done]. eapply store_ok_le; [|done]. lia.
Qed.
End store.

(** C34. A lookup by id answers from the log. After any calls, lookups among
    them, however writes fail and whenever the process restarts, an ascending
    list of ids is answered with exactly the stored entries, in order, where
    all are there, and otherwise with exactly the ids that are missing and no
    entry; only where listing or reading fails in this very call may it
    answer that error instead. Neither the recorded segment bounds nor the
    cached segments ever make an answer stale, and the eviction loop never
    runs out of elements. *)
Theorem lookup_exact enc dec json_valid header_ok canon maxb convID cost limit os v ids :
  (forall e l, enc e = Some l -> (newline ∉ l) /\ dec l = Some (canon e)) ->
  (forall e, ID (canon e) = ID e /\ displayableEntry (canon e) = displayableEntry e) ->
  header_ok header = true -> (forall es, 0 <= cost es) -> 0 <= limit -> Z.of_nat (length os) < 2 ^ 64 - 1 ->
  Conversations.ValidID convID = true -> ascending ids = true ->
  let '(dir, c, cache) := rrun enc dec json_valid header_ok maxb convID cost os (None, new_convLog, empty_cache limit) in
  let log := entry_at <$> stored dec header_ok maxb (dir, c) in
  let r := (Lookup dec header_ok cost v maxb convID ids dir c cache).2 in
  r = lookup_answer log ids \/ exists err, r = inr (Store_ err) /\ failed v err.
Proof.
  intros Henc Hcanon Hh Hcost Hlim Hlen Hid Hasc.
  destruct (rrun_ok enc dec json_valid header_ok canon maxb convID cost Hcost Henc Hcanon Hh os 0 [] (None, new_convLog, empty_cache limit))
    as (fs & Hdir & Hs & Hl); [apply store_ok_init|by apply (lookup_ok_restart dec header_ok maxb convID [] (empty_cache limit))|done|lia|done|].
  destruct (rrun _ _ _ _ _ _ _ _ _) as [[dir c] cache]. cbn [fst snd] in *.
  destruct (stored_fpos dec header_ok maxb (dir, c) fs) as [Hlog _]; [apply Hs|apply Hs|done|]. cbn zeta. rewrite Hlog.
  destruct (Lookup _ _ _ _ _ _ _ _ _ _) as [[c' cache'] r] eqn:Hlk.
  destruct (lookup_step dec header_ok maxb convID cost Hcost v _ fs dir c cache ids c' cache' r Hs Hl Hdir Hlk) as (_ & _ & _ & Hr).
  by apply Hr.
Qed.

(** A run whose lookups fill and evict the cache: two-entry segments are
    rolled, looked up through one place of cache, and looked up again. *)
Definition example_reader : lenv := LEnv reader (fun _ => true) (fun _ => true).
Definition example_lookups : list rop :=
  (fun n => RStore (OpAppend reader "message" (bs "1") 0 None None)) <$> seq 0 9.
Definition example_cost (es : list segEntry) : Z := Z.of_nat (length es).

Lemma lookup_exact_witness :
  let '(dir, c, cache) := rrun mini_enc mini_dec (fun _ => true) mini_header 46 example_id example_cost
    (example_lookups ++ [RLookup example_reader [1; 5]; RLookup example_reader [2; 4; 6]]) (None, new_convLog, empty_cache 4) in
  sc_lru cache <> [] /\
  (let log := entry_at <$> stored mini_dec mini_header 46 (dir, c) in
   let r := (Lookup mini_dec mini_header example_cost example_reader 46 example_id [1; 4; 9] dir c cache).2 in
   r = lookup_answer log [1; 4; 9] \/ exists err, r = inr (Store_ err) /\ failed example_reader err).
Proof.
  pose proof (lookup_exact mini_enc mini_dec (fun _ => true) mini_header mini_canon 46 example_id example_cost 4
    (example_lookups ++ [RLookup example_reader [1; 5]; RLookup example_reader [2; 4; 6]]) example_reader [1; 4; 9]
    mini_enc_dec (fun e => conj eq_refl eq_refl) eq_refl (fun es => Zle_0_nat (length es)) ltac:(lia) eq_refl eq_refl eq_refl) as H.
  destruct (rrun _ _ _ _ _ _ _ _ _) as [[dir c] cache] eqn:E. split; [|exact H].
  apply (f_equal (fun st => sc_lru st.2)) in E. cbn [snd] in E. rewrite <- E. vm_compute. discriminate.
Defined.
End HistoryLookupProps.
