(* ===== verification/HistorySync.v ===== *)
(** * The conversation log: what a sync makes durable *)
From Stdlib Require Import Ascii String ZArith Lia.
From stdpp Require Import prelude gmap strings list sorting.
From S2P Require Import Prelude Utf8 Strconv Conversations History HistoryProps HistoryAppend HistoryRead.

Module HistorySync.
Import Utf8 Strconv History HistoryProps HistoryAppend HistoryRead.

Local Open Scope Z_scope.
Local Open Scope pyry_scope.

Definition segs (fs : files) : gset Z := list_to_set (fst <$> fs).

Lemma segs_snoc fs n d : segs (fs ++ [(n, d)]) = segs fs ∪ {[n]}.
Proof. unfold segs. rewrite fmap_app, list_to_set_app_L. cbn. set_solver. Qed.

(** ** One call of [Sync] *)

Lemma sync_scan_spec done fs P Q :
  Forall (fun f : Z * bytes => 0 < f.1 < 2 ^ 64) fs ->
  sync_scan done (dir_of fs) P Q = ((if done then P else segs fs ∪ P), inl (segs fs ∪ Q)).
Proof.
  revert P Q. induction fs as [|f fs IH]; intros P Q Hr.
  { cbn. unfold segs. cbn. rewrite !union_empty_l_L. by destruct done. }
  apply Forall_cons in Hr as [Hf Hr]. cbn [dir_of fmap list_fmap sync_scan dirent_of de_name de_regular].
  rewrite segmentName_parse by lia. cbn [negb]. change (dirent_of <$> fs) with (dir_of fs).
  rewrite IH by done. unfold segs. csimpl.
  f_equal; [destruct done; [done|set_solver]|f_equal; set_solver].
Qed.

Lemma sync_files_spec v fs P out r :
  Forall (fun f : Z * bytes => 0 < f.1 < 2 ^ 64) fs ->
  sync_files v (dir_of fs) P = (out, r) ->
  (r = inl tt /\ list_to_set out = P ∩ segs fs) \/ (r = inr ErrIO /\ exists n, sy_file v n = false).
Proof.
  revert out r. induction fs as [|f fs IH]; intros out r Hr.
  { cbn. intros [= <- <-]. left. split; [done|]. unfold segs. cbn. set_solver. }
  apply Forall_cons in Hr as [Hf Hr]. cbn [dir_of fmap list_fmap sync_files dirent_of de_name].
  rewrite segmentName_parse by lia. change (dirent_of <$> fs) with (dir_of fs).
  destruct (sync_files v (dir_of fs) P) as [out' r'] eqn:Hs. specialize (IH out' r' Hr eq_refl).
  case_bool_decide as Hin.
  - destruct (sy_file v _) eqn:Hv; [|intros [= <- <-]; right; eauto]. intros [= <- <-].
    destruct IH as [[-> IH]|IH]; [left|by right]. split; [done|]. unfold segs in *. csimpl. rewrite IH. set_solver.
  - intros [= <- <-]. destruct IH as [[-> IH]|IH]; [left|by right]. split; [done|]. rewrite IH. unfold segs. csimpl. set_solver.
Qed.

(** ** Histories *)

Section store.
Context (enc : Entry -> option bytes) (dec : bytes -> option Entry).
Context (json_valid : bytes -> bool) (header_ok : bytes -> bool) (canon : Entry -> Entry).
Context (maxb : Z) (convID : string).
Context (Henc : forall e l, enc e = Some l -> (newline ∉ l) /\ dec l = Some (canon e)).
Context (Hcanon : forall e, ID (canon e) = ID e /\ displayableEntry (canon e) = displayableEntry e).
Context (Hheader : header_ok header = true).
#[local] Abbreviation store_ok := (store_ok dec header_ok maxb).

(** Beside the directory and the cache: the segments holding acknowledged
    bytes that no sync has covered, and the files created since the directory
    was last synced. *)
Record sstate := SState {
  ss_dir : option (list dirent); ss_log : convLog; ss_unsynced : gset Z; ss_new : gset Z;
}.

Inductive sop := SStore (o : op) | SSync (v : senv).

Definition names (dir : option (list dirent)) : gset Z := list_to_set (sr_num <$> listSegments (default [] dir)).

Definition sstep (o : sop) (st : sstate) : sstate :=
  match o with
  | SStore o =>
      let '((dir, c), r) := step enc dec json_valid header_ok maxb convID o (ss_dir st, ss_log st) in
      let acknowledged := match o, r with OpAppend _ _ _ _ _ _, inl _ => {[cl_seg c]} | _, _ => ∅ end in
      SState dir c (acknowledged ∪ ss_unsynced st) (ss_new st ∪ (names dir ∖ names (ss_dir st)))
  | SSync v =>
      let '(c, (out, d), _) := Sync v convID (ss_dir st) (ss_log st) in
      SState (ss_dir st) c (ss_unsynced st ∖ list_to_set out) (if (d : bool) then ∅ else ss_new st)
  end.

Definition srun (os : list sop) (st : sstate) : sstate := foldl (fun st o => sstep o st) st os.

(** A new segment whose write fails is removed again. *)
Definition cleans_up (o : sop) : Prop :=
  match o with SStore (OpAppend v _ _ _ _ _) => e_remove v = true | _ => True end.

Record sync_ok (clean : Prop) (fs : files) (c : convLog) (U N : gset Z) : Prop := SyncOK {
  sy_unsynced : U ⊆ segs fs;
  sy_new : N ⊆ segs fs;
  sy_pending : cl_syncPending c ⊆ segs fs;
  sy_covered : cl_syncDone c = true -> U ⊆ cl_syncPending c;
  sy_dirs : clean -> cl_syncDone c = true -> cl_syncDirPending c = false -> N = ∅;
  sy_dirty : cl_syncDirPending c = true -> cl_syncPending c <> ∅;
}.

Lemma names_segs dir fs : default [] dir = dir_of fs -> numbered fs -> names dir = segs fs.
Proof.
  intros Hd Hn. unfold names, segs. rewrite Hd, listSegments_dir_of by apply Hn. by rewrite <- list_fmap_compose.
Qed.

Lemma load_loop_sync v dir ss top c :
  let c' := (load_loop dec header_ok v maxb dir ss top c).1 in
  cl_syncDone c' = cl_syncDone c /\ cl_syncPending c' = cl_syncPending c /\ cl_syncDirPending c' = cl_syncDirPending c.
Proof.
  cbn zeta. revert top c. induction ss as [|s ss IH]; intros top c; [done|]. cbn [load_loop].
  destruct (readSegment _ _ _ _ _ _) as [[[es size] complete]|]; [|done]. cbv zeta.
  destruct (last es); [by destruct top|]. destruct (IH false (if top then set_active (sr_num s) (if complete then size else maxb)
    (rememberLookupBound (sr_num s) size match head es with Some e => ID (se_entry e) | None => 0 end c)
    else rememberLookupBound (sr_num s) size match head es with Some e => ID (se_entry e) | None => 0 end c)) as (-> & -> & ->).
  by destruct top.
Qed.

Lemma load_sync v fs c c' r :
  numbered fs -> load dec header_ok v maxb (dir_of fs) c = (c', r) ->
  cl_syncDone c' = cl_syncDone c /\ cl_syncDirPending c' = cl_syncDirPending c
  /\ cl_syncPending c ⊆ cl_syncPending c' /\ cl_syncPending c' ⊆ segs fs ∪ cl_syncPending c.
Proof.
  intros Hn. unfold load. destruct (cl_loaded c); [intros [= <- <-]; set_solver|].
  destruct (e_list v); [|intros [= <- <-]; cbn; set_solver]. cbn [negb].
  rewrite listSegments_dir_of by apply Hn. cbv zeta. set (c1 := set_lastID 0 _).
  assert (cl_syncDone c1 = cl_syncDone c /\ cl_syncDirPending c1 = cl_syncDirPending c
    /\ cl_syncPending c ⊆ cl_syncPending c1 /\ cl_syncPending c1 ⊆ segs fs ∪ cl_syncPending c) as (H1 & H2 & H3 & H4).
  { subst c1. destruct (cl_syncDone c) eqn:Hd; cbn; rewrite ?Hd; [set_solver|]. rewrite <- list_fmap_compose.
    change (list_to_set _) with (segs fs). set_solver. }
  pose proof (load_loop_sync v (dir_of fs) (reverse (ref_of <$> fs)) true c1) as (E1 & E2 & E3).
  destruct (load_loop _ _ _ _ _ _ _ _) as [c2 [[]|err]]; cbn [fst] in *; intros [= <- <-]; cbn; rewrite E1, E2, E3, H1, H2; done.
Qed.

Lemma load_sync_ok clean v fs c c' r U N :
  numbered fs -> load dec header_ok v maxb (dir_of fs) c = (c', r) -> sync_ok clean fs c U N -> sync_ok clean fs c' U N.
Proof.
  intros Hn (E1 & E2 & H3 & H4)%load_sync [H5 H6 H7 H8 H9 H10]; [|done]. constructor; rewrite ?E1, ?E2; try done; [set_solver|set_solver|].
  intros Hd%H10 He. apply Hd. set_solver.
Qed.

Lemma sync_ok_loaded clean fs c U N b : sync_ok clean fs c U N -> sync_ok clean fs (set_loaded b c) U N.
Proof. intros [H5 H6 H7 H8 H9 H10]. by constructor. Qed.

(** An append keeps what is pending in step with what is unsynced. *)
Lemma append_sync_ok clean v k fs typ payload ts session shown c1 fs' c' r U N :
  (clean -> e_remove v = true) -> numbered fs -> sync_ok clean fs c1 U N ->
  append_case enc dec header_ok maxb v k fs typ payload ts session shown c1 fs' c' r ->
  sync_ok clean fs' c' ((match r with inl _ => {[cl_seg c']} | inr _ => ∅ end) ∪ U) (N ∪ (segs fs' ∖ segs fs)).
Proof.
  intros Hclean Hn Hok Hcase. pose proof Hok as [H5 H6 H7 H8 H9 H10].
  assert (forall b, sync_ok clean fs (set_loaded b c1) (∅ ∪ U) (N ∪ (segs fs ∖ segs fs))) as Hsame.
  { intros b. rewrite difference_diag_L, union_empty_l_L, union_empty_r_L. by apply sync_ok_loaded. }
  destruct Hcase as [err|err|fresh fs0 n d buf l e j err [Ht _ _ _ _ _ _ Hseg] Hrm _|fresh fs0 n d buf l e [Ht Hnum _ _ _ _ _ Hseg] Hld _].
  - specialize (Hsame (cl_loaded c1)). by destruct c1.
  - done.
  - assert (segs (fs0 ++ [(n, d ++ take j buf)]) = segs fs ∪ {[n]}) as Hsegs.
    { rewrite segs_snoc. destruct fresh; destruct Ht as (-> & _); [done|]. rewrite segs_snoc. set_solver. }
    constructor; rewrite ?Hsegs; cbn; try done; [set_solver|set_solver|set_solver|set_solver|].
    intros Hc Hd Hp. destruct fresh; [specialize (Hrm eq_refl); specialize (Hclean Hc); congruence|].
    destruct Ht as (-> & _). rewrite segs_snoc, (H9 Hc Hd Hp). set_solver.
  - assert (segs (fs0 ++ [(n, d ++ buf)]) = segs fs ∪ {[n]}) as Hsegs.
    { rewrite segs_snoc. destruct fresh; destruct Ht as (-> & _); [done|]. rewrite segs_snoc. set_solver. }
    set (c' := appended c1 e n _).
    assert (cl_seg c' = n /\ cl_syncDone c' = cl_syncDone c1 /\ cl_syncPending c' = {[n]} ∪ cl_syncPending c1
      /\ cl_syncDirPending c' = negb (n =? cl_seg c1) || cl_syncDirPending c1) as (E1 & E2 & E3 & E4).
    { subst c'. unfold appended. destruct fresh.
      - rewrite (proj2 (Z.eqb_neq _ _) Hseg). by destruct (displayableEntry e).
      - destruct Hseg as [-> _]. rewrite Z.eqb_refl. cbn [negb].
        destruct (cl_lookupBounds c1 !! cl_seg c1); by destruct (displayableEntry e). }
    constructor; rewrite ?Hsegs, ?E1, ?E2, ?E3, ?E4; [set_solver|set_solver|set_solver|set_solver| |set_solver].
    intros Hc Hd [Hnew Hp]%orb_false_iff. destruct fresh; [apply negb_false_iff, Z.eqb_eq in Hnew; congruence|].
    destruct Ht as (-> & _). rewrite segs_snoc, (H9 Hc Hd Hp). set_solver.
Qed.

Definition failed_sync (v : senv) : Prop :=
  sy_resolve v <> None \/ sy_list v = false \/ sy_dir v = false \/ exists n, sy_file v n = false.

(** One sync: what it leaves uncovered, and when it may fail. *)
Lemma Sync_spec clean v fs dir c U N c' out d r :
  numbered fs -> default [] dir = dir_of fs -> sync_ok clean fs c U N ->
  Sync v convID dir c = (c', (out, d), r) ->
  sync_ok clean fs c' (U ∖ list_to_set out) (if d then ∅ else N)
  /\ (r = inl tt -> U ∖ list_to_set out = ∅ /\ (clean -> (if d then ∅ else N) = ∅))
  /\ (Conversations.ValidID convID = true -> r <> inl tt -> failed_sync v).
Proof.
  intros Hn Hdir Hok. pose proof Hok as [H5 H6 H7 H8 H9 H10].
  assert (sync_ok clean fs c (U ∖ list_to_set []) N) as Hsame.
  { replace (U ∖ list_to_set []) with U by (cbn; set_solver). done. }
  unfold Sync. destruct (Conversations.ValidID convID) eqn:Hid; cbn [negb]; [|intros [= <- <- <- <-]; done].
  destruct (sy_resolve v) as [err|] eqn:Hres.
  { intros [= <- <- <- <-]. split; [done|]. split; [done|]. intros _ _. left. by rewrite Hres. }
  destruct dir as [entries|].
  2: { assert (fs = []) as -> by (by destruct fs). assert (segs [] = ∅) as He by done.
       rewrite He in *. case_bool_decide as Hp; cbn [andb].
       2: { exfalso. apply Hp. set_solver. }
       destruct (cl_syncDirPending c) eqn:Hdp; [by destruct (H10 eq_refl)|]. cbn [negb].
       intros [= <- <- <- <-]. split; [done|]. split; [|done]. intros _. split; [set_solver|]. intros _. set_solver. }
  assert (entries = dir_of fs) as -> by exact Hdir.
  destruct (sy_list v) eqn:Hl; cbn [negb]; [|intros [= <- <- <- <-]; (split; [done|]; split; [done|]; intros _ _; by right; left)].
  rewrite sync_scan_spec by apply Hn. set (P := if cl_syncDone c then _ else _).
  assert (U ⊆ P /\ P ⊆ segs fs /\ cl_syncPending c ⊆ P /\ (cl_syncDone c = true -> P = cl_syncPending c)) as (HP1 & HP2 & HP3 & HP4).
  { clear Hsame. subst P. destruct (cl_syncDone c); [split; [by apply H8|done]|]. split; [set_solver|]. split; [set_solver|]. split; [set_solver|done]. }
  assert (sync_ok clean fs (set_sync (cl_syncDone c) P (cl_syncDirPending c) c) (U ∖ list_to_set []) N) as Hok1.
  { destruct Hsame as [G5 G6 G7 G8 G9 G10]. constructor; cbn; try done; [set_solver|]. intros Hd%H10 He. apply Hd. set_solver. }
  rewrite bool_decide_eq_true_2 by set_solver. cbn [negb cl_syncPending cl_syncDone cl_syncDirPending set_sync].
  case_bool_decide as Hemp.
  { intros [= <- <- <- <-]. split; [done|]. split; [|done]. intros _. split; [set_solver|]. intros Hc.
    destruct (cl_syncDone c) eqn:Hdone.
    - apply (H9 Hc eq_refl). destruct (cl_syncDirPending c) eqn:Hdp; [|done]. destruct (H10 eq_refl). set_solver.
    - subst P. set_solver. }
  destruct (sync_files v (dir_of fs) P) as [out1 r1] eqn:Hf.
  assert (forall U', U' ⊆ U -> sync_ok clean fs (set_sync (cl_syncDone c) P (cl_syncDirPending c) c) U' N) as Hless.
  { intros U' HU. destruct Hok1 as [G5 G6 G7 G8 G9 G10]. constructor; try done; [set_solver|]. intros _. cbn. set_solver. }
  destruct (sync_files_spec _ _ _ _ _ (proj2 Hn) Hf) as [[-> Hout]|[-> Hv]].
  2: { intros [= <- <- <- <-]. split; [apply Hless; set_solver|]. split; [done|]. intros _ _. right; right; by right. }
  destruct ((negb (cl_syncDone c) || cl_syncDirPending c) && negb (sy_dir v)) eqn:Hd.
  { intros [= <- <- <- <-]. split; [apply Hless; set_solver|]. split; [done|]. intros _ _. right; right; left.
    apply andb_true_iff in Hd as [_ Hd]. by apply negb_true_iff. }
  intros [= <- <- <- <-]. assert (U ∖ list_to_set out1 = ∅) as HU by (rewrite Hout; set_solver).
  assert (clean -> (if negb (cl_syncDone c) || cl_syncDirPending c then ∅ else N) = ∅) as HN.
  { intros Hc. destruct (cl_syncDone c) eqn:Hdone; [|done]. destruct (cl_syncDirPending c) eqn:Hdp; [done|]. by apply H9. }
  split; [|split; [done|done]]. rewrite HU. constructor; cbn [set_sync cl_syncDone cl_syncPending cl_syncDirPending]; try done.
  - destruct (negb _ || _); [clear; set_solver|done].
  - intros Hc _ _. by apply HN.
Qed.

Lemma sync_ok_same clean fs c c' U N :
  cl_syncDone c' = cl_syncDone c -> cl_syncPending c' = cl_syncPending c -> cl_syncDirPending c' = cl_syncDirPending c ->
  sync_ok clean fs c U N -> sync_ok clean fs c' U N.
Proof. intros E1 E2 E3 [H5 H6 H7 H8 H9 H10]. constructor; rewrite ?E1, ?E2, ?E3; done. Qed.

Lemma latest_sync_ok clean v fs dir c c' r U N :
  numbered fs -> default [] dir = dir_of fs -> sync_ok clean fs c U N ->
  LatestEntryID dec header_ok v maxb convID dir c = (c', r) -> sync_ok clean fs c' U N.
Proof.
  intros Hn Hdir Hok. unfold LatestEntryID. destruct (negb _); [by intros [= <- <-]|]. destruct (e_resolve v); [by intros [= <- <-]|].
  destruct dir as [d|]; [|by intros [= <- <-]]. assert (d = dir_of fs) as -> by exact Hdir.
  destruct (load _ _ _ _ _ _) as [c1 r1] eqn:Hload. pose proof (load_sync_ok _ _ _ _ _ _ _ _ Hn Hload Hok).
  destruct r1; by intros [= <- <-].
Qed.

Lemma displayable_sync_ok clean v fs dir c c' r U N :
  numbered fs -> default [] dir = dir_of fs -> sync_ok clean fs c U N ->
  LatestDisplayableEntryID dec header_ok v maxb convID dir c = (c', r) -> sync_ok clean fs c' U N.
Proof.
  intros Hn Hdir Hok. unfold LatestDisplayableEntryID. destruct (negb _); [by intros [= <- <-]|].
  destruct (e_resolve v); [by intros [= <- <-]|]. destruct dir as [d|]; [|by intros [= <- <-]].
  assert (d = dir_of fs) as -> by exact Hdir. destruct (load _ _ _ _ _ _) as [c1 r1] eqn:Hload.
  pose proof (load_sync_ok _ _ _ _ _ _ _ _ Hn Hload Hok) as Hok1.
  destruct r1 as [[]|]; [|by intros [= <- <-]]. destruct (cl_displayableLoaded c1); [by intros [= <- <-]|].
  destruct (negb _); [by intros [= <- <-]|]. destruct (displayable_loop _ _ _ _ _ _) as [id|]; intros [= <- <-]; [|done].
  revert Hok1. by apply sync_ok_same.
Qed.

Lemma sync_ok_restart clean fs c U N : sync_ok clean fs c U N -> sync_ok clean fs new_convLog U N.
Proof. intros [H5 H6 H7 H8 H9 H10]. by constructor. Qed.

Lemma sstep_ok clean o k fs st :
  (clean -> cleans_up o) -> store_ok k fs (ss_log st) -> sync_ok clean fs (ss_log st) (ss_unsynced st) (ss_new st) ->
  0 <= k -> k + 1 < 2 ^ 64 -> default [] (ss_dir st) = dir_of fs ->
  exists fs', default [] (ss_dir (sstep o st)) = dir_of fs' /\ store_ok (k + 1) fs' (ss_log (sstep o st))
    /\ sync_ok clean fs' (ss_log (sstep o st)) (ss_unsynced (sstep o st)) (ss_new (sstep o st)).
Proof.
  destruct st as [dir c U N]. cbn [ss_dir ss_log ss_unsynced ss_new]. intros Hclean Hs Hok Hk0 Hk Hdir.
  pose proof (so_numbered _ _ _ _ _ _ Hs) as Hn.
  assert (forall c, store_ok k fs c -> store_ok (k + 1) fs c) as Hmono by (intros c0 Hc; by apply (store_ok_le _ _ _ k); [lia|]).
  assert (∅ ∪ U = U /\ N ∪ (names dir ∖ names dir) = N) as [EU EN] by (rewrite difference_diag_L; set_solver).
  destruct o as [o|v].
  2: { cbn [sstep ss_dir ss_log ss_unsynced ss_new]. destruct (Sync _ _ _ _) as [[c' [out d]] r] eqn:Hsy. cbn [ss_dir ss_log ss_unsynced ss_new].
       destruct (Sync_spec clean _ _ _ _ _ _ _ _ _ _ Hn Hdir Hok Hsy) as (Hok' & _). exists fs. split; [done|]. split; [|done].
       apply Hmono. revert Hsy. unfold Sync. clear -Hs. repeat case_match; intros; simplify_eq; destruct Hs; by constructor. }
  destruct o as [v typ payload ts session shown|v|v|]; cbn [sstep step ss_dir ss_log ss_unsynced ss_new].
  - destruct (AppendWithMetadata _ _ _ _ _ _ _ _ _ _ _ _ _ _) as [[dir' c'] r] eqn:Ha. cbn [ss_dir ss_log ss_unsynced ss_new].
    destruct (append_cases enc dec json_valid header_ok canon maxb convID Henc Hcanon Hheader v k fs c dir typ payload ts
      session shown dir' c' r Hs Hk0 Hk Hdir Ha) as (fs' & c1 & Hc1 & Hdir' & Hcase).
    pose proof (loaded_ok enc dec header_ok canon maxb Henc Hcanon Hheader _ _ _ _ _ Hs Hc1) as Hs1.
    destruct (append_case_ok enc dec header_ok canon maxb Henc Hcanon Hheader _ _ _ _ _ _ _ _ _ _ _ _ Hs1 Hcase) as [Hs' _].
    assert (sync_ok clean fs c1 U N) as Hok1 by (destruct Hc1 as [->|[rl Hl]]; [done|by eapply load_sync_ok]).
    exists fs'. split; [done|]. split; [done|].
    rewrite (names_segs dir fs Hdir Hn), (names_segs dir' fs' Hdir' (so_numbered _ _ _ _ _ _ Hs')).
    by eapply append_sync_ok.
  - destruct (LatestEntryID _ _ _ _ _ _ _) as [c' r] eqn:Ha. cbn [ss_dir ss_log ss_unsynced ss_new]. rewrite EU, EN. exists fs. split; [done|].
    pose proof (latest_sync_ok _ _ _ _ _ _ _ _ _ Hn Hdir Hok Ha) as Hok'. eapply latest_step in Ha as [Hs' _]; [|done..]. auto.
  - destruct (LatestDisplayableEntryID _ _ _ _ _ _ _) as [c' r] eqn:Ha. cbn [ss_dir ss_log ss_unsynced ss_new]. rewrite EU, EN. exists fs. split; [done|].
    pose proof (displayable_sync_ok _ _ _ _ _ _ _ _ _ Hn Hdir Hok Ha) as Hok'. eapply displayable_step in Ha as [Hs' _]; [|done..]. auto.
  - cbn [ss_dir ss_log ss_unsynced ss_new]. rewrite EU, EN. exists fs. split; [done|]. split; [apply Hmono; destruct Hs; by constructor|].
    by eapply sync_ok_restart.
Qed.

Lemma srun_ok clean os k fs st :
  (clean -> Forall cleans_up os) -> store_ok k fs (ss_log st) -> sync_ok clean fs (ss_log st) (ss_unsynced st) (ss_new st) ->
  0 <= k -> k + Z.of_nat (length os) < 2 ^ 64 - 1 -> default [] (ss_dir st) = dir_of fs ->
  exists fs', default [] (ss_dir (srun os st)) = dir_of fs' /\ numbered fs'
    /\ sync_ok clean fs' (ss_log (srun os st)) (ss_unsynced (srun os st)) (ss_new (srun os st)).
Proof.
  revert k fs st. induction os as [|o os IH]; intros k fs st Hclean Hs Hok Hk0 Hk Hdir; cbn [length] in *.
  - exists fs. split; [done|]. split; [apply Hs|done].
  - destruct (sstep_ok clean o k fs st) as (fs1 & Hd1 & Hs1 & Hok1); [|done|done|done|lia|done|].
    { intros Hc. by apply Hclean, Forall_cons in Hc as [? _]. }
    apply (IH (k + 1) fs1 (sstep o st)); [|done|done|lia|lia|done]. intros Hc. by apply Hclean, Forall_cons in Hc as [_ ?].
Qed.
End store.

Definition sstart : sstate := SState None new_convLog ∅ ∅.

(** C36. A sync that succeeds has made every acknowledged append durable.
    After any calls, syncs among them, and restarts, a successful [Sync]
    leaves no segment with acknowledged bytes that it or an earlier sync has
    not covered, however the writes and earlier syncs failed; and where a new
    segment's failed write is always removed again, it leaves no new file
    whose directory entry was not synced. A sync fails only where listing or
    syncing fails in this very call. *)
Theorem sync_durable enc dec json_valid header_ok canon maxb convID os v c out d r :
  (forall e l, enc e = Some l -> (newline ∉ l) /\ dec l = Some (canon e)) ->
  (forall e, ID (canon e) = ID e /\ displayableEntry (canon e) = displayableEntry e) ->
  header_ok header = true -> Z.of_nat (length os) < 2 ^ 64 - 1 ->
  let st := srun enc dec json_valid header_ok maxb convID os sstart in
  Sync v convID (ss_dir st) (ss_log st) = (c, (out, d), r) ->
  (r = inl tt -> ss_unsynced st ∖ list_to_set out = ∅
     /\ (Forall cleans_up os -> (if d then ∅ else ss_new st) = ∅))
  /\ (Conversations.ValidID convID = true -> r <> inl tt -> failed_sync v).
Proof.
  intros Henc Hcanon Hh Hlen st Hsy.
  destruct (srun_ok enc dec json_valid header_ok canon maxb convID Henc Hcanon Hh (Forall cleans_up os) os 0 [] sstart)
    as (fs & Hdir & Hn & Hok); [done|apply store_ok_init| |done|lia|done|].
  { constructor; cbn; try done. }
  edestruct Sync_spec as (_ & H1 & H2); [exact Henc|exact Hcanon|exact Hh|exact Hn|exact Hdir|exact Hok|exact Hsy|]. done.
Qed.

(** ** Examples *)

Definition ok_sync : senv := SEnv None true (fun _ => true) true.
Definition bad_sync : senv := SEnv None true (fun _ => true) false.
Definition put (v : env) : sop := SStore (OpAppend v "message" (bs "1") 0 None None).

(** The write of a new segment stops after its header, and its removal fails. *)
Definition stuck_header : env := Env None true (fun _ => true) true true (Some (length segmentHeaderLine)) true true false.

Abbreviation example_run os := (srun mini_enc mini_dec (fun _ => true) mini_header 45 example_id os sstart).

(** Where the removal of a failed new segment fails, the segment is appended
    to later and its directory entry is never synced, though the sync after
    that append succeeds. *)
Lemma sync_misses_directory :
  let os := [put reader; SSync ok_sync; put stuck_header; put reader] in
  let st := example_run os in
  let '(_, (out, d), r) := Sync ok_sync example_id (ss_dir st) (ss_log st) in
  r = inl tt /\ out = [2] /\ d = false /\ ss_new st = {[2]}.
Proof. vm_compute. done. Qed.

(** Two segments, a failed sync, and then one that covers both. *)
Definition example_sops : list sop := [put reader; put reader; SSync bad_sync; put torn].

Lemma sync_durable_witness :
  let st := example_run example_sops in
  ss_unsynced st = ∅ /\ ss_new st = {[1; 2]} /\
  (ss_unsynced st ∖ list_to_set [1; 2] = ∅ /\ (Forall cleans_up example_sops -> ∅ = (∅ : gset Z))).
Proof.
  split; [vm_compute; reflexivity|]. split; [vm_compute; reflexivity|].
  assert ((Sync ok_sync example_id (ss_dir (example_run example_sops)) (ss_log (example_run example_sops))).1.2 = ([1; 2], true)
    /\ (Sync ok_sync example_id (ss_dir (example_run example_sops)) (ss_log (example_run example_sops))).2 = inl tt) as H
    by (vm_compute; done).
  destruct (Sync _ _ _ _) as [[c [out d]] r] eqn:E. cbn [fst snd] in H. destruct H as [[= -> ->] ->].
  apply (proj1 (sync_durable mini_enc mini_dec (fun _ => true) mini_header mini_canon 45 example_id example_sops ok_sync
    c [1; 2] true (inl tt) mini_enc_dec (fun e => conj eq_refl eq_refl) eq_refl eq_refl E)). reflexivity.
Defined.
End HistorySync.
