(* ===== verification/HistoryForward.v ===== *)
(** * The conversation log: forward reading, the invariant *)
From Stdlib Require Import Ascii String ZArith Lia.
From stdpp Require Import prelude gmap strings list sorting.
From S2P Require Import Prelude Utf8 Strconv Conversations History HistoryProps HistoryAppend HistoryRead HistoryLookup.
From S2P Require Import HistoryLookupInv.

Module HistoryForward.
Import Utf8 Strconv History HistoryProps HistoryAppend HistoryRead HistoryLookup HistoryLookupInv.

Local Open Scope Z_scope.
Local Open Scope pyry_scope.

(** ** Stretches of a sorted log *)

(** The entries after [a] up to [b]. *)
Definition between (a b : Z) (l : list Entry) : list Entry := filter (fun e => a < ID e <= b) l.

Lemma between_app a b l1 l2 : between a b (l1 ++ l2) = between a b l1 ++ between a b l2.
Proof. apply filter_app. Qed.

Lemma between_none a b l : (forall e, e ∈ l -> ID e <= a \/ b < ID e) -> between a b l = [].
Proof.
  intros H. unfold between. induction l as [|e l IH]; [done|]. rewrite filter_cons_False.
  - apply IH. intros e' He'. apply H. by right.
  - specialize (H e ltac:(by left)). lia.
Qed.

Lemma between_cons_in a b e l : a < ID e <= b -> between a b (e :: l) = e :: between a b l.
Proof. intros H. unfold between. by rewrite filter_cons_True. Qed.

Lemma between_cons_out a b e l : ~ (a < ID e <= b) -> between a b (e :: l) = between a b l.
Proof. intros H. unfold between. by rewrite filter_cons_False. Qed.

Lemma between_split a m b l :
  sorted_ids (ID <$> l) -> a <= m <= b -> between a b l = between a m l ++ between m b l.
Proof.
  intros Hs Hm. induction l as [|e l IH]; [done|]. rewrite fmap_cons in Hs. apply StronglySorted_inv in Hs as [Hs Hf].
  rewrite Forall_forall in Hf. specialize (IH Hs). destruct (decide (a < ID e <= b)) as [Hin|Hout].
  - rewrite between_cons_in, IH by done. destruct (decide (ID e <= m)) as [Hle|Hgt].
    + rewrite (between_cons_in a m), (between_cons_out m b) by lia. done.
    + rewrite (between_cons_out a m), (between_cons_in m b) by lia. rewrite (between_none a m l); [done|].
      intros e' He'. specialize (Hf (ID e') ltac:(by apply list_elem_of_fmap_2)). lia.
  - rewrite !between_cons_out by lia. done.
Qed.

Lemma wanted_between a b es :
  sorted_ids ((ID ∘ se_entry) <$> es) -> wanted a b es = between a b (se_entry <$> es).
Proof.
  intros Hs. induction es as [|e es IH]; [done|]. rewrite fmap_cons in Hs. apply StronglySorted_inv in Hs as [Hs Hf].
  cbn [wanted]. rewrite fmap_cons. destruct (Z.leb_spec (ID (se_entry e)) a); [rewrite between_cons_out by lia; by apply IH|].
  destruct (Z.ltb_spec b (ID (se_entry e))).
  - rewrite between_cons_out by lia. symmetry. apply between_none. intros e' (x & -> & Hx)%list_elem_of_fmap.
    rewrite Forall_forall in Hf. specialize (Hf (ID (se_entry x)) ltac:(apply list_elem_of_fmap; by exists x)). cbn in Hf. lia.
  - rewrite between_cons_in by lia. f_equal. by apply IH.
Qed.

(** ** Chunks *)

Lemma chunks_spec fuel n l :
  (0 < n)%nat -> (length l <= fuel)%nat -> concat (chunks fuel n l) = l /\ Forall (fun c => c <> [] /\ length c <= n)%nat (chunks fuel n l).
Proof.
  intros Hn. revert l. induction fuel as [|fuel IH]; intros l Hl; [destruct l; [done|cbn in Hl; lia]|].
  destruct l as [|e l]; [done|]. destruct n as [|n]; [lia|]. cbn [chunks take drop concat].
  destruct (IH (drop n l)) as [H1 H2]; [rewrite length_drop; cbn in Hl; lia|]. split.
  - change (S n) with (S n). cbn [chunks]. rewrite H1. cbn. by rewrite take_drop.
  - constructor; [|done]. split; [done|]. cbn. rewrite length_take. lia.
Qed.

(** Delivering some of the chunks moves the position to the last of them. *)
Lemma deliver_spec answers k cs r r' out err :
  Forall (fun c => c <> []) cs -> deliver answers k cs r = (r', out, err) ->
  exists rest, cs = out ++ rest /\ (err = None -> rest = [])
    /\ r' = set_after (from_option ID (fr_afterID r) (last (concat out))) r
    /\ ((forall j, answers j = (false, true)) -> err = None)
    /\ (err = None \/ err = Some WCancelled \/ err = Some WConsume).
Proof.
  revert k r r' out err. induction cs as [|c cs IH]; intros k r r' out err Hne; cbn [deliver].
  { intros [= <- <- <-]. exists []. repeat split; try done; [by destruct r|by left]. }
  apply Forall_cons in Hne as [Hc Hne].
  destruct (answers k).1 eqn:H1.
  { intros [= <- <- <-]. exists (c :: cs). repeat split; try done; [by destruct r| |by right; left].
    intros Ha. by rewrite Ha in H1. }
  destruct (answers k).2 eqn:H2; cbn [negb].
  2: { intros [= <- <- <-]. exists (c :: cs). repeat split; try done; [by destruct r| |by right; right].
       intros Ha. by rewrite Ha in H2. }
  destruct (deliver answers (S k) cs _) as [[r1 out1] err1] eqn:Hd. intros [= <- <- <-].
  destruct (IH _ _ _ _ _ Hne Hd) as (rest & -> & Hn & -> & Hok & Herr). exists rest. split; [done|]. split; [done|].
  split; [|done]. cbn [concat]. rewrite last_app. destruct (last (concat out1)) as [e|]; [done|]. cbn.
  destruct (last c) as [e|] eqn:Hl; [done|]. by apply last_None in Hl.
Qed.

(** The first part of a stretch is the stretch up to its last entry. *)
Lemma between_prefix a b l p q e :
  sorted_ids (ID <$> l) -> between a b l = p ++ q -> last p = Some e -> between a (ID e) l = p.
Proof.
  intros Hs Hb Hl. assert (sorted_ids (ID <$> (p ++ q))) as Hpq.
  { rewrite <- Hb. unfold between. clear Hb. induction l as [|x l IH]; [constructor|]. rewrite fmap_cons in Hs.
    apply StronglySorted_inv in Hs as [Hs Hf]. rewrite filter_cons. case_decide; [|by apply IH]. rewrite fmap_cons.
    constructor; [by apply IH|]. rewrite Forall_forall in Hf |- *. intros y (z & -> & Hz)%list_elem_of_fmap.
    apply list_elem_of_filter in Hz as [_ Hz]. apply Hf. by apply list_elem_of_fmap_2. }
  assert (forall x, x ∈ p ++ q -> a < ID x <= b) as Hin.
  { intros x. rewrite <- Hb. unfold between. by intros [? _]%list_elem_of_filter. }
  apply last_Some in Hl as [p' ->]. rewrite <- app_assoc, fmap_app in Hpq. cbn [app] in Hpq.
  apply sorted_app in Hpq as (_ & Hq & Hpe). rewrite fmap_cons in Hq. apply StronglySorted_inv in Hq as [_ Hq].
  rewrite Forall_forall in Hq.
  assert (between a (ID e) l = between a (ID e) (between a b l)) as ->.
  { unfold between. rewrite list_filter_filter_l; [done|]. intros x Hx. specialize (Hin e ltac:(set_solver)). lia. }
  rewrite Hb, between_app, (between_none _ _ q), app_nil_r.
  - unfold between. assert (forall l' : list Entry, (forall x, x ∈ l' -> a < ID x <= ID e) -> filter (fun x => a < ID x <= ID e) l' = l') as Hall.
    { intros l'. induction l' as [|x l' IH]; intros H; [done|]. rewrite filter_cons_True by (apply H; by left). f_equal. apply IH. intros y Hy. apply H. by right. }
    apply Hall. intros x Hx. specialize (Hin x ltac:(set_solver)). split; [lia|]. apply elem_of_app in Hx as [Hx|Hx].
    + specialize (Hpe (ID x) (ID e) ltac:(by apply list_elem_of_fmap_2) ltac:(by left)). lia.
    + apply list_elem_of_singleton in Hx as ->. lia.
  - intros x Hx. right. apply Hq. by apply list_elem_of_fmap_2.
Qed.

Section store.
Context (dec : bytes -> option Entry) (header_ok : bytes -> bool) (maxb : Z).
#[local] Abbreviation decodeSegment := (decodeSegment dec header_ok).
#[local] Abbreviation decoded := (decoded dec header_ok).
#[local] Abbreviation file_ok := (file_ok dec header_ok maxb).
#[local] Abbreviation flog := (flog dec header_ok).
#[local] Abbreviation elog := (elog dec header_ok).
#[local] Abbreviation file_first := (file_first dec header_ok).
#[local] Abbreviation ids_ok := (ids_ok dec header_ok).
#[local] Abbreviation grown := (grown dec header_ok maxb).
#[local] Abbreviation nonempty := (nonempty dec header_ok).

(** The files hold a log numbered from 1. *)
Record files_ok (fs : files) : Prop := FilesOK {
  fo_numbered : numbered fs; fo_files : Forall file_ok fs; fo_ids : ids_ok fs;
}.

(** A file nothing is appended to any more. *)
Definition sealed_file (f : Z * bytes) : Prop :=
  maxb <= Z.of_nat (length f.2) \/ exists es, decodeSegment f.2 = inl (es, false).
Definition frozen (fs : files) (f : Z * bytes) : Prop := (exists g, g ∈ fs /\ f.1 < g.1) \/ sealed_file f.

Definition top (fs : files) : Z := Z.of_nat (length (flog fs)).

Lemma ids_top fs e : ids_ok fs -> e ∈ flog fs -> 1 <= ID e <= top fs.
Proof.
  intros Hi He. apply (list_elem_of_fmap_2 ID) in He. rewrite Hi in He. apply elem_of_seqZ in He. unfold top. lia.
Qed.

Lemma elog_in fs f e : f ∈ fs -> e ∈ elog f -> e ∈ flog fs.
Proof. intros Hf He. rewrite flog_elog, elem_of_concat. exists (elog f). split; [done|]. by apply list_elem_of_fmap_2. Qed.

(** Entries of a later file come after. *)
Lemma later_file fs f g e e' :
  numbered fs -> ids_ok fs -> f ∈ fs -> g ∈ fs -> f.1 < g.1 -> e ∈ elog f -> e' ∈ elog g -> ID e < ID e'.
Proof.
  intros [Hn _] Hi Hf Hg Hlt He He'. apply list_elem_of_lookup in Hf as [i Hi'], Hg as [j Hj].
  assert (i < j)%nat as Hij.
  { destruct (decide (i < j)%nat) as [|Hge]; [done|]. exfalso. destruct (decide (i = j)) as [->|Hne]; [replace g with f in Hlt by congruence; lia|].
    pose proof (sorted_lookup (fst <$> fs) j i g.1 f.1 Hn) as Hs. rewrite !list_lookup_fmap, Hi', Hj in Hs.
    specialize (Hs eq_refl eq_refl ltac:(lia)). lia. }
  pose proof (ids_sorted dec header_ok fs Hi) as Hs. rewrite flog_elog in Hs.
  destruct (chunk_split (elog <$> fs) j (elog g)) as [_ Hc]; [by rewrite list_lookup_fmap, Hj|].
  rewrite Hc, !fmap_app in Hs. apply sorted_app in Hs as (_ & _ & Hs). apply Hs.
  - apply list_elem_of_fmap_2. rewrite elem_of_concat. exists (elog f). split; [done|]. apply elem_of_take.
    exists i. by rewrite list_lookup_fmap, Hi'.
  - apply elem_of_app. left. by apply list_elem_of_fmap_2.
Qed.

(** ** Growth *)

Lemma elog_ext n d x es :
  decodeSegment d = inl (es, true) -> file_ok (n, d ++ x) -> exists new, elog (n, d ++ x) = elog (n, d) ++ new.
Proof.
  intros Hd [(es' & complete & Hd') _]. cbn [snd] in Hd'. unfold HistoryLookupInv.elog, HistoryAppend.decoded. cbn [snd]. rewrite Hd, Hd'.
  rewrite (decodeSegment_app _ _ _ _ _ Hd) in Hd'. apply decode_lines_offsets in Hd' as (new & -> & _).
  exists (se_entry <$> new). apply fmap_app.
Qed.

Lemma flog_app fs1 fs2 : flog (fs1 ++ fs2) = flog fs1 ++ flog fs2.
Proof. by rewrite !flog_elog, fmap_app, concat_app. Qed.

Lemma flog_one f : flog [f] = elog f.
Proof. rewrite flog_elog. cbn. by rewrite app_nil_r. Qed.

(** The log of grown files goes on with later ids. *)
Lemma grown_flog fs fs' : files_ok fs' -> grown fs fs' -> exists new, flog fs' = flog fs ++ new.
Proof.
  intros Hok Hg. destruct Hg as [|n d Hlt|fs0 n d x Heq [es Hd] Hsz]; [| |subst fs].
  - exists []. by rewrite app_nil_r.
  - exists (elog (n, d)). by rewrite flog_app, flog_one.
  - destruct (elog_ext n d x es Hd) as [new Hnew].
    { pose proof (fo_files _ Hok) as H. rewrite Forall_forall in H. apply H, elem_of_app. right. by left. }
    exists new. by rewrite !flog_app, !flog_one, Hnew, app_assoc.
Qed.

Lemma new_ids fs fs' new e : files_ok fs' -> flog fs' = flog fs ++ new -> e ∈ new -> top fs < ID e.
Proof.
  intros Hok Hf [i He]%list_elem_of_lookup. pose proof (fo_ids _ Hok) as Hi. unfold HistoryLookupInv.ids_ok in Hi. rewrite Hf in Hi.
  assert ((ID <$> (flog fs ++ new)) !! (length (flog fs) + i)%nat = Some (ID e)) as Hl.
  { rewrite list_lookup_fmap, lookup_app_r by lia. by replace (length (flog fs) + i - length (flog fs))%nat with i by lia; rewrite He. }
  rewrite Hi in Hl. apply lookup_seqZ in Hl as [Hl _]. unfold top. lia.
Qed.

Lemma grown_top fs fs' : files_ok fs' -> grown fs fs' -> top fs <= top fs'.
Proof. intros Hok Hg. destruct (grown_flog _ _ Hok Hg) as [new Hf]. unfold top. rewrite Hf, length_app. lia. Qed.

Lemma grown_between fs fs' a b :
  files_ok fs' -> grown fs fs' -> (b = a \/ b <= top fs) -> between a b (flog fs') = between a b (flog fs).
Proof.
  intros Hok Hg Hb. destruct (grown_flog fs fs' Hok Hg) as [new Hf]. rewrite Hf, between_app, (between_none a b new); [by rewrite app_nil_r|].
  intros e He. pose proof (new_ids fs fs' new e Hok Hf He). lia.
Qed.

(** The files of [fs'] are those of [fs], a new one, or a longer last one. *)
Lemma grown_file fs fs' f' :
  numbered fs -> files_ok fs' -> grown fs fs' -> f' ∈ fs' ->
  (f' ∈ fs \/ (Forall (fun f => f.1 < f'.1) fs)
   \/ exists f, f ∈ fs /\ f.1 = f'.1 /\ ~ frozen fs f)
  /\ forall e, e ∈ elog f' -> (exists f, f ∈ fs /\ f.1 = f'.1 /\ e ∈ elog f) \/ top fs < ID e.
Proof.
  intros Hn Hok Hg Hf'. pose proof (grown_flog fs fs' Hok Hg) as [new Hnew]. pose proof (fun e => new_ids fs fs' new e Hok Hnew) as Hids.
  destruct Hg as [|n d Hlt|fs0 n d x Heq [es Hd] Hsz]; [| |subst fs].
  - split; [by left|]. intros e He. left. eauto.
  - apply elem_of_app in Hf' as [Hf'|Hf']; [split; [by left|intros e He; left; eauto]|]. apply list_elem_of_singleton in Hf' as ->.
    split; [by right; left|]. intros e He. right. apply Hids. rewrite flog_app, flog_one in Hnew. apply app_inv_head in Hnew. by rewrite <- Hnew.
  - apply elem_of_app in Hf' as [Hf'|Hf'].
    { split; [left; apply elem_of_app; by left|]. intros e He. left. exists f'. split; [apply elem_of_app; by left|done]. }
    apply list_elem_of_singleton in Hf' as ->. assert ((n, d) ∈ fs0 ++ [(n, d)]) as Hin by (apply elem_of_app; right; by left). split.
    + right. right. exists (n, d). split; [done|]. split; [done|]. cbn [fst snd]. intros [(g & Hg & Hlt)|[Hs|[es' Hs]]].
      * pose proof (numbered_last _ _ _ Hn) as (_ & Hl & _). cbn in Hlt. apply elem_of_app in Hg as [Hg|Hg].
        -- rewrite Forall_forall in Hl. specialize (Hl g Hg). lia.
        -- apply list_elem_of_singleton in Hg as ->. cbn in Hlt. lia.
      * cbn in Hs. lia.
      * cbn in Hs. congruence.
    + intros e He. destruct (elog_ext n d x es Hd) as [more Hmore].
      { pose proof (fo_files _ Hok) as H. rewrite Forall_forall in H. apply H, elem_of_app. right. by left. }
      rewrite Hmore in He. apply elem_of_app in He as [He|He]; [left; exists (n, d); done|right].
      apply Hids. rewrite !flog_app, !flog_one, Hmore, <- app_assoc in Hnew. apply app_inv_head, app_inv_head in Hnew. by rewrite <- Hnew.
Qed.

(** Frozen files stay. *)
Lemma grown_frozen fs fs' f : numbered fs -> grown fs fs' -> f ∈ fs -> frozen fs f -> f ∈ fs' /\ frozen fs' f.
Proof.
  intros Hn Hg Hf Hz. destruct Hg as [|n d Hlt|fs0 n d x Heq [es Hd] Hsz]; [done| |subst fs].
  - split; [apply elem_of_app; by left|]. destruct Hz as [(g & Hg & Hgl)|Hz]; [left|by right].
    exists g. split; [apply elem_of_app; by left|done].
  - pose proof (numbered_last _ _ _ Hn) as (_ & Hl & _). apply elem_of_app in Hf as [Hf|Hf].
    + split; [apply elem_of_app; by left|]. left. exists (n, d ++ x). split; [apply elem_of_app; right; by left|].
      rewrite Forall_forall in Hl. by apply Hl.
    + apply list_elem_of_singleton in Hf as ->. exfalso. destruct Hz as [(g & Hg & Hlt)|[Hs|[es' Hs]]].
      * cbn in Hlt. apply elem_of_app in Hg as [Hg|Hg].
        -- rewrite Forall_forall in Hl. specialize (Hl g Hg). lia.
        -- apply list_elem_of_singleton in Hg as ->. cbn in Hlt. lia.
      * cbn in Hs. lia.
      * cbn in Hs. congruence.
Qed.

Lemma grown_numbers fs fs' n : grown fs fs' -> n ∈ fst <$> fs -> n ∈ fst <$> fs'.
Proof.
  intros Hg. destruct Hg as [|m d Hlt|fs0 m d x Heq _ _]; [done| |subst fs]; rewrite !fmap_app, !elem_of_app; [tauto|done].
Qed.

(** ** The reader *)

Record reader_ok (a0 : Z) (fs : files) (r : ForwardReader) (D : list (list Entry)) : Prop := ReaderOK {
  r_log : concat D = between a0 (fr_afterID r) (flog fs);
  r_ge : 0 <= a0 <= fr_afterID r;
  r_top : fr_afterID r = a0 \/ fr_afterID r <= top fs;
  r_seg : fr_segment r = 0 \/ fr_segment r ∈ fst <$> fs;
  r_done : forall f, f ∈ fs -> skipped r f.1 = true -> frozen fs f /\ forall e, e ∈ elog f -> ID e <= fr_afterID r;
  r_bound : 0 <= fr_boundaryID r <= top fs;
  r_after : forall f e, f ∈ fs -> skipped r f.1 = false -> e ∈ elog f -> fr_boundaryID r < ID e;
  r_fresh : fr_selective r = true -> fr_positioned r = false -> fr_segment r = 0 /\ fr_sealed r = false;
}.

Lemma reader_grown a0 fs fs' r D :
  files_ok fs -> files_ok fs' -> grown fs fs' -> reader_ok a0 fs r D -> reader_ok a0 fs' r D.
Proof.
  intros Hok Hok' Hg [H1 H2 H3 H4 H5 H6 H7 H8]. pose proof (grown_top fs fs' Hok' Hg) as Htop.
  pose proof (fo_numbered _ Hok) as Hn. constructor; [|done|lia| | |lia| |done].
  - rewrite H1. symmetry. apply (grown_between fs fs' _ _ Hok' Hg). lia.
  - destruct H4 as [H4|H4]; [by left|right]. by eapply grown_numbers.
  - intros f' Hf' Hsk. destruct (grown_file fs fs' f' Hn Hok' Hg Hf') as [[Hf|[Hnew|(f & Hf & Hnum & Hnz)]] _].
    + destruct (H5 f' Hf Hsk) as [Hz Hall]. split; [|done]. by eapply grown_frozen.
    + exfalso. unfold skipped in Hsk. assert (fr_segment r < f'.1) as Hlt.
      { destruct H4 as [->|(g & -> & Hg')%list_elem_of_fmap]; [|rewrite Forall_forall in Hnew; by apply Hnew].
        pose proof (fo_numbered _ Hok') as [_ Hr]. rewrite Forall_forall in Hr. specialize (Hr f' Hf'). lia. }
      rewrite (proj2 (Z.ltb_ge _ _)), (proj2 (Z.eqb_neq _ _)) in Hsk by lia. done.
    + exfalso. apply Hnz. apply (H5 f Hf). by rewrite Hnum.
  - intros f' e Hf' Hsk He. destruct (grown_file fs fs' f' Hn Hok' Hg Hf') as [_ Hel].
    destruct (Hel e He) as [(f & Hf & Hnum & Hef)|Hlt]; [|lia]. apply (H7 f e Hf); [by rewrite Hnum|done].
Qed.

(** ** A walk under way *)

(** The files: those behind the walk, those to come, and those created since
    it began. *)
Record scan_ok (fs : files) (r : ForwardReader) (prev tb : Z) (xs : list forwardRange) (P S T : files) : Prop := ScanOK {
  s_split : fs = P ++ S ++ T;
  s_refs : rg_seg <$> xs = ref_of <$> S;
  s_behind : S <> [] -> forall f e, f ∈ P -> e ∈ elog f -> ID e <= fr_afterID r;
  s_all : S = [] -> forall e, e ∈ flog fs -> ID e <= tb -> ID e <= fr_afterID r;
  s_prev : 0 <= prev <= top fs;
  s_ahead : forall f e, f ∈ S ++ T -> e ∈ elog f -> prev < ID e;
  s_next : forall i x f, xs !! i = Some x -> S !! i = Some f -> rg_nextID x <> 0 ->
    exists g e, g ∈ drop (i + 1) S /\ head (elog g) = Some e /\ ID e = rg_nextID x;
  s_tb : 0 <= tb <= top fs;
  s_since : forall f e, f ∈ T -> e ∈ elog f -> tb < ID e;
  s_pos : xs <> [] -> fr_selective r = true -> fr_positioned r = true;
}.

Lemma last_split (P S T fs0 : files) n d :
  P ++ S ++ T = fs0 ++ [(n, d)] ->
  (exists T0, T = T0 ++ [(n, d)] /\ fs0 = P ++ S ++ T0)
  \/ (T = [] /\ exists S0, S = S0 ++ [(n, d)] /\ fs0 = P ++ S0)
  \/ (T = [] /\ S = [] /\ P = fs0 ++ [(n, d)]).
Proof.
  destruct T as [|f T _] using rev_ind; [rewrite app_nil_r; destruct S as [|f S _] using rev_ind|].
  - rewrite app_nil_r. auto.
  - rewrite app_assoc. intros [<- [= <-]]%app_inj_tail. right. left. eauto.
  - rewrite !app_assoc. intros [<- [= <-]]%app_inj_tail. left. exists T. by rewrite app_assoc.
Qed.

Lemma scan_grown fs fs' r prev tb xs P S T :
  files_ok fs -> files_ok fs' -> grown fs fs' -> scan_ok fs r prev tb xs P S T ->
  exists P' S' T', scan_ok fs' r prev tb xs P' S' T'.
Proof.
  intros Hok Hok' Hg Hs. pose proof (grown_top fs fs' Hok' Hg) as Htop. destruct (grown_flog fs fs' Hok' Hg) as [new Hnew].
  pose proof (fun e => new_ids fs fs' new e Hok' Hnew) as Hids.
  assert (S = [] -> forall e, e ∈ flog fs' -> ID e <= tb -> ID e <= fr_afterID r) as Hall.
  { intros HS e He Hle. rewrite Hnew in He. apply elem_of_app in He as [He|He%Hids].
    - by apply (s_all _ _ _ _ _ _ _ _ Hs HS).
    - pose proof (s_tb _ _ _ _ _ _ _ _ Hs). lia. }
  destruct Hg as [|n d Hlt|fs0 n d x Heq [es Hd] Hsz].
  - eauto.
  - destruct Hs as [H1 H2 H3 H4 H5 H6 H7 H8 H9 H10]. exists P, S, (T ++ [(n, d)]). subst fs.
    assert (forall e, e ∈ elog (n, d) -> top (P ++ S ++ T) < ID e) as Hel.
    { intros e He. apply Hids. rewrite flog_app, flog_one in Hnew. apply app_inv_head in Hnew. by rewrite <- Hnew. }
    constructor; try done; [by rewrite <- !app_assoc|lia| |lia|].
    + intros f e Hf He. rewrite app_assoc in Hf. apply elem_of_app in Hf as [Hf|Hf]; [by eapply H6|].
      apply list_elem_of_singleton in Hf as ->. specialize (Hel e He). lia.
    + intros f e [Hf|Hf]%elem_of_app He; [by eapply H9|]. apply list_elem_of_singleton in Hf as ->. specialize (Hel e He). lia.
  - destruct Hs as [H1 H2 H3 H4 H5 H6 H7 H8 H9 H10]. rewrite H1 in Heq.
    destruct (elog_ext n d x es Hd) as [more Hmore].
    { pose proof (fo_files _ Hok') as H. rewrite Forall_forall in H. apply H, elem_of_app. right. by left. }
    assert (forall e, e ∈ elog (n, d ++ x) -> e ∈ elog (n, d) \/ top fs < ID e) as Hel.
    { intros e He. rewrite Hmore in He. apply elem_of_app in He as [He|He]; [by left|right].
      apply Hids. rewrite H1, Heq in Hnew. rewrite !flog_app, !flog_one, Hmore, <- app_assoc in Hnew.
      apply app_inv_head, app_inv_head in Hnew. by rewrite <- Hnew. }
    destruct (last_split P S T fs0 n d Heq) as [(T0 & -> & ->)|[(-> & S0 & -> & ->)|(-> & -> & ->)]].
    + exists P, S, (T0 ++ [(n, d ++ x)]). constructor; try done; [by rewrite <- !app_assoc|lia| |lia|].
      * intros f e Hf He. rewrite app_assoc in Hf. apply elem_of_app in Hf as [Hf|Hf].
        -- apply (H6 f e); [|done]. rewrite app_assoc. apply elem_of_app. by left.
        -- apply list_elem_of_singleton in Hf as ->. apply Hel in He as [He|He]; [|lia].
           apply (H6 (n, d)); [|done]. rewrite app_assoc. apply elem_of_app. right. by left.
      * intros f e [Hf|Hf]%elem_of_app He; [apply (H9 f e); [apply elem_of_app; by left|done]|].
        apply list_elem_of_singleton in Hf as ->. apply Hel in He as [He|He]; [|lia].
        apply (H9 (n, d)); [|done]. apply elem_of_app. right. by left.
    + exists P, (S0 ++ [(n, d ++ x)]), []. constructor; try done.
      * by rewrite app_nil_r, app_assoc.
      * rewrite H2, !fmap_app. done.
      * intros _. apply H3. by destruct S0.
      * by destruct S0.
      * lia.
      * rewrite app_nil_r in *. intros f e [Hf|Hf]%elem_of_app He; [apply (H6 f e); [apply elem_of_app; by left|done]|].
        apply list_elem_of_singleton in Hf as ->. apply Hel in He as [He|He]; [|lia].
        apply (H6 (n, d)); [|done]. apply elem_of_app. right. by left.
      * intros i y f Hi Hf Hne.
        assert (exists f0, (S0 ++ [(n, d)]) !! i = Some f0) as [f0 Hf0].
        { apply lookup_lt_Some in Hf. rewrite length_app in Hf. apply lookup_lt_is_Some_2. by rewrite length_app. }
        destruct (H7 i y f0 Hi Hf0 Hne) as (g & e & Hg & He & Hide).
        destruct (decide (i < length S0)%nat) as [Hil|Hil].
        2: { rewrite drop_ge in Hg by (rewrite length_app; cbn; lia). by apply elem_of_nil in Hg. }
        rewrite drop_app_le in Hg |- * by lia. apply elem_of_app in Hg as [Hg|Hg].
        -- exists g, e. split; [apply elem_of_app; by left|done].
        -- apply list_elem_of_singleton in Hg as ->. exists (n, d ++ x), e. split; [apply elem_of_app; right; by left|].
           rewrite Hmore. split; [|done]. by destruct (elog (n, d)).
      * lia.
    + exists (fs0 ++ [(n, d ++ x)]), [], []. constructor; try done; [by rewrite !app_nil_r|lia|lia].
Qed.

(** ** One turn of a walk *)

Lemma numbered_middle P f Q : numbered (P ++ f :: Q) -> (forall g, g ∈ P -> g.1 < f.1) /\ (forall g, g ∈ Q -> f.1 < g.1).
Proof.
  intros [Hs _]. rewrite fmap_app, fmap_cons in Hs. apply sorted_app in Hs as (_ & Hq & Hp). apply StronglySorted_inv in Hq as [_ Hq].
  rewrite Forall_forall in Hq. split; intros g Hg.
  - apply Hp; [by apply list_elem_of_fmap_2|by left].
  - apply Hq. by apply list_elem_of_fmap_2.
Qed.

(** The last id of a file, or [prev] where it has none. *)
Definition last_or (prev : Z) (f : Z * bytes) : Z := from_option (fun e => ID (se_entry e)) prev (last (decoded f.2)).

Lemma last_or_spec fs f prev :
  files_ok fs -> f ∈ fs -> (forall e, e ∈ elog f -> prev < ID e) ->
  prev <= last_or prev f /\ (forall e, e ∈ elog f -> ID e <= last_or prev f)
  /\ (last_or prev f = prev \/ exists e, e ∈ elog f /\ ID e = last_or prev f).
Proof.
  intros Hok Hf Hp. unfold last_or. pose proof (file_sorted dec header_ok fs f (fo_ids _ Hok) Hf) as Hs.
  apply StronglySorted_inv in Hs as [Hs _]. unfold HistoryLookupInv.elog in *. destruct (decoded f.2) as [|e es _] using rev_ind.
  { cbn. split; [lia|]. split; [intros e He; by apply elem_of_nil in He|by left]. }
  rewrite last_snoc. cbn [from_option]. rewrite !fmap_app in *. split; [|split].
  - specialize (Hp (se_entry e) ltac:(apply elem_of_app; right; by left)). lia.
  - intros x [Hx|Hx]%elem_of_app.
    + apply sorted_app in Hs as (_ & _ & Hs). apply list_elem_of_fmap in Hx as (y & -> & Hy).
      specialize (Hs (ID (se_entry y)) (ID (se_entry e)) ltac:(apply list_elem_of_fmap; by exists y) ltac:(by left)). lia.
    + apply list_elem_of_singleton in Hx as ->. lia.
  - right. exists (se_entry e). split; [apply elem_of_app; right; by left|done].
Qed.

Lemma goal_reached fs a tb through :
  files_ok fs -> 0 <= a -> tb <= top fs -> (forall e, e ∈ flog fs -> ID e <= tb -> ID e <= through -> ID e <= a) ->
  Z.min through tb <= a.
Proof.
  intros Hok Ha Htb H. destruct (Z.le_gt_cases (Z.min through tb) 0) as [|Hpos]; [lia|].
  assert (Z.min through tb ∈ ID <$> flog fs) as (e & He & Hin)%list_elem_of_fmap.
  { rewrite (fo_ids _ Hok). apply elem_of_seqZ. unfold top in Htb. lia. }
  specialize (H e Hin). lia.
Qed.

(** The reader after the deliveries from file [f]. *)
Lemma reader_delivered a0 fs r D P f Q out prev r2 :
  files_ok fs -> fs = P ++ f :: Q -> reader_ok a0 fs r D ->
  (forall g e, g ∈ P -> e ∈ elog g -> ID e <= fr_afterID r) ->
  0 <= prev <= top fs -> (forall g e, g ∈ f :: Q -> e ∈ elog g -> prev < ID e) ->
  concat out = between (fr_afterID r) (fr_afterID r2) (elog f) -> fr_afterID r <= fr_afterID r2 ->
  (fr_afterID r2 = fr_afterID r \/ exists e, e ∈ elog f /\ ID e = fr_afterID r2) ->
  r2 = set_after (fr_afterID r2) (set_position f.1 false prev r) ->
  (fr_selective r = true -> fr_positioned r = true) ->
  reader_ok a0 fs r2 (D ++ out).
Proof.
  intros Hok Hfs [H1 H2 H3 H4 H5 H6 H7 H8] HP Hprev Hahead Hout Hle Hlast Hr2 Hpos.
  assert (f ∈ fs) as Hf by (subst fs; apply elem_of_app; right; by left).
  pose proof (fo_numbered _ Hok) as Hn. rewrite Hfs in Hn. destruct (numbered_middle P f Q Hn) as [HlP HlQ]. rewrite <- Hfs in Hn.
  assert (forall g, g ∈ fs -> g ∈ P \/ g = f \/ g ∈ Q) as Hcase by (intros g; rewrite Hfs; set_solver).
  assert (forall g e, g ∈ Q -> e ∈ elog g -> fr_afterID r2 < ID e \/ fr_afterID r2 = fr_afterID r) as Hlater.
  { intros g e Hg He. destruct Hlast as [->|(e' & He' & <-)]; [by right|left].
    apply (later_file fs f g e' e Hn (fo_ids _ Hok) Hf); [subst fs; set_solver|by apply HlQ|done|done]. }
  assert (fr_segment r2 = f.1 /\ fr_sealed r2 = false /\ fr_boundaryID r2 = prev) as (E1 & E2 & E3) by (rewrite Hr2; done).
  assert (forall g, skipped r2 g = (g <? f.1)) as Hskip by (intros g; unfold skipped; rewrite E1, E2, andb_false_r; apply orb_false_r).
  constructor; rewrite ?E1, ?E2, ?E3.
  - rewrite concat_app, H1, Hout, (between_split a0 (fr_afterID r) (fr_afterID r2)) by (apply ids_sorted, Hok || lia). f_equal.
    rewrite Hfs, flog_app. change (f :: Q) with ([f] ++ Q). rewrite flog_app, flog_one, !between_app.
    rewrite (between_none _ _ (flog P)), (between_none _ _ (flog Q)); [by rewrite app_nil_r| |].
    + intros e. rewrite flog_elog, elem_of_concat. intros (l & He & (g & -> & Hg)%list_elem_of_fmap).
      destruct (Hlater g e Hg He) as [?|Heq]; [by right|]. rewrite Heq. lia.
    + intros e. rewrite flog_elog, elem_of_concat. intros (l & He & (g & -> & Hg)%list_elem_of_fmap). left. by eapply HP.
  - lia.
  - destruct Hlast as [->|(e & He & <-)]; [done|]. right. apply (ids_top fs e (fo_ids _ Hok)). by eapply elog_in.
  - right. by apply list_elem_of_fmap_2.
  - intros g Hg Hsk. rewrite Hskip in Hsk. destruct (Hcase g Hg) as [Hg'|[->|Hg']]; [|lia|specialize (HlQ g Hg'); lia].
    split; [left; exists f; split; [done|by apply HlP]|]. intros e He. specialize (HP g e Hg' He). lia.
  - done.
  - intros g e Hg Hsk He. rewrite Hskip in Hsk. destruct (Hcase g Hg) as [Hg'|Hg']; [specialize (HlP g Hg'); lia|].
    apply (Hahead g e); [set_solver|done].
  - rewrite Hr2. cbn. intros Hsel Hp. rewrite (Hpos Hsel) in Hp. done.
Qed.

(** What delivering the chunks of a file does. *)
Lemma deliver_file fs f a through answers r r2 out err :
  files_ok fs -> f ∈ fs -> fr_afterID r = a ->
  let l := wanted a through (decoded f.2) in
  deliver answers 0 (chunks (length l) (Z.to_nat MaxPageEntries) l) r = (r2, out, err) ->
  concat out = between a (fr_afterID r2) (elog f) /\ a <= fr_afterID r2
  /\ (fr_afterID r2 = a \/ exists e, e ∈ elog f /\ ID e = fr_afterID r2)
  /\ r2 = set_after (fr_afterID r2) r
  /\ (err = None -> forall e, e ∈ elog f -> ID e <= through -> ID e <= fr_afterID r2)
  /\ Forall (fun c => (length c <= Z.to_nat MaxPageEntries)%nat) out
  /\ ((forall j, answers j = (false, true)) -> err = None)
  /\ (err = None \/ err = Some WCancelled \/ err = Some WConsume).
Proof.
  intros Hok Hf Ha l Hd. pose proof (file_sorted dec header_ok fs f (fo_ids _ Hok) Hf) as Hs. apply StronglySorted_inv in Hs as [Hs _].
  assert (l = between a through (elog f)) as Hl by (by apply wanted_between).
  assert (sorted_ids (ID <$> elog f)) as Hse by (unfold HistoryLookupInv.elog; by rewrite <- list_fmap_compose).
  destruct (chunks_spec (length l) (Z.to_nat MaxPageEntries) l ltac:(unfold MaxPageEntries; lia) (le_n _)) as [Hc Hsz].
  apply deliver_spec in Hd as (rest & Hcs & Hn & Hr2 & Hgood & Herr).
  2: { eapply Forall_impl; [exact Hsz|]. by intros ? []. }
  assert (Forall (fun c => (length c <= Z.to_nat MaxPageEntries)%nat) out) as Hlen.
  { rewrite Hcs in Hsz. apply Forall_app in Hsz as [Hsz _]. eapply Forall_impl; [exact Hsz|]. by intros ? []. }
  rewrite Hcs, concat_app, Hl in Hc. rewrite Ha in Hr2.
  assert (forall e, e ∈ concat out ++ concat rest -> a < ID e <= through /\ e ∈ elog f) as Hin
    by (intros e; rewrite Hc; by intros [? ?]%list_elem_of_filter).
  destruct (last (concat out)) as [e0|] eqn:Hlast; cbn [from_option] in Hr2.
  - assert (fr_afterID r2 = ID e0) as E by (by rewrite Hr2).
    pose proof (between_prefix _ _ _ _ _ _ Hse (eq_sym Hc) Hlast) as Hp.
    assert (e0 ∈ concat out ++ concat rest) as He0 by (apply last_Some in Hlast as [p ->]; set_solver).
    destruct (Hin e0 He0) as [Hb0 Hf0]. rewrite E. split; [done|]. split; [lia|]. split; [right; eauto|]. split; [done|].
    split; [|done]. intros Hnone e He Hle. rewrite (Hn Hnone), app_nil_r in Hc.
    destruct (Z.le_gt_cases (ID e) a) as [|Hgt]; [lia|]. assert (e ∈ concat out) as Hec by (rewrite Hc; apply list_elem_of_filter; split; [lia|done]).
    rewrite <- Hp in Hec. apply list_elem_of_filter in Hec as [? _]. lia.
  - apply last_None in Hlast. assert (fr_afterID r2 = a) as E by (by rewrite Hr2). rewrite E, Hlast in *.
    split; [symmetry; apply between_none; lia|]. split; [lia|]. split; [by left|]. split; [done|]. split; [|done].
    intros Hnone e He Hle. rewrite (Hn Hnone) in Hc. cbn in Hc. destruct (Z.le_gt_cases (ID e) a) as [|Hgt]; [lia|].
    assert (e ∈ between a through (elog f)) as Hec by (apply list_elem_of_filter; split; [lia|done]).
    rewrite <- Hc in Hec. by apply elem_of_nil in Hec.
Qed.

Definition good_env (v : lenv) : Prop :=
  e_resolve (le_env v) = None /\ e_list (le_env v) = true
  /\ forall n, e_readable (le_env v) n = true /\ le_lstat v n = true /\ le_prefix v n = true.

(** The walk's outcome: its invariant, or its goal reached. *)
Definition walk_ok (fs : files) (r : ForwardReader) (through tb : Z) (w : walk) : Prop :=
  match w with
  | Scan t prev xs => t = through /\ exists P S T, scan_ok fs r prev tb xs P S T
  | Over None => Z.min through tb <= fr_afterID r
  | Over (Some _) => True
  end.

Definition remaining (w : walk) : nat := match w with Scan _ _ xs => S (length xs) | Over _ => O end.

(** The reader past a sealed file it has delivered. *)
Lemma reader_sealed a0 fs r D f bound :
  reader_ok a0 fs r D -> f ∈ fs -> fr_segment r = f.1 -> sealed_file f ->
  (forall e, e ∈ elog f -> ID e <= fr_afterID r) -> 0 <= bound <= top fs ->
  (forall g e, g ∈ fs -> f.1 < g.1 -> e ∈ elog g -> bound < ID e) -> numbered fs ->
  (fr_selective r = true -> fr_positioned r = true) ->
  reader_ok a0 fs (set_position f.1 true bound r) D.
Proof.
  intros [H1 H2 H3 H4 H5 H6 H7 H8] Hf Hseg Hsl Hall Hb Hlater Hn Hpos. constructor; try done.
  - right. cbn. by apply (list_elem_of_fmap_2 fst).
  - intros g Hg Hsk. unfold skipped in Hsk. cbn in Hsk. apply orb_true_iff in Hsk as [Hsk|Hsk].
    + apply H5; [done|]. unfold skipped. by rewrite Hseg, Hsk.
    + rewrite andb_true_r in Hsk. apply Z.eqb_eq in Hsk. rewrite (numbered_fst fs g f Hn Hg Hf Hsk). split; [by right|done].
  - intros g e Hg Hsk He. apply (Hlater g e Hg); [|done]. unfold skipped in Hsk. cbn in Hsk. lia.
  - cbn. intros Hsel Hp. rewrite (Hpos Hsel) in Hp. done.
Qed.

Lemma scan_next fs r prev prev' tb x xs P f S T r' :
  files_ok fs -> scan_ok fs r prev tb (x :: xs) P (f :: S) T ->
  fr_afterID r <= fr_afterID r' -> (forall e, e ∈ elog f -> ID e <= fr_afterID r') ->
  0 <= prev' <= top fs -> (forall g e, g ∈ S ++ T -> e ∈ elog g -> prev' < ID e) ->
  fr_selective r' = fr_selective r -> fr_positioned r' = fr_positioned r ->
  scan_ok fs r' prev' tb xs (P ++ [f]) S T.
Proof.
  intros Hok [H1 H2 H3 H4 H5 H6 H7 H8 H9 H10] Hle Hf Hp Ha E1 E2. specialize (H3 ltac:(done)).
  assert (forall g e, g ∈ P ++ [f] -> e ∈ elog g -> ID e <= fr_afterID r') as Hb.
  { intros g e [Hg|Hg]%elem_of_app He; [specialize (H3 g e Hg He); lia|]. apply list_elem_of_singleton in Hg as ->. by apply Hf. }
  constructor; try done.
  - by rewrite <- app_assoc.
  - rewrite !fmap_cons in H2. by injection H2.
  - intros -> e He Hle'. rewrite H1, flog_elog, elem_of_concat in He. destruct He as (l & He & (g & -> & Hg)%list_elem_of_fmap).
    cbn [app] in Hg. rewrite cons_middle, app_assoc in Hg. apply elem_of_app in Hg as [Hg|Hg]; [by eapply Hb|].
    specialize (H9 g e Hg He). lia.
  - intros i y g Hy Hg. exact (H7 (Datatypes.S i) y g Hy Hg).
  - intros _. rewrite E1, E2. by apply H10.
Qed.

Lemma walk_segment_ok a0 fs v dir cancelled answers r D prev tb xs P S T through r' out w :
  files_ok fs -> default [] dir = dir_of fs -> reader_ok a0 fs r D -> scan_ok fs r prev tb xs P S T ->
  walk_segment dec header_ok v maxb cancelled answers dir r through prev xs = (r', out, w) ->
  reader_ok a0 fs r' (D ++ out) /\ walk_ok fs r' through tb w
  /\ Forall (fun c => (length c <= Z.to_nat MaxPageEntries)%nat) out
  /\ fr_afterID r <= fr_afterID r'
  /\ (good_env v -> cancelled = false -> (forall j, answers j = (false, true)) ->
      w = Over None \/ exists p ys, w = Scan through p ys /\ length xs = Datatypes.S (length ys)).
Proof.
  intros Hok Hdir Hr Hs. destruct xs as [|x xs]; cbn [walk_segment].
  { assert (S = []) as HS by (pose proof (s_refs _ _ _ _ _ _ _ _ Hs) as H; by destruct S).
    intros [= <- <- <-]. rewrite app_nil_r. split; [done|]. split; [|split; [done|split; [lia|intros _ -> _; by left]]].
    destruct cancelled; [done|]. cbn. apply (goal_reached fs); [done|pose proof (r_ge _ _ _ _ Hr); lia|apply (s_tb _ _ _ _ _ _ _ _ Hs)|].
    intros e He Hle _. by apply (s_all _ _ _ _ _ _ _ _ Hs HS). }
  destruct S as [|f S]; [by pose proof (s_refs _ _ _ _ _ _ _ _ Hs)|].
  pose proof (s_refs _ _ _ _ _ _ _ _ Hs) as Href. rewrite !fmap_cons in Href. injection Href as Hx _. rewrite Hx. cbn [ref_of sr_num sr_name].
  pose proof (s_split _ _ _ _ _ _ _ _ Hs) as Hfs. cbn [app] in Hfs.
  assert (f ∈ fs) as Hf by (rewrite Hfs; apply elem_of_app; right; by left).
  pose proof (s_prev _ _ _ _ _ _ _ _ Hs) as Hprev. pose proof (s_ahead _ _ _ _ _ _ _ _ Hs) as Hahead.
  pose proof (s_behind _ _ _ _ _ _ _ _ Hs ltac:(done)) as Hbehind.
  destruct (skipped r f.1) eqn:Hsk.
  { intros [= <- <- <-]. rewrite app_nil_r. split; [done|]. split; [|split; [done|split; [lia|intros _ _ _; right; eauto]]].
    split; [done|]. exists (P ++ [f]), S, T. eapply scan_next; [done|exact Hs|lia|by apply (r_done _ _ _ _ Hr)|done| |done|done].
    intros g e Hg. apply Hahead. cbn [app]. by right. }
  destruct cancelled; [intros [= <- <- <-]; rewrite app_nil_r; split; [done|]; split; [done|]; split; [done|]; split; [lia|done]|].
  assert (forall err, (r, [], Over (Some err)) = (r', out, w) -> ~ good_env v ->
    reader_ok a0 fs r' (D ++ out) /\ walk_ok fs r' through tb w /\ Forall (fun c => (length c <= Z.to_nat MaxPageEntries)%nat) out
    /\ fr_afterID r <= fr_afterID r' /\ (good_env v -> false = false -> (forall j, answers j = (false, true)) ->
      w = Over None \/ exists p ys, w = Scan through p ys /\ length (x :: xs) = Datatypes.S (length ys))) as Hfail.
  { intros err [= <- <- <-] Hv. rewrite app_nil_r. split; [done|]. split; [done|]. split; [done|]. split; [lia|by intros Hg]. }
  unfold forwardSegment. destruct (e_resolve (le_env v)) eqn:Hres; [intros H; by apply (Hfail _ H); intros [Hg _]; congruence|].
  destruct dir as [d|]; [|exfalso; by destruct fs; [apply elem_of_nil in Hf|]].
  assert (d = dir_of fs) as -> by exact Hdir. pose proof (fo_numbered _ Hok) as Hn. pose proof Hn as [_ Hrange].
  pose proof (fo_files _ Hok) as Hfiles. rewrite Forall_forall in Hfiles.
  rewrite dir_find_spec; [|done|rewrite Forall_forall in Hrange; by apply Hrange]. rewrite find_num by done.
  cbn [fmap option_fmap option_map dirent_of de_regular negb].
  destruct (le_lstat v (segmentName f.1)) eqn:Hst; cbn [negb];
    [|intros H; apply (Hfail _ H); intros (_ & _ & Hg); destruct (Hg (segmentName f.1)) as (_ & ? & _); congruence].
  rewrite read_file by (done || by apply Hfiles). destruct (e_readable _ _) eqn:Hrd;
    [|intros H; apply (Hfail _ H); intros (_ & _ & Hg); destruct (Hg (segmentName f.1)) as (? & _); congruence].
  destruct (Hfiles f Hf) as [(es & complete & Hdec) _]. rewrite Hdec.
  assert (decoded f.2 = es) as Hes by (unfold HistoryAppend.decoded; by rewrite Hdec).
  pose proof (file_sorted dec header_ok fs f (fo_ids _ Hok) Hf) as Hsorted. rewrite Hes in Hsorted.
  assert (forall e, e ∈ es -> prev < ID (se_entry e)) as Hpe.
  { intros e He. apply (Hahead f); [by left|]. unfold HistoryLookupInv.elog. rewrite Hes. by apply list_elem_of_fmap_2. }
  rewrite ordered_spec; cbn [negb].
  2: { apply StronglySorted_inv in Hsorted as [Hsorted _]. constructor; [done|]. apply Forall_forall.
       intros y (e & -> & He)%list_elem_of_fmap. by apply Hpe. }
  2: { intros e n He Hnx. destruct (Z.eqb_spec (rg_nextID x) 0) as [|Hne]; [done|]. injection Hnx as <-.
       destruct (s_next _ _ _ _ _ _ _ _ Hs 0%nat x f eq_refl eq_refl Hne) as (g & e' & Hg & He' & <-). cbn in Hg.
       apply (later_file fs f g); [done|apply Hok|done|rewrite Hfs; set_solver| | |].
       - rewrite Hfs in Hn. apply (numbered_middle P f (S ++ T) Hn). apply elem_of_app. left. by destruct S.
       - unfold HistoryLookupInv.elog. rewrite Hes. by apply list_elem_of_fmap_2.
       - destruct (elog g); [done|]. injection He' as ->. by left. }
  rewrite <- Hes. fold (last_or prev f).
  change (fr_afterID (set_position f.1 false prev r)) with (fr_afterID r).
  destruct (deliver answers 0 _ _) as [[r2 out2] err] eqn:Hd.
  destruct (deliver_file fs f (fr_afterID r) through answers (set_position f.1 false prev r) r2 out2 err Hok Hf eq_refl Hd)
    as (Hout & Hle & Hlast & Hr2 & Hfull & Hsz & Hgood & Herr).
  assert (reader_ok a0 fs r2 (D ++ out2)) as Hrd2 by (apply (reader_delivered a0 fs r D P f (S ++ T) out2 prev r2); try done; by apply (s_pos _ _ _ _ _ _ _ _ Hs)).
  assert (fr_selective r2 = fr_selective r /\ fr_positioned r2 = fr_positioned r) as [Es Ep] by (by rewrite Hr2).
  destruct err as [err|].
  { intros [= <- <- <-]. split; [done|]. split; [done|]. split; [done|]. split; [done|]. intros _ _ Hg. specialize (Hgood Hg). done. }
  destruct (last_or_spec fs f prev Hok Hf (fun e He => Hahead f e ltac:(by left) He)) as (Hlo1 & Hlo2 & Hlo3).
  assert (forall g e, g ∈ S ++ T -> e ∈ elog g -> last_or prev f < ID e) as Hlater.
  { intros g e Hg He. destruct Hlo3 as [->|(e' & He' & <-)]; [apply (Hahead g e); [by right|done]|].
    apply (later_file fs f g); [done|apply Hok|done|rewrite Hfs; set_solver| |done|done]. rewrite Hfs in Hn.
    by apply (numbered_middle P f (S ++ T) Hn). }
  assert (0 <= last_or prev f <= top fs) as Hlo4.
  { destruct Hlo3 as [->|(e' & He' & <-)]; [done|]. pose proof (ids_top fs e' (fo_ids _ Hok) ltac:(by eapply elog_in)). lia. }
  set (sealed := _ && _). set (r3 := if sealed then _ else r2).
  assert (fr_afterID r3 = fr_afterID r2) as E3 by (subst r3; by destruct sealed).
  assert (reader_ok a0 fs r3 (D ++ out2)) as Hr3.
  { subst r3. destruct sealed eqn:Hse; [|done]. subst sealed. apply andb_true_iff in Hse as [Hse1 Hse2].
    apply (reader_sealed a0 fs r2 (D ++ out2) f (last_or prev f)); try done; [by rewrite Hr2| | | |].
    - apply orb_true_iff in Hse1 as [Hc|Hc]; [|left; lia]. right. exists es. rewrite Hdec. by destruct complete.
    - intros e He. specialize (Hlo2 e He). unfold last_or in Hlo2. destruct (last (decoded f.2)) as [e0|] eqn:Hl0; cbn in Hlo2; [lia|].
      apply last_None in Hl0. unfold HistoryLookupInv.elog in He. rewrite Hl0 in He. by apply elem_of_nil in He.
    - intros g e Hg Hlt He. apply (Hlater g e); [|done]. rewrite Hfs in Hg, Hn. destruct (numbered_middle P f (S ++ T) Hn) as [HlP _].
      apply elem_of_app in Hg as [Hg|Hg]; [specialize (HlP g Hg); lia|]. apply elem_of_cons in Hg as [->|Hg]; [lia|done].
    - rewrite Es, Ep. by apply (s_pos _ _ _ _ _ _ _ _ Hs). }
  assert (fr_selective r3 = fr_selective r /\ fr_positioned r3 = fr_positioned r) as [Es3 Ep3] by (subst r3; by destruct sealed).
  intros [= <- <- <-]. split; [done|]. rewrite !E3. destruct (Z.leb_spec through (last_or prev f)) as [Hth|Hth].
  - split; [|split; [done|split; [done|by left]]]. cbn. rewrite E3. apply (goal_reached fs); [done|pose proof (r_ge _ _ _ _ Hr); lia|apply (s_tb _ _ _ _ _ _ _ _ Hs)|].
    intros e He _ Hle'. rewrite Hfs, flog_elog, elem_of_concat in He. destruct He as (l & He & (g & -> & Hg)%list_elem_of_fmap).
    apply elem_of_app in Hg as [Hg|Hg]; [specialize (Hbehind g e Hg He); lia|]. apply elem_of_cons in Hg as [->|Hg]; [by apply Hfull|].
    specialize (Hlater g e Hg He). lia.
  - split; [|split; [done|split; [done|right; eauto]]]. split; [done|]. exists (P ++ [f]), S, T.
    eapply scan_next; [done|exact Hs|lia| |done|done|done|done]. intros e He. rewrite E3. apply Hfull; [done|done|].
    specialize (Hlo2 e He). lia.
Qed.
End store.
End HistoryForward.
