(* ===== verification/HistoryForwardProps.v ===== *)
(** * The conversation log: forward reading, the properties *)
From Stdlib Require Import Ascii String ZArith Lia.
From stdpp Require Import prelude gmap strings list sorting.
From S2P Require Import Prelude Utf8 Strconv Conversations History HistoryProps HistoryAppend HistoryRead HistoryLookup.
From S2P Require Import HistoryLookupInv HistoryLookupProps HistoryForward.

Module HistoryForwardProps.
Import Utf8 Strconv History HistoryProps HistoryAppend HistoryRead HistoryLookup HistoryLookupInv HistoryLookupProps HistoryForward.

Local Open Scope Z_scope.
Local Open Scope pyry_scope.

Section store.
Context (dec : bytes -> option Entry) (header_ok : bytes -> bool) (maxb : Z) (convID : string).
#[local] Abbreviation flog := (flog dec header_ok).
#[local] Abbreviation elog := (elog dec header_ok).
#[local] Abbreviation file_first := (file_first dec header_ok).
#[local] Abbreviation ids_ok := (ids_ok dec header_ok).
#[local] Abbreviation files_ok := (files_ok dec header_ok maxb).
#[local] Abbreviation store_ok := (store_ok dec header_ok maxb).
#[local] Abbreviation lookup_ok := (lookup_ok dec header_ok maxb convID).
#[local] Abbreviation reader_ok := (reader_ok dec header_ok maxb).
#[local] Abbreviation scan_ok := (scan_ok dec header_ok).
#[local] Abbreviation nonempty := (nonempty dec header_ok).
#[local] Abbreviation top := (top dec header_ok).

Lemma store_files k fs c : store_ok k fs c -> files_ok fs.
Proof. intros []. by constructor. Qed.

(** ** The segments behind the reader come first *)

Lemma skipped_split r fs :
  numbered fs -> exists P U, fs = P ++ U /\ (forall f, f ∈ P -> skipped r f.1 = true) /\ (forall f, f ∈ U -> skipped r f.1 = false).
Proof.
  intros [Hs _]. induction fs as [|f fs IH]; [by exists [], []; repeat split; intros f Hf; apply elem_of_nil in Hf|].
  rewrite fmap_cons in Hs. apply StronglySorted_inv in Hs as [Hs Hf]. destruct (skipped r f.1) eqn:Hsk.
  - destruct (IH Hs) as (P & U & -> & HP & HU). exists (f :: P), U. split; [done|]. split; [|done].
    intros g [->|Hg]%elem_of_cons; [done|by apply HP].
  - exists [], (f :: fs). split; [done|]. split; [intros g Hg; by apply elem_of_nil in Hg|].
    intros g [->|Hg]%elem_of_cons; [done|]. rewrite Forall_forall in Hf.
    specialize (Hf g.1 ltac:(by apply (list_elem_of_fmap_2 fst))). unfold skipped in *.
    apply orb_false_iff in Hsk as [H1 _]. rewrite (proj2 (Z.ltb_ge _ _)), (proj2 (Z.eqb_neq _ _)) by lia. done.
Qed.

Definition range_file (r : ForwardReader) (f : Z * bytes) : forwardRange :=
  MkRange (ref_of f) (if fr_selective r then file_first f else 0) 0.

Lemma ranges_skip v dir r cancelled i P segs previous ranges c :
  (forall f, f ∈ P -> skipped r f.1 = true) ->
  ranges_loop dec header_ok v maxb dir r cancelled i ((ref_of <$> P) ++ segs) previous ranges c
  = ranges_loop dec header_ok v maxb dir r cancelled i segs previous ranges c.
Proof.
  induction P as [|f P IH]; intros HP; [done|]. rewrite fmap_cons. cbn [app ranges_loop ref_of sr_num].
  rewrite HP by (by left). apply IH. intros g Hg. apply HP. by right.
Qed.

Lemma ranges_loop_spec v k fs cache r cancelled i U previous ranges c c' res :
  store_ok k fs c -> lookup_ok fs c cache -> (forall f, f ∈ U -> f ∈ fs /\ skipped r f.1 = false) ->
  sorted_ids (previous :: (file_first <$> nonempty U)) ->
  ranges_loop dec header_ok v maxb (dir_of fs) r cancelled i (ref_of <$> U) previous ranges c = (c', res) ->
  store_ok k fs c' /\ lookup_ok fs c' cache /\
  (res = inl (ranges ++ (range_file r <$> U))
   \/ exists err, res = inr err /\ err <> WNotExist /\ (good_env v -> (forall j, cancelled j = false) -> False)).
Proof.
  revert i previous ranges c. induction U as [|f U IH]; intros i previous ranges c Hs Hl HU Hso.
  { cbn. intros [= <- <-]. split; [done|]. split; [done|]. left. by rewrite app_nil_r. }
  rewrite !fmap_cons. cbn [ranges_loop]. destruct (HU f ltac:(by left)) as [Hf Hsk]. cbn [ref_of sr_num]. rewrite Hsk.
  assert (forall g, g ∈ U -> g ∈ fs /\ skipped r g.1 = false) as HU' by (intros g Hg; apply HU; by right).
  destruct (cancelled i) eqn:Hci.
  { intros [= <- <-]. split; [done|]. split; [done|]. right. exists WCancelled. split; [done|]. split; [done|]. intros _ Hj. by rewrite Hj in Hci. }
  rewrite nonempty_cons in Hso. unfold range_file at 1. destruct (fr_selective r) eqn:Hsel.
  2: { intros Hloop. apply IH in Hloop; [|done|done|done|].
       - rewrite <- app_assoc in Hloop. exact Hloop.
       - case_decide; [|done]. rewrite fmap_cons in Hso. apply StronglySorted_inv in Hso as [Hso Hp].
         apply StronglySorted_inv in Hso as [Hso Hq]. apply Forall_cons in Hp as [Hp _]. constructor; [done|].
         eapply Forall_impl; [exact Hq|]. cbn. lia. }
  destruct (lookupSegmentBound _ _ _ _ _ _ _) as [c1 r1] eqn:H1.
  destruct (lookupSegmentBound_spec dec header_ok maxb v fs f c c1 r1) as [(b & -> & Hex & Hc1)|(-> & -> & Hv)];
    [apply Hs|apply Hs|apply Hs|done|apply Hl|done| |].
  2: { intros [= <- <-]. split; [done|]. split; [done|]. right. exists (WStore ErrIO). split; [done|]. split; [done|].
       intros (_ & _ & Hg) _. destruct Hv as [n Hn]. destruct (Hg n) as (G1 & G2 & G3). destruct Hn as [Hn|[Hn|Hn]]; congruence. }
  assert (store_ok k fs c1 /\ lookup_ok fs c1 cache) as [Hs1 Hl1].
  { destruct Hc1 as [[-> _]| ->]; [done|]. split; [by apply store_ok_bounds|by eapply lookup_ok_bound]. }
  destruct Hex as [_ Hfi]. rewrite Hfi.
  pose proof (file_first_pos dec header_ok fs f (so_ids _ _ _ _ _ _ Hs) Hf) as Hz.
  destruct (Z.eqb_spec (file_first f) 0) as [He|He].
  - intros Hloop. apply IH in Hloop; [|done|done|done|]; [by rewrite He; rewrite <- app_assoc in Hloop|].
    by rewrite decide_False in Hso by (intros H; by apply H, Hz).
  - rewrite decide_True, fmap_cons in Hso by (intros H; by apply He, Hz). apply StronglySorted_inv in Hso as [Hso Hp].
    apply Forall_cons in Hp as [Hp _]. rewrite (proj2 (Z.leb_gt _ _)) by done.
    intros Hloop. apply IH in Hloop; [|done|done|done|done]. by rewrite <- app_assoc in Hloop.
Qed.

(** ** The ids of the ranges that follow *)

Lemma set_next_fold (rs : list forwardRange) :
  let '(next, out) := foldr (fun x '(next, out) =>
         (if rg_firstID x =? 0 then next else rg_firstID x, MkRange (rg_seg x) (rg_firstID x) next :: out)) (0, []) rs in
  (next <> 0 -> exists j y, rs !! j = Some y /\ rg_firstID y = next) /\
  (forall y, y ∈ rs -> rg_firstID y <> 0 -> next <> 0) /\
  rg_seg <$> out = rg_seg <$> rs /\ rg_firstID <$> out = rg_firstID <$> rs /\
  forall i x, out !! i = Some x -> rg_nextID x <> 0 ->
    exists j y, (i < j)%nat /\ rs !! j = Some y /\ rg_firstID y = rg_nextID x.
Proof.
  induction rs as [|x rs IH]; cbn; [split; [done|]; split; [intros y Hy; by apply elem_of_nil in Hy|done]|].
  destruct (foldr _ _ rs) as [next out]. destruct IH as (H1 & H0 & H2 & H3 & H4). split; [|split; [|split; [|split]]].
  - destruct (Z.eqb_spec (rg_firstID x) 0) as [Hz|Hz]; [|intros _; by exists 0%nat, x].
    intros Hn. destruct (H1 Hn) as (j & y & Hj & Hy). by exists (S j), y.
  - intros y [->|Hy]%elem_of_cons Hne; [by rewrite (proj2 (Z.eqb_neq _ _) Hne)|]. destruct (Z.eqb_spec (rg_firstID x) 0); [by eapply H0|done].
  - cbn. by rewrite H2.
  - cbn. by rewrite H3.
  - intros [|i] z; cbn.
    + intros [= <-] Hn. cbn in Hn |- *. destruct (H1 Hn) as (j & y & Hj & Hy). exists (S j), y. split; [lia|done].
    + intros Hz Hn. destruct (H4 i z Hz Hn) as (j & y & Hij & Hj & Hy). exists (S j), y. split; [lia|done].
Qed.

Lemma set_next_spec rs :
  rg_seg <$> set_next rs = rg_seg <$> rs /\ rg_firstID <$> set_next rs = rg_firstID <$> rs /\
  forall i x, set_next rs !! i = Some x -> rg_nextID x <> 0 ->
    exists j y, (i < j)%nat /\ rs !! j = Some y /\ rg_firstID y = rg_nextID x.
Proof.
  unfold set_next. pose proof (set_next_fold rs) as H. destruct (foldr _ _ rs) as [next out]. cbn [snd]. tauto.
Qed.
(** ** Where a walk begins *)

(** The range to begin with: nothing wanted lies before it, and its stored
    ids come after the boundary. *)
Definition begin_ok (fs : files) (a : Z) (s : nat) (boundary : Z) : Prop :=
  0 <= boundary <= top fs
  /\ (forall f e, f ∈ take s fs -> e ∈ elog f -> ID e <= a)
  /\ (forall f e, f ∈ drop s fs -> e ∈ elog f -> boundary < ID e).

Lemma first_entry fs f :
  ids_ok fs -> f ∈ fs -> file_first f <> 0 -> exists e, e ∈ elog f /\ ID e = file_first f /\ head (elog f) = Some e.
Proof.
  intros Hi Hf Hz. rewrite (file_first_pos dec header_ok fs f Hi Hf) in Hz.
  unfold HistoryLookupInv.file_first, first_id, HistoryLookupInv.elog. destruct (decoded dec header_ok f.2) as [|e es]; [done|].
  exists (se_entry e). split; [by left|done].
Qed.

Lemma no_entry fs f e : ids_ok fs -> f ∈ fs -> file_first f = 0 -> e ∈ elog f -> False.
Proof.
  intros Hi Hf Hz He. apply (file_first_pos dec header_ok fs f Hi Hf) in Hz. unfold HistoryLookupInv.elog in He.
  rewrite Hz in He. by apply elem_of_nil in He.
Qed.

Lemma split_lt fs i f g :
  numbered fs -> fs !! i = Some f -> g ∈ take i fs -> g.1 < f.1.
Proof.
  intros Hn Hi Hg. assert (i < length fs)%nat as Hlt by (by eapply lookup_lt_Some).
  rewrite <- (take_drop_middle fs i f Hi) in Hn. by apply (numbered_middle (take i fs) f (drop (S i) fs) Hn).
Qed.

Lemma drop_cases {A} (l : list A) i f g : l !! i = Some f -> g ∈ drop i l -> g = f \/ g ∈ drop (S i) l.
Proof. intros Hi Hg. rewrite (drop_S l f i Hi) in Hg. by apply elem_of_cons. Qed.

(** Choosing a file that begins with [first], with the boundary before it. *)
Lemma begin_here fs a i f boundary :
  files_ok fs -> fs !! i = Some f -> file_first f <> 0 -> 0 <= boundary <= top fs ->
  ((forall g e, g ∈ take i fs -> e ∈ elog g -> False) \/ file_first f <= a) ->
  (forall e, e ∈ elog f -> boundary < ID e) -> begin_ok fs a i boundary.
Proof.
  intros Hok Hi Hz Hb Ha Hbf. assert (f ∈ fs) as Hf by (by eapply list_elem_of_lookup_2).
  destruct (first_entry fs f (fo_ids _ _ _ _ Hok) Hf Hz) as (e0 & He0 & Hid0 & _). split; [done|]. split.
  - intros g e Hg He. destruct Ha as [Ha|Ha]; [exfalso; by eapply Ha|].
    pose proof (later_file dec header_ok fs g f e e0 (fo_numbered _ _ _ _ Hok) (fo_ids _ _ _ _ Hok)) as Hlt.
    specialize (Hlt ltac:(by apply elem_of_take in Hg as (j & Hj & _); eapply list_elem_of_lookup_2) Hf
      ltac:(by apply (split_lt fs i f g (fo_numbered _ _ _ _ Hok) Hi Hg)) He He0). lia.
  - intros g e Hg He. destruct (drop_cases fs i f g Hi Hg) as [->|Hg']; [by apply Hbf|].
    pose proof (fo_numbered _ _ _ _ Hok) as Hn. assert (g ∈ fs) as Hgf by (rewrite <- (take_drop (S i) fs); apply elem_of_app; by right).
    assert (f.1 < g.1) as Hlt.
    { rewrite <- (take_drop_middle fs i f Hi) in Hn. by apply (numbered_middle (take i fs) f (drop (S i) fs) Hn). }
    pose proof (later_file dec header_ok fs f g e0 e Hn (fo_ids _ _ _ _ Hok) Hf Hgf Hlt He0 He). specialize (Hbf e0 He0). lia.
Qed.

Definition selected_ok (fs : files) (a : Z) (i : nat) (sel : option (nat * Z)) (boundary : Z) : Prop :=
  match sel with
  | None => boundary = 0 /\ forall f e, f ∈ take i fs -> e ∈ elog f -> False
  | Some (s, first) => begin_ok fs a s boundary /\ exists f, fs !! s = Some f /\ file_first f = first /\ first <> 0 /\ (s < i)%nat
  end.

Lemma select_spec fs a i ranges sel boundary :
  files_ok fs -> rg_firstID <$> ranges = file_first <$> drop i fs -> (i <= length fs)%nat -> selected_ok fs a i sel boundary ->
  match select a i ranges sel boundary with
  | Some (s, boundary) => begin_ok fs a s boundary /\ (s < length fs)%nat
  | None => sel = None /\ forall f e, f ∈ fs -> e ∈ elog f -> False
  end.
Proof.
  intros Hok. revert i sel boundary. induction ranges as [|x ranges IH]; intros i sel boundary Hr Hi Hsel; cbn [select].
  - assert (drop i fs = []) as Hd by (by destruct (drop i fs)).
    assert (take i fs = fs) as Ht by (rewrite <- (take_drop i fs) at 2; by rewrite Hd, app_nil_r).
    destruct sel as [[s first]|]; cbn.
    + destruct Hsel as [Hb (f & Hf & _)]. split; [done|]. by eapply lookup_lt_Some.
    + destruct Hsel as [_ Hsel]. rewrite Ht in Hsel. done.
  - destruct (drop i fs) as [|f rest] eqn:Hd; [done|]. rewrite !fmap_cons in Hr. injection Hr as Hx Hr.
    assert (fs !! i = Some f) as Hif.
    { rewrite <- (take_drop i fs), Hd, lookup_app_r; rewrite length_take_le by done; [by rewrite Nat.sub_diag|done]. }
    assert (drop (S i) fs = rest) as Hd' by (rewrite (drop_S fs f i Hif) in Hd; by injection Hd).
    assert (S i <= length fs)%nat as Hi' by (apply lookup_lt_Some in Hif; lia).
    assert (f ∈ fs) as Hf by (by eapply list_elem_of_lookup_2).
    assert (take (S i) fs = take i fs ++ [f]) as Ht by (by apply take_S_r).
    rewrite <- Hd' in Hr. rewrite Hx. destruct (Z.eqb_spec (file_first f) 0) as [Hz|Hz].
    + apply IH; [done|done|]. destruct sel as [[s first]|]; cbn in *.
      * destruct Hsel as [Hb (g & Hg & Hfirst & Hne & Hlt)]. split; [done|]. exists g. repeat split; try done. lia.
      * destruct Hsel as [-> Hsel]. split; [done|]. intros g e Hg He. rewrite Ht in Hg. apply elem_of_app in Hg as [Hg|Hg]; [by eapply Hsel|].
        apply list_elem_of_singleton in Hg as ->. by apply (no_entry fs f e (fo_ids _ _ _ _ Hok)).
    + destruct sel as [[s first]|]; cbn in Hsel.
      * destruct Hsel as [Hb (g & Hg & Hfirst & Hne & Hlt)]. destruct (Z.ltb_spec a (file_first f)) as [Ha|Ha].
        { split; [done|]. by eapply lookup_lt_Some. }
        specialize (IH (S i) (Some (i, file_first f)) first Hr Hi'). enough (selected_ok fs a (S i) (Some (i, file_first f)) first) as Hs.
        { specialize (IH Hs). destruct (select _ _ _ _ _) as [[s' b']|]; [done|]. by destruct IH. }
        assert (g ∈ fs) as Hgf by (by eapply list_elem_of_lookup_2). subst first.
        destruct (first_entry fs g (fo_ids _ _ _ _ Hok) Hgf Hne) as (e0 & He0 & Hid0 & _).
        split; [|exists f; repeat split; try done; lia]. apply (begin_here fs a i f); try done; [|by right|].
        -- rewrite <- Hid0. pose proof (ids_top dec header_ok fs e0 (fo_ids _ _ _ _ Hok) ltac:(by eapply elog_in)). lia.
        -- intros e He. rewrite <- Hid0. apply (later_file dec header_ok fs g f); try done; [apply Hok|apply Hok|].
           apply (split_lt fs i); [apply Hok|done|]. apply elem_of_take. eauto.
      * destruct Hsel as [-> Hsel]. specialize (IH (S i) (Some (i, file_first f)) 0 Hr Hi').
        enough (selected_ok fs a (S i) (Some (i, file_first f)) 0) as Hs.
        { specialize (IH Hs). destruct (select _ _ _ _ _) as [[s' b']|]; [done|]. by destruct IH. }
        split; [|exists f; repeat split; try done; lia]. apply (begin_here fs a i f); try done; [unfold HistoryForward.top; lia|by left|].
        intros e He. pose proof (ids_top dec header_ok fs e (fo_ids _ _ _ _ Hok) ltac:(by eapply elog_in)). lia.
Qed.
Lemma scan_begin fs r prev xs P S :
  files_ok fs -> fs = P ++ S -> rg_seg <$> xs = ref_of <$> S ->
  (forall f e, f ∈ P -> e ∈ elog f -> ID e <= fr_afterID r) -> 0 <= prev <= top fs ->
  (forall f e, f ∈ S -> e ∈ elog f -> prev < ID e) ->
  (forall i x, xs !! i = Some x -> rg_nextID x <> 0 ->
    exists g e, g ∈ drop (i + 1) S /\ head (elog g) = Some e /\ ID e = rg_nextID x) ->
  (xs <> [] -> fr_selective r = true -> fr_positioned r = true) ->
  scan_ok fs r prev (top fs) xs P S [].
Proof.
  intros Hok Hfs Hrefs HP Hprev HS Hnext Hpos. constructor; rewrite ?app_nil_r; try done.
  - intros -> e He _. rewrite Hfs, app_nil_r, flog_elog, elem_of_concat in He.
    destruct He as (l & He & (g & -> & Hg)%list_elem_of_fmap). by eapply HP.
  - intros i x f Hx _ Hne. by apply Hnext.
  - unfold HistoryForward.top. lia.
  - intros f e Hf. by apply elem_of_nil in Hf.
Qed.

Lemma next_spec fs r U s i x :
  ids_ok fs -> (forall f, f ∈ U -> f ∈ fs) -> fr_selective r = true ->
  drop s (set_next (range_file r <$> U)) !! i = Some x -> rg_nextID x <> 0 ->
  exists g e, g ∈ drop (i + 1) (drop s U) /\ head (elog g) = Some e /\ ID e = rg_nextID x.
Proof.
  intros Hi HU Hsel Hx Hne. rewrite lookup_drop in Hx. destruct (set_next_spec (range_file r <$> U)) as (_ & _ & Hn).
  destruct (Hn _ _ Hx Hne) as (j & y & Hj & Hy & Hid). rewrite list_lookup_fmap in Hy.
  destruct (U !! j) as [g|] eqn:Hg; [|done]. injection Hy as <-. cbn in Hid. rewrite Hsel in Hid.
  assert (g ∈ U) as HgU by (by eapply list_elem_of_lookup_2).
  destruct (first_entry fs g Hi (HU g HgU)) as (e & _ & He & Hh); [by rewrite Hid|]. exists g, e. split; [|by rewrite He, Hid].
  rewrite drop_drop. apply (list_elem_of_lookup_2 _ (j - (s + (i + 1)))). rewrite lookup_drop.
  by replace (s + (i + 1) + (j - (s + (i + 1))))%nat with j by lia.
Qed.

Lemma reader_positioned a0 fs r D s b f :
  files_ok fs -> reader_ok a0 fs r D -> begin_ok fs (fr_afterID r) s b -> fs !! s = Some f ->
  reader_ok a0 fs (set_positioned (set_position f.1 false b r)) D.
Proof.
  intros Hok [H1 H2 H3 H4 H5 H6 H7 H8] (Hb & Hbefore & Hafter) Hf. pose proof (fo_numbered _ _ _ _ Hok) as Hn.
  assert (f ∈ fs) as Hfs by (by eapply list_elem_of_lookup_2). pose proof Hn as Hn'. rewrite <- (take_drop_middle fs s f Hf) in Hn'.
  destruct (numbered_middle _ _ _ Hn') as [Hlt Hgt].
  assert (forall g, g ∈ fs -> g ∈ take s fs \/ g ∈ drop s fs) as Hcase by (intros g; rewrite <- (take_drop s fs) at 1; apply elem_of_app).
  assert (forall n, skipped (set_positioned (set_position f.1 false b r)) n = (n <? f.1)) as Hsk
    by (intros n; unfold skipped; cbn; by rewrite andb_false_r, orb_false_r).
  constructor; try done.
  - right. by apply (list_elem_of_fmap_2 fst).
  - intros g Hg Hs. rewrite Hsk in Hs. split; [left; exists f; split; [done|lia]|]. intros e He.
    destruct (Hcase g Hg) as [Ht|Hd]; [by apply (Hbefore g)|]. destruct (drop_cases fs s f g Hf Hd) as [->|Hd']; [lia|]. specialize (Hgt g Hd'). lia.
  - intros g e Hg Hs He. rewrite Hsk in Hs. destruct (Hcase g Hg) as [Ht|Hd]; [specialize (Hlt g Ht); lia|by apply (Hafter g)].
Qed.

Lemma fresh_skips r fs f :
  files_ok fs -> fr_segment r = 0 /\ fr_sealed r = false -> f ∈ fs -> skipped r f.1 = false.
Proof.
  intros Hok [H1 H2] Hf. destruct (fo_numbered _ _ _ _ Hok) as [_ Hr]. rewrite Forall_forall in Hr. specialize (Hr f Hf).
  unfold skipped. rewrite H1, H2, andb_false_r, orb_false_r. apply Z.ltb_ge. lia.
Qed.

Definition walk_started (v : lenv) (cancelled : bool) (cancels : nat -> bool) (fs : files) (w : walk) : Prop :=
  good_env v -> cancelled = false -> (forall j, cancels j = false) ->
  w = Over None \/ exists t p ys, w = Scan t p ys /\ (length ys <= length fs)%nat.

(** What listing the segments leaves: a reader and ranges to walk. *)
Lemma forwardSegments_ok v k fs cache cancels dir c r a0 D c' r' res :
  store_ok k fs c -> lookup_ok fs c cache -> default [] dir = dir_of fs -> reader_ok a0 fs r D ->
  forwardSegments dec header_ok v maxb cancels dir c r = (c', r', res) ->
  store_ok k fs c' /\ lookup_ok fs c' cache /\ reader_ok a0 fs r' D /\ fr_afterID r' = fr_afterID r /\
  ((exists xs P S, res = inl xs /\ scan_ok fs r' (fr_boundaryID r') (top fs) xs P S [] /\ (length xs <= length fs)%nat)
   \/ (res = inr WNotExist /\ fs = [] /\ r' = r)
   \/ (exists err, res = inr err /\ err <> WNotExist /\ (good_env v -> (forall j, cancels j = false) -> False))).
Proof.
  intros Hs Hl Hdir Hr. pose proof (store_files k fs c Hs) as Hok. unfold forwardSegments. destruct (e_resolve (le_env v)) as [err|] eqn:Hres.
  { intros [= <- <- <-]. split; [done|]. split; [done|]. split; [done|]. split; [done|]. right. right. exists (WStore err).
    split; [done|]. split; [done|]. intros [Hg _] _. congruence. }
  destruct dir as [d|].
  2: { intros [= <- <- <-]. split; [done|]. split; [done|]. split; [done|]. split; [done|]. right. left. split; [done|]. split; [|done].
       cbn in Hdir. by destruct fs. }
  assert (d = dir_of fs) as -> by exact Hdir. destruct (e_list (le_env v)) eqn:Hlist; cbn [negb].
  2: { intros [= <- <- <-]. split; [done|]. split; [done|]. split; [done|]. split; [done|]. right. right. exists (WStore ErrIO).
       split; [done|]. split; [done|]. intros (_ & Hg & _) _. congruence. }
  rewrite listSegments_dir_of by apply Hs. destruct (skipped_split r fs (fo_numbered _ _ _ _ Hok)) as (P & U & Hfs & HP & HU).
  assert (forall f, f ∈ U -> f ∈ fs) as HUf by (intros f Hf; rewrite Hfs; apply elem_of_app; by right).
  assert (forall f, f ∈ P -> f ∈ fs) as HPf by (intros f Hf; rewrite Hfs; apply elem_of_app; by left).
  destruct (ranges_loop _ _ _ _ _ _ _ _ _ _ _ _) as [c1 r1] eqn:Hloop. cbv zeta in Hloop. rewrite Hfs, fmap_app, ranges_skip, <- Hfs in Hloop by done.
  destruct (ranges_loop_spec v k fs cache r cancels 0 U (fr_boundaryID r) [] c c1 r1) as (Hs1 & Hl1 & Hr1); [done|done|by auto| |done|].
  { pose proof (nonempty_firsts_sorted dec header_ok fs (fo_ids _ _ _ _ Hok)) as Hsort. apply StronglySorted_inv in Hsort as [Hsort _].
    rewrite Hfs in Hsort. unfold HistoryLookupInv.nonempty in Hsort. rewrite filter_app, fmap_app in Hsort.
    apply sorted_app in Hsort as (_ & Hsort & _). constructor; [done|]. apply Forall_forall. intros y (f & -> & [Hd Hf]%list_elem_of_filter)%list_elem_of_fmap.
    destruct (first_entry fs f (fo_ids _ _ _ _ Hok) (HUf f Hf)) as (e & He & <- & _); [by rewrite (file_first_pos dec header_ok fs f (fo_ids _ _ _ _ Hok) (HUf f Hf))|].
    by apply (r_after _ _ _ _ _ _ _ Hr f e (HUf f Hf) (HU f Hf)). }
  destruct Hr1 as [->|(err & -> & Hne & Hg)].
  2: { intros [= <- <- <-]. split; [done|]. split; [done|]. split; [done|]. split; [done|]. right. right. by exists err. }
  cbn [app]. assert (forall f e, f ∈ P -> e ∈ elog f -> ID e <= fr_afterID r) as Hbehind.
  { intros f e Hf He. by apply (r_done _ _ _ _ _ _ _ Hr f (HPf f Hf) (HP f Hf)). }
  assert (forall f e, f ∈ U -> e ∈ elog f -> fr_boundaryID r < ID e) as Hahead.
  { intros f e Hf He. by apply (r_after _ _ _ _ _ _ _ Hr f e (HUf f Hf) (HU f Hf)). }
  assert (rg_seg <$> (range_file r <$> U) = ref_of <$> U) as Hrefs by (rewrite <- list_fmap_compose; by apply list_fmap_ext).
  assert (length U <= length fs)%nat as HlU by (rewrite Hfs, length_app; lia).
  destruct (fr_selective r) eqn:Hsel; cbn [negb].
  2: { intros [= <- <- <-]. split; [done|]. split; [done|]. split; [done|]. split; [done|]. left. exists (range_file r <$> U), P, U.
       split; [done|]. split; [|by rewrite length_fmap]. apply scan_begin; try done; [apply (r_bound _ _ _ _ _ _ _ Hr)| |by rewrite Hsel].
       intros i x Hx Hnz. rewrite list_lookup_fmap in Hx. destruct (U !! i); [|done]. by injection Hx as <-. }
  cbv zeta. pose proof (store_ok_bounds dec header_ok maxb k fs c1) as Hs2. set (c2 := prune _ _).
  assert (store_ok k fs c2) as Hs2' by (by apply Hs2).
  pose proof (lookup_ok_prune dec header_ok maxb convID fs c1 cache (ref_of <$> fs) Hl1) as Hl2. fold c2 in Hl2. clear Hs2.
  destruct (set_next_spec (range_file r <$> U)) as (N1 & N2 & _).
  assert (length (set_next (range_file r <$> U)) = length U) as Hlen by (apply (f_equal length) in N1; by rewrite !length_fmap in N1).
  assert ((fr_positioned r = true \/ U = []) -> scan_ok fs r (fr_boundaryID r) (top fs) (set_next (range_file r <$> U)) P U []) as Hplain.
  { intros Hpos. apply scan_begin; try done; [by rewrite N1|apply (r_bound _ _ _ _ _ _ _ Hr)| |].
    - intros i x Hx Hnz. destruct (next_spec fs r U 0 i x (fo_ids _ _ _ _ Hok) HUf Hsel Hx Hnz) as (g & e & Hg & He). by exists g, e.
    - intros Hne _. destruct Hpos as [|HU0]; [done|]. by subst U. }
  destruct (fr_positioned r) eqn:Hpos; cbn [negb andb].
  { intros [= <- <- <-]. split; [done|]. split; [done|]. split; [done|]. split; [done|]. left. eexists _, P, U. split; [done|].
    split; [apply Hplain; by left|lia]. }
  case_bool_decide as Hemp; cbn [negb].
  { intros [= <- <- <-]. split; [done|]. split; [done|]. split; [done|]. split; [done|]. left. eexists _, P, U. split; [done|].
    split; [apply Hplain; right|lia]. rewrite Hemp in Hlen. by destruct U. }
  pose proof (r_fresh _ _ _ _ _ _ _ Hr Hsel Hpos) as Hfresh. assert (P = []) as ->.
  { destruct P as [|f P']; [done|]. pose proof (fresh_skips r fs f Hok Hfresh (HPf f ltac:(by left))) as Hx.
    rewrite (HP f ltac:(by left)) in Hx. done. }
  cbn [app] in Hfs. subst U.
  pose proof (select_spec fs (fr_afterID r) 0 (set_next (range_file r <$> fs)) None 0 Hok) as Hselect.
  rewrite N2, <- list_fmap_compose in Hselect. specialize (Hselect ltac:(apply list_fmap_ext; intros i f _; cbn; by rewrite Hsel) ltac:(lia)).
  specialize (Hselect ltac:(split; [done|intros f e Hf; by apply elem_of_nil in Hf])).
  destruct (select _ _ _ _ _) as [[s b]|].
  - destruct Hselect as [Hb Hlt]. destruct (lookup_lt_is_Some_2 fs s Hlt) as [f Hf].
    assert (from_option (fun x => sr_num (rg_seg x)) 0 (head (drop s (set_next (range_file r <$> fs)))) = f.1) as Hnum.
    { apply (f_equal (fun l => l !! s)) in N1. rewrite Hrefs, !list_lookup_fmap, Hf in N1.
      destruct (set_next (range_file r <$> fs) !! s) as [x|] eqn:Hx; [|done]. rewrite (drop_S _ x s Hx). cbn in *. injection N1 as N1. by rewrite N1. }
    rewrite Hnum. destruct Hfresh as [_ ->]. intros [= <- <- <-]. split; [done|]. split; [done|].
    split; [by apply (reader_positioned a0 fs r D s b f)|]. split; [done|]. left. eexists _, (take s fs), (drop s fs). split; [done|].
    split; [|rewrite length_drop; lia]. destruct Hb as (Hb1 & Hb2 & Hb3). apply scan_begin; try done.
    + by rewrite take_drop.
    + by rewrite !fmap_drop, N1, Hrefs.
    + intros i x Hx Hnz. by apply (next_spec fs r fs s i x (fo_ids _ _ _ _ Hok)).
  - intros [= <- <- <-]. destruct Hselect as [_ Hnone]. split; [done|]. split; [done|]. split; [|split; [done|]].
    + destruct Hr as [R1 R2 R3 R4 R5 R6 R7 R8]. by constructor.
    + left. eexists _, [], fs. split; [done|]. split; [|lia]. apply scan_begin; try done; [by rewrite N1|apply (r_bound _ _ _ _ _ _ _ Hr)|].
      intros i x Hx Hnz. destruct (next_spec fs r fs 0 i x (fo_ids _ _ _ _ Hok) HUf Hsel Hx Hnz) as (g & e & Hg & He). by exists g, e.
Qed.

Lemma walk_begin_ok v k fs cache cancelled cancels dir c r a0 D through c' r' w :
  store_ok k fs c -> lookup_ok fs c cache -> default [] dir = dir_of fs -> reader_ok a0 fs r D ->
  walk_begin dec header_ok v maxb through cancelled cancels dir c r = (c', r', w) ->
  store_ok k fs c' /\ lookup_ok fs c' cache /\ reader_ok a0 fs r' D /\ fr_afterID r' = fr_afterID r
  /\ walk_ok dec header_ok fs r' through (top fs) w /\ walk_started v cancelled cancels fs w.
Proof.
  intros Hs Hl Hdir Hr. unfold walk_begin, walk_started. destruct cancelled; [by intros [= <- <- <-]|].
  destruct (Z.leb_spec through (fr_afterID r)) as [Hle|Hgt].
  { intros [= <- <- <-]. cbn [walk_ok]. do 4 (split; [done|]). split; [lia|]. intros _ _ _. by left. }
  destruct (forwardSegments _ _ _ _ _ _ _ _) as [[c1 r1] res] eqn:Hseg.
  destruct (forwardSegments_ok v k fs cache cancels dir c r a0 D c1 r1 res Hs Hl Hdir Hr Hseg)
    as (Hs1 & Hl1 & Hr1 & Ha & [(xs & P & S & -> & Hscan & Hlen)|[(-> & -> & ->)|(err & -> & Hne & Hg)]]).
  - intros [= <- <- <-]. do 4 (split; [done|]). split; [split; [done|by exists P, S, []]|]. intros _ _ _. right. eauto 6.
  - intros [= <- <- <-]. do 4 (split; [done|]). destruct (r_seg _ _ _ _ _ _ _ Hr) as [E|E]; [|by apply elem_of_nil in E].
    rewrite E. cbn [Z.eqb walk_ok]. split; [|by left]. pose proof (r_ge _ _ _ _ _ _ _ Hr). unfold HistoryForward.top. change (flog []) with (@nil Entry). cbn [length]. lia.
  - destruct err as [| | |]; intros [= <- <- <-]; (do 4 (split; [done|])); (split; [done|]); intros H1 _ H2; by destruct (Hg H1 H2).
Qed.
End store.

(** ** A consumer beside the store's other calls *)

Section calls.
Context (enc : Entry -> option bytes) (dec : bytes -> option Entry).
Context (json_valid : bytes -> bool) (header_ok : bytes -> bool) (canon : Entry -> Entry).
Context (maxb : Z) (convID : string) (cost : list segEntry -> Z).
#[local] Abbreviation rstate := (option (list dirent) * convLog * segmentCache)%type.
#[local] Abbreviation rstep := (rstep enc dec json_valid header_ok maxb convID cost).

(** The consumer resumes at its position with a new reader, begins a walk
    where none is under way, or takes the next turn of the walk; in between,
    the store's other calls run. A restart ends the walk and the reader. *)
Inductive fop :=
| FStore (o : rop)
| FResume
| FBegin (v : lenv) (throughID : Z) (cancelled : bool) (cancels : nat -> bool)
| FTurn (v : lenv) (cancelled : bool) (answers : nat -> bool * bool).

(** A walk comes with its goal and the length of the log when it began. *)
Record fstate := FState {
  f_store : rstate;
  f_reader : ForwardReader;
  f_walk : option (Z * Z * walk);
  f_out : list (list Entry);
}.

Definition f_log (st : fstate) : list Entry := entry_at <$> stored dec header_ok maxb (f_store st).1.

Definition resumed (st : fstate) : fstate :=
  FState (f_store st) (Forward (fr_afterID (f_reader st))) None (f_out st).

Definition set_store (s : rstate) (st : fstate) : fstate := FState s (f_reader st) (f_walk st) (f_out st).

Definition under_way (st : fstate) : bool :=
  match f_walk st with Some (_, _, Scan _ _ _) => true | _ => false end.

Definition fstep (o : fop) (st : fstate) : fstate :=
  let '(dir, c, cache) := f_store st in
  match o with
  | FStore (RStore OpRestart as o) => resumed (set_store (rstep o (f_store st)) st)
  | FStore o => set_store (rstep o (f_store st)) st
  | FResume => resumed st
  | FBegin v through cancelled cancels =>
      if under_way st then st
      else
        let '(c, r, w) := walk_begin dec header_ok v maxb through cancelled cancels dir c (f_reader st) in
        FState (dir, c, cache) r (Some (through, Z.of_nat (length (f_log st)), w)) (f_out st)
  | FTurn v cancelled answers =>
      match f_walk st with
      | Some (through, tb, Scan t prev segs) =>
          let '(r, out, w) := walk_segment dec header_ok v maxb cancelled answers dir (f_reader st) t prev segs in
          FState (f_store st) r (Some (through, tb, w)) (f_out st ++ out)
      | _ => st
      end
  end.

Definition frun (os : list fop) (st : fstate) : fstate := foldl (fun st o => fstep o st) st os.

Definition fstart (a0 limit : Z) : fstate := FState (None, new_convLog, empty_cache limit) (Forward a0) None [].

Section laws.
Context (Hcost : forall es, 0 <= cost es).
Context (Henc : forall e l, enc e = Some l -> (newline ∉ l) /\ dec l = Some (canon e)).
Context (Hcanon : forall e, ID (canon e) = ID e /\ displayableEntry (canon e) = displayableEntry e).
Context (Hheader : header_ok header = true).
#[local] Abbreviation flog := (flog dec header_ok).
#[local] Abbreviation top := (top dec header_ok).
#[local] Abbreviation store_ok := (store_ok dec header_ok maxb).
#[local] Abbreviation lookup_ok := (lookup_ok dec header_ok maxb convID).
#[local] Abbreviation reader_ok := (reader_ok dec header_ok maxb).
#[local] Abbreviation walk_ok := (walk_ok dec header_ok).
#[local] Abbreviation files_ok := (files_ok dec header_ok maxb).

Definition paged (out : list (list Entry)) : Prop := Forall (fun c => (length c <= Z.to_nat MaxPageEntries)%nat) out.

Record sys_ok (a0 k : Z) (fs : files) (st : fstate) : Prop := SysOK {
  y_dir : default [] (f_store st).1.1 = dir_of fs;
  y_store : store_ok k fs (f_store st).1.2;
  y_lookup : lookup_ok fs (f_store st).1.2 (f_store st).2;
  y_reader : reader_ok a0 fs (f_reader st) (f_out st);
  y_paged : paged (f_out st);
  y_walk : match f_walk st with None => True | Some (through, tb, w) => walk_ok fs (f_reader st) through tb w end;
}.

Lemma f_log_flog k fs st :
  store_ok k fs (f_store st).1.2 -> default [] (f_store st).1.1 = dir_of fs -> f_log st = flog fs.
Proof. intros Hs Hd. unfold f_log. by destruct (stored_fpos dec header_ok maxb (f_store st).1 fs) as [-> _]; [apply Hs|apply Hs| |]. Qed.

Lemma sys_log a0 k fs st : sys_ok a0 k fs st -> f_log st = flog fs.
Proof. intros H. by eapply f_log_flog; apply H. Qed.

(** A new reader at the position of one. *)
Lemma reader_resumed a0 fs r D : files_ok fs -> reader_ok a0 fs r D -> reader_ok a0 fs (Forward (fr_afterID r)) D.
Proof.
  intros Hok [H1 H2 H3 H4 H5 H6 H7 H8]. constructor; try done; [by left| | |].
  - intros f Hf Hsk. by rewrite (fresh_skips dec header_ok maxb (Forward (fr_afterID r)) fs f Hok (conj eq_refl eq_refl) Hf) in Hsk.
  - cbn. unfold HistoryForward.top. lia.
  - intros f e Hf _ He. cbn. pose proof (ids_top dec header_ok fs e (fo_ids _ _ _ _ Hok) ltac:(by eapply elog_in)). lia.
Qed.

Lemma walk_grown fs fs' r through tb w :
  files_ok fs -> files_ok fs' -> grown dec header_ok maxb fs fs' -> walk_ok fs r through tb w -> walk_ok fs' r through tb w.
Proof.
  intros Hok Hok' Hg. destruct w as [t prev xs|]; [|done]. intros (-> & P & S & T & Hs). split; [done|].
  by eapply (scan_grown dec header_ok maxb fs fs').
Qed.

Lemma sys_resumed a0 k fs st : sys_ok a0 k fs st -> sys_ok a0 k fs (resumed st).
Proof.
  intros H. constructor; try apply H; [|done]. cbn. apply reader_resumed; [by eapply store_files, H|apply H].
Qed.

Lemma sys_store a0 k fs st o :
  sys_ok a0 k fs st -> 0 <= k -> k + 1 < 2 ^ 64 -> exists fs', sys_ok a0 (k + 1) fs' (set_store (rstep o (f_store st)) st).
Proof.
  intros H Hk0 Hk. destruct (rstep_ok enc dec json_valid header_ok canon maxb convID cost Hcost Henc Hcanon Hheader o k fs (f_store st))
    as (fs' & Hd & Hs & Hl & Hg); [apply H|apply H|done|done|apply H|]. exists fs'.
  pose proof (store_files _ _ _ _ _ _ (y_store _ _ _ _ H)) as Hok. pose proof (store_files _ _ _ _ _ _ Hs) as Hok'.
  constructor; try done; [|apply H|].
  - by eapply (reader_grown dec header_ok maxb), H.
  - cbn. pose proof (y_walk _ _ _ _ H) as Hw. destruct (f_walk st) as [[[through tb] w]|]; [|done]. by eapply (walk_grown fs fs').
Qed.

Lemma sys_begin a0 k fs st v through cancelled cancels :
  sys_ok a0 k fs st ->
  sys_ok a0 k fs (fstep (FBegin v through cancelled cancels) st)
  /\ (under_way st = false -> f_log (fstep (FBegin v through cancelled cancels) st) = f_log st
      /\ exists w, f_walk (fstep (FBegin v through cancelled cancels) st) = Some (through, Z.of_nat (length (f_log st)), w)
        /\ walk_started v cancelled cancels fs w).
Proof.
  intros H. pose proof (sys_log _ _ _ _ H) as Hlog. pose proof H as [Hd Hs Hl Hr Hp Hw].
  destruct st as [[[dir c] cache] r wk out]. cbn [fstep f_store f_reader f_out fst snd] in *.
  destruct (under_way _) eqn:Hu; [done|].
  destruct (walk_begin _ _ _ _ _ _ _ _ _ _) as [[c' r'] w] eqn:Hb.
  destruct (walk_begin_ok dec header_ok maxb convID v k fs cache cancelled cancels dir c r a0 out through c' r' w)
    as (Hs' & Hl' & Hr' & Ha & Hw' & Hst); [done..|].
  assert (sys_ok a0 k fs (FState (dir, c', cache) r' (Some (through, Z.of_nat (length (f_log (FState (dir, c, cache) r wk out))), w)) out)) as Hsys.
  { constructor; try done. cbn [f_walk f_reader]. by rewrite Hlog. }
  split; [done|]. intros _. split; [|eauto]. by rewrite (sys_log _ _ _ _ Hsys).
Qed.

Lemma sys_turn a0 k fs st v cancelled answers :
  sys_ok a0 k fs st ->
  sys_ok a0 k fs (fstep (FTurn v cancelled answers) st) /\
  forall through tb t prev xs, f_walk st = Some (through, tb, Scan t prev xs) ->
    good_env v -> cancelled = false -> (forall j, answers j = (false, true)) ->
    exists w, f_walk (fstep (FTurn v cancelled answers) st) = Some (through, tb, w)
      /\ (w = Over None \/ exists p ys, w = Scan t p ys /\ length xs = S (length ys)).
Proof.
  intros H. pose proof H as [Hd Hs Hl Hr Hp Hw]. destruct st as [[[dir c] cache] r wk out].
  cbn [fstep f_store f_reader f_walk f_out fst snd] in *.
  destruct wk as [[[through tb] [t prev xs|res]]|]; [|by split|by split]. destruct Hw as (-> & P & S & T & Hscan).
  destruct (walk_segment _ _ _ _ _ _ _ _ _ _ _) as [[r' out'] w] eqn:Hseg.
  destruct (walk_segment_ok dec header_ok maxb a0 fs v dir cancelled answers r out prev tb xs P S T through r' out' w)
    as (Hr' & Hw' & Hsz & _ & Hgood); [by eapply store_files|done..|].
  split; [constructor; try done; by apply Forall_app|].
  intros ? ? ? ? ? [= <- <- <- <- <-] Hv Hc Ha. exists w. split; [done|]. by apply Hgood.
Qed.

Lemma sys_step a0 k fs st o :
  sys_ok a0 k fs st -> 0 <= k -> k + 1 < 2 ^ 64 -> exists fs', sys_ok a0 (k + 1) fs' (fstep o st).
Proof.
  intros H Hk0 Hk. assert (forall fs st, sys_ok a0 k fs st -> exists fs', sys_ok a0 (k + 1) fs' st) as Hmono.
  { intros fs1 st1 [H1 H2 H3 H4 H5 H6]. exists fs1. constructor; try done. by apply (store_ok_le _ _ _ k); [lia|]. }
  pose proof (sys_store a0 k fs st) as Hst.
  destruct o as [o| |v through cancelled cancels|v cancelled answers].
  - specialize (Hst o H Hk0 Hk). unfold fstep. destruct (f_store st) as [[dir c] cache] eqn:E. cbn zeta iota. rewrite <- E in *.
    destruct o as [[]|]; try done. destruct Hst as [fs' Hfs']. exists fs'. by apply sys_resumed.
  - apply (Hmono fs). unfold fstep. destruct (f_store st) as [[dir c] cache]. by apply sys_resumed.
  - apply (Hmono fs). by apply sys_begin.
  - apply (Hmono fs). by apply sys_turn.
Qed.

Lemma sys_run a0 os k fs st :
  sys_ok a0 k fs st -> 0 <= k -> k + Z.of_nat (length os) < 2 ^ 64 - 1 ->
  exists fs', sys_ok a0 (k + Z.of_nat (length os)) fs' (frun os st).
Proof.
  revert k fs st. induction os as [|o os IH]; intros k fs st H Hk0 Hk; cbn [length] in *; [exists fs; by rewrite Z.add_0_r|].
  destruct (sys_step a0 k fs st o H Hk0 ltac:(lia)) as [fs1 H1].
  destruct (IH (k + 1) fs1 (fstep o st) H1 ltac:(lia) ltac:(lia)) as [fs2 H2]. exists fs2. cbn [frun foldl].
  by replace (k + Z.of_nat (S (length os))) with (k + 1 + Z.of_nat (length os)) by lia.
Qed.

Lemma sys_start a0 limit : 0 <= a0 -> 0 <= limit -> sys_ok a0 0 [] (fstart a0 limit).
Proof.
  intros Ha Hlim. constructor; try done; [apply store_ok_init|by apply (lookup_ok_restart dec header_ok maxb convID [] (empty_cache limit))| |].
  - constructor; cbn; try done; [by left|by left|intros f Hf; by apply elem_of_nil in Hf|intros f e Hf; by apply elem_of_nil in Hf].
  - by constructor.
Qed.

(** ** Progress *)

(** The calls beside which a walk goes on: turns whose reads and deliveries
    work, and calls of the store in the same process. *)
Definition goes_on (o : fop) : Prop :=
  match o with
  | FStore o => o <> RStore OpRestart
  | FTurn v cancelled answers => good_env v /\ cancelled = false /\ forall j, answers j = (false, true)
  | _ => False
  end.

Definition is_turn (o : fop) : bool := match o with FTurn _ _ _ => true | _ => false end.
Definition turns (os : list fop) : nat := length (filter is_turn os).

Lemma turns_cons o os : turns (o :: os) = ((if is_turn o then 1 else 0) + turns os)%nat.
Proof. unfold turns. rewrite filter_cons. by destruct (is_turn o). Qed.

Lemma goes_on_walk o st : goes_on o -> f_walk (fstep o st) = f_walk st \/ is_turn o = true.
Proof.
  intros Hg. destruct o as [o| | |]; [|done|done|by right]. left. unfold fstep. destruct (f_store st) as [[dir c] cache].
  destruct o as [[]|]; try done; by destruct Hg.
Qed.

Lemma walk_finishes a0 os k fs st through tb w :
  sys_ok a0 k fs st -> 0 <= k -> k + Z.of_nat (length os) < 2 ^ 64 - 1 -> Forall goes_on os ->
  f_walk st = Some (through, tb, w) -> (w = Over None \/ exists t p ys, w = Scan t p ys) -> (remaining w <= turns os)%nat ->
  f_walk (frun os st) = Some (through, tb, Over None).
Proof.
  revert k fs st w. induction os as [|o os IH]; intros k fs st w H Hk0 Hk Hos Hwk Hw Hrem; cbn [length] in *.
  { destruct Hw as [->|(t & p & ys & ->)]; [done|]. cbn in Hrem. lia. }
  apply Forall_cons in Hos as [Ho Hos]. destruct (sys_step a0 k fs st o H Hk0 ltac:(lia)) as [fs1 H1]. rewrite turns_cons in Hrem.
  destruct Hw as [->|(t & p & ys & ->)].
  { apply (IH (k + 1) fs1 _ (Over None)); try done; [lia|lia| |by left|cbn; lia].
    destruct (goes_on_walk o st Ho) as [->|Ht]; [done|]. destruct o as [| | |v ca an]; try done. unfold fstep. rewrite Hwk. by destruct (f_store st) as [[? ?] ?]. }
  destruct (is_turn o) eqn:Ht.
  - destruct o as [| | |v ca an]; try done. destruct Ho as (Hv & Hc & Ha).
    destruct (sys_turn a0 k fs st v ca an H) as [_ Hprog]. destruct (Hprog _ _ _ _ _ Hwk Hv Hc Ha) as (w' & Hw' & Hcase).
    apply (IH (k + 1) fs1 _ w'); try done; [lia|lia| |]; destruct Hcase as [->|(p' & ys' & -> & Hlen)]; [by left|by right; eauto| |]; cbn in *; lia.
  - destruct (goes_on_walk o st Ho) as [Heq|Ht']; [|congruence]. apply (IH (k + 1) fs1 _ (Scan t p ys)); try done; [lia|lia|by rewrite Heq|by right; eauto].
Qed.
End laws.
End calls.

(** C35. A consumer reads the log forward exactly once, in order. It starts
    after id [a0] and runs beside any other calls of the store: appends that
    may fail or tear, lookups, restarts; its walks may be cancelled, its reads
    may fail and its callback may refuse a chunk, and it may resume at its
    last delivered id. At every point what was delivered, chunk after chunk,
    is exactly the stored entries after [a0] up to its position, no chunk is
    longer than a page, and a walk that returned without an error delivered
    everything up to its goal that was stored when it began. And from every
    point, a new walk comes to its end within one turn more than there are
    segments, however many appends run between its turns, where its own reads
    and deliveries work. *)
Theorem forward_exact enc dec json_valid header_ok canon maxb convID cost limit a0 os :
  (forall e l, enc e = Some l -> (newline ∉ l) /\ dec l = Some (canon e)) ->
  (forall e, ID (canon e) = ID e /\ displayableEntry (canon e) = displayableEntry e) ->
  header_ok header = true -> (forall es, 0 <= cost es) -> 0 <= limit -> 0 <= a0 -> Z.of_nat (length os) < 2 ^ 64 - 1 ->
  let run := frun enc dec json_valid header_ok maxb convID cost in
  let st := run os (fstart a0 limit) in
  concat (f_out st) = between a0 (fr_afterID (f_reader st)) (f_log dec header_ok maxb st)
  /\ paged (f_out st)
  /\ (forall through stored, f_walk st = Some (through, stored, Over None) -> Z.min through stored <= fr_afterID (f_reader st))
  /\ (forall v through os', good_env v -> Forall goes_on os' -> Z.of_nat (length os) + 2 + Z.of_nat (length os') < 2 ^ 64 - 1 ->
        (length (listSegments (default [] (f_store st).1.1)) < turns os')%nat ->
        f_walk (run (FResume :: FBegin v through false (fun _ => false) :: os') st)
        = Some (through, Z.of_nat (length (f_log dec header_ok maxb st)), Over None)).
Proof.
  intros Henc Hcanon Hh Hcost Hlim Ha Hlen run st.
  destruct (sys_run enc dec json_valid header_ok canon maxb convID cost Hcost Henc Hcanon Hh a0 os 0 [] (fstart a0 limit)) as [fs H];
    [by apply sys_start|done|lia|]. change (frun _ _ _ _ _ _ _ os (fstart a0 limit)) with st in H.
  pose proof (sys_log _ _ _ _ _ _ _ _ H) as Hlog. split; [by rewrite Hlog; apply H|]. split; [apply H|]. split.
  { intros through tb Hw. pose proof (y_walk _ _ _ _ _ _ _ _ H) as Hwalk. by rewrite Hw in Hwalk. }
  intros v through os' Hv Hos' Hlen' Hturns. rewrite (y_dir _ _ _ _ _ _ _ _ H), listSegments_dir_of, length_fmap in Hturns by apply H.
  pose proof (sys_resumed _ _ _ _ _ _ _ _ H) as Hres.
  destruct (sys_begin enc dec json_valid header_ok maxb convID cost _ _ _ _ v through false (fun _ => false) Hres) as [Hb Hb'].
  destruct (Hb' eq_refl) as (_ & w & Hw & Hstart). specialize (Hstart Hv eq_refl (fun _ => eq_refl)).
  unfold run. cbn [frun foldl]. rewrite Z.add_0_l in *.
  assert (fstep enc dec json_valid header_ok maxb convID cost FResume st = resumed st) as Er
    by (unfold fstep; by destruct (f_store st) as [[? ?] ?]).
  fold (frun enc dec json_valid header_ok maxb convID cost). rewrite Er.
  change (f_log dec header_ok maxb st) with (f_log dec header_ok maxb (resumed st)).
  apply (walk_finishes enc dec json_valid header_ok canon maxb convID cost Hcost Henc Hcanon Hh a0 os' _ _ _ _ _ w Hb); try done; [lia|lia| |].
  - destruct Hstart as [->|(t & p & ys & -> & _)]; [by left|right; eauto].
  - destruct Hstart as [->|(t & p & ys & -> & Hys)]; cbn; lia.
Qed.

(** A consumer of two-entry segments: it walks to 5 with an append between
    two of its turns, has a delivery refused, and goes on after a restart. *)
Definition example_append : fop := FStore (RStore (OpAppend reader "message" (bs "1") 0 None None)).
Definition example_turn (ok : bool) : fop := FTurn example_reader false (fun _ => (false, ok)).
Definition example_consumer : list fop :=
  replicate 7 example_append
  ++ [FBegin example_reader 5 false (fun _ => false); example_turn true; example_append; example_turn true;
      example_turn false; FStore (RStore OpRestart); example_append].
Definition example_ending : list fop := [example_append] ++ replicate 6 (example_turn true).
#[local] Abbreviation example_forward :=
  (frun mini_enc mini_dec (fun _ => true) mini_header 46 example_id example_cost).

Lemma example_reader_good : good_env example_reader.
Proof. done. Qed.

Lemma example_ending_good : Forall goes_on example_ending.
Proof. repeat (constructor; [done|]). constructor. Qed.

Lemma forward_exact_witness :
  let st := example_forward example_consumer (fstart 1 4) in
  ID <$> concat (f_out st) = [2; 3; 4]
  /\ concat (f_out st) = between 1 (fr_afterID (f_reader st)) (f_log mini_dec mini_header 46 st)
  /\ f_walk (example_forward (FResume :: FBegin example_reader 9 false (fun _ => false) :: example_ending) st)
     = Some (9, Z.of_nat (length (f_log mini_dec mini_header 46 st)), Over None).
Proof.
  pose proof (forward_exact mini_enc mini_dec (fun _ => true) mini_header mini_canon 46 example_id example_cost 4 1 example_consumer
    mini_enc_dec (fun e => conj eq_refl eq_refl) eq_refl (fun es => Zle_0_nat (length es)) ltac:(lia) ltac:(lia) eq_refl) as H.
  cbv zeta in H. destruct H as (H1 & _ & _ & H4). cbv zeta. split; [by vm_compute|]. split; [exact H1|].
  assert (length (listSegments (default [] (f_store (example_forward example_consumer (fstart 1 4))).1.1)) = 5%nat) as Hsegs
    by (vm_compute; reflexivity).
  refine (H4 example_reader 9 example_ending example_reader_good example_ending_good eq_refl _). rewrite Hsegs. apply Nat.ltb_lt. reflexivity.
Defined.
End HistoryForwardProps.
