(* ===== verification/Attachments.v ===== *)
(** * Attachment uploads ([internal/attachments])

    [admission.go], [accumulator.go], [registry.go], [filename.go],
    [storage.go] and [intake.go]: chunks of a file arrive in any order, are
    checked against the declaration the transfer was admitted under, and the
    verified bytes are filed under the conversation. *)
From Stdlib Require Import Ascii String.
From stdpp Require Import prelude gmap strings list.
From stdpp Require Import countable.
From S2P Require Import Prelude Utf8 Conversations AtomicFile.

Module Attachments.
Import Utf8 AtomicFile.

Local Open Scope Z_scope.
Local Open Scope pyry_scope.

Inductive attachError :=
| ErrTotalChunksMismatch | ErrIndexOutOfRange | ErrDuplicateIndex | ErrSizeMismatch | ErrDigestMismatch
| ErrIncomplete | ErrInvalidDeclaration | ErrUploadTooLarge | ErrTooManyUploads | ErrUnknownUpload
| ErrConversationMismatch | ErrInvalidID | ErrNotContained | ErrWriteFailed | ErrNotFound
| ErrFilesystem. (* the errors of [os] and [filepath] that carry no sentinel *)

#[export] Instance attachError_eq_dec : EqDecision attachError.
Proof. solve_decision. Defined.

Abbreviation result A := (A + attachError)%type.

Definition maxUploadBytes : Z := Z.shiftl 16 20.
Definition maxInFlightUploads : Z := 4.
Definition uploadIdleTimeout : Z := 15 * minute.
Definition MaxAttachmentChunkBytes : Z := 45000.
Definition MaxAttachmentFilenameBytes : Z := 255.

Record AttachmentChunk := MkChunk {
  AttachmentID : string; ConversationID : string; Index : Z; TotalChunks : Z; Size : Z;
  SHA256 : string; Filename : string; Data : string;
}.

(** ** Admission ([admission.go]) *)

Definition CheckDeclaration (totalChunks size : Z) : option attachError :=
  if size <? 0 then Some ErrInvalidDeclaration
  else
    let want := Z.quot size MaxAttachmentChunkBytes in
    let want := if negb (Z.rem size MaxAttachmentChunkBytes =? 0) then want + 1 else want in
    let want := Z.max want 1 in
    if negb (totalChunks =? want) then Some ErrInvalidDeclaration else None.

Definition CheckDeclaredSize (size : Z) : option attachError :=
  if maxUploadBytes <? size then Some ErrUploadTooLarge else None.

(** ** Accumulating chunks ([accumulator.go]) *)

Record Accumulator := MkAccumulator {
  totalChunks : Z; size_ : Z; sha256 : string;
  chunks : gmap Z string; received : Z; rejected : option attachError;
}.

Definition NewAccumulator (total size : Z) (digest : string) : Accumulator :=
  MkAccumulator total size digest ∅ 0 None.

Definition reject (err : attachError) (a : Accumulator) : Accumulator :=
  MkAccumulator (totalChunks a) (size_ a) (sha256 a) ∅ (received a) (Some err).

Definition Add (chunk : AttachmentChunk) (a : Accumulator) : Accumulator * option attachError :=
  match rejected a with
  | Some err => (a, Some err)
  | None =>
      let refuse err := (reject err a, Some err) in
      if negb (TotalChunks chunk =? totalChunks a) then refuse ErrTotalChunksMismatch
      else if (Index chunk <? 0) || (totalChunks a <=? Index chunk) then refuse ErrIndexOutOfRange
      else if bool_decide (is_Some (chunks a !! Index chunk)) then refuse ErrDuplicateIndex
      else if maxUploadBytes - received a <? slen (Data chunk) then refuse ErrUploadTooLarge
      else (MkAccumulator (totalChunks a) (size_ a) (sha256 a) (<[Index chunk := Data chunk]> (chunks a))
              (received a + slen (Data chunk)) None, None)
  end.

(** The assembly loop. *)
Definition joined (a : Accumulator) : string :=
  foldl (fun out i => (out +:+ default "" (chunks a !! i))%string) "" (seqZ 0 (totalChunks a)).

(** [crypto/sha256.Sum256]. *)
Section sha.
Context (Sum256 : string -> list Z).

Definition Assemble (a : Accumulator) : Accumulator * result string :=
  match rejected a with
  | Some err => (a, inr err)
  | None =>
      if (totalChunks a <? 1) || negb (Z.of_nat (size (chunks a)) =? totalChunks a) then (a, inr ErrIncomplete)
      else
        let out := joined a in
        if negb (slen out =? size_ a) then (reject ErrSizeMismatch a, inr ErrSizeMismatch)
        else if negb (bool_decide (hex (Sum256 out) = sha256 a)) then (reject ErrDigestMismatch a, inr ErrDigestMismatch)
        else (a, inl out)
  end.

End sha.

(** ** Transfers in flight ([registry.go]) *)

Record entry := MkEntry { acc : Accumulator; lastChunkAt : instant; conversationID : string }.
Abbreviation uploadKey := (string * string)%type.
Abbreviation Registry := (@gmap uploadKey _ (@prod_countable string _ String.countable string _ String.countable) entry).

Definition NewRegistry : Registry := ∅.

Definition reapExpiredLocked (now : instant) (r : Registry) : Registry :=
  filter (fun kv => bool_decide (uploadIdleTimeout < Sub now (lastChunkAt kv.2)) = false) r.

(** [insertLocked]; the clock is read by the reap and, later, for the stamp. *)
Definition insertLocked (now1 now2 : instant) (connID attachmentID : string) (a : Accumulator) (r : Registry)
  : Registry * result (Accumulator * bool) :=
  let r := reapExpiredLocked now1 r in
  let key := (connID, attachmentID) in
  match r !! key with
  | Some held => (r, inl (acc held, false))
  | None =>
      if maxInFlightUploads <=? Z.of_nat (size r) then (r, inr ErrTooManyUploads)
      else (<[key := MkEntry a now2 ""]> r, inl (a, true))
  end.

Definition Admit (now1 now2 : instant) (connID attachmentID : string) (total size : Z) (digest : string) (r : Registry)
  : Registry * result Accumulator :=
  match CheckDeclaration total size with
  | Some err => (r, inr err)
  | None =>
      match CheckDeclaredSize size with
      | Some err => (r, inr err)
      | None =>
          match insertLocked now1 now2 connID attachmentID (NewAccumulator total size digest) r with
          | (r, inr err) => (r, inr err)
          | (r, inl (upload, _)) => (r, inl upload)
          end
      end
  end.

Definition Lookup (connID attachmentID : string) (r : Registry) : option Accumulator :=
  acc <$> r !! (connID, attachmentID).

Definition lookupAndStamp (now1 now2 : instant) (connID : string) (chunk : AttachmentChunk) (r : Registry)
  : Registry * result (option Accumulator) :=
  let r := reapExpiredLocked now1 r in
  let key := (connID, AttachmentID chunk) in
  match r !! key with
  | None => (r, inl None)
  | Some u =>
      if negb (bool_decide (conversationID u = "")) && negb (bool_decide (conversationID u = ConversationID chunk))
      then (r, inr ErrConversationMismatch)
      else (<[key := MkEntry (acc u) now2 (ConversationID chunk)]> r, inl (Some (acc u)))
  end.

Definition Release (connID attachmentID : string) (r : Registry) : Registry := delete (connID, attachmentID) r.

Definition ReleaseConn (connID : string) (r : Registry) : Registry :=
  filter (fun kv => kv.1.1 <> connID) r.

(** The registry's entry and the caller hold one accumulator: what [Add] and
    [Assemble] do to it, the entry sees. *)
Definition set_acc (key : uploadKey) (a : Accumulator) (r : Registry) : Registry :=
  alter (fun u => MkEntry a (lastChunkAt u) (conversationID u)) key r.

Definition Deliver (Sum256 : string -> list Z) (now1 now2 : instant) (connID : string) (chunk : AttachmentChunk) (r : Registry)
  : Registry * result string :=
  let key := (connID, AttachmentID chunk) in
  match lookupAndStamp now1 now2 connID chunk r with
  | (r, inr err) => (r, inr err)
  | (r, inl None) => (r, inr ErrUnknownUpload)
  | (r, inl (Some upload)) =>
      match Add chunk upload with
      | (upload, Some err) => (Release connID (AttachmentID chunk) (set_acc key upload r), inr err)
      | (upload, None) =>
          match Assemble Sum256 upload with
          | (upload, inr ErrIncomplete) => (set_acc key upload r, inr ErrIncomplete)
          | (upload, out) => (Release connID (AttachmentID chunk) (set_acc key upload r), out)
          end
      end
  end.

(** ** File names ([filename.go]) *)

Definition fallbackFilename : string := "attachment".

(** The runes [SanitizeFilename] keeps. *)
Definition kept_rune (r : Z) : bool :=
  in_range 97 122 r || in_range 65 90 r || in_range 48 57 r || (r =? 95) || (r =? 46) || (r =? 45).

(** Each pass drops at least one byte: the length is enough fuel. *)
Fixpoint truncate_fuel (fuel : nat) (s : string) (maxBytes : Z) : string :=
  match fuel with
  | O => s
  | S fuel =>
      if maxBytes <? slen s
      then truncate_fuel fuel (stake (String.length s - DecodeLastRune s) s) maxBytes
      else s
  end.
Definition truncateToBytes (s : string) (maxBytes : Z) : string := truncate_fuel (String.length s) s maxBytes.

(** The loop over the runes: what is written, and whether any rune was kept. *)
Definition sanitize_runes (name : string) : string :=
  string_of_list_ascii ((fun p => if kept_rune p.1 then ascii_of_N (Z.to_N p.1) else ascii_of_N 95) <$> runes name).

Definition SanitizeFilename (name : string) : string :=
  if negb (existsb (fun p => kept_rune p.1) (runes name)) then fallbackFilename
  else
    let out := sanitize_runes name in
    let out := if byte_at out 0 =? 46 then ("_" +:+ out)%string else out in
    truncateToBytes out MaxAttachmentFilenameBytes.

(** ** Storage ([storage.go]) *)

(** A clean absolute path is the list of its components. *)
Abbreviation path := (list string).
Definition path_str (p : path) : string := foldr (fun c s => ("/" +:+ c +:+ s)%string) "" p.

(** What the file system answers [EnsureDir], call by call. *)
Record dirEnv := DirEnv {
  d_abs : option path;                    (* filepath.Abs *)
  d_mkroot : bool;                        (* MkdirAll of the instance directory *)
  d_root : path -> option path;           (* EvalSymlinks of it *)
  d_exists : path -> bool;                (* Lstat *)
  d_existing : path -> option path;       (* EvalSymlinks of the part that exists *)
  d_mkdir : bool;                         (* MkdirAll of the destination *)
  d_final : path -> option path;          (* EvalSymlinks of it *)
}.

(** The walk up to the deepest part that exists: [up] is it, last component
    first, [rest] the components below it. *)
Fixpoint climb (exists_ : path -> bool) (up rest : path) : path * path :=
  match up with
  | [] => ([], rest)
  | c :: up' => if exists_ (reverse up) then (reverse up, rest) else climb exists_ up' (c :: rest)
  end.

Definition destination (root : path) (conversationID attachmentID : string) : path :=
  root ++ ["conversations"; conversationID; "attachments"; attachmentID].

Definition EnsureDir (d : dirEnv) (conversationID attachmentID : string) : result path :=
  if negb (Conversations.ValidID conversationID) then inr ErrInvalidID
  else if negb (Conversations.ValidID attachmentID) then inr ErrInvalidID
  else match d_abs d with
  | None => inr ErrFilesystem
  | Some abs =>
      if negb (d_mkroot d) then inr ErrFilesystem
      else match d_root d abs with
      | None => inr ErrFilesystem
      | Some root =>
          let want := destination root conversationID attachmentID in
          let '(existing, rest) := climb (d_exists d) (reverse want) [] in
          match d_existing d existing with
          | None => inr ErrFilesystem
          | Some existingReal =>
              let candidate := existingReal ++ rest in
              if negb (bool_decide (candidate = want)) then inr ErrNotContained
              else if negb (d_mkdir d) then inr ErrFilesystem
              else match d_final d want with
              | None => inr ErrFilesystem
              | Some final => if negb (bool_decide (final = want)) then inr ErrNotContained else inl final
              end
          end
      end
  end.

(** What happens to the file sequence of one [Store]. *)
Record storeEnv := StoreEnv {
  w_fails : AtomicFile.stage -> bool;
  w_partial : string;
  w_random : string;                      (* CreateTemp's random part *)
}.

Definition temp_name (random : string) : string := (".attachment-" +:+ random +:+ ".tmp")%string.

Definition Store (w : storeEnv) (dir : path) (filename data : string) (f : AtomicFile.fs)
  : AtomicFile.fs * result path :=
  let p := dir ++ [SanitizeFilename filename] in
  match AtomicFile.write_atomic (fun st => negb (bool_decide (st = AtomicFile.SMkdir)) && w_fails w st) (w_partial w)
          (path_str p) (path_str (dir ++ [temp_name (w_random w)])) data f with
  | (f, None) => (f, inl p)
  | (f, Some _) => (f, inr ErrWriteFailed)
  end.

(** [ResolvePath]; [listing] is what [ReadDir] gives: names with whether they
    are regular files. *)
Record resolveEnv := ResolveEnv {
  r_abs : option path;
  r_root : path -> option path;
  r_want : path -> option path;
  r_listing : path -> option (list (string * bool));
}.

Definition ResolvePath (r : resolveEnv) (conversationID attachmentID : string) : result path :=
  if negb (Conversations.ValidID conversationID) || negb (Conversations.ValidID attachmentID) then inr ErrNotFound
  else match (abs ← r_abs r; r_root r abs) with
  | None => inr ErrNotFound
  | Some root =>
      let want := destination root conversationID attachmentID in
      match r_want r want with
      | None => inr ErrNotFound
      | Some resolved =>
          if negb (bool_decide (resolved = want)) then inr ErrNotFound
          else match r_listing r want with
          | None => inr ErrNotFound
          | Some entries =>
              match find_first (fun e => negb (byte_at e.1 0 =? 46) && e.2) entries with
              | Some e => inl (want ++ [e.1])
              | None => inr ErrNotFound
              end
          end
      end
  end.

(** ** Receiving a chunk ([intake.go]) *)

(** The four readings of the clock one [Receive] can take. *)
Record clock := Clock { t_admit_reap : instant; t_admit : instant; t_find_reap : instant; t_find : instant }.

Section intake.
Context (Sum256 : string -> list Z).

Definition with_conversation (conversationID : string) (c : AttachmentChunk) : AttachmentChunk :=
  MkChunk (AttachmentID c) conversationID (Index c) (TotalChunks c) (Size c) (SHA256 c) (Filename c) (Data c).

(** Filing the bytes of a complete transfer. *)
Definition file_bytes (d : dirEnv) (w : storeEnv) (conversationID : string) (c : AttachmentChunk) (data : string)
    (f : AtomicFile.fs) : AtomicFile.fs * result (string * bool) :=
  match EnsureDir d conversationID (AttachmentID c) with
  | inr err => (f, inr err)
  | inl dir =>
      match Store w dir (Filename c) data f with
      | (f, inr err) => (f, inr err)
      | (f, inl _) => (f, inl (AttachmentID c, true))
      end
  end.

Definition Receive (t : clock) (d : dirEnv) (w : storeEnv) (connID conversationID : string) (chunk : AttachmentChunk)
    (reg : Registry) (f : AtomicFile.fs) : Registry * AtomicFile.fs * result (string * bool) :=
  let admitted :=
    match Lookup connID (AttachmentID chunk) reg with
    | Some _ => (reg, None)
    | None =>
        match Admit (t_admit_reap t) (t_admit t) connID (AttachmentID chunk) (TotalChunks chunk) (Size chunk)
                (SHA256 chunk) reg with
        | (reg, inr err) => (reg, Some err)
        | (reg, inl _) => (reg, None)
        end
    end in
  match admitted with
  | (reg, Some err) => (reg, f, inr err)
  | (reg, None) =>
      let chunk := with_conversation conversationID chunk in
      match Deliver Sum256 (t_find_reap t) (t_find t) connID chunk reg with
      | (reg, inr ErrIncomplete) => (reg, f, inl ("", false))
      | (reg, inr err) => (reg, f, inr err)
      | (reg, inl data) => let '(f, r) := file_bytes d w conversationID chunk data f in (reg, f, r)
      end
  end.
End intake.

End Attachments.
