(* ===== verification/AttachmentsProps.v ===== *)
(** * Attachment uploads: file names, assembly in any order, bounds and
    confinement *)
From Stdlib Require Import Ascii String ZArith Lia.
From stdpp Require Import prelude gmap strings list.
From S2P Require Import Prelude Utf8 Conversations AtomicFile Attachments.

Module AttachmentsProps.
Import Utf8 AtomicFile Attachments.

Local Open Scope Z_scope.
Local Open Scope pyry_scope.

(** ** ASCII strings *)

Fixpoint sall (p : ascii -> bool) (s : string) : bool :=
  match s with EmptyString => true | String c s => p c && sall p s end.
Definition is_ascii (c : ascii) : bool := byte c <? 128.
Definition kept (c : ascii) : bool := kept_rune (byte c).

Lemma kept_ascii c : kept c = true -> is_ascii c = true.
Proof.
  unfold kept, kept_rune, is_ascii. pose proof (byte_range c). unfold in_range.
  rewrite !orb_true_iff, !andb_true_iff, !Z.leb_le, !Z.eqb_eq, Z.ltb_lt. lia.
Qed.

Lemma sall_impl p q s : (forall c, p c = true -> q c = true) -> sall p s = true -> sall q s = true.
Proof.
  intros H. induction s as [|c s IH]; [done|]. cbn [sall]. rewrite !andb_true_iff. intros [? ?]. auto.
Qed.

Lemma runes_ascii s : sall is_ascii s = true -> runes s = (fun c => (byte c, 1%nat)) <$> list_ascii_of_string s.
Proof.
  induction s as [|c s IH]; [done|]. cbn [sall]. intros [Hc Hs]%andb_true_iff.
  rewrite runes_cons by done. unfold is_ascii in Hc.
  assert (DecodeRune (String c s) = (byte c, 1%nat)) as ->.
  { unfold DecodeRune. change (byte_at (String c s) 0) with (byte c). by rewrite Hc. }
  cbn [snd sdrop list_ascii_of_string]. rewrite fmap_cons. by rewrite IH.
Qed.

Lemma byte_at_all p s i : sall p s = true -> (i < String.length s)%nat -> exists c, byte_at s i = byte c /\ p c = true.
Proof.
  revert i. induction s as [|c s IH]; intros i; cbn [sall String.length]; [lia|].
  intros [Hc Hs]%andb_true_iff Hi. destruct i as [|i]; [by exists c|]. apply IH; [done|lia].
Qed.

Lemma sall_stake p n s : sall p s = true -> sall p (stake n s) = true.
Proof.
  revert s. induction n as [|n IH]; intros [|c s]; try done. cbn [stake sall].
  intros [-> Hs]%andb_true_iff. by apply IH.
Qed.

Lemma stake_stake n m s : stake n (stake m s) = stake (Nat.min n m) s.
Proof.
  revert m s. induction n as [|n IH]; intros [|m] [|c s]; try done. cbn [stake Nat.min]. by rewrite IH.
Qed.

Lemma stake_all n s : (String.length s <= n)%nat -> stake n s = s.
Proof.
  revert s. induction n as [|n IH]; intros [|c s]; cbn [String.length stake]; try done; [lia|].
  intros H. rewrite IH; [done|lia].
Qed.

(** On ASCII the truncation is by bytes. *)
Lemma truncate_ascii s m : sall is_ascii s = true -> 0 <= m -> truncateToBytes s m = stake (Z.to_nat m) s.
Proof.
  intros Hs Hm. unfold truncateToBytes.
  assert (forall fuel s, sall is_ascii s = true -> (String.length s <= fuel)%nat ->
            truncate_fuel fuel s m = stake (Z.to_nat m) s) as H; [|by apply H].
  clear s Hs. induction fuel as [|fuel IH]; intros s Hs Hf.
  { destruct s; [by destruct (Z.to_nat m)|cbn in Hf; lia]. }
  cbn [truncate_fuel]. destruct (m <? slen s) eqn:E; reflect_bools; unfold slen in E.
  - assert (DecodeLastRune s = 1%nat) as ->.
    { unfold DecodeLastRune, slen. rewrite (proj2 (Z.eqb_neq _ _)) by lia.
      destruct (byte_at_all is_ascii s (Z.to_nat (Z.of_nat (String.length s) - 1)) Hs ltac:(lia)) as (c & -> & Hc).
      unfold is_ascii in Hc. by rewrite Hc. }
    rewrite IH; [|by apply sall_stake|rewrite slength_stake; lia]. rewrite stake_stake. f_equal. lia.
  - rewrite stake_all by lia. done.
Qed.

(** ** File names *)

Definition safe_name (s : string) : Prop :=
  s <> "" /\ slen s <= MaxAttachmentFilenameBytes /\ sall kept s = true /\ byte_at s 0 <> 46.

Lemma string_of_list_ascii_all p l : sall p (string_of_list_ascii l) = forallb p l.
Proof. induction l as [|c l IH]; [done|]. cbn. by rewrite IH. Qed.

Lemma kept_back r : kept_rune r = true -> kept (ascii_of_N (Z.to_N r)) = true.
Proof.
  intros H. unfold kept, byte. rewrite N_ascii_embedding; [|revert H; unfold kept_rune, in_range;
    rewrite !orb_true_iff, !andb_true_iff, !Z.leb_le, !Z.eqb_eq; lia].
  rewrite Z2N.id; [done|]. revert H. unfold kept_rune, in_range.
  rewrite !orb_true_iff, !andb_true_iff, !Z.leb_le, !Z.eqb_eq. lia.
Qed.

Lemma sanitize_runes_kept name : sall kept (sanitize_runes name) = true.
Proof.
  unfold sanitize_runes. rewrite string_of_list_ascii_all. apply forallb_forall.
  intros c (p & -> & _)%list_elem_of_In%list_elem_of_fmap. destruct (kept_rune p.1) eqn:E; [by apply kept_back|done].
Qed.

Lemma sanitize_runes_id s : sall kept s = true -> sanitize_runes s = s /\ (s <> "" -> existsb (fun p => kept_rune p.1) (runes s) = true).
Proof.
  intros Hs. unfold sanitize_runes. rewrite runes_ascii by (eapply sall_impl; [apply kept_ascii|done]). split.
  - rewrite <- list_fmap_compose. rewrite <- (string_of_list_ascii_of_string s) at 2. f_equal.
    rewrite <- (list_fmap_id (list_ascii_of_string s)) at 2. apply list_fmap_ext. intros i c Hi.
    assert (kept c = true) as Hc.
    { apply list_elem_of_lookup_2, list_elem_of_In in Hi. rewrite <- (string_of_list_ascii_of_string s), string_of_list_ascii_all in Hs.
      rewrite forallb_forall in Hs. by apply Hs. }
    unfold compose, kept in *. cbn [fst]. rewrite Hc. unfold byte. rewrite N2Z.id. apply ascii_N_embedding.
  - destruct s as [|c s]; [done|]. intros _. cbn [list_ascii_of_string sall] in *. rewrite fmap_cons. cbn [existsb fst].
    apply andb_true_iff in Hs as [Hc _]. unfold kept in Hc. by rewrite Hc.
Qed.

Lemma safe_stake s : sall kept s = true -> s <> "" -> byte_at s 0 <> 46 -> safe_name (stake 255 s).
Proof.
  intros Hk Hne Hd. destruct s as [|c s]; [done|]. split; [done|]. split.
  - unfold slen, MaxAttachmentFilenameBytes. rewrite slength_stake. lia.
  - split; [by apply sall_stake|done].
Qed.

Lemma SanitizeFilename_safe name : safe_name (SanitizeFilename name).
Proof.
  unfold SanitizeFilename. destruct (existsb _ _) eqn:He; cbn [negb]; [|repeat split; by vm_compute].
  pose proof (sanitize_runes_kept name) as Hk. assert (sanitize_runes name <> "") as Hne.
  { unfold sanitize_runes. by destruct (runes name). }
  cbv zeta. destruct (_ =? 46) eqn:Hd; reflect_bools.
  - rewrite truncate_ascii; [|cbn [sall]|done].
    + apply safe_stake; [|done|done]. change (sall kept (String "_" (sanitize_runes name)) = true). cbn [sall]. by rewrite Hk.
    + change (sall is_ascii (String "_" (sanitize_runes name)) = true). cbn [sall].
      by rewrite (sall_impl kept is_ascii _ kept_ascii Hk).
  - rewrite truncate_ascii; [|by eapply sall_impl; [apply kept_ascii|]|done]. by apply safe_stake.
Qed.

Lemma SanitizeFilename_id s : safe_name s -> SanitizeFilename s = s.
Proof.
  intros (Hne & Hl & Hk & Hd). destruct (sanitize_runes_id s Hk) as [Hid He]. unfold SanitizeFilename.
  rewrite (He Hne), Hid. cbn [negb]. cbv zeta. rewrite (proj2 (Z.eqb_neq _ _)) by done.
  rewrite truncate_ascii; [|by eapply sall_impl; [apply kept_ascii|]|done].
  apply stake_all. unfold slen in Hl. lia.
Qed.

(** Whatever name a client claims, the stored file's name is one to 255
    bytes, all of them letters, digits, underscores, dots and dashes, and does
    not begin with a dot: it has no separator and is no hidden or relative
    name. A name that already is so is kept, and no other is. *)
Theorem stored_name_safe name :
  safe_name (SanitizeFilename name) /\ (SanitizeFilename name = name <-> safe_name name).
Proof.
  split; [apply SanitizeFilename_safe|]. split; [|apply SanitizeFilename_id].
  intros <-. apply SanitizeFilename_safe.
Qed.

(** ** Filing *)

Lemma sapp_inv s t u : (s +:+ t)%string = (s +:+ u)%string -> t = u.
Proof. induction s as [|c s IH]; [done|]. cbn. intros [= H]. by apply IH. Qed.

Lemma sapp_assoc (s t u : string) : ((s +:+ t) +:+ u)%string = (s +:+ (t +:+ u))%string.
Proof. induction s as [|c s IH]; [done|]. exact (f_equal (String c) IH). Qed.

Lemma path_str_app p q : path_str (p ++ q) = (path_str p +:+ path_str q)%string.
Proof.
  induction p as [|c p IH]; [done|]. change (path_str ((c :: p) ++ q)) with ("/" +:+ c +:+ path_str (p ++ q))%string.
  rewrite IH. change (path_str (c :: p)) with ("/" +:+ c +:+ path_str p)%string. by rewrite !sapp_assoc.
Qed.

(** The temporary is never the file itself. *)
Lemma temp_other dir name r : path_str (dir ++ [SanitizeFilename name]) <> path_str (dir ++ [temp_name r]).
Proof.
  rewrite !path_str_app. intros H%sapp_inv. destruct (SanitizeFilename_safe name) as (Hne & _ & _ & Hd).
  destruct (SanitizeFilename name) as [|c s]; [done|]. injection H as -> _. by apply Hd.
Qed.

Lemma Store_spec w dir name data f f' r :
  f !! path_str (dir ++ [temp_name (w_random w)]) = None ->
  Store w dir name data f = (f', r) ->
  match r with
  | inl p => p = dir ++ [SanitizeFilename name] /\ f' = <[path_str p := data]> f
  | inr _ => up_to_temp (w_fails w) (path_str (dir ++ [temp_name (w_random w)])) f f'
  end.
Proof.
  intros Hfresh. unfold Store. rewrite write_atomic_spec; [|apply temp_other|done].
  destruct (find_first _ _) as [st|]; intros [= <- <-]; [|done].
  by destruct (left_over_temp (fun st => negb (bool_decide (st = SMkdir)) && w_fails w st) (w_partial w)
    (path_str (dir ++ [temp_name (w_random w)])) data f Hfresh st) as [H|[H1 H2]]; [left|right].
Qed.

Lemma EnsureDir_spec d conv aid p :
  EnsureDir d conv aid = inl p ->
  Conversations.ValidID conv = true /\ Conversations.ValidID aid = true
  /\ exists abs root, d_abs d = Some abs /\ d_root d abs = Some root
       /\ p = destination root conv aid /\ d_final d p = Some p.
Proof.
  unfold EnsureDir. destruct (Conversations.ValidID conv); [|done]. destruct (Conversations.ValidID aid); [|done].
  cbn [negb]. destruct (d_abs d) as [abs|]; [|done]. destruct (d_mkroot d); [|done]. cbn [negb].
  destruct (d_root d abs) as [root|] eqn:Hr; [|done]. cbv zeta.
  destruct (climb _ _ _) as [existing rest]. destruct (d_existing d existing); [|done].
  case_bool_decide; [|done]. cbn [negb]. destruct (d_mkdir d); [|done]. cbn [negb].
  destruct (d_final d _) as [final|] eqn:Hf; [|done]. case_bool_decide as Hw; [|done]. intros [= <-]. subst final.
  split; [done|]. split; [done|]. by exists abs, root.
Qed.

(** ** One transfer *)

Definition lens (m : gmap Z string) : Z := map_fold (fun _ d n => slen d + n) 0 m.

Lemma lens_insert i d m : m !! i = None -> lens (<[i := d]> m) = slen d + lens m.
Proof.
  intros H. unfold lens. rewrite map_fold_insert_L; [done| |done]. intros. lia.
Qed.

Record acc_ok (a : Accumulator) : Prop := AccOK {
  ao_received : 0 <= received a <= maxUploadBytes;
  ao_held : rejected a = None -> received a = lens (chunks a);
  ao_dropped : rejected a <> None -> chunks a = ∅;
  ao_index : forall i d, chunks a !! i = Some d -> 0 <= i < totalChunks a;
}.

Lemma slen_nonneg s : 0 <= slen s.
Proof. unfold slen. lia. Qed.

Lemma New_ok total size digest : acc_ok (NewAccumulator total size digest).
Proof. by constructor. Qed.

Lemma reject_ok err a : acc_ok a -> acc_ok (reject err a).
Proof. intros [H1 _ _ _]. by constructor. Qed.

(** What [Add] does when it accepts, and that otherwise it discards. *)
Lemma Add_spec chunk a a' r :
  Add chunk a = (a', r) ->
  match r with
  | None => rejected a = None /\ TotalChunks chunk = totalChunks a /\ 0 <= Index chunk < totalChunks a
            /\ chunks a !! Index chunk = None /\ slen (Data chunk) <= maxUploadBytes - received a
            /\ a' = MkAccumulator (totalChunks a) (size_ a) (sha256 a) (<[Index chunk := Data chunk]> (chunks a))
                      (received a + slen (Data chunk)) None
  | Some err => rejected a' = Some err /\ (a' = a \/ a' = reject err a)
  end.
Proof.
  unfold Add. destruct (rejected a) eqn:Hr; [intros [= <- <-]; auto|]. cbv zeta.
  destruct (negb _) eqn:?; [intros [= <- <-]; by auto|]. destruct (_ || _) eqn:?; [intros [= <- <-]; by auto|].
  destruct (bool_decide _) eqn:?; [intros [= <- <-]; by auto|]. destruct (maxUploadBytes - _ <? _) eqn:?; [intros [= <- <-]; by auto|].
  intros [= <- <-]. reflect_bools.
  rewrite <- eq_None_not_Some in *. by repeat split.
Qed.

Lemma Add_ok chunk a a' r : acc_ok a -> Add chunk a = (a', r) -> acc_ok a'.
Proof.
  intros Ha Hadd. pose proof (Add_spec _ _ _ _ Hadd) as Hs. destruct r as [err|].
  - destruct Hs as [_ [-> | ->]]; [done|by apply reject_ok].
  - destruct Hs as (Hr & _ & Hi & Hn & Hl & ->). destruct Ha as [H1 H2 _ H4].
    pose proof (slen_nonneg (Data chunk)). constructor; cbn; [lia| |done|].
    + intros _. rewrite lens_insert, <- H2 by done. lia.
    + intros i d [[<- _]|[_ Hd]]%lookup_insert_Some; [done|by eapply H4].
Qed.

(** ** The transfers in flight *)

Definition reg_ok (r : Registry) : Prop :=
  Z.of_nat (size r) <= maxInFlightUploads
  /\ forall key u, r !! key = Some u -> acc_ok (acc u) /\ rejected (acc u) = None /\ 0 <= size_ (acc u) <= maxUploadBytes.

Lemma reap_lookup (now : instant) (r : Registry) key (u : entry) :
  reapExpiredLocked now r !! key = Some u <-> r !! key = Some u /\ Sub now (lastChunkAt u) <= uploadIdleTimeout.
Proof.
  unfold reapExpiredLocked. rewrite map_lookup_filter_Some. cbn [snd]. rewrite bool_decide_eq_false. by rewrite Z.nlt_ge.
Qed.

Lemma subset_ok (r r' : Registry) : reg_ok r -> r' ⊆ r -> reg_ok r'.
Proof.
  intros [Hs Hu] Hsub. split.
  - assert (size r' <= size r)%nat; [|lia]. by apply map_subseteq_size.
  - intros key u Hk. apply (Hu key). by eapply lookup_weaken.
Qed.

Lemma reap_subset (now : instant) (r : Registry) : reapExpiredLocked now r ⊆ r.
Proof. apply map_subseteq_spec. intros key u [H _]%reap_lookup. done. Qed.

Lemma insert_entry_ok (r : Registry) key (u : entry) :
  reg_ok r -> (is_Some (r !! key) \/ Z.of_nat (size r) < maxInFlightUploads) ->
  acc_ok (acc u) -> rejected (acc u) = None -> 0 <= size_ (acc u) <= maxUploadBytes ->
  reg_ok (<[key := u]> r).
Proof.
  intros [Hs Hu] Hroom Ha Hr Hz. split.
  - rewrite map_size_insert. destruct (r !! key); [done|]. destruct Hroom as [[? [=]]|]; lia.
  - intros k v [[<- <-]|[_ Hv]]%lookup_insert_Some; [done|by eapply Hu].
Qed.

Lemma declared_ok total size : CheckDeclaration total size = None -> CheckDeclaredSize size = None -> 0 <= size <= maxUploadBytes.
Proof.
  unfold CheckDeclaration, CheckDeclaredSize. destruct (size <? 0) eqn:H1; [done|].
  destruct (maxUploadBytes <? size) eqn:H2; [done|]. reflect_bools. lia.
Qed.

Lemma Admit_ok now1 now2 conn aid total size digest r r' res :
  reg_ok r -> Admit now1 now2 conn aid total size digest r = (r', res) -> reg_ok r'.
Proof.
  intros Hr. pose proof (subset_ok _ _ Hr (reap_subset now1 r)) as Hr1.
  unfold Admit. destruct (CheckDeclaration _ _) eqn:Hd; [by intros [= <- <-]|].
  destruct (CheckDeclaredSize _) eqn:Hz; [by intros [= <- <-]|]. unfold insertLocked. cbv zeta.
  destruct (reapExpiredLocked now1 r !! _); [by intros [= <- <-]|].
  destruct (_ <=? _) eqn:Hs; [by intros [= <- <-]|]. intros [= <- <-]. reflect_bools.
  apply insert_entry_ok; [done|by right|apply New_ok|done|]. cbn. by eapply declared_ok.
Qed.

Section sha.
Context (Sum256 : string -> list Z).
#[local] Abbreviation Assemble := (Assemble Sum256).
#[local] Abbreviation Deliver := (Deliver Sum256).
#[local] Abbreviation Receive := (Receive Sum256).

Definition complete (a : Accumulator) : Prop := 1 <= totalChunks a /\ Z.of_nat (size (chunks a)) = totalChunks a.

Lemma Assemble_spec a a' r :
  rejected a = None -> Assemble a = (a', r) ->
  match r with
  | inl out => a' = a /\ complete a /\ out = joined a /\ slen out = size_ a /\ hex (Sum256 out) = sha256 a
  | inr ErrIncomplete => a' = a /\ ~ complete a
  | inr err => complete a /\ rejected a' = Some err
  end.
Proof.
  intros Hr. unfold Attachments.Assemble, complete. rewrite Hr. cbv zeta.
  destruct (_ || _) eqn:Hc.
  - intros [= <- <-]. split; [done|]. apply orb_true_iff in Hc. rewrite Z.ltb_lt, negb_true_iff, Z.eqb_neq in Hc. lia.
  - apply orb_false_iff in Hc as [H1 H2]. rewrite negb_false_iff, Z.eqb_eq in H2. apply Z.ltb_ge in H1.
    destruct (negb (slen _ =? _)) eqn:H3; [by intros [= <- <-]|].
    destruct (negb (bool_decide _)) eqn:H4; [by intros [= <- <-]|]. intros [= <- <-]. by reflect_bools.
Qed.

Lemma set_acc_insert key a (u : entry) (r : Registry) :
  set_acc key a (<[key := u]> r) = <[key := MkEntry a (lastChunkAt u) (conversationID u)]> r.
Proof. unfold set_acc. by rewrite alter_insert_eq. Qed.

Definition same_conversation (u : entry) (chunk : AttachmentChunk) : Prop :=
  conversationID u = "" \/ conversationID u = ConversationID chunk.

(** The outcomes of [Deliver], with what each leaves of the transfer. *)
Lemma Deliver_cases (now1 now2 : instant) conn chunk (r r' : Registry) res :
  let r1 := reapExpiredLocked now1 r in
  let key := (conn, AttachmentID chunk) in
  (forall u, r !! key = Some u -> rejected (acc u) = None) ->
  Deliver now1 now2 conn chunk r = (r', res) ->
  (r1 !! key = None /\ r' = r1 /\ res = inr ErrUnknownUpload)
  \/ exists u, r1 !! key = Some u /\
      ((~ same_conversation u chunk /\ r' = r1 /\ res = inr ErrConversationMismatch)
       \/ (same_conversation u chunk /\
           ((exists a err, Add chunk (acc u) = (a, Some err) /\ r' = delete key r1 /\ res = inr err)
            \/ exists a, Add chunk (acc u) = (a, None) /\
               ((~ complete a /\ r' = <[key := MkEntry a now2 (ConversationID chunk)]> r1 /\ res = inr ErrIncomplete)
                \/ (complete a /\ r' = delete key r1 /\ res = (Assemble a).2 /\ res <> inr ErrIncomplete))))).
Proof.
  intros r1 key Hrej. unfold Attachments.Deliver, lookupAndStamp. cbv zeta. fold r1. fold key.
  destruct (r1 !! key) as [u|] eqn:Hu; [|intros [= <- <-]; by left]. intros H. right. exists u. split; [done|].
  assert (rejected (acc u) = None) as Hru by (apply reap_lookup in Hu as [Hu _]; by eapply Hrej).
  destruct (negb _ && negb _) eqn:Hm.
  { injection H as <- <-. left. split; [|done]. unfold same_conversation. reflect_bools. naive_solver. }
  right. assert (same_conversation u chunk) as Hsame.
  { unfold same_conversation. apply andb_false_iff in Hm as [Hm|Hm]; reflect_bools; auto. }
  split; [done|]. destruct (Add chunk (acc u)) as [a [err|]] eqn:Hadd.
  - injection H as <- <-. left. exists a, err. split; [done|]. split; [|done].
    unfold Release. by rewrite set_acc_insert, delete_insert_eq.
  - right. exists a. split; [done|]. assert (rejected a = None) as Hra
      by (by apply Add_spec in Hadd as (_ & _ & _ & _ & _ & ->)).
    destruct (Assemble a) as [a' out] eqn:Has. pose proof (Assemble_spec _ _ _ Hra Has) as Hsp.
    unfold Release in H. rewrite !set_acc_insert, !delete_insert_eq in H. cbn [snd].
    destruct out as [out|[]]; injection H as <- <-;
      try (right; split; [apply Hsp|]; by split; [|split]).
    left. destruct Hsp as [-> Hsp]. by split; [|split].
Qed.
Lemma Deliver_ok now1 now2 conn chunk (r r' : Registry) res :
  reg_ok r -> Deliver now1 now2 conn chunk r = (r', res) -> reg_ok r'.
Proof.
  intros Hr H. pose proof (subset_ok _ _ Hr (reap_subset now1 r)) as Hr1. pose proof Hr1 as [_ Hu1].
  apply Deliver_cases in H; [|intros u Hu; by apply Hr in Hu as (_ & ? & _)].
  destruct H as [(_ & -> & _)|(u & Hu & [(_ & -> & _)|(_ & [(a & err & _ & -> & _)|(a & Hadd & [(_ & -> & _)|(_ & -> & _)])])])];
    try done; try (eapply subset_ok; [exact Hr1|apply delete_subseteq]).
  destruct (Hu1 _ _ Hu) as (Ha & Hrej & Hz). pose proof (Add_ok _ _ _ _ Ha Hadd) as Ha'.
  apply Add_spec in Hadd as (_ & _ & _ & _ & _ & ->).
  apply insert_entry_ok; [done|left; by rewrite Hu|done|done|done].
Qed.

Lemma Receive_ok t d w conn conv chunk reg f reg' f' res :
  reg_ok reg -> Receive t d w conn conv chunk reg f = (reg', f', res) -> reg_ok reg'.
Proof.
  intros Hr. unfold Attachments.Receive. cbv zeta.
  destruct (Lookup _ _ _); [|destruct (Admit _ _ _ _ _ _ _ _) as [reg1 [|err]] eqn:Ha;
    pose proof (Admit_ok _ _ _ _ _ _ _ _ _ _ Hr Ha) as Hr1; [|by intros [= <- _ _]]].
  - destruct (Deliver _ _ _ _ reg) as [reg2 out] eqn:Hd. pose proof (Deliver_ok _ _ _ _ _ _ _ Hr Hd) as Hr2.
    destruct out as [data|[]]; try (by intros [= <- _ _]). destruct (file_bytes _ _ _ _ _ _). by intros [= <- _ _].
  - destruct (Deliver _ _ _ _ reg1) as [reg2 out] eqn:Hd. pose proof (Deliver_ok _ _ _ _ _ _ _ Hr1 Hd) as Hr2.
    destruct out as [data|[]]; try (by intros [= <- _ _]). destruct (file_bytes _ _ _ _ _ _). by intros [= <- _ _].
Qed.

(** ** Runs *)

(** What reaches the intake: chunks, and connections closing. *)
Inductive op :=
| OpReceive (t : clock) (d : dirEnv) (w : storeEnv) (conn conv : string) (chunk : AttachmentChunk)
| OpReleaseConn (conn : string).

Definition do_op (o : op) (st : Registry * AtomicFile.fs) : (Registry * AtomicFile.fs) * option (result (string * bool)) :=
  match o with
  | OpReceive t d w conn conv chunk =>
      let '(reg, f, r) := Receive t d w conn conv chunk st.1 st.2 in ((reg, f), Some r)
  | OpReleaseConn conn => ((ReleaseConn conn st.1, st.2), None)
  end.

Fixpoint do_ops (os : list op) (st : Registry * AtomicFile.fs)
  : (Registry * AtomicFile.fs) * list (option (result (string * bool))) :=
  match os with
  | [] => (st, [])
  | o :: os => let '(st, r) := do_op o st in let '(st, rs) := do_ops os st in (st, r :: rs)
  end.

Lemma do_op_ok o st st' r : reg_ok st.1 -> do_op o st = (st', r) -> reg_ok st'.1.
Proof.
  destruct o as [t d w conn conv chunk|conn]; cbn [do_op]; intros Hr.
  - destruct (Receive _ _ _ _ _ _ _ _) as [[reg f] res] eqn:H. intros [= <- <-]. by eapply Receive_ok.
  - intros [= <- <-]. eapply subset_ok; [exact Hr|]. apply map_filter_subseteq.
Qed.

Lemma do_ops_ok os st : reg_ok st.1 -> reg_ok (do_ops os st).1.1.
Proof.
  revert st. induction os as [|o os IH]; intros st Hr; [done|]. cbn [do_ops].
  destruct (do_op o st) as [st1 r] eqn:H. pose proof (do_op_ok _ _ _ _ Hr H) as Hr1. specialize (IH st1 Hr1).
  by destruct (do_ops os st1).
Qed.

(** The bytes all transfers in flight hold. *)
Definition held (r : Registry) : Z := map_fold (fun _ u n => lens (chunks (acc u)) + n) 0 r.

Lemma held_bound (r : Registry) b :
  0 <= b -> (forall key u, r !! key = Some u -> lens (chunks (acc u)) <= b) -> held r <= Z.of_nat (size r) * b.
Proof.
  intros Hb. unfold held. induction r as [|key u r Hn Hf IH] using map_first_key_ind; intros H.
  { rewrite map_fold_empty, map_size_empty. lia. }
  rewrite map_fold_insert_first_key, map_size_insert_None by done.
  pose proof (H key u ltac:(by rewrite lookup_insert_eq)).
  assert (forall k v, r !! k = Some v -> lens (chunks (acc v)) <= b) as Hr.
  { intros k v Hv. apply (H k). rewrite lookup_insert_ne; [done|]. intros <-. congruence. }
  specialize (IH Hr). lia.
Qed.
End sha.

(** Whatever chunks arrive from whatever connections, and however the
    writes go: at most 4 transfers are in flight, each holds at most 16 MiB,
    counted exactly, at indices below its declared count, so all together
    never hold more than 64 MiB. *)
Theorem inflight_bounded Sum256 os f :
  let reg := (do_ops Sum256 os (NewRegistry, f)).1.1 in
  Z.of_nat (size reg) <= 4 /\ held reg <= 64 * 1024 * 1024
  /\ forall key u, reg !! key = Some u ->
       received (acc u) = lens (chunks (acc u)) /\ 0 <= received (acc u) <= 16 * 1024 * 1024
       /\ forall i d, chunks (acc u) !! i = Some d -> 0 <= i < totalChunks (acc u).
Proof.
  intros reg. assert (reg_ok reg) as [Hs Hu].
  { apply do_ops_ok. split; [done|]. intros key u. cbn [fst]. unfold NewRegistry. by rewrite lookup_empty. }
  assert (forall key u, reg !! key = Some u -> received (acc u) = lens (chunks (acc u))
            /\ 0 <= received (acc u) <= maxUploadBytes) as Hrec.
  { intros key u Hk. destruct (Hu key u Hk) as ([H1 H2 _ _] & Hrej & _). split; [by apply H2|done]. }
  split; [exact Hs|]. split.
  - pose proof (held_bound reg maxUploadBytes ltac:(done)) as Hb. unfold maxInFlightUploads in Hs.
    assert (held reg <= Z.of_nat (size reg) * maxUploadBytes).
    { apply Hb. intros key u Hk. destruct (Hrec key u Hk). lia. }
    change maxUploadBytes with 16777216 in *. lia.
  - intros key u Hk. destruct (Hrec key u Hk) as [H1 H2]. split; [done|]. split; [exact H2|].
    destruct (Hu key u Hk) as ([_ _ _ H4] & _). exact H4.
Qed.

(** [k] indices below [k] are all of them. *)
Lemma full_map k (m : gmap Z string) :
  Z.of_nat (size m) = k -> (forall i d, m !! i = Some d -> 0 <= i < k) -> forall i, is_Some (m !! i) <-> 0 <= i < k.
Proof.
  intros Hs Hin. assert (dom m = list_to_set (seqZ 0 k)) as Hd.
  { apply set_subseteq_size_eq.
    - intros i [d Hd]%elem_of_dom. apply elem_of_list_to_set, elem_of_seqZ. apply Hin in Hd. lia.
    - rewrite size_list_to_set by apply NoDup_seqZ. rewrite size_dom, length_seqZ. lia. }
  intros i. rewrite <- elem_of_dom, Hd, elem_of_list_to_set, elem_of_seqZ. lia.
Qed.

(** ** What gets stored *)

Section stored.
Context (Sum256 : string -> list Z).
#[local] Abbreviation Deliver := (Deliver Sum256).
#[local] Abbreviation Receive := (Receive Sum256).

(** The registry a chunk is delivered to: as it is, or with its transfer
    admitted from the chunk's own declaration. *)
Definition ready (t : clock) (conn : string) (chunk : AttachmentChunk) (reg reg1 : Registry) : Prop :=
  let key := (conn, AttachmentID chunk) in
  match reg !! key with
  | Some _ => reg1 = reg
  | None =>
      CheckDeclaration (TotalChunks chunk) (Size chunk) = None /\ CheckDeclaredSize (Size chunk) = None
      /\ Z.of_nat (size (reapExpiredLocked (t_admit_reap t) reg)) < maxInFlightUploads
      /\ reg1 = <[key := MkEntry (NewAccumulator (TotalChunks chunk) (Size chunk) (SHA256 chunk)) (t_admit t) ""]>
                  (reapExpiredLocked (t_admit_reap t) reg)
  end.

(** The last part of [Receive]. *)
Definition finish (d : dirEnv) (w : storeEnv) (conv : string) (chunk : AttachmentChunk) (f : AtomicFile.fs)
    (out : result string) : AtomicFile.fs * result (string * bool) :=
  match out with
  | inl data => file_bytes d w conv (with_conversation conv chunk) data f
  | inr ErrIncomplete => (f, inl ("", false))
  | inr err => (f, inr err)
  end.

Lemma finish_eq d w conv chunk f (reg2 reg' : Registry) out f' res :
  match out with
  | inl data => let '(f, r) := file_bytes d w conv (with_conversation conv chunk) data f in (reg2, f, r)
  | inr ErrIncomplete => (reg2, f, inl ("", false))
  | inr err => (reg2, f, inr err)
  end = (reg', f', res) -> reg2 = reg' /\ (f', res) = finish d w conv chunk f out.
Proof.
  unfold finish. destruct out as [data|[]]; try (by intros [= <- <- <-]).
  destruct (file_bytes _ _ _ _ _ _). by intros [= <- <- <-].
Qed.

(** [Receive] after its admission: a refusal, or a delivery. *)
Lemma Receive_cases t d w conn conv chunk (reg reg' : Registry) f f' res :
  Receive t d w conn conv chunk reg f = (reg', f', res) ->
  (f' = f /\ (reg' = reg \/ reg' = reapExpiredLocked (t_admit_reap t) reg) /\ exists err, res = inr err)
  \/ exists reg1 out, ready t conn chunk reg reg1
      /\ Deliver (t_find_reap t) (t_find t) conn (with_conversation conv chunk) reg1 = (reg', out)
      /\ (f', res) = finish d w conv chunk f out.
Proof.
  unfold Attachments.Receive, Lookup, ready. cbv zeta.
  destruct (reg !! (conn, AttachmentID chunk)) as [u|] eqn:Hu; csimpl.
  - destruct (Deliver _ _ _ _ reg) as [reg2 out] eqn:Hd. intros [<- H]%finish_eq. right. by exists reg, out.
  - unfold Admit. destruct (CheckDeclaration _ _); [intros [= <- <- <-]; left; eauto 6|].
    destruct (CheckDeclaredSize _); [intros [= <- <- <-]; left; eauto 6|]. unfold insertLocked. cbv zeta.
    assert (reapExpiredLocked (t_admit_reap t) reg !! (conn, AttachmentID chunk) = None) as ->.
    { destruct (reapExpiredLocked _ _ !! _) eqn:E; [|done]. apply reap_lookup in E as [E _]. congruence. }
    destruct (_ <=? _) eqn:Hs; [intros [= <- <- <-]; left; eauto 6|]. apply Z.leb_gt in Hs.
    destruct (Deliver _ _ _ _ _) as [reg2 out] eqn:Hd. intros [<- H]%finish_eq. right. by eexists _, out.
Qed.

Lemma Receive_ready t d w conn conv chunk (reg reg1 reg' : Registry) f f' res :
  ready t conn chunk reg reg1 -> Receive t d w conn conv chunk reg f = (reg', f', res) ->
  exists out, Deliver (t_find_reap t) (t_find t) conn (with_conversation conv chunk) reg1 = (reg', out)
    /\ (f', res) = finish d w conv chunk f out.
Proof.
  unfold Attachments.Receive, ready, Lookup. cbv zeta.
  destruct (reg !! (conn, AttachmentID chunk)) as [u|] eqn:Hu; csimpl.
  - intros ->. destruct (Deliver _ _ _ _ reg) as [reg2 out]. intros [<- H]%finish_eq. eauto.
  - intros (H1 & H2 & H3 & ->). unfold Admit, insertLocked. rewrite H1, H2. cbv zeta.
    assert (reapExpiredLocked (t_admit_reap t) reg !! (conn, AttachmentID chunk) = None) as ->.
    { destruct (reapExpiredLocked _ _ !! _) eqn:E; [|done]. apply reap_lookup in E as [E _]. congruence. }
    rewrite (proj2 (Z.leb_gt _ _)) by done.
    destruct (Deliver _ _ _ _ _) as [reg2 out]. intros [<- H]%finish_eq. eauto.
Qed.

Lemma ready_ok t conn chunk (reg reg1 : Registry) : reg_ok reg -> ready t conn chunk reg reg1 -> reg_ok reg1.
Proof.
  unfold ready. cbv zeta. intros Hr. destruct (reg !! _); [by intros ->|]. intros (H1 & H2 & H3 & ->).
  apply insert_entry_ok; [by eapply subset_ok; [|apply reap_subset]|by right|apply New_ok|done|]. cbn. by eapply declared_ok.
Qed.

(** The accumulator a delivered chunk goes to. *)
Definition transfer (conn : string) (chunk : AttachmentChunk) (reg : Registry) (a : Accumulator) : Prop :=
  match reg !! (conn, AttachmentID chunk) with
  | Some u => a = acc u
  | None => a = NewAccumulator (TotalChunks chunk) (Size chunk) (SHA256 chunk)
  end.

(** No file has changed, but for a temporary left where removing it failed. *)
Definition unfiled (w : storeEnv) (f f' : fs) : Prop :=
  f' = f \/ exists dir, up_to_temp (w_fails w) (path_str (dir ++ [temp_name (w_random w)])) f f'.

Lemma file_bytes_spec d w conv chunk data f f' r :
  (forall dir, f !! path_str (dir ++ [temp_name (w_random w)]) = None) ->
  file_bytes d w conv chunk data f = (f', r) ->
  match r with
  | inl (id, stored) =>
      id = AttachmentID chunk /\ stored = true
      /\ exists root, let dir := destination root conv id in
           d_final d dir = Some dir
           /\ Conversations.ValidID conv = true /\ Conversations.ValidID id = true
           /\ f' = <[path_str (dir ++ [SanitizeFilename (Filename chunk)]) := data]> f
  | inr _ => unfiled w f f'
  end.
Proof.
  intros Hfresh. unfold file_bytes. destruct (EnsureDir _ _ _) as [dir|] eqn:He; [|intros [= <- <-]; by left].
  apply EnsureDir_spec in He as (Hc & Ha & abs & root & _ & _ & -> & Hfin).
  destruct (Store _ _ _ _ _) as [f1 [p|]] eqn:Hs; pose proof (Store_spec _ _ _ _ _ _ _ (Hfresh _) Hs) as Hsp;
    intros [= <- <-]; [|right; eexists; exact Hsp]. destruct Hsp as [-> ->]. split; [done|]. split; [done|]. by exists root.
Qed.
End stored.

(** C28. A chunk answered with "stored" has completed a transfer: every index
    below the declared count arrived once, the bytes joined in index order
    have the length and the digest that the transfer's first chunk declared,
    they were filed, atomically and under the checked name, in the directory
    of the conversation and the attachment, which resolves to itself, the
    transfer is gone, and nothing else was written. No other answer changes
    a file, but that a refused one may leave its temporary, whose name no
    attachment has, where removing it fails. *)
Theorem stored_is_verified Sum256 os f0 t d w conn conv chunk reg f reg' f' res :
  (do_ops Sum256 os (NewRegistry, f0)).1 = (reg, f) ->
  (forall dir, f !! path_str (dir ++ [temp_name (w_random w)]) = None) ->
  Receive Sum256 t d w conn conv chunk reg f = (reg', f', res) ->
  match res with
  | inl (id, true) =>
      exists a a' root data, transfer conn chunk reg a /\ Add (with_conversation conv chunk) a = (a', None)
        /\ id = AttachmentID chunk /\ complete a' /\ data = joined a' /\ slen data = size_ a
        /\ hex (Sum256 data) = sha256 a
        /\ (forall i, is_Some (chunks a' !! i) <-> 0 <= i < totalChunks a)
        /\ (let dir := destination root conv id in
            Conversations.ValidID conv = true /\ Conversations.ValidID id = true /\ d_final d dir = Some dir
            /\ f' = <[path_str (dir ++ [SanitizeFilename (Filename chunk)]) := data]> f)
        /\ reg' !! (conn, id) = None
  | inl (_, false) => f' = f
  | inr _ => unfiled w f f'
  end.
Proof.
  intros Hrun Hfresh Hrec. assert (reg_ok reg) as Hreg.
  { change reg with (reg, f).1. rewrite <- Hrun. apply do_ops_ok. split; [done|]. intros key u. cbn [fst].
    unfold NewRegistry. by rewrite lookup_empty. }
  destruct (Receive_cases _ _ _ _ _ _ _ _ _ _ _ _ Hrec) as [(-> & _ & err & ->)|(reg1 & out & Hready & Hd & Hf)]; [by left|].
  pose proof (ready_ok _ _ _ _ _ Hreg Hready) as Hreg1.
  unfold finish in Hf. destruct out as [data|err]; [|destruct err; injection Hf as -> ->; first [done|by left]].
  symmetry in Hf. apply file_bytes_spec in Hf; [|done]. destruct res as [[id stored]|]; [|done].
  destruct Hf as (-> & -> & root & Hfin & Hc & Hv & ->). cbn [with_conversation AttachmentID Filename] in *.
  apply Deliver_cases in Hd; [|intros u Hu; by apply Hreg1 in Hu as (_ & ? & _)]. cbn [with_conversation AttachmentID] in Hd.
  destruct Hd as [(_ & _ & [=])|(u & Hu & [(_ & _ & [=])|(_ & [(a & err & _ & _ & [=])|(a' & Hadd & [(_ & _ & [=])|(Hcom & -> & Hout & _)])])])].
  assert (transfer conn chunk reg (acc u)) as Htr.
  { unfold transfer, ready in *. cbv zeta in Hready. apply reap_lookup in Hu as [Hu _].
    destruct (reg !! _) eqn:Hk; [subst reg1; congruence|]. destruct Hready as (_ & _ & _ & ->).
    rewrite lookup_insert_eq in Hu. by injection Hu as <-. }
  apply reap_lookup in Hu as [Hu _]. apply Hreg1 in Hu as (Haok & Hrej & _).
  pose proof (Add_ok _ _ _ _ Haok Hadd) as Ha'.
  pose proof Hadd as (_ & _ & _ & _ & _ & Heq)%Add_spec.
  destruct (Assemble Sum256 a') as [a2 out2] eqn:Has. pose proof (Assemble_spec Sum256 a' a2 out2) as Hsp.
  cbn [snd] in Hout. subst out2. destruct Hsp as (_ & _ & -> & Hl & Hh); [by rewrite Heq|done|].
  exists (acc u), a', root, (joined a'). split; [done|]. split; [done|]. split; [done|]. split; [done|]. split; [done|].
  split; [by rewrite Hl, Heq|]. split; [by rewrite Hh, Heq|]. split; [|split; [done|by rewrite lookup_delete_eq]].
  replace (totalChunks (acc u)) with (totalChunks a') by (by rewrite Heq).
  apply full_map; [apply Hcom|]. apply Ha'.
Qed.

(** ** A whole upload *)

Definition join (l : list string) : string := foldr String.append "" l.

Section upload.
Context (Sum256 : string -> list Z) (pieces : list string) (conn aid conv : string).
#[local] Abbreviation Deliver := (Deliver Sum256).
#[local] Abbreviation Receive := (Receive Sum256).
#[local] Abbreviation do_ops := (do_ops Sum256).
#[local] Abbreviation do_op := (do_op Sum256).

Definition whole : string := join pieces.
Definition count : Z := Z.of_nat (length pieces).
Definition piece (i : Z) : string := default "" (pieces !! Z.to_nat i).
Definition size_of (l : list Z) : nat := sum_list_with (fun i => String.length (piece i)) l.

Lemma pieces_seqZ : piece <$> seqZ 0 count = pieces.
Proof.
  apply list_eq. intros i. rewrite list_lookup_fmap. unfold count, piece.
  destruct (decide (i < length pieces)%nat) as [Hi|Hi].
  - rewrite lookup_seqZ_lt by lia. csimpl. rewrite Z.add_0_l, Nat2Z.id. by destruct (lookup_lt_is_Some_2 pieces i Hi) as [x ->].
  - rewrite lookup_seqZ_ge by lia. symmetry. apply lookup_ge_None. lia.
Qed.

Lemma slen_app s t : slen (s +:+ t)%string = slen s + slen t.
Proof.
  unfold slen. induction s as [|c s IH]; [done|].
  change (String.length (String c s +:+ t)) with (S (String.length (s +:+ t))). cbn [String.length]. lia.
Qed.

Lemma slen_join l : slen (join l) = Z.of_nat (sum_list_with String.length l).
Proof. induction l as [|s l IH]; [done|]. cbn [join foldr sum_list_with]. fold (join l). rewrite slen_app, IH. unfold slen. lia. Qed.

Lemma size_of_all : Z.of_nat (size_of (seqZ 0 count)) = slen whole.
Proof.
  unfold whole. rewrite slen_join. rewrite <- pieces_seqZ. f_equal. unfold size_of.
  induction (seqZ 0 count) as [|i l IH]; [done|]. csimpl. by rewrite IH.
Qed.

Lemma size_of_part l : NoDup l -> (forall i, i ∈ l -> 0 <= i < count) -> Z.of_nat (size_of l) <= slen whole.
Proof.
  intros Hn Hin. rewrite <- size_of_all.
  assert (l ⊆+ seqZ 0 count) as (l' & Hp)%submseteq_Permutation.
  { apply NoDup_submseteq; [done|]. intros i Hi%Hin. apply elem_of_seqZ. lia. }
  unfold size_of. rewrite Hp, sum_list_with_app. lia.
Qed.

(** The accumulator after the chunks with the indices [got] arrived. *)
Record partial (got : list Z) (a : Accumulator) : Prop := Partial {
  pa_total : totalChunks a = count;
  pa_size : size_ a = slen whole;
  pa_digest : sha256 a = hex (Sum256 whole);
  pa_alive : rejected a = None;
  pa_nodup : NoDup got;
  pa_range : forall i, i ∈ got -> 0 <= i < count;
  pa_chunks : chunks a = list_to_map ((fun i => (i, piece i)) <$> got);
  pa_received : received a = Z.of_nat (size_of got);
}.

Lemma got_keys (got : list Z) : ((fun i => (i, piece i)) <$> got).*1 = got.
Proof. rewrite <- list_fmap_compose. apply list_fmap_id. Qed.

Lemma partial_lookup got a i : partial got a -> chunks a !! i = if decide (i ∈ got) then Some (piece i) else None.
Proof.
  intros Hp. rewrite (pa_chunks _ _ Hp). case_decide as Hi.
  - apply elem_of_list_to_map_1; [rewrite got_keys; apply Hp|]. apply list_elem_of_fmap. eauto.
  - apply not_elem_of_list_to_map_1. by rewrite got_keys.
Qed.

Lemma partial_add got a chunk :
  partial got a -> slen whole <= maxUploadBytes -> Index chunk ∉ got -> 0 <= Index chunk < count ->
  TotalChunks chunk = count -> Data chunk = piece (Index chunk) ->
  exists a', Add chunk a = (a', None) /\ partial (Index chunk :: got) a'.
Proof.
  intros Hp Hmax Hi Hr Ht Hd. pose proof Hp as [H1 H2 H3 H4 H5 H6 H7 H8]. unfold Add. rewrite H4. cbv zeta.
  assert (NoDup (Index chunk :: got)) as Hn by (by constructor).
  assert (forall i, i ∈ Index chunk :: got -> 0 <= i < count) as Hin by (intros i [->|?]%elem_of_cons; auto).
  pose proof (size_of_part _ Hn Hin) as Hs.
  assert (Z.of_nat (size_of (Index chunk :: got)) = received a + slen (Data chunk)) as Hsz.
  { rewrite H8, Hd. unfold size_of, slen. cbn [sum_list_with]. lia. }
  rewrite H1, Ht, Z.eqb_refl. cbn [negb]. rewrite (proj2 (Z.ltb_ge _ _)), (proj2 (Z.leb_gt _ _)) by lia. cbn [orb].
  rewrite (partial_lookup got a _ Hp), decide_False by done. rewrite bool_decide_eq_false_2 by (intros [? [=]]).
  rewrite (proj2 (Z.ltb_ge _ _)) by lia. eexists. split; [done|]. constructor; cbn; try done.
  - by rewrite H7, Hd.
Qed.

Lemma partial_complete got a : partial got a -> 1 <= count -> complete a <-> Z.of_nat (length got) = count.
Proof.
  intros Hp Hc. pose proof Hp as [H1 _ _ _ H5 _ H7 _]. unfold complete. rewrite H1, H7, map_size_list_to_map by (by rewrite got_keys).
  rewrite length_fmap. lia.
Qed.

Lemma joined_full a : totalChunks a = count -> (forall i, 0 <= i < count -> chunks a !! i = Some (piece i)) -> joined a = whole.
Proof.
  intros Ht Hc. unfold joined, whole. rewrite Ht. rewrite <- pieces_seqZ.
  assert (forall l s, (forall i, i ∈ l -> 0 <= i < count) ->
    foldl (fun out i => (out +:+ default "" (chunks a !! i))%string) s l = (s +:+ join (piece <$> l))%string) as H.
  { induction l as [|i l IH]; intros s Hl.
    - cbn. induction s as [|c s IH]; [done|]. exact (f_equal (String c) IH).
    - cbn [foldl]. rewrite IH by (intros j Hj; apply Hl; by right). rewrite fmap_cons. cbn [join foldr].
      fold (join (piece <$> l)). rewrite (Hc i) by (apply Hl; by left). by rewrite sapp_assoc. }
  rewrite H; [done|]. intros i Hi%elem_of_seqZ. lia.
Qed.

Lemma partial_assemble got a :
  partial got a -> 1 <= count -> Z.of_nat (length got) = count -> (Assemble Sum256 a).2 = inl whole.
Proof.
  intros Hp Hc Hl. pose proof (proj2 (partial_complete _ _ Hp Hc) Hl) as [Hc1 Hc2].
  pose proof Hp as [H1 H2 H3 H4 H5 H6 H7 H8].
  assert (joined a = whole) as Hj.
  { apply joined_full; [done|]. intros i Hi. rewrite (partial_lookup got) by done. rewrite decide_True; [done|].
    pose proof (partial_lookup got a i Hp) as Hlk.
    pose proof (full_map count (chunks a) ltac:(lia)) as Hfull.
    destruct (proj2 (Hfull ltac:(intros j d Hd; rewrite (partial_lookup got a j Hp) in Hd; case_decide; [by apply H6|done]) i) Hi) as [x Hx].
    rewrite Hx in Hlk. by case_decide. }
  unfold Assemble. rewrite H4. cbv zeta. rewrite (proj2 (Z.ltb_ge _ _)) by lia. rewrite Hc2, Z.eqb_refl. cbn [negb orb].
  rewrite Hj, H2, Z.eqb_refl, H3. cbn [negb]. by rewrite bool_decide_eq_true_2.
Qed.
(** Which operations belong to the upload, and what is asked of all. *)
Definition key : uploadKey := (conn, aid).

Definition mine (o : op) : option (clock * AttachmentChunk) :=
  match o with
  | OpReceive t _ _ c _ chunk => if decide ((c, AttachmentID chunk) = key) then Some (t, chunk) else None
  | OpReleaseConn _ => None
  end.
Definition indices (os : list op) : list Z := omap (fun o => (fun x => Index x.2) <$> mine o) os.

Definition proper (o : op) : Prop :=
  match o with
  | OpReceive _ _ _ c v chunk =>
      (c, AttachmentID chunk) = key -> v = conv /\ TotalChunks chunk = count /\ Data chunk = piece (Index chunk)
  | OpReleaseConn c => c <> conn
  end.

(** Never longer than the idle timeout since the upload's last chunk. *)
Definition on_time (last : instant) (o : op) : Prop :=
  match o with
  | OpReceive t _ _ _ _ _ => Sub (t_admit_reap t) last <= uploadIdleTimeout /\ Sub (t_find_reap t) last <= uploadIdleTimeout
  | OpReleaseConn _ => True
  end.
Definition last_after (last : instant) (o : op) : instant := from_option (fun x => t_find x.1) last (mine o).
Fixpoint timely (last : instant) (os : list op) : Prop :=
  match os with [] => True | o :: os => on_time last o /\ timely (last_after last o) os end.

(** The upload is under way. *)
Definition underway (got : list Z) (last : instant) (reg : Registry) : Prop :=
  reg_ok reg /\ exists u, reg !! key = Some u /\ lastChunkAt u = last /\ conversationID u = conv /\ partial got (acc u).

Lemma reap_keep (now : instant) (r : Registry) k (u : entry) :
  r !! k = Some u -> Sub now (lastChunkAt u) <= uploadIdleTimeout -> reapExpiredLocked now r !! k = Some u.
Proof. intros. by apply reap_lookup. Qed.

Lemma foreign_step o st st' r got last :
  underway got last st.1 -> mine o = None -> proper o -> on_time last o -> do_op o st = (st', r) ->
  underway got last st'.1.
Proof.
  intros (Hr & u & Hu & Hl & Hcu & Hp) Hm Hpr Ht Hdo. pose proof (do_op_ok _ _ _ _ _ Hr Hdo) as Hr'.
  split; [done|]. exists u. split; [|done].
  destruct o as [t d w c v chunk|c]; cbn [do_op] in Hdo.
  - destruct (Receive _ _ _ _ _ _ _ _) as [[reg f] res] eqn:Hrec. injection Hdo as <- <-. cbn [fst].
    cbn [mine] in Hm. destruct (decide ((c, AttachmentID chunk) = key)) as [|Hne]; [done|].
    destruct Ht as [Ht1 Ht2]. rewrite <- Hl in Ht1, Ht2.
    destruct (Receive_cases _ _ _ _ _ _ _ _ _ _ _ _ Hrec) as [(_ & [-> | ->] & _)|(reg1 & out & Hready & Hd & _)];
      [done|by apply reap_keep|].
    assert (reg_ok reg1) as Hr1 by by exact (ready_ok _ _ _ _ _ Hr Hready).
      assert (reg1 !! key = Some u) as Hu1.
      { unfold ready in Hready. cbv zeta in Hready. destruct (st.1 !! (c, _)); [by subst|].
        destruct Hready as (_ & _ & _ & ->). rewrite lookup_insert_ne by (intros ?; by apply Hne). by apply reap_keep. }
      apply Deliver_cases in Hd; [|intros v' Hv; by apply Hr1 in Hv as (_ & ? & _)].
      cbn [with_conversation AttachmentID] in Hd.
      pose proof (reap_keep _ _ _ _ Hu1 Ht2) as Hu2.
      destruct Hd as [(_ & -> & _)|(v' & _ & [(_ & -> & _)|(_ & [(a & err & _ & -> & _)|(a & _ & [(_ & -> & _)|(_ & -> & _)])])])];
        rewrite ?lookup_insert_ne, ?lookup_delete_ne by (intros ?; by apply Hne); done.
  - injection Hdo as <- <-. cbn [fst]. unfold ReleaseConn. apply map_lookup_filter_Some. split; [done|].
    cbn. intros ->. by apply Hpr.
Qed.
(** The declaration is admissible. *)
Context (Hdecl : CheckDeclaration count (slen whole) = None) (Hsize : CheckDeclaredSize (slen whole) = None).

Lemma count_pos : 1 <= count /\ slen whole <= maxUploadBytes.
Proof.
  pose proof (declared_ok _ _ Hdecl Hsize). split; [|lia]. revert Hdecl. unfold CheckDeclaration.
  destruct (_ <? 0); [done|]. cbv zeta. destruct (negb (count =? _)) eqn:H1; [done|]. reflect_bools. lia.
Qed.

(** Ready for the upload's next chunk: under way, or about to be admitted. *)
Definition awaiting (got : list Z) (t : clock) (chunk : AttachmentChunk) (reg : Registry) : Prop :=
  (exists last, underway got last reg /\ Sub (t_find_reap t) last <= uploadIdleTimeout)
  \/ (reg_ok reg /\ got = [] /\ reg !! key = None /\ Size chunk = slen whole /\ SHA256 chunk = hex (Sum256 whole)
      /\ Z.of_nat (size (reapExpiredLocked (t_admit_reap t) reg)) < maxInFlightUploads
      /\ Sub (t_find_reap t) (t_admit t) <= uploadIdleTimeout).

Lemma partial_new t : partial [] (NewAccumulator t (slen whole) (hex (Sum256 whole))) <-> t = count.
Proof.
  split; [by intros [<- _ _ _ _ _ _ _]|]. intros ->. constructor; try done; [constructor|].
  intros i Hi. by apply elem_of_nil in Hi.
Qed.

Lemma awaiting_ready got t chunk (reg : Registry) :
  awaiting got t chunk reg -> AttachmentID chunk = aid -> TotalChunks chunk = count ->
  exists reg1 u, ready t conn chunk reg reg1 /\ reg_ok reg1 /\ reapExpiredLocked (t_find_reap t) reg1 !! key = Some u
    /\ (conversationID u = "" \/ conversationID u = conv) /\ partial got (acc u).
Proof.
  intros Ha Hid Ht. unfold ready. rewrite Hid. fold key. destruct Ha as [(last & (Hr & u & Hu & Hl & Hcu & Hp) & Hs)|
    (Hr & -> & Hn & Hz & Hd & Hroom & Hs)].
  - exists reg, u. rewrite Hu. split; [done|]. split; [done|]. split; [apply reap_keep; [done|by rewrite Hl]|]. auto.
  - assert (ready t conn chunk reg (<[key := MkEntry (NewAccumulator (TotalChunks chunk) (Size chunk) (SHA256 chunk))
      (t_admit t) ""]> (reapExpiredLocked (t_admit_reap t) reg))) as Hready.
    { unfold ready. rewrite Hid. fold key. rewrite Hn, Ht, Hz. done. }
    pose proof (ready_ok _ _ _ _ _ Hr Hready) as Hr1. unfold ready in Hready. rewrite Hid in Hready. fold key in Hready.
    rewrite Hn in *. eexists _, _. split; [exact Hready|]. split; [exact Hr1|].
    split; [apply reap_keep; [by rewrite lookup_insert_eq|done]|]. cbn. split; [by left|]. rewrite Hz, Hd. by apply partial_new.
Qed.

Lemma awaiting_ok got t chunk reg : awaiting got t chunk reg -> reg_ok reg.
Proof. by intros [(last & (? & _) & _)|(? & _)]. Qed.

Lemma own_step got t d w chunk (reg reg' : Registry) f f' res :
  awaiting got t chunk reg -> AttachmentID chunk = aid -> TotalChunks chunk = count ->
  Index chunk ∉ got -> 0 <= Index chunk < count -> Data chunk = piece (Index chunk) ->
  Receive t d w conn conv chunk reg f = (reg', f', res) ->
  (Z.of_nat (length got) + 1 <> count ->
     res = inl ("", false) /\ f' = f /\ underway (Index chunk :: got) (t_find t) reg')
  /\ (Z.of_nat (length got) + 1 = count ->
     (f', res) = file_bytes d w conv (with_conversation conv chunk) whole f /\ reg' !! key = None).
Proof.
  intros Ha Hid Ht Hi Hir Hd Hrec. destruct count_pos as [Hc Hmax].
  destruct (awaiting_ready _ _ _ _ Ha Hid Ht) as (reg1 & u & Hready & Hr1 & Hu & Hcu & Hp).
  destruct (partial_add got (acc u) (with_conversation conv chunk) Hp Hmax Hi Hir Ht Hd) as (a' & Hadd & Hp').
  cbn [with_conversation Index] in Hp'. pose proof (partial_complete _ _ Hp' Hc) as Hcom.
  pose proof (partial_assemble _ _ Hp' Hc) as Hass. cbn [length] in Hcom, Hass.
  destruct (Receive_ready _ _ _ _ _ _ _ _ _ _ _ _ _ Hready Hrec) as (out & Hdel & Hfin).
  apply Deliver_cases in Hdel; [|intros v Hv; by apply Hr1 in Hv as (_ & ? & _)].
  cbn [with_conversation AttachmentID ConversationID] in Hdel. rewrite Hid in Hdel. fold key in Hdel.
  assert (same_conversation u (with_conversation conv chunk)) as Hsame by exact Hcu.
  destruct Hdel as [(Hn & _)|(u' & Hu' & Hdel)]; [congruence|]. rewrite Hu in Hu'. injection Hu' as <-.
  destruct Hdel as [(Hns & _)|(_ & [(b & err & Hb & _)|(b & Hb & Hdel)])]; [done|congruence|].
  rewrite Hadd in Hb. injection Hb as <-. split; intros Hl.
  - destruct Hdel as [(_ & -> & ->)|(Hfull & _)]; [|exfalso; apply Hcom in Hfull; lia].
    injection Hfin as -> ->. split; [done|]. split; [done|]. split; [by eapply Receive_ok; [|exact Hrec]; apply (awaiting_ok _ _ _ _ Ha)|].
    eexists. by rewrite lookup_insert_eq.
  - destruct Hdel as [(Hnot & _)|(_ & -> & -> & _)]; [exfalso; apply Hnot, Hcom; lia|].
    rewrite Hass in Hfin by lia. split; [exact Hfin|by rewrite lookup_delete_eq].
Qed.
Lemma indices_cons o os t chunk : mine o = Some (t, chunk) -> indices (o :: os) = Index chunk :: indices os.
Proof. intros H. unfold indices. csimpl. by rewrite H. Qed.

Lemma indices_skip o os : mine o = None -> indices (o :: os) = indices os.
Proof. intros H. unfold indices. csimpl. by rewrite H. Qed.

Lemma mine_inv o t chunk :
  mine o = Some (t, chunk) -> proper o ->
  exists d w, o = OpReceive t d w conn conv chunk /\ AttachmentID chunk = aid
    /\ TotalChunks chunk = count /\ Data chunk = piece (Index chunk).
Proof.
  destruct o as [t' d w c v ch|]; cbn [mine proper]; [|done].
  case_decide as Hk; [|done]. intros [= <- <-] Hp. destruct (Hp Hk) as (-> & ? & ?). injection Hk as -> ?.
  by exists d, w.
Qed.

(** What every chunk of the upload but the last is answered. *)
Definition answered (o : op) (r : option (result (string * bool))) : Prop :=
  is_Some (mine o) -> r = Some (inl ("", false)).

Lemma steps_underway os st last got :
  underway got last st.1 -> Forall proper os -> timely last os ->
  NoDup (indices os ++ got) -> (forall i, i ∈ indices os -> 0 <= i < count) ->
  Z.of_nat (length (indices os ++ got)) < count ->
  exists got', underway got' (foldl last_after last os) (do_ops os st).1.1
    /\ got' ≡ₚ indices os ++ got /\ Forall2 answered os (do_ops os st).2.
Proof.
  revert st last got. induction os as [|o os IH]; intros st last got Hu Hp Ht Hnd Hr Hl.
  { exists got. split; [done|]. split; [done|constructor]. }
  apply Forall_cons in Hp as [Hpo Hp]. destruct Ht as [Hto Ht]. cbn [AttachmentsProps.do_ops foldl].
  destruct (do_op o st) as [st1 r] eqn:Ho. destruct (mine o) as [[t chunk]|] eqn:Hm.
  - rewrite (indices_cons _ _ _ _ Hm) in *. destruct (mine_inv _ _ _ Hm Hpo) as (d & w & -> & Hid & Htc & Hd).
    cbn [app] in Hnd. apply NoDup_cons in Hnd as [Hnin Hnd]. rewrite elem_of_app in Hnin.
    cbn [AttachmentsProps.do_op] in Ho. destruct (Receive _ _ _ _ _ _ _ _) as [[reg' f'] res] eqn:Hrec. injection Ho as <- <-.
    cbn [app length] in Hl. rewrite length_app in Hl.
    destruct (own_step got t d w chunk _ _ _ _ _ ltac:(left; exists last; split; [exact Hu|apply Hto]) Hid Htc
      ltac:(intros ?; apply Hnin; by right) ltac:(apply Hr; by left) Hd Hrec) as [Hstep _].
    destruct Hstep as (-> & -> & Hu'); [lia|].
    destruct (IH (reg', st.2) (t_find t) (Index chunk :: got)) as (got' & Hu2 & Hperm & Hans).
    + done.
    + done.
    + unfold last_after in Ht. by rewrite Hm in Ht.
    + rewrite <- Permutation_middle. apply NoDup_cons. by rewrite elem_of_app.
    + intros i Hi. apply Hr. by right.
    + rewrite length_app. cbn [length]. lia.
    + destruct (do_ops os (reg', st.2)) as [st2 rs] eqn:Hdo. cbn [fst snd] in *. exists got'.
      split; [|split; [by rewrite Hperm, <- Permutation_middle|by constructor]].
      unfold last_after at 2. rewrite Hm. exact Hu2.
  - rewrite (indices_skip _ _ Hm) in *.
    pose proof (foreign_step o st st1 r got last Hu Hm Hpo Hto Ho) as Hu1.
    unfold last_after in Ht. rewrite Hm in Ht. cbn [from_option] in Ht.
    destruct (IH st1 last got Hu1 Hp Ht Hnd Hr Hl) as (got' & Hu2 & Hperm & Hans).
    destruct (do_ops os st1) as [st2 rs] eqn:Hdo. cbn [fst snd] in *. exists got'.
    split; [|split; [done|constructor; [|done]]].
    + unfold last_after at 2. by rewrite Hm.
    + intros [? Hs]. by rewrite Hm in Hs.
Qed.
Lemma timely_app last os o : timely last (os ++ [o]) -> timely last os /\ on_time (foldl last_after last os) o.
Proof.
  revert last. induction os as [|o' os IH]; intros last; cbn [app timely foldl]; [tauto|].
  intros [H [? ?]%IH]. done.
Qed.

Lemma indices_app os os' : indices (os ++ os') = indices os ++ indices os'.
Proof. unfold indices. by rewrite omap_app. Qed.

(** The operation that opens the transfer, in a registry with room for it,
    and what follows it in time. *)
Definition opens (reg : Registry) (os : list op) : Prop :=
  exists t d w chunk os', os = OpReceive t d w conn conv chunk :: os'
    /\ AttachmentID chunk = aid /\ Size chunk = slen whole /\ SHA256 chunk = hex (Sum256 whole)
    /\ Z.of_nat (size (reapExpiredLocked (t_admit_reap t) reg)) < maxInFlightUploads
    /\ Sub (t_find_reap t) (t_admit t) <= uploadIdleTimeout
    /\ timely (t_find t) os'.

Lemma upload_spec (reg : Registry) f os t d w chunk :
  let final := OpReceive t d w conn conv chunk in
  reg_ok reg -> reg !! key = None -> AttachmentID chunk = aid ->
  opens reg (os ++ [final]) -> Forall proper (os ++ [final]) -> indices (os ++ [final]) ≡ₚ seqZ 0 count ->
  let '(st, rs) := do_ops os (reg, f) in
  Forall2 answered os rs
  /\ exists reg' f' r, Receive t d w conn conv chunk st.1 st.2 = (reg', f', r)
       /\ (f', r) = file_bytes d w conv (with_conversation conv chunk) whole st.2 /\ reg' !! key = None.
Proof.
  intros final Hreg Hkey Hid (t0 & d0 & w0 & c0 & os' & Hos & Hid0 & Hsz & Hsha & Hroom & Hft & Htime) Hprop Hidx.
  assert (Forall proper os /\ TotalChunks chunk = count /\ Data chunk = piece (Index chunk)) as (Hpos & Htc & Hdat).
  { apply Forall_app in Hprop as [H1 [H2 _]%Forall_cons]. split; [done|]. destruct H2 as (? & ? & ?); [by rewrite Hid|done]. }
  assert (mine final = Some (t, chunk)) as Hmf by (cbn; by rewrite decide_True by (by rewrite Hid)).
  rewrite indices_app, (indices_cons _ [] _ _ Hmf) in Hidx. change (indices []) with (@nil Z) in Hidx.
  assert (NoDup (indices os ++ [Index chunk])) as Hnd by (rewrite Hidx; apply NoDup_seqZ).
  assert (forall i, i ∈ indices os ++ [Index chunk] -> 0 <= i < count) as Hrange
    by (intros i Hi; rewrite Hidx in Hi; apply elem_of_seqZ in Hi; lia).
  assert (Z.of_nat (length (indices os)) + 1 = count) as Hlen.
  { apply Permutation_length in Hidx. rewrite length_app, length_seqZ in Hidx. cbn [length] in Hidx. pose proof count_pos. lia. }
  apply NoDup_app in Hnd as (Hnd & Hnf & _).
  assert (Index chunk ∉ indices os) as Hnin by (intros Hi; apply (Hnf _ Hi); by left).
  assert (0 <= Index chunk < count) as Hri by (apply Hrange, elem_of_app; right; by left).
  assert (forall st, (exists got, got ≡ₚ indices os /\ awaiting got t chunk st.1) ->
    exists reg' f' r, Receive t d w conn conv chunk st.1 st.2 = (reg', f', r)
      /\ (f', r) = file_bytes d w conv (with_conversation conv chunk) whole st.2 /\ reg' !! key = None) as Hlast.
  { intros st (got & Hperm & Haw). destruct (Receive _ _ _ _ _ _ st.1 st.2) as [[reg' f'] r] eqn:Hrec.
    exists reg', f', r. split; [done|].
    apply (own_step got _ _ _ _ _ _ _ _ _ Haw Hid Htc ltac:(by rewrite Hperm) Hri Hdat Hrec). by rewrite Hperm. }
  destruct os as [|o os].
  - injection Hos as <- <- <- <- <-. split; [constructor|]. apply (Hlast (reg, f)). exists []. split; [done|]. right. done.
  - injection Hos as -> <-. apply timely_app in Htime as [Htime Hton].
    apply Forall_cons in Hpos as [Hpo Hpos]. destruct (Hpo ltac:(by rewrite Hid0)) as (_ & Htc0 & Hd0).
    assert (mine (OpReceive t0 d0 w0 conn conv c0) = Some (t0, c0)) as Hm0 by (cbn; by rewrite decide_True by (by rewrite Hid0)).
    rewrite (indices_cons _ _ _ _ Hm0) in *. cbn [AttachmentsProps.do_ops AttachmentsProps.do_op length] in *.
    apply NoDup_cons in Hnd as [Hnin0 Hnd].
    destruct (Receive t0 _ _ _ _ _ _ _) as [[reg1 f1] r0] eqn:Hrec0.
    destruct (own_step [] t0 d0 w0 c0 reg reg1 f f1 r0 ltac:(by right) Hid0 Htc0 ltac:(by intros ?%elem_of_nil)
      ltac:(apply Hrange; by left) Hd0 Hrec0) as [(-> & -> & Hu) _]; [cbn; lia|].
    destruct (steps_underway os (reg1, f) (t_find t0) [Index c0] Hu Hpos Htime) as (got & Hu2 & Hperm & Hans).
    + rewrite <- Permutation_cons_append. by constructor.
    + intros i Hi. apply Hrange. by right; apply elem_of_app; left.
    + rewrite length_app. cbn [length]. lia.
    + destruct (do_ops os (reg1, f)) as [st2 rs]. cbn [fst snd] in *. split; [by constructor|].
      apply Hlast. exists got. split; [by rewrite Hperm, <- Permutation_cons_append|]. left. eexists. split; [exact Hu2|]. apply Hton.
Qed.
End upload.

(** C29. An upload completes in whatever order its chunks arrive, between
    whatever other connections and transfers do: once the first chunk found
    room for the transfer and no pause exceeded the idle timeout, every chunk
    but the last is answered "accepted", and the last one files exactly the
    whole file, in its conversation's directory, and frees the slot. *)
Theorem upload_any_order Sum256 pieces conn aid conv os0 f0 reg f os t d w chunk :
  let final := OpReceive t d w conn conv chunk in
  CheckDeclaration (count pieces) (slen (whole pieces)) = None ->
  CheckDeclaredSize (slen (whole pieces)) = None ->
  (do_ops Sum256 os0 (NewRegistry, f0)).1 = (reg, f) ->
  reg !! (conn, aid) = None -> AttachmentID chunk = aid ->
  opens Sum256 pieces conn aid conv reg (os ++ [final]) ->
  Forall (proper pieces conn aid conv) (os ++ [final]) ->
  indices conn aid (os ++ [final]) ≡ₚ seqZ 0 (count pieces) ->
  let '(st, rs) := do_ops Sum256 os (reg, f) in
  Forall2 (answered conn aid) os rs
  /\ exists reg' f' r, Receive Sum256 t d w conn conv chunk st.1 st.2 = (reg', f', r)
       /\ (f', r) = file_bytes d w conv (with_conversation conv chunk) (whole pieces) st.2
       /\ reg' !! (conn, aid) = None.
Proof.
  intros final Hdecl Hsize Hrun Hkey Hid Ho Hp Hi. apply upload_spec; try done.
  change reg with (reg, f).1. rewrite <- Hrun. apply do_ops_ok. split; [done|]. intros k u. cbn [fst].
  unfold NewRegistry. by rewrite lookup_empty.
Qed.

(** ** Examples *)

Definition letters (n : Z) : string := string_of_list_ascii (replicate (Z.to_nat n) "a"%char).
Definition ex_pieces : list string := [letters 45000; "end"].
Definition ex_sum (s : string) : list Z := [slen s mod 256].
Definition ex_conv : string := "01234567-89ab-4def-8123-456789abcdef".
Definition ex_aid : string := "fedcba98-7654-4321-9abc-def012345678".
Definition ex_chunk (i : Z) : AttachmentChunk :=
  MkChunk ex_aid "" i 2 45003 (hex (ex_sum (whole ex_pieces))) "report.txt" (piece ex_pieces i).
Definition ex_clock (n : Z) : clock := Clock n n n n.
Definition ex_dir : dirEnv :=
  DirEnv (Some ["home"; "pyry"]) true Some (fun p => bool_decide (p = ["home"])) Some true Some.
Definition ex_store : storeEnv := StoreEnv (fun _ => false) "" "42".

(** The last piece first, another connection in between, then the rest. *)
Definition ex_ops : list op :=
  [OpReceive (ex_clock second) ex_dir ex_store "phone" ex_conv (ex_chunk 1); OpReleaseConn "tablet"].

Lemma upload_any_order_witness :
  let '(st, rs) := do_ops ex_sum ex_ops (NewRegistry, ∅) in
  Forall2 (answered "phone" ex_aid) ex_ops rs
  /\ exists reg' f' r, Receive ex_sum (ex_clock (2 * second)) ex_dir ex_store "phone" ex_conv (ex_chunk 0) st.1 st.2 = (reg', f', r)
       /\ (f', r) = file_bytes ex_dir ex_store ex_conv (with_conversation ex_conv (ex_chunk 0)) (whole ex_pieces) st.2
       /\ reg' !! ("phone", ex_aid) = None.
Proof.
  apply (upload_any_order ex_sum ex_pieces "phone" ex_aid ex_conv [] ∅ NewRegistry ∅ ex_ops
           (ex_clock (2 * second)) ex_dir ex_store (ex_chunk 0)).
  - by vm_compute.
  - by vm_compute.
  - done.
  - done.
  - done.
  - eexists _, _, _, _, _. split; [done|]. split; [done|]. split; [by vm_compute|]. split; [done|].
    split; [by vm_compute|]. split; [by vm_compute|]. cbn [timely app]. by vm_compute.
  - repeat constructor; done.
  - apply Permutation_swap.
Defined.

Definition ex_single : AttachmentChunk := MkChunk ex_aid "" 0 1 3 (hex (ex_sum "end")) "report.txt" "end".

Lemma stored_is_verified_witness :
  exists a a' root data, transfer "phone" ex_single NewRegistry a /\ Add (with_conversation ex_conv ex_single) a = (a', None)
    /\ ex_aid = AttachmentID ex_single /\ complete a' /\ data = joined a' /\ slen data = size_ a
    /\ hex (ex_sum data) = sha256 a
    /\ (forall i, is_Some (chunks a' !! i) <-> 0 <= i < totalChunks a)
    /\ (let dir := destination root ex_conv ex_aid in
        Conversations.ValidID ex_conv = true /\ Conversations.ValidID ex_aid = true /\ d_final ex_dir dir = Some dir
        /\ (Receive ex_sum (ex_clock 0) ex_dir ex_store "phone" ex_conv ex_single NewRegistry ∅).1.2
           = <[path_str (dir ++ [SanitizeFilename (Filename ex_single)]) := data]> ∅)
    /\ (Receive ex_sum (ex_clock 0) ex_dir ex_store "phone" ex_conv ex_single NewRegistry ∅).1.1 !! ("phone", ex_aid) = None.
Proof.
  assert (Receive ex_sum (ex_clock 0) ex_dir ex_store "phone" ex_conv ex_single NewRegistry ∅
          = ((Receive ex_sum (ex_clock 0) ex_dir ex_store "phone" ex_conv ex_single NewRegistry ∅).1.1,
             (Receive ex_sum (ex_clock 0) ex_dir ex_store "phone" ex_conv ex_single NewRegistry ∅).1.2,
             inl (ex_aid, true))) as Hrec by (vm_compute; reflexivity).
  exact (stored_is_verified ex_sum [] ∅ (ex_clock 0) ex_dir ex_store "phone" ex_conv ex_single NewRegistry ∅
           _ _ _ eq_refl (fun _ => lookup_empty _) Hrec).
Defined.

End AttachmentsProps.
