(* ===== verification/Permbridge.v ===== *)
(** * Pending tool approvals ([internal/permbridge])

    [permbridge.go]: what a permission update batch offers, and the registry
    that parks an approval until a caller or its window resolves it. The
    registry's critical sections are definitions on its state; the goroutines
    that run them, timers included, interleave at every unlock. *)
From Stdlib Require Import Ascii String.
From stdpp Require Import prelude gmap strings list.
From S2P Require Import Prelude Utf8.

Module Permbridge.
Import Utf8.

Local Open Scope Z_scope.

Definition BehaviorAllow : string := "allow".
Definition BehaviorDeny : string := "deny".
Definition maxAlwaysAllowBytes : Z := Z.shiftl 16 10.
Definition maxAlwaysAllowRules : Z := 16.
Definition maxRenderedRuleBytes : Z := 1024.

(** ** Offers *)

Record PermissionRule := MkRule { ToolName : string; RuleContent : option string }.
Record PermissionUpdate := MkUpdate {
  Type_ : string; Rules : list PermissionRule; Behavior : string; Destination : string;
}.

Record AlwaysAllow := MkAlwaysAllow {
  aa_updates : list PermissionUpdate; aa_rules : list string; aa_session : bool;
}.
Definition no_offer : AlwaysAllow := MkAlwaysAllow [] [] false.

Definition SessionGrant (label : string) : AlwaysAllow :=
  if bool_decide (label = "") || (maxRenderedRuleBytes <? slen label) then no_offer
  else MkAlwaysAllow [] [label] true.

Definition Offered (a : AlwaysAllow) : bool := negb (bool_decide (aa_updates a = [])) || aa_session a.

(** The shapes [json.Unmarshal] fills: a rule's content is kept raw. *)
Record permissionRuleInput := MkRuleInput { ri_toolName : string; ri_ruleContent : option string }.
Record permissionUpdateInput := MkUpdateInput {
  ui_type : string; ui_rules : list permissionRuleInput; ui_behavior : string;
}.

(** The content-free status; indices are those of the batch. *)
Inductive status :=
| suppressed_ | absent | raw_over_16_kib | decode_failed | empty_batch
| type_unsupported (i : nat) | behavior_empty (i : nat) | behavior_unsupported (i : nat) | rules_empty (i : nat)
| rule_count_over_16 | tool_name_empty (i j : nat) | content_null (i j : nat) | content_not_string (i j : nat)
| rendered_over_1024_bytes (i j : nat) | no_rule_grants | offered.

Section parse.
(** [encoding/json]: a batch, and a string. *)
Context (unmarshal_batch : string -> option (list permissionUpdateInput)).
Context (unmarshal_string : string -> option string).

(** One rule: what is stored and its rendering. *)
Definition parse_rule (i j : nat) (rule : permissionRuleInput) : (PermissionRule * string) + status :=
  if bool_decide (ri_toolName rule = "") then inr (tool_name_empty i j)
  else
    let checked :=
      match ri_ruleContent rule with
      | None => inl (MkRule (ri_toolName rule) None, ri_toolName rule)
      | Some raw =>
          if bool_decide (TrimSpace raw = "null") then inr (content_null i j)
          else match unmarshal_string raw with
          | None => inr (content_not_string i j)
          | Some content =>
              inl (MkRule (ri_toolName rule) (Some content),
                   (ri_toolName rule +:+ "(" +:+ content +:+ ")")%string)
          end
      end in
    match checked with
    | inr st => inr st
    | inl (stored, text) =>
        if maxRenderedRuleBytes <? slen text then inr (rendered_over_1024_bytes i j) else inl (stored, text)
    end.

(** The loop over an update's rules from index [j]. *)
Fixpoint parse_rules (i j : nat) (rules : list permissionRuleInput) : list (PermissionRule * string) + status :=
  match rules with
  | [] => inl []
  | rule :: rules =>
      match parse_rule i j rule with
      | inr st => inr st
      | inl r => match parse_rules i (S j) rules with inr st => inr st | inl rs => inl (r :: rs) end
      end
  end.

(** The loop over the batch from index [i], with the rules counted, the
    updates kept and the rules rendered so far. *)
Fixpoint parse_updates (i : nat) (totalRules : Z) (input : list permissionUpdateInput)
    (updates : list PermissionUpdate) (rendered : list string)
  : (list PermissionUpdate * list string) + status :=
  match input with
  | [] => inl (updates, rendered)
  | update :: input =>
      if bool_decide (ui_type update = "addDirectories") || bool_decide (ui_type update = "setMode")
      then parse_updates (S i) totalRules input updates rendered
      else if negb (bool_decide (ui_type update = "addRules")) then inr (type_unsupported i)
      else if bool_decide (ui_behavior update = "") then inr (behavior_empty i)
      else if negb (bool_decide (ui_behavior update = BehaviorAllow)) then inr (behavior_unsupported i)
      else if bool_decide (ui_rules update = []) then inr (rules_empty i)
      else
        let totalRules := totalRules + Z.of_nat (length (ui_rules update)) in
        if maxAlwaysAllowRules <? totalRules then inr rule_count_over_16
        else match parse_rules i 0 (ui_rules update) with
        | inr st => inr st
        | inl rs =>
            parse_updates (S i) totalRules input
              (updates ++ [MkUpdate (ui_type update) (rs.*1) (ui_behavior update) ""]) (rendered ++ rs.*2)
        end
  end.

Definition parseAlwaysAllow (raw : string) (suppressed : bool) : AlwaysAllow * status :=
  if suppressed then (no_offer, suppressed_)
  else if slen raw =? 0 then (no_offer, absent)
  else if maxAlwaysAllowBytes <? slen raw then (no_offer, raw_over_16_kib)
  else match unmarshal_batch raw with
  | None => (no_offer, decode_failed)
  | Some input =>
      if bool_decide (input = []) then (no_offer, empty_batch)
      else match parse_updates 0 0 input [] [] with
      | inr st => (no_offer, st)
      | inl (updates, rendered) =>
          if bool_decide (updates = []) then (no_offer, no_rule_grants)
          else (MkAlwaysAllow updates rendered false, offered)
      end
  end.

Definition ParseAlwaysAllow (raw : string) (suppressed : bool) : AlwaysAllow := fst (parseAlwaysAllow raw suppressed).
End parse.

(** ** Requests and verdicts *)

Record Request := MkRequest {
  rq_ToolName : string; rq_Input : string; rq_ToolUseID : string; rq_DecisionReason : string;
  rq_DecisionReasonType : string; rq_BlockedPath : string; rq_Description : string; rq_DefaultToNo : bool;
  rq_RequiresUserInteraction : bool; rq_AlwaysAllow : AlwaysAllow; rq_SessionID : string;
}.

Record Verdict := MkVerdict {
  vd_Behavior : string; vd_UpdatedInput : string; vd_UpdatedPermissions : string; vd_Message : string;
  vd_ForSession : bool;
}.

Definition Allow (updatedInput : string) : Verdict := MkVerdict BehaviorAllow updatedInput "" "" false.

(** [json.Marshal] of the updates is a parameter. *)
Definition AllowAlways (marshal : list PermissionUpdate -> option string) (updatedInput : string) (offer : AlwaysAllow)
  : Verdict :=
  if bool_decide (aa_updates offer = [])
  then MkVerdict BehaviorAllow updatedInput "" "" (aa_session offer)
  else
    let updates := (fun u => MkUpdate (Type_ u) (Rules u) (Behavior u) "session") <$> aa_updates offer in
    match marshal updates with
    | None => Allow updatedInput
    | Some raw => MkVerdict BehaviorAllow updatedInput raw "" false
    end.

Definition Deny (message : string) : Verdict := MkVerdict BehaviorDeny "" "" message false.
Definition reasonTimeout : string := "approval request timed out".

(** ** The registry *)

(** A parked approval. A pointer to one is its index in [r_entries]; [p_armed]
    says whether its timer is set, [p_ch] is its one-place channel, [p_got]
    what its waiter has received. *)
Record pending := MkPending {
  p_id : string; p_req : Request; p_window : Z; p_armed : bool; p_ch : option Verdict; p_got : list Verdict;
}.

(** Where a goroutine is, in code that took or will take the lock. [PResolve]
    is at [resolve]'s lock with the expected entry of a timer ([None] for an
    explicit call). *)
Inductive pc :=
| PExpire (id : string) (p : nat) (window : Z)
| PAsk (id : string) (p : nat) (window : Z)
| PRearm (id : string) (p : nat) (window : Z)
| PResolve (id : string) (expected : option nat) (v : Verdict)
| PStop (p : nat) (v : Verdict)
| PSend (p : nat) (v : Verdict)
| PDone (resolved : option nat).

(** A goroutine: an explicit [Resolve], or a timer's callback for an entry.
    Done, it knows the entry it resolved; [Resolve] returns whether there is
    one. *)
Inductive origin := OResolve (id : string) (v : Verdict) | OTimer (p : nat).
Record thread := MkThread { t_origin : origin; t_pc : pc }.

Record Registry := MkRegistry {
  r_pending : gmap string nat;
  r_answerable : bool;                 (* a report is installed *)
  r_entries : list pending;
  r_threads : list thread;
}.

Definition New : Registry := MkRegistry ∅ false [] [].

Definition set_entries (l : list pending) (r : Registry) : Registry :=
  MkRegistry (r_pending r) (r_answerable r) l (r_threads r).
Definition set_threads (l : list thread) (r : Registry) : Registry :=
  MkRegistry (r_pending r) (r_answerable r) (r_entries r) l.

Definition arm (b : bool) (e : pending) : pending := MkPending (p_id e) (p_req e) (p_window e) b (p_ch e) (p_got e).
Definition put_ch (v : Verdict) (e : pending) : pending :=
  MkPending (p_id e) (p_req e) (p_window e) (p_armed e) (Some v) (p_got e).
Definition take_ch (v : Verdict) (e : pending) : pending :=
  MkPending (p_id e) (p_req e) (p_window e) (p_armed e) None (p_got e ++ [v]).
Definition upd_entry (f : pending -> pending) (p : nat) (r : Registry) : Registry :=
  set_entries (alter f p (r_entries r)) r.

Definition SetAnswerable (installed : bool) (r : Registry) : Registry :=
  MkRegistry (r_pending r) installed (r_entries r) (r_threads r).

(** [Register]: the new entry, with its timer armed, or [None] for
    [ErrDuplicateID]. *)
Definition Register (id : string) (req : Request) (timeout : Z) (r : Registry) : Registry * option nat :=
  if bool_decide (id = "") then (r, None)
  else match r_pending r !! id with
  | Some _ => (r, None)
  | None =>
      let p := length (r_entries r) in
      (MkRegistry (<[id := p]> (r_pending r)) (r_answerable r)
         (r_entries r ++ [MkPending id req timeout true None []]) (r_threads r), Some p)
  end.

Definition Lookup (id : string) (r : Registry) : option Request :=
  p ← r_pending r !! id; e ← r_entries r !! p; Some (p_req e).

(** [expire] up to its question. *)
Definition expire_check (id : string) (expected : nat) (window : Z) (r : Registry) : pc :=
  if bool_decide (r_pending r !! id = Some expected)
  then if negb (r_answerable r) || (window <=? 0)
       then PResolve id (Some expected) (Deny reasonTimeout)
       else PAsk id expected window
  else PDone None.

(** [expire] after the report said yes: one more window. *)
Definition expire_rearm (id : string) (p : nat) (r : Registry) : Registry :=
  if bool_decide (r_pending r !! id = Some p) then upd_entry (arm true) p r else r.

(** [resolve]'s critical section. *)
Definition resolve (id : string) (expected : option nat) (v : Verdict) (r : Registry) : Registry * pc :=
  match r_pending r !! id with
  | None => (r, PDone None)
  | Some p =>
      if bool_decide (expected <> None) && negb (bool_decide (expected = Some p)) then (r, PDone None)
      else (MkRegistry (delete id (r_pending r)) (r_answerable r) (r_entries r) (r_threads r), PStop p v)
  end.

(** One step of a goroutine; [yes] is the report's answer where it is asked.
    A send on a full channel does not happen: [None]. *)
Definition advance (c : pc) (yes : bool) (r : Registry) : option (Registry * pc) :=
  match c with
  | PExpire id p window => Some (r, expire_check id p window r)
  | PAsk id p window =>
      Some (r, if yes then PRearm id p window else PResolve id (Some p) (Deny reasonTimeout))
  | PRearm id p _ => Some (expire_rearm id p r, PDone None)
  | PResolve id expected v => Some (resolve id expected v r)
  | PStop p v => Some (upd_entry (arm false) p r, PSend p v)
  | PSend p v =>
      match r_entries r !! p with
      | Some e => if bool_decide (p_ch e = None) then Some (upd_entry (put_ch v) p r, PDone (Some p)) else None
      | None => None
      end
  | PDone _ => None
  end.

Definition spawn (o : origin) (c : pc) (r : Registry) : Registry := set_threads (r_threads r ++ [MkThread o c]) r.

(** What happens next. *)
Inductive action :=
| ARegister (id : string) (req : Request) (timeout : Z)
| ASetAnswerable (installed : bool)
| AResolve (id : string) (v : Verdict)
| AFire (p : nat)
| AStep (t : nat) (yes : bool)
| AAwait (p : nat).

Definition step (a : action) (r : Registry) : option Registry :=
  match a with
  | ARegister id req timeout => Some (fst (Register id req timeout r))
  | ASetAnswerable b => Some (SetAnswerable b r)
  | AResolve id v => Some (spawn (OResolve id v) (PResolve id None v) r)
  | AFire p =>
      match r_entries r !! p with
      | Some e => if p_armed e
                  then Some (spawn (OTimer p) (PExpire (p_id e) p (p_window e)) (upd_entry (arm false) p r))
                  else None
      | None => None
      end
  | AStep t yes =>
      match r_threads r !! t with
      | Some th =>
          match advance (t_pc th) yes r with
          | Some (r', c) => Some (set_threads (<[t := MkThread (t_origin th) c]> (r_threads r')) r')
          | None => None
          end
      | None => None
      end
  | AAwait p =>
      match r_entries r !! p with
      | Some e => match p_ch e with Some v => Some (upd_entry (take_ch v) p r) | None => None end
      | None => None
      end
  end.

Fixpoint steps (l : list action) (r : Registry) : option Registry :=
  match l with
  | [] => Some r
  | a :: l => match step a r with Some r => steps l r | None => None end
  end.

Definition reachable (r : Registry) : Prop := exists l, steps l New = Some r.

End Permbridge.
