(* ===== verification/PermbridgeInv.v ===== *)
(** * Pending tool approvals: the invariant of the registry and its lemmas *)
From Stdlib Require Import Ascii String ZArith Lia.
From stdpp Require Import prelude gmap strings list.
From S2P Require Import Prelude Utf8 Permbridge.

Module PermbridgeInv.
Import Utf8 Permbridge.

Local Open Scope nat_scope.

(** ** Counting goroutines by where they are *)

Definition b2n (b : bool) : nat := if b then 1 else 0.
Definition here (p q : nat) : nat := if decide (p = q) then 1 else 0.

Definition f_win (p : nat) (c : pc) : nat :=
  match c with PStop q _ | PSend q _ | PDone (Some q) => here p q | _ => 0 end.
Definition f_send (p : nat) (c : pc) : nat :=
  match c with PStop q _ | PSend q _ => here p q | _ => 0 end.
Definition f_stop (p : nat) (c : pc) : nat := match c with PStop q _ => here p q | _ => 0 end.
Definition f_exp (p : nat) (c : pc) : nat :=
  match c with
  | PExpire _ q _ | PAsk _ q _ | PRearm _ q _ | PResolve _ (Some q) _ => here p q
  | _ => 0
  end.

Definition tok (f : pc -> nat) (l : list thread) : nat := sum_list_with (fun th => f (t_pc th)) l.

Lemma tok_snoc f l o c : tok f (l ++ [MkThread o c]) = tok f l + f c.
Proof. unfold tok. rewrite sum_list_with_app. simpl. lia. Qed.

Lemma tok_insert f l t th c o :
  l !! t = Some th -> tok f (<[t := MkThread o c]> l) + f (t_pc th) = tok f l + f c.
Proof. apply (sum_list_insert (fun th => f (t_pc th))). Qed.

Lemma tok_zero f l : (forall th, th ∈ l -> f (t_pc th) = 0) -> tok f l = 0.
Proof. apply sum_list_zero. Qed.

Lemma tok_pos f l t th : l !! t = Some th -> f (t_pc th) <= tok f l.
Proof. apply (sum_list_pos (fun th => f (t_pc th))). Qed.

Lemma tok_witness f l : tok f l <> 0 -> exists t th, l !! t = Some th /\ f (t_pc th) <> 0.
Proof. apply sum_list_nonzero. Qed.

(** ** The invariant *)

Definition live (r : Registry) (p : nat) (e : pending) : Prop := r_pending r !! p_id e = Some p.

#[local] Instance live_dec r p e : Decision (live r p e).
Proof. unfold live. apply _. Defined.

Definition delivered (e : pending) (v : Verdict) : Prop := p_ch e = Some v \/ v ∈ p_got e.
Definition n_delivered (e : pending) : nat := b2n (bool_decide (is_Some (p_ch e))) + length (p_got e).

(** Who may have resolved entry [p] with [v]. *)
Definition won_by (o : origin) (p : nat) (e : pending) (v : Verdict) : Prop :=
  match o with
  | OResolve id v' => id = p_id e /\ v = v'
  | OTimer q => q = p /\ v = Deny reasonTimeout
  end.

Definition thread_ok (r : Registry) (th : thread) : Prop :=
  match t_pc th with
  | PExpire id p w | PAsk id p w | PRearm id p w =>
      t_origin th = OTimer p /\ exists e, r_entries r !! p = Some e /\ p_id e = id /\ p_window e = w
  | PResolve id None v => t_origin th = OResolve id v
  | PResolve id (Some p) v =>
      t_origin th = OTimer p /\ v = Deny reasonTimeout /\ exists e, r_entries r !! p = Some e /\ p_id e = id
  | PStop p v | PSend p v => exists e, r_entries r !! p = Some e /\ won_by (t_origin th) p e v
  | PDone (Some p) => exists e v, r_entries r !! p = Some e /\ won_by (t_origin th) p e v /\ delivered e v
  | PDone None => True
  end.

Record counts_ok (r : Registry) (p : nat) (e : pending) : Prop := CountsOK {
  c_won_live : live r p e -> tok (f_win p) (r_threads r) = 0;
  c_won_dead : ~ live r p e -> tok (f_win p) (r_threads r) = 1;
  c_sent : n_delivered e + tok (f_send p) (r_threads r) = tok (f_win p) (r_threads r);
  c_timer : b2n (p_armed e) + tok (f_exp p) (r_threads r) <= 1;
  c_live : live r p e -> b2n (p_armed e) + tok (f_exp p) (r_threads r) = 1;
  c_dead : ~ live r p e -> tok (f_stop p) (r_threads r) = 0 -> p_armed e = false;
}.

Record inv (r : Registry) : Prop := Inv {
  i_ptr : forall id p, r_pending r !! id = Some p -> exists e, r_entries r !! p = Some e /\ p_id e = id;
  i_threads : forall t th, r_threads r !! t = Some th -> thread_ok r th;
  i_counts : forall p e, r_entries r !! p = Some e -> counts_ok r p e;
}.

(** Updates that keep what an entry is. *)
Definition keeps (f : pending -> pending) : Prop :=
  forall e, p_id (f e) = p_id e /\ p_window (f e) = p_window e /\ (forall v, delivered e v -> delivered (f e) v).

Lemma thread_ok_mono r r' th :
  (forall p e, r_entries r !! p = Some e ->
     exists e', r_entries r' !! p = Some e' /\ p_id e' = p_id e /\ p_window e' = p_window e
       /\ forall v, delivered e v -> delivered e' v) ->
  thread_ok r th -> thread_ok r' th.
Proof.
  intros H. unfold thread_ok, won_by. destruct (t_pc th) as [id p w|id p w|id p w|id [p|] v|p v|p v|[p|]]; try done.
  1-3: intros (Ho & e & He & Hi & Hw); destruct (H _ _ He) as (e' & He' & Hid & Hwin & _);
    (split; [done|]); exists e'; (split; [done|]); split; congruence.
  - intros (Ho & Hv & e & He & Hi). destruct (H _ _ He) as (e' & He' & Hid & _). split; [done|]. split; [done|].
    exists e'. split; [done|congruence].
  - intros (e & He & Hw). destruct (H _ _ He) as (e' & He' & Hid & _). exists e'. split; [done|].
    destruct (t_origin th); [by rewrite Hid|done].
  - intros (e & He & Hw). destruct (H _ _ He) as (e' & He' & Hid & _). exists e'. split; [done|].
    destruct (t_origin th); [by rewrite Hid|done].
  - intros (e & v & He & Hw & Hd). destruct (H _ _ He) as (e' & He' & Hid & _ & Hdel). exists e', v. split; [done|].
    split; [destruct (t_origin th); [by rewrite Hid|done]|auto].
Qed.

Lemma thread_ok_same r r' th : r_entries r' = r_entries r -> thread_ok r th -> thread_ok r' th.
Proof. intros H. apply thread_ok_mono. rewrite H. eauto 10. Qed.

Lemma thread_ok_alter r r' f p th : keeps f -> r_entries r' = alter f p (r_entries r) -> thread_ok r th -> thread_ok r' th.
Proof.
  intros Hf H. apply thread_ok_mono. rewrite H. intros q e He. destruct (decide (p = q)) as [<-|Hne].
  - rewrite list_lookup_alter_eq, He. exists (f e). destruct (Hf e) as (? & ? & ?). done.
  - rewrite list_lookup_alter_ne by done. eauto 10.
Qed.

Lemma keeps_arm b : keeps (arm b).
Proof. done. Qed.
Lemma keeps_put v : keeps (fun e => if bool_decide (p_ch e = None) then put_ch v e else e).
Proof.
  intros e. case_bool_decide as He; [|done]. split; [done|]. split; [done|].
  intros v' [Hv|Hv]; [congruence|by right].
Qed.
Lemma delivered_take v e w : p_ch e = Some v -> delivered e w -> delivered (take_ch v e) w.
Proof. intros He [Hw|Hw]; right; cbn; apply elem_of_app; [right; apply list_elem_of_singleton; congruence|by left]. Qed.

(** A goroutine points at entries that exist. *)
Lemma tok_new r f p :
  inv r -> r_entries r !! p = None ->
  (f = f_win p \/ f = f_send p \/ f = f_stop p \/ f = f_exp p) -> tok f (r_threads r) = 0.
Proof.
  intros Hi Hp Hf. apply tok_zero. intros th [t Ht]%list_elem_of_lookup. pose proof (i_threads _ Hi _ _ Ht) as Hok.
  unfold thread_ok in Hok. unfold f_win, f_send, f_stop, f_exp, here in Hf.
  assert (forall q e, r_entries r !! q = Some e -> p <> q) as Hne by (intros q e Hq <-; congruence).
  destruct Hf as [-> |[-> |[-> | ->]]]; cbn beta; destruct (t_pc th) as [id q w|id q w|id q w|id [q|] v|q v|q v|[q|]]; try done;
    case_decide as Heq; try done; subst q; exfalso; naive_solver.
Qed.

Lemma inv_New : inv New.
Proof. constructor; [intros id p H; unfold New in H; cbn [r_pending] in H; by rewrite lookup_empty in H|done|done]. Qed.

Lemma inv_Register id req timeout r : inv r -> inv (fst (Register id req timeout r)).
Proof.
  intros Hi. unfold Register. case_bool_decide as Hid; [done|]. destruct (r_pending r !! id) as [p0|] eqn:Hp; [done|].
  cbn [fst]. set (p := length (r_entries r)). set (e0 := MkPending _ _ _ _ _ _).
  assert (r_entries r !! p = None) as Hnone by (apply lookup_ge_None; lia).
  assert (forall q e, r_entries r !! q = Some e -> (r_entries r ++ [e0]) !! q = Some e) as Hold
    by (intros q e Hq; by apply lookup_app_l_Some).
  constructor; cbn [r_pending r_entries r_threads].
  - intros id' q [[<- <-]|[Hne Hq]]%lookup_insert_Some.
    + exists e0. split; [by rewrite lookup_app_r, Nat.sub_diag|done].
    + destruct (i_ptr _ Hi _ _ Hq) as (e & He & Hide). eauto.
  - intros t th Ht. pose proof (i_threads _ Hi _ _ Ht) as Hok. revert Hok. apply thread_ok_mono. cbn [r_entries]. eauto 10.
  - intros q e Hq. apply lookup_app_Some in Hq as [Hq|[Hge Hq]].
    + destruct (i_counts _ Hi _ _ Hq) as [H0 H1 H2 H3 H4 H5].
      assert (q <> p) as Hqp by (intros ->; congruence).
      assert (live (MkRegistry (<[id:=p]> (r_pending r)) (r_answerable r) (r_entries r ++ [e0]) (r_threads r)) q e
              <-> live r q e) as Hlive.
      { unfold live. cbn [r_pending]. destruct (decide (p_id e = id)) as [->|Hne].
        - rewrite lookup_insert_eq, Hp. split; [congruence|done].
        - by rewrite lookup_insert_ne. }
      constructor; cbn [r_threads]; rewrite ?Hlive; done.
    + apply list_lookup_singleton_Some in Hq as [Hq <-]. assert (q = p) as -> by lia.
      assert (live (MkRegistry (<[id:=p]> (r_pending r)) (r_answerable r) (r_entries r ++ [e0]) (r_threads r)) p e0)
        as Hlive by (unfold live; cbn; by rewrite lookup_insert_eq).
      constructor; cbn [r_threads].
      * intros _. by rewrite (tok_new r _ p) by auto.
      * done.
      * rewrite !(tok_new r _ p) by auto. done.
      * rewrite (tok_new r _ p) by auto. cbn. lia.
      * intros _. rewrite (tok_new r _ p) by auto. cbn. lia.
      * done.
Qed.

Lemma inv_SetAnswerable b r : inv r -> inv (SetAnswerable b r).
Proof.
  intros [H1 H2 H3]. constructor; [done| |].
  - intros t th Ht. eapply thread_ok_same; [|by eapply H2]. done.
  - intros p e He. destruct (H3 p e He). by constructor.
Qed.

(** The four counts after goroutine [t] moves from [t_pc th] to [c]. *)
Lemma tok_moves l t th o c p :
  l !! t = Some th ->
  tok (f_win p) (<[t := MkThread o c]> l) + f_win p (t_pc th) = tok (f_win p) l + f_win p c /\
  tok (f_send p) (<[t := MkThread o c]> l) + f_send p (t_pc th) = tok (f_send p) l + f_send p c /\
  tok (f_stop p) (<[t := MkThread o c]> l) + f_stop p (t_pc th) = tok (f_stop p) l + f_stop p c /\
  tok (f_exp p) (<[t := MkThread o c]> l) + f_exp p (t_pc th) = tok (f_exp p) l + f_exp p c.
Proof. intros H. repeat split; by apply tok_insert. Qed.

Lemma f_order p c : f_stop p c <= f_send p c /\ f_send p c <= f_win p c.
Proof. destruct c as [| | |? [?|] ?| | |[?|]]; cbn; lia. Qed.

Lemma tok_order p l : tok (f_stop p) l <= tok (f_send p) l /\ tok (f_send p) l <= tok (f_win p) l.
Proof. split; apply sum_list_with_le; intros th _; apply f_order. Qed.

Lemma here_refl p : here p p = 1.
Proof. unfold here. by case_decide. Qed.
Lemma here_ne p q : p <> q -> here p q = 0.
Proof. unfold here. by case_decide. Qed.

Lemma alter_back (f : pending -> pending) p (l : list pending) q e' :
  alter f p l !! q = Some e' -> exists e, l !! q = Some e.
Proof.
  rewrite list_lookup_alter. case_decide as H; [|eauto]. subst q. intros (e & He & _)%fmap_Some. eauto.
Qed.

(** [inv] after goroutine [t] moves and the registry changes to [r']. *)
Lemma inv_move r r' t th c :
  inv r -> r_threads r !! t = Some th -> r_threads r' = r_threads r ->
  (forall id p, r_pending r' !! id = Some p -> r_pending r !! id = Some p) ->
  (forall p e', r_entries r' !! p = Some e' -> exists e, r_entries r !! p = Some e) ->
  (forall p e, r_entries r !! p = Some e ->
     exists e', r_entries r' !! p = Some e' /\ p_id e' = p_id e /\ p_window e' = p_window e
       /\ forall v, delivered e v -> delivered e' v) ->
  (let r2 := set_threads (<[t := MkThread (t_origin th) c]> (r_threads r')) r' in
   thread_ok r2 (MkThread (t_origin th) c) /\
   forall p e e', r_entries r !! p = Some e -> r_entries r' !! p = Some e' -> p_id e' = p_id e ->
     counts_ok r p e -> counts_ok r2 p e') ->
  inv (set_threads (<[t := MkThread (t_origin th) c]> (r_threads r')) r').
Proof.
  cbn beta zeta. intros Hi Ht Hth Hptr Hback Hmono [Hnew Hcount].
  constructor; cbn [r_pending r_entries r_threads set_threads].
  - intros id p Hp. destruct (i_ptr _ Hi _ _ (Hptr _ _ Hp)) as (e & He & Hid).
    destruct (Hmono _ _ He) as (e' & He' & Hid' & _). exists e'. split; [done|congruence].
  - intros t' th' [(<- & <- & _)|[Hne Ht']]%list_lookup_insert_Some; [done|]. rewrite Hth in Ht'.
    pose proof (i_threads _ Hi _ _ Ht') as Hok. revert Hok. by apply thread_ok_mono.
  - intros p e' He'. destruct (Hback _ _ He') as [e He]. destruct (Hmono _ _ He) as (e'' & He'' & Hid & _).
    cbn in He'. assert (e'' = e') as -> by congruence. eapply Hcount; [done|done|done|]. by apply (i_counts _ Hi).
Qed.

(** A move that changes neither the map nor the entries. *)
Lemma inv_move_same r t th c :
  inv r -> r_threads r !! t = Some th ->
  thread_ok r (MkThread (t_origin th) c) ->
  (forall p, f_win p c = f_win p (t_pc th)) -> (forall p, f_send p c = f_send p (t_pc th)) ->
  (forall p, f_stop p c = f_stop p (t_pc th)) -> (forall p, f_exp p c <= f_exp p (t_pc th)) ->
  (forall p e, r_entries r !! p = Some e -> live r p e -> f_exp p c = f_exp p (t_pc th)) ->
  inv (set_threads (<[t := MkThread (t_origin th) c]> (r_threads r)) r).
Proof.
  intros Hi Ht Hok Hw Hs Hp He Hl. apply (inv_move r); try done; [eauto|eauto 10|]. cbn zeta. split.
  { by apply (thread_ok_same r). }
  intros p e e' Hpe Hpe' _ [H0 H1 H2 H3 H4 H5]. assert (e' = e) as -> by congruence.
  destruct (tok_moves _ _ _ (t_origin th) c p Ht) as (T1 & T2 & T3 & T4).
  specialize (Hw p). specialize (Hs p). specialize (Hp p). specialize (He p). specialize (Hl p e Hpe).
  constructor; cbn [r_threads set_threads].
  - intros L. change (live r p e) in L. specialize (H0 L). lia.
  - intros L. change (~ live r p e) in L. specialize (H1 L). lia.
  - lia.
  - lia.
  - intros L. change (live r p e) in L. specialize (H4 L). specialize (Hl L). lia.
  - intros L Hz. apply H5; [done|lia].
Qed.

Lemma inv_PExpire r t th id p w :
  inv r -> r_threads r !! t = Some th -> t_pc th = PExpire id p w ->
  inv (set_threads (<[t := MkThread (t_origin th) (expire_check id p w r)]> (r_threads r)) r).
Proof.
  intros Hi Ht Hpc. pose proof (i_threads _ Hi _ _ Ht) as Hok. unfold thread_ok in Hok. rewrite Hpc in Hok.
  destruct Hok as (Ho & e & He & Hid & Hwin).
  apply inv_move_same; try done; rewrite ?Hpc; unfold expire_check; repeat case_match; try done.
  all: try (by unfold thread_ok; cbn; eauto 10).
  - intros q. cbn. lia.
  - intros q e' Hq L. case_bool_decide as Hn; [done|]. cbn. unfold here. case_decide as Heq; [|done]. subst q.
    exfalso. apply Hn. unfold live in L. congruence.
Qed.

Lemma inv_PAsk r t th id p w (yes : bool) :
  inv r -> r_threads r !! t = Some th -> t_pc th = PAsk id p w ->
  inv (set_threads (<[t := MkThread (t_origin th)
    (if yes then PRearm id p w else PResolve id (Some p) (Deny reasonTimeout))]> (r_threads r)) r).
Proof.
  intros Hi Ht Hpc. pose proof (i_threads _ Hi _ _ Ht) as Hok. unfold thread_ok in Hok. rewrite Hpc in Hok.
  destruct Hok as (Ho & e & He & Hid & Hwin).
  apply inv_move_same; try done; rewrite ?Hpc; destruct yes; try done; unfold thread_ok; cbn; eauto 10.
Qed.

Lemma inv_PRearm r t th id p w :
  inv r -> r_threads r !! t = Some th -> t_pc th = PRearm id p w ->
  inv (set_threads (<[t := MkThread (t_origin th) (PDone None)]> (r_threads (expire_rearm id p r))) (expire_rearm id p r)).
Proof.
  intros Hi Ht Hpc. pose proof (i_threads _ Hi _ _ Ht) as Hok. unfold thread_ok in Hok. rewrite Hpc in Hok.
  destruct Hok as (Ho & e & He & Hid & Hwin). unfold expire_rearm. case_bool_decide as Hlive.
  - apply (inv_move r); try done.
    + by apply alter_back.
    + intros q e' Hq. cbn. destruct (decide (p = q)) as [<-|Hne].
      * rewrite list_lookup_alter_eq, Hq. eexists. split; [done|]. done.
      * rewrite list_lookup_alter_ne by done. eauto 10.
    + cbn zeta. split; [done|]. intros q e1 e2 Hq Hq' Hide [H0 H1 H2 H3 H4 H5]. cbn in Hq'.
      destruct (tok_moves _ _ _ (t_origin th) (PDone None) q Ht) as (T1 & T2 & T3 & T4). rewrite Hpc in T1, T2, T3, T4.
      cbn in T1, T2, T3, T4.
      assert (live (set_threads (<[t:=MkThread (t_origin th) (PDone None)]> (r_threads (upd_entry (arm true) p r)))
                (upd_entry (arm true) p r)) q e2 <-> live r q e1) as Hl by (unfold live; cbn; by rewrite Hide).
      destruct (decide (p = q)) as [<-|Hne].
      * rewrite list_lookup_alter_eq, Hq in Hq'. injection Hq' as <-. rewrite here_refl in T4.
        assert (live r p e1) as L by (unfold live; congruence). specialize (H4 L).
        constructor; rewrite ?Hl; cbn [r_threads set_threads upd_entry set_entries]; try done.
        -- intros _. specialize (H0 L). lia.
        -- unfold n_delivered in *. cbn. lia.
        -- cbn. lia.
        -- intros _. cbn. lia.
      * rewrite list_lookup_alter_ne in Hq' by done. assert (e2 = e1) as -> by congruence.
        rewrite here_ne in T4 by done.
        constructor; rewrite ?Hl; cbn [r_threads set_threads upd_entry set_entries];
          try lia; intros L; try (specialize (H0 L)); try (specialize (H1 L)); try (specialize (H4 L)); try lia;
          intros; apply H5; [done|lia].
  - apply inv_move_same; try done; rewrite ?Hpc; try done.
    + intros q. cbn. lia.
    + intros q e' Hq L. cbn. unfold here. case_decide as Heq; [|done]. subst q. exfalso. apply Hlive. unfold live in L. congruence.
Qed.

(** Nobody, or one goroutine, has won an entry. *)
Lemma win_le r p e : counts_ok r p e -> tok (f_win p) (r_threads r) <= 1.
Proof. intros [H0 H1 _ _ _ _]. destruct (decide (live r p e)) as [L|L]; [rewrite H0|rewrite H1]; auto. Qed.

(** An entry the step is not about. *)
Lemma counts_transfer r r' q e :
  (live r' q e <-> live r q e) ->
  tok (f_win q) (r_threads r') = tok (f_win q) (r_threads r) ->
  tok (f_send q) (r_threads r') = tok (f_send q) (r_threads r) ->
  tok (f_stop q) (r_threads r') = tok (f_stop q) (r_threads r) ->
  tok (f_exp q) (r_threads r') = tok (f_exp q) (r_threads r) ->
  counts_ok r q e -> counts_ok r' q e.
Proof.
  intros Hl E1 E2 E3 E4 [H0 H1 H2 H3 H4 H5]. constructor; rewrite ?Hl, ?E1, ?E2, ?E3, ?E4; done.
Qed.

Lemma inv_PResolve_lost r t th id x v :
  inv r -> r_threads r !! t = Some th -> t_pc th = PResolve id x v ->
  (forall p, r_pending r !! id = Some p -> x <> None /\ x <> Some p) ->
  inv (set_threads (<[t := MkThread (t_origin th) (PDone None)]> (r_threads r)) r).
Proof.
  intros Hi Ht Hpc Hno. pose proof (i_threads _ Hi _ _ Ht) as Hok. unfold thread_ok in Hok. rewrite Hpc in Hok.
  apply inv_move_same; try done; rewrite ?Hpc; try done; destruct x as [p|]; try done.
  - intros q. cbn. lia.
  - intros q e' Hq L. cbn. unfold here. case_decide as Heq; [|done]. subst q. exfalso.
    destruct Hok as (_ & _ & e & He & Hid). unfold live in L.
    assert (e' = e) as -> by congruence. rewrite Hid in L. by destruct (Hno _ L).
Qed.

Lemma inv_PResolve_won r t th id x v p :
  inv r -> r_threads r !! t = Some th -> t_pc th = PResolve id x v ->
  r_pending r !! id = Some p -> (x = None \/ x = Some p) ->
  inv (set_threads (<[t := MkThread (t_origin th) (PStop p v)]> (r_threads r))
         (MkRegistry (delete id (r_pending r)) (r_answerable r) (r_entries r) (r_threads r))).
Proof.
  intros Hi Ht Hpc Hp Hx. pose proof (i_threads _ Hi _ _ Ht) as Hok. unfold thread_ok in Hok. rewrite Hpc in Hok.
  destruct (i_ptr _ Hi _ _ Hp) as (e & He & Hid).
  apply (inv_move r (MkRegistry (delete id (r_pending r)) (r_answerable r) (r_entries r) (r_threads r))); try done.
  - intros id' q. cbn. intros [_ Hq]%lookup_delete_Some. done.
  - eauto.
  - eauto 10.
  - cbn zeta. split.
    { exists e. split; [done|]. cbn. destruct Hx as [-> | ->]; [by rewrite Hok|].
      destruct Hok as (-> & -> & _). done. }
    intros q e1 e2 Hq Hq' _ Hc. cbn in Hq'. assert (e2 = e1) as -> by congruence.
    destruct (tok_moves _ _ _ (t_origin th) (PStop p v) q Ht) as (T1 & T2 & T3 & T4).
    rewrite Hpc in T1, T2, T3, T4. destruct (decide (p = q)) as [<-|Hne].
    + assert (e1 = e) as -> by congruence. destruct Hc as [H0 H1 H2 H3 H4 H5].
      assert (live r p e) as L by (unfold live; congruence). specialize (H0 L). specialize (H4 L).
      assert (f_exp p (PResolve id x v) <= 1) by (destruct x; cbn; unfold here; try case_decide; lia).
      assert (f_win p (PResolve id x v) = 0 /\ f_send p (PResolve id x v) = 0 /\ f_stop p (PResolve id x v) = 0)
        as (Z1 & Z2 & Z3) by done.
      cbn [f_win f_send f_stop f_exp] in T1, T2, T3. change (f_exp p (PStop p v)) with 0 in T4. rewrite here_refl in T1, T2, T3.
      assert (~ live (set_threads (<[t:=MkThread (t_origin th) (PStop p v)]> (r_threads r))
        (MkRegistry (delete id (r_pending r)) (r_answerable r) (r_entries r) (r_threads r))) p e) as Hdead.
      { unfold live. cbn. rewrite Hid, lookup_delete_eq. done. }
      constructor; cbn [r_threads set_threads]; try done; try lia.
    + revert Hc. apply counts_transfer; cbn [r_threads set_threads].
      * unfold live. cbn. destruct (decide (p_id e1 = id)) as [->|Hni].
        -- rewrite lookup_delete_eq. split; [done|congruence].
        -- by rewrite lookup_delete_ne.
      * cbn in T1. rewrite here_ne in T1 by done. lia.
      * cbn in T2. rewrite here_ne in T2 by done. lia.
      * cbn in T3. rewrite here_ne in T3 by done. lia.
      * assert (f_exp q (PResolve id x v) = 0) as E.
        { destruct Hx as [-> | ->]; [done|]. by apply here_ne. }
        rewrite E in T4. change (f_exp q (PStop p v)) with 0 in T4. lia.
Qed.

Definition same_at (q : nat) (c c' : pc) : Prop :=
  f_win q c = f_win q c' /\ f_send q c = f_send q c' /\ f_stop q c = f_stop q c' /\ f_exp q c = f_exp q c'.

(** A move that updates entry [p] by [f]. *)
Lemma inv_move_alter r t th c f p e :
  inv r -> r_threads r !! t = Some th -> r_entries r !! p = Some e ->
  p_id (f e) = p_id e -> p_window (f e) = p_window e -> (forall v, delivered e v -> delivered (f e) v) ->
  (forall q, p <> q -> same_at q c (t_pc th)) ->
  let r2 := set_threads (<[t := MkThread (t_origin th) c]> (r_threads (upd_entry f p r))) (upd_entry f p r) in
  thread_ok r2 (MkThread (t_origin th) c) ->
  (counts_ok r p e -> (live r2 p (f e) <-> live r p e) -> counts_ok r2 p (f e)) ->
  inv r2.
Proof.
  cbn zeta. intros Hi Ht He Hid Hwin Hdel Hsame Hok Hcnt.
  apply (inv_move r); try done.
  - apply alter_back.
  - intros q e' Hq. cbn. destruct (decide (p = q)) as [<-|Hne].
    + rewrite list_lookup_alter_eq, Hq. assert (e' = e) as -> by congruence. eexists. split; [done|]. done.
    + rewrite list_lookup_alter_ne by done. eauto 10.
  - cbn zeta. split; [done|]. intros q e1 e2 Hq Hq' Hide Hc. cbn in Hq'. destruct (decide (p = q)) as [<-|Hne].
    + rewrite list_lookup_alter_eq, Hq in Hq'. assert (e1 = e) as -> by congruence. injection Hq' as <-.
      apply Hcnt; [done|]. unfold live. cbn. by rewrite Hide.
    + rewrite list_lookup_alter_ne in Hq' by done. assert (e2 = e1) as -> by congruence.
      destruct (tok_moves _ _ _ (t_origin th) c q Ht) as (T1 & T2 & T3 & T4). destruct (Hsame q Hne) as (S1 & S2 & S3 & S4).
      revert Hc. apply counts_transfer; cbn [r_threads set_threads upd_entry set_entries]; try lia. done.
Qed.

Lemma inv_PStop r t th p v :
  inv r -> r_threads r !! t = Some th -> t_pc th = PStop p v ->
  inv (set_threads (<[t := MkThread (t_origin th) (PSend p v)]> (r_threads (upd_entry (arm false) p r)))
         (upd_entry (arm false) p r)).
Proof.
  intros Hi Ht Hpc. pose proof (i_threads _ Hi _ _ Ht) as Hok. unfold thread_ok in Hok. rewrite Hpc in Hok.
  destruct Hok as (e & He & Hw). pose proof (tok_pos (f_win p) _ _ _ Ht) as Hone. rewrite Hpc in Hone. cbn in Hone.
  rewrite here_refl in Hone.
  apply (inv_move_alter r _ _ _ _ _ e); try done.
  - intros q Hne. rewrite Hpc. repeat split. cbn. by rewrite here_ne.
  - exists (arm false e). cbn. by rewrite list_lookup_alter_eq, He.
  - intros [H0 H1 H2 H3 H4 H5] Hl. destruct (tok_moves _ _ _ (t_origin th) (PSend p v) p Ht) as (T1 & T2 & T3 & T4).
    rewrite Hpc in T1, T2, T3, T4. cbn in T1, T2, T3, T4.
    assert (~ live r p e) as Hd by (intros L; specialize (H0 L); lia).
    constructor; rewrite ?Hl; cbn [r_threads set_threads upd_entry set_entries]; try done.
    + intros _. specialize (H1 Hd). lia.
    + unfold n_delivered in *. cbn in *. lia.
    + cbn. lia.
Qed.

(** The send of a winner never blocks. *)
Lemma send_ready r t th p v :
  inv r -> r_threads r !! t = Some th -> t_pc th = PSend p v ->
  exists e, r_entries r !! p = Some e /\ p_ch e = None /\ p_got e = [].
Proof.
  intros Hi Ht Hpc. pose proof (i_threads _ Hi _ _ Ht) as Hok. unfold thread_ok in Hok. rewrite Hpc in Hok.
  destruct Hok as (e & He & _). exists e. split; [done|]. destruct (i_counts _ Hi _ _ He) as [H0 H1 H2 _ _ _].
  pose proof (tok_pos (f_send p) _ _ _ Ht) as Hs. rewrite Hpc in Hs. cbn in Hs. rewrite here_refl in Hs.
  assert (n_delivered e = 0) as Hz by (destruct (decide (live r p e)) as [L|L]; [specialize (H0 L)|specialize (H1 L)]; lia).
  unfold n_delivered in Hz. destruct (p_ch e), (p_got e); cbn in Hz; try lia. done.
Qed.

Lemma inv_PSend r t th p v e :
  inv r -> r_threads r !! t = Some th -> t_pc th = PSend p v -> r_entries r !! p = Some e -> p_ch e = None ->
  inv (set_threads (<[t := MkThread (t_origin th) (PDone (Some p))]> (r_threads (upd_entry (put_ch v) p r)))
         (upd_entry (put_ch v) p r)).
Proof.
  intros Hi Ht Hpc He Hch. pose proof (i_threads _ Hi _ _ Ht) as Hok. unfold thread_ok in Hok. rewrite Hpc in Hok.
  destruct Hok as (e' & He' & Hw). assert (e' = e) as -> by congruence.
  pose proof (tok_pos (f_win p) _ _ _ Ht) as Hone. rewrite Hpc in Hone. cbn in Hone. rewrite here_refl in Hone.
  apply (inv_move_alter r _ _ _ _ _ e); try done.
  - intros w [Hd|Hd]; [congruence|by right].
  - intros q Hne. rewrite Hpc. repeat split; cbn; by rewrite here_ne.
  - exists (put_ch v e), v. cbn. rewrite list_lookup_alter_eq, He. split; [done|]. split; [done|]. by left.
  - intros [H0 H1 H2 H3 H4 H5] Hl.
    destruct (tok_moves _ _ _ (t_origin th) (PDone (Some p)) p Ht) as (T1 & T2 & T3 & T4).
    rewrite Hpc in T1, T2, T3, T4. cbn in T1, T2, T3, T4. rewrite here_refl in *.
    assert (~ live r p e) as Hd by (intros L; specialize (H0 L); lia). specialize (H1 Hd).
    constructor; rewrite ?Hl; cbn [r_threads set_threads upd_entry set_entries]; try done.
    + intros _. lia.
    + unfold n_delivered in *. rewrite Hch in H2. cbn in *. lia.
    + cbn. lia.
    + intros _ Hz. apply H5; [done|lia].
Qed.

Lemma inv_spawn_resolve r id v : inv r -> inv (spawn (OResolve id v) (PResolve id None v) r).
Proof.
  intros Hi. constructor; cbn [r_pending r_entries r_threads spawn set_threads].
  - apply (i_ptr _ Hi).
  - intros t th [Ht|[_ Ht]]%lookup_app_Some.
    + apply (thread_ok_same r); [done|]. by eapply i_threads.
    + apply list_lookup_singleton_Some in Ht as [_ <-]. done.
  - intros q e Hq. pose proof (i_counts _ Hi _ _ Hq) as Hc. revert Hc. apply counts_transfer;
      cbn [r_threads spawn set_threads]; rewrite ?tok_snoc; cbn; try lia. done.
Qed.

Lemma inv_AFire r p e :
  inv r -> r_entries r !! p = Some e -> p_armed e = true ->
  inv (spawn (OTimer p) (PExpire (p_id e) p (p_window e)) (upd_entry (arm false) p r)).
Proof.
  intros Hi He Harm. constructor; cbn [r_pending r_entries r_threads spawn set_threads upd_entry set_entries].
  - intros id q Hq. destruct (i_ptr _ Hi _ _ Hq) as (e' & He' & Hid). destruct (decide (p = q)) as [<-|Hne].
    + rewrite list_lookup_alter_eq, He'. eauto.
    + rewrite list_lookup_alter_ne by done. eauto.
  - intros t th [Ht|[_ Ht]]%lookup_app_Some.
    + apply (thread_ok_alter r _ (arm false) p); [apply keeps_arm|done|]. by eapply i_threads.
    + apply list_lookup_singleton_Some in Ht as [_ <-]. cbn. split; [done|]. exists (arm false e).
      cbn. by rewrite list_lookup_alter_eq, He.
  - intros q e' Hq. destruct (decide (p = q)) as [<-|Hne].
    + rewrite list_lookup_alter_eq, He in Hq. injection Hq as <-. destruct (i_counts _ Hi _ _ He) as [H0 H1 H2 H3 H4 H5].
      rewrite Harm in H3, H4, H5. cbn [b2n] in H3, H4.
      match goal with |- counts_ok ?R _ _ => assert (live R p (arm false e) <-> live r p e) as Hl by done end.
      constructor; rewrite ?Hl; cbn [r_threads spawn set_threads upd_entry set_entries]; rewrite ?tok_snoc; cbn;
        rewrite ?here_refl, ?Nat.add_0_r; try done; try lia.
    + rewrite list_lookup_alter_ne in Hq by done. pose proof (i_counts _ Hi _ _ Hq) as Hc. revert Hc.
      apply counts_transfer; cbn [r_threads spawn set_threads upd_entry set_entries]; rewrite ?tok_snoc; cbn;
        rewrite ?here_ne by done; try lia. done.
Qed.

Lemma inv_AAwait r p e v :
  inv r -> r_entries r !! p = Some e -> p_ch e = Some v -> inv (upd_entry (take_ch v) p r).
Proof.
  intros Hi He Hch. constructor; cbn [r_pending r_entries r_threads upd_entry set_entries].
  - intros id q Hq. destruct (i_ptr _ Hi _ _ Hq) as (e' & He' & Hid). destruct (decide (p = q)) as [<-|Hne].
    + rewrite list_lookup_alter_eq, He'. eauto.
    + rewrite list_lookup_alter_ne by done. eauto.
  - intros t th Ht. pose proof (i_threads _ Hi _ _ Ht) as Hok. revert Hok. apply thread_ok_mono.
    intros q e' Hq. cbn. destruct (decide (p = q)) as [<-|Hne].
    + rewrite list_lookup_alter_eq, Hq. assert (e' = e) as -> by congruence. eexists. split; [done|]. split; [done|].
      split; [done|]. intros w. by apply delivered_take.
    + rewrite list_lookup_alter_ne by done. eauto 10.
  - intros q e' Hq. destruct (decide (p = q)) as [<-|Hne].
    + rewrite list_lookup_alter_eq, He in Hq. injection Hq as <-. destruct (i_counts _ Hi _ _ He) as [H0 H1 H2 H3 H4 H5].
      match goal with |- counts_ok ?R _ _ => assert (live R p (take_ch v e) <-> live r p e) as Hl by done end.
      constructor; rewrite ?Hl; cbn [r_threads upd_entry set_entries]; try done.
      unfold n_delivered in *. rewrite Hch in H2. cbn in *. rewrite length_app. cbn. lia.
    + rewrite list_lookup_alter_ne in Hq by done. pose proof (i_counts _ Hi _ _ Hq) as Hc. revert Hc. by apply counts_transfer.
Qed.

Lemma inv_AStep r t th yes r' c :
  inv r -> r_threads r !! t = Some th -> advance (t_pc th) yes r = Some (r', c) ->
  inv (set_threads (<[t := MkThread (t_origin th) c]> (r_threads r')) r').
Proof.
  intros Hi Ht Ha. destruct (t_pc th) as [id p w|id p w|id p w|id x v|p v|p v|x] eqn:Hpc; cbn in Ha; try done.
  - injection Ha as <- <-. by apply inv_PExpire.
  - injection Ha as <- <-. by apply inv_PAsk.
  - injection Ha as <- <-. by eapply inv_PRearm.
  - unfold resolve in Ha. destruct (r_pending r !! id) as [p|] eqn:Hp.
    + destruct (bool_decide (x <> None) && negb (bool_decide (x = Some p))) eqn:Hb; injection Ha as <- <-.
      * eapply inv_PResolve_lost; [done..|]. intros q Hq. assert (q = p) as -> by congruence.
        apply andb_true_iff in Hb as [H1%bool_decide_eq_true H2%negb_true_iff%bool_decide_eq_false]. done.
      * apply (inv_PResolve_won r t th id x v p); [done..|]. apply andb_false_iff in Hb as [H1%bool_decide_eq_false|H1].
        -- left. by destruct (decide (x = None)).
        -- right. by apply negb_false_iff, bool_decide_eq_true in H1.
    + injection Ha as <- <-. eapply inv_PResolve_lost; [done..|]. congruence.
  - injection Ha as <- <-. by apply inv_PStop.
  - destruct (r_entries r !! p) as [e|] eqn:He; [|done]. case_bool_decide; [|done]. injection Ha as <- <-.
    by eapply inv_PSend.
Qed.

Lemma inv_step a r r' : inv r -> step a r = Some r' -> inv r'.
Proof.
  intros Hi Hs. destruct a as [id req w|b|id v|p|t yes|p]; cbn [step] in Hs.
  - injection Hs as <-. by apply inv_Register.
  - injection Hs as <-. by apply inv_SetAnswerable.
  - injection Hs as <-. by apply inv_spawn_resolve.
  - destruct (r_entries r !! p) as [e|] eqn:He; [|done]. destruct (p_armed e) eqn:Harm; [|done].
    injection Hs as <-. by apply inv_AFire.
  - destruct (r_threads r !! t) as [th|] eqn:Ht; [|done]. destruct (advance _ _ _) as [[r1 c]|] eqn:Ha; [|done].
    injection Hs as <-. by eapply inv_AStep.
  - destruct (r_entries r !! p) as [e|] eqn:He; [|done]. destruct (p_ch e) as [v|] eqn:Hch; [|done].
    injection Hs as <-. by eapply inv_AAwait.
Qed.

Lemma inv_steps l r r' : inv r -> steps l r = Some r' -> inv r'.
Proof.
  revert r. induction l as [|a l IH]; cbn; intros r Hi Hs; [by simplify_eq|].
  destruct (step a r) as [r1|] eqn:E; [|done]. eapply IH; [|done]. by eapply inv_step.
Qed.

Lemma inv_reachable r : reachable r -> inv r.
Proof. intros [l Hl]. eapply inv_steps; [apply inv_New|done]. Qed.

(** ** Where a verdict comes from *)

(** Each goroutine has been started, and each verdict was sent by one that is done. *)
Definition started (l : list action) (o : origin) : Prop :=
  match o with OResolve id v => AResolve id v ∈ l | OTimer p => AFire p ∈ l end.

Definition sent (r : Registry) : Prop :=
  forall p e v, r_entries r !! p = Some e -> delivered e v ->
    exists t th, r_threads r !! t = Some th /\ t_pc th = PDone (Some p) /\ won_by (t_origin th) p e v.

(** Goroutines that are done stay where they are. *)
Lemma step_done a r r' t th x :
  step a r = Some r' -> r_threads r !! t = Some th -> t_pc th = PDone x -> r_threads r' !! t = Some th.
Proof.
  intros Hs Ht Hpc. destruct a as [id req w|b|id v|p|t' yes|p]; cbn [step] in Hs.
  - injection Hs as <-. unfold Register. repeat case_match; cbn; done.
  - injection Hs as <-. done.
  - injection Hs as <-. cbn. by apply lookup_app_l_Some.
  - repeat case_match; simplify_eq. cbn. by apply lookup_app_l_Some.
  - destruct (r_threads r !! t') as [th'|] eqn:Ht'; [|done]. destruct (advance _ _ _) as [[r1 c]|] eqn:Ha; [|done].
    injection Hs as <-. cbn. assert (t' <> t) by (intros ->; simplify_eq; by rewrite Hpc in Ha).
    rewrite list_lookup_insert_ne by done. assert (r_threads r1 = r_threads r) as ->; [|done].
    unfold advance, resolve, expire_rearm in Ha. repeat case_match; simplify_eq; done.
  - repeat case_match; simplify_eq. done.
Qed.

(** What an entry of the next state was. *)
Lemma step_entry a r r' p e' :
  step a r = Some r' -> r_entries r' !! p = Some e' ->
  (exists e, r_entries r !! p = Some e /\ p_id e' = p_id e /\
     forall v, delivered e' v -> delivered e v \/
       exists t th, r_threads r !! t = Some th /\ t_pc th = PSend p v
         /\ r_threads r' !! t = Some (MkThread (t_origin th) (PDone (Some p)))) \/
  (p_ch e' = None /\ p_got e' = []).
Proof.
  assert (forall f q, (forall e, p_id (f e) = p_id e /\ forall v, delivered (f e) v -> delivered e v) ->
    r_entries r' = alter f q (r_entries r) -> r_entries r' !! p = Some e' ->
    exists e, r_entries r !! p = Some e /\ p_id e' = p_id e /\ forall v, delivered e' v -> delivered e v) as Halt.
  { intros f q Hf Hr Hp. rewrite Hr, list_lookup_alter in Hp. case_decide as Hq; [|eauto].
    subst q. apply fmap_Some in Hp as (e & He & ->). destruct (Hf e). eauto. }
  intros Hs Hp. destruct a as [id req w|b|id v|q|t yes|q]; cbn [step] in Hs.
  - injection Hs as <-. unfold Register in Hp. repeat case_match; cbn in Hp; [left; eauto 10|left; eauto 10|].
    apply lookup_app_Some in Hp as [Hp|[_ Hp]]; [left; eauto 10|]. apply list_lookup_singleton_Some in Hp as [_ <-]. by right.
  - injection Hs as <-. left. eauto 10.
  - injection Hs as <-. left. eauto 10.
  - repeat case_match; simplify_eq. left. destruct (Halt (arm false) q) as (e & ? & ? & ?); [done|done|done|]. eauto 10.
  - destruct (r_threads r !! t) as [th|] eqn:Ht; [|done]. destruct (advance _ _ _) as [[r1 c]|] eqn:Ha; [|done].
    injection Hs as <-. left. cbn [set_threads r_entries r_threads] in *.
    destruct (t_pc th) as [id q w|id q w|id q w|id x v|q v|q v|x] eqn:Hpc; cbn in Ha; try done.
    + injection Ha as <- <-. eauto 10.
    + injection Ha as <- <-. eauto 10.
    + injection Ha as <- <-. unfold expire_rearm in *. case_bool_decide; [|eauto 10].
      destruct (Halt (arm true) q) as (e & ? & ? & ?); [done|done|done|]. eauto 10.
    + unfold resolve in Ha. repeat case_match; simplify_eq; eauto 10.
    + injection Ha as <- <-. destruct (Halt (arm false) q) as (e & ? & ? & ?); [done|done|done|]. eauto 10.
    + destruct (r_entries r !! q) as [e|] eqn:He; [|done]. case_bool_decide as Hch; [|done]. injection Ha as <- <-.
      cbn in Hp. destruct (decide (q = p)) as [->|Hne]; [|rewrite list_lookup_alter_ne in Hp by done; eauto 10].
      rewrite list_lookup_alter_eq, He in Hp. injection Hp as <-. exists e. split; [done|]. split; [done|].
      intros v' [Hv|Hv]; [|by left; right]. injection Hv as <-. right. exists t, th. split; [done|]. split; [done|].
      cbn. apply list_lookup_insert_eq. by eapply lookup_lt_Some.
  - destruct (r_entries r !! q) as [e0|] eqn:He; [|done]. destruct (p_ch e0) as [v0|] eqn:Hch; [|done].
    injection Hs as <-. left. cbn in Hp. destruct (decide (q = p)) as [->|Hne];
      [|rewrite list_lookup_alter_ne in Hp by done; eauto 10].
    rewrite list_lookup_alter_eq, He in Hp. injection Hp as <-. exists e0. split; [done|]. split; [done|].
    intros v [Hv|[Hv|Hv%list_elem_of_singleton]%elem_of_app]; [done|left; by right|left; left; congruence].
Qed.

Lemma won_by_id o p e e' v : p_id e' = p_id e -> won_by o p e v -> won_by o p e' v.
Proof. unfold won_by. destruct o; [|done]. by intros ->. Qed.

Lemma sent_step a r r' : inv r -> sent r -> step a r = Some r' -> sent r'.
Proof.
  intros Hi Hsent Hs p e' v Hp Hd. destruct (step_entry _ _ _ _ _ Hs Hp) as [(e & He & Hid & Hdel)|[Hch Hgot]].
  - destruct (Hdel v Hd) as [Hd'|(t & th & Ht & Hpc & Ht')].
    + destruct (Hsent _ _ _ He Hd') as (t & th & Ht & Hpc & Hw). exists t, th.
      split; [by eapply step_done|]. split; [done|]. by eapply won_by_id.
    + pose proof (i_threads _ Hi _ _ Ht) as Hok. unfold thread_ok in Hok. rewrite Hpc in Hok.
      destruct Hok as (e1 & He1 & Hw). assert (e1 = e) as -> by congruence.
      exists t, (MkThread (t_origin th) (PDone (Some p))). split; [done|]. split; [done|]. by eapply won_by_id.
  - destruct Hd as [Hd|Hd]; [congruence|]. rewrite Hgot in Hd. by apply elem_of_nil in Hd.
Qed.

(** A goroutine of the next state was there, or has just been started. *)
Lemma step_thread a r r' t th' :
  step a r = Some r' -> r_threads r' !! t = Some th' ->
  (exists th, r_threads r !! t = Some th /\ t_origin th = t_origin th') \/ started [a] (t_origin th').
Proof.
  intros Hs Ht'. destruct a as [id req w|b|id v|p|t' yes|p]; cbn [step] in Hs.
  - injection Hs as <-. left. unfold Register in Ht'. repeat case_match; cbn in Ht'; eauto.
  - injection Hs as <-. left. eauto.
  - injection Hs as <-. apply lookup_app_Some in Ht' as [Ht'|[_ Ht']]; [eauto|].
    apply list_lookup_singleton_Some in Ht' as [_ <-]. right. by apply list_elem_of_singleton.
  - repeat case_match; simplify_eq. apply lookup_app_Some in Ht' as [Ht'|[_ Ht']]; [eauto|].
    apply list_lookup_singleton_Some in Ht' as [_ <-]. right. by apply list_elem_of_singleton.
  - destruct (r_threads r !! t') as [th|] eqn:Ht; [|done]. destruct (advance _ _ _) as [[r1 c]|] eqn:Ha; [|done].
    injection Hs as <-. left. cbn in Ht'. apply list_lookup_insert_Some in Ht' as [(<- & <- & _)|[Hne Ht']]; [eauto|].
    assert (r_threads r1 = r_threads r) as Heq
      by (unfold advance, resolve, expire_rearm in Ha; repeat case_match; simplify_eq; done).
    rewrite Heq in Ht'. eauto.
  - repeat case_match; simplify_eq. left. eauto.
Qed.

Lemma started_mono l l' o : (forall a, a ∈ l -> a ∈ l') -> started l o -> started l' o.
Proof. unfold started. destruct o; auto. Qed.

Definition good (l : list action) (r : Registry) : Prop :=
  inv r /\ sent r /\ forall t th, r_threads r !! t = Some th -> started l (t_origin th).

Lemma good_step l a r r' : good l r -> step a r = Some r' -> good (l ++ [a]) r'.
Proof.
  intros (Hi & Hsent & Hst) Hs. split; [by eapply inv_step|]. split; [by eapply sent_step|].
  intros t th Ht. destruct (step_thread _ _ _ _ _ Hs Ht) as [(th0 & Ht0 & Ho)|Hnew].
  - rewrite <- Ho. eapply started_mono; [|by eapply Hst]. intros. apply elem_of_app. by left.
  - eapply started_mono; [|done]. intros. apply elem_of_app. by right.
Qed.

Lemma good_steps l0 l r r' : good l0 r -> steps l r = Some r' -> good (l0 ++ l) r'.
Proof.
  revert l0 r. induction l as [|a l IH]; cbn; intros l0 r Hg Hs; [rewrite app_nil_r; by simplify_eq|].
  destruct (step a r) as [r1|] eqn:E; [|done]. rewrite cons_middle, (app_assoc l0 [a] l). eapply IH; [|done]. by eapply good_step.
Qed.

Lemma good_New : good [] New.
Proof. split; [apply inv_New|]. split; [intros p e v H; done|intros t th H; done]. Qed.

(** ** Every deadline is met *)

Definition timer_action (p : nat) (a : action) : Prop :=
  match a with AFire q => q = p | AStep _ yes => yes = false | _ => False end.

(** Entry [p] gets its verdict within [k] steps of its timer, of the
    goroutines already started, and of a report that says nobody answers. *)
Definition within (k : nat) (p : nat) (r : Registry) : Prop :=
  exists l r' e', length l <= k /\ Forall (timer_action p) l /\ steps l r = Some r'
    /\ r_entries r' !! p = Some e' /\ is_Some (p_ch e').

Lemma within_le k k' p r : k <= k' -> within k p r -> within k' p r.
Proof. intros Hk (l & r' & e' & ? & ?). exists l, r', e'. split; [lia|done]. Qed.

Lemma within_step k p a r r' : timer_action p a -> step a r = Some r' -> within k p r' -> within (S k) p r.
Proof.
  intros Ha Hs (l & r2 & e' & Hlen & Hall & Hl & He). exists (a :: l), r2, e'. cbn. rewrite Hs.
  split; [lia|]. split; [by constructor|]. done.
Qed.

Lemma within_send r t th p v : inv r -> r_threads r !! t = Some th -> t_pc th = PSend p v -> within 1 p r.
Proof.
  intros Hi Ht Hpc. destruct (send_ready _ _ _ _ _ Hi Ht Hpc) as (e & He & Hch & _).
  exists [AStep t false]. cbn. rewrite Ht, Hpc. cbn. rewrite He, bool_decide_eq_true_2 by done.
  eexists _, (put_ch v e). split; [lia|]. split; [repeat constructor|]. split; [done|]. cbn.
  rewrite list_lookup_alter_eq, He. split; [done|]. by eexists.
Qed.

Lemma lookup_stepped (l : list thread) t th th' : l !! t = Some th -> <[t:=th']> l !! t = Some th'.
Proof. intros H. apply list_lookup_insert_eq. by eapply lookup_lt_Some. Qed.
#[local] Hint Resolve lookup_stepped : core.

Lemma within_stop r t th p v : inv r -> r_threads r !! t = Some th -> t_pc th = PStop p v -> within 2 p r.
Proof.
  intros Hi Ht Hpc. assert (step (AStep t false) r = Some (set_threads (<[t := MkThread (t_origin th) (PSend p v)]>
    (r_threads r)) (upd_entry (arm false) p r))) as Hs by (cbn; by rewrite Ht, Hpc).
  eapply within_step; [|exact Hs|]; [done|]. eapply within_send; [by eapply inv_step|cbn; eauto|done].
Qed.

Lemma within_resolve r t th p e v :
  inv r -> r_threads r !! t = Some th -> t_pc th = PResolve (p_id e) (Some p) v -> live r p e -> within 3 p r.
Proof.
  intros Hi Ht Hpc Hl. assert (step (AStep t false) r = Some (set_threads (<[t := MkThread (t_origin th) (PStop p v)]>
    (r_threads r)) (MkRegistry (delete (p_id e) (r_pending r)) (r_answerable r) (r_entries r) (r_threads r)))) as Hs.
  { cbn. rewrite Ht, Hpc. cbn. unfold resolve. rewrite Hl.
    rewrite bool_decide_eq_true_2 by done. rewrite bool_decide_eq_true_2 by done. done. }
  eapply within_step; [|exact Hs|]; [done|]. eapply within_stop; [by eapply inv_step|cbn; eauto|done].
Qed.

Lemma within_ask r t th p e w :
  inv r -> r_threads r !! t = Some th -> t_pc th = PAsk (p_id e) p w -> live r p e -> within 4 p r.
Proof.
  intros Hi Ht Hpc Hl. assert (step (AStep t false) r = Some (set_threads
    (<[t := MkThread (t_origin th) (PResolve (p_id e) (Some p) (Deny reasonTimeout))]> (r_threads r)) r)) as Hs
    by (cbn; by rewrite Ht, Hpc).
  eapply within_step; [|exact Hs|]; [done|]. eapply (within_resolve _ t); [by eapply inv_step|cbn; eauto|done|done].
Qed.

Lemma within_expire r t th p e w :
  inv r -> r_threads r !! t = Some th -> t_pc th = PExpire (p_id e) p w -> live r p e -> within 5 p r.
Proof.
  intros Hi Ht Hpc Hl. assert (step (AStep t false) r = Some (set_threads
    (<[t := MkThread (t_origin th) (expire_check (p_id e) p w r)]> (r_threads r)) r)) as Hs by (cbn; by rewrite Ht, Hpc).
  eapply within_step; [|exact Hs|]; [done|]. assert (inv (set_threads
    (<[t:=MkThread (t_origin th) (expire_check (p_id e) p w r)]> (r_threads r)) r)) as Hi' by (by eapply inv_step).
  revert Hi'. unfold expire_check. rewrite bool_decide_eq_true_2 by exact Hl. intros Hi'.
  destruct (negb _ || _).
  - apply (within_le 3); [lia|]. eapply (within_resolve _ t); [done|cbn; eauto|done|done].
  - eapply (within_ask _ t); [done|cbn; eauto|done|done].
Qed.

Lemma within_armed r p e : inv r -> r_entries r !! p = Some e -> p_armed e = true -> live r p e -> within 6 p r.
Proof.
  intros Hi He Harm Hl. assert (step (AFire p) r = Some (spawn (OTimer p) (PExpire (p_id e) p (p_window e))
    (upd_entry (arm false) p r))) as Hs by (cbn; by rewrite He, Harm).
  eapply within_step; [|exact Hs|]; [done|].
  eapply (within_expire _ (length (r_threads r)) (MkThread (OTimer p) (PExpire (p_id e) p (p_window e))) p e);
    [by eapply inv_step| |done|exact Hl].
  cbn. by rewrite lookup_app_r, Nat.sub_diag.
Qed.

Lemma within_rearm r t th p e w :
  inv r -> r_threads r !! t = Some th -> t_pc th = PRearm (p_id e) p w -> r_entries r !! p = Some e -> live r p e ->
  within 7 p r.
Proof.
  intros Hi Ht Hpc He Hl. assert (step (AStep t false) r = Some (set_threads
    (<[t := MkThread (t_origin th) (PDone None)]> (r_threads r)) (upd_entry (arm true) p r))) as Hs.
  { cbn. rewrite Ht, Hpc. cbn. unfold expire_rearm. by rewrite bool_decide_eq_true_2 by exact Hl. }
  eapply within_step; [|exact Hs|]; [done|]. apply (within_armed _ p (arm true e)); [by eapply inv_step| |done|exact Hl].
  cbn. by rewrite list_lookup_alter_eq, He.
Qed.

(** An entry nobody has answered gets its verdict. *)
Lemma within_any r p e : inv r -> r_entries r !! p = Some e -> n_delivered e = 0 -> within 7 p r.
Proof.
  intros Hi He Hn. destruct (i_counts _ Hi _ _ He) as [H0 H1 H2 H3 H4 H5].
  destruct (decide (live r p e)) as [L|L].
  - specialize (H4 L). destruct (p_armed e) eqn:Harm; [apply (within_le 6); [lia|]; by eapply within_armed|].
    cbn in H4. destruct (tok_witness (f_exp p) (r_threads r)) as (t & th & Ht & Hf); [lia|].
    pose proof (i_threads _ Hi _ _ Ht) as Hok. unfold thread_ok in Hok.
    destruct (t_pc th) as [id q w|id q w|id q w|id [q|] v|q v|q v|x] eqn:Hpc; cbn in Hf; try done;
      unfold here in Hf; (case_decide as Heq; [subst q|done]).
    1-3: destruct Hok as (_ & e' & He' & Hid & _); assert (e' = e) as -> by congruence; subst id.
    + apply (within_le 5); [lia|]. by eapply within_expire.
    + apply (within_le 4); [lia|]. by eapply within_ask.
    + by eapply within_rearm.
    + destruct Hok as (_ & _ & e' & He' & Hid). assert (e' = e) as -> by congruence. subst id.
      apply (within_le 3); [lia|]. by eapply within_resolve.
  - specialize (H1 L). destruct (tok_witness (f_send p) (r_threads r)) as (t & th & Ht & Hf); [lia|].
    destruct (t_pc th) as [id q w|id q w|id q w|id x v|q v|q v|x] eqn:Hpc; cbn in Hf; try done;
      unfold here in Hf; (case_decide as Heq; [subst q|done]).
    + apply (within_le 2); [lia|]. by eapply within_stop.
    + apply (within_le 1); [lia|]. by eapply within_send.
Qed.
End PermbridgeInv.
