(* ===== verification/PermbridgeProps.v ===== *)
(** * Pending tool approvals: the properties *)
From Stdlib Require Import Ascii String ZArith Lia.
From stdpp Require Import prelude gmap strings list.
From S2P Require Import Prelude Utf8 Permbridge PermbridgeInv.

Module PermbridgeProps.
Import Utf8 Permbridge PermbridgeInv.

(** ** Offers *)

(** What an update batch grants, stated over the whole batch. *)
Section offers.
Context (unmarshal_batch : string -> option (list permissionUpdateInput)).
Context (unmarshal_string : string -> option string).

(** A rule with the content it carries, and as it is shown. *)
Definition rule_spec (rule : permissionRuleInput) : option (PermissionRule * string) :=
  if bool_decide (ri_toolName rule = "") then None
  else
    r ← match ri_ruleContent rule with
        | None => Some (MkRule (ri_toolName rule) None, ri_toolName rule)
        | Some raw =>
            if bool_decide (TrimSpace raw = "null") then None
            else c ← unmarshal_string raw;
                 Some (MkRule (ri_toolName rule) (Some c), (ri_toolName rule +:+ "(" +:+ c +:+ ")")%string)
        end;
    if (slen r.2 <=? maxRenderedRuleBytes)%Z then Some r else None.

Definition is_grant (u : permissionUpdateInput) : bool :=
  negb (bool_decide (ui_type u = "addDirectories") || bool_decide (ui_type u = "setMode")).

Definition update_ok (u : permissionUpdateInput) : bool :=
  bool_decide (ui_type u = "addRules") && bool_decide (ui_behavior u = BehaviorAllow)
  && negb (bool_decide (ui_rules u = [])) && forallb (fun r => bool_decide (is_Some (rule_spec r))) (ui_rules u).

Definition total_rules (us : list permissionUpdateInput) : Z :=
  Z.of_nat (sum_list_with (fun u => length (ui_rules u)) us).

Definition granted (u : permissionUpdateInput) : list (PermissionRule * string) := omap rule_spec (ui_rules u).

(** The offer: all of the batch's rule grants, or nothing. *)
Definition offer_spec (raw : string) (suppressed : bool) : AlwaysAllow :=
  if suppressed || (slen raw =? 0)%Z || (maxAlwaysAllowBytes <? slen raw)%Z then no_offer
  else match unmarshal_batch raw with
  | None => no_offer
  | Some input =>
      let grants := filter is_grant input in
      if negb (bool_decide (grants = [])) && forallb update_ok grants
         && (total_rules grants <=? maxAlwaysAllowRules)%Z
      then MkAlwaysAllow ((fun u => MkUpdate "addRules" ((granted u).*1) BehaviorAllow "") <$> grants)
             (grants ≫= fun u => (granted u).*2) false
      else no_offer
  end.

Lemma parse_rule_spec i j rule :
  match parse_rule unmarshal_string i j rule with inl r => rule_spec rule = Some r | inr _ => rule_spec rule = None end.
Proof.
  unfold parse_rule, rule_spec. case_bool_decide; [done|].
  destruct (ri_ruleContent rule) as [raw|]; cbn.
  - case_bool_decide; [done|]. destruct (unmarshal_string raw) as [c|]; cbn; [|done].
    rewrite Z.ltb_antisym. destruct (_ <=? _)%Z; done.
  - rewrite Z.ltb_antisym. destruct (_ <=? _)%Z; done.
Qed.

Lemma parse_rules_spec i j rules :
  match parse_rules unmarshal_string i j rules with
  | inl rs => forallb (fun r => bool_decide (is_Some (rule_spec r))) rules = true /\ rs = omap rule_spec rules
  | inr _ => forallb (fun r => bool_decide (is_Some (rule_spec r))) rules = false
  end.
Proof.
  revert j. induction rules as [|rule rules IH]; intros j; cbn; [done|].
  pose proof (parse_rule_spec i j rule) as Hr. destruct (parse_rule _ i j rule) as [r|st]; rewrite Hr; cbn; [|done].
  specialize (IH (S j)). destruct (parse_rules _ i (S j) rules) as [rs|st]; [|done]. destruct IH as [IH ->].
  by rewrite IH.
Qed.

Definition conv (u : permissionUpdateInput) : PermissionUpdate :=
  MkUpdate "addRules" ((granted u).*1) BehaviorAllow "".

Lemma parse_updates_spec i n input updates rendered :
  let grants := filter is_grant input in
  match parse_updates unmarshal_string i n input updates rendered with
  | inl (us, rs) =>
      forallb update_ok grants = true /\ (grants = [] \/ n + total_rules grants <= maxAlwaysAllowRules)%Z
      /\ us = updates ++ (conv <$> grants) /\ rs = rendered ++ (grants ≫= fun u => (granted u).*2)
  | inr _ => forallb update_ok grants = false \/ (grants <> [] /\ maxAlwaysAllowRules < n + total_rules grants)%Z
  end.
Proof.
  cbn zeta. revert i n updates rendered. induction input as [|u input IH]; intros i n updates rendered; cbn [parse_updates].
  { cbn. rewrite !app_nil_r. auto. }
  destruct (bool_decide (ui_type u = "addDirectories") || bool_decide (ui_type u = "setMode")) eqn:Hskip.
  { rewrite filter_cons_False by (unfold is_grant; rewrite Hskip; intros []). apply IH. }
  rewrite filter_cons_True by (unfold is_grant; rewrite Hskip; exact I). cbn [forallb]. unfold update_ok at 1 3.
  destruct (bool_decide_reflect (ui_type u = "addRules")) as [Ht|Ht]; cbn [negb andb]; [|by left].
  destruct (bool_decide_reflect (ui_behavior u = "")) as [Hb|Hb].
  { left. rewrite Hb. done. }
  destruct (bool_decide_reflect (ui_behavior u = BehaviorAllow)) as [Hb'|Hb']; cbn [negb andb]; [|by left].
  destruct (bool_decide_reflect (ui_rules u = [])) as [Hr|Hr]; cbn [negb andb]; [by left|].
  assert (forall l, total_rules (u :: l) = Z.of_nat (length (ui_rules u)) + total_rules l)%Z as Htot
    by (intros l; unfold total_rules; cbn; lia).
  assert (forall l, 0 <= total_rules l)%Z as Hpos by (intros l; unfold total_rules; lia).
  destruct (Z.ltb_spec maxAlwaysAllowRules (n + Z.of_nat (length (ui_rules u)))) as [Hlt|Hle].
  { right. split; [done|]. rewrite Htot. specialize (Hpos (filter is_grant input)). lia. }
  pose proof (parse_rules_spec i 0 (ui_rules u)) as Hrs. destruct (parse_rules _ i 0 (ui_rules u)) as [rs|st].
  2: { left. by rewrite Hrs. }
  destruct Hrs as [-> ->]. cbn [andb].
  specialize (IH (S i) (n + Z.of_nat (length (ui_rules u)))%Z
    (updates ++ [MkUpdate (ui_type u) ((omap rule_spec (ui_rules u)).*1) (ui_behavior u) ""])
    (rendered ++ (omap rule_spec (ui_rules u)).*2)).
  destruct (parse_updates _ _ _ _ _ _) as [[us rs]|st].
  - destruct IH as (H1 & H2 & -> & ->). split; [done|]. split.
    { right. rewrite Htot. destruct H2 as [H2|H2]; [rewrite H2; unfold total_rules at 1; cbn|]; lia. }
    rewrite fmap_cons, bind_cons. unfold conv at 2. rewrite Ht, Hb'. rewrite <- !(assoc_L (++)). done.
  - destruct IH as [IH|[_ IH]]; [by left|right]. split; [done|]. rewrite Htot. lia.
Qed.
End offers.

(** What a permission update batch offers is all of its rule grants or
    nothing: the loops with their early returns compute [offer_spec], which
    states over the whole batch that every update but [addDirectories] and
    [setMode] must add at least one rule, allow, be well-formed rule by rule
    (a named tool, a content that is a string where there is one, at most
    1,024 rendered bytes) and, together, hold at most sixteen rules; the raw
    batch is at most 16 KiB; and no offer is made when it is suppressed. *)
Theorem offer_exact ub us raw suppressed : ParseAlwaysAllow ub us raw suppressed = offer_spec ub us raw suppressed.
Proof.
  unfold ParseAlwaysAllow, parseAlwaysAllow, offer_spec. destruct suppressed; [done|].
  destruct (slen raw =? 0)%Z; [done|]. destruct (maxAlwaysAllowBytes <? slen raw)%Z; [done|]. cbn [orb].
  destruct (ub raw) as [input|]; [|done]. case_bool_decide as Hin; [by subst input|].
  pose proof (parse_updates_spec us 0 0 input [] []) as H. cbn zeta in H. rewrite !Z.add_0_l in H.
  destruct (parse_updates _ _ _ _ _ _) as [[ups rs]|st]; cbn [app] in H.
  - destruct H as (-> & H2 & -> & ->). destruct (filter is_grant input) as [|u grants] eqn:Hg; [done|].
    destruct H2 as [?|H2]; [done|]. apply Z.leb_le in H2. rewrite H2. done.
  - destruct H as [-> |[_ H]]; [by rewrite andb_false_r|]. apply Z.leb_gt in H. rewrite H. by rewrite andb_false_r.
Qed.

(** ** The registry *)

(** The verdicts an approval has been given: received or in its channel. *)
Definition verdicts (e : pending) : list Verdict := p_got e ++ option_list (p_ch e).

Lemma verdicts_delivered e v : v ∈ verdicts e <-> delivered e v.
Proof.
  unfold verdicts, delivered. rewrite elem_of_app. destruct (p_ch e) as [w|]; cbn.
  - rewrite list_elem_of_singleton. naive_solver.
  - rewrite elem_of_nil. naive_solver.
Qed.

Lemma length_verdicts e : length (verdicts e) = n_delivered e.
Proof. unfold verdicts, n_delivered. rewrite length_app. destruct (p_ch e); cbn; lia. Qed.

(** Goroutine [t] returned having resolved entry [p]. *)
Definition resolved_by (r : Registry) (p t : nat) : Prop :=
  exists th, r_threads r !! t = Some th /\ t_pc th = PDone (Some p).

(** C30. However explicit resolutions, timers, extensions and waiters
    interleave, an approval gets at most one verdict and at most one
    goroutine reports having resolved it; the winner's send finds room in the
    channel, so no goroutine ever blocks on it; and once the approval has left
    the map and every goroutine has returned, exactly one has resolved it and
    it has exactly one verdict. *)
Theorem one_verdict r p e :
  reachable r -> r_entries r !! p = Some e ->
  length (verdicts e) <= 1
  /\ (forall t t', resolved_by r p t -> resolved_by r p t' -> t = t')
  /\ (forall t th v yes, r_threads r !! t = Some th -> t_pc th = PSend p v -> is_Some (step (AStep t yes) r))
  /\ (r_pending r !! p_id e <> Some p -> (forall t th, r_threads r !! t = Some th -> exists x, t_pc th = PDone x) ->
      length (verdicts e) = 1 /\ exists t, resolved_by r p t).
Proof.
  intros Hr He. pose proof (inv_reachable _ Hr) as Hi. pose proof (win_le _ _ _ (i_counts _ Hi _ _ He)) as Hw.
  destruct (i_counts _ Hi _ _ He) as [H0 H1 H2 H3 H4 H5].
  rewrite length_verdicts. split; [lia|]. split; [|split].
  - intros t t' (th & Ht & Hpc) (th' & Ht' & Hpc'). destruct (decide (t = t')) as [|Hne]; [done|exfalso].
    pose proof (sum_list_two (fun th => f_win p (t_pc th)) (r_threads r) t t' th th' Hne Ht Ht') as H.
    cbn in H. rewrite Hpc, Hpc' in H. cbn in H. rewrite here_refl in H. unfold tok in Hw. lia.
  - intros t th v yes Ht Hpc. destruct (send_ready _ _ _ _ _ Hi Ht Hpc) as (e1 & He1 & Hch & _).
    cbn. rewrite Ht, Hpc. cbn. rewrite He1, bool_decide_eq_true_2 by done. by eexists.
  - intros Hd Hall. specialize (H1 Hd). assert (tok (f_send p) (r_threads r) = 0) as Hz.
    { apply tok_zero. intros th [t Ht]%list_elem_of_lookup. by destruct (Hall _ _ Ht) as [x ->]. }
    split; [lia|]. destruct (tok_witness (f_win p) (r_threads r)) as (t & th & Ht & Hf); [lia|].
    exists t, th. split; [done|]. destruct (Hall _ _ Ht) as [x Hx]. rewrite Hx in *. destruct x as [q|]; [|done].
    cbn in Hf. unfold here in Hf. by case_decide; subst.
Qed.

(** The registry fails closed: a verdict an approval was given is the one
    an explicit [Resolve] of its id carried, or the timeout denial, after its
    own timer fired. So a tool runs only on an explicit allow, and the timer
    of an earlier approval never answers a later one that reuses its id. *)
Theorem fail_closed l r p e v :
  steps l New = Some r -> r_entries r !! p = Some e -> v ∈ verdicts e ->
  AResolve (p_id e) v ∈ l \/ (v = Deny reasonTimeout /\ AFire p ∈ l).
Proof.
  intros Hl He Hv%verdicts_delivered. destruct (good_steps [] l New r good_New Hl) as (_ & Hsent & Hst).
  destruct (Hsent _ _ _ He Hv) as (t & th & Ht & _ & Hw). specialize (Hst _ _ Ht).
  unfold won_by in Hw. unfold started in Hst. destruct (t_origin th) as [id v'|q].
  - destruct Hw as [-> ->]. by left.
  - destruct Hw as [-> ->]. by right.
Qed.

(** C32. No deadline is lost: while an approval waits in the map, either its
    timer is set and no expiry of it runs, or its timer is not set and exactly
    one expiry of it is under way; and from any state, an approval that has no
    verdict gets one within seven steps of its timer and of the goroutines
    already there, once the report says that nobody can answer. *)
Theorem deadline_met r p e :
  reachable r -> r_entries r !! p = Some e ->
  (r_pending r !! p_id e = Some p -> b2n (p_armed e) + tok (f_exp p) (r_threads r) = 1) /\
  (verdicts e = [] ->
   exists l r' e', length l <= 7 /\ Forall (timer_action p) l /\ steps l r = Some r'
     /\ r_entries r' !! p = Some e' /\ length (verdicts e') = 1).
Proof.
  intros Hr He. pose proof (inv_reachable _ Hr) as Hi. split; [apply (i_counts _ Hi _ _ He)|].
  intros Hv. destruct (within_any r p e Hi He) as (l & r' & e' & Hlen & Hall & Hl & He' & Hch).
  { by rewrite <- length_verdicts, Hv. }
  exists l, r', e'. repeat split; [done..|]. pose proof (inv_steps _ _ _ Hi Hl) as Hi'.
  pose proof (win_le _ _ _ (i_counts _ Hi' _ _ He')) as Hw. destruct (i_counts _ Hi' _ _ He') as [H0 H1 H2 H3 H4 H5].
  rewrite length_verdicts. assert (n_delivered e' >= 1); [|lia].
  unfold n_delivered. rewrite bool_decide_eq_true_2 by done. cbn. lia.
Qed.

(** ** Witnesses *)

Definition rq : Request := MkRequest "Bash" "{}" "toolu_1" "" "" "" "" false false no_offer "".
Definition yes_ : Verdict := Allow "{}".

(** An approval whose timer fires while an answer is on its way: the answer
    wins, a second registration reuses the id, and the stale expiry leaves it
    alone. *)
Definition race : list action :=
  [ARegister "a" rq 5; AFire 0; AResolve "a" yes_; AStep 1 false; ARegister "a" rq 5; AStep 0 false; AStep 1 false; AStep 1 false].
Definition race_end : Registry := default New (steps race New).

Lemma race_reachable : steps race New = Some race_end.
Proof. vm_compute. reflexivity. Qed.

Lemma one_verdict_witness :
  exists e, r_entries race_end !! 0 = Some e /\ p_ch e = Some yes_ /\ length (verdicts e) <= 1.
Proof.
  eexists. split; [vm_compute; reflexivity|]. split; [reflexivity|].
  apply (one_verdict race_end 0); [exists race; exact race_reachable|vm_compute; reflexivity].
Defined.

Lemma fail_closed_witness : AResolve "a" yes_ ∈ race \/ (yes_ = Deny reasonTimeout /\ AFire 0 ∈ race).
Proof.
  eapply (fail_closed race race_end 0 (MkPending "a" rq 5 false (Some yes_) []) yes_ race_reachable).
  - vm_compute. reflexivity.
  - cbn. apply list_elem_of_singleton. reflexivity.
Defined.

(** The second approval is still waiting at the end of that run. *)
Lemma deadline_met_witness :
  exists l r' e', length l <= 7 /\ Forall (timer_action 1) l /\ steps l race_end = Some r'
    /\ r_entries r' !! 1 = Some e' /\ length (verdicts e') = 1.
Proof.
  apply (deadline_met race_end 1 (MkPending "a" rq 5 true None [])).
  - exists race. exact race_reachable.
  - vm_compute. reflexivity.
  - reflexivity.
Defined.
End PermbridgeProps.
