(* ===== verification/Sessions.v ===== *)
(** * Session lifecycles ([internal/sessions])

    [session.go]: a session alternates between active, with its runner, and
    evicted; its lifecycle goroutine drives it, and callers signal it and wait
    on channels that are replaced at every transition. [pool.go],
    [pool_remove.go], [pool_mint.go]: the pool activates sessions under a cap
    by evicting the least recently active one, mints and removes them.

    Every goroutine is cut at each point where another may run: a step is one
    critical section, channel operation or call out. *)
From stdpp Require Import prelude gmap list.
From S2P Require Import Prelude.

Module Sessions.

Local Open Scope Z_scope.

Inductive lifecycleState := stateActive | stateEvicted.
#[export] Instance lifecycleState_eq_dec : EqDecision lifecycleState.
Proof. solve_decision. Defined.

(** ** One session *)

(** The goroutine around [sup.Run]: not started, running, cancelled but not
    back yet, or back with its result in [runErr]. *)
Inductive runner := RNone | RRunning | RStopping | RReturned.
#[export] Instance runner_eq_dec : EqDecision runner.
Proof. solve_decision. Defined.

(** Where the lifecycle goroutine is: at the top of [Run]'s loop, in a
    select, or between two of its locked sections. *)
Inductive loop :=
| LNone                           (* [Run] has not been called *)
| LTop
| LActive                         (* [runActive]'s select *)
| LBegin                          (* eviction decided: BeginTeardown, notifyEviction *)
| LFlip                           (* [beginEvict]'s critical section *)
| LCancel | LDrain                (* [cancelSup], [drainSup] *)
| LSaveE | LCloseE                (* [endEvict] *)
| LEvicted                        (* [runEvicted]'s select *)
| LWoke                           (* back in [Run], before [isRemoved] *)
| LUp | LSaveA | LCloseA          (* [transitionTo(stateActive)] *)
| LShut                           (* the pool's context is done: drain *)
| LExit.
#[export] Instance loop_eq_dec : EqDecision loop.
Proof. solve_decision. Defined.

(** A channel that is made anew and closed is a number, counted up by [make],
    with the set of those closed; a channel of capacity one is whether it is
    full. [s_panic] records a close of a closed channel. *)
Record Session := MkSession {
  lcState : lifecycleState;
  activeCh : nat;
  activeClosed : gset nat;
  evictedCh : nat;
  evictedClosed : gset nat;
  activateCh : bool;
  evictCh : bool;
  removedCh : bool;
  lastActiveAt : instant;
  idleTimeout : Z;
  s_loop : loop;
  s_runner : runner;
  s_panic : bool;
}.

Definition set_loop (l : loop) (s : Session) : Session :=
  MkSession (lcState s) (activeCh s) (activeClosed s) (evictedCh s) (evictedClosed s) (activateCh s) (evictCh s)
    (removedCh s) (lastActiveAt s) (idleTimeout s) l (s_runner s) (s_panic s).
Definition set_runner (r : runner) (s : Session) : Session :=
  MkSession (lcState s) (activeCh s) (activeClosed s) (evictedCh s) (evictedClosed s) (activateCh s) (evictCh s)
    (removedCh s) (lastActiveAt s) (idleTimeout s) (s_loop s) r (s_panic s).
Definition set_tokens (activate evict : bool) (s : Session) : Session :=
  MkSession (lcState s) (activeCh s) (activeClosed s) (evictedCh s) (evictedClosed s) activate evict
    (removedCh s) (lastActiveAt s) (idleTimeout s) (s_loop s) (s_runner s) (s_panic s).

(** [beginEvict]'s critical section: the flip and a fresh [activeCh]. *)
Definition beginEvict (now : instant) (s : Session) : Session :=
  MkSession stateEvicted (S (activeCh s)) (activeClosed s) (evictedCh s) (evictedClosed s) (activateCh s) (evictCh s)
    (removedCh s) now (idleTimeout s) (s_loop s) (s_runner s) (s_panic s).

(** [endEvict]'s: the wake of those who wait for the eviction. *)
Definition endEvict (s : Session) : Session :=
  MkSession (lcState s) (activeCh s) (activeClosed s) (evictedCh s) ({[evictedCh s]} ∪ evictedClosed s) (activateCh s) (evictCh s)
    (removedCh s) (lastActiveAt s) (idleTimeout s) (s_loop s) (s_runner s) (s_panic s || bool_decide (evictedCh s ∈ evictedClosed s)).

(** [transitionTo(stateActive)]: its first section, and after the save its
    second. *)
Definition transition_flip (now : instant) (s : Session) : Session :=
  MkSession stateActive (activeCh s) (activeClosed s) (S (evictedCh s)) (evictedClosed s) (activateCh s) (evictCh s)
    (removedCh s) now (idleTimeout s) (s_loop s) (s_runner s) (s_panic s).
Definition transition_wake (s : Session) : Session :=
  MkSession (lcState s) (activeCh s) ({[activeCh s]} ∪ activeClosed s) (evictedCh s) (evictedClosed s) (activateCh s) (evictCh s)
    (removedCh s) (lastActiveAt s) (idleTimeout s) (s_loop s) (s_runner s) (s_panic s || bool_decide (activeCh s ∈ activeClosed s)).

Definition touchLastActive (now : instant) (s : Session) : Session :=
  MkSession (lcState s) (activeCh s) (activeClosed s) (evictedCh s) (evictedClosed s) (activateCh s) (evictCh s)
    (removedCh s) now (idleTimeout s) (s_loop s) (s_runner s) (s_panic s).

(** [close(sess.removedCh)]. *)
Definition close_removed (s : Session) : Session :=
  MkSession (lcState s) (activeCh s) (activeClosed s) (evictedCh s) (evictedClosed s) (activateCh s) (evictCh s)
    true (lastActiveAt s) (idleTimeout s) (s_loop s) (s_runner s) (s_panic s || removedCh s).

Definition cancelSup (s : Session) : Session :=
  if decide (s_runner s = RRunning) then set_runner RStopping s else s.

(** [Activate]'s and [Evict]'s critical sections: the channel to wait on, and
    the signal, which is dropped where one is pending. *)
Definition activate_section (s : Session) : Session :=
  if decide (lcState s = stateActive) then s else set_tokens true (evictCh s) s.
Definition evict_section (s : Session) : Session :=
  if decide (lcState s = stateEvicted) then s else set_tokens (activateCh s) true s.

(** Which case of a select runs; [SelTimer] with whether a turn is open,
    [SelGone] is the runner's end observed with the pool's context done. *)
Inductive choice := SelShutdown | SelRunner | SelGone | SelTimer (busy : bool) | SelEvict | SelRemoved | SelActivate.

(** [runActive]'s select. *)
Definition select_active (c : choice) (s : Session) : option Session :=
  match c with
  | SelShutdown => Some (set_loop LShut (cancelSup s))
  | SelRunner => if decide (s_runner s = RReturned) then Some (set_loop LFlip (set_runner RNone s)) else None
  | SelGone => if decide (s_runner s = RReturned) then Some (set_loop LExit (set_runner RNone s)) else None
  | SelTimer busy => if 0 <? idleTimeout s then Some (if busy then s else set_loop LBegin s) else None
  | SelEvict => if evictCh s then Some (set_loop LBegin (set_tokens (activateCh s) false s)) else None
  | _ => None
  end.

(** [runEvicted]'s select. *)
Definition select_evicted (c : choice) (s : Session) : option Session :=
  match c with
  | SelShutdown => Some (set_loop LExit s)
  | SelRemoved => if removedCh s then Some (set_loop LWoke s) else None
  | SelActivate => if activateCh s then Some (set_loop LWoke (set_tokens false (evictCh s) s)) else None
  | _ => None
  end.

(** A step of the lifecycle goroutine: [Run], [runActive], [runEvicted]. *)
Definition loop_step (c : choice) (now : instant) (s : Session) : option Session :=
  match s_loop s with
  | LNone | LExit => None
  | LTop => Some (match lcState s with
                  | stateActive => set_loop LActive (set_runner RRunning s)
                  | stateEvicted => set_loop LEvicted s
                  end)
  | LActive => select_active c s
  | LBegin => Some (set_loop LFlip s)
  | LFlip => Some (set_loop (if decide (s_runner s = RNone) then LSaveE else LCancel) (beginEvict now s))
  | LCancel => Some (set_loop LDrain (cancelSup s))
  | LDrain => if decide (s_runner s = RReturned) then Some (set_loop LSaveE (set_runner RNone s)) else None
  | LSaveE => Some (set_loop LCloseE s)
  | LCloseE => Some (set_loop LTop (endEvict s))
  | LEvicted => select_evicted c s
  | LWoke => Some (set_loop (if removedCh s then LExit else LUp) s)
  | LUp => Some (set_loop LSaveA (transition_flip now s))
  | LSaveA => Some (set_loop LCloseA s)
  | LCloseA => Some (set_loop LTop (transition_wake s))
  | LShut => if decide (s_runner s = RReturned) then Some (set_loop LExit (set_runner RNone s)) else None
  end.

(** The runner's goroutine returns, cancelled or on its own. *)
Definition runner_step (s : Session) : option Session :=
  match s_runner s with
  | RRunning | RStopping => Some (set_runner RReturned s)
  | _ => None
  end.

(** ** The pool's calls *)

Inductive result :=
| Nil | ErrSessionNotFound | ErrCannotRemoveBootstrap | ErrPoolNotRunning | ErrContext | ErrPersist | ErrReady.

(** A call under way. Of a capped activation's eviction the target comes
    along; [held] says whether the call holds [capMu]. *)
Inductive call :=
| CLookup (id : nat)                                     (* [Pool.Activate] *)
| CCap (id : nat)
| CCheck (id : nat)
| CTouch (id : nat)
| CPick (id : nat) (todo : list nat) (active : Z) (victim : option (nat * instant))
| CEvict (v : nat) (target : option nat)                 (* [Session.Evict] *)
| CEvictWait (v ch : nat) (target : option nat)
| CActivate (id : nat) (held : bool)                     (* [Session.Activate] *)
| CActivateWait (id ch : nat) (held : bool)
| CReady (id : nat) (held : bool)
| CRemove (id : nat)                                     (* [Pool.Remove] *)
| CClose (id : nat)
| CMint (idle : Z)                                       (* [Pool.MintWith] *)
| CSupervise (id : nat)
| CDone (r : result).

(** Sessions are named by the place of their object; [p_sessions] has those
    registered. [p_picking] is the read lock [pickLRUVictim] holds. *)
Record Pool := MkPool {
  p_objects : list Session;
  p_sessions : gset nat;
  p_bootstrap : nat;
  p_cap : Z;
  p_capMu : option nat;
  p_picking : bool;
  p_calls : list call;
}.

Definition set_object (i : nat) (s : Session) (p : Pool) : Pool :=
  MkPool (<[i := s]> (p_objects p)) (p_sessions p) (p_bootstrap p) (p_cap p) (p_capMu p) (p_picking p) (p_calls p).
Definition set_sessions (m : gset nat) (p : Pool) : Pool :=
  MkPool (p_objects p) m (p_bootstrap p) (p_cap p) (p_capMu p) (p_picking p) (p_calls p).
Definition set_capMu (h : option nat) (p : Pool) : Pool :=
  MkPool (p_objects p) (p_sessions p) (p_bootstrap p) (p_cap p) h (p_picking p) (p_calls p).
Definition set_picking (b : bool) (p : Pool) : Pool :=
  MkPool (p_objects p) (p_sessions p) (p_bootstrap p) (p_cap p) (p_capMu p) b (p_calls p).
Definition set_calls (l : list call) (p : Pool) : Pool :=
  MkPool (p_objects p) (p_sessions p) (p_bootstrap p) (p_cap p) (p_capMu p) (p_picking p) l.

(** A session built by [buildSessionAs]. *)
Definition buildSession (idle : Z) (now : instant) : Session :=
  MkSession stateEvicted 0 ∅ 0 {[0%nat]} false false false now idle LNone RNone false.

Definition mint (idle : Z) (now : instant) (p : Pool) : Pool :=
  MkPool (p_objects p ++ [buildSession idle now]) ({[length (p_objects p)]} ∪ p_sessions p) (p_bootstrap p) (p_cap p)
    (p_capMu p) (p_picking p) (p_calls p).

(** What a step meets: the caller's context is done (where the step looks),
    the save or the runner's answer succeeds, the clock, and the order in
    which the map is walked. *)
Record answer := Answer { a_done : bool; a_ok : bool; a_now : instant; a_order : list nat }.

Definition unlock (held : bool) (p : Pool) : Pool := if held then set_capMu None p else p.
Definition is_some (o : option nat) : bool := match o with Some _ => true | None => false end.

(** One turn of [pickLRUVictim]'s loop. *)
Definition pick_one (target x : nat) (s : Session) (active : Z) (victim : option (nat * instant)) : Z * option (nat * instant) :=
  if decide (lcState s = stateActive)
  then (active + 1,
        if decide (x = target) then victim
        else match victim with
             | Some (_, oldest) => if Before (lastActiveAt s) oldest then Some (x, lastActiveAt s) else victim
             | None => Some (x, lastActiveAt s)
             end)
  else (active, victim).

(** A step of call [t]; [None] where it is blocked. *)
Definition call_step (t : nat) (a : answer) (c : call) (p : Pool) : option (Pool * call) :=
  match c with
  | CLookup id =>
      Some (p, if decide (id ∈ p_sessions p) then if p_cap p <=? 0 then CActivate id false else CCap id
               else CDone ErrSessionNotFound)
  | CCap id => match p_capMu p with None => Some (set_capMu (Some t) p, CCheck id) | Some _ => None end
  | CCheck id =>
      s ← p_objects p !! id;
      if decide (lcState s = stateActive) then Some (p, CTouch id)
      else if decide (NoDup (a_order a)) then
        if decide (list_to_set (a_order a) = p_sessions p)
        then Some (set_picking true p, CPick id (a_order a) 0 None) else None
      else None
  | CTouch id =>
      s ← p_objects p !! id;
      Some (set_capMu None (set_object id (touchLastActive (a_now a) s) p), CDone Nil)
  | CPick id (x :: todo) active victim =>
      s ← p_objects p !! x;
      let '(active, victim) := pick_one id x s active victim in Some (p, CPick id todo active victim)
  | CPick id [] active victim =>
      Some (set_picking false p,
            if active <? p_cap p then CActivate id true
            else match victim with Some (v, _) => CEvict v (Some id) | None => CActivate id true end)
  | CEvict v k =>
      s ← p_objects p !! v;
      Some (set_object v (evict_section s) p, CEvictWait v (evictedCh s) k)
  | CEvictWait v ch k =>
      s ← p_objects p !! v;
      if a_done a then Some (unlock (is_some k) p, CDone ErrContext)
      else if decide (ch ∈ evictedClosed s)
      then Some (p, match k with Some id => CActivate id true | None => CDone Nil end) else None
  | CActivate id held =>
      s ← p_objects p !! id;
      if a_done a then Some (unlock held p, CDone ErrContext)
      else Some (set_object id (activate_section s) p, CActivateWait id (activeCh s) held)
  | CActivateWait id ch held =>
      s ← p_objects p !! id;
      if a_done a then Some (unlock held p, CDone ErrContext)
      else if decide (ch ∈ activeClosed s) then Some (p, CReady id held) else None
  | CReady id held => Some (unlock held p, CDone (if a_ok a then Nil else ErrReady))
  | CRemove id =>
      if p_picking p then None
      else if negb (bool_decide (id ∈ p_sessions p)) then Some (p, CDone ErrSessionNotFound)
      else if decide (id = p_bootstrap p) then Some (p, CDone ErrCannotRemoveBootstrap)
      else if negb (a_ok a) then Some (p, CDone ErrPersist)
      else Some (set_sessions (p_sessions p ∖ {[id]}) p, CClose id)
  | CClose id => s ← p_objects p !! id; Some (set_object id (close_removed s) p, CEvict id None)
  | CMint idle =>
      if p_picking p then None
      else if negb (a_ok a) then Some (p, CDone ErrPersist)
      else Some (mint idle (a_now a) p, CSupervise (length (p_objects p)))
  | CSupervise id =>
      s ← p_objects p !! id;
      if a_ok a then Some (set_object id (set_loop LTop s) p, CDone Nil) else Some (p, CDone ErrPoolNotRunning)
  | CDone _ => None
  end.

Inductive request := QActivate (id : nat) | QRemove (id : nat) | QMint (idle : Z).

Definition enter (q : request) : call :=
  match q with QActivate id => CLookup id | QRemove id => CRemove id | QMint idle => CMint idle end.

(** ** What runs next *)

Inductive action :=
| ARun                                                   (* [Pool.Run] starts the bootstrap *)
| ACall (q : request)
| AStep (t : nat) (a : answer)
| ALoop (i : nat) (c : choice) (now : instant)
| ARunner (i : nat).

(** The saves of a lifecycle goroutine wait for [pickLRUVictim]'s read lock. *)
Definition saving (l : loop) : bool := match l with LSaveE | LSaveA => true | _ => false end.

Definition step (a : action) (p : Pool) : option Pool :=
  match a with
  | ARun =>
      s ← p_objects p !! p_bootstrap p;
      if decide (s_loop s = LNone) then Some (set_object (p_bootstrap p) (set_loop LTop s) p) else None
  | ACall q => Some (set_calls (p_calls p ++ [enter q]) p)
  | AStep t a =>
      c ← p_calls p !! t;
      '(p, c) ← call_step t a c p;
      Some (set_calls (<[t := c]> (p_calls p)) p)
  | ALoop i c now =>
      s ← p_objects p !! i;
      if saving (s_loop s) && p_picking p then None
      else s' ← loop_step c now s; Some (set_object i s' p)
  | ARunner i => s ← p_objects p !! i; s' ← runner_step s; Some (set_object i s' p)
  end.

Fixpoint steps (l : list action) (p : Pool) : option Pool :=
  match l with
  | [] => Some p
  | a :: l => p ← step a p; steps l p
  end.

(** [New]: the bootstrap alone, active or, for [BootstrapEvicted], evicted. *)
Definition bootstrap (evicted : bool) (idle : Z) (now : instant) : Session :=
  if evicted then buildSession idle now
  else MkSession stateActive 0 {[0%nat]} 0 ∅ false false false now idle LNone RNone false.

Definition New (cap : Z) (evicted : bool) (idle : Z) (now : instant) : Pool :=
  MkPool [bootstrap evicted idle now] {[0%nat]} 0 cap None false [].

End Sessions.
