(* ===== verification/SessionsInv.v ===== *)
(** * Session lifecycles: the invariant of sessions and of the calls that wait *)
From Stdlib Require Import ZArith Lia.
From stdpp Require Import prelude gmap list.
From S2P Require Import Prelude Sessions.

Module SessionsInv.
Import Sessions.

Local Open Scope Z_scope.

(** ** One session *)

Definition settled (st : lifecycleState) (s : Session) : Prop :=
  lcState s = st /\ ((activeCh s ∈ activeClosed s) <-> st = stateActive) /\ ((evictedCh s ∈ evictedClosed s) <-> st = stateEvicted).

Definition turning (st : lifecycleState) (s : Session) : Prop :=
  lcState s = st /\ (activeCh s ∉ activeClosed s) /\ (evictedCh s ∉ evictedClosed s).

(** What holds at each place of the lifecycle goroutine. *)
Definition loop_ok (s : Session) : Prop :=
  match s_loop s with
  | LNone | LTop | LExit => settled (lcState s) s /\ s_runner s = RNone
  | LActive | LBegin => settled stateActive s /\ (s_runner s = RRunning \/ s_runner s = RReturned)
  | LFlip => settled stateActive s /\ s_runner s <> RStopping
  | LCancel => turning stateEvicted s /\ (s_runner s = RRunning \/ s_runner s = RReturned)
  | LDrain => turning stateEvicted s /\ (s_runner s = RStopping \/ s_runner s = RReturned)
  | LSaveE | LCloseE => turning stateEvicted s /\ s_runner s = RNone
  | LEvicted | LWoke | LUp => settled stateEvicted s /\ s_runner s = RNone
  | LSaveA | LCloseA => turning stateActive s /\ s_runner s = RNone
  | LShut => settled stateActive s /\ (s_runner s = RStopping \/ s_runner s = RReturned)
  end.

Record sess_ok (s : Session) : Prop := SessOK {
  se_loop : loop_ok s;
  se_active : forall n, n ∈ activeClosed s -> (n <= activeCh s)%nat;
  se_evicted : forall n, n ∈ evictedClosed s -> (n <= evictedCh s)%nat;
  se_panic : s_panic s = false;
}.

(** Places from which the session goes on to become active, or evicted, or is
    over. *)
Definition waking (l : loop) : bool := match l with LWoke | LUp | LExit => true | _ => false end.
Definition evicting (l : loop) : bool := match l with LBegin | LFlip | LShut | LExit => true | _ => false end.

(** A channel waited on: closed, or the current one, with the signal that
    leads to its close under way. *)
Definition waits_active (ch : nat) (s : Session) : Prop :=
  ch ∈ activeClosed s \/
  (ch = activeCh s /\ (lcState s = stateEvicted -> activateCh s = true \/ waking (s_loop s) = true)).
Definition waits_evicted (ch : nat) (s : Session) : Prop :=
  ch ∈ evictedClosed s \/
  (ch = evictedCh s /\ (lcState s = stateActive -> evictCh s = true \/ evicting (s_loop s) = true)).

(** Changes that keep all of it. *)
Record mild (s s' : Session) : Prop := Mild {
  mi_ok : sess_ok s -> sess_ok s';
  mi_active : sess_ok s -> forall ch, waits_active ch s -> waits_active ch s';
  mi_evicted : sess_ok s -> forall ch, waits_evicted ch s -> waits_evicted ch s';
  mi_none : s_loop s = LNone -> s_loop s' = LNone;
  mi_removed : removedCh s' = removedCh s;
}.

Ltac session_cbn :=
  cbn [lcState activeCh activeClosed evictedCh evictedClosed activateCh evictCh removedCh lastActiveAt idleTimeout s_loop s_runner s_panic
       set_loop set_runner set_tokens beginEvict endEvict transition_flip transition_wake touchLastActive close_removed].

Lemma activate_section_mild s : mild s (activate_section s).
Proof.
  unfold activate_section. destruct (decide _) as [Ha|Ha]; [by constructor|]. constructor; try done.
  - intros [H1 H2 H3 H4]. by constructor.
  - intros _ ch [H|[-> H]]; [by left|right]. split; [done|]. by left.
Qed.

Lemma evict_section_mild s : mild s (evict_section s).
Proof.
  unfold evict_section. destruct (decide _) as [Ha|Ha]; [by constructor|]. constructor; try done.
  - intros [H1 H2 H3 H4]. by constructor.
  - intros _ ch [H|[-> H]]; [by left|right]. split; [done|]. by left.
Qed.

Lemma touch_mild now s : mild s (touchLastActive now s).
Proof. constructor; try done. intros [H1 H2 H3 H4]. by constructor. Qed.

(** A call that leaves its section waits for what it signalled. *)
Lemma activate_section_waits s : waits_active (activeCh s) (activate_section s).
Proof.
  unfold activate_section. right. destruct (decide _) as [Ha|Ha]; [split; [done|]; congruence|]. split; [done|]. by left.
Qed.

Lemma evict_section_waits s : waits_evicted (evictedCh s) (evict_section s).
Proof.
  unfold evict_section. right. destruct (decide _) as [Ha|Ha]; [split; [done|]; congruence|]. split; [done|]. by left.
Qed.

Lemma cancelSup_fields s :
  cancelSup s = set_runner (if decide (s_runner s = RRunning) then RStopping else s_runner s) s.
Proof. unfold cancelSup. destruct (decide _); [done|]. by destruct s. Qed.

Lemma fresh_notin (n : nat) (X : gset nat) : (forall m, m ∈ X -> (m <= n)%nat) -> S n ∉ X.
Proof. intros H Hin. specialize (H _ Hin). lia. Qed.

Lemma runner_step_mild s s' : runner_step s = Some s' -> mild s s'.
Proof.
  unfold runner_step. intros H. assert (s' = set_runner RReturned s /\ (s_runner s = RRunning \/ s_runner s = RStopping)) as [-> Hr]
    by (destruct (s_runner s); try done; injection H as <-; auto).
  constructor; try done. intros [H1 H2 H3 H4]. constructor; try done.
  unfold loop_ok, settled, turning in *. session_cbn. destruct (s_loop s); try (destruct H1 as [? H1]; split; [done|]; auto); destruct Hr; congruence.
Qed.

(** ** A step of the lifecycle goroutine *)

(** The steps, one by one. *)
Inductive turn (s : Session) : Session -> Prop :=
| T_start : s_loop s = LTop -> lcState s = stateActive -> turn s (set_loop LActive (set_runner RRunning s))
| T_park : s_loop s = LTop -> lcState s = stateEvicted -> turn s (set_loop LEvicted s)
| T_shutdown r : s_loop s = LActive -> r = (if decide (s_runner s = RRunning) then RStopping else s_runner s) ->
    turn s (set_loop LShut (set_runner r s))
| T_runner : s_loop s = LActive -> s_runner s = RReturned -> turn s (set_loop LFlip (set_runner RNone s))
| T_gone : s_loop s = LActive -> s_runner s = RReturned -> turn s (set_loop LExit (set_runner RNone s))
| T_defer : s_loop s = LActive -> turn s s
| T_idle : s_loop s = LActive -> turn s (set_loop LBegin s)
| T_evict : s_loop s = LActive -> evictCh s = true -> turn s (set_loop LBegin (set_tokens (activateCh s) false s))
| T_begin : s_loop s = LBegin -> turn s (set_loop LFlip s)
| T_flip now : s_loop s = LFlip ->
    turn s (set_loop (if decide (s_runner s = RNone) then LSaveE else LCancel) (beginEvict now s))
| T_cancel r : s_loop s = LCancel -> r = (if decide (s_runner s = RRunning) then RStopping else s_runner s) ->
    turn s (set_loop LDrain (set_runner r s))
| T_drain : s_loop s = LDrain -> s_runner s = RReturned -> turn s (set_loop LSaveE (set_runner RNone s))
| T_save_e : s_loop s = LSaveE -> turn s (set_loop LCloseE s)
| T_close_e : s_loop s = LCloseE -> turn s (set_loop LTop (endEvict s))
| T_quit : s_loop s = LEvicted -> turn s (set_loop LExit s)
| T_removed : s_loop s = LEvicted -> removedCh s = true -> turn s (set_loop LWoke s)
| T_activate : s_loop s = LEvicted -> activateCh s = true -> turn s (set_loop LWoke (set_tokens false (evictCh s) s))
| T_leave : s_loop s = LWoke -> removedCh s = true -> turn s (set_loop LExit s)
| T_up : s_loop s = LWoke -> removedCh s = false -> turn s (set_loop LUp s)
| T_transition now : s_loop s = LUp -> turn s (set_loop LSaveA (transition_flip now s))
| T_save_a : s_loop s = LSaveA -> turn s (set_loop LCloseA s)
| T_close_a : s_loop s = LCloseA -> turn s (set_loop LTop (transition_wake s))
| T_exit : s_loop s = LShut -> s_runner s = RReturned -> turn s (set_loop LExit (set_runner RNone s)).

Lemma loop_step_turn c now s s' : loop_step c now s = Some s' -> turn s s'.
Proof.
  unfold loop_step, select_active, select_evicted. intros H.
  destruct (s_loop s) eqn:El; try done; rewrite ?cancelSup_fields in H;
    try (destruct c; try done); try (injection H as <-; by eauto using turn); repeat case_match; simplify_eq; eauto using turn.
Qed.

Lemma turn_ok s s' : turn s s' -> sess_ok s -> sess_ok s'.
Proof.
  intros Hstep [H1 H2 H3 H4]. unfold loop_ok in H1.
  destruct Hstep as [El Es|El Es|r El ->|El Er|El Er|El|El|El Ev|El|now El|r El ->|El Er|El|El|El|El Erm|El Ea|El Erm|El Erm|now El|El|El|El Er];
    rewrite El in H1; try (by constructor); destruct H1 as [H1 Hr].
  - rewrite Es in H1. constructor; unfold loop_ok; session_cbn; auto.
  - rewrite Es in H1. constructor; unfold loop_ok; session_cbn; auto.
  - constructor; try done. unfold loop_ok; session_cbn. split; [done|]. destruct (decide _); [by left|]. destruct Hr; [done|by right].
  - by constructor.
  - constructor; try done. unfold loop_ok; session_cbn. split; [|done]. destruct H1 as (Hs & HA & HE). by unfold settled; session_cbn; rewrite Hs.
  - constructor; try done. unfold loop_ok. by rewrite El.
  - constructor; try done. unfold loop_ok; session_cbn. split; [done|]. by destruct Hr as [-> | ->].
  - destruct H1 as (Hs & HA & HE). constructor; try done; [|intros n Hn; session_cbn; specialize (H2 n Hn); lia].
    unfold loop_ok, turning; session_cbn. assert (S (activeCh s) ∉ activeClosed s) as HfA by by apply fresh_notin.
    assert (evictedCh s ∉ evictedClosed s) as HEn by (intros Hin; by apply HE in Hin).
    destruct (decide (s_runner s = RNone)) as [Hn|Hn]; [done|]. split; [done|]. destruct (s_runner s); auto; done.
  - constructor; try done. unfold loop_ok; session_cbn. split; [done|]. destruct (decide _); [by left|]. destruct Hr; [done|by right].
  - by constructor.
  - destruct H1 as (Hs & HA & HE). constructor; try done; unfold loop_ok, settled; session_cbn.
    + rewrite Hs. split; [|done]. split; [done|]. split; [split; [intros Hin; by destruct HA|done]|]. split; [done|]. intros _. apply elem_of_union. left. by apply elem_of_singleton.
    + intros n [Hn%elem_of_singleton|Hn]%elem_of_union; [lia|by apply H3].
    + rewrite H4. cbn. by apply bool_decide_eq_false.
  - destruct H1 as (Hs & HA & HE). constructor; try done. unfold loop_ok, settled; session_cbn. by rewrite Hs.
  - destruct H1 as (Hs & HA & HE). constructor; try done. unfold loop_ok, settled; session_cbn. by rewrite Hs.
  - destruct H1 as (Hs & HA & HE). constructor; try done.
    + unfold loop_ok, turning; session_cbn. split; [|done]. split; [done|]. split; [|by apply fresh_notin]. intros Hin. by apply HA in Hin.
    + intros n Hn. session_cbn. specialize (H3 n Hn). lia.
  - destruct H1 as (Hs & HA & HE). constructor; try done; unfold loop_ok, settled; session_cbn.
    + rewrite Hs. split; [|done]. split; [done|]. split; [|split; [intros Hin; by destruct HE|done]]. split; [done|]. intros _. apply elem_of_union. left. by apply elem_of_singleton.
    + intros n [Hn%elem_of_singleton|Hn]%elem_of_union; [lia|by apply H2].
    + rewrite H4. cbn. by apply bool_decide_eq_false.
  - destruct H1 as (Hs & HA & HE). constructor; try done. unfold loop_ok, settled; session_cbn. by rewrite Hs.
Qed.

(** Signals are not lost, and closed channels stay closed. *)
Lemma turn_waits_active s s' ch : turn s s' -> sess_ok s -> waits_active ch s -> waits_active ch s'.
Proof.
  intros Hstep [H1 H2 H3 H4] [Hw|[-> Hw]]; unfold loop_ok in H1.
  { left. destruct Hstep; try done. session_cbn. apply elem_of_union. by right. }
  destruct Hstep as [El Es|El Es|r El ->|El Er|El Er|El|El|El Ev|El|now El|r El ->|El Er|El|El|El|El Erm|El Ea|El Erm|El Erm|now El|El|El|El Er];
    rewrite El in H1, Hw; destruct H1 as [(Hs & HA & HE) Hr]; try rewrite Hs in Hw;
    try (left; by apply HA); try (right; split; [done|]; session_cbn; try rewrite Hs; intros Hev; first [done|by right|destruct (Hw Hev); by auto]).
Qed.

Lemma turn_waits_evicted s s' ch : turn s s' -> sess_ok s -> waits_evicted ch s -> waits_evicted ch s'.
Proof.
  intros Hstep [H1 H2 H3 H4] [Hw|[-> Hw]]; unfold loop_ok in H1.
  { left. destruct Hstep; try done. session_cbn. apply elem_of_union. by right. }
  destruct Hstep as [El Es|El Es|r El ->|El Er|El Er|El|El|El Ev|El|now El|r El ->|El Er|El|El|El|El Erm|El Ea|El Erm|El Erm|now El|El|El|El Er];
    rewrite El in H1, Hw; destruct H1 as [(Hs & HA & HE) Hr]; try rewrite Hs in Hw;
    try (left; by apply HE); try (right; split; [done|]; session_cbn; try rewrite Hs; intros Hev; first [done|by right|destruct (Hw Hev); by auto]).
Qed.

Lemma turn_mild s s' : turn s s' -> mild s s'.
Proof.
  intros H. constructor.
  - by apply turn_ok.
  - intros Hok ch. by apply turn_waits_active.
  - intros Hok ch. by apply turn_waits_evicted.
  - destruct H; congruence.
  - by destruct H.
Qed.

(** ** The pool *)

Definition call_ok (p : Pool) (c : call) : Prop :=
  match c with
  | CActivateWait id ch _ => exists s, p_objects p !! id = Some s /\ waits_active ch s
  | CEvictWait v ch _ => exists s, p_objects p !! v = Some s /\ waits_evicted ch s
  | CSupervise id => id <> p_bootstrap p /\ exists s, p_objects p !! id = Some s /\ s_loop s = LNone
  | CClose id => (id ∉ p_sessions p) /\ exists s, p_objects p !! id = Some s /\ removedCh s = false
  | _ => True
  end.

(** The calls that alone start, or remove, a session. *)
Definition owns (c : call) : option (nat * bool) :=
  match c with CSupervise id => Some (id, true) | CClose id => Some (id, false) | _ => None end.

Record pool_ok (p : Pool) : Prop := PoolOK {
  po_objects : forall i s, p_objects p !! i = Some s -> sess_ok s;
  po_calls : forall t c, p_calls p !! t = Some c -> call_ok p c;
  po_owner : forall t t' c c' x, p_calls p !! t = Some c -> p_calls p !! t' = Some c' ->
    owns c = Some x -> owns c' = Some x -> t = t';
  po_removed : forall i s, p_objects p !! i = Some s -> removedCh s = true -> i ∉ p_sessions p;
  po_sessions : forall i, i ∈ p_sessions p -> (i < length (p_objects p))%nat;
}.

Lemma pool_ok_same p p' :
  p_objects p' = p_objects p -> p_sessions p' = p_sessions p -> p_bootstrap p' = p_bootstrap p -> p_calls p' = p_calls p ->
  pool_ok p -> pool_ok p'.
Proof.
  intros E1 E2 E3 E4 [H1 H2 H3 H4 H5]. constructor; rewrite ?E1, ?E2, ?E4; try done.
  intros t c Hc. specialize (H2 t c Hc). unfold call_ok in *. by rewrite ?E1, ?E2, ?E3.
Qed.

Lemma call_ok_object p i s s' c :
  p_objects p !! i = Some s -> sess_ok s -> mild s s' -> call_ok p c -> call_ok (set_object i s' p) c.
Proof.
  intros Hi Hok [M1 M2 M3 M4 M5] Hc. pose proof (lookup_lt_Some _ _ _ Hi) as Hlt.
  assert (forall j x, p_objects p !! j = Some x ->
    exists x', <[i := s']> (p_objects p) !! j = Some x' /\ (x' = x \/ (x = s /\ x' = s'))) as Hupd.
  { intros j x Hx. destruct (decide (i = j)) as [<-|Hne].
    - exists s'. rewrite list_lookup_insert_eq by done. split; [done|]. right. split; [congruence|done].
    - exists x. rewrite list_lookup_insert_ne by done. auto. }
  destruct c as [|id|id|id| | |v ch k| |id ch held| | |id| |id|]; try done; cbn in *.
  - destruct Hc as (x & Hx & Hw). destruct (Hupd _ _ Hx) as (x' & Hx' & [->|[-> ->]]); eauto.
  - destruct Hc as (x & Hx & Hw). destruct (Hupd _ _ Hx) as (x' & Hx' & [->|[-> ->]]); eauto.
  - destruct Hc as (Hn & x & Hx & Hw). split; [done|]. destruct (Hupd _ _ Hx) as (x' & Hx' & [->|[-> ->]]); eauto.
  - destruct Hc as (Hn & x & Hx & Hw). split; [done|]. destruct (Hupd _ _ Hx) as (x' & Hx' & [->|[-> ->]]); eauto.
Qed.

Lemma set_object_ok p i s s' : pool_ok p -> p_objects p !! i = Some s -> mild s s' -> pool_ok (set_object i s' p).
Proof.
  intros [H1 H2 H3 H4 H5] Hi Hm. pose proof (lookup_lt_Some _ _ _ Hi) as Hlt. constructor; cbn.
  - intros j x [(<- & <- & _)|(_ & Hx)]%list_lookup_insert_Some; [by apply Hm, (H1 i)|by apply (H1 j)].
  - intros t c Hc. eapply call_ok_object; [done|by eapply H1|done|by eapply H2].
  - done.
  - intros j x [(<- & <- & _)|(_ & Hx)]%list_lookup_insert_Some Hr; [|by eapply H4]. rewrite (mi_removed _ _ Hm) in Hr. by eapply H4.
  - intros j Hj. rewrite length_insert. by apply H5.
Qed.

Definition with_call (t : nat) (c : call) (p : Pool) : Pool := set_calls (<[t := c]> (p_calls p)) p.

Lemma with_call_ok p t c c' :
  pool_ok p -> p_calls p !! t = Some c -> call_ok p c' -> (owns c' = None \/ forall t' c0, p_calls p !! t' = Some c0 -> owns c0 <> owns c') ->
  pool_ok (with_call t c' p).
Proof.
  intros [H1 H2 H3 H4 H5] Ht Hc Ho. constructor; cbn; try done.
  - intros t' c0 [(<- & <- & _)|(_ & Hx)]%list_lookup_insert_Some; [done|by eapply H2].
  - intros t1 t2 c1 c2 x [(<- & <- & _)|(_ & Hx1)]%list_lookup_insert_Some [(<- & <- & _)|(_ & Hx2)]%list_lookup_insert_Some E1 E2; try done.
    + destruct Ho as [Ho|Ho]; [congruence|]. destruct (Ho _ _ Hx2). congruence.
    + destruct Ho as [Ho|Ho]; [congruence|]. destruct (Ho _ _ Hx1). congruence.
    + by eapply H3.
Qed.

Lemma unlock_ok held p : pool_ok p -> pool_ok (unlock held p).
Proof. intros H. destruct held; [|done]. by apply (pool_ok_same p). Qed.

(** Closing [removedCh] and starting the goroutine: the changes that are not
    mild. *)
Lemma close_removed_ok p t id s :
  pool_ok p -> p_calls p !! t = Some (CClose id) -> p_objects p !! id = Some s ->
  pool_ok (with_call t (CEvict id None) (set_object id (close_removed s) p)).
Proof.
  intros Hp Ht Hs. pose proof (po_calls _ Hp _ _ Ht) as (Hn & s0 & Hs0 & Hrm). replace s0 with s in * by congruence.
  pose proof Hp as [H1 H2 H3 H4 H5]. pose proof (lookup_lt_Some _ _ _ Hs) as Hlt. constructor; cbn.
  - intros j x [(<- & <- & _)|(_ & Hx)]%list_lookup_insert_Some; [|by apply (H1 j)].
    destruct (H1 _ _ Hs) as [Q1 Q2 Q3 Q4]. constructor; try done. cbn. by rewrite Q4, Hrm.
  - intros t' c [(<- & <- & _)|(Hne & Hx)]%list_lookup_insert_Some; [done|]. specialize (H2 _ _ Hx).
    destruct c as [| | | | | |v ch k| |id' ch held| | |id'| |id'|]; try done; cbn in *.
    + destruct H2 as (x & Hx' & Hw). destruct (decide (id = v)) as [<-|]; [|exists x; by rewrite list_lookup_insert_ne].
      exists (close_removed s). rewrite list_lookup_insert_eq by done. split; [done|]. by replace x with s in Hw by congruence.
    + destruct H2 as (x & Hx' & Hw). destruct (decide (id = id')) as [<-|]; [|exists x; by rewrite list_lookup_insert_ne].
      exists (close_removed s). rewrite list_lookup_insert_eq by done. split; [done|]. by replace x with s in Hw by congruence.
    + destruct H2 as (Hn' & x & Hx' & Hw). split; [done|]. destruct (decide (id = id')) as [<-|]; [|exists x; by rewrite list_lookup_insert_ne].
      exfalso. apply Hne. by eapply H3.
    + destruct H2 as (Hn' & x & Hx' & Hw). split; [done|]. destruct (decide (id = id')) as [<-|]; [|exists x; by rewrite list_lookup_insert_ne].
      exists (close_removed s). rewrite list_lookup_insert_eq by done. split; [done|]. cbn. congruence.
  - intros t1 t2 c1 c2 x [(<- & <- & _)|(_ & Hx1)]%list_lookup_insert_Some [(<- & <- & _)|(_ & Hx2)]%list_lookup_insert_Some E1 E2; try done. by eapply H3.
  - intros j x [(<- & <- & _)|(_ & Hx)]%list_lookup_insert_Some Hr; [done|by eapply H4].
  - intros j Hj. rewrite length_insert. by apply H5.
Qed.

(** Starting a goroutine keeps everything but that it was not started. *)
Lemma start_ok p id s :
  pool_ok p -> p_objects p !! id = Some s -> s_loop s = LNone ->
  (forall t, p_calls p !! t <> Some (CSupervise id)) -> pool_ok (set_object id (set_loop LTop s) p).
Proof.
  intros [H1 H2 H3 H4 H5] Hs Hl Hno. pose proof (lookup_lt_Some _ _ _ Hs) as Hlt. constructor; cbn.
  - intros j x [(<- & <- & _)|(_ & Hx)]%list_lookup_insert_Some; [|by apply (H1 j)].
    destruct (H1 _ _ Hs) as [Q1 Q2 Q3 Q4]. constructor; try done. unfold loop_ok in *. by rewrite Hl in Q1.
  - intros t c Hc. pose proof (H2 _ _ Hc) as Hok. destruct c as [| | | | | |v ch k| |id' ch held| | |id'| |id'|]; try done; cbn in *.
    + destruct Hok as (x & Hx & Hw). destruct (decide (id = v)) as [<-|]; [|exists x; by rewrite list_lookup_insert_ne].
      exists (set_loop LTop s). rewrite list_lookup_insert_eq by done. split; [done|]. replace x with s in Hw by congruence. unfold waits_evicted in *. by rewrite Hl in Hw.
    + destruct Hok as (x & Hx & Hw). destruct (decide (id = id')) as [<-|]; [|exists x; by rewrite list_lookup_insert_ne].
      exists (set_loop LTop s). rewrite list_lookup_insert_eq by done. split; [done|]. replace x with s in Hw by congruence. unfold waits_active in *. by rewrite Hl in Hw.
    + destruct Hok as (Hn' & x & Hx & Hw). split; [done|]. destruct (decide (id = id')) as [<-|]; [|exists x; by rewrite list_lookup_insert_ne].
      exists (set_loop LTop s). rewrite list_lookup_insert_eq by done. split; [done|]. cbn. congruence.
    + destruct Hok as (Hn & x & Hx & Hw). split; [done|]. destruct (decide (id = id')) as [<-|]; [by destruct (Hno t)|]. exists x. by rewrite list_lookup_insert_ne.
  - done.
  - intros j x [(<- & <- & _)|(_ & Hx)]%list_lookup_insert_Some Hr; [by eapply (H4 id)|by eapply H4].
  - intros j Hj. rewrite length_insert. by apply H5.
Qed.

Lemma mint_ok t idle now p :
  pool_ok p -> p_calls p !! t = Some (CMint idle) -> (p_bootstrap p < length (p_objects p))%nat ->
  pool_ok (with_call t (CSupervise (length (p_objects p))) (mint idle now p)).
Proof.
  intros [H1 H2 H3 H4 H5] Ht Hb. set (n := length (p_objects p)) in *.
  assert (forall j x, (p_objects p ++ [buildSession idle now]) !! j = Some x -> p_objects p !! j = Some x \/ (j = n /\ x = buildSession idle now)) as Hnew.
  { intros j x Hx. apply lookup_app_Some in Hx as [Hx|[Hge Hx]]; [by left|right]. apply list_lookup_singleton_Some in Hx as [Hj <-]. split; [subst n; lia|done]. }
  assert (forall c, call_ok p c -> forall id, owns c = Some (id, true) \/ owns c = Some (id, false) -> (id < n)%nat) as Hown.
  { intros c Hc id Ho. destruct c; try (by destruct Ho); cbn in *; destruct Hc as (_ & x & Hx & _); apply lookup_lt_Some in Hx; destruct Ho as [[= <-]|[= <-]]; done. }
  constructor; cbn.
  - intros j x Hx. apply Hnew in Hx as [Hx|[_ ->]]; [by eapply H1|]. constructor; [|done| |done].
    + unfold loop_ok, settled; cbn. split; [|done]. split; [done|]. split; [split; [intros Hin; by apply elem_of_empty in Hin|done]|]. split; [done|]. intros _. by apply elem_of_singleton.
    + cbn. intros m Hm%elem_of_singleton. lia.
  - intros t' c [(<- & <- & _)|(_ & Hc)]%list_lookup_insert_Some.
    + cbn. split; [fold n; lia|]. exists (buildSession idle now). rewrite lookup_app_r by done. by rewrite Nat.sub_diag.
    + pose proof (H2 _ _ Hc) as Hok. pose proof (Hown _ Hok) as Hlt. destruct c; try done; cbn in *.
      * destruct Hok as (x & Hx & Hw). exists x. split; [by apply lookup_app_l_Some|done].
      * destruct Hok as (x & Hx & Hw). exists x. split; [by apply lookup_app_l_Some|done].
      * destruct Hok as (Hn & x & Hx & Hr). split; [|exists x; split; [by apply lookup_app_l_Some|done]].
        specialize (Hlt id (or_intror eq_refl)). intros [Heq%elem_of_singleton|Hin]%elem_of_union; [lia|done].
      * destruct Hok as (Hn & x & Hx & Hr). split; [done|]. exists x. split; [by apply lookup_app_l_Some|done].
  - intros t1 t2 c1 c2 x [(<- & <- & _)|(_ & Hx1)]%list_lookup_insert_Some [(<- & <- & _)|(_ & Hx2)]%list_lookup_insert_Some E1 E2; try done.
    + exfalso. cbn in E1. injection E1 as <-. pose proof (Hown _ (H2 _ _ Hx2) n (or_introl E2)). lia.
    + exfalso. cbn in E2. injection E2 as <-. pose proof (Hown _ (H2 _ _ Hx1) n (or_introl E1)). lia.
    + by eapply H3.
  - intros j x Hx Hr. apply Hnew in Hx as [Hx|[_ ->]]; [|done]. specialize (H4 _ _ Hx Hr). apply lookup_lt_Some in Hx.
    intros [Heq%elem_of_singleton|Hin]%elem_of_union; [fold n in Hx; lia|done].
  - intros j [->%elem_of_singleton|Hj]%elem_of_union; rewrite length_app; cbn; [fold n; lia|]. specialize (H5 _ Hj). fold n in H5. fold n. lia.
Qed.

Lemma remove_ok t id p :
  pool_ok p -> p_calls p !! t = Some (CRemove id) -> id ∈ p_sessions p ->
  pool_ok (with_call t (CClose id) (set_sessions (p_sessions p ∖ {[id]}) p)).
Proof.
  intros [H1 H2 H3 H4 H5] Ht Hin. assert (exists s, p_objects p !! id = Some s) as [s Hs] by (by apply lookup_lt_is_Some_2, H5).
  assert (removedCh s = false) as Hr by (destruct (removedCh s) eqn:E; [by destruct (H4 _ _ Hs E)|done]).
  constructor; cbn; try done.
  - intros t' c [(<- & <- & _)|(_ & Hc)]%list_lookup_insert_Some; [cbn; split; [|eauto]; intros [_ Hn]%elem_of_difference; by apply Hn, elem_of_singleton|].
    pose proof (H2 _ _ Hc) as Hok. destruct c; try done; cbn in *. destruct Hok as (Hn & Hx). split; [|done]. by intros [? _]%elem_of_difference.
  - intros t1 t2 c1 c2 x [(<- & <- & _)|(_ & Hx1)]%list_lookup_insert_Some [(<- & <- & _)|(_ & Hx2)]%list_lookup_insert_Some E1 E2; try done.
    + exfalso. cbn in E1. injection E1 as <-. pose proof (H2 _ _ Hx2) as Hok. destruct c2; try done. cbn in E2. injection E2 as ->. cbn in Hok. tauto.
    + exfalso. cbn in E2. injection E2 as <-. pose proof (H2 _ _ Hx1) as Hok. destruct c1; try done. cbn in E1. injection E1 as ->. cbn in Hok. tauto.
    + by eapply H3.
  - intros j x Hx Hrm [? _]%elem_of_difference. by eapply H4.
  - intros j [Hj _]%elem_of_difference. by apply H5.
Qed.

Lemma call_step_ok t a c p p' c' :
  pool_ok p -> (p_bootstrap p < length (p_objects p))%nat -> p_calls p !! t = Some c ->
  call_step t a c p = Some (p', c') -> pool_ok (with_call t c' p').
Proof.
  intros Hp Hb Ht Hstep. pose proof (po_calls _ Hp _ _ Ht) as Hok.
  assert (forall p1, pool_ok p1 -> p_calls p1 = p_calls p -> forall c1, call_ok p1 c1 -> owns c1 = None -> pool_ok (with_call t c1 p1)) as Hplain
    by (intros p1 Hp1 E c1 Hc1 Ho; apply (with_call_ok p1 t c); [done|by rewrite E|done|by left]).
  assert (forall b, pool_ok (unlock b p)) as Hun by (intros b; by apply unlock_ok).
  assert (forall b, p_calls (unlock b p) = p_calls p) as Eun by (by intros []).
  destruct c as [id|id|id|id|id [|x todo] active victim|v k|v ch k|id held|id ch held|id held|id|id|idle|id|r];
    cbn [call_step mbind option_bind] in Hstep.
  - injection Hstep as <- <-. apply Hplain; try done; repeat case_match; done.
  - destruct (p_capMu p); [done|]. injection Hstep as <- <-. apply Hplain; try done. by apply (pool_ok_same p).
  - destruct (p_objects p !! id); [cbn in Hstep|done]. repeat case_match; simplify_eq; apply Hplain; try done. by apply (pool_ok_same p).
  - destruct (p_objects p !! id) as [s|] eqn:Hs; [|done]. injection Hstep as <- <-. apply Hplain; try done.
    apply (pool_ok_same (set_object id (touchLastActive (a_now a) s) p)); try done. eapply set_object_ok; [done|done|by apply touch_mild].
  - injection Hstep as <- <-. apply Hplain; try done; [by apply (pool_ok_same p)| |]; repeat case_match; done.
  - destruct (p_objects p !! x) as [s|] eqn:Hs; [cbn in Hstep|done]. destruct (pick_one _ _ _ _ _). injection Hstep as <- <-. by apply Hplain.
  - destruct (p_objects p !! v) as [s|] eqn:Hs; [|done]. injection Hstep as <- <-. apply Hplain; try done.
    + eapply set_object_ok; [done|done|by apply evict_section_mild].
    + cbn. exists (evict_section s). rewrite list_lookup_insert_eq by (by eapply lookup_lt_Some). split; [done|by apply evict_section_waits].
  - destruct (p_objects p !! v) as [s|] eqn:Hs; [cbn in Hstep|done]. repeat case_match; simplify_eq; apply Hplain; try done; auto.
  - destruct (p_objects p !! id) as [s|] eqn:Hs; [cbn in Hstep|done]. destruct (a_done a); injection Hstep as <- <-; apply Hplain; try done.
    + eapply set_object_ok; [done|done|by apply activate_section_mild].
    + cbn. exists (activate_section s). rewrite list_lookup_insert_eq by (by eapply lookup_lt_Some). split; [done|by apply activate_section_waits].
  - destruct (p_objects p !! id) as [s|] eqn:Hs; [cbn in Hstep|done]. repeat case_match; simplify_eq; apply Hplain; try done; auto.
  - injection Hstep as <- <-. apply Hplain; try done; auto.
  - destruct (p_picking p); [done|]. destruct (bool_decide (id ∈ p_sessions p)) eqn:Hin; cbn [negb] in Hstep; [|injection Hstep as <- <-; by apply Hplain].
    destruct (decide _); [injection Hstep as <- <-; by apply Hplain|]. destruct (a_ok a); cbn [negb] in Hstep; [|injection Hstep as <- <-; by apply Hplain].
    injection Hstep as <- <-. apply remove_ok; [done|done|by apply bool_decide_eq_true in Hin].
  - destruct (p_objects p !! id) as [s|] eqn:Hs; [|done]. injection Hstep as <- <-. by apply close_removed_ok.
  - destruct (p_picking p); [done|]. destruct (a_ok a); cbn [negb] in Hstep; [|injection Hstep as <- <-; by apply Hplain].
    injection Hstep as <- <-. by apply (mint_ok t idle).
  - destruct (p_objects p !! id) as [s|] eqn:Hs; [cbn in Hstep|done]. destruct (a_ok a); injection Hstep as <- <-; [|by apply Hplain].
    cbn in Hok. destruct Hok as (Hne & s0 & Hs0 & Hl). replace s0 with s in Hl by congruence.
    assert (pool_ok (with_call t (CDone Nil) p)) as Hq by (by apply Hplain).
    apply (start_ok (with_call t (CDone Nil) p)); [done|done|done|]. intros t' [(<- & ? & _)|(Hne' & Hx)]%list_lookup_insert_Some; [done|].
    apply Hne'. by apply (po_owner _ Hp t t' _ _ (id, true) Ht Hx).
  - done.
Qed.

Record reach_ok (p : Pool) : Prop := ReachOK { ro_pool : pool_ok p; ro_boot : (p_bootstrap p < length (p_objects p))%nat }.

Lemma call_step_shape t a c p p' c' :
  call_step t a c p = Some (p', c') ->
  p_bootstrap p' = p_bootstrap p /\ p_cap p' = p_cap p /\ p_calls p' = p_calls p /\ (length (p_objects p) <= length (p_objects p'))%nat.
Proof.
  intros H. assert (forall b, p_bootstrap (unlock b p) = p_bootstrap p /\ p_cap (unlock b p) = p_cap p /\ p_calls (unlock b p) = p_calls p /\ p_objects (unlock b p) = p_objects p)
    as Hu by (by intros []).
  destruct c as [id|id|id|id|id [|x todo] active victim|v k|v ch k|id held|id ch held|id held|id|id|idle|id|r];
    cbn [call_step] in H; unfold mbind, option_bind in H; repeat case_match; simplify_eq; cbn; rewrite ?length_insert, ?length_app;
    try (match goal with |- context [unlock ?b p] => destruct (Hu b) as (-> & -> & -> & ->) end); auto with lia.
Qed.

Lemma step_reach_ok a p p' : reach_ok p -> step a p = Some p' -> reach_ok p'.
Proof.
  intros [Hp Hb] Hstep. destruct a as [|q|t a|i c now|i]; cbn [step mbind option_bind] in Hstep.
  - destruct (p_objects p !! p_bootstrap p) as [s|] eqn:Hs; [cbn in Hstep|done]. destruct (decide _) as [Hl|]; [|done]. injection Hstep as <-.
    split; [|cbn; by rewrite length_insert]. apply start_ok; try done. intros t Ht. by destruct (po_calls _ Hp _ _ Ht).
  - injection Hstep as <-. split; [|done]. destruct Hp as [H1 H2 H3 H4 H5]. constructor; try done; cbn.
    + intros t c [Hc|[_ Hc]]%lookup_app_Some; [by eapply H2|]. apply list_lookup_singleton_Some in Hc as [_ <-]. by destruct q.
    + intros t t' c c' x [Hc|[_ Hc]]%lookup_app_Some [Hc'|[_ Hc']]%lookup_app_Some E1 E2; [by eapply H3|..];
        try (apply list_lookup_singleton_Some in Hc as [_ <-]; by destruct q); apply list_lookup_singleton_Some in Hc' as [_ <-]; by destruct q.
  - destruct (p_calls p !! t) as [c|] eqn:Ht; [cbn in Hstep|done]. destruct (call_step t a c p) as [[p1 c1]|] eqn:Hc; [cbn in Hstep|done]. injection Hstep as <-.
    pose proof (call_step_shape _ _ _ _ _ _ Hc) as (E1 & _ & E2 & Hlen). split; [by eapply call_step_ok|]. cbn. rewrite E1. lia.
  - destruct (p_objects p !! i) as [s|] eqn:Hs; [cbn in Hstep|done]. destruct (saving _ && _); [done|]. destruct (loop_step c now s) as [s'|] eqn:Hl; [cbn in Hstep|done]. injection Hstep as <-.
    split; [|cbn; by rewrite length_insert]. eapply set_object_ok; [done|done|]. by eapply turn_mild, loop_step_turn.
  - destruct (p_objects p !! i) as [s|] eqn:Hs; [cbn in Hstep|done]. destruct (runner_step s) as [s'|] eqn:Hl; [cbn in Hstep|done]. injection Hstep as <-.
    split; [|cbn; by rewrite length_insert]. eapply set_object_ok; [done|done|]. by apply runner_step_mild.
Qed.

Lemma New_reach_ok cap evicted idle now : reach_ok (New cap evicted idle now).
Proof.
  split; [|cbn; lia]. constructor; cbn.
  - intros i s [-> <-]%list_lookup_singleton_Some. destruct evicted; constructor; cbn; try done;
      try (intros n Hn%elem_of_singleton; lia); unfold loop_ok, settled; cbn; (split; [|done]); (split; [done|]).
  - intros t c Hc. by rewrite lookup_nil in Hc.
  - intros t t' c c' x Hc. by rewrite lookup_nil in Hc.
  - intros i s [-> <-]%list_lookup_singleton_Some. by destruct evicted.
  - intros i ->%elem_of_singleton. lia.
Qed.

Lemma steps_ok l p p' : reach_ok p -> steps l p = Some p' -> reach_ok p'.
Proof.
  revert p. induction l as [|a l IH]; intros p Hp; cbn; [by intros [= <-]|]. destruct (step a p) as [p1|] eqn:H1; [cbn|done].
  apply IH. by eapply step_reach_ok.
Qed.

End SessionsInv.

(** ** Session lifecycles: runs written out, for the properties' examples *)
Module SessionsRuns.
Import Sessions.

Local Open Scope Z_scope.

(** A call's next steps; its clock shows [now], its pick walks [order]. *)
Definition go (t n : nat) (now : instant) (order : list nat) : list action := replicate n (AStep t (Answer false true now order)).
Definition abandon (t : nat) : action := AStep t (Answer true true 0 []).
(** A session's next turns. *)
Definition turn (i : nat) (c : choice) (now : instant) : action := ALoop i c now.
Definition turns (i n : nat) (now : instant) : list action := replicate n (ALoop i SelShutdown now).

(** The bootstrap running, and one more session minted, evicted. *)
Definition started : list action :=
  [ARun] ++ turns 0 1 0 ++ [ACall (QMint 0)] ++ go 0 2 1 [] ++ turns 1 1 1.

(** [Activate 1] as call 1, to where it waits for the bootstrap's eviction. *)
Definition to_eviction : list action := started ++ [ACall (QActivate 1)] ++ go 1 7 2 [0%nat; 1%nat].
(** The eviction, from the signal taken to the waiters' wake. *)
Definition evicted_0 : list action := [turn 0 SelEvict 3] ++ turns 0 3 3 ++ [ARunner 0] ++ turns 0 3 4.
(** The bootstrap parks, the call signals session 1 and waits for it. *)
Definition to_activation : list action := to_eviction ++ evicted_0 ++ turns 0 1 5 ++ go 1 2 5 [].
(** Session 1 becomes active and the call returns. *)
Definition swapped : list action := to_activation ++ [turn 1 SelActivate 6] ++ turns 1 5 6 ++ go 1 2 7 [].

(** Without a cap: session 1 is activated, then [Remove 1] waits for its end. *)
Definition to_removal : list action :=
  started ++ [ACall (QActivate 1)] ++ go 1 2 2 [] ++ [turn 1 SelActivate 3] ++ turns 1 5 3 ++ go 1 2 3 []
  ++ [ACall (QRemove 1)] ++ go 2 3 4 [].
Definition removed_1 : list action :=
  [turn 1 SelEvict 5] ++ turns 1 3 5 ++ [ARunner 1] ++ turns 1 4 6 ++ [turn 1 SelRemoved 6] ++ turns 1 1 6.

Definition after (l : list action) (p : Pool) : Pool := default p (steps l p).

Lemma to_eviction_runs : steps to_eviction (New 1 false 0 0) = Some (after to_eviction (New 1 false 0 0)).
Proof. vm_compute. reflexivity. Qed.
Lemma evicted_0_runs :
  steps evicted_0 (after to_eviction (New 1 false 0 0)) = Some (after evicted_0 (after to_eviction (New 1 false 0 0))).
Proof. vm_compute. reflexivity. Qed.
Lemma swapped_runs : steps swapped (New 1 false 0 0) = Some (after swapped (New 1 false 0 0)).
Proof. vm_compute. reflexivity. Qed.
Lemma to_removal_runs : steps to_removal (New 0 false 0 0) = Some (after to_removal (New 0 false 0 0)).
Proof. vm_compute. reflexivity. Qed.
Lemma removed_1_runs :
  steps removed_1 (after to_removal (New 0 false 0 0)) = Some (after removed_1 (after to_removal (New 0 false 0 0))).
Proof. vm_compute. reflexivity. Qed.

End SessionsRuns.
