(* ===== verification/SessionsProps.v ===== *)
(** * Session lifecycles: what the calls are told, and that they are told *)
From Stdlib Require Import ZArith Lia.
From stdpp Require Import prelude gmap list.
From S2P Require Import Prelude Sessions SessionsInv.

Module SessionsProps.
Import Sessions SessionsInv.

Local Open Scope Z_scope.

(** ** Runs *)

Lemma steps_app l1 l2 p : steps (l1 ++ l2) p = p1 ← steps l1 p; steps l2 p1.
Proof. revert p. induction l1 as [|a l1 IH]; intros p; [done|]. cbn. destruct (step a p) as [p1|]; [cbn; apply IH|done]. Qed.

(** What one action does to one session: nothing, a turn of its goroutine, or
    a change that keeps its channels and its state. *)
Definition quiet (s s' : Session) : Prop :=
  lcState s' = lcState s /\ activeCh s' = activeCh s /\ activeClosed s' = activeClosed s
  /\ evictedCh s' = evictedCh s /\ evictedClosed s' = evictedClosed s
  /\ (s_loop s' = s_loop s \/ (s_loop s = LNone /\ s_loop s' = LTop)).

Lemma quiet_refl s : quiet s s.
Proof. unfold quiet. auto 10. Qed.

Lemma call_step_object t a c p p' c' i s :
  pool_ok p -> p_calls p !! t = Some c -> call_step t a c p = Some (p', c') -> p_objects p !! i = Some s ->
  exists s', p_objects p' !! i = Some s' /\ quiet s s'.
Proof.
  intros Hp Ht H Hi. pose proof (po_calls _ Hp _ _ Ht) as Hok.
  assert (forall b, p_objects (unlock b p) = p_objects p) as Hu by (by intros []).
  assert (forall j x, quiet x (touchLastActive j x)) as Q1 by (unfold quiet; auto 10).
  assert (forall x, quiet x (activate_section x)) as Q2 by (intros x; unfold activate_section; case_match; unfold quiet; auto 10).
  assert (forall x, quiet x (evict_section x)) as Q3 by (intros x; unfold evict_section; case_match; unfold quiet; auto 10).
  assert (forall x, quiet x (close_removed x)) as Q4 by (unfold quiet; auto 10).
  assert (forall j x y, p_objects p !! j = Some x -> quiet x y -> exists s', <[j := y]> (p_objects p) !! i = Some s' /\ quiet s s') as Hupd.
  { intros j x y Hj Hq. destruct (lookup_update (p_objects p) j i y s Hi) as (z & Hz & [[-> _]|[-> ->]]); [eauto using quiet_refl|].
    exists y. split; [done|]. by replace s with x by congruence. }
  destruct c as [id|id|id|id|id [|x todo] active victim|v k|v ch k|id held|id ch held|id held|id|id|idle|id|r];
    cbn [call_step] in H; unfold mbind, option_bind in H; repeat case_match; simplify_eq; cbn; rewrite ?Hu;
    try (exists s; split; [done|apply quiet_refl]); try (eapply Hupd; [eassumption|by auto]).
  - exists s. split; [by apply lookup_app_l_Some|apply quiet_refl].
  - destruct Hok as (_ & x0 & Hx0 & Hl). match goal with |- context [set_loop LTop ?y] => assert (y = x0) as -> by congruence; apply (Hupd id x0 _ Hx0) end.
    unfold quiet. rewrite Hl. cbn. auto 10.
Qed.

Lemma step_object a p p' i s :
  reach_ok p -> step a p = Some p' -> p_objects p !! i = Some s ->
  exists s', p_objects p' !! i = Some s' /\
    ((quiet s s' /\ forall c now, a <> ALoop i c now) \/ exists c now, a = ALoop i c now /\ loop_step c now s = Some s').
Proof.
  intros [Hp _] H Hi. destruct a as [|q|t a|j c now|j]; cbn [step] in H; unfold mbind, option_bind in H.
  - destruct (p_objects p !! p_bootstrap p) as [b|] eqn:Hb; [|done]. destruct (decide _) as [Hl|]; [|done]. injection H as <-.
    destruct (lookup_update (p_objects p) (p_bootstrap p) i (set_loop LTop b) s Hi) as (z & Hz & Hcase). exists z. split; [done|]. left. split; [|done].
    destruct Hcase as [[-> _]|[Hi' ->]]; [apply quiet_refl|]. replace s with b by (rewrite <- Hi' in Hi; congruence). unfold quiet. rewrite Hl. cbn. auto 10.
  - injection H as <-. exists s. split; [done|]. left. split; [apply quiet_refl|done].
  - destruct (p_calls p !! t) as [c|] eqn:Ht; [|done]. destruct (call_step t a c p) as [[p1 c1]|] eqn:Hc; [|done]. injection H as <-.
    destruct (call_step_object _ _ _ _ _ _ _ _ Hp Ht Hc Hi) as (s' & Hs' & Hq). exists s'. split; [done|]. by left.
  - destruct (p_objects p !! j) as [x|] eqn:Hj; [|done]. destruct (saving _ && _); [done|]. destruct (loop_step c now x) as [x'|] eqn:Hl; [|done]. injection H as <-.
    destruct (lookup_update (p_objects p) j i x' s Hi) as (z & Hz & Hcase). exists z. split; [done|].
    destruct Hcase as [[-> Hne]|[-> ->]]; [left; split; [apply quiet_refl|intros c' now'; congruence]|right]. exists c, now. split; [done|]. by replace s with x by congruence.
  - destruct (p_objects p !! j) as [x|] eqn:Hj; [|done]. destruct (runner_step x) as [x'|] eqn:Hl; [|done]. injection H as <-.
    destruct (lookup_update (p_objects p) j i x' s Hi) as (z & Hz & Hcase). exists z. split; [done|]. left. split; [|done].
    destruct Hcase as [[-> _]|[-> ->]]; [apply quiet_refl|]. replace s with x by congruence.
    unfold runner_step in Hl. destruct (s_runner x); try done; injection Hl as <-; unfold quiet; auto 10.
Qed.

(** ** The moment a call waits for *)

Definition is_active (s : Session) : Prop := lcState s = stateActive.
Definition is_stopped (s : Session) : Prop := lcState s = stateEvicted /\ s_runner s = RNone.

(** Between [p] and the end of [l] the session is once as [P] says. *)
Definition sometime (P : Session -> Prop) (i : nat) (l : list action) (p : Pool) : Prop :=
  exists l1 l2 p1 s, l = l1 ++ l2 /\ steps l1 p = Some p1 /\ p_objects p1 !! i = Some s /\ P s.

Lemma closed_active s : sess_ok s -> activeCh s ∈ activeClosed s -> is_active s.
Proof.
  intros [H _ _ _] Hin. unfold loop_ok in H. unfold is_active.
  destruct (s_loop s); destruct H as [(Hs & HA & HE) Hr]; try done; by apply HA in Hin.
Qed.

Lemma closed_evicted s : sess_ok s -> evictedCh s ∈ evictedClosed s -> is_stopped s.
Proof.
  intros [H _ _ _] Hin. unfold loop_ok in H. unfold is_stopped.
  destruct (s_loop s); destruct H as [(Hs & HA & HE) Hr]; try (by apply HE in Hin); try done. all: split; [by apply HE in Hin|done].
Qed.

(** A channel is replaced only once it is closed. *)
Lemma turn_active_ch s s' : turn s s' -> sess_ok s -> activeCh s' = activeCh s \/ activeCh s ∈ activeClosed s.
Proof.
  intros H [Hl _ _ _]. unfold loop_ok in Hl. destruct H; try (by left). right.
  match goal with E : s_loop _ = _ |- _ => rewrite E in Hl end. destruct Hl as [(_ & HA & _) _]. by apply HA.
Qed.

Lemma turn_evicted_ch s s' : turn s s' -> sess_ok s -> evictedCh s' = evictedCh s \/ evictedCh s ∈ evictedClosed s.
Proof.
  intros H [Hl _ _ _]. unfold loop_ok in Hl. destruct H; try (by left). right.
  match goal with E : s_loop _ = _ |- _ => rewrite E in Hl end. destruct Hl as [(_ & _ & HE) _]. by apply HE.
Qed.

(** A channel that is current now and closed later was closed as promised. *)
Lemma closed_sometime (ch_of : Session -> nat) (closed_of : Session -> gset nat) (P : Session -> Prop) :
  (forall s, sess_ok s -> ch_of s ∈ closed_of s -> P s) ->
  (forall s s', turn s s' -> sess_ok s -> ch_of s' = ch_of s \/ ch_of s ∈ closed_of s) ->
  (forall s s', quiet s s' -> ch_of s' = ch_of s) ->
  forall l p p' i s s', reach_ok p -> steps l p = Some p' -> p_objects p !! i = Some s -> p_objects p' !! i = Some s' ->
    ch_of s ∈ closed_of s' -> sometime P i l p.
Proof.
  intros HP Hturn Hquiet. induction l as [|a l IH]; intros p p' i s s' Hp Hl Hs Hs' Hin; cbn in Hl.
  - injection Hl as <-. replace s' with s in * by congruence. exists [], [], p, s. split; [done|]. split; [done|]. split; [done|].
    apply HP; [by eapply (po_objects _ (ro_pool _ Hp))|done].
  - destruct (step a p) as [p1|] eqn:Ha; [cbn in Hl|done]. pose proof (step_reach_ok _ _ _ Hp Ha) as Hp1.
    pose proof (po_objects _ (ro_pool _ Hp) _ _ Hs) as Hok.
    destruct (step_object _ _ _ _ _ Hp Ha Hs) as (s1 & Hs1 & Hcase).
    assert (ch_of s1 = ch_of s \/ ch_of s ∈ closed_of s) as [E|Hc].
    { destruct Hcase as [[Hq _]|(c & now & _ & Ht%loop_step_turn)]; [left; by apply Hquiet|by apply Hturn]. }
    + rewrite <- E in Hin. destruct (IH _ _ _ _ _ Hp1 Hl Hs1 Hs' Hin) as (l1 & l2 & q & x & -> & Hq & Hx & HPx).
      exists (a :: l1), l2, q, x. cbn. by rewrite Ha.
    + exists [], (a :: l), p, s. split; [done|]. split; [done|]. split; [done|]. by apply HP.
Qed.

(** C37. The lifecycle channels keep their promises. In no interleaving of
    activations, evictions, removals, mints, idle timers, runner exits and
    shutdown is a channel closed twice, and no session with a runner counts as
    evicted to those who wait for it. When
    the channel an [Evict] waits on is closed, there was a moment since the
    call took it when the session was evicted with its runner gone; and when
    the one an [Activate] waits on is closed, a moment when it was active. *)
Theorem waits_keep_promises cap evicted idle now l p :
  steps l (New cap evicted idle now) = Some p ->
  (forall i s, p_objects p !! i = Some s -> s_panic s = false /\ (s_runner s <> RNone -> evictedCh s ∉ evictedClosed s))
  /\ (forall i s l' p' s', p_objects p !! i = Some s -> steps l' p = Some p' -> p_objects p' !! i = Some s' ->
        (evictedCh s ∈ evictedClosed s' -> sometime is_stopped i l' p) /\ (activeCh s ∈ activeClosed s' -> sometime is_active i l' p)).
Proof.
  intros Hl. pose proof (steps_ok _ _ _ (New_reach_ok cap evicted idle now) Hl) as Hp. split.
  - intros i s Hs. pose proof (po_objects _ (ro_pool _ Hp) _ _ Hs) as Hok. split; [apply Hok|].
    intros Hr Hin. by destruct (closed_evicted s Hok Hin).
  - intros i s l' p' s' Hs Hl' Hs'. split; intros Hin.
    + eapply (closed_sometime evictedCh evictedClosed); try done; [apply closed_evicted|apply turn_evicted_ch|intros x y (_ & _ & _ & ? & _); done].
    + eapply (closed_sometime activeCh activeClosed); try done; [apply closed_active|apply turn_active_ch|intros x y (_ & ? & _); done].
Qed.

(** [Activate 1] waits for the bootstrap's eviction, until it is evicted. *)
Lemma waits_keep_promises_witness :
  exists p s p' s', steps SessionsRuns.to_eviction (New 1 false 0 0) = Some p /\ p_objects p !! 0%nat = Some s /\ s_runner s = RRunning
    /\ steps SessionsRuns.evicted_0 p = Some p' /\ p_objects p' !! 0%nat = Some s' /\ evictedCh s ∈ evictedClosed s'
    /\ sometime is_stopped 0 SessionsRuns.evicted_0 p.
Proof.
  pose (p := SessionsRuns.after SessionsRuns.to_eviction (New 1 false 0 0)). pose (p' := SessionsRuns.after SessionsRuns.evicted_0 p).
  pose (s := default (buildSession 0 0) (p_objects p !! 0%nat)). pose (s' := default (buildSession 0 0) (p_objects p' !! 0%nat)).
  assert (p_objects p !! 0%nat = Some s) as Hs by (vm_compute; reflexivity). assert (p_objects p' !! 0%nat = Some s') as Hs' by (vm_compute; reflexivity).
  assert (evictedCh s ∈ evictedClosed s') as Hin by (apply (bool_decide_unpack _); vm_compute; exact I).
  exists p, s, p', s'. split; [exact SessionsRuns.to_eviction_runs|]. split; [exact Hs|]. split; [vm_compute; reflexivity|].
  split; [exact SessionsRuns.evicted_0_runs|]. split; [exact Hs'|]. split; [exact Hin|].
  exact (proj1 (proj2 (waits_keep_promises 1 false 0 0 _ p SessionsRuns.to_eviction_runs) 0%nat s _ p' s' Hs SessionsRuns.evicted_0_runs Hs') Hin).
Defined.

(** ** Progress *)

(** The turns of its goroutine a session is away from closing [evictedCh],
    and [activeCh]. *)
Definition to_evicted (l : loop) : nat :=
  match l with
  | LExit => 0 | LCloseE | LShut => 1 | LSaveE => 2 | LDrain => 3 | LCancel => 4 | LFlip => 5 | LBegin => 6
  | LActive => 7 | LTop => 8 | LCloseA | LNone => 9 | LSaveA => 10 | LUp => 11 | LWoke => 12 | LEvicted => 13
  end.
Definition to_active (l : loop) : nat :=
  match l with
  | LExit => 0 | LCloseA => 1 | LSaveA => 2 | LUp => 3 | LWoke => 4 | LEvicted => 5 | LTop => 6 | LCloseE | LNone => 7
  | LSaveE => 8 | LDrain => 9 | LCancel => 10 | LFlip => 11 | LBegin => 12 | LActive => 13 | LShut => 14
  end.

Inductive side := Activation | Eviction.

Definition ch_of (d : side) (s : Session) : nat := match d with Activation => activeCh s | Eviction => evictedCh s end.
Definition closed_of (d : side) (s : Session) : gset nat := match d with Activation => activeClosed s | Eviction => evictedClosed s end.
Definition to_close (d : side) (l : loop) : nat := match d with Activation => to_active l | Eviction => to_evicted l end.

(** At most [n] turns to go, or done. *)
Definition within (d : side) (ch n : nat) (s : Session) : Prop :=
  ch ∈ closed_of d s \/ s_loop s = LExit \/ (ch = ch_of d s /\ (to_close d (s_loop s) <= n)%nat).

Lemma within_bound d ch s : sess_ok s -> ch = ch_of d s -> within d ch 10 s.
Proof.
  intros [H _ _ _] ->. unfold loop_ok in H. unfold within.
  destruct d; destruct (s_loop s) eqn:El; destruct H as [(Hs & HA & HE) Hr]; cbn;
    try (right; right; split; [done|lia]); left; [by apply HA|by apply HA|by apply HA|by apply HA|by apply HE|by apply HE|by apply HE].
Qed.

Lemma within_quiet d ch n s s' : quiet s s' -> within d ch n s -> within d ch n s'.
Proof.
  intros (_ & E1 & E2 & E3 & E4 & El) [H|[H|[-> H]]]; unfold within; destruct d; cbn in *; rewrite ?E1, ?E2, ?E3, ?E4; auto;
    destruct El as [El|[El El']]; rewrite ?El, ?El' in *; auto; try congruence; right; right; (split; [done|]); cbn in *; lia.
Qed.

Lemma within_turn d ch n s s' : turn s s' -> sess_ok s -> within d ch n s -> within d ch n s' /\ (s' <> s -> within d ch (n - 1) s').
Proof.
  intros Ht Hok Hw. destruct Hw as [Hw|[Hw|[-> Hw]]].
  - assert (ch ∈ closed_of d s') by (destruct d, Ht; cbn in *; try done; apply elem_of_union; by right). split; [by left|intros _; by left].
  - exfalso. destruct Ht; congruence.
  - pose proof Hok as [Hl _ _ _]. unfold loop_ok in Hl. destruct d; cbn [ch_of closed_of to_close] in *; unfold within; cbn [ch_of closed_of to_close].
    + destruct Ht as [El Es|El Es|r El ->|El Er|El Er|El|El|El Ev|El|nw El|r El ->|El Er|El|El|El|El Erm|El Ea|El Erm|El Erm|nw El|El|El|El Er];
        rewrite El in Hl, Hw; destruct Hl as [(Hs & HA & HE) Hr]; session_cbn; rewrite ?El in *; cbn in Hw;
        try (split; [|intros _]; right; right; (split; [done|]); cbn; lia); try (split; [|intros _]; right; by left);
        try (split; [|intros _]; left; apply HA; congruence).
      * split; [|intros _]; left; apply elem_of_union; left; by apply elem_of_singleton.
    + destruct Ht as [El Es|El Es|r El ->|El Er|El Er|El|El|El Ev|El|nw El|r El ->|El Er|El|El|El|El Erm|El Ea|El Erm|El Erm|nw El|El|El|El Er];
        rewrite El in Hl, Hw; destruct Hl as [(Hs & HA & HE) Hr]; session_cbn; rewrite ?El in *; cbn in Hw;
        try (split; [|intros _]; right; right; (split; [done|]); try destruct (decide _); cbn; lia); try (split; [|intros _]; right; by left);
        try (split; [|intros _]; left; apply HE; congruence).
      * split; [right; right; split; [done|]; cbn; lia|done].
      * split; [|intros _]; left; apply elem_of_union; left; by apply elem_of_singleton.
Qed.

Lemma loop_step_moves c now s s' : c <> SelTimer true -> loop_step c now s = Some s' -> s_loop s' <> s_loop s.
Proof.
  intros Hc H. unfold loop_step, select_active, select_evicted in H. destruct (s_loop s) eqn:El; try done;
    try (destruct c; try done); rewrite ?cancelSup_fields in H; repeat case_match; simplify_eq; done.
Qed.

(** Turns of a session's goroutine other than deferrals of the idle timer. *)
Definition is_turn (i : nat) (a : action) : bool :=
  match a with
  | ALoop j c _ => bool_decide (i = j) && match c with SelTimer true => false | _ => true end
  | _ => false
  end.
Definition turns_of (i : nat) (l : list action) : nat := length (filter (is_turn i) l).

Lemma within_run d ch n l p p' i s :
  reach_ok p -> steps l p = Some p' -> p_objects p !! i = Some s -> within d ch n s -> (n <= turns_of i l)%nat ->
  exists s', p_objects p' !! i = Some s' /\ (ch ∈ closed_of d s' \/ s_loop s' = LExit).
Proof.
  revert n p s. induction l as [|a l IH]; intros n p s Hp Hl Hs Hw Hn; cbn in Hl.
  - injection Hl as <-. exists s. split; [done|]. destruct Hw as [Hw|[Hw|[-> Hw]]]; auto. right. cbn in Hn. assert (n = 0%nat) as -> by (unfold turns_of in Hn; cbn in Hn; lia).
    destruct d, (s_loop s); cbn in Hw; lia || done.
  - destruct (step a p) as [p1|] eqn:Ha; [cbn in Hl|done]. pose proof (step_reach_ok _ _ _ Hp Ha) as Hp1.
    pose proof (po_objects _ (ro_pool _ Hp) _ _ Hs) as Hok.
    destruct (step_object _ _ _ _ _ Hp Ha Hs) as (s1 & Hs1 & [[Hq Hno]|(c & now & -> & Hstep)]).
    + apply (IH n p1 s1); try done; [by eapply within_quiet|]. unfold turns_of in *. rewrite filter_cons_False in Hn; [done|].
      destruct a as [| | |j c now|]; try (by intros []). intros [Ht _]%andb_prop_elim. apply bool_decide_unpack in Ht as <-. by destruct (Hno c now).
    + destruct (within_turn d ch n s s1 (loop_step_turn _ _ _ _ Hstep) Hok Hw) as [Hw1 Hw2].
      destruct (decide (is_turn i (ALoop i c now))) as [Ht|Ht].
      * apply (IH (n - 1)%nat p1 s1); try done.
        -- apply Hw2. intros ->. destruct (loop_step_moves c now s s) as []; [|done|done]. intros ->. cbn in Ht. by rewrite andb_false_r in Ht.
        -- unfold turns_of in *. rewrite filter_cons_True in Hn by done. cbn in Hn. lia.
      * apply (IH n p1 s1); try done. unfold turns_of in *. by rewrite filter_cons_False in Hn.
Qed.

(** What a call waits for: the session, and the channel it took. *)
Definition waits_for (c : call) : option (side * nat * nat) :=
  match c with
  | CEvictWait v ch _ => Some (Eviction, v, ch)
  | CActivateWait id ch _ => Some (Activation, id, ch)
  | _ => None
  end.

Lemma waiting_within p c d i ch :
  reach_ok p -> call_ok p c -> waits_for c = Some (d, i, ch) -> exists s, p_objects p !! i = Some s /\ within d ch 10 s.
Proof.
  intros Hp Hc Hw. destruct c; try done; injection Hw as <- <- <-; cbn in Hc; destruct Hc as (s & Hs & [Hw|[Hch _]]); exists s; (split; [done|]);
    try (by left); apply within_bound; try done; by eapply (po_objects _ (ro_pool _ Hp)).
Qed.

(** Something can run that brings the call nearer to its answer: a turn of the
    goroutine, which at a select is the one that takes the call's own signal,
    or the runner's end. *)
Definition signal (d : side) : choice := match d with Activation => SelActivate | Eviction => SelEvict end.
Definition can_go_on (d : side) (i : nat) (s : Session) (p : Pool) : Prop :=
  (exists p1, step (ALoop i (signal d) 0) p = Some p1)
  \/ (exists p1, step (ARunner i) p = Some p1) \/ s_loop s = LNone \/ (saving (s_loop s) = true /\ p_picking p = true).

Lemma can_turn d i s s' p :
  p_objects p !! i = Some s -> saving (s_loop s) && p_picking p = false -> loop_step (signal d) 0 s = Some s' ->
  can_go_on d i s p.
Proof. intros Hs Hsv Hl. left. exists (set_object i s' p). cbn. rewrite Hs. cbn. by rewrite Hsv, Hl. Qed.

(** At a select, the signal of a call that waits is there. *)
Lemma waiting_signal p c d i ch s :
  reach_ok p -> call_ok p c -> waits_for c = Some (d, i, ch) -> p_objects p !! i = Some s -> ch ∉ closed_of d s ->
  (s_loop s = LEvicted -> d = Activation /\ activateCh s = true) /\ (s_loop s = LActive -> d = Eviction /\ evictCh s = true).
Proof.
  intros Hp Hc Hw Hs Hopen. pose proof (po_objects _ (ro_pool _ Hp) _ _ Hs) as [Hok _ _ _]. unfold loop_ok in Hok.
  destruct c; try done; injection Hw as <- <- <-; cbn in Hc, Hopen; destruct Hc as (s0 & Hs0 & [Hw|[-> Hw]]); replace s0 with s in * by congruence;
    try done; split; intros E; rewrite E in Hok, Hw; destruct Hok as [(Hst & HA & HE) _].
  - by destruct Hopen; apply HE.
  - split; [done|]. by destruct (Hw Hst).
  - split; [done|]. by destruct (Hw Hst).
  - by destruct Hopen; apply HA.
Qed.

Lemma waiting_goes_on p c d i ch s :
  reach_ok p -> call_ok p c -> waits_for c = Some (d, i, ch) -> p_objects p !! i = Some s ->
  ch ∉ closed_of d s -> s_loop s <> LExit -> can_go_on d i s p.
Proof.
  intros Hp Hc Hw Hs Hopen Hl. pose proof (po_objects _ (ro_pool _ Hp) _ _ Hs) as [Hok _ _ _]. unfold loop_ok in Hok.
  destruct (waiting_signal _ _ _ _ _ _ Hp Hc Hw Hs Hopen) as [HtA HtE].
  assert (forall s', saving (s_loop s) && p_picking p = false -> loop_step (signal d) 0 s = Some s' -> can_go_on d i s p) as Hcan
    by (intros s'; by apply can_turn).
  assert (s_runner s = RStopping -> can_go_on d i s p) as Hrun.
  { intros Hr. right. left. exists (set_object i (set_runner RReturned s) p). cbn. rewrite Hs. cbn. unfold runner_step. by rewrite Hr. }
  destruct (s_loop s) eqn:El; try done;
    try (eapply Hcan; [done|unfold loop_step; rewrite El; by cbn]);
    try (destruct (p_picking p) eqn:Hpk; [by right; right; right; rewrite El|eapply Hcan; [done|unfold loop_step; rewrite El; by cbn]]).
  - by right; right; left.
  - destruct (HtE eq_refl) as [-> Ht]. eapply Hcan; [done|]. unfold loop_step. rewrite El. cbn. by rewrite Ht.
  - destruct Hok as [_ [Hr|Hr]]; [by apply Hrun|]. eapply Hcan; [done|]. unfold loop_step. rewrite El. by rewrite decide_True.
  - destruct (HtA eq_refl) as [-> Ht]. eapply Hcan; [done|]. unfold loop_step. rewrite El. cbn. by rewrite Ht.
  - destruct Hok as [_ [Hr|Hr]]; [by apply Hrun|]. eapply Hcan; [done|]. unfold loop_step. rewrite El. by rewrite decide_True.
Qed.

(** C38. No wakeup is lost. Whenever an [Activate] or an [Evict] waits, then
    after at most ten further turns of that session's lifecycle goroutine, in
    any interleaving with everything else and not counting the times the idle
    timer is put off, the channel the call waits on is closed, so that the
    call returns, or the goroutine is over because the session was removed or
    the pool shuts down. And until then some such turn, or the runner's end
    that it waits for, can run, unless the goroutine was never started or its
    save waits for a victim being picked. *)
Theorem waiters_released cap evicted idle now l p t c d i ch l' p' :
  steps l (New cap evicted idle now) = Some p -> p_calls p !! t = Some c -> waits_for c = Some (d, i, ch) ->
  (exists s, p_objects p !! i = Some s /\ (ch ∈ closed_of d s \/ s_loop s = LExit \/ can_go_on d i s p))
  /\ (steps l' p = Some p' -> (10 <= turns_of i l')%nat ->
       exists s', p_objects p' !! i = Some s' /\ (ch ∈ closed_of d s' \/ s_loop s' = LExit)).
Proof.
  intros Hl Ht Hw. pose proof (steps_ok _ _ _ (New_reach_ok cap evicted idle now) Hl) as Hp. pose proof (po_calls _ (ro_pool _ Hp) _ _ Ht) as Hc.
  destruct (waiting_within _ _ _ _ _ Hp Hc Hw) as (s & Hs & Hwi). split.
  - exists s. split; [done|]. destruct (decide (ch ∈ closed_of d s)) as [|Hopen]; [by left|right].
    destruct (decide (s_loop s = LExit)) as [|Hne]; [by left|right]. by eapply waiting_goes_on.
  - intros Hl' Hn. by eapply within_run.
Qed.

(** [Remove 1] waits for the session's end. *)
Lemma waiters_released_witness :
  exists p p' s', steps SessionsRuns.to_removal (New 0 false 0 0) = Some p /\ p_calls p !! 2%nat = Some (CEvictWait 1 1 None)
    /\ steps SessionsRuns.removed_1 p = Some p' /\ p_objects p' !! 1%nat = Some s' /\ (1%nat ∈ evictedClosed s' \/ s_loop s' = LExit).
Proof.
  pose (p := SessionsRuns.after SessionsRuns.to_removal (New 0 false 0 0)). pose (p' := SessionsRuns.after SessionsRuns.removed_1 p).
  assert (p_calls p !! 2%nat = Some (CEvictWait 1 1 None)) as Hc by (vm_compute; reflexivity).
  assert ((10 <= turns_of 1 SessionsRuns.removed_1)%nat) as Hn by (apply Nat.leb_le; vm_compute; reflexivity).
  destruct (proj2 (waiters_released 0 false 0 0 _ p 2%nat _ Eviction 1%nat 1%nat _ p' SessionsRuns.to_removal_runs Hc eq_refl) SessionsRuns.removed_1_runs Hn)
    as (s' & Hs' & Hend).
  exists p, p', s'. split; [exact SessionsRuns.to_removal_runs|]. split; [exact Hc|]. split; [exact SessionsRuns.removed_1_runs|]. split; [exact Hs'|exact Hend].
Defined.

End SessionsProps.
