(* ===== verification/SessionsCap.v ===== *)
(** * Session lifecycles: the cap on active sessions *)
From Stdlib Require Import ZArith Lia.
From stdpp Require Import prelude gmap list.
From S2P Require Import Prelude Sessions SessionsInv SessionsProps.

Module SessionsCap.
Import Sessions SessionsInv SessionsProps.

Local Open Scope Z_scope.

(** ** Counting *)

Definition count (f : nat -> bool) (X : gset nat) : Z := Z.of_nat (size (filter (fun i => f i = true) X)).

Lemma count_sub f g X Y : (forall i, i ∈ X -> f i = true -> g i = true /\ i ∈ Y) -> count f X <= count g Y.
Proof. intros H. unfold count. apply inj_le, subseteq_size. intros i [Hf Hi]%elem_of_filter. apply elem_of_filter. by apply H. Qed.

Lemma count_le f g X Y : X ⊆ Y -> (forall i, i ∈ X -> f i = true -> g i = true) -> count f X <= count g Y.
Proof. intros HXY Hfg. apply count_sub. intros i Hi Hf. split; [by apply Hfg|by apply HXY]. Qed.

Lemma count_in f x X : x ∈ X -> f x = true -> count f (X ∖ {[x]}) + 1 = count f X.
Proof.
  intros Hx Hf. unfold count. assert (filter (fun i => f i = true) X = {[x]} ∪ filter (fun i => f i = true) (X ∖ {[x]})) as ->.
  { apply set_eq. intros i. rewrite elem_of_union, elem_of_singleton, !elem_of_filter, elem_of_difference, elem_of_singleton.
    destruct (decide (i = x)) as [->|]; tauto. }
  rewrite size_union, size_singleton; [lia|]. intros i ->%elem_of_singleton [_ [_ Hn]%elem_of_difference]%elem_of_filter.
  by apply Hn, elem_of_singleton.
Qed.

Lemma count_out f x X : f x = false -> count f (X ∖ {[x]}) = count f X.
Proof.
  intros Hf. apply Z.le_antisymm; apply inj_le, subseteq_size; intros i [Hi Hx]%elem_of_filter; apply elem_of_filter; (split; [done|]).
  - by apply elem_of_difference in Hx as [? _].
  - apply elem_of_difference. split; [done|]. intros ->%elem_of_singleton. congruence.
Qed.

Lemma count_drop f x X : count f X <= count f (X ∖ {[x]}) + 1.
Proof.
  destruct (decide (x ∈ X)) as [Hx|Hx]; [destruct (f x) eqn:Hf|]; [by rewrite (count_in f x X)|rewrite count_out by done; lia|].
  assert (X ∖ {[x]} = X) as -> by (apply set_eq; intros i; rewrite elem_of_difference, elem_of_singleton; naive_solver). lia.
Qed.

(** ** The invariant *)

(** Session [i] is active. *)
Definition act (p : Pool) (i : nat) : bool :=
  match p_objects p !! i with Some s => bool_decide (lcState s = stateActive) | None => false end.
#[local] Abbreviation actives p := (count (act p)).

(** The calls that hold [capMu]. *)
Definition holding (c : call) : bool :=
  match c with
  | CCheck _ | CTouch _ | CPick _ _ _ _ | CEvict _ (Some _) | CEvictWait _ _ (Some _) => true
  | CActivate _ held | CActivateWait _ _ held | CReady _ held => held
  | _ => false
  end.

Definition uncapped (c : call) : bool :=
  match c with CActivate _ held | CActivateWait _ _ held | CReady _ held => negb held | _ => false end.

(** What the holder knows of the sessions. *)
Definition held_ok (p : Pool) (c : call) : Prop :=
  match c with
  | CPick id todo n victim =>
      act p id = false /\ NoDup todo /\ list_to_set todo ⊆ p_sessions p
      /\ n + actives p (list_to_set todo) <= p_cap p /\ actives p (p_sessions p ∖ list_to_set todo) <= n
      /\ match victim with
         | None => n <= 0
         | Some (v, _) => actives p (p_sessions p ∖ list_to_set todo ∖ {[v]}) < n
         end
  | CEvict v (Some id) => act p id = false /\ actives p (p_sessions p ∖ {[v]}) < p_cap p
  | CEvictWait v ch (Some id) =>
      act p id = false /\ actives p (p_sessions p ∖ {[v]}) < p_cap p
      /\ forall s, p_objects p !! v = Some s -> lcState s = stateActive -> ch ∉ evictedClosed s
  | CActivate id true => act p id = false /\ actives p (p_sessions p) < p_cap p
  | CActivateWait id ch true => id ∈ p_sessions p -> act p id = false -> actives p (p_sessions p) < p_cap p
  | _ => True
  end.

(** A session on its way to become active: signalled, or past the signal. *)
Definition past_signal (s : Session) : Prop := (s_loop s = LWoke /\ removedCh s = false) \/ s_loop s = LUp.
Definition pending (s : Session) : Prop := activateCh s = true \/ past_signal s.

Record cap_ok (p : Pool) : Prop := CapOK {
  k_cap : 0 < p_cap p;
  k_mutex : forall t c, p_calls p !! t = Some c -> holding c = true -> p_capMu p = Some t;
  k_capped : forall t c, p_calls p !! t = Some c -> uncapped c = false;
  k_picking : forall t id todo n v, p_calls p !! t = Some (CPick id todo n v) -> p_picking p = true;
  k_held : forall t c, p_calls p !! t = Some c -> held_ok p c;
  k_pending : forall i s, p_objects p !! i = Some s -> pending s ->
    lcState s = stateEvicted /\ exists t, p_calls p !! t = Some (CActivateWait i (activeCh s) true);
  k_single : forall i s, p_objects p !! i = Some s -> past_signal s -> activateCh s = false;
  k_count : actives p (p_sessions p) <= p_cap p;
}.

(** ** Changes that make no session active *)

Record calmer (p p' : Pool) : Prop := Calmer {
  ca_sessions : p_sessions p' = p_sessions p;
  ca_cap : p_cap p' = p_cap p;
  ca_act : forall i, act p' i = true -> act p i = true;
  ca_closed : forall i s', p_objects p' !! i = Some s' -> lcState s' = stateActive ->
    exists s, p_objects p !! i = Some s /\ lcState s = stateActive /\ evictedClosed s' = evictedClosed s;
}.

Lemma calmer_count p p' X : calmer p p' -> actives p' X <= actives p X.
Proof. intros H. apply count_le; [done|]. intros i _. apply H. Qed.

Lemma calmer_false p p' i : calmer p p' -> act p i = false -> act p' i = false.
Proof. intros H Hf. destruct (act p' i) eqn:E; [|done]. apply H in E. congruence. Qed.

Lemma held_calmer p p' c : calmer p p' -> actives p (p_sessions p) <= p_cap p -> held_ok p c -> held_ok p' c.
Proof.
  intros H Hc Hh. pose proof (fun X => calmer_count p p' X H) as Hle. pose proof (fun i => calmer_false p p' i H) as Hf.
  destruct c as [id|id|id|id|id todo n victim|v k|v ch k|id held|id ch held|id held|id|id|idle|id|r]; try done; cbn in *; rewrite ?(ca_sessions _ _ H), ?(ca_cap _ _ H).
  - destruct Hh as (H1 & H2 & H3 & H4 & H5 & H6). split; [by apply Hf|]. split; [done|]. split; [done|].
    pose proof (Hle (list_to_set todo)). pose proof (Hle (p_sessions p ∖ list_to_set todo)). split; [lia|]. split; [lia|].
    destruct victim as [[v ?]|]; [|done]. pose proof (Hle (p_sessions p ∖ list_to_set todo ∖ {[v]})). lia.
  - destruct k as [id|]; [|done]. destruct Hh as [H1 H2]. split; [by apply Hf|]. pose proof (Hle (p_sessions p ∖ {[v]})). lia.
  - destruct k as [id|]; [|done]. destruct Hh as (H1 & H2 & H3). split; [by apply Hf|]. pose proof (Hle (p_sessions p ∖ {[v]})). split; [lia|].
    intros s' Hs' Ha. destruct (ca_closed _ _ H _ _ Hs' Ha) as (s & Hs & Has & ->). by apply H3.
  - destruct held; [|done]. destruct Hh as [H1 H2]. split; [by apply Hf|]. pose proof (Hle (p_sessions p)). lia.
  - destruct held; [|done]. intros Hin Hact. pose proof (Hle (p_sessions p)). destruct (act p id) eqn:E; [|specialize (Hh Hin eq_refl); lia].
    pose proof (count_in (act p) id (p_sessions p) Hin E). pose proof (Hle (p_sessions p ∖ {[id]})). rewrite (count_out (act p') id) in * by done. lia.
Qed.

Lemma calmer_same p p' : p_sessions p' = p_sessions p -> p_cap p' = p_cap p -> p_objects p' = p_objects p -> calmer p p'.
Proof. intros E1 E2 E3. constructor; [done|done|unfold act; by rewrite E3|]. rewrite E3. eauto. Qed.

Lemma calmer_object p i s s' :
  p_objects p !! i = Some s -> (lcState s' = stateActive -> lcState s = stateActive /\ evictedClosed s' = evictedClosed s) ->
  calmer p (set_object i s' p).
Proof.
  intros Hs Hst. constructor; try done.
  - intros j. unfold act. cbn. destruct (p_objects p !! j) as [x|] eqn:Hj.
    + destruct (lookup_update (p_objects p) i j s' x Hj) as (z & -> & [[-> _]|[-> ->]]); [done|]. replace x with s by congruence.
      intros Ha%bool_decide_eq_true. apply bool_decide_eq_true. by apply Hst.
    + destruct (decide (i = j)) as [->|Hne]; [congruence|]. rewrite list_lookup_insert_ne by done. by rewrite Hj.
  - intros j x [(<- & <- & _)|(_ & Hx)]%list_lookup_insert_Some Ha; [|by eauto]. exists s. split; [done|]. by apply Hst.
Qed.

(** A session changes without becoming active. *)
Lemma cap_object p i s s' :
  cap_ok p -> p_objects p !! i = Some s ->
  (lcState s' = stateActive -> lcState s = stateActive /\ evictedClosed s' = evictedClosed s) ->
  (pending s' -> lcState s' = stateEvicted /\ exists t, p_calls p !! t = Some (CActivateWait i (activeCh s') true)) ->
  (past_signal s' -> activateCh s' = false) ->
  cap_ok (set_object i s' p).
Proof.
  intros [K1 K2 K3 K4 K5 K6 K7 K8] Hs Hst Hpe Hpa. pose proof (calmer_object p i s s' Hs Hst) as Hc. constructor; try done.
  - intros t c Ht. eapply held_calmer; [done|done|by eapply K5].
  - intros j x [(<- & <- & _)|(_ & Hx)]%list_lookup_insert_Some Hp; [by apply Hpe|by apply K6].
  - intros j x [(<- & <- & _)|(_ & Hx)]%list_lookup_insert_Some Hp; [by apply Hpa|by eapply K7].
  - pose proof (calmer_count p (set_object i s' p) (p_sessions p) Hc). cbn. lia.
Qed.

(** A call goes on; the sessions stay as they are. *)
Definition turned (t : nat) (c : call) (mu : option nat) (picking : bool) (p : Pool) : Pool :=
  MkPool (p_objects p) (p_sessions p) (p_bootstrap p) (p_cap p) mu picking (<[t := c]> (p_calls p)).

Lemma cap_call p t c c' mu picking :
  cap_ok p -> p_calls p !! t = Some c -> held_ok p c' -> uncapped c' = false ->
  (holding c' = true -> mu = Some t) -> (forall t0, t0 <> t -> p_capMu p = Some t0 -> mu = Some t0) ->
  (forall id todo n v, c' = CPick id todo n v -> picking = true) ->
  (picking = false -> p_picking p = false \/ p_capMu p = Some t) ->
  (forall i s, p_objects p !! i = Some s -> pending s -> c <> CActivateWait i (activeCh s) true) ->
  cap_ok (turned t c' mu picking p).
Proof.
  intros [K1 K2 K3 K4 K5 K6 K7 K8] Ht Hh Hu Hm1 Hm2 Hp1 Hp2 Hpe.
  assert (forall c0, held_ok p c0 -> held_ok (turned t c' mu picking p) c0) as Hheld by (intros c0; apply held_calmer; [by apply calmer_same|done]).
  constructor; try done; cbn.
  - intros t0 c0 [(<- & <- & _)|(Hne & Hc0)]%list_lookup_insert_Some Hc; [by apply Hm1|]. apply Hm2; [done|by eapply K2].
  - intros t0 c0 [(<- & <- & _)|(_ & Hc0)]%list_lookup_insert_Some; [done|by eapply K3].
  - intros t0 id todo n v [(<- & -> & _)|(Hne & Hc0)]%list_lookup_insert_Some; [by eapply Hp1|].
    destruct picking; [done|]. destruct (Hp2 eq_refl) as [Hp|Hp]; [by rewrite (K4 _ _ _ _ _ Hc0) in Hp|].
    pose proof (K2 _ _ Hc0 eq_refl) as Hmu. congruence.
  - intros t0 c0 [(<- & <- & _)|(_ & Hc0)]%list_lookup_insert_Some; apply Hheld; [done|by eapply K5].
  - intros i s Hs Hps. destruct (K6 _ _ Hs Hps) as [Hst (t0 & Ht0)]. split; [done|]. exists t0. rewrite list_lookup_insert_ne; [done|].
    intros <-. apply (Hpe _ _ Hs Hps). congruence.
Qed.

Lemma pending_holder p i s t c :
  cap_ok p -> p_objects p !! i = Some s -> pending s -> p_calls p !! t = Some c -> holding c = true -> c = CActivateWait i (activeCh s) true.
Proof.
  intros Hp Hs Hpe Ht Hc. destruct (k_pending _ Hp _ _ Hs Hpe) as [_ (t0 & Ht0)].
  pose proof (k_mutex _ Hp _ _ Ht Hc) as E1. pose proof (k_mutex _ Hp _ _ Ht0 eq_refl) as E2. congruence.
Qed.

(** ** The lifecycle goroutine *)

(** Becoming active: the holder of the lock waits for just this. *)
Lemma cap_transition p i s now :
  cap_ok p -> p_objects p !! i = Some s -> s_loop s = LUp -> cap_ok (set_object i (set_loop LSaveA (transition_flip now s)) p).
Proof.
  intros Hp Hs El. assert (past_signal s) as Hpast by (by right). assert (pending s) as Hpe by (by right).
  destruct (k_pending _ Hp _ _ Hs Hpe) as [Hst (t & Ht)]. pose proof (k_mutex _ Hp _ _ Ht eq_refl) as Hmu.
  pose proof (k_single _ Hp _ _ Hs Hpast) as Htok. pose proof Hp as [K1 K2 K3 K4 K5 K6 K7 K8]. set (s' := set_loop _ _). set (p' := set_object i s' p).
  pose proof (lookup_lt_Some _ _ _ Hs) as Hlt.
  assert (forall j, j <> i -> act p' j = act p j) as Hact by (intros j Hne; unfold act; cbn; by rewrite list_lookup_insert_ne).
  assert (act p' i = true) as Hi by (unfold act; cbn; by rewrite list_lookup_insert_eq).
  assert (act p i = false) as Hi0 by (unfold act; rewrite Hs, Hst; done).
  assert (actives p' (p_sessions p ∖ {[i]}) <= actives p (p_sessions p)) as Hle.
  { apply count_sub. intros j [Hj Hne]%elem_of_difference Ha. rewrite Hact in Ha by (intros ->; by apply Hne, elem_of_singleton). done. }
  constructor; try done.
  - intros t0 c0 Hc0. change (p_calls p !! t0 = Some c0) in Hc0. destruct (holding c0) eqn:Hh; [|by destruct c0 as [| | | | |? []|? ? []|? []|? ? []|? []| | | | |]].
    pose proof (K2 _ _ Hc0 Hh) as E. assert (t0 = t) as -> by congruence. assert (c0 = CActivateWait i (activeCh s) true) as -> by congruence. intros _ E'. fold p' in E'. by rewrite Hi in E'.
  - intros j x [(<- & <- & _)|(_ & Hx)]%list_lookup_insert_Some Hpx; [|by apply K6]. exfalso. destruct Hpx as [Hpx|[[Hpx _]|Hpx]]; cbn in Hpx; congruence.
  - intros j x [(<- & <- & _)|(_ & Hx)]%list_lookup_insert_Some Hpx; [|by eapply K7]. exfalso. destruct Hpx as [[Hpx _]|Hpx]; cbn in Hpx; congruence.
  - cbn. destruct (decide (i ∈ p_sessions p)) as [Hin|Hin].
    + pose proof (K5 _ _ Ht Hin Hi0). pose proof (count_drop (act p') i (p_sessions p)). lia.
    + assert (p_sessions p ∖ {[i]} = p_sessions p) as E by (apply set_eq; intros j; rewrite elem_of_difference, elem_of_singleton; naive_solver). rewrite E in Hle. lia.
Qed.

Lemma cap_turn p i s s' :
  reach_ok p -> cap_ok p -> p_objects p !! i = Some s -> turn s s' -> cap_ok (set_object i s' p).
Proof.
  intros Hr Hp Hs Ht. pose proof (po_objects _ (ro_pool _ Hr) _ _ Hs) as [Hok _ _ _]. unfold loop_ok in Hok.
  pose proof (k_pending _ Hp _ _ Hs) as Hpe. pose proof (k_single _ Hp _ _ Hs) as Hsi. unfold pending, past_signal in *.
  destruct Ht as [El Es|El Es|r El ->|El Er|El Er|El|El|El Ev|El|nw El|r El ->|El Er|El|El|El|El Erm|El Ea|El Erm|El Erm|nw El|El|El|El Er];
    [..|by apply cap_transition| | |]; rewrite El in Hok; destruct Hok as [(Hst & _) _];
    (apply (cap_object p i s); [done|done| | |]); unfold pending, past_signal; session_cbn; rewrite ?El in *; try done;
    try (intros [Htok|[[? ?]|?]]; [apply Hpe; by left|congruence..]); try (intros [[? ?]|?]; congruence); try congruence.
  all: try (intros [Htok|[[? ?]|?]]; [exfalso; destruct (Hpe (or_introl Htok)); congruence|repeat case_match; congruence..]).
  all: try (intros [[? ?]|?]; repeat case_match; congruence).
  - intros _. apply Hpe. by left.
  - intros _. apply Hpe. right. by left.
  - intros _. apply Hsi. by left.
Qed.


(** ** The calls *)

Lemma active_open s : sess_ok s -> lcState s = stateActive -> evictedCh s ∉ evictedClosed s.
Proof.
  intros [H _ _ _] Hst Hin. unfold loop_ok in H. destruct (s_loop s); destruct H as [(Hs & HA & HE) _]; try done; apply HE in Hin; congruence.
Qed.

(** While the lock's holder is at none of its waits, nothing is pending. *)
Lemma nothing_pending p t c i s :
  cap_ok p -> p_calls p !! t = Some c -> holding c = true -> (forall id ch h, c <> CActivateWait id ch h) ->
  p_objects p !! i = Some s -> ~ pending s.
Proof. intros Hp Ht Hc Hne Hs Hpe. by destruct (Hne _ _ _ (pending_holder _ _ _ _ _ Hp Hs Hpe Ht Hc)). Qed.

(** A session not involved in the count changes its clock or signals only. *)
Lemma cap_plain p i s s' :
  cap_ok p -> p_objects p !! i = Some s -> lcState s' = lcState s -> evictedClosed s' = evictedClosed s ->
  (pending s' -> pending s) -> (past_signal s' -> past_signal s) -> activeCh s' = activeCh s -> (activateCh s' = true -> activateCh s = true) ->
  cap_ok (set_object i s' p).
Proof.
  intros Hp Hs E1 E2 H1 H2 E3 H3. apply (cap_object p i s); try done.
  - intros Ha. split; [congruence|done].
  - intros Hpe. rewrite E1, E3. by apply (k_pending _ Hp); [|apply H1].
  - intros Hpa. destruct (activateCh s') eqn:E; [|done]. pose proof (k_single _ Hp _ _ Hs (H2 Hpa)). specialize (H3 eq_refl). congruence.
Qed.

(** What the pick knows after one more session. *)
Lemma held_pick p id x todo n victim s n' victim' :
  held_ok p (CPick id (x :: todo) n victim) -> p_objects p !! x = Some s -> pick_one id x s n victim = (n', victim') ->
  held_ok p (CPick id todo n' victim').
Proof.
  intros (H1 & H2 & H3 & H4 & H5 & H6) Hx Hpick. apply NoDup_cons in H2 as [Hnin H2]. cbn [held_ok list_to_set] in *.
  set (X := list_to_set todo) in *. assert (x ∈ p_sessions p) as Hxs by (apply H3, elem_of_union; left; by apply elem_of_singleton).
  assert (x ∉ X) as HxX by (unfold X; by rewrite elem_of_list_to_set).
  assert (X ⊆ p_sessions p) as HX by (intros j Hj; apply H3, elem_of_union; by right).
  assert (({[x]} ∪ X) ∖ {[x]} = X) as EX by (apply set_eq; intros j; rewrite elem_of_difference, elem_of_union, elem_of_singleton; destruct (decide (j = x)) as [->|]; tauto).
  assert (p_sessions p ∖ ({[x]} ∪ X) = (p_sessions p ∖ X) ∖ {[x]}) as ES
    by (apply set_eq; intros j; rewrite !elem_of_difference, elem_of_union, elem_of_singleton; tauto).
  unfold pick_one in Hpick. assert (act p x = bool_decide (lcState s = stateActive)) as Ha by (unfold act; by rewrite Hx).
  assert (x ∈ p_sessions p ∖ X) as Hin by (by apply elem_of_difference).
  destruct (decide (lcState s = stateActive)) as [Hst|Hst].
  - rewrite bool_decide_eq_true_2 in Ha by done. rewrite decide_False in Hpick by (intros ->; congruence).
    pose proof (count_in (act p) x ({[x]} ∪ X) ltac:(apply elem_of_union; left; by apply elem_of_singleton) Ha) as C1. rewrite EX in C1.
    pose proof (count_in (act p) x (p_sessions p ∖ X) Hin Ha) as C2. rewrite <- ES in C2. injection Hpick as <- <-.
    do 3 (split; [done|]). split; [lia|]. split; [lia|]. destruct victim as [[v oldest]|].
    + destruct (Before _ _); [rewrite <- ES; lia|].
      pose proof (count_drop (act p) x (p_sessions p ∖ X ∖ {[v]})) as C3.
      assert (p_sessions p ∖ X ∖ {[v]} ∖ {[x]} = p_sessions p ∖ ({[x]} ∪ X) ∖ {[v]}) as E3
        by (apply set_eq; intros j; rewrite !elem_of_difference, elem_of_union, !elem_of_singleton; tauto).
      rewrite E3 in C3. lia.
    + rewrite <- ES. lia.
  - rewrite bool_decide_eq_false_2 in Ha by done. injection Hpick as <- <-.
    pose proof (count_out (act p) x ({[x]} ∪ X) Ha) as C1. rewrite EX in C1.
    pose proof (count_out (act p) x (p_sessions p ∖ X) Ha) as C2. rewrite <- ES in C2.
    do 3 (split; [done|]). split; [lia|]. split; [lia|]. destruct victim as [[v oldest]|]; [|done].
    pose proof (count_out (act p) x (p_sessions p ∖ X ∖ {[v]}) Ha) as C3.
    assert (p_sessions p ∖ X ∖ {[v]} ∖ {[x]} = p_sessions p ∖ ({[x]} ∪ X) ∖ {[v]}) as E3
      by (apply set_eq; intros j; rewrite !elem_of_difference, elem_of_union, !elem_of_singleton; tauto).
    rewrite E3 in C3. lia.
Qed.

(** What it concludes. *)
Lemma held_picked p id n victim :
  0 < p_cap p -> held_ok p (CPick id [] n victim) ->
  held_ok p (if n <? p_cap p then CActivate id true
             else match victim with Some (v, _) => CEvict v (Some id) | None => CActivate id true end).
Proof.
  intros Hcap (H1 & _ & _ & H4 & H5 & H6). cbn [list_to_set] in *.
  assert (p_sessions p ∖ ∅ = p_sessions p) as E by (apply set_eq; intros j; rewrite elem_of_difference; split; [by intros [? _]|intros ?; split; [done|apply not_elem_of_empty]]).
  rewrite E in *. assert (0 <= actives p ∅) by (unfold count; lia).
  destruct (Z.ltb_spec n (p_cap p)); [split; [done|lia]|]. destruct victim as [[v oldest]|]; cbn; split; try done; lia.
Qed.

(** Removing a session, and minting one. *)
Lemma cap_remove p t id :
  cap_ok p -> p_picking p = false -> p_calls p !! t = Some (CRemove id) ->
  cap_ok (with_call t (CClose id) (set_sessions (p_sessions p ∖ {[id]}) p)).
Proof.
  intros [K1 K2 K3 K4 K5 K6 K7 K8] Hpk Ht. set (p' := with_call _ _ _).
  assert (forall Y, actives p' (p_sessions p' ∖ Y) <= actives p (p_sessions p ∖ Y)) as Hle.
  { intros Y. apply count_sub. intros j [Hj HY]%elem_of_difference Ha. split; [done|]. apply elem_of_difference. split; [|done].
    by apply elem_of_difference in Hj as [? _]. }
  assert (actives p' (p_sessions p') <= actives p (p_sessions p)) as Hle0.
  { apply count_le; [|done]. cbn. intros j [? _]%elem_of_difference. done. }
  constructor; try done; cbn [p_calls p' with_call set_calls set_sessions].
  - intros t0 c [(<- & <- & _)|(_ & Hc)]%list_lookup_insert_Some; [done|by apply K2].
  - intros t0 c [(<- & <- & _)|(_ & Hc)]%list_lookup_insert_Some; [done|by eapply K3].
  - intros t0 i todo n v [(? & ? & _)|(_ & Hc)]%list_lookup_insert_Some; [done|by eapply K4].
  - intros t0 c [(<- & <- & _)|(_ & Hc)]%list_lookup_insert_Some; [done|]. pose proof (K5 _ _ Hc) as Hh.
    destruct c as [i|i|i|i|i todo n victim|v k|v ch k|i held|i ch held|i held|i|i|idle|i|r]; try done.
    + exfalso. pose proof (K4 _ _ _ _ _ Hc). congruence.
    + destruct k as [i|]; [|done]. cbn in Hh |- *. destruct Hh as [? ?]. split; [done|]. pose proof (Hle {[v]}) as Hq. cbn in Hq. lia.
    + destruct k as [i|]; [|done]. cbn in Hh |- *. destruct Hh as (? & ? & ?). split; [done|]. split; [|done]. pose proof (Hle {[v]}) as Hq. cbn in Hq. lia.
    + destruct held; [|done]. cbn in Hh |- *. destruct Hh as [? ?]. split; [done|]. cbn in Hle0. lia.
    + destruct held; [|done]. cbn in Hh |- *. intros [Hin _]%elem_of_difference Hf. specialize (Hh Hin Hf). cbn in Hle0. lia.
  - intros i s Hs Hpe. destruct (K6 _ _ Hs Hpe) as [Hst (t0 & Ht0)]. split; [done|]. exists t0. rewrite list_lookup_insert_ne; [done|]. intros <-. congruence.
  - cbn in Hle0 |- *. lia.
Qed.

Lemma cap_mint p t idle now :
  reach_ok p -> cap_ok p -> p_picking p = false -> p_calls p !! t = Some (CMint idle) ->
  cap_ok (with_call t (CSupervise (length (p_objects p))) (mint idle now p)).
Proof.
  intros Hr [K1 K2 K3 K4 K5 K6 K7 K8] Hpk Ht. set (p' := with_call _ _ _). set (n := length (p_objects p)) in *.
  assert (forall j x, p_objects p' !! j = Some x -> p_objects p !! j = Some x \/ (j = n /\ x = buildSession idle now)) as Hnew.
  { intros j x [Hx|[Hge Hx]]%lookup_app_Some; [by left|right]. apply list_lookup_singleton_Some in Hx as [Hj <-]. split; [subst n; lia|done]. }
  assert (forall j, act p' j = true -> act p j = true) as Hact.
  { intros j. unfold act. destruct (p_objects p' !! j) as [x|] eqn:Hx; [|done]. apply Hnew in Hx as [-> |[-> ->]]; done. }
  assert (forall j, act p j = true -> act p' j = true) as Hact'.
  { intros j. unfold act. destruct (p_objects p !! j) as [x|] eqn:Hx; [|done]. cbn. by rewrite (lookup_app_l_Some _ _ _ _ Hx). }
  assert (forall j, act p j = false -> act p' j = false) as Hf by (intros j Hj; destruct (act p' j) eqn:E; [apply Hact in E; congruence|done]).
  assert (act p' n = false) as Hn.
  { destruct (act p' n) eqn:E; [|done]. apply Hact in E. unfold act in E. destruct (p_objects p !! n) eqn:Hx; [|done]. apply lookup_lt_Some in Hx. subst n. lia. }
  assert (forall Y, actives p' (p_sessions p' ∖ Y) <= actives p (p_sessions p ∖ Y)) as Hle.
  { intros Y. apply count_sub. intros j [Hj HY]%elem_of_difference Ha. split; [by apply Hact|]. apply elem_of_difference. split; [|done].
    cbn in Hj. apply elem_of_union in Hj as [->%elem_of_singleton|?]; [fold n in Ha; congruence|done]. }
  assert (actives p' (p_sessions p') <= actives p (p_sessions p)) as Hle0.
  { apply count_sub. intros j Hj Ha. split; [by apply Hact|]. cbn in Hj. apply elem_of_union in Hj as [->%elem_of_singleton|?]; [fold n in Ha; congruence|done]. }
  constructor; try done; cbn [p_calls p' with_call set_calls mint].
  - intros t0 c [(<- & <- & _)|(_ & Hc)]%list_lookup_insert_Some; [done|by apply K2].
  - intros t0 c [(<- & <- & _)|(_ & Hc)]%list_lookup_insert_Some; [done|by eapply K3].
  - intros t0 i todo m v [(? & ? & _)|(_ & Hc)]%list_lookup_insert_Some; [done|by eapply K4].
  - intros t0 c [(<- & <- & _)|(_ & Hc)]%list_lookup_insert_Some; [done|]. pose proof (K5 _ _ Hc) as Hh.
    destruct c as [i|i|i|i|i todo m victim|v k|v ch k|i held|i ch held|i held|i|i|idl|i|r]; try done.
    + exfalso. pose proof (K4 _ _ _ _ _ Hc). congruence.
    + destruct k as [i|]; [|done]. destruct Hh as [? ?]. split; [by apply Hf|]. pose proof (Hle {[v]}). change (p_cap p') with (p_cap p). lia.
    + destruct k as [i|]; [|done]. destruct Hh as (? & ? & Hv). split; [by apply Hf|]. pose proof (Hle {[v]}). split; [change (p_cap p') with (p_cap p); lia|].
      intros x [Hx|[_ ->]]%Hnew; [by apply Hv|done].
    + destruct held; [|done]. destruct Hh as [? ?]. split; [by apply Hf|]. change (p_cap p') with (p_cap p). lia.
    + destruct held; [|done]. intros Hin Hfi. change (p_cap p') with (p_cap p).
      destruct (po_calls _ (ro_pool _ Hr) _ _ Hc) as (x & Hx & _). apply lookup_lt_Some in Hx. fold n in Hx.
      cbn in Hin. apply elem_of_union in Hin as [Hin%elem_of_singleton|Hin]; [fold n in Hin; lia|].
      destruct (act p i) eqn:E; [apply Hact' in E; congruence|]. specialize (Hh Hin E). lia.
  - intros i s [Hs|[-> ->]]%Hnew Hpe; [|by destruct Hpe as [?|[[? ?]|?]]]. destruct (K6 _ _ Hs Hpe) as [Hst (t0 & Ht0)]. split; [done|]. exists t0. rewrite list_lookup_insert_ne; [done|]. intros <-. congruence.
  - intros i s [Hs|[-> ->]]%Hnew; [by eapply K7|done].
  - cbn in Hle0 |- *. lia.
Qed.

(** A call that goes on with the locks as they are, or lets go of [capMu]. *)
Lemma cap_go p t c c' :
  cap_ok p -> p_calls p !! t = Some c -> held_ok p c' -> uncapped c' = false -> (holding c' = true -> holding c = true) ->
  (forall id todo n v, c' = CPick id todo n v -> p_picking p = true) ->
  (forall i s, p_objects p !! i = Some s -> pending s -> c <> CActivateWait i (activeCh s) true) ->
  cap_ok (turned t c' (p_capMu p) (p_picking p) p).
Proof.
  intros Hp Ht Hh Hu Hc Hpk Hpe. eapply cap_call; try done; [|by left]. intros Hc'. by apply (k_mutex _ Hp _ _ Ht), Hc.
Qed.

Lemma cap_release p t c r :
  cap_ok p -> p_calls p !! t = Some c -> holding c = true -> (forall i s, p_objects p !! i = Some s -> pending s -> c <> CActivateWait i (activeCh s) true) ->
  cap_ok (turned t (CDone r) None (p_picking p) p).
Proof.
  intros Hp Ht Hc Hpe. eapply cap_call; try done; [|by left]. intros t0 Hne Hmu. pose proof (k_mutex _ Hp _ _ Ht Hc). congruence.
Qed.

Lemma act_lookup p i s : p_objects p !! i = Some s -> act p i = bool_decide (lcState s = stateActive).
Proof. intros H. unfold act. by rewrite H. Qed.

(** The victim's wait is over: a place is free. *)
Lemma held_evicted p v ch id s :
  held_ok p (CEvictWait v ch (Some id)) -> p_objects p !! v = Some s -> ch ∈ evictedClosed s -> held_ok p (CActivate id true).
Proof.
  intros (H1 & H2 & H3) Hs Hin. split; [done|]. rewrite count_out in H2; [done|]. rewrite (act_lookup _ _ _ Hs). apply bool_decide_eq_false.
  intros Ha. by apply (H3 _ Hs Ha).
Qed.

(** The session waited for has become active: nothing is pending on it. *)
Lemma woken_not_pending p id ch s held :
  reach_ok p -> cap_ok p -> p_objects p !! id = Some s -> ch ∈ activeClosed s ->
  forall i x, p_objects p !! i = Some x -> pending x -> CActivateWait id ch held <> CActivateWait i (activeCh x) true.
Proof.
  intros Hr Hp Hs Hin i x Hx Hpe [= -> -> _]. replace x with s in * by congruence. destruct (k_pending _ Hp _ _ Hs Hpe) as [Hst _].
  pose proof (closed_active s (po_objects _ (ro_pool _ Hr) _ _ Hs) Hin) as Ha. unfold is_active in Ha. congruence.
Qed.

Lemma cap_activate p t id s :
  reach_ok p -> cap_ok p -> p_calls p !! t = Some (CActivate id true) -> p_objects p !! id = Some s ->
  cap_ok (with_call t (CActivateWait id (activeCh s) true) (set_object id (activate_section s) p)).
Proof.
  intros Hr Hp Ht Hs. destruct (k_held _ Hp _ _ Ht) as [Ha Hc]. rewrite (act_lookup _ _ _ Hs) in Ha. apply bool_decide_eq_false in Ha.
  assert (~ pending s) as Hno by (by eapply (nothing_pending p t)).
  assert (activate_section s = set_tokens true (evictCh s) s) as E by (unfold activate_section; by rewrite decide_False).
  change (cap_ok (set_object id (activate_section s) (turned t (CActivateWait id (activeCh s) true) (p_capMu p) (p_picking p) p))).
  rewrite E. eapply cap_object; [eapply cap_go|..]; try done.
  - intros _ _. exact Hc.
  - cbn. intros _. split; [destruct (lcState s); done|]. exists t. by rewrite list_lookup_insert_eq by (by eapply lookup_lt_Some).
  - intros Hpa. exfalso. apply Hno. by right.
Qed.

Lemma cap_check p t id order :
  cap_ok p -> p_calls p !! t = Some (CCheck id) -> act p id = false -> NoDup order -> list_to_set order = p_sessions p ->
  cap_ok (turned t (CPick id order 0 None) (p_capMu p) true p).
Proof.
  intros Hp Ht Ha Hnd Ho. eapply cap_call; try done; [|intros _; by apply (k_mutex _ Hp _ _ Ht)]. cbn. rewrite Ho. pose proof (k_count _ Hp).
  split; [done|]. split; [done|]. split; [done|]. split; [lia|]. split; [|lia].
  assert (p_sessions p ∖ p_sessions p = ∅) as -> by (apply set_eq; intros j; rewrite elem_of_difference; split; [tauto|intros Hj; by apply elem_of_empty in Hj]).
  assert (count (act p) ∅ = 0) as -> by reflexivity. done.
Qed.

(** A session whose clock, signals or removal change, under a call that goes
    on. *)
Lemma cap_touched p t c c' mu picking i s s' :
  cap_ok (turned t c' mu picking p) -> p_calls p !! t = Some c -> p_objects p !! i = Some s ->
  lcState s' = lcState s -> evictedClosed s' = evictedClosed s -> (pending s' -> pending s) -> (past_signal s' -> past_signal s) ->
  activeCh s' = activeCh s -> (activateCh s' = true -> activateCh s = true) ->
  cap_ok (set_object i s' (turned t c' mu picking p)).
Proof. intros Hp Ht Hs. by apply cap_plain. Qed.

Lemma cap_call_step t a c p p' c' :
  reach_ok p -> cap_ok p -> p_calls p !! t = Some c -> a_done a = false -> call_step t a c p = Some (p', c') -> cap_ok (with_call t c' p').
Proof.
  intros Hr Hp Ht Hd H. pose proof (k_capped _ Hp _ _ Ht) as Hun. pose proof (k_held _ Hp _ _ Ht) as Hh. pose proof (k_cap _ Hp) as Hcap.
  assert (forall c1, held_ok p c1 -> uncapped c1 = false -> (holding c1 = true -> holding c = true) ->
    (forall id todo n v, c1 = CPick id todo n v -> p_picking p = true) ->
    (forall i s, p_objects p !! i = Some s -> pending s -> c <> CActivateWait i (activeCh s) true) ->
    cap_ok (with_call t c1 p)) as Hgo by (intros c1; by apply (cap_go p t c)).
  destruct c as [id|id|id|id|id [|x todo] active victim|v k|v ch k|id held|id ch held|id held|id|id|idle|id|r];
    cbn [call_step] in H; unfold mbind, option_bind in H; rewrite ?Hd in H.
  - injection H as <- <-. destruct (Z.leb_spec (p_cap p) 0); [lia|]. destruct (decide _); by apply Hgo.
  - destruct (p_capMu p) eqn:Hmu; [done|]. injection H as <- <-. eapply (cap_call p t); try done; [congruence|by left].
  - destruct (p_objects p !! id) as [s|] eqn:Hs; [|done]. pose proof (act_lookup _ _ _ Hs) as Ha.
    destruct (decide (lcState s = _)) as [Hst|Hst]; [injection H as <- <-; by apply Hgo|]. rewrite bool_decide_eq_false_2 in Ha by done.
    repeat case_match; simplify_eq. by apply (cap_check p t id (a_order a)).
  - destruct (p_objects p !! id) as [s|] eqn:Hs; [|done]. injection H as <- <-.
    eapply (cap_touched p t _ _ None (p_picking p)); try done. by eapply cap_release.
  - injection H as <- <-. pose proof (held_picked p id active victim Hcap Hh) as Hh'. pose proof (k_mutex _ Hp _ _ Ht eq_refl) as Hmu.
    eapply (cap_call p t); try done; [repeat case_match; done|repeat case_match; done|by right].
  - destruct (p_objects p !! x) as [s|] eqn:Hs; [|done]. destruct (pick_one _ _ _ _ _) as [n' v'] eqn:Hpick. injection H as <- <-.
    apply Hgo; try done; [by eapply held_pick|]. intros ? ? ? ? _. by eapply (k_picking _ Hp).
  - destruct (p_objects p !! v) as [s|] eqn:Hs; [|done]. injection H as <- <-. pose proof (po_objects _ (ro_pool _ Hr) _ _ Hs) as Hok.
    eapply (cap_touched p t _ _ (p_capMu p) (p_picking p)); try done; try (by unfold evict_section; case_match).
    apply Hgo; try done. destruct k as [id|]; [|done]. destruct Hh as [? ?]. split; [done|]. split; [done|].
    intros x Hx Ha. replace x with s in * by congruence. by apply active_open.
  - destruct (p_objects p !! v) as [s|] eqn:Hs; [|done]. destruct (decide _) as [Hin|]; [|done]. injection H as <- <-.
    destruct k as [id|]; apply Hgo; try done. by eapply held_evicted.
  - destruct held; [|done]. destruct (p_objects p !! id) as [s|] eqn:Hs; [|done]. injection H as <- <-. by apply cap_activate.
  - destruct held; [|done]. destruct (p_objects p !! id) as [s|] eqn:Hs; [|done]. destruct (decide _) as [Hin|]; [|done]. injection H as <- <-.
    apply Hgo; try done. by eapply woken_not_pending.
  - destruct held; [|done]. injection H as <- <-. by eapply (cap_release p t).
  - destruct (p_picking p) eqn:Hpk; [done|]. repeat case_match; simplify_eq; try (by apply Hgo). by apply cap_remove.
  - destruct (p_objects p !! id) as [s|] eqn:Hs; [|done]. injection H as <- <-.
    eapply (cap_touched p t _ _ (p_capMu p) (p_picking p)); try done; [by apply Hgo|..].
    + intros [Hq|[[Hq ?]|Hq]]; [by left| |by right; right]. done.
    + intros [[Hq ?]|Hq]; [done|by right].
  - destruct (p_picking p) eqn:Hpk; [done|]. repeat case_match; simplify_eq; [by apply Hgo|]. by eapply cap_mint.
  - destruct (p_objects p !! id) as [s|] eqn:Hs; [|done]. destruct (a_ok a); injection H as <- <-; [|by apply Hgo].
    eapply (cap_touched p t _ _ (p_capMu p) (p_picking p)); try done; [by apply Hgo|..].
    + intros [Hq|[[Hq ?]|Hq]]; [by left|done|done].
    + by intros [[Hq ?]|Hq].
  - done.
Qed.

(** ** The theorem *)

(** Every call waits as long as it takes. *)
Definition patient (a : action) : bool := match a with AStep _ a => negb (a_done a) | _ => true end.

Lemma cap_start p i s :
  cap_ok p -> p_objects p !! i = Some s -> s_loop s = LNone -> cap_ok (set_object i (set_loop LTop s) p).
Proof.
  intros Hp Hs Hl. apply (cap_plain p i s); try done.
  - intros [Hq|[[Hq ?]|Hq]]; [by left|done|done].
  - by intros [[Hq ?]|Hq].
Qed.

Lemma cap_enter p q : cap_ok p -> cap_ok (set_calls (p_calls p ++ [enter q]) p).
Proof.
  intros [K1 K2 K3 K4 K5 K6 K7 K8].
  assert (forall t c, (p_calls p ++ [enter q]) !! t = Some c -> p_calls p !! t = Some c \/ c = enter q) as Hnew.
  { intros t c [Hc|[_ Hc]]%lookup_app_Some; [by left|right]. by apply list_lookup_singleton_Some in Hc as [_ <-]. }
  constructor; try done.
  - intros t c [Hc| ->]%Hnew Hh; [by eapply K2|by destruct q].
  - intros t c [Hc| ->]%Hnew; [by eapply K3|by destruct q].
  - intros t id todo n v [Hc|Hc]%Hnew; [by eapply K4|by destruct q].
  - intros t c [Hc| ->]%Hnew; [apply (held_calmer p); [by apply calmer_same|done|by eapply K5]|by destruct q].
  - intros i s Hs Hpe. destruct (K6 _ _ Hs Hpe) as [Hst [t Ht]]. split; [done|]. exists t. by apply lookup_app_l_Some.
Qed.

Lemma cap_runner p i s s' : cap_ok p -> p_objects p !! i = Some s -> runner_step s = Some s' -> cap_ok (set_object i s' p).
Proof. intros Hp Hs H. unfold runner_step in H. destruct (s_runner s); try done; injection H as <-; by apply (cap_plain p i s). Qed.

Lemma cap_step a p p' : reach_ok p -> cap_ok p -> patient a = true -> step a p = Some p' -> cap_ok p'.
Proof.
  intros Hr Hp Ha H. destruct a as [|q|t a|i c now|i]; cbn [step] in H; unfold mbind, option_bind in H.
  - destruct (p_objects p !! p_bootstrap p) as [s|] eqn:Hs; [|done]. destruct (decide _); [|done]. injection H as <-. by apply cap_start.
  - injection H as <-. by apply cap_enter.
  - destruct (p_calls p !! t) as [c|] eqn:Ht; [|done]. destruct (call_step t a c p) as [[p1 c1]|] eqn:Hc; [|done]. injection H as <-.
    assert (a_done a = false) as Hd by (cbn in Ha; by destruct (a_done a)). by apply (cap_call_step t a c p p1 c1).
  - destruct (p_objects p !! i) as [s|] eqn:Hs; [|done]. destruct (saving _ && _); [done|]. destruct (loop_step c now s) as [s'|] eqn:Hl; [|done].
    injection H as <-. eapply cap_turn; try done. by eapply loop_step_turn.
  - destruct (p_objects p !! i) as [s|] eqn:Hs; [|done]. destruct (runner_step s) as [s'|] eqn:Hl; [|done]. injection H as <-. by eapply cap_runner.
Qed.

Lemma cap_steps l p p' : reach_ok p -> cap_ok p -> forallb patient l = true -> steps l p = Some p' -> cap_ok p'.
Proof.
  revert p. induction l as [|a l IH]; intros p Hr Hp Hl; cbn; [by intros [= <-]|]. cbn in Hl. apply andb_prop in Hl as [Ha Hl].
  destruct (step a p) as [p1|] eqn:H1; [cbn|done]. apply IH; [by eapply step_reach_ok|by eapply cap_step|done].
Qed.

Lemma cap_New cap evicted idle now : 0 < cap -> cap_ok (New cap evicted idle now).
Proof.
  intros Hc. assert (forall i s, p_objects (New cap evicted idle now) !! i = Some s -> ~ pending s) as Hno.
  { intros i s [-> <-]%list_lookup_singleton_Some. by destruct evicted; intros [?|[[? ?]|?]]. }
  constructor; try done.
  - intros i s Hs Hpe. by destruct (Hno _ _ Hs).
  - intros i s Hs Hpa. destruct (Hno _ _ Hs). by right.
  - cbn. pose proof (count_drop (act (New cap evicted idle now)) 0%nat {[0%nat]}) as H.
    assert ({[0%nat]} ∖ {[0%nat]} = (∅ : gset nat)) as E by (apply set_eq; set_solver). rewrite E in H.
    assert (count (act (New cap evicted idle now)) ∅ = 0) as E0 by reflexivity. lia.
Qed.

(** ** Every session, registered or removed *)

Definition all_objects (p : Pool) : gset nat := list_to_set (seq 0 (length (p_objects p))).
(** The active sessions. [Pool.Remove] takes a session out of [p_sessions], which
    is all that [pickLRUVictim] counts, before it is evicted. *)
Definition active_sessions (p : Pool) : gset nat := filter (fun i => act p i = true) (all_objects p).

(** The removals a run asks for, and the one a call carries out. *)
Definition removals (l : list action) : list nat := omap (fun a => match a with ACall (QRemove i) => Some i | _ => None end) l.
Definition removing (c : call) : option nat := match c with CRemove i => Some i | _ => None end.

(** A session not registered is one whose removal was asked for. *)
Record listed (r : gset nat) (p : Pool) : Prop := Listed {
  li_objects : forall i s, p_objects p !! i = Some s -> i ∈ p_sessions p \/ i ∈ r;
  li_calls : forall t c i, p_calls p !! t = Some c -> removing c = Some i -> i ∈ r;
}.

Lemma listed_same r p p' :
  listed r p -> length (p_objects p') = length (p_objects p) -> p_sessions p' = p_sessions p -> p_calls p' = p_calls p -> listed r p'.
Proof.
  intros [H1 H2] E1 E2 E3. split; [|by rewrite E3]. intros i s' Hi. apply lookup_lt_Some in Hi. rewrite E1 in Hi.
  apply lookup_lt_is_Some in Hi as [s Hi]. rewrite E2. by eapply H1.
Qed.

(** What a call does to the registered sessions. *)
Lemma call_step_listed r t a c p p' c' :
  call_step t a c p = Some (p', c') -> listed r p -> p_calls p !! t = Some c -> listed r p' /\ removing c' = None.
Proof.
  intros H Hp Ht. assert (forall b, listed r (unlock b p)) as Hu by (intros []; [by apply (listed_same r p)|done]).
  destruct c as [id|id|id|id|id [|x todo] active victim|v k|v ch k|id held|id ch held|id held|id|id|idle|id|e];
    cbn [call_step] in H; unfold mbind, option_bind in H; repeat case_match; simplify_eq; split; try done; try apply Hu;
    try (eapply listed_same; [exact Hp|cbn; by rewrite ?length_insert|done|done]).
  - destruct Hp as [J1 J2]. split; [|done]. intros i s Hi. cbn. pose proof (J2 _ _ _ Ht eq_refl). rewrite elem_of_difference, elem_of_singleton.
    destruct (decide (i = id)) as [->|]; [by right|]. destruct (J1 _ _ Hi); [by left|by right].
  - destruct Hp as [J1 J2]. split; [|done]. cbn. intros i s [Hi|[Hi Hs]]%lookup_app_Some; rewrite elem_of_union, elem_of_singleton.
    + destruct (J1 _ _ Hi); auto.
    + apply list_lookup_singleton_Some in Hs as [Hz _]. left. left. lia.
Qed.

Lemma listed_mono r r' p : listed r p -> r ⊆ r' -> listed r' p.
Proof. intros [H1 H2] Hr. split; [intros i s Hi; destruct (H1 _ _ Hi); auto|]. intros t c i Ht Hc. by eapply Hr, H2. Qed.

Lemma listed_step r a p p' : listed r p -> step a p = Some p' -> listed (list_to_set (removals [a]) ∪ r) p'.
Proof.
  intros Hp H. assert (listed (list_to_set (removals [a]) ∪ r) p) as Hp' by (eapply listed_mono; [done|set_solver]).
  destruct a as [|q|t a|i c now|i]; cbn [step] in H; unfold mbind, option_bind in H; repeat case_match; simplify_eq;
    try (eapply listed_same; [exact Hp'|cbn; by rewrite ?length_insert|done|done]).
  - destruct Hp as [H1 H2]. split; cbn; [intros i s Hi; destruct (H1 _ _ Hi); [by left|right; set_solver]|].
    intros t c i [Hc|[_ Hc]]%lookup_app_Some He; [apply elem_of_union_r; by eapply H2|].
    apply list_lookup_singleton_Some in Hc as [_ <-]. destruct q; cbn in He; simplify_eq. cbn. set_solver.
  - match goal with E : call_step _ _ _ _ = Some _ |- _ => pose proof (call_step_shape _ _ _ _ _ _ E) as (_ & _ & Ec & _);
      eapply call_step_listed in E as [[H1 H2] Hn]; [|exact Hp'|done] end.
    split; [exact H1|]. cbn. intros t' c' i [(<- & <- & _)|(_ & Hc)]%list_lookup_insert_Some He; [congruence|by eapply H2].
Qed.

Lemma listed_steps l r p p' : listed r p -> steps l p = Some p' -> listed (list_to_set (removals l) ∪ r) p'.
Proof.
  revert r p. induction l as [|a l IH]; intros r p Hp; cbn [steps].
  - intros [= <-]. eapply listed_mono; [done|set_solver].
  - unfold mbind, option_bind. destruct (step a p) as [p1|] eqn:H1; [|done]. intros H2. pose proof (IH _ _ (listed_step _ _ _ _ Hp H1) H2) as H.
    eapply listed_mono; [exact H|]. change (removals (a :: l)) with (removals ([a] ++ l)). unfold removals. rewrite omap_app, list_to_set_app_L. set_solver.
Qed.

Lemma listed_New cap evicted idle now : listed ∅ (New cap evicted idle now).
Proof.
  split; cbn [New p_objects p_sessions p_calls]; [|intros t c i Hc; by rewrite lookup_nil in Hc].
  intros i s [-> _]%list_lookup_singleton_Some. left. set_solver.
Qed.

Lemma size_list_to_set_le (l : list nat) : (size (list_to_set l : gset nat) <= length l)%nat.
Proof.
  induction l as [|x l IH]; cbn; [by rewrite size_empty|].
  rewrite size_union_alt, size_singleton. apply le_n_S. etrans; [|exact IH].
  apply subseteq_size. set_solver.
Qed.

Lemma steps_cap l p p' : steps l p = Some p' -> p_cap p' = p_cap p.
Proof.
  revert p. induction l as [|a l IH]; intros q; cbn; [by intros [= <-]|].
  destruct (step a q) as [q1|] eqn:Hq; [cbn|done]. intros ->%IH. destruct a as [|r|t a|i c now|i]; cbn [step] in Hq; unfold mbind, option_bind in Hq;
    try (repeat case_match; simplify_eq; done).
  destruct (p_calls q !! t) as [c|]; [|done]. destruct (call_step t a c q) as [[q2 c2]|] eqn:Hq2; [|done]. injection Hq as <-. cbn. by apply call_step_shape in Hq2 as (_ & ? & _).
Qed.

Lemma active_split r p :
  listed r p -> active_sessions p ∖ p_sessions p ⊆ r
  /\ Z.of_nat (size (active_sessions p ∩ p_sessions p)) <= count (act p) (p_sessions p).
Proof.
  intros [H1 _]. split.
  - intros i [[Ha Hi]%elem_of_filter Hn]%elem_of_difference. unfold act in Ha. destruct (p_objects p !! i) as [s|] eqn:Hs; [|done].
    by destruct (H1 _ _ Hs).
  - apply inj_le, subseteq_size. intros i [[Ha _]%elem_of_filter Hi]%elem_of_intersection. by apply elem_of_filter.
Qed.

(** A runner belongs to an active session, or to one that has just been
    evicted and is being torn down. *)
Lemma runner_active p i s :
  reach_ok p -> p_objects p !! i = Some s -> s_runner s <> RNone ->
  i ∈ active_sessions p \/ s_loop s = LCancel \/ s_loop s = LDrain.
Proof.
  intros Hr Hs Hn. destruct (po_objects _ (ro_pool _ Hr) _ _ Hs) as [Hl _ _ _]. unfold loop_ok in Hl.
  assert (lcState s = stateActive -> i ∈ active_sessions p) as Ha.
  { intros E. apply elem_of_filter. unfold act. rewrite Hs, E. split; [done|]. apply elem_of_list_to_set, elem_of_seq.
    apply lookup_lt_Some in Hs. lia. }
  destruct (s_loop s); destruct Hl as [(Hst & _) Hrun]; auto; congruence.
Qed.

(** C39. The cap while every call waits: with a positive cap, and no caller
    giving up, in every interleaving of activations, evictions, removals,
    mints, idle timers, runner exits and shutdown at most as many registered
    sessions are active as the cap allows; an active session that is not
    registered is one whose removal the run asked for, so that without
    removals the cap bounds all active sessions, and otherwise it is exceeded
    by no more than the removals; a runner belongs to an active session, or to
    one evicted and being torn down; and at most one call is in its capped
    part. *)
Theorem cap_respected cap evicted idle now l p :
  0 < cap -> forallb patient l = true -> steps l (New cap evicted idle now) = Some p ->
  Z.of_nat (size (active_sessions p ∩ p_sessions p)) <= cap
  /\ (forall i, i ∈ active_sessions p -> i ∉ p_sessions p -> i ∈ removals l)
  /\ Z.of_nat (size (active_sessions p)) <= cap + Z.of_nat (length (removals l))
  /\ (forall i s, p_objects p !! i = Some s -> s_runner s <> RNone ->
        i ∈ active_sessions p \/ s_loop s = LCancel \/ s_loop s = LDrain)
  /\ (forall t t' c c', p_calls p !! t = Some c -> p_calls p !! t' = Some c' -> holding c = true -> holding c' = true -> t = t').
Proof.
  intros Hc Hl Hs. pose proof (cap_steps _ _ _ (New_reach_ok cap evicted idle now) (cap_New cap evicted idle now Hc) Hl Hs) as Hp.
  pose proof (steps_cap _ _ _ Hs) as E. cbn in E. pose proof (k_count _ Hp) as Hk. rewrite E in Hk.
  pose proof (listed_steps _ _ _ _ (listed_New cap evicted idle now) Hs) as Hli. rewrite union_empty_r_L in Hli.
  destruct (active_split _ _ Hli) as [Hsub Hle]. split; [lia|]. split; [|split; [|split]].
  - intros i Ha Hn. apply (elem_of_list_to_set (C := gset nat)), Hsub. by apply elem_of_difference.
  - apply subseteq_size in Hsub. pose proof (size_list_to_set_le (removals l)) as Hlen.
    assert (active_sessions p = (active_sessions p ∩ p_sessions p) ∪ (active_sessions p ∖ p_sessions p)) as ->.
    { apply set_eq. intros i. rewrite elem_of_union, elem_of_intersection, elem_of_difference. destruct (decide (i ∈ p_sessions p)); tauto. }
    rewrite size_union by (intros i; rewrite elem_of_intersection, elem_of_difference; tauto). lia.
  - intros i s. apply runner_active. by eapply steps_ok, Hs; apply New_reach_ok.
  - intros t t' c c' Ht Ht' H1 H2. pose proof (k_mutex _ Hp _ _ Ht H1). pose proof (k_mutex _ Hp _ _ Ht' H2). congruence.
Qed.

(** One session active in the place of the other. *)
Lemma cap_respected_witness :
  exists p, steps SessionsRuns.swapped (New 1 false 0 0) = Some p /\ active_sessions p = {[1%nat]} /\ Z.of_nat (size (active_sessions p)) <= 1.
Proof.
  exists (SessionsRuns.after SessionsRuns.swapped (New 1 false 0 0)). split; [exact SessionsRuns.swapped_runs|]. split; [vm_compute; reflexivity|].
  exact (proj1 (proj2 (proj2 (cap_respected 1 false 0 0 SessionsRuns.swapped _ eq_refl eq_refl SessionsRuns.swapped_runs)))).
Defined.

End SessionsCap.

(** ** Session lifecycles: runs the promises do not cover

    Five interleavings, step by step, in which a signal outlives the call it
    was sent for, a removal falls between a check and what it guards, or a
    session being removed or torn down is not counted against the cap. *)
Module SessionsEdges.
Import Sessions SessionsCap SessionsRuns.

Local Open Scope Z_scope.

(** With a cap of one: [Activate 1] gives up once it has signalled, and lets go
    of the lock with nothing active; [Activate 0] is answered; the signal left
    behind then makes session 1 active as well. *)
Definition over_cap : list action :=
  to_activation ++ [abandon 1; ACall (QActivate 0)] ++ go 2 7 8 [0%nat; 1%nat] ++ [turn 0 SelActivate 9] ++ turns 0 5 9 ++ go 2 2 9 []
  ++ [turn 1 SelActivate 10] ++ turns 1 5 10.

Lemma cap_exceeded :
  exists p, steps over_cap (New 1 false 0 0) = Some p /\ active_sessions p = {[0%nat; 1%nat]} /\ p_calls p = [CDone Nil; CDone ErrContext; CDone Nil].
Proof. eexists. split; [vm_compute; reflexivity|]. split; vm_compute; reflexivity. Qed.

(** The idle timer evicts the bootstrap while a capped activation's signal to
    do so waits; the signal is still there once [Activate 0] has made it active
    again, and evicts it with no call to evict it under way. *)
Definition stale : list action :=
  to_eviction ++ [turn 0 (SelTimer false) 3] ++ turns 0 3 3 ++ [ARunner 0] ++ turns 0 4 4 ++ go 1 2 5 []
  ++ [turn 1 SelActivate 6] ++ turns 1 5 6 ++ go 1 2 7 []
  ++ [ACall (QActivate 0)] ++ go 2 7 8 [0%nat; 1%nat] ++ [turn 1 SelEvict 9] ++ turns 1 3 9 ++ [ARunner 1] ++ turns 1 4 9 ++ go 2 2 9 []
  ++ [turn 0 SelActivate 10] ++ turns 0 5 10 ++ go 2 2 10 [].

Lemma evicted_by_no_one :
  (exists p, steps stale (New 1 false 60 0) = Some p /\ active_sessions p = {[0%nat]} /\ p_calls p = [CDone Nil; CDone Nil; CDone Nil])
  /\ (exists p, steps (stale ++ [turn 0 SelEvict 11] ++ turns 0 2 11) (New 1 false 60 0) = Some p /\ active_sessions p = ∅).
Proof. split; eexists; (split; [vm_compute; reflexivity|]); [split|]; vm_compute; reflexivity. Qed.

(** [Remove 1] runs whole after the lifecycle goroutine has found session 1 not
    removed, and before it makes it active: the session it removed runs. *)
Definition resurrected : list action :=
  started ++ [ACall (QActivate 1)] ++ go 1 2 2 [] ++ [turn 1 SelActivate 3] ++ turns 1 1 3 ++ [ACall (QRemove 1)] ++ go 2 4 4 [] ++ turns 1 4 5.

Lemma removed_runs :
  exists p, steps resurrected (New 0 false 0 0) = Some p /\ p_sessions p = {[0%nat]} /\ p_calls p !! 2%nat = Some (CDone Nil)
    /\ exists s, p_objects p !! 1%nat = Some s /\ lcState s = stateActive /\ s_runner s = RRunning /\ removedCh s = true.
Proof. eexists. split; [vm_compute; reflexivity|]. split; [vm_compute; reflexivity|]. split; [vm_compute; reflexivity|]. eexists. split; [reflexivity|]. auto. Qed.

(** With a cap of one and nobody giving up: session 1 is active; [Remove 1] has
    taken it out of the map but not yet evicted it, so [Activate 0] counts no
    session and starts one more. *)
Definition removed_over_cap : list action :=
  swapped ++ [ACall (QRemove 1)] ++ go 2 1 8 [] ++ [ACall (QActivate 0)] ++ go 3 6 8 [0%nat] ++ [turn 0 SelActivate 9] ++ turns 0 5 9 ++ go 3 2 9 [].

Lemma removal_exceeds_cap :
  forallb patient removed_over_cap = true
  /\ exists p, steps removed_over_cap (New 1 false 0 0) = Some p /\ active_sessions p = {[0%nat; 1%nat]} /\ p_sessions p = {[0%nat]}
    /\ s_runner <$> p_objects p = [RRunning; RRunning] /\ p_calls p !! 2%nat = Some (CClose 1) /\ p_calls p !! 3%nat = Some (CDone Nil).
Proof. split; [done|]. eexists. split; [vm_compute; reflexivity|]. repeat split; vm_compute; reflexivity. Qed.

(** The idle timer has flipped the bootstrap to evicted; while its runner is
    still there to be cancelled, [Activate 1] counts no session and starts
    another: one session is active, but two runners run. *)
Definition overlapping : list action :=
  started ++ [turn 0 (SelTimer false) 3] ++ turns 0 2 3 ++ [ACall (QActivate 1)] ++ go 1 7 4 [0%nat; 1%nat] ++ [turn 1 SelActivate 5] ++ turns 1 5 5 ++ go 1 2 6 [].

Lemma runners_overlap :
  forallb patient overlapping = true
  /\ exists p, steps overlapping (New 1 false 60 0) = Some p /\ active_sessions p = {[1%nat]}
    /\ s_runner <$> p_objects p = [RRunning; RRunning] /\ p_calls p = [CDone Nil; CDone Nil].
Proof. split; [done|]. eexists. split; [vm_compute; reflexivity|]. repeat split; vm_compute; reflexivity. Qed.

End SessionsEdges.
