(* ===== verification/ThreadIndex.v ===== *)
(** * The thread's query index ([internal/thread])

    [query_tree.go]: persistent balanced trees of the items a conversation
    shows, and the index that keeps nine of them in step; [queries.go],
    [catch_up.go], [child_pages.go], [compact_queries.go] and
    [compact_intervals.go]: the pages and updates phones ask for, up to the
    rendering of their items; [observations_store.go]: the retained changes. *)
From stdpp Require Import prelude gmap strings list.
From S2P Require Import Prelude.

Module ThreadIndex.

Local Open Scope Z_scope.

(** ** Items and rows *)

(** [uint64] fields are numbers; [Content] is the recorded JSON, and the value
    of a recipe's field the string its JSON is, where it is one. *)
Record Item := MkItem {
  ID : Z; Order : Z; Rev : Z; EndedOrder : Z;
  Kind : string; ItemSession : string; Agent : string; NoChild : bool; Turn : string;
  Parent : Z; Status : string; Active : bool; Shown : bool;
  Summary : string; Subtype : string; Content : string;
}.

Record recipeField := MkRecipeField { rf_entry : Z; rf_item : Z; rf_revision : Z; rf_value : option string; rf_digest : string }.
Record contentRecipe := MkRecipe { creating : Z; agent : bool; delivery : Z; text : list Z; fields : gmap string recipeField }.

Record childHeader := MkHeader {
  headline : string; errorSummary : string; errorKnown : bool;
  childCount : Z; subtreeVersion : Z; countKnown : bool; freshKnown : bool;
  taskID : string; taskKnown : bool;
}.

Record queryRow := MkRow { item : Item; touch : Z; recipe : contentRecipe; header : childHeader; activeBranch : bool }.

(** ** The trees *)

Inductive queryTree :=
| Nil
| Node (left : queryTree) (row : queryRow) (right : queryTree) (group key : Z) (height size : Z).

Definition treeHeight (n : queryTree) : Z := match n with Nil => 0 | Node _ _ _ _ _ h _ => h end.
Definition treeSize (n : queryTree) : Z := match n with Nil => 0 | Node _ _ _ _ _ _ s => s end.

(** A node with its [height] and [size] set by [fix]. *)
Definition fixed (l : queryTree) (r : queryRow) (g k : Z) (rt : queryTree) : queryTree :=
  Node l r rt g k (1 + Z.max (treeHeight l) (treeHeight rt)) (1 + treeSize l + treeSize rt).

(** The child it lifts is there wherever [rotate] is called. *)
Definition rotate (n : queryTree) (to_left : bool) : queryTree :=
  match to_left, n with
  | false, Node (Node ll lr lrt lg lk _ _) r rt g k _ _ => fixed ll lr lg lk (fixed lrt r g k rt)
  | true, Node l r (Node rl rr rrt rg rk _ _) g k _ _ => fixed (fixed l r g k rl) rr rg rk rrt
  | _, _ => n
  end.

Definition left_of (n : queryTree) : queryTree := match n with Nil => Nil | Node l _ _ _ _ _ _ => l end.
Definition right_of (n : queryTree) : queryTree := match n with Nil => Nil | Node _ _ r _ _ _ _ => r end.

Definition with_left (l n : queryTree) : queryTree :=
  match n with Nil => Nil | Node _ r rt g k h s => Node l r rt g k h s end.
Definition with_right (rt n : queryTree) : queryTree :=
  match n with Nil => Nil | Node l r _ g k h s => Node l r rt g k h s end.

(** The end of [treePutGroup]: restore the balance of a fixed node. *)
Definition rebalance (c : queryTree) : queryTree :=
  if 1 <? treeHeight (left_of c) - treeHeight (right_of c)
  then
    let c := if treeHeight (left_of (left_of c)) <? treeHeight (right_of (left_of c))
             then with_left (rotate (left_of c) true) c else c in
    rotate c false
  else if 1 <? treeHeight (right_of c) - treeHeight (left_of c)
  then
    let c := if treeHeight (right_of (right_of c)) <? treeHeight (left_of (right_of c))
             then with_right (rotate (right_of c) false) c else c in
    rotate c true
  else c.

Definition qkey : Type := Z * Z * Z.
Definition key_cmp (x y : qkey) : comparison :=
  match x, y with
  | (g, k, i), (g', k', i') =>
      match g ?= g' with Eq => match k ?= k' with Eq => i ?= i' | c => c end | c => c end
  end.
Definition compareQueryKey (group key id : Z) (g k : Z) (r : queryRow) : comparison :=
  key_cmp (group, key, id) (g, k, ID (item r)).

(** The leftmost node, [next] of the deletion. *)
Fixpoint leftmost (n : queryTree) : option (Z * Z * queryRow) :=
  match n with
  | Nil => None
  | Node Nil r _ g k _ _ => Some (g, k, r)
  | Node l _ _ _ _ _ _ => leftmost l
  end.

(** [row] absent deletes. *)
Fixpoint treePutGroup (n : queryTree) (group key id : Z) (row : option queryRow) : queryTree :=
  match n with
  | Nil => match row with None => Nil | Some r => Node Nil r Nil group key 1 1 end
  | Node l nr rt g k _ _ =>
      match compareQueryKey group key id g k nr with
      | Lt => rebalance (fixed (treePutGroup l group key id row) nr g k rt)
      | Gt => rebalance (fixed l nr g k (treePutGroup rt group key id row))
      | Eq =>
          match row with
          | Some r => rebalance (fixed l r g k rt)
          | None =>
              match l, rt with
              | Nil, _ => rt
              | _, Nil => l
              | _, _ =>
                  match leftmost rt with
                  | Some (g', k', r') => rebalance (fixed l r' g' k' (treePutGroup rt g' k' (ID (item r')) None))
                  | None => n
                  end
              end
          end
      end
  end.

Definition treePut (n : queryTree) (key id : Z) (row : option queryRow) : queryTree := treePutGroup n 0 key id row.

Fixpoint rank (n : queryTree) (key : Z) : Z :=
  match n with
  | Nil => 0
  | Node l _ rt _ k _ _ => if key <=? k then rank l key else treeSize l + 1 + rank rt key
  end.

Fixpoint at_rank (n : queryTree) (r : Z) : option queryRow :=
  match n with
  | Nil => None
  | Node l row rt _ _ _ _ =>
      let size := treeSize l in
      if r =? size then Some row else if r <? size then at_rank l r else at_rank rt (r - (size + 1))
  end.

Fixpoint groupRank (n : queryTree) (parent order id : Z) (inclusive : bool) : Z :=
  match n with
  | Nil => 0
  | Node l row rt g k _ _ =>
      match compareQueryKey parent order id g k row with
      | Lt => groupRank l parent order id inclusive
      | Eq => if inclusive then treeSize l + 1 + groupRank rt parent order id inclusive
              else groupRank l parent order id inclusive
      | Gt => treeSize l + 1 + groupRank rt parent order id inclusive
      end
  end.

(** A context: how many more times it is found not done, for ever if [None]. *)
Definition context : Type := option nat.
Definition ctx_Err (c : context) : option context :=
  match c with None => Some None | Some O => None | Some (S n) => Some (Some n) end.

(** The rows [visit] adds, or [None] where it finds the context done. *)
Fixpoint visit (n : queryTree) (start stop : Z) (c : context) : option (list queryRow * context) :=
  match n with
  | Nil => Some ([], c)
  | Node l row rt _ _ _ _ =>
      if stop <=? start then Some ([], c)
      else
        c ← ctx_Err c;
        let size := treeSize l in
        '(ls, c) ← visit l start (Z.min stop size) c;
        '(rs, c) ← visit rt (Z.max 0 (start - size - 1)) (stop - size - 1) c;
        Some (ls ++ (if (start <=? size) && (size <? stop) then [row] else []) ++ rs, c)
  end.

(** ** The index *)

(** [byID] has the rows in 256 buckets by the last byte of their id. *)
Record queryIndex := MkIndex {
  byID : gmap Z (gmap Z queryRow);
  ordered : queryTree; active : queryTree; touched : queryTree; children : queryTree;
  roots : queryTree; activeRoots : queryTree; activeBranches : queryTree; rootTouches : queryTree;
  invalidTouches : Z; coveredThrough : Z; unprovenThrough : Z; suppressed : Z; complete : bool;
  compactFrom : Z; compactLost : Z;
}.

Definition lookup (q : queryIndex) (id : Z) : option queryRow := b ← byID q !! (id mod 256); b !! id.

(** A row put in, or taken out, where [value] is absent. *)
Definition byID_put (id : Z) (value : option queryRow) (m : gmap Z (gmap Z queryRow)) : gmap Z (gmap Z queryRow) :=
  <[id mod 256 := partial_alter (fun _ => value) id (default ∅ (m !! (id mod 256)))]> m.

Definition put_if (b : bool) (group key id : Z) (value : option queryRow) (t : queryTree) : queryTree :=
  if b then treePutGroup t group key id value else t.

Definition membership (row : queryRow) (remove : bool) (q : queryIndex) : queryIndex :=
  let i := item row in
  let value := if remove then None else Some row in
  MkIndex
    (byID_put (ID i) value (byID q))
    (put_if (negb (Order i =? 0)) 0 (Order i) (ID i) value (ordered q))
    (put_if (Active i) 0 (ID i) (ID i) value (active q))
    (treePut (touched q) (touch row) (ID i) value)
    (treePutGroup (children q) (Parent i) (Order i) (ID i) value)
    (put_if ((Parent i =? 0) && negb (Order i =? 0)) 0 (Order i) (ID i) value (roots q))
    (put_if (activeBranch row && (Parent i =? 0)) 0 (ID i) (ID i) value (activeRoots q))
    (put_if (activeBranch row) (Parent i) (Order i) (ID i) value (activeBranches q))
    (put_if (Parent i =? 0) 0 (subtreeVersion (header row)) (ID i) value (rootTouches q))
    (if touch row =? 0 then if remove then invalidTouches q - 1 else invalidTouches q + 1 else invalidTouches q)
    (coveredThrough q) (unprovenThrough q) (suppressed q) (complete q) (compactFrom q) (compactLost q).

Definition max_uint64 : Z := 2 ^ 64 - 1.

(** The rows of a group, by the ranks around them. *)
Definition group_size (t : queryTree) (id : Z) : Z :=
  groupRank t id max_uint64 max_uint64 true - groupRank t id 0 0 false.

Definition set_header (h : childHeader) (r : queryRow) : queryRow := MkRow (item r) (touch r) (recipe r) h (activeBranch r).
Definition set_activeBranch (b : bool) (r : queryRow) : queryRow := MkRow (item r) (touch r) (recipe r) (header r) b.

Definition refreshHeader (row : queryRow) (version : Z) (q : queryIndex) : queryIndex :=
  let q := match lookup q (ID (item row)) with Some stored => membership stored true q | None => q end in
  let count := u64 (group_size (children q) (ID (item row))) in
  let h := header row in
  membership (set_header (MkHeader (headline h) (errorSummary h) (errorKnown h) count version
    (count <? 2 ^ 53) (version <? 2 ^ 53) (taskID h) (taskKnown h)) row) false q.

(** The order Go walks a map in: as asked, or else some order. *)
Definition walk (order : list Z) (s : gset Z) : list Z :=
  if decide (NoDup order /\ list_to_set order = s) then order else elements s.

(** [refreshRootActivity]'s loop: [ready] is its stack, top first. Every row
    is taken from it at most once. *)
Fixpoint activity_loop (fuel : nat) (parents pending : gmap Z Z) (ready : list Z) (q : queryIndex) : queryIndex :=
  match fuel, ready with
  | S fuel, id :: ready =>
      match lookup q id with
      | None => q
      | Some row =>
          let branch := Active (item row) || (0 <? group_size (activeBranches q) id) in
          let q := if Bool.eqb branch (activeBranch row) then q
                   else membership (set_activeBranch branch row) false (membership row true q) in
          match parents !! id with
          | None => q
          | Some parent =>
              match pending !! parent with
              | None => activity_loop fuel parents pending ready q
              | Some count =>
                  activity_loop fuel parents (<[parent := count - 1]> pending)
                    (if count =? 1 then parent :: ready else ready) q
              end
          end
      end
  | _, _ => q
  end.

Definition refreshRootActivity (order : list Z) (dirty : gset Z) (q : queryIndex) : queryIndex :=
  let found := omap (fun id => row ← lookup q id; Some (id, Parent (item row))) (elements dirty) in
  let parents := list_to_map (M := gmap Z Z) found in
  let pending := foldl (fun m '(_, parent) => match m !! parent with Some n => <[parent := n + 1]> m | None => m end)
                   (list_to_map (M := gmap Z Z) ((fun '(id, _) => (id, 0)) <$> found)) found in
  let ready := List.filter (fun id => bool_decide (pending !! id = Some 0)) (walk order (dom pending)) in
  activity_loop (S (size pending)) parents pending (rev ready) q.

(** What a publication has of the fold: the rows affected, absent where no
    longer public, the fold's version and its evidence, and the orders its maps
    are walked in. *)
Record publication := Publication {
  affected : list (Z * option (Item * Z * contentRecipe * childHeader));
  version : Z; f_unprovenThrough : Z; f_suppressed : Z;
  walk_dirty : list Z; walk_ready : list Z;
}.

Definition public_row (x : Item * Z * contentRecipe * childHeader) : queryRow :=
  let '(i, t, r, h) := x in MkRow i t r h false.

(** Each turn marks a row of the index not marked before; [touched] has them
    all. *)
Fixpoint mark_ancestors (fuel : nat) (q : queryIndex) (id : Z) (dirty : gset Z) : gset Z :=
  match fuel with
  | O => dirty
  | S fuel =>
      if bool_decide (id = 0 \/ id ∈ dirty) then dirty
      else match lookup q id with
           | None => dirty
           | Some row => mark_ancestors fuel q (Parent (item row)) ({[id]} ∪ dirty)
           end
  end.
Definition ancestors (q : queryIndex) (id : Z) (dirty : gset Z) : gset Z := mark_ancestors (S (Z.to_nat (treeSize (touched q)))) q id dirty.

Definition set_compactLost (v : Z) (q : queryIndex) : queryIndex :=
  MkIndex (byID q) (ordered q) (active q) (touched q) (children q) (roots q) (activeRoots q) (activeBranches q) (rootTouches q)
    (invalidTouches q) (coveredThrough q) (unprovenThrough q) (suppressed q) (complete q) (compactFrom q) v.

Definition evidence (p : publication) (q : queryIndex) : queryIndex :=
  MkIndex (byID q) (ordered q) (active q) (touched q) (children q) (roots q) (activeRoots q) (activeBranches q) (rootTouches q)
    (invalidTouches q) (version p) (f_unprovenThrough p) (f_suppressed p) (invalidTouches q =? 0) (compactFrom q) (compactLost q).

(** One affected row, replaced. *)
Definition replace_row (v : Z) (x : Z * option (Item * Z * contentRecipe * childHeader)) (q : queryIndex) : queryIndex :=
  let '(id, new) := x in
  let q := match lookup q id with
           | Some old =>
               membership old true
                 (if (Parent (item old) =? 0) && match new with None => true | Some (i, _, _, _) => negb (Parent i =? 0) end
                  then set_compactLost v q else q)
           | None => q
           end in
  match new with Some y => membership (public_row y) false q | None => q end.

Definition refresh_dirty (v : Z) (ids : list Z) (q : queryIndex) : queryIndex :=
  foldl (fun q id => match lookup q id with Some row => refreshHeader row v q | None => q end) q ids.

Definition advance (p : publication) (q : queryIndex) : queryIndex :=
  let ids := (affected p).*1 in
  let old_dirty := foldl (fun d id => ancestors q id d) ∅ ids in
  let next := foldl (fun q x => replace_row (version p) x q) q (affected p) in
  let dirty := foldl (fun d id => ancestors next id d) ∅ ids ∪ old_dirty in
  let next := refresh_dirty (version p) (walk (walk_dirty p) dirty) next in
  evidence p (refreshRootActivity (walk_ready p) dirty next).

Definition empty_index : queryIndex := MkIndex ∅ Nil Nil Nil Nil Nil Nil Nil Nil 0 0 0 0 false 0 0.

End ThreadIndex.
