(* ===== verification/ThreadTree.v ===== *)
(** * The query trees are sorted lists

    What [treePutGroup], the ranks, [at] and [visit] do to the rows of a tree
    read from left to right, and that the trees stay balanced. *)
From Stdlib Require Import ZArith Lia.
From stdpp Require Import prelude list sorting.
From S2P Require Import Prelude ThreadIndex.

Module ThreadTree.
Import ThreadIndex.

Local Open Scope Z_scope.

(** ** Keys *)

Lemma key_cmp_refl x : key_cmp x x = Eq.
Proof. destruct x as [[g k] i]. cbn. by rewrite !Z.compare_refl. Qed.

Lemma key_cmp_eq x y : key_cmp x y = Eq -> x = y.
Proof.
  destruct x as [[g k] i], y as [[g' k'] i']. cbn. destruct (Z.compare_spec g g'); [|done..].
  destruct (Z.compare_spec k k'); [|done..]. destruct (Z.compare_spec i i'); [|done..]. by subst.
Qed.

Lemma key_cmp_sym x y : key_cmp y x = CompOpp (key_cmp x y).
Proof.
  destruct x as [[g k] i], y as [[g' k'] i']. cbn. rewrite (Z.compare_antisym g g'), (Z.compare_antisym k k'), (Z.compare_antisym i i').
  by destruct (g ?= g'), (k ?= k'), (i ?= i').
Qed.

Definition key_lt (x y : qkey) : Prop := key_cmp x y = Lt.

Lemma key_lt_spec g k i g' k' i' : key_lt (g, k, i) (g', k', i') <-> g < g' \/ (g = g' /\ (k < k' \/ (k = k' /\ i < i'))).
Proof.
  unfold key_lt. cbn. destruct (Z.compare_spec g g'); [destruct (Z.compare_spec k k'); [destruct (Z.compare_spec i i')|..]|..];
    split; try done; try lia.
Qed.

#[export] Instance key_lt_trans : Transitive key_lt.
Proof. intros [[g k] i] [[g' k'] i'] [[g'' k''] i'']. rewrite !key_lt_spec. lia. Qed.

Lemma key_lt_irrefl x : ~ key_lt x x.
Proof. unfold key_lt. by rewrite key_cmp_refl. Qed.

(** ** Sorted lists of keyed rows *)

Definition entry : Type := qkey * queryRow.
Definition sorted (l : list entry) : Prop := StronglySorted key_lt (l.*1).

(** The reference: put a row at its place, or take the one there away. *)
Fixpoint upd (k : qkey) (row : option queryRow) (l : list entry) : list entry :=
  let new := match row with Some r => [(k, r)] | None => [] end in
  match l with
  | [] => new
  | (k', r') :: l' =>
      match key_cmp k k' with Lt => new ++ l | Eq => new ++ l' | Gt => (k', r') :: upd k row l' end
  end.

Definition all_lt (l : list entry) (k : qkey) : Prop := Forall (fun e => key_lt e.1 k) l.
Definition all_gt (k : qkey) (l : list entry) : Prop := Forall (fun e => key_lt k e.1) l.

Lemma sorted_cons e l : sorted (e :: l) <-> all_gt e.1 l /\ sorted l.
Proof.
  unfold sorted, all_gt. cbn. split.
  - intros H. inversion H as [|? ? Hs Hf]; subst. by rewrite Forall_fmap in Hf.
  - intros [Hf Hs]. constructor; [done|]. by rewrite Forall_fmap.
Qed.

Lemma tree_sorted_app l1 e l2 : sorted (l1 ++ e :: l2) <-> sorted l1 /\ all_lt l1 e.1 /\ all_gt e.1 l2 /\ sorted l2.
Proof.
  induction l1 as [|x l1 IH]; cbn [app].
  - rewrite sorted_cons. unfold all_lt. rewrite Forall_nil. split; [intros [? ?]|intros (? & ? & ? & ?)]; split_and?; try done. constructor.
  - rewrite !sorted_cons, IH. unfold all_lt, all_gt in *. rewrite Forall_cons, !Forall_app, Forall_cons. split.
    + intros ((H1 & H2 & H3) & H4 & H5 & H6 & H7). by split_and!.
    + intros ((H1 & H4) & (H2 & H5) & H6 & H7). split_and!; try done. eapply Forall_impl; [exact H6|]. intros y Hy. cbn in *. by transitivity e.1.
Qed.

Lemma upd_left k row l1 e l2 : key_lt k e.1 -> upd k row (l1 ++ e :: l2) = upd k row l1 ++ e :: l2.
Proof.
  intros Hk. induction l1 as [|[k' r'] l1 IH]; destruct e as [ke re]; cbn in *.
  - unfold key_lt in Hk. rewrite Hk. done.
  - destruct (key_cmp k k'); [by rewrite <- app_assoc|by rewrite <- app_assoc|]. cbn. by rewrite IH.
Qed.

Lemma upd_right k row l1 e l2 : all_lt l1 e.1 -> key_lt e.1 k -> upd k row (l1 ++ e :: l2) = l1 ++ e :: upd k row l2.
Proof.
  intros Hl Hk. assert (forall x, key_lt x e.1 \/ x = e.1 -> key_cmp k x = Gt) as Hgt.
  { intros x Hx. rewrite key_cmp_sym. assert (key_lt x k) as -> by (destruct Hx as [Hx| ->]; [by transitivity e.1|done]). done. }
  induction l1 as [|[k' r'] l1 IH]; cbn.
  - destruct e as [ke re]. rewrite Hgt by (by right). done.
  - apply Forall_cons in Hl as [H1 H2]. rewrite Hgt by (by left). by rewrite IH.
Qed.

Lemma upd_here k row l1 r l2 :
  all_lt l1 k -> upd k row (l1 ++ (k, r) :: l2) = l1 ++ match row with Some r' => [(k, r')] | None => [] end ++ l2.
Proof.
  intros Hl. induction l1 as [|[k' r'] l1 IH]; cbn; [by rewrite key_cmp_refl|]. apply Forall_cons in Hl as [H1 H2].
  rewrite key_cmp_sym. cbn in H1. rewrite H1. cbn. by rewrite IH.
Qed.

Lemma upd_bound (P : qkey -> Prop) k row l : P k -> Forall (fun e => P e.1) l -> Forall (fun e => P e.1) (upd k row l).
Proof.
  intros Hk. induction l as [|[k' r'] l IH]; intros Hl; cbn; [by destruct row; repeat constructor|]. pose proof Hl as Hl'. apply Forall_cons in Hl as [H1 H2].
  destruct (key_cmp k k'); [..|constructor; auto]; apply Forall_app; split; try done; destruct row; repeat constructor; done.
Qed.

Lemma sorted_upd k row l : sorted l -> sorted (upd k row l).
Proof.
  induction l as [|[k' r'] l IH]; intros Hs; cbn.
  - destruct row; [|done]. apply sorted_cons. split; [constructor|done].
  - pose proof Hs as Hs'. apply sorted_cons in Hs as [Hg Hs]. destruct (key_cmp k k') eqn:E.
    + apply key_cmp_eq in E as ->. destruct row; [|done]. apply sorted_cons. done.
    + destruct row; [|done]. apply sorted_cons. split; [|done]. constructor; [done|]. eapply Forall_impl; [exact Hg|]. intros y Hy. cbn in *. by transitivity k'.
    + apply sorted_cons. split; [|by apply IH]. apply (upd_bound (fun x => key_lt k' x)); [|done]. unfold key_lt. rewrite key_cmp_sym, E. done.
Qed.

(** ** Reading a tree *)

Fixpoint elems (n : queryTree) : list entry :=
  match n with Nil => [] | Node l r rt g k _ _ => elems l ++ ((g, k, ID (item r)), r) :: elems rt end.

(** Heights and sizes are as [fix] sets them; no side is more than one
    higher. *)
Fixpoint balanced (n : queryTree) : Prop :=
  match n with
  | Nil => True
  | Node l _ rt _ _ h s =>
      balanced l /\ balanced rt /\ h = 1 + Z.max (treeHeight l) (treeHeight rt) /\ s = 1 + treeSize l + treeSize rt
      /\ -1 <= treeHeight l - treeHeight rt <= 1
  end.

(** The same, before the root is rebalanced. *)
Definition nearly (n : queryTree) : Prop :=
  match n with
  | Nil => True
  | Node l _ rt _ _ h s =>
      balanced l /\ balanced rt /\ h = 1 + Z.max (treeHeight l) (treeHeight rt) /\ s = 1 + treeSize l + treeSize rt
      /\ -2 <= treeHeight l - treeHeight rt <= 2
  end.

Lemma height_nonneg n : balanced n -> 0 <= treeHeight n.
Proof. induction n as [|l IHl r rt IHr g k h s]; cbn; [lia|]. intros (H1 & H2 & -> & _). specialize (IHl H1). lia. Qed.

Lemma height_zero n : balanced n -> treeHeight n <= 0 -> n = Nil.
Proof. destruct n as [|l r rt g k h s]; [done|]. cbn. intros (H1 & H2 & -> & _). pose proof (height_nonneg _ H1). lia. Qed.

Lemma size_elems n : balanced n -> treeSize n = Z.of_nat (length (elems n)).
Proof. induction n as [|l IHl r rt IHr g k h s]; [done|]. cbn [treeSize elems]. intros (H1 & H2 & _ & -> & _). rewrite length_app. cbn. rewrite IHl, IHr by done. lia. Qed.

Lemma elems_fixed l r g k rt : elems (fixed l r g k rt) = elems l ++ ((g, k, ID (item r)), r) :: elems rt.
Proof. done. Qed.

Lemma elems_rotate n b : elems (rotate n b) = elems n.
Proof.
  destruct b, n as [|l r rt g k h s]; try done.
  - destruct rt; [done|]. cbn. by rewrite <- !app_assoc.
  - destruct l; [done|]. cbn. by rewrite <- !app_assoc.
Qed.

Lemma elems_with_left l c : elems l = elems (left_of c) -> elems (with_left l c) = elems c.
Proof. destruct c; cbn; [done|]. intros E. by rewrite E. Qed.

Lemma elems_with_right rt c : elems rt = elems (right_of c) -> elems (with_right rt c) = elems c.
Proof. destruct c; cbn; [done|]. intros E. by rewrite E. Qed.

Lemma elems_rebalance c : elems (rebalance c) = elems c.
Proof.
  unfold rebalance. destruct (1 <? _); [|destruct (1 <? _); [|done]]; rewrite elems_rotate; destruct (_ <? _); try done;
    [apply elems_with_left|apply elems_with_right]; apply elems_rotate.
Qed.

(** Rebalancing a node one off its balance. *)
Lemma balanced_fixed l r g k rt : balanced l -> balanced rt -> -1 <= treeHeight l - treeHeight rt <= 1 -> balanced (fixed l r g k rt).
Proof. intros. cbn. split_and!; done || lia. Qed.

Lemma rebalance_spec c :
  nearly c -> balanced (rebalance c) /\ treeHeight c - 1 <= treeHeight (rebalance c) <= treeHeight c
              /\ (-1 <= treeHeight (left_of c) - treeHeight (right_of c) <= 1 -> rebalance c = c).
Proof.
  destruct c as [|l r rt g k h s]; [intros _; by split_and!|]. intros (H1 & H2 & Hh & Hs & Hd). unfold rebalance. cbn [left_of right_of].
  destruct (Z.ltb_spec 1 (treeHeight l - treeHeight rt)) as [Hl|Hl].
  - destruct l as [|ll lr lrt lg lk lh ls]; [cbn in *; pose proof (height_nonneg _ H2); lia|]. cbn [left_of right_of treeHeight] in *.
    destruct H1 as (B1 & B2 & Eh & Es & Bd). destruct (Z.ltb_spec (treeHeight ll) (treeHeight lrt)) as [Hc|Hc].
    + destruct lrt as [|a b c' d e f i]; [cbn in *; pose proof (height_nonneg _ B1); lia|]. cbn in *. destruct B2 as (B3 & B4 & Ef & Ei & Bd'). subst. split_and!; done || lia.
    + cbn in *. split_and!; done || lia.
  - destruct (Z.ltb_spec 1 (treeHeight rt - treeHeight l)) as [Hr|Hr].
    + destruct rt as [|rl rr rrt rg rk rh rs]; [cbn in *; pose proof (height_nonneg _ H1); lia|]. cbn [left_of right_of treeHeight] in *.
      destruct H2 as (B1 & B2 & Eh & Es & Bd). destruct (Z.ltb_spec (treeHeight rrt) (treeHeight rl)) as [Hc|Hc].
      * destruct rl as [|a b c' d e f i]; [cbn in *; pose proof (height_nonneg _ B2); lia|]. cbn in *. destruct B1 as (B3 & B4 & Ef & Ei & Bd'). subst. split_and!; done || lia.
      * cbn in *. split_and!; done || lia.
    + cbn. split_and!; done || lia.
Qed.

(** ** Putting and deleting *)

Lemma leftmost_spec n :
  leftmost n = match elems n with [] => None | ((g, k, _), r) :: _ => Some (g, k, r) end.
Proof.
  induction n as [|l IHl r rt IHr g k h s]; [done|]. destruct l as [|ll lr lrt lg lk lh ls]; [done|].
  cbn [leftmost elems app]. change (leftmost (Node ll lr lrt lg lk lh ls) = match elems (Node ll lr lrt lg lk lh ls) ++ ((g, k, ID (item r)), r) :: elems rt with
    [] => None | ((g', k', _), r') :: _ => Some (g', k', r') end). rewrite IHl. destruct (elems (Node ll lr lrt lg lk lh ls)) as [|[[[a b] c] d] es] eqn:E; [|done].
  cbn in E. by destruct (elems ll).
Qed.

Lemma elems_first n g k r : leftmost n = Some (g, k, r) -> exists es, elems n = ((g, k, ID (item r)), r) :: es.
Proof.
  intros H. assert (forall e, e ∈ elems n -> e.1 = (e.1.1.1, e.1.1.2, ID (item e.2))) as Hk.
  { clear H. induction n as [|l IHl x rt IHr a b h s]; cbn; [by intros e He%not_elem_of_nil|].
    intros e [He|[->|He]%elem_of_cons]%elem_of_app; auto. }
  rewrite leftmost_spec in H. destruct (elems n) as [|[[[a b] c] d] es]; [done|]. injection H as <- <- <-. exists es.
  pose proof (Hk ((a, b, c), d) ltac:(by left)) as Hd. cbn in Hd. by injection Hd as ->.
Qed.

(** A node rebalanced after one side changed. *)
Lemma balanced_rebalance l r g k rt h :
  balanced l -> balanced rt -> -2 <= treeHeight l - treeHeight rt <= 2 ->
  h - 1 <= treeHeight (fixed l r g k rt) <= h + 1 -> (treeHeight (fixed l r g k rt) = h - 1 -> -1 <= treeHeight l - treeHeight rt <= 1) ->
  balanced (rebalance (fixed l r g k rt)) /\ h - 1 <= treeHeight (rebalance (fixed l r g k rt)) <= h + 1.
Proof.
  intros Hl Hr Hd Hh Hlow. destruct (rebalance_spec (fixed l r g k rt)) as (Hb & Hhb & Hsame); [cbn; split_and!; done || lia|].
  split; [done|]. cbn [left_of right_of fixed] in Hsame.
  destruct (Z.eq_dec (treeHeight (fixed l r g k rt)) (h - 1)) as [E|E]; [rewrite Hsame by auto; lia|lia].
Qed.

Lemma treePut_spec n g k id row :
  balanced n -> sorted (elems n) -> (forall r, row = Some r -> ID (item r) = id) ->
  elems (treePutGroup n g k id row) = upd (g, k, id) row (elems n)
  /\ balanced (treePutGroup n g k id row) /\ treeHeight n - 1 <= treeHeight (treePutGroup n g k id row) <= treeHeight n + 1.
Proof.
  revert g k id row. induction n as [|l IHl r rt IHr g0 k0 h s]; intros g k id row Hb Hs Hid.
  - destruct row as [x|]; cbn; [rewrite (Hid x eq_refl)|]; split_and!; done || lia.
  - destruct Hb as (Hbl & Hbr & Eh & Es & Hd). cbn [elems] in Hs. pose proof Hs as Hs'. apply tree_sorted_app in Hs' as (Hsl & Hll & Hgr & Hsr). cbn [fst] in *.
    cbn [treePutGroup elems]. unfold compareQueryKey. destruct (key_cmp (g, k, id) (g0, k0, ID (item r))) eqn:E.
    + apply key_cmp_eq in E. rewrite E, upd_here by done. injection E as -> -> ->. destruct row as [x|].
      * rewrite elems_rebalance, elems_fixed. split; [by rewrite (Hid x eq_refl)|]. apply balanced_rebalance; try done; cbn; lia.
      * destruct l as [|ll lr lrt lg lk lh ls]; [pose proof (height_nonneg _ Hbr); cbn [treeHeight balanced elems app] in *; split_and!; done || lia|].
        destruct rt as [|rl rr rrt rg rk rh rs]; [pose proof (height_nonneg _ Hbl); split; [cbn; by rewrite app_nil_r|split; [exact Hbl|cbn [treeHeight] in *; lia]]|].
        cbv iota. assert (elems (Node rl rr rrt rg rk rh rs) <> []) as Hne by (cbn; by destruct (elems rl)).
        set (l := Node ll lr lrt lg lk lh ls) in *. set (rt := Node rl rr rrt rg rk rh rs) in *. clearbody l rt.
        destruct (leftmost rt) as [[[g' k'] r']|] eqn:Em.
        -- destruct (elems_first _ _ _ _ Em) as [es Ee]. destruct (IHr g' k' (ID (item r')) None Hbr Hsr ltac:(done)) as (He & Hb' & Hh').
           rewrite elems_rebalance, elems_fixed, He, Ee. cbn [upd]. rewrite key_cmp_refl. split; [done|]. cbn [treeHeight]. apply balanced_rebalance; try done; cbn [fixed treeHeight]; lia.
        -- exfalso. rewrite leftmost_spec in Em. by destruct (elems rt) as [|[[[? ?] ?] ?] ?].
    + destruct (IHl g k id row Hbl Hsl Hid) as (He & Hb' & Hh'). rewrite elems_rebalance, elems_fixed, He, upd_left by done.
      split; [done|]. cbn [treeHeight]. apply balanced_rebalance; try done; cbn [fixed treeHeight]; lia.
    + destruct (IHr g k id row Hbr Hsr Hid) as (He & Hb' & Hh'). rewrite elems_rebalance, elems_fixed, He, upd_right; [|done|by unfold key_lt; rewrite key_cmp_sym; cbn [fst]; rewrite E].
      split; [done|]. cbn [treeHeight]. apply balanced_rebalance; try done; cbn [fixed treeHeight]; lia.
Qed.

(** The height is at most twice the logarithm of the size. *)
Lemma height_bound n : balanced n -> 2 ^ treeHeight n <= (treeSize n + 1) ^ 2.
Proof.
  induction n as [|l IHl r rt IHr g k h s]; [done|]. cbn [treeHeight treeSize]. intros (Hbl & Hbr & Eh & Es & Hd).
  specialize (IHl Hbl). specialize (IHr Hbr). pose proof (height_nonneg _ Hbl). pose proof (height_nonneg _ Hbr).
  assert (0 <= treeSize l) by (rewrite size_elems by done; lia). assert (0 <= treeSize rt) by (rewrite size_elems by done; lia).
  set (a := treeSize l + 1) in *. set (b := treeSize rt + 1) in *. assert (s + 1 = a + b) as -> by lia.
  set (t := 2 ^ Z.min (treeHeight l) (treeHeight rt)). assert (1 <= t) by (unfold t; pose proof (Z.pow_pos_nonneg 2 (Z.min (treeHeight l) (treeHeight rt))); lia).
  assert (forall x, Z.min (treeHeight l) (treeHeight rt) <= x -> t <= 2 ^ x) as Hmin by (intros x Hx; unfold t; apply Z.pow_le_mono_r; lia).
  assert (2 ^ h <= 4 * t \/ 2 ^ h = 4 * t) as Hh.
  { left. unfold t. rewrite <- (Z.pow_add_r 2 2) by lia. apply Z.pow_le_mono_r; lia. }
  assert (t <= a ^ 2) by (specialize (Hmin (treeHeight l)); lia). assert (t <= b ^ 2) by (specialize (Hmin (treeHeight rt)); lia).
  assert (t <= a * b) by (rewrite !Z.pow_2_r in *; nia). rewrite !Z.pow_2_r in *. nia.
Qed.

(** ** Ranks, places and slices *)

Definition before (k : qkey) (inclusive : bool) (e : entry) : bool :=
  match key_cmp e.1 k with Lt => true | Eq => inclusive | Gt => false end.

Lemma filter_none {A} (p : A -> bool) l : Forall (fun x => p x = false) l -> List.filter p l = [].
Proof. induction 1 as [|x l Hx _ IH]; cbn; [done|]. by rewrite Hx. Qed.
Lemma filter_every {A} (p : A -> bool) l : Forall (fun x => p x = true) l -> List.filter p l = l.
Proof. induction 1 as [|x l Hx _ IH]; cbn; [done|]. by rewrite Hx, IH. Qed.

Lemma groupRank_spec n g k i inc :
  balanced n -> sorted (elems n) -> groupRank n g k i inc = Z.of_nat (length (List.filter (before (g, k, i) inc) (elems n))).
Proof.
  induction n as [|l IHl r rt IHr g0 k0 h s]; intros Hb Hs; [done|]. destruct Hb as (Hbl & Hbr & _). cbn [elems groupRank] in *.
  apply tree_sorted_app in Hs as (Hsl & Hll & Hgr & Hsr). cbn [fst] in *. specialize (IHl Hbl Hsl). specialize (IHr Hbr Hsr). unfold compareQueryKey.
  rewrite List.filter_app. cbn [List.filter]. set (x := (g0, k0, ID (item r))) in *. assert (before (g, k, i) inc (x, r) = match key_cmp (g, k, i) x with Lt => false | Eq => inc | Gt => true end) as ->
    by (unfold before; cbn [fst]; rewrite (key_cmp_sym (g, k, i) x); by destruct (key_cmp (g, k, i) x)).
  assert (forall P : entry -> Prop, (forall e, key_lt x e.1 -> P e) -> Forall P (elems rt)) as Hrt by (intros P HP; eapply Forall_impl; [exact Hgr|done]).
  assert (forall P : entry -> Prop, (forall e, key_lt e.1 x -> P e) -> Forall P (elems l)) as Hlt by (intros P HP; eapply Forall_impl; [exact Hll|done]).
  assert ((key_cmp (g, k, i) x = Lt \/ key_cmp (g, k, i) x = Eq) -> List.filter (before (g, k, i) inc) (elems rt) = []) as Hnone.
  { intros Hc. apply filter_none, Hrt. intros e He. unfold before. assert (key_lt (g, k, i) e.1) as Hke by (destruct Hc as [Hc|Hc%key_cmp_eq]; [by transitivity x|by rewrite Hc]).
    rewrite key_cmp_sym, Hke. done. }
  assert ((key_cmp (g, k, i) x = Gt \/ key_cmp (g, k, i) x = Eq) -> List.filter (before (g, k, i) inc) (elems l) = elems l) as Hall.
  { intros Hc. apply filter_every, Hlt. intros e He. unfold before. assert (key_lt e.1 (g, k, i)) as ->; [|done].
    destruct Hc as [Hc|Hc%key_cmp_eq]; [|by rewrite Hc]. transitivity x; [done|]. unfold key_lt. by rewrite key_cmp_sym, Hc. }
  destruct (key_cmp (g, k, i) x) eqn:E.
  - rewrite Hall, Hnone by auto. rewrite length_app. destruct inc; cbn [length].
    + rewrite IHr, Hnone, size_elems by auto. cbn. lia.
    + rewrite IHl, Hall by auto. lia.
  - rewrite Hnone by auto. rewrite IHl, app_nil_r. done.
  - rewrite Hall by auto. rewrite length_app, size_elems, IHr by done. cbn. lia.
Qed.

(** In a tree of one group a rank counts the keys below. *)
Lemma rank_spec n k :
  balanced n -> sorted (elems n) -> (forall e, e ∈ elems n -> e.1.1.1 = 0) ->
  rank n k = Z.of_nat (length (List.filter (fun e => e.1.1.2 <? k) (elems n))).
Proof.
  induction n as [|l IHl r rt IHr g0 k0 h s]; intros Hb Hs Hg; [done|]. destruct Hb as (Hbl & Hbr & _). cbn [elems rank] in *.
  apply tree_sorted_app in Hs as (Hsl & Hll & Hgr & Hsr). cbn [fst] in *.
  assert (g0 = 0) as -> by (apply (Hg ((g0, k0, ID (item r)), r)); apply elem_of_app; right; by left).
  assert (forall e, e ∈ elems l -> e.1.1.1 = 0) as Hgl by (intros e He; apply Hg, elem_of_app; by left).
  assert (forall e, e ∈ elems rt -> e.1.1.1 = 0) as Hgrt by (intros e He; apply Hg, elem_of_app; right; by right).
  specialize (IHl Hbl Hsl Hgl). specialize (IHr Hbr Hsr Hgrt). rewrite List.filter_app. cbn [List.filter fst snd].
  destruct (Z.leb_spec k k0) as [Hk|Hk].
  - rewrite (proj2 (Z.ltb_ge k0 k)) by done. rewrite (filter_none _ (elems rt)); [by rewrite app_nil_r|].
    apply Forall_forall. intros [[[a b] c] d] He. apply Z.ltb_ge. unfold all_gt in Hgr. rewrite Forall_forall in Hgr. pose proof (Hgr _ He) as Hx. cbn [fst] in Hx.
    pose proof (Hgrt _ He) as E. cbn in E |- *. subst a. apply key_lt_spec in Hx. lia.
  - rewrite (proj2 (Z.ltb_lt k0 k)) by done. rewrite (filter_every _ (elems l)).
    + rewrite length_app, size_elems, IHr by done. cbn [length]. unfold entry, qkey in *. lia.
    + apply Forall_forall. intros [[[a b] c] d] He. apply Z.ltb_lt. unfold all_lt in Hll. rewrite Forall_forall in Hll. pose proof (Hll _ He) as Hx. cbn [fst] in Hx.
      pose proof (Hgl _ He) as E. cbn in E |- *. subst a. apply key_lt_spec in Hx. lia.
Qed.

Definition rows (n : queryTree) : list queryRow := (elems n).*2.

Lemma rows_Node l r rt g k h s : rows (Node l r rt g k h s) = rows l ++ r :: rows rt.
Proof. unfold rows. cbn. by rewrite fmap_app. Qed.

Lemma size_rows n : balanced n -> treeSize n = Z.of_nat (length (rows n)).
Proof. intros H. unfold rows. rewrite length_fmap. by apply size_elems. Qed.

Lemma at_spec n i : balanced n -> 0 <= i -> at_rank n i = rows n !! Z.to_nat i.
Proof.
  revert i. induction n as [|l IHl r rt IHr g k h s]; intros i Hb Hi; [done|]. destruct Hb as (Hbl & Hbr & _). cbn [at_rank].
  rewrite rows_Node. pose proof (size_rows _ Hbl) as Hs. destruct (Z.eqb_spec i (treeSize l)) as [->|Hne].
  - rewrite Hs, Nat2Z.id, lookup_app_r, Nat.sub_diag by done. done.
  - destruct (Z.ltb_spec i (treeSize l)).
    + rewrite IHl by done. rewrite lookup_app_l by lia. done.
    + rewrite IHr by (done || lia). rewrite lookup_app_r by lia. rewrite lookup_cons_ne_0 by lia. f_equal. lia.
Qed.

(** The rows at the places from [a] up to [b]. *)
Definition slice {A} (a b : Z) (l : list A) : list A := take (Z.to_nat (b - a)) (drop (Z.to_nat a) l).

Lemma slice_nil {A} (a b : Z) (l : list A) : b <= a -> slice a b l = [].
Proof. intros H. unfold slice. by replace (Z.to_nat (b - a)) with 0%nat by lia. Qed.

Lemma slice_app {A} (a b : Z) (l1 l2 : list A) :
  0 <= a -> slice a b (l1 ++ l2) = slice a (Z.min b (Z.of_nat (length l1))) l1 ++ slice (Z.max 0 (a - Z.of_nat (length l1))) (b - Z.of_nat (length l1)) l2.
Proof.
  intros Ha. unfold slice. set (n := Z.of_nat (length l1)). destruct (Z.le_gt_cases n a).
  - rewrite drop_app_ge by lia. replace (Z.to_nat (Z.min b n - a)) with 0%nat by lia. rewrite take_0, app_nil_l.
    replace (Z.to_nat a - length l1)%nat with (Z.to_nat (Z.max 0 (a - n))) by lia. f_equal. lia.
  - rewrite drop_app_le by lia. replace (Z.to_nat (Z.max 0 (a - n))) with 0%nat by lia. rewrite drop_0.
    destruct (Z.le_gt_cases b n).
    + rewrite take_app_le by (rewrite length_drop; lia). replace (Z.to_nat (b - n - Z.max 0 (a - n))) with 0%nat by lia. rewrite app_nil_r. f_equal. lia.
    + rewrite take_app_ge by (rewrite length_drop; lia). rewrite length_drop. rewrite (take_ge (drop _ _)) by (rewrite length_drop; lia). f_equal. f_equal. lia.
Qed.

(** [visit] adds the slice, and fails only where its context is done. *)
Lemma visit_spec n a b c :
  balanced n -> 0 <= a ->
  match visit n a b c with Some (l, c') => l = slice a b (rows n) /\ (c = None -> c' = None) | None => c <> None end.
Proof.
  revert a b c. induction n as [|l IHl r rt IHr g k h s]; intros a b c Hb Ha; cbn [visit]; [split; [|done]; unfold slice; change (rows Nil) with (@nil queryRow); by rewrite drop_nil, take_nil|].
  destruct Hb as (Hbl & Hbr & _). destruct (Z.leb_spec b a); [by rewrite slice_nil|]. rewrite rows_Node. pose proof (size_rows _ Hbl) as Hs.
  unfold mbind, option_bind. destruct (ctx_Err c) as [c1|] eqn:Hc; [|by destruct c].
  specialize (IHl a (Z.min b (treeSize l)) c1 Hbl Ha). destruct (visit l _ _ c1) as [[ls c2]|]; [|destruct c; [done|]; injection Hc as <-; done].
  specialize (IHr (Z.max 0 (a - treeSize l - 1)) (b - treeSize l - 1) c2 Hbr ltac:(lia)). destruct IHl as [-> Hc2].
  destruct (visit rt _ _ c2) as [[rs c3]|]; [|intros ->; injection Hc as <-; by apply IHr, Hc2]. destruct IHr as [-> Hc3].
  split; [|intros ->; injection Hc as <-; auto]. rewrite Hs. rewrite slice_app by done. f_equal.
  change (r :: rows rt) with ([r] ++ rows rt). rewrite slice_app by lia. cbn [length]. f_equal; [|f_equal; lia].
  unfold slice. change (Z.of_nat 1) with 1. set (m := Z.of_nat (length (rows l))) in *. destruct (Z.leb_spec a m), (Z.ltb_spec m b); cbn [andb].
  - replace (Z.to_nat (Z.max 0 (a - m))) with 0%nat by lia. rewrite drop_0, take_ge by (cbn [length]; lia). done.
  - replace (Z.to_nat (Z.min (b - m) 1 - Z.max 0 (a - m))) with 0%nat by lia. done.
  - rewrite drop_ge by (cbn [length]; lia). by rewrite take_nil.
  - rewrite drop_ge by (cbn [length]; lia). by rewrite take_nil.
Qed.

(** ** What is in the list *)

Lemma elem_of_upd k row l e :
  sorted l -> e ∈ upd k row l <-> (exists r, row = Some r /\ e = (k, r)) \/ (e ∈ l /\ e.1 <> k).
Proof.
  induction l as [|[k' r'] l IH]; intros Hs; cbn [upd].
  - destruct row as [r|]; split.
    + intros ->%list_elem_of_singleton. eauto.
    + intros [(? & [= ->] & ->)|[He%not_elem_of_nil _]]; [by left|done].
    + by intros He%not_elem_of_nil.
    + intros [(? & ? & _)|[He%not_elem_of_nil _]]; done.
  - apply sorted_cons in Hs as [Hg Hs]. cbn [fst] in Hg. unfold all_gt in Hg. rewrite Forall_forall in Hg.
    assert (forall x, x ∈ match row with Some r => [(k, r)] | None => [] end <-> exists r, row = Some r /\ x = (k, r)) as Hnew.
    { intros x. destruct row as [r|]; [rewrite list_elem_of_singleton; naive_solver|]. split; [by intros ?%not_elem_of_nil|by intros (? & ? & _)]. }
    destruct (key_cmp k k') eqn:E.
    + apply key_cmp_eq in E as ->. rewrite elem_of_app, Hnew, elem_of_cons. split.
      * intros [?|He]; [by left|right]. split; [by right|]. intros Hk. apply (key_lt_irrefl k'). rewrite <- Hk at 2. by apply Hg.
      * intros [?|[[->|He] Hk]]; [by left|done|by right].
    + rewrite elem_of_app, Hnew. split.
      * intros [?|He]; [by left|right]. split; [done|]. intros Hk. apply elem_of_cons in He as [->|He]; [cbn in Hk; subst; by apply key_lt_irrefl in E|].
        apply (key_lt_irrefl k). transitivity k'; [done|]. rewrite <- Hk. by apply Hg.
      * intros [?|[He _]]; [by left|by right].
    + rewrite !elem_of_cons, IH by done. split.
      * intros [->|[?|[? ?]]]; [right|by left|right; auto]. split; [by left|]. cbn. intros ->. by rewrite key_cmp_refl in E.
      * intros [?|[[->|?] ?]]; [right; by left|by left|right; by right].
Qed.

(** A sorted list is determined by what is in it. *)
Lemma sorted_NoDup l : sorted l -> NoDup l.
Proof.
  induction l as [|e l IH]; intros Hs; [constructor|]. apply sorted_cons in Hs as [Hg Hs]. constructor; [|by apply IH].
  unfold all_gt in Hg. rewrite Forall_forall in Hg. intros He. by apply (key_lt_irrefl e.1), Hg.
Qed.

End ThreadTree.
