(* ===== verification/ThreadIndexInv.v ===== *)
(** * The query index holds a map of rows

    Every tree of the index has, in its order, exactly the rows of one map
    from ids to rows that belong there; taking a row out and putting one in
    keep that. *)
From Stdlib Require Import ZArith Lia.
From stdpp Require Import prelude gmap list sorting.
From S2P Require Import Prelude ThreadIndex ThreadTree.

Module ThreadIndexInv.
Import ThreadIndex ThreadTree.

Local Open Scope Z_scope.

(** ** One tree *)

Definition rid (r : queryRow) : Z := ID (item r).
Abbreviation rowmap := (gmap Z queryRow).

(** The group and key a row has in each tree, if it is in it. *)
Definition in_ordered (r : queryRow) : option (Z * Z) := if negb (Order (item r) =? 0) then Some (0, Order (item r)) else None.
Definition in_active (r : queryRow) : option (Z * Z) := if Active (item r) then Some (0, rid r) else None.
Definition in_touched (r : queryRow) : option (Z * Z) := Some (0, touch r).
Definition in_children (r : queryRow) : option (Z * Z) := Some (Parent (item r), Order (item r)).
Definition in_roots (r : queryRow) : option (Z * Z) :=
  if (Parent (item r) =? 0) && negb (Order (item r) =? 0) then Some (0, Order (item r)) else None.
Definition in_activeRoots (r : queryRow) : option (Z * Z) := if activeBranch r && (Parent (item r) =? 0) then Some (0, rid r) else None.
Definition in_activeBranches (r : queryRow) : option (Z * Z) :=
  if activeBranch r then Some (Parent (item r), Order (item r)) else None.
Definition in_rootTouches (r : queryRow) : option (Z * Z) :=
  if Parent (item r) =? 0 then Some (0, subtreeVersion (header r)) else None.

Definition holds (M : rowmap) (f : queryRow -> option (Z * Z)) (e : entry) : Prop :=
  exists r g k, M !! rid r = Some r /\ f r = Some (g, k) /\ e = ((g, k, rid r), r).

Record tree_of (f : queryRow -> option (Z * Z)) (M : rowmap) (t : queryTree) : Prop := TreeOf {
  to_balanced : balanced t;
  to_sorted : sorted (elems t);
  to_elems : forall e, e ∈ elems t <-> holds M f e;
}.

Definition put_at (x : option (Z * Z)) (id : Z) (value : option queryRow) (t : queryTree) : queryTree :=
  match x with Some (g, k) => treePutGroup t g k id value | None => t end.

Lemma tree_put f M t row :
  tree_of f M t -> M !! rid row = None -> tree_of f (<[rid row := row]> M) (put_at (f row) (rid row) (Some row) t).
Proof.
  intros [Hb Hs He] HM. assert (forall e, holds (<[rid row := row]> M) f e <-> (exists g k, f row = Some (g, k) /\ e = ((g, k, rid row), row)) \/ holds M f e) as Hh.
  { intros e. split.
    - intros (r & g & k & [[Hr <-]|[Hr HMr]]%lookup_insert_Some & Hf & ->); [left; eauto|right; by exists r, g, k].
    - intros [(g & k & Hf & ->)|(r & g & k & HMr & Hf & ->)].
      + exists row, g, k. by rewrite lookup_insert_eq.
      + exists r, g, k. split; [|done]. rewrite lookup_insert_ne; [done|]. congruence. }
  destruct (f row) as [[g k]|] eqn:Hf; cbn [put_at].
  - destruct (treePut_spec t g k (rid row) (Some row) Hb Hs ltac:(by intros ? [= <-])) as (E & Hb' & _). constructor; [done|by rewrite E; apply sorted_upd|].
    intros e. rewrite E, elem_of_upd, Hh, He by done. split.
    + intros [(r & [= <-] & ->)|[? ?]]; [left; eauto|by right].
    + intros [(? & ? & [= <- <-] & ->)|Hx]; [left; eauto|right]. split; [done|]. destruct Hx as (r & g' & k' & HMr & _ & ->). cbn. intros [= _ _ Hid]. congruence.
  - constructor; try done. intros e. rewrite Hh, He. split; [by right|]. by intros [(? & ? & ? & _)|?].
Qed.

Lemma tree_del f M t row :
  tree_of f M t -> M !! rid row = Some row -> tree_of f (delete (rid row) M) (put_at (f row) (rid row) None t).
Proof.
  intros [Hb Hs He] HM.
  destruct (f row) as [[g k]|] eqn:Hf; cbn [put_at].
  - destruct (treePut_spec t g k (rid row) None Hb Hs ltac:(done)) as (E & Hb' & _). constructor; [done|by rewrite E; apply sorted_upd|].
    intros e. rewrite E, elem_of_upd, He by done. split.
    + intros [(r & ? & _)|[(r & g' & k' & HMr & Hfr & ->) Hk]]; [done|]. exists r, g', k'. split; [|done]. apply lookup_delete_Some. split; [|done].
      intros Hid. apply Hk. cbn. assert (r = row) as -> by congruence. congruence.
    + intros (r & g' & k' & [Hne HMr]%lookup_delete_Some & Hfr & ->). right. split; [by exists r, g', k'|]. cbn. congruence.
  - constructor; try done. intros e. rewrite He. split; intros (r & g & k & HMr & Hfr & ->); exists r, g, k; (split; [|done]).
    + apply lookup_delete_Some. split; [|done]. intros Hid. congruence.
    + by apply lookup_delete_Some in HMr as [_ ?].
Qed.

(** ** The index *)

Definition untouched (M : rowmap) : Z := Z.of_nat (size (filter (fun x => touch x.2 = 0) M)).

Record represents (q : queryIndex) (M : rowmap) : Prop := Represents {
  rp_lookup : forall id, lookup q id = M !! id;
  rp_id : forall id r, M !! id = Some r -> rid r = id;
  rp_ordered : tree_of in_ordered M (ordered q);
  rp_active : tree_of in_active M (active q);
  rp_touched : tree_of in_touched M (touched q);
  rp_children : tree_of in_children M (children q);
  rp_roots : tree_of in_roots M (roots q);
  rp_activeRoots : tree_of in_activeRoots M (activeRoots q);
  rp_activeBranches : tree_of in_activeBranches M (activeBranches q);
  rp_rootTouches : tree_of in_rootTouches M (rootTouches q);
  rp_invalid : invalidTouches q = untouched M;
}.

Lemma lookup_put m id value j :
  (b ← byID_put id value m !! (j mod 256); b !! j) = if decide (j = id) then value else b ← m !! (j mod 256); b !! j.
Proof.
  unfold byID_put. destruct (decide (id mod 256 = j mod 256)) as [E|E].
  - rewrite E, lookup_insert_eq. cbn. destruct (decide (j = id)) as [->|Hne]; [by rewrite lookup_partial_alter_eq|].
    rewrite lookup_partial_alter_ne by done. by destruct (m !! (j mod 256)).
  - rewrite lookup_insert_ne by done. rewrite decide_False by congruence. done.
Qed.

Lemma put_at_if (b : bool) g k id value t : put_if b g k id value t = put_at (if b then Some (g, k) else None) id value t.
Proof. by destruct b. Qed.

Lemma membership_trees row (rm : bool) q :
  let value := if rm then None else Some row in
  ordered (membership row rm q) = put_at (in_ordered row) (rid row) value (ordered q)
  /\ active (membership row rm q) = put_at (in_active row) (rid row) value (active q)
  /\ touched (membership row rm q) = put_at (in_touched row) (rid row) value (touched q)
  /\ children (membership row rm q) = put_at (in_children row) (rid row) value (children q)
  /\ roots (membership row rm q) = put_at (in_roots row) (rid row) value (roots q)
  /\ activeRoots (membership row rm q) = put_at (in_activeRoots row) (rid row) value (activeRoots q)
  /\ activeBranches (membership row rm q) = put_at (in_activeBranches row) (rid row) value (activeBranches q)
  /\ rootTouches (membership row rm q) = put_at (in_rootTouches row) (rid row) value (rootTouches q).
Proof.
  cbn zeta. unfold membership, in_ordered, in_active, in_roots, in_activeRoots, in_activeBranches, in_rootTouches. cbn. rewrite !put_at_if. done.
Qed.

Lemma membership_put q M row :
  represents q M -> M !! rid row = None -> represents (membership row false q) (<[rid row := row]> M).
Proof.
  intros [H1 H2 T1 T2 T3 T4 T5 T6 T7 T8 H3] HM. destruct (membership_trees row false q) as (E1 & E2 & E3 & E4 & E5 & E6 & E7 & E8).
  constructor; rewrite ?E1, ?E2, ?E3, ?E4, ?E5, ?E6, ?E7, ?E8; try (by apply tree_put).
  - intros id. unfold lookup, membership. cbn [byID]. rewrite lookup_put. change (ID (item row)) with (rid row).
    destruct (decide (id = rid row)) as [->|Hne]; [by rewrite lookup_insert_eq|]. rewrite lookup_insert_ne by done. apply H1.
  - intros id r [[<- <-]|[_ Hr]]%lookup_insert_Some; [done|by apply H2].
  - unfold membership, untouched. cbn [invalidTouches]. destruct (Z.eqb_spec (touch row) 0) as [Ht|Ht].
    + rewrite map_filter_insert_True by done. rewrite map_size_insert_None; [rewrite H3; unfold untouched; lia|].
      apply map_lookup_filter_None. by left.
    + rewrite map_filter_insert_False by done. by rewrite delete_id.
Qed.

Lemma membership_del q M row :
  represents q M -> M !! rid row = Some row -> represents (membership row true q) (delete (rid row) M).
Proof.
  intros [H1 H2 T1 T2 T3 T4 T5 T6 T7 T8 H3] HM. destruct (membership_trees row true q) as (E1 & E2 & E3 & E4 & E5 & E6 & E7 & E8).
  constructor; rewrite ?E1, ?E2, ?E3, ?E4, ?E5, ?E6, ?E7, ?E8; try (by apply tree_del).
  - intros id. unfold lookup, membership. cbn [byID]. rewrite lookup_put. change (ID (item row)) with (rid row).
    destruct (decide (id = rid row)) as [->|Hne]; [by rewrite lookup_delete_eq|]. rewrite lookup_delete_ne by done. apply H1.
  - intros id r [_ Hr]%lookup_delete_Some. by apply H2.
  - unfold membership, untouched. cbn [invalidTouches]. rewrite map_filter_delete. destruct (Z.eqb_spec (touch row) 0) as [Ht|Ht].
    + rewrite map_size_delete_Some; [|exists row; by apply map_lookup_filter_Some]. rewrite H3. unfold untouched.
      assert (size (filter (fun x => touch x.2 = 0) M) <> 0%nat); [|lia]. apply map_size_ne_0_lookup. exists (rid row).
      exists row. by apply map_lookup_filter_Some.
    + rewrite delete_id; [done|]. apply map_lookup_filter_None. right. intros r Hr. cbn. congruence.
Qed.

(** Every row is in [touched]. *)
Lemma touched_size q M : represents q M -> (size M <= Z.to_nat (treeSize (touched q)))%nat.
Proof.
  intros Hq. pose proof (rp_touched _ _ Hq) as [Hb Hs He]. rewrite (size_elems _ Hb), Nat2Z.id.
  rewrite <- (length_fmap (fun e : entry => rid e.2) (elems (touched q))), <- size_dom.
  transitivity (size (list_to_set ((fun e : entry => rid e.2) <$> elems (touched q)) : gset Z)).
  - apply subseteq_size. intros id [r Hr]%elem_of_dom. apply elem_of_list_to_set, list_elem_of_fmap.
    pose proof (rp_id _ _ Hq _ _ Hr) as Hid. exists ((0, touch r, rid r), r). split; [by cbn|]. apply He. exists r, 0, (touch r). by rewrite Hid.
  - clear. induction ((fun e : entry => rid e.2) <$> elems (touched q)) as [|x l IH]; cbn; [by rewrite size_empty|].
    rewrite size_union_alt, size_singleton. pose proof (subseteq_size (list_to_set l ∖ {[x]}) (list_to_set l : gset Z)) as H. specialize (H ltac:(by intros y [? _]%elem_of_difference)). lia.
Qed.

(** ** Counting a group *)

Definition in_group (f : queryRow -> option (Z * Z)) (id : Z) (r : queryRow) : bool :=
  match f r with Some (g, _) => g =? id | None => false end.

Definition group_of (f : queryRow -> option (Z * Z)) (M : rowmap) (id : Z) : Z := Z.of_nat (size (filter (fun x => in_group f id x.2 = true) M)).

(** Keys are [uint64]s. *)
Definition key_ok (f : queryRow -> option (Z * Z)) (r : queryRow) : Prop :=
  0 <= rid r <= max_uint64 /\ forall g k, f r = Some (g, k) -> 0 <= k <= max_uint64.

Lemma filter_length_split {A} (p q : A -> bool) l :
  Forall (fun x => q x = true -> p x = true) l ->
  length (List.filter p l) = (length (List.filter q l) + length (List.filter (fun x => p x && negb (q x)) l))%nat.
Proof. induction 1 as [|x l Hx _ IH]; [done|]. cbn. destruct (p x), (q x); cbn; lia. Qed.

Lemma filter_ext_Forall {A} (p q : A -> bool) l : Forall (fun x => p x = q x) l -> List.filter p l = List.filter q l.
Proof. induction 1 as [|x l Hx _ IH]; [done|]. cbn. by rewrite Hx, IH. Qed.

Lemma group_size_spec f M t id :
  tree_of f M t -> (forall j r, M !! j = Some r -> rid r = j /\ key_ok f r) -> group_size t id = group_of f M id.
Proof.
  intros [Hb Hs He] Hok. unfold group_size. rewrite !groupRank_spec by done.
  assert (Forall (fun e : entry => 0 <= e.1.1.2 <= max_uint64 /\ 0 <= e.1.2 <= max_uint64 /\ e.1.1.1 = match f e.2 with Some (g, _) => g | None => e.1.1.1 end
    /\ is_Some (f e.2) /\ M !! rid e.2 = Some e.2) (elems t)) as Hall.
  { apply Forall_forall. intros e (r & g & k & Hr & Hf & ->)%He. destruct (Hok _ _ Hr) as (_ & Hi & Hk). specialize (Hk _ _ Hf). cbn. rewrite Hf. split_and!; try done; lia. }
  assert (forall e : entry, 0 <= e.1.1.2 <= max_uint64 -> 0 <= e.1.2 <= max_uint64 -> before (id, max_uint64, max_uint64) true e = (e.1.1.1 <=? id)) as Hup.
  { intros [[[g k] i] r] Hk Hi. cbn in *. unfold before; cbn. destruct (Z.compare_spec g id) as [->|?|?].
    - rewrite Z.leb_refl. destruct (Z.compare_spec k max_uint64), (Z.compare_spec i max_uint64); try done; lia.
    - by rewrite (proj2 (Z.leb_le g id)) by lia.
    - by rewrite (proj2 (Z.leb_gt g id)) by lia. }
  assert (forall e : entry, 0 <= e.1.1.2 <= max_uint64 -> 0 <= e.1.2 <= max_uint64 -> before (id, 0, 0) false e = (e.1.1.1 <? id)) as Hlow.
  { intros [[[g k] i] r] Hk Hi. cbn in *. unfold before; cbn. destruct (Z.compare_spec g id) as [->|?|?].
    - rewrite Z.ltb_irrefl. destruct (Z.compare_spec k 0), (Z.compare_spec i 0); try done; lia.
    - by rewrite (proj2 (Z.ltb_lt g id)) by lia.
    - by rewrite (proj2 (Z.ltb_ge g id)) by lia. }
  rewrite (filter_ext_Forall (before (id, max_uint64, max_uint64) true) (fun e => e.1.1.1 <=? id)) by (eapply Forall_impl; [exact Hall|]; intros e (? & ? & _); by apply Hup).
  rewrite (filter_ext_Forall (before (id, 0, 0) false) (fun e => e.1.1.1 <? id)) by (eapply Forall_impl; [exact Hall|]; intros e (? & ? & _); by apply Hlow).
  rewrite (filter_length_split (fun e : entry => e.1.1.1 <=? id) (fun e => e.1.1.1 <? id)) by (apply Forall_forall; intros e _ ?%Z.ltb_lt; apply Z.leb_le; lia).
  rewrite (filter_ext_Forall (fun e : entry => (e.1.1.1 <=? id) && negb (e.1.1.1 <? id)) (fun e : entry => in_group f id e.2)).
  2:{ eapply Forall_impl; [exact Hall|]. intros [[[a b] c] d] (_ & _ & E & [[g k] Hf] & _). cbn [fst snd] in *. rewrite Hf in E. unfold in_group. rewrite Hf, <- E.
      apply Bool.eq_iff_eq_true. rewrite andb_true_iff, negb_true_iff, Z.leb_le, Z.ltb_ge, Z.eqb_eq. lia. }
  rewrite Nat2Z.inj_add, Z.add_simpl_l. unfold group_of. f_equal.
  rewrite <- (length_fmap (fun e : entry => rid e.2) (List.filter (fun e : entry => in_group f id e.2) (elems t))), <- size_dom. set (L := (fun e : entry => rid e.2) <$> List.filter (fun e : entry => in_group f id e.2) (elems t)).
  assert (NoDup L) as HND.
  { unfold L. apply NoDup_fmap_2_strong; [|apply NoDup_ListNoDup, List.NoDup_filter, NoDup_ListNoDup; by apply sorted_NoDup].
    intros x y Hx Hy Exy. apply list_elem_of_In, List.filter_In in Hx as [Hx _], Hy as [Hy _]. apply list_elem_of_In, He in Hx as (r1 & g1 & k1 & Hr1 & Hf1 & ->), Hy as (r2 & g2 & k2 & Hr2 & Hf2 & ->).
    cbn in Exy. assert (r1 = r2) as -> by congruence. congruence. }
  rewrite <- (size_list_to_set (C := gset Z) _ HND). f_equal. apply set_eq. intros j. rewrite elem_of_list_to_set. unfold L. rewrite list_elem_of_fmap, elem_of_dom. split.
  - intros (e & -> & Hin). apply list_elem_of_In, List.filter_In in Hin as [Hin Hg]. apply list_elem_of_In, He in Hin as (r & g & k & Hr & Hf & ->). exists r. by apply map_lookup_filter_Some.
  - intros [r [Hr Hg]%map_lookup_filter_Some]. destruct (Hok _ _ Hr) as (Hid & _). cbn in Hg. unfold in_group in Hg. destruct (f r) as [[g k]|] eqn:Hf; [|done].
    exists ((g, k, rid r), r). split; [done|]. apply list_elem_of_In, List.filter_In. split; [|unfold in_group; cbn; by rewrite Hf]. apply list_elem_of_In, He. exists r, g, k. by rewrite Hid.
Qed.

End ThreadIndexInv.
