(* ===== verification/ThreadAdvance.v ===== *)
(** * The query index, published anew

    [advance] replaces the affected rows, counts the children and stamps the
    headers of every row above one of them, before or after, and carries
    activity up to the roots: the index it yields is again exact. *)
From Stdlib Require Import ZArith Lia.
From stdpp Require Import prelude gmap list sorting.
From S2P Require Import Prelude ThreadIndex ThreadTree ThreadIndexInv.

Module ThreadAdvance.
Import ThreadIndex ThreadTree ThreadIndexInv.

Local Open Scope Z_scope.

(** ** Exact indexes *)

(** Ids are [uint64]s from one, and a parent is older than its child. *)
Definition wf_item (i : Item) : Prop := 0 < ID i <= max_uint64 /\ 0 <= Order i <= max_uint64 /\ 0 <= Parent i < ID i.
Definition wf (M : rowmap) : Prop := forall id r, M !! id = Some r -> rid r = id /\ wf_item (item r).

Definition kids (M : rowmap) (id : Z) : Z := group_of in_children M id.

(** Activity at a row or below it. *)
Inductive live (M : rowmap) : Z -> Prop :=
| live_self id r : M !! id = Some r -> Active (item r) = true -> live M id
| live_child id c r : M !! c = Some r -> Parent (item r) = id -> live M c -> live M id.

Record exact (q : queryIndex) (M : rowmap) : Prop := Exact {
  ex_rep : represents q M;
  ex_wf : wf M;
  ex_count : forall id r, M !! id = Some r -> childCount (header r) = u64 (kids M id);
  ex_branch : forall id r, M !! id = Some r -> activeBranch r = true <-> live M id;
}.

(** Maps with the same items. *)
Definition same_items (M N : rowmap) : Prop := forall id, item <$> M !! id = item <$> N !! id.

#[export] Instance same_items_equiv : Equivalence same_items.
Proof. split; [by intros M id|by intros M N H id|]. intros M N P H1 H2 id. by rewrite H1. Qed.

Lemma same_items_lookup M N id r : same_items M N -> M !! id = Some r -> exists r', N !! id = Some r' /\ item r' = item r.
Proof. intros H Hr. specialize (H id). rewrite Hr in H. destruct (N !! id) as [r'|]; [|done]. injection H as H. eauto. Qed.

Lemma wf_same M N : same_items M N -> wf M -> wf N.
Proof.
  intros H HM id r Hr. symmetry in H. destruct (same_items_lookup _ _ _ _ H Hr) as (r' & Hr' & E). unfold rid. rewrite <- E. by apply HM.
Qed.

Lemma size_filter_ext (P Q : queryRow -> bool) (M N : rowmap) :
  (forall id, match M !! id, N !! id with Some r, Some r' => P r = Q r' | None, None => True | _, _ => False end) ->
  size (filter (fun x => P x.2 = true) M) = size (filter (fun x => Q x.2 = true) N).
Proof.
  intros H. rewrite <- !size_dom. f_equal. apply set_eq. intros id. rewrite !elem_of_dom. specialize (H id).
  split; intros [r [Hr HP]%map_lookup_filter_Some]; cbn in HP; rewrite Hr in H.
  - destruct (N !! id) as [r'|] eqn:E; [|done]. exists r'. apply map_lookup_filter_Some. cbn. split; [done|congruence].
  - destruct (M !! id) as [r'|] eqn:E; [|done]. exists r'. apply map_lookup_filter_Some. cbn. split; [done|congruence].
Qed.

Lemma kids_same M N id : same_items M N -> kids M id = kids N id.
Proof.
  intros H. unfold kids, group_of. f_equal. apply size_filter_ext. intros j. specialize (H j). unfold in_group, in_children.
  destruct (M !! j), (N !! j); try done. injection H as H. by rewrite H.
Qed.

Lemma live_same M N id : same_items M N -> live M id -> live N id.
Proof.
  intros H. induction 1 as [id r Hr Ha|id c r Hr Hp _ IH]; destruct (same_items_lookup _ _ _ _ H Hr) as (r' & Hr' & E).
  - eapply live_self; [done|by rewrite E].
  - eapply live_child; [done|by rewrite E|done].
Qed.

Lemma wf_keys M : wf M -> forall j r, M !! j = Some r -> rid r = j /\ key_ok in_children r.
Proof.
  intros HM j r Hr. destruct (HM _ _ Hr) as (E & H1 & H2 & H3). split; [done|]. unfold key_ok, rid. split; [lia|]. intros g k [= <- <-]. lia.
Qed.

Lemma wf_branch_keys M : wf M -> forall j r, M !! j = Some r -> rid r = j /\ key_ok in_activeBranches r.
Proof.
  intros HM j r Hr. destruct (HM _ _ Hr) as (E & H1 & H2 & H3). split; [done|]. unfold key_ok, rid, in_activeBranches. split; [lia|]. intros g k. case_match; [|done]. intros [= <- <-]. lia.
Qed.

(** ** Replacing the affected rows *)

Definition replaced (x : Z * option (Item * Z * contentRecipe * childHeader)) (M : rowmap) : rowmap :=
  match x.2 with Some y => <[x.1 := public_row y]> M | None => delete x.1 M end.

Definition change_ok (x : Z * option (Item * Z * contentRecipe * childHeader)) : Prop :=
  forall i t r h, x.2 = Some (i, t, r, h) -> ID i = x.1 /\ wf_item i.

Lemma represents_compactLost q M v : represents q M -> represents (set_compactLost v q) M.
Proof. intros [H1 H2 T1 T2 T3 T4 T5 T6 T7 T8 H3]. by constructor. Qed.

Lemma represents_evidence q M p : represents q M -> represents (evidence p q) M.
Proof. intros [H1 H2 T1 T2 T3 T4 T5 T6 T7 T8 H3]. by constructor. Qed.

Lemma replace_row_spec q M v x : represents q M -> change_ok x -> represents (replace_row v x q) (replaced x M).
Proof.
  intros Hq Hx. destruct x as [id new]. unfold replace_row, replaced. cbn [fst snd].
  set (q1 := match lookup q id with Some _ => _ | None => q end).
  assert (represents q1 (delete id M)) as H1.
  { unfold q1. rewrite (rp_lookup _ _ Hq). destruct (M !! id) as [old|] eqn:Hid; [|by rewrite delete_id].
    pose proof (rp_id _ _ Hq _ _ Hid) as E. rewrite <- E. apply membership_del; [|by rewrite E].
    destruct (_ && _); [by apply represents_compactLost|done]. }
  destruct new as [[[[i t] rc] h]|]; [|done]. destruct (Hx i t rc h eq_refl) as [E _]. cbn in E.
  rewrite <- (insert_delete_eq M id (public_row (i, t, rc, h))). rewrite <- E in H1 |- *. by apply (membership_put _ _ (public_row (i, t, rc, h))); [|apply lookup_delete_eq].
Qed.

Lemma replaced_lookup x M id :
  replaced x M !! id = if decide (id = x.1) then public_row <$> x.2 else M !! id.
Proof.
  unfold replaced. destruct (decide (id = x.1)) as [->|Hne]; destruct x.2; cbn.
  - by rewrite lookup_insert_eq.
  - by rewrite lookup_delete_eq.
  - by rewrite lookup_insert_ne.
  - by rewrite lookup_delete_ne.
Qed.

Lemma replaced_wf x M : change_ok x -> wf M -> wf (replaced x M).
Proof.
  intros Hx HM id r. rewrite replaced_lookup. destruct (decide (id = x.1)) as [->|Hne]; [|apply HM].
  destruct x.2 as [[[[i t] rc] h]|] eqn:E; [|done]. intros [= <-]. destruct (Hx _ _ _ _ E). done.
Qed.

(** The rows once all are replaced. *)
Definition content (l : list (Z * option (Item * Z * contentRecipe * childHeader))) (M : rowmap) : rowmap := foldl (fun M x => replaced x M) M l.

Lemma replace_rows_spec q M v l :
  represents q M -> Forall change_ok l -> represents (foldl (fun q x => replace_row v x q) q l) (content l M).
Proof. revert q M. induction l as [|x l IH]; intros q M Hq Hl; [done|]. apply Forall_cons in Hl as [Hx Hl]. cbn. apply IH; [by apply replace_row_spec|done]. Qed.

Lemma content_wf l M : Forall change_ok l -> wf M -> wf (content l M).
Proof. revert M. induction l as [|x l IH]; intros M Hl HM; [done|]. apply Forall_cons in Hl as [Hx Hl]. cbn. apply IH; [done|by apply replaced_wf]. Qed.

Lemma content_other l M id : id ∉ l.*1 -> content l M !! id = M !! id.
Proof.
  revert M. induction l as [|x l IH]; intros M Hid; [done|]. cbn in Hid. apply not_elem_of_cons in Hid as [Hne Hid]. change (content (x :: l) M) with (content l (replaced x M)).
  rewrite IH by done. rewrite replaced_lookup. by rewrite decide_False.
Qed.

(** ** Refreshing headers *)

Definition refreshed (v : Z) (M : rowmap) (r : queryRow) : queryRow :=
  let h := header r in let n := u64 (kids M (rid r)) in
  set_header (MkHeader (headline h) (errorSummary h) (errorKnown h) n v (n <? 2 ^ 53) (v <? 2 ^ 53) (taskID h) (taskKnown h)) r.

Lemma kids_delete M id : wf M -> kids (delete id M) id = kids M id.
Proof.
  intros HM. unfold kids, group_of. f_equal. rewrite map_filter_delete. rewrite delete_id; [done|].
  apply map_lookup_filter_None. right. intros r Hr. cbn. unfold in_group, in_children. destruct (HM _ _ Hr) as (E & _ & _ & Hp). unfold rid in E.
  destruct (Z.eqb_spec (Parent (item r)) id); [lia|done].
Qed.

Lemma insert_same_items M id r r' : M !! id = Some r -> item r' = item r -> same_items M (<[id := r']> M).
Proof. intros Hr E j. destruct (decide (j = id)) as [->|Hne]; [rewrite lookup_insert_eq, Hr; cbn; by rewrite E|by rewrite lookup_insert_ne]. Qed.

Lemma represents_replace q M r r' :
  represents q M -> M !! rid r = Some r -> rid r' = rid r ->
  represents (membership r' false (membership r true q)) (<[rid r := r']> M).
Proof.
  intros Hq Hr E. rewrite <- (insert_delete_eq M (rid r) r'). rewrite <- E. apply membership_put; [rewrite E; by apply membership_del|by rewrite E, lookup_delete_eq].
Qed.

Lemma refreshHeader_spec q M v id r :
  represents q M -> wf M -> M !! id = Some r -> represents (refreshHeader r v q) (<[id := refreshed v M r]> M).
Proof.
  intros Hq HM Hr. destruct (HM _ _ Hr) as [E _]. subst id. unfold refreshHeader. change (ID (item r)) with (rid r). rewrite (rp_lookup _ _ Hq), Hr.
  assert (represents (membership r true q) (delete (rid r) M)) as Hd by (by apply membership_del).
  assert (group_size (children (membership r true q)) (rid r) = kids M (rid r)) as ->.
  { rewrite (group_size_spec in_children (delete (rid r) M)); [by apply kids_delete|by apply Hd|].
    intros j x [_ Hx]%lookup_delete_Some. by apply (wf_keys M). }
  by apply (represents_replace q M r (refreshed v M r)).
Qed.

Definition refresh_at (v : Z) (N : rowmap) (ids : list Z) (M : rowmap) : rowmap :=
  foldl (fun M id => match M !! id with Some r => <[id := refreshed v N r]> M | None => M end) M ids.

Lemma refreshed_same v M N r : same_items M N -> refreshed v M r = refreshed v N r.
Proof. intros H. unfold refreshed. by rewrite (kids_same _ _ _ H). Qed.

Lemma refresh_dirty_spec q M v l N :
  represents q M -> wf M -> same_items N M ->
  represents (refresh_dirty v l q) (refresh_at v N l M) /\ same_items N (refresh_at v N l M).
Proof.
  revert q M. induction l as [|id l IH]; intros q M Hq HM HN; [done|]. cbn. rewrite (rp_lookup _ _ Hq). destruct (M !! id) as [r|] eqn:Hr; [|by apply IH].
  assert (same_items M (<[id := refreshed v N r]> M)) as Hs by (by eapply insert_same_items).
  apply IH; [rewrite (refreshed_same v N M r HN); by apply refreshHeader_spec|by eapply wf_same|by etransitivity].
Qed.

Lemma refresh_at_lookup v N l M id :
  refresh_at v N l M !! id = (if decide (id ∈ l) then refreshed v N else fun r => r) <$> M !! id.
Proof.
  revert M. induction l as [|j l IH]; intros M.
  - cbn. rewrite decide_False by apply not_elem_of_nil. by destruct (M !! id).
  - change (refresh_at v N (j :: l) M) with (refresh_at v N l (match M !! j with Some r => <[j := refreshed v N r]> M | None => M end)).
    rewrite IH. destruct (decide (id = j)) as [->|Hne].
    + rewrite (decide_True (P := j ∈ j :: l)) by (by left). destruct (M !! j) as [r|] eqn:Hr; [rewrite lookup_insert_eq|rewrite Hr; by destruct (decide _)]. cbn.
      destruct (decide _); [|done]. cbn. f_equal.
    + assert ((match M !! j with Some r => <[j := refreshed v N r]> M | None => M end) !! id = M !! id) as -> by (destruct (M !! j); [by rewrite lookup_insert_ne|done]).
      destruct (decide (id ∈ l)) as [Hin|Hin].
      * by rewrite decide_True by (by right).
      * rewrite decide_False; [done|]. intros [?|?]%elem_of_cons; done.
Qed.

(** ** The rows above *)

(** Row [c] is [x], or below it. *)
Inductive under (M : rowmap) (x : Z) : Z -> Prop :=
| under_self : is_Some (M !! x) -> under M x x
| under_step c r : M !! c = Some r -> under M x (Parent (item r)) -> under M x c.

(** Upwards closed, but for what is still to be marked. *)
Definition closed_to (M : rowmap) (D : gset Z) (p : Z) : Prop :=
  forall id r, id ∈ D -> M !! id = Some r -> Parent (item r) = 0 \/ M !! Parent (item r) = None \/ Parent (item r) ∈ D \/ Parent (item r) = p.
Definition closed (M : rowmap) (D : gset Z) : Prop := closed_to M D 0.

Lemma closed_any M D p : closed M D -> closed_to M D p.
Proof. intros H id r Hin Hr. destruct (H id r Hin Hr) as [?|[?|[?|?]]]; auto. Qed.

Lemma mark_spec q M fuel id D :
  represents q M -> closed_to M D id -> (size (dom M ∖ D) < fuel)%nat ->
  let D' := mark_ancestors fuel q id D in
  D ⊆ D' /\ closed M D' /\ (id = 0 \/ M !! id = None \/ id ∈ D') /\ (forall x, x ∈ D' -> x ∈ D \/ under M x id).
Proof.
  intros Hq. revert id D. induction fuel as [|fuel IH]; intros id D Hc Hf; [lia|]. cbn [mark_ancestors].
  destruct (bool_decide (id = 0 \/ id ∈ D)) eqn:E.
  - apply bool_decide_eq_true in E. split; [done|]. split; [|split; [tauto|by left]].
    intros j r Hj Hr. destruct (Hc j r Hj Hr) as [?|[?|[?|Hp]]]; auto. rewrite Hp in *. destruct E; auto.
  - apply bool_decide_eq_false in E. rewrite (rp_lookup _ _ Hq). destruct (M !! id) as [row|] eqn:Hid.
    + destruct (IH (Parent (item row)) ({[id]} ∪ D)) as (H1 & H2 & H3 & H4).
      * intros j r [->%elem_of_singleton|Hj]%elem_of_union Hr; [right; right; right; congruence|].
        destruct (Hc j r Hj Hr) as [?|[?|[?|Hp]]]; auto; [right; right; left; set_solver|right; right; left; set_solver].
      * assert (dom M ∖ ({[id]} ∪ D) ⊂ dom M ∖ D) as Hs; [|apply subset_size in Hs; lia].
        assert (id ∈ dom M) by (by apply elem_of_dom). set_solver.
      * split; [set_solver|]. split; [done|]. split; [right; right; set_solver|]. intros x Hx. destruct (H4 x Hx) as [[->%elem_of_singleton|?]%elem_of_union|Hu]; auto.
        -- right. constructor. by rewrite Hid.
        -- right. by eapply under_step.
    + split; [done|]. split; [|split; [by auto|by left]]. intros j r Hj Hr. destruct (Hc j r Hj Hr) as [?|[?|[?|Hp]]]; auto. right. left. by rewrite Hp.
Qed.

(** All that [ids] mark. *)
Definition marked (q : queryIndex) (ids : list Z) : gset Z := foldl (fun d id => ancestors q id d) ∅ ids.

Lemma marked_spec q M ids :
  represents q M ->
  closed M (marked q ids) /\ (forall id, id ∈ ids -> id = 0 \/ M !! id = None \/ id ∈ marked q ids)
  /\ (forall x, x ∈ marked q ids -> exists id, id ∈ ids /\ under M x id).
Proof.
  intros Hq. unfold marked. assert (forall D, closed M D ->
    D ⊆ foldl (fun d id => ancestors q id d) D ids /\ closed M (foldl (fun d id => ancestors q id d) D ids)
    /\ (forall id, id ∈ ids -> id = 0 \/ M !! id = None \/ id ∈ foldl (fun d id => ancestors q id d) D ids)
    /\ (forall x, x ∈ foldl (fun d id => ancestors q id d) D ids -> x ∈ D \/ exists id, id ∈ ids /\ under M x id)) as H.
  { induction ids as [|id ids IH]; intros D HD; cbn.
    - split; [done|]. split; [done|]. split; [by intros id ?%not_elem_of_nil|by left].
    - pose proof (touched_size _ _ Hq) as Hsz.
      destruct (mark_spec q M (S (Z.to_nat (treeSize (touched q)))) id D Hq (closed_any _ _ _ HD)) as (M1 & M2 & M3 & M4).
      { pose proof (subseteq_size (dom M ∖ D) (dom M) ltac:(set_solver)) as Hs. rewrite size_dom in Hs. lia. }
      change (mark_ancestors (S (Z.to_nat (treeSize (touched q)))) q id D) with (ancestors q id D) in *.
      destruct (IH _ M2) as (I1 & I2 & I3 & I4). split; [by transitivity (ancestors q id D)|]. split; [done|]. split.
      + intros j [->|Hj]%elem_of_cons; [|by apply I3]. destruct M3 as [?|[?|?]]; auto.
      + intros x Hx. destruct (I4 x Hx) as [Hx'|(j & Hj & Hu)]; [|right; exists j; split; [by right|done]].
        destruct (M4 x Hx') as [?|Hu]; [by left|right; exists id; split; [by left|done]]. }
  destruct (H ∅) as (_ & H2 & H3 & H4); [by intros j r ?%not_elem_of_empty|]. split; [done|]. split; [done|].
  intros x Hx. by destruct (H4 x Hx) as [?%not_elem_of_empty|?].
Qed.

(** A closed set has all above what is in it. *)
Lemma closed_under M D x c : wf M -> closed M D -> under M x c -> c ∈ D -> x ∈ D.
Proof.
  intros HM HD. induction 1 as [Hs|c r Hr Hu IH]; [done|]. intros Hc. destruct (HD c r Hc Hr) as [Hp|[Hp|[Hp|Hp]]]; [..|by apply IH|]; exfalso.
  - rewrite Hp in Hu. inversion Hu as [[r' Hr'] E|c' r' Hr' Hu' E]; subst; destruct (HM _ _ Hr') as (E' & Hid & _); unfold rid in E'; lia.
  - inversion Hu as [[r' Hr'] E|c' r' Hr' Hu' E]; subst; congruence.
  - rewrite Hp in Hu. inversion Hu as [[r' Hr'] E|c' r' Hr' Hu' E]; subst; destruct (HM _ _ Hr') as (E' & Hid & _); unfold rid in E'; lia.
Qed.

End ThreadAdvance.
