(* ===== verification/ThreadActivity.v ===== *)
(** * The query index: activity carried up to the roots

    [refreshRootActivity] settles the dirty rows, children before parents, in
    whatever order its maps are walked. *)
From Stdlib Require Import ZArith Lia.
From stdpp Require Import prelude gmap list sorting.
From S2P Require Import Prelude ThreadIndex ThreadTree ThreadIndexInv ThreadAdvance.

Module ThreadActivity.
Import ThreadIndex ThreadTree ThreadIndexInv ThreadAdvance.

Local Open Scope Z_scope.

(** ** The counts of unsettled children *)

Definition above (M : rowmap) (c : Z) : option Z := (fun r => Parent (item r)) <$> M !! c.
Definition waiting (M : rowmap) (X : gset Z) (id : Z) : Z := Z.of_nat (size (filter (fun c => above M c = Some id) X)).

Lemma waiting_zero M X id : waiting M X id = 0 <-> forall c, c ∈ X -> above M c <> Some id.
Proof.
  unfold waiting. split.
  - intros H c Hc Ha. assert (size (filter (fun c => above M c = Some id) X) = 0%nat) as E by lia. apply size_empty_inv in E.
    apply (not_elem_of_empty (C := gset Z) c). rewrite <- E. by apply elem_of_filter.
  - intros H. rewrite (proj2 (size_empty_iff _)); [done|]. intros c. rewrite elem_of_filter. split; [intros [? ?]; by destruct (H c)|by intros ?%not_elem_of_empty].
Qed.

Lemma waiting_take M X c id : c ∈ X -> waiting M X id = waiting M (X ∖ {[c]}) id + (if decide (above M c = Some id) then 1 else 0).
Proof.
  intros Hc. unfold waiting. destruct (decide (above M c = Some id)) as [Ha|Ha].
  - assert (filter (fun c => above M c = Some id) X = {[c]} ∪ filter (fun c => above M c = Some id) (X ∖ {[c]})) as ->.
    { apply set_eq. intros j. rewrite elem_of_union, elem_of_singleton, !elem_of_filter, elem_of_difference, elem_of_singleton. destruct (decide (j = c)) as [->|]; tauto. }
    rewrite size_union, size_singleton; [lia|]. intros j ->%elem_of_singleton [_ [_ Hn]%elem_of_difference]%elem_of_filter. by apply Hn, elem_of_singleton.
  - assert (filter (fun c => above M c = Some id) X = filter (fun c => above M c = Some id) (X ∖ {[c]})) as ->; [|lia].
    apply set_eq. intros j. rewrite !elem_of_filter, elem_of_difference, elem_of_singleton. destruct (decide (j = c)) as [->|]; tauto.
Qed.

Lemma above_same M N c : same_items M N -> above M c = above N c.
Proof. intros H. specialize (H c). unfold above. destruct (M !! c), (N !! c); try done. injection H as H. cbn. by rewrite H. Qed.

(** ** The loop *)

(** Rows that differ in [activeBranch] alone. *)
Definition same_but (M N : rowmap) : Prop := forall id, set_activeBranch false <$> M !! id = set_activeBranch false <$> N !! id.

Lemma same_but_items M N : same_but M N -> same_items M N.
Proof. intros H id. specialize (H id). destruct (M !! id) as [r|], (N !! id) as [r'|]; try done. injection H as H _ _ _. cbn. by rewrite H. Qed.

Record settling (N : rowmap) (D P S : gset Z) (pending : gmap Z Z) (ready : list Z) (q : queryIndex) (M : rowmap) : Prop := Settling {
  st_rep : represents q M;
  st_same : same_but N M;
  st_sub : S ⊆ P;
  st_pending : forall id, pending !! id = if decide (id ∈ P) then Some (waiting N (P ∖ S) id) else None;
  st_NoDup : NoDup ready;
  st_ready : forall id, id ∈ ready <-> id ∈ P ∖ S /\ waiting N (P ∖ S) id = 0;
  st_below : forall id, id ∈ S -> waiting N (P ∖ S) id = 0;
  st_exact : forall id r, M !! id = Some r -> id ∉ D \/ id ∈ S -> activeBranch r = true <-> live N id;
}.

Section loop.
Context (N : rowmap) (D P : gset Z).
Hypothesis HN : wf N.
Hypothesis HP : forall id, id ∈ P <-> id ∈ D /\ is_Some (N !! id).

(** A row all of whose children are settled. *)
Lemma branch_exact S pending ready q M id row :
  settling N D P S pending ready q M -> waiting N (P ∖ S) id = 0 -> M !! id = Some row ->
  (Active (item row) || (0 <? group_size (activeBranches q) id)) = true <-> live N id.
Proof.
  intros [H1 H2 H3 H4 H5 H6 H7 H8] Hw Hr. pose proof (same_but_items _ _ H2) as Hit. assert (wf M) as HM by (by eapply wf_same).
  assert (forall c r, M !! c = Some r -> Parent (item r) = id -> activeBranch r = true <-> live N c) as Hkid.
  { intros c r Hc Hp. apply (H8 c r Hc). destruct (decide (c ∈ D)) as [HcD|]; [right|by left]. destruct (decide (c ∈ S)) as [|HcS]; [done|exfalso].
    apply (proj1 (waiting_zero N (P ∖ S) id) Hw c).
    - apply elem_of_difference. split; [|done]. apply HP. split; [done|]. destruct (same_items_lookup _ _ _ _ (symmetry Hit) Hc) as (r' & Hr' & _). by exists r'.
    - rewrite (above_same _ _ _ Hit). unfold above. rewrite Hc. cbn. by rewrite Hp. }
  rewrite (group_size_spec in_activeBranches M) by (apply H1 || by apply wf_branch_keys). rewrite orb_true_iff, Z.ltb_lt. split.
  - intros [Ha|Hg].
    + destruct (same_items_lookup _ _ _ _ (symmetry Hit) Hr) as (r' & Hr' & E). eapply live_self; [done|by rewrite E].
    + assert (size (filter (fun x => in_group in_activeBranches id x.2 = true) M) <> 0%nat) as Hne by (unfold group_of in Hg; lia).
      apply map_size_ne_0_lookup in Hne as (c & r & [Hc Hin]%map_lookup_filter_Some). cbn in Hin. unfold in_group, in_activeBranches in Hin.
      destruct (activeBranch r) eqn:Hb; [|done]. apply Z.eqb_eq in Hin. destruct (same_items_lookup _ _ _ _ (symmetry Hit) Hc) as (r' & Hr' & E).
      eapply live_child; [exact Hr'|by rewrite E|]. by apply (Hkid c r).
  - intros Hl. inversion Hl as [j r' Hr' Ha|j c r' Hr' Hp Hc]; subst; destruct (same_items_lookup _ _ _ _ Hit Hr') as (r2 & Hr2 & E).
    + left. rewrite <- Ha, <- E. f_equal. f_equal. congruence.
    + right. rewrite <- E in Hkid. assert (activeBranch r2 = true) as Hb by (apply (Hkid c r2 Hr2); [done|done]).
      unfold group_of. assert (size (filter (fun x => in_group in_activeBranches (Parent (item r')) x.2 = true) M) <> 0%nat); [|lia].
      apply map_size_ne_0_lookup. exists c, r2. apply map_lookup_filter_Some. split; [done|]. cbn. unfold in_group, in_activeBranches. rewrite Hb, E. by apply Z.eqb_eq.
Qed.

(** The row once settled, moved or not. *)
Lemma settle_row q M id row b :
  represents q M -> M !! id = Some row -> rid row = id ->
  represents (if Bool.eqb b (activeBranch row) then q else membership (set_activeBranch b row) false (membership row true q)) (<[id := set_activeBranch b row]> M).
Proof.
  intros Hq Hr E. destruct (Bool.eqb b (activeBranch row)) eqn:Eb.
  - apply Bool.eqb_prop in Eb. rewrite insert_id; [done|]. rewrite Hr, Eb. by destruct row.
  - rewrite <- E. apply represents_replace; [done|by rewrite E|done].
Qed.

Lemma settling_step S pending id ready q M row :
  settling N D P S pending (id :: ready) q M -> M !! id = Some row ->
  let b := Active (item row) || (0 <? group_size (activeBranches q) id) in
  let p := Parent (item row) in
  settling N D P ({[id]} ∪ S)
    (match pending !! p with Some count => <[p := count - 1]> pending | None => pending end)
    (match pending !! p with Some count => if count =? 1 then p :: ready else ready | None => ready end)
    (if Bool.eqb b (activeBranch row) then q else membership (set_activeBranch b row) false (membership row true q))
    (<[id := set_activeBranch b row]> M).
Proof.
  intros Hst Hr. cbn zeta. set (b := _ || _). set (p := Parent (item row)). pose proof Hst as [H1 H2 H3 H4 H5 H6 H7 H8].
  destruct (proj1 (H6 id) ltac:(by left)) as [Hin Hw]. pose proof (same_but_items _ _ H2) as Hit. assert (wf M) as HM by (by eapply wf_same).
  pose proof (branch_exact _ _ _ _ _ _ _ Hst Hw Hr) as Hb. fold b in Hb.
  destruct (HM _ _ Hr) as (Eid & Hi1 & Hi2 & Hi3). fold p in Hi3. unfold rid in Eid.
  assert (above N id = Some p) as Hab by (rewrite (above_same _ _ _ Hit); unfold above; by rewrite Hr).
  assert (P ∖ ({[id]} ∪ S) = P ∖ S ∖ {[id]}) as ES by (apply set_eq; intros j; rewrite !elem_of_difference, elem_of_union, elem_of_singleton; tauto).
  assert (forall j, waiting N (P ∖ ({[id]} ∪ S)) j = if decide (j = p) then waiting N (P ∖ S) j - 1 else waiting N (P ∖ S) j) as Hwait.
  { intros j. rewrite ES. pose proof (waiting_take N (P ∖ S) id j Hin) as Ht. destruct (decide (j = p)) as [->|Hne]; [rewrite decide_True in Ht by done; lia|].
    rewrite decide_False in Ht by congruence. lia. }
  assert (1 <= waiting N (P ∖ S) p) as Hp1 by (pose proof (waiting_take N (P ∖ S) id p Hin) as Ht; rewrite decide_True in Ht by done; unfold waiting in *; lia).
  assert (forall j, j <> p -> (j ∈ P ∖ ({[id]} ∪ S) /\ waiting N (P ∖ ({[id]} ∪ S)) j = 0) <-> j ∈ ready) as Hrd.
  { intros j Hne. rewrite Hwait, decide_False by done. pose proof (H6 j) as Hj. rewrite elem_of_cons in Hj. apply NoDup_cons in H5 as [Hnr _].
    rewrite ES, elem_of_difference, elem_of_singleton. split; [intros [[? ?] ?]; destruct Hj as [_ Hj]; by destruct Hj|]. intros Hjr. destruct Hj as [Hj _]. destruct (Hj (or_intror Hjr)) as [? ?].
    split; [|done]. split; [done|]. intros ->. done. }
  assert (p ∉ id :: ready) as Hpr by (intros Hpr; apply H6 in Hpr as [_ Hpr]; lia).
  assert (p ∉ S) as HpS by (intros HpS; specialize (H7 _ HpS); lia).
  pose proof (H4 p) as Hpp. constructor.
  - apply settle_row; done.
  - intros j. rewrite (H2 j). destruct (decide (j = id)) as [->|]; [rewrite lookup_insert_eq, Hr; done|by rewrite lookup_insert_ne].
  - apply elem_of_difference in Hin as [Hin _]. intros j [->%elem_of_singleton|Hj]%elem_of_union; auto.
  - intros j. rewrite Hwait, Hpp. destruct (decide (p ∈ P)) as [HpP|HpP].
    + destruct (decide (j = p)) as [->|Hne]; [rewrite lookup_insert_eq; by rewrite decide_True|by rewrite lookup_insert_ne].
    + rewrite H4. destruct (decide (j ∈ P)) as [HjP|]; [|done]. rewrite decide_False; [done|]. by intros ->.
  - apply NoDup_cons in H5 as [Hnr H5]. rewrite Hpp. destruct (decide (p ∈ P)); [|done]. destruct (_ =? 1); [|done].
    constructor; [|done]. intros Hx. apply Hpr. by right.
  - intros j. rewrite Hpp. destruct (decide (j = p)) as [->|Hne].
    + rewrite Hwait, (decide_True (P := p = p)) by done. rewrite elem_of_difference, elem_of_union, elem_of_singleton. destruct (decide (p ∈ P)) as [HpP|HpP].
      * destruct (Z.eqb_spec (waiting N (P ∖ S) p) 1) as [E|E].
        -- split; [intros _|intros _; by left]. split; [|lia]. split; [done|]. intros [E'|E']; [|done]. rewrite E' in Hi3. lia.
        -- split; [intros Hx; destruct Hpr; by right|lia].
      * split; [intros Hx; destruct Hpr; by right|tauto].
    + rewrite Hrd by done. destruct (decide (p ∈ P)); [|done]. destruct (_ =? 1); [|done]. rewrite elem_of_cons. tauto.
  - intros j [->%elem_of_singleton|Hj]%elem_of_union; rewrite Hwait.
    + rewrite decide_False; [done|]. intros E. lia.
    + rewrite decide_False by (by intros ->). by apply H7.
  - intros j r. intros [(<- & <-)|(Hne & Hj)]%lookup_insert_Some Hor; [done|]. apply (H8 j r Hj). destruct Hor as [?|[E%elem_of_singleton|?]%elem_of_union]; auto; by destruct Hne.
Qed.

Definition parents_of : gmap Z Z := map_imap (fun id r => if decide (id ∈ P) then Some (Parent (item r)) else None) N.

Lemma parents_lookup id : parents_of !! id = if decide (id ∈ P) then above N id else None.
Proof. unfold parents_of, above. rewrite map_lookup_imap. destruct (N !! id); cbn; by destruct (decide _). Qed.

(** Everything gets settled. *)
Lemma all_settled S pending q M : settling N D P S pending [] q M -> forall id, id ∈ P -> id ∈ S.
Proof.
  intros [H1 H2 H3 H4 H5 H6 H7 H8]. assert (forall n id, id ∈ P -> (Z.to_nat (max_uint64 - id) < n)%nat -> id ∈ S) as H; [|intros id Hid; by apply (H _ id Hid (Nat.lt_succ_diag_r _))].
  induction n as [|n IH]; intros id Hid Hn; [lia|]. destruct (decide (id ∈ S)) as [|HS]; [done|exfalso]. apply (not_elem_of_nil id), H6.
  split; [by apply elem_of_difference|]. apply waiting_zero. intros c [HcP HcS]%elem_of_difference Hc. apply HcS, IH; [done|].
  unfold above in Hc. destruct (N !! c) as [r|] eqn:Hr; [|done]. cbn in Hc. destruct (HN _ _ Hr) as (E & (_ & Hmax) & _ & Hp). unfold rid in E.
  injection Hc as Hc. lia.
Qed.

Lemma activity_loop_spec fuel S pending ready q M :
  settling N D P S pending ready q M -> (size (P ∖ S) < fuel)%nat ->
  exists M', represents (activity_loop fuel parents_of pending ready q) M' /\ same_but N M'
    /\ forall id r, M' !! id = Some r -> activeBranch r = true <-> live N id.
Proof.
  revert S pending ready q M. induction fuel as [|fuel IH]; intros S pending ready q M Hst Hf; [lia|]. destruct ready as [|id ready].
  - exists M. split; [apply Hst|]. split; [apply Hst|]. intros id r Hr. apply (st_exact _ _ _ _ _ _ _ _ Hst id r Hr).
    destruct (decide (id ∈ D)) as [HD|]; [right|by left]. eapply all_settled; [exact Hst|]. apply HP. split; [done|].
    destruct (same_items_lookup _ _ _ _ (symmetry (same_but_items _ _ (st_same _ _ _ _ _ _ _ _ Hst))) Hr) as (r' & Hr' & _). by exists r'.
  - destruct (proj1 (st_ready _ _ _ _ _ _ _ _ Hst id) ltac:(by left)) as [Hin _]. pose proof Hin as [HinP HinS]%elem_of_difference. pose proof (proj1 (HP id) HinP) as [_ [r0 Hr0]].
    pose proof (same_but_items _ _ (st_same _ _ _ _ _ _ _ _ Hst)) as Hit. destruct (same_items_lookup _ _ _ _ Hit Hr0) as (row & Hrow & E).
    cbn [activity_loop]. rewrite (rp_lookup _ _ (st_rep _ _ _ _ _ _ _ _ Hst)), Hrow. cbn zeta. rewrite parents_lookup, decide_True by done.
    assert (above N id = Some (Parent (item row))) as -> by (unfold above; rewrite Hr0; cbn; by rewrite E).
    pose proof (settling_step _ _ _ _ _ _ _ Hst Hrow) as Hst'. cbn zeta in Hst'.
    assert (size (P ∖ ({[id]} ∪ S)) < fuel)%nat as Hf'.
    { assert (P ∖ ({[id]} ∪ S) ⊂ P ∖ S) as Hs; [|apply subset_size in Hs; lia]. split; [set_solver|]. intros Hs. specialize (Hs id Hin). set_solver. }
    destruct (pending !! Parent (item row)); by eapply IH.
Qed.
End loop.

(** ** The start *)

Lemma range_spec order s : NoDup (walk order s) /\ forall x, x ∈ walk order s <-> x ∈ s.
Proof.
  unfold walk. destruct (decide _) as [[Hnd E]|_].
  - split; [done|]. intros x. rewrite <- E. by rewrite elem_of_list_to_set.
  - split; [apply NoDup_elements|]. intros x. apply elem_of_elements.
Qed.

Lemma found_spec q M (D : gset Z) :
  represents q M ->
  let found := omap (fun id => row ← lookup q id; Some (id, Parent (item row))) (elements D) in
  NoDup found.*1 /\ forall id p, (id, p) ∈ found <-> id ∈ D /\ above M id = Some p.
Proof.
  intros Hq found. assert (forall l, let f := omap (fun id => row ← lookup q id; Some (id, Parent (item row))) l in
    (NoDup l -> NoDup f.*1) /\ forall id p, (id, p) ∈ f <-> id ∈ l /\ above M id = Some p) as H.
  { induction l as [|j l [IH1 IH2]]; cbn zeta in *; [split; [constructor|]|].
    - intros id p. cbn. split; [by intros ?%not_elem_of_nil|by intros [?%not_elem_of_nil _]].
    - change (omap ?f (j :: l)) with (match f j with Some y => y :: omap f l | None => omap f l end).
      cbv beta. rewrite (rp_lookup _ _ Hq). unfold above in *. destruct (M !! j) as [r|] eqn:Hj; cbn [mbind option_bind]; split.
      + intros [Hn Hnd]%NoDup_cons. cbn. constructor; [|by apply IH1]. intros ([id p] & E & Hin)%list_elem_of_fmap. cbn in E. subst id. by apply IH2 in Hin as [? _].
      + intros id p. rewrite !elem_of_cons, IH2. split; [intros [[= -> ->]|[? ?]]; [rewrite Hj; auto|auto]|].
        intros [[->|?] Ha]; [left|by right]. rewrite Hj in Ha. by injection Ha as ->.
      + intros [Hn Hnd]%NoDup_cons. by apply IH1.
      + intros id p. rewrite elem_of_cons, IH2. split; [intros [? ?]; auto|]. intros [[->|?] Ha]; [by rewrite Hj in Ha|auto]. }
  destruct (H (elements D)) as [H1 H2]. split; [apply H1, NoDup_elements|]. intros id p. unfold found. rewrite H2. by rewrite elem_of_elements.
Qed.

Definition count_into (l : list (Z * Z)) (m : gmap Z Z) : gmap Z Z :=
  foldl (fun m '(_, parent) => match m !! parent with Some n => <[parent := n + 1]> m | None => m end) m l.

Lemma count_into_lookup l m id : count_into l m !! id = (fun n => n + Z.of_nat (length (List.filter (fun x => x.2 =? id) l))) <$> m !! id.
Proof.
  revert m. induction l as [|[c p] l IH]; intros m; [cbn; destruct (m !! id); cbn; [by rewrite Z.add_0_r|done]|].
  change (count_into ((c, p) :: l) m) with (count_into l (match m !! p with Some n => <[p := n + 1]> m | None => m end)). rewrite IH.
  cbn [List.filter snd]. destruct (Z.eqb_spec p id) as [->|Hne].
  - destruct (m !! id) as [n|] eqn:E; [rewrite lookup_insert_eq|by rewrite E]. cbn [fmap option_fmap option_map length]. f_equal. lia.
  - destruct (m !! p); [by rewrite lookup_insert_ne|done].
Qed.

Lemma waiting_found M (D P : gset Z) found id :
  NoDup found.*1 -> (forall c p, (c, p) ∈ found <-> c ∈ D /\ above M c = Some p) -> (forall c, c ∈ P <-> c ∈ D /\ is_Some (M !! c)) ->
  waiting M P id = Z.of_nat (length (List.filter (fun x => x.2 =? id) found)).
Proof.
  intros Hnd Hf HP. unfold waiting. f_equal. rewrite <- (length_fmap (@fst Z Z)).
  assert (NoDup (List.filter (fun x => x.2 =? id) found).*1) as Hnd'.
  { clear Hf. induction found as [|[c p] found IH]; cbn; [constructor|]. cbn in Hnd. apply NoDup_cons in Hnd as [Hn Hnd]. destruct (_ =? _); [|by apply IH].
    cbn. constructor; [|by apply IH]. intros ([c' p'] & E & Hin)%list_elem_of_fmap. cbn in E. subst c'. apply Hn. apply list_elem_of_In, List.filter_In in Hin as [Hin _].
    apply list_elem_of_fmap. exists (c, p'). split; [done|by apply list_elem_of_In]. }
  rewrite <- (size_list_to_set (C := gset Z) _ Hnd'). f_equal. apply set_eq. intros c. rewrite elem_of_filter, elem_of_list_to_set, list_elem_of_fmap, HP. split.
  - intros [Ha [HD _]]. exists (c, id). split; [done|]. apply list_elem_of_In, List.filter_In. split; [apply list_elem_of_In; by apply Hf|]. cbn. by apply Z.eqb_refl.
  - intros ([c' p] & Ec & Hin). cbn in Ec. subst c'. apply list_elem_of_In, List.filter_In in Hin as [Hin E]. cbn in E. apply Z.eqb_eq in E as ->. apply list_elem_of_In, Hf in Hin as [HD Ha].
    split; [done|]. split; [done|]. unfold above in Ha. destruct (M !! c); [eauto|done].
Qed.

Lemma refresh_activity_spec q M order (D : gset Z) :
  represents q M -> wf M ->
  (forall id r, M !! id = Some r -> id ∉ D -> activeBranch r = true <-> live M id) ->
  exists M', represents (refreshRootActivity order D q) M' /\ same_but M M'
    /\ forall id r, M' !! id = Some r -> activeBranch r = true <-> live M id.
Proof.
  intros Hq HM Hout. unfold refreshRootActivity. set (found := omap _ (elements D)). destruct (found_spec q M D Hq) as [Hnd Hf]. fold found in Hnd, Hf.
  set (P := filter (fun id => is_Some (M !! id)) D). assert (forall id, id ∈ P <-> id ∈ D /\ is_Some (M !! id)) as HP by (intros id; unfold P; rewrite elem_of_filter; tauto).
  assert (list_to_map found = parents_of M P) as ->.
  { apply map_eq. intros id. rewrite parents_lookup. destruct (decide (id ∈ P)) as [[HD [r Hr]]%HP|Hn].
    - unfold above at 1. rewrite Hr. apply elem_of_list_to_map_1; [done|]. apply Hf. split; [done|]. unfold above. by rewrite Hr.
    - apply not_elem_of_list_to_map_1. intros ([c p] & -> & [HD Ha]%Hf)%list_elem_of_fmap. apply Hn, HP. split; [done|]. unfold above in Ha. cbn. destruct (M !! c); [eauto|done]. }
  set (start := list_to_map _). change (foldl _ start found) with (count_into found start).
  assert (forall id, start !! id = if decide (id ∈ P) then Some 0 else None) as Hstart.
  { intros id. unfold start. destruct (decide (id ∈ P)) as [[HD [r Hr]]%HP|Hn].
    - apply elem_of_list_to_map_1; [rewrite <- list_fmap_compose; erewrite list_fmap_ext; [exact Hnd|by intros ? [? ?] _]|].
      apply list_elem_of_fmap. exists (id, Parent (item r)). split; [done|]. apply Hf. split; [done|]. unfold above. by rewrite Hr.
    - apply not_elem_of_list_to_map_1. rewrite <- list_fmap_compose. intros ([c p] & -> & [HD Ha]%Hf)%list_elem_of_fmap. apply Hn, HP. split; [done|]. unfold above in Ha. cbn. destruct (M !! c); [eauto|done]. }
  assert (forall id, count_into found start !! id = if decide (id ∈ P) then Some (waiting M (P ∖ ∅) id) else None) as Hpend.
  { intros id. rewrite count_into_lookup, Hstart. destruct (decide (id ∈ P)); [|done]. cbn. f_equal.
    assert (P ∖ ∅ = P) as -> by (apply set_eq; intros x; rewrite elem_of_difference; split; [tauto|intros ?; split; [done|by apply not_elem_of_empty]]).
    by rewrite (waiting_found M D P found id). }
  assert (dom (count_into found start) = P) as Hdom.
  { apply set_eq. intros id. rewrite elem_of_dom, Hpend. destruct (decide (id ∈ P)); split; done || by intros [? ?]. }
  rewrite Hdom. apply (activity_loop_spec M D P HM HP _ ∅ _ _ q M).
  - destruct (range_spec order P) as [Hwn Hwin]. constructor; try done.
    + apply NoDup_ListNoDup, List.NoDup_rev, List.NoDup_filter. by apply NoDup_ListNoDup.
    + intros id. rewrite list_elem_of_In, <- List.in_rev, List.filter_In, <- list_elem_of_In, Hwin, bool_decide_eq_true, Hpend, elem_of_difference.
      destruct (decide (id ∈ P)) as [Hin|Hin]; [|tauto]. split; [intros [_ [= ->]]; split; [split; [done|apply not_elem_of_empty]|done]|]. intros [_ ->]. done.
    + intros id r Hr [Hn|?%not_elem_of_empty]; [|done]. by apply (Hout id r Hr).
  - rewrite <- Hdom, <- size_dom. pose proof (subseteq_size (dom (count_into found start) ∖ ∅) (dom (count_into found start))) as Hs. specialize (Hs ltac:(by intros x [? _]%elem_of_difference)). lia.
Qed.

End ThreadActivity.
