(* ===== verification/ThreadPublish.v ===== *)
(** * The query index: a publication keeps it exact *)
From Stdlib Require Import ZArith Lia.
From stdpp Require Import prelude gmap strings list sorting.
From S2P Require Import Prelude ThreadIndex ThreadTree ThreadIndexInv ThreadAdvance ThreadActivity.

Module ThreadPublish.
Import ThreadIndex ThreadTree ThreadIndexInv ThreadAdvance ThreadActivity.

Local Open Scope Z_scope.

(** What [D] must be for the rows outside it to be left alone. *)
Record apart (M N : rowmap) (D : gset Z) : Prop := Apart {
  ap_same : forall id, id ∉ D -> M !! id = N !! id;
  ap_old : closed M D;
  ap_new : closed N D;
}.

Lemma apart_sym M N D : apart M N D -> apart N M D.
Proof. intros [H1 H2 H3]. constructor; [|done|done]. intros id Hid. symmetry. by apply H1. Qed.

Lemma child_outside M D c r id :
  wf M -> closed M D -> M !! c = Some r -> Parent (item r) = id -> is_Some (M !! id) -> id ∉ D -> c ∉ D.
Proof.
  intros HM HD Hc Hp [r' Hr'] Hid Hin. destruct (HM _ _ Hr') as (E & H0 & _). unfold rid in E.
  destruct (HD c r Hin Hc) as [?|[?|[?|?]]]; rewrite Hp in *; try lia; congruence.
Qed.

Lemma live_outside M N D id : wf M -> apart M N D -> live M id -> is_Some (M !! id) -> id ∉ D -> live N id.
Proof.
  intros HM [H1 H2 H3]. induction 1 as [id r Hr Ha|id c r Hr Hp _ IH]; intros Hs Hid.
  - eapply live_self; [rewrite <- H1; done|done].
  - assert (c ∉ D) as Hc by (by eapply child_outside). eapply live_child; [rewrite <- H1; done|done|]. apply IH; [eauto|done].
Qed.

Lemma kids_outside M N D id : wf M -> wf N -> apart M N D -> is_Some (M !! id) -> id ∉ D -> kids M id = kids N id.
Proof.
  intros HM HN HA Hs Hid. pose proof HA as [H1 H2 H3]. unfold kids, group_of. f_equal. rewrite <- !size_dom. f_equal. apply set_eq. intros c. rewrite !elem_of_dom.
  assert (forall A B, wf A -> apart A B D -> is_Some (A !! id) ->
    is_Some (filter (fun x => in_group in_children id x.2 = true) A !! c) -> is_Some (filter (fun x => in_group in_children id x.2 = true) B !! c)) as H.
  { intros A B HwA HAB HsA [r [Hr Hg]%map_lookup_filter_Some]. cbn in Hg. exists r. apply map_lookup_filter_Some. split; [|done].
    unfold in_group, in_children in Hg. apply Z.eqb_eq in Hg. rewrite <- (ap_same _ _ _ HAB); [done|]. by eapply child_outside; [|apply HAB|..]. }
  split; apply H; try done; [by apply apart_sym|by rewrite <- H1].
Qed.

(** The rows above an affected one, before or after. *)
Definition hit (M N : rowmap) (ids : list Z) (id : Z) : Prop := exists a, a ∈ ids /\ (under M id a \/ under N id a).

Lemma under_some M x c : under M x c -> is_Some (M !! c).
Proof. destruct 1; [done|eauto]. Qed.

Lemma dirty_apart q next M N l :
  represents q M -> represents next N -> wf M -> N = content l M -> wf N ->
  let D := marked next l.*1 ∪ marked q l.*1 in
  apart M N D /\ (forall id, is_Some (N !! id) -> id ∈ D <-> hit M N l.*1 id).
Proof.
  intros Hq Hn HM EN HN D. destruct (marked_spec q M l.*1 Hq) as (O1 & O2 & O3). destruct (marked_spec next N l.*1 Hn) as (N1 & N2 & N3).
  assert (forall id, id ∉ l.*1 -> N !! id = M !! id) as Hoth by (intros id Hid; rewrite EN; by apply content_other).
  assert (forall A id, wf A -> is_Some (A !! id) -> id <> 0) as Hnz by (intros A id HA [r Hr]; destruct (HA _ _ Hr) as (E & ? & _); unfold rid in E; lia).
  assert (closed M D) as HcM.
  { intros id r Hin Hr. destruct (decide (id ∈ marked q l.*1)) as [Ho|Ho].
    - destruct (O1 id r Ho Hr) as [?|[?|[?|?]]]; auto. right; right; left. apply elem_of_union. by right.
    - apply elem_of_union in Hin as [Hin|]; [|done]. destruct (decide (id ∈ l.*1)) as [Hid|Hid].
      + destruct (O2 id Hid) as [->|[?|?]]; [|congruence|done]. exfalso. by apply (Hnz M 0).
      + destruct (N1 id r Hin) as [?|[Hp|[?|?]]]; auto; [by rewrite Hoth| |right; right; left; apply elem_of_union; by left].
        destruct (decide (Parent (item r) ∈ l.*1)) as [Hpl|Hpl]; [|rewrite Hoth in Hp by done; auto].
        destruct (O2 _ Hpl) as [?|[?|?]]; auto. right; right; left. apply elem_of_union. by right. }
  assert (closed N D) as HcN.
  { intros id r Hin Hr. destruct (decide (id ∈ marked next l.*1)) as [Ho|Ho].
    - destruct (N1 id r Ho Hr) as [?|[?|[?|?]]]; auto. right; right; left. apply elem_of_union. by left.
    - apply elem_of_union in Hin as [|Hin]; [done|]. destruct (decide (id ∈ l.*1)) as [Hid|Hid].
      + destruct (N2 id Hid) as [->|[?|?]]; [|congruence|done]. exfalso. by apply (Hnz N 0).
      + destruct (O1 id r Hin) as [?|[Hp|[?|?]]]; auto; [by rewrite <- Hoth| |right; right; left; apply elem_of_union; by right].
        destruct (decide (Parent (item r) ∈ l.*1)) as [Hpl|Hpl]; [|rewrite <- Hoth in Hp by done; auto].
        destruct (N2 _ Hpl) as [?|[?|?]]; auto. right; right; left. apply elem_of_union. by left. }
  split; [constructor; try done|].
  - intros id Hid. destruct (decide (id ∈ l.*1)) as [Hl|Hl]; [|by rewrite Hoth]. unfold D in Hid. apply not_elem_of_union in Hid as [Hi1 Hi2].
    assert (M !! id = None) as -> by (destruct (O2 id Hl) as [->|[?|?]]; [destruct (M !! 0) eqn:E; [exfalso; by apply (Hnz M 0)|done]|done|done]).
    destruct (N2 id Hl) as [->|[?|?]]; [destruct (N !! 0) eqn:E; [exfalso; by apply (Hnz N 0)|done]|done|done].
  - intros id Hs. split.
    + intros [Hin|Hin]%elem_of_union; [destruct (N3 id Hin) as (a & Ha & Hu)|destruct (O3 id Hin) as (a & Ha & Hu)]; exists a; auto.
    + intros (a & Ha & [Hu|Hu]); pose proof (under_some _ _ _ Hu) as Hsa; apply elem_of_union; [right|left].
      * eapply closed_under; [exact HM|exact O1|exact Hu|]. destruct (O2 a Ha) as [?|[E|?]]; [exfalso; by apply (Hnz M a)|rewrite E in Hsa; by destruct Hsa|done].
      * eapply closed_under; [exact HN|exact N1|exact Hu|]. destruct (N2 a Ha) as [?|[E|?]]; [exfalso; by apply (Hnz N a)|rewrite E in Hsa; by destruct Hsa|done].
Qed.

(** What a publication leaves of each row. *)
Definition published (p : publication) (M N M' : rowmap) : Prop :=
  (forall id, is_Some (M' !! id) <-> is_Some (N !! id))
  /\ (forall id r, M' !! id = Some r -> exists r0, N !! id = Some r0 /\ item r = item r0 /\ touch r = touch r0 /\ recipe r = recipe r0
        /\ headline (header r) = headline (header r0)
        /\ (hit M N (affected p).*1 id -> subtreeVersion (header r) = version p)
        /\ (~ hit M N (affected p).*1 id -> M !! id = Some r)).

Lemma same_but_lookup M N id r : same_but M N -> N !! id = Some r -> exists r', M !! id = Some r' /\ r = set_activeBranch (activeBranch r) r'.
Proof.
  intros H Hr. specialize (H id). rewrite Hr in H. destruct (M !! id) as [r'|]; [|done]. exists r'. split; [done|]. injection H as E1 E2 E3 E4.
  destruct r, r'; cbn in *. by subst.
Qed.

Lemma bool_same (a b : bool) (P : Prop) : (a = true <-> P) -> (b = true <-> P) -> a = b.
Proof. intros Ha Hb. apply Bool.eq_iff_eq_true. by rewrite Ha, Hb. Qed.

(** An index is exact for a map of rows when each of its trees holds, in its
    order, just the rows that belong there, when every row counts its children
    and is marked active just if it or a row below it is. *)
Lemma publish_index_spec q M p :
  exact q M -> Forall change_ok (affected p) ->
  exists M', exact (advance p q) M' /\ published p M (content (affected p) M) M'
    /\ complete (advance p q) = bool_decide (forall id r, M' !! id = Some r -> touch r <> 0)
    /\ coveredThrough (advance p q) = version p.
Proof.
  intros [Hq HM Hcount Hbranch] Hl. set (N := content (affected p) M). assert (wf N) as HN by (by apply content_wf).
  unfold advance. set (next := foldl _ q (affected p)). assert (represents next N) as Hn by (by apply replace_rows_spec).
  change (foldl (fun d id => ancestors next id d) ∅ (affected p).*1) with (marked next (affected p).*1).
  change (foldl (fun d id => ancestors q id d) ∅ (affected p).*1) with (marked q (affected p).*1).
  destruct (dirty_apart q next M N (affected p) Hq Hn HM eq_refl HN) as [HA HD]. set (D := marked next _ ∪ _) in *.
  destruct (range_spec (walk_dirty p) D) as [_ HW]. set (W := walk _ D) in *.
  destruct (refresh_dirty_spec next N (version p) W N Hn HN (reflexivity N)) as [Hr Hit]. set (N2 := refresh_at _ N W N) in *.
  assert (forall id, N2 !! id = (if decide (id ∈ D) then refreshed (version p) N else fun r => r) <$> N !! id) as HN2.
  { intros id. unfold N2. rewrite refresh_at_lookup. destruct (decide (id ∈ W)) as [Hw|Hw], (decide (id ∈ D)) as [Hd|Hd]; try done; by apply HW in Hw || apply HW in Hd. }
  assert (forall id r, N !! id = Some r -> id ∉ D -> M !! id = Some r) as Hout by (intros id r Hr' Hd; by rewrite (ap_same _ _ _ HA)).
  destruct (refresh_activity_spec (refresh_dirty (version p) W next) N2 (walk_ready p) D Hr) as (M' & HM' & Hsame & Hex).
  { by eapply wf_same. }
  { intros id r Hr' Hd. rewrite HN2, decide_False in Hr' by done. rewrite option_fmap_id in Hr'. pose proof (Hout _ _ Hr' Hd) as Hm.
    rewrite (Hbranch id r Hm). split; intros Hlv.
    - apply (live_same N N2); [done|]. exact (live_outside M N D id HM HA Hlv (mk_is_Some _ _ Hm) Hd).
    - apply (live_same N2 N) in Hlv; [|by symmetry]. exact (live_outside N M D id HN (apart_sym _ _ _ HA) Hlv (mk_is_Some _ _ Hr') Hd). }
  pose proof (same_but_items _ _ Hsame) as Hit'. assert (same_items N M') as HNM by (by transitivity N2).
  assert (forall id r, M' !! id = Some r -> exists r0, N !! id = Some r0 /\ r = set_activeBranch (activeBranch r) ((if decide (id ∈ D) then refreshed (version p) N else fun r => r) r0)) as Hrow.
  { intros id r Hr'. destruct (same_but_lookup _ _ _ _ Hsame Hr') as (r2 & Hr2 & E). rewrite HN2 in Hr2. destruct (N !! id) as [r0|]; [|done]. injection Hr2 as <-. eauto. }
  exists M'. split_and!.
  - constructor.
    + by apply represents_evidence.
    + by eapply wf_same.
    + intros id r Hr'. destruct (Hrow _ _ Hr') as (r0 & Hr0 & E). rewrite E. rewrite <- (kids_same N M' id HNM). destruct (HN _ _ Hr0) as [Eid _].
      destruct (decide (id ∈ D)) as [Hd|Hd]; cbn; [by rewrite Eid|]. rewrite (Hcount id r0 (Hout _ _ Hr0 Hd)). f_equal. by eapply kids_outside; eauto.
    + intros id r Hr'. rewrite (Hex id r Hr'). split; apply live_same; [|symmetry]; by apply same_but_items.
  - split.
    + intros id. split; intros [r Hr']; [destruct (same_items_lookup _ _ _ _ (symmetry HNM) Hr') as (? & ? & _)|destruct (same_items_lookup _ _ _ _ HNM Hr') as (? & ? & _)]; eauto.
    + intros id r Hr'. destruct (Hrow _ _ Hr') as (r0 & Hr0 & E). exists r0. pose proof (HD id (mk_is_Some _ _ Hr0)) as Hh. destruct (decide (id ∈ D)) as [Hd|Hd].
      * rewrite E. split_and!; try done. intros Hn'. destruct Hn'. by apply Hh.
      * rewrite E. split_and!; try done; [intros Hy; destruct Hd; by apply Hh|]. intros _. rewrite (Hout _ _ Hr0 Hd). f_equal.
        assert (activeBranch r = activeBranch r0) as ->; [|by destruct r0]. eapply bool_same; [by apply Hex|]. rewrite (Hbranch id r0 (Hout _ _ Hr0 Hd)). split; intros Hlv.
        -- apply (live_same N N2); [done|]. exact (live_outside M N D id HM HA Hlv (mk_is_Some _ _ (Hout _ _ Hr0 Hd)) Hd).
        -- apply (live_same N2 N) in Hlv; [|by symmetry]. exact (live_outside N M D id HN (apart_sym _ _ _ HA) Hlv (mk_is_Some _ _ Hr0) Hd).
  - unfold evidence. cbn [complete]. rewrite (rp_invalid _ _ HM'). apply Bool.eq_iff_eq_true. rewrite Z.eqb_eq, bool_decide_eq_true. unfold untouched. split.
    + intros Hz id r Hr' Ht. assert (size (filter (fun x => touch x.2 = 0) M') <> 0%nat); [|lia]. apply map_size_ne_0_lookup. exists id, r. by apply map_lookup_filter_Some.
    + intros Hall. assert (filter (fun x => touch x.2 = 0) M' = ∅) as ->; [|by rewrite map_size_empty]. apply map_eq. intros id. rewrite lookup_empty.
      apply map_lookup_filter_None. right. intros r Hr'. cbn. by apply (Hall id).
  - done.
Qed.

(** The trees of an index. *)
Definition trees (q : queryIndex) : list queryTree :=
  [ordered q; active q; touched q; children q; roots q; activeRoots q; activeBranches q; rootTouches q].

Lemma trees_balanced q M : represents q M -> Forall balanced (trees q).
Proof. intros [_ _ T1 T2 T3 T4 T5 T6 T7 T8 _]. repeat constructor; by eapply to_balanced. Qed.

(** C40. Publishing keeps the query index well formed. After [advance] the
    index is exact for a map that has the new rows of the affected items, none
    for those gone, and the old ones otherwise; every row with an affected item
    at or below it, before or after, is stamped with the publication's version,
    and every other is as it was, however the maps the code ranges over are
    walked. Its trees stay balanced, no higher than twice the logarithm of
    their size. *)
Theorem advance_exact q M p :
  exact q M -> Forall change_ok (affected p) ->
  (exists M', exact (advance p q) M' /\ published p M (content (affected p) M) M'
    /\ complete (advance p q) = bool_decide (forall id r, M' !! id = Some r -> touch r <> 0)
    /\ coveredThrough (advance p q) = version p)
  /\ Forall (fun t => 2 ^ treeHeight t <= (treeSize t + 1) ^ 2) (trees (advance p q)).
Proof.
  intros Hq Hp. destruct (publish_index_spec q M p Hq Hp) as (M' & H & Hrest). split; [by exists M'|].
  eapply Forall_impl; [by eapply trees_balanced, H|]. intros t. apply height_bound.
Qed.

End ThreadPublish.
