(* ===== verification/ThreadQuery.v ===== *)
(** * Queries of a thread ([internal/thread])

    [queries.go], [catch_up.go], [child_pages.go], [compact_queries.go] and
    [compact_intervals.go]: what phones ask of a conversation's published
    index. Each query is followed up to the rendering of the items it chose;
    [Renders] says it goes on there, with the index captured. *)
From stdpp Require Import prelude gmap strings list.
From S2P Require Import Prelude Conversations ThreadIndex.

Module ThreadQuery.
Import ThreadIndex.

Local Open Scope Z_scope.
Local Open Scope pyry_scope.

(** ** The store *)

Inductive SnapshotState := StateNotLoaded | StateRebuilding | StateUsable | StateUnavailable.
#[export] Instance SnapshotState_eq_dec : EqDecision SnapshotState.
Proof. solve_decision. Defined.

Inductive threadError :=
| ErrCanceled | ErrInvalidID | ErrUnavailable | ErrInvalidLimit
| ErrInvalidChildScope | ErrChildParentNotFound | ErrStaleChildPage | ErrInvalidChildCursor.

(** A worker's snapshot never has items: they are in its [items]. *)
Record Snapshot := MkSnapshot {
  sn_Active : bool; sn_State : SnapshotState; sn_Version : Z; LastShownVersion : Z;
  sn_Epoch : string; sn_Err : option threadError;
}.
Definition zero_Snapshot : Snapshot := MkSnapshot false StateNotLoaded 0 0 EmptyString None.

Record Change := MkChange {
  ch_ID : Z; PreviousRev : Z; ch_Rev : Z; ch_Version : Z; Addition : option Item;
  Fields : gmap string string; TextAppend : string; ResultContent : string;
}.

Record Observation := MkObservation { ob_Snapshot : Snapshot; ob_FromVersion : Z; Changes : list Change; BaselineRequired : bool }.
Record changeBatch := MkBatch { observation : Observation; bytes : Z }.

(** [wid] is the worker's address, [canceled] whether its context is done,
    [exited] whether its [done] is closed; waking the waiters of [changed] is
    what [compact_wait] and [change_wait] take for granted. *)
Record conversationWorker := MkWorker {
  wid : nat; canceled : bool; exited : bool; retiring : bool; processing : bool; renderFailed : bool;
  snapshot : Snapshot; query : option queryIndex; ranges : list changeBatch; rangeBytes : Z;
}.

Record Store := MkStore { closed : bool; workers : gmap string conversationWorker }.

Definition captureQuery (id : string) (s : Store) : Snapshot * option queryIndex :=
  match workers s !! id with
  | Some w => if closed s || retiring w then (zero_Snapshot, None) else (snapshot w, query w)
  | None => (zero_Snapshot, None)
  end.

(** What a query comes to: an error, a result as it is, a result whose items
    are rendered next, or the panic of reading a missing index. *)
Inductive outcome (A : Type) := Fails (e : threadError) | Returns (r : A) | Renders (q : queryIndex) (r : A) | Panics.
Arguments Fails {A}.
Arguments Returns {A}.
Arguments Renders {A}.
Arguments Panics {A}.

(** ** Full windows and pages *)

Definition MaxQueryItems : Z := 256.

Record QueryResult := MkResult {
  qr_State : SnapshotState; Items : list Item; qr_Epoch : string; qr_Version : Z;
  LowerOrder : Z; UpperOrder : Z; Continuation : Z; OlderExists : bool;
  FromVersion : Z; ResetRequired : bool; qr_Err : option threadError;
}.

Definition state_result (st : SnapshotState) (err : option threadError) : QueryResult :=
  MkResult st [] EmptyString 0 0 0 0 false 0 false err.

(** The items chosen, in order, and those seen. *)
Definition chosen : Type := list Item * gset Z.

Definition add (acc : chosen) (row : queryRow) : chosen :=
  let '(items, seen) := acc in
  let i := item row in
  if bool_decide (ID i ∈ seen) then acc else (items ++ [i], {[ID i]} ∪ seen).

Inductive closing := Canceled | Unclosed | Closed (acc : chosen) (c : context).

(** The loop over the items from [i] on, parents added at their end. Every
    item added is of a row not seen before, and [touched] has all rows. Where
    [strict], a missing parent ends it. *)
Fixpoint parents_loop (fuel : nat) (strict : bool) (q : queryIndex) (c : context) (i : nat) (acc : chosen) : closing :=
  match fuel, acc.1 !! i with
  | S fuel, Some it =>
      match ctx_Err c with
      | None => Canceled
      | Some c =>
          if negb (Parent it =? 0) && bool_decide (Parent it ∉ acc.2)
          then match lookup q (Parent it) with
               | Some row => parents_loop fuel strict q c (S i) (add acc row)
               | None => if strict then Unclosed else parents_loop fuel strict q c (S i) acc
               end
          else parents_loop fuel strict q c (S i) acc
      end
  | _, _ => Closed acc c
  end.
Definition close_parents (strict : bool) (q : queryIndex) (c : context) (acc : chosen) : closing :=
  parents_loop (S (length acc.1 + Z.to_nat (treeSize (touched q)))) strict q c 0 acc.

(** The order of the row at a rank; callers ask below the size. *)
Definition order_at (t : queryTree) (r : Z) : Z := match at_rank t r with Some row => Order (item row) | None => 0 end.

(** The newest range below [upper], widened to whole orders: where it starts,
    where it ends and its lowest order, zero where it is empty. *)
Definition range_below (t : queryTree) (upper limit : Z) : Z * Z * Z :=
  let stop := rank t upper in
  let start := Z.max 0 (stop - limit) in
  if start <? stop then let lower := order_at t start in (rank t lower, stop, lower) else (start, stop, 0).

(** All the rows of a tree, where they are asked for. *)
Definition extras (b : bool) (t : queryTree) (c : context) : option (list queryRow * context) :=
  if b then visit t 0 (treeSize t) c else Some ([], c).

(** [None] where the context is found done. *)
Definition window (q : queryIndex) (c : context) (snap : Snapshot) (upper limit : Z) (newest : bool) : option QueryResult :=
  let upper := if newest then u64 (sn_Version snap + 1) else upper in
  let '(start, stop, lower) := range_below (ordered q) upper limit in
  '(range, c) ← visit (ordered q) start stop c;
  '(act, c) ← extras newest (active q) c;
  match close_parents false q c (foldl add ([], ∅) (range ++ act)) with
  | Closed (items, _) c =>
      _ ← ctx_Err c;
      Some (MkResult StateUsable items (sn_Epoch snap) (sn_Version snap) lower upper lower
              ((start <? stop) && (0 <? start)) 0 false None)
  | _ => None
  end.

(** [renderQuery]'s first test. *)
Definition render (q : queryIndex) (r : option QueryResult) : outcome QueryResult :=
  match r with Some r => Renders q r | None => Fails ErrCanceled end.

Definition querying (s : Store) (c : context) (id : string) (upper limit : Z) (newest : bool) : outcome QueryResult :=
  match ctx_Err c with
  | None => Fails ErrCanceled
  | Some c =>
      if negb (Conversations.ValidID id) then Fails ErrInvalidID
      else if limit <=? 0 then Fails ErrInvalidLimit
      else
        let limit := Z.min limit MaxQueryItems in
        let '(snap, q) := captureQuery id s in
        if bool_decide (sn_State snap = StateUsable)
        then match q with None => Panics | Some q => render q (window q c snap upper limit newest) end
        else Returns (state_result (sn_State snap) (sn_Err snap))
  end.

Definition HistoryPage (s : Store) (c : context) (id : string) (upperOrder limit : Z) : outcome QueryResult := querying s c id upperOrder limit false.
Definition NewestWindow (s : Store) (c : context) (id : string) (limit : Z) : outcome QueryResult := querying s c id 0 limit true.

(** ** Catching up *)

Definition MaxCatchUpGap : Z := 1024.

Definition reset_result (snap : Snapshot) : QueryResult :=
  MkResult StateUsable [] (sn_Epoch snap) (sn_Version snap) 0 0 0 false 0 true None.

Definition catch_up_reset (snap : Snapshot) (q : queryIndex) (afterVersion : Z) : bool :=
  (sn_Version snap <? afterVersion) || (MaxCatchUpGap <? sn_Version snap - afterVersion) || negb (complete q)
  || negb (coveredThrough q =? sn_Version snap) || (afterVersion <? unprovenThrough q) || (afterVersion <? suppressed q).

(** The rows touched after [afterVersion], the active ones and their parents. *)
Definition touched_since (q : queryIndex) (c : context) (snap : Snapshot) (afterVersion : Z) : outcome QueryResult :=
  match
    '(rs, c) ← visit (touched q) (rank (touched q) (u64 (afterVersion + 1))) (treeSize (touched q)) c;
    '(act, c) ← extras true (active q) c;
    Some (rs ++ act, c)
  with
  | None => Fails ErrCanceled
  | Some (rs, c) =>
      match close_parents true q c (foldl add ([], ∅) rs) with
      | Canceled => Fails ErrCanceled
      | Unclosed => Returns (reset_result snap)
      | Closed (items, _) c =>
          match ctx_Err c with
          | None => Fails ErrCanceled
          | Some _ => Renders q (MkResult StateUsable items (sn_Epoch snap) (sn_Version snap) 0 0 0 false afterVersion false None)
          end
      end
  end.

Definition CatchUp (s : Store) (c : context) (id epoch : string) (afterVersion limit : Z) : outcome QueryResult :=
  match ctx_Err c with
  | None => Fails ErrCanceled
  | Some c =>
      if negb (Conversations.ValidID id) then Fails ErrInvalidID
      else if (afterVersion =? 0) && (limit <=? 0) then Fails ErrInvalidLimit
      else
        let '(snap, q) := captureQuery id s in
        if bool_decide (sn_State snap = StateUsable)
        then
          if bool_decide (epoch <> sn_Epoch snap) && (bool_decide (epoch <> EmptyString) || negb (afterVersion =? 0))
          then Returns (reset_result snap)
          else if afterVersion =? 0
          then match q with None => Panics | Some q => render q (window q c snap 0 (Z.min limit MaxQueryItems) true) end
          else match q with
               | None => Returns (reset_result snap)
               | Some q => if catch_up_reset snap q afterVersion then Returns (reset_result snap) else touched_since q c snap afterVersion
               end
        else Returns (state_result (sn_State snap) (sn_Err snap))
  end.

(** ** Pages of children *)

(** A nil pointer is [None]. *)
Record ChildSummary := MkSummary {
  cs_ID : Z; cs_Order : Z; cs_Rev : Z; cs_EndedOrder : Z; cs_Kind : string; cs_Subtype : string; cs_Session : string;
  cs_Agent : string; cs_NoChild : bool; cs_Turn : string; cs_Parent : Z; cs_Status : string; cs_Active : bool; cs_Shown : bool;
  Headline : string; DetailOmitted : bool; TaskID : option string; ErrorSummary : option string;
  PublicChildCount : option Z; HasPublicChildren : option bool; SubtreeVersion : option Z;
}.

(** The summary of a row, its header applied. *)
Definition summary (row : queryRow) : ChildSummary :=
  let i := item row in let h := header row in
  MkSummary (ID i) (Order i) (Rev i) (EndedOrder i) (Kind i) (Subtype i) (ItemSession i) (Agent i) (NoChild i) (Turn i)
    (Parent i) (Status i) (Active i) (Shown i)
    (headline h) true (if taskKnown h then Some (taskID h) else None) (if errorKnown h then Some (errorSummary h) else None)
    (if countKnown h then Some (childCount h) else None) (if countKnown h then Some (0 <? childCount h) else None)
    (if freshKnown h then Some (subtreeVersion h) else None).

Record ChildCursor := MkCursor {
  cc_ConversationID : string; cc_Epoch : string; cc_Version : Z; cc_Parent : Z; cc_ParentRev : Z; cc_Order : Z; cc_ID : Z;
}.

Record ChildPageResult := MkChildPage {
  cp_State : SnapshotState; cp_ConversationID : string; cp_Epoch : string; cp_Version : Z; cp_Parent : Z; cp_ParentRev : Z;
  cp_Items : list ChildSummary; More : bool; Complete : bool; cp_Err : option threadError;
}.

Definition CursorAfter (p : ChildPageResult) (n : Z) : ChildCursor + threadError :=
  if negb (bool_decide (cp_State p = StateUsable)) || (n <=? 0) || (Z.of_nat (length (cp_Items p)) <? n) then inr ErrInvalidChildCursor
  else match cp_Items p !! Z.to_nat (n - 1) with
       | Some row => inl (MkCursor (cp_ConversationID p) (cp_Epoch p) (cp_Version p) (cp_Parent p) (cp_ParentRev p) (cs_Order row) (cs_ID row))
       | None => inr ErrInvalidChildCursor
       end.

Definition childRank (q : queryIndex) (parent order id : Z) (inclusive : bool) : Z := groupRank (children q) parent order id inclusive.

(** Where a page starts: at the first child, or after the cursor's. *)
Definition page_start (q : queryIndex) (snap : Snapshot) (id epoch : string) (parent revision : Z) (continuation : option ChildCursor) : Z + threadError :=
  match continuation with
  | None => inl (childRank q parent 0 0 false)
  | Some c =>
      if bool_decide (cc_ConversationID c <> id) || bool_decide (cc_Epoch c <> epoch) || negb (cc_Parent c =? parent)
         || negb (cc_ParentRev c =? revision) || (cc_ID c =? 0) then inr ErrInvalidChildCursor
      else if negb (cc_Version c =? sn_Version snap) then inr ErrStaleChildPage
      else match lookup q (cc_ID c) with
           | Some last =>
               if negb (Parent (item last) =? parent) || negb (Order (item last) =? cc_Order c) then inr ErrInvalidChildCursor
               else inl (childRank q parent (cc_Order c) (cc_ID c) true)
           | None => inr ErrInvalidChildCursor
           end
  end.

Definition child_state (st : SnapshotState) (err : option threadError) : ChildPageResult :=
  MkChildPage st EmptyString EmptyString 0 0 0 [] false false err.

(** The page of an index captured. *)
Definition child_page (q : queryIndex) (c : context) (snap : Snapshot) (id epoch : string) (parent revision limit : Z)
    (continuation : option ChildCursor) : ChildPageResult + threadError :=
  match lookup q parent with
  | None => inr ErrChildParentNotFound
  | Some row =>
      if negb (Rev (item row) =? revision) then inr ErrStaleChildPage
      else
        let? start := page_start q snap id epoch parent revision continuation in
        let stop' := childRank q parent max_uint64 max_uint64 true in
        let stop := start + Z.min (Z.min limit MaxQueryItems) (stop' - start) in
        match '(rs, c) ← visit (children q) start stop c; _ ← ctx_Err c; Some rs with
        | None => inr ErrCanceled
        | Some rs => inl (MkChildPage StateUsable id epoch (sn_Version snap) parent revision (summary <$> rs) (stop <? stop') (stop =? stop') None)
        end
  end.

Definition ChildPage (s : Store) (c : context) (id epoch : string) (parent revision limit : Z)
    (continuation : option ChildCursor) : ChildPageResult + threadError :=
  match ctx_Err c with
  | None => inr ErrCanceled
  | Some c =>
      if negb (Conversations.ValidID id) then inr ErrInvalidID
      else if limit <=? 0 then inr ErrInvalidLimit
      else if bool_decide (epoch = EmptyString) || (parent =? 0) || (revision =? 0) then inr ErrInvalidChildScope
      else
        let '(snap, q) := captureQuery id s in
        if bool_decide (sn_State snap = StateUsable)
        then match q with
             | None => inl (child_state StateUnavailable (Some ErrUnavailable))
             | Some q =>
                 if bool_decide (sn_Epoch snap <> epoch) then inr ErrStaleChildPage
                 else child_page q c snap id epoch parent revision limit continuation
             end
        else inl (child_state (sn_State snap) (sn_Err snap))
  end.

(** ** Compact queries *)

Record CompactQueryResult := MkCompact {
  cq_State : SnapshotState; cq_ConversationID : string; Projection : string; cq_Epoch : string; cq_Version : Z;
  cq_Items : list Item; cq_Headers : list ChildSummary;
  cq_LowerOrder : Z; cq_UpperOrder : Z; cq_Continuation : Z; cq_OlderExists : bool;
  cq_FromVersion : Z; cq_ResetRequired : bool; cq_Err : option threadError;
}.

Definition compact_state (st : SnapshotState) (err : option threadError) : CompactQueryResult :=
  MkCompact st EmptyString EmptyString EmptyString 0 [] [] 0 0 0 false 0 false err.

Definition compactProjection : string := "compact-v1".

(** What the collector has added, and the roots it has seen. *)
Definition collected : Type := list Item * list ChildSummary * gset Z.
Definition compact_add (acc : collected) (row : queryRow) : collected :=
  let '(items, headers, seen) := acc in
  let i := item row in
  if bool_decide (ID i ∈ seen) then acc
  else if bool_decide (Kind i = "tool_call"%string) || bool_decide (Kind i = "agent"%string)
  then (items, headers ++ [summary row], {[ID i]} ∪ seen)
  else (items ++ [i], headers, {[ID i]} ∪ seen).
Definition compactCollector (rows : list queryRow) : collected := foldl compact_add ([], [], ∅) rows.

Definition compact_window (q : queryIndex) (c : context) (snap : Snapshot) (id : string) (upper limit : Z) (newest : bool) : option CompactQueryResult :=
  let upper := if newest then u64 (sn_Version snap + 1) else upper in
  let '(start, stop, lower) := range_below (roots q) upper (Z.min limit MaxQueryItems) in
  '(range, c) ← visit (roots q) start stop c;
  '(act, c) ← extras newest (activeRoots q) c;
  let '(items, headers, _) := compactCollector (range ++ act) in
  Some (MkCompact StateUsable id compactProjection (sn_Epoch snap) (sn_Version snap) items headers lower upper lower
          ((start <? stop) && (0 <? start)) 0 false None).

Definition compact_render (q : queryIndex) (r : option CompactQueryResult) : outcome CompactQueryResult :=
  match r with Some r => Renders q r | None => Fails ErrCanceled end.

Definition compactQuery (s : Store) (c : context) (id : string) (upper limit : Z) (newest : bool) : outcome CompactQueryResult :=
  match ctx_Err c with
  | None => Fails ErrCanceled
  | Some c =>
      if negb (Conversations.ValidID id) then Fails ErrInvalidID
      else if limit <=? 0 then Fails ErrInvalidLimit
      else
        let '(snap, q) := captureQuery id s in
        if bool_decide (sn_State snap = StateUsable)
        then match q with
             | None => Returns (compact_state StateUnavailable (Some ErrUnavailable))
             | Some q => compact_render q (compact_window q c snap id upper limit newest)
             end
        else Returns (compact_state (sn_State snap) (sn_Err snap))
  end.

Definition CompactNewestWindow (s : Store) (c : context) (id : string) (limit : Z) : outcome CompactQueryResult := compactQuery s c id 0 limit true.
Definition CompactHistoryPage (s : Store) (c : context) (id : string) (upperOrder limit : Z) : outcome CompactQueryResult :=
  compactQuery s c id upperOrder limit false.

Definition compact_reset (snap : Snapshot) (id : string) : CompactQueryResult :=
  MkCompact StateUsable id compactProjection (sn_Epoch snap) (sn_Version snap) [] [] 0 0 0 false 0 true None.

Definition interval_reset (snap : Snapshot) (q : queryIndex) (epoch : string) (after : Z) : bool :=
  bool_decide (epoch <> sn_Epoch snap) || (sn_Version snap <? after) || (MaxCatchUpGap <? sn_Version snap - after)
  || negb (coveredThrough q =? sn_Version snap) || (after <? compactFrom q) || (after <? compactLost q) || (after <? unprovenThrough q).

Definition compactInterval (c : context) (id : string) (snap : Snapshot) (q : option queryIndex) (epoch : string) (after : Z) (more : bool)
    : outcome CompactQueryResult :=
  match q with
  | None => Returns (compact_reset snap id)
  | Some q =>
      if interval_reset snap q epoch after then Returns (compact_reset snap id)
      else
        compact_render q (
          '(rs, c) ← visit (rootTouches q) (rank (rootTouches q) (u64 (after + 1))) (treeSize (rootTouches q)) c;
          '(act, c) ← extras more (activeRoots q) c;
          let '(items, headers, _) := compactCollector (rs ++ act) in
          Some (MkCompact StateUsable id compactProjection (sn_Epoch snap) (sn_Version snap) items headers 0 0 0 false after false None))
  end.

Definition CompactCatchUp (s : Store) (c : context) (id epoch : string) (afterVersion limit : Z) : outcome CompactQueryResult :=
  if afterVersion =? 0 then compactQuery s c id 0 limit true
  else match ctx_Err c with
  | None => Fails ErrCanceled
  | Some c =>
      if negb (Conversations.ValidID id) then Fails ErrInvalidID
      else
        let '(snap, q) := captureQuery id s in
        if bool_decide (sn_State snap = StateUsable) then compactInterval c id snap q epoch afterVersion true
        else Returns (compact_state (sn_State snap) (sn_Err snap))
  end.

(** One turn of [CompactChanges]' loop, [None] where it goes on to wait. *)
Definition compact_poll (s : Store) (c : context) (id epoch : string) (after : Z) : option (outcome CompactQueryResult) :=
  match workers s !! id with
  | None => Some (Returns (compact_state StateNotLoaded None))
  | Some w =>
      if closed s || retiring w then Some (Returns (compact_state StateNotLoaded None))
      else
        let snap := snapshot w in
        if bool_decide (sn_State snap = StateUsable)
        then if bool_decide (epoch <> sn_Epoch snap) || negb (after =? sn_Version snap)
             then Some (compactInterval c id snap (query w) epoch after false) else None
        else Some (Returns (compact_state (sn_State snap) (sn_Err snap)))
  end.

(** The stores it wakes to in turn: the last wait ends with the context. *)
Fixpoint compact_wait (views : list Store) (c : context) (id epoch : string) (after : Z) : outcome CompactQueryResult :=
  match views with
  | [] => Fails ErrCanceled
  | s :: views => match compact_poll s c id epoch after with Some r => r | None => compact_wait views c id epoch after end
  end.
Definition CompactChanges (views : list Store) (c : context) (id epoch : string) (after : Z) : outcome CompactQueryResult :=
  match ctx_Err c with
  | None => Fails ErrCanceled
  | Some c => if negb (Conversations.ValidID id) then Fails ErrInvalidID else compact_wait views c id epoch after
  end.

End ThreadQuery.
