(* ===== verification/ThreadPages.v ===== *)
(** * Pages of a thread

    The rows each tree of an exact index lists, the ranges cut out of them and
    the closure under parents: what the windows and pages of [ThreadQuery]
    are made of. *)
From Stdlib Require Import ZArith Lia.
From stdpp Require Import prelude gmap list sorting.
From S2P Require Import Prelude ThreadIndex ThreadTree ThreadIndexInv ThreadAdvance ThreadQuery.

Module ThreadPages.
Import ThreadIndex ThreadTree ThreadIndexInv ThreadAdvance ThreadQuery.

Local Open Scope Z_scope.

(** ** The rows of a tree *)

Definition key_of (f : queryRow -> option (Z * Z)) (r : queryRow) : Z := match f r with Some (_, k) => k | None => 0 end.

Lemma elem_of_rows f M t r : tree_of f M t -> r ∈ rows t <-> M !! rid r = Some r /\ is_Some (f r).
Proof.
  intros [_ _ He]. unfold rows. rewrite list_elem_of_fmap. split.
  - intros (e & -> & (r' & g & k & Hr & Hf & ->)%He). cbn. split; [done|]. by rewrite Hf.
  - intros [Hr [[g k] Hf]]. exists ((g, k, rid r), r). split; [done|]. apply He. by exists r, g, k.
Qed.

Lemma rows_NoDup f M t : tree_of f M t -> NoDup (rows t).
Proof.
  intros [_ Hs He]. unfold rows. apply NoDup_fmap_2_strong; [|by apply sorted_NoDup].
  intros x y (r & g & k & _ & Hf & ->)%He (r' & g' & k' & _ & Hf' & ->)%He. cbn. intros ->. congruence.
Qed.

(** Trees of one group list their rows by key. *)
Definition one_group (f : queryRow -> option (Z * Z)) : Prop := forall r g k, f r = Some (g, k) -> g = 0.

Lemma ordered_group : one_group in_ordered.
Proof. intros r g k. unfold in_ordered. case_match; [|done]. by intros [= <- _]. Qed.
Lemma roots_group : one_group in_roots.
Proof. intros r g k. unfold in_roots. case_match; [|done]. by intros [= <- _]. Qed.
Lemma touched_group : one_group in_touched.
Proof. intros r g k [= <- _]. done. Qed.
Lemma rootTouches_group : one_group in_rootTouches.
Proof. intros r g k. unfold in_rootTouches. case_match; [|done]. by intros [= <- _]. Qed.

Section one_group.
Context (f : queryRow -> option (Z * Z)) (M : rowmap) (t : queryTree).
Hypothesis Hf : one_group f.
Hypothesis Ht : tree_of f M t.

Lemma rows_keys : (fun e : entry => e.1.1.2) <$> elems t = key_of f <$> rows t.
Proof.
  unfold rows. rewrite <- list_fmap_compose. apply list_fmap_ext. intros i e Hi. apply list_elem_of_lookup_2, (to_elems _ _ _ Ht) in Hi as (r & g & k & _ & E & ->).
  cbn. unfold key_of. by rewrite E.
Qed.

Lemma rows_split k : rows t = List.filter (fun r => key_of f r <? k) (rows t) ++ List.filter (fun r => k <=? key_of f r) (rows t).
Proof.
  assert (StronglySorted (fun r r' => key_of f r <= key_of f r') (rows t)) as Hs.
  { assert (Forall (fun e : entry => e.1.1 = (0, key_of f e.2)) (elems t)) as Hk.
    { apply Forall_forall. intros e (r & g & k' & _ & E & ->)%(to_elems _ _ _ Ht). cbn. unfold key_of. rewrite E. f_equal. by apply (Hf r g k'). }
    pose proof (to_sorted _ _ _ Ht) as Hs. unfold rows. clear -Hs Hk. induction (elems t) as [|e l IH]; [constructor|]. apply sorted_cons in Hs as [Hg Hs].
    apply Forall_cons in Hk as [Hk1 Hk]. cbn. constructor; [by apply IH|]. apply Forall_fmap. unfold all_gt in Hg. rewrite Forall_forall in Hg, Hk |- *. intros e' He'. cbn.
    specialize (Hg e' He'). specialize (Hk e' He'). destruct e as [[[g k] i] r], e' as [[[g' k'] i'] r']. cbn in Hk1, Hk. injection Hk1 as -> ->. injection Hk as -> ->. apply key_lt_spec in Hg. cbn. lia. }
  induction Hs as [|r l Hs IH Hr]; [done|]. cbn [List.filter]. destruct (Z.ltb_spec (key_of f r) k).
  - rewrite (proj2 (Z.leb_gt k (key_of f r))) by lia. cbn. by f_equal.
  - rewrite (proj2 (Z.leb_le k (key_of f r))) by lia. rewrite filter_none.
    + cbn. f_equal. rewrite filter_every; [done|]. eapply Forall_impl; [exact Hr|]. cbn. intros r' ?. apply Z.leb_le. lia.
    + eapply Forall_impl; [exact Hr|]. cbn. intros r' ?. apply Z.ltb_ge. lia.
Qed.

Lemma rank_rows k : rank t k = Z.of_nat (length (List.filter (fun r => key_of f r <? k) (rows t))).
Proof.
  destruct Ht as [Hb Hs He]. rewrite rank_spec; [|done|done|].
  - f_equal. assert (forall l : list entry, length (List.filter (fun e => e.1.1.2 <? k) l) = length (List.filter (fun x => x <? k) ((fun e : entry => e.1.1.2) <$> l))) as H.
    { induction l as [|e l IH]; [done|]. cbn. destruct (_ <? _); cbn; by rewrite IH. }
    rewrite H, rows_keys. clear. induction (rows t) as [|r l IH]; [done|]. cbn. destruct (_ <? _); cbn; by rewrite IH.
  - intros e (r & g & k' & _ & E & ->)%He. cbn. by apply (Hf r g k').
Qed.

Lemma rank_bound k : 0 <= rank t k <= treeSize t.
Proof. rewrite rank_rows, (size_rows _ (to_balanced _ _ _ Ht)). pose proof (List.filter_length_le (fun r => key_of f r <? k) (rows t)). lia. Qed.

Lemma drop_rank k : drop (Z.to_nat (rank t k)) (rows t) = List.filter (fun r => k <=? key_of f r) (rows t).
Proof.
  rewrite rank_rows, Nat2Z.id. pose proof (rows_split k) as E. revert E. generalize (List.filter (fun r => key_of f r <? k) (rows t)) (List.filter (fun r => k <=? key_of f r) (rows t)).
  intros l1 l2 ->. by rewrite drop_app_length.
Qed.

Lemma slice_from k : slice (rank t k) (treeSize t) (rows t) = List.filter (fun r => k <=? key_of f r) (rows t).
Proof.
  pose proof (rank_bound k) as Hb. unfold slice. rewrite <- drop_rank. apply take_ge. rewrite length_drop. rewrite (size_rows _ (to_balanced _ _ _ Ht)) in *. lia.
Qed.

Lemma slice_range a b : a <= b -> slice (rank t a) (rank t b) (rows t) = List.filter (fun r => (a <=? key_of f r) && (key_of f r <? b)) (rows t).
Proof.
  intros Hab. unfold slice. rewrite drop_rank, !rank_rows.
  pose proof (rows_split a) as Ea. pose proof (rows_split b) as Eb. set (l := rows t) in *. clearbody l.
  assert (List.filter (fun r => key_of f r <? b) l = List.filter (fun r => key_of f r <? a) l ++ List.filter (fun r => (a <=? key_of f r) && (key_of f r <? b)) l) as E1.
  { rewrite Ea at 1. rewrite List.filter_app. f_equal.
    - apply filter_every, Forall_forall. intros r [_ Hr%Z.ltb_lt]%list_elem_of_In%List.filter_In. apply Z.ltb_lt. lia.
    - clear. induction l as [|r l IH]; [done|]. cbn. destruct (a <=? key_of f r); cbn; [|done]. destruct (key_of f r <? b); by rewrite IH. }
  assert (List.filter (fun r => a <=? key_of f r) l = List.filter (fun r => (a <=? key_of f r) && (key_of f r <? b)) l ++ List.filter (fun r => b <=? key_of f r) l) as E2.
  { apply (app_inv_head (List.filter (fun r => key_of f r <? a) l)). rewrite <- Ea, app_assoc, <- E1. done. }
  rewrite E2, E1, length_app. rewrite take_app_length'; [done|lia].
Qed.

Lemma rank_lookup i r k : rows t !! i = Some r -> Z.of_nat i < rank t k <-> key_of f r < k.
Proof.
  intros Hi. rewrite rank_rows. rewrite (rows_split k) in Hi. destruct (decide (i < length (List.filter (fun r => (key_of f r <? k)%Z) (rows t)))%nat) as [Hlt|Hge].
  - rewrite lookup_app_l in Hi by done. apply list_elem_of_lookup_2, list_elem_of_In, List.filter_In in Hi as [_ Hk%Z.ltb_lt]. lia.
  - rewrite lookup_app_r in Hi by lia. apply list_elem_of_lookup_2, list_elem_of_In, List.filter_In in Hi as [_ Hk%Z.leb_le]. lia.
Qed.

Lemma rank_pos k : 0 < rank t k <-> exists r, r ∈ rows t /\ key_of f r < k.
Proof.
  split.
  - intros H. pose proof (rank_bound k) as Hb. rewrite (size_rows _ (to_balanced _ _ _ Ht)) in Hb. destruct (lookup_lt_is_Some_2 (rows t) 0) as [r Hr]; [lia|].
    exists r. split; [by eapply list_elem_of_lookup_2|]. apply (rank_lookup 0); [done|lia].
  - intros (r & [i Hi]%list_elem_of_lookup_1 & Hk). apply (rank_lookup i r k Hi) in Hk. lia.
Qed.

(** The range below a key is what lies between two orders, the lower one of a
    row; it starts past rank zero just where there are older rows, and then has
    as many as asked for. It is empty where there is no row to have. *)
Definition is_range (upper limit start stop lower : Z) : Prop :=
  0 <= start /\
  ((start < stop /\ lower < upper /\ (exists r, r ∈ rows t /\ Order (item r) = lower)
    /\ slice start stop (rows t) = List.filter (fun r => (lower <=? Order (item r)) && (Order (item r) <? upper)) (rows t)
    /\ (0 < start <-> exists r, r ∈ rows t /\ Order (item r) < lower)
    /\ (0 < start -> limit <= Z.of_nat (length (slice start stop (rows t)))))
   \/ (stop <= start /\ lower = 0 /\ slice start stop (rows t) = [] /\ forall r, r ∈ rows t -> upper <= Order (item r))).

Lemma range_below_spec upper limit :
  (forall r, r ∈ rows t -> key_of f r = Order (item r)) -> 0 < limit ->
  let '(start, stop, lower) := range_below t upper limit in is_range upper limit start stop lower.
Proof.
  intros Hkey Hlim. unfold range_below, is_range. set (stop := rank t upper). pose proof (rank_bound upper) as Hstop. fold stop in Hstop.
  pose proof (size_rows _ (to_balanced _ _ _ Ht)) as Hsz.
  destruct (Z.ltb_spec (Z.max 0 (stop - limit)) stop) as [Hne|Hemp].
  - set (start := Z.max 0 (stop - limit)) in *. destruct (lookup_lt_is_Some_2 (rows t) (Z.to_nat start)) as [r Hr]; [lia|].
    unfold order_at. rewrite at_spec, Hr by (apply Ht || lia). pose proof (list_elem_of_lookup_2 _ _ _ Hr) as Hin. rewrite <- (Hkey r Hin). set (lower := key_of f r).
    pose proof (rank_bound lower). assert (rank t lower <= start) as Hle.
    { apply Z.nlt_ge. intros Hlt. replace start with (Z.of_nat (Z.to_nat start)) in Hlt by lia. apply (rank_lookup _ _ _ Hr) in Hlt. unfold lower in Hlt. lia. }
    assert (lower < upper) as Hlu by (apply (rank_lookup _ _ _ Hr); unfold stop in *; lia).
    split; [lia|]. left. split; [lia|]. split; [done|]. split; [exists r; split; [done|by rewrite <- Hkey]|].
    assert (forall l, (forall x, x ∈ l -> x ∈ rows t) -> List.filter (fun r => (lower <=? key_of f r) && (key_of f r <? upper)) l = List.filter (fun r => (lower <=? Order (item r)) && (Order (item r) <? upper)) l) as E.
    { intros l Hl. apply filter_ext_Forall, Forall_forall. intros x Hx. by rewrite Hkey by auto. }
    split; [|split].
    + unfold stop. rewrite slice_range by lia. by apply E.
    + rewrite rank_pos. split; intros (x & Hx & Hk); exists x; (split; [done|]); by rewrite ?Hkey in * by done.
    + intros Hpos. unfold slice. rewrite length_take, length_drop. lia.
  - split; [lia|]. right. split; [done|]. split; [done|]. split; [by apply slice_nil|]. intros r Hr. rewrite <- Hkey by done. apply Z.nlt_ge. intros Hk.
    assert (0 < rank t upper) by (apply rank_pos; eauto). unfold stop in *. lia.
Qed.

End one_group.

(** ** What is chosen *)

Record chosen_ok (M : rowmap) (acc : chosen) : Prop := ChosenOk {
  ck_seen : forall id, id ∈ acc.2 <-> id ∈ ID <$> acc.1;
  ck_NoDup : NoDup (ID <$> acc.1);
  ck_rows : forall it, it ∈ acc.1 -> exists r, M !! ID it = Some r /\ item r = it;
}.

Lemma chosen_nil M : chosen_ok M ([], ∅).
Proof. constructor; cbn; [intros id; split; [by intros ?%not_elem_of_empty|by intros ?%not_elem_of_nil]|constructor|by intros it ?%not_elem_of_nil]. Qed.

Lemma add_spec M acc row :
  chosen_ok M acc -> M !! rid row = Some row ->
  chosen_ok M (add acc row) /\ (forall it, it ∈ (add acc row).1 <-> it ∈ acc.1 \/ it = item row)
  /\ (add acc row = acc \/ rid row ∉ acc.2 /\ add acc row = (acc.1 ++ [item row], {[rid row]} ∪ acc.2)).
Proof.
  destruct acc as [items seen]. intros [H1 H2 H3] Hr. cbn [fst snd] in *. unfold add. change (ID (item row)) with (rid row).
  destruct (bool_decide (rid row ∈ seen)) eqn:E; [apply bool_decide_eq_true in E|apply bool_decide_eq_false in E].
  - split; [done|]. split; [|by left]. intros it. cbn. split; [by left|]. intros [?| ->]; [done|]. apply H1, list_elem_of_fmap in E as (it & Eid & Hit).
    destruct (H3 it Hit) as (r & Hr' & <-). rewrite <- Eid in Hr'. by simplify_eq.
  - split; [|split; [|by right]].
    + constructor; cbn [fst snd].
      * intros id. rewrite fmap_app, elem_of_union, elem_of_singleton, elem_of_app, H1. cbn. rewrite list_elem_of_singleton. unfold rid. tauto.
      * rewrite fmap_app. apply NoDup_app. split; [done|]. split; [|apply NoDup_singleton]. intros id Hid ->%list_elem_of_singleton. by apply E, H1.
      * intros it [Hit| ->%list_elem_of_singleton]%elem_of_app; [by apply H3|]. by exists row.
    + intros it. cbn. by rewrite elem_of_app, list_elem_of_singleton.
Qed.

Lemma adds_spec M rs acc :
  chosen_ok M acc -> (forall row, row ∈ rs -> M !! rid row = Some row) ->
  chosen_ok M (foldl add acc rs) /\ forall it, it ∈ (foldl add acc rs).1 <-> it ∈ acc.1 \/ it ∈ item <$> rs.
Proof.
  revert acc. induction rs as [|row rs IH]; intros acc Hacc Hrs; cbn [foldl].
  - split; [done|]. intros it. cbn. split; [by left|]. by intros [?|?%not_elem_of_nil].
  - destruct (add_spec M acc row Hacc (Hrs row ltac:(by left))) as (H1 & H2 & _). destruct (IH (add acc row) H1) as [H3 H4]; [by intros r ?; apply Hrs; right|].
    split; [done|]. intros it. rewrite H4, H2, fmap_cons, elem_of_cons. tauto.
Qed.

Lemma parents_loop_spec q M fuel strict c i acc :
  represents q M -> chosen_ok M acc -> (size (dom M ∖ acc.2) + (length acc.1 - i) < fuel)%nat ->
  match parents_loop fuel strict q c i acc with
  | Canceled => c <> None
  | Unclosed => strict = true /\ exists r, M !! rid r = Some r /\ Parent (item r) <> 0 /\ M !! Parent (item r) = None
  | Closed acc' c' =>
      chosen_ok M acc' /\ (exists extra, acc'.1 = acc.1 ++ extra) /\ (c = None -> c' = None)
      /\ (forall k it, (i <= k)%nat -> acc'.1 !! k = Some it ->
            Parent it = 0 \/ Parent it ∈ acc'.2 \/ strict = false /\ M !! Parent it = None)
      /\ (forall it, it ∈ acc'.1 -> exists it0, it0 ∈ acc.1 /\ under M (ID it) (ID it0))
  end.
Proof.
  intros Hq. revert c i acc. induction fuel as [|fuel IH]; intros c i acc Hacc Hf; [lia|]. cbn [parents_loop].
  assert (forall it, it ∈ acc.1 -> under M (ID it) (ID it)) as Hself by (intros it Hit; destruct (ck_rows _ _ Hacc it Hit) as (r & Hr & _); constructor; by rewrite Hr).
  destruct (acc.1 !! i) as [it|] eqn:Hi.
  2:{ split; [done|]. split; [by exists []; rewrite app_nil_r|]. split; [done|]. split; [|eauto]. intros k it Hk Hit. apply lookup_lt_Some in Hit. apply lookup_ge_None in Hi. lia. }
  assert (i < length acc.1)%nat as Hlen by (by eapply lookup_lt_Some).
  destruct (ctx_Err c) as [c1|] eqn:Hc; [|by intros ->].
  destruct (negb (Parent it =? 0) && bool_decide (Parent it ∉ acc.2)) eqn:E.
  - apply andb_true_iff in E as [E0%negb_true_iff%Z.eqb_neq E1%bool_decide_eq_true]. rewrite (rp_lookup _ _ Hq). destruct (M !! Parent it) as [row|] eqn:Hp.
    + pose proof (rp_id _ _ Hq _ _ Hp) as Hid. destruct (add_spec M acc row Hacc) as (A1 & A2 & A3); [by rewrite Hid|].
      destruct A3 as [A3|[A3 A4]]; [exfalso; apply E1, (ck_seen _ _ Hacc)|].
      { rewrite <- Hid. unfold rid. apply list_elem_of_fmap. exists (item row). split; [done|]. rewrite <- A3. apply A2. by right. }
      assert (size (dom M ∖ (add acc row).2) + (length (add acc row).1 - S i) < fuel)%nat as Hf'.
      { rewrite A4. cbn [fst snd]. rewrite length_app. cbn. assert (dom M ∖ ({[rid row]} ∪ acc.2) ⊂ dom M ∖ acc.2) as Hs%subset_size; [|lia].
        assert (rid row ∈ dom M) by (rewrite Hid; by apply elem_of_dom). set_solver. }
      specialize (IH c1 (S i) (add acc row) A1 Hf'). destruct (parents_loop fuel strict q c1 (S i) (add acc row)) as [| |acc' c'];
        [by intros ->; injection Hc as <-; apply IH|done|]. destruct IH as (I1 & [extra I2] & I3 & I4 & I5).
      rewrite A4 in I2. cbn in I2. split; [done|]. split; [exists ([item row] ++ extra); by rewrite I2, <- app_assoc|].
      split; [intros ->; injection Hc as <-; auto|]. split.
      * intros k x Hk Hx. destruct (decide (k = i)) as [->|]; [|apply (I4 k); [lia|done]]. rewrite I2, <- app_assoc, lookup_app_l, Hi in Hx by done. injection Hx as <-.
           right. left. apply (ck_seen _ _ I1), list_elem_of_fmap. exists (item row). split; [done|]. rewrite I2. apply elem_of_app. left. apply elem_of_app. right. by apply list_elem_of_singleton.
      * intros x Hx. destruct (I5 x Hx) as (it0 & Hin & Hu). apply A2 in Hin as [Hin| ->]; [eauto|]. exists it. split; [by eapply list_elem_of_lookup_2|].
           destruct (ck_rows _ _ Hacc it) as (r & Hr & <-); [by eapply list_elem_of_lookup_2|]. eapply under_step; [done|]. by rewrite <- Hid.
    + destruct strict.
      * split; [done|]. destruct (ck_rows _ _ Hacc it) as (r & Hr & E); [by eapply list_elem_of_lookup_2|]. exists r. unfold rid. by rewrite E.
      * specialize (IH c1 (S i) acc Hacc ltac:(lia)). destruct (parents_loop fuel false q c1 (S i) acc) as [| |acc' c']; [intros ->; injection Hc as <-; auto|by destruct IH|].
        destruct IH as (I1 & [extra I2] & I3 & I4 & I5). split; [done|]. split; [eauto|]. split; [intros ->; injection Hc as <-; auto|]. split; [|done].
        intros k x Hk Hx. destruct (decide (k = i)) as [->|]; [|apply (I4 k); [lia|done]]. rewrite I2, lookup_app_l, Hi in Hx by done. injection Hx as <-. auto.
  - specialize (IH c1 (S i) acc Hacc ltac:(lia)). destruct (parents_loop fuel strict q c1 (S i) acc) as [| |acc' c']; [intros ->; injection Hc as <-; auto|done|].
    destruct IH as (I1 & [extra I2] & I3 & I4 & I5). split; [done|]. split; [eauto|]. split; [intros ->; injection Hc as <-; auto|]. split; [|done].
    intros k x Hk Hx. destruct (decide (k = i)) as [->|]; [|apply (I4 k); [lia|done]]. rewrite I2, lookup_app_l, Hi in Hx by done. injection Hx as <-.
    apply andb_false_iff in E as [E%negb_false_iff%Z.eqb_eq|E%bool_decide_eq_false]; [by left|]. right. left. apply (ck_seen _ _ I1). rewrite I2, fmap_app. apply elem_of_app. left.
    apply (ck_seen _ _ Hacc). by destruct (decide (Parent it ∈ acc.2)).
Qed.

End ThreadPages.
