(* ===== verification/ThreadWindows.v ===== *)
(** * Windows and pages of a thread, complete

    History pages chained by their continuations and pages of children chained
    by their cursors give every row once. *)
From Stdlib Require Import ZArith Lia.
From stdpp Require Import prelude gmap strings list sorting.
From S2P Require Import Prelude Conversations ThreadIndex ThreadTree ThreadIndexInv ThreadAdvance ThreadQuery ThreadPages.

Module ThreadWindows.
Import ThreadIndex ThreadTree ThreadIndexInv ThreadAdvance ThreadQuery ThreadPages.

Local Open Scope Z_scope.

(** ** A window *)

Lemma close_parents_spec q M strict c acc :
  represents q M -> chosen_ok M acc ->
  match close_parents strict q c acc with
  | Canceled => c <> None
  | Unclosed => strict = true /\ exists r, M !! rid r = Some r /\ Parent (item r) <> 0 /\ M !! Parent (item r) = None
  | Closed acc' c' =>
      chosen_ok M acc' /\ (forall it, it ∈ acc.1 -> it ∈ acc'.1) /\ (c = None -> c' = None)
      /\ (forall it, it ∈ acc'.1 -> Parent it = 0 \/ Parent it ∈ ID <$> acc'.1 \/ strict = false /\ M !! Parent it = None)
      /\ (forall it, it ∈ acc'.1 -> exists it0, it0 ∈ acc.1 /\ under M (ID it) (ID it0))
  end.
Proof.
  intros Hq Hacc. unfold close_parents. pose proof (touched_size _ _ Hq) as Hsz. pose proof (subseteq_size (dom M ∖ acc.2) (dom M) ltac:(set_solver)) as Hs.
  rewrite size_dom in Hs. pose proof (parents_loop_spec q M (S (length acc.1 + Z.to_nat (treeSize (touched q)))) strict c 0 acc Hq Hacc ltac:(lia)) as H.
  destruct (parents_loop _ _ _ _ _ _) as [| |acc' c']; [done..|]. destruct H as (H1 & [extra H2] & H3 & H4 & H5). split; [done|]. split; [rewrite H2; set_solver|]. split; [done|].
  split; [|done]. intros it [k Hk]%list_elem_of_lookup_1. rewrite <- (ck_seen _ _ H1). apply (H4 k); [lia|done].
Qed.

Lemma whole {A} (l : list A) : slice 0 (Z.of_nat (length l)) l = l.
Proof. unfold slice. rewrite Z.sub_0_r, drop_0, Nat2Z.id. by apply take_ge. Qed.

Lemma extras_spec b n c : balanced n -> match extras b n c with Some (l, c') => l = (if b then rows n else []) /\ (c = None -> c' = None) | None => c <> None end.
Proof.
  intros Hn. unfold extras. destruct b; [|done]. pose proof (visit_spec n 0 (treeSize n) c Hn ltac:(lia)) as H.
  destruct (visit _ _ _ _) as [[l c']|]; [|done]. by rewrite size_rows, whole in H.
Qed.

Lemma extras_None b n : balanced n -> extras b n None = Some (if b then rows n else [], None).
Proof. intros Hn. pose proof (extras_spec b n None Hn) as H. destruct (extras b n None) as [[l c]|]; [|done]. destruct H as [-> H]. by rewrite H. Qed.

Lemma visit_None n a b : balanced n -> 0 <= a -> visit n a b None = Some (slice a b (rows n), None).
Proof. intros Hn Ha. pose proof (visit_spec n a b None Hn Ha) as H. destruct (visit n a b None) as [[l c]|]; [|done]. destruct H as [-> H]. by rewrite H. Qed.

(** What a window has: rows of the index, each once, with the parents there
    are, and nothing that is not above a row it is to have. *)
Record selects (M : rowmap) (want : queryRow -> Prop) (items : list Item) : Prop := Selects {
  se_rows : forall it, it ∈ items -> exists r, M !! ID it = Some r /\ item r = it;
  se_NoDup : NoDup (ID <$> items);
  se_want : forall r, M !! rid r = Some r -> want r -> item r ∈ items;
  se_parents : forall it p, it ∈ items -> M !! Parent it = Some p -> item p ∈ items;
  se_why : forall it, it ∈ items -> exists r, M !! rid r = Some r /\ want r /\ under M (ID it) (rid r);
}.

Lemma closed_selects M want (rs : list queryRow) items seen :
  wf M -> (forall r, r ∈ rs <-> M !! rid r = Some r /\ want r) ->
  chosen_ok M (items, seen) -> (forall r, r ∈ rs -> item r ∈ items) ->
  (forall it, it ∈ items -> Parent it = 0 \/ Parent it ∈ ID <$> items \/ M !! Parent it = None) ->
  (forall it, it ∈ items -> exists r, r ∈ rs /\ under M (ID it) (rid r)) -> selects M want items.
Proof.
  intros HM Hrs [H1 H2 H3] Hin Hpar Hwhy. constructor; try done.
  - intros r Hr Hw. apply Hin, Hrs. done.
  - intros it p Hit Hp. destruct (HM _ _ Hp) as (Eid & H0 & _). destruct (Hpar it Hit) as [E|[E|E]]; [unfold rid in Eid; lia| |congruence].
    apply list_elem_of_fmap in E as (it' & E & Hit'). destruct (H3 it' Hit') as (r & Hr & <-). rewrite <- E in Hr. by simplify_eq.
  - intros it Hit. destruct (Hwhy it Hit) as (r & [Hr Hw]%Hrs & Hu). eauto.
Qed.

Lemma ordered_key M t : tree_of in_ordered M t -> forall r, r ∈ rows t -> key_of in_ordered r = Order (item r).
Proof. intros Ht r [_ [[g k] Hf]]%(elem_of_rows _ _ _ _ Ht). unfold key_of, in_ordered in *. by case_match. Qed.

Lemma elem_of_ordered M t r : tree_of in_ordered M t -> r ∈ rows t <-> M !! rid r = Some r /\ Order (item r) <> 0.
Proof.
  intros Ht. rewrite (elem_of_rows _ _ _ _ Ht). unfold in_ordered. destruct (Z.eqb_spec (Order (item r)) 0) as [E|E]; cbn; split; intros [? H]; split; try done.
Qed.

Lemma elem_of_active M t r : tree_of in_active M t -> r ∈ rows t <-> M !! rid r = Some r /\ Active (item r) = true.
Proof.
  intros Ht. rewrite (elem_of_rows _ _ _ _ Ht). unfold in_active. destruct (Active (item r)); split; intros [? H]; split; try done.
Qed.

(** The rows a window is to have. *)
Definition in_window (lower upper : Z) (newest : bool) (r : queryRow) : Prop :=
  Order (item r) <> 0 /\ lower <= Order (item r) < upper \/ newest = true /\ Active (item r) = true.

Lemma window_spec q M snap upper limit (newest : bool) :
  exact q M -> 0 < limit ->
  let top := if newest then u64 (sn_Version snap + 1) else upper in
  exists start stop lower items,
    window q None snap upper limit newest
    = Some (MkResult StateUsable items (sn_Epoch snap) (sn_Version snap) lower top lower ((start <? stop) && (0 <? start)) 0 false None)
    /\ is_range (ordered q) top limit start stop lower /\ selects M (in_window (if start <? stop then lower else top) top newest) items.
Proof.
  intros [Hq HM _ _] Hlim top. pose proof (rp_ordered _ _ Hq) as Ho. pose proof (rp_active _ _ Hq) as Ha. unfold window.
  pose proof (range_below_spec in_ordered M (ordered q) ordered_group Ho top limit (ordered_key _ _ Ho) Hlim) as Hr. fold top.
  destruct (range_below (ordered q) top limit) as [[start stop] lower]. exists start, stop, lower.
  destruct Hr as [Hstart Hr]. rewrite visit_None by (apply Ho || done). cbn [mbind option_bind]. rewrite extras_None by apply Ha.
  set (act := if newest then rows (active q) else []).
  assert (forall r, r ∈ act <-> newest = true /\ M !! rid r = Some r /\ Active (item r) = true) as Hact.
  { intros r. unfold act. destruct newest; [rewrite (elem_of_active _ _ _ Ha); tauto|]. split; [by intros ?%not_elem_of_nil|by intros [? _]]. }
  cbn [mbind option_bind]. set (rs := slice start stop (rows (ordered q)) ++ act).
  assert (forall r, r ∈ rs <-> M !! rid r = Some r /\ in_window (if start <? stop then lower else top) top newest r) as Hrs.
  { intros r. unfold rs. rewrite elem_of_app, Hact. unfold in_window. destruct Hr as [(Hlt & _ & _ & -> & _)|(Hge & _ & -> & Hnone)].
    - rewrite (proj2 (Z.ltb_lt _ _) Hlt), list_elem_of_In, List.filter_In, <- list_elem_of_In, (elem_of_ordered _ _ _ Ho), andb_true_iff, Z.leb_le, Z.ltb_lt. tauto.
    - rewrite (proj2 (Z.ltb_ge _ _) Hge). split; [intros [?%not_elem_of_nil|?]; [done|tauto]|]. intros [? [[? ?]|?]]; [lia|tauto]. }
  assert (forall r, r ∈ rs -> M !! rid r = Some r) as Hin by (intros r Hr'; by apply Hrs).
  destruct (adds_spec M rs ([], ∅) (chosen_nil M) Hin) as [H1 H2]. pose proof (close_parents_spec q M false None _ Hq H1) as Hcl.
  destruct (close_parents false q None (foldl add ([], ∅) rs)) as [| |[items seen] c1]; [done|by destruct Hcl|].
  destruct Hcl as (C1 & C2 & C3 & C4 & C5). cbn [fst snd] in *. rewrite C3 by done. exists items. split; [done|]. split; [by split|].
  eapply (closed_selects M _ rs items seen HM Hrs C1).
  - intros r Hr'. apply C2, H2. right. apply list_elem_of_fmap. eauto.
  - intros it Hit. destruct (C4 it Hit) as [?|[?|[_ ?]]]; auto.
  - intros it Hit. destruct (C5 it Hit) as (it0 & Hin0 & Hu). apply H2 in Hin0 as [?%not_elem_of_nil|(r & -> & Hr')%list_elem_of_fmap]; [done|]. eauto.
Qed.

(** ** History, page by page *)

(** A client that asks for older pages while there are any. *)
Fixpoint older_pages (fuel : nat) (s : Store) (id : string) (upper limit : Z) : list QueryResult :=
  match fuel with
  | O => []
  | S fuel =>
      match HistoryPage s None id upper limit with
      | Renders _ pg => pg :: if OlderExists pg then older_pages fuel s id (Continuation pg) limit else []
      | _ => []
      end
  end.

(** A row in the range a page is for. *)
Definition in_page (pg : QueryResult) (r : queryRow) : Prop := Order (item r) <> 0 /\ LowerOrder pg <= Order (item r) < UpperOrder pg.

(** A worker with an exact index of [M], usable under [id]. *)
Record serves (s : Store) (id : string) (snap : Snapshot) (q : queryIndex) (M : rowmap) : Prop := Serves {
  sv_id : Conversations.ValidID id = true;
  sv_capture : captureQuery id s = (snap, Some q);
  sv_usable : sn_State snap = StateUsable;
  sv_exact : exact q M;
}.

Section history.
Context (s : Store) (id : string) (snap : Snapshot) (q : queryIndex) (M : rowmap).
Hypothesis Hs : serves s id snap q M.
Context (limit : Z).
Hypothesis Hlim : 0 < limit.

Definition older (upper : Z) : list queryRow := List.filter (fun r => Order (item r) <? upper) (rows (ordered q)).

Lemma history_page upper :
  exists pg, HistoryPage s None id upper limit = Renders q pg
    /\ UpperOrder pg = upper /\ Continuation pg = LowerOrder pg /\ selects M (in_page pg) (Items pg)
    /\ (OlderExists pg = true -> LowerOrder pg < upper /\ (length (older (LowerOrder pg)) < length (older upper))%nat)
    /\ (OlderExists pg = false -> forall r, M !! rid r = Some r -> Order (item r) <> 0 -> Order (item r) < upper -> LowerOrder pg <= Order (item r)).
Proof.
  destruct Hs as [Hid Hcap Hst Hex]. pose proof (rp_ordered _ _ (ex_rep _ _ Hex)) as Ho. unfold HistoryPage, querying. cbn [ctx_Err]. rewrite Hid. cbn [negb]. rewrite (proj2 (Z.leb_gt limit 0)) by done.
  rewrite Hcap, Hst, bool_decide_eq_true_2 by done.
  destruct (window_spec q M snap upper (Z.min limit MaxQueryItems) false Hex ltac:(unfold MaxQueryItems; lia)) as (start & stop & lower & items & E & [Hst0 Hr] & Hsel).
  cbv zeta in E. rewrite E. eexists. split; [done|]. cbn [UpperOrder Continuation LowerOrder OlderExists Items]. split; [done|]. split; [done|].
  assert (forall x, x ∈ rows (ordered q) <-> M !! rid x = Some x /\ Order (item x) <> 0) as Hord by (intros x; by apply elem_of_ordered).
  destruct Hr as [(Hlt & Hlu & (r0 & Hr0 & E0) & Hsl & Hold & _)|(Hge & -> & _ & Hnone)].
  - rewrite (proj2 (Z.ltb_lt _ _) Hlt) in *. split; [|split].
    + destruct Hsel as [S1 S2 S3 S4 S5]. constructor; try done; [intros r Hr [? ?]; apply S3; [done|by left]|].
      intros it Hit. destruct (S5 it Hit) as (r & ? & [[? ?]|[? _]] & ?); [|done]. exists r. done.
    + intros _. split; [done|]. unfold older. rewrite (filter_length_split (fun r => Order (item r) <? upper) (fun r => Order (item r) <? lower)).
      * assert (r0 ∈ List.filter (fun x => (Order (item x) <? upper) && negb (Order (item x) <? lower)) (rows (ordered q))) as Hin; [|destruct (List.filter (fun x => (Order (item x) <? upper) && negb (Order (item x) <? lower)) _); [by apply not_elem_of_nil in Hin|cbn; lia]].
        apply list_elem_of_In, List.filter_In. split; [by apply list_elem_of_In|]. rewrite andb_true_iff, negb_true_iff, Z.ltb_lt, Z.ltb_ge. lia.
      * apply Forall_forall. intros r _ ?%Z.ltb_lt. apply Z.ltb_lt. lia.
    + intros [?|Hz%Z.ltb_ge]%andb_false_iff r Hr Hne Hup; [done|]. apply Z.nlt_ge. intros Hl. assert (0 < start); [|lia]. apply Hold. exists r. by rewrite Hord.
  - rewrite (proj2 (Z.ltb_ge _ _) Hge) in *. split; [|split; [done|]].
    + destruct Hsel as [S1 S2 S3 S4 S5]. constructor; try done; [intros r Hr [Hne Hrg]; exfalso; assert (upper <= Order (item r)) by (by apply Hnone, Hord); cbn in Hrg; lia|].
      intros it Hit. destruct (S5 it Hit) as (r & ? & [[? ?]|[? _]] & ?); [lia|done].
    + intros _ r Hr Hne Hup. assert (upper <= Order (item r)) by (by apply Hnone, Hord). lia.
Qed.

Lemma older_pages_spec fuel upper :
  (length (older upper) < fuel)%nat ->
  let pages := older_pages fuel s id upper limit in
  (forall r, M !! rid r = Some r -> Order (item r) <> 0 -> Order (item r) < upper -> exists! k, exists pg, pages !! k = Some pg /\ in_page pg r)
  /\ (forall pg, pg ∈ pages -> selects M (in_page pg) (Items pg) /\ UpperOrder pg <= upper)
  /\ (exists pg, last pages = Some pg /\ OlderExists pg = false).
Proof.
  revert upper. induction fuel as [|fuel IH]; intros upper Hf; [lia|]. cbn [older_pages]. destruct (history_page upper) as (pg & -> & Hu & Hc & Hsel & Hold & Hnone).
  destruct (OlderExists pg) eqn:Eo.
  - destruct (Hold eq_refl) as [Hl Hlen]. rewrite Hc. destruct (IH (LowerOrder pg) ltac:(lia)) as (I1 & I2 & pgl & I3 & I4). clear Hold Hnone. cbn zeta. split; [|split].
    + intros r Hr Hne Hup. destruct (Z.le_gt_cases (LowerOrder pg) (Order (item r))) as [Hge|Hlt].
      * exists 0%nat. split; [exists pg; split; [done|]; unfold in_page; rewrite Hu; lia|]. intros [|k] (pg' & Hk & Hin); [done|]. cbn in Hk. apply list_elem_of_lookup_2, I2 in Hk as [_ ?].
        destruct Hin as [_ ?]. lia.
      * destruct (I1 r Hr Hne Hlt) as (k & (pg' & Hk & Hin) & Huniq). exists (S k). split; [by exists pg'|]. intros [|k'] (pg2 & Hk' & Hin'); [injection Hk' as <-; destruct Hin'; lia|].
        f_equal. apply Huniq. by exists pg2.
    + intros pg' [->|Hin]%elem_of_cons; [split; [done|lia]|]. destruct (I2 pg' Hin) as [? ?]. split; [done|lia].
    + exists pgl. split; [|done]. rewrite last_cons, I3. done.
  - split; [|split].
    + intros r Hr Hne Hup. exists 0%nat. specialize (Hnone eq_refl r Hr Hne Hup). split; [exists pg; split; [done|]; unfold in_page; rewrite Hu; lia|]. by intros [|k] (pg' & Hk & _).
    + intros pg' ->%list_elem_of_singleton. split; [done|lia].
    + by exists pg.
Qed.

End history.

(** C13. Asking for older pages of a conversation's history until none is left
    shows all of it. From any order down, with any positive limit, each row that
    has an order below it lies in the range of exactly one of the pages; every
    page has all the rows of its range and the rows above those, no item twice
    and nothing else; and the last says there is nothing older, however many
    rows share an order. *)
Theorem history_pages_partition s id snap q M upper limit :
  serves s id snap q M -> 0 < limit ->
  let pages := older_pages (S (length (rows (ordered q)))) s id upper limit in
  (forall r, M !! rid r = Some r -> Order (item r) <> 0 -> Order (item r) < upper -> exists! k, exists pg, pages !! k = Some pg /\ in_page pg r)
  /\ (forall pg, pg ∈ pages -> selects M (in_page pg) (Items pg))
  /\ (exists pg, last pages = Some pg /\ OlderExists pg = false).
Proof.
  intros Hs Hlim. destruct (older_pages_spec s id snap q M Hs limit Hlim (S (length (rows (ordered q)))) upper) as (H1 & H2 & H3).
  - pose proof (List.filter_length_le (fun r => Order (item r) <? upper) (rows (ordered q))). unfold older. lia.
  - split; [done|]. split; [|done]. intros pg Hpg. by apply H2.
Qed.

End ThreadWindows.
