(* ===== verification/ThreadChildren.v ===== *)
(** * Pages of a row's children, complete

    However a client packs the pages, chaining them by their cursors delivers
    every child of the row once, in order. *)
From Stdlib Require Import ZArith Lia.
From stdpp Require Import prelude gmap strings list sorting.
From S2P Require Import Prelude Conversations ThreadIndex ThreadTree ThreadIndexInv ThreadAdvance ThreadQuery ThreadPages ThreadWindows.

Module ThreadChildren.
Import ThreadIndex ThreadTree ThreadIndexInv ThreadAdvance ThreadQuery ThreadPages ThreadWindows.

Local Open Scope Z_scope.

(** ** The children of a row, in the tree *)

(** Children are listed by their order, then their id. *)
Definition child_lt (r r' : queryRow) : Prop := Order (item r) < Order (item r') \/ Order (item r) = Order (item r') /\ rid r < rid r'.

(** What [groupRank] counts comes first. *)
Lemma before_down k inc e e' : key_lt e.1 e'.1 -> before k inc e' = true -> before k inc e = true.
Proof.
  unfold before. intros Hlt. destruct (key_cmp e'.1 k) eqn:E; [|intros _|done].
  - apply key_cmp_eq in E as <-. intros _. by rewrite Hlt.
  - assert (key_lt e.1 k) as ->; [|done]. by transitivity e'.1.
Qed.

Lemma before_prefix k inc l i e :
  sorted l -> l !! i = Some e -> (i < length (List.filter (before k inc) l))%nat <-> before k inc e = true.
Proof.
  revert i. induction l as [|x l IH]; intros i Hs Hi; [done|]. apply sorted_cons in Hs as [Hg Hs]. cbn [List.filter]. destruct (before k inc x) eqn:Ex.
  - destruct i as [|i]; [injection Hi as <-; cbn; split; [done|lia]|]. cbn in *. rewrite <- (IH i Hs Hi). lia.
  - rewrite filter_none.
    + cbn. split; [lia|]. intros He. exfalso. destruct i as [|i]; [injection Hi as ->; congruence|]. cbn in Hi. apply list_elem_of_lookup_2 in Hi. unfold all_gt in Hg. rewrite Forall_forall in Hg.
      by rewrite (before_down k inc x e (Hg e Hi) He) in Ex.
    + eapply Forall_impl; [exact Hg|]. cbn. intros y Hy. destruct (before k inc y) eqn:Ey; [|done]. by rewrite (before_down k inc x y Hy Ey) in Ex.
Qed.

Lemma tree_sorted_lookup l i j e e' : sorted l -> l !! i = Some e -> l !! j = Some e' -> (i < j)%nat -> key_lt e.1 e'.1.
Proof.
  revert i j. induction l as [|x l IH]; intros i j Hs Hi Hj Hij; [done|]. apply sorted_cons in Hs as [Hg Hs]. destruct j as [|j]; [lia|]. destruct i as [|i].
  - injection Hi as ->. cbn in Hj. apply list_elem_of_lookup_2 in Hj. unfold all_gt in Hg. rewrite Forall_forall in Hg. auto.
  - apply (IH i j); [done..|lia].
Qed.

Section children.
Context (M : rowmap) (t : queryTree).
Hypothesis Ht : tree_of in_children M t.
Hypothesis HM : wf M.
Context (parent : Z).

Definition children_rows : list queryRow := List.filter (fun r => Parent (item r) =? parent) (rows t).

Lemma child_key i r : rows t !! i = Some r -> elems t !! i = Some ((Parent (item r), Order (item r), rid r), r).
Proof.
  intros Hi. unfold rows in Hi. rewrite list_lookup_fmap in Hi. apply fmap_Some in Hi as (e & E & ->).
  pose proof (list_elem_of_lookup_2 _ _ _ E) as (r & g & k & _ & [= <- <-] & ->)%(to_elems _ _ _ Ht). done.
Qed.

Lemma child_rank i r o d inc : rows t !! i = Some r -> Z.of_nat i < groupRank t parent o d inc <-> before (parent, o, d) inc ((Parent (item r), Order (item r), rid r), r) = true.
Proof.
  intros Hi%child_key. pose proof Ht as [Hb Hs _]. rewrite groupRank_spec by done. rewrite <- (before_prefix _ _ _ _ _ Hs Hi). lia.
Qed.

Lemma child_rank_bound o d inc : 0 <= groupRank t parent o d inc <= treeSize t.
Proof.
  pose proof Ht as [Hb Hs _]. rewrite groupRank_spec, size_elems by done. pose proof (List.filter_length_le (before (parent, o, d) inc) (elems t)). lia.
Qed.

Lemma row_ok i r : rows t !! i = Some r -> wf_item (item r).
Proof. intros [Hr _]%list_elem_of_lookup_2%(elem_of_rows _ _ _ _ Ht). by destruct (HM _ _ Hr). Qed.

(** The ranks around the group. *)
Lemma first_child i r : rows t !! i = Some r -> Z.of_nat i < groupRank t parent 0 0 false <-> Parent (item r) < parent.
Proof.
  intros Hi. rewrite (child_rank i r) by done. destruct (row_ok i r Hi) as ([? _] & [? _] & _). unfold before, rid. cbn.
  destruct (Z.compare_spec (Parent (item r)) parent), (Z.compare_spec (Order (item r)) 0), (Z.compare_spec (ID (item r)) 0); split; done || lia.
Qed.

Lemma last_child i r : rows t !! i = Some r -> Z.of_nat i < groupRank t parent max_uint64 max_uint64 true <-> Parent (item r) <= parent.
Proof.
  intros Hi. rewrite (child_rank i r) by done. destruct (row_ok i r Hi) as ([_ ?] & [_ ?] & _). unfold before, rid. cbn.
  destruct (Z.compare_spec (Parent (item r)) parent), (Z.compare_spec (Order (item r)) max_uint64), (Z.compare_spec (ID (item r)) max_uint64); split; done || lia.
Qed.

Definition group_start : Z := groupRank t parent 0 0 false.
Definition group_stop : Z := groupRank t parent max_uint64 max_uint64 true.

(** A list with what satisfies [p] between two positions. *)
Lemma filter_between {A} (p : A -> bool) (l : list A) (a b : nat) :
  (forall i x, l !! i = Some x -> p x = true <-> (a <= i < b)%nat) -> List.filter p l = take (b - a) (drop a l).
Proof.
  revert a b. induction l as [|x l IH]; intros a b H; [by rewrite drop_nil, take_nil|]. cbn. pose proof (H 0%nat x eq_refl) as H0. destruct a as [|a].
  - destruct b as [|b].
    + rewrite (not_true_is_false (p x)) by (rewrite H0; lia). rewrite (IH 0%nat 0%nat); [done|]. intros i y Hi. rewrite (H (S i) y Hi). lia.
    + rewrite (proj2 H0) by lia. cbn. f_equal. rewrite (IH 0%nat b); [by rewrite Nat.sub_0_r, drop_0|]. intros i y Hi. rewrite (H (S i) y Hi). lia.
  - rewrite (not_true_is_false (p x)) by (rewrite H0; lia). cbn. rewrite (IH a (b - 1)%nat); [f_equal; lia|]. intros i y Hi. rewrite (H (S i) y Hi). lia.
Qed.

Lemma children_slice : children_rows = slice group_start group_stop (rows t) /\ 0 <= group_start <= group_stop /\ Z.of_nat (length children_rows) = group_stop - group_start.
Proof.
  unfold children_rows, group_start, group_stop. pose proof (child_rank_bound 0 0 false) as B1. pose proof (child_rank_bound max_uint64 max_uint64 true) as B2.
  rewrite (size_rows _ (to_balanced _ _ _ Ht)) in *.
  assert (groupRank t parent 0 0 false <= groupRank t parent max_uint64 max_uint64 true) as Hle.
  { apply Z.nlt_ge. intros Hlt. destruct (lookup_lt_is_Some_2 (rows t) (Z.to_nat (groupRank t parent max_uint64 max_uint64 true))) as [r Hr]; [lia|].
    pose proof (proj1 (first_child _ r Hr) ltac:(lia)) as H. pose proof (proj2 (last_child _ r Hr) ltac:(lia)). lia. }
  assert (List.filter (fun r => Parent (item r) =? parent) (rows t) = slice (groupRank t parent 0 0 false) (groupRank t parent max_uint64 max_uint64 true) (rows t)) as E.
  { unfold slice. rewrite Z2Nat.inj_sub by lia. apply filter_between. intros i r Hi. rewrite Z.eqb_eq. pose proof (first_child i r Hi). pose proof (last_child i r Hi). lia. }
  split; [done|]. split; [lia|]. rewrite E. unfold slice. rewrite length_take, length_drop. lia.
Qed.

Lemma children_lookup k r : children_rows !! k = Some r -> rows t !! (Z.to_nat group_start + k)%nat = Some r /\ Parent (item r) = parent.
Proof.
  intros Hk. split.
  - destruct children_slice as [E _]. rewrite E in Hk. unfold slice in Hk. apply lookup_take_Some in Hk as [Hk _]. by rewrite lookup_drop in Hk.
  - apply list_elem_of_lookup_2, list_elem_of_In, List.filter_In in Hk as [_ Hp]. by apply Z.eqb_eq.
Qed.

(** After the [k]-th child. *)
Lemma after_child k r : children_rows !! k = Some r -> groupRank t parent (Order (item r)) (rid r) true = group_start + Z.of_nat k + 1.
Proof.
  intros Hk. destruct (children_lookup k r Hk) as [Hi Hp]. destruct children_slice as (_ & Hft & Hlen). pose proof (lookup_lt_Some _ _ _ Hk) as Hlt.
  assert (group_start + Z.of_nat k < groupRank t parent (Order (item r)) (rid r) true) as Hlo.
  { pose proof (proj2 (child_rank _ r (Order (item r)) (rid r) true Hi)) as H. rewrite Hp in H. unfold before in H. cbn [fst] in H. rewrite key_cmp_refl in H. specialize (H eq_refl). lia. }
  apply Z.le_antisymm; [|lia]. apply Z.nlt_ge. intros Hgt. pose proof (child_rank_bound (Order (item r)) (rid r) true) as Hb. rewrite (size_rows _ (to_balanced _ _ _ Ht)) in Hb.
  destruct (lookup_lt_is_Some_2 (rows t) (Z.to_nat group_start + S k)) as [r' Hi']; [lia|]. pose proof (proj1 (child_rank _ r' (Order (item r)) (rid r) true Hi') ltac:(lia)) as H.
  pose proof (tree_sorted_lookup _ _ _ _ _ (to_sorted _ _ _ Ht) (child_key _ _ Hi) (child_key _ _ Hi') ltac:(lia)) as Hlt'. cbn in Hlt'. rewrite Hp in Hlt'. unfold before in H. rewrite key_cmp_sym in H. cbn [fst] in H, Hlt'. unfold key_lt in Hlt'. by rewrite Hlt' in H.
Qed.

Lemma children_sorted : StronglySorted child_lt children_rows.
Proof.
  unfold children_rows. pose proof (to_sorted _ _ _ Ht) as Hs. unfold sorted in Hs. assert (Forall (fun e : entry => e.1 = (Parent (item e.2), Order (item e.2), rid e.2)) (elems t)) as Hk.
  { apply Forall_forall. intros e (r & g & k & _ & [= <- <-] & ->)%(to_elems _ _ _ Ht). done. }
  unfold rows. clear -Hs Hk. induction (elems t) as [|e l IH]; [constructor|]. cbn in Hs |- *. apply Forall_cons in Hk as [Hk1 Hk].
  apply StronglySorted_inv in Hs as [Hs Hg]. destruct (Z.eqb_spec (Parent (item e.2)) parent) as [Hp|]; [|by apply IH]. constructor; [by apply IH|].
  apply Forall_forall. intros r [Hr Hpr%Z.eqb_eq]%list_elem_of_In%List.filter_In. apply list_elem_of_In, list_elem_of_fmap in Hr as (e' & -> & He').
  rewrite Forall_fmap, Forall_forall in Hg. specialize (Hg e' He'). rewrite Forall_forall in Hk. cbn in Hg. rewrite Hk1, (Hk e' He') in Hg. apply key_lt_spec in Hg. unfold child_lt. lia.
Qed.

End children.

(** ** Delivering pages *)

(** A client that packs [pack] of a page's rows at a time, at least one, and
    goes on after the last it has. *)
Fixpoint deliver (fuel : nat) (pack : list ChildSummary -> nat) (s : Store) (id epoch : string) (parent revision limit : Z)
    (continuation : option ChildCursor) : option (list ChildSummary) :=
  match fuel with
  | O => None
  | S fuel =>
      match ChildPage s None id epoch parent revision limit continuation with
      | inl p =>
          let n := Nat.max 1 (Nat.min (pack (cp_Items p)) (length (cp_Items p))) in
          if Complete p && bool_decide (length (cp_Items p) <= n)%nat then Some (cp_Items p)
          else match CursorAfter p (Z.of_nat n) with
               | inl c => rest ← deliver fuel pack s id epoch parent revision limit (Some c); Some (take n (cp_Items p) ++ rest)
               | inr _ => None
               end
      | inr _ => None
      end
  end.

Section deliver.
Context (s : Store) (id : string) (snap : Snapshot) (q : queryIndex) (M : rowmap).
Hypothesis Hs : serves s id snap q M.
Context (parent : Z) (row : queryRow).
Hypothesis Hparent : M !! parent = Some row.
Hypothesis Hrev : Rev (item row) <> 0.
Hypothesis Hepoch : sn_Epoch snap <> EmptyString.
Context (limit : Z).
Hypothesis Hlim : 0 < limit.

Let all : list queryRow := children_rows (children q) parent.

(** The cursor after the first [k] children, none before the first. *)
Definition cursor_at (k : nat) (c : option ChildCursor) : Prop :=
  match k with
  | O => c = None
  | S k => exists r, all !! k = Some r
           /\ c = Some (MkCursor id (sn_Epoch snap) (sn_Version snap) parent (Rev (item row)) (Order (item r)) (rid r))
  end.

Lemma page_start_spec k c : cursor_at k c -> page_start q snap id (sn_Epoch snap) parent (Rev (item row)) c = inl (group_start (children q) parent + Z.of_nat k).
Proof.
  destruct Hs as [_ _ _ [Hq HM _ _]]. pose proof (rp_children _ _ Hq) as Hc. intros Hk. unfold page_start. destruct k as [|k].
  - cbn in Hk. subst c. f_equal. unfold childRank, group_start. lia.
  - destruct Hk as (r & Hr & ->). cbn [cc_ConversationID cc_Epoch cc_Parent cc_ParentRev cc_ID cc_Version cc_Order].
    destruct (children_lookup _ _ Hc HM parent k r Hr) as [Hi Hp]. pose proof (row_ok _ _ Hc HM _ r Hi) as (Hid & _).
    rewrite !bool_decide_eq_false_2 by (intros []; done). rewrite !Z.eqb_refl. destruct (Z.eqb_spec (rid r) 0) as [E|_]; [unfold rid in E; lia|]. cbn [orb negb].
    rewrite (rp_lookup _ _ Hq). apply list_elem_of_lookup_2, (elem_of_rows _ _ _ _ Hc) in Hi as [-> _]. rewrite Hp, !Z.eqb_refl. cbn [orb negb].
    f_equal. unfold childRank. rewrite (after_child _ _ Hc HM parent k r Hr). lia.
Qed.

Lemma child_page_spec k c :
  cursor_at k c -> (k <= length all)%nat ->
  let n := Z.to_nat (Z.min limit MaxQueryItems) in
  ChildPage s None id (sn_Epoch snap) parent (Rev (item row)) limit c
  = inl (MkChildPage StateUsable id (sn_Epoch snap) (sn_Version snap) parent (Rev (item row))
           (summary <$> take n (drop k all)) (bool_decide (k + n < length all)%nat) (negb (bool_decide (k + n < length all)%nat)) None).
Proof.
  pose proof Hs as [Hid Hcap Hst [Hq HM _ _]]. pose proof (rp_children _ _ Hq) as Hc. intros Hk Hle n. unfold ChildPage. cbn [ctx_Err]. rewrite Hid. cbn [negb].
  rewrite (proj2 (Z.leb_gt limit 0)) by done. rewrite bool_decide_eq_false_2 by done. destruct (HM _ _ Hparent) as [E (H0 & _)]. unfold rid in E. rewrite E in H0.
  rewrite (proj2 (Z.eqb_neq parent 0)), (proj2 (Z.eqb_neq _ 0) Hrev) by lia. cbn [orb]. rewrite Hcap, Hst, bool_decide_eq_true_2 by done. rewrite bool_decide_eq_false_2 by auto.
  unfold child_page. rewrite (rp_lookup _ _ Hq), Hparent, Z.eqb_refl. cbn [negb]. rewrite (page_start_spec k c Hk).
  destruct (children_slice _ _ Hc HM parent) as (Esl & Hft & Hlen). fold all in Esl, Hlen. change (childRank q parent max_uint64 max_uint64 true) with (group_stop (children q) parent).
  set (a := group_start (children q) parent) in *. set (b := group_stop (children q) parent) in *.
  assert (Z.of_nat n = Z.min limit MaxQueryItems) as Hn by (unfold n, MaxQueryItems; lia). rewrite <- Hn.
  rewrite visit_None by (apply Hc || lia). cbn [mbind option_bind ctx_Err]. f_equal.
  assert (slice (a + Z.of_nat k) (a + Z.of_nat k + Z.min (Z.of_nat n) (b - (a + Z.of_nat k))) (rows (children q)) = take n (drop k all)) as ->.
  { rewrite Esl. unfold slice. rewrite Z2Nat.inj_add by lia. rewrite Nat2Z.id. rewrite skipn_firstn_comm, drop_drop, take_take. f_equal. lia. }
  f_equal.
  - apply Bool.eq_iff_eq_true. rewrite bool_decide_eq_true, Z.ltb_lt. lia.
  - apply Bool.eq_iff_eq_true. rewrite negb_true_iff, bool_decide_eq_false, Z.eqb_eq. lia.
Qed.

Lemma deliver_children fuel pack k c :
  cursor_at k c -> (k <= length all)%nat -> (length all - k < fuel)%nat ->
  deliver fuel pack s id (sn_Epoch snap) parent (Rev (item row)) limit c = Some (summary <$> drop k all).
Proof.
  revert k c. induction fuel as [|fuel IH]; intros k c Hk Hle Hf; [lia|]. cbn [deliver]. rewrite (child_page_spec k c Hk Hle). cbn [cp_Items Complete]. set (n := Z.to_nat (Z.min limit MaxQueryItems)).
  assert (0 < n)%nat as Hn by (unfold n, MaxQueryItems; lia). rewrite length_fmap, length_take, length_drop. set (m := Nat.max 1 _).
  destruct (negb _ && _) eqn:E.
  - apply andb_true_iff in E as [E%negb_true_iff%bool_decide_eq_false _]. rewrite take_ge by (rewrite length_drop; lia). done.
  - assert (0 < m <= Nat.min n (length all - k))%nat as Hm.
    { assert (k < length all)%nat; [|unfold m; lia]. apply Nat.nle_gt. intros Hkl. apply andb_false_iff in E as [E%negb_false_iff%bool_decide_eq_true|E%bool_decide_eq_false]; lia. }
    unfold CursorAfter. cbn [cp_State cp_Items cp_ConversationID cp_Epoch cp_Version cp_Parent cp_ParentRev]. rewrite bool_decide_eq_true_2 by done. cbn [negb orb].
    rewrite (proj2 (Z.leb_gt (Z.of_nat m) 0)) by lia. rewrite length_fmap, length_take, length_drop. rewrite (proj2 (Z.ltb_ge _ _)) by lia. cbn [orb].
    destruct (lookup_lt_is_Some_2 all (k + (m - 1))) as [r Hr]; [lia|]. assert (take n (drop k all) !! Z.to_nat (Z.of_nat m - 1) = Some r) as Hr'.
    { replace (Z.to_nat (Z.of_nat m - 1)) with (m - 1)%nat by lia. apply lookup_take_Some. split; [|lia]. by rewrite lookup_drop. }
    rewrite list_lookup_fmap, Hr'. cbn [fmap option_fmap option_map]. rewrite (IH (k + m)%nat).
    + cbn [mbind option_bind]. f_equal. rewrite <- fmap_take, take_take, Nat.min_l by lia. rewrite <- fmap_app, <- drop_drop. by rewrite take_drop.
    + replace (k + m)%nat with (S (k + (m - 1))) by lia. by exists r.
    + lia.
    + lia.
Qed.

End deliver.

(** C15. Chaining the pages of a row's children by their cursors delivers every
    child once, in order of their order and id, and says so when it is done. It
    holds whatever the limit, however few of a page's rows a client packs at a
    time (one at least), and among rows that share an order. *)
Theorem child_pages_deliver s id snap q M parent row limit pack :
  serves s id snap q M -> M !! parent = Some row -> Rev (item row) <> 0 -> sn_Epoch snap <> EmptyString -> 0 < limit ->
  exists l, StronglySorted child_lt l /\ (forall r, r ∈ l <-> M !! rid r = Some r /\ Parent (item r) = parent)
    /\ deliver (S (length l)) pack s id (sn_Epoch snap) parent (Rev (item row)) limit None = Some (summary <$> l).
Proof.
  intros Hs Hp Hrev He Hlim. pose proof Hs as [_ _ _ [Hq HM _ _]]. pose proof (rp_children _ _ Hq) as Hc. exists (children_rows (children q) parent). split; [by eapply children_sorted|]. split.
  - intros r. unfold children_rows. rewrite list_elem_of_In, List.filter_In, <- list_elem_of_In, (elem_of_rows _ _ _ _ Hc), Z.eqb_eq. split; [tauto|]. intros [? ?]. split; [|done]. by split.
  - rewrite (deliver_children s id snap q M Hs parent row Hp Hrev He limit Hlim _ pack 0 None) by (done || lia). by rewrite drop_0.
Qed.

End ThreadChildren.
