(* ===== verification/ThreadSync.v ===== *)
(** * Catching up with a thread

    What a client has of the rows at one publication, patched with the answer
    to a catch-up at a later one, is what the later one has. *)
From Stdlib Require Import ZArith Lia.
From stdpp Require Import prelude gmap strings list sorting relations.
From S2P Require Import Prelude Conversations ThreadIndex ThreadTree ThreadIndexInv ThreadAdvance ThreadActivity ThreadPublish ThreadQuery ThreadPages ThreadWindows.

Module ThreadSync.
Import ThreadIndex ThreadTree ThreadIndexInv ThreadAdvance ThreadPublish ThreadQuery ThreadPages ThreadWindows.

Local Open Scope Z_scope.

(** ** Publications in a row *)

(** An index, and the rows it is exact for. *)
Definition indexed : Type := queryIndex * rowmap.

Definition publishes (p : publication) (x y : indexed) : Prop :=
  Forall change_ok (affected p) /\ coveredThrough x.1 < version p /\ y.1 = advance p x.1 /\ exact y.1 y.2.

Definition publish_step (x y : indexed) : Prop := exists p, publishes p x y.

Lemma exact_unique q M M' : exact q M -> exact q M' -> M = M'.
Proof. intros [H1 _ _ _] [H2 _ _ _]. apply map_eq. intros id. by rewrite <- (rp_lookup _ _ H1), <- (rp_lookup _ _ H2). Qed.

Lemma publishes_spec p x y :
  publishes p x y -> exact x.1 x.2 -> published p x.2 (content (affected p) x.2) y.2 /\ coveredThrough y.1 = version p.
Proof.
  intros (Hp & _ & E & Hy) Hx. destruct (publish_index_spec x.1 x.2 p Hx Hp) as (M' & HM' & Hpub & _ & Hc). rewrite E in *.
  by rewrite (exact_unique _ _ _ Hy HM').
Qed.

Lemma content_lookup l M id r :
  content l M !! id = Some r -> (id ∉ l.*1 /\ M !! id = Some r) \/ exists y, (id, Some y) ∈ l /\ r = public_row y.
Proof.
  revert M. induction l as [|x l IH]; intros M H; [left; split; [by apply not_elem_of_nil|done]|]. change (content (x :: l) M) with (content l (replaced x M)) in H.
  destruct (IH _ H) as [[Hid Hr]|(y & Hy & ->)]; [|right; exists y; split; [by right|done]]. rewrite replaced_lookup in Hr. destruct (decide (id = x.1)) as [->|Hne].
  - right. destruct x as [id [y|]]; [|done]. cbn in *. injection Hr as <-. exists y. split; [by left|done].
  - left. split; [|done]. cbn. by apply not_elem_of_cons.
Qed.

Lemma content_gone l M id : is_Some (M !! id) -> content l M !! id = None -> (id, None) ∈ l.
Proof.
  revert M. induction l as [|x l IH]; intros M [r Hr] H; [cbn in H; congruence|]. change (content (x :: l) M) with (content l (replaced x M)) in H.
  destruct (replaced x M !! id) eqn:E; [right; apply (IH (replaced x M)); [by rewrite E|done]|]. rewrite replaced_lookup in E. destruct (decide (id = x.1)) as [->|Hne]; [|congruence].
  destruct x as [id [y|]]; [done|]. by left.
Qed.

(** ** Roots that left *)

Lemma refresh_dirty_lost v ids q : compactLost (refresh_dirty v ids q) = compactLost q.
Proof.
  unfold refresh_dirty. revert q. induction ids as [|id ids IH]; intros q; [done|]. cbn. rewrite IH. destruct (lookup q id) as [row|]; [|done]. unfold refreshHeader. by destruct (lookup q _).
Qed.

Lemma activity_loop_lost fuel parents pending ready q : compactLost (activity_loop fuel parents pending ready q) = compactLost q.
Proof.
  revert pending ready q. induction fuel as [|fuel IH]; intros pending ready q; [done|]. destruct ready as [|id ready]; [done|]. cbn [activity_loop].
  destruct (lookup q id) as [row|]; [|done]. set (q1 := if Bool.eqb _ _ then q else _). assert (compactLost q1 = compactLost q) as <- by (unfold q1; by destruct (Bool.eqb _ _)).
  destruct (parents !! id) as [parent|]; [|done]. destruct (pending !! parent); apply IH.
Qed.

Definition root (M : rowmap) (id : Z) : Prop := exists r, M !! id = Some r /\ Parent (item r) = 0.

Lemma replace_rows_lost q M v l :
  represents q M -> Forall change_ok l ->
  let q' := foldl (fun q x => replace_row v x q) q l in
  (compactLost q' = v \/ compactLost q' = compactLost q)
  /\ (forall id, root M id -> root (content l M) id \/ compactLost q' = v).
Proof.
  revert q M. induction l as [|x l IH]; intros q M Hq Hl; [cbn; split; auto|]. apply Forall_cons in Hl as [Hx Hl]. cbn [foldl].
  change (content (x :: l) M) with (content l (replaced x M)). destruct (IH (replace_row v x q) (replaced x M) ltac:(by apply replace_row_spec) Hl) as [I1 I2].
  set (q' := foldl _ _ l) in *.
  assert ((compactLost (replace_row v x q) = v \/ compactLost (replace_row v x q) = compactLost q)
    /\ forall id, root M id -> root (replaced x M) id \/ compactLost (replace_row v x q) = v) as [J1 J2].
  { destruct x as [id new]. unfold replace_row. rewrite (rp_lookup _ _ Hq). destruct (M !! id) as [old|] eqn:Hid.
    - split; [destruct (_ && _), new; auto|]. intros j (r & Hr & Hp). rewrite <- (or_comm (_ = v)). unfold root. rewrite replaced_lookup. cbn [fst snd]. destruct (decide (j = id)) as [->|Hne]; [|eauto].
      assert (r = old) as -> by congruence. destruct new as [[[[i t] rc] h]|]; [|left; by rewrite Hp].
      destruct (Z.eqb_spec (Parent i) 0); [right; exists (public_row (i, t, rc, h)); split; [done|done]|left]. rewrite Hp. cbn. done.
    - split; [destruct new; auto|]. intros j (r & Hr & Hp). left. exists r. rewrite replaced_lookup. cbn. rewrite decide_False; [done|]. intros ->. congruence. }
  split; [destruct I1 as [?| ->]; auto|]. intros id Hr. destruct (J2 id Hr) as [Hr'|E]; [by apply I2|]. right. destruct I1 as [?| ->]; done.
Qed.

Lemma advance_lost q M p :
  represents q M -> Forall change_ok (affected p) ->
  (compactLost (advance p q) = version p \/ compactLost (advance p q) = compactLost q)
  /\ (forall id, root M id -> root (content (affected p) M) id \/ compactLost (advance p q) = version p).
Proof.
  intros Hq Hl. unfold advance, evidence, refreshRootActivity. cbn [compactLost]. rewrite activity_loop_lost, refresh_dirty_lost. by apply replace_rows_lost.
Qed.

(** ** Compact catch-up *)

(** What has been since version [v], when the rows were [M0]. *)
Record since (v : Z) (M0 : rowmap) (x : indexed) : Prop := Since {
  si_exact : exact x.1 x.2;
  si_covered : v <= coveredThrough x.1;
  si_rows : forall id r, x.2 !! id = Some r -> subtreeVersion (header r) <= v -> M0 !! id = Some r;
  si_roots : forall id, root M0 id -> root x.2 id \/ v < compactLost x.1;
}.

Lemma since_step v M0 x y : since v M0 x -> publish_step x y -> since v M0 y.
Proof.
  intros [H1 H2 H3 H4] [p Hp]. destruct (publishes_spec p x y Hp H1) as [[P1 P2] Pc]. destruct Hp as (Hok & Hlt & E & Hy).
  destruct (advance_lost _ _ p (ex_rep _ _ H1) Hok) as [L1 L2]. rewrite <- E in L1, L2. constructor; [done|lia|..].
  - intros id r Hr Hv. destruct (P2 id r Hr) as (r0 & _ & _ & _ & _ & _ & Q1 & Q2). apply H3; [|done]. apply Q2. intros Hh. specialize (Q1 Hh). lia.
  - intros id Hroot. destruct (H4 id Hroot) as [Hr|Hr]; [|right; destruct L1 as [->| ->]; lia]. destruct (L2 id Hr) as [(r & Hr0 & Hp0)|Hr0]; [|right; lia].
    left. destruct (P1 id) as [_ [r' Hr']]; [by rewrite Hr0|]. destruct (P2 id r' Hr') as (r1 & Hr1 & Ei & _). exists r'. split; [done|]. rewrite Ei. congruence.
Qed.

Lemma since_refl q M : exact q M -> since (coveredThrough q) M (q, M).
Proof. intros H. constructor; cbn; auto. lia. Qed.

Lemma since_steps v M0 x y : rtc publish_step x y -> since v M0 x -> since v M0 y.
Proof. induction 1; [done|]. intros Hs. eauto using since_step. Qed.

(** A root as a compact answer has it. *)
Definition compact_of (r : queryRow) : Item + ChildSummary :=
  if bool_decide (Kind (item r) = "tool_call"%string) || bool_decide (Kind (item r) = "agent"%string) then inr (summary r) else inl (item r).

(** The roots of [M], as compact answers have them. *)
Definition compact_view (M : rowmap) : gmap Z (Item + ChildSummary) := compact_of <$> filter (fun x => Parent (item x.2) = 0) M.

(** A client puts the items and headers it is sent in place of what it had. *)
Definition put_all {A B} (key : A -> Z) (f : A -> B) (l : list A) (m : gmap Z B) : gmap Z B := foldl (fun m x => <[key x := f x]> m) m l.
Definition patch (p : CompactQueryResult) (m : gmap Z (Item + ChildSummary)) : gmap Z (Item + ChildSummary) :=
  put_all cs_ID inr (cq_Headers p) (put_all ID inl (cq_Items p) m).

Lemma put_all_lookup {A B} (key : A -> Z) (f : A -> B) l m id :
  (exists x, x ∈ l /\ key x = id /\ put_all key f l m !! id = Some (f x)) \/ ((forall x, x ∈ l -> key x <> id) /\ put_all key f l m !! id = m !! id).
Proof.
  revert m. induction l as [|x l IH]; intros m; cbn; [right; split; [by intros ? ?%not_elem_of_nil|done]|].
  destruct (IH (<[key x := f x]> m)) as [(y & Hy & E & Hl)|[Hn Hl]]; [left; exists y; split; [by right|done]|]. fold (put_all key f l (<[key x:=f x]> m)).
  destruct (decide (key x = id)) as [<-|Hne].
  - left. exists x. split; [by left|]. split; [done|]. by rewrite Hl, lookup_insert_eq.
  - right. split; [|by rewrite Hl, lookup_insert_ne]. by intros y [->|Hy]%elem_of_cons; [|apply Hn].
Qed.

Lemma compact_add_spec (M : rowmap) acc row (rs : list queryRow) :
  M !! rid row = Some row -> (forall r, r ∈ rs -> M !! rid r = Some r) ->
  (forall id, id ∈ acc.2 <-> exists r, r ∈ rs /\ rid r = id) ->
  (forall e, e ∈ (inl <$> acc.1.1) ++ (inr <$> acc.1.2) <-> exists r, r ∈ rs /\ compact_of r = e) ->
  let acc' := compact_add acc row in
  (forall id, id ∈ acc'.2 <-> exists r, r ∈ rs ++ [row] /\ rid r = id)
  /\ (forall e, e ∈ (inl <$> acc'.1.1) ++ (inr <$> acc'.1.2) <-> exists r, r ∈ rs ++ [row] /\ compact_of r = e).
Proof.
  destruct acc as [[items headers] seen]. cbn [fst snd]. intros Hrow Hrs Hseen He. unfold compact_add. change (ID (item row)) with (rid row).
  assert (forall P : queryRow -> Prop, (exists r, r ∈ rs ++ [row] /\ P r) <-> (exists r, r ∈ rs /\ P r) \/ P row) as Hsnoc.
  { intros P. split; [intros (r & [?| ->%list_elem_of_singleton]%elem_of_app & ?); eauto|]. intros [(r & ? & ?)|?]; [exists r|exists row]; (split; [|done]); apply elem_of_app; [by left|right]. by apply list_elem_of_singleton. }
  destruct (bool_decide (rid row ∈ seen)) eqn:E; [apply bool_decide_eq_true, Hseen in E as (r & Hr & Eid)|].
  - assert (r = row) as -> by (specialize (Hrs r Hr); congruence). cbn [fst snd]. split; [intros id|intros e]; rewrite Hsnoc; [rewrite Hseen|rewrite He]; split; try tauto; intros [?| <-]; eauto.
  - assert (forall id, id ∈ ({[rid row]} ∪ seen : gset Z) <-> exists r, r ∈ rs ++ [row] /\ rid r = id) as Hs.
    { intros id. rewrite Hsnoc, elem_of_union, elem_of_singleton, Hseen. split; intros [?|?]; auto. }
    assert (forall e, compact_of row = e <-> (if bool_decide (Kind (item row) = "tool_call"%string) || bool_decide (Kind (item row) = "agent"%string) then inr (summary row) else inl (item row)) = e) as Hc by done.
    destruct (_ || _); cbn [fst snd]; (split; [done|]); intros e; rewrite (Hsnoc (fun r => compact_of r = e)), Hc, <- He, fmap_app, !elem_of_app; cbn; rewrite list_elem_of_singleton; split; intuition auto.
Qed.

Lemma collector_spec (M : rowmap) (rs : list queryRow) :
  (forall r, r ∈ rs -> M !! rid r = Some r) ->
  let '(items, headers, _) := compactCollector rs in forall e, e ∈ (inl <$> items) ++ (inr <$> headers) <-> exists r, r ∈ rs /\ compact_of r = e.
Proof.
  intros Hrs. assert (let acc := compactCollector rs in (forall id, id ∈ acc.2 <-> exists r, r ∈ rs /\ rid r = id)
    /\ (forall e, e ∈ (inl <$> acc.1.1) ++ (inr <$> acc.1.2) <-> exists r, r ∈ rs /\ compact_of r = e)) as H.
  { induction rs as [|row rs IH] using rev_ind.
    - cbn. split; [intros id|intros e]; split; [by intros ?%not_elem_of_empty|by intros (? & ?%not_elem_of_nil & _)|by intros ?%not_elem_of_nil|by intros (? & ?%not_elem_of_nil & _)].
    - destruct IH as [I1 I2]; [intros r Hr; apply Hrs, elem_of_app; by left|]. unfold compactCollector in *. rewrite foldl_snoc. eapply compact_add_spec; [..|done|done].
      + apply Hrs, elem_of_app. right. by apply list_elem_of_singleton.
      + intros r Hr. apply Hrs, elem_of_app. by left. }
  destruct (compactCollector rs) as [[items headers] seen]. apply H.
Qed.

Lemma compact_of_id r e : compact_of r = e -> match e with inl it => ID it | inr h => cs_ID h end = rid r.
Proof. unfold compact_of. destruct (_ || _); by intros <-. Qed.

Lemma patch_lookup (M : rowmap) (rs : list queryRow) p m id :
  (forall r, r ∈ rs -> M !! rid r = Some r) ->
  (forall e, e ∈ (inl <$> cq_Items p) ++ (inr <$> cq_Headers p) <-> exists r, r ∈ rs /\ compact_of r = e) ->
  (exists r, r ∈ rs /\ rid r = id /\ patch p m !! id = Some (compact_of r)) \/ ((forall r, r ∈ rs -> rid r <> id) /\ patch p m !! id = m !! id).
Proof.
  intros Hrs He. assert (forall e, e ∈ (inl <$> cq_Items p) ++ (inr <$> cq_Headers p) -> match e with inl it => ID it | inr h => cs_ID h end = id ->
    exists r, r ∈ rs /\ rid r = id /\ e = compact_of r) as Hfrom by (intros e (r & Hr & E)%He <-; exists r; by rewrite (compact_of_id r e)).
  unfold patch. destruct (put_all_lookup cs_ID inr (cq_Headers p) (put_all ID inl (cq_Items p) m) id) as [(h & Hh & E & ->)|[Hn ->]].
  - left. destruct (Hfrom (inr h)) as (r & ? & ? & ->); [|done|eauto]. apply elem_of_app. right. by apply list_elem_of_fmap_2.
  - destruct (put_all_lookup ID inl (cq_Items p) m id) as [(it & Hit & E & ->)|[Hn' ->]].
    + left. destruct (Hfrom (inl it)) as (r & ? & ? & ->); [|done|eauto]. apply elem_of_app. left. by apply list_elem_of_fmap_2.
    + right. split; [|done]. intros r Hr Eid. assert (compact_of r ∈ (inl <$> cq_Items p) ++ (inr <$> cq_Headers p)) as Hin by (apply He; eauto).
      pose proof (compact_of_id r _ eq_refl) as Ei. apply elem_of_app in Hin as [(x & E & Hx)%list_elem_of_fmap|(x & E & Hx)%list_elem_of_fmap]; rewrite E in Ei; [apply (Hn' x)|apply (Hn x)]; congruence.
Qed.

(** The roots whose header changed after a version. *)
Lemma rootTouches_rows M t v r :
  tree_of in_rootTouches M t -> r ∈ slice (rank t v) (treeSize t) (rows t) <-> M !! rid r = Some r /\ Parent (item r) = 0 /\ v <= subtreeVersion (header r).
Proof.
  intros Ht. rewrite (slice_from _ _ _ rootTouches_group Ht), list_elem_of_In, List.filter_In, <- list_elem_of_In, (elem_of_rows _ _ _ _ Ht), Z.leb_le.
  unfold key_of, in_rootTouches. destruct (Z.eqb_spec (Parent (item r)) 0) as [E|E].
  - split; [intros [[? _] ?]; done|]. intros (? & _ & ?). split; [|done]. by split.
  - split; [by intros [[_ []] _]|]. by intros (_ & ? & _).
Qed.

Lemma activeRoots_rows M t r : tree_of in_activeRoots M t -> r ∈ rows t -> M !! rid r = Some r /\ Parent (item r) = 0.
Proof.
  intros Ht [Hr [x Hx]]%(elem_of_rows _ _ _ _ Ht). split; [done|]. unfold in_activeRoots in Hx. destruct (Z.eqb_spec (Parent (item r)) 0); [done|]. by rewrite andb_false_r in Hx.
Qed.

Lemma compactInterval_rows q M id snap epoch v more r :
  represents q M -> 0 <= v < max_uint64 -> compactInterval None id snap (Some q) epoch v more = Renders q r ->
  v >= compactLost q /\ sn_Version snap = coveredThrough q
  /\ exists rs : list queryRow, (forall x, x ∈ rs -> M !! rid x = Some x /\ Parent (item x) = 0)
    /\ (forall x, M !! rid x = Some x -> Parent (item x) = 0 -> v < subtreeVersion (header x) -> x ∈ rs)
    /\ (forall e, e ∈ (inl <$> cq_Items r) ++ (inr <$> cq_Headers r) <-> exists x, x ∈ rs /\ compact_of x = e).
Proof.
  intros Hq Hv. pose proof (rp_rootTouches _ _ Hq) as Ht. pose proof (rp_activeRoots _ _ Hq) as Ha. unfold compactInterval. destruct (interval_reset snap q epoch v) eqn:E; [done|].
  unfold interval_reset in E. repeat (apply orb_false_iff in E as [E ?]). reflect_bools.
  rewrite visit_None by (apply Ht || (pose proof (rank_bound in_rootTouches M (rootTouches q) rootTouches_group Ht (u64 (v + 1))); lia)). cbn [mbind option_bind].
  rewrite extras_None by apply Ha. cbn [mbind option_bind]. rewrite u64_small by (unfold max_uint64 in Hv; lia).
  set (rs := slice _ _ _ ++ _). pose proof (collector_spec M rs) as Hc. destruct (compactCollector rs) as [[items headers] seen]. intros [= <-]. split; [lia|]. split; [lia|].
  assert (forall x, x ∈ rs -> M !! rid x = Some x /\ Parent (item x) = 0) as Hrs.
  { intros x [Hx|Hx]%elem_of_app; [by apply (rootTouches_rows _ _ _ _ Ht) in Hx as (? & ? & _)|]. destruct more; [by apply (activeRoots_rows _ _ _ Ha)|by apply not_elem_of_nil in Hx]. }
  exists rs. split; [done|]. split; [|apply Hc; intros x Hx; by apply Hrs]. intros x Hx Hp Hlt. apply elem_of_app. left. apply (rootTouches_rows _ _ _ _ Ht). split; [done|]. split; [done|lia].
Qed.

(** C8. A compact catch-up brings a client's roots up to date. Take the
    publication at a version, and any later one; what the later one answers to
    a catch-up from that version, unless it says to start afresh, patched into
    what a client had of each root makes it what the later one has: the roots
    that changed, in themselves, in what is below them or in their activity,
    are all in the answer, and none has gone. So is what it answers a client
    waiting for changes. *)
Theorem compact_catch_up_syncs q0 M0 q M s id snap epoch limit p m i :
  exact q0 M0 -> rtc publish_step (q0, M0) (q, M) -> serves s id snap q M ->
  0 < coveredThrough q0 < max_uint64 ->
  CompactCatchUp s None id epoch (coveredThrough q0) limit = Renders q p
  \/ compact_poll s None id epoch (coveredThrough q0) = Some (Renders q p) ->
  m !! i = compact_view M0 !! i -> patch p m !! i = compact_view M !! i.
Proof.
  intros H0 Hrun [Hid Hcap Hst Hex] Hv Hp Hm. destruct (since_steps _ _ _ _ Hrun (since_refl q0 M0 H0)) as [_ _ Hrows Hroots]. cbn [fst snd] in *. set (v := coveredThrough q0) in *.
  assert (exists more, compactInterval None id snap (Some q) epoch v more = Renders q p) as [more Hi].
  { destruct Hp as [Hp|Hp].
    - exists true. unfold CompactCatchUp in Hp. rewrite (proj2 (Z.eqb_neq v 0)) in Hp by lia. cbn [ctx_Err] in Hp. by rewrite Hid, Hcap, Hst, bool_decide_eq_true_2 in Hp.
    - exists false. unfold compact_poll, captureQuery in *. destruct (workers s !! id) as [w|]; [|done]. destruct (closed s || retiring w); [done|]. injection Hcap as <- Hw. rewrite Hst, bool_decide_eq_true_2, Hw in Hp by done.
      destruct (_ || _); [exact (Some_inj _ _ Hp)|done]. }
  destruct (compactInterval_rows q M id snap epoch v more p (ex_rep _ _ Hex) ltac:(lia) Hi) as (Hlost & _ & rs & R1 & R2 & R3).
  destruct (patch_lookup M rs p m i) as [(r & Hr & <- & ->)|[Hn ->]]; [by intros r Hr; apply R1|done|..].
  - destruct (R1 r Hr) as [Hr' Hpar]. unfold compact_view. rewrite lookup_fmap. symmetry. rewrite (proj2 (map_lookup_filter_Some _ _ _ _) (conj Hr' Hpar)). done.
  - rewrite Hm. unfold compact_view. rewrite !lookup_fmap. f_equal. apply option_eq. intros r. rewrite !map_lookup_filter_Some. cbn. split; intros [Hr Hpar]; (split; [|done]).
    + destruct (Hroots i) as [(r' & Hr' & Hp')|Hl]; [by exists r|..].
      * destruct (Z.le_gt_cases (subtreeVersion (header r')) v) as [Hle|Hgt]; [specialize (Hrows i r' Hr' Hle); congruence|].
        pose proof (rp_id _ _ (ex_rep _ _ Hex) _ _ Hr') as Eid. rewrite <- Eid in Hr'. by destruct (Hn r' (R2 r' Hr' Hp' Hgt)).
      * lia.
    + destruct (Z.le_gt_cases (subtreeVersion (header r)) v) as [Hle|Hgt]; [by apply Hrows|].
      pose proof (rp_id _ _ (ex_rep _ _ Hex) _ _ Hr) as Eid. rewrite <- Eid in Hr. by destruct (Hn r (R2 r Hr Hpar Hgt)).
Qed.

End ThreadSync.
