(* ===== verification/ThreadCatchUp.v ===== *)
(** * Full catch-up with a thread

    The items a catch-up sends, put in place of what a client had, are those
    of the later publication, where the fold stamps the rows it changes. *)
From Stdlib Require Import ZArith Lia.
From stdpp Require Import prelude gmap strings list sorting relations.
From S2P Require Import Prelude Conversations ThreadIndex ThreadTree ThreadIndexInv ThreadAdvance ThreadPublish ThreadQuery ThreadPages ThreadWindows ThreadSync.

Module ThreadCatchUp.
Import ThreadIndex ThreadTree ThreadIndexInv ThreadAdvance ThreadPublish ThreadQuery ThreadPages ThreadWindows ThreadSync.

Local Open Scope Z_scope.

(** What [recordShown] (observations.go) does for a publication: a row changed
    since the last one is touched since, one untouched is the same, and where
    one has gone [suppressed] says so. *)
Record stamps (p : publication) (x : indexed) : Prop := Stamps {
  sp_suppressed : suppressed x.1 <= f_suppressed p;
  sp_gone : forall id, (id, None) ∈ affected p -> is_Some (x.2 !! id) -> coveredThrough x.1 < f_suppressed p;
  sp_touch : forall id i t rc h, (id, Some (i, t, rc, h)) ∈ affected p -> coveredThrough x.1 < t \/ exists r, x.2 !! id = Some r /\ item r = i /\ touch r = t;
}.

Definition stamped_step (x y : indexed) : Prop := exists p, publishes p x y /\ stamps p x.

Record kept (v : Z) (M0 : rowmap) (x : indexed) : Prop := Kept {
  kp_exact : exact x.1 x.2;
  kp_covered : v <= coveredThrough x.1;
  kp_touch : forall id r, x.2 !! id = Some r -> touch r <= v -> item <$> M0 !! id = Some (item r);
  kp_gone : forall id, is_Some (M0 !! id) -> is_Some (x.2 !! id) \/ v < suppressed x.1;
}.

Lemma kept_refl q M : exact q M -> kept (coveredThrough q) M (q, M).
Proof. intros H. constructor; cbn; auto; [lia|]. intros id r -> _. done. Qed.

Lemma kept_step v M0 x y : kept v M0 x -> stamped_step x y -> kept v M0 y.
Proof.
  intros [H1 H2 H3 H4] (p & Hp & [S1 S2 S3]). destruct (publishes_spec p x y Hp H1) as [[P1 P2] Pc]. destruct Hp as (Hok & Hlt & E & Hy).
  assert (suppressed y.1 = f_suppressed p) as Es by (by rewrite E). constructor; [done|lia|..].
  - intros id r Hr Hv. destruct (P2 id r Hr) as (r0 & Hr0 & Ei & Et & _). rewrite Ei. apply content_lookup in Hr0 as [[_ Hr0]|([[[i t] rc] h] & Hin & ->)]; [apply H3; [done|lia]|].
    cbn in *. destruct (S3 id i t rc h Hin) as [?|(r1 & Hr1 & <- & Et1)]; [lia|]. apply H3; [done|lia].
  - intros id [r0 Hid]. destruct (H4 id (mk_is_Some _ _ Hid)) as [Hs|Hs]; [|right; lia]. destruct (content (affected p) x.2 !! id) eqn:Ec; [left; apply P1; by rewrite Ec|].
    right. specialize (S2 id (content_gone _ _ _ Hs Ec) Hs). lia.
Qed.

Lemma kept_steps v M0 x y : rtc stamped_step x y -> kept v M0 x -> kept v M0 y.
Proof. induction 1; [done|]. intros Hs. eauto using kept_step. Qed.

Lemma touched_rows M t v r : tree_of in_touched M t -> r ∈ slice (rank t v) (treeSize t) (rows t) <-> M !! rid r = Some r /\ v <= touch r.
Proof.
  intros Ht. rewrite (slice_from _ _ _ touched_group Ht), list_elem_of_In, List.filter_In, <- list_elem_of_In, (elem_of_rows _ _ _ _ Ht), Z.leb_le.
  unfold key_of, in_touched. split; [by intros [[? _] ?]|]. intros [? ?]. split; [|done]. by split.
Qed.

Lemma touched_since_items q M snap v r :
  exact q M -> 0 <= v < max_uint64 -> touched_since q None snap v = Renders q r ->
  selects M (fun x => v < touch x \/ Active (item x) = true) (Items r) /\ (forall it, it ∈ Items r -> Parent it = 0 \/ exists p, p ∈ Items r /\ ID p = Parent it).
Proof.
  intros [Hq HM _ _] Hv. pose proof (rp_touched _ _ Hq) as Ht. pose proof (rp_active _ _ Hq) as Ha. unfold touched_since.
  rewrite visit_None by (apply Ht || (pose proof (rank_bound in_touched M (touched q) touched_group Ht (u64 (v + 1))); lia)). cbn [mbind option_bind].
  rewrite extras_None by apply Ha. cbn [mbind option_bind]. rewrite u64_small by (unfold max_uint64 in Hv; lia).
  set (rs := slice _ _ _ ++ _). assert (forall x, x ∈ rs <-> M !! rid x = Some x /\ (v < touch x \/ Active (item x) = true)) as Hrs.
  { intros x. unfold rs. rewrite elem_of_app, (touched_rows _ _ _ _ Ht), (elem_of_active _ _ _ Ha). assert (v + 1 <= touch x <-> v < touch x) as -> by lia. tauto. }
  destruct (adds_spec M rs ([], ∅) (chosen_nil M)) as [H1 H2]; [intros x Hx; by apply Hrs in Hx as [? _]|]. pose proof (close_parents_spec q M true None _ Hq H1) as Hc.
  destruct (close_parents true q None (foldl add ([], ∅) rs)) as [| |[items seen] c1]; [done..|]. destruct Hc as (C1 & C2 & C3 & C4 & C5). rewrite C3 by done. cbn [ctx_Err fst snd] in *.
  intros [= <-]. cbn [Items]. split.
  - eapply (closed_selects M _ rs items seen HM Hrs C1).
    + intros x Hx. apply C2, H2. right. by apply list_elem_of_fmap_2.
    + intros it Hit. destruct (C4 it Hit) as [?|[?|[_ ?]]]; auto.
    + intros it Hit. destruct (C5 it Hit) as (it0 & Hin0 & Hu). apply H2 in Hin0 as [?%not_elem_of_nil|(x & -> & Hx)%list_elem_of_fmap]; [done|eauto].
  - intros it Hit. destruct (C4 it Hit) as [?|[Hp|[? _]]]; [by left| |done]. right. apply list_elem_of_fmap in Hp as (p & Ep & Hp). by exists p.
Qed.

(** C17. A catch-up brings all of a client's items up to date. Take the
    publication at a version and a later one, between which the fold stamps the
    rows it changes; the items the later one answers to a catch-up from that
    version, unless it says to start afresh, put in place of what a client had,
    are the later one's: each row that changed or came is sent, and none has
    gone. Every active row is sent too, and the parents of all that is. *)
Theorem catch_up_syncs q0 M0 q M s id snap epoch limit p m i :
  exact q0 M0 -> rtc stamped_step (q0, M0) (q, M) -> serves s id snap q M -> 0 < coveredThrough q0 < max_uint64 ->
  CatchUp s None id epoch (coveredThrough q0) limit = Renders q p ->
  (m !! i = item <$> M0 !! i -> put_all ID (fun it => it) (Items p) m !! i = item <$> M !! i)
  /\ (forall r, M !! i = Some r -> Active (item r) = true -> item r ∈ Items p)
  /\ (forall it, it ∈ Items p -> M !! ID it <> None /\ (Parent it = 0 \/ exists it', it' ∈ Items p /\ ID it' = Parent it)).
Proof.
  intros H0 Hrun [Hid Hcap Hst Hex] Hv Hp. destruct (kept_steps _ _ _ _ Hrun (kept_refl q0 M0 H0)) as [_ _ Htouch Hgone]. cbn [fst snd] in *. set (v := coveredThrough q0) in *.
  unfold CatchUp in Hp. cbn [ctx_Err] in Hp. rewrite Hid, (proj2 (Z.eqb_neq v 0)) in Hp by lia. cbn [negb andb] in Hp. rewrite Hcap, Hst, bool_decide_eq_true_2 in Hp by done.
  destruct (bool_decide (epoch <> sn_Epoch snap) && _); [done|]. destruct (catch_up_reset snap q v) eqn:E; [done|]. unfold catch_up_reset in E. repeat (apply orb_false_iff in E as [E ?]). reflect_bools.
  destruct (touched_since_items q M snap v p Hex ltac:(lia) Hp) as [[T1 T2 T3 T4 T5] T6]. pose proof (rp_id _ _ (ex_rep _ _ Hex)) as Hrid. split; [|split].
  - intros Hm. destruct (put_all_lookup ID (fun it => it) (Items p) m i) as [(it & Hit & <- & ->)|[Hn ->]].
    + destruct (T1 it Hit) as (r & -> & <-). done.
    + rewrite Hm. destruct (M !! i) as [r|] eqn:Hr.
      * destruct (Z.le_gt_cases (touch r) v) as [Hle|Hgt]; [by rewrite (Htouch i r Hr Hle)|]. exfalso. apply (Hn (item r)); [|by apply Hrid]. apply T3; [by rewrite (Hrid _ _ Hr)|left; lia].
      * destruct (M0 !! i) as [r0|] eqn:E0; [|done]. destruct (Hgone i) as [[? ?]|?]; [by rewrite E0|congruence|lia].
  - intros r Hr Hact. apply T3; [by rewrite (Hrid _ _ Hr)|by right].
  - intros it Hit. split; [|by apply T6]. destruct (T1 it Hit) as (r & -> & _). done.
Qed.

End ThreadCatchUp.
