(* ===== verification/ThreadStore.v ===== *)
(** * The store of threads ([internal/thread])

    [child_headers.go], [store_resume.go] and [catch_up.go]: the first index of
    a worker; [observations_store.go] and [store.go]: the changes it retains,
    its publications, and the critical sections in which workers are started,
    withdrawn, retired and removed. *)
From Stdlib Require Import Ascii String.
From stdpp Require Import prelude gmap strings list.
From S2P Require Import Prelude Utf8 Conversations ThreadIndex ThreadQuery.

Module ThreadStore.
Import Utf8 ThreadIndex ThreadQuery.

Local Open Scope Z_scope.
Local Open Scope pyry_scope.

(** ** Headers *)

(** [string(runes)]: a code point of UTF-8. *)
Definition EncodeRune (r : Z) : list Z :=
  if r <? 128 then [r]
  else if r <? 2048 then [192 + Z.shiftr r 6; 128 + Z.land r 63]
  else if r <? 65536 then [224 + Z.shiftr r 12; 128 + Z.land (Z.shiftr r 6) 63; 128 + Z.land r 63]
  else [240 + Z.shiftr r 18; 128 + Z.land (Z.shiftr r 12) 63; 128 + Z.land (Z.shiftr r 6) 63; 128 + Z.land r 63].
Definition string_of_runes (l : list Z) : string :=
  foldr (fun b s => String (ascii_of_N (Z.to_N b)) s) EmptyString (concat (EncodeRune <$> l)).

Definition IsControl (r : Z) : bool := in_range 0 31 r || in_range 127 159 r.

(** The loop of [childHeaderText] over the rest of the string. *)
Fixpoint header_runes (s : list Z) (runes : list Z) (space : bool) : list Z :=
  match s with
  | [] => runes
  | r :: s =>
      if IsSpace r || IsControl r then header_runes s runes (negb (bool_decide (runes = [])))
      else
        let runes := (if space then runes ++ [32] else runes) ++ [r] in
        if (200 <? length runes)%nat then take 199 runes ++ [8230] else header_runes s runes false
  end.
Definition childHeaderText (s : string) : string := string_of_runes (header_runes (fst <$> runes s) [] false).

Definition childHeadline (summary kind : string) : string :=
  let text := childHeaderText summary in
  if negb (bool_decide (text = EmptyString)) then text
  else if bool_decide (kind = "tool_call"%string) then "Tool call"
  else if bool_decide (kind = "agent"%string) then "Agent"
  else "Thread item".

Definition prepareChildHeader (i : Item) : childHeader :=
  let h known err := MkHeader (childHeadline (Summary i) (Kind i)) err known 0 0 false false EmptyString false in
  if bool_decide (Status i ∈ ["failed"; "denied"]%string) then h true (Status i)
  else if bool_decide (Status i ∈ ["done"; "completed"; "finished"]%string) then h (negb (Active i)) EmptyString
  else h false EmptyString.

Definition set_task (h : childHeader) (id : string) (known : bool) : childHeader :=
  MkHeader (headline h) (errorSummary h) (errorKnown h) (childCount h) (subtreeVersion h) (countKnown h) (freshKnown h) id known.

Definition taskAssociation (i : Item) (r : contentRecipe) (h : childHeader) : childHeader :=
  if negb (bool_decide (Kind i = "agent"%string)) && negb (bool_decide (Kind i = "tool_call"%string))
     || (creating r =? 0) || negb (creating r =? ID i) then set_task h EmptyString false
  else match fields r !! "task_id"%string with
       | None => set_task h EmptyString true
       | Some field =>
           match rf_value field with
           | Some id => if negb (agent r) || negb (rf_entry field =? 0) || negb (rf_item field =? 0)
                        then set_task h EmptyString false else set_task h id true
           | None => set_task h EmptyString false
           end
       end.

(** ** The first index *)

(** What publications read of the fold. *)
Record Fold := MkFold { touches : gmap Z Z; recipes : gmap Z contentRecipe; f_version : Z; f_unproven : Z; f_supp : Z }.
Definition no_recipe : contentRecipe := MkRecipe 0 false 0 [] ∅.
Definition touch_of (f : Fold) (id : Z) : Z := default 0 (touches f !! id).
Definition recipe_of (f : Fold) (id : Z) : contentRecipe := default no_recipe (recipes f !! id).

(** The public items, in the fold's order; [order] is the order the last map
    is walked in. *)
Definition newPublicationIndex (items : list Item) (order : list Z) : queryIndex :=
  let q := foldl (fun q i => membership (MkRow i 0 no_recipe (prepareChildHeader i) false) false q) empty_index items in
  let q := foldl (fun q i => match lookup q (ID i) with Some row => refreshHeader row (Rev i) q | None => q end) q items in
  refreshRootActivity order (list_to_set (ID <$> items)) q.

Definition set_touched (b : gmap Z (gmap Z queryRow)) (t : queryTree) (invalid : Z) (q : queryIndex) : queryIndex :=
  MkIndex b (ordered q) (active q) t (children q) (roots q) (activeRoots q) (activeBranches q) (rootTouches q)
    invalid (coveredThrough q) (unprovenThrough q) (suppressed q) (complete q) (compactFrom q) (compactLost q).

Definition fold_evidence (f : Fold) (q : queryIndex) : queryIndex :=
  MkIndex (byID q) (ordered q) (active q) (touched q) (children q) (roots q) (activeRoots q) (activeBranches q) (rootTouches q)
    (invalidTouches q) (f_version f) (f_unproven f) (f_supp f) (invalidTouches q =? 0) (compactFrom q) (compactLost q).

(** One row of [prepareCatchUp]'s walk over the buckets. *)
Definition prepare_row (f : Fold) (q : queryIndex) (id : Z) : queryIndex :=
  match lookup q id with
  | None => q
  | Some row =>
      let row := MkRow (item row) (touch_of f id) (recipe_of f id) (header row) (activeBranch row) in
      set_touched (byID_put id (Some row) (byID q)) (treePut (touched q) (touch row) id (Some row))
        (if (touch row =? 0) || (f_version f <? touch row) then invalidTouches q + 1 else invalidTouches q) q
  end.
Definition prepareCatchUp (f : Fold) (order : list Z) (ids : gset Z) (q : queryIndex) : queryIndex :=
  fold_evidence f (foldl (prepare_row f) (set_touched (byID q) Nil 0 q) (walk order ids)).

Definition set_compactFrom (v : Z) (q : queryIndex) : queryIndex :=
  MkIndex (byID q) (ordered q) (active q) (touched q) (children q) (roots q) (activeRoots q) (activeBranches q) (rootTouches q)
    (invalidTouches q) (coveredThrough q) (unprovenThrough q) (suppressed q) (complete q) v (compactLost q).

Definition initial_header (f : Fold) (headers : gmap Z childHeader) (row : queryRow) : queryRow :=
  let i := item row in
  set_header (taskAssociation i (recipe_of f (ID i)) (default (header row) (headers !! ID i))) row.

Definition initialPublicationIndex (items : list Item) (f : Fold) (headers : gmap Z childHeader) (orders : list Z * list Z) : queryIndex :=
  let q := prepareCatchUp f orders.2 (list_to_set (ID <$> items)) (newPublicationIndex items orders.1) in
  let q := foldl (fun q i => match lookup q (ID i) with
                             | Some row => refreshHeader (initial_header f headers row) (f_version f) q
                             | None => q
                             end) q items in
  set_compactFrom (f_version f) q.

(** ** The feed *)

Definition maxChangeBatches : nat := 64.
Definition maxChangeBytes : Z := 2 ^ 20.

Definition batches_bytes (l : list changeBatch) : Z := foldr (fun b n => bytes b + n) 0 l.

(** The loop that drops the oldest batches; [total] is [rangeBytes]. *)
Fixpoint drop_batches (l : list changeBatch) (total : Z) : list changeBatch * Z :=
  match l with
  | [] => ([], total)
  | b :: l' => if (maxChangeBatches <? length l)%nat || (maxChangeBytes <? total) then drop_batches l' (total - bytes b) else (l, total)
  end.

Definition retain (batch : changeBatch) (ranges : list changeBatch) (total : Z) : list changeBatch * Z :=
  if maxChangeBytes <? bytes batch then ([], 0) else drop_batches (ranges ++ [batch]) (total + bytes batch).

(** What a publication captured of the fold: its public items, those affected
    (absent where no longer public), their headers, what changed and the length
    of its encoding, and the orders its maps are walked in. *)
Record capture := MkCapture {
  c_items : list Item; c_affected : list (Z * option Item); c_headers : gmap Z childHeader;
  c_changes : Observation; c_bytes : Z; c_fold : Fold; c_orders : list Z * list Z;
}.

Definition no_header : childHeader := MkHeader EmptyString EmptyString false 0 0 false false EmptyString false.

Definition publication_of (c : capture) : publication :=
  let f := c_fold c in
  Publication
    (map (fun '(id, slot) => (id, match slot with Some i => Some (i, touch_of f id, recipe_of f id, default no_header (c_headers c !! id)) | None => None end)) (c_affected c))
    (f_version f) (f_unproven f) (f_supp f) (c_orders c).1 (c_orders c).2.

Definition set_baseline (o : Observation) : Observation := MkObservation (ob_Snapshot o) (ob_FromVersion o) [] true.

(** [publish]'s effect on its worker. *)
Definition publish_worker (c : capture) (w : conversationWorker) : conversationWorker :=
  let o := c_changes c in
  let keep := (bool_decide (sn_State (snapshot w) = StateUsable) || bool_decide (is_Some (query w))) && (ob_FromVersion o <? sn_Version (ob_Snapshot o)) in
  let o := if ob_FromVersion o <? f_unproven (c_fold c) then set_baseline o else o in
  let index := match query w with
               | None => initialPublicationIndex (c_items c) (c_fold c) (c_headers c) (c_orders c)
               | Some q => advance (publication_of c) q
               end in
  let '(rs, n) := if keep then retain (MkBatch o (c_bytes c)) (ranges w) (rangeBytes w) else (ranges w, rangeBytes w) in
  MkWorker (wid w) (canceled w) (exited w) (retiring w) false (renderFailed w) (ob_Snapshot o) (Some index) rs n.

(** One turn of [Changes]' loop, [None] where it goes on to wait. *)
Definition take_batches (l : list changeBatch) (cursor : Z) : list Change * Z * bool :=
  (fix go (l : list changeBatch) (acc : list Change) (cursor : Z) : list Change * Z * bool :=
     match l with
     | [] => (acc, cursor, false)
     | b :: l =>
         let part := observation b in
         if negb (ob_FromVersion part =? cursor) then go l acc cursor
         else if BaselineRequired part then (acc, cursor, true)
         else go l (acc ++ Changes part) (sn_Version (ob_Snapshot part))
     end) l [] cursor.

Definition no_observation : Observation := MkObservation zero_Snapshot 0 [] false.

Definition change_poll (s : Store) (id epoch : string) (after : Z) : option Observation :=
  match workers s !! id with
  | None => Some no_observation
  | Some w =>
      if retiring w then Some no_observation
      else
        let snap := snapshot w in
        if negb (bool_decide (sn_State snap = StateUsable)) then Some (MkObservation snap 0 [] false)
        else if bool_decide (epoch <> sn_Epoch snap) || (sn_Version snap <? after) then Some (MkObservation snap after [] true)
        else if after =? sn_Version snap then None
        else
          let '(changes, cursor, baseline) := take_batches (ranges w) after in
          let baseline := baseline || negb (cursor =? sn_Version snap) in
          Some (MkObservation snap after (if baseline then [] else changes) baseline)
  end.

(** The stores it wakes to in turn, each after a look at its context. *)
Fixpoint change_wait (views : list Store) (c : context) (id epoch : string) (after : Z) : Observation + threadError :=
  match views with
  | [] => inr ErrCanceled
  | s :: views =>
      match ctx_Err c with
      | None => inr ErrCanceled
      | Some c => match change_poll s id epoch after with Some o => inl o | None => change_wait views c id epoch after end
      end
  end.

(** ** Workers *)

Definition set_workers (ws : gmap string conversationWorker) (s : Store) : Store := MkStore (closed s) ws.

(** A worker whose snapshot, index and changes are dropped. *)
Definition cleared (snap : Snapshot) (w : conversationWorker) : conversationWorker :=
  MkWorker (wid w) (canceled w) (exited w) (retiring w) (processing w) (renderFailed w) snap None [] 0.
Definition unavailable : Snapshot := MkSnapshot false StateUnavailable 0 0 EmptyString (Some ErrUnavailable).
Definition set_processing (b : bool) (w : conversationWorker) : conversationWorker :=
  MkWorker (wid w) (canceled w) (exited w) (retiring w) b (renderFailed w) (snapshot w) (query w) (ranges w) (rangeBytes w).
Definition cancel (w : conversationWorker) : conversationWorker :=
  MkWorker (wid w) true (exited w) (retiring w) (processing w) (renderFailed w) (snapshot w) (query w) (ranges w) (rangeBytes w).
Definition retire (w : conversationWorker) : conversationWorker :=
  cancel (cleared zero_Snapshot (MkWorker (wid w) (canceled w) (exited w) true (processing w) (renderFailed w) (snapshot w) (query w) (ranges w) (rangeBytes w))).
Definition fail_render (w : conversationWorker) : conversationWorker :=
  cancel (cleared unavailable (MkWorker (wid w) (canceled w) (exited w) (retiring w) (processing w) true (snapshot w) (query w) (ranges w) (rangeBytes w))).
Definition exit_worker (w : conversationWorker) : conversationWorker :=
  MkWorker (wid w) true true (retiring w) (processing w) (renderFailed w) (snapshot w) (query w) (ranges w) (rangeBytes w).
Definition set_query (q : queryIndex) (w : conversationWorker) : conversationWorker :=
  MkWorker (wid w) (canceled w) (exited w) (retiring w) (processing w) (renderFailed w) (snapshot w) (Some q) (ranges w) (rangeBytes w).
Definition new_worker (n : nat) : conversationWorker :=
  MkWorker n false false false false false (MkSnapshot false StateRebuilding 0 0 EmptyString None) None [] 0.

(** [f] applied to [id]'s worker, if it is the one with address [n]. *)
Definition with_worker (id : string) (n : nat) (p : conversationWorker -> bool) (f : conversationWorker -> conversationWorker) (s : Store) : Store :=
  match workers s !! id with
  | Some w => if bool_decide (wid w = n) && p w then set_workers (<[id := f w]> (workers s)) s else s
  | None => s
  end.

Inductive startError := StartInvalidID | ErrClosed | StartCanceled | ErrUnloading | ErrNotLoaded | ErrNotUnavailable.
Inductive startResult := Started | AlreadyLoaded | StartWaits | StartFails (e : startError).

(** One turn of [start]'s loop; [n] is the new worker's address. *)
Definition start (id : string) (retry canceled : bool) (n : nat) (s : Store) : startResult * Store :=
  if negb (Conversations.ValidID id) then (StartFails StartInvalidID, s)
  else if closed s then (StartFails ErrClosed, s)
  else if canceled then (StartFails StartCanceled, s)
  else
    let load := (Started, set_workers (<[id := new_worker n]> (workers s)) s) in
    match workers s !! id with
    | None => if retry then (StartFails ErrNotLoaded, s) else load
    | Some w =>
        if retiring w then (StartFails ErrUnloading, s)
        else if retry then
          if negb (bool_decide (sn_State (snapshot w) = StateUnavailable)) then (StartFails ErrNotUnavailable, s)
          else if exited w then load else (StartWaits, s)
        else (AlreadyLoaded, s)
    end.

Definition publish (id : string) (n : nat) (c : capture) (s : Store) : Store :=
  with_worker id n (fun w => negb (retiring w) && negb (closed s) && negb (canceled w)) (publish_worker c) s.

(** [run] puts the index of the checkpoint it resumes from. *)
Definition restore (id : string) (n : nat) (items : list Item) (f : Fold) (orders : list Z * list Z) (s : Store) : Store :=
  with_worker id n (fun w => negb (retiring w) && negb (closed s) && negb (canceled w)) (set_query (initialPublicationIndex items f ∅ orders)) s.

(** [feed] admits a chunk, unless the worker is to stop. *)
Definition feed_chunk (id : string) (n : nat) (s : Store) : Store :=
  with_worker id n (fun w => negb (retiring w) && negb (canceled w)) (set_processing true) s.

(** [n] is the worker of the index rendered. *)
Definition withdraw (id : string) (n : nat) (ctx_done : bool) (s : Store) : Store :=
  if ctx_done then s else with_worker id n (fun w => negb (retiring w) && negb (closed s)) fail_render s.

(** The end of [run]. *)
Definition run_exit (id : string) (n : nat) (s : Store) : Store :=
  with_worker id n (fun _ => true) (fun w => exit_worker (if negb (retiring w) && negb (closed s) then cleared unavailable w else w)) s.

(** [unload]'s first critical section, with the worker it goes on to join. *)
Definition unload_begin (id epoch : string) (version : Z) (conditional : bool) (s : Store) : option nat * Store :=
  if negb (Conversations.ValidID id) then (None, s)
  else match workers s !! id with
  | None => (None, s)
  | Some w =>
      let snap := snapshot w in
      if conditional && (retiring w || processing w || negb (bool_decide (sn_State snap = StateUsable)) || sn_Active snap
                         || negb (bool_decide (sn_Epoch snap = epoch)) || negb (sn_Version snap =? version)) then (None, s)
      else (Some (wid w), set_workers (<[id := retire w]> (workers s)) s)
  end.

(** Its last one, once the worker has exited. *)
Definition unload_end (id : string) (n : nat) (s : Store) : Store :=
  match workers s !! id with
  | Some w => if bool_decide (wid w = n) then set_workers (delete id (workers s)) s else s
  | None => s
  end.

Definition shutdown_begin (s : Store) : Store := MkStore true (retire <$> workers s).
Definition shutdown_end (s : Store) : Store := MkStore (closed s) ∅.

End ThreadStore.
