(* ===== verification/ThreadFeed.v ===== *)
(** * The changes a worker retains

    What [Changes] gives a client is the publications after the one it names,
    all of them and no other, or a word that it must start afresh. *)
From Stdlib Require Import ZArith Lia.
From stdpp Require Import prelude gmap strings list.
From S2P Require Import Prelude ThreadIndex ThreadQuery ThreadStore.

Module ThreadFeed.
Import ThreadIndex ThreadQuery ThreadStore.

Local Open Scope Z_scope.

(** ** Retaining *)

Definition fits (l : list changeBatch) : Prop := (length l <= maxChangeBatches)%nat /\ batches_bytes l <= maxChangeBytes.
Definition sized (l : list changeBatch) : Prop := Forall (fun b => 0 <= bytes b) l.

Lemma batches_bytes_app l1 l2 : batches_bytes (l1 ++ l2) = batches_bytes l1 + batches_bytes l2.
Proof. induction l1 as [|b l1 IH]; cbn; [done|]. change (batches_bytes (l1 ++ l2)) with (foldr (fun b n => bytes b + n) 0 (l1 ++ l2)) in IH. rewrite IH. unfold batches_bytes. lia. Qed.

Lemma batches_bytes_nonneg l : sized l -> 0 <= batches_bytes l.
Proof. induction 1 as [|b l Hb _ IH]; cbn; [done|]. change (foldr _ _ _) with (batches_bytes l). lia. Qed.

(** [l] is what is left of [all] once the oldest are dropped until it fits. *)
Record newest (all l : list changeBatch) : Prop := Newest {
  nw_suffix : exists d, all = d ++ l;
  nw_fits : fits l;
  nw_most : forall d l', all = d ++ l' -> fits l' -> (length l' <= length l)%nat;
}.

Lemma drop_batches_spec l : sized l -> let '(l', n) := drop_batches l (batches_bytes l) in newest l l' /\ n = batches_bytes l'.
Proof.
  induction 1 as [|b l Hb Hl IH].
  - cbn. split; [|done]. constructor; [by exists []|split; unfold maxChangeBatches, maxChangeBytes; cbn; lia|]. intros d l' E _. symmetry in E. apply app_nil in E as [_ ->]. done.
  - cbn [drop_batches]. destruct (_ || _) eqn:E.
    + replace (batches_bytes (b :: l) - bytes b) with (batches_bytes l) by (unfold batches_bytes; cbn; lia). destruct (drop_batches l _) as [l' n]. destruct IH as [[[d Hd] Hf Hm] ->].
      split; [|done]. constructor; [exists (b :: d); by rewrite Hd|done|]. intros d' l2 Ed Hf2. destruct d' as [|x d']; [|injection Ed as _ Ed; by apply (Hm d')]. cbn in Ed. subst l2. exfalso.
      destruct Hf2 as [H1 H2]. apply orb_true_iff in E as [E%Nat.ltb_lt|E%Z.ltb_lt]; lia.
    + apply orb_false_iff in E as [E1%Nat.ltb_ge E2%Z.ltb_ge]. split; [|done]. constructor; [by exists []|done|]. intros d l' -> _. rewrite length_app. lia.
Qed.

Lemma newest_snoc all l b : newest all l -> sized (all ++ [b]) -> let '(l', n) := retain b l (batches_bytes l) in newest (all ++ [b]) l' /\ n = batches_bytes l'.
Proof.
  intros [[d Hd] Hf Hm] [Hall Hb0]%Forall_app. assert (0 <= bytes b) as Hb by (by inversion Hb0). clear Hb0. assert (forall d l', all ++ [b] = d ++ l' -> l' = [] \/ exists m, l' = m ++ [b] /\ all = d ++ m) as Hsuf.
  { intros d' l' E. destruct l' as [|x m _] using rev_ind; [by left|]. right. exists m. rewrite app_assoc in E. apply app_inj_tail in E as [-> ->]. done. }
  assert (forall d m, all = d ++ m -> 0 <= batches_bytes m) as Hpos by (intros d' m ->; apply Forall_app in Hall as [_ ?]; by apply batches_bytes_nonneg).
  unfold retain. destruct (Z.ltb_spec maxChangeBytes (bytes b)) as [Hbig|Hsmall].
  - split; [|done]. constructor; [exists (all ++ [b]); by rewrite app_nil_r|split; cbn; unfold maxChangeBatches, maxChangeBytes; lia|]. intros d' l' E [_ Hf']. destruct (Hsuf d' l' E) as [->|(m & -> & Em)]; [done|]. exfalso.
    rewrite batches_bytes_app in Hf'. specialize (Hpos _ _ Em). cbn in Hf'. lia.
  - assert (batches_bytes l + bytes b = batches_bytes (l ++ [b])) as -> by (rewrite batches_bytes_app; cbn; lia).
    assert (sized (l ++ [b])) as Hs by (rewrite Hd in Hall; apply Forall_app in Hall as [_ Hl]; apply Forall_app; split; [exact Hl|constructor; [exact Hb|constructor]]).
    pose proof (drop_batches_spec (l ++ [b]) Hs) as H. destruct (drop_batches _ _) as [l' n]. destruct H as [[[d' Hd'] Hf' Hm'] ->]. split; [|done]. constructor; [|done|].
    + exists (d ++ d'). by rewrite <- app_assoc, <- Hd', app_assoc, <- Hd.
    + intros d2 l2 E Hf2. destruct (Hsuf d2 l2 E) as [->|(m & -> & Em)]; [cbn; lia|]. assert (length m <= length l)%nat as Hml.
      { apply (Hm d2); [done|]. destruct Hf2 as [F1 F2]. rewrite length_app in F1. rewrite batches_bytes_app in F2. cbn in F1, F2. split; [lia|lia]. }
      assert (exists e, l = e ++ m) as [e He].
      { rewrite Em in Hd. exists (drop (length d) d2 ). assert (length d <= length d2)%nat as Hdl by (apply (f_equal length) in Hd; rewrite !length_app in Hd; lia).
        apply (app_inv_head d). rewrite <- Hd, app_assoc. f_equal. rewrite <- (take_drop (length d) d2) at 1. f_equal.
        apply (f_equal (take (length d))) in Hd. rewrite take_app_le, take_app_length in Hd by done. done. }
      apply (Hm' e); [by rewrite He, app_assoc|done].
Qed.

(** ** Reading *)

(** Batches that follow one another from one version to another. *)
Fixpoint chain (v : Z) (l : list changeBatch) (v' : Z) : Prop :=
  match l with
  | [] => v = v'
  | b :: l => ob_FromVersion (observation b) = v /\ v < sn_Version (ob_Snapshot (observation b)) /\ chain (sn_Version (ob_Snapshot (observation b))) l v'
  end.

Lemma chain_le v l v' : chain v l v' -> v <= v'.
Proof. revert v. induction l as [|b l IH]; intros v; cbn; [lia|]. intros (_ & H & Hc%IH). lia. Qed.

Lemma chain_app v l1 l2 v' : chain v (l1 ++ l2) v' <-> exists u, chain v l1 u /\ chain u l2 v'.
Proof.
  revert v. induction l1 as [|b l1 IH]; intros v; cbn; [split; [eauto|by intros (u & -> & ?)]|]. split.
  - intros (H1 & H2 & (u & ? & ?)%IH). eauto 6.
  - intros (u & (H1 & H2 & H3) & H4). split; [done|]. split; [done|]. apply IH. eauto.
Qed.

Lemma chain_unique v l u u' : chain v l u -> chain v l u' -> u = u'.
Proof. revert v. induction l as [|b l IH]; intros v; cbn; [congruence|]. intros (_ & _ & H) (_ & _ & H'). eauto. Qed.

Lemma chain_same v l1 l2 l1' l2' u v' :
  l1 ++ l2 = l1' ++ l2' -> chain v l1 u -> chain v l1' u -> chain u l2 v' -> l2 = l2'.
Proof.
  revert v l1'. induction l1 as [|b l1 IH]; intros v [|b' l1'] E; cbn in *.
  - done.
  - intros <- (_ & H1 & H2) _. apply chain_le in H2. lia.
  - intros (_ & H1 & H2) <- _. apply chain_le in H2. lia.
  - injection E as <- E. intros (_ & _ & H1) (_ & _ & H2) H3. eapply IH; eauto.
Qed.

Definition is_change (b : changeBatch) : Prop := BaselineRequired (observation b) = false.
Definition all_changes (l : list changeBatch) : list Change := concat (map (fun b => Changes (observation b)) l).

(** [take_batches]' loop. *)
Fixpoint take_from (l : list changeBatch) (acc : list Change) (cursor : Z) : list Change * Z * bool :=
  match l with
  | [] => (acc, cursor, false)
  | b :: l =>
      if negb (ob_FromVersion (observation b) =? cursor) then take_from l acc cursor
      else if BaselineRequired (observation b) then (acc, cursor, true)
      else take_from l (acc ++ Changes (observation b)) (sn_Version (ob_Snapshot (observation b)))
  end.

Lemma take_batches_from l cursor : take_batches l cursor = take_from l [] cursor.
Proof. unfold take_batches. generalize (@nil Change) as acc. revert cursor. induction l as [|b l IH]; intros cursor acc; [done|]. cbn. destruct (negb _); [apply IH|]. destruct (BaselineRequired _); [done|apply IH]. Qed.

Lemma take_from_here v l v' acc :
  chain v l v' -> match take_from l acc v with
                  | (cs, u, b) => if b then ~ Forall is_change l else Forall is_change l /\ cs = acc ++ all_changes l /\ u = v'
                  end.
Proof.
  revert v acc. induction l as [|b l IH]; intros v acc; cbn [take_from chain]; [intros <-; split; [constructor|]; split; [by rewrite app_nil_r|done]|].
  intros (<- & _ & Hc). rewrite Z.eqb_refl. cbn [negb]. destruct (BaselineRequired (observation b)) eqn:Eb.
  - intros Hf. apply Forall_cons in Hf as [Hf _]. unfold is_change in Hf. congruence.
  - specialize (IH _ (acc ++ Changes (observation b)) Hc). destruct (take_from l _ _) as [[cs u] [|]]; [intros [_ ?]%Forall_cons; done|].
    destruct IH as (I1 & -> & ->). split; [by constructor|]. split; [|done]. unfold all_changes. cbn. by rewrite app_assoc.
Qed.

(** Before the first batch, or at none's start, nothing matches. *)
Lemma take_from_none v l v' acc cursor :
  chain v l v' -> (forall l1 l2, l = l1 ++ l2 -> ~ chain v l1 cursor) -> take_from l acc cursor = (acc, cursor, false).
Proof.
  revert v. induction l as [|b l IH]; intros v; cbn [take_from chain]; [done|]. intros (<- & Hlt & Hc) Hno. destruct (Z.eqb_spec (ob_FromVersion (observation b)) cursor) as [E|Hne].
  - exfalso. by apply (Hno [] (b :: l)).
  - cbn. apply (IH _ Hc). intros l1 l2 -> H1. apply (Hno (b :: l1) l2); [done|]. done.
Qed.

Lemma take_from_skip v l1 l2 cursor acc : chain v l1 cursor -> take_from (l1 ++ l2) acc cursor = take_from l2 acc cursor.
Proof.
  revert v. induction l1 as [|b l1 IH]; intros v; [done|]. cbn [chain app take_from]. intros (<- & Hlt & Hc). rewrite (proj2 (Z.eqb_neq _ cursor)); [cbn; by apply (IH _ Hc)|]. apply chain_le in Hc. lia.
Qed.

Lemma boundary_dec v l cursor : (exists l1 l2, l = l1 ++ l2 /\ chain v l1 cursor) \/ (forall l1 l2, l = l1 ++ l2 -> ~ chain v l1 cursor).
Proof.
  revert v. induction l as [|b l IH]; intros v.
  - destruct (decide (v = cursor)) as [->|Hne]; [left; by exists [], []|right]. intros l1 l2 E. symmetry in E. apply app_nil in E as [-> _]. done.
  - destruct (decide (v = cursor)) as [->|Hne]; [left; by exists [], (b :: l)|].
    destruct (decide (ob_FromVersion (observation b) = v /\ v < sn_Version (ob_Snapshot (observation b)))) as [[H1 H2]|Hno].
    + destruct (IH (sn_Version (ob_Snapshot (observation b)))) as [(l1 & l2 & -> & Hc)|Hno]; [left; exists (b :: l1), l2; done|right].
      intros [|b' l1] l2 E; [done|]. injection E as <- E. intros (_ & _ & Hc). by apply (Hno l1 l2).
    + right. intros [|b' l1] l2 E; [done|]. injection E as <- E. intros (? & ? & _). by apply Hno.
Qed.

(** What reading a chain gives. *)
Lemma take_batches_spec v l v' cursor :
  chain v l v' -> match take_batches l cursor with
    | (cs, u, b) =>
        ((b || negb (u =? v')) = false -> exists l1 l2, l = l1 ++ l2 /\ chain v l1 cursor /\ chain cursor l2 v' /\ Forall is_change l2 /\ cs = all_changes l2)
        /\ forall l1 l2, l = l1 ++ l2 -> chain v l1 cursor -> chain cursor l2 v' -> Forall is_change l2 -> (b || negb (u =? v')) = false
    end.
Proof.
  intros Hc. rewrite take_batches_from. destruct (boundary_dec v l cursor) as [(l1 & l2 & -> & H1)|Hno].
  - rewrite (take_from_skip v) by done. pose proof Hc as (u & Hu & H2)%chain_app. rewrite (chain_unique _ _ _ _ Hu H1) in H2. pose proof (take_from_here cursor l2 v' [] H2) as Ht.
    destruct (take_from l2 [] cursor) as [[cs x] [|]]; cbn [orb].
    + split; [done|]. intros l1' l2' E H1' H2' Hf. destruct Ht. by rewrite (chain_same _ _ _ _ _ _ _ E H1 H1' H2).
    + destruct Ht as (Hf & -> & ->). rewrite Z.eqb_refl. split; [|done]. intros _. by exists l1, l2.
  - rewrite (take_from_none v l v') by done. cbn [orb]. split; [|intros l1 l2 -> H1; by destruct (Hno l1 l2)].
    intros ->%negb_false_iff%Z.eqb_eq. exfalso. apply (Hno l []); [by rewrite app_nil_r|done].
Qed.

(** ** Publications of a worker *)

Definition c_from (c : capture) : Z := ob_FromVersion (c_changes c).
Definition c_to (c : capture) : Z := sn_Version (ob_Snapshot (c_changes c)).

(** Captures follow one another: each from the version the last one reached. *)
Fixpoint following (v : Z) (cs : list capture) : Prop :=
  match cs with
  | [] => True
  | c :: cs => c_from c = v /\ v <= c_to c /\ 0 <= c_bytes c /\ sn_State (ob_Snapshot (c_changes c)) = StateUsable /\ following (c_to c) cs
  end.
Definition reached (v : Z) (cs : list capture) : Z := from_option c_to v (last cs).

(** The batch of a capture, and those of the captures that make progress. *)
Definition batch_of (c : capture) : changeBatch :=
  MkBatch (if c_from c <? f_unproven (c_fold c) then set_baseline (c_changes c) else c_changes c) (c_bytes c).
Definition batches (cs : list capture) : list changeBatch := map batch_of (List.filter (fun c => c_from c <? c_to c) cs).

Lemma batch_of_ends c : ob_FromVersion (observation (batch_of c)) = c_from c /\ sn_Version (ob_Snapshot (observation (batch_of c))) = c_to c.
Proof. unfold batch_of. by destruct (_ <? _). Qed.

Lemma reached_cons v c cs : reached v (c :: cs) = reached (c_to c) cs.
Proof. unfold reached. rewrite last_cons. by destruct (last cs). Qed.

Lemma following_snoc v cs c : following v (cs ++ [c]) <-> following v cs /\ c_from c = reached v cs /\ reached v cs <= c_to c /\ 0 <= c_bytes c /\ sn_State (ob_Snapshot (c_changes c)) = StateUsable.
Proof.
  revert v. induction cs as [|c' cs IH]; intros v; cbn [app following]; [unfold reached; cbn; tauto|]. rewrite IH, reached_cons. tauto.
Qed.

Lemma following_app v cs1 cs2 : following v (cs1 ++ cs2) -> following v cs1 /\ following (reached v cs1) cs2.
Proof.
  revert v. induction cs1 as [|c cs1 IH]; intros v; cbn [app following]; [done|]. intros (H1 & H2 & H3 & H4 & [H5 H6]%IH). split; [done|]. by rewrite reached_cons.
Qed.

Lemma batches_app cs1 cs2 : batches (cs1 ++ cs2) = batches cs1 ++ batches cs2.
Proof. unfold batches. by rewrite List.filter_app, map_app. Qed.

Lemma batches_chain v cs : following v cs -> chain v (batches cs) (reached v cs).
Proof.
  revert v. induction cs as [|c cs IH]; intros v; [done|]. cbn [following]. intros (<- & Hle & _ & _ & Hf). specialize (IH _ Hf).
  rewrite reached_cons. unfold batches in *. cbn [List.filter].
  destruct (Z.ltb_spec (c_from c) (c_to c)) as [Hlt|Hge].
  - cbn [map chain]. destruct (batch_of_ends c) as [-> ->]. split; [done|]. split; [done|]. exact IH.
  - replace (c_from c) with (c_to c) by lia. exact IH.
Qed.

Lemma batches_sized v cs : following v cs -> sized (batches cs).
Proof.
  revert v. induction cs as [|c cs IH]; intros v; [constructor|]. cbn [following]. intros (_ & _ & Hb & _ & Hf). specialize (IH _ Hf). unfold batches in *. cbn [List.filter].
  destruct (_ <? _); [|done]. cbn. constructor; [|done]. unfold batch_of. cbn. done.
Qed.

(** A worker that has published [cs] from version [v] on. *)
Record published_by (v : Z) (cs : list capture) (w : conversationWorker) : Prop := PublishedBy {
  pb_newest : newest (batches cs) (ranges w);
  pb_bytes : rangeBytes w = batches_bytes (ranges w);
  pb_version : cs <> [] \/ sn_State (snapshot w) = StateUsable -> sn_Version (snapshot w) = reached v cs;
  pb_query : is_Some (query w);
}.

Definition publish_all (cs : list capture) (w : conversationWorker) : conversationWorker := foldl (fun w c => publish_worker c w) w cs.

Lemma publish_worker_spec v cs c w : following v (cs ++ [c]) -> published_by v cs w -> published_by v (cs ++ [c]) (publish_worker c w).
Proof.
  intros Hf [H1 H2 H3 H4]. pose proof (batches_sized _ _ Hf) as Hsz. rewrite batches_app in Hsz. pose proof (proj1 (following_snoc _ _ _) Hf) as (_ & Efrom & Hle & _ & Hst).
  unfold publish_worker. rewrite (bool_decide_eq_true_2 (is_Some (query w))) by done. rewrite orb_true_r. cbn [andb]. change (ob_FromVersion (c_changes c)) with (c_from c). change (sn_Version (ob_Snapshot (c_changes c))) with (c_to c).
  assert (exists q, match query w with None => initialPublicationIndex (c_items c) (c_fold c) (c_headers c) (c_orders c) | Some q => advance (publication_of c) q end = q) as [q ->] by eauto.
  set (o := if c_from c <? f_unproven (c_fold c) then set_baseline (c_changes c) else c_changes c). change (MkBatch o (c_bytes c)) with (batch_of c).
  assert (ob_Snapshot o = ob_Snapshot (c_changes c)) as Eo by (unfold o; by destruct (_ <? _)). assert (reached v (cs ++ [c]) = c_to c) as Er by (unfold reached; by rewrite last_snoc).
  unfold batches at 2 in Hsz. cbn [List.filter] in Hsz. destruct (c_from c <? c_to c) eqn:E.
  - cbn [map] in Hsz. pose proof (newest_snoc _ _ _ H1 Hsz) as Hn. rewrite H2. destruct (retain (batch_of c) (ranges w) _) as [rs n]. destruct Hn as [Hn1 ->].
    constructor; cbn [ranges rangeBytes snapshot query]; [|done|by rewrite Eo, Er|done]. rewrite batches_app. unfold batches at 2. cbn [List.filter]. by rewrite E.
  - constructor; cbn [ranges rangeBytes snapshot query]; [|done|by rewrite Eo, Er|done]. rewrite batches_app. unfold batches at 2. cbn [List.filter]. rewrite E. by rewrite app_nil_r.
Qed.

Lemma publish_all_spec v cs w : following v cs -> published_by v [] w -> published_by v cs (publish_all cs w).
Proof.
  intros Hf Hw. induction cs as [|c cs IH] using rev_ind; [done|]. unfold publish_all. rewrite foldl_snoc. apply publish_worker_spec; [done|]. apply IH. by apply following_snoc in Hf as [? _].
Qed.

(** Batches end where captures do. *)
Lemma batches_split cs l1 l2 : batches cs = l1 ++ l2 -> exists cs1 cs2, cs = cs1 ++ cs2 /\ batches cs1 = l1 /\ batches cs2 = l2.
Proof.
  revert l1. induction cs as [|c cs IH]; intros l1 E.
  - symmetry in E. apply app_nil in E as [-> ->]. by exists [], [].
  - unfold batches in E. cbn [List.filter] in E. destruct (c_from c <? c_to c) eqn:Ec.
    + destruct l1 as [|b l1].
      * cbn in E. exists [], (c :: cs). split; [done|]. split; [done|]. unfold batches. cbn [List.filter]. by rewrite Ec.
      * injection E as <- E. destruct (IH l1 E) as (cs1 & cs2 & -> & <- & <-). exists (c :: cs1), cs2. split; [done|]. split; [|done]. unfold batches. cbn [List.filter]. by rewrite Ec.
    + destruct (IH l1 E) as (cs1 & cs2 & -> & <- & <-). exists (c :: cs1), cs2. split; [done|]. split; [|done]. unfold batches. cbn [List.filter]. by rewrite Ec.
Qed.

Lemma suffix_longer {A} (l1 l2 d l : list A) : l1 ++ l2 = d ++ l -> (length l2 <= length l)%nat -> exists e, l = e ++ l2.
Proof.
  revert d. induction l1 as [|x l1 IH]; intros d E Hlen.
  - cbn in E. subst l2. rewrite length_app in Hlen. destruct d; [by exists []|cbn in Hlen; lia].
  - destruct d as [|y d]; [exists (x :: l1); by rewrite E|]. injection E as _ E. by apply (IH d).
Qed.

(** C9. The feed of a thread has no gaps. Whatever a worker has published, in
    order, from a version on, a client that asks what is new since a version is
    told to start afresh, or is given the changes of exactly the publications
    since that version, in order, up to the current one. It is told to start
    afresh only where its version is not one that was published, where one of
    those publications needs it, or where they are more than 64 or over a
    mebibyte; and no more than that is ever retained. *)
Theorem changes_continuous v cs w0 s id after epoch o :
  ranges w0 = [] -> rangeBytes w0 = 0 -> is_Some (query w0) -> (sn_State (snapshot w0) = StateUsable -> sn_Version (snapshot w0) = v) ->
  following v cs -> let w := publish_all cs w0 in
  workers s !! id = Some w -> retiring w = false -> sn_State (snapshot w) = StateUsable -> epoch = sn_Epoch (snapshot w) ->
  change_poll s id epoch after = Some o ->
  (BaselineRequired o = false -> exists cs1 cs2, cs = cs1 ++ cs2 /\ reached v cs1 = after /\ Forall is_change (batches cs2)
     /\ Changes o = all_changes (batches cs2) /\ ob_FromVersion o = after /\ sn_Version (ob_Snapshot o) = reached v cs)
  /\ (forall cs1 cs2, cs = cs1 ++ cs2 -> reached v cs1 = after -> Forall is_change (batches cs2) -> fits (batches cs2) -> BaselineRequired o = false)
  /\ fits (ranges w).
Proof.
  intros E1 E2 Hq Hv Hf w Hw Hret Hst -> Hpoll.
  assert (published_by v cs w) as [[[d Hd] Hfit Hmost] _ Hver _].
  { apply publish_all_spec; [done|]. constructor; [|by rewrite E1, E2|intros [?|?]; [done|by apply Hv]|done]. rewrite E1. constructor; [by exists []|split; cbn; unfold maxChangeBatches, maxChangeBytes; lia|].
    intros [|] l' E _; [cbn in E; by subst|done]. }
  specialize (Hver (or_intror Hst)). pose proof (batches_chain _ _ Hf) as Hc. rewrite Hd in Hc. apply chain_app in Hc as (u & Hu & Hc).
  unfold change_poll in Hpoll. rewrite Hw, Hret, Hst, !bool_decide_eq_true_2, bool_decide_eq_false_2 in Hpoll by (done || by intros []). cbn [negb orb] in Hpoll. rewrite Hver in Hpoll.
  assert (forall cs1 cs2, cs = cs1 ++ cs2 -> reached v cs1 <= reached v cs /\ chain v (batches cs1) (reached v cs1) /\ chain (reached v cs1) (batches cs2) (reached v cs)) as Hsplit.
  { intros cs1 cs2 E. rewrite E in Hf. apply following_app in Hf as [F1 F2]. apply batches_chain in F1, F2.
    assert (reached (reached v cs1) cs2 = reached v cs) as Er by (rewrite E; unfold reached; rewrite last_app; by destruct (last cs2)). rewrite Er in F2. split; [by eapply chain_le|done]. }
  destruct (Z.ltb_spec (reached v cs) after) as [Hlt|Hge].
  - injection Hpoll as <-. split; [done|]. split; [|done]. intros cs1 cs2 E Ha _ _. destruct (Hsplit _ _ E) as (? & _). lia.
  - destruct (Z.eqb_spec after (reached v cs)) as [|Hne]; [done|]. pose proof (take_batches_spec u (ranges w) (reached v cs) after Hc) as Ht. destruct (take_batches (ranges w) after) as [[changes cur] b].
    injection Hpoll as <-. cbn [BaselineRequired Changes ob_FromVersion ob_Snapshot]. split; [|split; [|done]].
    + intros Hb. pose proof (proj1 Ht Hb) as (l1 & l2 & E & H1 & H2 & H3 & ->). rewrite Hb. destruct (batches_split cs (d ++ l1) l2) as (cs1 & cs2 & Ec & B1 & B2); [by rewrite Hd, E, app_assoc|].
      exists cs1, cs2. split; [done|]. split; [|by rewrite B2]. destruct (Hsplit _ _ Ec) as (_ & C1 & _). rewrite B1 in C1. eapply chain_unique; [exact C1|]. apply chain_app. eauto.
    + intros cs1 cs2 Ec Ea H3 H4. destruct (Hsplit _ _ Ec) as (_ & C1 & C2). rewrite Ea in C1, C2. rewrite Ec, batches_app in Hd, Hmost. specialize (Hmost _ _ eq_refl H4).
      assert (exists e, ranges w = e ++ batches cs2) as [e He].
      { by eapply suffix_longer. }
      apply (proj2 Ht e (batches cs2) He); [|done..]. assert (chain v ((d ++ e) ++ batches cs2) (reached v cs)) as Hall.
      { rewrite <- app_assoc, <- He, <- Hd, <- batches_app, <- Ec. by apply batches_chain. }
      rewrite He in Hc. apply chain_app in Hc as (u' & Hu' & Hc'). assert (batches cs1 = d ++ e) as Eb by (rewrite He, app_assoc in Hd; by apply app_inv_tail in Hd).
      rewrite Eb in C1. apply chain_app in C1 as (u2 & Hu2 & C1). by rewrite (chain_unique _ _ _ _ Hu Hu2).
Qed.

End ThreadFeed.
