(* ===== verification/ThreadInit.v ===== *)
(** * The first index of a worker is exact

    [initialPublicationIndex] builds its trees in passes that leave them, for a
    while, with rows older than those looked up: in the end they agree. *)
From Stdlib Require Import ZArith Lia.
From stdpp Require Import prelude gmap strings list sorting.
From S2P Require Import Prelude ThreadIndex ThreadTree ThreadIndexInv ThreadAdvance ThreadActivity ThreadQuery ThreadStore.

Module ThreadInit.
Import ThreadIndex ThreadTree ThreadIndexInv ThreadAdvance ThreadActivity ThreadQuery ThreadStore.

Local Open Scope Z_scope.

(** ** Half-prepared indexes *)

(** Rows that only differ in touch and recipe. *)
Definition same_row (r r' : queryRow) : Prop := item r = item r' /\ header r = header r' /\ activeBranch r = activeBranch r'.

(** Rows are looked up in [M]; all trees but [touched] are still of [S]. *)
Record half (q : queryIndex) (S M : rowmap) : Prop := Half {
  hf_lookup : forall id, lookup q id = M !! id;
  hf_id : forall id r, M !! id = Some r -> rid r = id;
  hf_ordered : tree_of in_ordered S (ordered q);
  hf_active : tree_of in_active S (active q);
  hf_touched : tree_of in_touched M (touched q);
  hf_children : tree_of in_children S (children q);
  hf_roots : tree_of in_roots S (roots q);
  hf_activeRoots : tree_of in_activeRoots S (activeRoots q);
  hf_activeBranches : tree_of in_activeBranches S (activeBranches q);
  hf_rootTouches : tree_of in_rootTouches S (rootTouches q);
  hf_invalid : invalidTouches q = untouched M;
  hf_same : forall id, match S !! id, M !! id with Some r, Some r' => same_row r r' | None, None => True | _, _ => False end;
}.

Lemma half_represents q M : half q M M <-> represents q M.
Proof.
  split; [intros [H1 H2 T1 T2 T3 T4 T5 T6 T7 T8 H3 _]; by constructor|]. intros [H1 H2 T1 T2 T3 T4 T5 T6 T7 T8 H3]. constructor; try done. intros id. by destruct (M !! id).
Qed.

Lemma half_items q S M : half q S M -> same_items S M.
Proof. intros H id. pose proof (hf_same _ _ _ H id) as Hs. destruct (S !! id), (M !! id); try done. destruct Hs as [E _]. cbn. by rewrite E. Qed.

Lemma tree_del_same f S t row row' :
  (forall r r', same_row r r' -> f r = f r') -> tree_of f S t -> S !! rid row = Some row' -> same_row row' row ->
  tree_of f (delete (rid row) S) (put_at (f row) (rid row) None t).
Proof.
  intros Hf Ht HS Hs. pose proof Hs as (E & _). assert (rid row' = rid row) as Er by (unfold rid; by rewrite E). rewrite <- (Hf _ _ Hs), <- Er. apply tree_del; [done|]. by rewrite Er.
Qed.

(** Taking a row out of a half-prepared index. *)
Lemma half_del q S M row : half q S M -> M !! rid row = Some row -> half (membership row true q) (delete (rid row) S) (delete (rid row) M).
Proof.
  intros [H1 H2 T1 T2 T3 T4 T5 T6 T7 T8 H3 Hs] HM. destruct (membership_trees row true q) as (E1 & E2 & E3 & E4 & E5 & E6 & E7 & E8).
  pose proof (Hs (rid row)) as Hr. rewrite HM in Hr. destruct (S !! rid row) as [row'|] eqn:HS; [|done].
  constructor; rewrite ?E1, ?E2, ?E3, ?E4, ?E5, ?E6, ?E7, ?E8; try (by apply tree_del); try (eapply tree_del_same; [|done|done|done]; intros r r' (A1 & A2 & A3)).
  - intros id. unfold lookup, membership. cbn [byID]. rewrite lookup_put. change (ID (item row)) with (rid row).
    destruct (decide (id = rid row)) as [->|Hne]; [by rewrite lookup_delete_eq|]. rewrite lookup_delete_ne by done. apply H1.
  - intros id r [_ Hr']%lookup_delete_Some. by apply H2.
  - unfold in_ordered. by rewrite A1.
  - unfold in_active, rid. by rewrite A1.
  - unfold in_children. by rewrite A1.
  - unfold in_roots. by rewrite A1.
  - unfold in_activeRoots, rid. by rewrite A1, A3.
  - unfold in_activeBranches. by rewrite A1, A3.
  - unfold in_rootTouches. by rewrite A1, A2.
  - unfold membership, untouched. cbn [invalidTouches]. rewrite map_filter_delete. destruct (Z.eqb_spec (touch row) 0) as [Ht|Ht].
    + rewrite map_size_delete_Some; [|exists row; by apply map_lookup_filter_Some]. rewrite H3. unfold untouched.
      assert (size (filter (fun x => touch x.2 = 0) M) <> 0%nat); [|lia]. apply map_size_ne_0_lookup. exists (rid row), row. by apply map_lookup_filter_Some.
    + rewrite delete_id; [done|]. apply map_lookup_filter_None. right. intros r Hr'. cbn. congruence.
  - intros id. destruct (decide (id = rid row)) as [->|Hne]; [by rewrite !lookup_delete_eq|]. rewrite !lookup_delete_ne by done. apply Hs.
Qed.

(** Putting one in. *)
Lemma half_put q S M row : half q S M -> M !! rid row = None -> half (membership row false q) (<[rid row := row]> S) (<[rid row := row]> M).
Proof.
  intros [H1 H2 T1 T2 T3 T4 T5 T6 T7 T8 H3 Hs] HM. destruct (membership_trees row false q) as (E1 & E2 & E3 & E4 & E5 & E6 & E7 & E8).
  pose proof (Hs (rid row)) as Hr. rewrite HM in Hr. destruct (S !! rid row) as [row'|] eqn:HS; [done|].
  constructor; rewrite ?E1, ?E2, ?E3, ?E4, ?E5, ?E6, ?E7, ?E8; try (by apply tree_put).
  - intros id. unfold lookup, membership. cbn [byID]. rewrite lookup_put. change (ID (item row)) with (rid row).
    destruct (decide (id = rid row)) as [->|Hne]; [by rewrite lookup_insert_eq|]. rewrite lookup_insert_ne by done. apply H1.
  - intros id r [[<- <-]|[_ Hr']]%lookup_insert_Some; [done|by apply H2].
  - unfold membership, untouched. cbn [invalidTouches]. destruct (Z.eqb_spec (touch row) 0) as [Ht|Ht].
    + rewrite map_filter_insert_True by done. rewrite map_size_insert_None; [rewrite H3; unfold untouched; lia|]. apply map_lookup_filter_None. by left.
    + rewrite map_filter_insert_False by done. by rewrite delete_id.
  - intros id. destruct (decide (id = rid row)) as [->|Hne]; [by rewrite !lookup_insert_eq|]. rewrite !lookup_insert_ne by done. apply Hs.
Qed.

(** [refreshHeader] with a row that may have a new header. *)
Lemma half_refresh q S M v id stored row :
  half q S M -> wf M -> M !! id = Some stored -> item row = item stored ->
  half (refreshHeader row v q) (<[id := refreshed v M row]> S) (<[id := refreshed v M row]> M).
Proof.
  intros Hq HM Hst Ei. destruct (HM _ _ Hst) as [E _]. assert (rid row = id) as Er by (unfold rid in *; by rewrite Ei). unfold refreshHeader. change (ID (item row)) with (rid row). rewrite Er, (hf_lookup _ _ _ Hq), Hst.
  assert (half (membership stored true q) (delete id S) (delete id M)) as Hd by (rewrite <- E; by apply half_del; rewrite ?E).
  assert (group_size (children (membership stored true q)) id = kids M id) as ->.
  { rewrite (group_size_spec in_children (delete id S)); [|by apply Hd|].
    - change (group_of in_children (delete id S) id) with (kids (delete id S) id). rewrite kids_delete by (eapply wf_same; [symmetry; by eapply half_items|done]). apply kids_same. by eapply half_items.
    - intros j x [_ Hx]%lookup_delete_Some. apply (wf_keys S); [eapply wf_same; [symmetry; by eapply half_items|done]|done]. }
  pose proof (half_put _ _ _ (refreshed v M row) Hd) as Hp. change (rid (refreshed v M row)) with (rid row) in Hp. rewrite Er, !insert_delete_eq, lookup_delete_eq in Hp.
  specialize (Hp eq_refl). unfold refreshed in Hp |- *. by rewrite Er in Hp |- *.
Qed.

(** ** Passes over the items *)

(** A pass that refreshes each item's header, changed by [g], at [v]. *)
Definition refresh_pass (g : queryRow -> queryRow) (v : Item -> Z) (items : list Item) (q : queryIndex) : queryIndex :=
  foldl (fun q i => match lookup q (ID i) with Some row => refreshHeader (g row) (v i) q | None => q end) q items.

(** What a pass leaves of a row. *)
Definition same_content (M M' : rowmap) : Prop :=
  forall id, match M !! id, M' !! id with Some r, Some r' => item r' = item r /\ touch r' = touch r /\ activeBranch r' = activeBranch r | None, None => True | _, _ => False end.

#[export] Instance same_content_pre : PreOrder same_content.
Proof.
  split; [intros M id; by destruct (M !! id)|]. intros M N P H1 H2 id. specialize (H1 id). specialize (H2 id).
  destruct (M !! id), (N !! id), (P !! id); try done. destruct H1 as (? & ? & ?), H2 as (? & ? & ?). split_and!; congruence.
Qed.

Lemma same_content_items M M' : same_content M M' -> same_items M M'.
Proof. intros H id. specialize (H id). destruct (M !! id), (M' !! id); try done. destruct H as [E _]. cbn. by rewrite E. Qed.

Lemma refresh_pass_spec g v items q S M :
  (forall r, item (g r) = item r /\ touch (g r) = touch r /\ activeBranch (g r) = activeBranch r) ->
  half q S M -> wf M ->
  exists S' M', half (refresh_pass g v items q) S' M' /\ same_content M M'
    /\ (forall id, S !! id = M !! id \/ id ∈ ID <$> items -> S' !! id = M' !! id)
    /\ (forall id r, (forall r0, M !! id = Some r0 -> childCount (header r0) = u64 (kids M id)) \/ id ∈ ID <$> items -> M' !! id = Some r -> childCount (header r) = u64 (kids M' id)).
Proof.
  intros Hg. revert q S M. induction items as [|i items IH]; intros q S M Hq HM.
  - exists S, M. split; [done|]. split; [done|]. split; [by intros id [?|?%not_elem_of_nil]|]. intros id r [H|?%not_elem_of_nil] Hr; [by apply H|done].
  - unfold refresh_pass. cbn [foldl]. fold (refresh_pass g v items). rewrite (hf_lookup _ _ _ Hq). destruct (M !! ID i) as [row|] eqn:Hi.
    + destruct (Hg row) as (G1 & G2 & G3). pose proof (half_refresh q S M (v i) (ID i) row (g row) Hq HM Hi G1) as Hq1. set (new := refreshed (v i) M (g row)) in *.
      assert (same_content M (<[ID i := new]> M)) as Hc.
      { intros id. destruct (decide (id = ID i)) as [->|Hne]; [rewrite lookup_insert_eq, Hi; done|rewrite lookup_insert_ne by done; by destruct (M !! id)]. }
      destruct (IH _ _ _ Hq1) as (S' & M' & I1 & I2 & I3 & I4); [eapply wf_same; [by apply same_content_items|done]|]. exists S', M'. split; [done|]. split; [by etransitivity|]. split.
      * intros id Hid. apply I3. destruct (decide (id = ID i)) as [->|Hne]; [left; by rewrite !lookup_insert_eq|]. rewrite !lookup_insert_ne by done.
        destruct Hid as [?|[?|?]%elem_of_cons]; auto. done.
      * intros id r Hid. apply I4. destruct (decide (id = ID i)) as [->|Hne].
        -- left. intros r0. rewrite lookup_insert_eq. intros [= <-]. cbn. destruct (HM _ _ Hi) as [E _]. unfold rid in *. rewrite G1, E. f_equal. by apply kids_same, same_content_items.
        -- destruct Hid as [Hid|[?|?]%elem_of_cons]; [left|done|by right]. intros r0. rewrite lookup_insert_ne by done. intros Hr0. rewrite (Hid _ Hr0). f_equal. by apply kids_same, same_content_items.
    + destruct (IH _ _ _ Hq HM) as (S' & M' & I1 & I2 & I3 & I4). exists S', M'. split; [done|]. split; [done|]. split.
      * intros id [?|[->|?]%elem_of_cons]; apply I3; auto. left. pose proof (hf_same _ _ _ Hq (ID i)) as Hs. rewrite Hi in Hs |- *. by destruct (S !! ID i).
      * intros id r [?|[->|?]%elem_of_cons]; apply I4; auto. left. intros r0 Hr0. congruence.
Qed.

(** ** The passes of the first index *)

Record items_ok (items : list Item) (f : Fold) : Prop := ItemsOk {
  io_NoDup : NoDup (ID <$> items);
  io_wf : Forall wf_item items;
  io_touch : forall i, i ∈ items -> touch_of f (ID i) <= f_version f;
}.

Lemma lookup_empty_index id : lookup empty_index id = None.
Proof. unfold lookup, empty_index. cbn. by rewrite lookup_empty. Qed.

Lemma tree_of_empty f : tree_of f ∅ Nil.
Proof. constructor; cbn; [done|constructor|]. intros e. split; [by intros ?%not_elem_of_nil|]. intros (r & g & k & H & _). by rewrite lookup_empty in H. Qed.

Lemma empty_index_represents : represents empty_index ∅.
Proof. constructor; try apply tree_of_empty; [by intros id; rewrite lookup_empty_index, lookup_empty|by intros id r; rewrite lookup_empty|done]. Qed.

(** The rows the first pass puts in. *)
Definition first_rows (items : list Item) : rowmap := list_to_map ((fun i => (ID i, MkRow i 0 no_recipe (prepareChildHeader i) false)) <$> items).

Lemma first_rows_lookup items id r :
  NoDup (ID <$> items) -> first_rows items !! id = Some r <-> exists i, i ∈ items /\ ID i = id /\ r = MkRow i 0 no_recipe (prepareChildHeader i) false.
Proof.
  intros HN. unfold first_rows. rewrite <- elem_of_list_to_map; [|by rewrite <- list_fmap_compose]. rewrite list_elem_of_fmap. split.
  - intros (i & [= -> ->] & Hi). eauto.
  - intros (i & Hi & <- & ->). eauto.
Qed.

Lemma first_pass items : NoDup (ID <$> items) ->
  represents (foldl (fun q i => membership (MkRow i 0 no_recipe (prepareChildHeader i) false) false q) empty_index items) (first_rows items).
Proof.
  induction items as [|i items IH] using rev_ind; intros HN; [apply empty_index_represents|]. rewrite foldl_snoc. rewrite fmap_app in HN. apply NoDup_app in HN as (HN & Hi & _).
  set (row := MkRow i 0 no_recipe (prepareChildHeader i) false). assert (first_rows (items ++ [i]) = <[rid row := row]> (first_rows items)) as ->.
  { unfold first_rows. rewrite fmap_app, list_to_map_app. cbn. rewrite insert_empty, <- (insert_union_singleton_r). 
    - done.
    - apply not_elem_of_list_to_map. rewrite <- list_fmap_compose. intros Hin. apply (Hi (ID i)); [done|]. by apply list_elem_of_singleton. }
  apply membership_put; [by apply IH|]. apply not_elem_of_list_to_map. rewrite <- list_fmap_compose. intros Hin. apply (Hi (ID i)); [done|]. by apply list_elem_of_singleton.
Qed.

Definition prepared (f : Fold) (r : queryRow) : queryRow := MkRow (item r) (touch_of f (rid r)) (recipe_of f (rid r)) (header r) (activeBranch r).

(** The rows the walk over the buckets has come to. *)
Definition come_to (f : Fold) (P : gset Z) (M : rowmap) : rowmap := prepared f <$> filter (fun x => x.1 ∈ P) M.

Lemma come_to_lookup f P M id : come_to f P M !! id = if decide (id ∈ P) then prepared f <$> M !! id else None.
Proof.
  unfold come_to. rewrite lookup_fmap. destruct (decide (id ∈ P)) as [Hp|Hp].
  - f_equal. apply option_eq. intros r. rewrite map_lookup_filter_Some. cbn. tauto.
  - assert (filter (fun x => x.1 ∈ P) M !! id = None) as ->; [|done]. apply map_lookup_filter_None. right. by intros r _.
Qed.

Record preparing (f : Fold) (q : queryIndex) (M : rowmap) (P : gset Z) : Prop := Preparing {
  pr_lookup : forall id, lookup q id = if decide (id ∈ P) then prepared f <$> M !! id else M !! id;
  pr_ordered : tree_of in_ordered M (ordered q);
  pr_active : tree_of in_active M (active q);
  pr_touched : tree_of in_touched (come_to f P M) (touched q);
  pr_children : tree_of in_children M (children q);
  pr_roots : tree_of in_roots M (roots q);
  pr_activeRoots : tree_of in_activeRoots M (activeRoots q);
  pr_activeBranches : tree_of in_activeBranches M (activeBranches q);
  pr_rootTouches : tree_of in_rootTouches M (rootTouches q);
  pr_invalid : invalidTouches q = untouched (come_to f P M);
}.

Lemma prepare_row_spec f q M P id :
  (forall id r, M !! id = Some r -> rid r = id /\ touch_of f id <= f_version f) ->
  preparing f q M P -> id ∉ P -> is_Some (M !! id) -> preparing f (prepare_row f q id) M ({[id]} ∪ P).
Proof.
  intros HM [H1 T1 T2 T3 T4 T5 T6 T7 T8 H2] Hid [r Hr]. destruct (HM _ _ Hr) as [E Hv]. unfold prepare_row. rewrite H1, decide_False, Hr by done.
  change (ID (item r)) with (rid r) in *. assert (MkRow (item r) (touch_of f id) (recipe_of f id) (header r) (activeBranch r) = prepared f r) as -> by (unfold prepared; by rewrite E).
  assert (come_to f ({[id]} ∪ P) M = <[rid (prepared f r) := prepared f r]> (come_to f P M)) as Ec.
  { change (rid (prepared f r)) with (rid r). rewrite E. apply map_eq. intros j. rewrite come_to_lookup. destruct (decide (j = id)) as [->|Hne].
    - rewrite lookup_insert_eq, decide_True, Hr by set_solver. done.
    - rewrite lookup_insert_ne, come_to_lookup by done. apply decide_ext. set_solver. }
  assert (come_to f P M !! rid (prepared f r) = None) as Hno by (change (rid (prepared f r)) with (rid r); rewrite E, come_to_lookup; by rewrite decide_False).
  constructor; try done.
  - intros j. unfold lookup, set_touched. cbn [byID]. rewrite lookup_put. destruct (decide (j = id)) as [->|Hne].
    + rewrite decide_True, Hr by set_solver. done.
    + change (lookup q j = if decide (j ∈ {[id]} ∪ P) then prepared f <$> M !! j else M !! j). rewrite H1. apply decide_ext. set_solver.
  - cbn [set_touched touched]. rewrite Ec. change (treePut (touched q) (touch (prepared f r)) id (Some (prepared f r))) with (treePutGroup (touched q) 0 (touch (prepared f r)) id (Some (prepared f r))).
    pose proof (tree_put in_touched (come_to f P M) (touched q) (prepared f r) T3 Hno) as Hp. cbn [put_at in_touched] in Hp. change (rid (prepared f r)) with (rid r) in Hp |- *. rewrite E in Hp |- *. exact Hp.
  - cbn [set_touched invalidTouches]. rewrite Ec. unfold untouched. cbn [touch prepared]. rewrite E. rewrite (proj2 (Z.ltb_ge (f_version f) (touch_of f id))), orb_false_r by lia.
    destruct (Z.eqb_spec (touch_of f id) 0) as [Ht|Ht].
    + rewrite map_filter_insert_True by (cbn; by rewrite E). rewrite map_size_insert_None; [rewrite H2; unfold untouched; lia|]. apply map_lookup_filter_None. by left.
    + rewrite map_filter_insert_False by (cbn; by rewrite E). by rewrite delete_id by done.
Qed.

Lemma prepareCatchUp_spec f order ids q M :
  (forall id r, M !! id = Some r -> rid r = id /\ touch_of f id <= f_version f) -> represents q M -> (forall id, id ∈ ids <-> is_Some (M !! id)) ->
  half (prepareCatchUp f order ids q) M (prepared f <$> M).
Proof.
  intros HM [H1 H2 T1 T2 T3 T4 T5 T6 T7 T8 H3] Hids. unfold prepareCatchUp. destruct (range_spec order ids) as [HN HW]. set (l := walk order ids) in *.
  assert (forall P q', NoDup l -> (forall id, id ∈ l -> id ∉ P /\ is_Some (M !! id)) -> preparing f q' M P -> preparing f (foldl (prepare_row f) q' l) M (list_to_set l ∪ P)) as Hfold.
  { clear HN HW. induction l as [|id l IH]; intros P q' HN Hl Hq'; cbn [foldl list_to_set]; [by rewrite union_empty_l_L|]. apply NoDup_cons in HN as [Hid HN].
    rewrite <- union_assoc_L, (union_comm_L {[id]}), <- union_assoc_L, (union_comm_L P). apply IH; [done| |].
    - intros j Hj. destruct (Hl j ltac:(by right)) as [? ?]. split; [|done]. intros [->%elem_of_singleton|?]%elem_of_union; done.
    - destruct (Hl id ltac:(by left)). by apply prepare_row_spec. }
  assert (preparing f (foldl (prepare_row f) (set_touched (byID q) Nil 0 q) l) M (list_to_set l ∪ ∅)) as [R1 U1 U2 U3 U4 U5 U6 U7 U8 R2].
  { apply Hfold; [done|intros id Hid; split; [set_solver|by apply Hids, HW]|]. assert (come_to f ∅ M = ∅) as Ee by (apply map_eq; intros id; by rewrite come_to_lookup, decide_False, lookup_empty by set_solver).
    constructor; try done; [rewrite Ee; apply tree_of_empty|by rewrite Ee]. }
  assert (come_to f (list_to_set l ∪ ∅) M = prepared f <$> M) as Ec.
  { apply map_eq. intros id. rewrite come_to_lookup, lookup_fmap. destruct (decide _) as [Hd|Hd]; [done|]. destruct (M !! id) eqn:E; [|done]. destruct Hd. apply elem_of_union. left. apply elem_of_list_to_set, HW, Hids. by rewrite E. }
  rewrite Ec in *. constructor; try done.
  - intros id. change (lookup (foldl (prepare_row f) (set_touched (byID q) Nil 0 q) l) id = (prepared f <$> M) !! id). rewrite R1, lookup_fmap. destruct (decide _) as [Hd|Hd]; [done|].
    destruct (M !! id) eqn:E; [|done]. destruct Hd. apply elem_of_union. left. apply elem_of_list_to_set, HW, Hids. by rewrite E.
  - intros id r. rewrite lookup_fmap. destruct (M !! id) as [r0|] eqn:E; [|done]. intros [= <-]. exact (H2 _ _ E).
  - intros id. rewrite lookup_fmap. destruct (M !! id); [by repeat split|done].
Qed.

(** ** The first index *)

Lemma half_all q S M (items : list Item) :
  half q S M -> (forall id, is_Some (M !! id) -> id ∈ ID <$> items) -> (forall id, id ∈ ID <$> items -> S !! id = M !! id) -> represents q M.
Proof.
  intros H Hdom Hs. assert (S = M) as ->; [|by apply half_represents]. apply map_eq. intros id. destruct (decide (id ∈ ID <$> items)) as [Hid|Hid]; [by apply Hs|].
  pose proof (hf_same _ _ _ H id) as Hsame. destruct (M !! id) eqn:E; [destruct Hid; apply Hdom; by rewrite E|by destruct (S !! id)].
Qed.

Lemma newPublicationIndex_spec items f order :
  items_ok items f -> exists M, represents (newPublicationIndex items order) M /\ same_items (first_rows items) M
    /\ forall id r, M !! id = Some r -> activeBranch r = true <-> live M id.
Proof.
  intros [HN Hwf _]. rewrite Forall_forall in Hwf. assert (wf (first_rows items)) as HR by (intros id r (i & Hi & <- & ->)%first_rows_lookup; [split; [done|by apply Hwf]|done]).
  assert (forall id, is_Some (first_rows items !! id) -> id ∈ ID <$> items) as Hdom by (intros id [r (i & Hi & <- & _)%first_rows_lookup]; [by apply list_elem_of_fmap_2|done]).
  destruct (refresh_pass_spec (fun r => r) Rev items _ _ _ ltac:(done) (proj2 (half_represents _ _) (first_pass items HN)) HR) as (S' & M' & H1 & H2 & H3 & _).
  assert (represents (refresh_pass (fun r => r) Rev items (foldl (fun q i => membership (MkRow i 0 no_recipe (prepareChildHeader i) false) false q) empty_index items)) M') as Hq.
  { eapply half_all; [done| |by auto]. intros id [r Hr]. apply Hdom. specialize (H2 id). rewrite Hr in H2. by destruct (first_rows items !! id). }
  pose proof (same_content_items _ _ H2) as Hi. unfold newPublicationIndex. fold (refresh_pass (fun r => r) Rev items (foldl (fun q i => membership (MkRow i 0 no_recipe (prepareChildHeader i) false) false q) empty_index items)).
  destruct (refresh_activity_spec _ M' order (list_to_set (ID <$> items)) Hq) as (M & HM & Hs & Hl).
  - by eapply wf_same.
  - intros id r Hr Hid. destruct Hid. apply elem_of_list_to_set, Hdom. specialize (H2 id). rewrite Hr in H2. by destruct (first_rows items !! id).
  - exists M. split; [done|]. split; [etransitivity; [done|by apply same_but_items]|]. intros id r Hr. rewrite (Hl id r Hr). split; apply live_same; [|symmetry]; by apply same_but_items.
Qed.

Lemma initial_header_same f headers r : item (initial_header f headers r) = item r /\ touch (initial_header f headers r) = touch r /\ activeBranch (initial_header f headers r) = activeBranch r.
Proof. done. Qed.

(** The first index is exact for the public items, with the fold's touches. *)
Lemma initial_spec items f headers orders :
  items_ok items f -> exists M, exact (initialPublicationIndex items f headers orders) M
    /\ (forall i, i ∈ items <-> exists r, M !! ID i = Some r /\ item r = i) /\ (forall id r, M !! id = Some r -> touch r = touch_of f id).
Proof.
  intros Hok. destruct (newPublicationIndex_spec items f orders.1 Hok) as (M1 & H1 & Hsame & Hbr). pose proof Hok as [HN Hwf Htouch]. rewrite Forall_forall in Hwf.
  assert (forall id, is_Some (M1 !! id) <-> id ∈ ID <$> items) as Hdom.
  { intros id. specialize (Hsame id). split.
    - intros [r Hr]. rewrite Hr in Hsame. destruct (first_rows items !! id) as [r0|] eqn:E; [|done]. apply first_rows_lookup in E as (i & Hi & <- & _); [|done]. by apply list_elem_of_fmap_2.
    - intros (i & -> & Hi)%list_elem_of_fmap. assert (first_rows items !! ID i = Some (MkRow i 0 no_recipe (prepareChildHeader i) false)) as E by (apply first_rows_lookup; eauto). rewrite E in Hsame. by destruct (M1 !! ID i). }
  assert (wf M1) as HM1.
  { eapply wf_same; [exact Hsame|]. intros id r (i & Hi & <- & ->)%first_rows_lookup; [split; [done|by apply Hwf]|done]. }
  assert (half (prepareCatchUp f orders.2 (list_to_set (ID <$> items)) (newPublicationIndex items orders.1)) M1 (prepared f <$> M1)) as H2.
  { apply prepareCatchUp_spec; [|done|intros id; rewrite elem_of_list_to_set; symmetry; apply Hdom]. intros id r Hr. split; [by destruct (HM1 _ _ Hr)|].
    pose proof (proj1 (Hdom id) (mk_is_Some _ _ Hr)) as (i & -> & Hi)%list_elem_of_fmap. by apply Htouch. }
  set (q2 := prepareCatchUp _ _ _ _) in *.
  assert (same_items M1 (prepared f <$> M1)) as Hi2 by (intros id; rewrite lookup_fmap; by destruct (M1 !! id)).
  destruct (refresh_pass_spec (initial_header f headers) (fun _ => f_version f) items q2 M1 (prepared f <$> M1) (initial_header_same f headers) H2 ltac:(by eapply wf_same)) as (S & M & H3 & Hc & HS & Hcount).
  assert (same_items M1 M) as HM by (etransitivity; [done|by apply same_content_items]).
  assert (forall id r, M !! id = Some r -> exists r1, M1 !! id = Some r1 /\ item r = item r1 /\ activeBranch r = activeBranch r1 /\ touch r = touch_of f id) as Hrow.
  { intros id r Hr. specialize (Hc id). rewrite Hr, lookup_fmap in Hc. destruct (M1 !! id) as [r1|] eqn:E1; [|done]. destruct Hc as (E2 & E3 & E4). cbn in *. destruct (HM1 _ _ E1) as [Eid _]. rewrite Eid in E3. eauto. }
  exists M. split; [|split].
  - constructor.
    + assert (represents (refresh_pass (initial_header f headers) (fun _ => f_version f) items q2) M) as [A1 A2 T1 T2 T3 T4 T5 T6 T7 T8 A3]; [|by constructor].
      eapply half_all; [done| |intros id Hid; apply HS; by right]. intros id [r Hr]. apply Hdom. destruct (Hrow _ _ Hr) as (r1 & -> & _). done.
    + by eapply wf_same.
    + intros id r Hr. apply (Hcount id r); [|done]. right. apply Hdom. destruct (Hrow _ _ Hr) as (r1 & -> & _). done.
    + intros id r Hr. destruct (Hrow _ _ Hr) as (r1 & Hr1 & _ & -> & _). rewrite (Hbr id r1 Hr1). split; by apply live_same.
  - intros i. split.
    + intros Hin. assert (first_rows items !! ID i = Some (MkRow i 0 no_recipe (prepareChildHeader i) false)) as E by (apply first_rows_lookup; eauto).
      destruct (same_items_lookup (first_rows items) M (ID i) _ ltac:(by etransitivity) E) as (r & Hr & Er). exists r. by rewrite Er.
    + intros (r & Hr & <-). destruct (same_items_lookup M (first_rows items) _ r ltac:(symmetry; by etransitivity) Hr) as (r0 & Hr0 & E). apply first_rows_lookup in Hr0 as (i & Hi & _ & ->); [|done]. cbn in E. by rewrite <- E.
  - intros id r Hr. by destruct (Hrow _ _ Hr) as (_ & _ & _ & _ & ?).
Qed.

End ThreadInit.
