(* ===== verification/ThreadStoreInv.v ===== *)
(** * The store of threads: what holds of every state

    The steps of the store, in any order: a usable worker has an exact index of
    its version, and nothing of a retired one is left to read. *)
From Stdlib Require Import ZArith Lia.
From stdpp Require Import prelude gmap strings list relations.
From S2P Require Import Prelude Conversations ThreadIndex ThreadTree ThreadIndexInv ThreadAdvance ThreadPublish ThreadQuery ThreadStore ThreadInit.

Module ThreadStoreInv.
Import ThreadIndex ThreadIndexInv ThreadAdvance ThreadPublish ThreadQuery ThreadStore ThreadInit.

Local Open Scope Z_scope.

(** A capture of the fold: rows with their ids, parents older than children,
    each once, touched by the version at the latest. *)
Record capture_ok (c : capture) : Prop := CaptureOk {
  co_items : items_ok (c_items c) (c_fold c);
  co_affected : forall id i, (id, Some i) ∈ c_affected c -> ID i = id /\ wf_item i;
  co_state : sn_State (ob_Snapshot (c_changes c)) = StateUsable;
  co_version : sn_Version (ob_Snapshot (c_changes c)) = f_version (c_fold c);
}.

(** What can happen next to a store. *)
Inductive store_step : Store -> Store -> Prop :=
| step_start id retry canceled n s : store_step s (start id retry canceled n s).2
(* [run] restores before it first publishes *)
| step_restore id n items f orders s :
    items_ok items f -> (forall w, workers s !! id = Some w -> wid w = n -> sn_State (snapshot w) <> StateUsable) -> store_step s (restore id n items f orders s)
| step_feed id n s : store_step s (feed_chunk id n s)
| step_publish id n c s : capture_ok c -> store_step s (publish id n c s)
| step_withdraw id n done s : store_step s (withdraw id n done s)
| step_cancel id n s : store_step s (with_worker id n (fun _ => true) cancel s)
| step_exit id n s : store_step s (run_exit id n s)
| step_unload_begin id epoch version conditional s : store_step s (unload_begin id epoch version conditional s).2
| step_unload_end id n s : store_step s (unload_end id n s)
| step_shutdown_begin s : store_step s (shutdown_begin s)
| step_shutdown_end s : closed s = true -> store_step s (shutdown_end s).

Definition empty_store : Store := MkStore false ∅.
Definition reachable (s : Store) : Prop := rtc store_step empty_store s.

Definition indexed_by (w : conversationWorker) : Prop :=
  sn_State (snapshot w) = StateUsable -> exists q M, query w = Some q /\ exact q M /\ coveredThrough q = sn_Version (snapshot w).

Record worker_ok (cl : bool) (w : conversationWorker) : Prop := WorkerOk {
  wo_usable : indexed_by w;
  wo_query : forall q, query w = Some q -> exists M, exact q M;
  wo_retired : retiring w = true -> snapshot w = zero_Snapshot /\ query w = None /\ ranges w = [] /\ canceled w = true;
  wo_closed : cl = true -> retiring w = true;
  wo_ranges : rangeBytes w = foldr (fun b n => bytes b + n) 0 (ranges w);
}.

Definition store_ok (s : Store) : Prop := forall id w, workers s !! id = Some w -> worker_ok (closed s) w.

Lemma with_worker_ok id n p f s :
  store_ok s -> (forall w, worker_ok (closed s) w -> p w = true -> worker_ok (closed s) (f w)) -> store_ok (with_worker id n p f s).
Proof.
  intros Hs Hf. unfold with_worker. destruct (workers s !! id) as [w|] eqn:Hw; [|done]. destruct (_ && _) eqn:E; [|done]. apply andb_true_iff in E as [_ E].
  intros j w'. cbn. intros [[<- <-]|[_ Hw']]%lookup_insert_Some; [apply Hf; [by eapply Hs|done]|by eapply Hs].
Qed.

Lemma insert_ok id w s : store_ok s -> worker_ok (closed s) w -> store_ok (set_workers (<[id := w]> (workers s)) s).
Proof. intros Hs Hw j w'. cbn. intros [[<- <-]|[_ Hw']]%lookup_insert_Some; [done|by eapply Hs]. Qed.

Lemma retire_ok cl w : worker_ok cl (retire w).
Proof. constructor; done. Qed.

Lemma cleared_ok cl snap w : sn_State snap <> StateUsable -> worker_ok cl w -> retiring w = false -> worker_ok cl (cleared snap w).
Proof. intros Hst [H1 H2 H3 H4 H5] Hr. constructor; [by intros ?|done|cbn; by rewrite Hr|done|done]. Qed.

Lemma cancel_ok cl w : worker_ok cl w -> worker_ok cl (cancel w).
Proof. intros [H1 H2 H3 H4 H5]. constructor; try done. intros Hr. by destruct (H3 Hr) as (? & ? & ? & _). Qed.

Lemma drop_batches_bytes l total : total = foldr (fun b n => bytes b + n) 0 l -> (drop_batches l total).2 = foldr (fun b n => bytes b + n) 0 (drop_batches l total).1.
Proof. revert total. induction l as [|b l IH]; intros total E; [done|]. cbn [drop_batches]. destruct (_ || _); [|done]. apply IH. cbn in E. lia. Qed.

Lemma retain_bytes b l total : total = foldr (fun b n => bytes b + n) 0 l -> (retain b l total).2 = foldr (fun b n => bytes b + n) 0 (retain b l total).1.
Proof.
  intros ->. unfold retain. destruct (_ <? _); [done|]. apply drop_batches_bytes. induction l as [|x l IH]; cbn; lia.
Qed.

Lemma publication_ok c : capture_ok c -> Forall change_ok (affected (publication_of c)).
Proof.
  intros [_ H _ _]. apply Forall_forall. intros [id new] Hin. cbn in Hin. apply list_elem_of_In, in_map_iff in Hin as ([id' slot] & E & Hin%list_elem_of_In). injection E as -> <-.
  intros i t rc h. cbn. destruct slot as [i'|]; [|done]. intros [= -> _ _ _]. by apply (H id i).
Qed.

Lemma refresh_pass_covered g v items q : coveredThrough (refresh_pass g v items q) = coveredThrough q.
Proof.
  unfold refresh_pass. revert q. induction items as [|i items IH]; intros q; [done|]. cbn. rewrite IH. destruct (lookup q (ID i)); [|done]. unfold refreshHeader. by destruct (lookup q _).
Qed.

Lemma initial_covered items f headers orders : coveredThrough (initialPublicationIndex items f headers orders) = f_version f.
Proof.
  unfold initialPublicationIndex. cbn [set_compactFrom coveredThrough].
  change (coveredThrough (refresh_pass (initial_header f headers) (fun _ => f_version f) items (prepareCatchUp f orders.2 (list_to_set (ID <$> items)) (newPublicationIndex items orders.1))) = f_version f).
  by rewrite refresh_pass_covered.
Qed.

Lemma published_index c w : capture_ok c -> worker_ok false w ->
  exists q M, query (publish_worker c w) = Some q /\ exact q M /\ coveredThrough q = f_version (c_fold c).
Proof.
  intros Hc Hw. unfold publish_worker. set (index := match query w with None => _ | Some q => _ end).
  assert (exists M, exact index M /\ coveredThrough index = f_version (c_fold c)) as (M & H1 & H2).
  { unfold index. destruct (query w) as [q|] eqn:Hq.
    - destruct (wo_query _ _ Hw q Hq) as [M HM]. destruct (publish_index_spec q M (publication_of c) HM (publication_ok c Hc)) as (M' & H & _ & _ & Hv). eauto.
    - destruct (initial_spec (c_items c) (c_fold c) (c_headers c) (c_orders c) (co_items _ Hc)) as (M & HM & _). exists M. split; [done|]. unfold initialPublicationIndex. apply initial_covered. }
  exists index, M. split; [|done]. destruct (_ && _); [|done]. by destruct (retain _ _ _).
Qed.

Lemma publish_worker_fields c w :
  let w' := publish_worker c w in
  retiring w' = retiring w /\ canceled w' = canceled w /\ ob_Snapshot (c_changes c) = snapshot w'
  /\ (rangeBytes w = foldr (fun b n => bytes b + n) 0 (ranges w) -> rangeBytes w' = foldr (fun b n => bytes b + n) 0 (ranges w')).
Proof.
  cbn zeta. unfold publish_worker. set (o := if _ <? f_unproven (c_fold c) then set_baseline (c_changes c) else c_changes c). assert (ob_Snapshot o = ob_Snapshot (c_changes c)) as Eo by (unfold o; by destruct (_ <? _)).
  destruct (_ && _).
  - destruct (retain _ _ _) as [rs n] eqn:E. cbn. split_and!; try done. intros Hr. pose proof (retain_bytes (MkBatch o (c_bytes c)) (ranges w) (rangeBytes w) Hr) as H. by rewrite E in H.
  - by cbn.
Qed.

Lemma publish_ok c w cl : capture_ok c -> worker_ok cl w -> cl = false -> retiring w = false -> worker_ok cl (publish_worker c w).
Proof.
  intros Hc Hw -> Hr. destruct (publish_worker_fields c w) as (E1 & E2 & E3 & E4). destruct (published_index c w Hc Hw) as (q & M & Q1 & Q2 & Q3). constructor.
  - intros _. exists q, M. rewrite <- E3, (co_version _ Hc). done.
  - intros q' Hq'. exists M. congruence.
  - rewrite E1, Hr. done.
  - done.
  - apply E4. by apply Hw.
Qed.

Lemma set_query_ok q w cl M : exact q M -> worker_ok cl w -> sn_State (snapshot w) <> StateUsable -> retiring w = false -> worker_ok cl (set_query q w).
Proof.
  intros Hq [H1 H2 H3 H4 H5] Hst Hr. constructor; [by intros ?|intros q' [= <-]; by exists M|cbn; by rewrite Hr|done|done].
Qed.

Lemma new_worker_ok n : worker_ok false (new_worker n).
Proof. by constructor. Qed.

Lemma store_step_ok s s' : store_step s s' -> store_ok s -> store_ok s'.
Proof.
  intros Hstep Hs. destruct Hstep as [id retry cnl n s|id n items f orders s Hi Hfresh|id n s|id n c s Hc|id n dn s|id n s|id n s|id epoch version cond s|id n s|s|s Hcl].
  - unfold start. destruct (negb _); [done|]. destruct (closed s) eqn:Hcl; [done|]. destruct cnl; [done|].
    assert (store_ok (set_workers (<[id := new_worker n]> (workers s)) s)) as Hnew by (apply insert_ok; [done|rewrite Hcl; apply new_worker_ok]).
    destruct (workers s !! id) as [w|]; [|by destruct retry]. destruct (retiring w); [done|]. destruct retry; [|done]. destruct (negb _); [done|]. by destruct (exited w).
  - destruct (initial_spec items f ∅ orders Hi) as (M & HM & _). unfold restore, with_worker. destruct (workers s !! id) as [w|] eqn:Hw; [|done]. destruct (_ && _) eqn:E; [|done].
    apply andb_true_iff in E as [En%bool_decide_eq_true E]. apply insert_ok; [done|]. apply (set_query_ok _ _ _ M HM); [by eapply Hs|by apply Hfresh|]. by destruct (retiring w).
  - apply with_worker_ok; [done|]. intros w [H1 H2 H3 H4 H5] _. by constructor.
  - apply with_worker_ok; [done|]. intros w Hw E. apply andb_true_iff in E as [[E1%negb_true_iff E2%negb_true_iff]%andb_true_iff _]. by apply publish_ok.
  - unfold withdraw. destruct dn; [done|]. apply with_worker_ok; [done|]. intros w Hw E. apply andb_true_iff in E as [E1%negb_true_iff E2%negb_true_iff]. apply cancel_ok, cleared_ok; [done| |done].
    destruct Hw as [H1 H2 H3 H4 H5]. constructor; cbn; try done; congruence.
  - apply with_worker_ok; [done|]. intros w Hw _. by apply cancel_ok.
  - apply with_worker_ok; [done|]. intros w Hw _. assert (worker_ok (closed s) (if negb (retiring w) && negb (closed s) then cleared unavailable w else w)) as Hw'.
    { destruct (retiring w) eqn:Hr; [done|]. destruct (closed s) eqn:Hcl; [done|]. by apply cleared_ok. }
    destruct Hw' as [H1 H2 H3 H4 H5]. constructor; try done. intros Hr. by destruct (H3 Hr) as (? & ? & ? & _).
  - unfold unload_begin. destruct (negb _); [done|]. destruct (workers s !! id); [|done]. destruct (_ && _); [done|]. apply insert_ok; [done|apply retire_ok].
  - unfold unload_end. destruct (workers s !! id) eqn:Hw; [|done]. destruct (bool_decide _); [|done]. intros j w'. cbn. intros [_ Hw']%lookup_delete_Some. by eapply Hs.
  - intros j w'. cbn. rewrite lookup_fmap. destruct (workers s !! j); [|done]. intros [= <-]. apply retire_ok.
  - intros j w'. cbn. by rewrite lookup_empty.
Qed.

Lemma reachable_ok s : reachable s -> store_ok s.
Proof.
  intros H. assert (store_ok empty_store) as Hinit by (intros id w; cbn; by rewrite lookup_empty). unfold reachable in H. revert Hinit. induction H; [done|]. eauto using store_step_ok.
Qed.

(** C23. Whatever loads, publications, withdrawals, unloads and shutdowns a
    thread store goes through, and in whatever order, a conversation it shows as
    usable has an index that is exact for some rows and covers the very version
    shown; a query never reads a missing index; and once a worker is retired,
    by an unload or a shutdown, nothing of it is shown. *)
Theorem reachable_serves s id snap q :
  reachable s -> captureQuery id s = (snap, q) ->
  (sn_State snap = StateUsable -> exists q' M, q = Some q' /\ exact q' M /\ coveredThrough q' = sn_Version snap)
  /\ (forall c upper limit newest, querying s c id upper limit newest <> Panics)
  /\ (forall c epoch after limit, CatchUp s c id epoch after limit <> Panics)
  /\ (forall w, workers s !! id = Some w -> retiring w = true \/ closed s = true -> snap = zero_Snapshot /\ q = None /\ ranges w = [])
  /\ (forall epoch version conditional n s', unload_begin id epoch version conditional s = (Some n, s') -> captureQuery id s' = (zero_Snapshot, None)).
Proof.
  intros Hr Hc. pose proof (reachable_ok s Hr) as Hs. assert (sn_State snap = StateUsable -> exists q' M, q = Some q' /\ exact q' M /\ coveredThrough q' = sn_Version snap) as Hus.
  { unfold captureQuery in Hc. destruct (workers s !! id) as [w|] eqn:Hw; [|by injection Hc as <- <-]. destruct (closed s || retiring w); injection Hc as <- <-; [done|]. by apply (wo_usable _ _ (Hs id w Hw)). }
  split; [done|]. split; [|split; [|split]].
  - intros c upper limit newest. unfold querying. destruct (ctx_Err c); [|done]. destruct (negb _); [done|]. destruct (limit <=? 0); [done|]. rewrite Hc.
    destruct (bool_decide (sn_State snap = StateUsable)) eqn:E; [|done]. apply bool_decide_eq_true in E. destruct (Hus E) as (q' & M & -> & _). unfold render. by destruct (window _ _ _ _ _ _).
  - intros c epoch after limit. unfold CatchUp. destruct (ctx_Err c); [|done]. destruct (negb _); [done|]. destruct (_ && _); [done|]. rewrite Hc.
    destruct (bool_decide (sn_State snap = StateUsable)) eqn:E; [|done]. apply bool_decide_eq_true in E. destruct (Hus E) as (q' & M & -> & _). destruct (_ && _); [done|].
    destruct (after =? 0); [unfold render; by destruct (window _ _ _ _ _ _)|]. destruct (catch_up_reset _ _ _); [done|]. unfold touched_since. destruct (_ ≫= _) as [[rs c1]|]; [|done].
    destruct (close_parents _ _ _ _) as [| |[items seen] c2]; [done..|]. by destruct (ctx_Err c2).
  - intros w Hw Hret. assert (retiring w = true) as Hrw by (destruct Hret as [?|Hcl]; [done|by apply (wo_closed _ _ (Hs id w Hw))]). destruct (wo_retired _ _ (Hs id w Hw) Hrw) as (_ & _ & ? & _).
    unfold captureQuery in Hc. rewrite Hw, Hrw, orb_true_r in Hc. by injection Hc as <- <-.
  - intros epoch version conditional n s'. unfold unload_begin. destruct (negb _); [done|]. destruct (workers s !! id); [|done]. destruct (_ && _); [done|]. intros [= _ <-].
    unfold captureQuery. cbn. rewrite lookup_insert_eq. cbn. by rewrite orb_true_r.
Qed.

End ThreadStoreInv.
