(* ===== verification/ThreadWitness.v ===== *)
(** * A thread, followed

    A conversation of four items published, then two of them changed and one
    added: the theorems on threads at work on it. *)
From Stdlib Require Import ZArith Lia.
From stdpp Require Import prelude gmap strings list relations sorting.
From S2P Require Import Prelude Conversations ThreadIndex ThreadTree ThreadIndexInv ThreadAdvance ThreadPublish ThreadQuery ThreadPages ThreadWindows ThreadChildren ThreadSync ThreadCatchUp ThreadStore ThreadFeed ThreadInit ThreadStoreInv.

Module ThreadWitness.
Import ThreadIndex ThreadIndexInv ThreadAdvance ThreadPublish ThreadQuery ThreadWindows ThreadChildren ThreadSync ThreadCatchUp ThreadStore ThreadFeed ThreadInit ThreadStoreInv.

Local Open Scope Z_scope.

(** ** The conversation *)

Definition conv : string := "11111111-1111-4111-8111-111111111111".

Definition message (id order rev parent : Z) (act : bool) : Item :=
  MkItem id order rev 0 "assistant_message" "s" "" false "t" parent "done" act true "hello" "" "{}".
Definition call (id order rev parent : Z) (act : bool) : Item :=
  MkItem id order rev 0 "tool_call" "s" "" false "t" parent "running" act true "ls" "" "{}".

(** The second call is below the first; two of its children share an order. *)
Definition items1 : list Item := [message 1 1 1 0 false; call 2 2 2 0 false; call 3 3 3 2 true; message 4 3 4 2 false].
Definition fold1 : Fold := MkFold (<[1 := 1]> (<[2 := 2]> (<[3 := 3]> (<[4 := 4]> ∅)))) ∅ 4 0 0.
Definition snap1 : Snapshot := MkSnapshot true StateUsable 4 4 "epoch" None.
Definition capture1 : capture :=
  MkCapture items1 [] ∅ (MkObservation snap1 0 [] false) 2 fold1 ([4; 3; 2; 1], [2; 1; 3; 4]).

(** The running call ends, the message below it changes and another comes. *)
Definition items2 : list Item := [message 1 1 1 0 false; call 2 2 2 0 false; call 3 3 6 2 false; message 4 3 5 2 false; message 5 5 5 0 false].
Definition fold2 : Fold := MkFold (<[1 := 1]> (<[2 := 2]> (<[3 := 6]> (<[4 := 5]> (<[5 := 5]> ∅))))) ∅ 6 0 0.
Definition snap2 : Snapshot := MkSnapshot false StateUsable 6 6 "epoch" None.
Definition change (id : Z) : Change := MkChange id 0 id 6 None ∅ "more" "".
Definition capture2 : capture :=
  MkCapture items2 [(3, Some (call 3 3 6 2 false)); (4, Some (message 4 3 5 2 false)); (5, Some (message 5 5 5 0 false))] ∅
    (MkObservation snap2 4 [change 3; change 4] false) 40 fold2 ([], []).

Definition store0 : Store := (start conv false false 0 empty_store).2.
Definition store1 : Store := publish conv 0 capture1 store0.
Definition store2 : Store := publish conv 0 capture2 store1.

Definition index1 : queryIndex := initialPublicationIndex items1 fold1 ∅ ([4; 3; 2; 1], [2; 1; 3; 4]).
Definition index2 : queryIndex := advance (publication_of capture2) index1.

Lemma items1_ok : items_ok items1 fold1.
Proof.
  constructor.
  - apply NoDup_ListNoDup. repeat constructor; cbn; intuition discriminate.
  - repeat constructor; cbn; unfold max_uint64; lia.
  - intros i. unfold items1. rewrite !elem_of_cons. intros [->|[->|[->|[->|?%not_elem_of_nil]]]]; try done; vm_compute; congruence.
Qed.

Lemma items2_ok : items_ok items2 fold2.
Proof.
  constructor.
  - apply NoDup_ListNoDup. repeat constructor; cbn; intuition discriminate.
  - repeat constructor; cbn; unfold max_uint64; lia.
  - intros i. unfold items2. rewrite !elem_of_cons. intros [->|[->|[->|[->|[->|?%not_elem_of_nil]]]]]; try done; vm_compute; congruence.
Qed.

Lemma capture1_ok : capture_ok capture1.
Proof. constructor; [apply items1_ok|by intros id i ?%not_elem_of_nil|done|done]. Qed.

Lemma capture2_ok : capture_ok capture2.
Proof.
  constructor; [apply items2_ok| |done|done]. intros id i. cbn [c_affected capture2]. rewrite !elem_of_cons. intros [[= -> ->]|[[= -> ->]|[[= -> ->]|?%not_elem_of_nil]]]; try done; (split; [done|]); unfold wf_item, max_uint64; cbn; lia.
Qed.

Lemma index1_exact : exists M, exact index1 M /\ (forall i, i ∈ items1 <-> exists r, M !! ID i = Some r /\ item r = i) /\ (forall id r, M !! id = Some r -> touch r = touch_of fold1 id).
Proof. apply initial_spec, items1_ok. Qed.

Lemma store1_serves M : exact index1 M -> serves store1 conv snap1 index1 M.
Proof. intros H. by constructor. Qed.

Lemma index2_step M : exact index1 M -> exists M', publishes (publication_of capture2) (index1, M) (index2, M').
Proof.
  intros H. destruct (publish_index_spec index1 M (publication_of capture2) H (publication_ok _ capture2_ok)) as (M' & HM' & _). exists M'. split; [apply publication_ok, capture2_ok|]. split; [vm_compute; reflexivity|]. split; [reflexivity|exact HM'].
Qed.

Lemma store2_serves M : exact index2 M -> serves store2 conv snap2 index2 M.
Proof. intros H. by constructor. Qed.

(** ** The theorems at work on it *)

Definition answer {A} (d : A) (o : outcome A) : A := match o with Renders _ r => r | _ => d end.
Definition compact_answer : CompactQueryResult := answer (compact_state StateNotLoaded None) (CompactCatchUp store2 None conv "epoch" 4 10).
Definition full_answer : QueryResult := answer (state_result StateNotLoaded None) (CatchUp store2 None conv "epoch" 4 10).

Lemma index1_version : coveredThrough index1 = 4.
Proof. vm_compute. reflexivity. Qed.

Lemma compact_answer_ok : CompactCatchUp store2 None conv "epoch" 4 10 = Renders index2 compact_answer.
Proof. vm_compute. reflexivity. Qed.

Lemma full_answer_ok : CatchUp store2 None conv "epoch" 4 10 = Renders index2 full_answer.
Proof. vm_compute. reflexivity. Qed.

(** The compact answer has the call whose children changed, and the new message. *)
Example compact_answer_rows : (cs_ID <$> cq_Headers compact_answer, ID <$> cq_Items compact_answer) = ([2], [5]).
Proof. vm_compute. reflexivity. Qed.

(** The full one has what was touched, and the parent. *)
Example full_answer_rows : ID <$> Items full_answer = [4; 5; 3; 2].
Proof. vm_compute. reflexivity. Qed.

Lemma compact_catch_up_syncs_witness :
  exists M1 M2, exact index1 M1 /\ exact index2 M2 /\ forall i, patch compact_answer (compact_view M1) !! i = compact_view M2 !! i.
Proof.
  destruct index1_exact as (M1 & H1 & _). destruct (index2_step M1 H1) as (M2 & H2). pose proof H2 as (_ & _ & _ & HM2). exists M1, M2. split; [exact H1|]. split; [exact HM2|]. intros i.
  apply (compact_catch_up_syncs index1 M1 index2 M2 store2 conv snap2 "epoch" 10 compact_answer (compact_view M1) i H1).
  - apply rtc_once. by exists (publication_of capture2).
  - apply store2_serves, HM2.
  - rewrite index1_version. unfold max_uint64. lia.
  - left. rewrite index1_version. apply compact_answer_ok.
  - reflexivity.
Defined.

Lemma capture2_stamps M1 : exact index1 M1 -> (forall i, i ∈ items1 <-> exists r, M1 !! ID i = Some r /\ item r = i) -> stamps (publication_of capture2) (index1, M1).
Proof.
  intros H1 Hi. constructor; cbn [fst snd].
  - vm_compute. discriminate.
  - intros id Hin. exfalso. cbn in Hin. rewrite !elem_of_cons in Hin. destruct Hin as [?|[?|[?|?%not_elem_of_nil]]]; done.
  - intros id i t rc h Hin. left. rewrite index1_version. cbn in Hin. rewrite !elem_of_cons in Hin. destruct Hin as [E|[E|[E|?%not_elem_of_nil]]]; [..|done]; injection E as _ _ -> _ _; vm_compute; reflexivity.
Qed.

Lemma catch_up_syncs_witness :
  exists M1 M2, exact index1 M1 /\ exact index2 M2 /\ forall i, put_all ID (fun it => it) (Items full_answer) (item <$> M1) !! i = item <$> M2 !! i.
Proof.
  destruct index1_exact as (M1 & H1 & Hi & _). destruct (index2_step M1 H1) as (M2 & H2). pose proof H2 as (_ & _ & _ & HM2). exists M1, M2. split; [exact H1|]. split; [exact HM2|]. intros i.
  apply (catch_up_syncs index1 M1 index2 M2 store2 conv snap2 "epoch" 10 full_answer (item <$> M1) i H1).
  - apply rtc_once. exists (publication_of capture2). split; [exact H2|]. by apply capture2_stamps.
  - apply store2_serves, HM2.
  - rewrite index1_version. unfold max_uint64. lia.
  - rewrite index1_version. apply full_answer_ok.
  - apply lookup_fmap.
Defined.

Lemma history_pages_partition_witness :
  exists M, serves store1 conv snap1 index1 M
    /\ (forall r, M !! rid r = Some r -> Order (item r) <> 0 -> Order (item r) < 5 ->
          exists! k, exists pg, older_pages (S (length (ThreadTree.rows (ordered index1)))) store1 conv 5 1 !! k = Some pg /\ in_page pg r).
Proof.
  destruct index1_exact as (M & H & _). exists M. pose proof (store1_serves M H) as Hs. split; [exact Hs|]. intros r H1 H2 H3.
  exact (proj1 (history_pages_partition store1 conv snap1 index1 M 5 1 Hs ltac:(lia)) r H1 H2 H3).
Defined.

(** Two pages of one order each but the first, which shares one. *)
Example history_pages : (fun pg => (ID <$> Items pg, OlderExists pg)) <$> older_pages 5 store1 conv 5 1 = [([3; 4; 2], true); ([2], true); ([1], false)].
Proof. vm_compute. reflexivity. Qed.

Lemma child_pages_deliver_witness :
  exists l, deliver (S (length l)) (fun _ => 1%nat) store1 conv "epoch" 2 2 2 None = Some (summary <$> l) /\ StronglySorted child_lt l.
Proof.
  destruct index1_exact as (M & H & Hi & _). destruct (proj1 (Hi (call 2 2 2 0 false)) ltac:(by right; left)) as (row & Hrow & E).
  assert (Rev (item row) = 2) as Er by (by rewrite E).
  destruct (child_pages_deliver store1 conv snap1 index1 M 2 row 2 (fun _ => 1%nat) (store1_serves M H) Hrow ltac:(by rewrite Er) ltac:(discriminate) ltac:(lia)) as (l & Hl & _ & Hd).
  exists l. rewrite Er in Hd. split; [exact Hd|exact Hl].
Defined.

(** The children, packed one at a time. *)
Example children_delivered : (map cs_ID) <$> deliver 3 (fun _ => 1%nat) store1 conv "epoch" 2 2 2 None = Some [3; 4].
Proof. vm_compute. reflexivity. Qed.

Definition worker1 : conversationWorker := publish_worker capture1 (new_worker 0).
Definition polled : Observation := MkObservation snap2 4 [change 3; change 4] false.

Lemma capture2_polled : change_poll store2 conv "epoch" 4 = Some polled.
Proof. vm_compute. reflexivity. Qed.

Lemma changes_continuous_witness :
  exists cs1 cs2, [capture2] = cs1 ++ cs2 /\ reached 4 cs1 = 4 /\ Changes polled = all_changes (batches cs2).
Proof.
  destruct (changes_continuous 4 [capture2] worker1 store2 conv 4 "epoch" polled) as (H & _ & _); [reflexivity|reflexivity|by eexists|reflexivity|by repeat split|reflexivity|reflexivity|reflexivity|reflexivity|exact capture2_polled|].
  destruct (H eq_refl) as (cs1 & cs2 & E1 & E2 & _ & E3 & _). exists cs1, cs2. split; [exact E1|]. split; [exact E2|exact E3].
Defined.

Lemma store1_reachable : reachable store1.
Proof.
  eapply rtc_l; [apply (step_start conv false false 0)|]. apply rtc_once. apply step_publish, capture1_ok.
Qed.

Lemma reachable_serves_witness : exists q M, captureQuery conv store1 = (snap1, Some q) /\ exact q M /\ coveredThrough q = 4.
Proof.
  destruct (proj1 (reachable_serves store1 conv snap1 (Some index1) store1_reachable eq_refl) eq_refl) as (q & M & E & H1 & H2). exists q, M. rewrite <- E. split; [reflexivity|]. split; [exact H1|exact H2].
Defined.

Lemma advance_exact_witness : exists M M', exact index1 M /\ exact index2 M' /\ published (publication_of capture2) M (content (affected (publication_of capture2)) M) M'.
Proof.
  destruct index1_exact as (M & H & _). destruct (proj1 (advance_exact index1 M (publication_of capture2) H (publication_ok _ capture2_ok))) as (M' & H1 & H2 & _).
  exists M, M'. split; [exact H|]. split; [exact H1|exact H2].
Defined.

End ThreadWitness.
