(* ===== verification/StreamArgs.v ===== *)
(** * The command line and environment of a spawned agent ([internal/streamsup])

    [runner_spawn.go]: the arguments each spawn is started with, the settings
    value put into them, whether they confine the child to the daemon's own
    MCP configuration, and the variables added to its environment; the
    allow-list of permission modes of [envelope.go]. All are pure. *)
From Stdlib Require Import Ascii String.
From stdpp Require Import prelude strings list.
From S2P Require Import Prelude Utf8.

Module StreamArgs.

Import Utf8.

Local Open Scope Z_scope.
Local Open Scope string_scope.
Local Open Scope list_scope.

(** [strings.HasPrefix] and [strings.TrimPrefix] / [CutPrefix]. *)
Definition HasPrefix (s p : string) : bool := String.prefix p s.
Definition CutPrefix (s p : string) : option string :=
  if HasPrefix s p then Some (sdrop (String.length p) s) else None.
Definition TrimPrefix (s p : string) : string := default s (CutPrefix s p).

(** ** Permission modes *)

Definition permissionModeDefault : string := "default".
Definition permissionModeBypass : string := "bypassPermissions".

Definition permissionModeAllowed (mode : string) : bool :=
  bool_decide (mode ∈ [permissionModeDefault; "acceptEdits"; "plan"; "auto"; "dontAsk"; permissionModeBypass]).

Definition permissionModeSpawnWritable (mode : string) : bool :=
  bool_decide (mode <> permissionModeBypass) && permissionModeAllowed mode.

(** ** The arguments *)

(** [useCreateForm]; [found] is whether [transcript.StatByID] finds the
    session's transcript in the folder. *)
Definition useCreateForm (sessionsDir : string) (found latchCreate : bool) : bool :=
  if bool_decide (sessionsDir = "") then latchCreate else negb found.

Definition argv_prefix : list string :=
  ["--input-format"; "stream-json"; "--output-format"; "stream-json"; "--verbose";
   "--include-partial-messages"; "--forward-subagent-text"; "--replay-user-messages"].

Definition buildArgs (base : list string) (create : bool) (sessionID : string) (promptSuggestions : bool) : list string :=
  argv_prefix ++ (if promptSuggestions then ["--prompt-suggestions"] else []) ++ base ++
  (if create then ["--session-id"; sessionID] else ["--resume"; sessionID]).

Definition promptSuggestionEnv : string := "CLAUDE_CODE_ENABLE_PROMPT_SUGGESTION".

Definition promptSuggestionsDisabled (env : list string) : bool :=
  foldl (fun disabled entry =>
    match CutPrefix entry (promptSuggestionEnv +:+ "=") with
    | Some value => bool_decide (value = "false")
    | None => disabled
    end) false env.

(** [mcpStatusEligible]: the counters of its loop, whose index skips the value
    of the two-token form. *)
Fixpoint mcp_loop (path : string) (args : list string) (strict : bool) (configs matching : Z) : bool * Z * Z :=
  match args with
  | [] => (strict, configs, matching)
  | a :: rest =>
      if bool_decide (a = "--strict-mcp-config") then mcp_loop path rest true configs matching
      else if bool_decide (a = "--mcp-config") then
        match rest with
        | [] => (strict, configs + 1, matching)
        | v :: rest => mcp_loop path rest strict (configs + 1)%Z (matching + (if bool_decide (v = path) then 1 else 0))%Z
        end
      else if HasPrefix a "--mcp-config=" then
        mcp_loop path rest strict (configs + 1)%Z
          (matching + (if bool_decide (TrimPrefix a "--mcp-config=" = path) then 1 else 0))%Z
      else mcp_loop path rest strict configs matching
  end.

Definition mcpStatusEligible (args : list string) (daemonConfigPath : string) : bool :=
  if bool_decide (daemonConfigPath = "") then false
  else let '(strict, configs, matching) := mcp_loop daemonConfigPath args false 0 0 in
       strict && (configs =? 1)%Z && (matching =? 1)%Z.

Definition spawnEnv (base : list string) (name sessionID : string) : list string :=
  if bool_decide (name = "") then base else base ++ [name +:+ "=" +:+ sessionID].

(** [composeSettingsArgs]'s scan: where the last [--settings] value is,
    whether it is joined to its flag, and the value. *)
Fixpoint settings_scan (i : nat) (args : list string) (at_ : option (nat * bool * string)) : option (nat * bool * string) :=
  match args with
  | [] => at_
  | a :: rest =>
      match rest with
      | v :: rest' =>
          if bool_decide (a = "--settings") then settings_scan (S (S i)) rest' (Some (S i, false, v))
          else if HasPrefix a "--settings=" then settings_scan (S i) rest (Some (i, true, TrimPrefix a "--settings="))
          else settings_scan (S i) rest at_
      | [] =>
          if HasPrefix a "--settings=" then Some (i, true, TrimPrefix a "--settings=") else at_
      end
  end.

(** [compose] is the configured composer, [None] its error. *)
Definition composeSettingsArgs (args : list string) (compose : string -> option string) : option (list string) :=
  let found := settings_scan 0 args None in
  settings ← compose (match found with Some (_, _, v) => v | None => "" end);
  Some match found with
       | None => args ++ ["--settings"; settings]
       | Some (i, true, _) => <[i := "--settings=" +:+ settings]> args
       | Some (i, false, _) => <[i := settings]> args
       end.

(** [accountTokenEnvWithTimeout] once the provider has answered with a token:
    one final newline is dropped, and an empty token, or one with a NUL or
    white space, is refused. *)
Inductive tokenFailure := AccountTokenEmptyOutput | AccountTokenInvalidOutput.

Definition HasSuffix (s p : string) : bool :=
  (String.length p <=? String.length s)%nat && bool_decide (sdrop (String.length s - String.length p) s = p).
Definition TrimSuffix (s p : string) : string :=
  if HasSuffix s p then stake (String.length s - String.length p) s else s.

Definition newline : string := String (ascii_of_nat 10) "".
Definition crlf : string := String (ascii_of_nat 13) newline.

Definition trim_token (token : string) : string :=
  if HasSuffix token crlf then TrimSuffix token crlf else TrimSuffix token newline.

Definition tokenPrefix : string := "CLAUDE_CODE_OAUTH_TOKEN=".

Definition tokenEnv (token : string) (env : list string) : list string + tokenFailure :=
  let token := trim_token token in
  if bool_decide (token = "") then inr AccountTokenEmptyOutput
  else if existsb (fun p => (fst p =? 0)%Z || IsSpace (fst p)) (runes token) then inr AccountTokenInvalidOutput
  else inl (filter (fun entry => HasPrefix entry tokenPrefix = false) env ++ [tokenPrefix +:+ token]).

(** ** What they guarantee *)

(** The id a spawn is started with is its argv's last word, under exactly one
    of the two flags, whatever the base arguments are. *)
Lemma buildArgs_id base create id prompts :
  exists l, buildArgs base create id prompts = l ++ [if create then "--session-id" else "--resume"; id].
Proof.
  exists (argv_prefix ++ (if prompts then ["--prompt-suggestions"] else []) ++ base).
  unfold buildArgs. rewrite <- !(assoc_L app). by destruct create.
Qed.

(** A session with a transcript in its folder is resumed and one without is
    created, whatever the run remembers. *)
Lemma useCreateForm_probe dir found latch :
  dir <> "" -> useCreateForm dir found latch = negb found.
Proof. intros H. unfold useCreateForm. by rewrite bool_decide_eq_false_2. Qed.

Lemma settings_scan_cons i a v rest at_ :
  settings_scan i (a :: v :: rest) at_ =
  if bool_decide (a = "--settings") then settings_scan (S (S i)) rest (Some (S i, false, v))
  else if HasPrefix a "--settings=" then settings_scan (S i) (v :: rest) (Some (i, true, TrimPrefix a "--settings="))
  else settings_scan (S i) (v :: rest) at_.
Proof. done. Qed.

Lemma settings_scan_at args i at_ j joined v :
  settings_scan i args at_ = Some (j, joined, v) ->
  at_ = Some (j, joined, v) \/
  (i <= j)%nat /\ exists a, args !! (j - i)%nat = Some a /\ if joined then HasPrefix a "--settings=" = true else a = v.
Proof.
  remember (length args) as n eqn:Hn. revert args i at_ Hn.
  induction (lt_wf n) as [n _ IH]. intros [|a [|b rest]] i at_ ->; [by left| |].
  - cbn [settings_scan]. destruct (HasPrefix a _) eqn:E; [|by left]. intros [= <- <- <-]. right. split; [done|].
    exists a. by rewrite Nat.sub_diag.
  - rewrite settings_scan_cons. destruct (bool_decide _).
    + intros [H|(Hj & x & Hx & Hv)]%(IH (length rest)); simpl; [| |lia|done].
      * injection H as <- <- <-. right. split; [lia|]. exists b. by replace (S i - i)%nat with 1%nat by lia.
      * right. split; [lia|]. exists x. by replace (j - i)%nat with (S (S (j - S (S i)))) by lia.
    + destruct (HasPrefix a _) eqn:E; (intros [H|(Hj & x & Hx & Hv)]%(IH (S (length rest))); simpl; [| |lia|done]).
      * injection H as <- <- <-. right. split; [done|]. exists a. by rewrite Nat.sub_diag.
      * right. split; [lia|]. exists x. by replace (j - i)%nat with (S (j - S i)) by lia.
      * by left.
      * right. split; [lia|]. exists x. by replace (j - i)%nat with (S (j - S i)) by lia.
Qed.

(** Composing settings changes one word of the arguments, or adds a flag and a
    value at their end: every other argument stays as and where it was. *)
Lemma composeSettingsArgs_others args compose out :
  composeSettingsArgs args compose = Some out ->
  (exists settings, out = args ++ ["--settings"; settings]) \/
  (length out = length args /\ exists i, (i < length args)%nat /\ forall j, j <> i -> out !! j = args !! j).
Proof.
  unfold composeSettingsArgs. destruct (settings_scan 0 args None) as [[[i joined] v]|] eqn:E.
  - destruct (compose v); [|done]. intros [= <-]. right.
    apply settings_scan_at in E as [|(_ & a & Ha & _)]; [done|]. rewrite Nat.sub_0_r in Ha.
    apply lookup_lt_Some in Ha. split; [by destruct joined; rewrite length_insert|].
    exists i. split; [done|]. intros j Hj. by destruct joined; rewrite list_lookup_insert_ne.
  - destruct (compose ""); [|done]. intros [= <-]. left. eauto.
Qed.

(** A child whose environment was composed has one token entry, the last, and
    every other entry it had. *)
Lemma tokenEnv_entries token env out :
  tokenEnv token env = inl out ->
  exists t, out = filter (fun entry => HasPrefix entry tokenPrefix = false) env ++ [tokenPrefix +:+ t] /\
    t <> "" /\ (forall p, p ∈ runes t -> fst p <> 0%Z /\ IsSpace (fst p) = false).
Proof.
  unfold tokenEnv. destruct (bool_decide _) eqn:E1; [done|]. destruct (existsb _ _) eqn:E2; [done|].
  intros [= <-]. eexists. split; [done|]. reflect_bools. split; [done|]. intros p Hp.
  apply not_true_iff_false in E2. destruct (Z.eqb_spec (fst p) 0) as [e|n].
  - destruct E2. apply existsb_exists. exists p. split; [by apply list_elem_of_In|]. by rewrite e.
  - split; [done|]. destruct (IsSpace (fst p)) eqn:Es; [|done].
    destruct E2. apply existsb_exists. exists p. split; [by apply list_elem_of_In|]. by rewrite Es, orb_true_r.
Qed.

End StreamArgs.
