(* ===== verification/StreamRunner.v ===== *)
(** * The supervised stream: a runner's state and critical sections
    ([internal/streamsup])

    [runner.go], [runner_spawn.go], [runner_turns.go], [runner_control.go],
    [posture_gate.go], [state.go], [backoff.go], [crash_loop.go]. The state a
    [Runner] keeps under [restartMu] is [inputs], what it keeps under [mu] is
    [target]; each section under one of the two is a function on it. A child
    is named by the number of the iteration that spawned it, and stands for
    its stdin pipe and for that iteration's cancel function too. *)
From Stdlib Require Import Ascii String.
From stdpp Require Import prelude strings list.
From S2P Require Import Prelude Utf8 Strconv StreamArgs.

Module StreamRunner.

Import Strconv StreamArgs.

Local Open Scope Z_scope.

(** ** [restartMu]: what the next spawn is given *)

Record inputs := MkInputs {
  args : list string;
  iterCancel : option nat;
  sessionID : string;
  spawnMode : string;
  workDir : string;
  claudeSessionsDir : string;
  rotatePending : bool;
  freshSeq : Z;
}.

Definition setArgsLocked (a : list string) (i : inputs) : inputs :=
  MkInputs a (iterCancel i) (sessionID i) (spawnMode i) (workDir i) (claudeSessionsDir i) (rotatePending i) (freshSeq i).

(** [Restart]'s section: the cancel it found. *)
Definition Restart_section (a : list string) (i : inputs) : inputs * option nat :=
  (setArgsLocked a i, iterCancel i).

Definition SetSpawnArgs : list string -> inputs -> inputs := setArgsLocked.

(** [SetSpawnWorkDir] after the directory has been resolved. *)
Definition SetSpawnWorkDir (resolved dir : string) (i : inputs) : inputs :=
  MkInputs (args i) (iterCancel i) (sessionID i) (spawnMode i) resolved dir (rotatePending i) (freshSeq i).

Definition SetSpawnPermissionMode (mode : string) (i : inputs) : inputs :=
  MkInputs (args i) (iterCancel i) (sessionID i) mode (workDir i) (claudeSessionsDir i) (rotatePending i) (freshSeq i).

(** [RestartFresh]'s section; an empty id is refused before it. *)
Definition RestartFresh_section (newID : string) (i : inputs) : inputs * option nat :=
  (MkInputs (args i) (iterCancel i) newID (spawnMode i) (workDir i) (claudeSessionsDir i) true (u64 (freshSeq i + 1)),
   iterCancel i).

Definition AdoptSessionID (newID : string) (i : inputs) : inputs :=
  if bool_decide (newID = "") then i
  else MkInputs (args i) (iterCancel i) newID (spawnMode i) (workDir i) (claudeSessionsDir i) (rotatePending i) (freshSeq i).

(** What one iteration of [Run] has of its section of [beginSpawn]. *)
Record iteration := MkIteration {
  it_num : nat;
  it_id : string;
  it_args : list string;
  it_workDir : string;
  it_sessionsDir : string;
  it_fresh : Z;
  it_mode : string;
}.

(** [beginSpawn]'s section: its results and [forceFirst]. *)
Definition beginSpawn_section (k : nat) (i : inputs) : inputs * iteration * bool :=
  (MkInputs (args i) (Some k) (sessionID i) (spawnMode i) (workDir i) (claudeSessionsDir i) false (freshSeq i),
   MkIteration k (sessionID i) (args i) (workDir i) (claudeSessionsDir i) (freshSeq i) (spawnMode i),
   rotatePending i).

Definition clearIterCancel (i : inputs) : inputs :=
  MkInputs (args i) None (sessionID i) (spawnMode i) (workDir i) (claudeSessionsDir i) (rotatePending i) (freshSeq i).

(** ** [mu]: which child, if any, may receive a turn *)

Record target := MkTarget {
  stdin : option nat;
  childTarget : option nat;
  mcpEligible : bool;
  childGeneration : Z;
  childWorkspace : string;
  childPATH : option string;
  rotating : bool;
  rotateGen : Z;
  armFreshSeq : Z;
  tearingDown : bool;
  armChildGen : Z;
}.

(** [setStdin]: a bind releases the rotation gate only for a spawn set up
    after a rotation that landed since the arm, the teardown gate always. *)
Definition setStdin (w : nat) (spawnFreshSeq : Z) (eligible : bool) (t : target) : target :=
  let generation := u64 (childGeneration t + 1) in
  MkTarget (Some w) (Some w) eligible generation "" None
    (if armFreshSeq t <? spawnFreshSeq then false else rotating t) (rotateGen t) (armFreshSeq t)
    (if armChildGen t <? generation then false else tearingDown t) (armChildGen t).

Definition childUp (dir : string) (path : option string) (t : target) : target :=
  MkTarget (stdin t) (childTarget t) (mcpEligible t) (childGeneration t) dir path
    (rotating t) (rotateGen t) (armFreshSeq t) (tearingDown t) (armChildGen t).

Definition takeStdin (t : target) : target * option nat :=
  (MkTarget None (childTarget t) false (u64 (childGeneration t + 1)) "" None
     (rotating t) (rotateGen t) (armFreshSeq t) (tearingDown t) (armChildGen t), stdin t).

(** The pipe to close, if the captured child is still bound. *)
Definition retireStdinGeneration (generation : Z) (t : target) : target * option nat :=
  match stdin t with
  | Some w =>
      if (childGeneration t =? generation)%Z
      then (MkTarget None (childTarget t) false (u64 (childGeneration t + 1)) (childWorkspace t) (childPATH t)
              (rotating t) (rotateGen t) (armFreshSeq t) (tearingDown t) (armChildGen t), Some w)
      else (t, None)
  | None => (t, None)
  end.

(** [BeginRotation]'s section of [mu], with the generation its disarm keeps. *)
Definition BeginRotation_arm (seq : Z) (t : target) : target * Z :=
  let gen := u64 (rotateGen t + 1) in
  (MkTarget (stdin t) (childTarget t) (mcpEligible t) (childGeneration t) (childWorkspace t) (childPATH t)
     true gen seq (tearingDown t) (armChildGen t), gen).

Definition set_rotating (b : bool) (t : target) : target :=
  MkTarget (stdin t) (childTarget t) (mcpEligible t) (childGeneration t) (childWorkspace t) (childPATH t)
    b (rotateGen t) (armFreshSeq t) (tearingDown t) (armChildGen t).

(** The disarm it returns. *)
Definition abortRotation (gen : Z) (t : target) : target :=
  if (rotateGen t =? gen)%Z then set_rotating false t else t.

Definition BeginTeardown (t : target) : target :=
  MkTarget (stdin t) (childTarget t) (mcpEligible t) (childGeneration t) (childWorkspace t) (childPATH t)
    (rotating t) (rotateGen t) (armFreshSeq t) true (childGeneration t).

Inductive turnGate := gateOpen | gateRotation | gateTeardown.
#[export] Instance turnGate_eq_dec : EqDecision turnGate.
Proof. solve_decision. Defined.

Definition turnTargetWithGate (t : target) : option nat * turnGate :=
  if rotating t then (None, gateRotation)
  else match stdin t with
       | None => (None, gateOpen)
       | Some w => if tearingDown t then (None, gateTeardown) else (Some w, gateOpen)
       end.

(** The bound child a query for facts about it may be sent to
    ([QueryMCPStatus], [actuateControl], [queryContextUsage],
    [QueryAppliedSettings]), with the generation it is checked against once it
    has been registered. *)
Definition query_target (requireMCP : bool) (t : target) : option (nat * Z) :=
  match stdin t with
  | Some w => if rotating t || (requireMCP && negb (mcpEligible t)) then None else Some (w, childGeneration t)
  | None => None
  end.
Definition query_current (requireMCP : bool) (generation : Z) (t : target) : bool :=
  match stdin t with
  | Some _ => negb (rotating t) && (negb requireMCP || mcpEligible t) && (childGeneration t =? generation)%Z
  | None => false
  end.

Definition MemorySearchLaunch (t : target) : option (string * option string * Z) :=
  match stdin t with
  | Some _ =>
      if rotating t || bool_decide (childWorkspace t = "") then None
      else Some (childWorkspace t, childPATH t, childGeneration t)
  | None => None
  end.

(** ** The posture gate *)

(** [armedID = []] is the open gate; the runner may have none. *)
Record PostureGate := MkGate { armedID : bytes; refused : bool }.

Definition arm (requestID : bytes) (_ : PostureGate) : PostureGate := MkGate requestID false.
Definition release (requestID : bytes) (g : PostureGate) : PostureGate :=
  if decide (armedID g = requestID) then MkGate [] false else g.
Definition refuse (requestID : bytes) (g : PostureGate) : PostureGate :=
  if decide (armedID g <> [] /\ armedID g = requestID) then MkGate (armedID g) true else g.
Definition retarget (requestID : bytes) (g : PostureGate) : PostureGate :=
  if decide (armedID g = []) then g else MkGate requestID false.
Definition ready (g : option PostureGate) : bool :=
  match g with Some g => bool_decide (armedID g = []) | None => true end.
Definition refusedByClaude (g : option PostureGate) : bool :=
  match g with Some g => refused g | None => false end.

(** [noteControlAck] on a decoded line. *)
Definition noteControlAck (subtype : string) (requestID : bytes) (g : PostureGate) : PostureGate :=
  if bool_decide (subtype = "success") then release requestID g
  else if bool_decide (subtype = "") then g
  else refuse requestID g.

(** [nextControlID]: the next value of the counter, written in decimal. *)
Definition nextControlID (seq : Z) : Z * bytes :=
  let n := u64 (seq + 1) in (n, format n).

(** ** The control plane's snapshot *)

Inductive Phase := PhaseStarting | PhaseRunning | PhaseBackoff | PhaseStopped.
#[export] Instance Phase_eq_dec : EqDecision Phase.
Proof. solve_decision. Defined.

Record State := MkState {
  phase : Phase;
  ChildPID : option nat;
  RestartCount : Z;
  LastUptime : Z;
  NextBackoff : Z;
}.

Definition state_starting (s : State) : State := MkState PhaseStarting (ChildPID s) (RestartCount s) (LastUptime s) (NextBackoff s).
Definition state_stopped (s : State) : State := MkState PhaseStopped None (RestartCount s) (LastUptime s) 0.
Definition state_running (k : nat) (s : State) : State := MkState PhaseRunning (Some k) (RestartCount s) (LastUptime s) 0.
Definition state_backoff (uptime delay : Z) (s : State) : State :=
  MkState PhaseBackoff None (i64 (RestartCount s + 1)) uptime delay.

(** ** The restart ladder and the crash episode *)

Record backoffTimer := MkBackoff { initial : Z; max : Z; resetAfter : Z; current : Z }.

Definition newBackoffTimer (initial max resetAfter : Z) : backoffTimer := MkBackoff initial max resetAfter initial.

(** [next]: the delay, and the timer after it. *)
Definition next (uptime : Z) (b : backoffTimer) : Z * backoffTimer :=
  let cur := if resetAfter b <? uptime then initial b else current b in
  let doubled := i64 (cur * 2) in
  (cur, MkBackoff (initial b) (max b) (resetAfter b) (if max b <? doubled then max b else doubled)).

Definition reset (b : backoffTimer) : backoffTimer := MkBackoff (initial b) (max b) (resetAfter b) (initial b).

Definition crashLoopFastExits : Z := 4.
Definition crashLoopFastUptime : Z := 10 * second.

(** [observe]: the count of fast exits after one, and whether it completes an
    episode. *)
Definition observe (uptime fast : Z) : Z * bool :=
  if crashLoopFastUptime <=? uptime then (0, false)
  else let fast := i64 (fast + 1) in (fast, fast =? crashLoopFastExits).

Definition defaultBackoffInitial : Z := 500000000.
Definition defaultBackoffMax : Z := 30 * second.
Definition defaultBackoffReset : Z := 60 * second.

(** The configuration a runner is made with, as far as it decides: its
    composer of settings, whether a parser and a posture gate are wired. *)
Record Config := MkConfig {
  Args : list string;
  SessionID : string;
  WorkDir : string;
  ClaudeSessionsDir : string;
  SpawnPermissionMode : string;
  OperatorBypass : bool;
  HasPostureGate : bool;
  HasParser : bool;
  RequestInitializeOnSpawn : bool;
  MCPStatusConfigPath : string;
  SettingsComposer : option (string -> option string);
  BackoffInitial : Z;
  BackoffMax : Z;
  BackoffReset : Z;
}.

(** [New]'s checks after [WorkDir] has been resolved and the binary found. *)
Inductive newError := ErrWorkDirRequired | ErrSessionIDRequired | ErrPostureGateRequired.

Definition or_default (d v : Z) : Z := if v =? 0 then d else v.

Definition New (cfg : Config) : inputs * target * option PostureGate + newError :=
  if bool_decide (WorkDir cfg = "") then inr ErrWorkDirRequired
  else if bool_decide (SessionID cfg = "") then inr ErrSessionIDRequired
  else if bool_decide (SpawnPermissionMode cfg <> "") && negb (HasPostureGate cfg) then inr ErrPostureGateRequired
  else inl (MkInputs (Args cfg) None (SessionID cfg) (SpawnPermissionMode cfg) (WorkDir cfg) (ClaudeSessionsDir cfg) false 0,
            MkTarget None None false 0 "" None false 0 0 false 0,
            if HasPostureGate cfg then Some (MkGate [] false) else None).

End StreamRunner.
