(* ===== verification/StreamBackoff.v ===== *)
(** * The restart ladder and the crash episodes, in closed form

    What [Run]'s backoff branch does with the uptimes of the children that
    ended there: each delay, and when an episode of fast exits is reported. *)
From stdpp Require Import prelude list.
From S2P Require Import Prelude StreamRunner.

Module StreamBackoff.

Import StreamRunner.

Local Open Scope Z_scope.

(** The backoff branch over the uptimes of successive exits: the delay waited
    and whether the episode is reported, for each. *)
Fixpoint exits (us : list Z) (bo : backoffTimer) (fast : Z) : list (Z * bool) :=
  match us with
  | [] => []
  | u :: us => let '(delay, bo) := next u bo in
               let '(fast, fires) := observe u fast in
               (delay, fires) :: exits us bo fast
  end.

(** How many of the last exits in a row satisfy [p]. *)
Definition run_length (p : Z -> bool) (us : list Z) : nat :=
  foldl (fun n u => if p u then S n else 0%nat) 0%nat us.

(** The rung the ladder stands on after the exits [us]: one step up for each
    exit, counted from the last that reset it. *)
Definition rung (b : backoffTimer) (us : list Z) : nat :=
  let m := run_length (fun u => u <=? resetAfter b) us in
  if decide (m = length us) then m else S m.

Definition fast_exit (u : Z) : bool := u <? crashLoopFastUptime.

(** A ladder whose cap can be doubled. *)
Record ladder_ok (b : backoffTimer) : Prop := {
  lo_initial : 0 < initial b <= max b;
  lo_max : max b * 2 <= max_int64;
}.

Definition step_delay (b : backoffTimer) (n : nat) : Z := max b `min` (initial b * 2 ^ Z.of_nat n).

Lemma run_length_snoc p us u : run_length p (us ++ [u]) = if p u then S (run_length p us) else 0%nat.
Proof. unfold run_length. by rewrite foldl_app. Qed.

Lemma run_length_le p us : (run_length p us <= length us)%nat.
Proof.
  induction us as [|u us IH] using rev_ind; [done|]. rewrite run_length_snoc, length_app. simpl. destruct (p u); lia.
Qed.

(** The last [m] elements satisfy [p] and the one before does not. *)
Lemma run_length_spec p us m :
  run_length p us = m <->
  exists pre suf, us = pre ++ suf /\ length suf = m /\ Forall (fun u => p u = true) suf /\
    (forall pre' u, pre = pre' ++ [u] -> p u = false).
Proof.
  revert m. induction us as [|u us IH] using rev_ind; intros m.
  - split.
    + intros <-. exists [], []. split_and!; try done; try constructor. intros [] ? ?; discriminate.
    + intros (pre & suf & H & <- & _). symmetry in H. apply app_nil in H as [_ ->]. done.
  - rewrite run_length_snoc. split.
    + destruct (p u) eqn:Hu.
      * intros <-. destruct (proj1 (IH _) eq_refl) as (pre & suf & -> & Hl & Hf & Hp).
        exists pre, (suf ++ [u]). split_and!; [by rewrite app_assoc|rewrite length_app; simpl; lia| |done].
        apply Forall_app. auto.
      * intros <-. exists (us ++ [u]), []. split_and!; [by rewrite app_nil_r|done|constructor|].
        intros pre' u' [_ <-]%app_inj_tail. done.
    + intros (pre & suf & H & <- & Hf & Hp).
      destruct suf as [|v suf _] using rev_ind.
      * rewrite app_nil_r in H. by rewrite (Hp us u) by done.
      * rewrite app_assoc in H. apply app_inj_tail in H as [-> ->]. apply Forall_app in Hf as [Hf Hv].
        apply Forall_cons in Hv as [Hv _]. simpl in Hv. rewrite Hv, length_app. simpl.
        assert (run_length p (pre ++ suf) = length suf) as -> by (apply IH; eauto 10). lia.
Qed.

Lemma rung_snoc b us u :
  rung b (us ++ [u]) = if u <=? resetAfter b then S (rung b us) else 1%nat.
Proof.
  unfold rung. rewrite run_length_snoc, length_app. simpl. pose proof (run_length_le (fun u => u <=? resetAfter b) us).
  destruct (u <=? resetAfter b); repeat destruct (decide _); lia.
Qed.

Lemma step_delay_S b n :
  ladder_ok b -> (if max b <? i64 (step_delay b n * 2) then max b else i64 (step_delay b n * 2)) = step_delay b (S n).
Proof.
  intros [H1 H2]. unfold step_delay. rewrite Nat2Z.inj_succ, Z.pow_succ_r by lia.
  pose proof (Z.pow_pos_nonneg 2 (Z.of_nat n) ltac:(lia) ltac:(lia)).
  assert (0 < initial b * 2 ^ Z.of_nat n) by nia.
  rewrite i64_small by (unfold min_int64 in *; nia).
  destruct (Z.ltb_spec (max b) (max b `min` (initial b * 2 ^ Z.of_nat n) * 2)); lia.
Qed.

Lemma step_delay_bounds b n : ladder_ok b -> initial b <= step_delay b n <= max b.
Proof.
  intros [H1 H2]. unfold step_delay.
  pose proof (Z.pow_pos_nonneg 2 (Z.of_nat n) ltac:(lia) ltac:(lia)). split; [|lia]. apply Z.min_glb; nia.
Qed.

Lemma observe_run us u fast :
  fast = Z.of_nat (run_length fast_exit us) -> Z.of_nat (length us) < max_int64 ->
  observe u fast = (Z.of_nat (run_length fast_exit (us ++ [u])),
                    bool_decide (run_length fast_exit (us ++ [u]) = 4%nat)).
Proof.
  intros -> Hl. unfold observe. rewrite run_length_snoc. change (fast_exit u) with (u <? crashLoopFastUptime).
  pose proof (run_length_le fast_exit us).
  destruct (Z.leb_spec crashLoopFastUptime u), (Z.ltb_spec u crashLoopFastUptime); try lia; [done|].
  rewrite i64_small by (unfold min_int64, max_int64 in *; lia). f_equal; [lia|]. unfold crashLoopFastExits.
  destruct (Z.eqb_spec (Z.of_nat (run_length fast_exit us) + 1) 4); case_bool_decide; try done; lia.
Qed.

Lemma exits_run b us : ladder_ok b -> forall past cur fast,
  Z.of_nat (length past + length us) <= max_int64 ->
  cur = step_delay b (rung b past) -> fast = Z.of_nat (run_length fast_exit past) ->
  forall i u, us !! i = Some u ->
  exits us (MkBackoff (initial b) (max b) (resetAfter b) cur) fast !! i =
  Some (step_delay b (if resetAfter b <? u then 0%nat else rung b (past ++ take i us)),
        bool_decide (run_length fast_exit (past ++ take (S i) us) = 4%nat)).
Proof.
  intros Hok. induction us as [|v us IH]; intros past cur fast Hlen Hcur Hfast i u Hi; [done|].
  assert (step_delay b 0 = initial b) as H0 by (unfold step_delay; destruct Hok; lia).
  assert (next v (MkBackoff (initial b) (max b) (resetAfter b) cur) =
          (step_delay b (if resetAfter b <? v then 0%nat else rung b past),
           MkBackoff (initial b) (max b) (resetAfter b) (step_delay b (rung b (past ++ [v]))))) as Hn.
  { unfold next. cbn [initial max resetAfter current]. rewrite rung_snoc.
    destruct (Z.ltb_spec (resetAfter b) v), (Z.leb_spec v (resetAfter b)); try lia.
    - f_equal; [done|]. by rewrite <- H0, step_delay_S.
    - subst cur. f_equal. by rewrite step_delay_S. }
  cbn [exits length] in *. rewrite Hn, (observe_run past) by (try done; lia).
  destruct i as [|i]; simpl in *.
  - injection Hi as <-. by rewrite app_nil_r.
  - rewrite (IH (past ++ [v]) _ _) with (u := u); try done; [|rewrite length_app; simpl; lia].
    by rewrite <- !app_assoc.
Qed.

(** The [i]-th exit of a run waits the initial delay doubled once for every
    exit since the ladder was last reset, never more than the cap, and is
    reported as a crash loop exactly when it is the fourth in a row of fast
    exits that an exit which was not fast, or the start, precedes. *)
Theorem restart_ladder cfg us :
  0 < BackoffInitial cfg <= BackoffMax cfg -> BackoffMax cfg * 2 <= max_int64 ->
  Z.of_nat (length us) <= max_int64 ->
  let b := newBackoffTimer (BackoffInitial cfg) (BackoffMax cfg) (BackoffReset cfg) in
  forall i u, us !! i = Some u ->
  exists delay fires, exits us b 0 !! i = Some (delay, fires) /\
    delay = BackoffMax cfg `min` (BackoffInitial cfg * 2 ^ Z.of_nat (if BackoffReset cfg <? u then 0%nat else rung b (take i us))) /\
    BackoffInitial cfg <= delay <= BackoffMax cfg /\
    (fires = true <->
     exists pre suf, take (S i) us = pre ++ suf /\ length suf = 4%nat /\
       Forall (fun v => v < crashLoopFastUptime) suf /\
       (forall pre' v, pre = pre' ++ [v] -> crashLoopFastUptime <= v)).
Proof.
  intros Hi Hm Hl b i u Hu. assert (ladder_ok b) as Hok by (by constructor).
  do 2 eexists. split; [|split; [done|split; [apply (step_delay_bounds b), Hok|]]].
  - apply (exits_run b us Hok [] _ 0); [done| |done|done]. unfold step_delay, rung. simpl. rewrite Z.mul_1_r. lia.
  - rewrite bool_decide_eq_true, run_length_spec. cbn [app].
    split; intros (pre & suf & H1 & H2 & H3 & H4); exists pre, suf; split_and!; try done;
      try (apply (Forall_impl _ _ _ H3); intros v; unfold fast_exit; lia);
      intros pre' v Hv; specialize (H4 _ _ Hv); unfold fast_exit in *; lia.
Qed.

End StreamBackoff.
