(* ===== verification/StreamSystem.v ===== *)
(** * The supervised stream: its goroutines ([internal/streamsup])

    The supervise loop [Run] with the child it waits for, and the calls that
    meet it: restarts, the frame that starts a new session
    ([cmd/pyry/new_session_starter.go]), user turns, changes of the permission
    mode, teardowns. Every goroutine is cut at each lock, channel operation and
    call out; a step is one piece of one of them. *)
From Stdlib Require Import Ascii String.
From stdpp Require Import prelude strings list gmap.
From S2P Require Import Prelude Utf8 Strconv StreamArgs StreamRunner.

Module StreamSystem.

Import Strconv StreamArgs StreamRunner.

Local Open Scope Z_scope.

(** ** Where each goroutine is *)

(** [Run]'s loop. Past [RProbe] the iteration has its results of
    [beginSpawn]'s section. *)
Inductive pc :=
| RIdle                                              (* [Run] has returned, or was not called *)
| RTop                                               (* the loop's [ctx.Err()] *)
| RBegin (k : nat)                                   (* [beginSpawn]: before its section *)
| RProbe (it : iteration)                            (* before [useCreateForm] *)
| RSetup (it : iteration) (argv : list string)       (* [spawnAndWait] up to [cmd.Start] *)
| RStarted (it : iteration) (eligible : bool)        (* before [postureGate.arm] *)
| RArmed (it : iteration) (eligible : bool) (pid : bytes)   (* before [setStdin] *)
| RBound (it : iteration) (pid : bytes)              (* before the section that follows it *)
| RUp (it : iteration) (pid : bytes)                 (* before the snapshot's update *)
| RMode (it : iteration) (pid : bytes)               (* before [WritePermissionMode] *)
| RInit (it : iteration)                             (* before [RequestInitialize] *)
| RWait (it : iteration)                             (* [cmd.Wait] *)
| RReaped (it : iteration)                           (* before [takeStdin] *)
| RBack (it : iteration) (started : bool)            (* before [cancel()] *)
| RClear (it : iteration) (started : bool)           (* before [clearIterCancel] *)
| RExited (it : iteration) (started : bool)          (* before the second [ctx.Err()] *)
| RDrain (it : iteration)                            (* before [drainRestart] *)
| RBackoff.                                          (* the select *)

(** The callers. A cancel function is the number of its iteration. *)
Inductive thread :=
| TDone
| TRestart (a : list string)                         (* [Restart]: before its section *)
| THint (fresh : bool) (c : option nat)              (* before the send on [restartCh] *)
| TCancel (fresh : bool) (c : option nat)            (* before [cancel()] *)
| FRead (old : string)                               (* [startFreshRunner]: [BeginRotation]'s read *)
| FArm (old : string) (seq : Z)                      (* [BeginRotation]'s section of [mu] *)
| FRotate (old : string) (gen : Z) (was : bool)      (* before [rotate]; [was]: the gate before the arm *)
| FAbort (gen : Z) (was : bool)                      (* before [abort] *)
| FInstall (new : string)                            (* before [installSpawnDir] *)
| FFresh (new : string)                              (* [RestartFresh]: before its section *)
| WSelect                                            (* [WriteUserTurn]: before [turnTargetWithGate] *)
| WReady (w : nat)                                   (* before [postureGate.ready] *)
| WWrite (w : nat)                                   (* before [WriteTurn] *)
| MSnap (mode : string)                              (* [SetPermissionMode]: before its first section *)
| MCheck (mode : string) (id : bytes) (w : nat) (generation : Z)
| MWrite (mode : string) (id : bytes) (w : option nat)
| MRetarget (id : bytes).

(** What the theorems speak of besides the state: the children a restart or a
    rotation is to replace, those that were bound as a teardown was armed, whether claude has reset the session
    by itself, whether a failed rotation took down a gate it had found up, the
    children a restart has cancelled, those that confirmed the id the posture
    gate was armed with, those that were sent no posture, and the children that
    turns were written to. *)
Record ghost := MkGhost {
  stale : gset nat;
  replaced : gset nat;
  torn : gset nat;
  adopted : bool;
  dropped : bool;
  killed : gset nat;
  confirmed : list (nat * bytes);
  unarmed : gset nat;
  written : list nat;
}.

(** [poolID] is the id the pool has the session under, [claim] whether a reset
    of the conversation is in flight ([conversationReset.begin]). [alive] is
    the child process that runs. *)
Record sys := MkSys {
  inp : inputs;
  tgt : target;
  pgate : option PostureGate;
  restartCh : bool;
  controlSeq : Z;
  st : State;
  run : pc;
  firstRun : bool;
  bo : backoffTimer;
  fast : Z;
  parentDone : bool;
  iters : nat;
  cancelled : gset nat;
  alive : option nat;
  ths : list thread;
  poolID : string;
  claim : bool;
  gh : ghost;
}.

Definition set_inp (v : inputs) (s : sys) : sys :=
    MkSys v (tgt s) (pgate s) (restartCh s) (controlSeq s) (st s) (run s) (firstRun s) (bo s) (fast s) (parentDone s) (iters s)
    (cancelled s) (alive s) (ths s) (poolID s) (claim s) (gh s).
Definition set_tgt (v : target) (s : sys) : sys :=
    MkSys (inp s) v (pgate s) (restartCh s) (controlSeq s) (st s) (run s) (firstRun s) (bo s) (fast s) (parentDone s) (iters s)
    (cancelled s) (alive s) (ths s) (poolID s) (claim s) (gh s).
Definition set_pgate (v : option PostureGate) (s : sys) : sys :=
    MkSys (inp s) (tgt s) v (restartCh s) (controlSeq s) (st s) (run s) (firstRun s) (bo s) (fast s) (parentDone s) (iters s)
    (cancelled s) (alive s) (ths s) (poolID s) (claim s) (gh s).
Definition set_restartCh (v : bool) (s : sys) : sys :=
    MkSys (inp s) (tgt s) (pgate s) v (controlSeq s) (st s) (run s) (firstRun s) (bo s) (fast s) (parentDone s) (iters s)
    (cancelled s) (alive s) (ths s) (poolID s) (claim s) (gh s).
Definition set_controlSeq (v : Z) (s : sys) : sys :=
    MkSys (inp s) (tgt s) (pgate s) (restartCh s) v (st s) (run s) (firstRun s) (bo s) (fast s) (parentDone s) (iters s)
    (cancelled s) (alive s) (ths s) (poolID s) (claim s) (gh s).
Definition set_st (v : State) (s : sys) : sys :=
    MkSys (inp s) (tgt s) (pgate s) (restartCh s) (controlSeq s) v (run s) (firstRun s) (bo s) (fast s) (parentDone s) (iters s)
    (cancelled s) (alive s) (ths s) (poolID s) (claim s) (gh s).
Definition set_run (v : pc) (s : sys) : sys :=
    MkSys (inp s) (tgt s) (pgate s) (restartCh s) (controlSeq s) (st s) v (firstRun s) (bo s) (fast s) (parentDone s) (iters s)
    (cancelled s) (alive s) (ths s) (poolID s) (claim s) (gh s).
Definition set_firstRun (v : bool) (s : sys) : sys :=
    MkSys (inp s) (tgt s) (pgate s) (restartCh s) (controlSeq s) (st s) (run s) v (bo s) (fast s) (parentDone s) (iters s)
    (cancelled s) (alive s) (ths s) (poolID s) (claim s) (gh s).
Definition set_bo (v : backoffTimer) (s : sys) : sys :=
    MkSys (inp s) (tgt s) (pgate s) (restartCh s) (controlSeq s) (st s) (run s) (firstRun s) v (fast s) (parentDone s) (iters s)
    (cancelled s) (alive s) (ths s) (poolID s) (claim s) (gh s).
Definition set_fast (v : Z) (s : sys) : sys :=
    MkSys (inp s) (tgt s) (pgate s) (restartCh s) (controlSeq s) (st s) (run s) (firstRun s) (bo s) v (parentDone s) (iters s)
    (cancelled s) (alive s) (ths s) (poolID s) (claim s) (gh s).
Definition set_parentDone (v : bool) (s : sys) : sys :=
    MkSys (inp s) (tgt s) (pgate s) (restartCh s) (controlSeq s) (st s) (run s) (firstRun s) (bo s) (fast s) v (iters s)
    (cancelled s) (alive s) (ths s) (poolID s) (claim s) (gh s).
Definition set_iters (v : nat) (s : sys) : sys :=
    MkSys (inp s) (tgt s) (pgate s) (restartCh s) (controlSeq s) (st s) (run s) (firstRun s) (bo s) (fast s) (parentDone s) v
    (cancelled s) (alive s) (ths s) (poolID s) (claim s) (gh s).
Definition set_cancelled (v : gset nat) (s : sys) : sys :=
    MkSys (inp s) (tgt s) (pgate s) (restartCh s) (controlSeq s) (st s) (run s) (firstRun s) (bo s) (fast s) (parentDone s) (iters
    s) v (alive s) (ths s) (poolID s) (claim s) (gh s).
Definition set_alive (v : option nat) (s : sys) : sys :=
    MkSys (inp s) (tgt s) (pgate s) (restartCh s) (controlSeq s) (st s) (run s) (firstRun s) (bo s) (fast s) (parentDone s) (iters
    s) (cancelled s) v (ths s) (poolID s) (claim s) (gh s).
Definition set_ths (v : list thread) (s : sys) : sys :=
    MkSys (inp s) (tgt s) (pgate s) (restartCh s) (controlSeq s) (st s) (run s) (firstRun s) (bo s) (fast s) (parentDone s) (iters
    s) (cancelled s) (alive s) v (poolID s) (claim s) (gh s).
Definition set_poolID (v : string) (s : sys) : sys :=
    MkSys (inp s) (tgt s) (pgate s) (restartCh s) (controlSeq s) (st s) (run s) (firstRun s) (bo s) (fast s) (parentDone s) (iters
    s) (cancelled s) (alive s) (ths s) v (claim s) (gh s).
Definition set_claim (v : bool) (s : sys) : sys :=
    MkSys (inp s) (tgt s) (pgate s) (restartCh s) (controlSeq s) (st s) (run s) (firstRun s) (bo s) (fast s) (parentDone s) (iters
    s) (cancelled s) (alive s) (ths s) (poolID s) v (gh s).
Definition set_gh (v : ghost) (s : sys) : sys :=
    MkSys (inp s) (tgt s) (pgate s) (restartCh s) (controlSeq s) (st s) (run s) (firstRun s) (bo s) (fast s) (parentDone s) (iters
    s) (cancelled s) (alive s) (ths s) (poolID s) (claim s) v.

Definition set_stale (v : gset nat) (s : ghost) : ghost :=
    MkGhost v (replaced s) (torn s) (adopted s) (dropped s) (killed s) (confirmed s) (unarmed s) (written s).
Definition set_replaced (v : gset nat) (s : ghost) : ghost :=
    MkGhost (stale s) v (torn s) (adopted s) (dropped s) (killed s) (confirmed s) (unarmed s) (written s).
Definition set_torn (v : gset nat) (s : ghost) : ghost :=
    MkGhost (stale s) (replaced s) v (adopted s) (dropped s) (killed s) (confirmed s) (unarmed s) (written s).
Definition set_adopted (v : bool) (s : ghost) : ghost :=
    MkGhost (stale s) (replaced s) (torn s) v (dropped s) (killed s) (confirmed s) (unarmed s) (written s).
Definition set_dropped (v : bool) (s : ghost) : ghost :=
    MkGhost (stale s) (replaced s) (torn s) (adopted s) v (killed s) (confirmed s) (unarmed s) (written s).
Definition set_killed (v : gset nat) (s : ghost) : ghost :=
    MkGhost (stale s) (replaced s) (torn s) (adopted s) (dropped s) v (confirmed s) (unarmed s) (written s).
Definition set_confirmed (v : list (nat * bytes)) (s : ghost) : ghost :=
    MkGhost (stale s) (replaced s) (torn s) (adopted s) (dropped s) (killed s) v (unarmed s) (written s).
Definition set_unarmed (v : gset nat) (s : ghost) : ghost :=
    MkGhost (stale s) (replaced s) (torn s) (adopted s) (dropped s) (killed s) (confirmed s) v (written s).
Definition set_written (v : list nat) (s : ghost) : ghost :=
    MkGhost (stale s) (replaced s) (torn s) (adopted s) (dropped s) (killed s) (confirmed s) (unarmed s) v.

(** Applies [f] to the ghost state. *)
Definition note (f : ghost -> ghost) (s : sys) : sys := set_gh (f (gh s)) s.

(** The iteration between [beginSpawn]'s section and [clearIterCancel]. *)
Definition current (p : pc) : option iteration :=
  match p with
  | RProbe it | RSetup it _ | RStarted it _ | RArmed it _ _ | RBound it _ | RUp it _ | RMode it _
  | RInit it | RWait it | RReaped it | RBack it _ | RClear it _ => Some it
  | _ => None
  end.

(** The child whose output is read: between [cmd.Start] and the return of
    [cmd.Wait], which joins the copy of its output. *)
Definition reading (p : pc) : option nat :=
  match p with
  | RStarted it _ | RArmed it _ _ | RBound it _ | RUp it _ | RMode it _ | RInit it | RWait it => Some (it_num it)
  | _ => None
  end.

(** The children a restart ordered now replaces. *)
Definition current_set (p : pc) : gset nat :=
  match current p with Some it => {[it_num it]} | None => ∅ end.

Definition ctx_done (k : nat) (s : sys) : bool := parentDone s || bool_decide (k ∈ cancelled s).
Definition cancel (k : nat) (s : sys) : sys := set_cancelled ({[k]} ∪ cancelled s) s.
Definition cancel_opt (c : option nat) (s : sys) : sys := match c with Some k => cancel k s | None => s end.

(** ** [Run] *)

(** What decides a step of the loop besides the state: whether the transcript
    is found and whether prompt suggestions are on, whether the set-up of the
    child succeeds, its [PATH], whether a write reaches the child, how long it
    was up, and the case the backoff's select takes. *)
Inductive lin :=
| LGo
| LProbe (found prompts : bool)
| LSetup (ok : bool)
| LPath (path : option string)
| LWrite (ok : bool)
| LUptime (u : Z)
| LTimer | LDone | LRestart.

Section loop.
Context (cfg : Config).

Definition stop (s : sys) : sys := set_run RIdle (set_st (state_stopped (st s)) s).

Definition start_run (s : sys) : option sys :=
  match run s with
  | RIdle =>
      Some (set_run RTop (set_firstRun true (set_fast 0 (set_parentDone false
        (set_bo (newBackoffTimer (BackoffInitial cfg) (BackoffMax cfg) (BackoffReset cfg))
        (set_st (state_starting (st s)) s))))))
  | _ => None
  end.

Definition compose_argv (argv : list string) : option (list string) :=
  match SettingsComposer cfg with
  | None => Some argv
  | Some compose => composeSettingsArgs argv compose
  end.

(** Whether a posture is written to the child, under a new id. *)
Definition posture_id (it : iteration) (seq : Z) : Z * bytes :=
  if permissionModeSpawnWritable (it_mode it) && negb (OperatorBypass cfg) then nextControlID seq else (seq, []).

(** [spawnAndWait], after [cmd]'s arguments have been chosen. *)
Definition spawn_step (l : lin) (s : sys) : option sys :=
  match run s, l with
  | RSetup it argv, LSetup ok =>
      match compose_argv argv with
      | Some argv =>
          if ok && negb (ctx_done (it_num it) s)
          then Some (set_run (RStarted it (mcpStatusEligible argv (MCPStatusConfigPath cfg)))
                      (set_alive (Some (it_num it)) s))
          else Some (set_run (RBack it false) s)
      | None => Some (set_run (RBack it false) s)
      end
  | RStarted it eligible, LGo =>
      let '(seq, pid) := posture_id it (controlSeq s) in
      Some (set_run (RArmed it eligible pid) (set_controlSeq seq (set_pgate (arm pid <$> pgate s)
        (note (fun g => set_unarmed (if decide (pid = []) then {[it_num it]} ∪ unarmed g else unarmed g) g) s))))
  | RArmed it eligible pid, LGo =>
      Some (set_run (RBound it pid) (set_tgt (setStdin (it_num it) (it_fresh it) eligible (tgt s)) s))
  | RBound it pid, LPath path =>
      Some (set_run (RUp it pid) (set_tgt (childUp (it_workDir it) path (tgt s)) s))
  | RUp it pid, LGo => Some (set_run (RMode it pid) (set_st (state_running (it_num it) (st s)) s))
  | RMode it pid, LWrite _ => Some (set_run (RInit it) s)
  | RInit it, LGo =>
      Some (set_run (RWait it)
        (if RequestInitializeOnSpawn cfg then set_controlSeq (fst (nextControlID (controlSeq s))) s else s))
  | RWait it, LGo => if decide (alive s = None) then Some (set_run (RReaped it) s) else None
  | RReaped it, LGo => Some (set_run (RBack it true) (set_tgt (fst (takeStdin (tgt s))) s))
  | _, _ => None
  end.

(** [Run]. *)
Definition loop_step (l : lin) (s : sys) : option sys :=
  match run s, l with
  | RTop, LGo =>
      if parentDone s then Some (stop s)
      else Some (set_run (RBegin (iters s)) (set_iters (S (iters s)) s))
  | RBegin k, LGo =>
      let '(i, it, forceFirst) := beginSpawn_section k (inp s) in
      Some (set_run (RProbe it) (set_firstRun (firstRun s || forceFirst) (set_inp i s)))
  | RProbe it, LProbe found prompts =>
      let create := useCreateForm (it_sessionsDir it) found (firstRun s) in
      Some (set_run (RSetup it (buildArgs (it_args it) create (it_id it) prompts)) s)
  | RBack it started, LGo => Some (set_run (RClear it started) (cancel (it_num it) s))
  | RClear it started, LGo => Some (set_run (RExited it started) (set_inp (clearIterCancel (inp s)) s))
  | RExited it started, LGo =>
      if parentDone s then Some (stop s)
      else Some (set_run (RDrain it) (set_firstRun (if started then false else firstRun s) s))
  | RDrain it, LUptime u =>
      if restartCh s then Some (set_run RTop (set_restartCh false s))
      else
        let '(delay, bo) := next u (bo s) in
        let '(fast, _) := observe u (fast s) in
        Some (set_run RBackoff (set_bo bo (set_fast fast (set_st (state_backoff u delay (st s)) s))))
  | RBackoff, LTimer => Some (set_run RTop s)
  | RBackoff, LDone => if parentDone s then Some (stop s) else None
  | RBackoff, LRestart => if restartCh s then Some (set_run RTop (set_restartCh false s)) else None
  | _, _ => spawn_step l s
  end.

(** ** The callers *)

(** What decides a caller's step: the id a rotation minted, if any (a minted id
    is not empty); the
    directory a rotation installs; whether a write succeeds. *)
Inductive tin :=
| IGo
| IRotate (minted : option string)
| IInstall (dir : option (string * string))
| IWrite (ok : bool).

(** Whether a line written to the pipe of [w] reaches its child. *)
Definition reaches (w : nat) (ok : bool) (s : sys) : bool := ok && bool_decide (alive s = Some w).

(** [Restart], and [RestartFresh] after its section. *)
Definition restart_step (j : tin) (t : thread) (s : sys) : option (thread * sys) :=
  match t, j with
  | TRestart a, IGo =>
      let '(i, c) := Restart_section a (inp s) in
      Some (THint false c, note (fun g => set_stale (current_set (run s) ∪ stale g) g) (set_inp i s))
  | THint fresh c, IGo => Some (TCancel fresh c, set_restartCh true s)
  | TCancel fresh c, IGo =>
      Some (TDone, note (fun g => set_killed (match c with Some k => {[k]} ∪ killed g | None => killed g end) g)
                     (cancel_opt c (if fresh then set_claim false s else s)))
  | _, _ => None
  end.

(** [startFreshRunner], up to [RestartFresh]'s section. *)
Definition frame_step (j : tin) (t : thread) (s : sys) : option (thread * sys) :=
  match t, j with
  | FRead old, IGo => Some (FArm old (freshSeq (inp s)), s)
  | FArm old seq, IGo =>
      let '(t', gen) := BeginRotation_arm seq (tgt s) in Some (FRotate old gen (rotating (tgt s)), set_tgt t' s)
  | FRotate old gen was, IRotate minted =>
      match minted with
      | Some new =>
          if decide (poolID s = old /\ new <> ""%string) then Some (FInstall new, set_poolID new s)
          else Some (FAbort gen was, s)
      | None => Some (FAbort gen was, s)
      end
  | FAbort gen was, IGo =>
      Some (TDone, set_claim false (set_tgt (abortRotation gen (tgt s))
        (note (fun g => set_dropped (dropped g || (was && (rotateGen (tgt s) =? gen))) g) s)))
  | FInstall new, IInstall dir =>
      Some (FFresh new, match dir with Some (r, d) => set_inp (SetSpawnWorkDir r d (inp s)) s | None => s end)
  | FFresh new, IGo =>
      let '(i, c) := RestartFresh_section new (inp s) in
      Some (THint true c, note (fun g => set_stale (current_set (run s) ∪ stale g)
                                          (set_replaced (current_set (run s) ∪ replaced g) g)) (set_inp i s))
  | _, _ => None
  end.

(** [WriteUserTurn]. *)
Definition turn_step (j : tin) (t : thread) (s : sys) : option (thread * sys) :=
  match t, j with
  | WSelect, IGo =>
      match fst (turnTargetWithGate (tgt s)) with
      | Some w => Some (WReady w, s)
      | None => Some (TDone, s)
      end
  | WReady w, IGo => Some (if ready (pgate s) then WWrite w else TDone, s)
  | WWrite w, IWrite ok =>
      Some (TDone, if reaches w ok s then note (fun g => set_written (w :: written g) g) s else s)
  | _, _ => None
  end.

(** [SetPermissionMode]. *)
Definition mode_step (j : tin) (t : thread) (s : sys) : option (thread * sys) :=
  match t, j with
  | MSnap mode, IGo =>
      let '(seq, id) := nextControlID (controlSeq s) in
      let s := set_controlSeq seq s in
      match stdin (tgt s) with
      | Some w => Some (if HasParser cfg then MCheck mode id w (childGeneration (tgt s)) else MWrite mode id (Some w), s)
      | None => Some (MWrite mode id None, s)
      end
  | MCheck mode id w generation, IGo =>
      let current := match stdin (tgt s) with Some _ => (childGeneration (tgt s) =? generation)%Z | None => false end in
      Some (MWrite mode id (if current then Some w else None), s)
  | MWrite mode id w, IWrite ok =>
      match w with
      | Some w => Some (if permissionModeAllowed mode && reaches w ok s then MRetarget id else TDone, s)
      | None => Some (TDone, s)
      end
  | MRetarget id, IGo => Some (TDone, set_pgate (retarget id <$> pgate s) s)
  | _, _ => None
  end.

Definition thread_step (j : tin) (t : thread) (s : sys) : option (thread * sys) :=
  match t with
  | TDone => None
  | TRestart _ | THint _ _ | TCancel _ _ => restart_step j t s
  | FRead _ | FArm _ _ | FRotate _ _ _ | FAbort _ _ | FInstall _ | FFresh _ => frame_step j t s
  | WSelect | WReady _ | WWrite _ => turn_step j t s
  | MSnap _ | MCheck _ _ _ _ | MWrite _ _ _ | MRetarget _ => mode_step j t s
  end.

(** A call that starts; a frame claims the conversation. *)
Definition start_ok (t : thread) (s : sys) : option sys :=
  match t with
  | TRestart _ | WSelect | MSnap _ => Some s
  | FRead _ => if claim s then None else Some (set_claim true s)
  | _ => None
  end.

(** ** The system *)

Inductive op :=
| ORun                                   (* the session is activated: [Run] with a new context *)
| OShutdown                              (* and evicted: its context is cancelled *)
| OLoop (l : lin)
| OExit                                  (* the child process ends *)
| OAck (subtype : string) (id : bytes)   (* the parser reads a control response *)
| OStart (t : thread)
| OThread (i : nat) (j : tin)
| OSpawnArgs (a : list string)
| OSpawnMode (mode : string)
| OSpawnDir (resolved dir : string)
| OPoolRekey (id : string)               (* [AdoptAnnouncedID]'s re-key *)
| OAdopt (id : string)                   (* and the runner's [AdoptSessionID] *)
| OTeardown
| ORetire (generation : Z).

(** Whether the gate is armed with [id]. *)
Definition opens (id : bytes) (g : option PostureGate) : bool :=
  match g with Some g => bool_decide (armedID g <> [] /\ armedID g = id) | None => false end.

(** The child bound as [BeginTeardown] arms its gate. One that binds between the
    arm and the kill beside it opens the gate again ([armChildGen]'s comment), and
    is not meant. *)
Definition bound_now (t : target) : gset nat := match stdin t with Some w => {[w]} | None => ∅ end.

Definition step (o : op) (s : sys) : option sys :=
  match o with
  | ORun => start_run s
  | OShutdown => match run s with RIdle => None | _ => Some (set_parentDone true s) end
  | OLoop l => loop_step l s
  | OExit => match alive s with Some _ => Some (set_alive None s) | None => None end
  | OAck subtype id =>
      match reading (run s) with
      | Some k =>
          Some (set_pgate (noteControlAck subtype id <$> pgate s)
            (note (fun g => if bool_decide (subtype = "success"%string) && opens id (pgate s)
                            then set_confirmed ((k, id) :: confirmed g) g else g) s))
      | None => None
      end
  | OStart t => s' ← start_ok t s; Some (set_ths (ths s' ++ [t]) s')
  | OThread i j =>
      t ← ths s !! i;
      '(t', s') ← thread_step j t s;
      Some (set_ths (<[i := t']> (ths s')) s')
  | OSpawnArgs a => Some (set_inp (SetSpawnArgs a (inp s)) s)
  | OSpawnMode mode => Some (set_inp (SetSpawnPermissionMode mode (inp s)) s)
  | OSpawnDir resolved dir => Some (set_inp (SetSpawnWorkDir resolved dir (inp s)) s)
  | OPoolRekey id => Some (note (set_adopted true) (set_poolID id s))
  | OAdopt id => Some (note (set_adopted true) (set_inp (AdoptSessionID id (inp s)) s))
  | OTeardown => Some (note (fun g => set_torn (bound_now (tgt s) ∪ torn g) g) (set_tgt (BeginTeardown (tgt s)) s))
  | ORetire generation => Some (set_tgt (fst (retireStdinGeneration generation (tgt s))) s)
  end.

Fixpoint exec (os : list op) (s : sys) : option sys :=
  match os with
  | [] => Some s
  | o :: os => s' ← step o s; exec os s'
  end.

(** A runner just made by [New], whose session the pool has under its id. *)
Definition init : option sys :=
  match New cfg with
  | inl (i, t, g) =>
      Some (MkSys i t g false 0 (MkState PhaseStarting None 0 0 0) RIdle true
             (newBackoffTimer (BackoffInitial cfg) (BackoffMax cfg) (BackoffReset cfg)) 0 false
             0 ∅ None [] (SessionID cfg) false (MkGhost ∅ ∅ ∅ false false ∅ [] ∅ []))
  | inr _ => None
  end.

(** The states a run of fewer than 2^64 - 1 steps reaches. *)
Definition reaches_by (os : list op) (s : sys) : Prop :=
  Z.of_nat (length os) + 1 < 2 ^ 64 /\ (s0 ← init; exec os s0) = Some s.

End loop.

End StreamSystem.
