(* ===== verification/StreamInv.v ===== *)
(** * The supervised stream: what every reachable state has

    Which iteration a child, a handle or a captured cancel belongs to; that at
    most one new-session frame is under way; how the counters of the rotation
    gate stand to each other; what a restart leaves behind. *)
From Stdlib Require Import Ascii String.
From stdpp Require Import prelude strings list gmap.
From S2P Require Import Prelude Utf8 Strconv StreamArgs StreamRunner StreamSystem.

Module StreamInv.

Import Strconv StreamArgs StreamRunner StreamSystem.

Local Open Scope Z_scope.

(** ** Steps, case by case *)

Ltac sys_cbn :=
  cbn [inp tgt pgate restartCh controlSeq st run firstRun bo fast parentDone iters cancelled alive ths poolID claim gh
       set_inp set_tgt set_pgate set_restartCh set_controlSeq set_st set_run set_firstRun set_bo set_fast set_parentDone
       set_iters set_cancelled set_alive set_ths set_poolID set_claim set_gh note cancel cancel_opt stop
       stale replaced torn adopted dropped killed confirmed unarmed written
       set_stale set_replaced set_torn set_adopted set_dropped set_killed set_confirmed set_unarmed set_written
       args iterCancel sessionID spawnMode workDir claudeSessionsDir rotatePending freshSeq
       setArgsLocked SetSpawnArgs SetSpawnWorkDir SetSpawnPermissionMode clearIterCancel
       stdin childTarget mcpEligible childGeneration childWorkspace childPATH rotating rotateGen armFreshSeq tearingDown armChildGen
       setStdin childUp takeStdin set_rotating BeginTeardown fst snd
       current reading it_num it_id it_fresh it_mode option_map].

(** Every case of a step, [H : loop_step cfg l s = Some s']. *)
Ltac loop_cases H :=
  match type of H with
  | loop_step _ ?l ?s = Some _ =>
      unfold loop_step, spawn_step in H; destruct (run s) eqn:Hrun, l; try discriminate H
  end;
  cbn [beginSpawn_section nextControlID] in H;
  repeat case_hyp H; try discriminate H; simplify_eq; sys_cbn.

(** [H : thread_step cfg j t s = Some (t', s1)]. *)
Ltac thread_cases H :=
  match type of H with
  | thread_step _ ?j ?t ?s = Some _ => destruct t, j; try discriminate H
  end;
  cbn [thread_step restart_step frame_step turn_step mode_step Restart_section BeginRotation_arm RestartFresh_section nextControlID fst snd] in H;
  repeat case_hyp H; try discriminate H; simplify_eq; sys_cbn.

(** ** Numbers *)

(** The numbers below it have begun. *)
Definition lim (s : sys) : nat := match run s with RBegin k => k | _ => iters s end.

(** [current], and on to [drainRestart]. *)
Definition undrained (p : pc) : option nat :=
  match p with
  | RExited it _ | RDrain it => Some (it_num it)
  | p => it_num <$> current p
  end.

(** From [setStdin] to [takeStdin]. *)
Definition bound (p : pc) : option nat :=
  match p with
  | RBound it _ | RUp it _ | RMode it _ | RInit it | RWait it | RReaped it => Some (it_num it)
  | _ => None
  end.

(** The iteration a caller has a handle of. *)
Definition captured (t : thread) : option nat :=
  match t with
  | THint _ c | TCancel _ c => c
  | WReady w | WWrite w => Some w
  | _ => None
  end.

Definition below (m : nat) (X : gset nat) : Prop := forall k, k ∈ X -> (k < m)%nat.

Record numbers (s : sys) : Prop := {
  nu_begin : forall k, run s = RBegin k -> S k = iters s;
  nu_cancel : iterCancel (inp s) = it_num <$> current (run s);
  nu_undrained : forall k, undrained (run s) = Some k -> (k < lim s)%nat;
  nu_stdin : forall w, stdin (tgt s) = Some w -> bound (run s) = Some w;
  nu_alive : forall k, alive s = Some k -> reading (run s) = Some k;
  nu_sets : below (lim s) (stale (gh s)) /\ below (lim s) (replaced (gh s)) /\ below (lim s) (torn (gh s)) /\
            below (lim s) (killed (gh s));
  nu_threads : forall i t k, ths s !! i = Some t -> captured t = Some k -> (k < lim s)%nat;
}.

Lemma below_mono m m' X : (m <= m')%nat -> below m X -> below m' X.
Proof. intros Hm H k Hk. specialize (H k Hk). lia. Qed.

Lemma below_union m X Y : below m X -> below m Y -> below m (X ∪ Y).
Proof. intros H1 H2 k [?|?]%elem_of_union; eauto. Qed.

Lemma below_opt m (o : option nat) (X : gset nat) :
  (forall k, o = Some k -> (k < m)%nat) -> below m X -> below m (match o with Some k => {[k]} ∪ X | None => X end).
Proof. intros Ho HX. destruct o as [k|]; [|done]. apply below_union; [|done]. intros k' ->%elem_of_singleton. eauto. Qed.

Lemma current_undrained p it : current p = Some it -> undrained p = Some (it_num it).
Proof. by destruct p; intros [= ->]. Qed.

Lemma bound_current p k : bound p = Some k -> exists it, current p = Some it /\ it_num it = k.
Proof. destruct p; intros [= <-]; eexists; split; reflexivity. Qed.

Lemma reading_current p k : reading p = Some k -> exists it, current p = Some it /\ it_num it = k.
Proof. destruct p; intros [= <-]; eexists; split; reflexivity. Qed.

Lemma elem_current_set p k : k ∈ current_set p <-> exists it, current p = Some it /\ it_num it = k.
Proof.
  unfold current_set. destruct (current p) as [it|]; [|set_solver]. rewrite elem_of_singleton.
  split; [intros ->; eauto|]. intros (it' & [= <-] & <-). done.
Qed.

Section inv.
Context (cfg : Config).

Lemma below_current s : numbers s -> below (lim s) (current_set (run s)).
Proof. intros H k (it & Hc & <-)%elem_current_set. by eapply nu_undrained, current_undrained. Qed.

Lemma lim_loop l s s' : loop_step cfg l s = Some s' -> numbers s -> (lim s <= lim s')%nat.
Proof.
  intros H [H1 _ _ _ _ _ _]. loop_cases H; unfold lim; sys_cbn; rewrite ?Hrun in *; try lia.
  specialize (H1 _ eq_refl). lia.
Qed.

Lemma numbers_loop l s s' : loop_step cfg l s = Some s' -> numbers s -> numbers s'.
Proof.
  intros H Hn. pose proof (lim_loop _ _ _ H Hn) as Hlim. destruct Hn as [H1 H2 H3 H4 H5 (H6a & H6b & H6c & H6d) H7].
  assert (forall X, below (lim s) X -> below (lim s') X) as Hb by (intros X; by apply below_mono).
  constructor.
  - loop_cases H; rewrite ?Hrun in *; naive_solver.
  - loop_cases H; rewrite ?Hrun in *; naive_solver.
  - loop_cases H; unfold lim in *; sys_cbn; rewrite ?Hrun in *; cbn in *; naive_solver lia.
  - loop_cases H; rewrite ?Hrun in *; cbn in *; naive_solver.
  - loop_cases H; rewrite ?Hrun in *; cbn in *; naive_solver.
  - apply Hb in H6a, H6b, H6c, H6d. clear -H H6a H6b H6c H6d. revert H6a H6b H6c H6d. generalize (lim s'). intros m.
    loop_cases H; done.
  - intros i t k Hi Hk. eapply Nat.lt_le_trans; [eapply H7|exact Hlim]; [|exact Hk].
    clear -H Hi. revert Hi. loop_cases H; done.
Qed.

(** What a caller's step leaves as it was. *)
Lemma thread_same j t s t' s' :
  thread_step cfg j t s = Some (t', s') ->
  run s' = run s /\ iters s' = iters s /\ alive s' = alive s /\ ths s' = ths s /\ stdin (tgt s') = stdin (tgt s) /\
  iterCancel (inp s') = iterCancel (inp s) /\ parentDone s' = parentDone s /\ torn (gh s') = torn (gh s) /\
  childGeneration (tgt s') = childGeneration (tgt s) /\ unarmed (gh s') = unarmed (gh s) /\
  confirmed (gh s') = confirmed (gh s) /\ adopted (gh s') = adopted (gh s).
Proof.
  intros H. thread_cases H; try by split_and!. all: try (destruct c; by split_and!).
  all: unfold abortRotation; destruct (_ =? _); by split_and!.
Qed.

Lemma lookup_insert_cases {A} (l : list A) i x j y :
  <[i:=x]> l !! j = Some y -> (i = j /\ y = x) \/ (i <> j /\ l !! j = Some y).
Proof. intros [(-> & -> & _)|[]]%list_lookup_insert_Some; auto. Qed.

Lemma numbers_thread i j t s t' s' :
  ths s !! i = Some t -> thread_step cfg j t s = Some (t', s') -> numbers s -> numbers (set_ths (<[i:=t']> (ths s')) s').
Proof.
  intros Hi H Hn. destruct (thread_same _ _ _ _ _ H) as (Er & Ei & Ea & Et & Es & Ec & _ & Ed & _).
  pose proof (below_current _ Hn) as Hcur. destruct Hn as [H1 H2 H3 H4 H5 (H6a & H6b & H6c & H6d) H7].
  assert (lim (set_ths (<[i:=t']> (ths s')) s') = lim s) as Hlim by (unfold lim; sys_cbn; by rewrite Er, Ei).
  assert (forall k, captured t = Some k -> (k < lim s)%nat) as Ht by (intros k; by apply H7 with (i := i)).
  constructor; rewrite ?Hlim; sys_cbn; rewrite ?Er, ?Ei, ?Ea, ?Es, ?Ec, ?Ed; try done.
  - clear H1 H2 H3 H4 H5 H7. split_and!; try done;
      thread_cases H; try done; repeat apply below_union; try done; intros k ->%elem_of_singleton; by apply Ht.
  - intros i' u k Hu Hk. rewrite Et in Hu. apply lookup_insert_cases in Hu as [[<- ->]|[_ Hu]]; [|by eapply H7].
    clear Hlim Er Ei Ea Et Es Ec Ed. thread_cases H; cbn [captured] in *; try done; try (by apply Ht).
    all: try (rewrite H2 in Hk; apply fmap_Some in Hk as (it & Hc & ->); by eapply H3, current_undrained).
    all: try (case_hyp Hk; try done).
    all: injection Hk as <-.
    all: try (unfold turnTargetWithGate in *; repeat case_hyp Heqo; simplify_eq/=).
    all: try (edestruct bound_current as (it & Hc & <-); [by apply H4|]; by eapply H3, current_undrained).
Qed.

Lemma start_claims t s s' : start_ok t s = Some s' -> captured t = None /\ exists b, s' = set_claim b s.
Proof.
  intros H. destruct t; try discriminate H; (split; [done|]); cbn in H.
  2: { destruct (claim s); [done|]. injection H as <-. eauto. }
  all: injection H as <-; exists (claim s); by destruct s.
Qed.

Definition retired (t : target) : target :=
  MkTarget None (childTarget t) false (u64 (childGeneration t + 1)) (childWorkspace t) (childPATH t)
    (rotating t) (rotateGen t) (armFreshSeq t) (tearingDown t) (armChildGen t).

Lemma retire_cases generation t :
  fst (retireStdinGeneration generation t) = t \/
  fst (retireStdinGeneration generation t) = retired t /\ stdin t <> None.
Proof.
  unfold retireStdinGeneration. destruct (stdin t); [|by left]. destruct (_ =? _)%Z; [by right|by left].
Qed.

Lemma numbers_step o s s' : step cfg o s = Some s' -> numbers s -> numbers s'.
Proof.
  intros H Hn. destruct o; simpl in H.
  - unfold start_run in H. case_hyp H; [|done..]. injection H as <-. destruct Hn as [H1 H2 H3 H4 H5 H6 H7].
    constructor; unfold lim in *; sys_cbn; rewrite ?Heqp in *; done.
  - repeat case_hyp H; try done; injection H as <-; destruct Hn; constructor; unfold lim in *; sys_cbn; done.
  - by eapply numbers_loop.
  - case_hyp H; [|done]. injection H as <-. destruct Hn; constructor; unfold lim in *; sys_cbn; done.
  - case_hyp H; [|done]. injection H as <-. destruct Hn; constructor; unfold lim in *; sys_cbn; try done.
    by destruct (_ && _).
  - destruct (start_ok t s) as [s1|] eqn:Hs; [|done]. injection H as <-.
    assert (captured t = None /\ exists b, s1 = set_claim b s) as [Ht [b ->]].
    { by apply start_claims. }
    destruct Hn as [H1 H2 H3 H4 H5 H6 H7]. constructor; unfold lim in *; sys_cbn; try done.
    intros i u k [Hu|(_ & Hu)]%lookup_app_Some Hk; [by eapply H7|].
    apply list_lookup_singleton_Some in Hu as [_ <-]. congruence.
  - destruct (ths s !! i) as [t|] eqn:Hi; [|done]. simpl in H.
    destruct (thread_step cfg j t s) as [[t' s1]|] eqn:Ht; [|done]. injection H as <-. by eapply numbers_thread.
  - injection H as <-. destruct Hn; constructor; unfold lim in *; sys_cbn; done.
  - injection H as <-. destruct Hn; constructor; unfold lim in *; sys_cbn; done.
  - injection H as <-. destruct Hn; constructor; unfold lim in *; sys_cbn; done.
  - injection H as <-. destruct Hn; constructor; unfold lim in *; sys_cbn; done.
  - injection H as <-. unfold AdoptSessionID. destruct Hn; constructor; unfold lim in *; sys_cbn; try done. by destruct (bool_decide _).
  - injection H as <-. pose proof (below_current _ Hn) as Hc. destruct Hn as [H1 H2 H3 H4 H5 (H6a & H6b & H6c & H6d) H7].
    constructor; unfold lim in *; sys_cbn; try done. split_and!; try done. apply below_union; [|done].
    intros k Hk. unfold bound_now in Hk. destruct (stdin (tgt s)) as [w|] eqn:E; [|set_solver].
    apply elem_of_singleton in Hk as ->. apply Hc, elem_current_set, bound_current, H4. done.
  - injection H as <-. destruct Hn as [H1 H2 H3 H4 H5 H6 H7]. constructor; unfold lim in *; sys_cbn; try done.
    intros w. destruct (retire_cases generation (tgt s)) as [->|[-> _]]; [apply H4|done].
Qed.

(** ** Counters *)

Definition bounded (n : Z) (s : sys) : Prop :=
  0 <= freshSeq (inp s) <= n /\ 0 <= rotateGen (tgt s) <= n /\ 0 <= childGeneration (tgt s) <= n /\ 0 <= controlSeq s <= n /\
  armChildGen (tgt s) <= childGeneration (tgt s).

Lemma u64_bounded x n : 0 <= x <= n -> n + 1 < 2 ^ 64 -> u64 (x + 1) = x + 1.
Proof. intros. apply u64_small. lia. Qed.

Ltac bounded_goal n := unfold bounded in *; sys_cbn; rewrite ?(u64_bounded _ n) by lia; lia.

Lemma posture_id_seq it seq seq' pid :
  posture_id cfg it seq = (seq', pid) -> seq' = seq \/ seq' = u64 (seq + 1).
Proof. unfold posture_id. case_match; intros [= <- _]; auto. Qed.

Lemma bounded_step n o s s' : step cfg o s = Some s' -> n + 1 < 2 ^ 64 -> bounded n s -> bounded (n + 1) s'.
Proof.
  intros H Hn Hb. destruct o; simpl in H.
  - unfold start_run in H. case_hyp H; [|done..]. injection H as <-. bounded_goal n.
  - repeat case_hyp H; try done; injection H as <-; bounded_goal n.
  - loop_cases H; try bounded_goal n.
    1,2: destruct (posture_id_seq _ _ _ _ Heqp) as [-> | ->]; bounded_goal n.
    unfold nextControlID. bounded_goal n.
  - case_hyp H; [|done]. injection H as <-. bounded_goal n.
  - case_hyp H; [|done]. injection H as <-. bounded_goal n.
  - destruct (start_ok t s) as [s1|] eqn:Hs; [|done]. injection H as <-. apply start_claims in Hs as [_ [b ->]]. bounded_goal n.
  - destruct (ths s !! i) as [t|]; [|done]. simpl in H.
    destruct (thread_step cfg j t s) as [[t' s1]|] eqn:Ht; [|done]. injection H as <-.
    thread_cases Ht; try bounded_goal n. unfold abortRotation. case_match; bounded_goal n.
  - injection H as <-. bounded_goal n.
  - injection H as <-. bounded_goal n.
  - injection H as <-. bounded_goal n.
  - injection H as <-. bounded_goal n.
  - injection H as <-. unfold AdoptSessionID. case_match; bounded_goal n.
  - injection H as <-. bounded_goal n.
  - injection H as <-. sys_cbn. destruct (retire_cases generation (tgt s)) as [->|[-> _]]; [bounded_goal n|unfold retired; bounded_goal n].
Qed.

(** ** One frame at a time *)

Definition frame (t : thread) : bool :=
  match t with
  | FRead _ | FArm _ _ | FRotate _ _ _ | FAbort _ _ | FInstall _ | FFresh _ | THint true _ | TCancel true _ => true
  | _ => false
  end.

Record frames (s : sys) : Prop := {
  fr_claim : forall i t, ths s !! i = Some t -> frame t = true -> claim s = true;
  fr_one : forall i j t u, ths s !! i = Some t -> ths s !! j = Some u -> frame t = true -> frame u = true -> i = j;
}.

Lemma thread_frame j t s t' s' :
  thread_step cfg j t s = Some (t', s') ->
  (frame t' = true -> frame t = true) /\
  (claim s' = claim s \/ (claim s' = false /\ frame t = true /\ frame t' = false)).
Proof. intros H. thread_cases H; try (destruct c); try (destruct fresh); auto. Qed.

Lemma frames_thread i j t s t' s' :
  ths s !! i = Some t -> thread_step cfg j t s = Some (t', s') -> frames s -> frames (set_ths (<[i:=t']> (ths s')) s').
Proof.
  intros Hi H [H1 H2]. destruct (thread_same _ _ _ _ _ H) as (_ & _ & _ & Et & _).
  destruct (thread_frame _ _ _ _ _ H) as [Hf Hc]. constructor; sys_cbn; rewrite Et.
  - intros k u [[<- ->]|[Hk Hu]]%lookup_insert_cases Hfu; destruct Hc as [->|(-> & ? & ?)]; try congruence; eauto.
  - intros k l u v [[<- ->]|[Hk Hu]]%lookup_insert_cases [[<- ->]|[Hl Hv]]%lookup_insert_cases Hfu Hfv; try done; eauto.
Qed.

Lemma same_threads s s' : ths s' = ths s -> claim s' = claim s -> frames s -> frames s'.
Proof. intros E1 E2 [H1 H2]. constructor; rewrite E1, ?E2; eauto. Qed.

Lemma loop_same l s s' :
  loop_step cfg l s = Some s' ->
  ths s' = ths s /\ claim s' = claim s /\ poolID s' = poolID s /\ sessionID (inp s') = sessionID (inp s) /\
  freshSeq (inp s') = freshSeq (inp s) /\ stale (gh s') = stale (gh s) /\ replaced (gh s') = replaced (gh s) /\
  torn (gh s') = torn (gh s) /\ adopted (gh s') = adopted (gh s) /\ dropped (gh s') = dropped (gh s) /\
  killed (gh s') = killed (gh s) /\ confirmed (gh s') = confirmed (gh s).
Proof. intros H. loop_cases H; by split_and!. Qed.

(** The steps of neither the loop nor a caller leave the threads alone, but
    for a call that starts. *)
Definition plain (o : op) : bool :=
  match o with OLoop _ | OThread _ _ | OStart _ => false | _ => true end.

Lemma plain_same o s s' :
  plain o = true -> step cfg o s = Some s' ->
  ths s' = ths s /\ claim s' = claim s /\ freshSeq (inp s') = freshSeq (inp s) /\
  stale (gh s') = stale (gh s) /\ replaced (gh s') = replaced (gh s) /\ killed (gh s') = killed (gh s) /\
  dropped (gh s') = dropped (gh s) /\ cancelled s' = cancelled s /\ restartCh s' = restartCh s /\
  rotating (tgt s') = rotating (tgt s) /\ rotateGen (tgt s') = rotateGen (tgt s) /\ armFreshSeq (tgt s') = armFreshSeq (tgt s) /\
  current (run s') = current (run s) /\ undrained (run s') = undrained (run s) /\ bound (run s') = bound (run s) /\
  unarmed (gh s') = unarmed (gh s).
Proof.
  intros Hp H. destruct o; try done; simpl in H.
  - unfold start_run in H. case_hyp H; try done. injection H as <-. by split_and!.
  - repeat case_hyp H; try done; injection H as <-; split_and!; sys_cbn; try done; by rewrite ?Heqp.
  - case_hyp H; [|done]. injection H as <-. by split_and!.
  - case_hyp H; [|done]. injection H as <-. split_and!; sys_cbn; try done; by destruct (_ && _).
  - injection H as <-. by split_and!.
  - injection H as <-. by split_and!.
  - injection H as <-. by split_and!.
  - injection H as <-. by split_and!.
  - injection H as <-. unfold AdoptSessionID. split_and!; sys_cbn; try done; by case_match.
  - injection H as <-. by split_and!.
  - injection H as <-. sys_cbn. destruct (retire_cases generation (tgt s)) as [->|[-> _]]; by split_and!.
Qed.

Lemma frames_step o s s' : step cfg o s = Some s' -> frames s -> frames s'.
Proof.
  intros H Hf. destruct (plain o) eqn:Hp.
  { destruct (plain_same _ _ _ Hp H) as (Et & Ec & _). by eapply same_threads. }
  destruct o; try done; simpl in H.
  - destruct (loop_same _ _ _ H) as (Et & Ec & _). by eapply same_threads.
  - destruct (start_ok t s) as [s1|] eqn:Hs; [|done]. injection H as <-. destruct Hf as [H1 H2].
    assert (ths s1 = ths s /\ if frame t then claim s = false /\ claim s1 = true else claim s1 = claim s) as [Et Hc].
    { destruct t; try discriminate Hs; cbn in Hs; [by injection Hs as <-| |by injection Hs as <-..].
      destruct (claim s) eqn:E; [done|]. by injection Hs as <-. }
    constructor; sys_cbn; rewrite Et.
    + intros i u [Hu|[_ Hu]]%lookup_app_Some Hfu.
      * specialize (H1 _ _ Hu Hfu). destruct (frame t); [by destruct Hc|congruence].
      * apply list_lookup_singleton_Some in Hu as [_ <-]. rewrite Hfu in Hc. apply Hc.
    + intros i j u v [Hu|[Hi Hu]]%lookup_app_Some [Hv|[Hj Hv]]%lookup_app_Some Hfu Hfv; [by eapply H2|..].
      * apply list_lookup_singleton_Some in Hv as [_ <-]. rewrite Hfv in Hc. destruct Hc as [Hc _].
        rewrite (H1 _ _ Hu Hfu) in Hc. done.
      * apply list_lookup_singleton_Some in Hu as [_ <-]. rewrite Hfu in Hc. destruct Hc as [Hc _].
        rewrite (H1 _ _ Hv Hfv) in Hc. done.
      * apply list_lookup_singleton_Some in Hu as [Hu _], Hv as [Hv _]. lia.
  - destruct (ths s !! i) as [t|] eqn:Hi; [|done]. simpl in H.
    destruct (thread_step cfg j t s) as [[t' s1]|] eqn:Ht; [|done]. injection H as <-. by eapply frames_thread.
Qed.

End inv.
End StreamInv.
