(* ===== verification/StreamRotation.v ===== *)
(** * The supervised stream: the gates, rotations and teardowns

    Who may be given a turn: the invariant that ties the gates' counters to the
    rotations that have landed, and what follows of it. *)
From Stdlib Require Import Ascii String.
From stdpp Require Import prelude strings list gmap.
From S2P Require Import Prelude Utf8 Strconv StreamArgs StreamRunner StreamSystem StreamInv.

Module StreamRotation.

Import Strconv StreamArgs StreamRunner StreamSystem StreamInv.

Local Open Scope Z_scope.

(** ** The invariant *)

(** The current iteration was set up after the last rotation that landed. *)
Definition aligned (s : sys) : Prop := forall it, current (run s) = Some it -> it_fresh it = freshSeq (inp s).

(** Between [BeginRotation]'s arm and the end of [RestartFresh]'s section. *)
Definition armed (t : thread) : bool :=
  match t with FRotate _ _ _ | FAbort _ _ | FInstall _ | FFresh _ => true | _ => false end.

Definition thread_ok (s : sys) (t : thread) : Prop :=
  match t with
  | FArm _ seq => seq = freshSeq (inp s)
  | FRotate _ gen was | FAbort gen was =>
      rotating (tgt s) = true /\ rotateGen (tgt s) = gen /\ armFreshSeq (tgt s) = freshSeq (inp s) /\
      (was = false -> dropped (gh s) = false -> aligned s)
  | FInstall new | FFresh new =>
      rotating (tgt s) = true /\ armFreshSeq (tgt s) = freshSeq (inp s) /\ (adopted (gh s) = false -> poolID s = new)
  | _ => True
  end.

(** Before [setStdin]. *)
Definition prebind (p : pc) : option nat :=
  match p with
  | RBegin k => Some k
  | RProbe it | RSetup it _ | RStarted it _ | RArmed it _ _ => Some (it_num it)
  | _ => None
  end.

Record rotation (s : sys) : Prop := {
  ro_le : forall it, current (run s) = Some it -> it_fresh it <= freshSeq (inp s);
  ro_arm : rotating (tgt s) = true ->
    armFreshSeq (tgt s) + 1 = freshSeq (inp s) \/ exists i t, ths s !! i = Some t /\ armed t = true;
  ro_thread : forall i t, ths s !! i = Some t -> thread_ok s t;
  ro_aligned : dropped (gh s) = false -> rotating (tgt s) = false -> aligned s;
  ro_replaced : forall it, current (run s) = Some it -> it_num it ∈ replaced (gh s) -> it_fresh it < freshSeq (inp s);
  ro_id : adopted (gh s) = false -> forall it, current (run s) = Some it -> it_fresh it = freshSeq (inp s) ->
    it_id it = sessionID (inp s);
  ro_pool : adopted (gh s) = false ->
    poolID s = sessionID (inp s) \/ exists i t, ths s !! i = Some t /\ (t = FInstall (poolID s) \/ t = FFresh (poolID s));
  ro_torn : forall w, stdin (tgt s) = Some w -> w ∈ torn (gh s) -> tearingDown (tgt s) = true;
  ro_prebind : forall k, prebind (run s) = Some k -> k ∉ torn (gh s);
}.

Lemma armed_frame t : armed t = true -> frame t = true.
Proof. by destruct t. Qed.

Section steps.
Context (cfg : Config).

(** ** The loop keeps it *)

(** While a frame is between its arm and its landing, the gate is up and its
    threshold is the count of rotations landed. *)
Lemma armed_threshold s : rotation s -> rotating (tgt s) = true ->
  armFreshSeq (tgt s) + 1 = freshSeq (inp s) \/ armFreshSeq (tgt s) = freshSeq (inp s).
Proof.
  intros Hr H. destruct (ro_arm _ Hr H) as [?|(i & t & Hi & Ha)]; [by left|]. right.
  pose proof (ro_thread _ Hr _ _ Hi) as Ht. destruct t; try done; apply Ht.
Qed.

(** How a step of the loop moves the iteration and the gates. *)
Lemma loop_moves l s s' :
  loop_step cfg l s = Some s' ->
  (current (run s') = None \/ current (run s') = current (run s) \/
   exists k, run s = RBegin k /\ run s' = RProbe (snd (fst (beginSpawn_section k (inp s))))) /\
  (tgt s' = tgt s \/ (exists it e pid, run s = RArmed it e pid /\ run s' = RBound it pid /\ tgt s' = setStdin (it_num it) (it_fresh it) e (tgt s)) \/
   (rotating (tgt s') = rotating (tgt s) /\ rotateGen (tgt s') = rotateGen (tgt s) /\ armFreshSeq (tgt s') = armFreshSeq (tgt s) /\
    tearingDown (tgt s') = tearingDown (tgt s) /\ (stdin (tgt s') = stdin (tgt s) \/ stdin (tgt s') = None))) /\
  (prebind (run s') = None \/ prebind (run s') = prebind (run s) \/ prebind (run s') = Some (iters s) /\ run s = RTop).
Proof.
  intros H. loop_cases H; (split; [|split]); cbn [prebind]; eauto 10.
  all: try (right; right; by split_and!; auto).
Qed.

Lemma rotation_loop l s s' :
  loop_step cfg l s = Some s' -> numbers s -> rotation s -> rotation s'.
Proof.
  intros H Hn Hr. pose proof (numbers_loop _ _ _ _ H Hn) as Hn'.
  destruct (loop_same _ _ _ _ H) as (Et & Ec & Ep & Es & Ef & _ & Er & Ed & Ea & Edr & _).
  destruct (loop_moves _ _ _ H) as (Hcur & Htgt & Hpre).
  assert (Hnew : forall it, current (run s') = Some it -> current (run s) = Some it \/
    (it_fresh it = freshSeq (inp s) /\ it_id it = sessionID (inp s) /\ it_num it ∉ replaced (gh s))).
  { intros it Hit. destruct Hcur as [Hc|[Hc|(k & Hk & Hp)]]; [congruence|left; congruence|].
    rewrite Hp in Hit. injection Hit as <-. right. split_and!; try done. cbn. intros Hin.
    destruct (nu_sets _ Hn) as (_ & Hb & _). specialize (Hb _ Hin). unfold lim in Hb. rewrite Hk in Hb. lia. }
  assert (Hal : aligned s -> aligned s').
  { intros Ha it Hit. rewrite Ef. destruct (Hnew _ Hit) as [Hit'|(-> & _)]; [by apply Ha|done]. }
  assert (Hle : forall it, current (run s') = Some it -> it_fresh it <= freshSeq (inp s')).
  { intros it Hit. rewrite Ef. destruct (Hnew _ Hit) as [Hit'|(-> & _)]; [by eapply ro_le|lia]. }
  (* either the gates are as they were, or a child binds *)
  assert (Hgate : rotating (tgt s') = rotating (tgt s) /\ armFreshSeq (tgt s') = armFreshSeq (tgt s) /\ rotateGen (tgt s') = rotateGen (tgt s) \/
    exists it, current (run s) = Some it /\ current (run s') = Some it /\ armFreshSeq (tgt s) < it_fresh it /\ rotating (tgt s') = false).
  { destruct Htgt as [->|[(it & e & pid & Hp & Hp' & ->)|(-> & -> & -> & _)]]; [by left| |by left].
    unfold setStdin. cbn [rotating armFreshSeq rotateGen]. destruct (Z.ltb_spec (armFreshSeq (tgt s)) (it_fresh it)); [|by left].
    right. exists it. by rewrite Hp, Hp'. }
  assert (Hbind : forall it, current (run s) = Some it -> armFreshSeq (tgt s) < it_fresh it -> rotating (tgt s) = true -> it_fresh it = freshSeq (inp s)).
  { intros it Hit Hlt Hrot. pose proof (ro_le _ Hr _ Hit). destruct (armed_threshold _ Hr Hrot); lia. }
  constructor; rewrite ?Et, ?Ef, ?Er, ?Ea, ?Ep, ?Es, ?Edr, ?Ed; try done.
  - rewrite <- Ef. exact Hle.
  - intros Hrot. destruct Hgate as [(E1 & E2 & _)|(? & _ & _ & _ & ?)]; [|congruence]. rewrite E2. apply (ro_arm _ Hr). congruence.
  - intros i t Hi. pose proof (ro_thread _ Hr _ _ Hi) as Ht.
    destruct Hgate as [(E1 & E2 & E3)|(it & Hit & _ & Hlt & _)].
    + destruct t; cbn [thread_ok] in *; rewrite ?E1, ?E2, ?E3, ?Ef, ?Edr, ?Ea, ?Ep; naive_solver.
    + (* a frame between its arm and its landing refuses the bind *)
      pose proof (ro_le _ Hr _ Hit). destruct t; cbn [thread_ok] in *; rewrite ?Ef; try done; destruct Ht as (_ & Ht); lia.
  - intros Hdr Hrot. destruct Hgate as [(E1 & _)|(it & Hit & Hit' & Hlt & _)]; [apply Hal, (ro_aligned _ Hr); congruence|].
    destruct (rotating (tgt s)) eqn:Erot; [|apply Hal, (ro_aligned _ Hr); congruence].
    intros it' Hit''. rewrite Hit' in Hit''. injection Hit'' as <-. rewrite Ef. eauto.
  - intros it Hit Hin. destruct (Hnew _ Hit) as [Hit'|(_ & _ & ?)]; [by eapply ro_replaced|done].
  - intros Had it Hit Hf. destruct (Hnew _ Hit) as [Hit'|(_ & ? & _)]; [by eapply ro_id|done].
  - apply (ro_pool _ Hr).
  - intros w Hw Hin. destruct Htgt as [E|[(it & e & pid & Hp & _ & E)|(_ & _ & _ & E1 & [E2|E2])]].
    + rewrite E in *. by eapply ro_torn.
    + rewrite E in Hw. injection Hw as <-. destruct (ro_prebind _ Hr (it_num it)); [by rewrite Hp|done].
    + rewrite E1. rewrite E2 in Hw. by eapply ro_torn.
    + congruence.
  - intros k Hk. destruct Hpre as [E|[E|[E Hp]]]; rewrite E in Hk; [done|by apply (ro_prebind _ Hr)|].
    injection Hk as <-. intros Hin. destruct (nu_sets _ Hn) as (_ & _ & Hb & _). specialize (Hb _ Hin).
    unfold lim in Hb. rewrite Hp in Hb. lia.
Qed.

(** ** The callers keep it *)

(** What the invariant reads besides the threads. *)
Definition view (s : sys) :=
  (run s, freshSeq (inp s), sessionID (inp s), poolID s,
   (rotating (tgt s), rotateGen (tgt s), armFreshSeq (tgt s), tearingDown (tgt s), stdin (tgt s)),
   (replaced (gh s), torn (gh s), adopted (gh s), dropped (gh s))).

Lemma thread_ok_view s s' t : view s' = view s -> thread_ok s t -> thread_ok s' t.
Proof.
  unfold view. intros [= E1 E2 E3 E4 E5 E6 E7 E8 E9 E10 E11 E12 E13] H.
  destruct t; cbn [thread_ok] in *; try done; rewrite ?E2, ?E4, ?E5, ?E6, ?E7, ?E12; try done.
  all: unfold aligned in *; rewrite E1, E2, E13; apply H.
Qed.

Lemma rotation_view s s' :
  view s' = view s -> rotation s ->
  (forall i t, ths s' !! i = Some t -> thread_ok s t) ->
  ((exists i t, ths s !! i = Some t /\ armed t = true) -> exists i t, ths s' !! i = Some t /\ armed t = true) ->
  ((exists i t, ths s !! i = Some t /\ (t = FInstall (poolID s) \/ t = FFresh (poolID s))) ->
   exists i t, ths s' !! i = Some t /\ (t = FInstall (poolID s) \/ t = FFresh (poolID s))) ->
  rotation s'.
Proof.
  intros Hv [H1 H2 H3 H4 H5 H6 H7 H8 H9] Ht Ha Hi.
  assert (forall i t, ths s' !! i = Some t -> thread_ok s' t) as Ht' by (intros i t Hit; eapply thread_ok_view; eauto).
  unfold view in Hv. injection Hv as E1 E2 E3 E4 E5 E6 E7 E8 E9 E10 E11 E12 E13.
  constructor; unfold aligned in *; rewrite ?E1, ?E2, ?E3, ?E4, ?E5, ?E6, ?E7, ?E8, ?E9, ?E10, ?E11, ?E12, ?E13; try done.
  - intros Hr. destruct (H2 Hr); auto.
  - intros Had. destruct (H7 Had); auto.
Qed.

(** A thread's step that leaves the view as it is. *)
Lemma rotation_thread_view i t t' s s' :
  ths s !! i = Some t -> ths s' = <[i:=t']> (ths s) -> view s' = view s -> rotation s -> thread_ok s t' ->
  (armed t = true -> armed t' = true) ->
  (forall new, t = FInstall new \/ t = FFresh new -> t' = FInstall new \/ t' = FFresh new) -> rotation s'.
Proof.
  intros Hi Et Hv Hr Hok Ha Hf. eapply rotation_view; [exact Hv|exact Hr| | |]; rewrite Et.
  - intros j u [[<- ->]|[_ Hu]]%lookup_insert_cases; [done|by eapply ro_thread].
  - intros (j & u & Hu & Hau). destruct (decide (i = j)) as [<-|Hne].
    + exists i, t'. rewrite list_lookup_insert_eq by (by eapply lookup_lt_Some). split; [done|]. apply Ha. congruence.
    + exists j, u. by rewrite list_lookup_insert_ne.
  - intros (j & u & Hu & Hau). destruct (decide (i = j)) as [<-|Hne].
    + exists i, t'. rewrite list_lookup_insert_eq by (by eapply lookup_lt_Some). split; [done|]. apply Hf.
      assert (u = t) as -> by congruence. done.
    + exists j, u. by rewrite list_lookup_insert_ne.
Qed.

(** Where a frame steps, the other threads are no frames, and say nothing. *)
Lemma others_ok s s' i j t u :
  frames s -> ths s !! i = Some t -> frame t = true -> i <> j -> ths s !! j = Some u -> thread_ok s' u.
Proof.
  intros [_ H] Hi Ht Hne Hj. destruct (frame u) eqn:E; [destruct Hne; by eapply H|]. by destruct u.
Qed.

Lemma insert_self (l : list thread) i t t' : l !! i = Some t -> <[i:=t']> l !! i = Some t'.
Proof. intros H. apply list_lookup_insert_eq. by eapply lookup_lt_Some. Qed.

Lemma rotation_arm n i old seq s :
  ths s !! i = Some (FArm old seq) -> bounded n s -> n + 1 < 2 ^ 64 -> frames s -> rotation s ->
  let '(t', gen) := BeginRotation_arm seq (tgt s) in
  rotation (set_ths (<[i:=FRotate old gen (rotating (tgt s))]> (ths s)) (set_tgt t' s)).
Proof.
  intros Hi Hb Hn Hf Hr. cbn [BeginRotation_arm]. pose proof (ro_thread _ Hr _ _ Hi) as Hok. cbn in Hok.
  pose proof (insert_self _ _ _ (FRotate old (u64 (rotateGen (tgt s) + 1)) (rotating (tgt s))) Hi) as Hself.
  destruct Hr as [H1 H2 H3 H4 H5 H6 H7 H8 H9]. constructor; sys_cbn; try done.
  - intros _. right. by do 2 eexists.
  - intros j u [[<- ->]|[Hne Hu]]%lookup_insert_cases; [|by eapply (others_ok s _ _ _ _ _ Hf Hi)].
    cbn [thread_ok]. sys_cbn. split_and!; try done. intros Hw Hd. by apply H4.
  - intros Had. destruct (H7 Had) as [?|(j & u & Hj & Hu)]; [by left|]. right. exists j, u. split; [|done].
    rewrite list_lookup_insert_ne; [done|]. intros <-. rewrite Hi in Hj. by destruct Hu; simplify_eq.
Qed.

Lemma rotation_rotate i old gen was new s :
  ths s !! i = Some (FRotate old gen was) -> frames s -> rotation s ->
  rotation (set_ths (<[i:=FInstall new]> (ths s)) (set_poolID new s)).
Proof.
  intros Hi Hf Hr. pose proof (ro_thread _ Hr _ _ Hi) as (Ho1 & Ho2 & Ho3 & _).
  pose proof (insert_self _ _ _ (FInstall new) Hi) as Hself.
  destruct Hr as [H1 H2 H3 H4 H5 H6 H7 H8 H9]. constructor; sys_cbn; try done.
  - intros _. right. by do 2 eexists.
  - intros j u [[<- ->]|[Hne Hu]]%lookup_insert_cases; [done|by eapply (others_ok s _ _ _ _ _ Hf Hi)].
  - intros Had. right. eauto.
Qed.

Lemma rotation_abort i gen was s :
  ths s !! i = Some (FAbort gen was) -> frames s -> rotation s ->
  rotation (set_ths (<[i:=TDone]> (ths s)) (set_claim false (set_tgt (abortRotation gen (tgt s))
    (note (fun g => set_dropped (dropped g || (was && (rotateGen (tgt s) =? gen))) g) s)))).
Proof.
  intros Hi Hf Hr. pose proof (ro_thread _ Hr _ _ Hi) as (Ho1 & Ho2 & Ho3 & Ho4).
  pose proof (insert_self _ _ _ TDone Hi) as Hself.
  destruct Hr as [H1 H2 H3 H4 H5 H6 H7 H8 H9]. unfold abortRotation. rewrite <- Ho2, Z.eqb_refl. constructor; sys_cbn; try done.
  - intros j u [[<- ->]|[Hne Hu]]%lookup_insert_cases; [done|by eapply (others_ok s _ _ _ _ _ Hf Hi)].
  - intros Hd _. apply orb_false_iff in Hd as [Hd Hw]. rewrite andb_true_r in Hw. by apply Ho4.
  - intros Had. destruct (H7 Had) as [?|(j & u & Hj & Hu)]; [by left|]. right. exists j, u. split; [|done].
    rewrite list_lookup_insert_ne; [done|]. intros <-. rewrite Hi in Hj. by destruct Hu; simplify_eq.
Qed.

Lemma rotation_land n i new s :
  ths s !! i = Some (FFresh new) -> bounded n s -> n + 1 < 2 ^ 64 -> numbers s -> frames s -> rotation s ->
  let '(inp', c) := RestartFresh_section new (inp s) in
  rotation (set_ths (<[i:=THint true c]> (ths s))
    (note (fun g => set_stale (current_set (run s) ∪ stale g) (set_replaced (current_set (run s) ∪ replaced g) g)) (set_inp inp' s))).
Proof.
  intros Hi Hb Hn Hnu Hf Hr. cbn [RestartFresh_section]. pose proof (ro_thread _ Hr _ _ Hi) as (Ho1 & Ho2 & Ho3).
  destruct Hb as (Hb & _). destruct Hr as [H1 H2 H3 H4 H5 H6 H7 H8 H9].
  rewrite (u64_bounded _ n) by lia. constructor; sys_cbn; try done.
  - intros it Hit. specialize (H1 _ Hit). lia.
  - intros _. left. lia.
  - intros j u [[<- ->]|[Hne Hu]]%lookup_insert_cases; [done|by eapply (others_ok s _ _ _ _ _ Hf Hi)].
  - congruence.
  - intros it Hit _. specialize (H1 _ Hit). lia.
  - intros _ it Hit Hfr. specialize (H1 _ Hit). lia.
  - intros Had. left. auto.
Qed.

Lemma rotation_thread n i j t s t' s' :
  ths s !! i = Some t -> thread_step cfg j t s = Some (t', s') ->
  bounded n s -> n + 1 < 2 ^ 64 -> numbers s -> frames s -> rotation s -> rotation (set_ths (<[i:=t']> (ths s')) s').
Proof.
  intros Hi H Hb Hn Hnu Hf Hr. pose proof (ro_thread _ Hr _ _ Hi) as Hok.
  thread_cases H.
  all: try exact (rotation_arm n _ _ _ _ Hi Hb Hn Hf Hr).
  all: try exact (rotation_land n _ _ _ Hi Hb Hn Hnu Hf Hr).
  all: try (by eapply rotation_rotate).
  all: try (by eapply rotation_abort).
  all: try (eapply rotation_thread_view; [exact Hi|done|done|done|done|by intros|by intros ? [?|?]; simplify_eq; auto]).
Qed.

Lemma rotation_step n o s s' :
  step cfg o s = Some s' -> bounded n s -> n + 1 < 2 ^ 64 -> numbers s -> frames s -> rotation s -> rotation s'.
Proof.
  intros H Hb Hn Hnu Hf Hr. destruct o; simpl in H.
  3: { by eapply rotation_loop. }
  5: { destruct (start_ok t s) as [s1|] eqn:Hs; [|done]. injection H as <-.
       assert (thread_ok s t) as Hok by (destruct t; try discriminate Hs; done).
       apply start_claims in Hs as [_ [b ->]]. eapply rotation_view; [|exact Hr| | |]; sys_cbn; [done|..].
       - intros i u [Hu|[_ Hu]]%lookup_app_Some; [by eapply ro_thread|].
         by apply list_lookup_singleton_Some in Hu as [_ <-].
       - intros (i & u & Hu & Ha). exists i, u. split; [by apply lookup_app_l_Some|done].
       - intros (i & u & Hu & Ha). exists i, u. split; [by apply lookup_app_l_Some|done]. }
  5: { destruct (ths s !! i) as [t|] eqn:Hi; [|done]. simpl in H.
       destruct (thread_step cfg j t s) as [[t' s1]|] eqn:Ht; [|done]. injection H as <-. by eapply rotation_thread. }
  - unfold start_run in H. case_hyp H; [|done..]. injection H as <-. destruct Hr as [H1 H2 H3 H4 H5 H6 H7 H8 H9].
    constructor; sys_cbn; try done. intros i t Hi. specialize (H3 _ _ Hi).
    destruct t; cbn [thread_ok] in *; sys_cbn; try done; unfold aligned in *; rewrite ?Heqp in *; naive_solver.
  - assert (s' = set_parentDone true s) as -> by (repeat case_hyp H; try done; by injection H as <-).
    apply (rotation_view s); [done|exact Hr|apply (ro_thread _ Hr)|done|done].
  - case_hyp H; [|done]. injection H as <-. apply (rotation_view s); [done|exact Hr|apply (ro_thread _ Hr)|done|done].
  - case_hyp H; [|done]. injection H as <-.
    apply (rotation_view s); [unfold view; sys_cbn; by destruct (_ && _)|exact Hr|apply (ro_thread _ Hr)|done|done].
  - injection H as <-. apply (rotation_view s); [done|exact Hr|apply (ro_thread _ Hr)|done|done].
  - injection H as <-. apply (rotation_view s); [done|exact Hr|apply (ro_thread _ Hr)|done|done].
  - injection H as <-. apply (rotation_view s); [done|exact Hr|apply (ro_thread _ Hr)|done|done].
  - injection H as <-. destruct Hr as [H1 H2 H3 H4 H5 H6 H7 H8 H9]. constructor; sys_cbn; try done.
    intros i t Hi. specialize (H3 _ _ Hi). destruct t; cbn [thread_ok] in *; sys_cbn; try done; naive_solver.
  - injection H as <-.
    assert (freshSeq (AdoptSessionID id (inp s) : inputs) = freshSeq (inp s)) as E by (unfold AdoptSessionID; by case_match).
    destruct Hr as [H1 H2 H3 H4 H5 H6 H7 H8 H9]. constructor; unfold aligned in *; sys_cbn; rewrite ?E; try done.
    intros i t Hi. specialize (H3 _ _ Hi).
    destruct t; cbn [thread_ok] in *; unfold aligned in *; sys_cbn; rewrite ?E; try done; naive_solver.
  - injection H as <-. destruct Hr as [H1 H2 H3 H4 H5 H6 H7 H8 H9]. constructor; sys_cbn; try done.
    intros k Hk [Hin|Hin]%elem_of_union; [|by eapply H9]. unfold bound_now in Hin.
    destruct (stdin (tgt s)) as [w|] eqn:E; [|set_solver]. apply (nu_stdin _ Hnu) in E. by destruct (run s).
  - injection H as <-. sys_cbn. destruct (retire_cases generation (tgt s)) as [->|[-> _]].
    + apply (rotation_view s); [done|exact Hr|apply (ro_thread _ Hr)|done|done].
    + destruct Hr as [H1 H2 H3 H4 H5 H6 H7 H8 H9]. by constructor.
Qed.

(** ** Reachable states *)

Lemma init_ok s : init cfg = Some s -> bounded 0 s /\ numbers s /\ frames s /\ rotation s.
Proof.
  unfold init. destruct (New cfg) as [[[i t] g]|] eqn:E; [|done]. intros [= <-].
  unfold New in E. repeat case_hyp E; try done. all: injection E as <- <- <-.
  all: split; [split_and!; cbn; lia|split; [constructor; try done; split_and!; by intros ? ?%not_elem_of_empty|]].
  all: split; constructor; try done; auto.
Qed.

Lemma exec_keeps os n s s' :
  exec cfg os s = Some s' -> n + Z.of_nat (length os) < 2 ^ 64 ->
  bounded n s -> numbers s -> frames s -> rotation s ->
  bounded (n + Z.of_nat (length os)) s' /\ numbers s' /\ frames s' /\ rotation s'.
Proof.
  revert n s. induction os as [|o os IH]; intros n s H Hn Hb Hnu Hf Hr; cbn [exec length] in *.
  { injection H as <-. by rewrite Z.add_0_r. }
  destruct (step cfg o s) as [s1|] eqn:Hs; [|done]. simpl in H.
  replace (n + Z.of_nat (S (length os))) with (n + 1 + Z.of_nat (length os)) by lia.
  eapply IH; [exact H|lia|eapply bounded_step; [exact Hs|lia|done]|by eapply numbers_step|by eapply frames_step|].
  eapply rotation_step; [exact Hs|exact Hb|lia|done..].
Qed.

Lemma reached_ok os s : reaches_by cfg os s ->
  bounded (2 ^ 64 - 2) s /\ numbers s /\ frames s /\ rotation s.
Proof.
  intros [Hl H]. destruct (init cfg) as [s0|] eqn:E; [|done]. simpl in H.
  destruct (init_ok _ E) as (Hb & Hnu & Hf & Hr).
  destruct (exec_keeps os 0 _ _ H ltac:(lia) Hb Hnu Hf Hr) as (Hb' & ? & ? & ?). split_and!; try done; unfold bounded in *; lia.
Qed.

End steps.

(** ** What follows *)

(** A handle is there from the bind of its child on. *)
Lemma bind_step cfg o s s' w :
  step cfg o s = Some s' -> stdin (tgt s') = Some w ->
  stdin (tgt s) = Some w \/ exists l it e pid, o = OLoop l /\ run s = RArmed it e pid /\ it_num it = w.
Proof.
  intros H Hw. destruct o as [| |l| |sub id|t|i j|a|m|r d|id|id| |g]; simpl in H.
  3: { destruct (loop_moves _ _ _ _ H) as (_ & [E|[(it & e & pid & Hp & _ & E)|(_ & _ & _ & _ & [E|E])]] & _);
         rewrite E in Hw; [by left| |by left|done]. right. injection Hw as <-. by exists l, it, e, pid. }
  5: { destruct (start_ok t s) as [s1|] eqn:Hs; [|done]. injection H as <-. apply start_claims in Hs as [_ [b ->]]. by left. }
  5: { destruct (ths s !! i) as [t|]; [|done]. simpl in H. destruct (thread_step cfg j t s) as [[t' s1]|] eqn:Ht; [|done].
       injection H as <-. left. destruct (thread_same _ _ _ _ _ _ Ht) as (_ & _ & _ & _ & E & _). by rewrite <- E. }
  all: try (injection H as <-; by left).
  - unfold start_run in H. case_hyp H; [|done..]. injection H as <-. by left.
  - assert (s' = set_parentDone true s) as -> by (repeat case_hyp H; try done; by injection H as <-). by left.
  - case_hyp H; [|done]. injection H as <-. by left.
  - case_hyp H; [|done]. injection H as <-. by left.
  - injection H as <-. left. revert Hw. sys_cbn. destruct (retire_cases g (tgt s)) as [->|[-> _]]; [done|]. done.
Qed.

Lemma torn_step cfg o s s' : step cfg o s = Some s' -> torn (gh s) ⊆ torn (gh s').
Proof.
  intros H. destruct o as [| |l| |sub id|t|i j|a|m|r d|id|id| |g]; simpl in H.
  3: { by destruct (loop_same _ _ _ _ H) as (_ & _ & _ & _ & _ & _ & _ & -> & _). }
  5: { destruct (start_ok t s) as [s1|] eqn:Hs; [|done]. injection H as <-. apply start_claims in Hs as [_ [b ->]]. done. }
  5: { destruct (ths s !! i) as [t|]; [|done]. simpl in H. destruct (thread_step cfg j t s) as [[t' s1]|] eqn:Ht; [|done].
       injection H as <-. sys_cbn. by destruct (thread_same _ _ _ _ _ _ Ht) as (_ & _ & _ & _ & _ & _ & _ & -> & _). }
  all: try (injection H as <-; done).
  - unfold start_run in H. case_hyp H; [|done..]. by injection H as <-.
  - by assert (s' = set_parentDone true s) as -> by (repeat case_hyp H; try done; by injection H as <-).
  - case_hyp H; [|done]. by injection H as <-.
  - case_hyp H; [|done]. injection H as <-. sys_cbn. by case_goal.
  - injection H as <-. sys_cbn. set_solver.
Qed.

(** In the run [os] from [s], the child [w] binds. *)
Definition binds_in (cfg : Config) (w : nat) (os : list op) (s : sys) : Prop :=
  exists os1 l os2 s1 it e pid, os = os1 ++ OLoop l :: os2 /\ exec cfg os1 s = Some s1 /\
    run s1 = RArmed it e pid /\ it_num it = w.

Lemma bind_exec cfg os s s' w :
  exec cfg os s = Some s' -> stdin (tgt s') = Some w ->
  (stdin (tgt s) = Some w \/ binds_in cfg w os s) /\ torn (gh s) ⊆ torn (gh s').
Proof.
  revert s. induction os as [|o os IH]; intros s H Hw; simpl in H; [injection H as <-; auto|].
  destruct (step cfg o s) as [s1|] eqn:Hs; [|done]. simpl in H. destruct (IH _ H Hw) as [Hb Ht].
  split; [|etrans; [by eapply torn_step|exact Ht]].
  destruct Hb as [Hb|(os1 & l & os2 & s2 & it & e & pid & -> & He & Hr)].
  - destruct (bind_step _ _ _ _ _ Hs Hb) as [?|(l & it & e & pid & -> & Hr)]; [by left|]. right. by exists [], l, os, s, it, e, pid.
  - right. exists (o :: os1), l, os2, s2, it, e, pid. split; [done|]. split; [|done]. simpl. by rewrite Hs.
Qed.

Lemma exec_app cfg os1 os2 s0 s1 : exec cfg os1 s0 = Some s1 -> exec cfg (os1 ++ os2) s0 = exec cfg os2 s1.
Proof. revert s0. induction os1 as [|o os1 IH]; intros s0; simpl; [by intros [= <-]|]. destruct (step cfg o s0) as [s2|]; [|done]. apply IH. Qed.

Lemma exec_prefix cfg os1 os2 s0 s : exec cfg (os1 ++ os2) s0 = Some s -> is_Some (exec cfg os1 s0).
Proof. revert s0. induction os1 as [|o os1 IH]; intros s0; simpl; [done|]. destruct (step cfg o s0) as [s2|]; [|done]. apply IH. Qed.

(** A child with a handle that was not bound as a teardown was armed has bound
    since. *)
Lemma bound_since cfg os1 os2 s0 s1 s w :
  exec cfg os1 s0 = Some s1 -> exec cfg (os1 ++ OTeardown :: os2) s0 = Some s ->
  stdin (tgt s) = Some w -> w ∉ torn (gh s) -> binds_in cfg w (OTeardown :: os2) s1.
Proof.
  intros H1 H Hw Hn. pose proof H as H2. rewrite (exec_app _ _ _ _ _ H1) in H2.
  destruct (bind_exec _ _ _ _ _ H2 Hw) as [[Hb|Hb] _]; [|exact Hb]. destruct Hn. simpl in H2.
  apply (bind_exec _ _ _ _ _ H2 Hw). sys_cbn. unfold bound_now. rewrite Hb. set_solver.
Qed.

Lemma turn_target_Some t w :
  fst (turnTargetWithGate t) = Some w -> rotating t = false /\ stdin t = Some w /\ tearingDown t = false.
Proof. unfold turnTargetWithGate. repeat case_goal; by intros [= <-]. Qed.

(** C14. At no moment of any run is a turn handed out while a new session's frame
    is between arming the gate and the landing of its restart, nor to a child
    set up before the last rotation that landed, nor to one that was bound as a
    teardown was armed: a child given turns has bound since every teardown armed
    so far. (A child that binds between a teardown's arm and the kill beside it
    opens the gate, as [armChildGen]'s comment says, and is given turns.) Unless
    claude reset the session by itself, the child's session is the pool's. No
    gate outlives its reason: the bind of a child set up after the last
    rotation, with no frame under way, leaves both gates open. The runs it does
    not speak of are those where a failed rotation took down a gate it had
    found up. *)
Theorem turns_reach_current_child cfg os s :
  reaches_by cfg os s -> dropped (gh s) = false ->
  (forall w, fst (turnTargetWithGate (tgt s)) = Some w ->
     (forall i t, ths s !! i = Some t -> armed t = false) /\
     (exists it, current (run s) = Some it /\ it_num it = w /\ it_fresh it = freshSeq (inp s) /\
        (adopted (gh s) = false -> it_id it = poolID s)) /\
     w ∉ replaced (gh s) /\ w ∉ torn (gh s) /\
     (forall os1 os2, os = os1 ++ OTeardown :: os2 ->
        exists s1, (s0 ← init cfg; exec cfg os1 s0) = Some s1 /\ binds_in cfg w (OTeardown :: os2) s1)) /\
  (forall it e pid s', run s = RArmed it e pid -> it_fresh it = freshSeq (inp s) ->
     (forall i t, ths s !! i = Some t -> armed t = false) -> step cfg (OLoop LGo) s = Some s' ->
     turnTargetWithGate (tgt s') = (Some (it_num it), gateOpen)).
Proof.
  intros Hreach Hd. destruct (reached_ok _ _ _ Hreach) as (Hb & Hnu & Hf & Hr). split.
  - intros w (Hrot & Hw & Htd)%turn_target_Some.
    assert (forall i t, ths s !! i = Some t -> armed t = false) as Hna.
    { intros i t Hi. pose proof (ro_thread _ Hr _ _ Hi). destruct t; cbn [thread_ok armed] in *; try done; naive_solver congruence. }
    destruct (bound_current _ _ (nu_stdin _ Hnu _ Hw)) as (it & Hit & <-).
    pose proof (ro_aligned _ Hr Hd Hrot _ Hit) as Hfr. split_and!.
    + exact Hna.
    + exists it. split_and!; try done. intros Had. destruct (ro_pool _ Hr Had) as [->|(i & t & Hi & Ht)].
      * by apply (ro_id _ Hr).
      * specialize (Hna _ _ Hi). by destruct Ht as [-> | ->].
    + intros Hin. pose proof (ro_replaced _ Hr _ Hit Hin). lia.
    + intros Hin. pose proof (ro_torn _ Hr _ Hw Hin). congruence.
    + intros os1 os2 ->. destruct Hreach as [_ He]. destruct (init cfg) as [s0|]; [|done]. simpl in *.
      destruct (exec_prefix _ _ _ _ _ He) as [s1 E1].
      exists s1. split; [done|]. apply (bound_since _ _ _ _ _ _ _ E1 He Hw). intros Hin.
      pose proof (ro_torn _ Hr _ Hw Hin). congruence.
  - intros it e pid s' Hp Hfr Hna H. unfold step, loop_step, spawn_step in H. rewrite Hp in H. injection H as <-. sys_cbn.
    destruct Hb as (Hb1 & _ & Hb2 & _ & Hb3). unfold turnTargetWithGate. sys_cbn.
    rewrite (proj2 (Z.ltb_lt (armChildGen (tgt s)) _)) by (rewrite u64_small; lia).
    destruct (Z.ltb_spec (armFreshSeq (tgt s)) (it_fresh it)) as [|Hge]; [done|].
    destruct (rotating (tgt s)) eqn:Hrot; [|done].
    destruct (ro_arm _ Hr Hrot) as [?|(i & t & Hi & Ha)]; [lia|]. by rewrite (Hna _ _ Hi) in Ha.
Qed.

End StreamRotation.
