(* ===== verification/StreamRestart.v ===== *)
(** * The supervised stream: restarts are not lost, and are not crashes *)
From Stdlib Require Import Ascii String.
From stdpp Require Import prelude strings list gmap.
From S2P Require Import Prelude Utf8 Strconv StreamArgs StreamRunner StreamSystem StreamInv StreamRotation.

Module StreamRestart.

Import Strconv StreamArgs StreamRunner StreamSystem StreamInv StreamRotation.

Local Open Scope Z_scope.

(** The iteration a restart is about to cancel. *)
Definition pending (t : thread) : option nat :=
  match t with THint _ c | TCancel _ c => c | _ => None end.
Definition hinted (t : thread) : option nat := match t with TCancel _ c => c | _ => None end.

Record restarts (s : sys) : Prop := {
  re_stale : forall it, current (run s) = Some it -> it_num it ∈ stale (gh s) ->
    it_num it ∈ cancelled s \/ exists i t, ths s !! i = Some t /\ pending t = Some (it_num it);
  re_hint : forall k, undrained (run s) = Some k ->
    k ∈ killed (gh s) \/ (exists i t, ths s !! i = Some t /\ hinted t = Some k) -> restartCh s = true;
  re_killed : killed (gh s) ⊆ cancelled s;
}.

Section steps.
Context (cfg : Config).

Lemma hinted_captured t k : hinted t = Some k -> captured t = Some k.
Proof. by destruct t. Qed.

(** A step of the loop begins a new iteration, goes on with the one it has, or
    has none left whose end is to be drained; it takes the hint only then. *)
Lemma loop_iteration l s s' :
  loop_step cfg l s = Some s' ->
  cancelled s ⊆ cancelled s' /\
  (undrained (run s') = None /\ current (run s') = None \/
   (exists k, run s = RBegin k /\ undrained (run s') = Some k) \/
   (undrained (run s') = undrained (run s) /\ (current (run s') = current (run s) \/ current (run s') = None) /\
    restartCh s' = restartCh s)).
Proof.
  intros H. loop_cases H; (split; [set_solver|]); cbn [undrained]; eauto 10.
Qed.

Lemma restarts_loop l s s' : loop_step cfg l s = Some s' -> numbers s -> restarts s -> restarts s'.
Proof.
  intros H Hn [H1 H2 H3]. destruct (loop_same _ _ _ _ H) as (Et & _ & _ & _ & _ & Est & _ & _ & _ & _ & Ek & _).
  destruct (loop_iteration _ _ _ H) as [Hc Hi].
  assert (Hfresh : forall k, run s = RBegin k -> k ∉ stale (gh s) /\ k ∉ killed (gh s) /\
    forall i t, ths s !! i = Some t -> captured t <> Some k).
  { intros k Hk. destruct (nu_sets _ Hn) as (Hs & _ & _ & Hd). unfold lim in *. rewrite Hk in *. split_and!.
    - intros Hin%Hs. lia.
    - intros Hin%Hd. lia.
    - intros i t Hit E. pose proof (nu_threads _ Hn _ _ _ Hit E) as Hlt. unfold lim in Hlt. rewrite Hk in Hlt. lia. }
  constructor; rewrite ?Et, ?Est, ?Ek; [| |set_solver].
  - intros it Hit Hin. destruct Hi as [[_ Hi]|[(k & Hk & Hu)|(_ & [Hi|Hi] & _)]]; try congruence.
    + apply current_undrained in Hit. assert (k = it_num it) as -> by congruence. by destruct (Hfresh _ Hk) as [? _].
    + rewrite Hi in Hit. destruct (H1 _ Hit Hin); [left; set_solver|by right].
  - intros k Hu Hor. destruct Hi as [[Hi _]|[(k' & Hk & Hu')|(Hi & _ & Hch)]]; try congruence.
    + assert (k' = k) as -> by congruence. destruct (Hfresh _ Hk) as (_ & Hf1 & Hf2).
      destruct Hor as [?|(i & t & Hit & E)]; [done|]. by destruct (Hf2 _ _ Hit (hinted_captured _ _ E)).
    + rewrite Hch. apply (H2 k); [congruence|done].
Qed.

Lemma exists_insert (Q : thread -> Prop) (l : list thread) i t t' :
  l !! i = Some t -> (exists j u, l !! j = Some u /\ Q u) -> (Q t -> Q t') -> exists j u, <[i:=t']> l !! j = Some u /\ Q u.
Proof.
  intros Hi (j & u & Hj & Hu) Hq. destruct (decide (i = j)) as [<-|Hne].
  - exists i, t'. rewrite list_lookup_insert_eq by (by eapply lookup_lt_Some). split; [done|]. apply Hq. congruence.
  - exists j, u. by rewrite list_lookup_insert_ne.
Qed.

Lemma exists_insert_inv (Q : thread -> Prop) (l : list thread) i t' :
  (exists j u, <[i:=t']> l !! j = Some u /\ Q u) -> Q t' \/ exists j u, l !! j = Some u /\ Q u.
Proof. intros (j & u & [[<- ->]|[_ Hu]]%lookup_insert_cases & Hq); [by left|right; eauto]. Qed.

Lemma restarts_same s s' i t t' :
  ths s !! i = Some t -> ths s' = <[i:=t']> (ths s) -> run s' = run s -> restartCh s' = restartCh s ->
  cancelled s' = cancelled s -> stale (gh s') = stale (gh s) -> killed (gh s') = killed (gh s) ->
  pending t = None -> hinted t' = None -> restarts s -> restarts s'.
Proof.
  intros Hi Et Er Ec Eca Es Ek Hp Hh [H1 H2 H3]. constructor; rewrite ?Et, ?Er, ?Ec, ?Eca, ?Es, ?Ek; [| |done].
  - intros it Hit Hin. destruct (H1 _ Hit Hin); [by left|right]. eapply exists_insert; [done..|]. congruence.
  - intros k Hk [Hin|[?|?]%exists_insert_inv]; [by eauto|congruence|by eauto].
Qed.

Lemma restarts_restart s s' i t fresh :
  ths s !! i = Some t -> numbers s -> ths s' = <[i:=THint fresh (iterCancel (inp s))]> (ths s) -> run s' = run s ->
  restartCh s' = restartCh s -> cancelled s' = cancelled s -> stale (gh s') = current_set (run s) ∪ stale (gh s) ->
  killed (gh s') = killed (gh s) -> pending t = None -> restarts s -> restarts s'.
Proof.
  intros Hi Hn Et Er Ec Eca Es Ek Hp [H1 H2 H3]. constructor; rewrite ?Et, ?Er, ?Ec, ?Eca, ?Es, ?Ek; [| |done].
  - intros it Hit _. right. exists i, (THint fresh (iterCancel (inp s))).
    split; [by eapply insert_self|]. cbn. by rewrite (nu_cancel _ Hn), Hit.
  - intros k Hk [Hin|[?|?]%exists_insert_inv]; [by eauto|done|by eauto].
Qed.

Lemma restarts_cancel s s' i t k :
  ths s !! i = Some t -> hinted t = Some k -> ths s' = <[i:=TDone]> (ths s) -> run s' = run s ->
  restartCh s' = restartCh s -> cancelled s' = {[k]} ∪ cancelled s -> stale (gh s') = stale (gh s) ->
  killed (gh s') = {[k]} ∪ killed (gh s) -> restarts s -> restarts s'.
Proof.
  intros Hi Hh Et Er Ec Eca Es Ek [H1 H2 H3]. constructor; rewrite ?Et, ?Er, ?Ec, ?Eca, ?Es, ?Ek; [| |set_solver].
  - intros it Hit Hin. destruct (decide (it_num it = k)) as [->|Hne]; [left; set_solver|].
    destruct (H1 _ Hit Hin); [left; set_solver|right]. eapply exists_insert; [done..|].
    destruct t; cbn in *; congruence.
  - intros k' Hk Hor. apply (H2 k' Hk). destruct Hor as [[->%elem_of_singleton|Hin]%elem_of_union|[?|?]%exists_insert_inv];
      [|by left|done|by right]. right. by do 2 eexists.
Qed.

Lemma restarts_thread i j t s t' s' :
  ths s !! i = Some t -> thread_step cfg j t s = Some (t', s') -> numbers s -> restarts s ->
  restarts (set_ths (<[i:=t']> (ths s')) s').
Proof.
  intros Hi H Hn Hr. thread_cases H.
  all: try (eapply restarts_same; [exact Hi|done..|exact Hr]).
  all: try (eapply restarts_restart; [exact Hi|exact Hn|done..|exact Hr]).
  all: try (eapply restarts_cancel; [exact Hi|done..|exact Hr]).
  destruct Hr as [H1 H2 H3]. constructor; sys_cbn; [|done|done].
  intros it Hit Hin. destruct (H1 _ Hit Hin); [by left|right]. by eapply exists_insert.
Qed.

Lemma restarts_step o s s' : step cfg o s = Some s' -> numbers s -> restarts s -> restarts s'.
Proof.
  intros H Hn Hr. destruct (plain o) eqn:Hp.
  { destruct (plain_same _ _ _ _ Hp H) as (Et & _ & _ & Es & _ & Ek & _ & Ec & Ech & _ & _ & _ & Ecu & Eu & _).
    destruct Hr as [H1 H2 H3]. by constructor; rewrite ?Et, ?Es, ?Ek, ?Ec, ?Ech, ?Ecu, ?Eu. }
  destruct o; try done; simpl in H.
  - by eapply restarts_loop.
  - destruct (start_ok t s) as [s1|] eqn:Hs; [|done]. injection H as <-.
    assert (hinted t = None) as Hh by (by destruct t). apply start_claims in Hs as [_ [b ->]].
    destruct Hr as [H1 H2 H3]. constructor; sys_cbn; [| |done].
    + intros it Hit Hin. destruct (H1 _ Hit Hin) as [?|(i & u & Hu & Hq)]; [by left|right].
      exists i, u. split; [by apply lookup_app_l_Some|done].
    + intros k Hk [Hin|(i & u & [Hu|[_ Hu]]%lookup_app_Some & Hq)]; [by eauto|by eauto 10|].
      apply list_lookup_singleton_Some in Hu as [_ <-]. congruence.
  - destruct (ths s !! i) as [t|] eqn:Hi; [|done]. simpl in H.
    destruct (thread_step cfg j t s) as [[t' s1]|] eqn:Ht; [|done]. injection H as <-. by eapply restarts_thread.
Qed.

Lemma restarts_exec os s s' : exec cfg os s = Some s' -> numbers s -> restarts s -> restarts s'.
Proof.
  revert s. induction os as [|o os IH]; intros s H Hn Hr; cbn [exec] in H; [by injection H as <-|].
  destruct (step cfg o s) as [s1|] eqn:E; [|done]. eapply IH; [done|by eapply numbers_step|by eapply restarts_step].
Qed.

Lemma restarts_reached os s : reaches_by cfg os s -> restarts s.
Proof.
  intros [_ H]. destruct (init cfg) as [s0|] eqn:E; [|done]. simpl in H.
  destruct (init_ok _ _ E) as (_ & Hn & _). eapply restarts_exec; [done..|].
  unfold init in E. destruct (New cfg) as [[[i t] g]|]; [|done]. injection E as <-. constructor; sys_cbn; [done| |done].
  intros k Hk [?|(? & ? & ? & _)]; done.
Qed.

End steps.

(** From the child's end to the next spawn's section. *)
Definition relaunch (u : Z) : list op := replicate 5 (OLoop LGo) ++ OLoop (LUptime u) :: replicate 2 (OLoop LGo).

(** The state after it. *)
Definition relaunched (it : iteration) (s : sys) : sys :=
  let '(i, it', force) := beginSpawn_section (iters s) (clearIterCancel (inp s)) in
  MkSys i (fst (takeStdin (tgt s))) (pgate s) false (controlSeq s) (st s) (RProbe it') force (bo s) (fast s) (parentDone s)
    (S (iters s)) ({[it_num it]} ∪ cancelled s) (alive s) (ths s) (poolID s) (claim s) (gh s).

Lemma exec_cons cfg o os s s1 : step cfg o s = Some s1 -> exec cfg (o :: os) s = exec cfg os s1.
Proof. intros H. cbn [exec]. by rewrite H. Qed.

Lemma relaunch_exec cfg u s it :
  run s = RWait it -> alive s = None -> parentDone s = false -> restartCh s = true ->
  exec cfg (relaunch u) s = Some (relaunched it s).
Proof.
  intros Hp Ha Hpd Hch. unfold relaunch. cbn [replicate app].
  rewrite (exec_cons _ _ _ _ (set_run (RReaped it) s)) by (unfold step, loop_step, spawn_step; rewrite Hp; by rewrite decide_True).
  set (s2 := set_run (RBack it true) (set_tgt (fst (takeStdin (tgt s))) s)).
  rewrite (exec_cons _ _ _ _ s2) by (by destruct s).
  set (s3 := set_run (RClear it true) (cancel (it_num it) s2)).
  rewrite (exec_cons _ _ _ _ s3) by done.
  set (s4 := set_run (RExited it true) (set_inp (clearIterCancel (inp s)) s3)).
  rewrite (exec_cons _ _ _ _ s4) by done.
  set (s5 := set_run (RDrain it) (set_firstRun false s4)).
  rewrite (exec_cons _ _ _ _ s5) by (unfold step, loop_step, spawn_step; cbn [run s4 set_run]; cbn; by rewrite Hpd).
  set (s6 := set_run RTop (set_restartCh false s5)).
  rewrite (exec_cons _ _ _ _ s6) by (unfold step, loop_step, spawn_step; cbn; by rewrite Hch).
  set (s7 := set_run (RBegin (iters s)) (set_iters (S (iters s)) s6)).
  rewrite (exec_cons _ _ _ _ s7) by (unfold step, loop_step, spawn_step; cbn; by rewrite Hpd).
  cbn [exec]. unfold step, loop_step, spawn_step. subst s2 s3 s4 s5 s6 s7. unfold relaunched. sys_cbn. done.
Qed.

(** C16. A restart or a rotation reaches the child that runs: where one has landed
    since the iteration was set up, the iteration is cancelled or its caller is
    about to cancel it. And a child so ended is no crash: whatever its uptime,
    the loop goes straight to the next spawn, under the id and the arguments
    that then stand, without a delay, a step of the ladder or a count. *)
Theorem restarts_take_effect cfg os s it :
  reaches_by cfg os s -> current (run s) = Some it ->
  (it_num it ∈ stale (gh s) -> it_num it ∈ cancelled s \/ exists i t, ths s !! i = Some t /\ pending t = Some (it_num it)) /\
  (run s = RWait it -> alive s = None -> it_num it ∈ killed (gh s) -> parentDone s = false -> forall u,
   exists s' it', exec cfg (relaunch u) s = Some s' /\ run s' = RProbe it' /\
     it_id it' = sessionID (inp s) /\ it_args it' = args (inp s) /\ it_fresh it' = freshSeq (inp s) /\
     (firstRun s' = true <-> rotatePending (inp s) = true) /\ st s' = st s /\ bo s' = bo s /\ fast s' = fast s).
Proof.
  intros Hreach Hit. pose proof (restarts_reached _ _ _ Hreach) as [H1 H2 _]. split; [by apply H1|].
  intros Hp Ha Hk Hpd u. assert (restartCh s = true) as Hch by (apply (H2 (it_num it)); [by rewrite Hp|by left]).
  eexists _, _. split; [by apply relaunch_exec|]. split; [reflexivity|]. by split_and!.
Qed.

End StreamRestart.
