(* ===== verification/StreamPosture.v ===== *)
(** * The supervised stream: no turn before the posture is confirmed *)
From Stdlib Require Import Ascii String.
From stdpp Require Import prelude strings list gmap.
From S2P Require Import Prelude Utf8 Strconv StreamArgs StreamRunner StreamSystem StreamInv StreamRotation.

Module StreamPosture.

Import Strconv StreamArgs StreamRunner StreamSystem StreamInv StreamRotation.

Local Open Scope Z_scope.

(** A child the gate was opened for: it was sent no posture, or it has
    confirmed the id the gate was armed with. *)
Definition cleared (s : sys) (k : nat) : Prop := k ∈ unarmed (gh s) \/ exists id, (k, id) ∈ confirmed (gh s).

(** From [postureGate.arm] on. *)
Definition armed_child (p : pc) : option nat := match p with RArmed it _ _ => Some (it_num it) | p => bound p end.

Definition request_id (t : thread) : option bytes :=
  match t with MCheck _ id _ _ | MWrite _ id _ | MRetarget id => Some id | _ => None end.
Definition turn_of (t : thread) : option nat := match t with WReady w | WWrite w => Some w | _ => None end.

Record posture (cfg : Config) (s : sys) : Prop := {
  po_gate : HasPostureGate cfg = true <-> pgate s <> None;
  po_ids : forall i t, ths s !! i = Some t -> request_id t <> Some [];
  po_open : forall g k, pgate s = Some g -> armedID g = [] -> armed_child (run s) = Some k -> cleared s k;
  po_prebind : forall i t w, ths s !! i = Some t -> turn_of t = Some w -> prebind (run s) <> Some w;
  po_write : forall i w, ths s !! i = Some (WWrite w) -> pgate s <> None -> alive s = Some w -> cleared s w;
  po_below : below (lim s) (unarmed (gh s));
  po_unarmed : forall it, current (run s) = Some it -> it_num it ∈ unarmed (gh s) ->
    permissionModeSpawnWritable (it_mode it) && negb (OperatorBypass cfg) = false;
}.

Lemma ndigits_from_ge fuel w n : (w <= ndigits_from fuel w n)%nat.
Proof.
  revert w. induction fuel as [|f IH]; intros w; cbn [ndigits_from]; [done|].
  destruct (n <? _); [done|]. specialize (IH (S w)). lia.
Qed.

Lemma format_nonempty n : format n <> [].
Proof.
  intros H. pose proof (length_fixed (ndigits n) n) as Hl. unfold format in H. rewrite H in Hl.
  pose proof (ndigits_from_ge 19 1 n) as Hge. fold (ndigits n) in Hge. rewrite <- Hl in Hge. cbn in Hge. lia.
Qed.

Lemma turn_captured t w : turn_of t = Some w -> captured t = Some w.
Proof. by destruct t. Qed.

Lemma armed_bound p k : bound p = Some k -> armed_child p = Some k.
Proof. by destruct p. Qed.

(** A running child whose handle a turn has is bound. *)
Lemma turn_bound s w : numbers s -> alive s = Some w -> prebind (run s) <> Some w -> bound (run s) = Some w.
Proof. intros Hn Ha%(nu_alive _ Hn) Hp. by destruct (run s). Qed.

Lemma cleared_mono s s' k :
  unarmed (gh s) ⊆ unarmed (gh s') -> (forall p, p ∈ confirmed (gh s) -> p ∈ confirmed (gh s')) -> cleared s k -> cleared s' k.
Proof. intros H1 H2 [?|[id ?]]; [left; set_solver|right; eauto]. Qed.

Section steps.
Context (cfg : Config).

Lemma posture_id_spec it seq seq' pid :
  posture_id cfg it seq = (seq', pid) ->
  pid = [] -> permissionModeSpawnWritable (it_mode it) && negb (OperatorBypass cfg) = false.
Proof.
  unfold posture_id. destruct (_ && _); [|done]. intros [= _ <-] H. by apply format_nonempty in H.
Qed.

(** How a step of the loop moves towards an armed child. *)
Lemma loop_posture l s s' :
  loop_step cfg l s = Some s' ->
  confirmed (gh s') = confirmed (gh s) /\
  ((pgate s' = pgate s /\ unarmed (gh s') = unarmed (gh s) /\ (forall k, armed_child (run s') = Some k -> armed_child (run s) = Some k)) \/
   exists it e pid seq, run s = RStarted it e /\ run s' = RArmed it e pid /\ posture_id cfg it (controlSeq s) = (seq, pid) /\
     pgate s' = arm pid <$> pgate s /\ alive s' = alive s /\
     unarmed (gh s') = if decide (pid = []) then {[it_num it]} ∪ unarmed (gh s) else unarmed (gh s)) /\
  (alive s' = alive s \/ exists k, alive s' = Some k /\ prebind (run s) = Some k).
Proof.
  intros H. unfold loop_step, spawn_step in H. destruct (run s) eqn:Hrun, l; try discriminate H.
  all: match type of Hrun with
       | _ = RStarted ?it ?e =>
           destruct (posture_id cfg it (controlSeq s)) as [seq pid] eqn:E; injection H as <-; split; [done|]; split; [|by left];
           right; exists it, e, pid, seq; by split_and!
       | _ =>
           cbn [beginSpawn_section nextControlID] in H; repeat case_hyp H; try discriminate H; simplify_eq; sys_cbn;
           (split; [try done; by case_match|]); (split; [left; split_and!; try done; try (by case_match); cbn [armed_child bound]; by auto|]);
           eauto; try (by case_match; auto)
       end.
Qed.

Lemma posture_loop l s s' :
  loop_step cfg l s = Some s' -> numbers s -> posture cfg s -> posture cfg s'.
Proof.
  intros H Hn [H0 H1 H2 H3 H4 H5 H6]. pose proof (numbers_loop _ _ _ _ H Hn) as Hn'.
  destruct (loop_same _ _ _ _ H) as (Et & _). destruct (loop_posture _ _ _ H) as (Ec & Hp & Ha).
  destruct (loop_moves _ _ _ _ H) as (Hcur & _ & Hpre). pose proof (lim_loop _ _ _ _ H Hn) as Hlim.
  assert (Hu : unarmed (gh s) ⊆ unarmed (gh s')).
  { destruct Hp as [(_ & -> & _)|(it & e & pid & seq & _ & _ & _ & _ & _ & ->)]; [done|]. case_match; set_solver. }
  assert (Hcl : forall k, cleared s k -> cleared s' k) by (intros k; apply cleared_mono; [done|by rewrite Ec]).
  assert (Hg : pgate s' <> None <-> pgate s <> None).
  { destruct Hp as [(-> & _)|(it & e & pid & seq & _ & _ & _ & -> & _)]; [done|]. by destruct (pgate s). }
  constructor; rewrite ?Et; try done.
  - by rewrite Hg.
  - intros g k Hpg Hopen Hk. destruct Hp as [(E1 & _ & E3)|(it & e & pid & seq & Hr & Hr' & Hid & E1 & _ & E2)].
    + apply Hcl. eapply H2; [by rewrite <- E1|done|by apply E3].
    + rewrite Hr' in Hk. injection Hk as <-. rewrite E1 in Hpg. destruct (pgate s); [|done]. injection Hpg as <-.
      cbn in Hopen. left. rewrite E2, decide_True by done. set_solver.
  - intros i t w Hi Hw. destruct Hpre as [->|[->|[-> Hr]]]; [done|by eapply H3|].
    intros [= <-]. pose proof (nu_threads _ Hn _ _ _ Hi (turn_captured _ _ Hw)) as Hlt. unfold lim in Hlt. rewrite Hr in Hlt. lia.
  - intros i w Hi Hpg Hw. apply Hcl. destruct Ha as [Ha|(k & Hk & Hp')].
    + eapply H4; [done|by apply Hg|by rewrite <- Ha].
    + destruct (H3 _ _ w Hi); [done|]. congruence.
  - destruct Hp as [(_ & -> & _)|(it & e & pid & seq & Hr & Hr' & _ & _ & _ & ->)]; [by eapply below_mono|].
    apply (below_mono (lim s)); [done|]. case_match; [|done]. apply below_union; [|done].
    intros k ->%elem_of_singleton. apply (nu_undrained _ Hn). by rewrite Hr.
  - intros it Hit Hin. destruct Hp as [(_ & E & _)|(it' & e & pid & seq & Hr & Hr' & Hid & _ & _ & E)]; rewrite E in Hin.
    + destruct Hcur as [Hc|[Hc|(k & Hk & Hc)]]; [congruence|rewrite Hc in Hit; by apply H6|].
      rewrite Hc in Hit. injection Hit as <-. cbn in Hin. apply H5 in Hin. unfold lim in Hin. rewrite Hk in Hin. lia.
    + rewrite Hr' in Hit. injection Hit as ->. destruct (decide (pid = [])) as [->|].
      * by eapply posture_id_spec.
      * apply H6; [by rewrite Hr|done].
Qed.

Lemma thread_posture j t s t' s' :
  thread_step cfg j t s = Some (t', s') ->
  (forall w, turn_of t' = Some w -> turn_of t = Some w \/ stdin (tgt s) = Some w) /\
  (forall w, t' = WWrite w -> t = WWrite w \/ ready (pgate s) = true /\ turn_of t = Some w) /\
  (pgate s' = pgate s \/ exists id, request_id t = Some id /\ pgate s' = retarget id <$> pgate s) /\
  (request_id t' = request_id t \/ request_id t' = None \/ exists n, request_id t' = Some (format n)) /\
  unarmed (gh s') = unarmed (gh s) /\ confirmed (gh s') = confirmed (gh s).
Proof.
  intros H. thread_cases H; split_and!; cbn [turn_of request_id]; eauto; try (by intros); try (intros ? [= <-]; auto).
  all: try (by right; right; eexists).
  all: try (by unfold turnTargetWithGate in *; repeat case_hyp Heqo; simplify_eq/=; right).
Qed.

Lemma posture_thread i j t s t' s' :
  ths s !! i = Some t -> thread_step cfg j t s = Some (t', s') -> numbers s -> posture cfg s ->
  posture cfg (set_ths (<[i:=t']> (ths s')) s').
Proof.
  intros Hi H Hn [H0 H1 H2 H3 H4 H5 H6]. destruct (thread_same _ _ _ _ _ _ H) as (Er & Ei & Ea & Et & _).
  destruct (thread_posture _ _ _ _ _ H) as (Hw & Hww & Hg & Hid & Eu & Ec).
  assert (forall k, cleared (set_ths (<[i:=t']> (ths s')) s') k <-> cleared s k) as Hcl
    by (intros k; unfold cleared; sys_cbn; by rewrite Eu, Ec).
  assert (forall g, pgate s' = Some g -> exists g0, pgate s = Some g0 /\ (armedID g = [] -> armedID g0 = [])) as Hopen.
  { intros g Hpg. destruct Hg as [Hg|(id & Hr & Hg)]; rewrite Hg in Hpg; [eauto|].
    destruct (pgate s) as [g0|]; [|done]. injection Hpg as <-. exists g0. split; [done|]. unfold retarget.
    destruct (decide _) as [->|]; [done|]. cbn. intros ->. by destruct (H1 _ _ Hi). }
  assert (pgate s' <> None -> pgate s <> None) as Hsome.
  { destruct (pgate s') as [g|]; [|done]. destruct (Hopen g) as (g0 & -> & _); done. }
  constructor; unfold lim; sys_cbn; rewrite ?Er, ?Ei, ?Ea, ?Eu, ?Et; try done.
  - rewrite H0. split; [|done]. destruct Hg as [->|(id & _ & ->)]; [done|by destruct (pgate s)].
  - intros k u [[<- ->]|[_ Hk]]%lookup_insert_cases; [|by eapply H1].
    destruct Hid as [->|[->|[n ->]]]; [by eapply H1|done|]. intros [= E]. by apply format_nonempty in E.
  - intros g k Hpg Ho Hk. apply Hcl. destruct (Hopen _ Hpg) as (g0 & Hg0 & Himp). eapply H2; eauto.
  - intros k u w [[<- ->]|[_ Hk]]%lookup_insert_cases Hu; [|by eapply H3].
    destruct (Hw _ Hu) as [Hu'|Hst]; [by eapply H3|]. apply (nu_stdin _ Hn) in Hst. by destruct (run s).
  - intros k w [[<- <-]|[_ Hk]]%lookup_insert_cases Hpg Ha; apply Hcl; [|by eapply H4; eauto].
    destruct (Hww w eq_refl) as [->|[Hready Hu]]; [by eapply H4; eauto|].
    specialize (Hsome Hpg). destruct (pgate s) as [g|] eqn:E; [|done]. cbn in Hready. reflect_bools.
    eapply H2; [done..|]. apply armed_bound, turn_bound; [done..|by eapply H3].
Qed.

Lemma posture_same s s' :
  posture cfg s -> ths s' = ths s -> pgate s' = pgate s -> unarmed (gh s') = unarmed (gh s) -> confirmed (gh s') = confirmed (gh s) ->
  run s' = run s -> iters s' = iters s -> (alive s' = alive s \/ alive s' = None) -> posture cfg s'.
Proof.
  intros [H0 H1 H2 H3 H4 H5 H6] Et Eg Eu Ec Er Ei Ea.
  constructor; unfold lim, cleared in *; rewrite ?Et, ?Eg, ?Eu, ?Ec, ?Er, ?Ei; try done.
  intros i w Hi Hg Ha. eapply H4; eauto. destruct Ea; congruence.
Qed.

Lemma posture_step o s s' : step cfg o s = Some s' -> numbers s -> posture cfg s -> posture cfg s'.
Proof.
  intros H Hn Hp. destruct o; simpl in H.
  3: { by eapply posture_loop. }
  5: { destruct (start_ok t s) as [s1|] eqn:Hs; [|done]. injection H as <-.
       assert (request_id t = None /\ turn_of t = None) as [Hq Hw] by (by destruct t). apply start_claims in Hs as [_ [b ->]].
       destruct Hp as [H0 H1 H2 H3 H4 H5 H6]. constructor; unfold lim, cleared in *; sys_cbn; try done.
       - intros i u [Hu|[_ Hu]]%lookup_app_Some; [by eapply H1|]. apply list_lookup_singleton_Some in Hu as [_ <-]. by rewrite Hq.
       - intros i u w [Hu|[_ Hu]]%lookup_app_Some Hx; [by eapply H3|]. apply list_lookup_singleton_Some in Hu as [_ <-]. congruence.
       - intros i w [Hu|[_ Hu]]%lookup_app_Some Hx; [by eapply H4|]. apply list_lookup_singleton_Some in Hu as [_ ->]. done. }
  5: { destruct (ths s !! i) as [t|] eqn:Hi; [|done]. simpl in H.
       destruct (thread_step cfg j t s) as [[t' s1]|] eqn:Ht; [|done]. injection H as <-. by eapply posture_thread. }
  4: { destruct (reading (run s)) as [k|] eqn:Hk; [|done]. injection H as <-.
       destruct Hp as [H0 H1 H2 H3 H4 H5 H6].
       set (s' := set_pgate _ _).
       assert (forall k, cleared s k -> cleared s' k) as Hcl.
       { intros k'. apply cleared_mono; subst s'; sys_cbn; [by case_match|]. intros p Hin. case_match; [by right|done]. }
       constructor; unfold lim in *; try done; subst s'; sys_cbn; try done.
       - rewrite H0. by destruct (pgate s).
       - intros g k' Hpg Ho Hk'. destruct (pgate s) as [g0|] eqn:Eg; [|done]. injection Hpg as <-.
         destruct (decide (armedID g0 = [])) as [He|Hne]; [apply Hcl; by eapply H2|].
         assert (subtype = "success"%string /\ armedID g0 = id) as [-> Hid].
         { unfold noteControlAck in Ho. case_bool_decide as E1.
           - split; [done|]. unfold release in Ho. by destruct (decide _).
           - case_bool_decide; [done|]. unfold refuse in Ho. destruct (decide _); done. }
         assert (k' = k) as -> by (clear -Hk Hk'; destruct (run s); cbn in *; congruence).
         right. exists id. sys_cbn. unfold opens. rewrite !bool_decide_eq_true_2 by done. left.
       - intros i w Hi Hg Ha. apply Hcl. eapply H4; eauto. by destruct (pgate s).
       - by case_match.
       - intros it Hit Hin. apply H6; [done|]. revert Hin. by case_match. }
  1: { unfold start_run in H. case_hyp H; [|done..]. injection H as <-. destruct Hp as [H0 H1 H2 H3 H4 H5 H6].
       constructor; unfold lim, cleared in *; sys_cbn; rewrite ?Heqp in *; done. }
  all: try (injection H as <-; by eapply posture_same; eauto).
  - assert (s' = set_parentDone true s) as -> by (repeat case_hyp H; try done; by injection H as <-).
    by eapply posture_same; eauto.
  - case_hyp H; [|done]. injection H as <-. eapply posture_same; eauto.
Qed.

Lemma posture_reached os s : reaches_by cfg os s -> posture cfg s /\ numbers s.
Proof.
  intros [_ H]. destruct (init cfg) as [s0|] eqn:E; [|done]. simpl in H. destruct (init_ok _ _ E) as (_ & Hn & _).
  assert (posture cfg s0) as Hp.
  { unfold init in E. destruct (New cfg) as [[[i t] g]|] eqn:En; [|done]. injection E as <-. unfold New in En.
    repeat case_hyp En; try done. all: injection En as <- <- <-; constructor; try done; sys_cbn.
    all: try (intros; congruence). all: try (split; congruence). all: by intros ? ?%not_elem_of_empty. }
  clear E. revert s0 H Hn Hp. induction os as [|o os IH]; intros s0 H Hn Hp; cbn [exec] in H; [by injection H as <-|].
  destruct (step cfg o s0) as [s1|] eqn:E; [|done]. eapply IH; [done|by eapply numbers_step|by eapply posture_step].
Qed.

End steps.

(** C20. A turn that is about to be written to a child that runs: where a posture
    was to be asserted on that child, the child itself has confirmed a request
    the gate was armed with, whatever acknowledgements its predecessors, its
    refusals or the changes of posture in between have sent. *)
Theorem turns_wait_for_posture cfg os s i w :
  reaches_by cfg os s -> HasPostureGate cfg = true -> ths s !! i = Some (WWrite w) -> alive s = Some w ->
  exists it, current (run s) = Some it /\ it_num it = w /\
    (permissionModeSpawnWritable (it_mode it) = true -> OperatorBypass cfg = false -> exists id, (w, id) ∈ confirmed (gh s)).
Proof.
  intros Hreach Hg Hi Ha. destruct (posture_reached _ _ _ Hreach) as [Hp Hn].
  destruct (reading_current _ _ (nu_alive _ Hn _ Ha)) as (it & Hit & <-). exists it. split_and!; [done..|].
  intros Hm Hb. apply (po_gate _ _ Hp) in Hg. destruct (po_write _ _ Hp _ _ Hi Hg Ha) as [Hin|?]; [|done].
  pose proof (po_unarmed _ _ Hp _ Hit Hin) as Hu. by rewrite Hm, Hb in Hu.
Qed.

End StreamPosture.
