(* ===== verification/StreamWatchdog.v ===== *)
(** * The stall watchdog ([internal/streamsup/watchdog.go])

    A tracker reads the types of the lines a child writes and keeps whether
    the agent owes a turn, and since when nothing was heard; a goroutine polls
    it and signals a stall once per episode. *)
From Stdlib Require Import Ascii String.
From stdpp Require Import prelude strings list.
From S2P Require Import Prelude Utf8 Strconv.

Module StreamWatchdog.

Import Utf8 Strconv.

Local Open Scope Z_scope.

(** ** The tracker *)

Definition idleStall : Z := 240 * second.
Definition watchdogTick : Z := 5 * second.
Definition minWatchdogTick : Z := 5000000.
Definition defaultMaxParseBuf : nat := 4194304.

Definition watchdogTickFor (idle : Z) : Z :=
  let tick := Z.quot idle 8 in
  let tick := if watchdogTick <? tick then watchdogTick else tick in
  if tick <? minWatchdogTick then minWatchdogTick else tick.

Record stallTracker := MkTracker {
  buf : bytes;
  lastEvent : instant;
  awaiting : bool;
  revision : Z;
}.

Definition newStallTracker (now : instant) : stallTracker := MkTracker [] now false 0.

Section tracker.
(** [json.Unmarshal] of a line into its top-level [type]: [None] its error. *)
Context (lineType : string -> option string).

(** What a line says of the owed turn, [None] where it says nothing. *)
Definition owed_of (line : bytes) : option bool :=
  let line := TrimSpace (string_of_list_ascii line) in
  if bool_decide (line = ""%string) then None
  else match lineType line with
       | None => None
       | Some typ =>
           if bool_decide (typ = "assistant"%string) then Some false
           else if bool_decide (typ = "user"%string) || bool_decide (typ = "tool_result"%string) then Some true
           else if bool_decide (typ = "result"%string) then Some false
           else None
       end.

Definition consumeLine (now : instant) (line : bytes) (t : stallTracker) : stallTracker :=
  match owed_of line with
  | Some b => MkTracker (buf t) now b (u64 (revision t + 1))
  | None => MkTracker (buf t) now (awaiting t) (revision t)
  end.

(** The complete lines of some bytes, and what is left of them: the loop of
    [feed] over [bytes.IndexByte]. *)
Fixpoint cut_lines (l : bytes) : list bytes * bytes :=
  match l with
  | [] => ([], [])
  | c :: l =>
      let '(lines, rest) := cut_lines l in
      if bool_decide (byte c = 10) then ([] :: lines, rest)
      else match lines with
           | [] => ([], c :: rest)
           | line :: lines => ((c :: line) :: lines, rest)
           end
  end.

(** [clock] is what successive calls of [t.now()] answer. *)
Fixpoint consume_lines (clock : nat -> instant) (i : nat) (lines : list bytes) (t : stallTracker) : stallTracker :=
  match lines with
  | [] => t
  | line :: lines => consume_lines clock (S i) lines (consumeLine (clock i) line t)
  end.

Definition set_buf (b : bytes) (t : stallTracker) : stallTracker := MkTracker b (lastEvent t) (awaiting t) (revision t).

Definition feed (maxBuf : nat) (clock : nat -> instant) (b : bytes) (t : stallTracker) : stallTracker :=
  let '(lines, rest) := cut_lines (buf t ++ b) in
  set_buf (if (maxBuf <? length rest)%nat then [] else rest) (consume_lines clock 0 lines t).

Definition turnSent (now : instant) (t : stallTracker) : stallTracker :=
  MkTracker (buf t) now true (u64 (revision t + 1)).

Definition childExited (now : instant) (t : stallTracker) : stallTracker :=
  MkTracker (buf t) now false (u64 (revision t + 1)).

(** [TrackUserTurn]: [revision t] is read first; this is its end, after a
    delivery that succeeded. *)
Definition trackArm (seen : Z) (now : instant) (t : stallTracker) : stallTracker :=
  if revision t =? seen then turnSent now t else t.

Definition shouldFire (awaiting : bool) (last now : instant) (idle : Z) : bool :=
  awaiting && (idle <? Sub now last).

(** ** The poll *)

(** One tick of [Start]'s goroutine: the latch after it, and the argument of
    the [OnStall] it calls, if it does. *)
Definition poll (idle : Z) (now : instant) (pendingPermission : bool) (t : stallTracker) (fired : bool) : bool * option bool :=
  if shouldFire (awaiting t) (lastEvent t) now idle
  then (true, if fired then None else Some pendingPermission)
  else (false, None).

(** ** The watchdog, with everything that meets it *)

Inductive event :=
| Feed (clock : nat -> instant) (b : bytes)     (* the child's output arrives *)
| UserTurnSent (now : instant)
| TrackBegin                                    (* [TrackUserTurn] reads the revision *)
| TrackEnd (now : instant) (ok : bool)          (* and its delivery has returned *)
| ChildExited (now : instant)
| Tick (now : instant) (pendingPermission : bool).

Record watchdog := MkWatchdog { tracker : stallTracker; seen : Z; fired : bool }.

Definition NewWatchdog (now : instant) : watchdog := MkWatchdog (newStallTracker now) 0 false.

Definition on (w : watchdog) (t : stallTracker) : watchdog := MkWatchdog t (seen w) (fired w).

Definition wstep (idle : Z) (maxBuf : nat) (e : event) (w : watchdog) : watchdog * option bool :=
  match e with
  | Feed clock b => (on w (feed maxBuf clock b (tracker w)), None)
  | UserTurnSent now => (on w (turnSent now (tracker w)), None)
  | TrackBegin => (MkWatchdog (tracker w) (revision (tracker w)) (fired w), None)
  | TrackEnd now ok => (on w (if ok then trackArm (seen w) now (tracker w) else tracker w), None)
  | ChildExited now => (on w (childExited now (tracker w)), None)
  | Tick now pending =>
      let '(fired, out) := poll idle now pending (tracker w) (fired w) in
      (MkWatchdog (tracker w) (seen w) fired, out)
  end.

(** The stalls signalled over a run, each with the number of its event. *)
Fixpoint wrun (idle : Z) (maxBuf : nat) (i : nat) (es : list event) (w : watchdog) : list (nat * bool) * watchdog :=
  match es with
  | [] => ([], w)
  | e :: es =>
      let '(w', out) := wstep idle maxBuf e w in
      let '(l, w'') := wrun idle maxBuf (S i) es w' in
      (match out with Some p => (i, p) :: l | None => l end, w'')
  end.

End tracker.
End StreamWatchdog.
