(* ===== verification/StreamWatchdogProps.v ===== *)
(** * The stall watchdog: one signal per stall, in time *)
From Stdlib Require Import Ascii String.
From stdpp Require Import prelude strings list.
From S2P Require Import Prelude Utf8 Strconv StreamWatchdog.

Module StreamWatchdogProps.

Import Utf8 Strconv StreamWatchdog.

Local Open Scope Z_scope.

Section watchdog.
Context (lineType : string -> option string) (idle : Z) (maxBuf : nat).

#[local] Abbreviation wstep := (wstep lineType idle maxBuf).
#[local] Abbreviation wrun := (wrun lineType idle maxBuf).

(** ** Lines and chunks *)

Lemma cut_lines_app a b :
  cut_lines (a ++ b) =
  (fst (cut_lines a) ++ fst (cut_lines (snd (cut_lines a) ++ b)), snd (cut_lines (snd (cut_lines a) ++ b))).
Proof.
  induction a as [|c a IH]; [simpl; by destruct (cut_lines b)|].
  cbn [app cut_lines]. rewrite IH. destruct (cut_lines a) as [la ra]. cbn [fst snd].
  destruct (bool_decide (byte c = 10)) eqn:Ec; [done|].
  destruct la as [|l la]; cbn [fst snd app]; [|done].
  cbn [cut_lines]. rewrite Ec. destruct (cut_lines (ra ++ b)) as [[|l lb] rb]; done.
Qed.

(** What is left over has no newline, so it is no line by itself. *)
Lemma cut_rest l : cut_lines (snd (cut_lines l)) = ([], snd (cut_lines l)).
Proof.
  induction l as [|c l IH]; [done|]. cbn [cut_lines]. destruct (cut_lines l) as [[|line lines] rest]; cbn [snd] in *.
  - destruct (bool_decide (byte c = 10)) eqn:E; cbn [snd]; [done|]. cbn [cut_lines]. by rewrite E, IH.
  - by destruct (bool_decide (byte c = 10)); cbn [snd].
Qed.

Lemma consume_last clock i lines t :
  lines <> [] -> lastEvent (consume_lines lineType clock i lines t) = clock (i + length lines - 1)%nat.
Proof.
  revert i t. induction lines as [|line lines IH]; intros i t Hne; [done|]. cbn [consume_lines length].
  destruct lines as [|line' lines].
  - cbn [consume_lines length]. replace (i + 1 - 1)%nat with i by lia. unfold consumeLine. by destruct (owed_of _ _).
  - rewrite IH by done. f_equal. cbn [length]. lia.
Qed.

(** The awaiting flag and the revision after some lines do not depend on the
    clock. *)
Definition owes (t : stallTracker) : bool * Z := (awaiting t, revision t).

Definition owe_line (o : bool * Z) (line : bytes) : bool * Z :=
  match owed_of lineType line with Some b => (b, u64 (o.2 + 1)) | None => o end.

Lemma consume_owes clock i lines t :
  owes (consume_lines lineType clock i lines t) = foldl owe_line (owes t) lines.
Proof.
  revert i t. induction lines as [|line lines IH]; intros i t; cbn [consume_lines foldl]; [done|]. rewrite IH. f_equal.
  unfold owes, owe_line, consumeLine. by destruct (owed_of _ _).
Qed.

Lemma consume_buf clock i lines t : buf (consume_lines lineType clock i lines t) = buf t.
Proof.
  revert i t. induction lines as [|line lines IH]; intros i t; cbn [consume_lines]; [done|].
  rewrite IH. unfold consumeLine. by destruct (owed_of _ _).
Qed.

(** How the child's output is cut into writes does not matter to what the
    agent owes, as long as no unfinished line outgrows the buffer. *)
Lemma feed_chunks clock1 clock2 clock b1 b2 t :
  (length (snd (cut_lines (buf t ++ b1))) <= maxBuf)%nat ->
  let t' := feed lineType maxBuf clock2 b2 (feed lineType maxBuf clock1 b1 t) in
  let t'' := feed lineType maxBuf clock (b1 ++ b2) t in
  owes t' = owes t'' /\ buf t' = buf t''.
Proof.
  intros Hlen. unfold feed. rewrite (app_assoc (buf t)), (cut_lines_app (buf t ++ b1) b2).
  destruct (cut_lines (buf t ++ b1)) as [l1 r1] eqn:E1. cbn [fst snd] in *.
  rewrite (proj2 (Nat.ltb_ge _ _) Hlen). cbn [buf set_buf].
  destruct (cut_lines (r1 ++ b2)) as [l2 r2] eqn:E2. cbn [fst snd]. split; [|done].
  transitivity (owes (consume_lines lineType clock2 0 l2 (set_buf r1 (consume_lines lineType clock1 0 l1 t)))); [done|].
  transitivity (owes (consume_lines lineType clock 0 (l1 ++ l2) t)); [|done].
  rewrite !consume_owes, foldl_app. change (owes (set_buf r1 (consume_lines lineType clock1 0 l1 t)))
    with (owes (consume_lines lineType clock1 0 l1 t)). by rewrite consume_owes.
Qed.

(** ** Activity *)

(** Whether an event is heard: it stamps [lastEvent]. *)
Definition active (e : event) (w : watchdog) : bool :=
  match e with
  | Feed _ b => match fst (cut_lines (buf (tracker w) ++ b)) with [] => false | _ => true end
  | UserTurnSent _ | ChildExited _ => true
  | TrackEnd _ ok => ok && (revision (tracker w) =? seen w)
  | TrackBegin | Tick _ _ => false
  end.

Definition etime (e : event) (w : watchdog) : instant :=
  match e with
  | Feed clock b => clock (length (fst (cut_lines (buf (tracker w) ++ b))) - 1)%nat
  | UserTurnSent now | ChildExited now | TrackEnd now _ => now
  | TrackBegin | Tick _ _ => 0
  end.

Lemma active_stamps e w : active e w = true -> lastEvent (tracker (fst (wstep e w))) = etime e w.
Proof.
  destruct e; cbn [active etime]; intros H; try done.
  - cbn. unfold feed. destruct (cut_lines _) as [lines rest]. cbn [fst] in *. cbn. apply (consume_last _ 0). by destruct lines.
  - destruct ok; [|done]. cbn in *. unfold trackArm. by rewrite H.
Qed.

Lemma quiet_keeps e w : active e w = false ->
  awaiting (tracker (fst (wstep e w))) = awaiting (tracker w) /\ lastEvent (tracker (fst (wstep e w))) = lastEvent (tracker w).
Proof.
  destruct e; cbn [active]; intros H; try done.
  - cbn. unfold feed. destruct (cut_lines _) as [lines rest]. cbn [fst] in *. by destruct lines.
  - cbn. destruct ok; [|done]. cbn in *. unfold trackArm. by rewrite H.
  - cbn. by destruct (poll _ _ _ _ _).
Qed.

(** ** Time *)

(** The clock does not go back, and no two polls are further apart than
    [gap]: from a poll at [prev] and the instant [now]. *)
Fixpoint well_timed (gap : Z) (prev now : instant) (es : list event) (w : watchdog) : Prop :=
  match es with
  | [] => True
  | e :: es =>
      let w' := fst (wstep e w) in
      match e with
      | Tick x _ => now <= x <= max_int64 /\ x <= prev + gap /\ well_timed gap x x es w'
      | _ => if active e w then now <= etime e w <= max_int64 /\ well_timed gap prev (etime e w) es w'
             else well_timed gap prev now es w'
      end
  end.

Fixpoint all_quiet (es : list event) (w : watchdog) : Prop :=
  match es with
  | [] => True
  | e :: es => active e w = false /\ all_quiet es (fst (wstep e w))
  end.

(** The first poll that finds the stream silent for longer than the
    threshold while a turn is owed, with its number. *)
Fixpoint first_late (i : nat) (es : list event) (t : stallTracker) : option (nat * instant * bool) :=
  match es with
  | [] => None
  | Tick x p :: es => if shouldFire (awaiting t) (lastEvent t) x idle then Some (i, x, p) else first_late (S i) es t
  | _ :: es => first_late (S i) es t
  end.

Lemma first_late_same i es t t' :
  awaiting t = awaiting t' -> lastEvent t = lastEvent t' -> first_late i es t = first_late i es t'.
Proof.
  intros H1 H2. revert i. induction es as [|e es IH]; intros i; [done|]. destruct e; cbn [first_late]; rewrite ?H1, ?H2, IH; done.
Qed.

Lemma shouldFire_spec aw last now :
  0 <= last -> now <= max_int64 -> last <= now ->
  shouldFire aw last now idle = aw && (last + idle <? now).
Proof.
  intros. unfold shouldFire. rewrite Sub_small by (unfold min_int64, max_int64 in *; lia).
  destruct aw; [|done]. destruct (Z.ltb_spec idle (now - last)), (Z.ltb_spec (last + idle) now); try done; lia.
Qed.

Lemma wrun_cons i e es w :
  wrun i (e :: es) w =
  (match snd (wstep e w) with Some p => (i, p) :: fst (wrun (S i) es (fst (wstep e w))) | None => fst (wrun (S i) es (fst (wstep e w))) end,
   snd (wrun (S i) es (fst (wstep e w)))).
Proof. cbn [StreamWatchdog.wrun]. destruct (wstep e w) as [w' [p|]]; cbn [fst snd]; by destruct (wrun (S i) es w'). Qed.

(** Once a stall has been signalled, the rest of the silence is not. *)
Lemma quiet_latched gap i es w prev now :
  all_quiet es w -> well_timed gap prev now es w -> fired w = true ->
  0 <= lastEvent (tracker w) -> awaiting (tracker w) = true -> lastEvent (tracker w) + idle < now -> 0 <= idle ->
  fst (wrun i es w) = [].
Proof.
  revert i w prev now. induction es as [|e es IH]; intros i w prev now Hq Ht Hf H0 Ha Hl Hi; [done|].
  destruct Hq as [He Hq]. destruct (quiet_keeps _ _ He) as [Ea El]. rewrite wrun_cons. cbn [fst].
  assert (snd (wstep e w) = None /\ fired (fst (wstep e w)) = true /\
          exists prev' now', lastEvent (tracker w) + idle < now' /\ well_timed gap prev' now' es (fst (wstep e w))) as (-> & Hf' & prev' & now' & Hl' & Ht').
  { destruct e; cbn [well_timed active] in *; try discriminate He; try rewrite He in Ht; try (split_and!; [done|done|by eauto]).
    destruct Ht as (Hx & _ & Ht). cbn [StreamWatchdog.wstep] in *. unfold poll in *.
    assert (shouldFire (awaiting (tracker w)) (lastEvent (tracker w)) now0 idle = true) as Hfire.
    { rewrite shouldFire_spec, Ha by lia. cbn [andb]. apply Z.ltb_lt. lia. }
    rewrite Hfire, Hf in *. cbn [fst snd] in *. split_and!; [done|done|]. exists now0, now0. split; [lia|done]. }
  eapply IH; eauto; congruence.
Qed.

(** Nothing is signalled while no turn is owed. *)
Lemma quiet_idle i es w :
  all_quiet es w -> awaiting (tracker w) = false -> fst (wrun i es w) = [] /\ first_late i es (tracker w) = None.
Proof.
  revert i w. induction es as [|e es IH]; intros i w Hq Ha; [done|]. destruct Hq as [He Hq].
  destruct (quiet_keeps _ _ He) as [Ea El]. rewrite wrun_cons. cbn [fst].
  destruct (IH (S i) _ Hq ltac:(congruence)) as [-> Hn]. rewrite (first_late_same _ _ _ _ Ea El) in Hn.
  destruct e; cbn [first_late]; try done. cbn. unfold poll, shouldFire. by rewrite Ha.
Qed.

(** The signals of a stretch of silence: the first late poll, if any. *)
Lemma quiet_run gap i es w prev now :
  all_quiet es w -> well_timed gap prev now es w -> 0 <= gap <= idle -> awaiting (tracker w) = true ->
  0 <= lastEvent (tracker w) <= now -> prev <= lastEvent (tracker w) + idle -> (fired w = true -> prev <= lastEvent (tracker w)) ->
  fst (wrun i es w) = (match first_late i es (tracker w) with Some (k, _, p) => [(k, p)] | None => [] end) /\
  (forall k x p, first_late i es (tracker w) = Some (k, x, p) -> x <= lastEvent (tracker w) + idle + gap).
Proof.
  revert i w prev now. induction es as [|e es IH]; intros i w prev now Hq Ht Hg Ha Hl Hp Hf; [done|].
  destruct Hq as [He Hq]. destruct (quiet_keeps _ _ He) as [Ea El]. rewrite wrun_cons. cbn [fst].
  destruct e; cbn [well_timed active first_late] in *; try discriminate He; try rewrite He in Ht.
  1-3: rewrite <- (first_late_same _ _ _ _ Ea El), <- El; eapply IH; try done; rewrite ?El, ?Ea; done.
  destruct Ht as (Hx & Hxg & Ht). cbn [StreamWatchdog.wstep] in *. unfold poll in *. rewrite shouldFire_spec in * by lia.
  rewrite Ha in *. cbn [andb] in *. destruct (Z.ltb_spec (lastEvent (tracker w) + idle) now0); cbn [fst snd] in *.
  - destruct (fired w) eqn:Hfw; [specialize (Hf eq_refl); lia|]. cbn [snd fst] in *.
    split; [|intros ??? [= <- <- <-]; lia]. f_equal. eapply quiet_latched; try done; cbn; lia.
  - apply (IH (S i) (MkWatchdog (tracker w) (seen w) false) now0 now0); try done; cbn; lia.
Qed.

(** ** Whole runs *)

Lemma wrun_app i es es' w :
  wrun i (es ++ es') w =
  (fst (wrun i es w) ++ fst (wrun (i + length es) es' (snd (wrun i es w))), snd (wrun (i + length es) es' (snd (wrun i es w)))).
Proof.
  revert i w. induction es as [|e es IH]; intros i w.
  - cbn [app length StreamWatchdog.wrun fst snd]. rewrite Nat.add_0_r. by destruct (wrun i es' w).
  - cbn [app length]. rewrite !wrun_cons, IH. cbn [fst snd]. rewrite <- Nat.add_succ_comm.
    by destruct (snd (wstep e w)).
Qed.

Lemma well_timed_app gap prev now es es' i w :
  well_timed gap prev now (es ++ es') w -> prev <= now -> 0 <= now -> 0 <= lastEvent (tracker w) ->
  exists prev' now', prev' <= now' /\ 0 <= now' /\ well_timed gap prev' now' es' (snd (wrun i es w)).
Proof.
  revert i prev now w. induction es as [|e es IH]; intros i prev now w Ht Hp H0 Hl; [cbn; eauto|].
  rewrite wrun_cons. cbn [snd app] in *. cbn [well_timed] in Ht.
  destruct (active e w) eqn:Ha.
  - pose proof (active_stamps _ _ Ha) as Hs.
    destruct e; try discriminate Ha; destruct Ht as [Hx Ht]; eapply IH; try exact Ht; rewrite ?Hs; lia.
  - destruct (quiet_keeps _ _ Ha) as [_ El]. destruct e; try discriminate Ha; try (eapply IH; try exact Ht; rewrite ?El; lia).
    destruct Ht as (Hx & _ & Ht). eapply IH; try exact Ht; rewrite ?El; lia.
Qed.

Lemma well_timed_active gap prev now e es w :
  active e w = true ->
  well_timed gap prev now (e :: es) w <-> now <= etime e w <= max_int64 /\ well_timed gap prev (etime e w) es (fst (wstep e w)).
Proof. intros H. destruct e; try discriminate H; cbn [well_timed]; by rewrite H. Qed.

Lemma well_timed_prefix gap prev now es es' w : well_timed gap prev now (es ++ es') w -> well_timed gap prev now es w.
Proof.
  revert prev now w. induction es as [|e es IH]; intros prev now w H; [done|]. cbn [app well_timed] in *.
  destruct e; try (destruct (active _ _)); naive_solver.
Qed.

(** C33. The stretch of polls after anything heard (output with a complete line, a
    turn sent, a delivery that arms, the child's end) and before the next: where
    a turn is owed, the first poll past the threshold signals the stall, none
    other does, and it comes at most [gap], the time between polls, after the
    threshold; where none is owed there is no signal, however long the
    silence. Nothing an earlier stall has left in the latch matters. *)
Theorem stalls_signalled gap es1 e es2 es3 t0 :
  0 <= gap <= idle -> 0 <= t0 ->
  let w0 := NewWatchdog t0 in
  let w1 := snd (wrun 0 es1 w0) in
  let w2 := fst (wstep e w1) in
  let n := S (length es1) in
  well_timed gap t0 t0 (es1 ++ e :: es2 ++ es3) w0 -> active e w1 = true -> all_quiet es2 w2 ->
  fst (wrun 0 (es1 ++ e :: es2 ++ es3) w0) =
    fst (wrun 0 es1 w0) ++ fst (wrun n es2 w2) ++ fst (wrun (n + length es2) es3 (snd (wrun n es2 w2))) /\
  (awaiting (tracker w2) = false -> fst (wrun n es2 w2) = []) /\
  (awaiting (tracker w2) = true ->
     fst (wrun n es2 w2) = (match first_late n es2 (tracker w2) with Some (k, _, p) => [(k, p)] | None => [] end) /\
     (forall k x p, first_late n es2 (tracker w2) = Some (k, x, p) -> x <= lastEvent (tracker w2) + idle + gap)).
Proof.
  intros Hg H0 w0 w1 w2 n Ht Ha Hq. split.
  { rewrite wrun_app. cbn [fst]. f_equal. rewrite wrun_cons. cbn [fst plus]. fold w1 w2 n.
    replace (snd (wstep e w1)) with (@None bool) by (by destruct e). by rewrite wrun_app. }
  split; [intros Haw; by apply quiet_idle|]. intros Haw.
  destruct (well_timed_app _ _ _ _ _ 0 _ Ht ltac:(lia) H0 H0) as (prev & now & Hpn & Hn0 & Ht').
  fold w1 in Ht'. pose proof (active_stamps _ _ Ha) as Hs. fold w2 in Hs.
  assert (exists prev', prev' <= lastEvent (tracker w2) /\ 0 <= lastEvent (tracker w2) /\
            well_timed gap prev' (lastEvent (tracker w2)) (es2 ++ es3) w2) as (prev' & Hp' & Hl & Ht2).
  { exists prev. rewrite well_timed_active in Ht' by done. fold w2 in Ht'. rewrite Hs. destruct Ht' as [??]. split_and!; try done; lia. }
  apply well_timed_prefix in Ht2.
  apply (quiet_run gap n es2 w2 prev' (lastEvent (tracker w2))); try done; lia.
Qed.

(** ** Deliveries *)

(** What an event other than a delivery says of the owed turn. *)
Definition says (e : event) (w : watchdog) : list bool :=
  match e with
  | Feed _ b => omap (owed_of lineType) (fst (cut_lines (buf (tracker w) ++ b)))
  | UserTurnSent _ => [true]
  | ChildExited _ => [false]
  | _ => []
  end.

Definition no_delivery (e : event) : bool := match e with TrackBegin | TrackEnd _ _ => false | _ => true end.

Fixpoint all_says (es : list event) (w : watchdog) : list bool :=
  match es with [] => [] | e :: es => says e w ++ all_says es (fst (wstep e w)) end.

Lemma owe_lines lines o : 0 <= o.2 < 2 ^ 64 ->
  let cs := omap (owed_of lineType) lines in
  foldl owe_line o lines = (default o.1 (last cs), u64 (o.2 + Z.of_nat (length cs))).
Proof.
  revert o. induction lines as [|line lines IH]; intros o Ho.
  { cbn. rewrite Z.add_0_r, u64_small by done. by destruct o. }
  cbn zeta. change (omap (owed_of lineType) (line :: lines)) with
    (match owed_of lineType line with Some b => b :: omap (owed_of lineType) lines | None => omap (owed_of lineType) lines end).
  cbn [foldl]. unfold owe_line at 2. destruct (owed_of lineType line) as [b|]; [|by apply IH].
  rewrite IH by (cbn; apply u64_range). cbn [fst snd length]. f_equal.
  - rewrite last_cons. by destruct (last _).
  - unfold u64. rewrite Zplus_mod_idemp_l. f_equal. lia.
Qed.

Lemma says_run es w : forallb no_delivery es = true -> 0 <= revision (tracker w) < 2 ^ 64 ->
  let w' := snd (wrun 0 es w) in
  owes (tracker w') = (default (awaiting (tracker w)) (last (all_says es w)),
                       u64 (revision (tracker w) + Z.of_nat (length (all_says es w)))) /\
  seen w' = seen w.
Proof.
  generalize 0%nat. revert w. induction es as [|e es IH]; intros w n Hd Hr.
  { cbn. unfold owes. by rewrite Z.add_0_r, u64_small. }
  cbn [forallb] in Hd. apply andb_true_iff in Hd as [He Hd]. rewrite wrun_cons. cbn [snd all_says].
  assert (owes (tracker (fst (wstep e w))) = (default (awaiting (tracker w)) (last (says e w)),
            u64 (revision (tracker w) + Z.of_nat (length (says e w)))) /\ seen (fst (wstep e w)) = seen w) as [Ho Hs].
  { destruct e; try discriminate He; cbn [says]; try done.
    - cbn. unfold feed. destruct (cut_lines _) as [lines rest]. split; [|done].
      change (owes (set_buf ?b ?t)) with (owes t).
      transitivity (owes (consume_lines lineType clock 0 lines (tracker w))); [done|].
      rewrite consume_owes. apply (owe_lines lines (owes (tracker w))). done.
    - cbn. destruct (poll _ _ _ _ _). cbn. unfold owes. by rewrite Z.add_0_r, u64_small. }
  destruct (IH (fst (wstep e w)) (S n) Hd) as [IH1 IH2].
  { injection Ho as _ ->. apply u64_range. }
  split; [|by rewrite IH2]. rewrite IH1. injection Ho as -> ->. rewrite length_app, last_app. f_equal.
  - by destruct (last (all_says _ _)), (last (says _ _)).
  - unfold u64. rewrite Zplus_mod_idemp_l. f_equal. lia.
Qed.

(** A delivery that succeeds leaves a turn owed, from the moment it returned,
    unless the child said otherwise while it was under way: what it said last
    stands. *)
Theorem delivery_arms es now w :
  forallb no_delivery es = true -> 0 <= revision (tracker w) < 2 ^ 64 ->
  let w1 := fst (wstep TrackBegin w) in
  let said := all_says es w1 in
  Z.of_nat (length said) < 2 ^ 64 ->
  let w' := fst (wstep (TrackEnd now true) (snd (wrun 0 es w1))) in
  awaiting (tracker w') = default true (last said) /\ (said = [] -> lastEvent (tracker w') = now).
Proof.
  intros Hd Hr w1 said Hl w'. destruct (says_run es w1 Hd Hr) as [Ho Hs]. fold said in Ho.
  set (w2 := snd (wrun 0 es w1)) in *.
  assert (tracker w' = trackArm (seen w1) now (tracker w2)) as -> by (rewrite <- Hs; done).
  unfold trackArm. injection Ho as Haw Hrev.
  destruct (decide (said = [])) as [He|Hne].
  - rewrite He in *. cbn in Hrev. rewrite Z.add_0_r, u64_small in Hrev by done.
    change (seen w1) with (revision (tracker w)). rewrite Hrev, Z.eqb_refl. done.
  - destruct (last said) as [b|] eqn:E; [|by apply last_None in E]. cbn in Haw.
    assert (0 < length said)%nat by (destruct said; [done|cbn; lia]).
    assert (revision (tracker w2) <> seen w1) as Hne'.
    { rewrite Hrev. change (seen w1) with (revision (tracker w1)). change (tracker w1) with (tracker w). unfold u64. intros E'.
      assert ((revision (tracker w) + Z.of_nat (length said)) mod 2 ^ 64 = revision (tracker w) mod 2 ^ 64) as E2
        by (rewrite E'; symmetry; by apply Z.mod_small).
      apply Z.cong_iff_0 in E2. replace (_ - _) with (Z.of_nat (length said)) in E2 by lia.
      rewrite Z.mod_small in E2 by lia. lia. }
    rewrite (proj2 (Z.eqb_neq _ _) Hne'). split; [done|]. done.
Qed.

(** The interval between polls is within the threshold it is derived from. *)
Lemma watchdogTickFor_le : minWatchdogTick <= idle -> 0 < watchdogTickFor idle <= idle.
Proof.
  unfold watchdogTickFor, minWatchdogTick, watchdogTick, second. intros H.
  rewrite Z.quot_div_nonneg by lia. pose proof (Z.div_mod idle 8 ltac:(lia)). pose proof (Z.mod_pos_bound idle 8 ltac:(lia)).
  destruct (Z.ltb_spec (5 * 1000000000) (idle / 8)); [vm_compute (_ <? 5000000); lia|]. destruct (Z.ltb_spec (idle / 8) 5000000); lia.
Qed.

End watchdog.
End StreamWatchdogProps.
