(* ===== verification/StreamWitness.v ===== *)
(** * The supervised stream: its theorems at concrete runs *)
From Stdlib Require Import Ascii String.
From stdpp Require Import prelude strings list gmap.
From S2P Require Import Prelude Utf8 Strconv StreamArgs StreamRunner StreamBackoff StreamSystem StreamInv StreamRotation StreamRestart StreamPosture StreamWatchdog StreamWatchdogProps.

(** ** The supervised stream: runs outside its comments, and examples *)
Module StreamEdges.

Import Strconv StreamArgs StreamRunner StreamSystem.

Local Open Scope Z_scope.

Definition demo_cfg (mode : string) : Config :=
  MkConfig ["--model"; "m"]%string "a"%string "/w"%string "/t"%string mode false true true true ""%string None
    defaultBackoffInitial defaultBackoffMax defaultBackoffReset.

(** From the top of the loop to [cmd.Wait]. *)
Definition spawn : list op :=
  OLoop LGo :: OLoop LGo :: OLoop (LProbe false true) :: OLoop (LSetup true) :: OLoop LGo :: OLoop LGo ::
  OLoop (LPath None) :: OLoop LGo :: OLoop (LWrite true) :: [OLoop LGo].
(** From the child's end to [drainRestart]. *)
Definition reap (u : Z) : list op :=
  OExit :: replicate 5 (OLoop LGo) ++ [OLoop (LUptime u)].
(** A whole frame, the [i]-th call, that rotates [old] to [new]. *)
Definition frame_begins (i : nat) (old : string) : list op := OStart (FRead old) :: replicate 2 (OThread i IGo).
Definition frame_rotates (i : nat) (new : string) : list op :=
  OThread i (IRotate (Some new)) :: OThread i (IInstall None) :: replicate 3 (OThread i IGo).

Definition reached (mode : string) (os : list op) : option sys := s ← init (demo_cfg mode); exec (demo_cfg mode) os s.

Lemma reached_by mode os s :
  (length os <= 1000)%nat -> reached mode os = Some s -> reaches_by (demo_cfg mode) os s.
Proof. unfold reached, reaches_by. intros Hl H. split; [lia|done]. Qed.

(** A rotation that has succeeded keeps its gate up until its successor binds,
    its outgoing child still running. A second frame arms meanwhile; its
    rotation fails, and its disarm, live because no later arm has landed, takes
    the first one's gate down: the outgoing child is given turns. *)
Definition dropped_run : list op :=
  ORun :: spawn ++ frame_begins 0 "a" ++ frame_rotates 0 "b" ++ frame_begins 1 "b" ++ [OThread 1 (IRotate None)].

Example abort_drops_standing_gate :
  exists s s', reached "" dropped_run = Some s /\ fst (turnTargetWithGate (tgt s)) = None /\
    step (demo_cfg "") (OThread 1 IGo) s = Some s' /\
    fst (turnTargetWithGate (tgt s')) = Some 0%nat /\ 0%nat ∈ replaced (gh s') /\ alive s' = Some 0%nat.
Proof.
  destruct (reached "" dropped_run) as [s|] eqn:E; [|by vm_compute in E].
  destruct (step (demo_cfg "") (OThread 1 IGo) s) as [s'|] eqn:E'; vm_compute in E; injection E as <-; vm_compute in E'; [|done].
  injection E' as <-. eexists _, _. split; [done|]. split; [done|]. split; [done|]. split; [done|]. split; [|done].
  apply (bool_decide_unpack _). by vm_compute.
Qed.

(** A turn that has chosen its child before [BeginRotation] is written to it
    after, though every turn is to be refused from then on: the write is
    outside the lock. *)
Definition late_turn : list op :=
  ORun :: spawn ++ OStart WSelect :: replicate 2 (OThread 0 IGo) ++ frame_begins 1 "a" ++ frame_rotates 1 "b".

Example selected_turn_outlives_arm :
  exists s s', reached "" late_turn = Some s /\ fst (turnTargetWithGate (tgt s)) = None /\
    step (demo_cfg "") (OThread 0 (IWrite true)) s = Some s' /\ written (gh s') = [0%nat] /\ 0%nat ∈ replaced (gh s').
Proof.
  destruct (reached "" late_turn) as [s|] eqn:E; [|by vm_compute in E].
  destruct (step (demo_cfg "") (OThread 0 (IWrite true)) s) as [s'|] eqn:E'; vm_compute in E; injection E as <-; vm_compute in E'; [|done].
  injection E' as <-. eexists _, _. split; [done|]. split; [done|]. split; [done|]. split; [done|].
  apply (bool_decide_unpack _). by vm_compute.
Qed.

(** A teardown's arm has no say over a child that binds before the kill it was
    armed for: here the child armed against crashes and its successor binds
    before the session's context is cancelled ... *)
Definition respawned : list op :=
  ORun :: spawn ++ OTeardown :: reap 1 ++ OLoop LTimer :: spawn ++ [OShutdown].
(** ... and here a child has started, but not bound, as the gate is armed. *)
Definition late_bind : list op :=
  ORun :: firstn 5 spawn ++ OTeardown :: skipn 5 spawn ++ [OShutdown].

Example teardown_gate_reopened :
  (exists s, reached "" respawned = Some s /\ alive s = Some 1%nat /\ ctx_done 1 s = true /\ torn (gh s) = {[0%nat]} /\
    fst (turnTargetWithGate (tgt s)) = Some 1%nat) /\
  (exists s, reached "" late_bind = Some s /\ alive s = Some 0%nat /\ ctx_done 0 s = true /\ torn (gh s) = ∅ /\
    fst (turnTargetWithGate (tgt s)) = Some 0%nat).
Proof.
  split.
  - destruct (reached "" respawned) as [s|] eqn:E; [|by vm_compute in E].
    vm_compute in E; injection E as <-. eexists. split; [reflexivity|]. split_and!; vm_compute; reflexivity.
  - destruct (reached "" late_bind) as [s|] eqn:E; [|by vm_compute in E].
    vm_compute in E; injection E as <-. eexists. split; [reflexivity|]. split_and!; vm_compute; reflexivity.
Qed.

(** The spawn's posture write is refused; the operator's corrective change is
    written and acknowledged before [retarget] runs, and is then waited for
    for ever: the gate stays shut for a child that has answered everything. *)
Definition lost_ack : list op :=
  ORun :: spawn ++ OAck "error" (format 1) :: OStart (MSnap "default") :: replicate 2 (OThread 0 IGo) ++
  OThread 0 (IWrite true) :: OAck "success" (format 3) :: [OThread 0 IGo].

Example retarget_misses_ack :
  exists s, reached "plan" lost_ack = Some s /\ ths s = [TDone] /\ alive s = Some 0%nat /\
    pgate s = Some (MkGate (format 3) false) /\ ready (pgate s) = false.
Proof.
  destruct (reached "plan" lost_ack) as [s|] eqn:E; [|by vm_compute in E].
  vm_compute in E; injection E as <-. eexists. by split_and!; vm_compute.
Qed.

(** The corrective change is written to a child that then ends; [retarget]
    runs once its successor has armed its own id, which thus opens nothing. *)
Definition crossed : list op :=
  ORun :: spawn ++ OStart (MSnap "default") :: replicate 2 (OThread 0 IGo) ++ OThread 0 (IWrite true) ::
  reap 1 ++ OLoop LTimer :: spawn ++ OThread 0 IGo :: [OAck "success" (format 4)].

Example retarget_crosses_children :
  exists s, reached "plan" crossed = Some s /\ alive s = Some 1%nat /\ stdin (tgt s) = Some 1%nat /\
    pgate s = Some (MkGate (format 3) false) /\ ready (pgate s) = false.
Proof.
  destruct (reached "plan" crossed) as [s|] eqn:E; [|by vm_compute in E].
  vm_compute in E; injection E as <-. eexists. by split_and!; vm_compute.
Qed.

End StreamEdges.

Module StreamWitness.

Import Strconv StreamArgs StreamRunner StreamBackoff StreamSystem StreamInv StreamRotation StreamRestart StreamPosture.
Import StreamWatchdog StreamWatchdogProps StreamEdges.

Local Open Scope Z_scope.

(** ** A session is renewed, and the turns go to the new child *)

Definition renewed : list op :=
  ORun :: spawn ++ OTeardown :: frame_begins 0 "a" ++ frame_rotates 0 "b" ++ reap 1 ++ spawn.

Lemma turns_reach_current_child_witness :
  exists s it, reached "" renewed = Some s /\ fst (turnTargetWithGate (tgt s)) = Some 1%nat /\
    current (run s) = Some it /\ it_num it = 1%nat /\ it_id it = poolID s /\ poolID s = "b"%string /\
    1%nat ∉ replaced (gh s) /\ 1%nat ∉ torn (gh s).
Proof.
  destruct (reached "" renewed) as [s|] eqn:E; [|exfalso; vm_compute in E; discriminate E].
  assert (dropped (gh s) = false /\ adopted (gh s) = false /\ poolID s = "b"%string /\
          fst (turnTargetWithGate (tgt s)) = Some 1%nat) as (Hd & Ha & Hp & Ht).
  { vm_compute in E. injection E as <-. by split_and!. }
  destruct (turns_reach_current_child (demo_cfg "") renewed s) as [H _].
  - apply reached_by; [vm_compute; lia|exact E].
  - exact Hd.
  - destruct (H _ Ht) as (_ & (it & Hit & Hn & _ & Hid) & Hr & Hdo & _).
    exists s, it. split; [reflexivity|]. rewrite (Hid Ha). split_and!; assumption || reflexivity.
Defined.

(** ** A restart of a running child *)

Definition restarted : list op :=
  ORun :: spawn ++ OStart (TRestart ["x"%string]) :: replicate 3 (OThread 0 IGo) ++ [OExit].

Lemma restarts_take_effect_witness :
  exists s s' it', reached "" restarted = Some s /\ exec (demo_cfg "") (relaunch 7) s = Some s' /\
    run s' = RProbe it' /\ it_args it' = ["x"%string] /\ bo s' = bo s.
Proof.
  destruct (reached "" restarted) as [s|] eqn:E; [|exfalso; vm_compute in E; discriminate E].
  assert (exists it, run s = RWait it /\ alive s = None /\ bool_decide (it_num it ∈ killed (gh s)) = true /\
            parentDone s = false /\ args (inp s) = ["x"%string]) as (it & Hr & Ha & Hk & Hp & Hargs).
  { vm_compute in E. injection E as <-. eexists. split; [reflexivity|]. split_and!; try reflexivity. }
  destruct (restarts_take_effect (demo_cfg "") restarted s it) as [_ H].
  - apply reached_by; [vm_compute; lia|exact E].
  - by rewrite Hr.
  - destruct (H Hr Ha (bool_decide_eq_true_1 _ Hk) Hp 7) as (s' & it' & He & Hrun & _ & Hi & _ & _ & _ & Hb & _).
    exists s, s', it'. split; [reflexivity|]. split; [exact He|]. split; [exact Hrun|]. split; [congruence|exact Hb].
Defined.

(** ** A turn that waited for its child's confirmation *)

Definition confirmed_turn : list op :=
  ORun :: spawn ++ OAck "success" (format 1) :: OStart WSelect :: replicate 2 (OThread 0 IGo).

Lemma turns_wait_for_posture_witness :
  exists s id, reached "plan" confirmed_turn = Some s /\ ths s = [WWrite 0] /\ (0%nat, id) ∈ confirmed (gh s).
Proof.
  destruct (reached "plan" confirmed_turn) as [s|] eqn:E; [|exfalso; vm_compute in E; discriminate E].
  assert (ths s = [WWrite 0] /\ alive s = Some 0%nat /\ it_mode <$> current (run s) = Some "plan"%string) as (Ht & Ha & Hm).
  { vm_compute in E. injection E as <-. by split_and!. }
  destruct (turns_wait_for_posture (demo_cfg "plan") confirmed_turn s 0 0) as (it & Hit & _ & H).
  - apply reached_by; [vm_compute; lia|exact E].
  - reflexivity.
  - by rewrite Ht.
  - exact Ha.
  - rewrite Hit in Hm. injection Hm as Hm.
    destruct H as [id Hid]; [by rewrite Hm|reflexivity|]. exists s, id. split; [reflexivity|]. split; [exact Ht|exact Hid].
Defined.

(** ** The ladder *)

Lemma restart_ladder_witness :
  exits [second; second; second; second; 20 * second; second; 61 * second]
    (newBackoffTimer defaultBackoffInitial defaultBackoffMax defaultBackoffReset) 0 =
  [(500000000, false); (second, false); (2 * second, false); (4 * second, true); (8 * second, false); (16 * second, false);
   (500000000, false)] /\
  exists delay fires, exits [second; second; second; second] (newBackoffTimer defaultBackoffInitial defaultBackoffMax defaultBackoffReset) 0
    !! 3%nat = Some (delay, fires) /\ delay <= defaultBackoffMax.
Proof.
  split; [vm_compute; reflexivity|].
  destruct (restart_ladder (demo_cfg "") [second; second; second; second] ltac:(vm_compute; split; [reflexivity|discriminate])
    ltac:(vm_compute; discriminate) ltac:(vm_compute; discriminate) 3%nat second eq_refl) as (delay & fires & H & _ & Hb & _).
  exists delay, fires. split; [exact H|]. apply Hb.
Defined.

(** ** Two stalls, each signalled once *)

Definition demo_type (line : string) : option string := if bool_decide (line = "u"%string) then Some "user"%string else None.
Definition newline : bytes := [ascii_of_nat 10].
Definition stall1 : list event :=
  [Tick 50 false; UserTurnSent 60; Tick 100 false; Tick 150 false; Tick 200 false; Tick 240 false].
Definition heard : event := Feed (fun _ => 250) (list_ascii_of_string "u" ++ newline).
Definition stall2 : list event := [Tick 290 false; Tick 340 false; Feed (fun _ => 0) (list_ascii_of_string "x"); Tick 360 true; Tick 400 false].

Lemma stalls_signalled_witness :
  fst (wrun demo_type 100 10 0 (stall1 ++ heard :: stall2 ++ []) (NewWatchdog 0)) = [(4%nat, false); (10%nat, true)] /\
  360 <= 250 + 100 + 50.
Proof.
  split; [vm_compute; reflexivity|].
  destruct (stalls_signalled demo_type 100 10 50 stall1 heard stall2 [] 0) as (_ & _ & H).
  - split; vm_compute; discriminate.
  - vm_compute; discriminate.
  - vm_compute. repeat split; discriminate.
  - vm_compute; reflexivity.
  - vm_compute. repeat split; reflexivity.
  - destruct H as [_ H]; [vm_compute; reflexivity|]. apply (H 10%nat 360 true). vm_compute; reflexivity.
Defined.

End StreamWitness.
