(* ===== verification/RelayQueue.v ===== *)
(** * A relay session's push queue ([internal/relay])

    [v2session_modal.go]'s [pushQueue]: the bounded FIFO of unsealed envelopes
    a session's producers append to and the session manager pops, with its
    policy under pressure: of a full queue the oldest streamed text goes first,
    anything else is kept, up to a ceiling in bytes that ends the session. *)
From Stdlib Require Import Ascii String.
From stdpp Require Import prelude strings list.
From S2P Require Import Prelude.

Module RelayQueue.

Local Open Scope Z_scope.

(** ** Envelopes ([protocol.Envelope]) *)

(** Payloads and the two raw JSON fields are their bytes. *)
Record Envelope := MkEnvelope {
  ID : Z;
  Type_ : string;
  TS : instant;
  Payload : string;
  InReplyTo : option Z;
  EventID : option Z;
  HistoryEntryID : option Z;
  ConversationID : string;
  SessionID : string;
  SessionStateCleared : bool;
  PayloadEncrypted : bool;
}.

#[export] Instance Envelope_eq_dec : EqDecision Envelope.
Proof. solve_decision. Defined.

(** An envelope with only the fields every frame has. *)
Definition plain_env (id : Z) (typ : string) (ts : instant) (payload : string) (reply : option Z) : Envelope :=
  MkEnvelope id typ ts payload reply None None "" "" false false.

Definition TypeAssistantDelta : string := "assistant_delta".

(** [LiveState] ([v2session_livestate.go]): a reading with its source. *)
Record LiveState := MkLive {
  lv_Envelope : Envelope;
  lv_ConversationID : string;
  SessionGeneration : Z;
  ReadingID : string;
  Revision : Z;
  Answerable : option bool;
  ModelListUnprojected : bool;
}.

#[export] Instance LiveState_eq_dec : EqDecision LiveState.
Proof. solve_decision. Defined.

(** ** The queue *)

(** [barrier] marks a completion marker of [FlushPushes]: the number of the
    channel that is closed when it is reached. *)
Record queuedEnv := MkQueued {
  env : Envelope;
  live : option LiveState;
  ready : bool;
  modelListProjected : bool;
  droppable : bool;
  barrier : option nat;
}.

Record pushQueue := MkQueue {
  items : list queuedEnv;
  dropped : Z;
  bytes : Z;
  overflowed : bool;
  producerGap : bool;
}.

Definition pushQueueCap : nat := 256.
Definition pushQueueByteCeiling : Z := Z.shiftl 32 20.

Definition newQueue : pushQueue := MkQueue [] 0 0 false false.

Definition queued (e : Envelope) (live : option LiveState) (ready projected : bool) : queuedEnv :=
  MkQueued e live ready projected (bool_decide (Type_ e = TypeAssistantDelta)) None.

(** The bytes an item is charged. *)
Definition charge (x : queuedEnv) : Z := slen (Payload (env x)).

Definition append_item (x : queuedEnv) (q : pushQueue) : pushQueue :=
  MkQueue (items q ++ [x]) (dropped q) (bytes q + charge x) (overflowed q) (producerGap q).

Definition evict (i : nat) (q : pushQueue) : pushQueue :=
  match items q !! i with
  | Some y => MkQueue (remove_at i (items q)) (dropped q) (bytes q - charge y) (overflowed q) (producerGap q)
  | None => q
  end.

Definition count_drop (q : pushQueue) : pushQueue :=
  MkQueue (items q) (u64 (dropped q + 1)) (bytes q) (overflowed q) (producerGap q).

(** [enqueueSource]: the queue, and whether the policy dropped something. *)
Definition enqueueSource (e : Envelope) (live : option LiveState) (ready projected : bool) (q : pushQueue) : pushQueue * bool :=
  if overflowed q then (q, false)
  else
    let qe := queued e live ready projected in
    if (length (items q) <? pushQueueCap)%nat then (append_item qe q, false)
    else match IndexFunc droppable (items q) with
         | Some i => (count_drop (append_item qe (evict i q)), true)
         | None =>
             if droppable qe then (count_drop q, true)
             else if pushQueueByteCeiling <? bytes q + charge qe
             then (MkQueue (items q) (dropped q) (bytes q) true (producerGap q), false)
             else (append_item qe q, false)
         end.

(** [popHead], whose caller has checked that there is one. *)
Definition popHead (q : pushQueue) : option (queuedEnv * pushQueue) :=
  match items q with
  | x :: rest => Some (x, MkQueue rest (dropped q) (bytes q - charge x) (overflowed q) (producerGap q))
  | [] => None
  end.

(** A marker of [FlushPushes], whose envelope is the zero value. *)
Definition zero_env : Envelope := plain_env 0 "" zero_time "" None.
Definition marker (n : nat) : queuedEnv := MkQueued zero_env None false false false (Some n).
Definition flush_mark (n : nat) (q : pushQueue) : pushQueue :=
  MkQueue (items q ++ [marker n]) (dropped q) (bytes q) (overflowed q) (producerGap q).

(** [RetireLiveState]'s section. *)
Definition retire_gap (q : pushQueue) : pushQueue :=
  if overflowed q then q else MkQueue (items q) (dropped q) (bytes q) true true.

(** An overflow of the hosted-changes lane: the callback that finds it full
    ([HostedAppsChanged]) and the loop that closes its session
    ([closeHostedOverflow]) latch the queue from outside any push. *)
Definition latch (q : pushQueue) : pushQueue := MkQueue (items q) (dropped q) (bytes q) true (producerGap q).

(** ** Everything that meets a queue *)

Inductive qop :=
| QPush (e : Envelope) (live : option LiveState) (ready projected : bool)
| QMark (n : nat)
| QPop
| QRetire
| QLatch.

(** One operation, with what it pops. *)
Definition qstep (o : qop) (q : pushQueue) : pushQueue * list queuedEnv :=
  match o with
  | QPush e l r p => (fst (enqueueSource e l r p q), [])
  | QMark n => (flush_mark n q, [])
  | QPop => if overflowed q then (q, []) else match popHead q with Some (x, q') => (q', [x]) | None => (q, []) end
  | QRetire => (retire_gap q, [])
  | QLatch => (latch q, [])
  end.

Fixpoint qrun (os : list qop) (q : pushQueue) : pushQueue * list queuedEnv :=
  match os with
  | [] => (q, [])
  | o :: os => let '(q, out) := qstep o q in let '(q, out') := qrun os q in (q, out ++ out')
  end.

(** What an operation offers to the queue. *)
Definition offer (o : qop) : list queuedEnv :=
  match o with QPush e l r p => [queued e l r p] | QMark n => [marker n] | QPop | QRetire | QLatch => [] end.

End RelayQueue.
