(* ===== verification/RelayQueueProps.v ===== *)
(** * What the push queue keeps ([internal/relay]) *)
From Stdlib Require Import Ascii String.
From stdpp Require Import prelude strings list.
From S2P Require Import Prelude RelayQueue.

Module RelayQueueProps.

Import RelayQueue.

Local Open Scope Z_scope.

(** The cap on an application envelope ([docs/protocol-mobile.md]). *)
Definition maxEnvelope : Z := 65519.

Definition charges (l : list queuedEnv) : Z := foldr (fun x n => charge x + n) 0 l.

Definition is_event (x : queuedEnv) : bool := negb (droppable x).
Definition real (x : queuedEnv) : bool := bool_decide (barrier x = None).

Lemma charges_app l k : charges (l ++ k) = charges l + charges k.
Proof. induction l as [|x l IH]; simpl; [done|]. rewrite IH. lia. Qed.

Lemma charge_nonneg x : 0 <= charge x.
Proof. unfold charge, slen. lia. Qed.

Lemma charges_nonneg l : 0 <= charges l.
Proof. induction l as [|x l IH]; simpl; [done|]. pose proof (charge_nonneg x). lia. Qed.

Lemma charges_remove_at l i y : l !! i = Some y -> charges (remove_at i l) = charges l - charge y.
Proof.
  intros H. rewrite <- (take_drop_middle l i y H) at 2. unfold remove_at. rewrite !charges_app. simpl. lia.
Qed.

(** Charges are at most [maxEnvelope] for an envelope and none for a marker. *)
Definition small (x : queuedEnv) : Prop := charge x <= if real x then maxEnvelope else 0.

Lemma charges_small l : Forall small l -> charges l <= maxEnvelope * Z.of_nat (length (filter (fun x => real x = true) l)).
Proof.
  induction 1 as [|x l Hx Hl IH]; [done|]. cbn [charges foldr]. fold (charges l). rewrite filter_cons.
  unfold small in Hx. destruct (real x); case_decide; simplify_eq; cbn [length]; unfold maxEnvelope in *; lia.
Qed.

(** ** The invariant of a queue *)

Definition reals (l : list queuedEnv) : nat := length (filter (fun x => real x = true) l).

Record queue_ok (q : pushQueue) : Prop := {
  qo_bytes : bytes q = charges (items q);
  qo_marks : forall x, x ∈ items q -> droppable x = true -> real x = true;
  qo_deltas : (exists x, x ∈ items q /\ droppable x = true) -> (reals (items q) <= pushQueueCap)%nat;
}.

(** With envelopes of at most [maxEnvelope] bytes. *)
Record bounded (q : pushQueue) : Prop := {
  bo_small : Forall small (items q);
  bo_bytes : bytes q <= pushQueueByteCeiling;
}.

Lemma reals_app l k : reals (l ++ k) = (reals l + reals k)%nat.
Proof. unfold reals. by rewrite filter_app, length_app. Qed.

Lemma reals_le l : (reals l <= length l)%nat.
Proof. apply length_filter. Qed.

Lemma reals_cons_le x l : (reals l <= reals (x :: l))%nat.
Proof. unfold reals. rewrite filter_cons. case_decide; simpl; lia. Qed.

Lemma reals_one x : real x = true -> reals [x] = 1%nat.
Proof. intros H. unfold reals. by rewrite filter_cons_True. Qed.

Lemma reals_remove l i y : l !! i = Some y -> real y = true -> reals l = S (reals (remove_at i l)).
Proof.
  intros Hy Hr. rewrite <- (take_drop_middle l i y Hy) at 1. unfold remove_at.
  change (y :: drop (S i) l) with ([y] ++ drop (S i) l). rewrite !reals_app, (reals_one y) by done. lia.
Qed.

Lemma ceiling_room : maxEnvelope * Z.of_nat pushQueueCap <= pushQueueByteCeiling.
Proof. by vm_compute. Qed.

(** A queue of at most [pushQueueCap] envelopes is under the ceiling. *)
Lemma capped_bound l : (reals l <= pushQueueCap)%nat -> Forall small l -> charges l <= pushQueueByteCeiling.
Proof.
  intros Hn Hs. etrans; [by apply charges_small|]. etrans; [|by apply ceiling_room].
  apply Z.mul_le_mono_nonneg_l; [by unfold maxEnvelope|]. unfold reals in Hn. lia.
Qed.

Lemma newQueue_ok : queue_ok newQueue.
Proof. constructor; simpl; [done| |unfold reals; simpl; lia]. by intros x ?%not_elem_of_nil. Qed.

Lemma newQueue_bounded : bounded newQueue.
Proof. by constructor. Qed.

Lemma first_delta q i :
  IndexFunc droppable (items q) = Some i -> exists y, items q !! i = Some y /\ droppable y = true.
Proof. intros [(y & Hy & Hd) _]%IndexFunc_Some. by exists y. Qed.

Lemma evict_ok q i y :
  items q !! i = Some y -> queue_ok q ->
  evict i q = MkQueue (remove_at i (items q)) (dropped q) (bytes q - charge y) (overflowed q) (producerGap q) /\
  queue_ok (evict i q).
Proof.
  intros Hy [Hb Hm Hd]. unfold evict. rewrite Hy. split; [done|]. constructor; cbn [items bytes].
  - by rewrite Hb, (charges_remove_at _ _ _ Hy).
  - intros z Hz. apply Hm. by eapply elem_of_remove_at.
  - intros (z & Hz & Hdz). transitivity (reals (items q)).
    + unfold reals. unfold remove_at. rewrite <- (take_drop_middle (items q) i y Hy) at 3.
      rewrite !filter_app, !length_app, filter_cons. case_decide; simpl; lia.
    + apply Hd. exists z. split; [by eapply elem_of_remove_at|done].
Qed.

(** An appended event is there, and so is all that was. *)
Lemma append_ok x q :
  queue_ok q -> real x = true ->
  (droppable x = true \/ (exists y, y ∈ items q /\ droppable y = true) -> (S (reals (items q)) <= pushQueueCap)%nat) ->
  queue_ok (append_item x q).
Proof.
  intros [Hb Hm Hd] Hx Hcap. constructor; cbn [append_item items bytes].
  - rewrite Hb, charges_app. simpl. lia.
  - intros y [Hy|Hy]%elem_of_app Hdy; [by apply Hm|]. by apply list_elem_of_singleton in Hy as ->.
  - intros (y & Hy & Hdy). rewrite reals_app, (reals_one x) by done. rewrite Nat.add_1_r. apply Hcap.
    apply elem_of_app in Hy as [Hy|Hy]; [right; eauto|left]. by apply list_elem_of_singleton in Hy as ->.
Qed.

Lemma append_bounded x q :
  queue_ok q -> bounded q -> small x -> real x = true ->
  (S (reals (items q)) <= pushQueueCap)%nat \/ bytes q + charge x <= pushQueueByteCeiling -> bounded (append_item x q).
Proof.
  intros Hq [Hs Hb] Hx Hr H. assert (Forall small (items q ++ [x])) as Hall by (apply Forall_app; by rewrite Forall_singleton).
  constructor; cbn [append_item items bytes]; [done|]. destruct H as [H|H]; [|done].
  rewrite (qo_bytes _ Hq). transitivity (charges (items q ++ [x])); [rewrite charges_app; simpl; lia|].
  apply capped_bound; [|done]. rewrite reals_app, (reals_one x) by done. lia.
Qed.

Lemma count_drop_ok q : queue_ok q -> queue_ok (count_drop q).
Proof. intros [? ? ?]. by constructor. Qed.

Lemma count_drop_bounded q : bounded q -> bounded (count_drop q).
Proof. intros [? ?]. by constructor. Qed.

(** [enqueueSource]'s four cases. *)
Lemma enqueueSource_cases e l r p q (Q : pushQueue -> Prop) :
  (overflowed q = true -> Q q) ->
  (overflowed q = false -> (length (items q) < pushQueueCap)%nat -> Q (append_item (queued e l r p) q)) ->
  (forall i y, overflowed q = false -> (pushQueueCap <= length (items q))%nat -> items q !! i = Some y -> droppable y = true ->
     Q (count_drop (append_item (queued e l r p) (evict i q)))) ->
  (overflowed q = false -> (pushQueueCap <= length (items q))%nat -> (forall x, x ∈ items q -> droppable x = false) ->
     if droppable (queued e l r p) then Q (count_drop q)
     else if pushQueueByteCeiling <? bytes q + charge (queued e l r p)
     then Q (MkQueue (items q) (dropped q) (bytes q) true (producerGap q))
     else Q (append_item (queued e l r p) q)) ->
  Q (fst (enqueueSource e l r p q)).
Proof.
  intros H1 H2 H3 H4. unfold enqueueSource. destruct (overflowed q) eqn:Ho; [by apply H1|].
  destruct (Nat.ltb_spec (length (items q)) pushQueueCap) as [Hl|Hl]; [by apply H2|].
  destruct (IndexFunc droppable (items q)) as [i|] eqn:Ei.
  - destruct (first_delta _ _ Ei) as (y & Hy & Hd). by eapply H3.
  - specialize (H4 eq_refl Hl (proj1 (IndexFunc_None _ _) Ei)). by repeat case_goal.
Qed.

Lemma enqueueSource_ok e l r p q : queue_ok q -> queue_ok (fst (enqueueSource e l r p q)).
Proof.
  intros Hq. apply enqueueSource_cases.
  - done.
  - intros _ Hl. pose proof (reals_le (items q)). apply append_ok; [done|done|lia].
  - intros i y _ _ Hy Hd. destruct (evict_ok _ _ _ Hy Hq) as [He Hq']. apply count_drop_ok, append_ok; [done|done|].
    rewrite He. cbn [items]. intros _. rewrite <- (reals_remove (items q) i y Hy).
    + apply (qo_deltas _ Hq). exists y. split; [by eapply list_elem_of_lookup_2|done].
    + apply (qo_marks _ Hq); [by eapply list_elem_of_lookup_2|done].
  - intros _ _ Hnone. destruct (droppable (queued e l r p)) eqn:Hd; [by apply count_drop_ok|].
    case_goal; [destruct Hq; by constructor|]. apply append_ok; [done|done|].
    intros [?|(y & Hy & Hdy)]; [congruence|]. by rewrite (Hnone _ Hy) in Hdy.
Qed.

Lemma enqueueSource_bounded e l r p q :
  queue_ok q -> bounded q -> small (queued e l r p) -> bounded (fst (enqueueSource e l r p q)).
Proof.
  intros Hq Hb Hx. apply enqueueSource_cases.
  - done.
  - intros _ Hl. pose proof (reals_le (items q)). apply append_bounded; [done..|left; lia].
  - intros i y _ _ Hy Hd. destruct (evict_ok _ _ _ Hy Hq) as [He Hq'].
    assert (real y = true) as Hr by (apply (qo_marks _ Hq); [by eapply list_elem_of_lookup_2|done]).
    apply count_drop_bounded, append_bounded; [done| |done|done|].
    + rewrite He. destruct Hb as [Hs Hb]. constructor; cbn [items bytes].
      * unfold remove_at. apply Forall_app. split; [by apply Forall_take|by apply Forall_drop].
      * pose proof (charge_nonneg y). lia.
    + left. rewrite He. cbn [items]. rewrite <- (reals_remove (items q) i y Hy Hr).
      apply (qo_deltas _ Hq). exists y. split; [by eapply list_elem_of_lookup_2|done].
  - intros _ _ _. case_goal; [by apply count_drop_bounded|]. case_goal; [destruct Hb; by constructor|].
    apply append_bounded; [done..|right]. by apply Z.ltb_ge.
Qed.

Lemma popHead_ok q x q' : queue_ok q -> popHead q = Some (x, q') -> queue_ok q' /\ (bounded q -> bounded q').
Proof.
  unfold popHead. destruct (items q) as [|y l] eqn:E; intros [Hb Hm Hd]; [done|]. intros [= <- <-]. rewrite E in *. split.
  - constructor; cbn [items bytes].
    + rewrite Hb. simpl. lia.
    + intros z Hz. apply Hm. by right.
    + intros (z & Hz & Hdz). etrans; [apply (reals_cons_le y)|]. apply Hd. exists z. split; [by right|done].
  - intros [Hs Hbb]. rewrite E in Hs. inversion Hs. constructor; cbn [items bytes]; [done|]. pose proof (charge_nonneg y). lia.
Qed.

Lemma qstep_ok o q :
  queue_ok q -> queue_ok (fst (qstep o q)) /\ (bounded q -> Forall small (offer o) -> bounded (fst (qstep o q))).
Proof.
  intros Hq. destruct o as [e l r p|n| | |]; cbn [qstep fst offer].
  - split; [by apply enqueueSource_ok|]. intros Hb Hx. apply enqueueSource_bounded; [done|done|]. by inversion Hx.
  - destruct Hq as [Hb Hm Hd]. split.
    + constructor; cbn [flush_mark items bytes].
      * rewrite charges_app, Hb. change (charges [marker n]) with 0. lia.
      * intros x [Hx|Hx]%elem_of_app Hdx; [by apply Hm|]. by apply list_elem_of_singleton in Hx as ->.
      * intros (x & [Hx|Hx]%elem_of_app & Hdx); [|by apply list_elem_of_singleton in Hx as ->].
        rewrite reals_app. change (reals [marker n]) with 0%nat. rewrite Nat.add_0_r. apply Hd. eauto.
    + intros [Hs Hbb] Hx. constructor; cbn [flush_mark items bytes]; [|done]. by apply Forall_app.
  - destruct (overflowed q); [done|]. destruct (popHead q) as [[x q']|] eqn:E; [|done]. cbn [fst].
    destruct (popHead_ok _ _ _ Hq E). split; [done|auto].
  - unfold retire_gap. destruct (overflowed q); [done|]. cbn [fst]. split; [destruct Hq; by constructor|].
    intros [? ?] _. by constructor.
  - split; [destruct Hq; by constructor|]. intros [? ?] _. by constructor.
Qed.

(** ** What is in the queue, against what was offered *)

Definition offers (os : list qop) : list queuedEnv := concat (offer <$> os).

Lemma enqueueSource_offer e l r p q :
  overflowed q = false ->
  items (fst (enqueueSource e l r p q)) `sublist_of` items q ++ [queued e l r p] /\
  (overflowed (fst (enqueueSource e l r p q)) = false ->
   filter (fun x => is_event x = true) (items (fst (enqueueSource e l r p q))) =
   filter (fun x => is_event x = true) (items q ++ [queued e l r p])) /\
  (overflowed (fst (enqueueSource e l r p q)) = true ->
   (pushQueueCap <= length (items q))%nat /\ (forall x, x ∈ items q -> droppable x = false) /\
   pushQueueByteCeiling < bytes q + charge (queued e l r p)).
Proof.
  intros Ho. apply enqueueSource_cases.
  - congruence.
  - intros _ _. cbn [append_item items overflowed]. split_and!; [done..|congruence].
  - intros i y _ _ Hy Hd. unfold evict. rewrite Hy. cbn [count_drop append_item items overflowed]. split_and!.
    + apply sublist_app; [apply sublist_remove_at|done].
    + intros _. unfold remove_at. rewrite <- (take_drop_middle (items q) i y Hy) at 3.
      rewrite !filter_app, (filter_cons_False _ y); [done|]. unfold is_event. by rewrite Hd.
    + congruence.
  - intros _ Hl Hnone. case_goal; [|case_goal]; cbn [count_drop items overflowed append_item].
    + split_and!; [by apply sublist_inserts_r| |congruence]. intros _.
      rewrite filter_app, filter_cons_False, app_nil_r; [done|]. unfold is_event. by rewrite Heqb.
    + split_and!; [by apply sublist_inserts_r|done|]. intros _. split_and!; [done..|by apply Z.ltb_lt].
    + split_and!; [done..|congruence].
Qed.

Lemma qstep_offer o q :
  let q' := fst (qstep o q) in let out := snd (qstep o q) in
  (out ++ items q') `sublist_of` (items q ++ offer o) /\
  (overflowed q' = false ->
   overflowed q = false /\
   filter (fun x => is_event x = true) (out ++ items q') = filter (fun x => is_event x = true) (items q ++ offer o)).
Proof.
  destruct o as [e l r p|n| | |]; cbn [qstep fst snd offer].
  - destruct (overflowed q) eqn:Ho.
    + unfold enqueueSource. rewrite Ho. cbn [fst snd app]. split; [by apply sublist_inserts_r|]. by rewrite Ho.
    + destruct (enqueueSource_offer e l r p q Ho) as (H1 & H2 & _). auto.
  - done.
  - rewrite app_nil_r. destruct (overflowed q) eqn:Ho; [cbn [fst snd app]; rewrite Ho; done|].
    destruct (popHead q) as [[x q']|] eqn:E; [|done]. unfold popHead in E. destruct (items q) as [|y l]; [done|].
    injection E as <- <-. done.
  - rewrite app_nil_r. unfold retire_gap. destruct (overflowed q) eqn:Ho; cbn [fst snd app items overflowed]; rewrite ?Ho; done.
  - by rewrite app_nil_r.
Qed.

Lemma qrun_snoc os o q :
  qrun (os ++ [o]) q =
    (fst (qstep o (fst (qrun os q))), snd (qrun os q) ++ snd (qstep o (fst (qrun os q)))).
Proof.
  revert q. induction os as [|o' os IH]; intros q; cbn [app qrun fst snd].
  - destruct (qstep o q) as [q' out]. cbn [fst snd]. f_equal. apply app_nil_r.
  - destruct (qstep o' q) as [q' out]. rewrite IH. destruct (qrun os q') as [q'' out']. cbn [fst snd]. f_equal. apply app_assoc.
Qed.

Lemma offers_snoc os o : offers (os ++ [o]) = offers os ++ offer o.
Proof. unfold offers. rewrite fmap_app, concat_app. cbn. by rewrite app_nil_r. Qed.

Lemma qrun_ok os : queue_ok (fst (qrun os newQueue)) /\ (Forall small (offers os) -> bounded (fst (qrun os newQueue))).
Proof.
  induction os as [|o os [IH IHb]] using rev_ind; [split; [apply newQueue_ok|intros _; apply newQueue_bounded]|].
  rewrite qrun_snoc, offers_snoc. cbn [fst]. destruct (qstep_ok o _ IH) as [H1 H2]. split; [done|].
  intros [Hs1 Hs2]%Forall_app. auto.
Qed.

Lemma qrun_offers os :
  let '(q, out) := qrun os newQueue in
  (out ++ items q) `sublist_of` offers os /\
  (overflowed q = false ->
   filter (fun x => is_event x = true) (out ++ items q) = filter (fun x => is_event x = true) (offers os)).
Proof.
  induction os as [|o os IH] using rev_ind; [done|]. rewrite qrun_snoc, offers_snoc.
  destruct (qrun os newQueue) as [q out]. cbn [fst snd]. destruct IH as [IH1 IH2].
  destruct (qstep_offer o q) as [H1 H2]. split.
  - rewrite <- app_assoc. etrans; [apply sublist_app; [reflexivity|exact H1]|]. rewrite app_assoc. by apply sublist_app.
  - intros Ho. destruct (H2 Ho) as [Hq He]. rewrite <- app_assoc, filter_app, He, <- filter_app, app_assoc, filter_app, (IH2 Hq).
    by rewrite <- filter_app.
Qed.

(** What latches a queue that has not overflowed, [gap] being the mark it
    leaves: a push that finds the capacity filled with items none of which may
    go and no room under the ceiling, a retirement, or an overflow of the
    hosted-changes lane. *)
Definition latched_by (o : qop) (q : pushQueue) (gap : bool) : Prop :=
  match o with
  | QPush e l r p =>
      gap = false /\ (pushQueueCap <= length (items q))%nat /\ (forall x, x ∈ items q -> droppable x = false) /\
      pushQueueByteCeiling < bytes q + charge (queued e l r p)
  | QRetire => gap = true
  | QLatch => gap = false
  | QMark _ | QPop => False
  end.

Lemma qstep_overflowed o q :
  overflowed q = true -> overflowed (fst (qstep o q)) = true /\ producerGap (fst (qstep o q)) = producerGap q.
Proof.
  intros H. destruct o as [e l r p|n| | |]; cbn [qstep fst]; [|done| | |done].
  - unfold enqueueSource. by rewrite H.
  - by rewrite H.
  - unfold retire_gap. by rewrite H.
Qed.

Lemma enqueueSource_gap e l r p q : producerGap (fst (enqueueSource e l r p q)) = producerGap q.
Proof. apply enqueueSource_cases; try done; [|by intros; repeat case_goal]. intros i y _ _ Hy _. unfold evict. by rewrite Hy. Qed.

Lemma qstep_latches o q :
  overflowed q = false -> producerGap q = false ->
  if overflowed (fst (qstep o q)) then latched_by o q (producerGap (fst (qstep o q)))
  else producerGap (fst (qstep o q)) = false.
Proof.
  intros Hq Hg. destruct o as [e l r p|n| | |]; cbn [qstep fst latched_by].
  - rewrite enqueueSource_gap. destruct (enqueueSource_offer e l r p q Hq) as (_ & _ & H). case_goal; [by split; [|apply H]|done].
  - cbn. by rewrite Hq.
  - rewrite Hq. unfold popHead. destruct (items q); cbn; by rewrite Hq.
  - unfold retire_gap. by rewrite Hq.
  - done.
Qed.

(** How a queue becomes overflowed, and that only a retirement leaves its mark. *)
Lemma qrun_overflow os :
  let q := fst (qrun os newQueue) in
  (overflowed q = false -> producerGap q = false) /\
  (overflowed q = true -> exists os1 o os2, os = os1 ++ o :: os2 /\
     overflowed (fst (qrun os1 newQueue)) = false /\ latched_by o (fst (qrun os1 newQueue)) (producerGap q)).
Proof.
  induction os as [|o os [IH1 IH2]] using rev_ind; [done|]. rewrite qrun_snoc. cbn [fst].
  set (q := fst (qrun os newQueue)) in *. destruct (overflowed q) eqn:Hq.
  - destruct (qstep_overflowed o q Hq) as [Ho ->]. split; [congruence|]. intros _.
    destruct (IH2 eq_refl) as (os1 & o1 & os2 & -> & H). exists os1, o1, (os2 ++ [o]). split; [by rewrite <- app_assoc|done].
  - pose proof (qstep_latches o q Hq (IH1 eq_refl)) as H. destruct (overflowed (fst (qstep o q))); [|done].
    split; [done|]. intros _. by exists os, o, [].
Qed.

(** C26. Over any pushes, markers, pops, retirements and hosted-changes
    overflows: what has been popped and what is queued are, in order and
    without repetition, among what was offered; as long as the queue has not
    overflowed, every event that is not streamed text is among them, so only
    streamed text is ever given up, and the session never sees events out of
    order; a full queue keeps streamed text only within its nominal capacity;
    the bytes counted are those held, and at most the ceiling where no envelope
    is over the protocol's cap; and a queue that has overflowed was latched by
    exactly one of: a push that found 256 or more items, none of them streamed
    text, and no room under the ceiling for its own; a retirement, which alone
    leaves the producer's mark; or an overflow of the hosted-changes lane. *)
Theorem events_kept_in_order os q out :
  qrun os newQueue = (q, out) ->
  (out ++ items q) `sublist_of` offers os /\
  (overflowed q = false ->
   filter (fun x => is_event x = true) (out ++ items q) = filter (fun x => is_event x = true) (offers os)) /\
  ((exists x, x ∈ items q /\ droppable x = true) -> (reals (items q) <= pushQueueCap)%nat) /\
  bytes q = charges (items q) /\ (Forall small (offers os) -> bytes q <= pushQueueByteCeiling) /\
  (overflowed q = true -> exists os1 o os2, os = os1 ++ o :: os2 /\
     let q1 := fst (qrun os1 newQueue) in overflowed q1 = false /\ latched_by o q1 (producerGap q)).
Proof.
  intros E. pose proof (qrun_offers os) as H. pose proof (qrun_ok os) as [[H1 _ H2] H3].
  pose proof (proj2 (qrun_overflow os)) as H4.
  rewrite E in *. cbn [fst] in *. destruct H as [Ha Hb]. split_and!; [done..| |done]. intros Hs. by apply H3.
Qed.

Definition demo_env (typ payload : string) : Envelope := plain_env 0 typ 0 payload None.
Definition demo_ops : list qop :=
  [QPush (demo_env "assistant_delta" "he") None true false; QPush (demo_env "turn_end" "{}") None true false; QMark 7; QPop].

Lemma events_kept_in_order_witness :
  exists q out, qrun demo_ops newQueue = (q, out) /\
    filter (fun x => is_event x = true) (out ++ items q) = [queued (demo_env "turn_end" "{}") None true false; marker 7].
Proof.
  destruct (qrun demo_ops newQueue) as [q out] eqn:E. exists q, out. split; [done|].
  destruct (events_kept_in_order demo_ops q out E) as (_ & H & _). rewrite H; [by vm_compute|].
  pose proof (f_equal (fun x => overflowed (fst x)) E) as Ho. cbn [fst] in Ho. rewrite <- Ho. by vm_compute.
Defined.

End RelayQueueProps.
