(* ===== verification/RelayHello.v ===== *)
(** * A phone's hello ([internal/relay/v2session_handshake.go], [internal/protocol/client_version.go])

    What the daemon decides of a phone's first message: its version, the
    capabilities granted, whether its token is admitted for its key, and what
    it is told. *)
From Stdlib Require Import Ascii String.
From stdpp Require Import prelude gmap strings list.
From S2P Require Import Prelude Utf8 Strconv Devices DevicesProps.

Module RelayHello.

Import Utf8 Strconv Devices.

Local Open Scope Z_scope.

(** ** Versions *)

Definition AppMobile : string := "pyrycode-mobile".
Definition AppDesktop : string := "pyrycode-desktop".
Definition maxClientVersionBytes : nat := 32.

Record Version := MkVersion { Major : Z; Minor : Z; Patch : Z }.

#[export] Instance Version_eq_dec : EqDecision Version.
Proof. solve_decision. Defined.

(** [Compare]: the loop over the three pairs. *)
Fixpoint compare_parts (l : list (Z * Z)) : Z :=
  match l with
  | [] => 0
  | (p, q) :: l => if p <? q then -1 else if q <? p then 1 else compare_parts l
  end.
Definition Compare (v o : Version) : Z :=
  compare_parts [(Major v, Major o); (Minor v, Minor o); (Patch v, Patch o)].

Definition dot : ascii := ".".
Definition slash : ascii := "/".

Definition String_ (v : Version) : bytes :=
  format (Major v) ++ dot :: format (Minor v) ++ dot :: format (Patch v).

(** [parseComponent]: the loop over the digits, which stops before [n*10+d]
    would leave a [uint64]. *)
Fixpoint component_loop (n : Z) (l : bytes) : option Z :=
  match l with
  | [] => Some n
  | d :: l =>
      if negb (is_digit d) then None
      else if (2 ^ 64 - 1 - digit_val d) / 10 <? n then None
      else component_loop (n * 10 + digit_val d) l
  end.
Definition parseComponent (l : bytes) : option Z :=
  match l with
  | [] => None
  | [c] => component_loop 0 [c]
  | c :: _ :: _ => if bool_decide (c = "0"%char) then None else component_loop 0 l
  end.

(** [ParseVersion]'s loop: [cur] is the run since the last dot, in reverse. *)
Fixpoint version_loop (l cur : bytes) (parts : list Z) : option (list Z) :=
  match l with
  | [] => if (length parts =? 3)%nat then None else n ← parseComponent (rev cur); Some (parts ++ [n])
  | c :: l =>
      if bool_decide (c = dot)
      then if (length parts =? 3)%nat then None else n ← parseComponent (rev cur); version_loop l [] (parts ++ [n])
      else version_loop l (c :: cur) parts
  end.
Definition ParseVersion (l : bytes) : option Version :=
  if (maxClientVersionBytes <? length l)%nat then None
  else match version_loop l [] [] with
       | Some [a; b; c] => Some (MkVersion a b c)
       | _ => None
       end.

Definition app_byte (c : ascii) : bool :=
  in_range 97 122 (byte c) || in_range 48 57 (byte c) || (byte c =? 45).
Definition validAppName (l : bytes) : bool :=
  match l with
  | [] => false
  | c :: l => in_range 97 122 (byte c) && forallb app_byte l
  end.

(** The loop that finds the only slash: what is before and after it. *)
Fixpoint slash_loop (l : bytes) (found : option (bytes * bytes)) (cur : bytes) : option (option (bytes * bytes)) :=
  match l with
  | [] => Some found
  | c :: l =>
      if bool_decide (c = slash)
      then match found with Some _ => None | None => slash_loop l (Some (rev cur, l)) (c :: cur) end
      else slash_loop l found (c :: cur)
  end.

Definition ParseClientVersion (s : string) : option (string * Version) :=
  let l := bs s in
  if (maxClientVersionBytes <? length l)%nat then None
  else match slash_loop l None [] with
       | Some (Some (app, rest)) =>
           if validAppName app then v ← ParseVersion rest; Some (string_of_list_ascii app, v) else None
       | _ => None
       end.

(** [NewV2SessionManager]'s reading of its configured minimums; [None] its
    error. *)
Definition read_minimum (m : gmap string Version) (entry : string * string) : option (gmap string Version) :=
  let '(app, v) := entry in
  if bool_decide (v = "") then Some m
  else match ParseClientVersion (app +:+ "/" +:+ v) with
       | Some (parsedApp, parsed) => if bool_decide (parsedApp = app) then Some (<[app := parsed]> m) else None
       | None => None
       end.
Fixpoint read_minimums (m : gmap string Version) (entries : list (string * string)) : option (gmap string Version) :=
  match entries with
  | [] => Some m
  | e :: entries => m' ← read_minimum m e; read_minimums m' entries
  end.

(** [clientVersionReject]: [None] accepts. *)
Inductive clientVersionReject :=
| unparsable
| below_minimum (app : string) (min : Version).

Definition checkClientVersion (minimums : gmap string Version) (reported : string) : option clientVersionReject :=
  if decide (minimums = ∅) then None
  else match ParseClientVersion reported with
       | None => Some unparsable
       | Some (app, v) =>
           match minimums !! app with
           | None => None
           | Some min => if 0 <=? Compare v min then None else Some (below_minimum app min)
           end
       end.

(** ** Capabilities *)

Definition CapabilityInteractive : string := "interactive".
Definition CapabilityMultiAgent : string := "multi_agent".
Definition CapabilityThread : string := "thread".
Definition CapabilityThreadExpansion : string := "thread_expansion".
Definition CapabilityThreadCompact : string := "thread_compact".
Definition CapabilityHostedAppsV1 : string := "hosted_apps_v1".

Definition supportedV2Capabilities : list string :=
  [CapabilityInteractive; "question"; "model_list"; "context_usage"; CapabilityMultiAgent;
   "stop_background_task"; "claude_usage"].

Definition Contains (l : list string) (x : string) : bool := bool_decide (x ∈ l).

(** [negotiateCapabilities]; [readiness] are its variadic arguments. *)
Definition negotiateCapabilities (advertised : list string) (readiness : list bool) : list string :=
  let ready i := default false (readiness !! i) in
  filter (fun name => Contains advertised name = true) supportedV2Capabilities ++
  (if ready 0%nat && Contains advertised CapabilityThread then [CapabilityThread] else []) ++
  (if ready 1%nat && Contains advertised CapabilityHostedAppsV1 then [CapabilityHostedAppsV1] else []) ++
  (if (2 <? length readiness)%nat && ready 0%nat && ready 2%nat && Contains advertised CapabilityThreadExpansion &&
      Contains advertised CapabilityThread && Contains advertised CapabilityInteractive
   then CapabilityThreadExpansion ::
        (if ready 3%nat && Contains advertised CapabilityThreadCompact then [CapabilityThreadCompact] else [])
   else []).

(** ** The hello and its judgement *)

Record HelloClientPayload := MkHello {
  Role : string;
  DeviceName : string;
  HelloVersion : string;
  ClientFeatures : string;
  ProtocolVersions : list string;
  LastSeenTS : option instant;
  Token : string;
  Capabilities : list string;
}.

Record HelloAckPayload := MkAck {
  ack_ProtocolVersion : string;
  ack_ServerID : string;
  ack_ConnID : string;
  ack_Capabilities : list string;
  ack_WorkspaceRoot : string;
}.

Definition maxRetainedClientNameBytes : nat := 256.
Definition maxRetainedClientVersionBytes : nat := 64.
Definition maxRetainedClientFeaturesBytes : nat := 1024.
Definition retainedClientField (v : string) (maxBytes : nat) : string :=
  if (maxBytes <? String.length v)%nat then "" else v.

(** [admissibleClientField] and [AdmitClientVersion] ([sessions/systemprompt.go]). *)
Definition admissibleClientField (v : string) (maxBytes : nat) : option string :=
  if (maxBytes <? String.length v)%nat || negb (ValidString v) || bool_decide (TrimSpace v = "") then None
  else if existsb (fun p => let r := fst p in (r <? 32) || in_range 127 159 r || (r =? 34)) (runes v) then None
  else Some v.
Definition AdmitClientVersion (v : string) : string := default "" (admissibleClientField v maxClientVersionBytes).

Definition CodeAuthInvalidToken : string := "auth.invalid_token".
Definition CodeClientUpdateRequired : string := "client.update_required".
Definition CodeProtocolUnsupported : string := "protocol.unsupported".
Definition MsgInvalidToken : string := "device token not recognised; re-pair via pyry pair on the binary".
Definition MsgClientUpdateRequired : string := "this app version is no longer supported by this host; update the app".

Definition StatusUnauthorized : Z := 4401.
Definition StatusIdleTimeout : Z := 4408.
Definition StatusSessionGone : Z := 4410.
Definition StatusClientUpdateRequired : Z := 4412.
Definition StatusQueueOverflow : Z := 4413.
Definition StatusProducerGap : Z := 4414.
Definition StatusProtocolMismatch : Z := 4421.
Definition StatusHandshakeFailure : Z := 4426.

(** The error a refusal carries ([protocol.ErrorPayload]'s fields that are
    set), and the code its connection is closed with. *)
Record refusal := MkRefusal { rf_code : string; rf_message : string; rf_min : string; rf_status : Z }.

Inductive verdict :=
| VAccept (d : Device) (newlyBound : bool)
| VRefuse (r : refusal).

Section judge.
Context (HashToken : string -> string).

(** What a hello is judged by besides the registry: the minimums, whether the
    thread reads and the other features are ready, the root told to accepted
    clients. *)
Record policy := MkPolicy {
  minimums : gmap string Version;
  readiness : list bool;
  workspaceRoot : string;
}.

(** The thread requirement, of a device and version that pass. *)
Definition thread_reject (hello : HelloClientPayload) (negotiated : list string) : option refusal :=
  if negb (Contains (Capabilities hello) CapabilityThread)
  then Some (MkRefusal CodeClientUpdateRequired MsgClientUpdateRequired "" StatusClientUpdateRequired)
  else if negb (Contains negotiated CapabilityThread)
  then Some (MkRefusal CodeProtocolUnsupported "thread capability unavailable" "" StatusProtocolMismatch)
  else None.

Definition version_refusal (r : clientVersionReject) : refusal :=
  MkRefusal CodeClientUpdateRequired MsgClientUpdateRequired
    (match r with below_minimum _ min => string_of_list_ascii (String_ min) | unparsable => "" end)
    StatusClientUpdateRequired.

Definition token_refusal : refusal := MkRefusal CodeAuthInvalidToken MsgInvalidToken "" StatusUnauthorized.

(** [handleNoiseInit] from the registry's reload to the verdict. [disk] is what
    the devices file holds, [Some None] where it does not read or parse and
    [None] where the daemon has none; the registry is shared, and [other1] and
    [other2] are what others do to it before [Validate] and before the bind. *)
Definition judge (p : policy) (hello : HelloClientPayload) (peerStatic : list Z)
    (disk : option (option (list Device))) (other1 other2 : list DevicesProps.op) (now seen : instant)
    (r : Registry) : Registry * verdict :=
  let negotiated := negotiateCapabilities (Capabilities hello) (readiness p) in
  let r := match disk with Some (Some rows) => reconcileDevices r rows | _ => r end in
  let r := foldl (fun r o => DevicesProps.exec HashToken o r) r other1 in
  let '(r, device, tokenResult) := Validate HashToken (Token hello) peerStatic now seen r in
  match device, tokenResult with
  | Some d, ValidateAccepted =>
      match checkClientVersion (minimums p) (HelloVersion hello) with
      | Some rej => (r, VRefuse (version_refusal rej))
      | None =>
          match thread_reject hello negotiated with
          | Some rf => (r, VRefuse rf)
          | None =>
              let r := foldl (fun r o => DevicesProps.exec HashToken o r) r other2 in
              let '(r, binding) := BindStaticKey (TokenHash d) peerStatic r in
              match binding with
              | BindNewlyBound => (r, VAccept (set_staticKey (hex peerStatic) d) true)
              | BindMatched => (r, VAccept (set_staticKey (hex peerStatic) d) false)
              | BindKeyMismatch | BindUnknownDevice => (r, VRefuse token_refusal)
              end
          end
      end
  | _, _ => (r, VRefuse token_refusal)
  end.

(** The acknowledgement built for a verdict. *)
Definition ack_of (p : policy) (serverID connID : string) (hello : HelloClientPayload) (v : verdict) : HelloAckPayload :=
  MkAck "v2" serverID connID (negotiateCapabilities (Capabilities hello) (readiness p))
    (match v with VAccept _ _ => workspaceRoot p | VRefuse _ => "" end).
End judge.

End RelayHello.
