(* ===== verification/RelayVersions.v ===== *)
(** * Client versions ([internal/protocol/client_version.go])

    A version is read exactly where it is written the one way, and versions are
    ordered by their parts. *)
From Stdlib Require Import Ascii String.
From stdpp Require Import prelude gmap strings list.
From S2P Require Import Prelude Utf8 Strconv RelayHello.

Module RelayVersions.

Import Utf8 Strconv RelayHello.

Local Open Scope Z_scope.

(** ** The one way to write a number *)

Lemma ndigits_from_least fuel w n :
  (w < ndigits_from fuel w n)%nat -> 10 ^ Z.of_nat (pred (ndigits_from fuel w n)) <= n.
Proof.
  revert w. induction fuel as [|fuel IH]; intros w; simpl; [lia|].
  destruct (_ <? _) eqn:E; reflect_bools; intros H; [lia|].
  destruct (decide (S w < ndigits_from fuel (S w) n)%nat) as [Hlt|]; [by apply IH|].
  by replace (pred (ndigits_from fuel (S w) n)) with w by lia.
Qed.

Lemma ndigits_unique n w :
  0 <= n < 2 ^ 64 -> (1 <= w)%nat -> n < 10 ^ Z.of_nat w -> (w = 1%nat \/ 10 ^ Z.of_nat (pred w) <= n) -> ndigits n = w.
Proof.
  intros Hn Hw Hlt Hmin. destruct (ndigits_spec n Hn) as [Hd Hnd].
  pose proof (ndigits_from_least 19 1 n) as Hleast. fold (ndigits n) in Hleast.
  destruct (lt_eq_lt_dec (ndigits n) w) as [[H|H]|H]; [|done|]; exfalso.
  - destruct Hmin as [->|Hmin]; [lia|]. apply (Z.lt_irrefl n). eapply Z.lt_le_trans; [exact Hnd|].
    etrans; [|exact Hmin]. apply Z.pow_le_mono_r; lia.
  - apply (Z.lt_irrefl n). eapply Z.lt_le_trans; [exact Hlt|].
    etrans; [|apply Hleast; lia]. apply Z.pow_le_mono_r; lia.
Qed.

Definition value_from (n : Z) (l : bytes) : Z := foldl (fun n c => 10 * n + digit_val c) n l.

Lemma value_from_spec n l : value_from n l = n * 10 ^ Z.of_nat (length l) + value l.
Proof.
  unfold value_from, value. induction l as [|c l IH] using rev_ind; [simpl; lia|].
  rewrite !foldl_app, length_app, Nat.add_1_r, Nat2Z.inj_succ, Z.pow_succ_r by lia. cbn [foldl]. rewrite IH. lia.
Qed.

Lemma value_from_ge n l : 0 <= n -> forallb is_digit l = true -> n <= value_from n l.
Proof.
  intros Hn Hl. rewrite value_from_spec. destruct (fixed_value l Hl) as [_ Hv].
  pose proof (Z.pow_pos_nonneg 10 (Z.of_nat (length l)) ltac:(lia) ltac:(lia)). nia.
Qed.

Lemma component_loop_Some n l m :
  0 <= n < 2 ^ 64 ->
  component_loop n l = Some m <-> forallb is_digit l = true /\ m = value_from n l /\ m < 2 ^ 64.
Proof.
  revert n. induction l as [|d l IH]; intros n Hn; cbn [component_loop forallb].
  { unfold value_from. simpl. naive_solver lia. }
  destruct (is_digit d) eqn:Hd; cbn [negb andb]; [|naive_solver].
  destruct (digit_digit_val d Hd) as [_ Hv]. unfold value_from. cbn [foldl]. fold (value_from (10 * n + digit_val d) l).
  rewrite (Z.mul_comm 10).
  destruct (Z.ltb_spec ((2 ^ 64 - 1 - digit_val d) / 10) n) as [Hlt|Hge].
  - split; [done|]. intros (Hl & -> & Hm). exfalso. pose proof (value_from_ge (n * 10 + digit_val d) l ltac:(lia) Hl).
    enough (2 ^ 64 <= n * 10 + digit_val d) by lia.
    pose proof (Z.mul_succ_div_gt (2 ^ 64 - 1 - digit_val d) 10 ltac:(lia)). lia.
  - apply IH. pose proof (Z.mul_div_le (2 ^ 64 - 1 - digit_val d) 10 ltac:(lia)). lia.
Qed.

Lemma value_cons c l : value (c :: l) = digit_val c * 10 ^ Z.of_nat (length l) + value l.
Proof. unfold value at 1. cbn [foldl]. change (value_from (digit_val c) l = digit_val c * 10 ^ Z.of_nat (length l) + value l). apply value_from_spec. Qed.

Lemma zero_char c : is_digit c = true -> c = "0"%char <-> digit_val c = 0.
Proof.
  intros Hc. split; [by intros ->|]. intros H. destruct (digit_digit_val c Hc) as [<- _]. by rewrite H.
Qed.

(** Digits without a leading zero are the number's own. *)
Lemma format_value c l :
  forallb is_digit (c :: l) = true -> value (c :: l) < 2 ^ 64 -> (l = [] \/ c <> "0"%char) -> format (value (c :: l)) = c :: l.
Proof.
  intros Hd Hlt Hc. destruct (fixed_value _ Hd) as [Hf Hv].
  unfold format. rewrite (ndigits_unique _ (length (c :: l))); [done|lia|simpl; lia|lia|].
  destruct Hc as [->|Hc]; [by left|right]. cbn [length pred]. rewrite value_cons.
  cbn [forallb] in Hd. rewrite andb_true_iff in Hd; destruct Hd as [Hcd Hl]. destruct (fixed_value _ Hl) as [_ Hvl].
  rewrite (zero_char c Hcd) in Hc. destruct (digit_digit_val c Hcd) as [_ Hr].
  pose proof (Z.pow_pos_nonneg 10 (Z.of_nat (length l)) ltac:(lia) ltac:(lia)). nia.
Qed.

Lemma format_digits n : forallb is_digit (format n) = true.
Proof. apply fixed_digits. Qed.

Lemma format_first n c d l : 0 <= n < 2 ^ 64 -> format n = c :: d :: l -> c <> "0"%char.
Proof.
  intros Hn Hf ->. destruct (ndigits_spec n Hn) as [Hd Hlt].
  pose proof (value_fixed (ndigits n) n ltac:(lia)) as Hv. fold (format n) in Hv. rewrite Hf, value_cons in Hv.
  pose proof (format_digits n) as Hdig. rewrite Hf in Hdig.
  change (forallb is_digit (d :: l) = true) in Hdig.
  destruct (fixed_value _ Hdig) as [_ Hb]. change (digit_val "0") with 0 in Hv.
  assert (length (format n) = ndigits n) as Hlen by apply length_fixed. rewrite Hf in Hlen.
  pose proof (ndigits_from_least 19 1 n) as Hleast. fold (ndigits n) in Hleast. rewrite <- Hlen in Hleast.
  cbn [length pred] in Hleast, Hb. specialize (Hleast ltac:(lia)). lia.
Qed.

Lemma format_value_of n : 0 <= n < 2 ^ 64 -> value (format n) = n /\ format n <> [].
Proof.
  intros Hn. destruct (ndigits_spec n Hn) as [Hd Hlt]. split; [apply value_fixed; lia|].
  intros He. apply (f_equal length) in He. unfold format in He. rewrite length_fixed in He. simpl in He. lia.
Qed.

Lemma parseComponent_Some l n : parseComponent l = Some n <-> 0 <= n < 2 ^ 64 /\ l = format n.
Proof.
  assert (parseComponent l = Some n <->
    exists c l', l = c :: l' /\ (l' = [] \/ c <> "0"%char) /\ forallb is_digit l = true /\ n = value l /\ n < 2 ^ 64) as ->.
  { destruct l as [|c [|d l]]; cbn [parseComponent].
    - naive_solver.
    - rewrite component_loop_Some by lia. naive_solver.
    - case_bool_decide as Hc; [naive_solver|]. rewrite component_loop_Some by lia. naive_solver. }
  split.
  - intros (c & l' & -> & Hc & Hd & -> & Hlt). split; [|by rewrite format_value].
    destruct (fixed_value _ Hd) as [_ Hv]. lia.
  - intros [Hn ->]. destruct (format_value_of n Hn) as [Hv Hne]. pose proof (format_digits n) as Hd.
    destruct (format n) as [|c l] eqn:E; [done|]. exists c, l. split_and!; try done; [|lia].
    destruct l as [|d l]; [by left|right]. by eapply format_first.
Qed.

(** ** The one way to write a version *)

Lemma not_in_rev x (l : bytes) : x ∉ l -> x ∉ rev l.
Proof. rewrite !list_elem_of_In. by rewrite <- in_rev. Qed.

Lemma version_loop_Some l cur parts ps :
  dot ∉ cur -> (length parts <= 3)%nat ->
  version_loop l cur parts = Some ps <->
    exists ns, mapM parseComponent (Split dot (rev cur ++ l)) = Some ns /\ ps = parts ++ ns /\ (length ps <= 3)%nat.
Proof.
  revert cur parts. induction l as [|c l IH]; intros cur parts Hcur Hlen; cbn [version_loop].
  - rewrite app_nil_r, Split_nosep by by apply not_in_rev. cbn [mapM].
    case_match eqn:H3; [apply Nat.eqb_eq in H3|apply Nat.eqb_neq in H3];
      destruct (parseComponent (rev cur)) as [n|]; cbn; split; try done; try (intros (? & ? & _); done).
    + intros (ns & [= <-] & -> & Hl). rewrite length_app in Hl. cbn in Hl. lia.
    + intros [= <-]. exists [n]. rewrite length_app. cbn. split_and!; [done..|lia].
    + by intros (ns & [= <-] & -> & Hl).
  - case_bool_decide as Hc; [subst c|].
    + rewrite Split_app by by apply not_in_rev. cbn [mapM].
      case_match eqn:H3; [apply Nat.eqb_eq in H3|apply Nat.eqb_neq in H3];
        destruct (parseComponent (rev cur)) as [n|]; cbn; try (split; [done|]; intros (? & ? & _); done).
      * split; [done|]. intros (ns & Hns & -> & Hl). rewrite length_app in Hl.
        apply bind_Some in Hns as (k & _ & [= <-]). cbn in Hl. lia.
      * rewrite IH; [|by intros ?%not_elem_of_nil|rewrite length_app; cbn; lia]. cbn [rev app]. split.
        -- intros (ns & -> & -> & Hl). exists (n :: ns). cbn. by rewrite <- app_assoc in *.
        -- intros (ns & Hns & -> & Hl). apply bind_Some in Hns as (k & Hk & [= <-]). exists k. by rewrite <- app_assoc.
    + rewrite IH; [|by rewrite not_elem_of_cons|done]. cbn [rev]. by rewrite <- app_assoc.
Qed.

(** A version in the range its machine integers have. *)
Definition in64 (v : Version) : Prop := 0 <= Major v < 2 ^ 64 /\ 0 <= Minor v < 2 ^ 64 /\ 0 <= Patch v < 2 ^ 64.

Lemma dot_format n : dot ∉ format n.
Proof. apply nodigit_notin; [done|apply format_digits]. Qed.

Lemma Split_String v : Split dot (String_ v) = [format (Major v); format (Minor v); format (Patch v)].
Proof. unfold String_. rewrite !Split_app, Split_nosep by apply dot_format. done. Qed.

Lemma ParseVersion_Some l v :
  ParseVersion l = Some v <-> (length l <= maxClientVersionBytes)%nat /\ in64 v /\ l = String_ v.
Proof.
  assert (forall ns, version_loop l [] [] = Some ns <-> mapM parseComponent (Split dot l) = Some ns /\ (length ns <= 3)%nat) as Hloop.
  { intros ns. rewrite version_loop_Some; [|by intros ?%not_elem_of_nil|cbn; lia]. cbn [rev app]. naive_solver. }
  assert (mapM parseComponent (Split dot l) = Some [Major v; Minor v; Patch v] <-> in64 v /\ l = String_ v) as Hm.
  { rewrite mapM_Some. split.
    - intros H. destruct (Split_pieces dot l) as (f & fs & Hs & Hl & _). rewrite Hs in H.
      destruct fs as [|g [|h [|]]]; repeat (apply Forall2_cons in H as [?%parseComponent_Some H] || apply Forall2_nil_cons_inv in H as [] || apply Forall2_cons_nil_inv in H as []).
      destruct_and!. subst. split; [done|]. cbn. by rewrite app_nil_r.
    - intros [(Ha & Hb & Hc) ->]. rewrite Split_String. repeat constructor; by apply parseComponent_Some. }
  unfold ParseVersion. destruct (Nat.ltb_spec maxClientVersionBytes (length l)) as [|Hlen]; [split; [done|]; lia|].
  rewrite <- Hm. split.
  - intros H. split; [done|]. apply Hloop.
    destruct (version_loop l [] []) as [[|a [|b [|c [|]]]]|]; try done. by injection H as <-.
  - intros [_ H]. rewrite (proj2 (Hloop _)) by (split; [exact H|cbn; lia]). by destruct v.
Qed.

(** [Compare] orders versions by their first part that differs. *)
Lemma Compare_spec v o :
  (Compare v o = -1 <-> Major v < Major o \/ Major v = Major o /\ (Minor v < Minor o \/ Minor v = Minor o /\ Patch v < Patch o)) /\
  (Compare v o = 0 <-> v = o) /\ Compare o v = - Compare v o.
Proof.
  destruct v as [a b c], o as [x y z]. unfold Compare. cbn [compare_parts Major Minor Patch].
  assert (MkVersion a b c = MkVersion x y z <-> a = x /\ b = y /\ c = z) as -> by naive_solver.
  repeat (case_match; reflect_bools); lia.
Qed.

(** ** The one way to write a client's version *)

Lemma slash_loop_found l f cur : slash_loop l (Some f) cur = if decide (slash ∈ l) then None else Some (Some f).
Proof.
  revert cur. induction l as [|c l IH]; intros cur; cbn [slash_loop].
  - case_decide as H; [by apply not_elem_of_nil in H|done].
  - case_bool_decide as Hc; [subst c; by rewrite decide_True by left|]. rewrite IH.
    repeat case_decide; rewrite ?elem_of_cons in *; naive_solver.
Qed.

Lemma slash_loop_Some l cur app r :
  slash_loop l None cur = Some (Some (app, r)) <->
    exists p, l = p ++ slash :: r /\ slash ∉ p /\ slash ∉ r /\ app = rev cur ++ p.
Proof.
  revert cur. induction l as [|c l IH]; intros cur; cbn [slash_loop].
  - split; [done|]. intros (p & Hp & _). by destruct p.
  - case_bool_decide as Hc.
    + subst c. rewrite slash_loop_found. case_decide as Hin.
      * split; [done|]. intros (p & Hl & Hp & Hr & _). destruct p as [|x p]; injection Hl; [by intros ->|]. intros -> <-. rewrite not_elem_of_cons in Hp. naive_solver.
      * split.
        -- intros [= <- <-]. exists []. rewrite app_nil_r. split_and!; [done| |done..]. by intros ?%not_elem_of_nil.
        -- intros (p & Hl & Hp & Hr & ->). destruct p as [|x p]; injection Hl; [intros ->; by rewrite app_nil_r|]. intros -> <-. rewrite not_elem_of_cons in Hp. naive_solver.
    + rewrite IH. cbn [rev]. split.
      * intros (p & -> & Hp & Hr & ->). exists (c :: p). rewrite <- app_assoc, not_elem_of_cons. naive_solver.
      * intros (p & Hl & Hp & Hr & ->). destruct p as [|x p]; injection Hl; [congruence|]. intros -> ->. exists p. rewrite not_elem_of_cons in Hp.
        rewrite <- app_assoc. naive_solver.
Qed.

Lemma validAppName_noslash l : validAppName l = true -> slash ∉ l.
Proof.
  destruct l as [|c l]; [done|]. cbn [validAppName]. rewrite andb_true_iff, forallb_forall. intros [Hc Hl].
  rewrite not_elem_of_cons. split; [by intros <-|]. rewrite list_elem_of_In. intros Hin. by specialize (Hl _ Hin).
Qed.

Lemma String_noslash v : slash ∉ String_ v.
Proof.
  assert (forall n, slash ∉ format n) as Hf by (intros n; apply nodigit_notin; [done|apply format_digits]).
  unfold String_. rewrite !not_elem_of_app, !not_elem_of_cons, !not_elem_of_app, !not_elem_of_cons. by split_and!.
Qed.

Lemma length_chars s : length (bs s) = String.length s.
Proof. induction s; simpl; congruence. Qed.

Lemma ParseClientVersion_Some s app v :
  ParseClientVersion s = Some (app, v) <->
    validAppName (bs app) = true /\ in64 v /\ (String.length s <= maxClientVersionBytes)%nat /\
    bs s = bs app ++ slash :: String_ v.
Proof.
  unfold ParseClientVersion.
  rewrite length_chars.
  destruct (Nat.ltb_spec maxClientVersionBytes (String.length s)) as [|Hlen]; [split; [done|]; lia|]. split.
  - destruct (slash_loop (bs s) None []) as [[[a r]|]|] eqn:E; try done. destruct (validAppName a) eqn:Ha; [|done].
    intros (v' & [_ [Hv ->]]%ParseVersion_Some & [= <- <-])%bind_Some.
    apply slash_loop_Some in E as (p & Hs & _ & _ & ->). cbn [rev List.app] in *.
    by rewrite list_ascii_of_string_of_list_ascii.
  - intros (Ha & Hv & _ & Hs).
    assert (slash_loop (bs s) None [] = Some (Some (bs app, String_ v))) as ->.
    { apply slash_loop_Some. exists (bs app). split_and!; [done|by apply validAppName_noslash|apply String_noslash|done]. }
    rewrite Ha, (proj2 (ParseVersion_Some _ v)); [cbn; by rewrite string_of_list_ascii_of_string|].
    split; [|done]. apply (f_equal length) in Hs. rewrite length_app, length_chars in Hs. cbn [length] in Hs. lia.
Qed.

(** ** What the system prompt admits *)

Definition plain (c : ascii) : bool := in_range 33 126 (byte c) && negb (byte c =? 34).

Lemma plain_range c : plain c = true -> 33 <= byte c <= 126 /\ byte c <> 34.
Proof. unfold plain. rewrite andb_true_iff, in_range_spec, negb_true_iff, Z.eqb_neq. done. Qed.

Lemma DecodeRune_ascii c s : byte c < 128 -> DecodeRune (String c s) = (byte c, 1%nat).
Proof.
  intros H. unfold DecodeRune. change (byte_at (String c s) 0) with (byte c). by rewrite (proj2 (Z.ltb_lt _ _) H).
Qed.

Lemma plain_runes s : forallb plain (bs s) = true -> runes s = (fun c => (byte c, 1%nat)) <$> bs s.
Proof.
  induction s as [|c s IH]; [done|]. cbn [list_ascii_of_string forallb]. rewrite andb_true_iff. intros [Hc Hs].
  apply plain_range in Hc. rewrite runes_cons, DecodeRune_ascii by (done || lia).
  cbn [snd sdrop fmap list_fmap]. f_equal. by apply IH.
Qed.

Lemma get_sdrop s i : (i < String.length s)%nat ->
  exists c t, sdrop i s = String c t /\ String.get i s = Some c /\ c ∈ bs s.
Proof.
  revert i. induction s as [|c s IH]; intros i; cbn [String.length]; [lia|]. destruct i as [|i].
  - intros _. exists c, s. split_and!; [done..|by left].
  - intros H. destruct (IH i ltac:(lia)) as (d & t & ? & ? & ?). exists d, t. split_and!; [done..|by right].
Qed.

Lemma plain_TrimSpace s : forallb plain (bs s) = true -> TrimSpace s = s.
Proof.
  intros Hs. assert (forall c, c ∈ bs s -> 33 <= byte c <= 126 /\ byte c <> 34) as Hp.
  { intros c Hc. apply plain_range. rewrite forallb_forall in Hs. apply Hs. by apply list_elem_of_In. }
  assert (forall b, 33 <= b <= 126 -> IsSpace b = false) as Hsp.
  { intros b Hb. unfold IsSpace, in_range. repeat (rewrite ?orb_false_iff, ?andb_false_iff, ?Z.eqb_neq, ?Z.leb_gt). lia. }
  destruct s as [|c s]; [done|]. destruct (Hp c ltac:(by left)).
  assert (trim_left (String.length (String c s)) (String c s) = String c s) as Hleft.
  { cbn [String.length trim_left]. by rewrite DecodeRune_ascii, Hsp by lia. }
  unfold TrimSpace. rewrite Hleft. remember (String c s) as t eqn:Ht.
  assert (String.length t = S (String.length s)) as Hlen by by rewrite Ht.
  destruct (get_sdrop t (String.length t - 1) ltac:(lia)) as (d & u & Hd & Hg & Hin). destruct (Hp d Hin) as [Hr _].
  assert (DecodeLastRune t = 1%nat) as Hl.
  { unfold DecodeLastRune, slen. rewrite (proj2 (Z.eqb_neq (Z.of_nat (String.length t)) 0)) by lia.
    replace (Z.to_nat (Z.of_nat (String.length t) - 1)) with (String.length t - 1)%nat by lia.
    unfold byte_at at 1. rewrite Hg. destruct (Z.ltb_spec (byte d) 128); [done|lia]. }
  rewrite Hlen at 1. rewrite Ht at 1. cbn [trim_right]. rewrite <- Ht, Hl, Hd, DecodeRune_ascii by lia. cbn [fst]. by rewrite Hsp by lia.
Qed.

Lemma plain_admitted s :
  forallb plain (bs s) = true -> s <> "" -> (String.length s <= maxClientVersionBytes)%nat -> AdmitClientVersion s = s.
Proof.
  intros Hs Hne Hlen. unfold AdmitClientVersion, admissibleClientField.
  rewrite (proj2 (Nat.ltb_ge _ _) Hlen), (plain_TrimSpace s Hs), bool_decide_eq_false_2, orb_false_r by done. cbn [orb].
  assert (forall c, c ∈ bs s -> 33 <= byte c <= 126 /\ byte c <> 34) as Hp.
  { intros c Hc. apply plain_range. rewrite forallb_forall in Hs. apply Hs. by apply list_elem_of_In. }
  assert (ValidString s = true) as ->.
  { unfold ValidString. rewrite plain_runes by done. apply forallb_forall. intros [r w] Hin.
    apply list_elem_of_In, list_elem_of_fmap in Hin as (c & [= -> ->] & Hc). destruct (Hp c Hc).
    cbn [fst]. rewrite (proj2 (Z.eqb_neq _ _)); [done|]. unfold RuneError. lia. }
  cbn [negb]. rewrite plain_runes by done.
  destruct (existsb _ _) eqn:E; [exfalso|done]. apply existsb_exists in E as ([r w] & Hin & E).
  apply list_elem_of_In, list_elem_of_fmap in Hin as (c & [= -> ->] & Hc). destruct (Hp c Hc).
  cbn [fst] in E. unfold in_range in E. repeat rewrite ?orb_true_iff, ?andb_true_iff in E. reflect_bools. lia.
Qed.

Lemma version_plain app v : validAppName app = true -> forallb plain (app ++ slash :: String_ v) = true.
Proof.
  assert (forall l, forallb is_digit l = true -> forallb plain l = true) as Hdig.
  { intros l Hl. rewrite forallb_forall in *. intros c Hc. specialize (Hl c Hc). unfold is_digit in Hl.
    apply in_range_spec in Hl. unfold plain. rewrite andb_true_iff, in_range_spec, negb_true_iff, Z.eqb_neq. lia. }
  assert (forall n, forallb plain (format n) = true) as Hfmt by (intros n; apply Hdig, format_digits).
  intros Ha. unfold String_. repeat (rewrite forallb_app; cbn [forallb]). rewrite !Hfmt.
  rewrite andb_true_iff. split; [|done]. destruct app as [|c app]; [done|].
  cbn [validAppName] in Ha. rewrite andb_true_iff, forallb_forall in Ha. destruct Ha as [Hc Ha].
  assert (forall x, x ∈ c :: app -> app_byte x = true) as Hall.
  { intros x [->|Hx]%elem_of_cons; [unfold app_byte; by rewrite Hc|apply Ha; by apply list_elem_of_In]. }
  apply forallb_forall. intros x Hx%list_elem_of_In%Hall. unfold app_byte in Hx.
  rewrite !orb_true_iff, !in_range_spec, Z.eqb_eq in Hx. unfold plain. rewrite andb_true_iff, in_range_spec, negb_true_iff, Z.eqb_neq. lia.
Qed.

(** C22. A client's version is accepted exactly where it is written the one way: a
    name of lower-case letters, digits and dashes that begins with a letter, a
    slash, and three numbers below 2^64 in decimal without leading zeros, of
    at most 32 bytes together; it is read as what was written, so what is
    written of a version reads back; and [Compare] orders versions by their
    first part that differs. Every version that is accepted is also one that
    a session's system prompt repeats as it is. *)
Theorem client_version_canonical :
  (forall s app v, ParseClientVersion s = Some (app, v) <->
     validAppName (bs app) = true /\ in64 v /\ (String.length s <= maxClientVersionBytes)%nat /\
     bs s = bs app ++ slash :: String_ v) /\
  (forall s app v, ParseClientVersion s = Some (app, v) -> AdmitClientVersion s = s) /\
  (forall v o,
     (Compare v o = -1 <->
        Major v < Major o \/ Major v = Major o /\ (Minor v < Minor o \/ Minor v = Minor o /\ Patch v < Patch o)) /\
     (Compare v o = 0 <-> v = o) /\ Compare o v = - Compare v o).
Proof.
  assert (forall s app v, ParseClientVersion s = Some (app, v) <->
     validAppName (bs app) = true /\ in64 v /\ (String.length s <= maxClientVersionBytes)%nat /\
     bs s = bs app ++ slash :: String_ v) as Hparse by exact ParseClientVersion_Some.
  split; [done|]. split; [|exact Compare_spec]. intros s app v (Ha & _ & Hlen & Hs)%Hparse.
  apply plain_admitted; [rewrite Hs; by apply version_plain| |done]. intros ->. by destruct (bs app).
Qed.

Lemma client_version_canonical_witness :
  ParseClientVersion "pyrycode-mobile/1.10.0" = Some (AppMobile, MkVersion 1 10 0) /\
  AdmitClientVersion "pyrycode-mobile/1.10.0" = "pyrycode-mobile/1.10.0"%string /\
  ParseClientVersion "pyrycode-mobile/1.01.0" = None.
Proof.
  destruct client_version_canonical as (Hparse & Hadmit & _).
  assert (ParseClientVersion "pyrycode-mobile/1.10.0" = Some (AppMobile, MkVersion 1 10 0)) as E.
  { apply Hparse. split; [done|]. split; [by repeat split|]. split; [by apply Nat.leb_le|done]. }
  split; [done|]. split; [by apply (Hadmit _ _ _ E)|by vm_compute].
Defined.

End RelayVersions.
