(* ===== verification/RelayHelloProps.v ===== *)
(** * Whom a hello admits ([internal/relay/v2session_handshake.go])

    Which hellos are accepted, what the registry holds after one, that
    refusals give nothing away, and that a pairing is one phone's. *)
From Stdlib Require Import Ascii String.
From stdpp Require Import prelude gmap strings list.
From S2P Require Import Prelude Utf8 Strconv Devices DevicesProps RelayHello RelayVersions.

Module RelayHelloProps.

Import Utf8 Strconv Devices DevicesProps RelayHello.

Local Open Scope Z_scope.

(** ** Capabilities *)

Lemma Contains_spec l x : Contains l x = true <-> x ∈ l.
Proof. unfold Contains. by rewrite bool_decide_eq_true. Qed.

Lemma if_singleton (b : bool) (x y : string) : x ∈ (if b then [y] else []) <-> b = true /\ x = y.
Proof. destruct b; [rewrite list_elem_of_singleton|rewrite elem_of_nil]; naive_solver. Qed.

(** What is granted, by name. *)
Lemma granted_spec adv rd x :
  let ready i := default false (rd !! i) in
  x ∈ negotiateCapabilities adv rd <->
    x ∈ supportedV2Capabilities /\ x ∈ adv \/
    x = CapabilityThread /\ x ∈ adv /\ ready 0%nat = true \/
    x = CapabilityHostedAppsV1 /\ x ∈ adv /\ ready 1%nat = true \/
    (x = CapabilityThreadExpansion \/ x = CapabilityThreadCompact /\ x ∈ adv /\ ready 3%nat = true) /\
      ready 0%nat = true /\ ready 2%nat = true /\
      CapabilityThreadExpansion ∈ adv /\ CapabilityThread ∈ adv /\ CapabilityInteractive ∈ adv.
Proof.
  intros ready. unfold negotiateCapabilities. fold ready.
  assert (ready 2%nat = true -> (2 <? length rd)%nat = true) as Hlen.
  { unfold ready. intros H. apply Nat.ltb_lt. apply lookup_lt_is_Some. destruct (rd !! 2%nat); [by eexists|done]. }
  rewrite !elem_of_app, list_elem_of_filter, !if_singleton, Contains_spec.
  rewrite !andb_true_iff, !Contains_spec.
  set (g := ready 0%nat) in *. set (h := ready 2%nat) in *.
  assert (forall (b : bool) l, x ∈ (if b then l else []) <-> b = true /\ x ∈ l) as Hif.
  { intros [] l; rewrite ?elem_of_nil; naive_solver. }
  rewrite Hif, elem_of_cons, if_singleton, !andb_true_iff, !Contains_spec. naive_solver.
Qed.

(** Nothing is granted that was not advertised; thread expansion comes only
    with the thread and interactive, and compact catch-ups only with it. *)
Lemma granted_sound adv rd :
  let granted := negotiateCapabilities adv rd in
  granted ⊆ adv /\
  (CapabilityThreadCompact ∈ granted -> CapabilityThreadExpansion ∈ granted) /\
  (CapabilityThreadExpansion ∈ granted -> CapabilityThread ∈ granted /\ CapabilityInteractive ∈ granted) /\
  (CapabilityThread ∈ granted <-> CapabilityThread ∈ adv /\ default false (rd !! 0%nat) = true).
Proof.
  intros granted. unfold granted. split_and!.
  - intros x Hx. rewrite granted_spec in Hx. naive_solver.
  - rewrite !granted_spec. intros [[H _]|H]; [|naive_solver].
    apply (bool_decide_pack _) in H. by vm_compute in H.
  - rewrite !granted_spec. intros [[H _]|H]; [apply (bool_decide_pack _) in H; by vm_compute in H|].
    assert (CapabilityInteractive ∈ supportedV2Capabilities) by (apply (bool_decide_unpack _); by vm_compute).
    naive_solver.
  - rewrite granted_spec. split; [|naive_solver]. intros [[H _]|H]; [|naive_solver].
    apply (bool_decide_pack _) in H. by vm_compute in H.
Qed.

(** ** The minimum version *)

(** What the configured minimums let through. *)
Definition version_ok (minimums : gmap string Version) (reported : string) : Prop :=
  minimums = ∅ \/ exists app v, ParseClientVersion reported = Some (app, v) /\
    (forall min, minimums !! app = Some min -> 0 <= Compare v min).

Lemma checkClientVersion_None minimums reported : checkClientVersion minimums reported = None <-> version_ok minimums reported.
Proof.
  unfold checkClientVersion, version_ok. destruct (decide (minimums = ∅)) as [->|Hne]; [naive_solver|].
  destruct (ParseClientVersion reported) as [[app v]|]; [|naive_solver].
  destruct (minimums !! app) as [min|] eqn:E.
  - destruct (Z.leb_spec 0 (Compare v min)) as [H|H]; [naive_solver|]. split; [done|]. intros [?|(app' & v' & [= <- <-] & Hmin)]; [done|]. specialize (Hmin _ E). lia.
  - naive_solver.
Qed.

(** ** Admission *)

Section admission.
Context (HashToken : string -> string).

Abbreviation judge := (judge HashToken).

(** The registry when the token is judged, and when the key is bound. *)
Definition after (os : list op) (r : Registry) : Registry := foldl (fun r o => exec HashToken o r) r os.
Definition reloaded (disk : option (option (list Device))) (r : Registry) : Registry :=
  match disk with Some (Some rows) => reconcileDevices r rows | _ => r end.
Definition at_validate disk (o1 : list op) (r : Registry) : Registry := after o1 (reloaded disk r).
Definition at_bind (hello : HelloClientPayload) (k : list Z) disk o1 o2 now seen (r : Registry) : Registry :=
  after o2 (fst (fst (Validate HashToken (Token hello) k now seen (at_validate disk o1 r)))).

(** Whether a row takes a phone with the key. *)
Definition key_free (k : list Z) (d : Device) : Prop := StaticKey d = "" \/ StaticKey d = hex k.

(** The token of a hello is good. *)
Definition token_ok (hello : HelloClientPayload) (k : list Z) (now : instant) (r : Registry) : Prop :=
  Token hello <> "" /\ exists d, FindByTokenHash (HashToken (Token hello)) r = Some d /\
    (RedeemBy d = zero_time \/ now < RedeemBy d) /\ key_free k d.

(** What else is asked of it. *)
Definition features_ok (p : policy) (hello : HelloClientPayload) : Prop :=
  version_ok (minimums p) (HelloVersion hello) /\ CapabilityThread ∈ Capabilities hello /\
  default false (readiness p !! 0%nat) = true.

Definition features_refusal (p : policy) (hello : HelloClientPayload) : option refusal :=
  match checkClientVersion (minimums p) (HelloVersion hello) with
  | Some rej => Some (version_refusal rej)
  | None => thread_reject hello (negotiateCapabilities (Capabilities hello) (readiness p))
  end.

Lemma features_refusal_None p hello : features_refusal p hello = None <-> features_ok p hello.
Proof.
  unfold features_refusal, features_ok. rewrite <- checkClientVersion_None.
  destruct (checkClientVersion _ _); [naive_solver|]. unfold thread_reject.
  destruct (granted_sound (Capabilities hello) (readiness p)) as (_ & _ & _ & Hthread).
  destruct (Contains (Capabilities hello) CapabilityThread) eqn:E1; cbn [negb].
  - apply Contains_spec in E1. destruct (Contains (negotiateCapabilities _ _) _) eqn:E2; cbn [negb].
    + apply Contains_spec in E2. naive_solver.
    + split; [done|]. intros (_ & _ & Hr). assert (CapabilityThread ∈ negotiateCapabilities (Capabilities hello) (readiness p)) as Hin by naive_solver.
      apply Contains_spec in Hin. congruence.
  - split; [done|]. intros (_ & Hin & _). apply Contains_spec in Hin. congruence.
Qed.

(** [judge] by its three questions: the token, the features, the binding. *)
Lemma judge_cases p hello k disk o1 o2 now seen r :
  judge p hello k disk o1 o2 now seen r =
    match Validate HashToken (Token hello) k now seen (at_validate disk o1 r) with
    | (r1, Some d, ValidateAccepted) =>
        match features_refusal p hello with
        | Some rf => (r1, VRefuse rf)
        | None =>
            match BindStaticKey (TokenHash d) k (after o2 r1) with
            | (r2, BindNewlyBound) => (r2, VAccept (set_staticKey (hex k) d) true)
            | (r2, BindMatched) => (r2, VAccept (set_staticKey (hex k) d) false)
            | (r2, _) => (r2, VRefuse token_refusal)
            end
        end
    | (r1, _, _) => (r1, VRefuse token_refusal)
    end.
Proof.
  unfold RelayHello.judge, features_refusal. fold (reloaded disk r). fold (after o1 (reloaded disk r)). fold (at_validate disk o1 r).
  destruct (Validate _ _ _ _ _ _) as [[r1 d] res]. destruct d as [d|], res; try done.
  destruct (checkClientVersion _ _); [done|]. destruct (thread_reject _ _); [done|]. fold (after o2 r1).
  destruct (BindStaticKey _ _ _) as [r2 []]; done.
Qed.

Lemma BindStaticKey_spec h k r :
  let '(r', b) := BindStaticKey h k r in
  ((b = BindNewlyBound \/ b = BindMatched) <-> k <> [] /\ exists d, FindByTokenHash h r = Some d /\ key_free k d) /\
  ((b = BindNewlyBound \/ b = BindMatched) -> key_of h r' = Some (hex k)) /\
  (b <> BindNewlyBound -> r' = r).
Proof.
  unfold BindStaticKey, key_free. case_bool_decide; [naive_solver|].
  destruct (FindByTokenHash h r) as [d|] eqn:E; [|naive_solver]. case_bool_decide as He.
  - split; [naive_solver|]. split; [|done]. intros _. unfold key_of. rewrite find_update by done. by rewrite decide_True, E.
  - case_bool_decide as Hk; (split; [naive_solver|]); (split; [|done]); [|naive_solver].
    intros _. unfold key_of. rewrite E. cbn. by rewrite Hk.
Qed.

(** [Validate], as the hello sees it. *)
Lemma Validate_hello hello k now seen r :
  match Validate HashToken (Token hello) k now seen r with
  | (r1, Some d, ValidateAccepted) => token_ok hello k now r /\ TokenHash d = HashToken (Token hello) /\
      (forall h, key_of h r1 = key_of h r)
  | (r1, _, _) => ~ token_ok hello k now r /\ r1 = r
  end.
Proof.
  pose proof (validate_admits HashToken (Token hello) k now seen r) as H.
  destruct (Validate _ _ _ _ _ _) as [[r1 d] res]. destruct H as (Hiff & Hno & Hyes).
  fold (key_free k) in *. unfold token_ok.
  assert (res <> ValidateAccepted -> ~ token_ok hello k now r /\ r1 = r) as Href.
  { intros Hr. split; [|by apply Hno]. intros Hok. by apply Hr, Hiff. }
  destruct (decide (res = ValidateAccepted)) as [->|Hne]; [|destruct d, res; auto; done].
  destruct (Hyes eq_refl) as (_ & _ & -> & Hkeys). destruct (proj1 Hiff eq_refl) as (Hp & d0 & Hd & Hw & Hk).
  rewrite Hd in *. cbn [fmap option_fmap option_map]. split; [by eauto|]. destruct (find_hash _ _ _ Hd) as [_ Hh]. split; [done|].
  intros h. unfold key_of. rewrite Hkeys. case_decide as Hc; [subst h; by rewrite Hd|done].
Qed.

(** C18. A phone's hello is accepted exactly when its token is that of a paired
    device inside its redemption window which is bound to no key or to this
    phone's, its version is at least the host's minimum for its app, it
    advertises the thread and the host serves it, and the device is still
    paired and free for this key when the key is bound, whatever others do to the
    registry meanwhile; the device is then bound to the key. A hello whose token
    is not good is refused in one way, whatever its version and features are; a
    good token with refused features never changes a binding. *)
Theorem hello_admission p hello k disk o1 o2 now seen r :
  let '(r', v) := judge p hello k disk o1 o2 now seen r in
  let h := HashToken (Token hello) in
  let r1 := at_validate disk o1 r in let r2 := at_bind hello k disk o1 o2 now seen r in
  ((exists d nb, v = VAccept d nb) <->
     token_ok hello k now r1 /\ features_ok p hello /\
     k <> [] /\ exists d, FindByTokenHash h r2 = Some d /\ key_free k d) /\
  (forall d nb, v = VAccept d nb -> StaticKey d = hex k /\ TokenHash d = h /\ key_of h r' = Some (hex k)) /\
  (~ token_ok hello k now r1 -> v = VRefuse token_refusal /\ r' = r1) /\
  (token_ok hello k now r1 -> ~ features_ok p hello ->
     (exists rf, features_refusal p hello = Some rf /\ v = VRefuse rf) /\ (forall h', key_of h' r' = key_of h' r1)) /\
  (token_ok hello k now r1 -> features_ok p hello -> (forall d nb, v <> VAccept d nb) -> v = VRefuse token_refusal /\ r' = r2).
Proof.
  rewrite judge_cases. unfold at_bind. pose proof (Validate_hello hello k now seen (at_validate disk o1 r)) as HV.
  destruct (Validate _ _ _ _ _ _) as [[r1 [d|]] res]; [|destruct HV as [HV ->]; cbn zeta; split_and!; try done; naive_solver].
  destruct res; try (destruct HV; naive_solver). destruct HV as (Hok & Hh & Hkeys). cbn [fst].
  pose proof (features_refusal_None p hello) as Hf.
  destruct (features_refusal p hello) as [rf|]; [naive_solver|].
  pose proof (BindStaticKey_spec (TokenHash d) k (after o2 r1)) as HB. rewrite Hh in *.
  destruct (BindStaticKey _ _ _) as [r2 b]. destruct HB as (Hiff & Hbound & Hsame).
  destruct b; naive_solver.
Qed.

(** The key of an accepted phone's row. *)
Lemma accepted_key p hello k disk o1 o2 now seen r d nb :
  snd (judge p hello k disk o1 o2 now seen r) = VAccept d nb ->
  k <> [] /\ key_of (HashToken (Token hello)) (fst (judge p hello k disk o1 o2 now seen r)) = Some (hex k).
Proof.
  rewrite judge_cases. pose proof (Validate_hello hello k now seen (at_validate disk o1 r)) as HV.
  destruct (Validate _ _ _ _ _ _) as [[r1 [d0|]] res]; [|done]. destruct res; try done.
  destruct HV as (_ & Hh & _). destruct (features_refusal p hello); [done|].
  pose proof (BindStaticKey_spec (TokenHash d0) k (after o2 r1)) as HB. rewrite Hh in *.
  destruct (BindStaticKey _ _ _) as [r2 b]. destruct HB as (Hiff & Hbound & _).
  destruct b; cbn [fst snd]; try done; intros _; naive_solver.
Qed.

(** C19. Trust on first use, as phones meet it: once a hello of a pairing has been
    accepted, then as long as the device stays paired - through whatever is done
    to the registry, reloads from disk included - every hello of that pairing
    from a phone with another key is refused as an unknown token is, whatever
    else it says. *)
Theorem pairing_is_one_phones p hello k disk o1 o2 now seen r d nb p' hello' k' disk' o1' o2' now' seen' r'
    (Hk : forallb is_byte k = true) (Hk' : forallb is_byte k' = true)
    (Hacc : snd (judge p hello k disk o1 o2 now seen r) = VAccept d nb)
    (Hn : NoDup (hashes (fst (judge p hello k disk o1 o2 now seen r))))
    (Htok : HashToken (Token hello') = HashToken (Token hello))
    (Hrun : stays_paired HashToken (HashToken (Token hello))
              (fst (judge p hello k disk o1 o2 now seen r)) (at_validate disk' o1' r')) :
  k' <> k -> judge p' hello' k' disk' o1' o2' now' seen' r' = (at_validate disk' o1' r', VRefuse token_refusal).
Proof.
  intros Hne. destruct (accepted_key _ _ _ _ _ _ _ _ _ _ _ Hacc) as [Hk0 Hkey].
  assert (hex k <> "") as Hhex by (by destruct k).
  destruct (key_while_paired _ _ _ _ _ Hn Hkey Hhex Hrun) as [_ Hrow].
  rewrite judge_cases. pose proof (Validate_hello hello' k' now' seen' (at_validate disk' o1' r')) as HV.
  assert (~ token_ok hello' k' now' (at_validate disk' o1' r')) as Hno.
  { intros (_ & d' & Hd & _ & Hfree). rewrite Htok in Hd. unfold key_of in Hrow. rewrite Hd in Hrow. injection Hrow as Hs.
    unfold key_free in Hfree. rewrite Hs in Hfree. destruct Hfree as [|He]; [done|]. apply Hne. symmetry. by apply hex_inj. }
  destruct (Validate _ _ _ _ _ _) as [[r1 [d'|]] res]; [destruct res|]; destruct HV as [? HV]; simplify_eq; tauto.
Qed.

End admission.

(** ** A witness: two phones with one pairing code *)

Definition demo_hello (version : string) : HelloClientPayload := MkHello "phone" "my phone" version "" ["v2"] None "t" ["interactive"; "thread"].
Definition demo_policy : policy := MkPolicy {["pyrycode-mobile"%string := MkVersion 1 4 0]} [true] "/home/me/pyry-workspace".

Lemma pairing_is_one_phones_witness :
  let first := RelayHello.judge demo_hash demo_policy (demo_hello "pyrycode-mobile/1.10.0") [1; 2] (Some None) [] [] 5 6 demo_devices in
  (exists d, snd first = VAccept d true) /\
  snd (RelayHello.judge demo_hash demo_policy (demo_hello "pyrycode-mobile/1.3.9") [3] (Some (Some demo_devices))
         [OPush "#t" "ios" "p" "name"] [] 7 8 (fst first)) = VRefuse token_refusal.
Proof.
  intros first. assert (snd first = VAccept (set_staticKey "0102" (set_lastSeen 6 (demo_device "#t"))) true) as Hacc by by vm_compute.
  split; [by eexists|].
  erewrite (pairing_is_one_phones demo_hash demo_policy (demo_hello "pyrycode-mobile/1.10.0") [1; 2] (Some None) [] [] 5 6 demo_devices);
    [done|done|done|exact Hacc|apply (bool_decide_unpack _); by vm_compute|done| |done].
  apply (paired_step _ _ _ (OReload demo_devices)); [apply (bool_decide_unpack _); by vm_compute|by left|].
  apply (paired_step _ _ _ (OPush "#t" "ios" "p" "name")); [done|by left|apply paired_refl].
Defined.

(** The same host refuses an app that is too old, and says which it wants. *)
Example old_app_refused :
  snd (RelayHello.judge demo_hash demo_policy (demo_hello "pyrycode-mobile/1.3.9") [1; 2] None [] [] 5 6 demo_devices) =
  VRefuse (MkRefusal CodeClientUpdateRequired MsgClientUpdateRequired "1.4.0" StatusClientUpdateRequired).
Proof. by vm_compute. Qed.

End RelayHelloProps.
