(* ===== verification/RelayLive.v ===== *)
(** * A relay session's live readings ([internal/relay])

    [v2session_livestate.go] and the drain of [v2session_push.go]: how a
    reading of a conversation's state (a prompt, a setting, a progress note)
    reaches a phone, through the session's push queue or from the snapshot a
    fresh session is given, beside producers that fill, mark and retire the
    queues at any lock. A phone first gets a clear of the reading's family,
    once per generation of the agent's session, then the reading. *)
From Stdlib Require Import Ascii String.
From stdpp Require Import prelude strings list gmap.
From S2P Require Import Prelude Utf8 RelayQueue.

Module RelayLive.

Import Utf8 RelayQueue.

Local Open Scope Z_scope.

(** ** Families *)

Definition TypeModalShown : string := "modal_shown".
Definition TypeQuestionShown : string := "question_shown".
Definition TypeSessionSettings : string := "session_settings".
Definition TypeModalDismissed : string := "modal_dismissed".
Definition TypeQuestionDismissed : string := "question_dismissed".
Definition TypeSessionSettingsUpdated : string := "session_settings_updated".
Definition TypeModelList : string := "model_list".
Definition TypeRekeyRequest : string := "rekey_request".
Definition MaxThreadEnvelopeBytes : Z := 65519.

Definition liveStateFamily (typ : string) : bool :=
  bool_decide (typ ∈ [TypeModalShown; TypeModalDismissed; TypeQuestionShown; TypeQuestionDismissed;
    "turn_state"; "stall"; "api_retry"; "compacting"; "thinking_progress"; "tool_progress";
    "background_task_progress"; "resetting"; "rate_limited"; "context_usage"; "model_announced";
    "session_facts"; TypeSessionSettings; TypeSessionSettingsUpdated; "mcp_status"; "slash_command_list";
    TypeModelList; "reply_suggestion"; "session_error"]).

Definition set_conversation (c : string) (e : Envelope) : Envelope :=
  MkEnvelope (ID e) (Type_ e) (TS e) (Payload e) (InReplyTo e) (EventID e) (HistoryEntryID e) c (SessionID e)
    (SessionStateCleared e) (PayloadEncrypted e).
Definition set_payload (p : string) (e : Envelope) : Envelope :=
  MkEnvelope (ID e) (Type_ e) (TS e) p (InReplyTo e) (EventID e) (HistoryEntryID e) (ConversationID e) (SessionID e)
    (SessionStateCleared e) (PayloadEncrypted e).
Definition without_ids (e : Envelope) : Envelope :=
  MkEnvelope (ID e) (Type_ e) (TS e) (Payload e) (InReplyTo e) None None (ConversationID e) (SessionID e)
    (SessionStateCleared e) (PayloadEncrypted e).

Definition liveStateClear (e : Envelope) : Envelope :=
  let typ :=
    if bool_decide (Type_ e = TypeModalDismissed) then TypeModalShown
    else if bool_decide (Type_ e = TypeQuestionDismissed) then TypeQuestionShown
    else if bool_decide (Type_ e = TypeSessionSettingsUpdated) then TypeSessionSettings
    else Type_ e in
  MkEnvelope (ID e) typ (TS e) "{}" None (EventID e) (HistoryEntryID e) (ConversationID e) (SessionID e) true (PayloadEncrypted e).

(** ** Readings that are well formed *)

(** What the code asks of [encoding/json]: whether bytes are JSON, the string
    they are, a string's encoding, the raw [conversation_id] of a payload and the
    string it is (empty: none, or no string), whether a payload is an object
    without fields, whether it is an inventory without models, and an
    envelope's encoded length. *)
Record json := MkJson {
  Valid : string -> bool;
  as_string : string -> option string;
  quote : string -> string;
  raw_conversation : string -> string;
  pushedConversationID : string -> string;
  empty_object : string -> bool;
  no_models : string -> bool;
  encoded : Envelope -> option Z;
}.

Section live.
Context (js : json).

Definition validLiveTag (tag : string) : bool :=
  bool_decide (tag = "") || bool_decide (TrimSpace tag = "null") ||
  match as_string js tag with Some id => negb (bool_decide (id = "")) | None => false end.

Definition with_conversation (r : LiveState) : Envelope :=
  let e := lv_Envelope r in
  if bool_decide (ConversationID e = "") then set_conversation (quote js (lv_ConversationID r)) e else e.

Definition names_conversation (r : LiveState) (identity : string) : bool :=
  bool_decide (identity = "") ||
  match as_string js identity with
  | Some id => negb (bool_decide (id = "")) && bool_decide (id = lv_ConversationID r)
  | None => false
  end.

Definition fits_frame (e : Envelope) : bool :=
  match encoded js e with Some n => n <=? MaxThreadEnvelopeBytes | None => false end.

(** [validateLiveState]: whether it returns no error. *)
Definition validateLiveState (r : LiveState) : bool :=
  let e := lv_Envelope r in
  if negb (liveStateFamily (Type_ e)) || bool_decide (lv_ConversationID r = "") || (SessionGeneration r =? 0) ||
     (Revision r =? 0) || negb (validLiveTag (SessionID e)) || negb (Valid js (Payload e))
  then false
  else if negb (forallb (names_conversation r) [ConversationID e; raw_conversation js (Payload e)]) then false
  else
    let e' := with_conversation r in
    if SessionStateCleared e' && negb (empty_object js (Payload e')) then false
    else
      let e' := without_ids (if SessionStateCleared e' then liveStateClear e' else e') in
      forallb fits_frame [e'; liveStateClear e'].

(** ** Sessions and queues *)

(** [liveReadingKey], [liveWatermark]. *)
Definition liveReadingKey : Type := string * string.
Record liveWatermark := MkWatermark {
  generation : Z;
  cleared : gset string;
  revisions : gmap liveReadingKey Z;
}.

Definition key_of (r : LiveState) : liveReadingKey := (Type_ (liveStateClear (lv_Envelope r)), ReadingID r).

(** What happened to a session's readings: a frame of one was handed over, one
    was parked behind its clear, the parked one was taken up. *)
Inductive event := Framed (r : LiveState) (e : Envelope) | Parked (r : LiveState) | Taken.

(** An open session's fields that matter here. [hosted]: whether it has an
    ordered lane, and then [pushReserved]; [liveSnapshot]: whether it is set. *)
Record session := MkSession {
  interactive : bool;
  thread : bool;
  multiAgent : bool;
  hosted : option bool;
  livePending : option LiveState;
  liveSnapshot : bool;
  liveWatermarks : gmap string liveWatermark;
  log : list event;
}.

Definition set_hosted (h : option bool) (s : session) : session :=
  MkSession (interactive s) (thread s) (multiAgent s) h (livePending s) (liveSnapshot s) (liveWatermarks s) (log s).
Definition set_snapshot (b : bool) (s : session) : session :=
  MkSession (interactive s) (thread s) (multiAgent s) (hosted s) (livePending s) b (liveWatermarks s) (log s).
Definition add_log (v : event) (s : session) : session :=
  MkSession (interactive s) (thread s) (multiAgent s) (hosted s) (livePending s) (liveSnapshot s) (liveWatermarks s) (log s ++ [v]).
Definition park (r : LiveState) (s : session) : session :=
  MkSession (interactive s) (thread s) (multiAgent s) (hosted s) (Some r) (liveSnapshot s) (liveWatermarks s) (log s ++ [Parked r]).
Definition take_pending (s : session) : session :=
  MkSession (interactive s) (thread s) (multiAgent s) (hosted s) None (liveSnapshot s) (liveWatermarks s) (log s ++ [Taken]).
Definition set_watermark (c : string) (w : liveWatermark) (s : session) : session :=
  MkSession (interactive s) (thread s) (multiAgent s) (hosted s) (livePending s) (liveSnapshot s) (<[c := w]> (liveWatermarks s)) (log s).

(** The manager: its open sessions, its queues, the markers whose channels are
    closed, whether [drainCh] holds a signal, and how often the environment
    has been asked. *)
Record world := MkWorld {
  sessions : gmap string session;
  queues : gmap string pushQueue;
  closed : list (string * nat);
  drainCh : bool;
  tick : nat;
}.

Definition with_sessions (m : gmap string session) (w : world) : world := MkWorld m (queues w) (closed w) (drainCh w) (tick w).
Definition with_queues (m : gmap string pushQueue) (w : world) : world := MkWorld (sessions w) m (closed w) (drainCh w) (tick w).
Definition close_markers (c : string) (l : list nat) (w : world) : world :=
  MkWorld (sessions w) (queues w) (closed w ++ ((c,.) <$> l)) (drainCh w) (tick w).
Definition with_drainCh (b : bool) (w : world) : world := MkWorld (sessions w) (queues w) (closed w) b (tick w).
Definition next_tick (w : world) : world := MkWorld (sessions w) (queues w) (closed w) (drainCh w) (S (tick w)).

(** ** The others *)

(** What producers do under [pushMu], with the signal that follows. *)
Inductive producer :=
| PPush (conn : string) (e : Envelope) (live : option LiveState) (ready projected : bool)
| PFlush (n : nat)
| PRetire (conn : string)
| PLatch (conn : string).

Definition run_producer (w : world) (p : producer) : world :=
  match p with
  | PPush conn e live ready projected =>
      match queues w !! conn with
      | Some q => with_drainCh true (with_queues (<[conn := fst (enqueueSource e live ready projected q)]> (queues w)) w)
      | None => w
      end
  | PFlush n => with_drainCh true (with_queues (flush_mark n <$> queues w) w)
  | PRetire conn => with_queues (alter retire_gap conn (queues w)) w
  | PLatch conn => with_queues (alter latch conn (queues w)) w
  end.

(** ** The environment *)

(** One answer: a yes or no, what producers do meanwhile, the order a map is
    walked in, a reading, a text. *)
Record answer := MkAnswer {
  a_yes : bool;
  a_others : list producer;
  a_order : list string;
  a_reading : option LiveState;
  a_text : string;
}.

Context (orc : nat -> answer).

Definition M (A : Type) : Type := world -> A * world.
Definition ret {A} (a : A) : M A := fun w => (a, w).
Definition bind {A B} (m : M A) (f : A -> M B) : M B := fun w => let '(a, w) := m w in f a w.
#[local] Notation "x ← y ; z" := (bind y (fun x => z)) (at level 20, y at level 100, z at level 200).
#[local] Notation "x ;; z" := (bind x (fun _ => z)) (at level 100, z at level 200, right associativity).

Definition ask : M answer := fun w => (orc (tick w), next_tick w).
Definition yes : M bool := a ← ask; ret (a_yes a).
Definition modify (f : world -> world) : M unit := fun w => (tt, f w).
Definition get : M world := fun w => (w, w).

(** Taking [pushMu]. *)
Definition sync : M unit := a ← ask; modify (fun w => foldl run_producer w (a_others a)).

Definition upd (conn : string) (f : session -> session) : M unit :=
  modify (fun w => with_sessions (alter f conn (sessions w)) w).
Definition session_of (conn : string) : M (option session) := w ← get; ret (sessions w !! conn).
Definition queue_of (conn : string) : M (option pushQueue) := sync;; w ← get; ret (queues w !! conn).
Definition put_queue (conn : string) (q : pushQueue) : M unit := modify (fun w => with_queues (<[conn := q]> (queues w)) w).

(** A [range] over a map with these keys, in the order of an answer. *)
Definition visit (keys : list string) : M (list string) :=
  a ← ask; ret (filter (.∈ keys) (remove_dups (a_order a)) ++ filter (.∉ a_order a) keys).

(** ** Teardown *)

Definition teardown (conn : string) : M unit :=
  s ← session_of conn;
  match s with
  | None => ret tt
  | Some _ =>
      modify (fun w => with_sessions (delete conn (sessions w)) w);;
      q ← queue_of conn;
      modify (close_markers conn (match q with Some q => omap barrier (items q) | None => [] end));;
      modify (fun w => with_queues (delete conn (queues w)) w)
  end.

Definition pushRetired (conn : string) : M bool :=
  q ← queue_of conn; ret (match q with Some q => overflowed q | None => false end).

(** [handlePushOverflow]: a producer's gap waits for a write under way. *)
Definition handlePushOverflow (conn : string) : M unit :=
  s ← session_of conn;
  match s with
  | None => ret tt
  | Some s =>
      q ← queue_of conn;
      match q with
      | None => ret tt
      | Some q =>
          if negb (overflowed q) then ret tt
          else if producerGap q
          then busy ← yes; if busy && bool_decide (is_Some (hosted s)) then ret tt else teardown conn
          else teardown conn
      end
  end.

(** ** The ordered lane *)

Definition hostedPushAvailable (conn : string) : M bool :=
  s ← session_of conn;
  match s with
  | Some (MkSession _ _ _ (Some _) _ _ _ _) => yes
  | _ => ret true
  end.

Definition reserveHostedPush (conn : string) : M bool :=
  s ← session_of conn;
  match s with
  | Some (MkSession _ _ _ (Some _) _ _ _ _) =>
      room ← yes;
      if room then upd conn (set_hosted (Some true));; ret true else ret false
  | _ => ret true
  end.

Definition releaseHostedPush (conn : string) : M unit :=
  s ← session_of conn;
  match s with
  | Some (MkSession _ _ _ (Some true) _ _ _ _) =>
      upd conn (set_hosted (Some false));;
      alive ← yes;
      if alive then modify (with_drainCh true) else ret tt
  | _ => ret tt
  end.

Definition closeHostedOverflow (conn : string) : M unit :=
  q ← queue_of conn;
  match q with
  | Some q =>
      put_queue conn (latch q);;
      handlePushOverflow conn
  | None => teardown conn
  end.

(** [hostedEnqueue] of an envelope; what is handed over is noted. Whether
    changes have overflowed the lane, whether it is full, and whether the
    delivery it starts closes the session, the environment decides. *)
Definition hostedEnqueue (conn : string) (v : option event) : M unit :=
  s ← session_of conn;
  match s with
  | None => ret tt
  | Some s =>
      r ← pushRetired conn;
      if r then handlePushOverflow conn
      else
        overflow ← yes;
        (if overflow then closeHostedOverflow conn else ret tt);;
        full ← yes;
        if overflow || full then closeHostedOverflow conn
        else
          (match hosted s with Some true => upd conn (set_hosted (Some false)) | _ => ret tt end);;
          (match v with Some v => upd conn (add_log v) | None => ret tt end);;
          ends ← yes;
          if ends then teardown conn else ret tt
  end.

(** [pushSource] from the manager's own goroutine. *)
Definition pushSource (conn : string) (e : Envelope) (live : option LiveState) (ready projected : bool) : M unit :=
  sync;; modify (fun w => run_producer w (PPush conn e live ready projected)).

(** [hostedEnvelope]: whether it was put back into the push queue. *)
Definition hostedEnvelope (conn : string) (e : Envelope) (v : option event) : M bool :=
  s ← session_of conn;
  match s with
  | Some (MkSession _ _ _ (Some false) _ _ _ _) =>
      if bool_decide (Type_ e = TypeRekeyRequest) then hostedEnqueue conn v;; ret false
      else
        room ← reserveHostedPush conn;
        if room then hostedEnqueue conn v;; releaseHostedPush conn;; ret false
        else pushSource conn e None true false;; ret true
  | _ => hostedEnqueue conn v;; ret false
  end.

(** ** Sealing and forwarding *)

(** [withheldFromConn]; the environment says whether the conversation is a
    Codex one, and no where that is not configured. *)
Definition withheldFromConn (s : session) (e : Envelope) : M bool :=
  if multiAgent s || bool_decide (is_Some (InReplyTo e)) then ret false
  else if bool_decide (pushedConversationID js (Payload e) = "") then ret false
  else yes.

(** [mergedForConn]; the merged inventory is the environment's. *)
Definition mergedForConn (s : session) (e : Envelope) (unprojected : bool) : M Envelope :=
  if multiAgent s && bool_decide (Type_ e = TypeModelList) && negb (SessionStateCleared e) && unprojected
  then a ← ask; ret (if a_yes a then set_payload (a_text a) e else e)
  else ret e.

(** [forwardEnvelopeSource]: whether there is no error, and what it leaves in
    [pushDeferred]. Of envelopes without a reading, those the thread replaces
    and stale suggestions are withheld. *)
Definition forwardEnvelopeSource (conn : string) (e : Envelope) (reading : option LiveState) (projected : bool) : M (bool * bool) :=
  s ← session_of conn;
  match s with
  | None => ret (false, false)
  | Some s =>
      withheld ← withheldFromConn s e;
      replaced ← (match reading with Some _ => ret false | None => yes end);
      if withheld || replaced then ret (true, false)
      else
        let unprojected := negb projected &&
          match reading with None => negb (bool_decide (is_Some (InReplyTo e))) | Some r => ModelListUnprojected r end in
        e' ← mergedForConn s e unprojected;
        match encoded js e' with
        | None => ret (false, false)
        | Some n =>
            if thread s && liveStateFamily (Type_ e') && (MaxThreadEnvelopeBytes <? n) then ret (false, false)
            else
              let v := (fun r => Framed r e') <$> reading in
              match hosted s with
              | Some _ => d ← hostedEnvelope conn e' v; ret (true, d)
              | None =>
                  sealed ← yes;
                  if sealed
                  then (match v with Some v => upd conn (add_log v) | None => ret tt end);; ret (true, false)
                  else ret (false, false)
              end
        end
  end.

(** ** Live readings *)

(** [liveWithheld]; what is known of the conversation is the environment's. *)
Definition liveWithheld (s : session) (conversation : string) : M bool :=
  if negb (interactive s) || bool_decide (conversation = "") then ret true
  else
    known ← yes;
    if negb known || negb (thread s) then ret true
    else if multiAgent s then ret false else yes.

(** The watermark a reading is judged by; [None] where it is of an older
    generation. *)
Definition watermark (s : session) (r : LiveState) : option liveWatermark :=
  let fresh := MkWatermark (SessionGeneration r) ∅ ∅ in
  match liveWatermarks s !! lv_ConversationID r with
  | Some w =>
      if SessionGeneration r <? generation w then None
      else if generation w <? SessionGeneration r then Some fresh else Some w
  | None => Some fresh
  end.

(** Whether the watermark has overtaken a reading. *)
Definition overtaken (w : liveWatermark) (r : LiveState) : bool :=
  if SessionStateCleared (lv_Envelope r) then bool_decide (fst (key_of r) ∈ cleared w)
  else
    let rev := default 0 (revisions w !! key_of r) in
    (Revision r <? rev) || ((Revision r =? rev) && negb (bool_decide (is_Some (InReplyTo (lv_Envelope r))))).

Definition mark_cleared (f : string) (w : liveWatermark) : liveWatermark :=
  MkWatermark (generation w) ({[f]} ∪ cleared w) (revisions w).
Definition mark_revision (k : liveReadingKey) (rev : Z) (w : liveWatermark) : liveWatermark :=
  MkWatermark (generation w) (cleared w) (<[k := rev]> (revisions w)).

(** [PushLiveState] from the manager's goroutine: whether there is no error. *)
Definition PushLiveState (conn : string) (r : LiveState) : M bool :=
  if negb (validateLiveState r) then ret false
  else
    q ← queue_of conn;
    match q with
    | None => ret false
    | Some _ => pushSource conn (lv_Envelope r) (Some r) false false;; ret true
    end.

(** [forwardLiveState] from the watermark on. *)
Definition forward_judged (conn : string) (r : LiveState) (w : liveWatermark) : M bool :=
  let f := fst (key_of r) in
  let e := without_ids (with_conversation r) in
  let needsClear := negb (SessionStateCleared e) && negb (bool_decide (f ∈ cleared w)) in
  let e := if needsClear || SessionStateCleared e then liveStateClear e else e in
  sent ← forwardEnvelopeSource conn e (Some r) false;
  if negb (fst sent) then ret false
  else
    parked ← (if needsClear
              then if snd sent then PushLiveState conn r else upd conn (park r);; ret true
              else ret true);
    if negb parked then ret false
    else
      upd conn (set_watermark (lv_ConversationID r)
                  (if SessionStateCleared e then mark_cleared f w else mark_revision (key_of r) (Revision r) w));;
      ret true.

Definition unanswerable (r : LiveState) : bool :=
  let e := lv_Envelope r in
  negb (SessionStateCleared e) && (bool_decide (Type_ e = TypeModalShown) || bool_decide (Type_ e = TypeQuestionShown)) &&
  bool_decide (Answerable r = Some false).

Definition forwardLiveState (conn : string) (r : LiveState) : M bool :=
  if unanswerable r then ret true
  else
    s ← session_of conn;
    match s with
    | None => ret true
    | Some s =>
        withheld ← liveWithheld s (lv_ConversationID r);
        if withheld then ret true
        else if negb (validateLiveState r) then ret false
        else if ModelListUnprojected r && negb (SessionStateCleared (lv_Envelope r)) && negb (multiAgent s) &&
                no_models js (Payload (lv_Envelope r))
        then ret true
        else
          current ← yes;
          if negb (bool_decide (is_Some (InReplyTo (lv_Envelope r)))) && negb current then ret true
          else match watermark s r with
               | None => ret true
               | Some w => if overtaken w r then ret true else forward_judged conn r w
               end
    end.

(** [refreshLiveCatalog]; the reading of the catalogue that is current is the
    environment's. *)
Definition refreshLiveCatalog (conn : string) (r : LiveState) : M LiveState :=
  s ← session_of conn;
  match s with
  | None => ret r
  | Some s =>
      withheld ← liveWithheld s (lv_ConversationID r);
      let e := lv_Envelope r in
      if negb (thread s) || withheld || negb (bool_decide (Type_ e = TypeModelList)) || SessionStateCleared e ||
         bool_decide (is_Some (InReplyTo e))
      then ret r
      else
        current ← yes;
        if current then ret r
        else
          a ← ask;
          match a_reading a with
          | Some fresh =>
              if bool_decide (lv_ConversationID fresh = lv_ConversationID r) &&
                 (SessionGeneration fresh =? SessionGeneration r) &&
                 bool_decide (Type_ (lv_Envelope fresh) = TypeModelList) && negb (SessionStateCleared (lv_Envelope fresh))
              then
                let e := lv_Envelope fresh in
                ret (MkLive (MkEnvelope (ID e) (Type_ e) (TS e) (Payload e) None (EventID e) (HistoryEntryID e) (ConversationID e)
                                (SessionID e) (SessionStateCleared e) (PayloadEncrypted e))
                        (lv_ConversationID fresh) (SessionGeneration fresh) (ReadingID fresh) (Revision fresh)
                        (Answerable fresh) (ModelListUnprojected fresh))
              else ret r
          | None => ret r
          end
  end.

(** ** Draining *)

Definition keys (m : gmap string session) : list string := (map_to_list m).*1.

(** The sessions a slot may be free for. *)
Fixpoint available (conns : list string) : M (list string) :=
  match conns with
  | [] => ret []
  | c :: conns => ok ← hostedPushAvailable c; l ← available conns; ret (if ok then c :: l else l)
  end.

(** The first loop of [signalLiveDrain]: whether a queue can be drained. *)
Definition drainable (free : list string) (w : world) (conn : string) : bool :=
  match queues w !! conn, sessions w !! conn with
  | Some q, Some s =>
      negb (overflowed q) && negb (bool_decide (is_Some (livePending s))) &&
      match items q with
      | x :: _ => bool_decide (conn ∈ free) || bool_decide (is_Some (barrier x))
      | [] => false
      end
  | _, _ => false
  end.

(** Its second loop: whether a session has a reading of its own to send. *)
Fixpoint own_reading (free conns : list string) : M bool :=
  match conns with
  | [] => ret false
  | c :: conns =>
      s ← session_of c;
      match s with
      | Some s =>
          if bool_decide (c ∈ free) && (bool_decide (is_Some (livePending s)) || liveSnapshot s)
          then r ← pushRetired c; if r then own_reading free conns else ret true
          else own_reading free conns
      | None => own_reading free conns
      end
  end.

Definition signalLiveDrain : M unit :=
  w ← get;
  order ← visit (keys (sessions w));
  free ← available order;
  sync;;
  w ← get;
  if existsb (drainable free w) (map_to_list (queues w)).*1 then modify (with_drainCh true)
  else
    order ← visit (keys (sessions w));
    again ← own_reading free order;
    if again then modify (with_drainCh true) else ret tt.

Definition finish_live (conn : string) : M unit := releaseHostedPush conn;; signalLiveDrain.

(** [drainLiveOnce]'s loop over the sessions. *)
Fixpoint live_loop (conns : list string) (pendingOnly : bool) : M unit :=
  match conns with
  | [] => ret tt
  | c :: conns =>
      r ← pushRetired c;
      if r then live_loop conns pendingOnly
      else
        s ← session_of c;
        match s with
        | None => live_loop conns pendingOnly
        | Some s =>
            if negb (bool_decide (is_Some (livePending s))) && (negb (liveSnapshot s) || pendingOnly)
            then live_loop conns pendingOnly
            else
              room ← reserveHostedPush c;
              if negb room then live_loop conns pendingOnly
              else
                r ← pushRetired c;
                if r then releaseHostedPush c;; live_loop conns pendingOnly
                else
                  match livePending s with
                  | Some r =>
                      upd c take_pending;;
                      r ← refreshLiveCatalog c r;
                      forwardLiveState c r;;
                      finish_live c
                  | None =>
                      a ← ask;
                      match a_reading a with
                      | None => upd c (set_snapshot false);; finish_live c
                      | Some r =>
                          r ← refreshLiveCatalog c r;
                          forwardLiveState c r;;
                          finish_live c
                      end
                  end
        end
  end.

Definition drainLiveOnce (pendingOnly : bool) : M unit :=
  down ← yes;
  if down then ret tt
  else
    w ← get;
    order ← visit (keys (sessions w));
    live_loop order pendingOnly.

(** [drainOnce]'s first loop: whether a parked reading can go first. *)
Fixpoint parked_first (conns : list string) : M bool :=
  match conns with
  | [] => ret false
  | c :: conns =>
      s ← session_of c;
      match s ≫= livePending with
      | None => parked_first conns
      | Some _ =>
          r ← pushRetired c;
          if r then parked_first conns
          else ok ← hostedPushAvailable c; if ok then ret true else parked_first conns
      end
  end.

(** What a popped item is. *)
Definition dispatch (conn : string) (x : queuedEnv) : M unit :=
  match barrier x with
  | Some n => modify (close_markers conn [n])
  | None =>
      if ready x then hostedEnvelope conn (env x) None;; ret tt
      else match live x with
           | Some r => forwardLiveState conn r;; ret tt
           | None => forwardEnvelopeSource conn (env x) None (modelListProjected x);; ret tt
           end
  end.

(** [drainOnce]'s loop over the queues that had something. *)
Fixpoint queue_loop (conns : list string) : M bool :=
  match conns with
  | [] => ret false
  | c :: conns =>
      s ← session_of c;
      if bool_decide (is_Some (s ≫= livePending)) then queue_loop conns
      else
        q ← queue_of c;
        let marker := match q with Some q => bool_decide (is_Some (head (items q) ≫= barrier)) | None => false end in
        room ← (if marker then ret true else reserveHostedPush c);
        if negb room then queue_loop conns
        else
          q ← queue_of c;
          match q with
          | None => queue_loop conns
          | Some q =>
              if overflowed q then releaseHostedPush c;; queue_loop conns
              else match popHead q with
                   | None => queue_loop conns
                   | Some (x, q) => put_queue c q;; dispatch c x;; finish_live c;; ret true
                   end
          end
  end.

Definition drainOnce : M unit :=
  done ← yes;
  if done then ret tt
  else
    w ← get;
    order ← visit (keys (sessions w));
    first ← parked_first order;
    if first then drainLiveOnce true
    else
      down ← yes;
      if down then ret tt
      else
        sync;;
        w ← get;
        order ← visit (map_to_list (queues w)).*1;
        let candidates := filter (fun c => match queues w !! c with
                                           | Some q => negb (overflowed q) && negb (bool_decide (items q = []))
                                           | None => false end = true) order in
        sent ← queue_loop candidates;
        if sent then ret tt else drainLiveOnce false.

(** ** The manager's loop *)

(** What it does of this, one at a time: a drain; a session opened by a hello,
    or closed for any reason; a queue that overflowed; a frame of its own. *)
Inductive action :=
| ADrain
| AOpen (conn : string) (inter thr multi hosts : bool)
| AClose (conn : string)
| AOverflow (conn : string)
| AForward (conn : string) (e : Envelope).

(** The end of [handleNoiseInit], for a connection without a session. *)
Definition open_session (conn : string) (inter thr multi hosts : bool) : M unit :=
  s ← session_of conn;
  match s with
  | Some _ => ret tt
  | None =>
      modify (fun w => with_sessions (<[conn := MkSession inter thr multi (if hosts then Some false else None) None false ∅ []]> (sessions w)) w);;
      sync;;
      put_queue conn newQueue;;
      snapshots ← yes;
      if inter && snapshots then upd conn (set_snapshot true);; signalLiveDrain else ret tt
  end.

Definition act (a : action) : M unit :=
  match a with
  | ADrain => modify (with_drainCh false);; drainOnce
  | AOpen conn inter thr multi hosts => open_session conn inter thr multi hosts
  | AClose conn => teardown conn
  | AOverflow conn => handlePushOverflow conn
  | AForward conn e => forwardEnvelopeSource conn e None false;; ret tt
  end.

Fixpoint acts (l : list action) : M unit :=
  match l with [] => ret tt | a :: l => act a;; acts l end.

Definition init : world := MkWorld ∅ ∅ [] false 0.

(** The world after some actions. *)
Definition run (l : list action) : world := snd (acts l init).

End live.
End RelayLive.
