(* ===== verification/RelayLiveOrder.v ===== *)
(** * The order of a session's readings ([internal/relay])

    What it is for the frames of live readings to come in order, what a phone
    shows of frames in order, and that a frame judged by the watermarks comes in
    order. *)
From Stdlib Require Import Ascii String.
From stdpp Require Import prelude strings list gmap.
From S2P Require Import Prelude RelayQueue RelayLive.

Module RelayLiveOrder.

Import RelayQueue RelayLive.

Local Open Scope Z_scope.

(** ** The frames of a session *)

Definition frame : Type := LiveState * Envelope.
Definition fam (x : frame) : string := fst (key_of (fst x)).
Definition gen (x : frame) : Z := SessionGeneration (fst x).
Definition conv (x : frame) : string := lv_ConversationID (fst x).
Definition is_clear (x : frame) : bool := SessionStateCleared (snd x).
Definition is_reply (x : frame) : Prop := is_Some (InReplyTo (lv_Envelope (fst x))).

Definition frames (l : list event) : list frame := omap (fun v => match v with Framed r e => Some (r, e) | _ => None end) l.

(** What a frame finds before it: no later generation of its conversation; if
    it is a clear, no other of its generation; if it is a reading, the clear of
    its generation and only earlier revisions, or, for a reply, its own. *)
Record fits (l : list frame) (x : frame) : Prop := {
  fits_gen : forall y, y ∈ l -> conv y = conv x -> gen y <= gen x;
  fits_clear : is_clear x = true -> forall y, y ∈ l -> conv y = conv x -> gen y = gen x -> fam y = fam x -> is_clear y = false;
  fits_first : is_clear x = false -> exists y, y ∈ l /\ conv y = conv x /\ gen y = gen x /\ fam y = fam x /\ is_clear y = true;
  fits_rev : is_clear x = false -> forall y, y ∈ l -> conv y = conv x -> gen y = gen x -> key_of (fst y) = key_of (fst x) ->
    is_clear y = false -> Revision (fst y) < Revision (fst x) \/ Revision (fst y) = Revision (fst x) /\ is_reply x;
}.

Inductive ordered : list frame -> Prop :=
| ordered_nil : ordered []
| ordered_snoc l x : ordered l -> fits l x -> ordered (l ++ [x]).

(** What a phone shows of a conversation: a clear takes a family's readings
    away, a reading takes its key's place. *)
Definition show_step (c : string) (m : gmap liveReadingKey LiveState) (x : frame) : gmap liveReadingKey LiveState :=
  if bool_decide (conv x = c)
  then if is_clear x then filter (fun p => fst (fst p) <> fam x) m else <[key_of (fst x) := fst x]> m
  else m.
Definition shown (c : string) (l : list frame) : gmap liveReadingKey LiveState := foldl (show_step c) ∅ l.

(** A reading shown is the newest there is of its key, of the newest
    generation there is of its family. *)
Definition newest (c : string) (l : list frame) (k : liveReadingKey) (r : LiveState) : Prop :=
  (forall y, y ∈ l -> conv y = c -> fam y = fst k -> gen y <= SessionGeneration r) /\
  (forall y, y ∈ l -> conv y = c -> key_of (fst y) = k -> is_clear y = false -> gen y = SessionGeneration r ->
     Revision (fst y) <= Revision r).

Lemma shown_snoc c l x : shown c (l ++ [x]) = show_step c (shown c l) x.
Proof. unfold shown. by rewrite foldl_app. Qed.

Lemma shown_newest c l k r : ordered l -> shown c l !! k = Some r -> newest c l k r.
Proof.
  intros Hl. revert k r. induction Hl as [|l x Hl IH Hx]; intros k r; [done|]. rewrite shown_snoc. unfold show_step.
  case_bool_decide as Hc; [destruct (is_clear x) eqn:Hcl|].
  - intros [Hr Hk]%map_lookup_filter_Some. cbn [fst] in Hk. destruct (IH _ _ Hr) as [H1 H2]. split.
    + intros y [Hy| ->%list_elem_of_singleton]%elem_of_app; [by apply H1|]. congruence.
    + intros y [Hy| ->%list_elem_of_singleton]%elem_of_app; [by apply H2|]. congruence.
  - destruct (decide (key_of (fst x) = k)) as [<-|Hk]; simplify_map_eq.
    + intros [= <-]. destruct Hx as [Hgen _ _ Hrev]. split.
      * intros y [Hy| ->%list_elem_of_singleton]%elem_of_app; [by intros ? _; apply Hgen; congruence|]. intros _ _. done.
      * intros y [Hy| ->%list_elem_of_singleton]%elem_of_app Hyc Hyk Hyr Hyg; [|lia].
        destruct (Hrev Hcl y Hy ltac:(congruence) Hyg Hyk Hyr); lia.
    + intros Hr. destruct (IH _ _ Hr) as [H1 H2]. destruct (fits_first _ _ Hx Hcl) as (z & Hz & Hzc & Hzg & Hzf & _). split.
      * intros y [Hy| ->%list_elem_of_singleton]%elem_of_app Hyc Hyf; [by apply H1|]. rewrite <- Hzg. apply H1; congruence.
      * intros y [Hy| ->%list_elem_of_singleton]%elem_of_app; [by apply H2|]. congruence.
  - intros Hr. destruct (IH _ _ Hr) as [H1 H2].
    split; intros y [Hy| ->%list_elem_of_singleton]%elem_of_app; auto; congruence.
Qed.

(** ** The pending slot *)

(** The slot after some events; [None] where a reading would have been parked on
    another or taken from an empty slot. *)
Definition slot_step (p : option (option LiveState)) (v : event) : option (option LiveState) :=
  match p, v with
  | Some None, Parked r => Some (Some r)
  | Some (Some _), Taken => Some None
  | Some p, Framed _ _ => Some p
  | _, _ => None
  end.
Definition slot (l : list event) : option (option LiveState) := foldl slot_step (Some None) l.

Lemma slot_snoc l v : slot (l ++ [v]) = slot_step (slot l) v.
Proof. unfold slot. by rewrite foldl_app. Qed.

Lemma frames_snoc l v : frames (l ++ [v]) = frames l ++ match v with Framed r e => [(r, e)] | _ => [] end.
Proof. unfold frames. rewrite omap_app. by destruct v. Qed.

(** ** What the watermarks say of the frames *)

Definition exact_for (o : option liveWatermark) (l : list frame) (c : string) : Prop :=
  match o with
  | None => forall y, y ∈ l -> conv y <> c
  | Some w =>
      (forall y, y ∈ l -> conv y = c -> gen y <= generation w /\
         (gen y = generation w -> if is_clear y then fam y ∈ cleared w
                                  else Revision (fst y) <= default 0 (revisions w !! key_of (fst y)))) /\
      (forall f, f ∈ cleared w -> exists y, y ∈ l /\ conv y = c /\ gen y = generation w /\ fam y = f /\ is_clear y = true)
  end.
Definition exact (s : session) : Prop := forall c, exact_for (liveWatermarks s !! c) (frames (log s)) c.

(** A frame that was judged by its watermark fits, and is then known to it. *)
Definition marked (e : Envelope) (r : LiveState) (w : liveWatermark) : liveWatermark :=
  if SessionStateCleared e then mark_cleared (fst (key_of r)) w else mark_revision (key_of r) (Revision r) w.

Section judged.
Context (s : session) (r : LiveState) (w : liveWatermark) (e : Envelope).
Hypothesis Hexact : exact s.
Hypothesis Hw : watermark s r = Some w.
Hypothesis Hover : overtaken w r = false.

(** The frame is a clear where one is needed, and the reading itself after. *)
Hypothesis Hclear : SessionStateCleared e = true -> fst (key_of r) ∉ cleared w.
Hypothesis Hread : SessionStateCleared e = false -> SessionStateCleared (lv_Envelope r) = false /\ fst (key_of r) ∈ cleared w.

Lemma judged_generation : generation w = SessionGeneration r.
Proof.
  pose proof Hw as H. unfold watermark in H. destruct (liveWatermarks s !! _) as [w0|]; [|by injection H as <-].
  repeat (case_match; reflect_bools); simplify_eq/=; lia.
Qed.

(** The watermark that was there is of this generation, or of an earlier one. *)
Lemma judged_cases :
  (liveWatermarks s !! lv_ConversationID r = Some w) \/
  (w = MkWatermark (SessionGeneration r) ∅ ∅ /\
   forall y, y ∈ frames (log s) -> conv y = lv_ConversationID r -> gen y < SessionGeneration r).
Proof.
  pose proof (Hexact (lv_ConversationID r)) as Hx. pose proof Hw as Hw'. unfold watermark in Hw'.
  destruct (liveWatermarks s !! lv_ConversationID r) as [w0|].
  - destruct Hx as [Hx _]. destruct (Z.ltb_spec (SessionGeneration r) (generation w0)); [done|].
    destruct (Z.ltb_spec (generation w0) (SessionGeneration r)); [right|left; done].
    split; [congruence|]. intros y Hy Hc. destruct (Hx y Hy Hc). lia.
  - right. split; [congruence|]. intros y Hy Hc. by destruct (Hx y Hy).
Qed.

Lemma judged_rev :
  SessionStateCleared (lv_Envelope r) = false ->
  default 0 (revisions w !! key_of r) < Revision r \/
  default 0 (revisions w !! key_of r) = Revision r /\ is_Some (InReplyTo (lv_Envelope r)).
Proof.
  intros Hc. pose proof Hover as Ho. unfold overtaken in Ho. rewrite Hc in Ho. apply orb_false_iff in Ho as [H1 H2]. reflect_bools.
  destruct (decide (default 0 (revisions w !! key_of r) = Revision r)); [right|left; lia].
  split; [done|]. apply andb_false_iff in H2 as [H|H]; reflect_bools; [lia|done].
Qed.

Lemma judged_fits : fits (frames (log s)) (r, e).
Proof.
  pose proof judged_generation as Hg. pose proof (Hexact (lv_ConversationID r)) as Hx.
  destruct judged_cases as [E|[-> Hlt]].
  - rewrite E in Hx. destruct Hx as [H1 H2]. constructor; unfold conv, gen, fam, is_clear in *; cbn [fst snd] in *.
    + intros y Hy Hc. destruct (H1 y Hy Hc). lia.
    + intros Hcl y Hy Hc Hgy Hf. destruct (H1 y Hy Hc) as [_ H]. specialize (H ltac:(lia)).
      destruct (SessionStateCleared (snd y)); [|done]. exfalso. apply (Hclear Hcl). by rewrite <- Hf.
    + intros Hcl. destruct (Hread Hcl) as [_ Hin]. destruct (H2 _ Hin) as (y & ? & ? & ? & ? & ?). exists y.
      split_and!; try done. lia.
    + intros Hcl y Hy Hc Hgy Hk Hyc. destruct (H1 y Hy Hc) as [_ H]. specialize (H ltac:(lia)). rewrite Hyc, Hk in H.
      destruct (Hread Hcl) as [Hr _]. destruct (judged_rev Hr) as [|[? ?]]; [left; lia|].
      destruct (decide (Revision (fst y) = Revision r)); [by right|left; lia].
  - constructor; unfold conv, gen, fam, is_clear in *; cbn [fst snd] in *.
    + intros y Hy Hc. specialize (Hlt y Hy Hc). lia.
    + intros _ y Hy Hc Hgy. specialize (Hlt y Hy Hc). lia.
    + intros Hcl. destruct (Hread Hcl) as [_ Hin]. by apply not_elem_of_empty in Hin.
    + intros Hcl y Hy Hc Hgy. specialize (Hlt y Hy Hc). lia.
Qed.

(** The watermark after the frame knows all there is. *)
Lemma judged_exact : forall c, exact_for (<[lv_ConversationID r := marked e r w]> (liveWatermarks s) !! c) (frames (log s) ++ [(r, e)]) c.
Proof.
  pose proof judged_generation as Hg. intros c. pose proof (Hexact c) as Hx.
  destruct (decide (c = lv_ConversationID r)) as [->|Hne].
  2: { rewrite lookup_insert_ne by done. unfold exact_for in *. destruct (liveWatermarks s !! c) as [w0|].
       - destruct Hx as [H1 H2]. split.
         + intros y [Hy| ->%list_elem_of_singleton]%elem_of_app; [by apply H1|done].
         + intros f Hf. destruct (H2 f Hf) as (y & ? & ?). exists y. rewrite elem_of_app. naive_solver.
       - intros y [Hy| ->%list_elem_of_singleton]%elem_of_app; [by apply Hx|done]. }
  rewrite lookup_insert_eq. cbn [exact_for].
  assert ((forall y, y ∈ frames (log s) -> conv y = lv_ConversationID r -> gen y <= generation w /\
      (gen y = generation w -> if is_clear y then fam y ∈ cleared w else Revision (fst y) <= default 0 (revisions w !! key_of (fst y)))) /\
    (forall f, f ∈ cleared w -> exists y, y ∈ frames (log s) /\ conv y = lv_ConversationID r /\ gen y = generation w /\ fam y = f /\ is_clear y = true))
    as [H1 H2].
  { destruct judged_cases as [E|[-> Hlt]]; [by rewrite E in Hx|]. split.
    - intros y Hy Hc. specialize (Hlt y Hy Hc). cbn [generation]. split; lia.
    - intros f Hf. by apply not_elem_of_empty in Hf. }
  assert (generation (marked e r w) = generation w) as -> by (unfold marked; by case_match).
  unfold marked. destruct (SessionStateCleared e) eqn:Ecl; cbn [mark_cleared mark_revision cleared revisions]; split.
  - intros y [Hy| ->%list_elem_of_singleton]%elem_of_app Hc.
    + destruct (H1 y Hy Hc) as [? H]. split; [done|]. intros Hgy. specialize (H Hgy). destruct (is_clear y); [set_solver|done].
    + unfold gen, is_clear, fam. cbn [fst snd]. rewrite Ecl. split; [lia|set_solver].
  - intros f [->%elem_of_singleton|Hf]%elem_of_union.
    + exists (r, e). rewrite elem_of_app, list_elem_of_singleton. unfold conv, gen, is_clear, fam. cbn [fst snd]. auto.
    + destruct (H2 f Hf) as (y & ? & ?). exists y. rewrite elem_of_app. naive_solver.
  - destruct (Hread eq_refl) as [Hr _]. intros y [Hy| ->%list_elem_of_singleton]%elem_of_app Hc.
    + destruct (H1 y Hy Hc) as [? H]. split; [done|]. intros Hgy. specialize (H Hgy). destruct (is_clear y); [done|].
      destruct (decide (key_of (fst y) = key_of r)) as [E|]; [|by rewrite lookup_insert_ne].
      rewrite E in *. rewrite lookup_insert_eq. cbn. destruct (judged_rev Hr) as [|[]]; lia.
    + unfold gen, is_clear. cbn [fst snd]. rewrite Ecl, lookup_insert_eq. cbn. lia.
  - intros f Hf. destruct (H2 f Hf) as (y & ? & ?). exists y. rewrite elem_of_app. naive_solver.
Qed.

(** A reading that was withheld at the last moment only raises the watermark. *)
Lemma judged_withheld : SessionStateCleared e = false ->
  forall c, exact_for (<[lv_ConversationID r := marked e r w]> (liveWatermarks s) !! c) (frames (log s)) c.
Proof.
  intros Ecl c. destruct (Hread Ecl) as [Hr Hin]. pose proof (Hexact c) as Hx.
  destruct (decide (c = lv_ConversationID r)) as [->|Hne]; [|by rewrite lookup_insert_ne].
  rewrite lookup_insert_eq. cbn [exact_for]. destruct judged_cases as [E|[-> Hlt]]; [|by apply not_elem_of_empty in Hin].
  rewrite E in Hx. destruct Hx as [H1 H2]. unfold marked. rewrite Ecl. cbn [mark_revision generation cleared revisions].
  split; [|done]. intros y Hy Hc. destruct (H1 y Hy Hc) as [? H]. split; [done|]. intros Hgy. specialize (H Hgy).
  destruct (is_clear y); [done|]. destruct (decide (key_of (fst y) = key_of r)) as [Ek|]; [|by rewrite lookup_insert_ne].
  rewrite Ek in *. rewrite lookup_insert_eq. cbn. destruct (judged_rev Hr) as [|[]]; lia.
Qed.

End judged.

End RelayLiveOrder.
