(* ===== verification/RelayLiveProps.v ===== *)
(** * What a phone is shown of the live state ([internal/relay])

    The readings a session hands over come in order of generation and revision,
    each family behind one clear per generation, and none that was parked
    behind its clear is lost to another: an invariant of the manager's loop,
    with producers at every lock. *)
From Stdlib Require Import Ascii String.
From stdpp Require Import prelude strings list gmap.
From S2P Require Import Prelude RelayQueue RelayQueueProps RelayLive RelayLiveOrder.

Module RelayLiveProps.

Import RelayQueue RelayQueueProps RelayLive RelayLiveOrder.

Local Open Scope Z_scope.

(** ** Steps that leave the readings alone *)

(** [queue c] has overflowed. *)
Definition over (w : world) (c : string) : Prop := exists q, queues w !! c = Some q /\ overflowed q = true.

Definition same_live (s s' : session) : Prop :=
  livePending s' = livePending s /\ liveWatermarks s' = liveWatermarks s /\ log s' = log s.

(** No session appears, those that remain keep their readings, a queue that
    has overflowed stays so for as long as its session does, and queues stay
    well formed. *)
Definition kept (w w' : world) : Prop := forall c s', sessions w' !! c = Some s' ->
  (exists s, sessions w !! c = Some s /\ same_live s s') /\ (over w c -> over w' c).
Definition queues_ok (w : world) : Prop := forall c q, queues w !! c = Some q -> queue_ok q.
Definition steady (w w' : world) : Prop := kept w w' /\ (queues_ok w -> queues_ok w').

#[export] Instance steady_po : PreOrder steady.
Proof.
  split.
  - intros w. split; [|done]. intros c s Hs. split; [|done]. by exists s.
  - intros w1 w2 w3 [H12 Q12] [H23 Q23]. split; [|auto]. intros c s3 Hs3. destruct (H23 c s3 Hs3) as [(s2 & Hs2 & E2) Ho2].
    destruct (H12 c s2 Hs2) as [(s1 & Hs1 & E1) Ho1]. split; [|auto]. exists s1. split; [done|].
    unfold same_live in *. intuition congruence.
Qed.

(** Only the sessions and the queues count. *)
Lemma steady_core w w' : sessions w' = sessions w -> queues w' = queues w -> steady w w'.
Proof.
  intros Es Eq. split; [|unfold queues_ok; by rewrite Eq]. intros c s. rewrite Es. intros Hs. split; [by exists s|].
  unfold over. by rewrite Eq.
Qed.

Lemma steady_queues w w' : sessions w' = sessions w -> (forall c, over w c -> over w' c) -> (queues_ok w -> queues_ok w') -> steady w w'.
Proof. intros Es Ho Hq. split; [|done]. intros c s. rewrite Es. intros Hs. split; [by exists s|apply Ho]. Qed.

Lemma steady_alter w c f :
  (forall s, same_live s (f s)) -> steady w (with_sessions (alter f c (sessions w)) w).
Proof.
  intros Hf. split; [|done]. intros c' s. cbn [with_sessions sessions]. destruct (decide (c = c')) as [<-|Hne].
  - rewrite lookup_alter_eq. destruct (sessions w !! c) as [s0|] eqn:E; [|done]. intros [= <-]. split; [by exists s0|done].
  - rewrite lookup_alter_ne by done. intros Hs. split; [by exists s|done].
Qed.

Lemma steady_delete w c : steady w (with_sessions (delete c (sessions w)) w).
Proof.
  split; [|done]. intros c' s Hs. cbn in Hs. apply lookup_delete_Some in Hs as [Hne Hs]. split; [by exists s|done].
Qed.

(** With its session gone, a queue may go. *)
Lemma steady_gone w c : sessions w !! c = None -> steady w (with_queues (delete c (queues w)) w).
Proof.
  intros Hc. split.
  - intros c' s Hs. cbn in Hs. split; [by exists s|]. intros (q & Hq & Ho). exists q. split; [|done].
    cbn. rewrite lookup_delete_ne; congruence.
  - intros H c' q Hq. cbn in Hq. apply lookup_delete_Some in Hq as [_ Hq]. by apply (H c').
Qed.

Lemma producer_sessions w p : sessions (run_producer w p) = sessions w.
Proof. destruct p; cbn [run_producer]; [case_match|..]; done. Qed.

Lemma enqueueSource_over e l r p q : overflowed q = true -> overflowed (fst (enqueueSource e l r p q)) = true.
Proof. intros H. unfold enqueueSource. by rewrite H. Qed.

Lemma retire_over q : overflowed (retire_gap q) = true.
Proof. unfold retire_gap. by destruct (overflowed q) eqn:E. Qed.

Lemma producer_over w p c : over w c -> over (run_producer w p) c.
Proof.
  intros (q & Hq & Ho). destruct p as [c' e l r p|n|c'|c']; cbn [run_producer].
  - destruct (queues w !! c') as [q'|] eqn:E; [|by exists q]. unfold over. cbn [with_drainCh with_queues queues].
    destruct (decide (c' = c)) as [->|Hne]; [|exists q; by rewrite lookup_insert_ne].
    simplify_eq. eexists. split; [apply lookup_insert_eq|by apply enqueueSource_over].
  - exists (flush_mark n q). cbn [with_drainCh with_queues queues]. by rewrite lookup_fmap, Hq.
  - unfold over. cbn [with_queues queues]. destruct (decide (c' = c)) as [->|Hne]; [|exists q; by rewrite lookup_alter_ne].
    exists (retire_gap q). rewrite lookup_alter_eq; setoid_rewrite Hq; split; [done|apply retire_over].
  - unfold over. cbn [with_queues queues]. destruct (decide (c' = c)) as [->|Hne]; [|exists q; by rewrite lookup_alter_ne].
    exists (latch q). rewrite lookup_alter_eq; setoid_rewrite Hq; done.
Qed.

Definition others (ps : list producer) (w : world) : world := foldl run_producer w ps.

Lemma others_sessions ps w : sessions (others ps w) = sessions w.
Proof. revert w. induction ps as [|p ps IH]; intros w; [done|]. cbn. unfold others in IH. by rewrite IH, producer_sessions. Qed.

Lemma others_over ps w c : over w c -> over (others ps w) c.
Proof. revert w. induction ps as [|p ps IH]; intros w H; [done|]. cbn. apply IH. by apply producer_over. Qed.

Lemma producer_queues w p : queues_ok w -> queues_ok (run_producer w p).
Proof.
  intros H c q. destruct p as [c' e l r p|n|c'|c']; cbn [run_producer].
  - destruct (queues w !! c') as [q'|] eqn:E; [|apply H]. cbn [with_drainCh with_queues queues].
    intros [[<- <-]|[_ Hq]]%lookup_insert_Some; [|by apply (H c)]. apply (qstep_ok (QPush e l r p)). by apply (H c').
  - cbn [with_drainCh with_queues queues]. rewrite lookup_fmap. intros (q' & Hq & ->)%fmap_Some. apply (qstep_ok (QMark n)). by apply (H c).
  - cbn [with_queues queues]. destruct (decide (c' = c)) as [->|]; [|rewrite lookup_alter_ne by done; apply H].
    rewrite lookup_alter_eq. intros (q' & Hq & ->)%fmap_Some. apply (qstep_ok QRetire). by apply (H c).
  - cbn [with_queues queues]. destruct (decide (c' = c)) as [->|]; [|rewrite lookup_alter_ne by done; apply H].
    rewrite lookup_alter_eq. intros (q' & Hq & ->)%fmap_Some. apply (qstep_ok QLatch). by apply (H c).
Qed.

Lemma others_queues ps w : queues_ok w -> queues_ok (others ps w).
Proof. revert w. induction ps as [|p ps IH]; intros w H; [done|]. cbn. apply IH. by apply producer_queues. Qed.

Lemma others_steady ps w : steady w (others ps w).
Proof. apply steady_queues; [apply others_sessions|intros c; apply others_over|apply others_queues]. Qed.

(** A marker at the head stays there. *)
Definition head_marker (w : world) (c : string) : Prop :=
  exists q x n, queues w !! c = Some q /\ head (items q) = Some x /\ barrier x = Some n /\ droppable x = false.

Lemma head_app {A} (l k : list A) x : head l = Some x -> head (l ++ k) = Some x.
Proof. by destruct l. Qed.

Lemma enqueueSource_head e l r p q x :
  head (items q) = Some x -> droppable x = false -> head (items (fst (enqueueSource e l r p q))) = Some x.
Proof.
  intros Hx Hd. unfold enqueueSource. repeat case_match; cbn [fst append_item count_drop items]; try done; try by apply head_app.
  apply head_app. unfold evict. case_match; [|done]. cbn [items].
  apply IndexFunc_Some in H1 as [(y & Hy & Hyd) _]. destruct (items q) as [|z t]; [done|]. cbn in Hx. injection Hx as ->.
  destruct n as [|n]; cbn in *; [congruence|done].
Qed.

Lemma producer_head w p c : head_marker w c -> head_marker (run_producer w p) c.
Proof.
  intros (q & x & n & Hq & Hx & Hb & Hd). destruct p as [c' e l r p|m|c'|c']; cbn [run_producer].
  - destruct (queues w !! c') as [q'|] eqn:E; [|by exists q, x, n]. unfold head_marker. cbn [with_drainCh with_queues queues].
    destruct (decide (c' = c)) as [->|Hne]; [|exists q, x, n; by rewrite lookup_insert_ne].
    simplify_eq. eexists _, x, n. split; [apply lookup_insert_eq|]. split; [by apply enqueueSource_head|done].
  - exists (flush_mark m q), x, n. cbn [with_drainCh with_queues queues]. rewrite lookup_fmap, Hq. split; [done|].
    split; [by apply head_app|done].
  - unfold head_marker. cbn [with_queues queues]. destruct (decide (c' = c)) as [->|Hne]; [|exists q, x, n; by rewrite lookup_alter_ne].
    exists (retire_gap q), x, n. rewrite lookup_alter_eq; setoid_rewrite Hq; split; [done|]. unfold retire_gap. by destruct (overflowed q).
  - unfold head_marker. cbn [with_queues queues]. destruct (decide (c' = c)) as [->|Hne]; [|exists q, x, n; by rewrite lookup_alter_ne].
    exists (latch q), x, n. rewrite lookup_alter_eq; setoid_rewrite Hq; done.
Qed.

Lemma others_head ps w c : head_marker w c -> head_marker (others ps w) c.
Proof. revert w. induction ps as [|p ps IH]; intros w H; [done|]. cbn. apply IH. by apply producer_head. Qed.

(** ** Handlers *)

(** A handler leaves the readings alone, wherever it runs. *)
Definition calm {A} (m : M A) : Prop := forall w, steady w (snd (m w)).

Lemma calm_ret {A} (a : A) : calm (ret a).
Proof. by intros w. Qed.

Lemma calm_bind {A B} (m : M A) (f : A -> M B) : calm m -> (forall a, calm (f a)) -> calm (bind m f).
Proof. intros Hm Hf w. unfold bind. specialize (Hm w). destruct (m w) as [a w1]. etrans; [exact Hm|apply Hf]. Qed.

Lemma calm_modify f : (forall w, steady w (f w)) -> calm (modify f).
Proof. intros Hf w. apply Hf. Qed.

Lemma calm_upd c f : (forall s, same_live s (f s)) -> calm (upd c f).
Proof. intros Hf. apply calm_modify. intros w. by apply steady_alter. Qed.

Lemma calm_get : calm get.
Proof. by intros w. Qed.

Lemma calm_session_of c : calm (session_of c).
Proof. by intros w. Qed.

Create HintDb calm discriminated.
#[local] Hint Resolve calm_ret calm_get calm_session_of : calm.
#[local] Hint Extern 1 (calm (upd _ (set_hosted _))) => apply calm_upd; done : calm.
#[local] Hint Extern 1 (calm (upd _ (set_snapshot _))) => apply calm_upd; done : calm.
#[local] Hint Extern 1 (calm (modify (with_drainCh _))) => apply calm_modify; intros; by apply steady_core : calm.
#[local] Hint Extern 1 (calm (modify (close_markers _ _))) => apply calm_modify; intros; by apply steady_core : calm.

Ltac calm := repeat first
  [ solve [auto 2 with calm nocore]
  | apply calm_bind; [|intros ?]
  | progress cbn beta iota zeta
  | match goal with |- calm (match ?x with _ => _ end) => destruct x end ].

(** A handler's run, from the state it starts in. *)
Definition wp {A} (m : M A) (Q : A -> world -> Prop) (w : world) : Prop := Q (fst (m w)) (snd (m w)).

Lemma wp_bind {A B} (m : M A) (f : A -> M B) Q w : wp m (fun a => wp (f a) Q) w -> wp (bind m f) Q w.
Proof. unfold wp, bind. by destruct (m w). Qed.

Lemma wp_mono {A} (m : M A) (P Q : A -> world -> Prop) w : wp m P w -> (forall a w', P a w' -> Q a w') -> wp m Q w.
Proof. unfold wp. auto. Qed.

Lemma wp_calm {A} (m : M A) (Q : A -> world -> Prop) w : calm m -> (forall a w', steady w w' -> Q a w') -> wp m Q w.
Proof. unfold wp, calm. auto. Qed.

Section handlers.
Context (js : json) (orc : nat -> answer).

Lemma calm_ask : calm (ask orc).
Proof. intros w. by apply steady_core. Qed.

Lemma calm_yes : calm (yes orc).
Proof. apply calm_bind; [apply calm_ask|intros a; apply calm_ret]. Qed.

Lemma calm_sync : calm (sync orc).
Proof. apply calm_bind; [apply calm_ask|]. intros a. apply calm_modify. intros w. apply others_steady. Qed.
#[local] Hint Resolve calm_ask calm_yes calm_sync : calm.

Lemma calm_queue_of c : calm (queue_of orc c).
Proof. unfold queue_of. calm. Qed.
#[local] Hint Resolve calm_queue_of : calm.

Lemma calm_pushRetired c : calm (pushRetired orc c).
Proof. unfold pushRetired. calm. Qed.

Lemma calm_hostedPushAvailable c : calm (hostedPushAvailable orc c).
Proof. unfold hostedPushAvailable. calm. Qed.

Lemma calm_reserve c : calm (reserveHostedPush orc c).
Proof. unfold reserveHostedPush. calm. Qed.

Lemma calm_release c : calm (releaseHostedPush orc c).
Proof. unfold releaseHostedPush. calm. Qed.

Lemma calm_visit l : calm (visit orc l).
Proof. unfold visit. calm. Qed.

(** A queue read at a lock is there after, and the sessions are as before. *)
Lemma wp_queue_of c w :
  wp (queue_of orc c) (fun q w' => sessions w' = sessions w /\ steady w w' /\ q = queues w' !! c /\ (head_marker w c -> head_marker w' c)) w.
Proof.
  unfold queue_of, sync, ask, modify, get, bind, ret, wp. cbn.
  change (foldl run_producer (next_tick w) (a_others (orc (tick w)))) with (others (a_others (orc (tick w))) (next_tick w)).
  split; [by rewrite others_sessions|]. split; [|split; [done|]].
  - etrans; [|apply others_steady]. by apply steady_core.
  - intros H. by apply others_head.
Qed.

Lemma wp_pushRetired c w :
  wp (pushRetired orc c) (fun b w' => sessions w' = sessions w /\ steady w w' /\ (b = true <-> over w' c)) w.
Proof.
  apply wp_bind. eapply wp_mono; [apply wp_queue_of|]. intros q w' (Es & Hst & -> & _). unfold wp, ret. cbn.
  split; [done|]. split; [done|]. unfold over. destruct (queues w' !! c); naive_solver.
Qed.

(** The session of a connection is gone, or its queue has overflowed. *)
Definition blocked (w : world) (c : string) : Prop := sessions w !! c = None \/ over w c.

Lemma blocked_steady w w' c : blocked w c -> steady w w' -> blocked w' c.
Proof.
  intros Hb [Hk _]. unfold blocked. destruct (sessions w' !! c) as [s'|] eqn:E; [right|by left].
  destruct (Hk c s' E) as [(s & Hs & _) Ho]. destruct Hb; [congruence|auto].
Qed.

Lemma wp_teardown c w : wp (teardown orc c) (fun _ w' => steady w w' /\ sessions w' !! c = None) w.
Proof.
  unfold teardown. apply wp_bind. unfold wp at 1. cbn. destruct (sessions w !! c) as [s|] eqn:E; [|by unfold wp].
  apply wp_bind. unfold wp at 1. cbn. set (w1 := with_sessions _ _). assert (steady w w1) as H1 by apply steady_delete.
  assert (sessions w1 !! c = None) as Hn by (cbn; apply lookup_delete_eq).
  apply wp_bind. eapply wp_mono; [apply wp_queue_of|]. intros q w2 (Es & H2 & _). apply wp_bind. unfold wp. cbn.
  set (w3 := close_markers _ _ _). assert (steady w2 w3) as H3 by by apply steady_core.
  assert (sessions w3 !! c = None) as Hn3 by (cbn; by rewrite Es).
  split; [|exact Hn3]. etrans; [exact H1|]. etrans; [exact H2|]. etrans; [exact H3|]. exact (steady_gone w3 c Hn3).
Qed.

Lemma calm_teardown c : calm (teardown orc c).
Proof. intros w. apply (wp_teardown c w). Qed.
#[local] Hint Resolve calm_pushRetired calm_hostedPushAvailable calm_reserve calm_release calm_visit calm_teardown : calm.

Lemma calm_handlePushOverflow c : calm (handlePushOverflow orc c).
Proof. unfold handlePushOverflow. calm. Qed.
#[local] Hint Resolve calm_handlePushOverflow : calm.

Lemma wp_closeHostedOverflow c w : wp (closeHostedOverflow orc c) (fun _ w' => steady w w' /\ blocked w' c) w.
Proof.
  unfold closeHostedOverflow. apply wp_bind. eapply wp_mono; [apply wp_queue_of|]. intros q w1 (_ & H1 & -> & _).
  destruct (queues w1 !! c) as [q|] eqn:E.
  - apply wp_bind. unfold wp at 1. cbn. set (w2 := with_queues _ _).
    assert (over w2 c) as Ho by (eexists; split; [apply lookup_insert_eq|done]).
    assert (steady w1 w2) as H2.
    { apply steady_queues; [done| |].
      - intros c' (q' & Hq & Hq'). destruct (decide (c = c')) as [<-|]; [done|]. exists q'. cbn. by rewrite lookup_insert_ne.
      - intros Hok c' q' Hq. cbn in Hq. apply lookup_insert_Some in Hq as [[<- <-]|[_ Hq]]; [|by apply (Hok c')].
        destruct (Hok c q E). by constructor. }
    apply wp_calm; [auto with calm|]. intros _ w3 H3. split; [by rewrite H1, H2|].
    apply (blocked_steady w2); [by right|done].
  - eapply wp_mono; [apply wp_teardown|]. intros _ w2 [H2 Hn]. split; [by rewrite H1|by left].
Qed.

Lemma calm_closeHostedOverflow c : calm (closeHostedOverflow orc c).
Proof. intros w. apply (wp_closeHostedOverflow c w). Qed.
#[local] Hint Resolve calm_closeHostedOverflow : calm.

(** What becomes of a frame that is handed over: it is noted, or the session is
    gone or about to go. *)
Definition handed (c : string) (v : event) (w w' : world) : Prop :=
  (steady w w' /\ blocked w' c) \/
  exists w1, steady w w1 /\ steady (with_sessions (alter (add_log v) c (sessions w1)) w1) w'.

Lemma handed_steady c v w0 w w' w'' : steady w0 w -> handed c v w w' -> steady w' w'' -> handed c v w0 w''.
Proof.
  intros H0 [[H1 Hb]|(w1 & H1 & H2)] H3; [left|right].
  - split; [by rewrite H0, H1|by apply (blocked_steady w')].
  - exists w1. split; [by rewrite H0|by rewrite H2].
Qed.

Lemma wp_hostedEnqueue c v w : wp (hostedEnqueue orc c (Some v)) (fun _ w' => handed c v w w') w.
Proof.
  unfold hostedEnqueue. apply wp_bind. unfold wp at 1. cbn. destruct (sessions w !! c) as [s|] eqn:E.
  2: { unfold wp. left. split; [done|by left]. }
  apply wp_bind. eapply wp_mono; [apply wp_pushRetired|]. intros r w1 (_ & H1 & Hr). destruct r.
  { apply wp_calm; [auto with calm|]. intros _ w2 H2. left. split; [by rewrite H1|].
    apply (blocked_steady w1); [|done]. right. by apply Hr. }
  apply wp_bind. apply wp_calm; [auto with calm|]. intros overflow w2 H2.
  apply wp_bind. apply wp_calm; [destruct overflow; auto with calm|]. intros _ w3 H3.
  apply wp_bind. apply wp_calm; [auto with calm|]. intros full w4 H4.
  assert (steady w w4) as Hw4 by (by rewrite H1, H2, H3).
  destruct (overflow || full).
  { eapply wp_mono; [apply wp_closeHostedOverflow|]. intros _ w5 [H5 Hb]. left. split; [by rewrite Hw4|done]. }
  apply wp_bind. apply wp_calm; [destruct (hosted s) as [[]|]; auto with calm|]. intros _ w5 H5.
  apply wp_bind. unfold wp at 1. cbn.
  apply wp_calm; [calm|]. intros _ w6 H6. right. exists w5. split; [by rewrite Hw4|done].
Qed.

Lemma calm_hostedEnqueue c : calm (hostedEnqueue orc c None).
Proof. unfold hostedEnqueue. calm. Qed.

Lemma calm_pushSource c e l r p : calm (pushSource orc c e l r p).
Proof.
  unfold pushSource. calm. apply calm_modify. intros w. exact (others_steady [PPush c e l r p] w).
Qed.
#[local] Hint Resolve calm_hostedEnqueue calm_pushSource : calm.

Lemma calm_hostedEnvelope c e : calm (hostedEnvelope orc c e None).
Proof. unfold hostedEnvelope. calm. Qed.
#[local] Hint Resolve calm_hostedEnvelope : calm.

(** Answers change neither the sessions nor the queues. *)
Definition quiet {A} (m : M A) : Prop := forall w, sessions (snd (m w)) = sessions w /\ queues (snd (m w)) = queues w.

Lemma quiet_ret {A} (a : A) : quiet (ret a).
Proof. by intros w. Qed.

Lemma quiet_bind {A B} (m : M A) (f : A -> M B) : quiet m -> (forall a, quiet (f a)) -> quiet (bind m f).
Proof.
  intros Hm Hf w. unfold bind. specialize (Hm w). destruct (m w) as [a w1]. destruct (Hf a w1) as [E1 E2].
  cbn in Hm. destruct Hm as [<- <-]. done.
Qed.

Lemma quiet_ask : quiet (ask orc).
Proof. by intros w. Qed.

Lemma quiet_yes : quiet (yes orc).
Proof. apply quiet_bind; [apply quiet_ask|intros; apply quiet_ret]. Qed.

Lemma quiet_session_of c : quiet (session_of c).
Proof. by intros w. Qed.

Ltac quiet := repeat first
  [ apply quiet_ret | apply quiet_ask | apply quiet_yes | apply quiet_session_of
  | apply quiet_bind; [|intros ?]
  | progress cbn beta iota zeta
  | match goal with |- quiet (match ?x with _ => _ end) => destruct x end ].

Lemma quiet_calm {A} (m : M A) : quiet m -> calm m.
Proof. intros H w. destruct (H w). by apply steady_core. Qed.

Lemma wp_quiet {A} (m : M A) (Q : A -> world -> Prop) w :
  quiet m -> (forall a w', sessions w' = sessions w -> queues w' = queues w -> Q a w') -> wp m Q w.
Proof. intros Hm HQ. destruct (Hm w). by apply HQ. Qed.

Lemma quiet_liveWithheld s conv : quiet (liveWithheld orc s conv).
Proof. unfold liveWithheld. quiet. Qed.

Lemma quiet_refresh c r : quiet (refreshLiveCatalog orc c r).
Proof. unfold refreshLiveCatalog. apply quiet_bind; [apply quiet_session_of|]. intros [s|]; [|quiet].
  apply quiet_bind; [apply quiet_liveWithheld|]. intros b. quiet. Qed.

Lemma quiet_merged s e b : quiet (mergedForConn orc s e b).
Proof. unfold mergedForConn. quiet. Qed.

Lemma quiet_withheld s e : quiet (withheldFromConn js orc s e).
Proof. unfold withheldFromConn. quiet. Qed.

(** A session whose slot is held, or that needs none. *)
Definition slot_held (s : session) : Prop := hosted s <> Some false.

Lemma wp_hostedEnvelope c e v s w :
  sessions w !! c = Some s -> slot_held s ->
  wp (hostedEnvelope orc c e (Some v)) (fun d w' => d = false /\ handed c v w w') w.
Proof.
  intros Hs Hh. unfold hostedEnvelope. apply wp_bind. unfold wp at 1. cbn. rewrite Hs.
  destruct s as [i t m [[]|] p sn wm lg]; [|done|]; apply wp_bind; (eapply wp_mono; [apply wp_hostedEnqueue|]);
    intros [] w1 H1; by unfold wp.
Qed.

Lemma merged_cleared s e b w : SessionStateCleared (fst (mergedForConn orc s e b w)) = SessionStateCleared e.
Proof. unfold mergedForConn. repeat case_match; try done. unfold bind, ask, ret. cbn. by destruct (a_yes _). Qed.

Lemma wp_forward_reading c e r s w :
  sessions w !! c = Some s -> slot_held s ->
  wp (forwardEnvelopeSource js orc c e (Some r) false) (fun a w' => snd a = false /\
    if fst a then
      (steady w w' /\ (InReplyTo e = None -> pushedConversationID js (Payload e) <> "")) \/
      (exists e', SessionStateCleared e' = SessionStateCleared e /\ handed c (Framed r e') w w')
    else steady w w') w.
Proof.
  intros Hs Hh. unfold forwardEnvelopeSource. apply wp_bind. unfold wp at 1. cbn. rewrite Hs.
  apply wp_bind. unfold wp at 1. destruct (quiet_withheld s e w) as [E1 Q1].
  assert (fst (withheldFromConn js orc s e w) = true -> InReplyTo e = None /\ pushedConversationID js (Payload e) <> "") as Hwh.
  { unfold withheldFromConn. case_match eqn:Eb; [done|]. case_match eqn:Ec; [done|]. intros _.
    apply orb_false_iff in Eb as [_ Eb]. reflect_bools. split; [|done]. destruct (InReplyTo e); [|done]. exfalso. apply Eb. by eexists. }
  destruct (withheldFromConn js orc s e w) as [b w1]. cbn [fst snd] in *. apply wp_bind. unfold wp at 1. cbn.
  assert (steady w w1) as H1 by by apply steady_core.
  rewrite orb_false_r. destruct b; [unfold wp; cbn; split; [done|]; left; naive_solver|].
  apply wp_bind. unfold wp at 1. match goal with |- context [mergedForConn orc s e ?x] => set (u := x) end.
  destruct (quiet_merged s e u w1) as [E2 Q2]. pose proof (merged_cleared s e u w1) as Hc.
  destruct (mergedForConn orc s e u w1) as [e' w2]. cbn [fst snd] in *.
  assert (steady w w2) as H2 by (etrans; [exact H1|]; by apply steady_core).
  destruct (encoded js e') as [n|]; [|done]. destruct (thread s && _ && _); [done|].
  assert (sessions w2 !! c = Some s) as Hs2 by by rewrite E2, E1.
  destruct (hosted s) as [h|] eqn:Eh.
  - apply wp_bind. eapply wp_mono; [by apply (wp_hostedEnvelope _ _ _ s)|]. intros d w3 [-> H3]. unfold wp. cbn.
    split; [done|]. right. exists e'. split; [done|]. by apply (handed_steady _ _ _ w2 w3).
  - apply wp_bind. apply wp_quiet; [apply quiet_yes|]. intros sealed w3 E3 Q3.
    assert (steady w w3) as H3 by (etrans; [exact H2|]; by apply steady_core). destruct sealed; [|done].
    unfold wp. cbn. split; [done|]. right. exists e'. split; [done|]. right. exists w3. done.
Qed.

Lemma calm_forward_plain c e p : calm (forwardEnvelopeSource js orc c e None p).
Proof.
  unfold forwardEnvelopeSource. apply calm_bind; [auto with calm|]. intros [s|]; [|calm].
  apply calm_bind; [apply quiet_calm, quiet_withheld|]. intros b. apply calm_bind; [auto with calm|]. intros b'.
  destruct (b || b'); [calm|]. apply calm_bind; [apply quiet_calm, quiet_merged|]. intros e'. calm.
Qed.

(** ** The invariant *)

Definition session_ok (w : world) (c : string) (s : session) : Prop :=
  ordered (frames (log s)) /\ slot (log s) = Some (livePending s) /\ (over w c \/ exact s).
Record inv (w : world) : Prop := {
  inv_sessions : forall c s, sessions w !! c = Some s -> session_ok w c s;
  inv_queues : queues_ok w;
}.

Lemma session_ok_same w w' c s s' :
  session_ok w c s -> same_live s s' -> (over w c -> over w' c) -> session_ok w' c s'.
Proof.
  intros (H1 & H2 & H3) (Ep & Ew & El) Ho. unfold session_ok, exact in *. rewrite El, Ep, Ew. naive_solver.
Qed.

Lemma inv_steady w w' : inv w -> steady w w' -> inv w'.
Proof.
  intros [Hs Hq] [Hk Hqk]. constructor; [|auto]. intros c s' Hs'. destruct (Hk c s' Hs') as [(s & E & Hsame) Ho].
  by apply (session_ok_same w w' c s s'); [apply Hs| |].
Qed.

(** One session changes. *)
Lemma inv_alter w c f :
  inv w -> (forall s, sessions w !! c = Some s -> session_ok w c (f s)) -> inv (with_sessions (alter f c (sessions w)) w).
Proof.
  intros [Hs Hq] Hf. constructor; [|done]. intros c' s'. cbn [with_sessions sessions].
  destruct (decide (c = c')) as [<-|Hne]; [|rewrite lookup_alter_ne by done; apply Hs].
  rewrite lookup_alter_eq. intros (s & E & ->)%fmap_Some. by apply Hf.
Qed.

Lemma wp_upd c f (Q : unit -> world -> Prop) w : Q tt (with_sessions (alter f c (sessions w)) w) -> wp (upd c f) Q w.
Proof. done. Qed.

(** All sessions but one are as they should. *)
Record inv_but (c : string) (w : world) : Prop := {
  but_sessions : forall c' s, c' <> c -> sessions w !! c' = Some s -> session_ok w c' s;
  but_queues : queues_ok w;
}.

Lemma inv_inv_but c w : inv w -> inv_but c w.
Proof. intros [H1 H2]. constructor; [|done]. intros c' s _. apply H1. Qed.

Lemma inv_but_steady c w w' : inv_but c w -> steady w w' -> inv_but c w'.
Proof.
  intros [Hs Hq] [Hk Hqk]. constructor; [|auto]. intros c' s' Hne Hs'. destruct (Hk c' s' Hs') as [(s & E & Hsame) Ho].
  by apply (session_ok_same w w' c' s s'); [apply Hs| |].
Qed.

Lemma inv_but_alter c f w : inv_but c w -> inv_but c (with_sessions (alter f c (sessions w)) w).
Proof.
  intros [Hs Hq]. constructor; [|done]. intros c' s Hne. cbn. rewrite lookup_alter_ne by done. by apply Hs.
Qed.

Lemma inv_but_close c f w :
  inv_but c w -> (forall s, sessions w !! c = Some s -> session_ok w c (f s)) -> inv (with_sessions (alter f c (sessions w)) w).
Proof.
  intros [Hs Hq] Hf. constructor; [|done]. intros c' s'. cbn [with_sessions sessions].
  destruct (decide (c' = c)) as [->|Hne]; [|rewrite lookup_alter_ne by done; by apply Hs].
  rewrite lookup_alter_eq. intros (s & E & ->)%fmap_Some. by apply Hf.
Qed.

(** The session after a frame was handed over. *)
Lemma handed_session c v w w' s s' :
  sessions w !! c = Some s -> handed c v w w' -> sessions w' !! c = Some s' ->
  livePending s' = livePending s /\ liveWatermarks s' = liveWatermarks s /\
  (over w' c /\ log s' = log s \/ log s' = log s ++ [v]).
Proof.
  intros Hs [[[Hk _] Hb]|(w1 & [Hk1 _] & [Hk2 _])] Hs'.
  - destruct (Hk c s' Hs') as [(s0 & E & Ep & Ew & El) _]. simplify_eq. split_and!; [done..|left].
    split; [|done]. destruct Hb; [congruence|done].
  - destruct (Hk2 c s' Hs') as [(s2 & E & Ep & Ew & El) _]. cbn in E. rewrite lookup_alter_eq in E.
    apply fmap_Some in E as (s1 & E1 & ->). destruct (Hk1 c s1 E1) as [(s0 & E0 & Ep0 & Ew0 & El0) _]. simplify_eq.
    cbn in *. split_and!; [congruence..|right]. congruence.
Qed.

Lemma handed_inv_but c v w w' : inv w -> handed c v w w' -> inv_but c w'.
Proof.
  intros Hi [[H _]|(w1 & H1 & H2)]; [by apply (inv_but_steady c w); [apply inv_inv_but|]|].
  eapply inv_but_steady; [|exact H2]. apply inv_but_alter. by apply (inv_but_steady c w); [apply inv_inv_but|].
Qed.

Hypothesis Hempty : pushedConversationID js "{}" = "".

Lemma wp_forward_judged c r w0 s w :
  inv w -> sessions w !! c = Some s -> exact s -> livePending s = None -> slot_held s ->
  watermark s r = Some w0 -> overtaken w0 r = false -> wp (forward_judged js orc c r w0) (fun _ w' => inv w') w.
Proof.
  intros Hi Hs Hex Hp Hh Hw Ho. unfold forward_judged.
  set (f := fst (key_of r)). set (e0 := without_ids (with_conversation js r)).
  assert (SessionStateCleared e0 = SessionStateCleared (lv_Envelope r)) as He0.
  { unfold e0, with_conversation. by case_match. }
  rewrite He0. set (needs := negb _ && _). set (e := if needs || _ then _ else e0).
  assert (SessionStateCleared e = true -> InReplyTo e = None /\ Payload e = "{}" /\ f ∉ cleared w0) as Hclear.
  { unfold e. destruct (SessionStateCleared (lv_Envelope r)) eqn:Ec; [|destruct needs eqn:En].
    - rewrite orb_true_r. intros _. split_and!; [done..|]. unfold overtaken in Ho. rewrite Ec in Ho. by reflect_bools.
    - cbn. intros _. split_and!; [done..|]. unfold needs in En. cbn in En. by reflect_bools.
    - cbn [orb]. rewrite He0. done. }
  assert (SessionStateCleared e = false -> SessionStateCleared (lv_Envelope r) = false /\ f ∈ cleared w0 /\ needs = false) as Hread.
  { unfold e. destruct (SessionStateCleared (lv_Envelope r)) eqn:Ec; [rewrite orb_true_r; done|]. destruct needs eqn:En; [done|].
    intros _. split_and!; [done| |done]. unfold needs in En. cbn in En. by reflect_bools. }
  destruct (inv_sessions w Hi c s Hs) as (Hord & Hslot & _). rewrite Hp in Hslot.
  apply wp_bind. eapply wp_mono; [by apply (wp_forward_reading c e r s)|]. intros [ok d] w1 [Ed H1]. cbn [fst snd] in *. subst d.
  destruct ok; cbn [negb].
  2: { unfold wp. cbn. by apply (inv_steady w). }
  destruct H1 as [[H1 Hnc]|(e' & Ee' & H1)].
  - destruct (SessionStateCleared e) eqn:Ee; [exfalso; destruct (Hclear eq_refl) as (Hr & Hpl & _); rewrite Hpl in Hnc; by apply (Hnc Hr)|].
    destruct (Hread eq_refl) as (Hr & Hin & ->). apply wp_bind. unfold wp at 1. cbn. apply wp_bind, wp_upd. unfold wp. cbn.
    apply inv_but_close; [by apply (inv_but_steady c w); [apply inv_inv_but|]|]. intros s1 Hs1.
    destruct H1 as [H1 _]. destruct (H1 c s1 Hs1) as [(s0 & E & Ep & Ew & El) _]. simplify_eq.
    unfold session_ok, exact. cbn [set_watermark log livePending liveWatermarks]. rewrite El, Ep, Ew, Hp. split_and!; [done..|right].
    assert (SessionStateCleared e = true -> fst (key_of r) ∉ cleared w0) as Hno by congruence.
    pose proof (judged_withheld s r w0 e Hex Hw Ho Hno (fun _ => conj Hr Hin) Ee) as Hj. unfold marked in Hj. by rewrite Ee in Hj.
  - pose proof (handed_inv_but c _ w w1 Hi H1) as Hbut.
    assert (SessionStateCleared e' = true -> f ∉ cleared w0) as Hc' by (rewrite Ee'; intros Hc; by apply Hclear).
    assert (SessionStateCleared e' = false -> SessionStateCleared (lv_Envelope r) = false /\ f ∈ cleared w0) as Hr'.
    { rewrite Ee'. intros Hc. by destruct (Hread Hc) as (? & ? & _). }
    pose proof (judged_fits s r w0 e' Hex Hw Ho Hc' Hr') as Hfits.
    pose proof (judged_exact s r w0 e' Hex Hw Ho Hc' Hr') as Hexact'.
    apply wp_bind. apply (wp_mono _ (fun b w2 => b = true /\
      w2 = if needs then with_sessions (alter (park r) c (sessions w1)) w1 else w1)).
    { destruct needs; [apply wp_bind, wp_upd|]; by unfold wp. }
    intros b w2 [-> ->]. cbn [negb]. apply wp_bind, wp_upd. unfold wp. cbn [fst snd ret].
    assert (forall s1, sessions w1 !! c = Some s1 -> forall g, g = (if needs then park r else fun s => s) ->
      session_ok w1 c (set_watermark (lv_ConversationID r)
        (if SessionStateCleared e then mark_cleared f w0 else mark_revision (key_of r) (Revision r) w0) (g s1))) as Hfinal.
    { intros s1 Hs1 g ->. destruct (handed_session c _ w w1 s s1 Hs H1 Hs1) as (Ep & Ew & El).
      assert (frames (log ((if needs then park r else fun s => s) s1)) = frames (log s1)) as Efr.
      { destruct needs; [|done]. cbn [park log]. rewrite frames_snoc. apply app_nil_r. }
      assert (slot (log s1) = Some None) as Hsl.
      { destruct El as [[_ ->] | ->]; [done|]. rewrite slot_snoc, Hslot. done. }
      assert (slot (log ((if needs then park r else fun s => s) s1)) = Some (livePending ((if needs then park r else fun s => s) s1))) as Hsl'.
      { destruct needs; [|by rewrite Hsl, Ep, Hp]. cbn [park log livePending]. by rewrite slot_snoc, Hsl. }
      assert (liveWatermarks ((if needs then park r else fun s => s) s1) = liveWatermarks s) as Ew' by (by destruct needs).
      unfold session_ok, exact. cbn [set_watermark log livePending liveWatermarks]. rewrite Efr, Hsl', Ew'.
      destruct El as [[Hov El]|El]; rewrite El.
      - split_and!; [done..|by left].
      - rewrite frames_snoc. split_and!; [by constructor|done|right]. unfold marked in Hexact'. by rewrite Ee' in Hexact'. }
    destruct needs.
    + apply inv_but_close; [by apply inv_but_alter|]. intros s2. cbn [with_sessions sessions]. rewrite lookup_alter_eq.
      intros (s1 & E1 & ->)%fmap_Some. by apply (Hfinal s1 E1 (park r)).
    + apply inv_but_close; [done|]. intros s1 E1. by apply (Hfinal s1 E1 (fun s => s)).
Qed.

(** ** Drains keep the invariant *)

Definition ready_live (w : world) (c : string) : Prop :=
  forall s, sessions w !! c = Some s -> exact s /\ livePending s = None /\ slot_held s.

Lemma wp_forwardLiveState c r w :
  inv w -> ready_live w c -> wp (forwardLiveState js orc c r) (fun _ w' => inv w') w.
Proof.
  intros Hi Hready. unfold forwardLiveState. destruct (unanswerable r); [done|].
  apply wp_bind. unfold wp at 1. cbn. destruct (sessions w !! c) as [s|] eqn:Hs; [|done].
  destruct (Hready s Hs) as (Hex & Hp & Hh).
  apply wp_bind, wp_quiet; [apply quiet_liveWithheld|]. intros withheld w1 E1 Q1.
  assert (inv w1) as Hi1 by (apply (inv_steady w); [done|by apply steady_core]).
  destruct withheld; [done|]. destruct (negb (validateLiveState js r)); [done|]. destruct (_ && no_models js _); [done|].
  apply wp_bind, wp_quiet; [apply quiet_yes|]. intros current w2 E2 Q2.
  assert (inv w2) as Hi2 by (apply (inv_steady w1); [done|by apply steady_core]).
  destruct (_ && negb current); [done|]. destruct (watermark s r) as [w0|] eqn:Hw; [|done].
  destruct (overtaken w0 r) eqn:Ho; [done|]. apply (wp_forward_judged c r w0 s); try done. by rewrite E2, E1.
Qed.

Lemma calm_available l : calm (available orc l).
Proof. induction l as [|c l IH]; cbn [available]; calm. Qed.

Lemma calm_own_reading free l : calm (own_reading orc free l).
Proof. induction l as [|c l IH]; cbn [own_reading]; calm. Qed.
#[local] Hint Resolve calm_available calm_own_reading : calm.

Lemma calm_finish_live c : calm (finish_live orc c).
Proof. unfold finish_live, signalLiveDrain. calm. Qed.
#[local] Hint Resolve calm_finish_live : calm.

Lemma calm_parked_first l : calm (parked_first orc l).
Proof. induction l as [|c l IH]; cbn [parked_first]; calm. Qed.
#[local] Hint Resolve calm_parked_first : calm.

(** A calm step keeps the invariant. *)
Lemma wp_inv_calm {A B} (m : M A) (f : A -> M B) w :
  inv w -> calm m -> (forall a w', inv w' -> wp (f a) (fun _ w'' => inv w'') w') -> wp (bind m f) (fun _ w'' => inv w'') w.
Proof. intros Hi Hm Hf. apply wp_bind, wp_calm; [done|]. intros a w' Hst. apply Hf. by apply (inv_steady w). Qed.

Lemma wp_inv_end {A} (m : M A) w : inv w -> calm m -> wp m (fun _ w' => inv w') w.
Proof. intros Hi Hm. apply wp_calm; [done|]. intros a w' Hst. by apply (inv_steady w). Qed.

Lemma wp_reserve c s w :
  sessions w !! c = Some s ->
  wp (reserveHostedPush orc c) (fun b w' => steady w w' /\
    (b = true -> exists s', sessions w' !! c = Some s' /\ same_live s s' /\ slot_held s')) w.
Proof.
  intros Hs. pose proof (calm_reserve c w) as Hst. unfold reserveHostedPush in *. unfold wp in *. cbn in *. rewrite Hs in *.
  destruct s as [i t m [h|] p sn wm lg]; cbn in *; [|split; [done|]; intros _; eexists; split; [exact Hs|done]].
  unfold yes, ask, ret, bind in Hst |- *. cbn in *. destruct (a_yes _); cbn in *; [|done].
  split; [done|]. intros _. rewrite lookup_alter_eq, Hs. eexists. split; [done|]. split; done.
Qed.

(** With the queue not overflowed, the watermarks are exact. *)
Lemma not_over_exact w c s : inv w -> ~ over w c -> sessions w !! c = Some s -> exact s.
Proof. intros Hi Ho Hs. by destruct (inv_sessions w Hi c s Hs) as (_ & _ & [|]). Qed.

Lemma wp_refreshed c r w :
  inv w -> ready_live w c ->
  wp (bind (refreshLiveCatalog orc c r) (fun r => bind (forwardLiveState js orc c r) (fun _ => finish_live orc c))) (fun _ w' => inv w') w.
Proof.
  intros Hi Hr. apply wp_bind, wp_quiet; [apply quiet_refresh|]. intros r' w1 E1 Q1.
  assert (inv w1) as Hi1 by (apply (inv_steady w); [done|by apply steady_core]).
  apply wp_bind. eapply wp_mono; [apply wp_forwardLiveState; [done|]|].
  - intros s Hs. apply Hr. by rewrite <- E1.
  - intros b w2 Hi2. apply wp_inv_end; [done|auto with calm].
Qed.

Lemma wp_live_loop l b w : inv w -> wp (live_loop js orc l b) (fun _ w' => inv w') w.
Proof.
  revert w. induction l as [|c l IH]; intros w Hi; cbn [live_loop]; [done|].
  apply wp_inv_calm; [done|auto with calm|]. intros r w1 Hi1. destruct r; [by apply IH|].
  apply wp_bind. unfold wp at 1. cbn. destruct (sessions w1 !! c) as [s|] eqn:Hs; [|by apply IH].
  destruct (_ && _); [by apply IH|]. apply wp_bind. eapply wp_mono; [by apply (wp_reserve c s)|]. intros room w2 [H2 Hroom].
  assert (inv w2) as Hi2 by by apply (inv_steady w1). destruct room; cbn [negb]; [|by apply IH].
  destruct (Hroom eq_refl) as (s2 & Hs2 & (Ep & Ew & El) & Hh).
  apply wp_bind. eapply wp_mono; [apply wp_pushRetired|]. intros r w3 (E3 & H3 & Hr).
  assert (inv w3) as Hi3 by by apply (inv_steady w2).
  destruct r; [apply wp_inv_calm; [done|auto with calm|]; intros _ w4 Hi4; by apply IH|].
  assert (~ over w3 c) as Hno by (intros Ho; by apply Hr in Ho).
  assert (sessions w3 !! c = Some s2) as Hs3 by by rewrite E3.
  pose proof (not_over_exact w3 c s2 Hi3 Hno Hs3) as Hex.
  destruct (livePending s) as [rp|] eqn:Hp.
  - apply wp_bind, wp_upd. apply wp_refreshed.
    + apply inv_alter; [done|]. intros s0 Hs0. assert (s0 = s2) as -> by congruence. destruct (inv_sessions w3 Hi3 c s2 Hs3) as (H1 & Hsl & Hx).
      unfold session_ok, exact in *. cbn [take_pending log livePending liveWatermarks].
      rewrite frames_snoc, app_nil_r, slot_snoc, Hsl, Ep. done.
    + intros s0. cbn [with_sessions sessions]. rewrite lookup_alter_eq, Hs3. intros [= <-].
      unfold exact. cbn [take_pending log livePending liveWatermarks]. rewrite frames_snoc, app_nil_r. done.
  - apply wp_bind, wp_quiet; [apply quiet_ask|]. intros a w4 E4 Q4.
    assert (inv w4) as Hi4 by (apply (inv_steady w3); [done|by apply steady_core]).
    destruct (a_reading a) as [r|].
    + apply wp_refreshed; [done|]. intros s0 Hs0. rewrite E4 in Hs0. assert (s0 = s2) as -> by congruence. split_and!; [done|congruence|done].
    + apply wp_inv_end; [done|]. calm.
Qed.

Lemma wp_drainLiveOnce b w : inv w -> wp (drainLiveOnce js orc b) (fun _ w' => inv w') w.
Proof.
  intros Hi. unfold drainLiveOnce. apply wp_inv_calm; [done|auto with calm|]. intros down w1 Hi1. destruct down; [done|].
  apply wp_inv_calm; [done|auto with calm|]. intros w' w2 Hi2. apply wp_inv_calm; [done|auto with calm|]. intros l w3 Hi3.
  by apply wp_live_loop.
Qed.

Lemma wp_reserve_held c w :
  wp (reserveHostedPush orc c) (fun b w' => steady w w' /\ (b = true -> forall s', sessions w' !! c = Some s' -> slot_held s')) w.
Proof.
  destruct (sessions w !! c) as [s|] eqn:Hs.
  - eapply wp_mono; [by apply (wp_reserve c s)|]. intros b w' [H Hb]. split; [done|]. intros E s' Hs'.
    destruct (Hb E) as (s2 & Hs2 & _ & Hh). by simplify_eq.
  - unfold reserveHostedPush. apply wp_bind. unfold wp at 1. cbn. rewrite Hs. unfold wp, ret. cbn. split; [done|]. congruence.
Qed.

Lemma steady_pending w w' c s' :
  steady w w' -> (sessions w !! c ≫= livePending) = None -> sessions w' !! c = Some s' -> livePending s' = None.
Proof. intros [Hk _] Hp Hs'. destruct (Hk c s' Hs') as [(s & E & Ep & _) _]. rewrite E in Hp. cbn in Hp. congruence. Qed.

(** A popped reading finds its session ready for it. *)
Lemma wp_dispatch c x w : inv w -> (barrier x = None -> ready_live w c) -> wp (dispatch js orc c x) (fun _ w' => inv w') w.
Proof.
  intros Hi Hr. unfold dispatch. destruct (barrier x) as [n|]; [apply wp_inv_end; [done|auto with calm]|].
  destruct (ready x); [apply wp_inv_end; [done|calm]|]. destruct (live x) as [r|].
  - apply wp_bind. eapply wp_mono; [apply wp_forwardLiveState; auto|]. by intros a w' H.
  - apply wp_inv_end; [done|]. apply calm_bind; [apply calm_forward_plain|auto with calm].
Qed.

Lemma wp_queue_loop l w : inv w -> wp (queue_loop js orc l) (fun _ w' => inv w') w.
Proof.
  revert w. induction l as [|c l IH]; intros w Hi; cbn [queue_loop]; [done|].
  apply wp_bind. unfold wp at 1. cbn. case_bool_decide as Hp; [by apply IH|].
  assert ((sessions w !! c ≫= livePending) = None) as Hnone by (destruct (_ ≫= _); [exfalso; apply Hp; by eexists|done]). clear Hp.
  apply wp_bind. eapply wp_mono; [apply wp_queue_of|]. intros q0 w1 (E1 & H1 & Hq0 & _).
  assert (inv w1) as Hi1 by by apply (inv_steady w). cbn zeta.
  set (marker := match q0 with Some q => _ | None => false end).
  assert (marker = true -> head_marker w1 c) as Hmark.
  { unfold marker. rewrite Hq0. destruct (queues w1 !! c) as [q|] eqn:E; [|done]. intros Hm. reflect_bools.
    destruct (head (items q)) as [x|] eqn:Ex; [|by destruct Hm]. cbn in Hm. destruct Hm as [n Hn].
    exists q, x, n. split_and!; [done..|]. destruct (droppable x) eqn:Ed; [|done]. exfalso.
    pose proof (qo_marks _ (inv_queues w1 Hi1 c q E) x) as Hr. unfold real in Hr. destruct (items q) as [|y t]; [done|].
    cbn in Ex. injection Ex as ->. specialize (Hr ltac:(by left) Ed). reflect_bools. congruence. }
  apply wp_bind. apply (wp_mono _ (fun b w2 => steady w1 w2 /\ (marker = true -> head_marker w2 c) /\
    (marker = false -> b = true -> forall s', sessions w2 !! c = Some s' -> slot_held s'))).
  { destruct marker; [unfold wp; cbn; split_and!; [done|auto|done]|]. eapply wp_mono; [apply wp_reserve_held|].
    intros b w2 [H2 Hb]. split_and!; [done..|auto]. }
  intros room w2 (H2 & Hm2 & Hheld). assert (inv w2) as Hi2 by by apply (inv_steady w1).
  destruct room; cbn [negb]; [|by apply IH].
  apply wp_bind. eapply wp_mono; [apply wp_queue_of|]. intros q w3 (E3 & H3 & Hq & Hm3).
  assert (inv w3) as Hi3 by by apply (inv_steady w2). destruct q as [q|]; [|by apply IH]. symmetry in Hq.
  destruct (overflowed q) eqn:Ho; [apply wp_inv_calm; [done|auto with calm|]; intros _ w4 Hi4; by apply IH|].
  destruct (popHead q) as [[x q']|] eqn:Epop; [|by apply IH].
  assert (overflowed q' = false) as Ho' by (unfold popHead in Epop; destruct (items q); [done|]; by injection Epop as <- <-).
  assert (~ over w3 c) as Hno by (intros (q2 & Hq2 & ?); congruence).
  apply wp_bind. unfold wp at 1. cbn. set (w4 := with_queues _ _).
  assert (steady w3 w4) as H4.
  { apply steady_queues; [done| |].
    - intros c' Hov. destruct (decide (c' = c)) as [->|Hne]; [done|]. destruct Hov as (q2 & Hq2 & Hov).
      exists q2. cbn. by rewrite lookup_insert_ne.
    - intros Hok c' q2 Hq2. cbn in Hq2. apply lookup_insert_Some in Hq2 as [[<- <-]|[_ Hq2]]; [|by apply (Hok c')].
      by destruct (popHead_ok q x q' (Hok c q Hq) Epop). }
  assert (inv w4) as Hi4 by by apply (inv_steady w3).
  apply wp_bind. eapply wp_mono; [apply wp_dispatch; [done|]|].
  - intros Hb s Hs. cbn in Hs. split_and!.
    + by apply (not_over_exact w3 c).
    + apply (steady_pending w w3 c s); [by rewrite H1, H2|done|done].
    + destruct marker.
      * exfalso. destruct (Hm3 (Hm2 eq_refl)) as (q2 & y & n & Hq2 & Hy & Hn & _). simplify_eq.
        unfold popHead in Epop. destruct (items q); [done|]. cbn in Hy. injection Hy as ->. injection Epop as -> _. congruence.
      * apply Hheld; [done..|]. by rewrite <- E3.
  - intros a w5 Hi5. apply wp_inv_end; [done|calm].
Qed.

Lemma wp_drainOnce w : inv w -> wp (drainOnce js orc) (fun _ w' => inv w') w.
Proof.
  intros Hi. unfold drainOnce. apply wp_inv_calm; [done|auto with calm|]. intros stop w1 Hi1. destruct stop; [done|].
  apply wp_inv_calm; [done|auto with calm|]. intros w' w2 Hi2. apply wp_inv_calm; [done|auto with calm|]. intros l w3 Hi3.
  apply wp_inv_calm; [done|auto with calm|]. intros first w4 Hi4. destruct first; [by apply wp_drainLiveOnce|].
  apply wp_inv_calm; [done|auto with calm|]. intros down w5 Hi5. destruct down; [done|].
  apply wp_inv_calm; [done|auto with calm|]. intros _ w6 Hi6. apply wp_inv_calm; [done|auto with calm|]. intros w'' w7 Hi7.
  apply wp_inv_calm; [done|auto with calm|]. intros order w8 Hi8. cbn zeta.
  apply wp_bind. eapply wp_mono; [by apply wp_queue_loop|]. intros sent w9 Hi9. destruct sent; [done|by apply wp_drainLiveOnce].
Qed.

Lemma new_session_ok w c s : livePending s = None -> liveWatermarks s = ∅ -> log s = [] -> session_ok w c s.
Proof.
  intros Hp Hw Hl. unfold session_ok, exact. rewrite Hp, Hw, Hl. split_and!; [constructor|done|right].
  intros c'. rewrite lookup_empty. by intros y ?%not_elem_of_nil.
Qed.

Lemma wp_act a w : inv w -> wp (act js orc a) (fun _ w' => inv w') w.
Proof.
  intros Hi. destruct a as [|c inter thr multi hosts|c|c|c e]; cbn [act].
  - apply wp_inv_calm; [done|auto with calm|]. intros _ w1 Hi1. by apply wp_drainOnce.
  - unfold open_session. apply wp_bind. unfold wp at 1. cbn. destruct (sessions w !! c) as [s|] eqn:E; [done|].
    apply wp_bind. unfold wp at 1. cbn. set (w1 := with_sessions _ _).
    assert (inv w1) as Hi1.
    { constructor; [|by apply (inv_queues w Hi)]. intros c' s Hs. cbn in Hs.
      apply lookup_insert_Some in Hs as [[<- <-]|[_ Hs]]; [by apply new_session_ok|]. by apply (inv_sessions w Hi). }
    assert (forall s, sessions w1 !! c = Some s -> exact s) as Hex1.
    { intros s Hs. cbn in Hs. rewrite lookup_insert_eq in Hs. injection Hs as <-. intros c'. cbn [liveWatermarks log]. rewrite lookup_empty.
      by intros y ?%not_elem_of_nil. }
    apply wp_bind. unfold wp at 1. destruct (calm_sync w1) as [Hk2 Hq2].
    assert (sessions (snd (sync orc w1)) = sessions w1) as E2 by (exact (others_sessions (a_others (orc (tick w1))) (next_tick w1))).
    destruct (sync orc w1) as [[] w2]. cbn [fst snd] in *. apply wp_bind. unfold wp at 1. cbn. set (w3 := with_queues _ _).
    assert (inv w3) as Hi3.
    { constructor.
      - intros c' s Hs. cbn in Hs. destruct (decide (c' = c)) as [->|Hne].
        + rewrite E2 in Hs. destruct (inv_sessions w1 Hi1 c s Hs) as (H1 & H2 & _). split_and!; [done..|right; by apply Hex1].
        + destruct (Hk2 c' s Hs) as [(s1 & Hs1 & Hsame) Ho]. apply (session_ok_same w1 w3 c' s1 s); [by apply (inv_sessions w1 Hi1)|done|].
          intros Hov. destruct (Ho Hov) as (q & Hq & Hqo). exists q. cbn. by rewrite lookup_insert_ne.
      - intros c' q Hq. cbn in Hq. apply lookup_insert_Some in Hq as [[_ <-]|[_ Hq]]; [apply newQueue_ok|].
        by apply (Hq2 (inv_queues w1 Hi1) c'). }
    apply wp_inv_end; [done|]. unfold signalLiveDrain. calm.
  - apply wp_inv_end; [done|auto with calm].
  - apply wp_inv_end; [done|auto with calm].
  - apply wp_inv_end; [done|]. apply calm_bind; [apply calm_forward_plain|auto with calm].
Qed.

Lemma run_inv l : inv (run js orc l).
Proof.
  unfold run. assert (inv init) as H by (constructor; intros c x Hx; cbn in Hx; by rewrite lookup_empty in Hx).
  revert H. generalize init. induction l as [|a l IH]; intros w Hi; [done|]. cbn [acts]. unfold bind.
  pose proof (wp_act a w Hi) as Ha. unfold wp in Ha. destruct (act js orc a w) as [[] w']. by apply IH.
Qed.

End handlers.

(** C7. Whatever producers push, mark and retire at any lock, whatever sessions
    open and close, and whatever the environment answers: the readings a
    session hands over to a phone come in order of generation, each family
    behind exactly one clear per generation and each reading in order of
    revision; none parked behind its clear is displaced by another; so a phone
    that takes a clear as the end of its family's readings shows of each only
    the newest there is, of the newest generation. *)
Theorem live_readings_in_order js orc l c s :
  pushedConversationID js "{}" = "" -> sessions (run js orc l) !! c = Some s ->
  ordered (frames (log s)) /\ slot (log s) = Some (livePending s) /\
  (forall conversation k r, shown conversation (frames (log s)) !! k = Some r -> newest conversation (frames (log s)) k r).
Proof.
  intros Hempty Hs. destruct (inv_sessions _ (run_inv js orc Hempty l) c s Hs) as (H1 & H2 & _).
  split; [done|]. split; [done|]. intros conversation k r. by apply shown_newest.
Qed.

(** ** A witness: a prompt of a first and of a second generation *)

Definition demo_json : json :=
  MkJson (fun _ => true) (fun s => Some s) (fun s => s) (fun _ => "") (fun _ => "") (fun p => bool_decide (p = "{}")) (fun _ => false) (fun _ => Some 100).
Definition demo_reading (generation revision : Z) : LiveState :=
  MkLive (plain_env 0 "turn_state" 0 "busy" None) "c1" generation "" revision None false.
Definition demo_push (generation revision : Z) : producer :=
  let r := demo_reading generation revision in PPush "phone" (lv_Envelope r) (Some r) false false.
(** Yes to all but the questions with these numbers; three readings pushed at
    one, the second of them already overtaken. *)
Definition demo_orc (nos : list nat) (pushes : nat) (n : nat) : answer :=
  MkAnswer (negb (bool_decide (n ∈ nos))) (if (n =? pushes)%nat then [demo_push 1 4; demo_push 1 3; demo_push 2 1] else []) [] None "".
Definition demo_world : world :=
  run demo_json (demo_orc [1; 2; 4; 16; 19; 29; 31; 40; 42; 54; 57]%nat 5) (AOpen "phone" true true true false :: repeat ADrain 5).

Lemma live_readings_in_order_witness : exists s, sessions demo_world !! "phone"%string = Some s /\
  shown "c1" (frames (log s)) !! ("turn_state", "")%string = Some (demo_reading 2 1) /\
  newest "c1" (frames (log s)) ("turn_state", "")%string (demo_reading 2 1).
Proof.
  assert ((fun s => shown "c1" (frames (log s)) !! ("turn_state", "")%string) <$> sessions demo_world !! "phone"%string
          = Some (Some (demo_reading 2 1))) as Hshow by by vm_compute.
  destruct (sessions demo_world !! "phone"%string) as [s|] eqn:E; [|discriminate Hshow]. injection Hshow as Hshow.
  exists s. split; [done|]. split; [done|].
  apply (live_readings_in_order demo_json (demo_orc [1; 2; 4; 16; 19; 29; 31; 40; 42; 54; 57]%nat 5)
           (AOpen "phone" true true true false :: repeat ADrain 5) "phone" s); [by vm_compute|exact E|exact Hshow].
Defined.

(** What was handed over: a clear and its reading, of each generation. *)
Example two_generations :
  (fun s => (fun x => (gen x, Revision (fst x), is_clear x)) <$> frames (log s)) <$> sessions demo_world !! "phone"%string
  = Some [(1, 4, true); (1, 4, false); (2, 1, true); (2, 1, false)].
Proof. by vm_compute. Qed.

End RelayLiveProps.
