(* ===== verification/TransportConnect.v ===== *)
(** * The transport client: errors and the connect loop ([internal/transport])

    [wssclient.go]: what the client lets through of the errors it meets, the
    waits between dials and the loop that dials, serves and decides whether to
    go on. What a cycle of the loop meets (the dial's answer, how long the
    socket was served and what ended it, whether a sleep was interrupted) is
    an input. *)
From Stdlib Require Import Ascii String.
From stdpp Require Import prelude strings list.
From S2P Require Import Prelude.

Module TransportConnect.

Local Open Scope Z_scope.

(** ** Errors *)

Inductive sentinel :=
| ErrNotConnected | ErrClosed | ErrDisconnected | ErrFatalClose | ErrUpgradeRejected
| Canceled | DeadlineExceeded.

#[export] Instance sentinel_eq_dec : EqDecision sentinel.
Proof. solve_decision. Defined.

(** An error as its chain: a sentinel, a [websocket.CloseError] with the peer's
    reason, a rejection with its HTTP status, any other error with its text, or
    a message wrapped around causes ([fmt.Errorf], [errors.Join]). *)
Inductive error :=
| Sentinel (s : sentinel)
| CloseError (code : Z) (reason : string)
| UpgradeRejectionError (StatusCode : Z)
| Other (text : string)
| Wrap (message : string) (causes : list error).

(** [errors.Is] for a sentinel; a rejection unwraps to [ErrUpgradeRejected]. *)
Fixpoint Is (s : sentinel) (e : error) : bool :=
  match e with
  | Sentinel t => bool_decide (t = s)
  | UpgradeRejectionError _ => bool_decide (s = ErrUpgradeRejected)
  | Wrap _ l => existsb (Is s) l
  | CloseError _ _ | Other _ => false
  end.

Definition first_some {A B} (f : A -> option B) : list A -> option B :=
  fix go l := match l with [] => None | x :: l => match f x with Some y => Some y | None => go l end end.

(** [errors.As] for a rejection and for a close error: the first of the chain. *)
Fixpoint as_rejection (e : error) : option Z :=
  match e with
  | UpgradeRejectionError n => Some n
  | Wrap _ l => first_some as_rejection l
  | _ => None
  end.

Fixpoint as_close (e : error) : option Z :=
  match e with
  | CloseError n _ => Some n
  | Wrap _ l => first_some as_close l
  | _ => None
  end.

(** [websocket.CloseStatus]. *)
Definition CloseStatus (e : error) : Z := default (-1) (as_close e).

(** The sentinels [safeTransportError] looks for, in its order. *)
Definition known_sentinels : list sentinel :=
  [ErrFatalClose; ErrClosed; ErrDisconnected; ErrNotConnected; Canceled; DeadlineExceeded].

Definition safe_causes (e : error) : list error :=
  match as_rejection e with
  | Some n => [UpgradeRejectionError n]
  | None => if Is ErrUpgradeRejected e then [Sentinel ErrUpgradeRejected] else []
  end ++
  (if CloseStatus e =? -1 then [] else [CloseError (CloseStatus e) ""]) ++
  (Sentinel <$> filter (fun s => Is s e = true) known_sentinels).

Definition operation_failed (operation : string) : string :=
  ("transport: " ++ operation ++ " failed")%string.

(** [safeTransportError] of an error that is not nil. *)
Definition safeTransportError (operation : string) (e : error) : error :=
  match safe_causes e with
  | [] => Other (operation_failed operation)
  | cs => Wrap (operation_failed operation) [Wrap "" cs]
  end.

(** [realDial]'s error: what [websocket.Dial] answered, with the response's
    status where there was a response. *)
Definition realDial_error (status : option Z) (e : error) : error :=
  match status with
  | Some n => safeTransportError "dial" (Wrap "" [UpgradeRejectionError n; e])
  | None => safeTransportError "dial" e
  end.

(** ** Configuration and waits *)

Definition reconnectInitial : Z := 1 * second.
Definition reconnectMax : Z := 30 * second.
Definition stabilityResetMin : Z := 60 * second.
Definition StatusSwitchingProtocols : Z := 101.

Record Config := MkConfig {
  TerminalUpgradeStatuses : list Z;
  FatalCloseCodes : list Z;
  FatalCloseThreshold : Z;
}.

(** [backoff] before its jitter. *)
Definition backoff_base (attempt : Z) : Z :=
  let attempt := if attempt <? 1 then 1 else attempt in
  if 6 <=? attempt then reconnectMax
  else
    let base := Z.shiftl reconnectInitial (attempt - 1) in
    if reconnectMax <? base then reconnectMax else base.

Definition upgradeStatus (e : error) : Z := default 0 (as_rejection e).

Section config.
Context (cfg : Config).

Definition matchFatalStatus (e : error) : Z :=
  let status := CloseStatus e in
  if status =? -1 then -1
  else if bool_decide (status ∈ FatalCloseCodes cfg) then status else -1.

Definition fatalThreshold : Z := if FatalCloseThreshold cfg <? 1 then 1 else FatalCloseThreshold cfg.

Definition terminal_rejection (e : error) : bool :=
  match as_rejection e with
  | Some n => negb (n =? StatusSwitchingProtocols) && bool_decide (n ∈ TerminalUpgradeStatuses cfg)
  | None => false
  end.

(** ** [Connect] *)

(** What one turn of the loop meets. [c_ctx], [c_closed]: [ctx.Err()] and
    whether the client is closed at the top; the same after the dial failed or
    the socket was served; [c_jitter] makes a base wait the one [backoff]
    drew; [c_slept]: the sleep, if it comes to one, was not interrupted. *)
Record cycle := MkCycle {
  c_ctx : option error;
  c_closed : bool;
  c_dial : error + (error * Z);
  c_ctx_after : option error;
  c_closed_after : bool;
  c_jitter : Z -> Z;
  c_slept : bool;
  c_ctx_slept : option error;
}.

Record cstate := MkCState { attempt : Z; fatalCount : Z; warnedUpgrade : bool }.

Inductive stop :=
| StopCtx (e : error)
| StopClosed
| StopRejected (e : error)
| StopFatal (status : Z) (e : error).

Definition stop_error (r : stop) : error :=
  match r with
  | StopCtx e | StopRejected e => e
  | StopClosed => Sentinel ErrClosed
  | StopFatal _ e => Wrap "" [Sentinel ErrFatalClose; e]
  end.

(** A turn's end: the loop stops, or goes on having slept, and warned loudly
    of a rejected upgrade or not. *)
Inductive outcome := Stop (r : stop) | Next (st : cstate) (slept : Z) (warned : bool).

Definition interrupted (c : cycle) : stop :=
  match c_ctx_slept c with Some e => StopCtx e | None => StopClosed end.

Definition backoff (c : cycle) (attempt : Z) : Z := c_jitter c (backoff_base attempt).

(** [retryFatalClose] and [sleepCancellable], then the rest of the turn. *)
Definition sleeping (c : cycle) (attempt : Z) (k : Z -> outcome) : outcome :=
  if c_slept c then k (backoff c attempt) else Stop (interrupted c).

Definition dial_failed (st : cstate) (c : cycle) (err : error) : outcome :=
  match c_ctx_after c with
  | Some e => Stop (StopCtx e)
  | None =>
      if c_closed_after c then Stop StopClosed
      else
        let err := safeTransportError "dial" err in
        if terminal_rejection err then Stop (StopRejected err)
        else
          let status := matchFatalStatus err in
          if negb (status =? -1) then
            let fatal := i64 (fatalCount st + 1) in
            if fatalThreshold <=? fatal then Stop (StopFatal status err)
            else sleeping c (attempt st) (fun d => Next (MkCState (i64 (attempt st + 1)) fatal (warnedUpgrade st)) d false)
          else
            let loud := Is ErrUpgradeRejected err && negb (warnedUpgrade st) in
            sleeping c (attempt st)
              (fun d => Next (MkCState (i64 (attempt st + 1)) 0 (warnedUpgrade st || loud)) d loud)
  end.

(** The turn's end once the socket was served for [uptime]. *)
Definition served_end (st : cstate) (c : cycle) (uptime fatal slept : Z) : outcome :=
  if c_closed_after c then Stop StopClosed
  else
    match c_ctx_after c with
    | Some e => Stop (StopCtx e)
    | None =>
        Next (MkCState (if stabilityResetMin <=? uptime then 1 else i64 (attempt st + 1)) fatal false) slept false
    end.

Definition served (st : cstate) (c : cycle) (err : error) (uptime : Z) : outcome :=
  let status := matchFatalStatus err in
  if negb (status =? -1) then
    let fatal := i64 (fatalCount st + 1) in
    if fatalThreshold <=? fatal then Stop (StopFatal status err)
    else sleeping c (attempt st) (fun d => served_end st c uptime fatal d)
  else served_end st c uptime 0 0.

Definition turn (st : cstate) (c : cycle) : outcome :=
  match c_ctx c with
  | Some e => Stop (StopCtx e)
  | None =>
      if c_closed c then Stop StopClosed
      else match c_dial c with
           | inl err => dial_failed st c err
           | inr (err, uptime) => served st c err uptime
           end
  end.

Definition start : cstate := MkCState 1 0 false.

(** The loop over what it meets: its state after all of it, or why it stopped
    with what it had not met yet. *)
Fixpoint connect (st : cstate) (cs : list cycle) : cstate + (stop * list cycle) :=
  match cs with
  | [] => inl st
  | c :: cs => match turn st c with Next st' _ _ => connect st' cs | Stop r => inr (r, cs) end
  end.

Definition Connect (cs : list cycle) : cstate + (stop * list cycle) := connect start cs.

(** The time a turn takes: what it was served and what it slept. *)
Definition uptime_of (c : cycle) : Z := match c_dial c with inl _ => 0 | inr (_, u) => u end.
Definition slept_of (st : cstate) (c : cycle) : Z := match turn st c with Next _ d _ => d | Stop _ => 0 end.

End config.

End TransportConnect.
