(* ===== verification/TransportConnectProps.v ===== *)
(** * What the connect loop does ([internal/transport]) *)
From Stdlib Require Import Ascii String.
From stdpp Require Import prelude strings list.
From S2P Require Import Prelude TransportConnect.

Module TransportConnectProps.

Import TransportConnect.

Local Open Scope Z_scope.

(** ** Errors *)

Lemma error_nested_ind (P : error -> Prop) :
  (forall s, P (Sentinel s)) -> (forall n r, P (CloseError n r)) -> (forall n, P (UpgradeRejectionError n)) ->
  (forall t, P (Other t)) -> (forall m l, Forall P l -> P (Wrap m l)) -> forall e, P e.
Proof.
  intros H1 H2 H3 H4 H5. fix IH 1. intros [s|n r|n|t|m l]; [apply H1|apply H2|apply H3|apply H4|apply H5].
  induction l as [|e l IHl]; constructor; [apply IH|apply IHl].
Qed.

(** Every text an error would print. *)
Fixpoint texts (e : error) : list string :=
  match e with
  | Sentinel _ | UpgradeRejectionError _ => []
  | CloseError _ r => [r]
  | Other t => [t]
  | Wrap m l => m :: concat (map texts l)
  end.

Lemma rejection_is e n : as_rejection e = Some n -> Is ErrUpgradeRejected e = true.
Proof.
  revert n. induction e as [s|k r|k|t|m l IH] using error_nested_ind; intros n; simpl; try done.
  induction IH as [|e l He _ IHl]; simpl; [done|]. destruct (as_rejection e); [intros _; by rewrite (He _ eq_refl)|].
  intros H. by rewrite (IHl H), orb_true_r.
Qed.

Lemma Is_sentinels s l : existsb (Is s) (Sentinel <$> l) = bool_decide (s ∈ l).
Proof.
  induction l as [|t l IH]; csimpl; [done|]. rewrite IH. destruct (decide (t = s)) as [->|].
  - rewrite bool_decide_true by done. symmetry. apply bool_decide_true. by left.
  - rewrite (bool_decide_false (t = s)) by done. simpl. apply bool_decide_ext. rewrite elem_of_cons.
    split; [by right|intros [->|?]; done].
Qed.

Lemma as_sentinels l : first_some as_rejection (Sentinel <$> l) = None /\ first_some as_close (Sentinel <$> l) = None.
Proof. induction l; by simpl. Qed.

Lemma first_some_app {A B} (f : A -> option B) l k :
  first_some f (l ++ k) = match first_some f l with Some y => Some y | None => first_some f k end.
Proof. induction l as [|x l IH]; simpl; [done|]. rewrite IH. by destruct (f x). Qed.

Lemma CloseStatus_of e f : as_close e = as_close f -> CloseStatus e = CloseStatus f.
Proof. unfold CloseStatus. by intros ->. Qed.

Lemma causes_close e : default (-1) (first_some as_close (safe_causes e)) = CloseStatus e.
Proof.
  unfold safe_causes. rewrite !first_some_app, (proj2 (as_sentinels _)).
  destruct (as_rejection e); simpl; [|destruct (Is _ e); simpl];
    (destruct (Z.eqb_spec (CloseStatus e) (-1)) as [H|H]; simpl; [by rewrite H|done]).
Qed.

Lemma causes_rejection e : first_some as_rejection (safe_causes e) = as_rejection e.
Proof.
  unfold safe_causes. rewrite !first_some_app, (proj1 (as_sentinels _)).
  destruct (as_rejection e); simpl; [done|]. destruct (Is _ e); simpl; by destruct (_ =? _).
Qed.

Lemma causes_is e s : existsb (Is s) (safe_causes e) = Is s e.
Proof.
  assert (s = ErrUpgradeRejected \/ s ∈ known_sentinels) as Hs by (destruct s; set_solver).
  assert (existsb (Is s) (if CloseStatus e =? -1 then [] else [CloseError (CloseStatus e) ""]) = false) as Hc by by destruct (_ =? _).
  unfold safe_causes. rewrite !existsb_app, Hc, Is_sentinels, orb_false_l.
  rewrite (bool_decide_ext (s ∈ _) (Is s e = true /\ s ∈ known_sentinels)) by by rewrite list_elem_of_filter.
  destruct (decide (s = ErrUpgradeRejected)) as [->|Hne].
  - rewrite (bool_decide_false (_ /\ _)) by (intros [_ Hin]; set_solver). rewrite orb_false_r.
    destruct (as_rejection e) eqn:E; simpl; [by rewrite (rejection_is _ _ E)|]. by destruct (Is _ e).
  - assert (existsb (Is s) match as_rejection e with Some n => [UpgradeRejectionError n]
              | None => if Is ErrUpgradeRejected e then [Sentinel ErrUpgradeRejected] else [] end = false) as ->.
    { destruct (as_rejection e); simpl; [by rewrite bool_decide_false|]. destruct (Is ErrUpgradeRejected e); simpl; [|done].
      by rewrite bool_decide_false. }
    destruct Hs as [|Hs]; [done|]. simpl. case_bool_decide; destruct (Is s e); naive_solver.
Qed.

Lemma wrapped_as m m' l :
  as_rejection (Wrap m [Wrap m' l]) = first_some as_rejection l /\ as_close (Wrap m [Wrap m' l]) = first_some as_close l.
Proof. split; simpl; [by destruct (first_some as_rejection l)|by destruct (first_some as_close l)]. Qed.

(** What is asked of an error is answered the same once it is made safe, and
    nothing else of it is left: the texts are the client's own. *)
Lemma safe_error op e :
  as_rejection (safeTransportError op e) = as_rejection e /\
  CloseStatus (safeTransportError op e) = CloseStatus e /\
  (forall s, Is s (safeTransportError op e) = Is s e) /\
  (forall t, t ∈ texts (safeTransportError op e) -> t = operation_failed op \/ t = "").
Proof.
  pose proof (causes_close e) as Hc. pose proof (causes_rejection e) as Hr. pose proof (causes_is e) as Hi.
  unfold safeTransportError. destruct (safe_causes e) as [|c cs] eqn:E.
  - repeat split; [by rewrite <- Hr|by rewrite <- Hc|intros s; by rewrite <- Hi|set_solver].
  - rewrite <- E in *. clear E c cs. unfold CloseStatus at 1. rewrite (proj1 (wrapped_as _ _ _)), (proj2 (wrapped_as _ _ _)).
    do 2 (split; [done|]). split; [intros s; cbn; by rewrite Hi, !orb_false_r|]. cbn [texts map concat]. rewrite app_nil_r.
    assert ((forall t, t ∈ concat (map texts (safe_causes e)) -> t = "") ->
      forall t, t ∈ operation_failed op :: "" :: concat (map texts (safe_causes e)) -> t = operation_failed op \/ t = "") as Ht.
    { intros H t. rewrite !elem_of_cons. intros [->|[->|?]]; [by left|by right|right; by apply H]. }
    apply Ht. clear. intros t. unfold safe_causes. rewrite !map_app, !concat_app, !elem_of_app. intros [H|[H|H]].
    + destruct (as_rejection e); [|destruct (Is _ e)]; simpl in H; set_solver.
    + destruct (_ =? _); set_solver.
    + exfalso. revert H. generalize (filter (fun s => Is s e = true) known_sentinels).
      intros l. induction l; simpl; set_solver.
Qed.

(** ** Waits *)

Lemma base_values a :
  backoff_base a = if a <=? 1 then 1 * second else if a =? 2 then 2 * second else if a =? 3 then 4 * second
                   else if a =? 4 then 8 * second else if a =? 5 then 16 * second else 30 * second.
Proof.
  unfold backoff_base. destruct (Z.ltb_spec a 1); [by replace (a <=? 1) with true by lia|].
  destruct (Z.leb_spec 6 a).
  - by replace (a <=? 1) with false by lia; replace (a =? 2) with false by lia; replace (a =? 3) with false by lia;
      replace (a =? 4) with false by lia; replace (a =? 5) with false by lia.
  - by assert (a = 1 \/ a = 2 \/ a = 3 \/ a = 4 \/ a = 5) as [->|[->|[->|[->| ->]]]] by lia.
Qed.

Lemma base_mono a b : a <= b -> backoff_base a <= backoff_base b.
Proof. intros H. rewrite !base_values. repeat case_goal; unfold second; lia. Qed.

Lemma base_nonneg a : 0 <= backoff_base a.
Proof. rewrite base_values. repeat case_goal; unfold second; lia. Qed.

Lemma base_capped a : 6 <= a -> backoff_base a = backoff_base 6.
Proof. intros H. rewrite !base_values. repeat case_goal; lia. Qed.

(** ** The loop *)

Section loop.
Context (cfg : Config).

Definition ended_by (c : cycle) : error := match c_dial c with inl e => e | inr (e, _) => e end.

(** The turn met a close code the configuration calls fatal. *)
Definition is_fatal (c : cycle) : bool := negb (matchFatalStatus cfg (ended_by c) =? -1).

(** The client's clock and its jitter, of 20% at most. *)
Definition fair (c : cycle) : Prop :=
  0 <= uptime_of c /\ forall a, 4 * backoff_base a <= 5 * c_jitter c (backoff_base a) <= 6 * backoff_base a.

(** A turn that meets its end undisturbed. *)
Definition undisturbed (c : cycle) : Prop :=
  c_ctx c = None /\ c_closed c = false /\ c_ctx_after c = None /\ c_closed_after c = false /\ c_slept c = true /\
  match c_dial c with inl e => terminal_rejection cfg (safeTransportError "dial" e) = false | inr _ => True end.

(** What the turns take, each served and slept. *)
Fixpoint elapsed (st : cstate) (cs : list cycle) : Z :=
  match cs with
  | [] => 0
  | c :: cs => uptime_of c + slept_of cfg st c + match turn cfg st c with Next st' _ _ => elapsed st' cs | Stop _ => 0 end
  end.

(** The attempt after a turn that went on. *)
Definition next_attempt (a : Z) (c : cycle) : Z :=
  if stabilityResetMin <=? uptime_of c then 1 else i64 (a + 1).

Lemma match_safe op e : matchFatalStatus cfg (safeTransportError op e) = matchFatalStatus cfg e.
Proof. unfold matchFatalStatus. by rewrite (proj1 (proj2 (safe_error op e))). Qed.

(** How a turn goes on. *)
Lemma turn_next st c st' d w :
  turn cfg st c = Next st' d w ->
  attempt st' = next_attempt (attempt st) c /\
  (if is_fatal c then fatalCount st' = i64 (fatalCount st + 1) /\ fatalCount st' < fatalThreshold cfg /\
                      d = backoff c (attempt st)
   else fatalCount st' = 0).
Proof.
  unfold turn, next_attempt, is_fatal, ended_by, uptime_of. destruct (c_ctx c); [done|]. destruct (c_closed c); [done|].
  destruct (c_dial c) as [e|[e u]].
  - unfold dial_failed. rewrite match_safe. replace (stabilityResetMin <=? 0) with false by done.
    destruct (c_ctx_after c); [done|]. destruct (c_closed_after c); [done|]. destruct (terminal_rejection _ _); [done|].
    unfold sleeping. destruct (negb _); [destruct (Z.leb_spec (fatalThreshold cfg) (i64 (fatalCount st + 1))); [done|]|];
      (destruct (c_slept c); [|done]); intros [= <- <- _]; repeat split; done.
  - unfold served, sleeping, served_end.
    destruct (negb _); [destruct (Z.leb_spec (fatalThreshold cfg) (i64 (fatalCount st + 1))); [done|]; destruct (c_slept c); [|done]|];
      (destruct (c_closed_after c); [done|]); (destruct (c_ctx_after c); [done|]); intros [= <- <- _]; repeat split; done.
Qed.

(** When it stops for a fatal close. *)
Lemma turn_fatal st c n e :
  turn cfg st c = Stop (StopFatal n e) -> is_fatal c = true /\ fatalThreshold cfg <= i64 (fatalCount st + 1).
Proof.
  unfold turn, is_fatal, ended_by. destruct (c_ctx c); [done|]. destruct (c_closed c); [done|].
  destruct (c_dial c) as [er|[er u]].
  - unfold dial_failed. rewrite match_safe.
    destruct (c_ctx_after c); [done|]. destruct (c_closed_after c); [done|]. destruct (terminal_rejection _ _); [done|].
    unfold sleeping, interrupted.
    destruct (negb _); [destruct (Z.leb_spec (fatalThreshold cfg) (i64 (fatalCount st + 1))); [done|]|];
      (destruct (c_slept c); [done|]); by destruct (c_ctx_slept c).
  - unfold served, sleeping, served_end, interrupted.
    destruct (negb _); [destruct (Z.leb_spec (fatalThreshold cfg) (i64 (fatalCount st + 1))); [done|]; destruct (c_slept c);
      [|by destruct (c_ctx_slept c)]|]; (destruct (c_closed_after c); [done|]); by destruct (c_ctx_after c).
Qed.

(** An undisturbed turn with a fatal close stops at the threshold only. *)
Lemma turn_undisturbed st c :
  undisturbed c -> is_fatal c = true ->
  match turn cfg st c with
  | Stop r => exists n e, r = StopFatal n e
  | Next _ _ _ => i64 (fatalCount st + 1) < fatalThreshold cfg
  end.
Proof.
  unfold undisturbed, turn, is_fatal, ended_by. intros (-> & -> & Ha & Hc & Hs & Ht). destruct (c_dial c) as [er|[er u]].
  - unfold dial_failed. rewrite match_safe, Ha, Hc, Ht. intros ->. unfold sleeping. rewrite Hs.
    destruct (Z.leb_spec (fatalThreshold cfg) (i64 (fatalCount st + 1))); [eauto|done].
  - unfold served, sleeping, served_end. rewrite Ha, Hc, Hs. intros ->.
    destruct (Z.leb_spec (fatalThreshold cfg) (i64 (fatalCount st + 1))); [eauto|done].
Qed.

Lemma connect_app st l k :
  connect cfg st (l ++ k) = match connect cfg st l with inl st' => connect cfg st' k | inr (r, rest) => inr (r, rest ++ k) end.
Proof. revert st. induction l as [|c l IH]; intros st; simpl; [done|]. destruct (turn cfg st c); [done|]. apply IH. Qed.

Lemma elapsed_app st l k st' :
  connect cfg st l = inl st' -> elapsed st (l ++ k) = elapsed st l + elapsed st' k.
Proof.
  revert st. induction l as [|c l IH]; intros st; simpl; [by intros [= ->]|].
  destruct (turn cfg st c); [done|]. intros H. rewrite (IH _ H). lia.
Qed.

(** ** How long a run of fatal closes lasts *)

(** Five times the least that [n] more turns that sleep take, from an attempt:
    a turn starts the waits again only by being served for a minute. *)
Fixpoint least (n : nat) (a : Z) : Z :=
  match n with
  | O => 0
  | S n => 4 * backoff_base a + Z.min (least n (a + 1)) (5 * stabilityResetMin + least n 1)
  end.

Lemma least_mono n a b : a <= b -> least n a <= least n b.
Proof.
  revert a b. induction n as [|n IH]; intros a b H; simpl; [done|].
  pose proof (base_mono a b H). pose proof (IH (a + 1) (b + 1) ltac:(lia)). lia.
Qed.

(** The least for eight fatal closes: the first one's turn was short, or not. *)
Definition eight (short : bool) : Z := if short then 364 * second else 248 * second.

Lemma first_least a c :
  1 <= a < 2 ^ 62 -> eight (uptime_of c <? stabilityResetMin) <= 4 * backoff_base a + least 6 (next_attempt a c).
Proof.
  intros Ha. unfold next_attempt, eight. pose proof (base_mono 1 a ltac:(lia)).
  rewrite Z.leb_antisym. destruct (uptime_of c <? stabilityResetMin); simpl negb; cbv iota.
  - rewrite i64_small by (unfold min_int64, max_int64; lia). pose proof (least_mono 6 2 (a + 1) ltac:(lia)).
    enough (364 * second <= 4 * backoff_base 1 + least 6 2) by lia. by vm_compute.
  - enough (248 * second <= 4 * backoff_base 1 + least 6 1) by lia. by vm_compute.
Qed.

(** A turn that goes on takes its part. *)
Lemma turn_least m st c st' d w :
  fair c -> turn cfg st c = Next st' d w -> is_fatal c = true -> 1 <= attempt st < 2 ^ 62 ->
  4 * backoff_base (attempt st) <= 5 * slept_of cfg st c /\
  least (S m) (attempt st) <= 5 * (uptime_of c + slept_of cfg st c) + least m (attempt st').
Proof.
  intros [Hu Hj] Ht Hf Ha. destruct (turn_next _ _ _ _ _ Ht) as [Hn Hr]. rewrite Hf in Hr. destruct Hr as (_ & _ & Hd).
  unfold slept_of. rewrite Ht, Hn. pose proof (Hj (attempt st)) as Hb. unfold backoff in Hd. rewrite <- Hd in Hb.
  split; [lia|]. cbn [least]. unfold next_attempt. rewrite i64_small by (unfold min_int64, max_int64; lia).
  destruct (Z.leb_spec stabilityResetMin (uptime_of c)); lia.
Qed.

(** The loop has just met [win], fatal closes one after the other. *)
Record streak (cs : list cycle) (st : cstate) (pre : list cycle) (st0 : cstate) (win : list cycle) : Prop := {
  sk_split : cs = pre ++ win;
  sk_pre : Connect cfg pre = inl st0 /\ fatalCount st0 = 0;
  sk_fatal : Forall (fun c => is_fatal c = true) win;
  sk_count : fatalCount st = Z.of_nat (length win);
  sk_attempt : 1 <= attempt st <= 1 + Z.of_nat (length cs);
  sk_time : match win with
            | [] => st = st0
            | c :: rest => forall m, (length rest + m = 6)%nat ->
                eight (uptime_of c <? stabilityResetMin) <= 5 * (elapsed st0 win - uptime_of c) + least m (attempt st)
            end;
}.

Lemma streak_exists cs st :
  Forall fair cs -> Z.of_nat (length cs) < 2 ^ 62 -> Connect cfg cs = inl st -> exists pre st0 win, streak cs st pre st0 win.
Proof.
  revert st. induction cs as [|c cs IH] using rev_ind; intros st Hf Hl H.
  - injection H as <-. exists [], start, []. by constructor.
  - apply Forall_app in Hf as [Hf [Hc _]%Forall_cons]. rewrite length_app in Hl. simpl in Hl. pose proof H as H0.
    unfold Connect in H. rewrite connect_app in H. destruct (connect cfg start cs) as [st1|[]] eqn:E1; [|done]. simpl in H.
    destruct (turn cfg st1 c) as [|st' d w] eqn:Et; [done|]. injection H as ->.
    destruct (IH st1 Hf ltac:(lia) E1) as (pre & st0 & win & [Hs [Hp H00] Hfw Hn Ha Ht]).
    destruct (turn_next _ _ _ _ _ Et) as [Hna Hr]. pose proof (turn_least) as Htl.
    assert (1 <= attempt st <= 1 + Z.of_nat (length (cs ++ [c]))) as Ha'.
    { rewrite Hna, length_app. unfold next_attempt. simpl.
      rewrite i64_small by (unfold min_int64, max_int64; lia). case_goal; lia. }
    destruct (is_fatal c) eqn:Hfc.
    + destruct Hr as (Hr & _ & _). exists pre, st0, (win ++ [c]).
      assert (length win <= length cs)%nat by (rewrite Hs, length_app; lia).
      assert (connect cfg st0 win = inl st1) as Hw.
      { unfold Connect in Hp. rewrite Hs, connect_app, Hp in E1. done. }
      constructor; [by rewrite Hs, app_assoc|done|by apply Forall_app; auto| |done|].
      * rewrite Hr, Hn, length_app, i64_small; [simpl; lia|unfold min_int64, max_int64; lia].
      * destruct win as [|f rest]; cbn [app].
        -- injection Hw as <-. intros m Hm. simpl in Hm. assert (m = 6%nat) as -> by lia.
           destruct (Htl 0%nat _ _ _ _ _ Hc Et Hfc ltac:(lia)) as [Hd _]. rewrite Hna.
           pose proof (first_least (attempt st0) c ltac:(lia)). cbn [elapsed]. rewrite Et. lia.
        -- intros m Hm. rewrite length_app in Hm. simpl in Hm. specialize (Ht (S m) ltac:(lia)).
           destruct (Htl m _ _ _ _ _ Hc Et Hfc ltac:(lia)) as [_ Hd].
           change (f :: rest ++ [c]) with ((f :: rest) ++ [c]).
           rewrite (elapsed_app _ _ _ _ Hw). cbn [elapsed] in *. rewrite Et. lia.
    + exists (cs ++ [c]), st, []. constructor; [by rewrite app_nil_r|done|done|by rewrite Hr|done|done].
Qed.

(** C31. [Connect] gives up on a fatal close code only after the configured
    number of turns in a row ended with one, the turn before them with none.
    With the threshold of the relay's connection, eight, these take at least
    72.8 seconds if the first of them was served for less than a minute, and at
    least 49.6 seconds in any case. Whatever it stops with, it was cancelled or
    closed, rejected or met that many; and so many undisturbed turns in a row
    stop it. *)
Theorem fatal_close_patience cs n e :
  Forall fair cs -> Z.of_nat (length cs) < 2 ^ 62 -> Connect cfg cs = inr (StopFatal n e, []) ->
  exists pre st0 first rest,
    cs = pre ++ first :: rest /\ Connect cfg pre = inl st0 /\ fatalCount st0 = 0 /\
    fatalThreshold cfg = Z.of_nat (length (first :: rest)) /\
    Forall (fun c => is_fatal c = true) (first :: rest) /\
    (FatalCloseThreshold cfg = 8 ->
     248 * second <= 5 * (elapsed st0 (first :: rest) - uptime_of first) /\
     (uptime_of first < stabilityResetMin -> 364 * second <= 5 * (elapsed st0 (first :: rest) - uptime_of first))).
Proof.
  intros Hf Hl H. destruct cs as [|c cs _] using rev_ind; [done|].
  apply Forall_app in Hf as [Hf [[Hc _] _]%Forall_cons]. rewrite length_app in Hl. simpl in Hl.
  unfold Connect in H. rewrite connect_app in H. destruct (connect cfg start cs) as [st1|[r k]] eqn:E1; [|by destruct k].
  simpl in H. destruct (turn cfg st1 c) as [r|] eqn:Et; [|done]. injection H as ->.
  destruct (turn_fatal _ _ _ _ Et) as [Hfc Hth].
  destruct (streak_exists cs st1 Hf ltac:(lia) E1) as (pre & st0 & win & [Hs [Hp H00] Hfw Hn Ha Ht]).
  assert (connect cfg st0 win = inl st1) as Hw. { unfold Connect in Hp. rewrite Hs, connect_app, Hp in E1. done. }
  assert (length win <= length cs)%nat by (rewrite Hs, length_app; lia).
  assert (fatalThreshold cfg = Z.of_nat (length (win ++ [c]))) as Hlen.
  { rewrite length_app, Nat.add_1_r. rewrite Hn, i64_small in Hth by (unfold min_int64, max_int64; lia).
    enough (Z.of_nat (length win) < fatalThreshold cfg) by lia. rewrite <- Hn.
    destruct win as [|w0 win' _] using rev_ind; [rewrite Hn; unfold fatalThreshold; case_goal; simpl; lia|].
    rewrite connect_app in Hw. destruct (connect cfg st0 win') as [st2|[]]; [|done]. simpl in Hw.
    destruct (turn cfg st2 w0) as [|st3 d w] eqn:E2; [done|]. injection Hw as ->.
    apply Forall_app in Hfw as [_ [Hw0 _]%Forall_cons]. destruct (turn_next _ _ _ _ _ E2) as [_ Hr].
    rewrite Hw0 in Hr. by destruct Hr as (_ & ? & _). }
  assert (cs ++ [c] = pre ++ win ++ [c]) as Hsp by by rewrite Hs, app_assoc.
  assert (Forall (fun c => is_fatal c = true) (win ++ [c])) as Hall by by apply Forall_app; auto.
  assert (elapsed st0 (win ++ [c]) = elapsed st0 win + uptime_of c) as He.
  { rewrite (elapsed_app _ _ _ _ Hw). simpl. unfold slept_of. rewrite Et. lia. }
  destruct win as [|f rest]; [exists pre, st0, c, []|exists pre, st0, f, (rest ++ [c])]; repeat (split; [done|]).
  - intros H8. unfold fatalThreshold in Hlen. rewrite H8 in Hlen. simpl in Hlen. lia.
  - intros H8. unfold fatalThreshold in Hlen. rewrite H8, length_app in Hlen. simpl in Hlen.
    specialize (Ht 0%nat ltac:(lia)). cbn [least] in Ht.
    change (f :: rest ++ [c]) with ((f :: rest) ++ [c]). rewrite He. unfold eight in Ht. unfold second in *.
    destruct (Z.ltb_spec (uptime_of f) stabilityResetMin); split; lia.
Qed.

(** So many undisturbed turns in a row with a fatal close end it. *)
Lemma persistent_conflict_halts pre win st0 :
  Connect cfg pre = inl st0 -> 0 <= fatalCount st0 -> Forall undisturbed win -> Forall (fun c => is_fatal c = true) win ->
  fatalThreshold cfg <= Z.of_nat (length win) -> fatalCount st0 + Z.of_nat (length win) < 2 ^ 62 ->
  exists n e rest, Connect cfg (pre ++ win) = inr (StopFatal n e, rest).
Proof.
  intros Hp H0 Hu Hf Hl Hb. unfold Connect in *. rewrite connect_app, Hp.
  assert (fatalThreshold cfg <= fatalCount st0 + Z.of_nat (length win)) as Hl' by lia.
  assert (fatalCount st0 < fatalThreshold cfg \/ win <> []) as Hne.
  { right. intros ->. unfold fatalThreshold in Hl. simpl in Hl. case_hyp Hl; lia. }
  clear Hp Hl pre. revert st0 H0 Hl' Hb Hne. induction win as [|c win IH]; intros st0 H0 Hl Hb Hne.
  - simpl in Hl. destruct Hne; [lia|done].
  - apply Forall_cons in Hu as [Hc Hu]. apply Forall_cons in Hf as [Hfc Hf]. simpl length in *.
    pose proof (turn_undisturbed st0 c Hc Hfc) as Ht. simpl. destruct (turn cfg st0 c) as [r|st1 d w] eqn:Et.
    + destruct Ht as (n & e & ->). by exists n, e, win.
    + destruct (turn_next _ _ _ _ _ Et) as [_ Hr]. rewrite Hfc in Hr. destruct Hr as (Hr & _ & _).
      rewrite i64_small in Hr, Ht by (unfold min_int64, max_int64; lia).
      apply IH; [done|done|lia|lia|lia|left; lia].
Qed.

End loop.

(** ** A run *)

(** Eight conflicts on dialling, every wait as short as it can be. *)
Definition relay_config : Config := MkConfig [401] [4409] 8.
Definition shortest (b : Z) : Z := (b * 4) `div` 5.
Definition conflict : error := CloseError 4409 "server id in use".
Definition refused : cycle := MkCycle None false (inl conflict) None false shortest true None.
(** A connection of an hour that ends with the conflict. *)
Definition evicted : cycle := MkCycle None false (inr (conflict, 3600 * second)) None false shortest true None.

Lemma shortest_ok a : 4 * backoff_base a <= 5 * shortest (backoff_base a) <= 6 * backoff_base a.
Proof. rewrite base_values. unfold shortest. repeat case_goal; vm_compute; split; discriminate. Qed.

Lemma fatal_close_patience_witness :
  exists n e pre st0 first rest,
    Connect relay_config (replicate 8 refused) = inr (StopFatal n e, []) /\
    replicate 8 refused = pre ++ first :: rest /\ Connect relay_config pre = inl st0 /\ fatalCount st0 = 0 /\
    fatalThreshold relay_config = Z.of_nat (length (first :: rest)) /\
    Forall (fun c => is_fatal relay_config c = true) (first :: rest) /\
    (FatalCloseThreshold relay_config = 8 ->
     248 * second <= 5 * (elapsed relay_config st0 (first :: rest) - uptime_of first) /\
     (uptime_of first < stabilityResetMin ->
      364 * second <= 5 * (elapsed relay_config st0 (first :: rest) - uptime_of first))).
Proof.
  exists 4409, (safeTransportError "dial" conflict).
  destruct (fatal_close_patience relay_config (replicate 8 refused) 4409 (safeTransportError "dial" conflict))
    as (pre & st0 & first & rest & H).
  - apply Forall_replicate. split; [done|apply shortest_ok].
  - by vm_compute.
  - by vm_compute.
  - exists pre, st0, first, rest. split; [by vm_compute|exact H].
Defined.

(** The bounds are met: 72.8 seconds of conflicts on dialling, and 49.6 where
    the first conflict ends a connection that had been stable. *)
Example eight_refused : elapsed relay_config start (replicate 8 refused) = 72800 * (second / 1000).
Proof. by vm_compute. Qed.

Example stable_then_refused :
  let cs := evicted :: replicate 7 refused in
  Connect relay_config cs = inr (StopFatal 4409 (safeTransportError "dial" conflict), []) /\
  elapsed relay_config start cs - uptime_of evicted = 49600 * (second / 1000).
Proof. by vm_compute. Qed.

End TransportConnectProps.
