(* ===== verification/Transport.v ===== *)
(** * The transport client: sockets, senders and receivers ([internal/transport])

    [wssclient.go]'s concurrency. One loop dials and serves sockets one after
    the other; the socket it serves has three goroutines (frames in, frames
    out, pings); any number of callers send and receive; the client is closed,
    its socket dropped and contexts are cancelled at any time. Sockets,
    generations and the channels that say a connection is over are named by
    the number of the [serve] that owns them; channel 0 is the one [New] closes.
    An act is what a goroutine does between two points where another may run,
    or what the environment does: the answers of the socket, timers, callers.
    What [Connect] makes of a socket's end is [TransportConnect]'s; here it may
    go on or not. *)
From Stdlib Require Import Ascii String.
From stdpp Require Import prelude strings list gmap.
From S2P Require Import Prelude TransportConnect.

Module Transport.

Import TransportConnect.

(** ** Callers *)

(** What a send returns: nil, its context's error, or the client's errors, the
    last for a send that failed ([safeTransportError]). *)
Inductive result := RNil | RCtx | RClosed | RDisconnected | RNotConnected | RFailed.

(** The [Generation] a caller names: none, another client's, this client's. *)
Inductive generationRef := GNil | GForeign | GMine (k : nat).

(** The channel that [enqueueSend] takes for the end of its connection. *)
Inductive doneCh := DConn (k : nat) | DGeneration (k : nat).

Inductive callkind := KSend | KSendContext | KSendGeneration (g : generationRef).

(** Where a send is: before its tests in order, at the [select], waiting for
    the acknowledgement, back. *)
Inductive cstage :=
| AtStart | AtContext | AtClosed | AtConn | AtDone | AtSelect (done : doneCh) | Awaiting | Returned (r : result).

(** [caller]: the caller's context is done; [expired]: the one with the write
    timeout is; [sock]: [req.conn]; [ack]: what [req.done] holds. *)
Record call := MkCall {
  frame : string;
  kind : callkind;
  caller : bool;
  expired : bool;
  stage : cstage;
  sock : option nat;
  ack : option result;
}.

Definition set_frame (v : string) (s : call) : call :=
  MkCall v (kind s) (caller s) (expired s) (stage s) (sock s) (ack s).
Definition set_kind (v : callkind) (s : call) : call :=
  MkCall (frame s) v (caller s) (expired s) (stage s) (sock s) (ack s).
Definition set_caller (v : bool) (s : call) : call :=
  MkCall (frame s) (kind s) v (expired s) (stage s) (sock s) (ack s).
Definition set_expired (v : bool) (s : call) : call :=
  MkCall (frame s) (kind s) (caller s) v (stage s) (sock s) (ack s).
Definition set_stage (v : cstage) (s : call) : call :=
  MkCall (frame s) (kind s) (caller s) (expired s) v (sock s) (ack s).
Definition set_sock (v : option nat) (s : call) : call :=
  MkCall (frame s) (kind s) (caller s) (expired s) (stage s) v (ack s).
Definition set_ack (v : option result) (s : call) : call :=
  MkCall (frame s) (kind s) (caller s) (expired s) (stage s) (sock s) v.

(** A [Receive]: before its tests, at its [select], back. *)
Inductive rstage := RAtClosed | RAtChan | RAtSelect (done : nat) | RGot (f : string) (g : option nat) | RErr (r : result).

Record receive := MkReceive { rcancelled : bool; rstage_ : rstage }.

(** ** Goroutines of a socket *)

Inductive goroutine (A : Type) := Run (at_ : A) | Back (err : error) | Posted | Gone.
Arguments Run {A} at_.
Arguments Back {A} err.
Arguments Posted {A}.
Arguments Gone {A}.

(** [recvPump]: before it reads its generation, reading, offering a frame. *)
Inductive rpump := RInit | RReading (g : option nat) | ROffering (g : option nat) (f : string).

(** What [sendPump] tests before it writes. *)
Inductive check := ChkCaller | ChkWrite | ChkServe | ChkGeneration.

(** [sendPump]: at its [select], or with the request of a call: taken, in its
    tests ([w]: the write's context is done), writing, retiring the socket
    after an error, about to acknowledge. *)
Inductive spump :=
| PIdle
| PTaken (i : nat)
| PTesting (i : nat) (w : bool) (todo : list check)
| PWriting (i : nat)
| PRetiring (i : nat) (err : error)
| PAcking (i : nat) (err : option error).

Record serve := MkServe {
  recvg : goroutine rpump;
  sendg : goroutine spump;
  pingg : goroutine unit;
  errCh : list error;
}.

Definition set_recvg (v : goroutine rpump) (s : serve) : serve :=
  MkServe v (sendg s) (pingg s) (errCh s).
Definition set_sendg (v : goroutine spump) (s : serve) : serve :=
  MkServe (recvg s) v (pingg s) (errCh s).
Definition set_pingg (v : goroutine unit) (s : serve) : serve :=
  MkServe (recvg s) (sendg s) v (errCh s).
Definition set_errCh (v : list error) (s : serve) : serve :=
  MkServe (recvg s) (sendg s) (pingg s) v.

(** ** The loop *)

(** [Connect] and [serve], by what is next; the errors are those [serve] has
    received, then its own. *)
Inductive pc :=
| LTop | LTopClosed | LDial
| LRetire (k : nat) | LFresh (k : nat) | LSpawn (k : nat) | LSet (k : nat) | LSignal (k : nat)
| LFirst (k : nat) | LGrace (k : nat) (es : list error) | LCancel (k : nat) (es : list error) | LJoin (k : nat) (es : list error)
| LUnset (k : nat) (err : error) | LCloseDone (k : nat) (err : error) | LRetireOwn (k : nat) (err : error)
| LCancelOwn (k : nat) (err : error) | LCloseSocket (k : nat) (err : error)
| LDecide | LEnded.

(** [closed]: [closeCh]; [parent]: [Connect]'s context is done; [connected]:
    [connectedCh]; [chans], [ctxs], [gens], [socks]: the channels closed, the
    contexts of serves and of generations done, the sockets closed by the
    client; [closing]: the sockets [Close] and [DropConn] are about to close;
    then what has happened: the calls admitted, their writes begun and done with
    the sockets, the frames read and those received. *)
Record state := MkState {
  closed : bool;
  parent : bool;
  conn : option nat;
  generation : option nat;
  connDone : nat;
  connected : bool;
  chans : gset nat;
  ctxs : gset nat;
  gens : gset nat;
  socks : gset nat;
  closing : gset nat;
  loop : pc;
  next : nat;
  serves : gmap nat serve;
  calls : gmap nat call;
  receives : gmap nat receive;
  admitted : list nat;
  begun : list (nat * nat);
  wrote : list (nat * nat);
  reads : list (nat * string);
  got : list (nat * (nat * string));
}.

Definition set_closed (v : bool) (s : state) : state :=
  MkState v (parent s) (conn s) (generation s) (connDone s) (connected s) (chans s) (ctxs s) (gens s) (socks s) (closing s) (loop s) (next s) (serves s) (calls s) (receives s) (admitted s) (begun s) (wrote s) (reads s) (got s).
Definition set_parent (v : bool) (s : state) : state :=
  MkState (closed s) v (conn s) (generation s) (connDone s) (connected s) (chans s) (ctxs s) (gens s) (socks s) (closing s) (loop s) (next s) (serves s) (calls s) (receives s) (admitted s) (begun s) (wrote s) (reads s) (got s).
Definition set_conn (v : option nat) (s : state) : state :=
  MkState (closed s) (parent s) v (generation s) (connDone s) (connected s) (chans s) (ctxs s) (gens s) (socks s) (closing s) (loop s) (next s) (serves s) (calls s) (receives s) (admitted s) (begun s) (wrote s) (reads s) (got s).
Definition set_generation (v : option nat) (s : state) : state :=
  MkState (closed s) (parent s) (conn s) v (connDone s) (connected s) (chans s) (ctxs s) (gens s) (socks s) (closing s) (loop s) (next s) (serves s) (calls s) (receives s) (admitted s) (begun s) (wrote s) (reads s) (got s).
Definition set_connDone (v : nat) (s : state) : state :=
  MkState (closed s) (parent s) (conn s) (generation s) v (connected s) (chans s) (ctxs s) (gens s) (socks s) (closing s) (loop s) (next s) (serves s) (calls s) (receives s) (admitted s) (begun s) (wrote s) (reads s) (got s).
Definition set_connected (v : bool) (s : state) : state :=
  MkState (closed s) (parent s) (conn s) (generation s) (connDone s) v (chans s) (ctxs s) (gens s) (socks s) (closing s) (loop s) (next s) (serves s) (calls s) (receives s) (admitted s) (begun s) (wrote s) (reads s) (got s).
Definition set_chans (v : gset nat) (s : state) : state :=
  MkState (closed s) (parent s) (conn s) (generation s) (connDone s) (connected s) v (ctxs s) (gens s) (socks s) (closing s) (loop s) (next s) (serves s) (calls s) (receives s) (admitted s) (begun s) (wrote s) (reads s) (got s).
Definition set_ctxs (v : gset nat) (s : state) : state :=
  MkState (closed s) (parent s) (conn s) (generation s) (connDone s) (connected s) (chans s) v (gens s) (socks s) (closing s) (loop s) (next s) (serves s) (calls s) (receives s) (admitted s) (begun s) (wrote s) (reads s) (got s).
Definition set_gens (v : gset nat) (s : state) : state :=
  MkState (closed s) (parent s) (conn s) (generation s) (connDone s) (connected s) (chans s) (ctxs s) v (socks s) (closing s) (loop s) (next s) (serves s) (calls s) (receives s) (admitted s) (begun s) (wrote s) (reads s) (got s).
Definition set_socks (v : gset nat) (s : state) : state :=
  MkState (closed s) (parent s) (conn s) (generation s) (connDone s) (connected s) (chans s) (ctxs s) (gens s) v (closing s) (loop s) (next s) (serves s) (calls s) (receives s) (admitted s) (begun s) (wrote s) (reads s) (got s).
Definition set_closing (v : gset nat) (s : state) : state :=
  MkState (closed s) (parent s) (conn s) (generation s) (connDone s) (connected s) (chans s) (ctxs s) (gens s) (socks s) v (loop s) (next s) (serves s) (calls s) (receives s) (admitted s) (begun s) (wrote s) (reads s) (got s).
Definition set_loop (v : pc) (s : state) : state :=
  MkState (closed s) (parent s) (conn s) (generation s) (connDone s) (connected s) (chans s) (ctxs s) (gens s) (socks s) (closing s) v (next s) (serves s) (calls s) (receives s) (admitted s) (begun s) (wrote s) (reads s) (got s).
Definition set_next (v : nat) (s : state) : state :=
  MkState (closed s) (parent s) (conn s) (generation s) (connDone s) (connected s) (chans s) (ctxs s) (gens s) (socks s) (closing s) (loop s) v (serves s) (calls s) (receives s) (admitted s) (begun s) (wrote s) (reads s) (got s).
Definition set_serves (v : gmap nat serve) (s : state) : state :=
  MkState (closed s) (parent s) (conn s) (generation s) (connDone s) (connected s) (chans s) (ctxs s) (gens s) (socks s) (closing s) (loop s) (next s) v (calls s) (receives s) (admitted s) (begun s) (wrote s) (reads s) (got s).
Definition set_calls (v : gmap nat call) (s : state) : state :=
  MkState (closed s) (parent s) (conn s) (generation s) (connDone s) (connected s) (chans s) (ctxs s) (gens s) (socks s) (closing s) (loop s) (next s) (serves s) v (receives s) (admitted s) (begun s) (wrote s) (reads s) (got s).
Definition set_receives (v : gmap nat receive) (s : state) : state :=
  MkState (closed s) (parent s) (conn s) (generation s) (connDone s) (connected s) (chans s) (ctxs s) (gens s) (socks s) (closing s) (loop s) (next s) (serves s) (calls s) v (admitted s) (begun s) (wrote s) (reads s) (got s).
Definition set_admitted (v : list nat) (s : state) : state :=
  MkState (closed s) (parent s) (conn s) (generation s) (connDone s) (connected s) (chans s) (ctxs s) (gens s) (socks s) (closing s) (loop s) (next s) (serves s) (calls s) (receives s) v (begun s) (wrote s) (reads s) (got s).
Definition set_begun (v : list (nat * nat)) (s : state) : state :=
  MkState (closed s) (parent s) (conn s) (generation s) (connDone s) (connected s) (chans s) (ctxs s) (gens s) (socks s) (closing s) (loop s) (next s) (serves s) (calls s) (receives s) (admitted s) v (wrote s) (reads s) (got s).
Definition set_wrote (v : list (nat * nat)) (s : state) : state :=
  MkState (closed s) (parent s) (conn s) (generation s) (connDone s) (connected s) (chans s) (ctxs s) (gens s) (socks s) (closing s) (loop s) (next s) (serves s) (calls s) (receives s) (admitted s) (begun s) v (reads s) (got s).
Definition set_reads (v : list (nat * string)) (s : state) : state :=
  MkState (closed s) (parent s) (conn s) (generation s) (connDone s) (connected s) (chans s) (ctxs s) (gens s) (socks s) (closing s) (loop s) (next s) (serves s) (calls s) (receives s) (admitted s) (begun s) (wrote s) v (got s).
Definition set_got (v : list (nat * (nat * string))) (s : state) : state :=
  MkState (closed s) (parent s) (conn s) (generation s) (connDone s) (connected s) (chans s) (ctxs s) (gens s) (socks s) (closing s) (loop s) (next s) (serves s) (calls s) (receives s) (admitted s) (begun s) (wrote s) (reads s) v.

Definition New : state :=
  MkState false false None None 0 false {[0]} ∅ ∅ ∅ ∅ LTop 1 ∅ ∅ ∅ [] [] [] [] [].

(** [serve]'s choice: the first error with a close status, else the first. *)
Definition serve_error (es : list error) : error :=
  default (Other "") (match find (fun e => negb (CloseStatus e =? -1)%Z) es with Some e => Some e | None => head es end).

Definition generation_done (s : state) (k : nat) : bool := bool_decide (k ∈ gens s).
Definition context_done (s : state) (k : nat) : bool := bool_decide (k ∈ ctxs s).
Definition closed_chan (s : state) (d : doneCh) : bool :=
  match d with DConn k => bool_decide (k ∈ chans s) | DGeneration k => generation_done s k end.

(** [Generation]: the live one. *)
Definition Generation (s : state) : option nat :=
  match conn s, generation s with
  | Some _, Some k => if generation_done s k then None else Some k
  | _, _ => None
  end.

Definition IsConnected (s : state) : bool := negb (closed s) && bool_decide (is_Some (conn s)).

Definition retire (k : nat) (s : state) : state := set_gens ({[k]} ∪ gens s) s.
Definition retire_opt (o : option nat) (s : state) : state := match o with Some k => retire k s | None => s end.
Definition put_call (i : nat) (c : call) (s : state) : state := set_calls (<[i := c]> (calls s)) s.
Definition put_receive (j : nat) (r : receive) (s : state) : state := set_receives (<[j := r]> (receives s)) s.
Definition put_serve (k : nat) (v : serve) (s : state) : state := set_serves (<[k := v]> (serves s)) s.

(** ** Sending *)

Definition waits (c : call) : bool := match kind c with KSend => false | _ => true end.

(** [SendGeneration]'s test, [sendContext]'s context, then [enqueueSend] up to
    its [select]. *)
Definition call_turn (s : state) (c : call) : option call :=
  match stage c with
  | AtStart =>
      match kind c with
      | KSend => Some (set_stage AtContext c)
      | KSendGeneration GNil | KSendGeneration GForeign => Some (set_stage (Returned RNotConnected) c)
      | _ => Some (set_stage AtContext (set_expired (caller c) c))
      end
  | AtContext => Some (set_stage (if expired c then Returned RCtx else AtClosed) c)
  | AtClosed => Some (set_stage (if closed s then Returned RClosed else AtConn) c)
  | AtConn =>
      let stale := match kind c with
                   | KSendGeneration (GMine g) => negb (bool_decide (generation s = Some g)) || generation_done s g
                   | _ => false
                   end in
      if stale then Some (set_stage (Returned RDisconnected) c)
      else match conn s with
           | None => Some (set_stage (Returned RNotConnected) c)
           | Some k => Some (set_stage AtDone (set_sock (Some k) c))
           end
  | AtDone =>
      Some (set_stage (AtSelect match kind c with KSendGeneration (GMine g) => DGeneration g | _ => DConn (connDone s) end) c)
  | Awaiting => match ack c with Some r => Some (set_ack None (set_stage (Returned r) c)) | None => None end
  | AtSelect _ | Returned _ => None
  end.

(** The branches of [enqueueSend]'s [select] but the handing over. *)
Inductive why := ByContext | ByClosed | ByDone.

Definition select_turn (s : state) (w : why) (c : call) : option call :=
  match stage c with
  | AtSelect d =>
      match w with
      | ByContext => if expired c then Some (set_stage (Returned RCtx) c) else None
      | ByClosed => if closed s then Some (set_stage (Returned RClosed) c) else None
      | ByDone => if closed_chan s d then Some (set_stage (Returned RDisconnected) c) else None
      end
  | _ => None
  end.

(** The pump receives the request from [sendCh]. *)
Definition hand_over (i k : nat) (s : state) : option state :=
  match calls s !! i, serves s !! k with
  | Some c, Some v =>
      match stage c, sendg v with
      | AtSelect _, Run PIdle =>
          Some (set_admitted (admitted s ++ [i])
                 (put_serve k (set_sendg (Run (PTaken i)) v)
                   (put_call i (set_stage (if waits c then Awaiting else Returned RNil) c) s)))
      | _, _ => None
      end
  | _, _ => None
  end.

(** [req.done <- err] where there is one. *)
Definition acknowledge (i : nat) (r : result) (c : call) (s : state) : state :=
  if waits c then put_call i (set_ack (Some r) c) s else s.

Definition test_fails (s : state) (k : nat) (c : call) (w : bool) (t : check) : bool :=
  match t with
  | ChkCaller => waits c && caller c
  | ChkWrite => w
  | ChkServe => context_done s k
  | ChkGeneration => match kind c with KSendGeneration (GMine g) => generation_done s g | _ => false end
  end.

(** [sendPump] from one request to the next, but the write's return. *)
Definition send_turn (k : nat) (v : serve) (p : spump) (s : state) : option state :=
  let put p s := put_serve k (set_sendg p v) s in
  match p with
  | PIdle => if context_done s k then Some (put (Back (Sentinel Canceled)) s) else None
  | PTaken i =>
      c ← calls s !! i;
      if bool_decide (sock c = Some k)
      then Some (put (Run (PTesting i (expired c) [ChkCaller; ChkWrite; ChkServe; ChkGeneration])) s)
      else Some (put (Run PIdle) (acknowledge i RDisconnected c s))
  | PTesting i w (t :: todo) =>
      c ← calls s !! i;
      Some (put (Run (if test_fails s k c w t then PRetiring i (Sentinel Canceled) else PTesting i w todo)) s)
  | PTesting i w [] => Some (set_begun (begun s ++ [(k, i)]) (put (Run (PWriting i)) s))
  | PWriting i => None
  | PRetiring i err => Some (set_socks ({[k]} ∪ socks s) (put (Run (PAcking i (Some (safeTransportError "send" err)))) s))
  | PAcking i err =>
      c ← calls s !! i;
      Some (put (match err with Some e => Back e | None => Run PIdle end)
             (acknowledge i (match err with Some _ => RFailed | None => RNil end) c s))
  end.

(** [conn.Write] returns. *)
Definition write_returns (k : nat) (v : serve) (err : option error) (s : state) : option state :=
  match sendg v with
  | Run (PWriting i) =>
      Some match err with
           | None => set_wrote (wrote s ++ [(k, i)]) (put_serve k (set_sendg (Run (PAcking i None)) v) s)
           | Some e => put_serve k (set_sendg (Run (PRetiring i e)) v) s
           end
  | _ => None
  end.

(** ** Receiving *)

Definition receive_turn (s : state) (r : receive) : option receive :=
  match rstage_ r with
  | RAtClosed => Some (MkReceive (rcancelled r) (if closed s then RErr RClosed else RAtChan))
  | RAtChan => Some (MkReceive (rcancelled r) (RAtSelect (connDone s)))
  | _ => None
  end.

Definition receive_select (s : state) (w : why) (r : receive) : option receive :=
  match rstage_ r with
  | RAtSelect d =>
      match w with
      | ByContext => if rcancelled r then Some (MkReceive (rcancelled r) (RErr RCtx)) else None
      | ByClosed => if closed s then Some (MkReceive (rcancelled r) (RErr RClosed)) else None
      | ByDone => if bool_decide (d ∈ chans s) then Some (MkReceive (rcancelled r) (RErr RDisconnected)) else None
      end
  | _ => None
  end.

(** [recvPump] but what the socket answers: it reads its generation, or gives
    up the frame it offers. *)
Definition recv_turn (k : nat) (v : serve) (p : rpump) (s : state) : option state :=
  match p with
  | RInit => Some (put_serve k (set_recvg (Run (RReading (generation s))) v) s)
  | ROffering _ _ => if context_done s k then Some (put_serve k (set_recvg (Back (Sentinel Canceled)) v) s) else None
  | RReading _ => None
  end.

(** [conn.Read] returns. *)
Definition read_returns (k : nat) (v : serve) (a : string + error) (s : state) : option state :=
  match recvg v with
  | Run (RReading g) =>
      Some match a with
           | inl f => set_reads (reads s ++ [(k, f)]) (put_serve k (set_recvg (Run (ROffering g f)) v) s)
           | inr e => put_serve k (set_recvg (Back (safeTransportError "recv" e)) v) s
           end
  | _ => None
  end.

(** The frame passes through [recvCh]. *)
Definition give (j k : nat) (s : state) : option state :=
  match receives s !! j, serves s !! k with
  | Some r, Some v =>
      match rstage_ r, recvg v with
      | RAtSelect _, Run (ROffering g f) =>
          Some (set_got (got s ++ [(j, (k, f))])
                 (put_serve k (set_recvg (Run (RReading g)) v)
                   (put_receive j (MkReceive (rcancelled r) (RGot f g)) s)))
      | _, _ => None
      end
  | _, _ => None
  end.

(** ** Serving *)

Inductive pump := Recv | Sender | Ping.

(** A goroutine that is back posts its error, then retires the generation. *)
Definition finish {A} (g : goroutine A) : option (goroutine A * option error) :=
  match g with Back e => Some (Posted, Some e) | Posted => Some (Gone, None) | _ => None end.

Definition finish_turn (k : nat) (p : pump) (v : serve) (s : state) : option state :=
  '(v, e) ← match p with
            | Recv => '(g, e) ← finish (recvg v); Some (set_recvg g v, e)
            | Sender => '(g, e) ← finish (sendg v); Some (set_sendg g v, e)
            | Ping => '(g, e) ← finish (pingg v); Some (set_pingg g v, e)
            end;
  Some match e with
       | Some e => put_serve k (set_errCh (errCh v ++ [e]) v) s
       | None => retire k (put_serve k v s)
       end.

(** [errs = append(errs, <-errCh)]. *)
Definition take_err (k : nat) (s : state) : option (error * state) :=
  v ← serves s !! k;
  match errCh v with e :: l => Some (e, put_serve k (set_errCh l v) s) | [] => None end.

Definition goto (l : pc) (s : state) : state := set_loop l s.

(** The loop's next turn, where it is its own. *)
Definition loop_turn (s : state) : option state :=
  match loop s with
  | LTop => Some (goto (if parent s then LEnded else LTopClosed) s)
  | LTopClosed => Some (goto (if closed s then LEnded else LDial) s)
  | LRetire k => Some (goto (LFresh k) (set_generation (Some k) (retire_opt (generation s) s)))
  | LFresh k => Some (goto (LSpawn k) (set_connDone k s))
  | LSpawn k => Some (goto (LSet k) (put_serve k (MkServe (Run RInit) (Run PIdle) (Run tt) []) s))
  | LSet k => Some (goto (LSignal k) (set_conn (Some k) s))
  | LSignal k => Some (goto (LFirst k) (set_connected true s))
  | LFirst k =>
      '(e, s) ← take_err k s;
      Some (goto (if (CloseStatus e =? -1)%Z then LGrace k [e] else LCancel k [e]) s)
  | LGrace k es => '(e, s) ← take_err k s; Some (goto (LCancel k (es ++ [e])) s)
  | LCancel k es => Some (goto (LJoin k es) (set_ctxs ({[k]} ∪ ctxs s) s))
  | LJoin k es =>
      if length es <? 3 then '(e, s) ← take_err k s; Some (goto (LJoin k (es ++ [e])) s)
      else Some (goto (LUnset k (serve_error es)) s)
  | LUnset k e => Some (goto (LCloseDone k e) (set_conn None s))
  | LCloseDone k e => Some (goto (LRetireOwn k e) (set_chans ({[k]} ∪ chans s) s))
  | LRetireOwn k e => Some (goto (LCancelOwn k e) (retire k s))
  | LCancelOwn k e => Some (goto (LCloseSocket k e) (set_ctxs ({[k]} ∪ ctxs s) s))
  | LCloseSocket k e => Some (goto LDecide (set_socks ({[k]} ∪ socks s) s))
  | LDial | LDecide | LEnded => None
  end.

(** [Close] and [DropConn] under the lock: the generation is retired, the
    socket noted to be closed. *)
Definition drop_live (s : state) : state :=
  let s' := retire_opt (generation s) s in
  match conn s with Some k => set_closing ({[k]} ∪ closing s') s' | None => s' end.

(** ** Acts *)

Inductive act :=
| ASend (i : nat) (frame : string) (kind : callkind)
| ACall (i : nat)
| ASelect (i : nat) (w : why)
| AHand (i k : nat)
| ACancel (i : nat)
| AExpire (i : nat)
| APump (k : nat)
| APumpExpire (k : nat)
| AWritten (k : nat) (err : option error)
| AReceive (j : nat)
| AReceiver (j : nat)
| AReceiveSelect (j : nat) (w : why)
| AReceiveCancel (j : nat)
| ARecv (k : nat)
| ARead (k : nat) (answer : string + error)
| AGive (j k : nat)
| APing (k : nat) (err : option error)
| AFinish (k : nat) (p : pump)
| ALoop
| ADialled (ok : bool)
| AGraceOver
| ADecide (go : bool)
| AConnected
| AParent
| APropagate (k : nat)
| AClose
| ADrop
| ACloseSocket (k : nat).

Definition on_call (i : nat) (f : call -> option call) (s : state) : option state :=
  c ← calls s !! i; c' ← f c; Some (put_call i c' s).
Definition on_receive (j : nat) (f : receive -> option receive) (s : state) : option state :=
  r ← receives s !! j; r' ← f r; Some (put_receive j r' s).

(** [AConnected]: the observer takes the signal; [AParent]: [Connect]'s context
    is done; [APropagate]: a serve's context follows it, then the generation's
    follows that; [AExpire], [APumpExpire]: a context derived from the
    caller's, for its timeout or its parent; [AClose] is [closeCh] and then,
    as [ADrop], the lock. A ping's context may be done at any time. *)
Definition step (a : act) (s : state) : option state :=
  match a with
  | ASend i f kd =>
      match calls s !! i with
      | None => Some (put_call i (MkCall f kd false false AtStart None None) s)
      | Some _ => None
      end
  | ACall i => on_call i (call_turn s) s
  | ASelect i w => on_call i (select_turn s w) s
  | AHand i k => hand_over i k s
  | ACancel i => on_call i (fun c => if waits c then Some (set_caller true c) else None) s
  | AExpire i => on_call i (fun c => if waits c then Some (set_expired true c) else None) s
  | APump k => v ← serves s !! k; match sendg v with Run p => send_turn k v p s | _ => None end
  | APumpExpire k =>
      v ← serves s !! k;
      match sendg v with
      | Run (PTesting i _ l) => Some (put_serve k (set_sendg (Run (PTesting i true l)) v) s)
      | _ => None
      end
  | AWritten k e => v ← serves s !! k; write_returns k v e s
  | AReceive j =>
      match receives s !! j with None => Some (put_receive j (MkReceive false RAtClosed) s) | Some _ => None end
  | AReceiver j => on_receive j (receive_turn s) s
  | AReceiveSelect j w => on_receive j (receive_select s w) s
  | AReceiveCancel j => on_receive j (fun r => Some (MkReceive true (rstage_ r))) s
  | ARecv k => v ← serves s !! k; match recvg v with Run p => recv_turn k v p s | _ => None end
  | ARead k a => v ← serves s !! k; read_returns k v a s
  | AGive j k => give j k s
  | APing k err =>
      v ← serves s !! k;
      match pingg v with
      | Run tt =>
          match err with
          | Some e => Some (put_serve k (set_pingg (Back (safeTransportError "ping" e)) v) s)
          | None => if context_done s k then Some (put_serve k (set_pingg (Back (Sentinel Canceled)) v) s) else None
          end
      | _ => None
      end
  | AFinish k p => v ← serves s !! k; finish_turn k p v s
  | ALoop => loop_turn s
  | ADialled ok =>
      match loop s with
      | LDial => Some (if ok then goto (LRetire (next s)) (set_next (S (next s)) s) else goto LDecide s)
      | _ => None
      end
  | AGraceOver => match loop s with LGrace k es => Some (goto (LCancel k es) s) | _ => None end
  | ADecide go => match loop s with LDecide => Some (goto (if go then LTop else LEnded) s) | _ => None end
  | AConnected => if connected s then Some (set_connected false s) else None
  | AParent => Some (set_parent true s)
  | APropagate k =>
      if context_done s k then Some (retire k s)
      else if parent s then Some (set_ctxs ({[k]} ∪ ctxs s) s) else None
  | AClose => if closed s then None else Some (set_closed true s)
  | ADrop => Some (drop_live s)
  | ACloseSocket k => if bool_decide (k ∈ closing s) then Some (set_socks ({[k]} ∪ socks s) s) else None
  end.

Inductive reach : state -> Prop :=
| reach_new : reach New
| reach_step a s s' : reach s -> step a s = Some s' -> reach s'.

Fixpoint run (acts : list act) (s : state) : option state :=
  match acts with [] => Some s | a :: acts => match step a s with Some s' => run acts s' | None => None end end.

End Transport.
