(* ===== verification/TransportLife.v ===== *)
(** * The transport client's sockets, one at a time ([internal/transport]) *)
From Stdlib Require Import Ascii String.
From stdpp Require Import prelude strings list gmap.
From S2P Require Import Prelude TransportConnect Transport.

Module TransportLife.

Import TransportConnect Transport.

(** ** What the loop's place says *)

(** The live socket. *)
Definition conn_of (l : pc) : option nat :=
  match l with
  | LSignal k | LFirst k | LGrace k _ | LCancel k _ | LJoin k _ | LUnset k _ => Some k
  | _ => None
  end.

(** The serve whose channel is the client's and open. *)
Definition chan_of (l : pc) : option nat :=
  match l with
  | LSpawn k | LSet k | LCloseDone k _ => Some k
  | _ => conn_of l
  end.

(** The serve whose generation is the client's and not yet retired by it. *)
Definition gen_of (l : pc) : option nat :=
  match l with
  | LFresh k | LRetireOwn k _ => Some k
  | _ => chan_of l
  end.

(** The serve that may have running goroutines, with the errors it has got. *)
Definition errs_of (l : pc) : option (nat * list error) :=
  match l with
  | LSet k | LSignal k | LFirst k => Some (k, [])
  | LGrace k es | LCancel k es | LJoin k es => Some (k, es)
  | _ => None
  end.

(** A serve about to start. *)
Definition unborn (l : pc) : option nat :=
  match l with LRetire k | LFresh k | LSpawn k => Some k | _ => None end.

Definition posted {A} (g : goroutine A) : nat := match g with Posted | Gone => 1 | _ => 0 end.
Definition posts (v : serve) : nat := posted (recvg v) + posted (sendg v) + posted (pingg v).

Definition stamp_ok (k : nat) (v : serve) : Prop :=
  match recvg v with Run (RReading g) | Run (ROffering g _) => g = Some k | _ => True end.

(** The goroutines of a serve and the errors they have posted. *)
Definition joined (l : pc) (k : nat) (v : serve) : Prop :=
  match errs_of l with
  | Some (k', es) => if decide (k = k') then length (errCh v) + length es = posts v else posts v = 3
  | None => posts v = 3
  end.

(** ** Lifecycle *)

Record life (s : state) : Prop := {
  li_conn : conn s = conn_of (loop s);
  li_gen : forall k, gen_of (loop s) = Some k -> generation s = Some k;
  li_chan : connDone s ∈ chans s \/ chan_of (loop s) = Some (connDone s);
  li_own : forall k, chan_of (loop s) = Some k -> connDone s = k;
  li_joined : forall k v, serves s !! k = Some v -> joined (loop s) k v /\ stamp_ok k v;
  li_has : forall k es, errs_of (loop s) = Some (k, es) -> is_Some (serves s !! k);
  li_next : (forall k, is_Some (serves s !! k) -> k < next s) /\
            (forall k, unborn (loop s) = Some k -> k < next s /\ serves s !! k = None);
}.

Lemma life_New : life New.
Proof.
  constructor; simpl; try done.
  - left. by apply elem_of_singleton.
  - split; [|done]. intros k [v Hv]. by rewrite lookup_empty in Hv.
Qed.

(** Acts that leave the fields of the lifecycle. *)
Lemma life_frame s s' :
  conn s' = conn s -> generation s' = generation s -> connDone s' = connDone s -> chans s' = chans s ->
  loop s' = loop s -> next s' = next s -> serves s' = serves s -> life s -> life s'.
Proof. intros H1 H2 H3 H4 H5 H6 H7 [? ? ? ? ? ? ?]. constructor; rewrite ?H1, ?H2, ?H3, ?H4, ?H5, ?H6, ?H7; done. Qed.

(** A goroutine that is not back yet belongs to the serve in progress. *)
Lemma running_current s k v :
  life s -> serves s !! k = Some v -> posts v < 3 ->
  exists es, errs_of (loop s) = Some (k, es) /\ gen_of (loop s) = Some k /\ chan_of (loop s) = Some k.
Proof.
  intros HL Hv Hp. destruct (li_joined _ HL k v Hv) as [Hj _]. unfold joined in Hj.
  destruct (loop s); simpl in *; try lia; case_decide; simplify_eq; try lia; eauto.
Qed.

Lemma posted_le {A} (g : goroutine A) : posted g <= 1.
Proof. destruct g; simpl; lia. Qed.

Lemma posts_le v : posts v <= 3.
Proof. unfold posts. pose proof (posted_le (recvg v)). pose proof (posted_le (sendg v)). pose proof (posted_le (pingg v)). lia. Qed.

(** A serve changes with as many errors posted as taken. *)
Lemma life_put s k v v' :
  life s -> serves s !! k = Some v -> length (errCh v') + posts v = length (errCh v) + posts v' ->
  (posts v = 3 -> posts v' = 3) -> stamp_ok k v' -> life (put_serve k v' s).
Proof.
  intros HL Hv He H3 Hs. destruct HL as [H1 H2 H4 H5 H6 H7 [H8 H9]]. constructor; simpl; try done.
  - intros j w [[-> <-]|[Hne Hw]]%lookup_insert_Some; [|by apply H6]. split; [|done].
    destruct (H6 _ _ Hv) as [Hj _]. unfold joined in *. destruct (errs_of (loop s)) as [[k' es]|]; [|auto].
    case_decide; [lia|auto].
  - intros j es Hj. rewrite lookup_insert_is_Some'. right. by eapply H7.
  - split; [|intros j Hj; destruct (H9 j Hj) as [? Hn]; split; [done|]].
    + intros j Hj. apply lookup_insert_is_Some' in Hj as [<-|Hj]; [|by apply H8]. apply H8. by exists v.
    + rewrite lookup_insert_ne; [done|]. intros ->. congruence.
Qed.

(** The same where nothing is posted. *)
Lemma life_put_same s k v v' :
  life s -> serves s !! k = Some v -> errCh v' = errCh v -> posts v' = posts v -> stamp_ok k v' -> life (put_serve k v' s).
Proof. intros HL Hv He Hp Hs. eapply life_put; [done..|rewrite He, Hp; lia|by rewrite Hp|done]. Qed.

Lemma life_call i f s s' : on_call i f s = Some s' -> life s -> life s'.
Proof. unfold on_call. intros H. simplify_option_eq. by apply life_frame. Qed.

Lemma life_receive j f s s' : on_receive j f s = Some s' -> life s -> life s'.
Proof. unfold on_receive. intros H. simplify_option_eq. by apply life_frame. Qed.

Lemma stamp_same k v v' : stamp_ok k v -> recvg v' = recvg v -> stamp_ok k v'.
Proof. unfold stamp_ok. by intros ? ->. Qed.

Lemma life_retire k s : life s -> life (retire k s).
Proof. by apply life_frame. Qed.

Lemma life_retire_opt o s : life s -> life (retire_opt o s).
Proof. destruct o; [apply life_retire|done]. Qed.

(** ** Every act *)

(** The recv pump's acts. *)
Lemma life_recv s k v g :
  life s -> serves s !! k = Some v -> posted g = posted (recvg v) ->
  match g with Run (RReading h) | Run (ROffering h _) => h = Some k | _ => True end ->
  life (put_serve k (set_recvg g v) s).
Proof. intros HL Hv Hg Hs. eapply life_put_same; [done|done|done|unfold posts; simpl; by rewrite Hg|exact Hs]. Qed.

Lemma life_send s k v g :
  life s -> serves s !! k = Some v -> posted g = posted (sendg v) -> life (put_serve k (set_sendg g v) s).
Proof.
  intros HL Hv Hg. eapply life_put_same; [done|done|done|unfold posts; simpl; by rewrite Hg|].
  eapply stamp_same; [apply (li_joined _ HL k v Hv)|done].
Qed.

Lemma life_finish s k p v s' :
  life s -> serves s !! k = Some v -> finish_turn k p v s = Some s' -> life s'.
Proof.
  intros HL Hv H. destruct (li_joined _ HL k v Hv) as [_ Hs].
  assert (forall e v', stamp_ok k v' -> posts v' = S (posts v) -> errCh v' = errCh v ->
    life (put_serve k (set_errCh (errCh v ++ [e]) v') s)) as Hpost.
  { intros e v' Hst Hp He. pose proof (posts_le v'). eapply life_put; [done|done| |unfold posts in *; simpl; lia|].
    - unfold posts in *. simpl. rewrite length_app. simpl. lia.
    - eapply stamp_same; [exact Hst|done]. }
  assert (forall v', stamp_ok k v' -> posts v' = posts v -> errCh v' = errCh v -> life (retire k (put_serve k v' s))) as Hgone.
  { intros v' Hst Hp He. apply life_retire. by eapply life_put_same. }
  unfold finish_turn, finish in H.
  destruct p; [destruct (recvg v) eqn:E|destruct (sendg v) eqn:E|destruct (pingg v) eqn:E]; simplify_eq/=.
  all: first [apply Hpost|apply Hgone]; try done; try (unfold posts; simpl; rewrite E; simpl; lia).
Qed.

Lemma life_take s k e s' :
  life s -> take_err k s = Some (e, s') ->
  exists v l, serves s !! k = Some v /\ errCh v = e :: l /\ s' = put_serve k (set_errCh l v) s.
Proof.
  intros HL H. unfold take_err in H. destruct (serves s !! k) as [v|] eqn:Ev; simplify_eq/=.
  destruct (errCh v) as [|e' l] eqn:El; simplify_eq/=. by exists v, l.
Qed.

(** Taking an error in a serve that is being joined. *)
Lemma life_took s k es e s1 l' :
  life s -> take_err k s = Some (e, s1) -> errs_of (loop s) = Some (k, es) -> errs_of l' = Some (k, es ++ [e]) ->
  conn_of l' = conn_of (loop s) -> chan_of l' = chan_of (loop s) -> gen_of l' = gen_of (loop s) -> unborn l' = None ->
  life (goto l' s1).
Proof.
  intros HL H He He' Hc Hch Hg Hu. destruct (life_take _ _ _ _ HL H) as (v & l & Hv & El & ->).
  destruct HL as [H1 H2 H4 H5 H6 H7 [H8 H9]]. constructor; simpl; rewrite ?Hc, ?Hch, ?Hg, ?Hu; try done.
  - intros j w [[-> <-]|[Hne Hw]]%lookup_insert_Some.
    + destruct (H6 _ _ Hv) as [Hj Hs]. split; [|by eapply stamp_same]. unfold joined in *. rewrite He in Hj. rewrite He'.
      rewrite decide_True in * by done. rewrite El in Hj. rewrite length_app. unfold posts in *. simpl in *. lia.
    + destruct (H6 _ _ Hw) as [Hj Hs]. split; [|done]. unfold joined in *. rewrite He in Hj. rewrite He'.
      by rewrite decide_False in * by done.
  - intros j es' Hj. rewrite lookup_insert_is_Some'. right. rewrite He' in Hj. simplify_eq. by eapply H7.
  - split; [|done]. intros j Hj. apply lookup_insert_is_Some' in Hj as [<-|Hj]; apply H8; [by exists v|done].
Qed.

(** Only the loop's place changes, with the same goroutines accounted for. *)
Lemma life_goto s l' :
  life s -> conn s = conn_of l' -> (forall k, gen_of l' = Some k -> generation s = Some k) ->
  (connDone s ∈ chans s \/ chan_of l' = Some (connDone s)) -> (forall k, chan_of l' = Some k -> connDone s = k) ->
  errs_of l' = errs_of (loop s) ->
  (forall k, unborn l' = Some k -> k < next s /\ serves s !! k = None) -> life (goto l' s).
Proof.
  intros HL Hc Hg Hd Ho He Hu. destruct HL as [H1 H2 H4 H5 H6 H7 [H8 H9]]. constructor; simpl; try done.
  - intros j w Hw. unfold joined. rewrite He. by apply H6.
  - intros j es. rewrite He. apply H7.
Qed.

Lemma life_joined s k es :
  life s -> loop s = LJoin k es -> 3 <= length es -> forall j v, serves s !! j = Some v -> posts v = 3.
Proof.
  intros HL Hl Hes j v Hv. destruct (li_joined _ HL _ _ Hv) as [Hj _]. unfold joined in Hj. rewrite Hl in Hj. simpl in Hj.
  pose proof (posts_le v). case_decide; lia.
Qed.

Lemma life_loop s s' : life s -> loop_turn s = Some s' -> life s'.
Proof.
  intros HL H. pose proof HL as [H1 H2 H4 H5 H6 H7 [H8 H9]]. unfold loop_turn in H.
  destruct (loop s) eqn:El; try (injection H as <-); cbn [conn_of gen_of chan_of errs_of unborn] in *; try done.
  - case_match; apply life_goto; rewrite ?El; done.
  - case_match; apply life_goto; rewrite ?El; done.
  - destruct (H9 _ eq_refl) as [Hlt Hno]. destruct (generation s); constructor; simpl; try done; try (by intros ? [= <-]).
  - destruct (H9 _ eq_refl) as [Hlt Hno]. constructor; simpl; try done; try (by intros ? [= <-]); auto.
  - destruct (H9 _ eq_refl) as [Hlt Hno]. constructor; simpl; try done; auto.
    + intros j w [[<- <-]|[Hne Hw]]%lookup_insert_Some; unfold joined; simpl; [by rewrite decide_True|].
      rewrite decide_False by done. destruct (H6 _ _ Hw) as [Hj Hs]. done.
    + intros j es [= <- <-]. rewrite lookup_insert_is_Some'. auto.
    + split; [|done]. intros j [<-|Hj]%lookup_insert_is_Some'; auto.
  - destruct (take_err k s) as [[e s1]|] eqn:Et; simplify_eq/=.
    case_match; eapply life_took; rewrite ?El; try done.
  - destruct (take_err k s) as [[e s1]|] eqn:Et; simplify_eq/=. eapply life_took; rewrite ?El; done.
  - destruct (length es <? 3) eqn:E3.
    + destruct (take_err k s) as [[e s1]|] eqn:Et; simplify_eq/=. eapply life_took; rewrite ?El; done.
    + simplify_eq. apply Nat.ltb_ge in E3. constructor; simpl; auto; [|done]. intros j w Hw. split; [|by apply H6].
      unfold joined. simpl. by eapply life_joined.
  - constructor; simpl; auto.
    + left. rewrite (H5 _ eq_refl). apply elem_of_union_l, elem_of_singleton_2. done.
    + done.
Qed.

(** A pump at work is not back. *)
Lemma busy_posts v p : sendg v = Run p -> posts v < 3.
Proof. intros H. unfold posts. rewrite H. simpl. pose proof (posted_le (recvg v)). pose proof (posted_le (pingg v)). lia. Qed.

Lemma busy_posts_recv v p : recvg v = Run p -> posts v < 3.
Proof. intros H. unfold posts. rewrite H. simpl. pose proof (posted_le (sendg v)). pose proof (posted_le (pingg v)). lia. Qed.

Lemma life_send_turn s k v p s' :
  life s -> serves s !! k = Some v -> sendg v = Run p -> send_turn k v p s = Some s' -> life s'.
Proof.
  intros HL Hv Hp H. assert (forall g, posted g = 0 -> life (put_serve k (set_sendg g v) s)) as Hput.
  { intros g Hg. apply life_send; [done|done|by rewrite Hp, Hg]. }
  assert (forall i r c g, posted g = 0 -> life (put_serve k (set_sendg g v) (acknowledge i r c s))) as Hack.
  { intros i r c g Hg. unfold acknowledge. case_match; [|by apply Hput].
    eapply (life_frame (put_serve k (set_sendg g v) s)); try done. by apply Hput. }
  unfold send_turn in H. destruct p; repeat case_hyp H; simplify_option_eq; try (by apply Hput); try (by apply Hack).
  all: try (eapply life_frame; [..|by apply (Hput (Run (PIdle)))]; done).
  all: try by (eapply (life_frame (put_serve k (set_sendg _ v) s)); try done; by apply Hput).
Qed.

Lemma life_step a s s' : life s -> step a s = Some s' -> life s'.
Proof.
  intros HL H. destruct a; cbn [step] in H.
  - destruct (calls s !! i); simplify_eq. by apply (life_frame s).
  - by eapply life_call.
  - by eapply life_call.
  - unfold hand_over in H. destruct (calls s !! i) as [c|]; [|done]. destruct (serves s !! k) as [v|] eqn:Hv; [|done].
    destruct (stage c); try done. destruct (sendg v) as [[]| | |] eqn:Hp; simplify_eq.
    apply (life_frame (put_serve k (set_sendg (Run (PTaken i)) v) s)); try done.
    apply life_send; [done|done|by rewrite Hp].
  - by eapply life_call.
  - by eapply life_call.
  - destruct (serves s !! k) as [v|] eqn:Hv; simplify_eq/=. destruct (sendg v) eqn:Hp; simplify_eq. by eapply life_send_turn.
  - destruct (serves s !! k) as [v|] eqn:Hv; simplify_eq/=. destruct (sendg v) as [[]| | |] eqn:Hp; simplify_eq.
    apply life_send; [done|done|by rewrite Hp].
  - destruct (serves s !! k) as [v|] eqn:Hv; simplify_eq/=. unfold write_returns in H.
    destruct (sendg v) as [[]| | |] eqn:Hp; simplify_eq. destruct err.
    + apply life_send; [done|done|by rewrite Hp].
    + apply (life_frame (put_serve k (set_sendg (Run (PAcking i None)) v) s)); try done.
      apply life_send; [done|done|by rewrite Hp].
  - destruct (receives s !! j); simplify_eq. by apply (life_frame s).
  - by eapply life_receive.
  - by eapply life_receive.
  - by eapply life_receive.
  - destruct (serves s !! k) as [v|] eqn:Hv; simplify_eq/=. destruct (recvg v) as [p| | |] eqn:Hp; simplify_eq.
    unfold recv_turn in H. destruct p; repeat case_hyp H; simplify_eq; (apply life_recv; [done|done|by rewrite Hp|]); [|done].
    destruct (running_current s k v HL Hv (busy_posts_recv _ _ Hp)) as (es & _ & Hg & _). by apply (li_gen _ HL).
  - destruct (serves s !! k) as [v|] eqn:Hv; simplify_eq/=. unfold read_returns in H.
    destruct (li_joined _ HL k v Hv) as [_ Hs]. unfold stamp_ok in Hs.
    destruct (recvg v) as [[]| | |] eqn:Hp; simplify_eq. destruct answer.
    + apply (life_frame (put_serve k (set_recvg (Run (ROffering (Some k) s0)) v) s)); try done.
      apply life_recv; [done|done|by rewrite Hp|done].
    + apply life_recv; [done|done|by rewrite Hp|done].
  - unfold give in H. destruct (receives s !! j) as [r|]; [|done]. destruct (serves s !! k) as [v|] eqn:Hv; [|done].
    destruct (rstage_ r); try done. destruct (li_joined _ HL k v Hv) as [_ Hs]. unfold stamp_ok in Hs.
    destruct (recvg v) as [[]| | |] eqn:Hp; simplify_eq.
    apply (life_frame (put_serve k (set_recvg (Run (RReading (Some k))) v) s)); try done.
    apply life_recv; [done|done|by rewrite Hp|done].
  - destruct (serves s !! k) as [v|] eqn:Hv; simplify_eq/=. destruct (pingg v) as [[]| | |] eqn:Hp; simplify_eq.
    repeat case_hyp H; simplify_eq; (eapply life_put_same; [done|done|done|unfold posts; simpl; by rewrite Hp|]);
      (eapply stamp_same; [apply (li_joined _ HL k v Hv)|done]).
  - destruct (serves s !! k) as [v|] eqn:Hv; simplify_eq/=. by eapply life_finish.
  - by eapply life_loop.
  - destruct (loop s) eqn:El; simplify_eq. destruct HL as [H1 H2 H4 H5 H6 H7 [H8 H9]]. rewrite El in *.
    destruct ok; constructor; simpl in *; try done.
    split; [intros k Hk; by apply Nat.lt_lt_succ_r, H8|]. intros k [= <-]. split; [lia|].
    apply eq_None_not_Some. intros Hk. specialize (H8 _ Hk). lia.
  - destruct (loop s) eqn:El; simplify_eq. pose proof HL as [H1 H2 H4 H5 H6 H7 [H8 H9]]. rewrite El in *.
    apply life_goto; rewrite ?El; done.
  - destruct (loop s) eqn:El; simplify_eq. pose proof HL as [H1 H2 H4 H5 H6 H7 [H8 H9]]. rewrite El in *.
    destruct go; apply life_goto; rewrite ?El; done.
  - case_hyp H; simplify_eq. by apply (life_frame s).
  - simplify_eq. by apply (life_frame s).
  - repeat case_hyp H; simplify_eq; by apply (life_frame s).
  - case_hyp H; simplify_eq. by apply (life_frame s).
  - simplify_eq. unfold drop_live. case_match; [eapply (life_frame (retire_opt (generation s) s)); try done|]; by apply life_retire_opt.
  - case_hyp H; simplify_eq. by apply (life_frame s).
Qed.

Lemma reach_life s : reach s -> life s.
Proof. induction 1; [apply life_New|by eapply life_step]. Qed.

End TransportLife.
