(* ===== verification/TransportSends.v ===== *)
(** * The transport client's sends ([internal/transport]) *)
From Stdlib Require Import Ascii String.
From stdpp Require Import prelude strings list gmap.
From S2P Require Import Prelude TransportConnect Transport TransportLife.

Module TransportSends.

Import TransportConnect Transport TransportLife.

(** ** The pump's request *)

Definition request (p : spump) : option nat :=
  match p with
  | PIdle => None
  | PTaken i | PTesting i _ _ | PWriting i | PRetiring i _ | PAcking i _ => Some i
  end.

(** The send pump of a serve with the call whose request it has. *)
Definition pump_busy (g : goroutine spump) : option (nat * spump) :=
  match g with Run p => match request p with Some i => Some (i, p) | None => None end | _ => None end.
Definition busy (s : state) (k : nat) : option (nat * spump) :=
  match serves s !! k with Some v => pump_busy (sendg v) | None => None end.

Definition past (c : call) : Prop := stage c = Awaiting \/ exists r, stage c = Returned r.

(** A send's answer, given or on its way. *)
Definition answer (c : call) : option result := match stage c with Returned r => Some r | _ => ack c end.

Definition written (s : state) (i : nat) : Prop := i ∈ (wrote s).*2.

(** What the logs say at each point of the pump's work. *)
Definition progress (s : state) (k i : nat) (p : spump) : Prop :=
  match p with
  | PIdle => True
  | PTaken _ | PTesting _ _ _ => i ∉ (begun s).*2
  | PWriting _ => last (begun s) = Some (k, i) /\ ~ written s i
  | PRetiring _ _ => ~ written s i
  | PAcking _ (Some _) => ~ written s i /\ k ∈ socks s
  | PAcking _ None => (k, i) ∈ wrote s
  end.

Record call_ok (s : state) (i : nat) (c : call) : Prop := {
  co_plain : waits c = false -> caller c = false /\ expired c = false /\ ack c = None /\ stage c <> Awaiting;
  co_socket : forall g k, kind c = KSendGeneration (GMine g) -> sock c = Some k -> k = g;
  co_ack : is_Some (ack c) -> stage c = Awaiting;
  co_answer : forall r, waits c = true -> answer c = Some r ->
      (r = RNil <-> written s i) /\ (r = RFailed -> exists k, sock c = Some k /\ k ∈ socks s);
  co_await : stage c = Awaiting -> ack c = None -> exists k p, busy s k = Some (i, p);
}.

Record sends (s : state) : Prop := {
  se_nodup : NoDup (admitted s);
  se_past : forall i, i ∈ admitted s -> exists c, calls s !! i = Some c /\ past c;
  se_begun : (begun s).*2 `sublist_of` admitted s;
  se_wrote : wrote s `sublist_of` begun s;
  se_sock : forall k i, (k, i) ∈ begun s -> exists c, calls s !! i = Some c /\ sock c = Some k;
  se_busy : forall k i p, busy s k = Some (i, p) ->
      exists c, calls s !! i = Some c /\
        (if waits c then stage c = Awaiting /\ ack c = None else stage c = Returned RNil) /\
        last (admitted s) = Some i /\ (p = PTaken i \/ sock c = Some k) /\ progress s k i p;
  se_call : forall i c, calls s !! i = Some c -> call_ok s i c;
}.

Lemma sends_New : sends New.
Proof.
  constructor; simpl; try done; try constructor.
  - intros i []%not_elem_of_nil.
  - intros k i []%not_elem_of_nil.
Qed.

(** ** One pump at a time *)

Lemma busy_inv s k i p :
  busy s k = Some (i, p) -> exists v, serves s !! k = Some v /\ sendg v = Run p /\ request p = Some i.
Proof.
  unfold busy, pump_busy. destruct (serves s !! k) as [v|]; [|done]. destruct (sendg v) as [q| | |] eqn:E; try done.
  destruct (request q) eqn:Er; [|done]. intros [= <- <-]. eauto.
Qed.

Lemma busy_put s k v j :
  busy (put_serve k v s) j = if decide (k = j) then pump_busy (sendg v) else busy s j.
Proof.
  unfold busy. simpl. case_decide as E; [subst; by rewrite lookup_insert_eq|by rewrite lookup_insert_ne].
Qed.

Lemma busy_put_same s k v v' j :
  serves s !! k = Some v -> sendg v' = sendg v -> busy (put_serve k v' s) j = busy s j.
Proof. intros Hv Hg. rewrite busy_put. case_decide as E; [subst; unfold busy; by rewrite Hv, Hg|done]. Qed.

(** Where a pump runs no other has a request. *)
Lemma one_pump s k v p j :
  life s -> serves s !! k = Some v -> sendg v = Run p -> j <> k -> busy s j = None.
Proof.
  intros HL Hv Hp Hj. destruct (busy s j) as [[i q]|] eqn:E; [|done].
  destruct (busy_inv _ _ _ _ E) as (w & Hw & Hq & _).
  destruct (running_current s k v HL Hv (busy_posts _ _ Hp)) as (es & He & _).
  destruct (running_current s j w HL Hw (busy_posts _ _ Hq)) as (es' & He' & _). congruence.
Qed.

(** ** Acts that leave the sends *)

Lemma call_ok_frame s s' i c :
  wrote s' = wrote s -> socks s ⊆ socks s' -> (forall k, busy s' k = busy s k) -> call_ok s i c -> call_ok s' i c.
Proof.
  intros Hw Hs Hb [H1 H2 H3 H4 H5]. constructor; try done.
  - intros r Hc Hr. unfold written. rewrite Hw. destruct (H4 r Hc Hr) as [Ha Hb']. split; [done|].
    intros ->. destruct (Hb' eq_refl) as (k & ? & ?). exists k. split; [done|set_solver].
  - intros Ha Hk. destruct (H5 Ha Hk) as (k & p & ?). exists k, p. by rewrite Hb.
Qed.

Lemma progress_frame s s' k i p :
  begun s' = begun s -> wrote s' = wrote s -> socks s ⊆ socks s' -> progress s k i p -> progress s' k i p.
Proof.
  intros Hb Hw Hs. unfold progress, written. rewrite Hb, Hw. destruct p as [| | | | |? []]; try done. intros []. split; [done|set_solver].
Qed.

Lemma sends_frame s s' :
  calls s' = calls s -> admitted s' = admitted s -> begun s' = begun s -> wrote s' = wrote s ->
  socks s ⊆ socks s' -> (forall k, busy s' k = busy s k) -> sends s -> sends s'.
Proof.
  intros H1 H2 H3 H4 H5 H6 [S1 S2 S3 S4 S5 S6 S7]. constructor; rewrite ?H1, ?H2, ?H3, ?H4; try done.
  - intros k i p. rewrite H6. intros Hb. destruct (S6 k i p Hb) as (c & ? & ? & ? & ? & ?). exists c.
    repeat (split; [done|]). by apply (progress_frame s).
  - intros i c Hc. apply (call_ok_frame s); auto.
Qed.

(** A call changes: its request's fields stay once it is admitted, and its
    stage while the pump has it. *)
Lemma sends_put s i c c' :
  sends s -> calls s !! i = Some c -> waits c' = waits c ->
  (past c -> past c' /\ sock c' = sock c) ->
  (forall k p, busy s k = Some (i, p) -> stage c' = stage c /\ ack c' = ack c) ->
  call_ok s i c' -> sends (put_call i c' s).
Proof.
  intros [S1 S2 S3 S4 S5 S6 S7] Hc Hw Hp Hb Hok. constructor; simpl; try done.
  - intros j Hj. destruct (S2 j Hj) as (d & Hd & Hpd). destruct (decide (i = j)) as [->|Hne].
    + simplify_eq. exists c'. rewrite lookup_insert_eq. split; [done|by apply Hp].
    + exists d. by rewrite lookup_insert_ne.
  - intros k j Hj. destruct (S5 k j Hj) as (d & Hd & Hs). destruct (decide (i = j)) as [->|Hne].
    + simplify_eq. exists c'. rewrite lookup_insert_eq. split; [done|]. rewrite <- Hs. apply Hp.
      assert (j ∈ admitted s) as Hj'.
      { eapply elem_of_sublist; [|exact S3]. apply list_elem_of_fmap. by exists (k, j). }
      destruct (S2 _ Hj') as (d & ? & ?). by simplify_eq.
    + exists d. by rewrite lookup_insert_ne.
  - intros k j p Hj. change (busy s k = Some (j, p)) in Hj. destruct (S6 k j p Hj) as (d & Hd & Hst & Hl & Hs & Hpr).
    destruct (decide (i = j)) as [->|Hne].
    + simplify_eq. exists c'. rewrite lookup_insert_eq. destruct (Hb k p Hj) as [Hst' Ha'].
      rewrite Hw, Hst', Ha'. repeat (split; [done|]). split; [|done]. destruct Hs as [Hs|Hs]; [by left|right].
      rewrite <- Hs. apply Hp. unfold past. destruct (waits c); [left; tauto|right; eauto].
    + exists d. by rewrite lookup_insert_ne.
  - intros j d [[<- <-]|[Hne Hd]]%lookup_insert_Some; apply (call_ok_frame s); try done; by apply S7.
Qed.

Lemma waits_kind c c' : kind c' = kind c -> waits c' = waits c.
Proof. unfold waits. by intros ->. Qed.

(** A call that the pump has or has had is past its [select]. *)
Lemma busy_past s i c k p : sends s -> calls s !! i = Some c -> busy s k = Some (i, p) -> past c.
Proof.
  intros HS Hc Hb. destruct (se_busy _ HS k i p Hb) as (d & ? & Hst & _). simplify_eq. unfold past.
  destruct (waits c); [left; tauto|right; eauto].
Qed.

Lemma written_admitted s i : sends s -> written s i -> i ∈ admitted s.
Proof.
  intros HS H. eapply elem_of_sublist; [|apply (se_begun _ HS)].
  unfold written in H. apply list_elem_of_fmap in H as (x & -> & Hx). apply list_elem_of_fmap. exists x. split; [done|].
  eapply elem_of_sublist; [done|apply (se_wrote _ HS)].
Qed.

Lemma not_past_written s i c : sends s -> calls s !! i = Some c -> ~ past c -> ~ written s i.
Proof.
  intros HS Hc Hp H. destruct (se_past _ HS i (written_admitted _ _ HS H)) as (d & ? & ?). by simplify_eq.
Qed.

(** ** A call's own turns *)

(** Before its admission a call has no answer but one that is not nil. *)
Lemma call_ok_unsent s i c :
  ~ written s i -> (waits c = false -> caller c = false /\ expired c = false) -> ack c = None -> stage c <> Awaiting ->
  (forall g k, kind c = KSendGeneration (GMine g) -> sock c = Some k -> k = g) ->
  (forall r, stage c = Returned r -> r <> RNil /\ r <> RFailed) -> call_ok s i c.
Proof.
  intros Hw Hp Ha Hs Hk Hr. constructor; try done.
  - intros H. destruct (Hp H). done.
  - rewrite Ha. by intros [].
  - intros r _. unfold answer. destruct (stage c) eqn:E; rewrite ?Ha; try done. intros [= <-].
    destruct (Hr r0 eq_refl). split; [split; [done|by intros]|done].
Qed.

Lemma sends_unsent s i c c' :
  sends s -> calls s !! i = Some c -> ~ past c -> kind c' = kind c ->
  caller c' = caller c -> (waits c = false -> expired c' = expired c) -> ack c' = ack c -> stage c' <> Awaiting ->
  (forall g k, kind c' = KSendGeneration (GMine g) -> sock c' = Some k -> k = g) ->
  (forall r, stage c' = Returned r -> r <> RNil /\ r <> RFailed) -> sends (put_call i c' s).
Proof.
  intros HS Hc Hp Hk H1 H2 H3 H4 H5 H6. pose proof (se_call _ HS i c Hc) as [K1 K2 K3 K4 K5].
  assert (ack c = None) as Ha.
  { destruct (ack c); [|done]. destruct Hp. left. apply K3. by eexists. }
  eapply sends_put; [done|done|by apply waits_kind|by intros ?|intros k p Hb; by destruct (Hp (busy_past _ _ _ _ _ HS Hc Hb))|].
  apply call_ok_unsent; try done.
  - by eapply not_past_written.
  - rewrite (waits_kind c c' Hk). intros Hw. destruct (K1 Hw) as (? & ? & _). by rewrite H1, H2.
  - by rewrite H3.
Qed.

Lemma sends_call_turn s i c c' :
  life s -> sends s -> calls s !! i = Some c -> call_turn s c = Some c' -> sends (put_call i c' s).
Proof.
  intros HL HS Hc H. pose proof (se_call _ HS i c Hc) as [K1 K2 K3 K4 K5]. unfold call_turn in H.
  destruct (stage c) as [| | | | |d| |r] eqn:Es.
  1-5: assert (~ past c) as Hp by (unfold past; rewrite Es; intros [?|[? ?]]; done).
  - unfold waits in K1. destruct (kind c) as [| |[| |g]] eqn:Ek; simplify_eq;
      (apply (sends_unsent s i c); [done|done|done|done|done| |done|done| |]); simpl; try done;
      unfold waits; rewrite ?Ek; try done; intros; first [congruence|split; congruence|eapply K2; congruence].
  - simplify_eq. apply (sends_unsent s i c); simpl; try done; destruct (expired c); try done; intros; by simplify_eq.
  - simplify_eq. apply (sends_unsent s i c); simpl; try done; destruct (closed s); try done; intros; by simplify_eq.
  - cbv zeta in H. match type of H with (if ?b then _ else _) = _ => destruct b eqn:Hb end.
    { simplify_eq. apply (sends_unsent s i c); simpl; try done; intros; by simplify_eq. }
    destruct (conn s) as [k|] eqn:Ek; simplify_eq; (apply (sends_unsent s i c); simpl; try done); [|intros; by simplify_eq].
    intros g j Hk [= <-]. simpl in Hk. rewrite Hk in Hb. apply orb_false_iff in Hb as [Hg _]. apply negb_false_iff, bool_decide_eq_true in Hg.
    rewrite (li_conn _ HL) in Ek. assert (gen_of (loop s) = Some k) as Hgen by (destruct (loop s); simpl in *; congruence).
    pose proof (li_gen _ HL k Hgen). congruence.
  - simplify_eq. apply (sends_unsent s i c); simpl; try done.
  - done.
  - destruct (ack c) as [r|] eqn:Ea; [|done]. simplify_eq. eapply sends_put; [done|done|done| | |].
    + intros _. split; [right; by eexists|done].
    + intros k p Hb. destruct (se_busy _ HS _ _ _ Hb) as (d & ? & Hst & _). simplify_eq. destruct (waits c); [|congruence].
      destruct Hst. congruence.
    + constructor; simpl; try done.
      * intros Hw. destruct (K1 Hw) as (? & ? & ? & ?). done.
      * intros r' Hw [= <-]. apply K4; [done|]. unfold answer. by rewrite Es, Ea.
  - done.
Qed.

Lemma sends_select s i c c' w :
  sends s -> calls s !! i = Some c -> select_turn s w c = Some c' -> sends (put_call i c' s).
Proof.
  intros HS Hc H. pose proof (se_call _ HS i c Hc) as [K1 K2 K3 K4 K5]. unfold select_turn in H.
  destruct (stage c) as [| | | | |d| |r] eqn:Es; try done.
  assert (~ past c) as Hp by (unfold past; rewrite Es; intros [?|[? ?]]; done).
  destruct w; case_hyp H; simplify_eq; apply (sends_unsent s i c); simpl; try done; intros; by simplify_eq.
Qed.

(** A context of a waiting call is done. *)
Lemma sends_context s i c c' :
  sends s -> calls s !! i = Some c -> waits c = true -> kind c' = kind c -> stage c' = stage c -> ack c' = ack c ->
  sock c' = sock c -> sends (put_call i c' s).
Proof.
  intros HS Hc Hw Hk Hs Ha Hso. pose proof (se_call _ HS i c Hc) as [K1 K2 K3 K4 K5].
  eapply sends_put; [done|done|by apply waits_kind| |done|].
  - intros Hp. unfold past in *. rewrite Hs. done.
  - pose proof (waits_kind c c' Hk) as Hwk. constructor; unfold answer in *; rewrite ?Hk, ?Hs, ?Ha, ?Hso, ?Hwk; try done. congruence.
Qed.

(** ** The pump's turns *)

(** The pump goes on with a request, the logs as they are. *)
Lemma sends_move s s' k i p q :
  sends s -> busy s k = Some (i, p) -> calls s' = calls s -> admitted s' = admitted s -> begun s' = begun s ->
  wrote s' = wrote s -> socks s ⊆ socks s' -> (forall j, busy s' j = if decide (k = j) then Some (i, q) else busy s j) ->
  (forall c, calls s !! i = Some c -> sock c = Some k) -> progress s' k i q -> sends s'.
Proof.
  intros [S1 S2 S3 S4 S5 S6 S7] Hb H1 H2 H3 H4 H5 H6 Hso Hq. constructor; rewrite ?H1, ?H2, ?H3, ?H4; try done.
  - intros j i' p'. rewrite H6. case_decide as E; [subst j; intros [= <- <-]|].
    + destruct (S6 _ _ _ Hb) as (c & Hc & ? & ? & _). exists c. repeat (split; [done|]). split; [right; by apply Hso|done].
    + intros Hj. destruct (S6 _ _ _ Hj) as (c & ? & ? & ? & ? & ?). exists c. repeat (split; [done|]). by apply (progress_frame s).
  - intros j c Hc. destruct (S7 j c Hc) as [K1 K2 K3 K4 K5]. constructor; try done.
    + intros r Hw Hr. unfold written. rewrite H4. destruct (K4 r Hw Hr) as [? Hf]. split; [done|]. intros ->.
      destruct (Hf eq_refl) as (m & ? & ?). exists m. split; [done|set_solver].
    + intros Hs Ha. destruct (K5 Hs Ha) as (m & p' & Hm). destruct (decide (k = m)) as [->|Hne].
      * exists m, q. rewrite H6, decide_True by done. rewrite Hb in Hm. by simplify_eq.
      * exists m, p'. by rewrite H6, decide_False.
Qed.

(** The request is answered. *)
Lemma sends_ack s s' k i p c r :
  sends s -> busy s k = Some (i, p) -> (forall j, j <> k -> busy s j = None) -> calls s !! i = Some c ->
  calls s' = calls (acknowledge i r c s) -> admitted s' = admitted s -> begun s' = begun s -> wrote s' = wrote s ->
  socks s ⊆ socks s' -> (forall j, busy s' j = None) ->
  (r = RNil <-> written s i) -> (r = RFailed -> sock c = Some k /\ k ∈ socks s') -> sends s'.
Proof.
  intros [S1 S2 S3 S4 S5 S6 S7] Hb Hone Hc H1 H2 H3 H4 H5 H6 Hr Hf.
  destruct (S6 _ _ _ Hb) as (d & Hd & Hst & Hl & Hs & Hpr). simplify_eq.
  assert (forall j e, calls s' !! j = Some e -> exists e0, calls s !! j = Some e0 /\ kind e = kind e0 /\ stage e = stage e0 /\
    sock e = sock e0 /\ caller e = caller e0 /\ expired e = expired e0 /\
    (ack e = ack e0 \/ (j = i /\ waits e = true /\ ack e = Some r))) as Hback.
  { intros j e. rewrite H1. unfold acknowledge. destruct (waits c) eqn:Hw; [|intros ?; exists e; naive_solver].
    simpl. intros [[<- <-]|[Hne He]]%lookup_insert_Some; [exists c|exists e]; naive_solver. }
  assert (forall j e0, calls s !! j = Some e0 -> exists e, calls s' !! j = Some e /\ stage e = stage e0 /\ sock e = sock e0) as Hfwd.
  { intros j e0 He0. rewrite H1. unfold acknowledge. destruct (waits c); [|by exists e0]. simpl.
    destruct (decide (i = j)) as [->|Hne]; [simplify_eq; eexists; by rewrite lookup_insert_eq|exists e0; by rewrite lookup_insert_ne]. }
  constructor; rewrite ?H2, ?H3, ?H4; try done.
  - intros j Hj. destruct (S2 j Hj) as (e0 & He0 & Hp). destruct (Hfwd _ _ He0) as (e & ? & Hse & _). exists e. split; [done|].
    unfold past in *. by rewrite Hse.
  - intros m j Hj. destruct (S5 m j Hj) as (e0 & He0 & Hp). destruct (Hfwd _ _ He0) as (e & ? & _ & Hso). exists e. split; [done|congruence].
  - intros j i' p'. by rewrite H6.
  - intros j e He. destruct (Hback j e He) as (e0 & He0 & Hk & Hse & Hso & Hca & Hex & Ha).
    destruct (S7 j e0 He0) as [K1 K2 K3 K4 K5]. pose proof (waits_kind e0 e Hk) as Hwk.
    assert (waits e = true -> j = i -> stage e0 = Awaiting) as Haw.
    { intros Hw ->. simplify_eq. rewrite <- Hwk, Hw in Hst. apply Hst. }
    constructor.
    + rewrite Hwk. intros Hw. destruct (K1 Hw) as (? & ? & ? & ?). rewrite Hca, Hex, Hse. repeat split; try done.
      destruct Ha as [Ha|(_ & Hw' & _)]; congruence.
    + intros g m. rewrite Hk, Hso. apply K2.
    + rewrite Hse. destruct Ha as [Ha|(Hj & Hw' & _)]; [rewrite Ha; apply K3|auto].
    + intros r' Hw Hr'. unfold written. rewrite H4. destruct Ha as [Ha|(-> & Hw' & Ha)].
      * rewrite Hwk in Hw. unfold answer in Hr'. rewrite Hse, Ha in Hr'. destruct (K4 r' Hw Hr') as [? Hf'].
        split; [done|]. intros ->. destruct (Hf' eq_refl) as (m & ? & ?). exists m. split; [congruence|set_solver].
      * unfold answer in Hr'. rewrite Hse, (Haw Hw eq_refl), Ha in Hr'. simplify_eq. split; [done|].
        intros ->. exists k. rewrite Hso. by apply Hf.
    + intros Hs' Ha'. destruct Ha as [Ha|(_ & _ & Ha)]; [|congruence]. rewrite Hse in Hs'. rewrite Ha in Ha'.
      destruct (K5 Hs' Ha') as (m & p' & Hm). destruct (decide (m = k)) as [->|Hne]; [|by rewrite (Hone m Hne) in Hm].
      rewrite Hb in Hm. simplify_eq. exfalso. destruct (waits c) eqn:Hw; [|congruence].
      rewrite H1 in He. unfold acknowledge in He. rewrite Hw in He. simpl in He. rewrite lookup_insert_eq in He.
      injection He as <-. simpl in Ha. congruence.
Qed.

Lemma sublist_snoc_notin {A} (l a : list A) x : l `sublist_of` (a ++ [x]) -> x ∉ l -> l `sublist_of` a.
Proof.
  intros (l1 & l2 & -> & H1 & H2)%sublist_app_r Hx. destruct l2 as [|y l2]; [by rewrite app_nil_r|].
  assert (y ∈ [x]) as ->%list_elem_of_singleton by (eapply elem_of_sublist; [by left|done]).
  destruct Hx. set_solver.
Qed.

Lemma last_snoc_inv {A} (l : list A) x : last l = Some x -> exists a, l = a ++ [x].
Proof. apply last_Some. Qed.

(** A request is received from [sendCh]. *)
Lemma sends_hand s s' i k : life s -> sends s -> hand_over i k s = Some s' -> sends s'.
Proof.
  intros HL HS H. unfold hand_over in H. destruct (calls s !! i) as [c|] eqn:Hc; [|done].
  destruct (serves s !! k) as [v|] eqn:Hv; [|done]. destruct (stage c) as [| | | | |d| |] eqn:Es; try done.
  destruct (sendg v) as [[]| | |] eqn:Hp; simplify_eq.
  assert (forall j, busy s j = None) as Hone.
  { intros j. destruct (decide (j = k)) as [->|Hne]; [unfold busy; by rewrite Hv, Hp|by eapply one_pump]. }
  assert (~ past c) as Hnp by (unfold past; rewrite Es; intros [?|[? ?]]; done).
  assert (i ∉ admitted s) as Hni. { intros Hi. destruct (se_past _ HS i Hi) as (e & ? & ?). by simplify_eq. }
  pose proof (not_past_written _ _ _ HS Hc Hnp) as Hnw. destruct (se_call _ HS i c Hc) as [K1 K2 K3 K4 K5].
  assert (ack c = None) as Ha. { destruct (ack c); [|done]. destruct Hnp. left. apply K3. by eexists. }
  set (c' := set_stage (if waits c then Awaiting else Returned RNil) c). fold c'.
  set (s' := set_admitted _ _). assert (forall j, busy s' j = if decide (k = j) then Some (i, PTaken i) else None) as Hb.
  { intros j. change (busy s' j) with (busy (put_serve k (set_sendg (Run (PTaken i)) v) s) j). rewrite busy_put.
    case_decide; [done|apply Hone]. }
  assert (waits c' = waits c) as Hw by done.
  destruct HS as [S1 S2 S3 S4 S5 S6 S7]. constructor; simpl; try done.
  - apply NoDup_app. split; [done|]. split; [|apply NoDup_singleton]. intros j Hj ->%list_elem_of_singleton. done.
  - intros j [Hj| ->%list_elem_of_singleton]%elem_of_app.
    + destruct (S2 j Hj) as (e & He & Hpe). exists e. rewrite lookup_insert_ne; [done|]. intros ->. done.
    + exists c'. rewrite lookup_insert_eq. split; [done|]. unfold past, c'. simpl. destruct (waits c); eauto.
  - by apply sublist_inserts_r.
  - intros m j Hj. destruct (S5 m j Hj) as (e & He & Hpe). exists e. rewrite lookup_insert_ne; [done|]. intros ->.
    destruct Hni. eapply elem_of_sublist; [|exact S3]. apply list_elem_of_fmap. by exists (m, j).
  - intros m j q. rewrite Hb. case_decide as E; [subst m; intros [= <- <-]|done]. exists c'. rewrite lookup_insert_eq.
    rewrite last_snoc, Hw. change (ack c') with (ack c). change (stage c') with (if waits c then Awaiting else Returned RNil).
    split; [done|]. split; [by destruct (waits c)|]. split; [done|]. split; [by left|].
    intros Hi. destruct Hni. by eapply elem_of_sublist.
  - intros j e [[<- <-]|[Hne He]]%lookup_insert_Some.
    + constructor; simpl; rewrite ?Ha; try done.
      * intros H. rewrite Hw in H. destruct (K1 H) as (? & ? & _). by rewrite H.
      * intros r Hwc. rewrite Hw in Hwc. unfold answer, c'. simpl. by rewrite Hwc, Ha.
      * intros _ _. exists k, (PTaken i). by rewrite Hb, decide_True.
    + destruct (S7 j e He) as [J1 J2 J3 J4 J5]. constructor; try done.
      intros H1 H2. destruct (J5 H1 H2) as (m & p & Hm). by rewrite Hone in Hm.
Qed.

Lemma busy_intro s k v p i : serves s !! k = Some v -> sendg v = Run p -> request p = Some i -> busy s k = Some (i, p).
Proof. intros Hv Hp Hr. unfold busy, pump_busy. by rewrite Hv, Hp, Hr. Qed.

(** What the pump's state is once its serve is put back. *)
Lemma busy_pump s k v p j :
  busy (put_serve k (set_sendg p v) s) j = if decide (k = j) then pump_busy p else busy s j.
Proof. apply busy_put. Qed.

Lemma sends_start_write s k v i w :
  life s -> sends s -> serves s !! k = Some v -> sendg v = Run (PTesting i w []) ->
  sends (set_begun (begun s ++ [(k, i)]) (put_serve k (set_sendg (Run (PWriting i)) v) s)).
Proof.
  intros HL HS Hv Hp. pose proof (busy_intro s k v _ i Hv Hp eq_refl) as Hb.
  destruct (se_busy _ HS _ _ _ Hb) as (c & Hc & Hst & Hl & [Hs|Hs] & Hpr); [done|]. simpl in Hpr.
  set (s' := set_begun _ _). assert (forall j, busy s' j = if decide (k = j) then Some (i, PWriting i) else None) as Hb'.
  { intros j. change (busy s' j) with (busy (put_serve k (set_sendg (Run (PWriting i)) v) s) j). rewrite busy_pump.
    case_decide as E; [done|]. eapply one_pump; [done..|]. by intros ->. }
  assert (~ written s i) as Hnw.
  { intros Hw. apply Hpr. unfold written in Hw. apply list_elem_of_fmap in Hw as (x & -> & Hx). apply list_elem_of_fmap.
    exists x. split; [done|]. eapply elem_of_sublist; [done|apply (se_wrote _ HS)]. }
  destruct HS as [S1 S2 S3 S4 S5 S6 S7]. constructor; simpl; try done.
  - rewrite fmap_app. simpl. apply last_Some in Hl as [a Ha]. rewrite Ha in *. apply sublist_app; [|done].
    by apply sublist_snoc_notin in S3.
  - by apply sublist_inserts_r.
  - intros m j [Hj|[= -> ->]%list_elem_of_singleton]%elem_of_app; [by apply S5|by exists c].
  - intros m j q. rewrite Hb'. case_decide as E; [subst m; intros [= <- <-]|done]. exists c.
    repeat (split; [done|]). split; [by right|]. simpl. by rewrite last_snoc.
  - intros j e He. destruct (S7 j e He) as [J1 J2 J3 J4 J5]. constructor; try done.
    intros H1 H2. destruct (J5 H1 H2) as (m & p & Hm). destruct (decide (k = m)) as [->|Hne].
    + rewrite Hb in Hm. simplify_eq. exists m, (PWriting j). by rewrite Hb', decide_True.
    + by rewrite (one_pump s k v _ m HL Hv Hp) in Hm by done.
Qed.

Lemma sends_wrote s k v i :
  life s -> sends s -> serves s !! k = Some v -> sendg v = Run (PWriting i) ->
  sends (set_wrote (wrote s ++ [(k, i)]) (put_serve k (set_sendg (Run (PAcking i None)) v) s)).
Proof.
  intros HL HS Hv Hp. pose proof (busy_intro s k v _ i Hv Hp eq_refl) as Hb.
  destruct (se_busy _ HS _ _ _ Hb) as (c & Hc & Hst & Hl & [Hs|Hs] & [Hlb Hnw]); [done|].
  set (s' := set_wrote _ _). assert (forall j, busy s' j = if decide (k = j) then Some (i, PAcking i None) else None) as Hb'.
  { intros j. change (busy s' j) with (busy (put_serve k (set_sendg (Run (PAcking i None)) v) s) j). rewrite busy_pump.
    case_decide as E; [done|]. eapply one_pump; [done..|]. by intros ->. }
  assert (forall j, written s' j <-> written s j \/ j = i) as Hws.
  { intros j. unfold written, s'. simpl. rewrite fmap_app, elem_of_app. simpl. by rewrite list_elem_of_singleton. }
  destruct HS as [S1 S2 S3 S4 S5 S6 S7]. constructor; simpl; try done.
  - apply last_Some in Hlb as [a Ha]. rewrite Ha in *. apply sublist_app; [|done].
    apply sublist_snoc_notin in S4; [done|]. intros Hin. destruct Hnw. apply list_elem_of_fmap. by exists (k, i).
  - intros m j q. rewrite Hb'. case_decide as E; [subst m; intros [= <- <-]|done]. exists c.
    repeat (split; [done|]). split; [by right|]. simpl. set_solver.
  - intros j e He. destruct (S7 j e He) as [J1 J2 J3 J4 J5]. constructor; try done.
    + intros r Hw Hr. rewrite Hws. destruct (J4 r Hw Hr) as [Ja Jf]. split; [|done]. split; [intros; left; by apply Ja|].
      intros [?| ->]; [by apply Ja|]. simplify_eq. rewrite Hw in Hst. destruct Hst as [Hst Hack].
      unfold answer in Hr. rewrite Hst, Hack in Hr. done.
    + intros H1 H2. destruct (J5 H1 H2) as (m & p & Hm). destruct (decide (k = m)) as [->|Hne].
      * rewrite Hb in Hm. simplify_eq. exists m, (PAcking j None). by rewrite Hb', decide_True.
      * by rewrite (one_pump s k v _ m HL Hv Hp) in Hm by done.
Qed.

Lemma unbegun_unwritten s i : sends s -> i ∉ (begun s).*2 -> ~ written s i.
Proof.
  intros HS Hb Hw. apply Hb. unfold written in Hw. apply list_elem_of_fmap in Hw as (x & -> & Hx). apply list_elem_of_fmap.
  exists x. split; [done|]. eapply elem_of_sublist; [done|apply (se_wrote _ HS)].
Qed.

Lemma acknowledge_busy i r c s j : busy (acknowledge i r c s) j = busy s j.
Proof. unfold acknowledge. by case_match. Qed.

Lemma sends_send_turn s s' k v p :
  life s -> sends s -> serves s !! k = Some v -> sendg v = Run p -> send_turn k v p s = Some s' -> sends s'.
Proof.
  intros HL HS Hv Hp H.
  assert (forall j, j <> k -> busy s j = None) as Hone by (intros j Hj; by eapply one_pump).
  destruct (request p) as [i|] eqn:Er.
  2: { destruct p; simplify_eq. unfold send_turn in H. case_hyp H; simplify_eq. apply (sends_frame s); try done.
       intros j. rewrite busy_pump. case_decide; [|done]. subst. unfold busy. by rewrite Hv, Hp. }
  pose proof (busy_intro s k v p i Hv Hp Er) as Hb. destruct (se_busy _ HS _ _ _ Hb) as (c & Hc & Hst & Hl & Hs & Hpr).
  assert (forall q (s1 : state), p <> PTaken i -> request q = Some i -> calls s1 = calls s -> admitted s1 = admitted s ->
    begun s1 = begun s -> wrote s1 = wrote s -> socks s ⊆ socks s1 -> serves s1 = <[k := set_sendg (Run q) v]> (serves s) ->
    progress s1 k i q -> sends s1) as Hmove.
  { intros q s1 Hnt Hq ? ? ? ? ? Hsv Hpq. eapply (sends_move s s1 k i p q); try done.
    - intros j. unfold busy. rewrite Hsv. case_decide as E; [subst; rewrite lookup_insert_eq; simpl; by rewrite Hq|by rewrite lookup_insert_ne].
    - intros e He. simplify_eq. by destruct Hs. }
  assert (forall r g s1, pump_busy g = None -> s1 = put_serve k (set_sendg g v) (acknowledge i r c s) ->
    (r = RNil <-> written s i) -> (r = RFailed -> sock c = Some k /\ k ∈ socks s) -> sends s1) as Hack.
  { intros r g s1 Hg -> Hr Hf. eapply (sends_ack s _ k i p c r); try done; try (unfold acknowledge; by case_match).
    intros j. rewrite busy_pump. case_decide; [done|]. rewrite acknowledge_busy. apply Hone. by intros ->. }
  destruct p as [|i'|i' w [|t todo]|i'|i' e|i' [e|]]; simpl in Er; simplify_eq; cbn [send_turn] in H.
  - rewrite Hc in H. simpl in H. case_bool_decide as E; simplify_eq.
    + eapply (sends_move s _ k i (PTaken i) (PTesting i (expired c) [ChkCaller; ChkWrite; ChkServe; ChkGeneration]));
        try done; [|intros ? ?; by simplify_eq].
      intros j. rewrite busy_pump. by case_decide.
    + eapply (Hack RDisconnected); [|done| |done]; [done|]. split; [done|]. intros Hw. by destruct (unbegun_unwritten _ _ HS Hpr).
  - simplify_eq. by apply (sends_start_write s k v i w).
  - rewrite Hc in H. simpl in H. simplify_eq. destruct (test_fails s k c w t).
    + eapply (Hmove (PRetiring i (Sentinel Canceled))); try done. by apply (unbegun_unwritten s).
    + by eapply (Hmove (PTesting i w todo)).
  - simplify_eq. eapply (Hmove (PAcking i (Some (safeTransportError "send" e)))); try done; simpl; [set_solver|].
    split; [done|set_solver].
  - rewrite Hc in H. simpl in H. simplify_eq. destruct Hpr as [Hw Hk]. eapply (Hack RFailed); [|done|split; [done|intros; done]|]; [done|].
    intros _. split; [by destruct Hs|done].
  - rewrite Hc in H. simpl in H. simplify_eq. eapply (Hack RNil); [|done| |done]; [done|]. split; [|done]. intros _.
    apply list_elem_of_fmap. by exists (k, i).
Qed.

(** ** Every act *)

(** What no turn of the loop or end of a goroutine changes. *)
Definition sends_same (s s' : state) : Prop :=
  calls s' = calls s /\ admitted s' = admitted s /\ begun s' = begun s /\ wrote s' = wrote s /\ socks s ⊆ socks s' /\
  forall k, busy s' k = busy s k.

Lemma same_sends s s' : sends_same s s' -> sends s -> sends s'.
Proof. intros (? & ? & ? & ? & ? & ?). by apply sends_frame. Qed.

Lemma same_put s k v v' : serves s !! k = Some v -> sendg v' = sendg v -> sends_same s (put_serve k v' s).
Proof. intros Hv Hg. repeat split; try done. intros j. by apply (busy_put_same s k v). Qed.

Lemma same_retire s k s' : sends_same s s' -> sends_same s (retire k s').
Proof. done. Qed.

Lemma same_goto s l s' : sends_same s s' -> sends_same s (goto l s').
Proof. done. Qed.

Lemma same_take s k e s' : life s -> take_err k s = Some (e, s') -> sends_same s s'.
Proof. intros HL H. destruct (life_take _ _ _ _ HL H) as (v & l & Hv & _ & ->). by apply (same_put s k v). Qed.

Lemma loop_keeps_sends s s' : life s -> loop_turn s = Some s' -> sends_same s s'.
Proof.
  intros HL H. unfold loop_turn in H. destruct (loop s) eqn:El; try done; try (injection H as <-); try done.
  - by destruct (generation s).
  - destruct (proj2 (li_next _ HL) k) as [_ Hno]; [by rewrite El|]. repeat split; try done. intros j.
    change (busy (put_serve k (MkServe (Run RInit) (Run PIdle) (Run tt) []) s) j = busy s j). rewrite busy_put.
    case_decide as E; [subst; unfold busy; by rewrite Hno|done].
  - destruct (take_err k s) as [[e s1]|] eqn:Et; simplify_eq/=. apply same_goto. by eapply same_take.
  - destruct (take_err k s) as [[e s1]|] eqn:Et; simplify_eq/=. apply same_goto. by eapply same_take.
  - case_match; simplify_eq; [|done]. destruct (take_err k s) as [[e s1]|] eqn:Et; simplify_eq/=. apply same_goto. by eapply same_take.
  - repeat split; try done. simpl. set_solver.
Qed.

Lemma finish_same s s' k p v : serves s !! k = Some v -> finish_turn k p v s = Some s' -> sends_same s s'.
Proof.
  intros Hv H.
  assert (forall w, pump_busy (sendg w) = pump_busy (sendg v) -> sends_same s (put_serve k w s)) as Hput.
  { intros w Hw. repeat split; try done. intros j. rewrite busy_put. case_decide; [|done]. subst. unfold busy. by rewrite Hv, Hw. }
  unfold finish_turn, finish in H.
  destruct p; [destruct (recvg v) eqn:E|destruct (sendg v) eqn:E|destruct (pingg v) eqn:E]; simplify_eq/=.
  all: try apply same_retire; apply Hput; simpl; by rewrite ?E.
Qed.

Lemma sends_step a s s' : life s -> sends s -> step a s = Some s' -> sends s'.
Proof.
  intros HL HS H. destruct a; cbn [step] in H.
  - destruct (calls s !! i) eqn:Hc; simplify_eq. destruct HS as [S1 S2 S3 S4 S5 S6 S7].
    assert (forall f kd j c, calls s !! j = Some c -> <[i := MkCall f kd false false AtStart None None]> (calls s) !! j = Some c) as Hne.
    { intros f kd j c Hj. rewrite lookup_insert_ne; [done|]. intros ->. congruence. }
    constructor; simpl; try done.
    + intros j Hj. destruct (S2 j Hj) as (c & ? & ?). eauto.
    + intros k j Hj. destruct (S5 k j Hj) as (c & ? & ?). eauto.
    + intros k j p Hj. destruct (S6 k j p Hj) as (c & ? & ?). eauto.
    + intros j c [[<- <-]|[_ Hj]]%lookup_insert_Some; [|by apply (call_ok_frame s); auto].
      apply call_ok_unsent; try done. intros Hw. destruct (S2 i) as (c & ? & _); [|congruence].
      unfold written in Hw. apply list_elem_of_fmap in Hw as (x & -> & Hx). eapply elem_of_sublist; [|exact S3].
      apply list_elem_of_fmap. exists x. split; [done|by eapply elem_of_sublist].
  - unfold on_call in H. destruct (calls s !! i) as [c|] eqn:Hc; [|done]. simpl in H.
    destruct (call_turn s c) as [c'|] eqn:Et; simplify_eq/=. by eapply sends_call_turn.
  - unfold on_call in H. destruct (calls s !! i) as [c|] eqn:Hc; [|done]. simpl in H.
    destruct (select_turn s w c) as [c'|] eqn:Et; simplify_eq/=. by eapply sends_select.
  - by eapply sends_hand.
  - unfold on_call in H. destruct (calls s !! i) as [c|] eqn:Hc; [|done]. simpl in H.
    destruct (waits c) eqn:Hw; simplify_eq/=. by eapply sends_context.
  - unfold on_call in H. destruct (calls s !! i) as [c|] eqn:Hc; [|done]. simpl in H.
    destruct (waits c) eqn:Hw; simplify_eq/=. by eapply sends_context.
  - destruct (serves s !! k) as [v|] eqn:Hv; simplify_eq/=. destruct (sendg v) eqn:Hp; simplify_eq. by eapply sends_send_turn.
  - destruct (serves s !! k) as [v|] eqn:Hv; simplify_eq/=. destruct (sendg v) as [[| |i w l| | |]| | |] eqn:Hp; simplify_eq.
    pose proof (busy_intro s k v _ i Hv Hp eq_refl) as Hb. destruct (se_busy _ HS _ _ _ Hb) as (c & Hc & _ & _ & [Hs|Hs] & Hpr); [done|].
    eapply (sends_move s _ k i _ (PTesting i true l)); try done; [|intros ? ?; by simplify_eq]. intros j. rewrite busy_pump. by case_decide.
  - destruct (serves s !! k) as [v|] eqn:Hv; simplify_eq/=. unfold write_returns in H.
    destruct (sendg v) as [[| | |i| |]| | |] eqn:Hp; simplify_eq. destruct err as [e|]; [|by apply (sends_wrote s k v i)].
    pose proof (busy_intro s k v _ i Hv Hp eq_refl) as Hb. destruct (se_busy _ HS _ _ _ Hb) as (c & Hc & _ & _ & [Hs|Hs] & Hpr); [done|].
    eapply (sends_move s _ k i _ (PRetiring i e)); try done; [|intros ? ?; by simplify_eq|by destruct Hpr].
    intros j. rewrite busy_pump. by case_decide.
  - destruct (receives s !! j); simplify_eq. by apply (sends_frame s).
  - unfold on_receive in H. simplify_option_eq. by apply (sends_frame s).
  - unfold on_receive in H. simplify_option_eq. by apply (sends_frame s).
  - unfold on_receive in H. simplify_option_eq. by apply (sends_frame s).
  - destruct (serves s !! k) as [v|] eqn:Hv; simplify_eq/=. destruct (recvg v) as [p| | |] eqn:Hp; simplify_eq.
    unfold recv_turn in H. destruct p; repeat case_hyp H; simplify_eq; by apply (same_sends s); [eapply same_put|].
  - destruct (serves s !! k) as [v|] eqn:Hv; simplify_eq/=. unfold read_returns in H.
    destruct (recvg v) as [[]| | |] eqn:Hp; simplify_eq.
    destruct answer0; (apply (same_sends s); [|done]); [apply (same_put s k v (set_recvg (Run (ROffering g s0)) v) Hv eq_refl)|by eapply same_put].
  - unfold give in H. destruct (receives s !! j) as [r|]; [|done]. destruct (serves s !! k) as [v|] eqn:Hv; [|done].
    destruct (rstage_ r); try done. destruct (recvg v) as [[]| | |] eqn:Hp; simplify_eq.
    apply (same_sends s); [|done]. apply (same_put s k v (set_recvg (Run (RReading g)) v) Hv eq_refl).
  - destruct (serves s !! k) as [v|] eqn:Hv; simplify_eq/=. destruct (pingg v) as [[]| | |] eqn:Hp; simplify_eq.
    repeat case_hyp H; simplify_eq; (apply (same_sends s); [by eapply same_put|done]).
  - destruct (serves s !! k) as [v|] eqn:Hv; simplify_eq/=. eapply same_sends; [by eapply finish_same|done].
  - eapply same_sends; [by eapply loop_keeps_sends|done].
  - destruct (loop s) eqn:El; simplify_eq. by destruct ok; apply (sends_frame s).
  - destruct (loop s) eqn:El; simplify_eq. by apply (sends_frame s).
  - destruct (loop s) eqn:El; simplify_eq. by apply (sends_frame s).
  - case_hyp H; simplify_eq. by apply (sends_frame s).
  - simplify_eq. by apply (sends_frame s).
  - repeat case_hyp H; simplify_eq; by apply (sends_frame s).
  - case_hyp H; simplify_eq. by apply (sends_frame s).
  - simplify_eq. unfold drop_live. destruct (generation s), (conn s); by apply (sends_frame s).
  - case_hyp H; simplify_eq. apply (sends_frame s); try done. simpl. set_solver.
Qed.

Lemma reach_sends s : reach s -> sends s.
Proof.
  intros H. induction H as [|a s s' Hr IH Hs]; [apply sends_New|]. eapply sends_step; [by apply reach_life|done|done].
Qed.

End TransportSends.
