(* ===== verification/TransportWaits.v ===== *)
(** * Who waits for what in the transport client, and how it comes ([internal/transport]) *)
From Stdlib Require Import Ascii String.
From stdpp Require Import prelude strings list gmap.
From S2P Require Import Prelude TransportConnect Transport TransportLife TransportSends.

Module TransportWaits.

Import TransportConnect Transport TransportLife TransportSends.

(** ** What only grows *)

Record grows (s s' : state) : Prop := {
  gr_gens : gens s ⊆ gens s';
  gr_chans : chans s ⊆ chans s';
  gr_ctxs : ctxs s ⊆ ctxs s';
  gr_chan : forall k, chan_of (loop s) = Some k -> chan_of (loop s') = Some k \/ k ∈ chans s';
  gr_gen : forall k, gen_of (loop s) = Some k -> gen_of (loop s') = Some k \/ k ∈ gens s';
  gr_join : forall k es, loop s' = LJoin k es -> (exists es', loop s = LJoin k es') \/ k ∈ ctxs s';
}.

Lemma grows_same s s' : gens s' = gens s -> chans s' = chans s -> ctxs s' = ctxs s -> loop s' = loop s -> grows s s'.
Proof. intros H1 H2 H3 H4. constructor; rewrite ?H1, ?H2, ?H3, ?H4; eauto. Qed.

Lemma grows_retire s s' k : grows s s' -> grows s (retire k s').
Proof.
  intros [H1 H2 H3 H4 H5 H6]. constructor; simpl; try done; [set_solver|]. intros j Hj.
  destruct (H5 j Hj); [by left|right; set_solver].
Qed.

Lemma grows_retire_opt s s' o : grows s s' -> grows s (retire_opt o s').
Proof. destruct o; [apply grows_retire|done]. Qed.

Local Ltac grow El :=
  constructor; simpl; rewrite ?El; simpl; try done; try set_solver; try (by left); try (by intros ? [= ->]; right; set_solver);
  try (by intros ? ? [= -> _]; right; set_solver); try (by intros ? ? [= -> _]; left; eexists).

Lemma grows_loop s s' : life s -> loop_turn s = Some s' -> grows s s'.
Proof.
  intros HL H. unfold loop_turn in H.
  assert (forall k l', take_err k s ≫= (fun '(e, s1) => Some (goto (l' e) s1)) = Some s' ->
    (forall e, chan_of (l' e) = chan_of (loop s) /\ gen_of (l' e) = gen_of (loop s) /\
      forall j es, l' e = LJoin j es -> exists es', loop s = LJoin j es') -> grows s s') as Htake.
  { intros k l' Ht Hl. destruct (take_err k s) as [[e s1]|] eqn:Et; [|done].
    destruct (life_take _ _ _ _ HL Et) as (v & l & Hv & _ & ->). simpl in Ht. injection Ht as <-. destruct (Hl e) as (Hl1 & Hl2 & Hl3).
    constructor; simpl; rewrite ?Hl1, ?Hl2; eauto. }
  destruct (loop s) eqn:El; try done; try (injection H as <-; try (by grow El)).
  - destruct (parent s); grow El.
  - destruct (closed s); grow El.
  - destruct (generation s); grow El.
  - eapply Htake; [exact H|]. intros e. simpl. by case_match.
  - eapply (Htake _ (fun e => LCancel k (es ++ [e]))); [exact H|done].
  - case_match; [|injection H as <-; grow El]. eapply (Htake _ (fun e => LJoin k (es ++ [e]))); [exact H|]. intros e. split; [done|]. split; [done|].
    intros j es' [= <- _]. by eexists.
Qed.

Lemma grows_send s s' k v p : send_turn k v p s = Some s' -> grows s s'.
Proof.
  intros H. assert (forall i r c g, grows s (put_serve k g (acknowledge i r c s))) as Hack
    by (intros; apply grows_same; unfold acknowledge; by case_match).
  unfold send_turn in H. destruct p as [| |i w [|t l]| | |i err]; [case_hyp H| | | | | |];
    try (destruct (calls s !! i) as [c|]; [|done]; simpl in H); try case_bool_decide; simplify_eq; try (by apply grows_same); apply Hack.
Qed.

Lemma grows_finish s s' k p v : finish_turn k p v s = Some s' -> grows s s'.
Proof.
  intros H. unfold finish_turn, finish in H.
  destruct p; [destruct (recvg v)|destruct (sendg v)|destruct (pingg v)]; simplify_eq/=; try apply grows_retire; by apply grows_same.
Qed.

Lemma grows_call i f s s' : on_call i f s = Some s' -> grows s s'.
Proof. unfold on_call. intros H. simplify_option_eq. by apply grows_same. Qed.

Lemma grows_receive j f s s' : on_receive j f s = Some s' -> grows s s'.
Proof. unfold on_receive. intros H. simplify_option_eq. by apply grows_same. Qed.

Lemma grows_goto s l : chan_of (loop s) = None -> gen_of (loop s) = None -> (forall k es, l <> LJoin k es) -> grows s (goto l s).
Proof. intros Hc Hg Hl. constructor; simpl; rewrite ?Hc, ?Hg; try done. intros k es He. by destruct (Hl k es). Qed.

Lemma grows_step a s s' : life s -> step a s = Some s' -> grows s s'.
Proof.
  intros HL H. destruct a; cbn [step] in H; try (by eapply grows_call); try (by eapply grows_receive);
    try (destruct (serves s !! k) as [v|]; [|done]; simpl in H).
  - destruct (calls s !! i); simplify_eq. by apply grows_same.
  - unfold hand_over in H. repeat case_hyp H; simplify_eq; by apply grows_same.
  - destruct (sendg v); simplify_eq. by eapply grows_send.
  - repeat case_hyp H; simplify_eq; by apply grows_same.
  - unfold write_returns in H. repeat case_hyp H; simplify_eq; by apply grows_same.
  - destruct (receives s !! j); simplify_eq. by apply grows_same.
  - unfold recv_turn in H. repeat case_hyp H; simplify_eq; by apply grows_same.
  - unfold read_returns in H. repeat case_hyp H; simplify_eq; by apply grows_same.
  - unfold give in H. repeat case_hyp H; simplify_eq; by apply grows_same.
  - repeat case_hyp H; simplify_eq; by apply grows_same.
  - by eapply grows_finish.
  - by eapply grows_loop.
  - destruct (loop s) eqn:El; simplify_eq. destruct ok; constructor; simpl; rewrite ?El; done.
  - destruct (loop s) eqn:El; simplify_eq. constructor; simpl; rewrite ?El; auto; done.
  - destruct (loop s) eqn:El; simplify_eq. destruct go; apply grows_goto; by rewrite ?El.
  - case_hyp H; simplify_eq. by apply grows_same.
  - simplify_eq. by apply grows_same.
  - repeat case_hyp H; simplify_eq; [apply grows_retire; by apply grows_same|]. constructor; simpl; eauto; set_solver.
  - case_hyp H; simplify_eq. by apply grows_same.
  - simplify_eq. unfold drop_live. 
    assert (grows s (retire_opt (generation s) s)) as [] by (apply grows_retire_opt; by apply grows_same).
    case_match; by constructor.
  - case_hyp H; simplify_eq. by apply grows_same.
Qed.

(** ** How calls and receivers change *)

Definition evolves (s : state) (c c' : call) : Prop :=
  kind c' = kind c /\ (caller c = true -> caller c' = true) /\
  ((stage c' = stage c /\ sock c' = sock c) \/ call_turn s c = Some c' \/
   ((exists d, stage c = AtSelect d) /\ past c' /\ sock c' = sock c)).

Definition call_change (s s' : state) : Prop :=
  calls s' = calls s \/
  (exists i f kd, calls s !! i = None /\ calls s' = <[i := MkCall f kd false false AtStart None None]> (calls s)) \/
  (exists i c c', calls s !! i = Some c /\ calls s' = <[i := c']> (calls s) /\ evolves s c c').

Lemma change_put s s' i c c' :
  calls s !! i = Some c -> calls s' = <[i := c']> (calls s) -> evolves s c c' -> call_change s s'.
Proof. intros. right. right. by exists i, c, c'. Qed.

Lemma call_turn_kind s c c' : call_turn s c = Some c' -> kind c' = kind c /\ caller c' = caller c.
Proof.
  unfold call_turn. intros H. destruct (stage c); try done; try (by simplify_eq).
  - destruct (kind c) as [| |[]] eqn:Ek; by simplify_eq.
  - cbv zeta in H. match type of H with (if ?b then _ else _) = _ => destruct b end; [by simplify_eq|].
    destruct (conn s); by simplify_eq.
  - destruct (ack c); by simplify_eq.
Qed.

Lemma change_acknowledge s i r c s' :
  calls s !! i = Some c -> calls s' = calls (acknowledge i r c s) -> call_change s s'.
Proof.
  intros Hc H. unfold acknowledge in H. destruct (waits c); [|by left]. eapply change_put; [exact Hc|exact H|].
  split; [done|split; [done|by left]].
Qed.

Lemma change_send s s' k v p : send_turn k v p s = Some s' -> call_change s s'.
Proof.
  intros H. unfold send_turn in H. destruct p as [| i|i w [|t l]| | |i err]; [case_hyp H| | | | | |];
    try (destruct (calls s !! i) as [c|] eqn:Hc; [|done]; simpl in H); try case_bool_decide; simplify_eq; try (by left);
    by eapply change_acknowledge.
Qed.

Lemma finish_calls s s' k p v : finish_turn k p v s = Some s' -> calls s' = calls s /\ receives s' = receives s.
Proof.
  intros H. unfold finish_turn, finish in H.
  by destruct p; [destruct (recvg v)|destruct (sendg v)|destruct (pingg v)]; simplify_eq/=.
Qed.

Lemma take_calls s s' k e : take_err k s = Some (e, s') -> calls s' = calls s /\ receives s' = receives s.
Proof.
  unfold take_err. destruct (serves s !! k) as [v|]; [|done]. simpl. destruct (errCh v); [done|]. by intros [= _ <-].
Qed.

Lemma loop_calls s s' : loop_turn s = Some s' -> calls s' = calls s /\ receives s' = receives s.
Proof.
  intros H. unfold loop_turn in H. destruct (loop s); try done; try (injection H as <-); try done.
  - by destruct (generation s).
  - destruct (take_err k s) as [[e s1]|] eqn:Et; simplify_eq/=. by eapply take_calls.
  - destruct (take_err k s) as [[e s1]|] eqn:Et; simplify_eq/=. by eapply take_calls.
  - case_match; [|by simplify_eq]. destruct (take_err k s) as [[e s1]|] eqn:Et; simplify_eq/=. by eapply take_calls.
Qed.

Lemma change_step a s s' : step a s = Some s' -> call_change s s'.
Proof.
  intros H. destruct a; cbn [step] in H; try (destruct (serves s !! k) as [v|]; [|done]; simpl in H);
    try (unfold on_receive in H; simplify_option_eq; by left).
  - destruct (calls s !! i) eqn:Hc; simplify_eq. right. left. by eexists i, _, _.
  - unfold on_call in H. destruct (calls s !! i) as [c|] eqn:Hc; [|done]. simpl in H.
    destruct (call_turn s c) as [c'|] eqn:Et; simplify_eq/=. eapply change_put; [done|done|].
    destruct (call_turn_kind _ _ _ Et) as [? Hca]. split; [done|]. split; [by rewrite Hca|auto].
  - unfold on_call in H. destruct (calls s !! i) as [c|] eqn:Hc; [|done]. simpl in H.
    destruct (select_turn s w c) as [c'|] eqn:Et; simplify_eq/=. eapply change_put; [done|done|]. unfold select_turn in Et.
    destruct (stage c) eqn:Es; try done. unfold past.
    destruct w; case_hyp Et; simplify_eq; (split; [done|]; split; [done|]; right; right; split; [by eexists|split; [right; by eexists|reflexivity]]).
  - unfold hand_over in H. destruct (calls s !! i) as [c|] eqn:Hc; [|done]. destruct (serves s !! k) as [v|]; [|done].
    destruct (stage c) eqn:Es; try done. destruct (sendg v) as [[]| | |]; simplify_eq. eapply change_put; [done|done|].
    split; [done|]. split; [done|]. right. right. split; [by eexists|]. split; [unfold past; simpl; destruct (waits c); eauto|done].
  - unfold on_call in H. destruct (calls s !! i) as [c|] eqn:Hc; [|done]. simpl in H. case_hyp H; simplify_eq/=.
    eapply change_put; [done|done|]. split; [done|]. split; [done|by left].
  - unfold on_call in H. destruct (calls s !! i) as [c|] eqn:Hc; [|done]. simpl in H. case_hyp H; simplify_eq/=.
    eapply change_put; [done|done|]. split; [done|]. split; [done|by left].
  - destruct (sendg v); simplify_eq. by eapply change_send.
  - repeat case_hyp H; simplify_eq; by left.
  - unfold write_returns in H. repeat case_hyp H; simplify_eq; by left.
  - destruct (receives s !! j); simplify_eq. by left.
  - unfold recv_turn in H. repeat case_hyp H; simplify_eq; by left.
  - unfold read_returns in H. repeat case_hyp H; simplify_eq; by left.
  - unfold give in H. repeat case_hyp H; simplify_eq; by left.
  - repeat case_hyp H; simplify_eq; by left.
  - left. by eapply finish_calls.
  - left. by apply loop_calls.
  - destruct (loop s); simplify_eq. by left; destruct ok.
  - destruct (loop s); simplify_eq. by left.
  - destruct (loop s); simplify_eq. by left.
  - case_hyp H; simplify_eq. by left.
  - repeat case_hyp H; simplify_eq; by left.
  - case_hyp H; simplify_eq. by left.
  - simplify_eq. left. unfold drop_live. by destruct (generation s), (conn s).
Qed.

(** What becomes of a call. *)
Lemma change_forward s s' i c :
  call_change s s' -> calls s !! i = Some c -> exists c', calls s' !! i = Some c' /\ evolves s c c'.
Proof.
  assert (evolves s c c) as Hid by (split; [done|split; [done|by left]]).
  intros [->|[(j & f & kd & Hj & ->)|(j & d & d' & Hd & -> & He)]] Hc; [by exists c| |].
  - exists c. rewrite lookup_insert_ne; [done|]. intros ->. congruence.
  - destruct (decide (j = i)) as [->|Hne]; [|exists c; by rewrite lookup_insert_ne].
    simplify_eq. exists d'. by rewrite lookup_insert_eq.
Qed.

Lemma change_backward s s' i c' :
  call_change s s' -> calls s' !! i = Some c' -> stage c' = AtStart \/ exists c, calls s !! i = Some c /\ evolves s c c'.
Proof.
  intros Hch Hc'. destruct (calls s !! i) as [c|] eqn:Hc.
  - right. exists c. split; [done|]. destruct (change_forward s s' i c Hch Hc) as (d & Hd & He). by simplify_eq.
  - left. destruct Hch as [Hs|[(j & f & kd & Hj & Hs)|(j & d & d' & Hd & Hs & He)]]; rewrite Hs in Hc'; [congruence| |];
      apply lookup_insert_Some in Hc' as [[<- <-]|[_ ?]]; first [done|congruence].
Qed.

(** ** Nobody waits for a connection that will not end *)

(** The end a caller waits for is there, or the serve that brings it runs. *)
Definition ending (s : state) (d : doneCh) : Prop :=
  closed_chan s d = true \/
  match d with DConn k => chan_of (loop s) = Some k | DGeneration k => gen_of (loop s) = Some k end.

Record unstuck (s : state) : Prop := {
  un_done : forall i c g, calls s !! i = Some c -> stage c = AtDone -> kind c = KSendGeneration (GMine g) ->
      ending s (DGeneration g);
  un_select : forall i c d, calls s !! i = Some c -> stage c = AtSelect d -> ending s d;
  un_receive : forall j r d, receives s !! j = Some r -> rstage_ r = RAtSelect d -> ending s (DConn d);
  un_join : forall k es, loop s = LJoin k es -> k ∈ ctxs s;
}.

Lemma ending_grows s s' d : grows s s' -> ending s d -> ending s' d.
Proof.
  intros [H1 H2 H3 H4 H5 _] [He|He]; destruct d as [k|k]; unfold ending, closed_chan, generation_done in *.
  - left. apply bool_decide_eq_true in He. apply bool_decide_eq_true. set_solver.
  - left. apply bool_decide_eq_true in He. apply bool_decide_eq_true. set_solver.
  - destruct (H4 k He); [by right|left; by apply bool_decide_eq_true].
  - destruct (H5 k He); [by right|left; by apply bool_decide_eq_true].
Qed.

Lemma ending_conn s : life s -> ending s (DConn (connDone s)).
Proof. intros HL. unfold ending, closed_chan. destruct (li_chan _ HL); [left; by apply bool_decide_eq_true|by right]. Qed.

(** How receivers change. *)
Definition receive_change (s s' : state) : Prop :=
  forall j r', receives s' !! j = Some r' ->
    (forall d, rstage_ r' <> RAtSelect d) \/ (exists r, receives s !! j = Some r /\ (rstage_ r' = rstage_ r \/ rstage_ r' = RAtSelect (connDone s))).

Lemma receive_same s s' : receives s' = receives s -> receive_change s s'.
Proof. intros H j r. rewrite H. right. exists r. auto. Qed.

Lemma receive_put s s' j r r' :
  receives s !! j = Some r -> receives s' = <[j := r']> (receives s) ->
  (forall d, rstage_ r' <> RAtSelect d) \/ rstage_ r' = rstage_ r \/ rstage_ r' = RAtSelect (connDone s) -> receive_change s s'.
Proof.
  intros Hr Hs Hd m w. rewrite Hs. intros [[<- <-]|[_ Hw]]%lookup_insert_Some; [|right; exists w; auto].
  destruct Hd as [Hd|Hd]; [by left|right; by exists r].
Qed.

Lemma receives_acknowledge i r c s : receives (acknowledge i r c s) = receives s.
Proof. unfold acknowledge. by destruct (waits c). Qed.

Lemma receives_send s s' k v p : send_turn k v p s = Some s' -> receives s' = receives s.
Proof.
  intros H. unfold send_turn in H. destruct p as [| i|i w [|t l]| | |i err]; [case_hyp H| | | | | |];
    try (destruct (calls s !! i) as [c|] eqn:Hc; [|done]; simpl in H); try case_bool_decide; simplify_eq; try done;
    apply receives_acknowledge.
Qed.

Lemma receive_step a s s' : step a s = Some s' -> receive_change s s'.
Proof.
  intros H. destruct a; cbn [step] in H; try (destruct (serves s !! k) as [v|]; [|done]; simpl in H);
    try (unfold on_call in H; simplify_option_eq; by apply receive_same).
  - destruct (calls s !! i); simplify_eq. by apply receive_same.
  - unfold hand_over in H. repeat case_hyp H; simplify_eq; by apply receive_same.
  - destruct (sendg v); simplify_eq. apply receive_same. by eapply receives_send.
  - repeat case_hyp H; simplify_eq; by apply receive_same.
  - unfold write_returns in H. repeat case_hyp H; simplify_eq; by apply receive_same.
  - destruct (receives s !! j) eqn:E; simplify_eq. intros m r'. simpl.
    intros [[<- <-]|[_ ?]]%lookup_insert_Some; [by left|right; by exists r'; auto].
  - unfold on_receive in H. destruct (receives s !! j) as [r|] eqn:Hr; [|done]. simpl in H.
    destruct (receive_turn s r) as [r'|] eqn:Et; simplify_eq/=. eapply receive_put; [exact Hr|done|].
    unfold receive_turn in Et. repeat case_hyp Et; simplify_eq; simpl; auto.
  - unfold on_receive in H. destruct (receives s !! j) as [r|] eqn:Hr; [|done]. simpl in H.
    destruct (receive_select s w r) as [r'|] eqn:Et; simplify_eq/=. eapply receive_put; [exact Hr|done|].
    unfold receive_select in Et. repeat case_hyp Et; simplify_eq; simpl; auto.
  - unfold on_receive in H. destruct (receives s !! j) as [r|] eqn:Hr; [|done]. simplify_eq/=.
    eapply receive_put; [exact Hr|done|]. simpl. auto.
  - unfold recv_turn in H. repeat case_hyp H; simplify_eq; by apply receive_same.
  - unfold read_returns in H. repeat case_hyp H; simplify_eq; by apply receive_same.
  - unfold give in H. destruct (receives s !! j) as [r|] eqn:Hr; [|done]. repeat case_hyp H; simplify_eq;
      (eapply receive_put; [exact Hr|done|]; simpl; auto).
  - repeat case_hyp H; simplify_eq; by apply receive_same.
  - apply receive_same. by eapply finish_calls.
  - apply receive_same. by apply loop_calls.
  - destruct (loop s); simplify_eq. by apply receive_same; destruct ok.
  - destruct (loop s); simplify_eq. by apply receive_same.
  - destruct (loop s); simplify_eq. by apply receive_same.
  - case_hyp H; simplify_eq. by apply receive_same.
  - repeat case_hyp H; simplify_eq; by apply receive_same.
  - case_hyp H; simplify_eq. by apply receive_same.
  - simplify_eq. apply receive_same. unfold drop_live. by destruct (generation s), (conn s).
Qed.

(** The turns that come to the connection's end and to the [select]. *)
Lemma turn_to_done s c c' g :
  life s -> call_turn s c = Some c' -> stage c' = AtDone -> kind c = KSendGeneration (GMine g) -> gen_of (loop s) = Some g.
Proof.
  intros HL H Hs Hk. unfold call_turn in H. rewrite Hk in H. destruct (stage c); try (by simplify_eq).
  - by destruct (expired c); simplify_eq.
  - by destruct (closed s); simplify_eq.
  - cbv zeta in H. match type of H with (if ?b then _ else _) = _ => destruct b eqn:Eb end; [by simplify_eq|].
    destruct (conn s) as [k|] eqn:Ek; [|by simplify_eq].
    apply orb_false_iff in Eb as [Hg _]. apply negb_false_iff, bool_decide_eq_true in Hg.
    rewrite (li_conn _ HL) in Ek. assert (gen_of (loop s) = Some k) as Hgen by (destruct (loop s); simpl in *; congruence).
    pose proof (li_gen _ HL k Hgen). congruence.
  - by destruct (ack c); simplify_eq.
Qed.

Lemma turn_to_select s c c' d :
  call_turn s c = Some c' -> stage c' = AtSelect d ->
  stage c = AtDone /\ d = match kind c with KSendGeneration (GMine g) => DGeneration g | _ => DConn (connDone s) end.
Proof.
  intros H Hs. unfold call_turn in H. destruct (stage c); try (by simplify_eq).
  - by destruct (kind c) as [| |[]]; simplify_eq.
  - by destruct (expired c); simplify_eq.
  - by destruct (closed s); simplify_eq.
  - cbv zeta in H. match type of H with (if ?b then _ else _) = _ => destruct b end; [by simplify_eq|].
    by destruct (conn s); simplify_eq.
  - injection H as <-. simpl in Hs. by injection Hs as <-.
  - by destruct (ack c); simplify_eq.
Qed.

Lemma unstuck_step a s s' : life s -> unstuck s -> step a s = Some s' -> unstuck s'.
Proof.
  intros HL [U1 U2 U3 U4] H. pose proof (grows_step _ _ _ HL H) as HG. pose proof (change_step _ _ _ H) as HC.
  constructor.
  - intros i c' g Hc' Hst Hk. destruct (change_backward _ _ _ _ HC Hc') as [?|(c & Hc & Hkd & _ & He)]; [congruence|].
    destruct He as [[Hs _]|[Ht|(_ & [Hp|[r Hp]] & _)]]; try congruence.
    + eapply ending_grows; [done|]. eapply U1; [done|congruence|congruence].
    + eapply ending_grows; [done|]. right. eapply turn_to_done; [done|done|done|congruence].
  - intros i c' d Hc' Hst. destruct (change_backward _ _ _ _ HC Hc') as [?|(c & Hc & Hkd & _ & He)]; [congruence|].
    destruct He as [[Hs _]|[Ht|(_ & [Hp|[r Hp]] & _)]]; try congruence.
    + eapply ending_grows; [done|]. eapply U2; [done|congruence].
    + eapply ending_grows; [done|]. destruct (turn_to_select _ _ _ _ Ht Hst) as [Hsc ->].
      destruct (kind c) as [| |[| |g]] eqn:Ek; try (by apply ending_conn). by eapply U1.
  - intros j r' d Hr Hst. eapply ending_grows; [done|]. destruct (receive_step _ _ _ H j r' Hr) as [Hd|(r & Hr0 & [Hs|Hs])].
    + by destruct (Hd d).
    + eapply U3; [done|congruence].
    + rewrite Hst in Hs. injection Hs as ->. by apply ending_conn.
  - intros k es Hl. destruct (gr_join _ _ HG k es Hl) as [[es' He]|]; [|done]. pose proof (U4 _ _ He).
    pose proof (gr_ctxs _ _ HG). set_solver.
Qed.

Lemma reach_unstuck s : reach s -> unstuck s.
Proof.
  intros H. induction H as [|a s s' Hr IH Hs]; [|by eapply unstuck_step; [apply reach_life| |]].
  constructor; simpl; try done; intros ? ? ?; by rewrite lookup_empty.
Qed.

End TransportWaits.

(** ** Every send and receive can return ([internal/transport]) *)
Module TransportWind.

Import TransportConnect Transport TransportLife TransportSends TransportWaits.

(** The client's own turns, with a socket that only fails. *)
Definition own (a : act) : Prop :=
  match a with
  | ACall _ | ASelect _ _ | APump _ | AWritten _ (Some _) | AReceiver _ | AReceiveSelect _ _ | ARecv _ | ARead _ (inr _)
  | APing _ (Some _) | AFinish _ _ | ALoop | AGraceOver => True
  | _ => False
  end.

(** ** How far a serve is from its end *)

Definition rank_loop (l : pc) : nat :=
  match l with
  | LFresh _ => 101 | LSpawn _ => 100 | LSet _ => 40 | LSignal _ => 39 | LFirst _ => 38 | LGrace _ _ => 37 | LCancel _ _ => 36
  | LJoin _ es => 32 + (3 - length es)
  | LUnset _ _ => 31 | LCloseDone _ _ => 30 | LRetireOwn _ _ => 29
  | _ => 0
  end.

Definition rank_pump (p : spump) : nat :=
  match p with
  | PIdle => 0 | PAcking _ _ => 1 | PRetiring _ _ => 2 | PWriting _ => 3 | PTesting _ _ l => 4 + length l | PTaken _ => 9
  end.

Definition rank {A} (f : A -> nat) (g : goroutine A) : nat :=
  match g with Run a => 3 + f a | Back _ => 2 | Posted => 1 | Gone => 0 end.

Definition rank_recv (p : rpump) : nat := match p with RInit => 1 | _ => 0 end.

Definition rank_serve (v : serve) : nat :=
  rank rank_recv (recvg v) + rank rank_pump (sendg v) + rank (fun _ => 0) (pingg v).

Definition distance (k : nat) (s : state) : nat :=
  rank_loop (loop s) + match serves s !! k with Some v => rank_serve v | None => 0 end.

(** A turn that brings serve [k] nearer to its end, with the callers where they are. *)
Definition nearer (k : nat) (s : state) : Prop :=
  exists a s', own a /\ step a s = Some s' /\ distance k s' < distance k s /\ receives s' = receives s /\
    forall i c, calls s !! i = Some c -> exists c', calls s' !! i = Some c' /\ stage c' = stage c.

Lemma kept_calls (s s' : state) : calls s' = calls s ->
  forall i c, calls s !! i = Some c -> exists c', calls s' !! i = Some c' /\ stage c' = stage c.
Proof. intros -> i c Hc. by exists c. Qed.

Lemma kept_acknowledge j r d s : calls s !! j = Some d ->
  forall i c, calls s !! i = Some c -> exists c', calls (acknowledge j r d s) !! i = Some c' /\ stage c' = stage c.
Proof.
  intros Hd i c Hc. unfold acknowledge. destruct (waits d); [|by exists c]. simpl.
  destruct (decide (j = i)) as [->|Hne]; [|exists c; by rewrite lookup_insert_ne]. simplify_eq.
  eexists. by rewrite lookup_insert_eq.
Qed.

Lemma nearer_put k s s' a v w :
  own a -> step a s = Some s' -> serves s !! k = Some v -> serves s' = <[k := w]> (serves s) ->
  rank_loop (loop s') + rank_serve w < rank_loop (loop s) + rank_serve v -> receives s' = receives s ->
  (forall i c, calls s !! i = Some c -> exists c', calls s' !! i = Some c' /\ stage c' = stage c) -> nearer k s.
Proof.
  intros Ho Hs Hv Hw Hd Hr Hc. exists a, s'. split; [done|]. split; [done|]. split; [|done].
  unfold distance. by rewrite Hw, lookup_insert_eq, Hv.
Qed.

(** Only the loop moves. *)
Lemma nearer_loop k s s' a :
  own a -> step a s = Some s' -> serves s' = serves s -> rank_loop (loop s') < rank_loop (loop s) ->
  receives s' = receives s -> calls s' = calls s -> nearer k s.
Proof.
  intros Ho Hs Hw Hd Hr Hc. exists a, s'. split; [done|]. split; [done|]. split; [unfold distance; rewrite Hw; lia|].
  split; [done|by apply kept_calls].
Qed.

(** ** Goroutines that have not posted *)

Local Ltac by_put k s a v Hv E :=
  eapply (nearer_put k s _ a v);
  [ done
   | cbn [step]; rewrite Hv; simpl; unfold finish_turn, read_returns, write_returns, context_done; rewrite E; simpl;
     unfold context_done; rewrite ?bool_decide_true by done; reflexivity
   | done | done | unfold rank_serve; simpl; rewrite ?E; simpl; lia | done | by apply kept_calls ].

Lemma nearer_ping k s v : serves s !! k = Some v -> posted (pingg v) = 0 -> nearer k s.
Proof.
  intros Hv Hp. destruct (pingg v) as [[]|e| |] eqn:E; try done.
  - by_put k s (APing k (Some (Sentinel DeadlineExceeded))) v Hv E.
  - by_put k s (AFinish k Ping) v Hv E.
Qed.

Lemma nearer_recv k s v : serves s !! k = Some v -> posted (recvg v) = 0 -> k ∈ ctxs s -> nearer k s.
Proof.
  intros Hv Hp Hk. destruct (recvg v) as [[|g|g f]|e| |] eqn:E; try done.
  - by_put k s (ARecv k) v Hv E.
  - by_put k s (ARead k (inr (Sentinel Canceled))) v Hv E.
  - by_put k s (ARecv k) v Hv E.
  - by_put k s (AFinish k Recv) v Hv E.
Qed.

(** The pump's own turn with a request, if the socket only fails: it goes on
    with it or answers it. *)
Lemma pump_turn s k v i p :
  sends s -> serves s !! k = Some v -> sendg v = Run p -> request p = Some i ->
  exists a s' g c, own a /\ step a s = Some s' /\ serves s' = <[k := set_sendg g v]> (serves s) /\
    rank rank_pump g < rank rank_pump (Run p) /\ receives s' = receives s /\ loop s' = loop s /\ calls s !! i = Some c /\
    ((calls s' = calls s /\ exists q, g = Run q /\ request q = Some i) \/ exists r, calls s' = calls (acknowledge i r c s)).
Proof.
  intros HS Hv Hp Hr. destruct (se_busy _ HS _ _ _ (busy_intro _ _ _ _ _ Hv Hp Hr)) as (c & Hc & _).
  assert (forall s', send_turn k v p s = Some s' -> step (APump k) s = Some s') as Hstep
    by (intros s' Hs; cbn [step]; rewrite Hv; simpl; by rewrite Hp).
  assert (forall r g s', send_turn k v p s = Some s' -> s' = put_serve k (set_sendg g v) (acknowledge i r c s) ->
    serves s' = <[k := set_sendg g v]> (serves s) /\ receives s' = receives s /\ loop s' = loop s /\
    calls s' = calls (acknowledge i r c s)) as Hack by (intros r g s' _ ->; unfold acknowledge; by destruct (waits c)).
  destruct p as [|i'|i' w [|t l]|i'|i' e|i' [e|]]; simpl in Hr; simplify_eq.
  - destruct (send_turn k v (PTaken i) s) as [s'|] eqn:Es; cbn [send_turn] in Es; rewrite Hc in Es; simpl in Es;
      case_bool_decide; simplify_eq.
    + exists (APump k). eexists _, _, c. split; [done|]. split; [by apply Hstep|]. split; [done|]. split; [simpl; lia|].
      do 3 (split; [done|]). left. split; [done|]. by eexists.
    + destruct (Hack RDisconnected (Run PIdle) _ eq_refl eq_refl) as (H1 & H2 & H3 & H4).
      exists (APump k). eexists _, _, c. split; [done|]. split; [by apply Hstep|]. split; [exact H1|]. split; [simpl; lia|].
      do 3 (split; [done|]). right. by exists RDisconnected.
  - exists (APump k). eexists _, _, c. split; [done|]. split; [by apply Hstep|]. split; [done|]. split; [simpl; lia|].
    do 3 (split; [done|]). left. split; [done|]. by eexists.
  - pose proof (Hstep _ ltac:(cbn [send_turn]; rewrite Hc; reflexivity)) as Hs. exists (APump k). eexists _, _, c.
    split; [done|]. split; [exact Hs|]. split; [done|]. split; [destruct (test_fails s k c w t); simpl; lia|].
    do 3 (split; [done|]). left. split; [done|]. eexists. split; [done|]. by destruct (test_fails s k c w t).
  - exists (AWritten k (Some (Sentinel DeadlineExceeded))). eexists _, _, c. split; [done|].
    split; [cbn [step]; rewrite Hv; simpl; unfold write_returns; by rewrite Hp|]. split; [done|]. split; [simpl; lia|].
    do 3 (split; [done|]). left. split; [done|]. by eexists.
  - exists (APump k). eexists _, _, c. split; [done|]. split; [by apply Hstep|]. split; [done|]. split; [simpl; lia|].
    do 3 (split; [done|]). left. split; [done|]. by eexists.
  - pose proof (Hstep _ ltac:(cbn [send_turn]; rewrite Hc; reflexivity)) as Hs.
    destruct (Hack RFailed (Back e) _ ltac:(cbn [send_turn]; rewrite Hc; reflexivity) eq_refl) as (H1 & H2 & H3 & H4).
    exists (APump k). eexists _, _, c. split; [done|]. split; [exact Hs|]. split; [exact H1|]. split; [simpl; lia|].
    do 3 (split; [done|]). right. by exists RFailed.
  - pose proof (Hstep _ ltac:(cbn [send_turn]; rewrite Hc; reflexivity)) as Hs.
    destruct (Hack RNil (Run PIdle) _ ltac:(cbn [send_turn]; rewrite Hc; reflexivity) eq_refl) as (H1 & H2 & H3 & H4).
    exists (APump k). eexists _, _, c. split; [done|]. split; [exact Hs|]. split; [exact H1|]. split; [simpl; lia|].
    do 3 (split; [done|]). right. by exists RNil.
Qed.

Lemma nearer_send k s v :
  sends s -> serves s !! k = Some v -> posted (sendg v) = 0 -> k ∈ ctxs s -> nearer k s.
Proof.
  intros HS Hv Hp Hk. destruct (sendg v) as [p|e| |] eqn:E; try done.
  - destruct (request p) as [i|] eqn:Er.
    + destruct (pump_turn s k v i p HS Hv E Er) as (a & s' & g & c & Ho & Hs & Hsv & Hrk & Hrc & Hlp & Hc & Hcs).
      eapply (nearer_put k s s' a v (set_sendg g v)); try done.
      * rewrite Hlp. unfold rank_serve. simpl. rewrite E. lia.
      * destruct Hcs as [[Hcs _]|[r Hcs]]; [by apply kept_calls|]. rewrite Hcs. by apply kept_acknowledge.
    + destruct p; try done. by_put k s (APump k) v Hv E.
  - by_put k s (AFinish k Sender) v Hv E.
Qed.

(** ** A serve can be brought to its end *)

Lemma nearer_take k s e v l l' :
  loop s = l -> serves s !! k = Some v -> errCh v = e :: l' ->
  (exists l2, loop_turn s = Some (goto l2 (put_serve k (set_errCh l' v) s)) /\ rank_loop l2 < rank_loop l) -> nearer k s.
Proof.
  intros Hl Hv He (l2 & Ht & Hr). eapply (nearer_put k s _ ALoop v); [done|exact Ht|done|done| |done|by apply kept_calls].
  simpl. rewrite Hl. unfold rank_serve. simpl. lia.
Qed.

Lemma serve_nearer s k :
  life s -> sends s -> unstuck s -> gen_of (loop s) = Some k -> nearer k s.
Proof.
  intros HL HS HU Hg. pose proof (li_joined _ HL) as Hj.
  assert (forall es, errs_of (loop s) = Some (k, es) -> exists v, serves s !! k = Some v /\ length (errCh v) + length es = posts v) as Herr.
  { intros es He. destruct (li_has _ HL _ _ He) as [v Hv]. exists v. split; [done|]. destruct (Hj k v Hv) as [Hjv _].
    unfold joined in Hjv. rewrite He in Hjv. by rewrite decide_True in Hjv. }
  destruct (loop s) eqn:El; try done; simpl in Hg; simplify_eq;
    try (eapply (nearer_loop k s _ ALoop); [done|cbn [step]; unfold loop_turn; by rewrite El|done|simpl; rewrite El; simpl; lia|done|done]; fail).
  - destruct (proj2 (li_next _ HL) k) as [_ Hno]; [by rewrite El|]. eexists ALoop, _. split; [done|].
    split; [cbn [step]; unfold loop_turn; by rewrite El|]. split; [|split; [done|by apply kept_calls]].
    unfold distance. simpl. rewrite El, lookup_insert_eq, Hno. unfold rank_serve. simpl. lia.
  - destruct (Herr [] eq_refl) as (v & Hv & He). destruct (errCh v) as [|e l] eqn:Ee.
    + eapply nearer_ping; [done|]. unfold posts in He. simpl in He. lia.
    + eapply nearer_take; [exact El|done|done|]. unfold loop_turn, take_err. rewrite El, Hv. simpl. rewrite Ee. simpl.
      eexists. split; [done|]. destruct (_ =? _)%Z; simpl; lia.
  - eapply (nearer_loop k s _ AGraceOver); [done|cbn [step]; by rewrite El|done|simpl; rewrite El; simpl; lia|done|done].
  - pose proof (un_join _ HU _ _ El) as Hctx. destruct (Herr es eq_refl) as (v & Hv & He). destruct (length es <? 3) eqn:E3.
    + apply Nat.ltb_lt in E3 as E3'. destruct (errCh v) as [|e l] eqn:Ee.
      * unfold posts in He. simpl in He. destruct (posted (recvg v)) eqn:E1; [by eapply nearer_recv|].
        destruct (posted (sendg v)) eqn:E2; [by eapply nearer_send|]. eapply nearer_ping; [done|lia].
      * eapply nearer_take; [exact El|done|done|]. unfold loop_turn, take_err. rewrite El, E3, Hv. simpl. rewrite Ee. simpl.
        eexists. split; [done|]. simpl. rewrite length_app. simpl. lia.
    + eapply (nearer_loop k s _ ALoop); [done|cbn [step]; unfold loop_turn; by rewrite El, E3|done|simpl; rewrite El; simpl; lia|done|done].
Qed.

(** ** The callers *)

Lemma run_app l k s s1 : run l s = Some s1 -> run (l ++ k) s = run k s1.
Proof. revert s. induction l as [|a l IH]; intros s; simpl; [by intros [= ->]|]. by destruct (step a s); [apply IH|]. Qed.

(** Some turns of the client's own bring it to a state. *)
Definition leads (s : state) (P : state -> Prop) : Prop := exists acts s', Forall own acts /\ run acts s = Some s' /\ P s'.

Lemma leads_now (s : state) (P : state -> Prop) : P s -> leads s P.
Proof. intros. by exists [], s. Qed.

Lemma leads_step a s s1 (P : state -> Prop) : own a -> step a s = Some s1 -> leads s1 P -> leads s P.
Proof.
  intros Ho Hs (acts & s' & Hf & Hr & HP). exists (a :: acts), s'. split; [by constructor|]. split; [simpl; by rewrite Hs|done].
Qed.

(** The end a caller waits for can be brought about, the callers waiting on. *)
Lemma leads_end d k s (P : state -> Prop) :
  (forall s1, reach s1 -> closed_chan s1 d = true -> receives s1 = receives s ->
     (forall i c, calls s !! i = Some c -> exists c', calls s1 !! i = Some c' /\ stage c' = stage c) -> leads s1 P) ->
  match d with DConn j | DGeneration j => j = k end -> reach s -> ending s d -> leads s P.
Proof.
  intros HP Hk Hr He. remember (distance k s) as n eqn:Hn. assert (distance k s <= n) as Hle by lia. clear Hn.
  assert (receives s = receives s) as Hrec by done.
  assert (forall i c, calls s !! i = Some c -> exists c', calls s !! i = Some c' /\ stage c' = stage c) as Hcs by by apply kept_calls.
  revert Hr He Hle Hrec Hcs. generalize s at 1 2 3 4 7 8 as t. induction n as [|n IH]; intros t Hr He Hle Hrec Hcs.
  all: destruct He as [Hc|Ho]; [by apply HP|].
  all: assert (gen_of (loop t) = Some k) as Hg by (destruct d; simplify_eq; [destruct (loop t); simpl in *; congruence|done]).
  all: destruct (serve_nearer t k (reach_life _ Hr) (reach_sends _ Hr) (reach_unstuck _ Hr) Hg)
         as (a & t1 & Hown & Hs & Hd & Hrc & Hcc).
  { lia. }
  eapply leads_step; [done|done|]. apply IH.
  - by eapply reach_step.
  - eapply ending_grows; [by eapply grows_step; [apply reach_life|]|by right].
  - lia.
  - congruence.
  - intros i c Hc. destruct (Hcs i c Hc) as (c1 & Hc1 & E1). destruct (Hcc i c1 Hc1) as (c2 & Hc2 & E2). exists c2. split; [done|congruence].
Qed.

Definition returned (i : nat) (s : state) : Prop := exists c r, calls s !! i = Some c /\ stage c = Returned r.

Lemma ending_number d : exists k, match d with DConn j | DGeneration j => j = k end.
Proof. destruct d; by eexists. Qed.

Lemma select_returns i s c d : reach s -> calls s !! i = Some c -> stage c = AtSelect d -> leads s (returned i).
Proof.
  intros Hr Hc Hs. destruct (ending_number d) as [k Hk]. eapply (leads_end d k); [|done|done|by eapply un_select; [apply reach_unstuck| |]].
  intros s1 Hr1 Hcl _ Hcs. destruct (Hcs i c Hc) as (c' & Hc' & E). rewrite Hs in E.
  eapply (leads_step (ASelect i ByDone)).
  - done.
  - cbn [step]. unfold on_call. rewrite Hc'. simpl. unfold select_turn. rewrite E, Hcl. reflexivity.
  - apply leads_now. eexists _, RDisconnected. split; [apply lookup_insert_eq|done].
Qed.

Lemma call_step i s c c' : calls s !! i = Some c -> call_turn s c = Some c' -> step (ACall i) s = Some (put_call i c' s).
Proof. intros Hc Ht. cbn [step]. unfold on_call. rewrite Hc. simpl. by rewrite Ht. Qed.

Lemma leads_call i s c c' (P : state -> Prop) :
  calls s !! i = Some c -> call_turn s c = Some c' -> leads (put_call i c' s) P -> leads s P.
Proof. intros Hc Ht. eapply leads_step; [|by eapply call_step]. done. Qed.

(** The pump answers a request it has. *)
Lemma awaited_returns i s c :
  reach s -> calls s !! i = Some c -> waits c = true -> stage c = Awaiting -> leads s (returned i).
Proof.
  intros Hr Hc Hw Hs. assert (forall s1 c1, calls s1 !! i = Some c1 -> stage c1 = Awaiting -> is_Some (ack c1) -> leads s1 (returned i)) as Hdone.
  { intros s1 c1 Hc1 Hs1 [r Ha]. eapply leads_call; [done|unfold call_turn; by rewrite Hs1, Ha|].
    apply leads_now. eexists _, r. split; [apply lookup_insert_eq|done]. }
  destruct (ack c) as [r|] eqn:Ea; [by eapply Hdone|].
  destruct (co_await _ _ _ (se_call _ (reach_sends _ Hr) i c Hc) Hs Ea) as (k & p & Hb).
  destruct (busy_inv _ _ _ _ Hb) as (v & Hv & Hp & Hrq). clear Hb.
  remember (rank rank_pump (Run p)) as n eqn:Hn. assert (rank rank_pump (Run p) <= n) as Hle by lia. clear Hn.
  revert s p v Hr Hc Hv Hp Hrq Hle. induction n as [|n IH]; intros s p v Hr Hc Hv Hp Hrq Hle; [simpl in Hle; lia|].
  destruct (pump_turn s k v i p (reach_sends _ Hr) Hv Hp Hrq) as (a & s' & g & d & Ho & Hst & Hsv & Hrk & _ & _ & Hd & Hcs).
  simplify_eq. eapply leads_step; [done|done|]. destruct Hcs as [[Hcs (q & -> & Hq)]|[r Hcs]].
  - eapply (IH s' q (set_sendg (Run q) v)); [by eapply reach_step|by rewrite Hcs|by rewrite Hsv, lookup_insert_eq|done|done|lia].
  - eapply (Hdone s' (set_ack (Some r) c)); [|done|by eexists]. rewrite Hcs. unfold acknowledge. rewrite Hw. simpl. apply lookup_insert_eq.
Qed.

(** Every send under way can come back, whatever it waits for, by the client's
    own turns and a socket that only fails. *)
Lemma send_returns i s c : reach s -> calls s !! i = Some c -> leads s (returned i).
Proof.
  intros Hr Hc. assert (forall s c c', reach s -> calls s !! i = Some c -> call_turn s c = Some c' -> reach (put_call i c' s)) as Hreach.
  { intros t d d' Ht Hd Htd. eapply reach_step; [done|by eapply (call_step i)]. }
  assert (forall s c, reach s -> calls s !! i = Some c -> (exists r, stage c = Returned r) -> leads s (returned i)) as H0.
  { intros t d _ Hd [r Hs]. apply leads_now. by exists d, r. }
  assert (forall s c, reach s -> calls s !! i = Some c -> stage c = AtDone -> leads s (returned i)) as H1.
  { intros t d Ht Hd Hs. assert (call_turn t d = Some (set_stage (AtSelect match kind d with
        | KSendGeneration (GMine g) => DGeneration g | _ => DConn (connDone t) end) d)) as Hct by (unfold call_turn; by rewrite Hs).
    eapply leads_call; [done|done|]. eapply select_returns; [by eapply Hreach|apply lookup_insert_eq|done]. }
  assert (forall s c, reach s -> calls s !! i = Some c -> stage c = AtConn -> leads s (returned i)) as H2.
  { intros t d Ht Hd Hs. destruct (call_turn t d) as [d'|] eqn:Hct.
    - eapply leads_call; [done|done|]. pose proof (Hreach _ _ _ Ht Hd Hct) as Ht'. unfold call_turn in Hct. rewrite Hs in Hct. cbv zeta in Hct.
      match type of Hct with (if ?b then _ else _) = _ => destruct b end; [|destruct (conn t)]; simplify_eq.
      + eapply H0; [done|apply lookup_insert_eq|by eexists].
      + eapply H1; [done|apply lookup_insert_eq|done].
      + eapply H0; [done|apply lookup_insert_eq|by eexists].
    - unfold call_turn in Hct. rewrite Hs in Hct. cbv zeta in Hct.
      match type of Hct with (if ?b then _ else _) = _ => destruct b end; [|destruct (conn t)]; done. }
  assert (forall s c, reach s -> calls s !! i = Some c -> stage c = AtClosed -> leads s (returned i)) as H3.
  { intros t d Ht Hd Hs. assert (call_turn t d = Some (set_stage (if closed t then Returned RClosed else AtConn) d)) as Hct
      by (unfold call_turn; by rewrite Hs).
    eapply leads_call; [done|done|]. pose proof (Hreach _ _ _ Ht Hd Hct) as Ht'. destruct (closed t).
    - eapply H0; [done|apply lookup_insert_eq|by eexists].
    - eapply H2; [done|apply lookup_insert_eq|done]. }
  assert (forall s c, reach s -> calls s !! i = Some c -> stage c = AtContext -> leads s (returned i)) as H4.
  { intros t d Ht Hd Hs. assert (call_turn t d = Some (set_stage (if expired d then Returned RCtx else AtClosed) d)) as Hct
      by (unfold call_turn; by rewrite Hs).
    eapply leads_call; [done|done|]. pose proof (Hreach _ _ _ Ht Hd Hct) as Ht'. destruct (expired d).
    - eapply H0; [done|apply lookup_insert_eq|by eexists].
    - eapply H3; [done|apply lookup_insert_eq|done]. }
  destruct (stage c) eqn:Es; [|by eapply H4|by eapply H3|by eapply H2|by eapply H1|by eapply select_returns| |by eapply H0; eauto].
  - destruct (call_turn s c) as [c'|] eqn:Hct.
    + eapply leads_call; [done|done|]. pose proof (Hreach _ _ _ Hr Hc Hct) as Ht'. unfold call_turn in Hct. rewrite Es in Hct.
      destruct (kind c) as [| |[]]; simplify_eq;
        first [eapply H4; [done|apply lookup_insert_eq|done]|eapply H0; [done|apply lookup_insert_eq|by eexists]].
    + unfold call_turn in Hct. rewrite Es in Hct. by destruct (kind c) as [| |[]].
  - destruct (waits c) eqn:Hw; [by eapply awaited_returns|].
    by destruct (co_plain _ _ _ (se_call _ (reach_sends _ Hr) i c Hc) Hw) as (_ & _ & _ & ?).
Qed.

Definition received (j : nat) (s : state) : Prop :=
  exists r, receives s !! j = Some r /\ match rstage_ r with RGot _ _ | RErr _ => True | _ => False end.

Lemma leads_receive j s r r' (P : state -> Prop) :
  receives s !! j = Some r -> receive_turn s r = Some r' -> leads (put_receive j r' s) P -> leads s P.
Proof. intros Hr Ht. eapply (leads_step (AReceiver j)); [done|]. cbn [step]. unfold on_receive. rewrite Hr. simpl. by rewrite Ht. Qed.

Lemma receive_returns j s r : reach s -> receives s !! j = Some r -> leads s (received j).
Proof.
  intros Hr Hj. assert (forall s r r', reach s -> receives s !! j = Some r -> receive_turn s r = Some r' -> reach (put_receive j r' s)) as Hreach.
  { intros t d d' Ht Hd Htd. eapply (reach_step (AReceiver j)); [done|]. cbn [step]. unfold on_receive. rewrite Hd. simpl. by rewrite Htd. }
  assert (forall s r d, reach s -> receives s !! j = Some r -> rstage_ r = RAtSelect d -> leads s (received j)) as H1.
  { intros t e d Ht He Hs. eapply (leads_end (DConn d) d); [|done|done|by eapply un_receive; [apply reach_unstuck| |]].
    intros t1 Ht1 Hcl Hrc _. eapply (leads_step (AReceiveSelect j ByDone)).
    - done.
    - cbn [step]. unfold on_receive. rewrite Hrc, He. simpl. unfold receive_select. rewrite Hs. simpl in Hcl. rewrite Hcl. reflexivity.
    - apply leads_now. eexists. split; [apply lookup_insert_eq|done]. }
  assert (forall s r, reach s -> receives s !! j = Some r -> rstage_ r = RAtChan -> leads s (received j)) as H2.
  { intros t e Ht He Hs. assert (receive_turn t e = Some (MkReceive (rcancelled e) (RAtSelect (connDone t)))) as Hct
      by (unfold receive_turn; by rewrite Hs).
    eapply leads_receive; [done|done|]. eapply H1; [by eapply Hreach|apply lookup_insert_eq|done]. }
  destruct (rstage_ r) eqn:Es; [|by eapply H2|by eapply H1|apply leads_now; exists r; by rewrite Es|apply leads_now; exists r; by rewrite Es].
  assert (receive_turn s r = Some (MkReceive (rcancelled r) (if closed s then RErr RClosed else RAtChan))) as Hct
    by (unfold receive_turn; by rewrite Es).
  eapply leads_receive; [done|done|]. pose proof (Hreach _ _ _ Hr Hj Hct) as Ht'. destruct (closed s).
  - apply leads_now. eexists. split; [apply lookup_insert_eq|done].
  - eapply H2; [done|apply lookup_insert_eq|done].
Qed.

End TransportWind.
