(* ===== verification/TransportProps.v ===== *)
(** * What the transport client promises senders and receivers ([internal/transport]) *)
From Stdlib Require Import Ascii String.
From stdpp Require Import prelude strings list gmap.
From S2P Require Import Prelude TransportConnect Transport TransportLife TransportSends TransportWaits.

Module TransportProps.

Import TransportConnect Transport TransportLife TransportSends TransportWaits.

(** ** How the pump moves *)

Definition pmove (s : state) (k i : nat) (p q : spump) : Prop :=
  match p, q with
  | PTaken _, PTesting _ _ todo => todo = [ChkCaller; ChkWrite; ChkServe; ChkGeneration]
  | PTesting _ w (t :: todo), PTesting _ w' todo' =>
      todo' = t :: todo \/ (todo' = todo /\ forall c, calls s !! i = Some c -> test_fails s k c w t = false)
  | PTesting _ _ [], PTesting _ _ todo' => todo' = []
  | PTesting _ _ (_ :: _), PRetiring _ _ => True
  | PTesting _ _ [], PWriting _ => True
  | PWriting _, PRetiring _ _ => True
  | PWriting _, PAcking _ None => True
  | PRetiring _ _, PAcking _ (Some _) => True
  | _, _ => False
  end.

Definition pump_step (s s' : state) : Prop :=
  (forall k i q, busy s' k = Some (i, q) ->
     busy s k = Some (i, q) \/ q = PTaken i \/ exists p, busy s k = Some (i, p) /\ pmove s k i p q) /\
  (begun s' = begun s \/ exists k i w, begun s' = begun s ++ [(k, i)] /\ busy s k = Some (i, PTesting i w [])).

Lemma pump_same s s' : (forall k, busy s' k = busy s k) -> begun s' = begun s -> pump_step s s'.
Proof. intros Hb Hw. split; [|by left]. intros k i q. rewrite Hb. by left. Qed.

Lemma same_pump s s' : sends_same s s' -> pump_step s s'.
Proof. intros (_ & _ & ? & _ & _ & ?). by apply pump_same. Qed.

(** One serve's pump moves. *)
Lemma pump_put s s1 s' k v g :
  serves s' = <[k := set_sendg g v]> (serves s1) -> (forall j, busy s1 j = busy s j) -> begun s' = begun s ->
  (forall i q, pump_busy g = Some (i, q) -> q = PTaken i \/ exists p, busy s k = Some (i, p) /\ pmove s k i p q) -> pump_step s s'.
Proof.
  intros Hs Hb1 Hw Hg. split; [|by left]. intros j i q Hb. unfold busy in Hb. rewrite Hs in Hb.
  destruct (decide (k = j)) as [->|Hne]; [rewrite lookup_insert_eq in Hb; right; by apply Hg|].
  rewrite lookup_insert_ne in Hb by done. left. by rewrite <- Hb1.
Qed.

Lemma pump_send s s' k v p :
  serves s !! k = Some v -> sendg v = Run p -> send_turn k v p s = Some s' -> pump_step s s'.
Proof.
  intros Hv Hp H. assert (forall i, request p = Some i -> busy s k = Some (i, p)) as Hb by (intros; by eapply busy_intro).
  assert (forall g s1, (forall j, busy s1 j = busy s j) -> serves s1 = serves s -> begun s1 = begun s -> pump_busy g = None ->
    pump_step s (put_serve k (set_sendg g v) s1)) as Hidle.
  { intros g s1 Hs1 Hsv Hbg Hg. apply (pump_put s s1 _ k v g); try done. by rewrite Hg. }
  assert (forall i q s1, request p = Some i -> request q = Some i -> serves s1 = <[k := set_sendg (Run q) v]> (serves s) ->
    begun s1 = begun s -> pmove s k i p q -> pump_step s s1) as Hmove.
  { intros i q s1 Hr Hq Hs1 Hbg Hm. apply (pump_put s s _ k v (Run q)); try done.
    intros j r. simpl. rewrite Hq. intros [= <- <-]. right. exists p. auto. }
  unfold send_turn in H. destruct p as [|i|i w [|t l]|i|i e|i [e|]]; simpl in Hb.
  - case_hyp H; simplify_eq. by apply Hidle.
  - destruct (calls s !! i) as [c|] eqn:Hc; [|done]. simpl in H. case_bool_decide; simplify_eq.
    + by eapply (Hmove i (PTesting i _ _)).
    + apply Hidle; try done; unfold acknowledge; by destruct (waits c).
  - simplify_eq. split.
    + intros j m q Hm. change (busy (put_serve k (set_sendg (Run (PWriting i)) v) s) j = Some (m, q)) in Hm. rewrite busy_pump in Hm.
      case_decide; [|by left]. simpl in Hm. simplify_eq. right. right. eexists. split; [by apply Hb|done].
    + right. exists k, i, w. split; [done|by apply Hb].
  - destruct (calls s !! i) as [c|] eqn:Hc; [|done]. simpl in H. simplify_eq. destruct (test_fails s k c w t) eqn:Et.
    + by eapply (Hmove i (PRetiring i _)).
    + eapply (Hmove i (PTesting i w l)); try done. simpl. right. split; [done|]. intros d Hd. by simplify_eq.
  - done.
  - simplify_eq. by eapply (Hmove i (PAcking i _)).
  - destruct (calls s !! i) as [c|] eqn:Hc; [|done]. simpl in H. simplify_eq. apply Hidle; try done; unfold acknowledge; by destruct (waits c).
  - destruct (calls s !! i) as [c|] eqn:Hc; [|done]. simpl in H. simplify_eq. apply Hidle; try done; unfold acknowledge; by destruct (waits c).
Qed.

Lemma step_pump a s s' : life s -> step a s = Some s' -> pump_step s s'.
Proof.
  intros HL H. destruct a; cbn [step] in H; try (destruct (serves s !! k) as [v|] eqn:Hv; [|done]; simpl in H);
    try (unfold on_call in H; simplify_option_eq; by apply pump_same);
    try (unfold on_receive in H; simplify_option_eq; by apply pump_same).
  - destruct (calls s !! i); simplify_eq. by apply pump_same.
  - unfold hand_over in H. destruct (calls s !! i) as [c|] eqn:Hc; [|done]. destruct (serves s !! k) as [v|] eqn:Hv; [|done].
    destruct (stage c) eqn:Es; try done. destruct (sendg v) as [[]| | |] eqn:Hp; simplify_eq.
    apply (pump_put s s _ k v (Run (PTaken i))); try done. intros j q [= <- <-]. by left.
  - destruct (sendg v) eqn:Hp; simplify_eq. by eapply pump_send.
  - destruct (sendg v) as [[| |i w l| | |]| | |] eqn:Hp; simplify_eq.
    apply (pump_put s s _ k v (Run (PTesting i true l))); try done. intros j q [= <- <-]. right. eexists.
    split; [by eapply busy_intro|]. simpl. destruct l; auto.
  - unfold write_returns in H. destruct (sendg v) as [[| | |i| |]| | |] eqn:Hp; simplify_eq. destruct err as [e|].
    + apply (pump_put s s _ k v (Run (PRetiring i e))); try done. intros j q [= <- <-]. right. eexists. split; [by eapply busy_intro|done].
    + apply (pump_put s s _ k v (Run (PAcking i None))); try done. intros j q [= <- <-]. right. eexists. split; [by eapply busy_intro|done].
  - destruct (receives s !! j); simplify_eq. by apply pump_same.
  - unfold recv_turn in H. repeat case_hyp H; simplify_eq; apply same_pump; by eapply same_put.
  - unfold read_returns in H. repeat case_hyp H; simplify_eq; apply same_pump; [|by eapply same_put].
    match goal with |- sends_same _ (set_reads _ (put_serve _ ?w _)) => exact (same_put s k v w Hv eq_refl) end.
  - unfold give in H. destruct (receives s !! j) as [r|]; [|done]. destruct (serves s !! k) as [v|] eqn:Hv; [|done].
    destruct (rstage_ r); try done. destruct (recvg v) as [[]| | |] eqn:Hp; simplify_eq. apply same_pump.
    apply (same_put s k v (set_recvg (Run (RReading g)) v) Hv eq_refl).
  - repeat case_hyp H; simplify_eq; apply same_pump; by eapply same_put.
  - apply same_pump. by eapply finish_same.
  - apply same_pump. by apply loop_keeps_sends.
  - destruct (loop s); simplify_eq. by destruct ok; apply pump_same.
  - destruct (loop s); simplify_eq. by apply pump_same.
  - destruct (loop s); simplify_eq. by apply pump_same.
  - case_hyp H; simplify_eq. by apply pump_same.
  - repeat case_hyp H; simplify_eq; by apply pump_same.
  - case_hyp H; simplify_eq. by apply pump_same.
  - simplify_eq. unfold drop_live. by destruct (generation s), (conn s); apply pump_same.
Qed.

Lemma run_reach acts s s' : reach s -> run acts s = Some s' -> reach s'.
Proof.
  revert s. induction acts as [|a acts IH]; intros s Hr; simpl; [by intros [= <-]|].
  destruct (step a s) as [s1|] eqn:E; [|done]. apply IH. by eapply reach_step.
Qed.

(** An invariant from a reachable state on. *)
Lemma run_keeps (P : state -> Prop) acts s s' :
  (forall a t t', reach t -> P t -> step a t = Some t' -> P t') -> reach s -> P s -> run acts s = Some s' -> P s'.
Proof.
  intros Hstep. revert s. induction acts as [|a acts IH]; intros s Hr HP; simpl; [by intros [= <-]|].
  destruct (step a s) as [s1|] eqn:E; [|done]. apply IH; [by eapply reach_step|by eapply Hstep].
Qed.

(** ** A call that is back *)

Definition back (i : nat) (w : list nat) (s : state) : Prop :=
  exists c r, calls s !! i = Some c /\ waits c = true /\ stage c = Returned r /\
    forall k, (k, i) ∈ begun s <-> k ∈ w.

Lemma back_idle i w s k p : reach s -> back i w s -> busy s k <> Some (i, p).
Proof.
  intros Hr (c & r & Hc & Hw & Hs & _) Hb. destruct (se_busy _ (reach_sends _ Hr) _ _ _ Hb) as (d & Hd & Hst & _).
  simplify_eq. rewrite Hw in Hst. destruct Hst. congruence.
Qed.

Lemma back_step i w a s s' : reach s -> back i w s -> step a s = Some s' -> back i w s'.
Proof.
  intros Hr HB H. pose proof HB as (c & r & Hc & Hw & Hs & Hbg).
  destruct (change_forward _ _ _ _ (change_step _ _ _ H) Hc) as (c' & Hc' & Hk & _ & He).
  exists c', r. split; [done|]. split; [by rewrite (waits_kind c c' Hk)|]. split.
  - destruct He as [[Hs' _]|[Ht|([d Hd] & _)]]; [congruence| |congruence]. unfold call_turn in Ht. by rewrite Hs in Ht.
  - destruct (step_pump _ _ _ (reach_life _ Hr) H) as [_ [->|(k & j & w' & -> & Hb)]]; [done|].
    intros m. rewrite elem_of_app, <- Hbg, list_elem_of_singleton. split; [|by left]. intros [?|[= -> ->]]; [done|].
    by destruct (back_idle _ _ _ _ _ Hr HB Hb).
Qed.

(** ** A call cancelled before its admission *)

(** What the pump may be about with it. *)
Definition unstarted (p : spump) : Prop :=
  match p with
  | PTesting _ _ todo => ChkCaller ∈ todo
  | PWriting _ | PAcking _ None => False
  | _ => True
  end.

Definition doomed (i : nat) (s : state) : Prop :=
  exists c, calls s !! i = Some c /\ waits c = true /\ caller c = true /\ (i ∉ (begun s).*2) /\
    forall k p, busy s k = Some (i, p) -> unstarted p.

Lemma doomed_step i a s s' : reach s -> doomed i s -> step a s = Some s' -> doomed i s'.
Proof.
  intros Hr (c & Hc & Hw & Hca & Hbg & Hb) H.
  destruct (change_forward _ _ _ _ (change_step _ _ _ H) Hc) as (c' & Hc' & Hk & Hcc & _).
  destruct (step_pump _ _ _ (reach_life _ Hr) H) as [Hp Hbs].
  exists c'. split; [done|]. split; [by rewrite (waits_kind c c' Hk)|]. split; [auto|]. split.
  - destruct Hbs as [->|(k & j & w & -> & Hj)]; [done|]. rewrite fmap_app, elem_of_app. simpl. rewrite list_elem_of_singleton.
    intros [?|E]; [done|]. simpl in E. subst j. specialize (Hb _ _ Hj). simpl in Hb. by apply elem_of_nil in Hb.
  - intros k q Hq. destruct (Hp k i q Hq) as [Hold|[->|(p & Hold & Hm)]]; [by eapply Hb|done|].
    specialize (Hb _ _ Hold). destruct p as [|?|? w [|t l]|?|? e|? [e|]], q as [|?|? w' l'|?|? e'|? [e'|]]; simpl in *; try done.
    + subst. by left.
    + subst. by apply elem_of_nil in Hb.
    + by apply elem_of_nil in Hb.
    + destruct Hm as [->|[-> Ht]]; [done|]. apply elem_of_cons in Hb as [<-|?]; [|done].
      specialize (Ht _ Hc). simpl in Ht. by rewrite Hw, Hca in Ht.
Qed.

Lemma begun_once s : reach s -> NoDup ((begun s).*2).
Proof. intros Hr. destruct (reach_sends _ Hr). by eapply sublist_NoDup. Qed.

Lemma one_busy s k k' x y : reach s -> busy s k = Some x -> busy s k' = Some y -> k = k'.
Proof.
  intros Hr Hx Hy. destruct (decide (k' = k)) as [->|Hne]; [done|]. destruct x as [i p].
  destruct (busy_inv _ _ _ _ Hx) as (v & Hv & Hp & _). by rewrite (one_pump s k v p k' (reach_life _ Hr) Hv Hp Hne) in Hy.
Qed.

(** C4. Whatever sends, receives, sockets that come and go, cancellations and
    answers of the network interleave: frames are written one at a time in the
    order their sends were admitted, each at most once, to the socket that was
    live when it was sent and to no other one than the generation its sender
    named. A waiting send returns nil exactly if its write succeeded; if the
    write failed its socket was closed; and once it is back, no write of it is
    going on or ever will. A send whose caller gave up before it was admitted
    is never written. *)
Theorem sends_kept s :
  reach s ->
  (NoDup ((begun s).*2) /\ (begun s).*2 `sublist_of` admitted s /\ wrote s `sublist_of` begun s /\
   forall k k' x y, busy s k = Some x -> busy s k' = Some y -> k = k') /\
  (forall k i, (k, i) ∈ begun s -> exists c, calls s !! i = Some c /\ sock c = Some k /\
     forall g, kind c = KSendGeneration (GMine g) -> k = g) /\
  (forall i c r, calls s !! i = Some c -> waits c = true -> stage c = Returned r ->
     (r = RNil <-> exists k, (k, i) ∈ wrote s) /\ (r = RFailed -> exists k, sock c = Some k /\ k ∈ socks s) /\
     forall acts s', run acts s = Some s' ->
       (forall k, (k, i) ∈ begun s' <-> (k, i) ∈ begun s) /\ forall k p, busy s' k <> Some (i, p)) /\
  (forall i c, calls s !! i = Some c -> waits c = true -> caller c = true -> ~ past c ->
     forall acts s', run acts s = Some s' -> i ∉ (begun s').*2).
Proof.
  intros Hr. pose proof (reach_sends _ Hr) as HS. split; [|split; [|split]].
  - split; [by apply begun_once|]. split; [apply (se_begun _ HS)|]. split; [apply (se_wrote _ HS)|]. intros. by eapply one_busy.
  - intros k i Hi. destruct (se_sock _ HS k i Hi) as (c & Hc & Hs). exists c. split; [done|]. split; [done|].
    intros g Hg. by eapply (co_socket _ _ _ (se_call _ HS i c Hc)).
  - intros i c r Hc Hw Hs. destruct (co_answer _ _ _ (se_call _ HS i c Hc) r Hw) as [Ha Hf]; [unfold answer; by rewrite Hs|].
    split; [|split; [done|]].
    + rewrite Ha. unfold written. split.
      * intros (x & -> & Hx)%list_elem_of_fmap. exists (x.1). by destruct x.
      * intros [k Hk]. apply list_elem_of_fmap. by exists (k, i).
    + intros acts s' Hrun.
      set (w := omap (fun x => if decide (x.2 = i) then Some x.1 else None) (begun s)).
      assert (forall k, (k, i) ∈ begun s <-> k ∈ w) as Hwl.
      { intros k. unfold w. rewrite list_elem_of_omap. split; [intros Hk; exists (k, i); simpl; by rewrite decide_True|].
        intros ([m j] & Hm & Hk). simpl in Hk. case_decide; by simplify_eq. }
      assert (back i w s') as HB.
      { eapply (run_keeps (back i w)); [|done| |exact Hrun]; [intros; by eapply back_step|]. by exists c, r. }
      pose proof (run_reach _ _ _ Hr Hrun) as Hr'. split; [|intros; by apply (back_idle i w)].
      destruct HB as (c' & r' & _ & _ & _ & HB). intros k. by rewrite HB, Hwl.
  - intros i c Hc Hw Hca Hp acts s' Hrun.
    assert (doomed i s') as (c' & _ & _ & _ & Hb & _); [|done].
    eapply (run_keeps (doomed i)); [|done| |exact Hrun]; [intros; by eapply doomed_step|]. exists c. repeat (split; [done|]). split.
    + intros Hi. assert (i ∈ admitted s) as Hi' by (eapply elem_of_sublist; [done|apply (se_begun _ HS)]).
      destruct (se_past _ HS i Hi') as (d & ? & ?). by simplify_eq.
    + intros k p Hb. by destruct (Hp (busy_past _ _ _ _ _ HS Hc Hb)).
Qed.

(** A frame sent and acknowledged on the first socket. *)
Definition delivery : list act :=
  [ALoop; ALoop; ADialled true; ALoop; ALoop; ALoop; ALoop; ALoop;
   ASend 0 "a" KSendContext; ACall 0; ACall 0; ACall 0; ACall 0; ACall 0; AHand 0 1;
   APump 1; APump 1; APump 1; APump 1; APump 1; APump 1; AWritten 1 None; APump 1; ACall 0].

Lemma sends_kept_witness :
  exists s, run delivery New = Some s /\ wrote s = [(1, 0)] /\ NoDup ((begun s).*2) /\
    forall acts s', run acts s = Some s' -> (1, 0) ∈ begun s' /\ forall k p, busy s' k <> Some (0, p).
Proof.
  assert (option_map wrote (run delivery New) = Some [(1, 0)]) as Hw by by vm_compute.
  assert (option_map begun (run delivery New) = Some [(1, 0)]) as Hb by by vm_compute.
  assert ((s ← run delivery New; c ← calls s !! 0; Some (waits c, stage c)) = Some (true, Returned RNil)) as Hc by by vm_compute.
  destruct (run delivery New) as [s|] eqn:E; [|done]. injection Hw as Hw. injection Hb as Hb. simpl in Hc.
  destruct (calls s !! 0) as [c|] eqn:Ec; [|done]. simpl in Hc. injection Hc as Hcw Hcs. exists s.
  destruct (sends_kept s (run_reach _ _ _ reach_new E)) as ((Hn & _) & _ & Hr & _).
  destruct (Hr 0 c RNil Ec Hcw Hcs) as (_ & _ & Hl). split; [reflexivity|]. split; [exact Hw|]. split; [exact Hn|]. intros acts s' Hrun.
  destruct (Hl acts s' Hrun) as [H1 H2]. split; [|done]. apply H1. rewrite Hb. by left.
Defined.

(** A client whose [Connect] was cancelled is not closed: a send says that
    nothing is connected. *)
Example cancelled_not_closed :
  (s ← run [AParent; ALoop; ASend 0 "a" KSendContext; ACall 0; ACall 0; ACall 0; ACall 0] New;
   c ← calls s !! 0; Some (loop s, stage c)) = Some (LEnded, Returned RNotConnected).
Proof. by vm_compute. Qed.

End TransportProps.

(** ** What the transport client's receivers get ([internal/transport]) *)
Module TransportReceives.

Import TransportConnect Transport TransportLife TransportSends TransportWaits TransportWind.

(** The frames of one socket. *)
Definition frames (k : nat) (l : list (nat * string)) : list string :=
  omap (fun x => if decide (x.1 = k) then Some x.2 else None) l.

Lemma frames_app k l m : frames k (l ++ m) = frames k l ++ frames k m.
Proof. apply omap_app. Qed.

Lemma frames_one k j f : frames k [(j, f)] = if decide (j = k) then [f] else [].
Proof. unfold frames. simpl. by case_decide. Qed.

Definition pump_of (s : state) (k : nat) : option (goroutine rpump) :=
  match serves s !! k with Some v => Some (recvg v) | None => None end.

(** What the receivers have of what the socket's pump has read. *)
Definition handed (s : state) (k : nat) : Prop :=
  let read := frames k (reads s) in
  let given := frames k (got s).*2 in
  match pump_of s k with
  | None => read = [] /\ given = []
  | Some (Run (ROffering _ f)) => read = given ++ [f]
  | Some (Run _) => read = given
  | Some _ => exists rest, read = given ++ rest /\ length rest <= 1
  end.

Definition has_got (s : state) (j : nat) (f : string) (g : option nat) : Prop :=
  exists r, receives s !! j = Some r /\ rstage_ r = RGot f g.

Record hands (s : state) : Prop := {
  ha_handed : forall k, handed s k;
  ha_got : forall j k f, (j, (k, f)) ∈ got s <-> has_got s j f (Some k);
  ha_nodup : NoDup ((got s).*1);
  ha_stamp : forall j f g, has_got s j f g -> exists k, g = Some k;
}.

Lemma hands_frame s s' :
  reads s' = reads s -> got s' = got s -> (forall k, pump_of s' k = pump_of s k) ->
  (forall j f g, has_got s' j f g <-> has_got s j f g) -> hands s -> hands s'.
Proof.
  intros Hr Hg Hp Hh [H1 H2 H3 H4]. constructor; rewrite ?Hg; try done.
  - intros k. unfold handed. rewrite Hr, Hg, Hp. apply H1.
  - intros j k f. rewrite Hh. apply H2.
  - intros j f g. rewrite Hh. apply H4.
Qed.

Lemma got_same s s' : receives s' = receives s -> forall j f g, has_got s' j f g <-> has_got s j f g.
Proof. intros H j f g. unfold has_got. by rewrite H. Qed.

(** A receiver moves to a place that is not a frame's, from one. *)
Lemma got_put s s' j r r' :
  receives s !! j = Some r -> receives s' = <[j := r']> (receives s) ->
  (forall f g, rstage_ r' = RGot f g <-> rstage_ r = RGot f g) -> forall m f g, has_got s' m f g <-> has_got s m f g.
Proof.
  intros Hr Hs Hst m f g. unfold has_got. rewrite Hs. destruct (decide (j = m)) as [->|Hne].
  - rewrite lookup_insert_eq. split; intros (w & Hw & Hg); simplify_eq; eexists; (split; [done|]); by apply Hst.
  - by rewrite lookup_insert_ne.
Qed.

Lemma recv_put s k v w j :
  serves s !! k = Some v -> recvg w = recvg v -> pump_of (put_serve k w s) j = pump_of s j.
Proof.
  intros Hv Hg. unfold pump_of. simpl. destruct (decide (k = j)) as [->|Hne]; [by rewrite lookup_insert_eq, Hv, Hg|by rewrite lookup_insert_ne].
Qed.

Lemma pump_at s k g v j : pump_of (put_serve k (set_recvg g v) s) j = if decide (k = j) then Some g else pump_of s j.
Proof. unfold pump_of. simpl. case_decide as E; [subst; by rewrite lookup_insert_eq|by rewrite lookup_insert_ne]. Qed.

Definition hands_same (s s' : state) : Prop :=
  reads s' = reads s /\ got s' = got s /\ receives s' = receives s /\ forall k, pump_of s' k = pump_of s k.

Lemma same_hands s s' : hands_same s s' -> hands s -> hands s'.
Proof. intros (? & ? & ? & ?). apply hands_frame; try done. by apply got_same. Qed.

Lemma hands_put s k v w : serves s !! k = Some v -> recvg w = recvg v -> hands_same s (put_serve k w s).
Proof. intros Hv Hg. repeat split. intros j. by eapply recv_put. Qed.

Lemma acknowledge_hands i r c s : hands_same s (acknowledge i r c s).
Proof. unfold acknowledge. by destruct (waits c). Qed.

Lemma send_hands s s' k v p : serves s !! k = Some v -> send_turn k v p s = Some s' -> hands_same s s'.
Proof.
  intros Hv H. assert (forall g s1, hands_same s s1 -> serves s1 = serves s -> hands_same s (put_serve k (set_sendg g v) s1)) as Hput.
  { intros g s1 (H1 & H2 & H3 & H4) Hs. repeat split; try done. intros j. rewrite <- H4. apply (recv_put s1 k v); [by rewrite Hs|done]. }
  assert (forall i r c, serves (acknowledge i r c s) = serves s) as Hack by (intros i r c; unfold acknowledge; by destruct (waits c)).
  unfold send_turn in H. destruct p as [| i|i w [|t l]| |i err|i err]; [case_hyp H| | | | | |];
    try (destruct (calls s !! i) as [c|]; [|done]; simpl in H); try case_bool_decide; simplify_eq;
    try (apply Hput; [apply acknowledge_hands|apply Hack]); try (by apply Hput).
Qed.

(** The pump stops: what it offered is given up. *)
Lemma hands_stop s k v e :
  hands s -> serves s !! k = Some v -> hands (put_serve k (set_recvg (Back e) v) s).
Proof.
  intros [H1 H2 H3 H4] Hv. constructor; try done. intros j. unfold handed. rewrite pump_at. simpl. case_decide as E; [|apply H1].
  subst j. specialize (H1 k). unfold handed, pump_of in H1. rewrite Hv in H1. destruct (recvg v) as [[]| | |]; simpl in H1; try done.
  - rewrite H1. exists []. split; [by rewrite app_nil_r|simpl; lia].
  - rewrite H1. exists []. split; [by rewrite app_nil_r|simpl; lia].
  - exists [f]. split; [done|simpl; lia].
Qed.

Lemma hands_finish s s' k p v :
  hands s -> serves s !! k = Some v -> finish_turn k p v s = Some s' -> hands s'.
Proof.
  intros HH Hv H. assert (forall w s1, serves s1 = <[k := w]> (serves s) -> reads s1 = reads s -> got s1 = got s -> receives s1 = receives s ->
     (recvg w = recvg v \/ (match recvg v with Run _ => False | _ => True end /\ match recvg w with Run _ => False | _ => True end)) -> hands s1) as Hput.
  { intros w s1 Hs Hr Hg Hrc Hw. destruct HH as [H1 H2 H3 H4]. constructor; rewrite ?Hg; try done.
    - intros j. unfold handed, pump_of. rewrite Hs, Hr, Hg. specialize (H1 j). unfold handed, pump_of in H1.
      destruct (decide (k = j)) as [->|Hne]; [|by rewrite lookup_insert_ne]. rewrite lookup_insert_eq. rewrite Hv in H1.
      destruct Hw as [->|[Hw1 Hw2]]; [done|]. destruct (recvg v); try done; by destruct (recvg w).
    - intros j m f. rewrite (got_same s s1 Hrc). apply H2.
    - intros j f g. rewrite (got_same s s1 Hrc). apply H4. }
  unfold finish_turn, finish in H.
  destruct p; [destruct (recvg v) eqn:E|destruct (sendg v) eqn:E|destruct (pingg v) eqn:E]; simplify_eq/=;
    (eapply Hput; [reflexivity|done|done|done|]); simpl; auto.
Qed.

Lemma loop_hands s s' : life s -> hands s -> loop_turn s = Some s' -> hands s'.
Proof.
  intros HL HH H. assert (forall k e s1, take_err k s = Some (e, s1) -> hands_same s s1) as Htake.
  { intros k e s1 Ht. destruct (life_take _ _ _ _ HL Ht) as (v & l & Hv & _ & ->). by apply (hands_put s k v). }
  unfold loop_turn in H. destruct (loop s) eqn:El; try done; try (injection H as <-); try (by apply (same_hands s)).
  - by destruct (generation s); apply (same_hands s).
  - destruct (proj2 (li_next _ HL) k) as [_ Hno]; [by rewrite El|]. destruct HH as [H1 H2 H3 H4]. constructor; try done.
    intros j. specialize (H1 j). unfold handed, pump_of in *. simpl. destruct (decide (k = j)) as [->|Hne]; [|rewrite lookup_insert_ne by done; exact H1].
    rewrite lookup_insert_eq. simpl. rewrite Hno in H1. destruct H1 as [-> ->]. done.
  - destruct (take_err k s) as [[e s1]|] eqn:Et; simplify_eq/=. apply (same_hands s); [exact (Htake _ _ _ Et)|done].
  - destruct (take_err k s) as [[e s1]|] eqn:Et; simplify_eq/=. apply (same_hands s); [exact (Htake _ _ _ Et)|done].
  - case_match; [|simplify_eq; by apply (same_hands s)].
    destruct (take_err k s) as [[e s1]|] eqn:Et; simplify_eq/=. apply (same_hands s); [exact (Htake _ _ _ Et)|done].
Qed.

Lemma call_hands i f s s' : on_call i f s = Some s' -> hands_same s s'.
Proof. unfold on_call. intros H. by simplify_option_eq. Qed.

(** A frame passes from the pump to a receiver. *)
Lemma give_hands s s' j k : life s -> hands s -> give j k s = Some s' -> hands s'.
Proof.
  intros HL HH H. unfold give in H. destruct (receives s !! j) as [r|] eqn:Hr; [|done].
  destruct (serves s !! k) as [v|] eqn:Hv; [|done]. destruct (rstage_ r) eqn:Es; try done.
  destruct (li_joined _ HL k v Hv) as [_ Hst]. unfold stamp_ok in Hst. destruct (recvg v) as [[|g|g f]| | |] eqn:Hp; try done.
  subst g. injection H as <-. destruct HH as [H1 H2 H3 H4].
  assert (forall g0 f0, ~ has_got s j f0 g0) as Hno. { intros g0 f0 (r0 & Hr0 & Hg0). simplify_eq. congruence. }
  assert (forall m f0 g0, has_got (put_receive j (MkReceive (rcancelled r) (RGot f (Some k))) s) m f0 g0 <->
            has_got s m f0 g0 \/ (m = j /\ f0 = f /\ g0 = Some k)) as Hhas.
  { intros m f0 g0. unfold has_got. simpl. destruct (decide (j = m)) as [->|Hne].
    - rewrite lookup_insert_eq. split; [intros (w & Hw & Hg); simplify_eq/=; auto|].
      intros [(w & Hw & Hg)|(_ & -> & ->)]; [by destruct (Hno g0 f0); exists w|by eexists].
    - rewrite lookup_insert_ne by done. split; [auto|]. intros [?|[? _]]; [done|congruence]. }
  constructor.
  - intros m. specialize (H1 m). unfold handed, pump_of in *. simpl. rewrite fmap_app, frames_app. change ([(j, (k, f))].*2) with [(k, f)]. rewrite frames_one.
    destruct (decide (k = m)) as [->|Hne]; [rewrite lookup_insert_eq; simpl; by rewrite Hv, Hp in H1|].
    rewrite lookup_insert_ne, app_nil_r by done. done.
  - intros m q f0. change (has_got _ m f0 (Some q)) with (has_got (put_receive j (MkReceive (rcancelled r) (RGot f (Some k))) s) m f0 (Some q)).
    rewrite Hhas. simpl. rewrite elem_of_app, list_elem_of_singleton, H2. split; (intros [?|E]; [by left|right]).
    + by simplify_eq.
    + by destruct E as (-> & -> & [= ->]).
  - simpl. rewrite fmap_app. apply NoDup_app. split; [done|]. split; [|apply NoDup_singleton].
    intros m ([m' [q f0]] & -> & Hm)%list_elem_of_fmap. simpl. intros ->%list_elem_of_singleton.
    apply H2 in Hm. by destruct (Hno (Some q) f0).
  - intros m f0 g0 Hg. change (has_got (put_receive j (MkReceive (rcancelled r) (RGot f (Some k))) s) m f0 g0) in Hg.
    apply Hhas in Hg as [Hg|(_ & _ & ->)]; [by eapply H4|by eexists].
Qed.

Lemma hands_step a s s' : life s -> hands s -> step a s = Some s' -> hands s'.
Proof.
  intros HL HH H. destruct a; cbn [step] in H; try (destruct (serves s !! k) as [v|] eqn:Hv; [|done]; simpl in H);
    try (apply (same_hands s); [by eapply call_hands|done]).
  - destruct (calls s !! i); simplify_eq. by apply (same_hands s).
  - unfold hand_over in H. destruct (calls s !! i) as [c|]; [|done]. destruct (serves s !! k) as [v|] eqn:Hv; [|done].
    destruct (stage c); try done. destruct (sendg v) as [[]| | |]; simplify_eq. apply (same_hands s); [|done]. exact (hands_put s k v (set_sendg (Run (PTaken i)) v) Hv eq_refl).
  - destruct (sendg v); simplify_eq. apply (same_hands s); [by eapply send_hands|done].
  - destruct (sendg v) as [[]| | |]; simplify_eq. apply (same_hands s); [by eapply hands_put|done].
  - unfold write_returns in H. destruct (sendg v) as [[]| | |]; simplify_eq. apply (same_hands s); [|done].
    destruct err; [by eapply hands_put|]. exact (hands_put s k v (set_sendg (Run (PAcking i None)) v) Hv eq_refl).
  - destruct (receives s !! j) eqn:E; simplify_eq. apply (hands_frame s); try done. intros m f g. unfold has_got. simpl.
    destruct (decide (j = m)) as [->|Hne]; [|by rewrite lookup_insert_ne]. rewrite lookup_insert_eq, E. split; intros (w & Hw & Hg); by simplify_eq.
  - unfold on_receive in H. destruct (receives s !! j) as [r|] eqn:Hr; [|done]. simpl in H.
    destruct (receive_turn s r) as [r'|] eqn:Et; simplify_eq/=. apply (hands_frame s); try done. eapply got_put; [done|done|].
    unfold receive_turn in Et. intros f g. destruct (rstage_ r); simplify_eq; simpl; [by destruct (closed s)|done].
  - unfold on_receive in H. destruct (receives s !! j) as [r|] eqn:Hr; [|done]. simpl in H.
    destruct (receive_select s w r) as [r'|] eqn:Et; simplify_eq/=. apply (hands_frame s); try done. eapply got_put; [done|done|].
    unfold receive_select in Et. intros f g. destruct (rstage_ r); simplify_eq; destruct w; case_hyp Et; by simplify_eq.
  - unfold on_receive in H. destruct (receives s !! j) as [r|] eqn:Hr; [|done]. simplify_eq/=.
    apply (hands_frame s); try done. by eapply got_put.
  - destruct (recvg v) as [[|g|g f]| | |] eqn:Hp; simplify_eq; unfold recv_turn in H.
    + simplify_eq. destruct HH as [H1 H2 H3 H4]. constructor; try done. intros j. unfold handed. rewrite pump_at. simpl.
      case_decide as E; [|apply H1]. subst j. specialize (H1 k). unfold handed, pump_of in H1. by rewrite Hv, Hp in H1.
    + case_hyp H; simplify_eq. by apply hands_stop.
  - unfold read_returns in H. destruct (recvg v) as [[|g|]| | |] eqn:Hp; simplify_eq. destruct answer0 as [f|e]; [|by apply hands_stop].
    destruct HH as [H1 H2 H3 H4]. constructor; try done. intros j. specialize (H1 j). unfold handed, pump_of in *. simpl.
    rewrite frames_app, frames_one. destruct (decide (k = j)) as [->|Hne].
    + rewrite lookup_insert_eq. simpl. rewrite Hv, Hp in H1. by rewrite H1.
    + by rewrite lookup_insert_ne, app_nil_r.
  - by eapply give_hands.
  - destruct (pingg v) as [[]| | |]; simplify_eq. repeat case_hyp H; simplify_eq; (apply (same_hands s); [by eapply hands_put|done]).
  - by eapply hands_finish.
  - by eapply loop_hands.
  - destruct (loop s); simplify_eq. by destruct ok; apply (same_hands s).
  - destruct (loop s); simplify_eq. by apply (same_hands s).
  - destruct (loop s); simplify_eq. by apply (same_hands s).
  - case_hyp H; simplify_eq. by apply (same_hands s).
  - simplify_eq. by apply (same_hands s).
  - repeat case_hyp H; simplify_eq; by apply (same_hands s).
  - case_hyp H; simplify_eq. by apply (same_hands s).
  - simplify_eq. unfold drop_live. by destruct (generation s), (conn s); apply (same_hands s).
  - case_hyp H; simplify_eq. by apply (same_hands s).
Qed.

Lemma reach_hands s : reach s -> hands s.
Proof.
  intros H. induction H as [|a s s' Hr IH Hs]; [|by eapply hands_step; [apply reach_life| |]].
  assert (forall j f g, ~ has_got New j f g) as Hno by (intros j f g (r & Hr & _); simpl in Hr; by rewrite lookup_empty in Hr).
  constructor; [done| |apply NoDup_nil_2|by intros j f g ?%Hno].
  intros j k f. split; [by intros ?%elem_of_nil|by intros ?%Hno].
Qed.

(** C27. The frames of a socket reach the receivers in the order they were
    read, each one once, none but the last read left out, and each stamped with
    the generation of its socket; and every send and every receive that is
    under way, whatever it waits for, can be brought back by the client's own
    goroutines and a socket that only fails. *)
Theorem receives_kept s :
  reach s ->
  (forall k, frames k (got s).*2 `prefix_of` frames k (reads s) /\
     length (frames k (reads s)) <= S (length (frames k (got s).*2))) /\
  NoDup ((got s).*1) /\
  (forall j r f g, receives s !! j = Some r -> rstage_ r = RGot f g -> exists k, g = Some k /\ (j, (k, f)) ∈ got s) /\
  (forall i c, calls s !! i = Some c -> leads s (returned i)) /\
  (forall j r, receives s !! j = Some r -> leads s (received j)).
Proof.
  intros Hr. pose proof (reach_hands _ Hr) as [H1 H2 H3 H4]. split; [|split; [done|split; [|split]]].
  - intros k. specialize (H1 k). unfold handed in H1. destruct (pump_of s k) as [[[|g|g f]| | |]|]; simpl in H1.
    + rewrite H1. split; [done|lia].
    + rewrite H1. split; [done|lia].
    + rewrite H1, length_app. simpl. split; [by apply prefix_app_r|lia].
    + destruct H1 as (rest & -> & Hl). rewrite length_app. split; [by apply prefix_app_r|lia].
    + destruct H1 as (rest & -> & Hl). rewrite length_app. split; [by apply prefix_app_r|lia].
    + destruct H1 as (rest & -> & Hl). rewrite length_app. split; [by apply prefix_app_r|lia].
    + destruct H1 as [-> ->]. split; [done|simpl; lia].
  - intros j r f g Hj Hg. assert (has_got s j f g) as Hh by by exists r. destruct (H4 _ _ _ Hh) as [k ->]. exists k. split; [done|].
    by apply H2.
  - intros. by eapply send_returns.
  - intros. by eapply receive_returns.
Qed.

(** A frame read on the first socket and received. *)
Definition arrival : list act :=
  [ALoop; ALoop; ADialled true; ALoop; ALoop; ALoop; ALoop; ALoop; AReceive 0; AReceiver 0; AReceiver 0;
   ARecv 1; ARead 1 (inl "a"); AGive 0 1; ARead 1 (inl "b"); AReceive 1; AReceiver 1; ASend 0 "c" KSend; ACall 0].

Lemma receives_kept_witness :
  exists s, frames 1 (reads s) = ["a"; "b"] /\ frames 1 (got s).*2 `prefix_of` frames 1 (reads s) /\
    leads s (returned 0) /\ leads s (received 1).
Proof.
  assert (option_map (fun s => frames 1 (reads s)) (run arrival New) = Some ["a"; "b"]) as Hf by by vm_compute.
  assert ((s ← run arrival New; c ← calls s !! 0; Some (stage c)) = Some AtContext) as Hc by by vm_compute.
  assert ((s ← run arrival New; r ← receives s !! 1; Some (rstage_ r)) = Some RAtChan) as Hv by by vm_compute.
  destruct (run arrival New) as [s|] eqn:E; [|done]. injection Hf as Hf. simpl in Hc, Hv.
  destruct (calls s !! 0) as [c|] eqn:Ec; [|done]. destruct (receives s !! 1) as [r|] eqn:Er; [|done].
  exists s. destruct (receives_kept s (TransportProps.run_reach _ _ _ reach_new E)) as (Hp & _ & _ & Hs & Hr).
  split; [exact Hf|]. split; [apply Hp|]. split; [by eapply Hs|by eapply Hr].
Defined.

End TransportReceives.
