(* ===== verification/Update.v ===== *)
(** * Which release may be installed ([internal/update])

    [version.go]: versions, their comparison and the test a release passes
    before the daemon installs it unasked; [checksum.go]'s names of the files
    of a release. *)
From Stdlib Require Import Ascii String.
From stdpp Require Import prelude strings list.
From S2P Require Import Prelude Utf8 Strconv.

Module Update.

Import Utf8 Strconv.

Local Open Scope Z_scope.

Inductive Comparison := Older | Same | Newer.

#[export] Instance Comparison_eq_dec : EqDecision Comparison.
Proof. solve_decision. Defined.

Definition v_char : ascii := "v"%char.
Definition dot : ascii := "."%char.

(** [strings.TrimPrefix(s, "v")]. *)
Definition trim_v (s : bytes) : bytes := default s (CutPrefix [v_char] s).

(** [strings.IndexAny(s, "-+")] and the cut before it. *)
Definition suffix_char (c : ascii) : bool := bool_decide (c = "-"%char) || bool_decide (c = "+"%char).
Fixpoint cut_suffix (s : bytes) : bytes :=
  match s with [] => [] | c :: s => if suffix_char c then [] else c :: cut_suffix s end.

(** [strconv.Atoi]: a sign, then digits, within 64 bits. *)
Definition Atoi (l : bytes) : option Z :=
  let '(neg, d) :=
    match l with
    | c :: t => if bool_decide (c = "-"%char) then (true, t) else if bool_decide (c = "+"%char) then (false, t) else (false, l)
    | [] => (false, [])
    end in
  if bool_decide (d = []) || negb (forallb is_digit d) then None
  else
    let n := if (neg : bool) then - value d else value d in
    if (min_int64 <=? n) && (n <=? max_int64) then Some n else None.

Definition component (p : bytes) : option Z :=
  n ← Atoi p; if n <? 0 then None else Some n.

Definition parseSemver (s : bytes) : option (Z * Z * Z) :=
  match Split dot (cut_suffix (trim_v s)) with
  | [a; b; c] => a ← component a; b ← component b; c ← component c; Some (a, b, c)
  | _ => None
  end.

Definition cmpInt (a b : Z) : Comparison := if a <? b then Older else if b <? a then Newer else Same.

(** [None]: [ErrInvalidVersion]. *)
Definition CompareVersions (current latest : bytes) : option Comparison :=
  '(cMaj, cMin, cPat) ← parseSemver current;
  '(lMaj, lMin, lPat) ← parseSemver latest;
  Some (if negb (cMaj =? lMaj) then cmpInt cMaj lMaj
        else if negb (cMin =? lMin) then cmpInt cMin lMin
        else cmpInt cPat lPat).

Record Release := MkRelease { Tag : bytes; Draft : bool; Prerelease : bool }.

(** [Eligible]'s errors: [ErrUpToDate], or [ErrNotEligible] with its reason. *)
Inductive reason := NotARelease | DraftRelease | PreRelease | TagNotPlain | CannotCompare | Downgrade.
Inductive refusal := ErrUpToDate | ErrNotEligible (r : reason).

Definition isPlainReleaseTag (tag : bytes) : bool :=
  let parts := Split dot (trim_v tag) in
  if negb (length parts =? 3)%nat then false
  else forallb (fun p => negb (bool_decide (p = [])) && forallb is_digit p) parts.

Definition Eligible (current : bytes) (rel : Release) : option refusal :=
  match parseSemver current with
  | None => Some (ErrNotEligible NotARelease)
  | Some _ =>
      if Draft rel then Some (ErrNotEligible DraftRelease)
      else if Prerelease rel then Some (ErrNotEligible PreRelease)
      else if negb (isPlainReleaseTag (Tag rel)) then Some (ErrNotEligible TagNotPlain)
      else match CompareVersions current (Tag rel) with
           | None => Some (ErrNotEligible CannotCompare)
           | Some Same => Some ErrUpToDate
           | Some Newer => Some (ErrNotEligible Downgrade)
           | Some Older => None
           end
  end.

(** [osTitles], [archNames] and [AssetName]; [None]: [ErrUnsupportedPlatform]. *)
Definition osTitles (goos : string) : option string :=
  if bool_decide (goos = "linux") then Some "Linux" else if bool_decide (goos = "darwin") then Some "Darwin" else None.
Definition archNames (goarch : string) : option string :=
  if bool_decide (goarch = "amd64") then Some "x86_64" else if bool_decide (goarch = "arm64") then Some "arm64" else None.

Definition AssetName (version goos goarch : string) : option string :=
  osTitle ← osTitles goos;
  archName ← archNames goarch;
  let v := string_of_list_ascii (trim_v (list_ascii_of_string version)) in
  Some ("pyry_" +:+ v +:+ "_" +:+ osTitle +:+ "_" +:+ archName +:+ ".tar.gz").

(** ** What is eligible *)

Definition digits (l : bytes) : Prop := l <> [] /\ forallb is_digit l = true.

Lemma plain_parts tag :
  isPlainReleaseTag tag = true <->
  exists a b c, digits a /\ digits b /\ digits c /\ trim_v tag = a ++ dot :: b ++ dot :: c.
Proof.
  unfold isPlainReleaseTag. split.
  - destruct (Split_pieces dot (trim_v tag)) as (f & fs & E & Hl & _). rewrite E.
    destruct fs as [|g [|h [|]]]; try done. simpl. rewrite !andb_true_iff, !negb_true_iff, !bool_decide_eq_false.
    intros ([Hf Hfd] & [Hg Hgd] & [Hh Hhd] & _). exists f, g, h. simpl in Hl. rewrite app_nil_r in Hl. by split_and!.
  - intros (a & b & c & [Ha Had] & [Hb Hbd] & [Hc Hcd] & ->).
    assert (forall l, forallb is_digit l = true -> dot ∉ l) as Hd by (intros l; by apply nodigit_notin).
    rewrite !Split_app, Split_nosep by auto. simpl. by rewrite !bool_decide_false, Had, Hbd, Hcd by done.
Qed.

Lemma cut_plain l : (forall c, c ∈ l -> suffix_char c = false) -> cut_suffix l = l.
Proof. induction l as [|c l IH]; intros H; simpl; [done|]. rewrite (H c) by by left. rewrite IH; [done|]. intros d Hd. apply H. by right. Qed.

Lemma digit_suffix c : is_digit c = true -> suffix_char c = false.
Proof. intros H. unfold suffix_char. apply orb_false_iff. split; apply bool_decide_false; by intros ->. Qed.

Lemma component_digits l : digits l -> component l = if value l <=? max_int64 then Some (value l) else None.
Proof.
  intros [Hne Hd]. destruct (fixed_value l Hd) as [_ [Hv _]]. destruct l as [|c l]; [done|].
  pose proof Hd as Hc. simpl in Hc. apply andb_true_iff in Hc as [Hc _]. pose proof (digit_suffix c Hc) as Hs. unfold suffix_char in Hs.
  apply orb_false_iff in Hs as [Hm Hp]. unfold component, Atoi. rewrite Hm, Hp. rewrite bool_decide_false by done. rewrite Hd. simpl negb. cbv iota.
  replace (min_int64 <=? value (c :: l)) with true by (unfold min_int64; lia). simpl.
  destruct (value (c :: l) <=? max_int64); [|done]. simpl. by replace (value (c :: l) <? 0) with false by lia.
Qed.

(** The version a plain tag names. *)
Lemma parse_plain tag a b c :
  digits a -> digits b -> digits c -> trim_v tag = a ++ dot :: b ++ dot :: c ->
  parseSemver tag = if (value a <=? max_int64) && (value b <=? max_int64) && (value c <=? max_int64)
                    then Some (value a, value b, value c) else None.
Proof.
  intros Ha Hb Hc E. assert (forall l, digits l -> dot ∉ l) as Hd by (intros l [_ ?]; by apply nodigit_notin).
  unfold parseSemver. rewrite E, cut_plain.
  - rewrite !Split_app, Split_nosep by auto. rewrite !component_digits by done.
    destruct (value a <=? max_int64); [|done]. simpl. destruct (value b <=? max_int64); [|done]. simpl. by destruct (value c <=? max_int64).
  - intros d. rewrite elem_of_app, elem_of_cons, elem_of_app, elem_of_cons.
    assert (forall l, digits l -> d ∈ l -> suffix_char d = false) as Hs.
    { intros l [_ Hl] Hin. apply digit_suffix. rewrite forallb_forall in Hl. apply Hl. by rewrite <- list_elem_of_In. }
    intros [?|[->|[?|[->|?]]]]; try done; eauto.
Qed.

Definition before (v w : Z * Z * Z) : Prop :=
  let '(a, b, c) := v in let '(x, y, z) := w in a < x \/ (a = x /\ (b < y \/ (b = y /\ c < z))).

Lemma compare_older current latest v w :
  parseSemver current = Some v -> parseSemver latest = Some w -> CompareVersions current latest = Some Older <-> before v w.
Proof.
  intros Hv Hw. unfold CompareVersions. rewrite Hv, Hw. destruct v as [[a b] c], w as [[x y] z]. simpl. unfold cmpInt.
  destruct (Z.eqb_spec a x) as [->|]; simpl; [destruct (Z.eqb_spec b y) as [->|]; simpl|];
    (case_goal; reflect_bools; [split; [lia|done]|]); (case_goal; reflect_bools; split; [done|lia|done|lia]).
Qed.

(** A release may be installed exactly when the running build is a release,
    the release is no draft and no pre-release, its tag is three numbers, of
    digits only, and their version is later than the running one. *)
Lemma eligible_exactly current rel :
  Eligible current rel = None <->
  exists v a b c, parseSemver current = Some v /\ Draft rel = false /\ Prerelease rel = false /\
    digits a /\ digits b /\ digits c /\ trim_v (Tag rel) = a ++ dot :: b ++ dot :: c /\
    (value a <= max_int64 /\ value b <= max_int64 /\ value c <= max_int64) /\ before v (value a, value b, value c).
Proof.
  unfold Eligible. destruct (parseSemver current) as [v|] eqn:Ev; [|split; [done|by intros (v & ? & ? & ? & ? & _)]].
  destruct (Draft rel); [split; [done|by intros (? & ? & ? & ? & _ & ? & _)]|].
  destruct (Prerelease rel); [split; [done|by intros (? & ? & ? & ? & _ & _ & ? & _)]|].
  destruct (isPlainReleaseTag (Tag rel)) eqn:Ep.
  2: { split; [done|]. intros (? & a & b & c & _ & _ & _ & Ha & Hb & Hc & E & _).
       enough (isPlainReleaseTag (Tag rel) = true) by congruence. apply plain_parts. by exists a, b, c. }
  apply plain_parts in Ep as (a & b & c & Ha & Hb & Hc & E). pose proof (parse_plain _ _ _ _ Ha Hb Hc E) as Hp. simpl negb. cbv iota.
  destruct ((value a <=? max_int64) && (value b <=? max_int64) && (value c <=? max_int64)) eqn:Eb.
  - pose proof (compare_older _ _ _ _ Ev Hp) as Ho. apply andb_true_iff in Eb as [[E1 E2]%andb_true_iff E3]. reflect_bools.
    split.
    + intros Hn. exists v, a, b, c. do 7 (split; [done|]). split; [lia|]. apply Ho. by destruct (CompareVersions current (Tag rel)) as [[]|].
    + intros (v' & a' & b' & c' & Hv' & _ & _ & Ha' & Hb' & Hc' & E' & _ & Hbf).
      pose proof (parse_plain _ _ _ _ Ha' Hb' Hc' E') as Hp'. rewrite Hp in Hp'. match type of Hp' with _ = (if ?b then _ else _) => destruct b; [|done] end.
      injection Hp' as E4 E5 E6. injection Hv' as <-. rewrite <- E4, <- E5, <- E6 in Hbf. by rewrite (proj2 Ho Hbf).
  - unfold CompareVersions. rewrite Ev. destruct v as [[? ?] ?]. simpl. rewrite Hp. simpl. split; [done|].
    intros (v' & a' & b' & c' & _ & _ & _ & Ha' & Hb' & Hc' & E' & (? & ? & ?) & _).
    pose proof (parse_plain _ _ _ _ Ha' Hb' Hc' E') as Hp'. rewrite Hp in Hp'.
    replace (value a' <=? max_int64) with true in Hp' by lia. replace (value b' <=? max_int64) with true in Hp' by lia.
    by replace (value c' <=? max_int64) with true in Hp' by lia.
Qed.

(** The comment on [Eligible] refuses a tag that is not exactly
    [v<major>.<minor>.<patch>]; one without the [v] passes. *)
Example tag_without_v :
  Eligible (list_ascii_of_string "1.0.0") (MkRelease (list_ascii_of_string "1.0.1") false false) = None.
Proof. by vm_compute. Qed.

End Update.
